(* ===== verification/_CoqProject ===== *)
-Q . S2P
Prelude.v
RustStr.v
StrFacts.v
Protocol.v
HostModel.v
HostCodec.v
HostCodecProof.v
HostRoundTrip.v
HostStore.v
Classify.v
ClassifySafety.v
TaskRegistry.v
TaskRegistryProof.v
TaskLifecycle.v
RemotePath.v
SyncPlan.v
SyncConverge.v
Sftp.v
SyncPreflight.v
Glob.v
OpenSshMatch.v
IncludeEnv.v
OpenSshInclude.v
IncludeScope.v
Targets.v
Inventory.v
InventoryExpand.v
InventoryParse.v
ShellWords.v
RemoteCommand.v
Config.v
ConfigProof.v
ProxyCommand.v
Resolver.v
HostTrust.v
ConnectionManager.v
TreeWalk.v
RemoteServer.v
RemoteModel.v
RemoteFs.v
RemoteMutation.v
Program.v
LocalPath.v
TransferOps.v
Transfer.v
TransferSafety.v
TransferExact.v
TransferTree.v
TransferTreeSafety.v
SyncRun.v
Authenticate.v
Connect.v
Exec.v
Socks.v
Forward.v
Privileged.v
Fleet.v
DaemonServer.v
DaemonClient.v
Screen.v
Browser.v
BrowserSafety.v
LocalPicker.v
Float32.v
RemoteInfo.v
Mcp.v
Interleave.v
DesktopSession.v
DesktopHealing.v
DesktopConnect.v
History.v
