(* ===== verification/Prelude.v ===== *)
(** * Kaduox-SSH: a verification development

    Kaduox-SSH is an SSH client in Rust: a core library (connections, commands,
    transfers, forwarding), an OpenSSH configuration reader, a host library, a
    daemon, a command line with a terminal interface, a desktop application and an
    MCP server.  This library models the logic of these parts that decides
    something, from the sources under [src/], and proves what each promises.

    ** How the parts interact

    A frontend names a host.  [hosts] (the saved library) and [openssh] (the user's
    configuration) resolve it to a [ConnectionConfig] of [core], which [core]
    connects by its route of jump hosts, checks the server's key, authenticates,
    and keeps in the connection manager that the frontends share.  Over a
    connection run commands, shells, forwards and SFTP sessions, and on those the
    [transfer] crate moves files and synchronizes trees, tracked by a task registry.

    ** Files, by part of the program

    - Foundations.  [Prelude] (results, machine integers, tactics), [RustStr] and
      [StrFacts] ([str] and UTF-8), [TreeWalk] (worklists over trees), [Program]
      (programs as trees of requests, monitors with their weakest preconditions,
      and the interleavings of a [JoinSet]), [Interleave] (tasks over shared state,
      by rely and guarantee), [LocalPath].
    - Daemon: [Protocol] ([daemon/src/protocol.rs]), [DaemonServer] ([server.rs]),
      [DaemonClient] ([client.rs]).
    - Host library: [HostModel] ([hosts/src/model.rs]), [HostCodec] and its proofs
      [HostCodecProof], [HostRoundTrip] ([codec.rs]), [HostStore] ([store.rs]),
      [Resolver] ([resolver.rs], [import.rs]).
    - OpenSSH configuration: [Glob], [OpenSshMatch] ([openssh_match.rs]),
      [IncludeEnv], [OpenSshInclude], [IncludeScope] ([openssh_include.rs] and its
      [env.rs], [openssh_config_trust.rs]), [Targets] ([target.rs],
      [host_catalog.rs]), [Inventory], [InventoryExpand], [InventoryParse]
      ([inventory.rs] and the CLI's [fleet_targets.rs]).
    - Core: [Config], [ConfigProof] ([config.rs]), [HostTrust] ([host_trust.rs] and
      [check_server_key] of [handler.rs]), [Authenticate] ([auth.rs],
      [credentials.rs], [credentials_store.rs]), [Connect] ([connect.rs] and the
      connecting half of [client.rs]), [Exec] (the sessions of [client.rs]),
      [ConnectionManager] ([manager.rs], [manager/jump.rs]), [ShellWords] (how a
      shell reads a line), [RemoteCommand] ([command.rs]), [ProxyCommand],
      [Socks], [Forward] ([forward.rs] and the channels of [handler.rs]),
      [Privileged] ([privileged.rs]).
    - Transfers: [RemotePath], [Sftp], [RemoteServer], [RemoteModel] (names, and
      the server as a parameter with its laws and a concrete instance), [RemoteFs]
      ([remote_fs.rs]), [RemoteMutation] ([remote_mutation.rs]), [SyncPlan],
      [SyncConverge], [SyncPreflight], [SyncRun] ([sync.rs] and its preflights),
      [TaskRegistry], [TaskRegistryProof], [TaskLifecycle] ([transfer_task.rs],
      [transfer_task_manager.rs]), [TransferOps], [Transfer], [TransferSafety],
      [TransferExact], [TransferTree], [TransferTreeSafety] ([transfer.rs],
      [transfer_policy.rs], [transfer_download_policy.rs], [client_ops.rs],
      [symlink_policy.rs]).
    - Frontends: [Classify], [ClassifySafety] (the desktop's [command_classify.rs]),
      [Fleet] (the CLI's [fleet_main.rs]), [Screen], [Browser],
      [BrowserSafety] (the terminal's remote browser: [tui_app.rs],
      [tui_actions.rs], [tui_task_panel.rs]), [LocalPicker]
      ([tui_local_picker.rs]), [Float32] ([f32]), [RemoteInfo] (the metrics and
      basic information of [info.rs]), [Mcp] ([kaduox-ssh-mcp/src/main.rs]), [DesktopSession],
      [DesktopHealing], [DesktopConnect] (the desktop's [state.rs] and
      [commands/connection.rs]), [History] ([history.rs]).

    ** How code becomes definitions

    A struct is a [Record], an enum an [Inductive], a function a [Definition] or
    [Fixpoint] of the same name, a [Result] the type [result] below with the
    constant part of the message.  Text is the list of its scalar values, bytes and
    machine integers are [Z] with their bounds and wrap-arounds written out, an
    ordered map is a [gmap] read in key order.  Code that waits for others comes in
    three forms: state passing over a file server that is a parameter ([RemoteFs],
    [RemoteMutation]); programs over requests, where every answer, every failure and
    every deadline is the environment's ([Authenticate], [Connect], [Exec], the
    transfers, the synchronization); and step relations over shared state, where a
    trace is an interleaving ([ConnectionManager], the task manager,
    [DesktopSession]).
    Third-party code (russh, russh-sftp, russh-config, ssh-key, keyring) is never
    defined: it is a parameter, a request, or a class with the laws the code relies
    on, and each class has an instance.

    ** What the theorems show

    - Codecs and files: every frame and every saved host library is read back, and
      nothing else is accepted ([Protocol], [HostRoundTrip]).
    - Validation: the host store is valid after every operation, whatever fails
      ([HostStore]); what a resolved or imported host connects to ([Resolver]).
    - The configuration: the bounded expansion of [Include] and [Match] follows a
      reference semantics without limits ([IncludeScope], [OpenSshMatch]).
    - Trust and secrets: which server keys are accepted ([HostTrust]); which secret
      may be sent where, how often and in answer to what ([Authenticate]); that a
      route is followed hop by hop with each hop's own settings ([Connect]); which
      words a shell reads in a command text, for any characters, and the few names
      that it takes for something else ([RemoteCommand], [ProxyCommand]).
    - Sessions: channels are closed, outputs are exact, shells forward in order
      ([Exec]); capacity, single flight and the identity of what is handed out by
      the manager, in every interleaving ([ConnectionManager]);
      forwards are routed only where registered and stay bounded ([Forward]); the
      SOCKS5 handshake accepts its grammar exactly ([Socks]); files are read and
      installed as another user only by their fixed commands ([Privileged]).
    - Files: plans converge ([SyncConverge]) and a run carries out its plan, in order,
      after every check, and changes nothing else ([SyncRun]);
      removals stay below their root and remove exactly the plan ([RemoteMutation]);
      transfers touch only what they may, are all or nothing, and count exactly, in
      every interleaving ([TransferSafety], [TransferExact], [TransferTreeSafety]);
      a task always ends and only its legal transitions happen ([TaskLifecycle]).
    - Frontends: a command hidden behind separators is still classified
      ([ClassifySafety]); a
      fleet runs its command at most once on every target, within its limits, succeeds
      only when all did, and prints nothing that controls the terminal ([Fleet]); the daemon keeps to its conversation and
      what a session wrote reaches the caller ([DaemonServer], [DaemonClient]); the
      browser removes, moves and transfers only what was selected, typed and
      confirmed, and its frames fit the terminal and cannot control it ([Screen],
      [BrowserSafety]); the local picker returns only real entries of the kind asked
      for ([LocalPicker]); no shown metric leaves its range ([RemoteInfo]); the MCP
      server does only what a request asks and its gate allows, and answers each
      request once ([Mcp]); the desktop heals a session alone and with kept credentials
      only, beside connects and disconnects of every host; a disconnect is final until
      somebody connects again; and what is typed goes once and is saved only where it
      should ([DesktopHealing], [DesktopConnect]); its histories are read back in order
      and within their limits ([History]).

    ** Fuel and bounds

    Recursion that is not structural takes fuel, and a theorem of its file says how
    much is enough and that this much is given or that more changes nothing: as many
    rounds as entries or bytes for lexers, parsers and matchers ([Classify],
    [Glob], [HostTrust]); the depth limit of the source for includes; the number of
    directories for walks and deletion plans; the number of reads for a copy; 17
    information requests for a keyboard-interactive exchange; more than the number
    of messages for a command or a shell.

    ** Not modelled

    Argument parsing and process start-up (the bulk of the [main.rs] files), the
    interactive shell's screen and the other [tui_*.rs] files, Tauri command
    wrappers and the HTTP calls of the AI assistant only arrange calls into the
    parts above.  The platform branches
    are those of Unix.  Cryptography, the SSH and SFTP wire protocols and the
    operating system's credential store belong to third-party code.  Atomic
    replacement of the host file on disk ([atomic_write_private]), poisoned locks
    and allocation failure are left out. *)

From stdpp Require Import base list gmap strings numbers sorting.
From Stdlib Require Import Lia.

#[global] Open Scope Z_scope.

(** ** Results

    [anyhow::Result<T>]: every function of the program that can fail returns
    [Ok v] or [Err e].  The error is the constant part of the message of the
    [bail!]/[context] that produced it, so that theorems can tell the error
    branches of a function apart. *)
Inductive result (A : Type) : Type :=
| Ok (a : A)
| Err (e : string).
Arguments Ok {A} a.
Arguments Err {A} e.

#[global] Instance result_ret : MRet result := λ A a, Ok a.
#[global] Instance result_bind : MBind result := λ A B f m,
  match m with Ok a => f a | Err e => Err e end.
#[global] Instance result_fmap : FMap result := λ A B f m,
  match m with Ok a => Ok (f a) | Err e => Err e end.

#[global] Instance result_eq_dec {A} `{EqDecision A} : EqDecision (result A).
Proof. solve_decision. Defined.

Definition is_ok {A} (r : result A) : bool :=
  match r with Ok _ => true | Err _ => false end.

(** [bail!(e)] when [b] holds. *)
Definition bail_if (b : bool) (e : string) : result unit :=
  if b then Err e else Ok tt.

(** [Option::context]. *)
Definition with_context {A} (o : option A) (e : string) : result A :=
  match o with Some a => Ok a | None => Err e end.

(** [Option<Result<T>>::transpose]. *)
Definition transpose {A} (o : option (result A)) : result (option A) :=
  match o with
  | None => Ok None
  | Some (Ok a) => Ok (Some a)
  | Some (Err e) => Err e
  end.

(** [for x in l { f(x)?; }] *)
Fixpoint for_each {A} (f : A → result unit) (l : list A) : result unit :=
  match l with
  | [] => Ok tt
  | x :: l => f x ≫= λ _, for_each f l
  end.

(** [for x in l { acc = f(acc, x)?; }] *)
Fixpoint try_fold {A B} (f : B → A → result B) (acc : B) (l : list A) : result B :=
  match l with
  | [] => Ok acc
  | x :: l => f acc x ≫= λ acc, try_fold f acc l
  end.

(** The loop [for x in l { f(x)?; if !seen.insert(key(x)) { bail!(e) } }]
    that several validators share: [seen] is the set of keys already met. *)
Fixpoint for_each_unique {A K} `{Countable K}
    (f : A → result unit) (key : A → K) (e : string) (seen : gset K) (l : list A) : result unit :=
  match l with
  | [] => Ok tt
  | x :: l =>
      f x ≫= λ _,
      bail_if (bool_decide (key x ∈ seen)) e ≫= λ _,
      for_each_unique f key e ({[ key x ]} ∪ seen) l
  end.

(** ** Machine integers *)
Definition u8_max : Z := 255.
Definition u16_max : Z := 65535.
Definition u32_max : Z := 4294967295.
Definition u64_max : Z := 18446744073709551615.
(** The targets of the program are 64-bit. *)
Definition usize_max : Z := u64_max.
Definition isize_max : Z := 9223372036854775807.

Definition is_u8 (z : Z) : Prop := 0 ≤ z ≤ u8_max.
Definition is_u16 (z : Z) : Prop := 0 ≤ z ≤ u16_max.
Definition is_u32 (z : Z) : Prop := 0 ≤ z ≤ u32_max.
Definition is_u64 (z : Z) : Prop := 0 ≤ z ≤ u64_max.

#[export] Instance is_u8_dec z : Decision (is_u8 z).
Proof. unfold is_u8. apply _. Defined.
#[export] Instance is_u16_dec z : Decision (is_u16 z).
Proof. unfold is_u16. apply _. Defined.
#[export] Instance is_u32_dec z : Decision (is_u32 z).
Proof. unfold is_u32. apply _. Defined.
#[export] Instance is_u64_dec z : Decision (is_u64 z).
Proof. unfold is_u64. apply _. Defined.

(** [uN::try_from(z)] for a non-negative [z]. *)
Definition try_from (max z : Z) : option Z := if z <=? max then Some z else None.

(** [a.checked_add(b)] at the width whose largest value is [max]. *)
Definition checked_add (max a b : Z) : option Z := try_from max (a + b).

Abbreviation zlen l := (Z.of_nat (length l)).

(** ** Tactics *)

(** Decide a closed decidable proposition by evaluation. *)
Ltac decide_now := refine (bool_decide_unpack _ _); vm_compute; exact I.

(** Inversion of a chain of binds that ends in [Ok]. *)
Ltac invert_ok :=
  repeat match goal with
  | H : Ok _ = Ok _ |- _ => injection H as H; try subst
  | H : Err _ = Ok _ |- _ => discriminate H
  | H : Ok _ = Err _ |- _ => discriminate H
  | H : mret _ = Ok _ |- _ => unfold mret, result_ret in H
  | H : mbind _ ?m = Ok _ |- _ =>
      let E := fresh "E" in
      unfold mbind, result_bind in H; destruct m eqn:E; [| discriminate H]
  | H : match ?m with Ok _ => _ | Err _ => _ end = Ok _ |- _ =>
      let E := fresh "E" in destruct m eqn:E; [| discriminate H]
  | H : bail_if ?b _ = Ok _ |- _ =>
      let E := fresh "E" in unfold bail_if in H; destruct b eqn:E; [discriminate H | clear H]
  | H : with_context ?o _ = Ok _ |- _ =>
      let E := fresh "E" in unfold with_context in H; destruct o eqn:E; [| discriminate H]
  end.

(** Boolean hypotheses to propositions. *)
Ltac to_prop :=
  repeat match goal with
  | H : bool_decide _ = true |- _ => apply bool_decide_eq_true in H
  | H : bool_decide _ = false |- _ => apply bool_decide_eq_false in H
  | H : andb _ _ = true |- _ => apply andb_true_iff in H; destruct H
  | H : orb _ _ = false |- _ => apply orb_false_iff in H; destruct H
  | H : negb _ = true |- _ => apply negb_true_iff in H
  | H : negb _ = false |- _ => apply negb_false_iff in H
  | H : Z.leb _ _ = true |- _ => apply Z.leb_le in H
  | H : Z.leb _ _ = false |- _ => apply Z.leb_gt in H
  | H : Z.ltb _ _ = true |- _ => apply Z.ltb_lt in H
  | H : Z.ltb _ _ = false |- _ => apply Z.ltb_ge in H
  | H : Z.eqb _ _ = true |- _ => apply Z.eqb_eq in H
  | H : Z.eqb _ _ = false |- _ => apply Z.eqb_neq in H
  end.

(** ** Lemmas on results and loops *)
Lemma bind_ok {A B} (m : result A) (f : A → result B) b :
  m ≫= f = Ok b ↔ ∃ a, m = Ok a ∧ f a = Ok b.
Proof.
  unfold mbind, result_bind. destruct m; split; intros H.
  - eauto.
  - destruct H as (? & [= <-] & ?); done.
  - done.
  - destruct H as (? & ? & _); done.
Qed.

Lemma Ok_inj {A} (a b : A) : Ok a = Ok b → a = b.
Proof. by intros [=]. Qed.

(** One step of a bind whose first computation returned. *)
Lemma bind_of_ok {A B} (a : A) (f : A → result B) : Ok a ≫= f = f a.
Proof. done. Qed.

Lemma bind_of_err {A B} (e : string) (f : A → result B) : Err e ≫= f = Err e.
Proof. done. Qed.

Lemma fmap_ok {A B} (m : result A) (f : A → B) b :
  f <$> m = Ok b ↔ ∃ a, m = Ok a ∧ b = f a.
Proof.
  unfold fmap, result_fmap. destruct m; split; intros H.
  - injection H as <-. eauto.
  - destruct H as (? & [= <-] & ->); done.
  - done.
  - destruct H as (? & ? & _); done.
Qed.

Lemma bail_if_ok b e : bail_if b e = Ok tt ↔ b = false.
Proof. destruct b; naive_solver. Qed.

Lemma bail_if_ok' b e u : bail_if b e = Ok u ↔ b = false.
Proof. destruct u. apply bail_if_ok. Qed.

Lemma match_ok {A} (o : option A) (f : A → result unit) :
  match o with Some a => f a | None => Ok tt end = Ok tt ↔ ∀ a, o = Some a → f a = Ok tt.
Proof. destruct o; naive_solver. Qed.

(** A chain of validators succeeds when each does. *)
Lemma then_ok (m : result unit) (k : result unit) :
  (m ≫= λ _, k) = Ok tt ↔ m = Ok tt ∧ k = Ok tt.
Proof. rewrite bind_ok. split; [by intros ([] & ? & ?)|intros [? ?]; by exists tt]. Qed.

Lemma with_context_ok {A} (o : option A) e a : with_context o e = Ok a ↔ o = Some a.
Proof. destruct o; naive_solver. Qed.

Lemma for_each_ok {A} (f : A → result unit) l :
  for_each f l = Ok tt ↔ Forall (λ x, f x = Ok tt) l.
Proof.
  induction l as [|x l IH]; simpl; [by rewrite Forall_nil|].
  rewrite bind_ok, Forall_cons, <- IH. split.
  - by intros ([] & ? & ?).
  - intros [? ?]. by exists tt.
Qed.

Lemma try_fold_app {A B} (f : B → A → result B) acc l k :
  try_fold f acc (l ++ k) = try_fold f acc l ≫= λ acc, try_fold f acc k.
Proof.
  revert acc. induction l as [|x l IH]; intros acc; [done|]. cbn [app try_fold].
  destruct (f acc x) as [b|e]; [|done]. apply IH.
Qed.

Lemma try_fold_fmap {A B C} (f : B → A → result B) (g : C → A) acc l :
  try_fold f acc (g <$> l) = try_fold (λ acc x, f acc (g x)) acc l.
Proof.
  revert acc. induction l as [|x l IH]; intros acc; [done|]. csimpl.
  destruct (f acc (g x)) as [b|e]; [|done]. apply IH.
Qed.

(** A loop that collects what its iterations return: [.map(f).collect()]. *)
Lemma try_fold_collect {A B} (f : A → result B) (P : A → B → Prop) acc l r :
  (∀ x y, f x = Ok y ↔ P x y) →
  try_fold (λ acc x, f x ≫= λ y, Ok (acc ++ [y])) acc l = Ok r ↔ ∃ more, r = acc ++ more ∧ Forall2 P l more.
Proof.
  intros Hf. revert acc. induction l as [|x l IH]; intros acc; cbn [try_fold].
  - split; [intros <-%Ok_inj; exists []; by rewrite app_nil_r|].
    intros (more & -> & ->%Forall2_nil_inv_l). by rewrite app_nil_r.
  - rewrite bind_ok. setoid_rewrite bind_ok. split.
    + intros (acc' & (y & Hy%Hf & <-%Ok_inj) & (more & -> & Hmore)%IH).
      exists (y :: more). rewrite <- app_assoc. split; [done|by constructor].
    + intros (more & -> & (y & more' & Hy & Hmore & ->)%Forall2_cons_inv_l). exists (acc ++ [y]). split.
      * exists y. split; [by apply Hf|done].
      * apply IH. exists more'. by rewrite <- app_assoc.
Qed.

(** A loop with a failing iteration does not succeed. *)
Lemma try_fold_fails {A B} (f : B → A → result B) acc l x :
  x ∈ l → (∀ acc, is_ok (f acc x) = false) → is_ok (try_fold f acc l) = false.
Proof.
  intros Hin Hx. revert acc. induction l as [|y l IH]; intros acc; [by apply elem_of_nil in Hin|].
  cbn [try_fold]. apply elem_of_cons in Hin as [<-|Hin].
  - specialize (Hx acc). by destruct (f acc x).
  - destruct (f acc y); [by apply IH|done].
Qed.

Lemma for_each_unique_ok {A K} `{Countable K} (f : A → result unit) (key : A → K) e seen l :
  for_each_unique f key e seen l = Ok tt ↔
  Forall (λ x, f x = Ok tt) l ∧ NoDup (key <$> l) ∧ (∀ x, x ∈ l → key x ∉ seen).
Proof.
  revert seen. induction l as [|x l IH]; intros seen.
  - csimpl. split; [|done]. intros _. split; [constructor|]. split; [constructor|].
    intros x Hx. by apply elem_of_nil in Hx.
  - cbn [for_each_unique]. rewrite bind_ok. setoid_rewrite bind_ok.
    setoid_rewrite IH. csimpl. rewrite Forall_cons, NoDup_cons.
    setoid_rewrite bail_if_ok'. setoid_rewrite bool_decide_eq_false. setoid_rewrite elem_of_cons.
    split.
    + intros ([] & Hf & [] & Hx & Hall & Hnd & Hseen). split_and!; try done.
      * intros (y & Hy & Hin)%list_elem_of_fmap. apply (Hseen y Hin). set_solver.
      * intros y [->|Hin]; [done|]. specialize (Hseen y Hin). set_solver.
    + intros ([Hf Hall] & [Hnotin Hnd] & Hseen). exists tt. split; [done|].
      exists tt. split; [by apply Hseen; left|]. split_and!; try done.
      intros y Hin Hy. apply elem_of_union in Hy as [Hy%elem_of_singleton|Hy].
      * apply Hnotin. rewrite <- Hy. by apply list_elem_of_fmap_2.
      * apply (Hseen y); [by right|done].
Qed.

Lemma forallb_Forall {A} (p : A → bool) l : forallb p l = true ↔ Forall (λ x, p x = true) l.
Proof. induction l as [|x l IH]; cbn [forallb]; [by rewrite Forall_nil|]. by rewrite andb_true_iff, IH, Forall_cons. Qed.

Lemma try_from_some max z z' : try_from max z = Some z' ↔ z' = z ∧ z ≤ max.
Proof. unfold try_from. destruct (Z.leb_spec z max); naive_solver lia. Qed.

Lemma try_from_none max z : try_from max z = None ↔ max < z.
Proof. unfold try_from. destruct (Z.leb_spec z max); split; try done; lia. Qed.

Lemma checked_add_some max a b c : checked_add max a b = Some c ↔ c = a + b ∧ a + b ≤ max.
Proof. apply try_from_some. Qed.

(** Step through binds by rewriting: [cbn] would leave the kernel a conversion
    between two nested binds, which it may try by unfolding the readers. *)
Ltac step_bind := rewrite bind_of_ok; cbv beta iota.

Lemma elem_of_concat {A} (x : A) ls : x ∈ concat ls ↔ ∃ l, l ∈ ls ∧ x ∈ l.
Proof.
  rewrite list_elem_of_In, in_concat. setoid_rewrite <- list_elem_of_In. done.
Qed.

Lemma Forall_impl_elem {A} (P Q : A → Prop) l : Forall P l → (∀ x, x ∈ l → P x → Q x) → Forall Q l.
Proof. rewrite !Forall_forall. auto. Qed.

Create HintDb kaduox.
#[export] Hint Rewrite @bind_ok @fmap_ok bail_if_ok bail_if_ok' @with_context_ok @for_each_ok
  try_from_some checked_add_some : kaduox.
