(* ===== verification/RustStr.v ===== *)
(** * Rust strings

    A [str] is the list of the Unicode scalar values of a Rust [&str]/[String];
    [utf8] gives its bytes.  The functions below are the [str], [char] and
    integer parsing/printing functions of the Rust standard library that the
    modelled code calls, under the names it calls them by.  [split_at_byte] and
    [slice] are byte-indexed slicing, which panics ([None]) off a character
    boundary.  The Unicode tables behind [char::is_alphanumeric] and
    [char::is_alphabetic] are the class [UnicodeTables], of which only the
    facts documented by the standard library are assumed. *)

From stdpp Require Import base list gmap strings numbers sorting.
From Stdlib Require Import Lia Ascii.
From S2P Require Import Prelude.

Definition char := Z.
Abbreviation str := (list Z).

(** ** Literals *)
Fixpoint lit (s : string) : str :=
  match s with
  | EmptyString => []
  | String a s => Z.of_N (N_of_ascii a) :: lit s
  end.

Definition ch (s : string) : char :=
  match s with String a _ => Z.of_N (N_of_ascii a) | EmptyString => 0 end.

(** The double quote, which a literal cannot hold. *)
Definition dquote : char := 34.
Definition LF : char := 10.
Definition CR : char := 13.
Definition TAB : char := 9.

(** ** Characters *)
Definition is_scalar (c : char) : Prop := 0 ≤ c ≤ 55295 ∨ 57344 ≤ c ≤ 1114111.
#[export] Instance is_scalar_dec c : Decision (is_scalar c).
Proof. unfold is_scalar. apply _. Defined.

Abbreviation valid_str := (Forall is_scalar).

(** [char::is_control]: general category Cc. *)
Definition is_control (c : char) : bool := (c <? 32) || ((127 <=? c) && (c <=? 159)).

(** [char::is_whitespace]: the property White_Space. *)
Definition is_whitespace (c : char) : bool :=
  ((9 <=? c) && (c <=? 13)) || (c =? 32) || (c =? 133) || (c =? 160) || (c =? 5760)
  || ((8192 <=? c) && (c <=? 8202)) || (c =? 8232) || (c =? 8233) || (c =? 8239)
  || (c =? 8287) || (c =? 12288).

Definition is_ascii_digit (c : char) : bool := (48 <=? c) && (c <=? 57).
Definition is_ascii_uppercase (c : char) : bool := (65 <=? c) && (c <=? 90).
Definition is_ascii_lowercase (c : char) : bool := (97 <=? c) && (c <=? 122).
Definition is_ascii_alphabetic (c : char) : bool := is_ascii_uppercase c || is_ascii_lowercase c.
Definition is_ascii_alphanumeric (c : char) : bool := is_ascii_alphabetic c || is_ascii_digit c.
(** [is_ascii_whitespace]: space, tab, line feed, form feed, carriage return. *)
Definition is_ascii_whitespace (c : char) : bool :=
  (c =? 32) || (c =? 9) || (c =? 10) || (c =? 12) || (c =? 13).

Definition to_ascii_lowercase_char (c : char) : char := if is_ascii_uppercase c then c + 32 else c.
Definition to_ascii_uppercase_char (c : char) : char := if is_ascii_lowercase c then c - 32 else c.

(** The Unicode tables of the standard library. *)
Class UnicodeTables := {
  is_alphanumeric : char → bool;
  is_alphabetic : char → bool;
  is_alphanumeric_ascii c : 0 ≤ c < 128 → is_alphanumeric c = is_ascii_alphanumeric c;
  is_alphabetic_ascii c : 0 ≤ c < 128 → is_alphabetic c = is_ascii_alphabetic c;
  is_alphanumeric_not_control c : is_alphanumeric c = true → is_control c = false;
  is_alphanumeric_not_whitespace c : is_alphanumeric c = true → is_whitespace c = false;
  is_alphabetic_alphanumeric c : is_alphabetic c = true → is_alphanumeric c = true;
}.

(** Tables that satisfy the laws: ASCII only. *)
Definition ascii_tables : UnicodeTables.
Proof.
  refine {| is_alphanumeric := is_ascii_alphanumeric; is_alphabetic := is_ascii_alphabetic |};
    intros c; try done;
    unfold is_ascii_alphanumeric, is_ascii_alphabetic, is_ascii_uppercase, is_ascii_lowercase,
      is_ascii_digit, is_control, is_whitespace;
    intros H; try (apply not_true_iff_false; intros H'; revert H');
    rewrite ?orb_true_iff, ?andb_true_iff, ?Z.leb_le, ?Z.ltb_lt, ?Z.eqb_eq in *; lia.
Defined.

(** ** UTF-8 *)
Definition utf8_char (c : char) : list Z :=
  if c <? 128 then [c]
  else if c <? 2048 then [192 + c / 64; 128 + c mod 64]
  else if c <? 65536 then [224 + c / 4096; 128 + c / 64 mod 64; 128 + c mod 64]
  else [240 + c / 262144; 128 + c / 4096 mod 64; 128 + c / 64 mod 64; 128 + c mod 64].

Definition len_utf8 (c : char) : Z :=
  if c <? 128 then 1 else if c <? 2048 then 2 else if c <? 65536 then 3 else 4.

(** [str::as_bytes]. *)
Fixpoint utf8 (s : str) : list Z :=
  match s with [] => [] | c :: s => utf8_char c ++ utf8 s end.

(** [str::len]: the number of bytes. *)
Fixpoint str_len (s : str) : Z :=
  match s with [] => 0 | c :: s => len_utf8 c + str_len s end.

Definition is_continuation (b : Z) : bool := (128 <=? b) && (b <=? 191).

(** [String::from_utf8]: the strict decoder (no overlong form, no surrogate,
    nothing above U+10FFFF). *)
Fixpoint from_utf8 (bs : list Z) : option str :=
  match bs with
  | [] => Some []
  | b0 :: r0 =>
      if (0 <=? b0) && (b0 <? 128) then cons b0 <$> from_utf8 r0
      else if (194 <=? b0) && (b0 <? 224) then
        match r0 with
        | b1 :: r1 =>
            if is_continuation b1 then cons ((b0 - 192) * 64 + (b1 - 128)) <$> from_utf8 r1
            else None
        | _ => None
        end
      else if (224 <=? b0) && (b0 <? 240) then
        match r0 with
        | b1 :: b2 :: r2 =>
            let c := (b0 - 224) * 4096 + (b1 - 128) * 64 + (b2 - 128) in
            if is_continuation b1 && is_continuation b2 && (2048 <=? c)
               && ((c <=? 55295) || (57344 <=? c))
            then cons c <$> from_utf8 r2 else None
        | _ => None
        end
      else if (240 <=? b0) && (b0 <? 245) then
        match r0 with
        | b1 :: b2 :: b3 :: r3 =>
            let c := (b0 - 240) * 262144 + (b1 - 128) * 4096 + (b2 - 128) * 64 + (b3 - 128) in
            if is_continuation b1 && is_continuation b2 && is_continuation b3
               && (65536 <=? c) && (c <=? 1114111)
            then cons c <$> from_utf8 r3 else None
        | _ => None
        end
      else None
  end.

(** ** Slicing by byte offsets *)

(** [s.split_at(n)], [None] where Rust panics. *)
Fixpoint split_at_byte (s : str) (n : Z) : option (str * str) :=
  if n =? 0 then Some ([], s)
  else match s with
  | [] => None
  | c :: s => if n <? len_utf8 c then None
              else prod_map (cons c) id <$> split_at_byte s (n - len_utf8 c)
  end.

Definition is_char_boundary (s : str) (n : Z) : bool :=
  match split_at_byte s n with Some _ => true | None => false end.

(** [&s[a..b]]. *)
Definition slice (s : str) (a b : Z) : option str :=
  if b <? a then None else '(_, t) ← split_at_byte s a; fst <$> split_at_byte t (b - a).

(** ** Searching, splitting, trimming *)
Fixpoint take_while (p : char → bool) (s : str) : str :=
  match s with c :: s => if p c then c :: take_while p s else [] | [] => [] end.

(** [trim_start_matches(p)]. *)
Fixpoint drop_while (p : char → bool) (s : str) : str :=
  match s with c :: s' => if p c then drop_while p s' else s | [] => [] end.

Definition trim_start (s : str) : str := drop_while is_whitespace s.
Definition trim_end (s : str) : str := reverse (drop_while is_whitespace (reverse s)).
Definition trim (s : str) : str := trim_end (trim_start s).
(** [trim_matches(p)]. *)
Definition trim_matches (p : char → bool) (s : str) : str :=
  reverse (drop_while p (reverse (drop_while p s))).

Fixpoint strip_prefix (p s : str) : option str :=
  match p, s with
  | [], s => Some s
  | x :: p, y :: s => if x =? y then strip_prefix p s else None
  | _ :: _, [] => None
  end.

Definition starts_with (s p : str) : bool :=
  match strip_prefix p s with Some _ => true | None => false end.
Definition ends_with (s p : str) : bool := starts_with (reverse s) (reverse p).
Definition strip_suffix (p s : str) : option str := reverse <$> strip_prefix (reverse p) (reverse s).

Fixpoint contains (s p : str) : bool :=
  starts_with s p || match s with [] => false | _ :: s => contains s p end.
Definition contains_char (s : str) (c : char) : bool := existsb (Z.eqb c) s.

(** [s.split_once(c)]: at the first [c]. *)
Fixpoint split_once (c : char) (s : str) : option (str * str) :=
  match s with
  | [] => None
  | d :: s => if c =? d then Some ([], s) else prod_map (cons d) id <$> split_once c s
  end.

(** [s.rsplit_once(c)]: at the last [c]. *)
Definition rsplit_once (c : char) (s : str) : option (str * str) :=
  match split_once c (reverse s) with
  | Some (b, a) => Some (reverse a, reverse b)
  | None => None
  end.

(** [s.split(c)]: at least one piece. *)
Fixpoint split_on (p : char → bool) (s : str) : list str :=
  match s with
  | [] => [[]]
  | c :: s =>
      if p c then [] :: split_on p s
      else match split_on p s with
           | w :: ws => (c :: w) :: ws
           | [] => [[c]]
           end
  end.
Definition split (c : char) (s : str) : list str := split_on (Z.eqb c) s.

(** [split_whitespace]/[split_ascii_whitespace]: the non-empty pieces. *)
Definition nonempty_pieces (p : char → bool) (s : str) : list str :=
  filter (λ w, w ≠ []) (split_on p s).
Definition split_whitespace (s : str) : list str := nonempty_pieces is_whitespace s.
Definition split_ascii_whitespace (s : str) : list str := nonempty_pieces is_ascii_whitespace s.

(** [s.lines()]: at each line feed, with one carriage return before it dropped;
    no empty last line. *)
Definition strip_cr (l : str) : str := default l (strip_suffix [CR] l).
Fixpoint lines_from (cur : str) (s : str) : list str :=
  match s with
  | [] => match cur with [] => [] | _ => [reverse cur] end
  | c :: s => if c =? LF then strip_cr (reverse cur) :: lines_from [] s
              else lines_from (c :: cur) s
  end.
Definition lines (s : str) : list str := lines_from [] s.

Definition to_ascii_lowercase (s : str) : str := to_ascii_lowercase_char <$> s.
Definition to_ascii_uppercase (s : str) : str := to_ascii_uppercase_char <$> s.
Definition eq_ignore_ascii_case (s t : str) : bool :=
  bool_decide (to_ascii_lowercase s = to_ascii_lowercase t).

(** ** Decimal integers *)
Fixpoint dec_digits (fuel : nat) (n : Z) (acc : str) : str :=
  match fuel with
  | O => acc
  | S fuel => let acc := (48 + n mod 10) :: acc in
              if n / 10 =? 0 then acc else dec_digits fuel (n / 10) acc
  end.
(** [format!("{n}")] for an unsigned [n]: [n] has at most [log2 n + 1] digits. *)
Definition dec_of (n : Z) : str := dec_digits (S (Z.to_nat (Z.log2 n))) n [].

Fixpoint dec_value (acc : Z) (s : str) : Z :=
  match s with [] => acc | c :: s => dec_value (acc * 10 + (c - 48)) s end.
(** [s.parse::<uN>()] for a string of digits. *)
Definition parse_digits (max : Z) (s : str) : option Z :=
  match s with
  | [] => None
  | _ => if forallb is_ascii_digit s then try_from max (dec_value 0 s) else None
  end.
(** [s.parse::<uN>()]: one leading plus sign is accepted. *)
Definition parse_uint (max : Z) (s : str) : option Z :=
  match s with
  | c :: s' => if c =? ch "+" then parse_digits max s' else parse_digits max s
  | [] => None
  end.

(** ** Byte order of strings, and [BTreeMap] iteration order

    The order of [String] is the order of its bytes, which is the order of its
    scalar values. *)
Fixpoint str_leb (s t : str) : bool :=
  match s, t with
  | [], _ => true
  | _ :: _, [] => false
  | x :: s, y :: t => (x <? y) || ((x =? y) && str_leb s t)
  end.
Definition str_le (s t : str) : Prop := Is_true (str_leb s t).
#[export] Instance str_le_dec : RelDecision str_le := λ s t, _.

Definition entry_le {A} (p q : str * A) : Prop := str_le p.1 q.1.
#[export] Instance entry_le_dec {A} : RelDecision (@entry_le A) := λ p q, _.

(** The entries of a [BTreeMap<String, A>] in iteration order. *)
Definition btree_entries {A} (m : gmap str A) : list (str * A) :=
  merge_sort entry_le (map_to_list m).
Definition btree_values {A} (m : gmap str A) : list A := (btree_entries m).*2.

(** ** Lemmas: UTF-8 *)
Ltac zbool :=
  repeat match goal with
  | |- context [Z.leb ?a ?b] => destruct (Z.leb_spec a b)
  | |- context [Z.ltb ?a ?b] => destruct (Z.ltb_spec a b)
  | |- context [Z.eqb ?a ?b] => destruct (Z.eqb_spec a b)
  end; cbn [andb orb negb].

(** Decide every comparison of the goal by [lia]. *)
Ltac zdecide :=
  repeat match goal with
  | |- context [Z.leb ?a ?b] =>
      first [rewrite (proj2 (Z.leb_le a b)) by lia | rewrite (proj2 (Z.leb_gt a b)) by lia]
  | |- context [Z.ltb ?a ?b] =>
      first [rewrite (proj2 (Z.ltb_lt a b)) by lia | rewrite (proj2 (Z.ltb_ge a b)) by lia]
  | |- context [Z.eqb ?a ?b] =>
      first [rewrite (proj2 (Z.eqb_eq a b)) by lia | rewrite (proj2 (Z.eqb_neq a b)) by lia]
  end; cbn [andb orb negb].

(** Name the quotient and the remainder of a division by 64. *)
Ltac div64 c q r :=
  let H := fresh in
  pose proof (Z.div_mod c 64 ltac:(lia)) as H;
  pose proof (Z.mod_pos_bound c 64 ltac:(lia));
  set (q := c / 64) in *; set (r := c mod 64) in *; clearbody q r.

Lemma div_4096 c : c / 4096 = c / 64 / 64.
Proof. by rewrite Z.div_div by lia. Qed.
Lemma div_262144 c : c / 262144 = c / 64 / 64 / 64.
Proof. by rewrite !Z.div_div by lia. Qed.

Lemma length_utf8_char c : zlen (utf8_char c) = len_utf8 c.
Proof. unfold utf8_char, len_utf8. zbool; done. Qed.

Lemma len_utf8_pos c : 1 ≤ len_utf8 c ≤ 4.
Proof. unfold len_utf8. zbool; lia. Qed.

Lemma length_utf8 s : zlen (utf8 s) = str_len s.
Proof.
  induction s as [|c s IH]; [done|]. cbn [utf8 str_len].
  rewrite length_app, Nat2Z.inj_add, length_utf8_char. lia.
Qed.

Lemma str_len_nonneg s : 0 ≤ str_len s.
Proof. rewrite <- length_utf8. lia. Qed.

Lemma str_len_app s t : str_len (s ++ t) = str_len s + str_len t.
Proof. induction s as [|c s IH]; cbn [app str_len]; [done|lia]. Qed.

Lemma utf8_app s t : utf8 (s ++ t) = utf8 s ++ utf8 t.
Proof. induction s as [|c s IH]; cbn [app utf8]; [done|]. by rewrite IH, app_assoc. Qed.

Lemma length_le_str_len s : zlen s ≤ str_len s.
Proof.
  induction s as [|c s IH]; cbn [length str_len]; [done|].
  pose proof (len_utf8_pos c). lia.
Qed.

Lemma utf8_char_bytes c : is_scalar c → Forall is_u8 (utf8_char c).
Proof.
  unfold utf8_char, is_scalar, is_u8, u8_max. rewrite div_262144, div_4096.
  div64 c q r. div64 q q1 r1. div64 q1 q2 r2. intros Hc.
  zbool; repeat constructor; lia.
Qed.

Lemma utf8_bytes s : valid_str s → Forall is_u8 (utf8 s).
Proof.
  induction 1 as [|c s Hc _ IH]; cbn [utf8]; [constructor|].
  apply Forall_app. by split; [apply utf8_char_bytes|].
Qed.

(** One step of the decoder on one encoded character. *)
Lemma from_utf8_char c bs :
  is_scalar c → from_utf8 (utf8_char c ++ bs) = cons c <$> from_utf8 bs.
Proof.
  intros Hc. unfold utf8_char, is_scalar in *. rewrite div_262144, div_4096.
  destruct (Z.ltb_spec c 128); [|destruct (Z.ltb_spec c 2048); [|destruct (Z.ltb_spec c 65536)]];
    cbn [app from_utf8]; unfold is_continuation.
  - by zdecide.
  - div64 c q r. zdecide. do 2 f_equal. lia.
  - div64 c q r. div64 q q1 r1. cbn zeta.
    replace ((224 + q1 - 224) * 4096 + (128 + r1 - 128) * 64 + (128 + r - 128)) with c by lia.
    zdecide. destruct (Z.leb_spec c 55295); [done|]. by zdecide.
  - div64 c q r. div64 q q1 r1. div64 q1 q2 r2. cbn zeta.
    replace ((240 + q2 - 240) * 262144 + (128 + r2 - 128) * 4096 + (128 + r1 - 128) * 64
             + (128 + r - 128)) with c by lia.
    by zdecide.
Qed.

Lemma from_utf8_app s bs :
  valid_str s → from_utf8 (utf8 s ++ bs) = app s <$> from_utf8 bs.
Proof.
  induction 1 as [|c s Hc _ IH]; cbn [utf8 app].
  - by destruct (from_utf8 bs).
  - rewrite <- app_assoc, from_utf8_char, IH by done. by destruct (from_utf8 bs).
Qed.

(** The encoder's output decodes to the encoded string. *)
Lemma from_utf8_utf8 s : valid_str s → from_utf8 (utf8 s) = Some s.
Proof.
  intros Hs. rewrite <- (app_nil_r (utf8 s)), from_utf8_app by done. cbn.
  by rewrite app_nil_r.
Qed.

Lemma div64_unique c q r : c = 64 * q + r → 0 ≤ r < 64 → c / 64 = q ∧ c mod 64 = r.
Proof.
  intros -> Hr. split.
  - symmetry. by apply Z.div_unique with r; [left|].
  - symmetry. by apply Z.mod_unique with q; [left|].
Qed.

Lemma utf8_char_2 b0 b1 :
  194 ≤ b0 < 224 → 128 ≤ b1 ≤ 191 → utf8_char ((b0 - 192) * 64 + (b1 - 128)) = [b0; b1].
Proof.
  intros. unfold utf8_char. set (c := _ + _).
  destruct (div64_unique c (b0 - 192) (b1 - 128)) as [-> ->]; [lia..|].
  zdecide. do 3 f_equal; lia.
Qed.

Lemma utf8_char_3 b0 b1 b2 :
  let c := (b0 - 224) * 4096 + (b1 - 128) * 64 + (b2 - 128) in
  224 ≤ b0 < 240 → 128 ≤ b1 ≤ 191 → 128 ≤ b2 ≤ 191 → 2048 ≤ c →
  utf8_char c = [b0; b1; b2].
Proof.
  intros c **. unfold utf8_char. rewrite div_4096.
  destruct (div64_unique c ((b0 - 224) * 64 + (b1 - 128)) (b2 - 128)) as [-> ->]; [lia..|].
  destruct (div64_unique ((b0 - 224) * 64 + (b1 - 128)) (b0 - 224) (b1 - 128)) as [-> ->]; [lia..|].
  zdecide. repeat f_equal; lia.
Qed.

Lemma utf8_char_4 b0 b1 b2 b3 :
  let c := (b0 - 240) * 262144 + (b1 - 128) * 4096 + (b2 - 128) * 64 + (b3 - 128) in
  240 ≤ b0 < 245 → 128 ≤ b1 ≤ 191 → 128 ≤ b2 ≤ 191 → 128 ≤ b3 ≤ 191 → 65536 ≤ c →
  utf8_char c = [b0; b1; b2; b3].
Proof.
  intros c **. unfold utf8_char. rewrite div_262144, div_4096.
  set (c2 := (b0 - 240) * 64 + (b1 - 128)). set (c1 := c2 * 64 + (b2 - 128)).
  destruct (div64_unique c c1 (b3 - 128)) as [-> ->]; [lia..|].
  destruct (div64_unique c1 c2 (b2 - 128)) as [-> ->]; [lia..|].
  destruct (div64_unique c2 (b0 - 240) (b1 - 128)) as [-> ->]; [lia..|].
  zdecide. repeat f_equal; lia.
Qed.

Lemma from_utf8_unfold b0 r0 s :
  from_utf8 (b0 :: r0) = Some s →
  ∃ c bs s', b0 :: r0 = utf8_char c ++ bs ∧ is_scalar c ∧ s = c :: s' ∧
             from_utf8 bs = Some s' ∧ (length bs < length (b0 :: r0))%nat.
Proof.
  cbn [from_utf8]. unfold is_continuation. cbn zeta.
  destruct ((0 <=? b0) && (b0 <? 128)) eqn:E1.
  { intros (s' & Hs' & ->)%fmap_Some. to_prop. exists b0, r0, s'.
    unfold utf8_char, is_scalar. zdecide. split_and!; [done|lia|done|done|simpl; lia]. }
  clear E1. destruct ((194 <=? b0) && (b0 <? 224)) eqn:E1.
  { destruct r0 as [|b1 r1]; [done|]. case_match eqn:E2; [|done].
    intros (s' & Hs' & ->)%fmap_Some. to_prop. exists ((b0 - 192) * 64 + (b1 - 128)), r1, s'.
    rewrite utf8_char_2 by lia. unfold is_scalar. split_and!; [done|lia|done|done|simpl; lia]. }
  clear E1. destruct ((224 <=? b0) && (b0 <? 240)) eqn:E1.
  { destruct r0 as [|b1 [|b2 r2]]; [done..|]. case_match eqn:E2; [|done].
    intros (s' & Hs' & ->)%fmap_Some.
    apply andb_true_iff in E2 as [E2 E3%orb_true_iff]. rewrite !Z.leb_le in E3. to_prop.
    exists ((b0 - 224) * 4096 + (b1 - 128) * 64 + (b2 - 128)), r2, s'.
    rewrite utf8_char_3 by lia. unfold is_scalar. split_and!; [done|lia|done|done|simpl; lia]. }
  clear E1. destruct ((240 <=? b0) && (b0 <? 245)) eqn:E1; [|done].
  destruct r0 as [|b1 [|b2 [|b3 r3]]]; [done..|]. case_match eqn:E2; [|done].
  intros (s' & Hs' & ->)%fmap_Some. to_prop. exists ((b0 - 240) * 262144 + (b1 - 128) * 4096 + (b2 - 128) * 64 + (b3 - 128)), r3, s'.
  rewrite utf8_char_4 by lia. unfold is_scalar. split_and!; [done|lia|done|done|simpl; lia].
Qed.

(** The decoder accepts exactly the encoder's outputs. *)
Lemma utf8_from_utf8 bs s : from_utf8 bs = Some s → utf8 s = bs ∧ valid_str s.
Proof.
  revert s. induction bs as [bs IH] using (induction_ltof1 _ length). unfold ltof in IH.
  intros s Hs. destruct bs as [|b0 r0].
  { injection Hs as <-. split; [done|constructor]. }
  destruct (from_utf8_unfold _ _ _ Hs) as (c & bs & s' & Heq & Hc & -> & Hs' & Hlt).
  destruct (IH bs Hlt s' Hs') as [<- Hv]. split; [done|by constructor].
Qed.

(** ** Lemmas: map iteration *)
Lemma btree_entries_perm {A} (m : gmap str A) : btree_entries m ≡ₚ map_to_list m.
Proof. apply merge_sort_Permutation. Qed.

Lemma elem_of_btree_entries {A} (m : gmap str A) k v :
  (k, v) ∈ btree_entries m ↔ m !! k = Some v.
Proof. by rewrite btree_entries_perm, elem_of_map_to_list. Qed.

Lemma elem_of_btree_values {A} (m : gmap str A) v :
  v ∈ btree_values m ↔ ∃ k, m !! k = Some v.
Proof.
  unfold btree_values. rewrite list_elem_of_fmap. split.
  - intros ([k v'] & -> & H). exists k. by apply elem_of_btree_entries.
  - intros [k H]. exists (k, v). split; [done|]. by apply elem_of_btree_entries.
Qed.

Lemma Forall_btree_entries {A} (m : gmap str A) (P : str * A → Prop) :
  Forall P (btree_entries m) ↔ ∀ k v, m !! k = Some v → P (k, v).
Proof.
  rewrite Forall_forall. split.
  - intros H k v Hk. apply H. by apply elem_of_btree_entries.
  - intros H [k v] Hk%elem_of_btree_entries. by apply H.
Qed.

Lemma Forall_btree_values {A} (m : gmap str A) (P : A → Prop) :
  Forall P (btree_values m) ↔ ∀ k v, m !! k = Some v → P v.
Proof.
  rewrite Forall_forall. setoid_rewrite elem_of_btree_values. naive_solver.
Qed.

Lemma NoDup_btree_keys {A} (m : gmap str A) : NoDup (btree_entries m).*1.
Proof. rewrite btree_entries_perm. apply NoDup_fst_map_to_list. Qed.

Lemma list_to_map_btree_entries {A} (m : gmap str A) : list_to_map (btree_entries m) = m.
Proof.
  rewrite <- (list_to_map_to_list m) at 2.
  apply list_to_map_proper; [apply NoDup_btree_keys|apply btree_entries_perm].
Qed.

(** The order of strings. *)
Lemma str_leb_total s t : str_leb s t = true ∨ str_leb t s = true.
Proof.
  revert t. induction s as [|x s IH]; intros [|y t]; cbn [str_leb]; auto.
  destruct (Z.ltb_spec x y), (Z.ltb_spec y x), (Z.eqb_spec x y), (Z.eqb_spec y x);
    cbn [orb andb]; auto; lia.
Qed.

Lemma str_leb_trans s t u : str_leb s t = true → str_leb t u = true → str_leb s u = true.
Proof.
  revert t u. induction s as [|x s IH]; intros [|y t] [|z u]; cbn [str_leb]; try done.
  rewrite !orb_true_iff, !andb_true_iff, !Z.ltb_lt, !Z.eqb_eq.
  intros [?|[-> ?]] [?|[-> ?]]; [left; lia|left; lia|left; lia|right; eauto].
Qed.

Lemma str_leb_antisym s t : str_leb s t = true → str_leb t s = true → s = t.
Proof.
  revert t. induction s as [|x s IH]; intros [|y t]; cbn [str_leb]; try done.
  rewrite !orb_true_iff, !andb_true_iff, !Z.ltb_lt, !Z.eqb_eq.
  intros [?|[-> ?]] [?|[? ?]]; try lia. f_equal. auto.
Qed.

#[export] Instance str_le_total : Total str_le.
Proof. intros s t. unfold str_le. rewrite !Is_true_true. apply str_leb_total. Qed.
#[export] Instance str_le_po : PartialOrder str_le.
Proof.
  split; [split|].
  - intros s. unfold str_le. rewrite Is_true_true. by destruct (str_leb_total s s).
  - intros s t u. unfold str_le. rewrite !Is_true_true. apply str_leb_trans.
  - intros s t. unfold str_le. rewrite !Is_true_true. apply str_leb_antisym.
Qed.
