(* ===== verification/StrFacts.v ===== *)
(** * Lemmas on strings

    What the parsers of the program need of the string functions of [RustStr]:
    slices, trimming, suffixes, lines and decimal integers. *)

From stdpp Require Import base list gmap strings numbers sorting.
From Stdlib Require Import Lia.
From S2P Require Import Prelude RustStr.

Lemma utf8_ascii s : Forall (λ c, c < 128) s → utf8 s = s.
Proof.
  induction 1 as [|c s Hc _ IH]; [done|]. cbn [utf8]. unfold utf8_char.
  destruct (Z.ltb_spec c 128); [|lia]. cbn. by rewrite IH.
Qed.

(** ** Slices *)
Lemma split_at_byte_app s t : split_at_byte (s ++ t) (str_len s) = Some (s, t).
Proof.
  induction s as [|c s IH]; [by destruct t|]. cbn [app split_at_byte str_len].
  pose proof (len_utf8_pos c). pose proof (str_len_nonneg s).
  destruct (Z.eqb_spec (len_utf8 c + str_len s) 0); [lia|].
  destruct (Z.ltb_spec (len_utf8 c + str_len s) (len_utf8 c)); [lia|].
  replace (len_utf8 c + str_len s - len_utf8 c) with (str_len s) by lia. by rewrite IH.
Qed.

Lemma slice_app s t u : slice (s ++ t ++ u) (str_len s) (str_len s + str_len t) = Some t.
Proof.
  unfold slice. pose proof (str_len_nonneg t).
  destruct (Z.ltb_spec (str_len s + str_len t) (str_len s)); [lia|].
  rewrite split_at_byte_app. cbn.
  replace (str_len s + str_len t - str_len s) with (str_len t) by lia.
  by rewrite split_at_byte_app.
Qed.

Lemma len_utf8_ascii c : c < 128 → len_utf8 c = 1.
Proof. unfold len_utf8. by destruct (Z.ltb_spec c 128); [|lia]. Qed.

(** Dropping an ASCII character at each end. *)
Lemma slice_inner c s d :
  c < 128 → d < 128 → slice (c :: s ++ [d]) 1 (str_len (c :: s ++ [d]) - 1) = Some s.
Proof.
  intros Hc Hd. pose proof (slice_app [c] s [d]) as H. cbn [str_len app] in H.
  cbn [str_len app]. rewrite str_len_app. cbn [str_len].
  rewrite (len_utf8_ascii c), (len_utf8_ascii d) in * by done.
  rewrite <- H. f_equal; lia.
Qed.

(** An ASCII byte of the encoding is a character of the string. *)
(** A string of safe bytes is one of safe characters. *)
Lemma safe_utf8 (p : Z → bool) s :
  (∀ b, p b = true → 0 ≤ b < 128) → forallb p (utf8 s) = true → Forall (λ c, p c = true ∧ c < 128) s.
Proof.
  intros Hp. induction s as [|c s IH]; [constructor|]. cbn [utf8]. rewrite forallb_app, andb_true_iff.
  intros [Hc Hs]. constructor; [|by apply IH]. unfold utf8_char in Hc. destruct (Z.ltb_spec c 128) as [Hlt|Hge].
  { cbn [forallb] in Hc. by rewrite andb_true_r in Hc. }
  exfalso. assert (∀ b bs, 128 ≤ b → forallb p (b :: bs) = true → False) as Hlead.
  { intros b bs Hb H. cbn [forallb] in H. apply andb_true_iff in H as [H%Hp _]. lia. }
  destruct (c <? 2048); [|destruct (c <? 65536)]; eapply Hlead, Hc.
  - pose proof (Z.div_pos c 64). lia.
  - pose proof (Z.div_pos c 4096). lia.
  - pose proof (Z.div_pos c 262144). lia.
Qed.

Lemma utf8_digits s : forallb is_ascii_digit (utf8 s) = true ↔ Forall (λ c, is_ascii_digit c = true) s.
Proof.
  assert (Hd : ∀ b, is_ascii_digit b = true → 0 ≤ b < 128).
  { intros b Hb. unfold is_ascii_digit in Hb. apply andb_true_iff in Hb as [?%Z.leb_le ?%Z.leb_le]. lia. }
  split.
  - intros H%safe_utf8; [|done]. apply (Forall_impl _ _ _ H). by intros c [].
  - intros H. rewrite utf8_ascii; [by apply forallb_Forall|]. apply (Forall_impl _ _ _ H). intros c Hc%Hd. lia.
Qed.

Lemma utf8_char_high c : is_scalar c → 128 ≤ c → Forall (λ b, 128 ≤ b) (utf8_char c).
Proof.
  unfold utf8_char, is_scalar. rewrite div_262144, div_4096. intros Hc Hle.
  div64 c q r. div64 q q1 r1. div64 q1 q2 r2. zbool; repeat constructor; lia.
Qed.

Lemma utf8_ascii_split s x b y :
  valid_str s → utf8 s = x ++ b :: y → b < 128 →
  ∃ s1 s2, s = s1 ++ b :: s2 ∧ utf8 s1 = x ∧ utf8 s2 = y.
Proof.
  intros Hs. revert x. induction Hs as [|c s Hc Hs IH]; intros x Heq Hb; cbn [utf8] in Heq.
  { by destruct x. }
  apply app_eq_inv in Heq as [(k & Hk & Hy)|(k & -> & Heq)].
  - destruct k as [|b' k].
    + rewrite app_nil_r in Hk. cbn in Hy. destruct (IH [] (eq_sym Hy) Hb) as (s1 & s2 & -> & Hs1 & Hs2).
      exists (c :: s1), s2. split_and!; [done| |done]. cbn [utf8]. by rewrite Hs1, Hk, app_nil_r.
    + injection Hy as <- Hy. destruct (Z.lt_ge_cases c 128) as [Hlt|Hge].
      * unfold utf8_char in Hk. rewrite (proj2 (Z.ltb_lt c 128)) in Hk by done.
        destruct x as [|x0 x]; [|by destruct x]. injection Hk as -> <-. by exists [], s.
      * pose proof (utf8_char_high c Hc Hge) as Hall. rewrite Hk in Hall.
        apply Forall_app in Hall as [_ Hall]. apply Forall_cons_1 in Hall. lia.
  - destruct (IH k Heq Hb) as (s1 & s2 & -> & Hs1 & Hs2).
    exists (c :: s1), s2. split_and!; [done| |done]. cbn [utf8]. by rewrite Hs1.
Qed.

Lemma utf8_inj s t : valid_str s → valid_str t → utf8 s = utf8 t → s = t.
Proof.
  intros Hs Ht Heq. apply from_utf8_utf8 in Hs, Ht. rewrite Heq, Ht in Hs. by injection Hs.
Qed.

(** Splitting off a known prefix. *)
Lemma utf8_prefix s p x : valid_str s → valid_str p → utf8 s = utf8 p ++ x → ∃ t, s = p ++ t ∧ utf8 t = x.
Proof.
  intros Hs Hp Heq. apply from_utf8_utf8 in Hs. rewrite Heq, from_utf8_app in Hs by done.
  apply fmap_Some in Hs as (t & Ht & ->). exists t. split; [done|]. by apply utf8_from_utf8.
Qed.

(** ** Prefixes and suffixes *)
Lemma strip_prefix_some p s rest : strip_prefix p s = Some rest ↔ s = p ++ rest.
Proof.
  revert s. induction p as [|x p IH]; intros s; cbn [strip_prefix app]; [naive_solver|].
  destruct s as [|y s]; [naive_solver|]. destruct (Z.eqb_spec x y) as [->|Hne]; [rewrite IH; naive_solver|].
  split; [done|]. intros [= -> _]. done.
Qed.

Lemma starts_with_app p s : starts_with (p ++ s) p = true.
Proof.
  unfold starts_with. assert (strip_prefix p (p ++ s) = Some s) as ->; [|done].
  induction p as [|x p IH]; [by destruct s|]. cbn. by rewrite Z.eqb_refl.
Qed.

Lemma starts_with_one c s : starts_with s [c] = bool_decide (head s = Some c).
Proof.
  unfold starts_with. destruct s as [|d s]; [done|]. cbn. destruct (Z.eqb_spec c d) as [->|].
  - rewrite bool_decide_eq_true_2 by done. by destruct s.
  - rewrite bool_decide_eq_false_2 by congruence. done.
Qed.

Lemma ends_with_snoc s c d : ends_with (s ++ [d]) [c] = (c =? d).
Proof.
  unfold ends_with. change (reverse [c]) with [c]. rewrite starts_with_one, reverse_snoc. cbn [head].
  destruct (Z.eqb_spec c d) as [->|]; [by rewrite bool_decide_eq_true_2|].
  apply bool_decide_eq_false_2. congruence.
Qed.

(** ** Trimming *)
Definition no_ws_head (s : str) : bool :=
  match s with [] => true | c :: _ => negb (is_whitespace c) end.

Lemma drop_while_head p s : match s with [] => true | c :: _ => negb (p c) end = true → drop_while p s = s.
Proof. destruct s as [|c s]; [done|]. cbn. by destruct (p c). Qed.

Lemma trim_id s : no_ws_head s = true → no_ws_head (reverse s) = true → trim s = s.
Proof.
  intros H1 H2. unfold trim, trim_start, trim_end. rewrite (drop_while_head _ s) by done.
  rewrite drop_while_head by done. apply reverse_involutive.
Qed.

Lemma trim_cons_ws c s : is_whitespace c = true → trim (c :: s) = trim s.
Proof. intros H. unfold trim, trim_start. cbn [drop_while]. by rewrite H. Qed.

Lemma trim_snoc_ws c s :
  is_whitespace c = true → s ≠ [] → no_ws_head s = true → trim (s ++ [c]) = trim s.
Proof.
  intros H Hne Hs. unfold trim, trim_start. rewrite (drop_while_head _ s) by done.
  rewrite drop_while_head by (by destruct s).
  unfold trim_end. rewrite reverse_snoc. cbn [drop_while]. by rewrite H.
Qed.

(** ** Words *)
Lemma split_on_none p w : Forall (λ c, p c = false) w → split_on p w = [w].
Proof. induction 1 as [|c w Hc _ IH]; [done|]. cbn [split_on]. by rewrite Hc, IH. Qed.

Lemma split_on_cons p w c s :
  Forall (λ c, p c = false) w → p c = true → split_on p (w ++ c :: s) = w :: split_on p s.
Proof.
  intros Hw Hc. induction Hw as [|d w Hd _ IH]; cbn [app split_on]; [by rewrite Hc|].
  by rewrite Hd, IH.
Qed.

Lemma pieces_sep p c s : p c = true → nonempty_pieces p (c :: s) = nonempty_pieces p s.
Proof. intros Hc. unfold nonempty_pieces. cbn [split_on]. rewrite Hc.
  rewrite filter_cons_False; [done|]. intros H. by apply H.
Qed.

Lemma pieces_word p w c s :
  w ≠ [] → Forall (λ c, p c = false) w → p c = true →
  nonempty_pieces p (w ++ c :: s) = w :: nonempty_pieces p s.
Proof.
  intros Hne Hw Hc. unfold nonempty_pieces. rewrite split_on_cons by done. by rewrite filter_cons_True.
Qed.

Lemma pieces_last p w : w ≠ [] → Forall (λ c, p c = false) w → nonempty_pieces p w = [w].
Proof. intros Hne Hw. unfold nonempty_pieces. rewrite split_on_none by done. by rewrite filter_cons_True. Qed.

Lemma take_drop_while p s : take_while p s ++ drop_while p s = s.
Proof. induction s as [|c s IH]; cbn; [done|]. destruct (p c); [|done]. cbn. by rewrite IH. Qed.

Lemma take_while_Forall p s : Forall (λ c, p c = true) (take_while p s).
Proof. induction s as [|c s IH]; cbn; [constructor|]. destruct (p c) eqn:E; by constructor. Qed.

Lemma drop_while_cons p s c r : drop_while p s = c :: r → p c = false.
Proof.
  induction s as [|d s IH]; cbn; [done|]. destruct (p d) eqn:E; [apply IH|]. by intros [= -> ->].
Qed.

Lemma words_trim s : split_whitespace (trim_start s) = split_whitespace s.
Proof.
  induction s as [|c s IH]; [done|]. unfold trim_start in *. cbn [drop_while].
  destruct (is_whitespace c) eqn:Hc; [|done]. rewrite IH. symmetry. by apply pieces_sep.
Qed.

(** The first word of a string that does not begin with white space. *)
Lemma words_cons s :
  take_while (λ c, negb (is_whitespace c)) s ≠ [] →
  split_whitespace s = take_while (λ c, negb (is_whitespace c)) s ::
    split_whitespace (drop_while (λ c, negb (is_whitespace c)) s).
Proof.
  intros Hne. set (w := take_while _ s) in *. set (r := drop_while _ s).
  assert (Hw : Forall (λ c, is_whitespace c = false) w).
  { eapply Forall_impl; [apply take_while_Forall|]. intros c. cbn. by destruct (is_whitespace c). }
  assert (Hs : s = w ++ r) by by rewrite <- (take_drop_while (λ c, negb (is_whitespace c)) s).
  rewrite Hs at 1. destruct r as [|c r'] eqn:Hr.
  - rewrite app_nil_r. by apply pieces_last.
  - apply drop_while_cons, negb_false_iff in Hr. unfold split_whitespace.
    rewrite pieces_word by done. by rewrite pieces_sep.
Qed.

Lemma trim_start_head s : no_ws_head (trim_start s) = true.
Proof.
  unfold trim_start. destruct (drop_while is_whitespace s) as [|c r] eqn:E; [done|].
  apply drop_while_cons in E. cbn. by rewrite E.
Qed.

Lemma length_drop_while p s : (length (drop_while p s) ≤ length s)%nat.
Proof. induction s as [|c s IH]; cbn; [done|]. destruct (p c); cbn; lia. Qed.

(** ** Lines *)
Lemma lines_from_app cur l s :
  LF ∉ l → lines_from cur (l ++ LF :: s) = strip_cr (reverse cur ++ l) :: lines_from [] s.
Proof.
  revert cur. induction l as [|c l IH]; intros cur Hl; cbn [app lines_from].
  - by rewrite Z.eqb_refl, app_nil_r.
  - rewrite not_elem_of_cons in Hl. destruct Hl as [Hc Hl].
    destruct (Z.eqb_spec c LF); [congruence|]. rewrite IH by done.
    by rewrite reverse_cons, <- app_assoc.
Qed.

Lemma strip_cr_id l : last l ≠ Some CR → strip_cr l = l.
Proof.
  intros H. unfold strip_cr, strip_suffix. destruct l as [|c l] using rev_ind; [done|].
  rewrite last_snoc in H. rewrite reverse_snoc. change (reverse [CR]) with [CR]. cbn -[Z.eqb].
  by destruct (Z.eqb_spec CR c); [congruence|].
Qed.

(** Lines that end with a line feed. *)
Definition unlines (ls : list str) : str := concat ((λ l, l ++ [LF]) <$> ls).

Lemma lines_unlines ls :
  Forall (λ l, LF ∉ l ∧ last l ≠ Some CR) ls → lines (unlines ls) = ls.
Proof.
  unfold lines, unlines. induction 1 as [|l ls [Hl Hcr] _ IH]; [done|].
  csimpl. rewrite <- app_assoc. cbn [app]. rewrite lines_from_app by done.
  rewrite strip_cr_id by done. by rewrite IH.
Qed.

Lemma unlines_app ls ks : unlines (ls ++ ks) = unlines ls ++ unlines ks.
Proof. unfold unlines. by rewrite fmap_app, concat_app. Qed.

Lemma unlines_concat lss : unlines (concat lss) = concat (unlines <$> lss).
Proof. induction lss as [|ls lss IH]; [done|].
  change (unlines (ls ++ concat lss) = unlines ls ++ concat (unlines <$> lss)).
  by rewrite unlines_app, IH. Qed.

(** ** Filters *)
Lemma filter_ext_elem {A} (P Q : A → Prop) `{∀ x, Decision (P x), ∀ x, Decision (Q x)} (l : list A) :
  (∀ x, x ∈ l → P x ↔ Q x) → filter P l = filter Q l.
Proof.
  induction l as [|x l IH]; intros HPQ; [done|].
  assert (filter P l = filter Q l) as Heq by (apply IH; intros y Hy; apply HPQ; by right).
  destruct (decide (P x)) as [HP|HP].
  - rewrite (filter_cons_True P), (filter_cons_True Q) by (done || by apply (HPQ x); [left|]). by rewrite Heq.
  - rewrite (filter_cons_False P), (filter_cons_False Q); [done| |done].
    intros HQ. apply HP, (HPQ x); [left|done].
Qed.

Lemma filter_all {A} (P : A → Prop) `{∀ x, Decision (P x)} (l : list A) : Forall P l → filter P l = l.
Proof. induction 1 as [|x l Hx _ IH]; [done|]. by rewrite filter_cons_True, IH. Qed.

(** Deleting a position of a list without duplicates. *)
Lemma delete_filter {A} `{EqDecision A} (l : list A) p x :
  NoDup l → l !! p = Some x → delete p l = filter (λ y, y ≠ x) l.
Proof.
  intros Hnd Hp. pose proof (take_drop_middle l p x Hp) as Heq. rewrite delete_take_drop.
  rewrite <- Heq in Hnd at 1. rewrite <- Heq at 3. rewrite filter_app, filter_cons_False by auto.
  apply NoDup_app in Hnd as (_ & Hx & Hnd). apply NoDup_cons in Hnd as [Hx' _].
  rewrite !filter_all; [done|..]; apply Forall_forall.
  - by intros y Hy ->.
  - intros y Hy ->. apply (Hx x Hy). left.
Qed.

Lemma StronglySorted_filter {A} (R : A → A → Prop) (P : A → Prop) `{∀ x, Decision (P x)} (l : list A) :
  StronglySorted R l → StronglySorted R (filter P l).
Proof.
  induction 1 as [|x l Hl IH Hx]; [constructor|]. destruct (decide (P x)).
  - rewrite filter_cons_True by done. constructor; [done|].
    apply Forall_forall. intros y [_ Hy]%list_elem_of_filter. rewrite Forall_forall in Hx. by apply Hx.
  - by rewrite filter_cons_False.
Qed.

(** ** Maps filled by a loop *)
Lemma insert_all {A} (l : list (str * A)) (m : gmap str A) :
  NoDup l.*1 → (∀ k, k ∈ l.*1 → m !! k = None) →
  foldl (λ m kv, <[ kv.1 := kv.2 ]> m) m l = list_to_map l ∪ m.
Proof.
  revert m. induction l as [|[k v] l IH]; intros m; csimpl; [by rewrite (left_id_L ∅ (∪))|].
  intros [Hk Hnd]%NoDup_cons Hm. rewrite IH; [|done|].
  - rewrite <- insert_union_l, insert_union_r; [done|]. by apply not_elem_of_list_to_map_1.
  - intros k' Hk'. rewrite lookup_insert_ne; [apply Hm; by right|]. by intros <-.
Qed.

Lemma insert_all_empty {A} (l : list (str * A)) :
  NoDup l.*1 → foldl (λ (m : gmap str A) kv, <[ kv.1 := kv.2 ]> m) ∅ l = list_to_map l.
Proof.
  intros Hnd. rewrite insert_all; [by rewrite (right_id_L ∅ (∪))|done|].
  intros k _. apply lookup_empty.
Qed.

Lemma NoDup_btree_values_key {A} (key : A → str) (m : gmap str A) :
  (∀ k v, m !! k = Some v → k = key v) → NoDup (key <$> btree_values m).
Proof.
  intros Hkey. assert (key <$> btree_values m = (btree_entries m).*1) as ->; [|apply NoDup_btree_keys].
  unfold btree_values. rewrite <- list_fmap_compose. apply list_fmap_ext. intros i [k v] Hkv.
  apply list_elem_of_lookup_2, elem_of_btree_entries in Hkv. cbn. symmetry. by apply Hkey.
Qed.

(** Refilling a map from its values in iteration order. *)
Lemma refill_btree {A B} (key : A → str) (f : A → B) (m : gmap str A) :
  (∀ k v, m !! k = Some v → k = key v) →
  foldl (λ (m' : gmap str B) v, <[ key v := f v ]> m') ∅ (btree_values m) = f <$> m.
Proof.
  intros Hkey.
  assert ((λ v, (key v, f v)) <$> btree_values m = prod_map id f <$> btree_entries m) as Heq.
  { unfold btree_values. rewrite <- list_fmap_compose. apply list_fmap_ext. intros i [k v] Hkv.
    apply list_elem_of_lookup_2, elem_of_btree_entries in Hkv. cbn. by rewrite (Hkey k v Hkv). }
  trans (f <$> (list_to_map (btree_entries m) : gmap str A)); [|by rewrite list_to_map_btree_entries].
  rewrite <- list_to_map_fmap.
  rewrite <- Heq, <- insert_all_empty.
  - by rewrite foldl_fmap.
  - rewrite Heq, <- list_fmap_compose. apply NoDup_btree_keys.
Qed.

(** ** Decimal integers *)
Lemma dec_digits_app fuel n acc : dec_digits fuel n acc = dec_digits fuel n [] ++ acc.
Proof.
  revert n acc. induction fuel as [|fuel IH]; intros n acc; [done|]. cbn [dec_digits]. cbn zeta.
  destruct (n / 10 =? 0); [done|]. rewrite IH, (IH _ [_]), <- app_assoc. done.
Qed.

Lemma dec_value_app acc s t : dec_value acc (s ++ t) = dec_value (dec_value acc s) t.
Proof. revert acc. induction s as [|c s IH]; intros acc; [done|]. cbn. apply IH. Qed.

Lemma dec_digits_spec fuel n :
  (0 < fuel)%nat → 0 ≤ n < 2 ^ Z.of_nat fuel →
  dec_value 0 (dec_digits fuel n []) = n ∧ Forall (λ c, is_ascii_digit c = true) (dec_digits fuel n []) ∧
  dec_digits fuel n [] ≠ [].
Proof.
  revert n. induction fuel as [|fuel IH]; intros n Hfuel Hn; [lia|].
  cbn [dec_digits]. cbn zeta.
  pose proof (Z.div_mod n 10 ltac:(lia)) as Hdm. pose proof (Z.mod_pos_bound n 10 ltac:(lia)) as Hr.
  assert (is_ascii_digit (48 + n mod 10) = true) as Hdigit.
  { unfold is_ascii_digit. apply andb_true_iff. rewrite !Z.leb_le. lia. }
  destruct (Z.eqb_spec (n / 10) 0) as [H0|H0].
  - cbn [dec_value]. split_and!; [lia| |done]. by repeat constructor.
  - rewrite dec_digits_app, dec_value_app.
    assert (0 ≤ n / 10 < 2 ^ Z.of_nat fuel) as Hq.
    { rewrite Nat2Z.inj_succ, Z.pow_succ_r in Hn by lia. split; [apply Z.div_pos; lia|].
      apply Z.div_lt_upper_bound; lia. }
    destruct fuel as [|fuel]; [cbn in Hq; lia|].
    destruct (IH (n / 10)) as (-> & Hall & Hne); [lia|done|].
    split_and!; [cbn [dec_value]; lia| |by intros [? _]%app_eq_nil].
    apply Forall_app. by repeat constructor.
Qed.

Lemma dec_of_spec n :
  0 ≤ n → dec_value 0 (dec_of n) = n ∧ Forall (λ c, is_ascii_digit c = true) (dec_of n) ∧ dec_of n ≠ [].
Proof.
  intros Hn. apply dec_digits_spec; [lia|]. split; [done|].
  rewrite Nat2Z.inj_succ, Z2Nat.id by apply Z.log2_nonneg.
  destruct (decide (n = 0)) as [->|]; [done|]. apply Z.log2_spec. lia.
Qed.

(** [format!] then [parse] gives the integer back. *)
Lemma parse_dec_of max n : 0 ≤ n ≤ max → parse_uint max (dec_of n) = Some n.
Proof.
  intros Hn. destruct (dec_of_spec n) as (Hv & Hall & Hne); [lia|].
  assert (parse_digits max (dec_of n) = Some n) as H.
  { unfold parse_digits. destruct (dec_of n) as [|c s] eqn:E; [done|]. rewrite <- E in *.
    assert (forallb is_ascii_digit (dec_of n) = true) as ->.
    { apply forallb_forall. rewrite Forall_forall in Hall. setoid_rewrite <- list_elem_of_In. done. }
    rewrite Hv. unfold try_from. by destruct (Z.leb_spec n max); [|lia]. }
  unfold parse_uint. destruct (dec_of n) as [|c s] eqn:E; [done|].
  apply Forall_cons_1 in Hall as [Hc _]. destruct (Z.eqb_spec c (ch "+")) as [->|]; [done|]. done.
Qed.
