(* ===== verification/Protocol.v ===== *)
(** * The daemon IPC protocol ([crates/kaduox-ssh-daemon/src/protocol.rs])

    Frames of the daemon's local socket: a 4-byte big-endian length followed by
    a payload, which is a tag byte and the fields of the frame.  [encode_client],
    [decode_client], [encode_server] and [decode_server] are the payload codecs,
    [Cursor] the bounds-checked reader they use, [read_payload]/[write_payload]
    the framing.  The interface [WireField] states what one field's writer and
    reader promise each other; the frame theorems use only that interface. *)

From stdpp Require Import base list gmap strings numbers.
From Stdlib Require Import Lia.
From S2P Require Import Prelude RustStr.

(** ** Constants *)
Definition MAX_FRAME_BYTES : Z := 1024 * 1024.
Definition MAX_ALIAS_BYTES : Z := 128.
Definition MAX_COMMAND_BYTES : Z := 256 * 1024.
Definition MAX_SECRET_BYTES : Z := 64 * 1024.
Definition OUTPUT_CHUNK_BYTES : Z := 16 * 1024.

Definition TAG_PING : Z := 1.
Definition TAG_STATUS : Z := 2.
Definition TAG_DISCONNECT : Z := 3.
Definition TAG_EXEC : Z := 4.
Definition TAG_SHELL : Z := 5.
Definition TAG_INPUT : Z := 6.
Definition TAG_RESIZE : Z := 7.
Definition TAG_EOF : Z := 8.
Definition TAG_SHUTDOWN : Z := 9.
Definition TAG_JUMP_AUTH_RESPONSE : Z := 10.
Definition TAG_OK : Z := 64.
Definition TAG_ERROR : Z := 65.
Definition TAG_AUTH_REQUIRED : Z := 66.
Definition TAG_STDOUT : Z := 67.
Definition TAG_STDERR : Z := 68.
Definition TAG_EXIT : Z := 69.
Definition TAG_STATUS_RESPONSE : Z := 70.
Definition TAG_CACHE : Z := 71.
Definition TAG_JUMP_AUTH_CHALLENGE : Z := 72.

(** ** Frames

    A [PathBuf] is the list of the bytes of its [OsString]; [to_str] succeeds
    when they are UTF-8. *)
Inductive AuthRequest :=
| AuthAuto
| AuthAgent
| AuthPassword (secret : str)
| AuthKeyboardInteractive (secret : str)
| AuthPrivateKey (path : list Z) (passphrase : option str).

Inductive ClientFrame :=
| CPing
| CStatus
| CDisconnect (alias : str)
| CExec (alias : str) (auth : option AuthRequest) (command : str) (as_user : option str)
| CShell (alias : str) (auth : option AuthRequest) (term : str) (columns rows : Z)
    (as_user : option str)
| CInput (bytes : list Z)
| CResize (columns rows : Z)
| CEof
| CShutdown
| CJumpAuthResponse (auth : option AuthRequest).

Inductive ServerFrame :=
| SOk
| SError (message : str)
| SAuthRequired
| SStdout (bytes : list Z)
| SStderr (bytes : list Z)
| SExit (status : option Z)
| SStatus (total_connections in_use_connections active_leases max_connections
           available_capacity : Z)
| SCache (reused : bool)
| SJumpAuthChallenge (index total attempt : Z) (alias host : str) (port : Z)
    (previous_failed : bool).

(** ** Writing fields *)

(** [to_be_bytes] of an [8 * n]-bit integer. *)
Fixpoint be_bytes (n : nat) (z : Z) : list Z :=
  match n with O => [] | S n => be_bytes n (z / 256) ++ [z mod 256] end.
(** [from_be_bytes]. *)
Definition from_be_bytes (bs : list Z) : Z := foldl (λ acc b, acc * 256 + b) 0 bs.

Definition put_u16 (out : list Z) (value : Z) : list Z := out ++ be_bytes 2 value.
Definition put_u32 (out : list Z) (value : Z) : list Z := out ++ be_bytes 4 value.
Definition put_u64 (out : list Z) (value : Z) : list Z := out ++ be_bytes 8 value.

Definition put_usize_u32 (out : list Z) (value : Z) : result (list Z) :=
  value ← with_context (try_from u32_max value) "daemon value exceeds u32";
  Ok (put_u32 out value).

Definition put_bytes (max : Z) (out : list Z) (bytes : list Z) : result (list Z) :=
  if max <? zlen bytes then Err "daemon IPC field exceeds its limit" else
  length ← with_context (try_from u32_max (zlen bytes)) "daemon IPC field exceeds u32";
  Ok (put_u32 out length ++ bytes).

Definition put_string (max : Z) (out : list Z) (value : str) : result (list Z) :=
  put_bytes max out (utf8 value).

Definition put_optional_string (max : Z) (out : list Z) (value : option str) : result (list Z) :=
  match value with
  | None => Ok (out ++ [0])
  | Some value => put_string max (out ++ [1]) value
  end.

Definition put_auth (out : list Z) (auth : option AuthRequest) : result (list Z) :=
  match auth with
  | None => Ok (out ++ [0])
  | Some AuthAuto => Ok (out ++ [1])
  | Some AuthAgent => Ok (out ++ [2])
  | Some (AuthPassword secret) => put_string MAX_SECRET_BYTES (out ++ [3]) secret
  | Some (AuthKeyboardInteractive secret) => put_string MAX_SECRET_BYTES (out ++ [4]) secret
  | Some (AuthPrivateKey path passphrase) =>
      let out := out ++ [5] in
      path ← with_context (from_utf8 path) "daemon private-key path is not valid UTF-8";
      out ← put_string 4096 out path;
      put_optional_string MAX_SECRET_BYTES out passphrase
  end.

(** ** Payload encoders *)
Definition encode_client (frame : ClientFrame) : result (list Z) :=
  match frame with
  | CPing => Ok [TAG_PING]
  | CStatus => Ok [TAG_STATUS]
  | CDisconnect alias => put_string MAX_ALIAS_BYTES [TAG_DISCONNECT] alias
  | CExec alias auth command as_user =>
      out ← put_string MAX_ALIAS_BYTES [TAG_EXEC] alias;
      out ← put_auth out auth;
      out ← put_string MAX_COMMAND_BYTES out command;
      put_optional_string MAX_ALIAS_BYTES out as_user
  | CShell alias auth term columns rows as_user =>
      out ← put_string MAX_ALIAS_BYTES [TAG_SHELL] alias;
      out ← put_auth out auth;
      out ← put_string 256 out term;
      let out := put_u32 out columns in
      let out := put_u32 out rows in
      put_optional_string MAX_ALIAS_BYTES out as_user
  | CInput bytes => put_bytes OUTPUT_CHUNK_BYTES [TAG_INPUT] bytes
  | CResize columns rows => Ok (put_u32 (put_u32 [TAG_RESIZE] columns) rows)
  | CEof => Ok [TAG_EOF]
  | CShutdown => Ok [TAG_SHUTDOWN]
  | CJumpAuthResponse auth => put_auth [TAG_JUMP_AUTH_RESPONSE] auth
  end.

Definition u8_from_bool (b : bool) : Z := if b then 1 else 0.

Definition encode_server (frame : ServerFrame) : result (list Z) :=
  match frame with
  | SOk => Ok [TAG_OK]
  | SError message => put_string MAX_COMMAND_BYTES [TAG_ERROR] message
  | SAuthRequired => Ok [TAG_AUTH_REQUIRED]
  | SStdout bytes => put_bytes OUTPUT_CHUNK_BYTES [TAG_STDOUT] bytes
  | SStderr bytes => put_bytes OUTPUT_CHUNK_BYTES [TAG_STDERR] bytes
  | SExit status =>
      match status with
      | Some status => Ok (put_u32 ([TAG_EXIT] ++ [1]) status)
      | None => Ok ([TAG_EXIT] ++ [0])
      end
  | SStatus total in_use leases max capacity =>
      try_fold (λ out value,
        value ← with_context (try_from u64_max value) "daemon status counter exceeds u64";
        Ok (put_u64 out value))
        [TAG_STATUS_RESPONSE] [total; in_use; leases; max; capacity]
  | SCache reused => Ok ([TAG_CACHE] ++ [u8_from_bool reused])
  | SJumpAuthChallenge index total attempt alias host port previous_failed =>
      out ← put_usize_u32 [TAG_JUMP_AUTH_CHALLENGE] index;
      out ← put_usize_u32 out total;
      out ← put_usize_u32 out attempt;
      out ← put_string MAX_ALIAS_BYTES out alias;
      out ← put_string 4096 out host;
      let out := put_u16 out port in
      Ok (out ++ [u8_from_bool previous_failed])
  end.

(** ** Reading fields: the bounds-checked cursor *)
Record Cursor := mk_cursor { cursor_bytes : list Z; cursor_offset : nat }.

Definition cursor_new (bytes : list Z) : Cursor := mk_cursor bytes 0.

(** Every method takes [&mut self] and so returns the cursor it leaves. *)
Definition reader (A : Type) : Type := Cursor → result (A * Cursor).

Definition cursor_u8 : reader Z := λ c,
  value ← with_context (cursor_bytes c !! cursor_offset c) "daemon IPC frame ended unexpectedly";
  Ok (value, mk_cursor (cursor_bytes c) (S (cursor_offset c))).

Definition cursor_take (length : Z) : reader (list Z) := λ c,
  finish ← with_context (checked_add usize_max (Z.of_nat (cursor_offset c)) length)
             "daemon IPC field length overflow";
  if zlen (cursor_bytes c) <? finish then Err "daemon IPC frame ended unexpectedly" else
  Ok (take (Z.to_nat length) (drop (cursor_offset c) (cursor_bytes c)),
      mk_cursor (cursor_bytes c) (Z.to_nat finish)).

Definition cursor_bool : reader bool := λ c,
  '(value, c) ← cursor_u8 c;
  if value =? 0 then Ok (false, c) else if value =? 1 then Ok (true, c)
  else Err "invalid daemon boolean value".

Definition cursor_uint (n : nat) : reader Z := λ c,
  '(bytes, c) ← cursor_take (Z.of_nat n) c; Ok (from_be_bytes bytes, c).
Definition cursor_u16 : reader Z := cursor_uint 2.
Definition cursor_u32 : reader Z := cursor_uint 4.
Definition cursor_u64 : reader Z := cursor_uint 8.

(** [usize_from_u64]: [usize] is 64-bit. *)
Definition usize_from_u64 (value : Z) : result Z :=
  with_context (try_from usize_max value) "daemon IPC counter does not fit usize".

Definition cursor_usize_u64 : reader Z := λ c,
  '(value, c) ← cursor_u64 c; value ← usize_from_u64 value; Ok (value, c).

Definition cursor_get_bytes (max : Z) : reader (list Z) := λ c,
  '(length, c) ← cursor_u32 c;
  if max <? length then Err "daemon IPC field length exceeds its limit" else cursor_take length c.

Definition cursor_string (max : Z) : reader str := λ c,
  '(bytes, c) ← cursor_get_bytes max c;
  s ← with_context (from_utf8 bytes) "daemon IPC string is not valid UTF-8";
  Ok (s, c).

Definition cursor_optional_string (max : Z) : reader (option str) := λ c,
  '(flag, c) ← cursor_u8 c;
  if flag =? 0 then Ok (None, c)
  else if flag =? 1 then '(s, c) ← cursor_string max c; Ok (Some s, c)
  else Err "invalid daemon optional-string flag".

Definition cursor_auth : reader (option AuthRequest) := λ c,
  '(kind, c) ← cursor_u8 c;
  if kind =? 0 then Ok (None, c)
  else if kind =? 1 then Ok (Some AuthAuto, c)
  else if kind =? 2 then Ok (Some AuthAgent, c)
  else if kind =? 3 then
    '(secret, c) ← cursor_string MAX_SECRET_BYTES c; Ok (Some (AuthPassword secret), c)
  else if kind =? 4 then
    '(secret, c) ← cursor_string MAX_SECRET_BYTES c; Ok (Some (AuthKeyboardInteractive secret), c)
  else if kind =? 5 then
    '(path, c) ← cursor_string 4096 c;
    '(passphrase, c) ← cursor_optional_string MAX_SECRET_BYTES c;
    Ok (Some (AuthPrivateKey (utf8 path) passphrase), c)
  else Err "unknown daemon authentication kind".

Definition cursor_finish (c : Cursor) : result unit :=
  bail_if (negb (Nat.eqb (cursor_offset c) (length (cursor_bytes c))))
    "daemon IPC frame contains trailing bytes".

(** ** Payload decoders *)
Definition decode_client_fields (tag : Z) : reader ClientFrame := λ c,
  if tag =? TAG_PING then Ok (CPing, c)
  else if tag =? TAG_STATUS then Ok (CStatus, c)
  else if tag =? TAG_DISCONNECT then
    '(alias, c) ← cursor_string MAX_ALIAS_BYTES c; Ok (CDisconnect alias, c)
  else if tag =? TAG_EXEC then
    '(alias, c) ← cursor_string MAX_ALIAS_BYTES c;
    '(auth, c) ← cursor_auth c;
    '(command, c) ← cursor_string MAX_COMMAND_BYTES c;
    '(as_user, c) ← cursor_optional_string MAX_ALIAS_BYTES c;
    Ok (CExec alias auth command as_user, c)
  else if tag =? TAG_SHELL then
    '(alias, c) ← cursor_string MAX_ALIAS_BYTES c;
    '(auth, c) ← cursor_auth c;
    '(term, c) ← cursor_string 256 c;
    '(columns, c) ← cursor_u32 c;
    '(rows, c) ← cursor_u32 c;
    '(as_user, c) ← cursor_optional_string MAX_ALIAS_BYTES c;
    Ok (CShell alias auth term columns rows as_user, c)
  else if tag =? TAG_INPUT then
    '(bytes, c) ← cursor_get_bytes OUTPUT_CHUNK_BYTES c; Ok (CInput bytes, c)
  else if tag =? TAG_RESIZE then
    '(columns, c) ← cursor_u32 c;
    '(rows, c) ← cursor_u32 c;
    Ok (CResize columns rows, c)
  else if tag =? TAG_EOF then Ok (CEof, c)
  else if tag =? TAG_SHUTDOWN then Ok (CShutdown, c)
  else if tag =? TAG_JUMP_AUTH_RESPONSE then
    '(auth, c) ← cursor_auth c; Ok (CJumpAuthResponse auth, c)
  else Err "unknown daemon client frame tag".

Definition decode_client (payload : list Z) : result ClientFrame :=
  '(tag, c) ← cursor_u8 (cursor_new payload);
  '(frame, c) ← decode_client_fields tag c;
  cursor_finish c ≫= λ _, Ok frame.

Definition decode_server_fields (tag : Z) : reader ServerFrame := λ c,
  if tag =? TAG_OK then Ok (SOk, c)
  else if tag =? TAG_ERROR then
    '(message, c) ← cursor_string MAX_COMMAND_BYTES c; Ok (SError message, c)
  else if tag =? TAG_AUTH_REQUIRED then Ok (SAuthRequired, c)
  else if tag =? TAG_STDOUT then
    '(bytes, c) ← cursor_get_bytes OUTPUT_CHUNK_BYTES c; Ok (SStdout bytes, c)
  else if tag =? TAG_STDERR then
    '(bytes, c) ← cursor_get_bytes OUTPUT_CHUNK_BYTES c; Ok (SStderr bytes, c)
  else if tag =? TAG_EXIT then
    '(present, c) ← cursor_u8 c;
    if present =? 0 then Ok (SExit None, c)
    else if present =? 1 then '(status, c) ← cursor_u32 c; Ok (SExit (Some status), c)
    else Err "invalid daemon exit-status presence flag"
  else if tag =? TAG_STATUS_RESPONSE then
    '(total, c) ← cursor_usize_u64 c;
    '(in_use, c) ← cursor_usize_u64 c;
    '(leases, c) ← cursor_usize_u64 c;
    '(max, c) ← cursor_usize_u64 c;
    '(capacity, c) ← cursor_usize_u64 c;
    Ok (SStatus total in_use leases max capacity, c)
  else if tag =? TAG_CACHE then
    '(reused, c) ← cursor_bool c; Ok (SCache reused, c)
  else if tag =? TAG_JUMP_AUTH_CHALLENGE then
    '(index, c) ← cursor_u32 c;
    '(total, c) ← cursor_u32 c;
    '(attempt, c) ← cursor_u32 c;
    '(alias, c) ← cursor_string MAX_ALIAS_BYTES c;
    '(host, c) ← cursor_string 4096 c;
    '(port, c) ← cursor_u16 c;
    '(previous_failed, c) ← cursor_bool c;
    Ok (SJumpAuthChallenge index total attempt alias host port previous_failed, c)
  else Err "unknown daemon server frame tag".

Definition decode_server (payload : list Z) : result ServerFrame :=
  '(tag, c) ← cursor_u8 (cursor_new payload);
  '(frame, c) ← decode_server_fields tag c;
  cursor_finish c ≫= λ _, Ok frame.

(** ** Framing

    A reader is the list of the bytes its peer sent before closing; a writer
    is the list of the bytes sent so far.  [read_exact n] takes [n] bytes or
    reports [UnexpectedEof]. *)
Definition read_exact (n : nat) (input : list Z) : option (list Z * list Z) :=
  if Nat.ltb (length input) n then None else Some (take n input, drop n input).

Definition read_payload (input : list Z) : result (option (list Z) * list Z) :=
  match read_exact 1 input with
  | None => Ok (None, [])
  | Some (first, input) =>
      '(rest, input) ← with_context (read_exact 3 input) "daemon IPC frame length was truncated";
      let length := from_be_bytes (first ++ rest) in
      if (length =? 0) || (MAX_FRAME_BYTES <? length)
      then Err "daemon IPC frame length is outside 1..=MAX_FRAME_BYTES" else
      '(payload, input) ← with_context (read_exact (Z.to_nat length) input)
                            "failed to read daemon IPC frame payload";
      Ok (Some payload, input)
  end.

Definition write_payload (out payload : list Z) : result (list Z) :=
  if (zlen payload =? 0) || (MAX_FRAME_BYTES <? zlen payload)
  then Err "daemon IPC payload size is outside 1..=MAX_FRAME_BYTES" else
  length ← with_context (try_from u32_max (zlen payload)) "daemon IPC frame is too large";
  Ok (out ++ be_bytes 4 length ++ payload).

Definition write_client_frame (out : list Z) (frame : ClientFrame) : result (list Z) :=
  payload ← encode_client frame; write_payload out payload.
Definition write_server_frame (out : list Z) (frame : ServerFrame) : result (list Z) :=
  payload ← encode_server frame; write_payload out payload.

Definition read_client_frame (input : list Z) : result (option ClientFrame * list Z) :=
  '(payload, input) ← read_payload input;
  match payload with
  | None => Ok (None, input)
  | Some payload => frame ← decode_client payload; Ok (Some frame, input)
  end.
Definition read_server_frame (input : list Z) : result (option ServerFrame * list Z) :=
  '(payload, input) ← read_payload input;
  match payload with
  | None => Ok (None, input)
  | Some payload => frame ← decode_server payload; Ok (Some frame, input)
  end.

(** ** Well-formed frames: the ranges Rust's types impose *)
Definition valid_auth (auth : option AuthRequest) : Prop :=
  match auth with
  | Some (AuthPassword secret) | Some (AuthKeyboardInteractive secret) => valid_str secret
  | Some (AuthPrivateKey path passphrase) =>
      Forall is_u8 path ∧ match passphrase with Some p => valid_str p | None => True end
  | _ => True
  end.
Definition valid_opt_str (s : option str) : Prop :=
  match s with Some s => valid_str s | None => True end.
Definition valid_client (frame : ClientFrame) : Prop :=
  match frame with
  | CDisconnect alias => valid_str alias
  | CExec alias auth command as_user =>
      valid_str alias ∧ valid_auth auth ∧ valid_str command ∧ valid_opt_str as_user
  | CShell alias auth term columns rows as_user =>
      valid_str alias ∧ valid_auth auth ∧ valid_str term ∧ is_u32 columns ∧ is_u32 rows ∧
      valid_opt_str as_user
  | CInput bytes => Forall is_u8 bytes
  | CResize columns rows => is_u32 columns ∧ is_u32 rows
  | CJumpAuthResponse auth => valid_auth auth
  | CPing | CStatus | CEof | CShutdown => True
  end.
Definition valid_server (frame : ServerFrame) : Prop :=
  match frame with
  | SError message => valid_str message
  | SStdout bytes | SStderr bytes => Forall is_u8 bytes
  | SExit (Some status) => is_u32 status
  | SStatus total in_use leases max capacity =>
      is_u64 total ∧ is_u64 in_use ∧ is_u64 leases ∧ is_u64 max ∧ is_u64 capacity
  | SJumpAuthChallenge index total attempt alias host port _ =>
      0 ≤ index ∧ 0 ≤ total ∧ 0 ≤ attempt ∧ valid_str alias ∧ valid_str host ∧ is_u16 port
  | SOk | SAuthRequired | SExit None | SCache _ => True
  end.

(** ** The field interface

    A cursor between the bytes read and the bytes left. *)
Definition cur (pre l : list Z) : Cursor := mk_cursor (pre ++ l) (length pre).

(** Rust slices are at most [isize::MAX] bytes long. *)
Definition fits (l : list Z) : Prop := zlen l ≤ isize_max.

(** What a field's writer and reader promise: the writer appends at most
    [bound] bytes, from which the reader gets the value back and stops at their
    end; and whatever the reader accepts is what the writer writes. *)
Class WireField {A} (wf : A → Prop) (bound : Z)
    (put : list Z → A → result (list Z)) (get : reader A) := {
  put_get out a out' : put out a = Ok out' → wf a →
    ∃ bs, out' = out ++ bs ∧ zlen bs ≤ bound ∧
          ∀ pre post, fits (pre ++ bs ++ post) →
            get (cur pre (bs ++ post)) = Ok (a, cur (pre ++ bs) post);
  get_put pre l a c : Forall is_u8 l → get (cur pre l) = Ok (a, c) →
    ∃ bs post, l = bs ++ post ∧ c = cur (pre ++ bs) post ∧ wf a ∧
               ∀ out, put out a = Ok (out ++ bs)
}.

(** *** Big-endian integers *)
Lemma length_be_bytes n z : length (be_bytes n z) = n.
Proof.
  revert z. induction n as [|n IH]; intros z; [done|]. cbn [be_bytes].
  rewrite length_app, IH. simpl. lia.
Qed.

Lemma from_be_bytes_snoc bs b : from_be_bytes (bs ++ [b]) = from_be_bytes bs * 256 + b.
Proof. unfold from_be_bytes. by rewrite foldl_app. Qed.

Lemma pow256_S n : 256 ^ Z.of_nat (S n) = 256 * 256 ^ Z.of_nat n.
Proof. rewrite Nat2Z.inj_succ, Z.pow_succ_r; lia. Qed.

Lemma from_be_bytes_be_bytes n z : 0 ≤ z < 256 ^ Z.of_nat n → from_be_bytes (be_bytes n z) = z.
Proof.
  revert z. induction n as [|n IH]; intros z Hz.
  - change (256 ^ Z.of_nat 0) with 1 in Hz. cbn. lia.
  - rewrite pow256_S in Hz. cbn [be_bytes]. rewrite from_be_bytes_snoc.
    pose proof (Z.div_mod z 256 ltac:(lia)).
    rewrite IH; [lia|]. split; [apply Z.div_pos; lia|].
    apply Z.div_lt_upper_bound; lia.
Qed.

Lemma from_be_bytes_bound bs :
  Forall is_u8 bs → 0 ≤ from_be_bytes bs < 256 ^ zlen bs.
Proof.
  induction bs as [|b bs IH] using rev_ind; intros H.
  - cbn. lia.
  - apply Forall_app in H as [H Hb]. rewrite Forall_singleton in Hb.
    rewrite from_be_bytes_snoc, length_app, Nat.add_comm. cbn [length Nat.add].
    rewrite pow256_S. specialize (IH H). unfold is_u8, u8_max in Hb. lia.
Qed.

Lemma be_bytes_from_be_bytes bs n :
  Forall is_u8 bs → length bs = n → be_bytes n (from_be_bytes bs) = bs.
Proof.
  intros H <-. induction bs as [|b bs IH] using rev_ind; [done|].
  apply Forall_app in H as [H Hb]. rewrite Forall_singleton in Hb. unfold is_u8, u8_max in Hb.
  rewrite from_be_bytes_snoc, length_app, Nat.add_comm. cbn [length Nat.add be_bytes].
  rewrite Z.div_add_l, (Z.div_small b), Z.add_0_r, IH by (done || lia).
  rewrite Z.add_comm, Z.mod_add, Z.mod_small by lia. done.
Qed.

Lemma be_bytes_u8 n z : Forall is_u8 (be_bytes n z).
Proof.
  revert z. induction n as [|n IH]; intros z; cbn [be_bytes]; [constructor|].
  apply Forall_app. split; [apply IH|]. rewrite Forall_singleton.
  pose proof (Z.mod_pos_bound z 256 ltac:(lia)). unfold is_u8, u8_max. lia.
Qed.

(** *** Primitive reads *)
Lemma fits_app_inv pre bs post : fits (pre ++ bs ++ post) → zlen pre + zlen bs ≤ isize_max.
Proof. unfold fits. rewrite !length_app. lia. Qed.

Lemma cursor_u8_cur pre b l : cursor_u8 (cur pre (b :: l)) = Ok (b, cur (pre ++ [b]) l).
Proof.
  unfold cursor_u8, cur. cbn. rewrite list_lookup_middle by done. cbn.
  do 3 f_equal; [by rewrite <- app_assoc|]. rewrite length_app. simpl. lia.
Qed.

Lemma cursor_u8_inv pre l b c :
  cursor_u8 (cur pre l) = Ok (b, c) → ∃ l', l = b :: l' ∧ c = cur (pre ++ [b]) l'.
Proof.
  destruct l as [|x l].
  - unfold cursor_u8, cur. cbn. rewrite app_nil_r, lookup_ge_None_2 by lia. done.
  - rewrite cursor_u8_cur. intros [= <- <-]. eauto.
Qed.

Lemma cursor_take_cur pre bs post n :
  fits (pre ++ bs ++ post) → n = zlen bs →
  cursor_take n (cur pre (bs ++ post)) = Ok (bs, cur (pre ++ bs) post).
Proof.
  intros Hfit ->. pose proof (fits_app_inv _ _ _ Hfit). unfold cursor_take, cur. cbn.
  unfold checked_add, try_from. unfold isize_max, usize_max, u64_max in *. zdecide. cbn.
  rewrite !length_app. zdecide. do 3 f_equal.
  - rewrite Nat2Z.id, drop_app_length. by rewrite take_app_length.
  - by rewrite app_assoc.
  - lia.
Qed.

Lemma cursor_take_inv pre l n bs c :
  0 ≤ n → cursor_take n (cur pre l) = Ok (bs, c) →
  ∃ post, l = bs ++ post ∧ zlen bs = n ∧ c = cur (pre ++ bs) post.
Proof.
  intros Hn. unfold cursor_take, cur. cbn.
  intros (finish & [-> _]%with_context_ok%checked_add_some & H)%bind_ok.
  case_match eqn:E; [done|]. apply Z.ltb_ge in E. rewrite length_app in E.
  injection H as <- <-. rewrite drop_app_length. exists (drop (Z.to_nat n) l).
  rewrite take_drop, length_take. split_and!; [done|lia|].
  rewrite <- app_assoc, take_drop. f_equal. rewrite length_app, length_take. lia.
Qed.

(** *** Instances *)
Lemma cursor_uint_cur n pre v post :
  fits (pre ++ be_bytes n v ++ post) → 0 ≤ v < 256 ^ Z.of_nat n →
  cursor_uint n (cur pre (be_bytes n v ++ post)) = Ok (v, cur (pre ++ be_bytes n v) post).
Proof.
  intros Hfit Hv. unfold cursor_uint.
  rewrite cursor_take_cur by (done || by rewrite length_be_bytes). cbn.
  by rewrite from_be_bytes_be_bytes.
Qed.

Lemma cursor_uint_inv n pre l v c :
  Forall is_u8 l → cursor_uint n (cur pre l) = Ok (v, c) →
  ∃ post, l = be_bytes n v ++ post ∧ c = cur (pre ++ be_bytes n v) post ∧ 0 ≤ v < 256 ^ Z.of_nat n.
Proof.
  intros Hl ([bs c'] & H & [= <- <-])%bind_ok.
  apply cursor_take_inv in H as (post & -> & Hlen & ->); [|lia].
  apply Forall_app in Hl as [Hbs _]. apply Nat2Z.inj in Hlen.
  rewrite be_bytes_from_be_bytes by done. exists post. do 2 (split; [done|]).
  rewrite <- Hlen. by apply from_be_bytes_bound.
Qed.

#[export] Instance wire_u32 : WireField is_u32 4 (λ out v, Ok (put_u32 out v)) cursor_u32.
Proof.
  split.
  - intros out a out' [= <-] Ha. exists (be_bytes 4 a). split_and!; [done|done|].
    intros. apply cursor_uint_cur; [done|]. unfold is_u32, u32_max in Ha. lia.
  - intros pre l a c Hl H. apply cursor_uint_inv in H as (post & -> & -> & Ha); [|done].
    exists (be_bytes 4 a), post. split_and!; try done. unfold is_u32, u32_max. lia.
Qed.

#[export] Instance wire_u16 : WireField is_u16 2 (λ out v, Ok (put_u16 out v)) cursor_u16.
Proof.
  split.
  - intros out a out' [= <-] Ha. exists (be_bytes 2 a). split_and!; [done|done|].
    intros. apply cursor_uint_cur; [done|]. unfold is_u16, u16_max in Ha. lia.
  - intros pre l a c Hl H. apply cursor_uint_inv in H as (post & -> & -> & Ha); [|done].
    exists (be_bytes 2 a), post. split_and!; try done. unfold is_u16, u16_max. lia.
Qed.

(** A counter of the status frame: [usize] values written as [u64]. *)
#[export] Instance wire_usize_u64 :
  WireField is_u64 8
    (λ out v, v ← with_context (try_from u64_max v) "daemon status counter exceeds u64";
              Ok (put_u64 out v)) cursor_usize_u64.
Proof.
  split.
  - intros out a out' (v & [-> Ha]%with_context_ok%try_from_some & [= <-])%bind_ok Hwf.
    exists (be_bytes 8 a). split_and!; [done|done|].
    intros pre post Hfit. unfold cursor_usize_u64, cursor_u64.
    rewrite cursor_uint_cur; [|done|unfold is_u64, u64_max in *; lia].
    cbn. unfold usize_from_u64, try_from. unfold usize_max. by zdecide.
  - intros pre l a c Hl.
    intros ([v c'] & H & Hv)%bind_ok.
    apply cursor_uint_inv in H as (post & -> & -> & Ha); [|done].
    apply bind_ok in Hv as (v' & [-> Hv]%with_context_ok%try_from_some & [= <- <-]).
    exists (be_bytes 8 v), post. split_and!; [done|done| |].
    + unfold is_u64, u64_max, usize_max in *. lia.
    + intros out. unfold try_from, usize_max in *. by zdecide.
Qed.

(** A [usize] written with a checked conversion to [u32]. *)
#[export] Instance wire_usize_u32 : WireField (λ v, 0 ≤ v) 4 put_usize_u32 cursor_u32.
Proof.
  split.
  - intros out a out' (v & [-> Ha]%with_context_ok%try_from_some & [= <-])%bind_ok Hwf.
    destruct (put_get (put := λ out v, Ok (put_u32 out v)) (get := cursor_u32) out a _ eq_refl)
      as (bs & ? & ? & ?); [done|]. eauto.
  - intros pre l a c Hl H.
    destruct (get_put (put := λ out v, Ok (put_u32 out v)) _ _ _ _ Hl H) as (bs & post & -> & -> & Ha & Hput).
    exists bs, post. split_and!; [done..|unfold is_u32 in *; lia|].
    intros out. unfold put_usize_u32, try_from. unfold is_u32 in Ha. zdecide. apply Hput.
Qed.

#[export] Instance wire_bool : WireField (λ _, True) 1 (λ out b, Ok (out ++ [u8_from_bool b])) cursor_bool.
Proof.
  split.
  - intros out b out' [= <-] _. eexists. split_and!; [done|done|]. intros pre post _.
    cbn [app]. unfold cursor_bool. rewrite cursor_u8_cur. by destruct b.
  - intros pre l b c _ ([v c'] & (l' & -> & ->)%cursor_u8_inv & H)%bind_ok.
    repeat case_match; to_prop; try done; injection H as <- <-; subst;
      by eexists [_], l'.
Qed.

#[export] Instance wire_bytes max :
  WireField (Forall is_u8) (4 + Z.max 0 max) (put_bytes max) (cursor_get_bytes max).
Proof.
  split.
  - intros out a out' H Ha. unfold put_bytes in H. case_match eqn:Hmax; [done|].
    apply Z.ltb_ge in Hmax. apply bind_ok in H as (n & [-> Hn]%with_context_ok%try_from_some & [= <-]).
    exists (be_bytes 4 (zlen a) ++ a). unfold put_u32. split_and!.
    + by rewrite <- app_assoc.
    + rewrite length_app, length_be_bytes. lia.
    + intros pre post. rewrite <- app_assoc. intros Hfit. unfold cursor_get_bytes, cursor_u32.
      rewrite cursor_uint_cur by (unfold u32_max in *; done || lia). cbn. zdecide.
      rewrite cursor_take_cur; [by rewrite <- app_assoc| |done]. by rewrite <- app_assoc.
  - intros pre l a c Hl ([n c'] & Hn & H)%bind_ok.
    apply cursor_uint_inv in Hn as (post & -> & -> & Hn); [|done].
    case_match eqn:Hmax; [done|]. apply Z.ltb_ge in Hmax.
    apply cursor_take_inv in H as (post' & -> & Hlen & ->); [|lia].
    apply Forall_app in Hl as [_ Hl]. apply Forall_app in Hl as [Ha _].
    exists (be_bytes 4 n ++ a), post'. rewrite <- !app_assoc. split_and!; [done..|].
    intros out. unfold put_bytes, put_u32, try_from. unfold u32_max. rewrite Hlen. zdecide. cbn.
    by rewrite <- app_assoc.
Qed.

#[export] Instance wire_string max :
  WireField valid_str (4 + Z.max 0 max) (put_string max) (cursor_string max).
Proof.
  split.
  - intros out s out' H Hs. unfold put_string in H.
    destruct (put_get (WireField := wire_bytes max) _ _ _ H) as (bs & -> & Hlen & Hget);
      [by apply utf8_bytes|].
    exists bs. split_and!; [done..|]. intros pre post Hfit. unfold cursor_string.
    rewrite Hget by done. cbn. by rewrite from_utf8_utf8.
  - intros pre l s c Hl ([bs c'] & H & Hs)%bind_ok.
    destruct (get_put (WireField := wire_bytes max) _ _ _ _ Hl H) as (bs' & post & -> & -> & _ & Hput).
    apply bind_ok in Hs as (s' & [<- Hv]%with_context_ok%utf8_from_utf8 & [= <- <-]).
    exists bs', post. split_and!; [done..|apply Hput].
Qed.

(** Reading one known byte in front of a field. *)
Lemma fits_cons pre b bs post : fits (pre ++ (b :: bs) ++ post) → fits ((pre ++ [b]) ++ bs ++ post).
Proof. by rewrite <- app_assoc. Qed.

(** A flag byte [b] followed by the field [put]/[get], wrapped by [f]. *)
Lemma put_get_tagged {A B} {wf : A → Prop} {bound put get} `{!WireField wf bound put get}
    (b : Z) (f : A → B) (k : reader B) out a out' :
  put (out ++ [b]) a = Ok out' → wf a →
  (∀ c, k c = ('(x, c) ← get c; Ok (f x, c))) →
  ∃ bs, out' = out ++ b :: bs ∧ zlen bs ≤ bound ∧
        ∀ pre post, fits (pre ++ (b :: bs) ++ post) →
          k (cur (pre ++ [b]) (bs ++ post)) = Ok (f a, cur (pre ++ b :: bs) post).
Proof.
  intros H Ha Hk. destruct (put_get _ _ _ H Ha) as (bs & -> & Hlen & Hget).
  exists bs. rewrite <- app_assoc. split_and!; [done..|]. intros pre post Hfit%fits_cons.
  rewrite Hk, Hget by done. cbn. by rewrite <- app_assoc.
Qed.

#[export] Instance wire_optional_string max :
  WireField valid_opt_str (5 + Z.max 0 max) (put_optional_string max) (cursor_optional_string max).
Proof.
  split.
  - intros out [s|] out' H Hs; cbn in H.
    + destruct (put_get_tagged (WireField0 := wire_string max) 1 Some
        (λ c, '(s, c) ← cursor_string max c; Ok (Some s, c)) _ _ _ H Hs) as (bs & -> & Hlen & Hget);
        [done|].
      exists (1 :: bs). split_and!; [done|cbn [length]; lia|]. intros pre post Hfit.
      unfold cursor_optional_string. cbn [app]. rewrite cursor_u8_cur. cbn. by apply Hget.
    + injection H as <-. exists [0]. split_and!; [done|cbn; lia|]. intros pre post Hfit.
      unfold cursor_optional_string. cbn [app]. by rewrite cursor_u8_cur.
  - intros pre l s c Hl ([b c'] & H & Hs)%bind_ok.
    apply cursor_u8_inv in H as (l' & -> & ->). apply Forall_cons_1 in Hl as [_ Hl].
    case_match eqn:E0; [|case_match eqn:E1; [|done]]; to_prop; subst.
    + injection Hs as <- <-. by exists [0], l'.
    + apply bind_ok in Hs as ([s' c'] & H & [= <- <-]).
      destruct (get_put (WireField := wire_string max) _ _ _ _ Hl H) as (bs & post & -> & -> & Hv & Hput).
      exists (1 :: bs), post. rewrite <- app_assoc. split_and!; [done..|].
      intros out. cbn. rewrite Hput. by rewrite <- app_assoc.
Qed.

(** The authentication field: a kind byte and at most two strings. *)
Definition AUTH_BOUND : Z := 1 + (4 + 4096) + (5 + MAX_SECRET_BYTES).

Lemma put_get_auth out a out' :
  put_auth out a = Ok out' → valid_auth a →
  ∃ bs, out' = out ++ bs ∧ zlen bs ≤ AUTH_BOUND ∧
        ∀ pre post, fits (pre ++ bs ++ post) →
          cursor_auth (cur pre (bs ++ post)) = Ok (a, cur (pre ++ bs) post).
Proof.
  intros H Ha. unfold cursor_auth.
  destruct a as [[| |s|s|path pass]|]; cbn in H, Ha.
  1, 2, 6: injection H as <-; eexists; split_and!; [done|done|]; intros; cbn [app];
    by rewrite cursor_u8_cur.
  - destruct (put_get_tagged (WireField0 := wire_string MAX_SECRET_BYTES) 3 (Some ∘ AuthPassword)
      _ _ _ _ H Ha (λ c, eq_refl)) as (bs & -> & Hlen & Hget).
    exists (3 :: bs). split_and!; [done|cbn [length]; unfold AUTH_BOUND, MAX_SECRET_BYTES in *; lia|].
    intros pre post Hfit. cbn [app]. rewrite cursor_u8_cur. cbn. by apply Hget.
  - destruct (put_get_tagged (WireField0 := wire_string MAX_SECRET_BYTES) 4
      (Some ∘ AuthKeyboardInteractive) _ _ _ _ H Ha (λ c, eq_refl)) as (bs & -> & Hlen & Hget).
    exists (4 :: bs). split_and!; [done|cbn [length]; unfold AUTH_BOUND, MAX_SECRET_BYTES in *; lia|].
    intros pre post Hfit. cbn [app]. rewrite cursor_u8_cur. cbn. by apply Hget.
  - destruct Ha as [Hpath Hpass].
    apply bind_ok in H as (p & [<- Hp]%with_context_ok%utf8_from_utf8 & H).
    apply bind_ok in H as (out1 & H1 & H2).
    destruct (put_get (WireField := wire_string 4096) _ _ _ H1 Hp) as (bs1 & -> & Hlen1 & Hget1).
    destruct (put_get (WireField := wire_optional_string MAX_SECRET_BYTES) _ _ _ H2)
      as (bs2 & -> & Hlen2 & Hget2); [exact Hpass|].
    exists (5 :: bs1 ++ bs2). rewrite <- !app_assoc. split; [done|split].
    + cbn [length]. rewrite length_app. unfold AUTH_BOUND, MAX_SECRET_BYTES in *. lia.
    + intros pre post Hfit. cbn [app]. rewrite cursor_u8_cur, <- app_assoc. cbn.
      apply fits_cons in Hfit. rewrite <- (app_assoc bs1) in Hfit.
      rewrite Hget1 by done. cbn. rewrite Hget2 by (by rewrite <- app_assoc). cbn.
      by rewrite <- !app_assoc.
Qed.

Lemma get_put_auth pre l a c :
  Forall is_u8 l → cursor_auth (cur pre l) = Ok (a, c) →
  ∃ bs post, l = bs ++ post ∧ c = cur (pre ++ bs) post ∧ valid_auth a ∧
             ∀ out, put_auth out a = Ok (out ++ bs).
Proof.
  intros Hl ([b c'] & H & Ha)%bind_ok.
  apply cursor_u8_inv in H as (l' & -> & ->). apply Forall_cons_1 in Hl as [_ Hl].
  repeat case_match; to_prop; try done; subst.
  1-3: injection Ha as <- <-; by eexists [_], l'.
  1, 2: apply bind_ok in Ha as ([s c'] & Hget & [= <- <-]);
    destruct (get_put (WireField := wire_string MAX_SECRET_BYTES) _ _ _ _ Hl Hget)
      as (bs & post & -> & -> & Hv & Hput);
    eexists (_ :: bs), post; rewrite <- app_assoc; split_and!; [done..|];
    intros out; cbn; rewrite Hput; by rewrite <- app_assoc.
  apply bind_ok in Ha as ([p c'] & Hget1 & Ha). apply bind_ok in Ha as ([o c''] & Hget2 & [= <- <-]).
  destruct (get_put (WireField := wire_string 4096) _ _ _ _ Hl Hget1) as (bs1 & l1 & -> & -> & Hp & Hput1).
  apply Forall_app in Hl as [_ Hl].
  destruct (get_put (WireField := wire_optional_string MAX_SECRET_BYTES) _ _ _ _ Hl Hget2)
    as (bs2 & post & -> & -> & Ho & Hput2).
  exists (5 :: bs1 ++ bs2), post. cbn [app]. rewrite <- !app_assoc. do 2 (split; [done|]). split.
  - split; [by apply utf8_bytes|exact Ho].
  - intros out. cbn. rewrite from_utf8_utf8 by done. cbn. rewrite Hput1. cbn. rewrite Hput2.
    by rewrite <- !app_assoc.
Qed.

#[export] Instance wire_auth : WireField valid_auth AUTH_BOUND put_auth cursor_auth.
Proof. split; [apply put_get_auth|apply get_put_auth]. Qed.

(** ** Frames

    [wire_frame_ok enc dec f bs]: [bs] is a tag and fields, and the decoder
    of the fields consumes them all and returns [f]. *)
Definition frame_reads (fields : Z → reader ClientFrame) (f : ClientFrame) (bs : list Z) : Prop :=
  ∃ tag l, bs = tag :: l ∧ zlen bs ≤ MAX_FRAME_BYTES ∧
    (fits bs → fields tag (cur [tag] l) = Ok (f, cur bs [])).
Definition server_frame_reads (fields : Z → reader ServerFrame) (f : ServerFrame) (bs : list Z) : Prop :=
  ∃ tag l, bs = tag :: l ∧ zlen bs ≤ MAX_FRAME_BYTES ∧
    (fits bs → fields tag (cur [tag] l) = Ok (f, cur bs [])).

(** Evaluate the comparisons of tags. *)
Ltac eval_tags :=
  repeat match goal with
  | |- context [?a =? ?b] =>
      let v := eval vm_compute in (a =? b) in
      match v with true => idtac | false => idtac end; change (a =? b) with v
  end; cbn iota.

(** Use the field writer's promise on [H : put out a = Ok out']. *)
Tactic Notation "put_field" uconstr(w) hyp(H) hyp(Hwf) "as" ident(bs) ident(Hlen) ident(Hget) :=
  destruct (put_get (WireField := w) _ _ _ H Hwf) as (bs & -> & Hlen & Hget).

(** Unfold the size bounds and conclude. *)
Ltac frame_size :=
  cbn [length]; rewrite ?length_app, ?length_be_bytes; cbn [length];
  unfold MAX_FRAME_BYTES, MAX_ALIAS_BYTES, MAX_COMMAND_BYTES, OUTPUT_CHUNK_BYTES, AUTH_BOUND,
    MAX_SECRET_BYTES in *; lia.

(** Run a field reader on the bytes its writer wrote. *)
Ltac read_field Hget :=
  rewrite Hget by (rewrite <- ?app_assoc; assumption); step_bind.
Ltac read_uint :=
  rewrite cursor_uint_cur by
    (rewrite <- ?app_assoc; first [assumption | unfold is_u32, u32_max, is_u16, u16_max in *; lia]);
  step_bind.

Lemma encode_client_reads f bs :
  encode_client f = Ok bs → valid_client f → frame_reads decode_client_fields f bs.
Proof.
  intros H Hv. destruct f as [| |alias|alias auth command user|alias auth term cols rows user
    |bytes|cols rows| | |auth]; cbn [encode_client] in H.
  1, 2, 8, 9: injection H as <-; by eexists _, [].
  - put_field (wire_string MAX_ALIAS_BYTES) H Hv as bs1 Hlen1 Hget1.
    exists TAG_DISCONNECT, bs1. split_and!; [done|frame_size|]. intros Hfit.
    unfold decode_client_fields. eval_tags.
    rewrite <- (app_nil_r bs1) at 1. rewrite Hget1; [done|]. by rewrite app_nil_r.
  - destruct Hv as (Hv1 & Hv2 & Hv3 & Hv4).
    apply bind_ok in H as (o1 & H1 & H). apply bind_ok in H as (o2 & H2 & H).
    apply bind_ok in H as (o3 & H3 & H4).
    put_field (wire_string MAX_ALIAS_BYTES) H1 Hv1 as bs1 Hlen1 Hget1.
    put_field wire_auth H2 Hv2 as bs2 Hlen2 Hget2.
    put_field (wire_string MAX_COMMAND_BYTES) H3 Hv3 as bs3 Hlen3 Hget3.
    put_field (wire_optional_string MAX_ALIAS_BYTES) H4 Hv4 as bs4 Hlen4 Hget4.
    exists TAG_EXEC, (bs1 ++ bs2 ++ bs3 ++ bs4 ++ []).
    rewrite app_nil_r, <- !app_assoc. split_and!; [done|frame_size|]. intros Hfit.
    unfold decode_client_fields. eval_tags.
    rewrite <- (app_nil_r bs4) in Hfit |- * at 1.
    read_field Hget1. read_field Hget2. read_field Hget3. read_field Hget4.
    by rewrite <- !app_assoc.
  - destruct Hv as (Hv1 & Hv2 & Hv3 & Hv4 & Hv5 & Hv6).
    apply bind_ok in H as (o1 & H1 & H). apply bind_ok in H as (o2 & H2 & H).
    apply bind_ok in H as (o3 & H3 & H4). unfold put_u32 in H4.
    put_field (wire_string MAX_ALIAS_BYTES) H1 Hv1 as bs1 Hlen1 Hget1.
    put_field wire_auth H2 Hv2 as bs2 Hlen2 Hget2.
    put_field (wire_string 256) H3 Hv3 as bs3 Hlen3 Hget3.
    put_field (wire_optional_string MAX_ALIAS_BYTES) H4 Hv6 as bs4 Hlen4 Hget4.
    exists TAG_SHELL, (bs1 ++ bs2 ++ bs3 ++ be_bytes 4 cols ++ be_bytes 4 rows ++ bs4 ++ []).
    rewrite app_nil_r, <- !app_assoc. split_and!; [done|frame_size|]. intros Hfit.
    unfold decode_client_fields. eval_tags. rewrite <- (app_nil_r bs4) in Hfit |- * at 1.
    read_field Hget1. read_field Hget2. read_field Hget3. unfold cursor_u32. read_uint. read_uint.
    read_field Hget4. by rewrite <- !app_assoc.
  - put_field (wire_bytes OUTPUT_CHUNK_BYTES) H Hv as bs1 Hlen1 Hget1.
    exists TAG_INPUT, bs1. split_and!; [done|frame_size|]. intros Hfit.
    unfold decode_client_fields. eval_tags.
    rewrite <- (app_nil_r bs1) at 1. rewrite Hget1; [done|]. by rewrite app_nil_r.
  - destruct Hv as [Hv1 Hv2]. injection H as <-. unfold put_u32.
    exists TAG_RESIZE, (be_bytes 4 cols ++ be_bytes 4 rows ++ []).
    rewrite app_nil_r, <- app_assoc. split_and!; [done|frame_size|]. intros Hfit.
    unfold decode_client_fields. eval_tags.
    rewrite <- (app_nil_r (be_bytes 4 rows)) in Hfit |- * at 1. unfold cursor_u32.
    read_uint. read_uint. done.
  - put_field wire_auth H Hv as bs1 Hlen1 Hget1.
    exists TAG_JUMP_AUTH_RESPONSE, bs1. split_and!; [done|frame_size|]. intros Hfit.
    unfold decode_client_fields. eval_tags.
    rewrite <- (app_nil_r bs1) at 1. rewrite Hget1; [done|]. by rewrite app_nil_r.
Qed.

(** Use the field reader's promise on the next read of [H]. *)
Tactic Notation "get_field" uconstr(w) hyp(H) hyp(Hl) "as" ident(bs) ident(Hwf) ident(Hput) :=
  let x := fresh "x" in let c := fresh "c" in let Hx := fresh "Hx" in let l := fresh "l" in
  apply bind_ok in H as ([x c] & Hx & H);
  destruct (get_put (WireField := w) _ _ _ _ Hl Hx) as (bs & l & -> & -> & Hwf & Hput);
  apply Forall_app in Hl as [_ Hl].

(** Close a read frame: the bytes of its fields are [bs]. *)
Ltac frame_done H bs :=
  injection H as <- <-; exists bs; eexists;
  rewrite <- ?app_assoc; cbn [app]; split; [done|split; [done|split; [done|]]].

Lemma decode_client_fields_writes pre tag l f c :
  Forall is_u8 l → decode_client_fields tag (cur pre l) = Ok (f, c) →
  ∃ bs post, l = bs ++ post ∧ c = cur (pre ++ bs) post ∧ valid_client f ∧
             encode_client f = Ok (tag :: bs).
Proof.
  intros Hl H. unfold decode_client_fields in H.
  repeat match type of H with
  | (if tag =? ?t then _ else _) = _ => destruct (Z.eqb_spec tag t) as [->|_]
  end; [..|discriminate H].
  1, 2, 8, 9: injection H as <- <-; by exists [], l; rewrite app_nil_r.
  - get_field (wire_string MAX_ALIAS_BYTES) H Hl as bs1 Hwf1 Hput1.
    frame_done H bs1. cbn [encode_client]. by rewrite Hput1.
  - get_field (wire_string MAX_ALIAS_BYTES) H Hl as bs1 Hwf1 Hput1.
    get_field wire_auth H Hl as bs2 Hwf2 Hput2.
    get_field (wire_string MAX_COMMAND_BYTES) H Hl as bs3 Hwf3 Hput3.
    get_field (wire_optional_string MAX_ALIAS_BYTES) H Hl as bs4 Hwf4 Hput4.
    frame_done H (bs1 ++ bs2 ++ bs3 ++ bs4). cbn [encode_client].
    rewrite Hput1; step_bind. rewrite Hput2; step_bind. rewrite Hput3; step_bind.
    rewrite Hput4. by rewrite <- !app_assoc.
  - get_field (wire_string MAX_ALIAS_BYTES) H Hl as bs1 Hwf1 Hput1.
    get_field wire_auth H Hl as bs2 Hwf2 Hput2.
    get_field (wire_string 256) H Hl as bs3 Hwf3 Hput3.
    get_field wire_u32 H Hl as bs4 Hwf4 Hput4.
    get_field wire_u32 H Hl as bs5 Hwf5 Hput5.
    get_field (wire_optional_string MAX_ALIAS_BYTES) H Hl as bs6 Hwf6 Hput6.
    frame_done H (bs1 ++ bs2 ++ bs3 ++ bs4 ++ bs5 ++ bs6). cbn [encode_client].
    rewrite Hput1; step_bind. rewrite Hput2; step_bind. rewrite Hput3; step_bind. cbv zeta.
    rewrite (Ok_inj _ _ (Hput4 _)), (Ok_inj _ _ (Hput5 _)).
    rewrite Hput6. by rewrite <- !app_assoc.
  - get_field (wire_bytes OUTPUT_CHUNK_BYTES) H Hl as bs1 Hwf1 Hput1.
    frame_done H bs1. cbn [encode_client]. by rewrite Hput1.
  - get_field wire_u32 H Hl as bs1 Hwf1 Hput1.
    get_field wire_u32 H Hl as bs2 Hwf2 Hput2.
    frame_done H (bs1 ++ bs2). cbn [encode_client].
    by rewrite (Ok_inj _ _ (Hput1 _)), (Ok_inj _ _ (Hput2 _)).
  - get_field wire_auth H Hl as bs1 Hwf1 Hput1.
    frame_done H bs1. cbn [encode_client]. by rewrite Hput1.
Qed.

(** A [decode] that reads a tag, its fields, and insists on the end. *)
Definition decode_with {F} (fields : Z → reader F) (payload : list Z) : result F :=
  '(tag, c) ← cursor_u8 (cursor_new payload);
  '(frame, c) ← fields tag c;
  cursor_finish c ≫= λ _, Ok frame.

Lemma cursor_finish_cur pre l : cursor_finish (cur pre l) = Ok tt ↔ l = [].
Proof.
  unfold cursor_finish, cur. cbn. rewrite bail_if_ok, negb_false_iff, Nat.eqb_eq, length_app.
  destruct l; cbn; split; try done; lia.
Qed.

Lemma decode_with_ok {F} (fields : Z → reader F) payload f :
  decode_with fields payload = Ok f ↔
  ∃ tag l c, payload = tag :: l ∧ fields tag (cur [tag] l) = Ok (f, c) ∧ cursor_finish c = Ok tt.
Proof.
  unfold decode_with. change (cursor_new payload) with (cur [] payload). rewrite bind_ok. split.
  - intros ([tag c] & (l & -> & ->)%cursor_u8_inv & ([f' c'] & Hf & H)%bind_ok).
    apply bind_ok in H as ([] & Hfin & [= <-]). by exists tag, l, c'.
  - intros (tag & l & c & -> & Hf & Hfin). exists (tag, cur [tag] l).
    rewrite cursor_u8_cur. split; [done|]. cbv beta iota. rewrite Hf. step_bind. by rewrite Hfin.
Qed.

(** *** Server frames *)
Lemma encode_status_inv a b c d e bs :
  encode_server (SStatus a b c d e) = Ok bs → valid_server (SStatus a b c d e) →
  bs = TAG_STATUS_RESPONSE :: be_bytes 8 a ++ be_bytes 8 b ++ be_bytes 8 c ++ be_bytes 8 d
         ++ be_bytes 8 e.
Proof.
  intros H (?&?&?&?&?). unfold is_u64 in *.
  cbn [encode_server try_fold] in H. unfold try_from in H. revert H. zdecide. intros H.
  unfold with_context, put_u64 in H. rewrite !bind_of_ok in H. apply Ok_inj in H as <-.
  by rewrite <- !app_assoc.
Qed.

Lemma read_usize_u64 v pre post :
  fits (pre ++ be_bytes 8 v ++ post) → is_u64 v →
  cursor_usize_u64 (cur pre (be_bytes 8 v ++ post)) = Ok (v, cur (pre ++ be_bytes 8 v) post).
Proof.
  intros Hfit Hv. unfold cursor_usize_u64, cursor_u64.
  rewrite cursor_uint_cur; [|done|unfold is_u64, u64_max in *; lia].
  step_bind. unfold usize_from_u64, try_from. unfold is_u64, usize_max in *. by zdecide.
Qed.

Ltac read_u64 :=
  rewrite read_usize_u64 by (rewrite <- ?app_assoc; assumption); step_bind.

Lemma encode_status_reads a b c d e bs :
  encode_server (SStatus a b c d e) = Ok bs → valid_server (SStatus a b c d e) →
  server_frame_reads decode_server_fields (SStatus a b c d e) bs.
Proof.
  intros H Hv. rewrite (encode_status_inv _ _ _ _ _ _ H Hv). clear H.
  destruct Hv as (H1 & H2 & H3 & H4 & H5).
  exists TAG_STATUS_RESPONSE, (be_bytes 8 a ++ be_bytes 8 b ++ be_bytes 8 c ++ be_bytes 8 d
    ++ be_bytes 8 e ++ []).
  rewrite app_nil_r. split; [done|split; [frame_size|]]. intros Hfit.
  unfold decode_server_fields. eval_tags. rewrite <- (app_nil_r (be_bytes 8 e)) in Hfit |- * at 1.
  read_u64. read_u64. read_u64. read_u64. read_u64. by rewrite <- !app_assoc.
Qed.

Lemma encode_challenge_reads i t a alias host port pf bs :
  let f := SJumpAuthChallenge i t a alias host port pf in
  encode_server f = Ok bs → valid_server f → server_frame_reads decode_server_fields f bs.
Proof.
  intros f H (Hv1 & Hv2 & Hv3 & Hv4 & Hv5 & Hv6). cbn [encode_server f] in H.
  apply bind_ok in H as (o1 & H1 & H). apply bind_ok in H as (o2 & H2 & H).
  apply bind_ok in H as (o3 & H3 & H). apply bind_ok in H as (o4 & H4 & H).
  apply bind_ok in H as (o5 & H5 & H6). cbv zeta in H6. injection H6 as <-.
  put_field wire_usize_u32 H1 Hv1 as bs1 Hlen1 Hget1.
  put_field wire_usize_u32 H2 Hv2 as bs2 Hlen2 Hget2.
  put_field wire_usize_u32 H3 Hv3 as bs3 Hlen3 Hget3.
  put_field (wire_string MAX_ALIAS_BYTES) H4 Hv4 as bs4 Hlen4 Hget4.
  put_field (wire_string 4096) H5 Hv5 as bs5 Hlen5 Hget5.
  exists TAG_JUMP_AUTH_CHALLENGE, (bs1 ++ bs2 ++ bs3 ++ bs4 ++ bs5 ++ be_bytes 2 port
    ++ [u8_from_bool pf]).
  unfold put_u16. rewrite <- !app_assoc. split; [done|split; [frame_size|]]. intros Hfit.
  unfold decode_server_fields. eval_tags.
  read_field Hget1. read_field Hget2. read_field Hget3. read_field Hget4. read_field Hget5.
  unfold cursor_u16. read_uint. unfold cursor_bool. rewrite cursor_u8_cur. step_bind.
  rewrite <- !app_assoc. by destruct pf.
Qed.

Lemma encode_server_reads f bs :
  encode_server f = Ok bs → valid_server f → server_frame_reads decode_server_fields f bs.
Proof.
  intros H Hv. destruct f as [|msg| |bytes|bytes|status|a b c d e|reused|i t a alias host port pf];
    [..|by apply encode_challenge_reads]; try (by apply encode_status_reads);
    cbn [encode_server] in H.
  1, 3: injection H as <-; by eexists _, [].
  - put_field (wire_string MAX_COMMAND_BYTES) H Hv as bs1 Hlen1 Hget1.
    exists TAG_ERROR, bs1. split; [done|split; [frame_size|]]. intros Hfit.
    unfold decode_server_fields. eval_tags.
    rewrite <- (app_nil_r bs1) at 1. rewrite Hget1; [done|]. by rewrite app_nil_r.
  - put_field (wire_bytes OUTPUT_CHUNK_BYTES) H Hv as bs1 Hlen1 Hget1.
    exists TAG_STDOUT, bs1. split; [done|split; [frame_size|]]. intros Hfit.
    unfold decode_server_fields. eval_tags.
    rewrite <- (app_nil_r bs1) at 1. rewrite Hget1; [done|]. by rewrite app_nil_r.
  - put_field (wire_bytes OUTPUT_CHUNK_BYTES) H Hv as bs1 Hlen1 Hget1.
    exists TAG_STDERR, bs1. split; [done|split; [frame_size|]]. intros Hfit.
    unfold decode_server_fields. eval_tags.
    rewrite <- (app_nil_r bs1) at 1. rewrite Hget1; [done|]. by rewrite app_nil_r.
  - destruct status as [n|]; apply Ok_inj in H as <-; cbn [valid_server] in Hv; unfold put_u32.
    + exists TAG_EXIT, (1 :: be_bytes 4 n ++ []).
      rewrite app_nil_r. split; [done|split; [frame_size|]]. intros Hfit.
      unfold decode_server_fields. eval_tags. rewrite cursor_u8_cur. step_bind. eval_tags.
      rewrite <- (app_nil_r (be_bytes 4 n)) in Hfit |- * at 1.
      unfold cursor_u32. read_uint. done.
    + by eexists _, [0].
  - injection H as <-. exists TAG_CACHE, [u8_from_bool reused].
    split; [done|split; [done|]]. intros _. by destruct reused.
Qed.

Lemma decode_server_fields_writes pre tag l f c :
  Forall is_u8 l → decode_server_fields tag (cur pre l) = Ok (f, c) →
  ∃ bs post, l = bs ++ post ∧ c = cur (pre ++ bs) post ∧ valid_server f ∧
             encode_server f = Ok (tag :: bs).
Proof.
  intros Hl H. unfold decode_server_fields in H.
  repeat match type of H with
  | (if tag =? ?t then _ else _) = _ => destruct (Z.eqb_spec tag t) as [->|_]
  end; [..|discriminate H].
  1, 3: injection H as <- <-; by exists [], l; rewrite app_nil_r.
  - get_field (wire_string MAX_COMMAND_BYTES) H Hl as bs1 Hwf1 Hput1.
    frame_done H bs1. cbn [encode_server]. by rewrite Hput1.
  - get_field (wire_bytes OUTPUT_CHUNK_BYTES) H Hl as bs1 Hwf1 Hput1.
    frame_done H bs1. cbn [encode_server]. by rewrite Hput1.
  - get_field (wire_bytes OUTPUT_CHUNK_BYTES) H Hl as bs1 Hwf1 Hput1.
    frame_done H bs1. cbn [encode_server]. by rewrite Hput1.
  - apply bind_ok in H as ([p c'] & (l' & -> & ->)%cursor_u8_inv & H).
    apply Forall_cons_1 in Hl as [_ Hl].
    case_match eqn:E0; [|case_match eqn:E1; [|done]]; to_prop; subst.
    + by frame_done H [0].
    + get_field wire_u32 H Hl as bs1 Hwf1 Hput1. frame_done H (1 :: bs1).
      cbn [encode_server]. by rewrite (Ok_inj _ _ (Hput1 _)).
  - get_field wire_usize_u64 H Hl as bs1 Hwf1 Hput1.
    get_field wire_usize_u64 H Hl as bs2 Hwf2 Hput2.
    get_field wire_usize_u64 H Hl as bs3 Hwf3 Hput3.
    get_field wire_usize_u64 H Hl as bs4 Hwf4 Hput4.
    get_field wire_usize_u64 H Hl as bs5 Hwf5 Hput5.
    frame_done H (bs1 ++ bs2 ++ bs3 ++ bs4 ++ bs5). cbn [encode_server try_fold].
    rewrite Hput1; step_bind. rewrite Hput2; step_bind. rewrite Hput3; step_bind.
    rewrite Hput4; step_bind. rewrite Hput5; step_bind. by rewrite <- !app_assoc.
  - get_field wire_bool H Hl as bs1 Hwf1 Hput1.
    frame_done H bs1. cbn [encode_server]. by rewrite (Ok_inj _ _ (Hput1 _)).
  - get_field wire_usize_u32 H Hl as bs1 Hwf1 Hput1.
    get_field wire_usize_u32 H Hl as bs2 Hwf2 Hput2.
    get_field wire_usize_u32 H Hl as bs3 Hwf3 Hput3.
    get_field (wire_string MAX_ALIAS_BYTES) H Hl as bs4 Hwf4 Hput4.
    get_field (wire_string 4096) H Hl as bs5 Hwf5 Hput5.
    get_field wire_u16 H Hl as bs6 Hwf6 Hput6.
    get_field wire_bool H Hl as bs7 Hwf7 Hput7.
    frame_done H (bs1 ++ bs2 ++ bs3 ++ bs4 ++ bs5 ++ bs6 ++ bs7). cbn [encode_server].
    rewrite Hput1; step_bind. rewrite Hput2; step_bind. rewrite Hput3; step_bind.
    rewrite Hput4; step_bind. rewrite Hput5; step_bind. cbv zeta.
    rewrite (Ok_inj _ _ (Hput6 _)), (Ok_inj _ _ (Hput7 _)). by rewrite <- !app_assoc.
Qed.

(** ** Framing *)
Lemma frame_fits bs : zlen bs ≤ MAX_FRAME_BYTES → fits bs.
Proof. unfold fits, MAX_FRAME_BYTES, isize_max. lia. Qed.

Lemma read_exact_app n l rest :
  length l = n → read_exact n (l ++ rest) = Some (l, rest).
Proof.
  intros <-. unfold read_exact. rewrite length_app.
  destruct (Nat.ltb_spec (length l + length rest) (length l)); [lia|].
  by rewrite take_app_length, drop_app_length.
Qed.

Lemma read_exact_short n l : (length l < n)%nat → read_exact n l = None.
Proof. intros H. unfold read_exact. by apply Nat.ltb_lt in H as ->. Qed.

Lemma write_payload_ok out p out' :
  write_payload out p = Ok out' ↔
  out' = out ++ be_bytes 4 (zlen p) ++ p ∧ 1 ≤ zlen p ≤ MAX_FRAME_BYTES.
Proof.
  unfold write_payload. destruct (Z.eqb_spec (zlen p) 0), (Z.ltb_spec MAX_FRAME_BYTES (zlen p));
    cbn [orb]; try (split; [done|lia]).
  rewrite bind_ok. setoid_rewrite with_context_ok. setoid_rewrite try_from_some.
  split.
  - intros (n' & [-> _] & [= <-]). split; [done|lia].
  - intros [-> Hlen]. exists (zlen p). unfold u32_max, MAX_FRAME_BYTES in *. naive_solver lia.
Qed.

(** The first byte and the other three of the length prefix. *)
Lemma be_bytes_4_cons n : ∃ b r, be_bytes 4 n = b :: r ∧ length r = 3%nat.
Proof. by eexists _, _. Qed.

Lemma read_payload_write p rest :
  1 ≤ zlen p ≤ MAX_FRAME_BYTES →
  read_payload (be_bytes 4 (zlen p) ++ p ++ rest) = Ok (Some p, rest).
Proof.
  intros Hlen. destruct (be_bytes_4_cons (zlen p)) as (b & r & Hbe & Hr).
  unfold read_payload. rewrite Hbe. cbn [app].
  change (b :: r ++ p ++ rest) with ([b] ++ r ++ p ++ rest). rewrite read_exact_app by done.
  rewrite read_exact_app by done. cbn [with_context]. step_bind.
  change ([b] ++ r) with (b :: r). rewrite <- Hbe.
  rewrite from_be_bytes_be_bytes by (unfold MAX_FRAME_BYTES in *; lia).
  zdecide. by rewrite read_exact_app by lia.
Qed.

(** A stream that stops inside a frame yields no frame. *)
Lemma read_payload_truncated p k :
  1 ≤ zlen p ≤ MAX_FRAME_BYTES → (k < length (be_bytes 4 (zlen p) ++ p))%nat →
  read_payload (take k (be_bytes 4 (zlen p) ++ p)) =
  if Nat.eqb k 0 then Ok (None, [])
  else if Nat.ltb k 4 then Err "daemon IPC frame length was truncated"
  else Err "failed to read daemon IPC frame payload".
Proof.
  intros Hlen Hk. destruct (be_bytes_4_cons (zlen p)) as (b & r & Hbe & Hr).
  rewrite length_app, length_be_bytes in Hk. rewrite Hbe.
  destruct k as [|k]; [done|]. cbn [Nat.eqb app take].
  unfold read_payload. change (b :: ?l) with ([b] ++ l). rewrite read_exact_app by done.
  destruct (Nat.ltb_spec (S k) 4).
  - rewrite read_exact_short; [done|]. rewrite length_take, length_app. lia.
  - rewrite take_app_ge, Hr, read_exact_app by lia. cbn [with_context]. step_bind.
    change ([b] ++ r) with (b :: r). rewrite <- Hbe.
    rewrite from_be_bytes_be_bytes by (unfold MAX_FRAME_BYTES in *; lia). zdecide.
    rewrite read_exact_short; [done|]. rewrite length_take. lia.
Qed.

Lemma decode_encode_client f bs :
  encode_client f = Ok bs → valid_client f → decode_client bs = Ok f.
Proof.
  intros He Hv. destruct (encode_client_reads _ _ He Hv) as (tag & l & -> & Hlen & Hread).
  apply (decode_with_ok decode_client_fields). exists tag, l, (cur (tag :: l) []).
  split_and!; [done|by apply Hread, frame_fits|by apply cursor_finish_cur].
Qed.

Lemma decode_encode_server f bs :
  encode_server f = Ok bs → valid_server f → decode_server bs = Ok f.
Proof.
  intros He Hv. destruct (encode_server_reads _ _ He Hv) as (tag & l & -> & Hlen & Hread).
  apply (decode_with_ok decode_server_fields). exists tag, l, (cur (tag :: l) []).
  split_and!; [done|by apply Hread, frame_fits|by apply cursor_finish_cur].
Qed.

Lemma encode_client_size f bs :
  encode_client f = Ok bs → valid_client f → 1 ≤ zlen bs ≤ MAX_FRAME_BYTES.
Proof.
  intros He Hv. destruct (encode_client_reads _ _ He Hv) as (tag & l & -> & Hlen & _).
  cbn [length] in *. lia.
Qed.

Lemma encode_server_size f bs :
  encode_server f = Ok bs → valid_server f → 1 ≤ zlen bs ≤ MAX_FRAME_BYTES.
Proof.
  intros He Hv. destruct (encode_server_reads _ _ He Hv) as (tag & l & -> & Hlen & _).
  cbn [length] in *. lia.
Qed.

Lemma read_client_frame_write out f out' :
  write_client_frame out f = Ok out' → valid_client f →
  ∃ w, out' = out ++ w ∧ ∀ rest, read_client_frame (w ++ rest) = Ok (Some f, rest).
Proof.
  intros (p & He & [-> Hlen]%write_payload_ok)%bind_ok Hv. eexists. split; [done|]. intros rest.
  unfold read_client_frame. rewrite <- app_assoc, read_payload_write by done. step_bind.
  by rewrite (decode_encode_client _ _ He Hv).
Qed.

(** ** The receiving loop

    The loop of [daemon::client] and of the shell bridge: read frames until the
    peer closes.  [fuel] bounds the number of frames. *)
Fixpoint read_client_frames (fuel : nat) (input : list Z) : result (list ClientFrame) :=
  match fuel with
  | O => Err "out of fuel"
  | S fuel =>
      '(frame, input) ← read_client_frame input;
      match frame with
      | None => Ok []
      | Some frame => cons frame <$> read_client_frames fuel input
      end
  end.

(** ** Properties *)

(** The client-frame codec is exact: a payload decodes to a frame if and
    only if that frame is well formed and encodes to this very payload.  So
    encoding then decoding is the identity, no two frames share an encoding,
    and the decoder accepts no payload the encoder does not produce (no
    trailing bytes, no alternative flag values, no invalid UTF-8). *)
Theorem client_codec_exact bs f :
  Forall is_u8 bs →
  decode_client bs = Ok f ↔ encode_client f = Ok bs ∧ valid_client f.
Proof.
  intros Hbs. change (decode_client bs) with (decode_with decode_client_fields bs).
  split.
  - intros (tag & l & c & -> & H & Hfin)%decode_with_ok. apply Forall_cons_1 in Hbs as [_ Hl].
    destruct (decode_client_fields_writes _ _ _ _ _ Hl H) as (bs & post & -> & -> & Hv & He).
    apply cursor_finish_cur in Hfin as ->. by rewrite app_nil_r.
  - intros [He Hv]. by apply decode_encode_client.
Qed.

(** C39: the server-frame codec is exact in the same sense. *)
Theorem server_codec_exact bs f :
  Forall is_u8 bs →
  decode_server bs = Ok f ↔ encode_server f = Ok bs ∧ valid_server f.
Proof.
  intros Hbs. change (decode_server bs) with (decode_with decode_server_fields bs).
  split.
  - intros (tag & l & c & -> & H & Hfin)%decode_with_ok. apply Forall_cons_1 in Hbs as [_ Hl].
    destruct (decode_server_fields_writes _ _ _ _ _ Hl H) as (bs & post & -> & -> & Hv & He).
    apply cursor_finish_cur in Hfin as ->. by rewrite app_nil_r.
  - intros [He Hv]. by apply decode_encode_server.
Qed.

(** A sequence of frames written to the socket is read back as the same
    sequence, each frame once and in order, and then the end of the stream. *)
Theorem client_session_roundtrip fs out :
  Forall valid_client fs → try_fold write_client_frame [] fs = Ok out →
  read_client_frames (S (length fs)) out = Ok fs.
Proof.
  intros Hv. assert (∀ out0, try_fold write_client_frame out0 fs = Ok out →
    ∃ w, out = out0 ++ w ∧ read_client_frames (S (length fs)) w = Ok fs) as Hgen.
  { clear -Hv. revert out. induction Hv as [|f fs Hf Hv IH]; intros out out0 H.
    - injection H as <-. exists []. by rewrite app_nil_r.
    - apply bind_ok in H as (out1 & Hw & H).
      destruct (read_client_frame_write _ _ _ Hw Hf) as (w1 & -> & Hread).
      destruct (IH _ _ H) as (w2 & -> & Hrest). exists (w1 ++ w2).
      split; [by rewrite app_assoc|].
      change (read_client_frames _ _) with
        ('(frame, input) ← read_client_frame (w1 ++ w2);
         match frame with
         | None => Ok []
         | Some frame => cons frame <$> read_client_frames (S (length fs)) input
         end).
      rewrite Hread. step_bind. by rewrite Hrest. }
  intros H. by destruct (Hgen [] H) as (w & -> & Hw).
Qed.

(** Every well-formed frame whose fields respect their limits fits the
    1 MiB frame limit of both peers: writing it fails only where encoding its
    fields does. *)
Theorem frame_limit_never_rejects out f g :
  (valid_client f → is_ok (write_client_frame out f) = is_ok (encode_client f)) ∧
  (valid_server g → is_ok (write_server_frame out g) = is_ok (encode_server g)).
Proof.
  split; intros Hv; unfold write_client_frame, write_server_frame.
  - destruct (encode_client f) as [p|] eqn:He; [|done]. rewrite bind_of_ok.
    by rewrite (proj2 (write_payload_ok out p _) (conj eq_refl (encode_client_size _ _ He Hv))).
  - destruct (encode_server g) as [p|] eqn:He; [|done]. rewrite bind_of_ok.
    by rewrite (proj2 (write_payload_ok out p _) (conj eq_refl (encode_server_size _ _ He Hv))).
Qed.

(** ** Witnesses *)
Lemma client_codec_exact_witness :
  Forall is_u8 [4; 0; 0; 0; 4; 112; 114; 111; 100; 1; 0; 0; 0; 2; 108; 115; 0] ∧
  decode_client [4; 0; 0; 0; 4; 112; 114; 111; 100; 1; 0; 0; 0; 2; 108; 115; 0] =
  Ok (CExec (lit "prod") (Some AuthAuto) (lit "ls") None).
Proof.
  split; [decide_now|]. apply client_codec_exact; [decide_now|].
  split; [reflexivity|]. split; [decide_now|split; [exact I|split; [decide_now|exact I]]].
Defined.

Lemma server_codec_exact_witness :
  Forall is_u8 [69; 1; 0; 0; 1; 2] ∧ decode_server [69; 1; 0; 0; 1; 2] = Ok (SExit (Some 258)).
Proof.
  split; [decide_now|]. apply server_codec_exact; [decide_now|].
  split; [reflexivity|]. change (is_u32 258). decide_now.
Defined.

Lemma client_session_roundtrip_witness :
  ∃ out, try_fold write_client_frame [] [CResize 80 24; CInput [27; 255]; CEof] = Ok out ∧
         read_client_frames 4 out = Ok [CResize 80 24; CInput [27; 255]; CEof].
Proof.
  eexists. split; [vm_compute; reflexivity|].
  apply (client_session_roundtrip [CResize 80 24; CInput [27; 255]; CEof]).
  - repeat constructor; decide_now.
  - vm_compute. reflexivity.
Defined.

Lemma frame_limit_never_rejects_witness :
  valid_client (CInput [1]) ∧ is_ok (write_client_frame [] (CInput [1])) = true.
Proof.
  assert (valid_client (CInput [1])) as H by (change (Forall is_u8 [1]); decide_now).
  split; [exact H|]. rewrite (proj1 (frame_limit_never_rejects [] (CInput [1]) SOk) H). reflexivity.
Defined.
