(* ===== verification/HostModel.v ===== *)
(** * The host library's data model ([crates/kaduox-ssh-hosts/src/model.rs])

    Hosts, jump chains and the database that holds them, their validators, and
    the declarative meaning of a valid database ([wf_database]).  A
    [BTreeMap<String, _>] is a [gmap] whose iteration order is [btree_entries];
    a [PathBuf] is the list of the bytes of its [OsString]. *)

From stdpp Require Import base list gmap strings numbers sorting.
From Stdlib Require Import Lia.
From S2P Require Import Prelude RustStr.

Definition DATABASE_VERSION : Z := 1.
Definition MAX_HOSTS : Z := 4096.
Definition MAX_CHAINS : Z := 512.
Definition MAX_CHAIN_HOPS : Z := 8.
Definition MAX_LABELS_PER_HOST : Z := 64.
Definition MAX_TEXT_BYTES : Z := 4096.

(** ** Enumerations and their text forms *)
Inductive StoredHostKeyPolicy := PolicyStrict | PolicyAcceptNew | PolicyInsecure.
#[export] Instance policy_eq_dec : EqDecision StoredHostKeyPolicy.
Proof. solve_decision. Defined.
Definition default_policy : StoredHostKeyPolicy := PolicyAcceptNew.
Definition policy_as_str (p : StoredHostKeyPolicy) : str :=
  match p with
  | PolicyStrict => lit "strict"
  | PolicyAcceptNew => lit "accept-new"
  | PolicyInsecure => lit "insecure"
  end.
Definition policy_parse (value : str) : result StoredHostKeyPolicy :=
  if bool_decide (value = lit "strict") then Ok PolicyStrict
  else if bool_decide (value = lit "accept-new") then Ok PolicyAcceptNew
  else if bool_decide (value = lit "insecure") then Ok PolicyInsecure
  else Err "unknown host-key policy".

Inductive StoredAuthMethod :=
| MethodAgent | MethodPrivateKey | MethodPassword | MethodKeyboardInteractive | MethodAuto.
#[export] Instance method_eq_dec : EqDecision StoredAuthMethod.
Proof. solve_decision. Defined.
Definition method_as_str (m : StoredAuthMethod) : str :=
  match m with
  | MethodAgent => lit "agent"
  | MethodPrivateKey => lit "private-key"
  | MethodPassword => lit "password"
  | MethodKeyboardInteractive => lit "keyboard-interactive"
  | MethodAuto => lit "auto"
  end.
Definition method_parse (value : str) : result StoredAuthMethod :=
  if bool_decide (value = lit "agent") then Ok MethodAgent
  else if bool_decide (value = lit "private-key") then Ok MethodPrivateKey
  else if bool_decide (value = lit "password") then Ok MethodPassword
  else if bool_decide (value = lit "keyboard-interactive") then Ok MethodKeyboardInteractive
  else if bool_decide (value = lit "auto") then Ok MethodAuto
  else Err "unknown authentication method".

Inductive StoredOsType := OsAuto | OsLinux | OsWindows.
#[export] Instance os_eq_dec : EqDecision StoredOsType.
Proof. solve_decision. Defined.
Definition default_os : StoredOsType := OsAuto.
Definition os_as_str (o : StoredOsType) : str :=
  match o with OsAuto => lit "auto" | OsLinux => lit "linux" | OsWindows => lit "windows" end.
Definition os_parse (value : str) : result StoredOsType :=
  if bool_decide (value = lit "auto") then Ok OsAuto
  else if bool_decide (value = lit "linux") then Ok OsLinux
  else if bool_decide (value = lit "windows") then Ok OsWindows
  else Err "unknown operating-system type".

Inductive HostRole := RoleTarget | RoleJump | RoleBoth.
#[export] Instance role_eq_dec : EqDecision HostRole.
Proof. solve_decision. Defined.
Definition default_role : HostRole := RoleBoth.
Definition role_as_str (r : HostRole) : str :=
  match r with RoleTarget => lit "target" | RoleJump => lit "jump" | RoleBoth => lit "both" end.
Definition role_parse (value : str) : result HostRole :=
  if bool_decide (value = lit "target") then Ok RoleTarget
  else if bool_decide (value = lit "jump") then Ok RoleJump
  else if bool_decide (value = lit "both") then Ok RoleBoth
  else Err "role must be target, jump or both".

(** ** Records *)
Record HostStats := mk_stats {
  last_connected_unix : option Z;
  connection_count : Z;
  last_auth_method : option StoredAuthMethod;
}.
Definition default_stats : HostStats := mk_stats None 0 None.

Record HostRecord := mk_host {
  hr_alias : str;
  hr_role : HostRole;
  hr_address : str;
  hr_port : Z;
  hr_user : str;
  hr_identity_file : option (list Z);
  hr_groups : list str;
  hr_tags : list str;
  hr_note : option str;
  hr_host_key_policy : StoredHostKeyPolicy;
  hr_jump_chain : option str;
  hr_os_type : StoredOsType;
  hr_stats : HostStats;
}.

Definition host_new (alias address user : str) : HostRecord :=
  mk_host alias RoleBoth address 22 user None [] [] None PolicyAcceptNew None OsAuto default_stats.

Record InlineJump := mk_inline {
  ij_alias : str;
  ij_host : str;
  ij_port : Z;
  ij_user : str;
  ij_identity_file : option (list Z);
  ij_host_key_policy : StoredHostKeyPolicy;
}.

Inductive JumpHop :=
| HopHost (alias : str)
| HopOpenSshAlias (alias : str)
| HopInline (jump : InlineJump).

Definition display_name (h : JumpHop) : str :=
  match h with HopHost value | HopOpenSshAlias value => value | HopInline value => ij_alias value end.

Record JumpChain := mk_chain { jc_name : str; jc_hops : list JumpHop }.

Record HostDatabase := mk_db {
  db_folders : list str;
  db_jump_folders : list str;
  db_version : Z;
  db_hosts : gmap str HostRecord;
  db_chains : gmap str JumpChain;
}.

Definition default_db : HostDatabase := mk_db [] [] DATABASE_VERSION ∅ ∅.

#[export] Instance stats_eq_dec : EqDecision HostStats.
Proof. solve_decision. Defined.
#[export] Instance host_eq_dec : EqDecision HostRecord.
Proof. solve_decision. Defined.
#[export] Instance inline_eq_dec : EqDecision InlineJump.
Proof. solve_decision. Defined.
#[export] Instance hop_eq_dec : EqDecision JumpHop.
Proof. solve_decision. Defined.
#[export] Instance chain_eq_dec : EqDecision JumpChain.
Proof. solve_decision. Defined.
#[export] Instance db_eq_dec : EqDecision HostDatabase.
Proof. solve_decision. Defined.

(** The database with other hosts, or other chains. *)
Definition set_hosts (db : HostDatabase) (hosts : gmap str HostRecord) : HostDatabase :=
  mk_db (db_folders db) (db_jump_folders db) (db_version db) hosts (db_chains db).
Definition set_chains (db : HostDatabase) (chains : gmap str JumpChain) : HostDatabase :=
  mk_db (db_folders db) (db_jump_folders db) (db_version db) (db_hosts db) chains.

(** ** Paths

    [PathBuf::from(String)], and [to_string_lossy]: the text of a UTF-8 path;
    otherwise every ill-formed subsequence becomes U+FFFD. *)
Definition path_of (s : str) : list Z := utf8 s.

Fixpoint lossy (bs : list Z) : str :=
  match bs with
  | [] => []
  | b0 :: r0 =>
      if b0 <? 128 then b0 :: lossy r0
      else if (194 <=? b0) && (b0 <? 224) then
        match r0 with
        | b1 :: r1 => if is_continuation b1 then ((b0 - 192) * 64 + (b1 - 128)) :: lossy r1
                      else 65533 :: lossy r0
        | [] => [65533]
        end
      else if (224 <=? b0) && (b0 <? 240) then
        match r0 with
        | b1 :: r1 =>
            if is_continuation b1 && ((negb (b0 =? 224)) || (160 <=? b1))
               && ((negb (b0 =? 237)) || (b1 <? 160)) then
              match r1 with
              | b2 :: r2 =>
                  if is_continuation b2
                  then ((b0 - 224) * 4096 + (b1 - 128) * 64 + (b2 - 128)) :: lossy r2
                  else 65533 :: lossy r1
              | [] => [65533]
              end
            else 65533 :: lossy r0
        | [] => [65533]
        end
      else if (240 <=? b0) && (b0 <? 245) then
        match r0 with
        | b1 :: r1 =>
            if is_continuation b1 && ((negb (b0 =? 240)) || (144 <=? b1))
               && ((negb (b0 =? 244)) || (b1 <? 144)) then
              match r1 with
              | b2 :: r2 =>
                  if is_continuation b2 then
                    match r2 with
                    | b3 :: r3 =>
                        if is_continuation b3
                        then ((b0 - 240) * 262144 + (b1 - 128) * 4096 + (b2 - 128) * 64
                              + (b3 - 128)) :: lossy r3
                        else 65533 :: lossy r2
                    | [] => [65533]
                    end
                  else 65533 :: lossy r1
              | [] => [65533]
              end
            else 65533 :: lossy r0
        | [] => [65533]
        end
      else 65533 :: lossy r0
  end.

Definition to_string_lossy (path : list Z) : str :=
  match from_utf8 path with Some s => s | None => lossy path end.

(** ** Validators

    The [field]/[kind] argument of a validator only names the field in the
    error message, and is left out. *)
Definition validate_name (value : str) : result unit :=
  if bool_decide (value = []) || (128 <? str_len value) then Err "must contain 1..=128 bytes"
  else if negb (forallb (λ b, is_ascii_alphanumeric b || (b =? ch ".") || (b =? ch "_")
                               || (b =? ch "-") || (b =? ch ":")) (utf8 value))
  then Err "contains unsupported characters"
  else Ok tt.

Definition validate_endpoint_token (value : str) : result unit :=
  if bool_decide (value = []) || (512 <? str_len value) then Err "must contain 1..=512 bytes"
  else if existsb is_control value || contains_char value 0
  then Err "must not contain control characters or NUL"
  else Ok tt.

Definition validate_optional_path (path : option (list Z)) : result unit :=
  match path with
  | None => Ok tt
  | Some path =>
      let value := to_string_lossy path in
      bail_if (bool_decide (value = []) || (4096 <? str_len value) || existsb is_control value)
        "is empty, too long, or contains control characters"
  end.

Definition validate_text (value : str) : result unit :=
  if MAX_TEXT_BYTES <? str_len value then Err "exceeds MAX_TEXT_BYTES"
  else bail_if (contains_char value 0) "must not contain NUL".

Section Validate.
Context {unicode : UnicodeTables}.

Definition label_char (c : char) : bool :=
  is_alphanumeric c || (c =? ch " ") || (c =? ch ".") || (c =? ch "_") || (c =? ch "-")
  || (c =? ch ":") || (c =? ch "(") || (c =? ch ")") || (c =? 65288) || (c =? 65289).

Definition validate_label (value : str) : result unit :=
  if bool_decide (value = []) || (128 <? zlen value) || negb (bool_decide (trim value = value))
  then Err "label must have 1-128 characters and no surrounding space"
  else if negb (forallb label_char value) then Err "label has unsupported characters"
  else Ok tt.

Definition validate_labels (values : list str) : result unit :=
  if MAX_LABELS_PER_HOST <? zlen values then Err "too many labels"
  else for_each_unique validate_label id "duplicate label" ∅ values.

Definition host_validate (h : HostRecord) : result unit :=
  validate_label (hr_alias h) ≫= λ _,
  validate_endpoint_token (hr_address h) ≫= λ _,
  bail_if (hr_port h =? 0) "host uses invalid port 0" ≫= λ _,
  validate_endpoint_token (hr_user h) ≫= λ _,
  validate_optional_path (hr_identity_file h) ≫= λ _,
  validate_labels (hr_groups h) ≫= λ _,
  validate_labels (hr_tags h) ≫= λ _,
  match hr_note h with Some note => validate_text note | None => Ok tt end ≫= λ _,
  match hr_jump_chain h with Some chain => validate_label chain | None => Ok tt end.

Definition inline_validate (j : InlineJump) : result unit :=
  validate_label (ij_alias j) ≫= λ _,
  validate_endpoint_token (ij_host j) ≫= λ _,
  bail_if (ij_port j =? 0) "inline jump uses invalid port 0" ≫= λ _,
  validate_endpoint_token (ij_user j) ≫= λ _,
  validate_optional_path (ij_identity_file j).

Definition hop_validate (h : JumpHop) : result unit :=
  match h with
  | HopHost alias => validate_label alias
  | HopOpenSshAlias alias => validate_name alias
  | HopInline jump => inline_validate jump
  end.

Definition chain_validate (c : JumpChain) : result unit :=
  validate_label (jc_name c) ≫= λ _,
  bail_if (bool_decide (jc_hops c = [])) "jump chain must contain at least one hop" ≫= λ _,
  bail_if (MAX_CHAIN_HOPS <? zlen (jc_hops c)) "jump chain contains too many hops" ≫= λ _,
  for_each_unique hop_validate display_name "jump chain repeats hop" ∅ (jc_hops c).

Definition hop_reference_validate (hosts : gmap str HostRecord) (hop : JumpHop) : result unit :=
  match hop with
  | HopHost alias =>
      match hosts !! alias with
      | None => Err "jump chain references missing host"
      | Some h => bail_if (bool_decide (hr_role h = RoleTarget))
                    "target-only host cannot join a jump chain"
      end
  | _ => Ok tt
  end.

(** [matches!(hop, Host/OpenSshAlias/Inline named alias)] *)
Definition hop_is (alias : str) (hop : JumpHop) : bool :=
  match hop with
  | HopHost a => bool_decide (a = alias)
  | HopOpenSshAlias a => bool_decide (a = alias)
  | HopInline jump => bool_decide (ij_alias jump = alias)
  end.

Definition db_validate (db : HostDatabase) : result unit :=
  bail_if (MAX_HOSTS <? zlen (db_folders db)) "too many host folders" ≫= λ _,
  for_each_unique validate_label id "duplicate folder or folder role conflict" ∅
    (db_folders db ++ db_jump_folders db) ≫= λ _,
  bail_if (negb (db_version db =? DATABASE_VERSION)) "unsupported host database version" ≫= λ _,
  bail_if (MAX_HOSTS <? Z.of_nat (size (db_hosts db))) "host database contains too many hosts" ≫= λ _,
  bail_if (MAX_CHAINS <? Z.of_nat (size (db_chains db))) "host database contains too many chains" ≫= λ _,
  for_each (λ '(alias, host),
    bail_if (negb (bool_decide (alias = hr_alias host))) "host map key does not match" ≫= λ _,
    host_validate host ≫= λ _,
    match hr_jump_chain host with
    | Some chain => bail_if (bool_decide (db_chains db !! chain = None))
                      "host references missing jump chain"
    | None => Ok tt
    end) (btree_entries (db_hosts db)) ≫= λ _,
  for_each (λ '(name, chain),
    bail_if (negb (bool_decide (name = jc_name chain))) "chain map key does not match" ≫= λ _,
    chain_validate chain ≫= λ _,
    for_each (hop_reference_validate (db_hosts db)) (jc_hops chain))
    (btree_entries (db_chains db)) ≫= λ _,
  for_each (λ host,
    match hr_jump_chain host with
    | None => Ok tt
    | Some chain_name =>
        (* [&self.chains[chain_name]] panics on a missing key *)
        chain ← with_context (db_chains db !! chain_name) "panic: missing chain";
        bail_if (existsb (hop_is (hr_alias host)) (jc_hops chain)) "routing loop"
    end) (btree_values (db_hosts db)).

(** ** What a valid database is *)
Definition valid_name (s : str) : Prop :=
  s ≠ [] ∧ str_len s ≤ 128 ∧
  Forall (λ b, is_ascii_alphanumeric b || (b =? ch ".") || (b =? ch "_") || (b =? ch "-")
               || (b =? ch ":") = true) (utf8 s).
Definition valid_label (s : str) : Prop :=
  s ≠ [] ∧ zlen s ≤ 128 ∧ trim s = s ∧ Forall (λ c, label_char c = true) s.
Definition valid_endpoint (s : str) : Prop :=
  s ≠ [] ∧ str_len s ≤ 512 ∧ Forall (λ c, is_control c = false) s.
Definition valid_path (path : option (list Z)) : Prop :=
  ∀ p, path = Some p →
    to_string_lossy p ≠ [] ∧ str_len (to_string_lossy p) ≤ 4096 ∧
    Forall (λ c, is_control c = false) (to_string_lossy p).
Definition valid_labels (l : list str) : Prop :=
  zlen l ≤ MAX_LABELS_PER_HOST ∧ Forall valid_label l ∧ NoDup l.
Definition valid_note (note : option str) : Prop :=
  ∀ s, note = Some s → str_len s ≤ MAX_TEXT_BYTES ∧ 0 ∉ s.

Record wf_host (h : HostRecord) : Prop := {
  wf_host_alias : valid_label (hr_alias h);
  wf_host_address : valid_endpoint (hr_address h);
  wf_host_port : hr_port h ≠ 0;
  wf_host_user : valid_endpoint (hr_user h);
  wf_host_path : valid_path (hr_identity_file h);
  wf_host_groups : valid_labels (hr_groups h);
  wf_host_tags : valid_labels (hr_tags h);
  wf_host_note : valid_note (hr_note h);
  wf_host_chain : ∀ c, hr_jump_chain h = Some c → valid_label c;
}.

Record wf_inline (j : InlineJump) : Prop := {
  wf_inline_alias : valid_label (ij_alias j);
  wf_inline_host : valid_endpoint (ij_host j);
  wf_inline_port : ij_port j ≠ 0;
  wf_inline_user : valid_endpoint (ij_user j);
  wf_inline_path : valid_path (ij_identity_file j);
}.

Definition wf_hop (h : JumpHop) : Prop :=
  match h with
  | HopHost alias => valid_label alias
  | HopOpenSshAlias alias => valid_name alias
  | HopInline jump => wf_inline jump
  end.

Record wf_chain (c : JumpChain) : Prop := {
  wf_chain_name : valid_label (jc_name c);
  wf_chain_nonempty : jc_hops c ≠ [];
  wf_chain_hops_max : zlen (jc_hops c) ≤ MAX_CHAIN_HOPS;
  wf_chain_hops : Forall wf_hop (jc_hops c);
  wf_chain_nodup : NoDup (display_name <$> jc_hops c);
}.

(** The hop names a host of the library that may serve as a jump node. *)
Definition hop_resolves (hosts : gmap str HostRecord) (hop : JumpHop) : Prop :=
  ∀ alias, hop = HopHost alias → ∃ h, hosts !! alias = Some h ∧ hr_role h ≠ RoleTarget.

Record wf_database (db : HostDatabase) : Prop := {
  wf_folders_max : zlen (db_folders db) ≤ MAX_HOSTS;
  wf_folders : Forall valid_label (db_folders db ++ db_jump_folders db);
  wf_folders_nodup : NoDup (db_folders db ++ db_jump_folders db);
  wf_version : db_version db = DATABASE_VERSION;
  wf_hosts_max : Z.of_nat (size (db_hosts db)) ≤ MAX_HOSTS;
  wf_chains_max : Z.of_nat (size (db_chains db)) ≤ MAX_CHAINS;
  wf_hosts : ∀ a h, db_hosts db !! a = Some h → a = hr_alias h ∧ wf_host h;
  wf_chains : ∀ n c, db_chains db !! n = Some c → n = jc_name c ∧ wf_chain c;
  (* referential integrity, both ways *)
  wf_host_chain_ref : ∀ a h n, db_hosts db !! a = Some h → hr_jump_chain h = Some n →
                        is_Some (db_chains db !! n);
  wf_hop_ref : ∀ n c, db_chains db !! n = Some c → Forall (hop_resolves (db_hosts db)) (jc_hops c);
  (* no host is routed through itself *)
  wf_no_loop : ∀ a h n c, db_hosts db !! a = Some h → hr_jump_chain h = Some n →
                 db_chains db !! n = Some c →
                 Forall (λ hop, hop_is (hr_alias h) hop = false) (jc_hops c);
}.

(** ** The validators decide it *)
Lemma existsb_Forall {A} (p : A → bool) l : existsb p l = false ↔ Forall (λ x, p x = false) l.
Proof.
  induction l as [|x l IH]; cbn [existsb]; [by rewrite Forall_nil|].
  by rewrite orb_false_iff, Forall_cons, IH.
Qed.

Lemma contains_char_false s c : contains_char s c = false ↔ c ∉ s.
Proof.
  unfold contains_char. rewrite existsb_Forall, Forall_forall. split.
  - intros H Hc. specialize (H c Hc). by rewrite Z.eqb_refl in H.
  - intros H x Hx. apply Z.eqb_neq. by intros <-.
Qed.

Lemma validate_name_ok s : validate_name s = Ok tt ↔ valid_name s.
Proof.
  unfold validate_name, valid_name. rewrite <- forallb_Forall.
  case_bool_decide; cbn [orb]; [naive_solver|].
  destruct (Z.ltb_spec 128 (str_len s)); cbn [orb]; [split; [done|naive_solver lia]|].
  destruct (forallb _ _); cbn [negb]; naive_solver.
Qed.

Lemma validate_label_ok s : validate_label s = Ok tt ↔ valid_label s.
Proof.
  unfold validate_label, valid_label. rewrite <- forallb_Forall.
  case_bool_decide; cbn [orb]; [naive_solver|].
  destruct (Z.ltb_spec 128 (zlen s)); cbn [orb]; [split; [done|naive_solver lia]|].
  case_bool_decide; cbn [negb]; [|naive_solver].
  destruct (forallb _ _); cbn [negb]; naive_solver.
Qed.

Lemma validate_endpoint_ok s : validate_endpoint_token s = Ok tt ↔ valid_endpoint s.
Proof.
  unfold validate_endpoint_token, valid_endpoint. rewrite <- existsb_Forall.
  case_bool_decide; cbn [orb]; [naive_solver|].
  destruct (Z.ltb_spec 512 (str_len s)); cbn [orb]; [split; [done|naive_solver lia]|].
  destruct (existsb _ _) eqn:E; cbn [orb]; [naive_solver|].
  assert (contains_char s 0 = false) as ->; [|naive_solver].
  apply contains_char_false. intros Hin. apply existsb_Forall in E.
  by eapply Forall_forall in E; [|done].
Qed.

Lemma validate_optional_path_ok p : validate_optional_path p = Ok tt ↔ valid_path p.
Proof.
  unfold validate_optional_path, valid_path. destruct p as [p|]; [|naive_solver].
  rewrite bail_if_ok, !orb_false_iff, bool_decide_eq_false, Z.ltb_ge, existsb_Forall.
  split; [intros [[? ?] ?] p' [= <-]; done|]. intros Hp. destruct (Hp p eq_refl) as (? & ? & ?).
  done.
Qed.

Lemma validate_text_ok s : validate_text s = Ok tt ↔ str_len s ≤ MAX_TEXT_BYTES ∧ 0 ∉ s.
Proof.
  unfold validate_text. destruct (Z.ltb_spec MAX_TEXT_BYTES (str_len s)).
  - split; [done|lia].
  - rewrite bail_if_ok, contains_char_false. naive_solver.
Qed.

Lemma validate_labels_ok l : validate_labels l = Ok tt ↔ valid_labels l.
Proof.
  unfold validate_labels, valid_labels.
  destruct (Z.ltb_spec MAX_LABELS_PER_HOST (zlen l)); [split; [done|lia]|].
  rewrite for_each_unique_ok, list_fmap_id. setoid_rewrite validate_label_ok. split.
  - by intros (? & ? & _).
  - intros (? & ? & ?). split_and!; [done..|]. intros x _. apply not_elem_of_empty.
Qed.

Lemma host_validate_ok h : host_validate h = Ok tt ↔ wf_host h.
Proof.
  unfold host_validate. rewrite !then_ok, !match_ok, validate_label_ok, !validate_endpoint_ok,
    validate_optional_path_ok, !validate_labels_ok, bail_if_ok, Z.eqb_neq.
  setoid_rewrite validate_text_ok. setoid_rewrite validate_label_ok.
  split; [intros (?&?&?&?&?&?&?&?&?); by split|intros []; split_and!; done].
Qed.

Lemma inline_validate_ok j : inline_validate j = Ok tt ↔ wf_inline j.
Proof.
  unfold inline_validate. rewrite !then_ok, validate_label_ok, !validate_endpoint_ok,
    validate_optional_path_ok, bail_if_ok, Z.eqb_neq.
  split; [intros (?&?&?&?&?); by split|intros []; split_and!; done].
Qed.

Lemma hop_validate_ok h : hop_validate h = Ok tt ↔ wf_hop h.
Proof.
  destruct h; cbn; [apply validate_label_ok|apply validate_name_ok|apply inline_validate_ok].
Qed.

Lemma chain_validate_ok c : chain_validate c = Ok tt ↔ wf_chain c.
Proof.
  unfold chain_validate. rewrite !then_ok, validate_label_ok, !bail_if_ok, bool_decide_eq_false,
    Z.ltb_ge, for_each_unique_ok. setoid_rewrite hop_validate_ok.
  split; [intros (?&?&?&?&?&?); by split|].
  intros []. by split_and!.
Qed.

Lemma hop_reference_ok hosts hop : hop_reference_validate hosts hop = Ok tt ↔ hop_resolves hosts hop.
Proof.
  unfold hop_resolves. destruct hop as [a|a|j]; cbn; [|naive_solver..].
  destruct (hosts !! a) as [h|] eqn:E.
  - rewrite bail_if_ok, bool_decide_eq_false. split; [intros ? ? [= <-]; eauto|].
    intros H. destruct (H a eq_refl) as (h' & ? & ?). congruence.
  - split; [done|]. intros H. destruct (H a eq_refl) as (h' & ? & ?). congruence.
Qed.

Lemma db_validate_ok db : db_validate db = Ok tt ↔ wf_database db.
Proof.
  unfold db_validate. rewrite !then_ok, !bail_if_ok, !for_each_ok, for_each_unique_ok, list_fmap_id.
  rewrite !Forall_btree_entries, Forall_btree_values.
  setoid_rewrite validate_label_ok. setoid_rewrite then_ok. setoid_rewrite then_ok.
  setoid_rewrite bail_if_ok. setoid_rewrite negb_false_iff. setoid_rewrite bool_decide_eq_true.
  setoid_rewrite host_validate_ok. setoid_rewrite chain_validate_ok. setoid_rewrite match_ok.
  setoid_rewrite for_each_ok. setoid_rewrite hop_reference_ok.
  rewrite !Z.ltb_ge, Z.eqb_eq.
  split.
  - intros Hall. destruct Hall as (?&(?&?&?)&?&?&?&Hh&Hc&Hl). split; try done.
    + intros a h Ha. by destruct (Hh a h Ha) as (? & ? & _).
    + intros n c Hn. by destruct (Hc n c Hn) as (? & ? & _).
    + intros a h n Ha Hn. destruct (Hh a h Ha) as (_ & _ & Hr). specialize (Hr n Hn).
      apply not_eq_None_Some. by apply bail_if_ok, bool_decide_eq_false in Hr.
    + intros n c Hn. by destruct (Hc n c Hn) as (_ & _ & ?).
    + intros a h n c Ha Hn Hcn. specialize (Hl a h Ha n Hn). rewrite Hcn in Hl. cbn in Hl.
      by apply bail_if_ok, existsb_Forall in Hl.
  - intros []. split_and!; try done.
    + intros a h Ha. destruct (wf_hosts0 a h Ha). split_and!; [done..|].
      intros n Hn. apply bail_if_ok, bool_decide_eq_false, not_eq_None_Some. eauto.
    + intros n c Hn. destruct (wf_chains0 n c Hn). eauto.
    + intros a h Ha n Hn. destruct (wf_host_chain_ref0 a h n Ha Hn) as [c Hc]. rewrite Hc. cbn.
      apply bail_if_ok, existsb_Forall. eauto.
Qed.

(** ** The indexing [self.chains[name]] cannot panic *)
Definition no_panic (m : result unit) : Prop := m ≠ Err "panic: missing chain".

Lemma no_panic_ok : no_panic (Ok tt).
Proof. done. Qed.
Lemma no_panic_bail b e : e ≠ "panic: missing chain"%string → no_panic (bail_if b e).
Proof. unfold no_panic. destruct b; cbn; congruence. Qed.
Lemma no_panic_then m k : no_panic m → (m = Ok tt → no_panic k) → no_panic (m ≫= λ _, k).
Proof. unfold no_panic. destruct m as [[]|e]; cbn; [auto|congruence]. Qed.
Lemma no_panic_for_each {A} (f : A → result unit) l :
  (∀ x, x ∈ l → no_panic (f x)) → no_panic (for_each f l).
Proof.
  induction l as [|x l IH]; intros H; cbn; [done|].
  apply no_panic_then; [apply H; left|]. intros _. apply IH. intros y Hy. apply H. by right.
Qed.
Lemma no_panic_unique {A K} `{Countable K} (f : A → result unit) (key : A → K) e seen l :
  (∀ x, no_panic (f x)) → e ≠ "panic: missing chain"%string →
  no_panic (for_each_unique f key e seen l).
Proof.
  intros Hf He. revert seen. induction l as [|x l IH]; intros seen; cbn; [done|].
  apply no_panic_then; [done|]. intros _. apply no_panic_then; [by apply no_panic_bail|]. auto.
Qed.

(** Decide [no_panic] of a validator without loops. *)
Ltac no_panic_cases :=
  unfold no_panic; repeat case_match; try done; unfold bail_if; repeat case_match; done.

Lemma no_panic_label s : no_panic (validate_label s).
Proof. unfold validate_label. no_panic_cases. Qed.
Lemma no_panic_name s : no_panic (validate_name s).
Proof. unfold validate_name. no_panic_cases. Qed.
Lemma no_panic_endpoint s : no_panic (validate_endpoint_token s).
Proof. unfold validate_endpoint_token. no_panic_cases. Qed.
Lemma no_panic_path p : no_panic (validate_optional_path p).
Proof. unfold validate_optional_path. no_panic_cases. Qed.
Lemma no_panic_text s : no_panic (validate_text s).
Proof. unfold validate_text. no_panic_cases. Qed.
Lemma no_panic_labels l : no_panic (validate_labels l).
Proof.
  unfold validate_labels. case_match; [done|]. apply no_panic_unique; [apply no_panic_label|done].
Qed.

Create HintDb no_panic.
#[local] Hint Resolve no_panic_ok no_panic_label no_panic_name no_panic_endpoint no_panic_path
  no_panic_text no_panic_labels : no_panic.
#[local] Hint Extern 1 (no_panic (bail_if _ _)) => apply no_panic_bail; discriminate : no_panic.
#[local] Hint Extern 2 (no_panic (_ ≫= λ _, _)) => apply no_panic_then; [|intros _] : no_panic.
#[local] Hint Extern 3 (no_panic (match ?o with Some _ => _ | None => _ end)) => destruct o : no_panic.

Lemma no_panic_host h : no_panic (host_validate h).
Proof. unfold host_validate. auto 20 with no_panic. Qed.
Lemma no_panic_hop h : no_panic (hop_validate h).
Proof. destruct h; cbn; unfold inline_validate; auto 20 with no_panic. Qed.
Lemma no_panic_chain c : no_panic (chain_validate c).
Proof.
  unfold chain_validate. repeat (apply no_panic_then; [auto with no_panic|intros _]).
  apply no_panic_unique; [apply no_panic_hop|done].
Qed.
Lemma no_panic_reference hosts hop : no_panic (hop_reference_validate hosts hop).
Proof. destruct hop; cbn; auto with no_panic. case_match; [auto with no_panic|done]. Qed.

Lemma db_validate_no_panic db : no_panic (db_validate db).
Proof.
  unfold db_validate.
  apply no_panic_then; [auto with no_panic|intros _].
  apply no_panic_then; [apply no_panic_unique; [apply no_panic_label|done]|intros _].
  do 3 (apply no_panic_then; [auto with no_panic|intros _]).
  apply no_panic_then.
  { apply no_panic_for_each. intros [a h] _. auto 20 using no_panic_host with no_panic. }
  intros Href%for_each_ok. rewrite Forall_btree_entries in Href.
  apply no_panic_then.
  { apply no_panic_for_each. intros [n c] _.
    apply no_panic_then; [auto with no_panic|intros _].
    apply no_panic_then; [apply no_panic_chain|intros _].
    apply no_panic_for_each. intros hop _. apply no_panic_reference. }
  intros _. apply no_panic_for_each. intros h [a Ha]%elem_of_btree_values.
  case_match eqn:Hn; [|done].
  destruct (proj1 (then_ok _ _) (Href a h Ha)) as [_ [_ Hr]%then_ok].
  rewrite Hn in Hr. apply bail_if_ok, bool_decide_eq_false, not_eq_None_Some in Hr as [c Hc].
  rewrite Hc. cbn. auto with no_panic.
Qed.

(** C8: [HostDatabase::validate] accepts exactly the well-formed databases:
    valid labels, unique folders, keys that are the stored names, limits
    respected, every reference between hosts and chains resolved (a chain hop
    never names a target-only host) and no host routed through itself.  Its map
    indexing never panics. *)
Theorem db_validate_exact db :
  (db_validate db = Ok tt ↔ wf_database db) ∧ db_validate db ≠ Err "panic: missing chain".
Proof. split; [apply db_validate_ok|apply db_validate_no_panic]. Qed.

End Validate.
