(* ===== verification/HostCodec.v ===== *)
(** * The host library's file format ([crates/kaduox-ssh-hosts/src/codec.rs])

    The writer, and the parser of the TOML subset it writes: comment stripping,
    table headers, assignments, strings with escapes, arrays of strings and
    integers; then the decoding of the tables into a [HostDatabase].  The
    theorem at the end says when a saved library can be read back. *)

From stdpp Require Import base list gmap strings numbers sorting.
From Stdlib Require Import Lia.
From S2P Require Import Prelude RustStr HostModel.

Inductive Value :=
| ValString (value : str)
| ValInteger (value : Z)
| ValStrings (values : list str).

Inductive TableKind := TableHost | TableChain | TableHop.
#[export] Instance table_kind_eq_dec : EqDecision TableKind.
Proof. solve_decision. Defined.

(** The [line] field of the source only serves error messages. *)
Record Table := mk_table { table_kind : TableKind; table_values : gmap str Value }.

(** ** Writing *)
Definition backslash : char := 92.

Definition escape_char (c : char) : str :=
  if c =? dquote then [backslash; dquote]
  else if c =? backslash then [backslash; backslash]
  else if c =? LF then [backslash; ch "n"]
  else if c =? CR then [backslash; ch "r"]
  else if c =? TAB then [backslash; ch "t"]
  else [c].
Definition escape (value : str) : str := concat (escape_char <$> value).

Definition write_string (key value : str) : str :=
  key ++ lit " = " ++ [dquote] ++ escape value ++ [dquote; LF].

Fixpoint write_items (first : bool) (values : list str) : str :=
  match values with
  | [] => []
  | value :: values =>
      (if first then [] else lit ", ") ++ [dquote] ++ escape value ++ [dquote]
      ++ write_items false values
  end.
Definition write_strings (key : str) (values : list str) : str :=
  key ++ lit " = [" ++ write_items true values ++ [ch "]"; LF].

(** [output.push_str(&format!("key = {n}\n"))] *)
Definition write_integer (key : str) (n : Z) : str := key ++ lit " = " ++ dec_of n ++ [LF].

Definition if_some {A} (o : option A) (f : A → str) : str :=
  match o with Some a => f a | None => [] end.

Definition encode_host (host : HostRecord) : str :=
  [LF] ++ lit "[[host]]" ++ [LF] ++
  write_string (lit "alias") (hr_alias host) ++
  (if bool_decide (hr_role host = RoleBoth) then []
   else write_string (lit "role") (role_as_str (hr_role host))) ++
  write_string (lit "address") (hr_address host) ++
  write_integer (lit "port") (hr_port host) ++
  write_string (lit "user") (hr_user host) ++
  if_some (hr_identity_file host) (λ path,
    write_string (lit "identity_file") (to_string_lossy path)) ++
  write_strings (lit "groups") (hr_groups host) ++
  write_strings (lit "tags") (hr_tags host) ++
  if_some (hr_note host) (λ note, write_string (lit "note") note) ++
  write_string (lit "host_key_policy") (policy_as_str (hr_host_key_policy host)) ++
  (if bool_decide (hr_os_type host = OsAuto) then []
   else write_string (lit "os_type") (os_as_str (hr_os_type host))) ++
  if_some (hr_jump_chain host) (λ chain, write_string (lit "jump_chain") chain) ++
  if_some (last_connected_unix (hr_stats host)) (λ t,
    write_integer (lit "last_connected_unix") t) ++
  write_integer (lit "connection_count") (connection_count (hr_stats host)) ++
  if_some (last_auth_method (hr_stats host)) (λ m,
    write_string (lit "last_auth_method") (method_as_str m)).

Definition encode_hop (chain : str) (index : Z) (hop : JumpHop) : str :=
  [LF] ++ lit "[[hop]]" ++ [LF] ++
  write_string (lit "chain") chain ++
  write_integer (lit "index") index ++
  match hop with
  | HopHost alias => write_string (lit "kind") (lit "host") ++ write_string (lit "name") alias
  | HopOpenSshAlias alias =>
      write_string (lit "kind") (lit "openssh") ++ write_string (lit "name") alias
  | HopInline jump =>
      write_string (lit "kind") (lit "inline") ++
      write_string (lit "alias") (ij_alias jump) ++
      write_string (lit "host") (ij_host jump) ++
      write_integer (lit "port") (ij_port jump) ++
      write_string (lit "user") (ij_user jump) ++
      if_some (ij_identity_file jump) (λ path,
        write_string (lit "identity_file") (to_string_lossy path)) ++
      write_string (lit "host_key_policy") (policy_as_str (ij_host_key_policy jump))
  end.

Definition encode_chain (chain : JumpChain) : str :=
  [LF] ++ lit "[[chain]]" ++ [LF] ++
  write_string (lit "name") (jc_name chain) ++
  concat (imap (λ index hop, encode_hop (jc_name chain) (Z.of_nat index) hop) (jc_hops chain)).

(** ** Scanning outside of strings

    Three loops of the parser walk over a line with the flags [in_string] and
    [escaped].  [scan] is the loop that stops at the first [target] outside of a
    string: it returns the text before and after it, or the final flags. *)
Inductive scan_outcome :=
| Found (before after : str)
| NotFound (in_string escaped : bool).

Definition scan_cons (c : char) (o : scan_outcome) : scan_outcome :=
  match o with Found before after => Found (c :: before) after | o => o end.

Fixpoint scan (target : char) (in_string escaped : bool) (s : str) : scan_outcome :=
  match s with
  | [] => NotFound in_string escaped
  | c :: s =>
      if in_string then
        if escaped then scan_cons c (scan target true false s)
        else if c =? backslash then scan_cons c (scan target true true s)
        else if c =? dquote then scan_cons c (scan target false escaped s)
        else scan_cons c (scan target true escaped s)
      else if c =? dquote then scan_cons c (scan target true escaped s)
      else if c =? target then Found [] s
      else scan_cons c (scan target false escaped s)
  end.

Definition strip_comment (line : str) : result str :=
  match scan (ch "#") false false line with
  | Found before _ => Ok before
  | NotFound in_string escaped =>
      bail_if (in_string || escaped) "unterminated TOML string" ≫= λ _, Ok line
  end.

(** ** Values *)

(** The loop of [parse_string] over the characters between the quotes. *)
Fixpoint unescape (s : str) : result str :=
  match s with
  | [] => Ok []
  | c :: s =>
      if negb (c =? backslash) then
        if is_control c then Err "literal control character is not allowed in TOML string"
        else cons c <$> unescape s
      else match s with
      | [] => Err "trailing TOML string escape"
      | e :: s =>
          if e =? dquote then cons dquote <$> unescape s
          else if e =? backslash then cons backslash <$> unescape s
          else if e =? ch "n" then cons LF <$> unescape s
          else if e =? ch "r" then cons CR <$> unescape s
          else if e =? ch "t" then cons TAB <$> unescape s
          else Err "unsupported TOML escape"
      end
  end.

Definition parse_string (value : str) : result str :=
  bail_if ((str_len value <? 2) || negb (ends_with value [dquote])) "unterminated TOML string" ≫= λ _,
  bail_if (negb (bool_decide (head value = Some dquote))) "expected TOML basic string" ≫= λ _,
  inner ← with_context (slice value 1 (str_len value - 1)) "panic: slice";
  unescape inner.

(** The loop of [parse_string_array]: [cur] holds [inner[start..index]],
    reversed. *)
Fixpoint array_items (cur : str) (in_string escaped : bool) (s : str) : result (list str) :=
  match s with
  | [] =>
      bail_if (in_string || escaped) "unterminated string in TOML array" ≫= λ _,
      v ← parse_string (trim (reverse cur)); Ok [v]
  | c :: s =>
      if in_string then
        if escaped then array_items (c :: cur) true false s
        else if c =? backslash then array_items (c :: cur) true true s
        else if c =? dquote then array_items (c :: cur) false escaped s
        else array_items (c :: cur) true escaped s
      else if c =? dquote then array_items (c :: cur) true escaped s
      else if c =? ch "," then
        v ← parse_string (trim (reverse cur));
        vs ← array_items [] false escaped s;
        Ok (v :: vs)
      else array_items (c :: cur) false escaped s
  end.

Definition parse_string_array (value : str) : result (list str) :=
  bail_if (negb (ends_with value [ch "]"])) "unterminated TOML array" ≫= λ _,
  inner ← with_context (slice value 1 (str_len value - 1)) "panic: slice";
  let inner := trim inner in
  if bool_decide (inner = []) then Ok [] else array_items [] false false inner.

Definition parse_value (value : str) : result Value :=
  if starts_with value [dquote] then ValString <$> parse_string value
  else if starts_with value [ch "["] then ValStrings <$> parse_string_array value
  else if forallb is_ascii_digit value
  then ValInteger <$> with_context (parse_uint u64_max value) "integer overflow"
  else Err "unsupported TOML value".

Definition key_char (b : Z) : bool := is_ascii_alphanumeric b || (b =? ch "_").

Definition parse_assignment (line : str) : result (str * Value) :=
  match scan (ch "=") false false line with
  | NotFound _ _ => Err "assignment is missing '='"
  | Found before after =>
      let key := trim before in
      bail_if (bool_decide (key = []) || negb (forallb key_char (utf8 key))) "invalid TOML key" ≫= λ _,
      let value := trim after in
      bail_if (bool_decide (value = [])) "assignment has no value" ≫= λ _,
      v ← parse_value value;
      Ok (key, v)
  end.

Definition parse_header (line : str) : result (option TableKind) :=
  if negb (starts_with line [ch "["]) then Ok None
  else if bool_decide (line = lit "[[host]]") then Ok (Some TableHost)
  else if bool_decide (line = lit "[[chain]]") then Ok (Some TableChain)
  else if bool_decide (line = lit "[[hop]]") then Ok (Some TableHop)
  else Err "unsupported TOML table header".

(** ** The lines of a document *)
Record doc_state := mk_doc {
  doc_root : gmap str Value;
  doc_tables : list Table;
  doc_current : option Table;
}.

Definition flush (st : doc_state) : list Table :=
  match doc_current st with Some t => doc_tables st ++ [t] | None => doc_tables st end.

(** One iteration of the loop over the lines. *)
Definition doc_line (st : doc_state) (raw_line : str) : result doc_state :=
  line ← strip_comment raw_line;
  let line := trim line in
  if bool_decide (line = []) then Ok st else
  header ← parse_header line;
  match header with
  | Some kind => Ok (mk_doc (doc_root st) (flush st) (Some (mk_table kind ∅)))
  | None =>
      '(key, value) ← parse_assignment line;
      match doc_current st with
      | Some t =>
          bail_if (negb (bool_decide (table_values t !! key = None))) "duplicate key" ≫= λ _,
          Ok (mk_doc (doc_root st) (doc_tables st)
                (Some (mk_table (table_kind t) (<[ key := value ]> (table_values t)))))
      | None =>
          bail_if (negb (bool_decide (doc_root st !! key = None))) "duplicate key" ≫= λ _,
          Ok (mk_doc (<[ key := value ]> (doc_root st)) (doc_tables st) None)
      end
  end.

Definition parse_document (input : str) : result (gmap str Value * list Table) :=
  st ← try_fold doc_line (mk_doc ∅ [] None) (lines input);
  Ok (doc_root st, flush st).

(** ** Taking the fields of a table

    [take_*] remove the key they read, so that [reject_unknown] sees what is
    left: a computation on the remaining values. *)
Definition fields (A : Type) : Type := gmap str Value → result (A * gmap str Value).
#[export] Instance fields_ret : MRet fields := λ A a values, Ok (a, values).
#[export] Instance fields_bind : MBind fields := λ A B f m values,
  '(a, values) ← m values; f a values.
#[export] Instance fields_fmap : FMap fields := λ A B f m values,
  '(a, values) ← m values; Ok (f a, values).
Definition lift {A} (r : result A) : fields A := λ values, a ← r; Ok (a, values).

Definition take_string (key : str) : fields (option str) := λ values,
  match values !! key with
  | None => Ok (None, delete key values)
  | Some (ValString value) => Ok (Some value, delete key values)
  | Some _ => Err "key must be a string"
  end.
Definition take_integer (key : str) : fields (option Z) := λ values,
  match values !! key with
  | None => Ok (None, delete key values)
  | Some (ValInteger value) => Ok (Some value, delete key values)
  | Some _ => Err "key must be an unsigned integer"
  end.
Definition take_strings (key : str) : fields (option (list str)) := λ values,
  match values !! key with
  | None => Ok (None, delete key values)
  | Some (ValStrings value) => Ok (Some value, delete key values)
  | Some _ => Err "key must be an array of strings"
  end.
Definition required_string (key : str) : fields str :=
  o ← take_string key; lift (with_context o "table is missing a key").
Definition reject_unknown : fields unit := λ values,
  if bool_decide (values = ∅) then Ok (tt, values) else Err "unknown key".

(** [take_string(key)?.map(parse).transpose()?] *)
Definition take_parsed {A} (parse : str → result A) (key : str) : fields (option A) :=
  o ← take_string key; lift (transpose (parse <$> o)).

(** [take_integer("port")?.unwrap_or(22)], then the [u16] and non-zero checks. *)
Definition take_port : fields Z :=
  o ← take_integer (lit "port");
  let port := default 22 o in
  lift (with_context (p ← try_from u16_max port; if p =? 0 then None else Some p) "invalid port").

(** The fields of a [[[host]]] table. *)
Definition host_fields : fields HostRecord :=
  alias ← required_string (lit "alias");
  role ← take_parsed role_parse (lit "role");
  address ← required_string (lit "address");
  user ← required_string (lit "user");
  port ← take_port;
  identity_file ← take_string (lit "identity_file");
  groups ← take_strings (lit "groups");
  tags ← take_strings (lit "tags");
  note ← take_string (lit "note");
  policy ← take_parsed policy_parse (lit "host_key_policy");
  jump_chain ← take_string (lit "jump_chain");
  os_type ← take_parsed os_parse (lit "os_type");
  last_connected ← take_integer (lit "last_connected_unix");
  count ← take_integer (lit "connection_count");
  method ← take_parsed method_parse (lit "last_auth_method");
  reject_unknown ≫= λ _,
  mret (mk_host alias (default default_role role) address port user (path_of <$> identity_file)
          (default [] groups) (default [] tags) note (default default_policy policy) jump_chain
          (default default_os os_type)
          (mk_stats last_connected (default 0 count) method)).

(** The fields of a [[[hop]]] table: chain, index and hop. *)
Definition hop_fields : fields (str * Z * JumpHop) :=
  chain ← required_string (lit "chain");
  index ← take_integer (lit "index");
  index ← lift (with_context index "hop table is missing index");
  index ← lift (with_context (try_from usize_max index) "hop index does not fit usize");
  kind ← required_string (lit "kind");
  hop ←
    (if bool_decide (kind = lit "host") then HopHost <$> required_string (lit "name")
     else if bool_decide (kind = lit "openssh") then HopOpenSshAlias <$> required_string (lit "name")
     else if bool_decide (kind = lit "inline") then
       alias ← required_string (lit "alias");
       host ← required_string (lit "host");
       user ← required_string (lit "user");
       port ← take_port;
       identity_file ← take_string (lit "identity_file");
       policy ← take_parsed policy_parse (lit "host_key_policy");
       mret (HopInline (mk_inline alias host port user (path_of <$> identity_file)
                          (default default_policy policy)))
     else lift (Err "unknown hop kind"));
  reject_unknown ≫= λ _,
  mret (chain, index, hop).

(** The fields of a [[[chain]]] table. *)
Definition chain_fields : fields str :=
  name ← required_string (lit "name");
  reject_unknown ≫= λ _,
  mret name.

(** ** Decoding a database *)
Record acc_state := mk_acc {
  acc_db : HostDatabase;
  acc_hops : gmap str (list (Z * JumpHop));
  acc_seen : gset str;
}.

(** [hops.sort_by_key(|(index, _)| *index)] *)
Definition index_le (p q : Z * JumpHop) : Prop := p.1 ≤ q.1.
#[export] Instance index_le_dec : RelDecision index_le.
Proof. intros p q. unfold index_le. apply _. Defined.

(** The loop [for (expected, (actual, hop)) in hops.into_iter().enumerate()]. *)
Fixpoint contiguous_hops (expected : Z) (hops : list (Z * JumpHop)) : result (list JumpHop) :=
  match hops with
  | [] => Ok []
  | (actual, hop) :: hops =>
      bail_if (negb (actual =? expected)) "hop indices must be contiguous from 0" ≫= λ _,
      cons hop <$> contiguous_hops (expected + 1) hops
  end.

Definition attach_hops (chains : gmap str JumpChain) (entry : str * list (Z * JumpHop))
    : result (gmap str JumpChain) :=
  let '(chain_name, hops) := entry in
  chain ← with_context (chains !! chain_name) "hop references missing chain";
  hops ← contiguous_hops 0 (merge_sort index_le hops);
  Ok (<[ chain_name := mk_chain (jc_name chain) (jc_hops chain ++ hops) ]> chains).

Section Decode.
Context {unicode : UnicodeTables}.

Definition encode (db : HostDatabase) : result str :=
  db_validate db ≫= λ _,
  Ok (lit "# Kaduox-SSH host library. Secrets are intentionally not stored here." ++ [LF] ++
      write_integer (lit "version") (db_version db) ++
      (if bool_decide (db_folders db = []) then [] else write_strings (lit "folders") (db_folders db)) ++
      (if bool_decide (db_jump_folders db = []) then []
       else write_strings (lit "jump_folders") (db_jump_folders db)) ++
      concat (encode_host <$> btree_values (db_hosts db)) ++
      concat (encode_chain <$> btree_values (db_chains db))).

(** One iteration of the loop over the tables. *)
Definition decode_table (acc : acc_state) (table : Table) : result acc_state :=
  let db := acc_db acc in
  match table_kind table with
  | TableHost =>
      '(record, _) ← host_fields (table_values table);
      host_validate record ≫= λ _,
      bail_if (negb (bool_decide (db_hosts db !! hr_alias record = None))) "duplicate host alias" ≫= λ _,
      Ok (mk_acc (set_hosts db (<[ hr_alias record := record ]> (db_hosts db)))
            (acc_hops acc) (acc_seen acc))
  | TableChain =>
      '(name, _) ← chain_fields (table_values table);
      bail_if (bool_decide (name ∈ acc_seen acc)) "duplicate jump chain" ≫= λ _,
      Ok (mk_acc (set_chains db (<[ name := mk_chain name [] ]> (db_chains db)))
            (acc_hops acc) ({[ name ]} ∪ acc_seen acc))
  | TableHop =>
      '(chain, index, hop, _) ← hop_fields (table_values table);
      hop_validate hop ≫= λ _,
      Ok (mk_acc db (<[ chain := default [] (acc_hops acc !! chain) ++ [(index, hop)] ]> (acc_hops acc))
            (acc_seen acc))
  end.

Definition MAX_INPUT : Z := 4 * 1024 * 1024.

Definition root_fields : fields (list str * list str) :=
  version ← take_integer (lit "version");
  version ← lift (with_context version "host database is missing root version");
  lift (bail_if (negb (version =? DATABASE_VERSION)) "unsupported host database version") ≫= λ _,
  folders ← take_strings (lit "folders");
  jump_folders ← take_strings (lit "jump_folders");
  reject_unknown ≫= λ _,
  mret (default [] folders, default [] jump_folders).

Definition decode (input : str) : result HostDatabase :=
  bail_if (MAX_INPUT <? str_len input) "host database exceeds the 4 MiB parser limit" ≫= λ _,
  '(root, tables) ← parse_document input;
  '(folders, jump_folders, _) ← root_fields root;
  acc ← try_fold decode_table
    (mk_acc (mk_db folders jump_folders DATABASE_VERSION ∅ ∅) ∅ ∅) tables;
  chains ← try_fold attach_hops (db_chains (acc_db acc)) (btree_entries (acc_hops acc));
  let db := set_chains (acc_db acc) chains in
  db_validate db ≫= λ _,
  Ok db.
End Decode.
