(* ===== verification/HostCodecProof.v ===== *)
(** * A saved host library can be read back

    The round trip of [HostCodec]: the writer's text is the rendering of a
    list of items (comment, table header, assignment), the parser gives the
    items back line by line, and the tables decode to the database. *)

From stdpp Require Import base list gmap strings numbers sorting.
From Stdlib Require Import Lia.
From S2P Require Import Prelude RustStr StrFacts HostModel HostCodec.

(** ** Rendering *)
Definition quoted (v : str) : str := dquote :: escape v ++ [dquote].

Definition render_value (v : Value) : str :=
  match v with
  | ValString v => quoted v
  | ValInteger n => dec_of n
  | ValStrings vs => ch "[" :: write_items true vs ++ [ch "]"]
  end.

Definition header_text (kind : TableKind) : str :=
  match kind with
  | TableHost => lit "[[host]]" | TableChain => lit "[[chain]]" | TableHop => lit "[[hop]]"
  end.

Inductive item :=
| ISkip (text : str)
| IHeader (kind : TableKind)
| IAssign (key : str) (value : Value).

Definition render (i : item) : str :=
  match i with
  | ISkip text => text
  | IHeader kind => header_text kind
  | IAssign key value => key ++ lit " = " ++ render_value value
  end.

(** A character the string syntax can carry. *)
Definition plain_char (c : char) : bool :=
  negb (is_control c) || (c =? LF) || (c =? CR) || (c =? TAB).
Definition plain (v : str) : Prop := Forall (λ c, plain_char c = true) v.

Definition good_value (v : Value) : Prop :=
  match v with
  | ValString v => plain v
  | ValInteger n => is_u64 n
  | ValStrings vs => Forall plain vs
  end.

#[export] Instance plain_dec v : Decision (plain v).
Proof. unfold plain. apply _. Defined.

Definition good_key (k : str) : Prop := k ≠ [] ∧ Forall (λ c, key_char c = true) k.

(** ** Escaping *)
Lemma escape_cons c v : escape (c :: v) = escape_char c ++ escape v.
Proof. done. Qed.

(** Case analysis on how a character is escaped. *)
Ltac escape_cases c :=
  unfold escape_char;
  destruct (Z.eqb_spec c dquote) as [->|?];
  [|destruct (Z.eqb_spec c backslash) as [->|?];
  [|destruct (Z.eqb_spec c LF) as [->|?];
  [|destruct (Z.eqb_spec c CR) as [->|?];
  [|destruct (Z.eqb_spec c TAB) as [->|?]]]]].

Lemma unescape_char c s :
  unescape (escape_char c ++ s) =
  if plain_char c then cons c <$> unescape s
  else Err "literal control character is not allowed in TOML string".
Proof.
  escape_cases c; try done. cbn [app unescape].
  destruct (Z.eqb_spec c backslash); [done|]. cbn [negb].
  unfold plain_char. destruct (Z.eqb_spec c LF), (Z.eqb_spec c CR), (Z.eqb_spec c TAB); try done.
  by destruct (is_control c).
Qed.

Lemma unescape_escape v :
  unescape (escape v) =
  if forallb plain_char v then Ok v else Err "literal control character is not allowed in TOML string".
Proof.
  induction v as [|c v IH]; [done|]. rewrite escape_cons, unescape_char, IH. cbn [forallb].
  destruct (plain_char c); [|done]. by destruct (forallb plain_char v).
Qed.

Lemma plain_spec v : plain v ↔ forallb plain_char v = true.
Proof. unfold plain. by rewrite forallb_Forall. Qed.

Lemma last_quoted v : last (quoted v) = Some dquote.
Proof. unfold quoted. change (dquote :: escape v ++ [dquote]) with ((dquote :: escape v) ++ [dquote]).
  apply last_snoc. Qed.

Lemma parse_string_quoted v :
  parse_string (quoted v) =
  if forallb plain_char v then Ok v else Err "literal control character is not allowed in TOML string".
Proof.
  rewrite <- unescape_escape. unfold parse_string.
  assert (2 ≤ str_len (quoted v)) as Hlen.
  { unfold quoted. cbn [str_len]. rewrite str_len_app. pose proof (str_len_nonneg (escape v)).
    cbn [str_len]. rewrite !len_utf8_ascii by done. lia. }
  destruct (Z.ltb_spec (str_len (quoted v)) 2); [lia|].
  assert (ends_with (quoted v) [dquote] = true) as ->.
  { unfold quoted. change (dquote :: escape v ++ [dquote]) with ((dquote :: escape v) ++ [dquote]).
    by rewrite ends_with_snoc. }
  cbn [negb orb bail_if]. step_bind.
  rewrite bool_decide_eq_true_2 by done. cbn [negb bail_if]. step_bind.
  unfold quoted. by rewrite slice_inner.
Qed.

(** ** Scanning a rendered line *)
Definition scan_prefix (p : str) (o : scan_outcome) : scan_outcome :=
  match o with Found before after => Found (p ++ before) after | o => o end.

Lemma scan_prefix_cons c p o : scan_prefix (c :: p) o = scan_cons c (scan_prefix p o).
Proof. by destruct o. Qed.

Lemma scan_prefix_app p q o : scan_prefix (p ++ q) o = scan_prefix p (scan_prefix q o).
Proof. destruct o; [|done]. cbn. by rewrite app_assoc. Qed.

Lemma scan_prefix_nil o : scan_prefix [] o = o.
Proof. by destruct o. Qed.

Lemma scan_escape t v s :
  scan t true false (escape v ++ s) = scan_prefix (escape v) (scan t true false s).
Proof.
  induction v as [|c v IH]; [by rewrite scan_prefix_nil|].
  rewrite escape_cons, <- app_assoc, scan_prefix_app, <- IH.
  escape_cases c; cbn; try (by destruct (scan t true false (escape v ++ s))).
  destruct (Z.eqb_spec c backslash); [done|]. destruct (Z.eqb_spec c dquote); [done|].
  by destruct (scan t true false (escape v ++ s)).
Qed.

Lemma scan_quoted t v s :
  scan t false false (quoted v ++ s) = scan_prefix (quoted v) (scan t false false s).
Proof.
  unfold quoted. cbn [app scan]. rewrite Z.eqb_refl, <- app_assoc, scan_escape.
  rewrite scan_prefix_cons, scan_prefix_app. cbn. by destruct (scan t false false s).
Qed.

(** A character that does not stop the scan. *)
Definition passive (t c : char) : bool := negb (c =? dquote) && negb (c =? t).

Lemma scan_passive t p s :
  Forall (λ c, passive t c = true) p →
  scan t false false (p ++ s) = scan_prefix p (scan t false false s).
Proof.
  induction 1 as [|c p Hc _ IH]; [by rewrite scan_prefix_nil|].
  rewrite scan_prefix_cons, <- IH. cbn [app scan]. unfold passive in Hc. to_prop.
  destruct (Z.eqb_spec c dquote); [done|]. by destruct (Z.eqb_spec c t).
Qed.

Lemma scan_items t first vs s :
  passive t 32 = true → passive t (ch ",") = true →
  scan t false false (write_items first vs ++ s) =
  scan_prefix (write_items first vs) (scan t false false s).
Proof.
  intros H1 H2. revert first. induction vs as [|v vs IH]; intros first; cbn [write_items].
  - by rewrite scan_prefix_nil.
  - replace ((if first then [] else lit ", ") ++ [dquote] ++ escape v ++ [dquote] ++ write_items false vs)
      with ((if first then [] else lit ", ") ++ quoted v ++ write_items false vs)
      by (unfold quoted; cbn; by rewrite <- app_assoc).
    rewrite <- !app_assoc, scan_passive by (destruct first; repeat constructor; done).
    by rewrite scan_quoted, IH, !scan_prefix_app.
Qed.

(** ** Facts on rendered text *)
Lemma key_char_range c : key_char c = true → 48 ≤ c < 128 ∧ is_whitespace c = false ∧ c ≠ dquote ∧
  c ≠ ch "#" ∧ c ≠ ch "=" ∧ c ≠ LF ∧ c ≠ ch "[".
Proof.
  unfold key_char, is_ascii_alphanumeric, is_ascii_alphabetic, is_ascii_uppercase,
    is_ascii_lowercase, is_ascii_digit, is_whitespace, dquote, LF.
  rewrite !orb_true_iff, !andb_true_iff, !Z.leb_le, Z.eqb_eq, !orb_false_iff, !andb_false_iff,
    !Z.leb_gt, !Z.eqb_neq. change (ch "_") with 95. change (ch "#") with 35.
  change (ch "=") with 61. change (ch "[") with 91. lia.
Qed.

Lemma digit_range c : is_ascii_digit c = true → 48 ≤ c ≤ 57.
Proof. unfold is_ascii_digit. rewrite andb_true_iff, !Z.leb_le. done. Qed.

Lemma ascii_not_whitespace c : 32 < c < 128 → is_whitespace c = false.
Proof.
  intros ?. unfold is_whitespace.
  rewrite !orb_false_iff, !andb_false_iff, !Z.leb_gt, !Z.eqb_neq. lia.
Qed.

(** A text with no white space at its ends. *)
Definition tight (s : str) : Prop :=
  ∃ c d, head s = Some c ∧ last s = Some d ∧ is_whitespace c = false ∧ is_whitespace d = false.

Lemma tight_trim s : tight s → trim s = s.
Proof.
  intros (c & d & Hc & Hd & Hwc & Hwd). apply trim_id.
  - destruct s; [done|]. injection Hc as ->. cbn. by rewrite Hwc.
  - destruct s as [|x s _] using rev_ind; [done|]. rewrite last_snoc in Hd. injection Hd as ->.
    rewrite reverse_snoc. cbn. by rewrite Hwd.
Qed.

Lemma tight_nonempty s : tight s → s ≠ [].
Proof. by intros (c & d & Hc & _) ->. Qed.

Lemma tight_last s : tight s → last s ≠ Some CR.
Proof. intros (c & d & _ & -> & _ & Hd) [= ->]. done. Qed.

Lemma escape_no_LF v : LF ∉ escape v.
Proof.
  unfold escape. rewrite elem_of_concat. intros (l & Hl & Hin).
  apply list_elem_of_fmap in Hl as (c & -> & _). revert Hin.
  escape_cases c; rewrite ?elem_of_cons, elem_of_nil; naive_solver.
Qed.

Lemma quoted_no_LF v : LF ∉ quoted v.
Proof.
  unfold quoted. rewrite elem_of_cons, elem_of_app, list_elem_of_singleton.
  intros [?|[?%escape_no_LF|?]]; done.
Qed.

Lemma write_items_cons first v vs :
  write_items first (v :: vs) = (if first then [] else lit ", ") ++ quoted v ++ write_items false vs.
Proof. cbn [write_items]. unfold quoted. cbn. by rewrite <- app_assoc. Qed.

Lemma write_items_no_LF first vs : LF ∉ write_items first vs.
Proof.
  revert first. induction vs as [|v vs IH]; intros first; [apply not_elem_of_nil|].
  rewrite write_items_cons, !elem_of_app. intros [H|[?%quoted_no_LF|?%IH]]; [|done..].
  destruct first; revert H; [apply not_elem_of_nil|]. cbn. rewrite !elem_of_cons, elem_of_nil.
  naive_solver.
Qed.

Lemma dec_of_digits n : 0 ≤ n → Forall (λ c, is_ascii_digit c = true) (dec_of n) ∧ dec_of n ≠ [].
Proof. intros Hn. by destruct (dec_of_spec n Hn) as (_ & ? & ?). Qed.

(** The values whose rendering the scanner walks through: integers are
    non-negative. *)
Definition shaped (v : Value) : Prop := match v with ValInteger n => 0 ≤ n | _ => True end.

Lemma good_shaped v : good_value v → shaped v.
Proof. destruct v; cbn; [done| |done]. unfold is_u64. lia. Qed.

Lemma render_value_no_LF v : shaped v → LF ∉ render_value v.
Proof.
  destruct v as [v|n|vs]; cbn [shaped render_value]; intros Hv.
  - apply quoted_no_LF.
  - destruct (dec_of_digits n Hv) as [Hall _]. intros Hin.
    rewrite Forall_forall in Hall. apply Hall, digit_range in Hin. unfold LF in Hin. lia.
  - rewrite elem_of_cons, elem_of_app, list_elem_of_singleton.
    intros [?|[?%write_items_no_LF|?]]; done.
Qed.

Lemma render_value_tight v : shaped v → tight (render_value v).
Proof.
  destruct v as [v|n|vs]; cbn [shaped render_value]; intros Hv.
  - exists dquote, dquote. by rewrite last_quoted.
  - destruct (dec_of_digits n Hv) as [Hall Hne].
    destruct (dec_of n) as [|c s] eqn:E; [done|]. destruct (last (c :: s)) as [d|] eqn:Hd;
      [|by apply last_None in Hd].
    rewrite Forall_forall in Hall. exists c, d.
    split_and!; [done..| |]; apply ascii_not_whitespace.
    + assert (48 ≤ c ≤ 57) by (apply digit_range, Hall; left). lia.
    + assert (48 ≤ d ≤ 57) by (by apply digit_range, Hall, last_Some_elem_of). lia.
  - exists (ch "["), (ch "]"). split_and!; [done| |done..].
    change (ch "[" :: write_items true vs ++ [ch "]"]) with ((ch "[" :: write_items true vs) ++ [ch "]"]).
    apply last_snoc.
Qed.

Lemma scan_value t v :
  shaped v → passive t 32 = true → passive t (ch ",") = true → passive t (ch "[") = true →
  passive t (ch "]") = true → (∀ c, 48 ≤ c ≤ 57 → passive t c = true) →
  scan t false false (render_value v) = NotFound false false.
Proof.
  intros Hv H1 H2 H3 H4 H5. destruct v as [v|n|vs]; cbn [render_value].
  - rewrite <- (app_nil_r (quoted v)), scan_quoted. done.
  - destruct (dec_of_digits n Hv) as [Hall _].
    rewrite <- (app_nil_r (dec_of n)), scan_passive; [done|].
    eapply Forall_impl; [exact Hall|]. intros c Hc. by apply H5, digit_range.
  - change (ch "[" :: write_items true vs ++ [ch "]"]) with ([ch "["] ++ write_items true vs ++ [ch "]"]).
    rewrite scan_passive by by repeat constructor. rewrite scan_items by done.
    rewrite <- (app_nil_r [ch "]"]), scan_passive by by repeat constructor. done.
Qed.

(** ** One line *)
Definition assignment_text (k : str) (v : Value) : str := k ++ lit " = " ++ render_value v.

Lemma assignment_tight k v : good_key k → shaped v → tight (assignment_text k v).
Proof.
  intros [Hne Hk] Hv. destruct (render_value_tight v Hv) as (c & d & _ & Hd & _ & Hwd).
  destruct k as [|x k]; [done|]. apply Forall_cons_1 in Hk as [Hx _]. exists x, d.
  split_and!; [done| |by apply key_char_range|done].
  unfold assignment_text. by rewrite !last_app, Hd.
Qed.

Lemma assignment_no_LF k v : good_key k → shaped v → LF ∉ assignment_text k v.
Proof.
  intros [_ Hk] Hv. unfold assignment_text. rewrite !elem_of_app.
  intros [Hin|[Hin|Hin]].
  - rewrite Forall_forall in Hk. by apply Hk, key_char_range in Hin as (_&_&_&_&_&?&_).
  - revert Hin. cbn. rewrite !elem_of_cons, elem_of_nil. naive_solver.
  - by apply render_value_no_LF in Hin.
Qed.

Lemma assignment_scan k v :
  good_key k → shaped v →
  scan (ch "#") false false (assignment_text k v) = NotFound false false ∧
  scan (ch "=") false false (assignment_text k v) = Found (k ++ [32]) (32 :: render_value v).
Proof.
  intros [_ Hk] Hv. unfold assignment_text. split.
  - rewrite !scan_passive, scan_value; try done.
    + intros c Hc. unfold passive, dquote. change (ch "#") with 35.
      rewrite andb_true_iff, !negb_true_iff, !Z.eqb_neq. lia.
    + by repeat constructor.
    + eapply Forall_impl; [exact Hk|]. intros c (_ & _ & ? & ? & _)%key_char_range.
      unfold passive. by rewrite andb_true_iff, !negb_true_iff, !Z.eqb_neq.
  - rewrite scan_passive; [done|].
    eapply Forall_impl; [exact Hk|]. intros c (_ & _ & ? & _ & ? & _)%key_char_range.
    unfold passive. by rewrite andb_true_iff, !negb_true_iff, !Z.eqb_neq.
Qed.

Lemma strip_comment_assignment k v :
  good_key k → shaped v → strip_comment (assignment_text k v) = Ok (assignment_text k v).
Proof. intros Hk Hv. unfold strip_comment. by destruct (assignment_scan k v Hk Hv) as [-> _]. Qed.

Lemma key_tight k : good_key k → tight k.
Proof.
  intros [Hne Hk]. destruct (last k) as [d|] eqn:Hd; [|by apply last_None in Hd].
  destruct k as [|c k]; [done|]. rewrite Forall_forall in Hk. exists c, d.
  split_and!; [done..| |].
  - apply key_char_range, Hk. left.
  - by apply key_char_range, Hk, last_Some_elem_of.
Qed.

Lemma parse_assignment_text k v :
  good_key k → shaped v →
  parse_assignment (assignment_text k v) = pair k <$> parse_value (render_value v).
Proof.
  intros Hk Hv. unfold parse_assignment. destruct (assignment_scan k v Hk Hv) as [_ ->].
  assert (trim (k ++ [32]) = k) as ->.
  { pose proof (key_tight k Hk) as Ht. rewrite trim_snoc_ws; [by apply tight_trim|done|apply Hk|].
    destruct Ht as (c & d & Hc & _ & Hwc & _). destruct k; [done|]. injection Hc as ->.
    cbn. by rewrite Hwc. }
  destruct Hk as [Hne Hk]. rewrite (bool_decide_eq_false_2 (k = [])) by done.
  rewrite utf8_ascii by (eapply Forall_impl; [exact Hk|]; intros c [? _]%key_char_range; lia).
  rewrite (proj2 (forallb_Forall _ _) Hk). cbn [negb orb bail_if]. step_bind.
  pose proof (render_value_tight v Hv) as Ht.
  rewrite trim_cons_ws, tight_trim by done.
  rewrite bool_decide_eq_false_2 by by apply tight_nonempty. cbn [bail_if]. step_bind.
  by destruct (parse_value (render_value v)).
Qed.

(** ** Values *)
Lemma array_items_escape cur v s :
  array_items cur true false (escape v ++ s) = array_items (reverse (escape v) ++ cur) true false s.
Proof.
  revert cur. induction v as [|c v IH]; intros cur; [done|].
  rewrite escape_cons, <- app_assoc, reverse_app, <- app_assoc.
  escape_cases c; try (cbn; rewrite IH; done). cbn [app array_items].
  destruct (Z.eqb_spec c backslash); [done|]. destruct (Z.eqb_spec c dquote); [done|]. by rewrite IH.
Qed.

Lemma array_items_quoted cur v s :
  array_items cur false false (quoted v ++ s) = array_items (reverse (quoted v) ++ cur) false false s.
Proof.
  unfold quoted. cbn [app array_items]. rewrite Z.eqb_refl, <- app_assoc, array_items_escape.
  cbn [app array_items]. change (dquote =? backslash) with false. cbv iota.
  rewrite Z.eqb_refl. f_equal. rewrite reverse_cons, reverse_snoc. cbn [app].
  by rewrite <- app_assoc.
Qed.

Lemma array_items_comma cur s :
  array_items cur false false (lit ", " ++ s) =
  (v ← parse_string (trim (reverse cur)); vs ← array_items [32] false false s; Ok (v :: vs)).
Proof. reflexivity. Qed.

Lemma trim_quoted cur v :
  cur = [] ∨ cur = [32] → trim (reverse (reverse (quoted v) ++ cur)) = quoted v.
Proof.
  intros Hcur. rewrite reverse_app, reverse_involutive.
  assert (tight (quoted v)) as Ht by (exists dquote, dquote; by rewrite last_quoted).
  destruct Hcur as [-> | ->]; [|change (reverse [32]) with [32]; cbn [app]; rewrite trim_cons_ws by done];
    by apply tight_trim.
Qed.

Lemma array_items_write cur v vs :
  cur = [] ∨ cur = [32] → Forall plain (v :: vs) →
  array_items cur false false (quoted v ++ write_items false vs) = Ok (v :: vs).
Proof.
  revert cur v. induction vs as [|w vs IH]; intros cur v Hcur [Hv Hvs]%Forall_cons_1;
    rewrite array_items_quoted.
  - cbn [write_items array_items orb bail_if]. step_bind.
    rewrite trim_quoted, parse_string_quoted by done. by rewrite (proj1 (plain_spec v) Hv).
  - rewrite write_items_cons, array_items_comma.
    rewrite trim_quoted, parse_string_quoted, (proj1 (plain_spec v) Hv) by done. step_bind.
    by rewrite IH by auto.
Qed.

Lemma parse_value_rendered v : good_value v → parse_value (render_value v) = Ok v.
Proof.
  unfold parse_value. intros Hv. rewrite !starts_with_one. destruct v as [v|n|vs]; cbn [render_value].
  - rewrite bool_decide_eq_true_2, parse_string_quoted by done.
    by rewrite (proj1 (plain_spec v) Hv).
  - cbn in Hv. unfold is_u64 in Hv. destruct (dec_of_digits n) as [Hall Hne]; [lia|].
    destruct (dec_of n) as [|c s] eqn:E; [done|].
    pose proof (digit_range c (proj1 (Forall_cons_1 _ _ _ Hall))) as Hc. cbn [head].
    rewrite bool_decide_eq_false_2 by (intros [= ->]; unfold dquote in Hc; lia).
    rewrite bool_decide_eq_false_2 by (intros [= ->]; change (ch "[") with 91 in Hc; lia).
    rewrite (proj2 (forallb_Forall _ _) Hall), <- E, parse_dec_of by done. done.
  - rewrite bool_decide_eq_false_2 by done. rewrite bool_decide_eq_true_2 by done.
    unfold parse_string_array.
    assert (ends_with (ch "[" :: write_items true vs ++ [ch "]"]) [ch "]"] = true) as ->.
    { rewrite app_comm_cons, ends_with_snoc. done. }
    cbn [negb bail_if]. step_bind.
    rewrite slice_inner by done. cbn [with_context]. step_bind. cbn zeta.
    destruct vs as [|v vs]; [done|]. rewrite write_items_cons. cbn [app].
    assert (tight (quoted v ++ write_items false vs)) as Ht.
    { exists dquote, dquote. split_and!; [done| |done..]. rewrite last_app.
      clear Hv. revert v. induction vs as [|w vs IH]; intros v; [by rewrite last_quoted|].
      rewrite write_items_cons, !last_app. specialize (IH w).
      by rewrite IH. }
    rewrite tight_trim, bool_decide_eq_false_2 by (try apply tight_nonempty; done).
    by rewrite array_items_write by auto.
Qed.

(** ** Documents *)
Definition good_item (i : item) : Prop :=
  match i with
  | ISkip text => LF ∉ text ∧ last text ≠ Some CR ∧ strip_comment text = Ok []
  | IHeader _ => True
  | IAssign k v => good_key k ∧ shaped v
  end.

(** What an item does to the parser's state. *)
Definition apply_item (st : doc_state) (i : item) : result doc_state :=
  match i with
  | ISkip _ => Ok st
  | IHeader kind => Ok (mk_doc (doc_root st) (flush st) (Some (mk_table kind ∅)))
  | IAssign key value =>
      value ← parse_value (render_value value);
      match doc_current st with
      | Some t =>
          bail_if (negb (bool_decide (table_values t !! key = None))) "duplicate key" ≫= λ _,
          Ok (mk_doc (doc_root st) (doc_tables st)
                (Some (mk_table (table_kind t) (<[ key := value ]> (table_values t)))))
      | None =>
          bail_if (negb (bool_decide (doc_root st !! key = None))) "duplicate key" ≫= λ _,
          Ok (mk_doc (<[ key := value ]> (doc_root st)) (doc_tables st) None)
      end
  end.

Lemma key_no_bracket k v : good_key k → starts_with (assignment_text k v) [ch "["] = false.
Proof.
  intros [Hne Hk]. rewrite starts_with_one. destruct k as [|c k]; [done|].
  apply Forall_cons_1 in Hk as [(_ & _ & _ & _ & _ & _ & ?)%key_char_range _].
  apply bool_decide_eq_false_2. by intros [= ->].
Qed.

Lemma doc_line_render st i : good_item i → doc_line st (render i) = apply_item st i.
Proof.
  destruct i as [text|kind|k v]; cbn [good_item render apply_item].
  - intros (_ & _ & H). unfold doc_line. by rewrite H.
  - intros _. unfold doc_line. by destruct kind.
  - intros [Hk Hv]. fold (assignment_text k v). unfold doc_line.
    rewrite strip_comment_assignment by done. step_bind. cbn zeta.
    pose proof (assignment_tight k v Hk Hv) as Ht. rewrite tight_trim by done.
    rewrite bool_decide_eq_false_2 by by apply tight_nonempty.
    unfold parse_header. rewrite key_no_bracket by done. cbn [negb]. step_bind.
    rewrite parse_assignment_text by done.
    by destruct (parse_value (render_value v)) as [w|e].
Qed.

Lemma good_item_line i : good_item i → LF ∉ render i ∧ last (render i) ≠ Some CR.
Proof.
  destruct i as [text|kind|k v]; cbn [good_item render].
  - tauto.
  - intros _. split; [|by destruct kind]. apply (bool_decide_unpack _). by destruct kind.
  - intros [Hk Hv]. fold (assignment_text k v). split; [by apply assignment_no_LF|].
    by apply tight_last, assignment_tight.
Qed.

Definition text_of (items : list item) : str := unlines (render <$> items).

Lemma lines_text_of items : Forall good_item items → lines (text_of items) = render <$> items.
Proof.
  intros H. apply lines_unlines. rewrite Forall_fmap. eapply Forall_impl; [exact H|].
  apply good_item_line.
Qed.

Lemma try_fold_items items st :
  Forall good_item items →
  try_fold doc_line st (render <$> items) = try_fold apply_item st items.
Proof.
  rewrite try_fold_fmap. intros H. revert st. induction H as [|i items Hi _ IH]; intros st; [done|].
  cbn [try_fold]. rewrite doc_line_render by done.
  destruct (apply_item st i); [apply IH|done].
Qed.

Lemma parse_document_items items :
  Forall good_item items →
  parse_document (text_of items) =
  (st ← try_fold apply_item (mk_doc ∅ [] None) items; Ok (doc_root st, flush st)).
Proof. intros H. unfold parse_document. by rewrite lines_text_of, try_fold_items. Qed.

(** ** Blocks: a table header and its assignments *)
Definition assigns : Type := list (str * Value).
Definition assign_items (l : assigns) : list item := (λ '(k, v), IAssign k v) <$> l.
Definition good_assigns (l : assigns) : Prop :=
  NoDup l.*1 ∧ Forall (λ kv, good_key kv.1 ∧ good_value kv.2) l.

Lemma apply_assigns_table l root tables kind m :
  good_assigns l → (∀ k, k ∈ l.*1 → m !! k = None) →
  try_fold apply_item (mk_doc root tables (Some (mk_table kind m))) (assign_items l) =
  Ok (mk_doc root tables (Some (mk_table kind (list_to_map l ∪ m)))).
Proof.
  intros [Hnd Hgood] Hm. rewrite <- insert_all by done.
  revert m Hm. induction l as [|[k v] l IH]; intros m Hm; [done|].
  csimpl. apply NoDup_cons in Hnd as [Hk Hnd]. apply Forall_cons_1 in Hgood as [[_ Hv] Hgood].
  rewrite parse_value_rendered by done. step_bind. cbn [table_values table_kind].
  rewrite bool_decide_eq_true_2 by (apply Hm; left). cbn [negb bail_if]. repeat step_bind.
  apply IH; [done..|]. intros k' Hk'. rewrite lookup_insert_ne; [apply Hm; by right|]. by intros <-.
Qed.

Lemma apply_assigns_root l m :
  good_assigns l → (∀ k, k ∈ l.*1 → m !! k = None) →
  try_fold apply_item (mk_doc m [] None) (assign_items l) =
  Ok (mk_doc (list_to_map l ∪ m) [] None).
Proof.
  intros [Hnd Hgood] Hm. rewrite <- insert_all by done.
  revert m Hm. induction l as [|[k v] l IH]; intros m Hm; [done|].
  csimpl. apply NoDup_cons in Hnd as [Hk Hnd]. apply Forall_cons_1 in Hgood as [[_ Hv] Hgood].
  rewrite parse_value_rendered by done. step_bind. cbn [doc_root doc_tables].
  rewrite bool_decide_eq_true_2 by (apply Hm; left). cbn [negb bail_if]. repeat step_bind.
  apply IH; [done..|]. intros k' Hk'. rewrite lookup_insert_ne; [apply Hm; by right|]. by intros <-.
Qed.

Definition block : Type := TableKind * assigns.
Definition block_items (b : block) : list item := ISkip [] :: IHeader b.1 :: assign_items b.2.
Definition block_table (b : block) : Table := mk_table b.1 (list_to_map b.2).

Lemma apply_blocks bs st :
  Forall (λ b, good_assigns b.2) bs →
  ∃ st', try_fold apply_item st (concat (block_items <$> bs)) = Ok st' ∧
         doc_root st' = doc_root st ∧ flush st' = flush st ++ (block_table <$> bs).
Proof.
  intros H. revert st. induction H as [|[kind l] bs Hl _ IH]; intros st.
  - exists st. by rewrite app_nil_r.
  - destruct (IH (mk_doc (doc_root st) (flush st) (Some (block_table (kind, l))))) as (st' & Hst & Hr & Hf).
    exists st'. split_and!; [|done|].
    + rewrite <- Hst. csimpl. rewrite try_fold_app, apply_assigns_table by (done || intros; apply lookup_empty).
      step_bind. unfold block_table. by rewrite (right_id_L ∅ (∪)).
    + rewrite Hf. cbn. by rewrite <- app_assoc.
Qed.

Lemma good_assign_items l : good_assigns l → Forall good_item (assign_items l).
Proof.
  intros [_ H]. unfold assign_items. rewrite Forall_fmap. eapply Forall_impl; [exact H|].
  intros [k v] [? ?]. split; [done|by apply good_shaped].
Qed.

(** ** Tables with optional fields

    A table is listed as all its keys, each with the value the writer gives it,
    if any. *)
Definition spec : Type := list (str * option Value).
Definition spec_assigns (l : spec) : assigns := omap (λ '(k, o), pair k <$> o) l.

Lemma elem_of_spec_assigns l k v : (k, v) ∈ spec_assigns l ↔ (k, Some v) ∈ l.
Proof.
  unfold spec_assigns. rewrite list_elem_of_omap. split.
  - intros ([k' [v'|]] & Hin & Heq); cbn in Heq; naive_solver.
  - intros Hin. exists (k, Some v). split; done.
Qed.

Lemma spec_assigns_keys l : (spec_assigns l).*1 `sublist_of` l.*1.
Proof.
  induction l as [|[k [v|]] l IH]; csimpl; [done|by apply sublist_skip|by apply sublist_cons].
Qed.

Lemma spec_assigns_NoDup l : NoDup l.*1 → NoDup (spec_assigns l).*1.
Proof. intros H. eapply sublist_NoDup; [exact H|]. apply spec_assigns_keys. Qed.

Lemma spec_lookup l k o :
  NoDup l.*1 → (k, o) ∈ l → (list_to_map (spec_assigns l) : gmap str Value) !! k = o.
Proof.
  intros Hnd Hin. destruct o as [v|].
  - apply elem_of_list_to_map_1; [by apply spec_assigns_NoDup|]. by apply elem_of_spec_assigns.
  - apply eq_None_not_Some. intros [v Hv]. apply elem_of_list_to_map_2, elem_of_spec_assigns in Hv.
    apply (elem_of_list_to_map_1 (M:=gmap str)) in Hin; [|done].
    apply (elem_of_list_to_map_1 (M:=gmap str)) in Hv; [|done]. congruence.
Qed.

(** The values left when the keys [ks] have been taken. *)
Definition rest (l : spec) (ks : list str) : gmap str Value :=
  foldr delete (list_to_map (spec_assigns l)) ks.

Lemma lookup_rest l ks k o : NoDup l.*1 → (k, o) ∈ l → k ∉ ks → rest l ks !! k = o.
Proof.
  intros Hnd Hin. unfold rest. induction ks as [|k' ks IH]; cbn [foldr]; intros Hk.
  - by apply spec_lookup.
  - rewrite not_elem_of_cons in Hk. destruct Hk. rewrite lookup_delete_ne by congruence. auto.
Qed.

Lemma rest_empty l ks : (∀ k, k ∈ l.*1 → k ∈ ks) → rest l ks = ∅.
Proof.
  intros H. apply map_empty. intros k. destruct (decide (k ∈ ks)) as [Hin|Hout].
  - clear H. unfold rest. induction ks as [|k' ks IH]; [by apply elem_of_nil in Hin|]. cbn [foldr].
    destruct (decide (k' = k)) as [->|]; [apply lookup_delete_eq|].
    rewrite lookup_delete_ne by done. apply IH. apply elem_of_cons in Hin. naive_solver.
  - assert (k ∉ (spec_assigns l).*1) as Hk.
    { intros Hk. apply Hout, H. eapply elem_of_submseteq; [exact Hk|].
      apply sublist_submseteq, spec_assigns_keys. }
    clear H Hout. unfold rest. induction ks as [|k' ks IH]; cbn [foldr].
    + by apply not_elem_of_list_to_map_1.
    + destruct (decide (k' = k)) as [->|]; [apply lookup_delete_eq|]. by rewrite lookup_delete_ne.
Qed.

(** ** Taking the fields *)
Lemma fields_bind_ok {A B} (m : fields A) (f : A → fields B) values a values' :
  m values = Ok (a, values') → (m ≫= f) values = f a values'.
Proof. intros H. unfold mbind, fields_bind. by rewrite H. Qed.

Section Take.
Context (l : spec) (ks : list str).
Hypothesis l_nodup : NoDup l.*1.

Lemma take_string_spec k o :
  (k, ValString <$> o) ∈ l → k ∉ ks → take_string k (rest l ks) = Ok (o, rest l (k :: ks)).
Proof. intros Hin Hk. unfold take_string. rewrite (lookup_rest l ks k _ l_nodup Hin Hk). by destruct o. Qed.

Lemma take_integer_spec k o :
  (k, ValInteger <$> o) ∈ l → k ∉ ks → take_integer k (rest l ks) = Ok (o, rest l (k :: ks)).
Proof. intros Hin Hk. unfold take_integer. rewrite (lookup_rest l ks k _ l_nodup Hin Hk). by destruct o. Qed.

Lemma take_strings_spec k o :
  (k, ValStrings <$> o) ∈ l → k ∉ ks → take_strings k (rest l ks) = Ok (o, rest l (k :: ks)).
Proof. intros Hin Hk. unfold take_strings. rewrite (lookup_rest l ks k _ l_nodup Hin Hk). by destruct o. Qed.

Lemma required_string_spec k v :
  (k, ValString <$> Some v) ∈ l → k ∉ ks → required_string k (rest l ks) = Ok (v, rest l (k :: ks)).
Proof.
  intros Hin Hk. unfold required_string. by erewrite fields_bind_ok by by apply (take_string_spec k (Some v)).
Qed.

Lemma take_parsed_spec {A} (parse : str → result A) (show : A → str) k o :
  (∀ a, parse (show a) = Ok a) →
  (k, ValString <$> (show <$> o)) ∈ l → k ∉ ks →
  take_parsed parse k (rest l ks) = Ok (o, rest l (k :: ks)).
Proof.
  intros Hparse Hin Hk. unfold take_parsed. erewrite fields_bind_ok by by apply take_string_spec.
  destruct o as [a|]; [|done]. cbn [fmap option_fmap option_map]. by rewrite Hparse.
Qed.

Lemma take_port_spec p :
  (lit "port", ValInteger <$> Some p) ∈ l → lit "port" ∉ ks → 0 < p ≤ u16_max →
  take_port (rest l ks) = Ok (p, rest l (lit "port" :: ks)).
Proof.
  intros Hin Hk Hp. unfold take_port.
  erewrite fields_bind_ok by by apply (take_integer_spec _ (Some p)).
  change (default 22 (Some p)) with p. cbn zeta.
  assert (try_from u16_max p = Some p) as -> by (apply try_from_some; lia).
  cbn [mbind option_bind]. by rewrite (proj2 (Z.eqb_neq p 0)) by lia.
Qed.

Lemma reject_unknown_spec :
  (∀ k, k ∈ l.*1 → k ∈ ks) → reject_unknown (rest l ks) = Ok (tt, rest l ks).
Proof. intros H. unfold reject_unknown. rewrite bool_decide_eq_true_2; [done|]. by apply rest_empty. Qed.
End Take.

Lemma rest_nil l : rest l [] = list_to_map (spec_assigns l).
Proof. done. Qed.

(** ** Rendering a table *)
Lemma text_of_app l k : text_of (l ++ k) = text_of l ++ text_of k.
Proof. unfold text_of. by rewrite fmap_app, unlines_app. Qed.

Lemma text_of_concat ls : text_of (concat ls) = concat (text_of <$> ls).
Proof. induction ls as [|l ls IH]; [done|]. change (concat (l :: ls)) with (l ++ concat ls).
  by rewrite text_of_app, IH. Qed.

Lemma text_of_cons i l : text_of (i :: l) = render i ++ [LF] ++ text_of l.
Proof. unfold text_of, unlines. cbn. by rewrite <- app_assoc. Qed.

Lemma text_of_nil : text_of [] = [].
Proof. done. Qed.

(** The text of one field. *)
Definition field_text (k : str) (o : option Value) : str :=
  match o with Some v => assignment_text k v ++ [LF] | None => [] end.

Lemma text_of_spec_cons k o l :
  text_of (assign_items (spec_assigns ((k, o) :: l))) =
  field_text k o ++ text_of (assign_items (spec_assigns l)).
Proof.
  destruct o as [v|]; [|done]. cbn [field_text]. rewrite <- app_assoc. apply text_of_cons.
Qed.

Lemma write_string_field k v : write_string k v = field_text k (Some (ValString v)).
Proof.
  unfold write_string, field_text, assignment_text, render_value, quoted.
  rewrite <- !app_assoc. cbn [app]. by rewrite <- app_assoc.
Qed.
Lemma write_integer_field k n : write_integer k n = field_text k (Some (ValInteger n)).
Proof. unfold write_integer, field_text, assignment_text, render_value. by rewrite <- !app_assoc. Qed.
Lemma write_strings_field k vs : write_strings k vs = field_text k (Some (ValStrings vs)).
Proof.
  unfold write_strings, field_text, assignment_text, render_value. rewrite <- !app_assoc.
  cbn [app]. by rewrite <- app_assoc.
Qed.

Lemma if_some_field {A} k (o : option A) (f : A → str) (g : A → Value) :
  (∀ a, f a = field_text k (Some (g a))) → if_some o f = field_text k (g <$> o).
Proof. intros H. destruct o; [apply H|done]. Qed.

(** ** The tables the writer produces *)
Definition unless {A} (b : bool) (a : A) : option A := if b then None else Some a.

Definition host_spec (h : HostRecord) : spec := [
  (lit "alias", ValString <$> Some (hr_alias h));
  (lit "role", ValString <$> (role_as_str <$> unless (bool_decide (hr_role h = RoleBoth)) (hr_role h)));
  (lit "address", ValString <$> Some (hr_address h));
  (lit "port", ValInteger <$> Some (hr_port h));
  (lit "user", ValString <$> Some (hr_user h));
  (lit "identity_file", ValString <$> (to_string_lossy <$> hr_identity_file h));
  (lit "groups", ValStrings <$> Some (hr_groups h));
  (lit "tags", ValStrings <$> Some (hr_tags h));
  (lit "note", ValString <$> hr_note h);
  (lit "host_key_policy", ValString <$> (policy_as_str <$> Some (hr_host_key_policy h)));
  (lit "os_type", ValString <$> (os_as_str <$> unless (bool_decide (hr_os_type h = OsAuto)) (hr_os_type h)));
  (lit "jump_chain", ValString <$> hr_jump_chain h);
  (lit "last_connected_unix", ValInteger <$> last_connected_unix (hr_stats h));
  (lit "connection_count", ValInteger <$> Some (connection_count (hr_stats h)));
  (lit "last_auth_method", ValString <$> (method_as_str <$> last_auth_method (hr_stats h)))].

Definition hop_spec (chain : str) (index : Z) (hop : JumpHop) : spec :=
  (lit "chain", ValString <$> Some chain) :: (lit "index", ValInteger <$> Some index) ::
  match hop with
  | HopHost alias => [(lit "kind", ValString <$> Some (lit "host")); (lit "name", ValString <$> Some alias)]
  | HopOpenSshAlias alias =>
      [(lit "kind", ValString <$> Some (lit "openssh")); (lit "name", ValString <$> Some alias)]
  | HopInline j => [
      (lit "kind", ValString <$> Some (lit "inline"));
      (lit "alias", ValString <$> Some (ij_alias j));
      (lit "host", ValString <$> Some (ij_host j));
      (lit "port", ValInteger <$> Some (ij_port j));
      (lit "user", ValString <$> Some (ij_user j));
      (lit "identity_file", ValString <$> (to_string_lossy <$> ij_identity_file j));
      (lit "host_key_policy", ValString <$> (policy_as_str <$> Some (ij_host_key_policy j)))]
  end.

Definition chain_spec (name : str) : spec := [(lit "name", ValString <$> Some name)].

Definition root_spec (db : HostDatabase) : spec := [
  (lit "version", ValInteger <$> Some (db_version db));
  (lit "folders", ValStrings <$> unless (bool_decide (db_folders db = [])) (db_folders db));
  (lit "jump_folders", ValStrings <$> unless (bool_decide (db_jump_folders db = [])) (db_jump_folders db))].

Lemma host_spec_nodup h : NoDup (host_spec h).*1.
Proof. cbn [host_spec fmap list_fmap fst]. decide_now. Qed.
Lemma hop_spec_nodup c i hop : NoDup (hop_spec c i hop).*1.
Proof. destruct hop; cbn [hop_spec fmap list_fmap fst]; decide_now. Qed.
Lemma chain_spec_nodup n : NoDup (chain_spec n).*1.
Proof. cbn [chain_spec fmap list_fmap fst]. decide_now. Qed.
Lemma root_spec_nodup db : NoDup (root_spec db).*1.
Proof. cbn [root_spec fmap list_fmap fst]. decide_now. Qed.

(** What reading back a path gives. *)
Definition lossy_path (p : option (list Z)) : option (list Z) := path_of <$> (to_string_lossy <$> p).

Definition set_path (h : HostRecord) (p : option (list Z)) : HostRecord :=
  mk_host (hr_alias h) (hr_role h) (hr_address h) (hr_port h) (hr_user h) p
    (hr_groups h) (hr_tags h) (hr_note h) (hr_host_key_policy h) (hr_jump_chain h) (hr_os_type h)
    (hr_stats h).

(** Take the next field of a listed table. *)
Ltac listed := cbn [host_spec hop_spec chain_spec root_spec]; repeat first [left; reflexivity | right].
Ltac untaken := decide_now.
Ltac take_field :=
  erewrite fields_bind_ok;
  [ | first [ apply required_string_spec; [auto | listed | untaken]
            | apply take_string_spec; [auto | listed | untaken]
            | apply take_strings_spec; [auto | listed | untaken]
            | apply take_integer_spec; [auto | listed | untaken]
            | eapply take_parsed_spec; [auto | | listed | untaken]; by intros []
            | apply take_port_spec; [auto | listed | untaken | lia] ] ].

Ltac decide_keys :=
  intros k Hk; revert k Hk; apply Forall_forall; cbn [host_spec hop_spec chain_spec root_spec fmap
    list_fmap fst]; decide_now.

Ltac take_none_left :=
  erewrite fields_bind_ok; [ | apply reject_unknown_spec; decide_keys ].

#[local] Hint Resolve host_spec_nodup hop_spec_nodup chain_spec_nodup root_spec_nodup : core.

Lemma host_fields_spec h :
  0 < hr_port h ≤ u16_max →
  ∃ values, host_fields (list_to_map (spec_assigns (host_spec h))) =
    Ok (set_path h (lossy_path (hr_identity_file h)), values).
Proof.
  intros Hport. rewrite <- rest_nil. unfold host_fields.
  do 15 take_field.
  take_none_left.
  eexists. unfold mret, fields_ret. do 2 f_equal.
  destruct h as [? [] ? ? ? ? ? ? ? ? ? [] []]; done.
Qed.

(** What reading back a hop gives. *)
Definition lossy_hop (hop : JumpHop) : JumpHop :=
  match hop with
  | HopInline j => HopInline (mk_inline (ij_alias j) (ij_host j) (ij_port j) (ij_user j)
                                (lossy_path (ij_identity_file j)) (ij_host_key_policy j))
  | hop => hop
  end.

Definition typed_hop (hop : JumpHop) : Prop :=
  match hop with HopInline j => 0 < ij_port j ≤ u16_max | _ => True end.

Lemma fields_bind_assoc_ok {A B} (m : fields A) (f : A → fields B) values r :
  m values = r → (m ≫= f) values = ('(a, values) ← r; f a values).
Proof. intros <-. done. Qed.

Lemma fields_fmap_ok {A B} (m : fields A) (f : A → B) values a values' :
  m values = Ok (a, values') → (f <$> m) values = Ok (f a, values').
Proof. intros H. unfold fmap, fields_fmap. by rewrite H. Qed.

Lemma lift_ok {A} (a : A) values : lift (Ok a) values = Ok (a, values).
Proof. done. Qed.

Lemma hop_fields_spec chain index hop :
  0 ≤ index ≤ usize_max → typed_hop hop →
  ∃ values, hop_fields (list_to_map (spec_assigns (hop_spec chain index hop))) =
    Ok (chain, index, lossy_hop hop, values).
Proof.
  intros Hindex Hport. rewrite <- rest_nil. unfold hop_fields.
  take_field. take_field. cbn [with_context].
  erewrite fields_bind_ok by apply lift_ok.
  assert (try_from usize_max index = Some index) as -> by (apply try_from_some; lia).
  cbn [with_context]. erewrite fields_bind_ok by apply lift_ok.
  destruct hop as [alias|alias|j]; take_field.
  - change (bool_decide (lit "host" = lit "host")) with true. cbv iota.
    erewrite fields_bind_ok by (apply fields_fmap_ok, required_string_spec; [auto|listed|untaken]).
    take_none_left. eexists. reflexivity.
  - change (bool_decide (lit "openssh" = lit "host")) with false.
    change (bool_decide (lit "openssh" = lit "openssh")) with true. cbv iota.
    erewrite fields_bind_ok by (apply fields_fmap_ok, required_string_spec; [auto|listed|untaken]).
    take_none_left. eexists. reflexivity.
  - change (bool_decide (lit "inline" = lit "host")) with false.
    change (bool_decide (lit "inline" = lit "openssh")) with false.
    change (bool_decide (lit "inline" = lit "inline")) with true. cbv iota.
    cbn in Hport. erewrite fields_bind_ok; [|do 6 take_field; reflexivity].
    take_none_left. eexists. destruct j; reflexivity.
Qed.

Lemma chain_fields_spec name :
  ∃ values, chain_fields (list_to_map (spec_assigns (chain_spec name))) = Ok (name, values).
Proof.
  rewrite <- rest_nil. unfold chain_fields. take_field. take_none_left. eexists. reflexivity.
Qed.

Lemma root_fields_spec db :
  db_version db = DATABASE_VERSION →
  ∃ values, root_fields (list_to_map (spec_assigns (root_spec db))) =
    Ok (db_folders db, db_jump_folders db, values).
Proof.
  intros Hv. rewrite <- rest_nil. unfold root_fields.
  take_field. cbn [with_context]. erewrite fields_bind_ok by apply lift_ok.
  rewrite Hv, Z.eqb_refl. cbn [negb bail_if]. erewrite fields_bind_ok by apply lift_ok.
  take_field. take_field. take_none_left. eexists.
  unfold mret, fields_ret. by destruct (db_folders db), (db_jump_folders db).
Qed.

(** ** The writer's text *)
Ltac spec_text := rewrite !text_of_spec_cons; cbn [spec_assigns omap list_omap assign_items fmap list_fmap];
  rewrite text_of_nil.

(** One field of the writer's text against its entry in the table. *)
Ltac field_eq :=
  first [ reflexivity
        | match goal with |- (if ?b then _ else _) = _ => destruct b; reflexivity end
        | match goal with |- if_some ?o _ = _ =>
            destruct o; cbn [if_some]; rewrite ?write_string_field, ?write_integer_field; reflexivity
          end ].
Ltac fields_eq :=
  repeat (apply (f_equal2 app); [solve [field_eq]|]); field_eq.

Lemma encode_host_text h :
  encode_host h = text_of (block_items (TableHost, spec_assigns (host_spec h))).
Proof.
  unfold encode_host, block_items. rewrite !text_of_cons. cbn [fst snd render header_text app].
  unfold host_spec. spec_text. rewrite app_nil_r, !write_string_field, !write_integer_field,
    !write_strings_field.
  do 3 f_equal. fields_eq.
Qed.

Definition hop_block (chain : str) (index : nat) (hop : JumpHop) : block :=
  (TableHop, spec_assigns (hop_spec chain (Z.of_nat index) hop)).

Lemma encode_hop_text chain index hop :
  encode_hop chain (Z.of_nat index) hop = text_of (block_items (hop_block chain index hop)).
Proof.
  unfold encode_hop, block_items, hop_block. rewrite !text_of_cons.
  cbn [fst snd render header_text app]. do 3 f_equal. unfold hop_spec.
  destruct hop as [alias|alias|j]; spec_text; rewrite app_nil_r, !write_string_field, !write_integer_field;
    fields_eq.
Qed.

Definition chain_blocks (c : JumpChain) : list block :=
  (TableChain, spec_assigns (chain_spec (jc_name c))) :: imap (hop_block (jc_name c)) (jc_hops c).

Lemma encode_chain_text c :
  encode_chain c = text_of (concat (block_items <$> chain_blocks c)).
Proof.
  unfold encode_chain, chain_blocks. rewrite fmap_cons. cbn [concat]. rewrite text_of_app.
  unfold block_items at 1. rewrite !text_of_cons. cbn [fst snd render header_text app].
  rewrite <- app_assoc, <- app_comm_cons. do 3 f_equal. unfold chain_spec at 1. spec_text. rewrite app_nil_r, write_string_field.
  apply (f_equal2 app); [reflexivity|]. rewrite text_of_concat, !fmap_imap. f_equal.
  apply imap_ext. intros i hop _. apply encode_hop_text.
Qed.

(** ** Typing and readable paths

    What the Rust types guarantee of a database: ports are [u16], counters and
    timestamps [u64]. *)
Record typed_host (h : HostRecord) : Prop := {
  typed_port : is_u16 (hr_port h);
  typed_count : is_u64 (connection_count (hr_stats h));
  typed_time : ∀ t, last_connected_unix (hr_stats h) = Some t → is_u64 t;
}.
Definition typed_jump (hop : JumpHop) : Prop :=
  match hop with HopInline j => is_u16 (ij_port j) | _ => True end.
Record typed_database (db : HostDatabase) : Prop := {
  typed_hosts : ∀ a h, db_hosts db !! a = Some h → typed_host h;
  typed_hops : ∀ n c, db_chains db !! n = Some c → Forall typed_jump (jc_hops c);
}.

(** The path is text: the writer stores it unchanged. *)
Definition text_path (p : option (list Z)) : Prop := ∀ bs, p = Some bs → is_Some (from_utf8 bs).
Definition text_hop (hop : JumpHop) : Prop :=
  match hop with HopInline j => text_path (ij_identity_file j) | _ => True end.
Record text_paths (db : HostDatabase) : Prop := {
  text_hosts : ∀ a h, db_hosts db !! a = Some h → text_path (hr_identity_file h);
  text_hops : ∀ n c, db_chains db !! n = Some c → Forall text_hop (jc_hops c);
}.

Lemma lossy_path_id p : text_path p → lossy_path p = p.
Proof.
  unfold text_path, lossy_path. destruct p as [bs|]; [|done]. intros H.
  destruct (H bs eq_refl) as [s Hs]. cbn. unfold to_string_lossy, path_of. rewrite Hs.
  by destruct (utf8_from_utf8 bs s Hs) as [-> _].
Qed.

Lemma lossy_hop_id hop : text_hop hop → lossy_hop hop = hop.
Proof.
  destruct hop as [alias|alias|j]; [done..|]. intros H. unfold lossy_hop.
  rewrite lossy_path_id by done. by destruct j.
Qed.

Lemma set_path_id h : text_path (hr_identity_file h) → set_path h (lossy_path (hr_identity_file h)) = h.
Proof. intros H. rewrite lossy_path_id by done. by destruct h. Qed.

(** ** Well-formed text is plain text *)
Lemma no_control_plain s : Forall (λ c, is_control c = false) s → plain s.
Proof. intros H. eapply Forall_impl; [exact H|]. intros c Hc. unfold plain_char. by rewrite Hc. Qed.

Lemma valid_endpoint_plain s : valid_endpoint s → plain s.
Proof. intros (_ & _ & H). by apply no_control_plain. Qed.

Lemma utf8_char_head c : 128 ≤ c → ∃ b bs, utf8_char c = b :: bs ∧ 192 ≤ b.
Proof.
  intros Hc. unfold utf8_char. destruct (Z.ltb_spec c 128); [lia|].
  pose proof (Z.div_pos c 64). pose proof (Z.div_pos c 4096). pose proof (Z.div_pos c 262144).
  destruct (c <? 2048); [|destruct (c <? 65536)]; do 2 eexists; (split; [reflexivity|lia]).
Qed.

Lemma valid_name_plain s : valid_name s → plain s.
Proof.
  intros (_ & _ & H). apply no_control_plain. induction s as [|c s IH]; [done|].
  cbn [utf8] in H. apply Forall_app in H as [Hc Hs]. constructor; [|by apply IH].
  destruct (Z.leb_spec 128 c) as [Hle|Hlt].
  - destruct (utf8_char_head c Hle) as (b & bs & Heq & Hb). rewrite Heq in Hc.
    apply Forall_cons_1 in Hc as [Hc _]. exfalso. revert Hc.
    unfold is_ascii_alphanumeric, is_ascii_alphabetic, is_ascii_uppercase, is_ascii_lowercase,
      is_ascii_digit. rewrite !orb_true_iff, !andb_true_iff, !Z.leb_le, !Z.eqb_eq.
    change (ch ".") with 46. change (ch "_") with 95. change (ch "-") with 45.
    change (ch ":") with 58. lia.
  - unfold utf8_char in Hc. rewrite (proj2 (Z.ltb_lt c 128)) in Hc by done.
    apply Forall_cons_1 in Hc as [Hc _]. revert Hc.
    unfold is_ascii_alphanumeric, is_ascii_alphabetic, is_ascii_uppercase, is_ascii_lowercase,
      is_ascii_digit, is_control.
    rewrite !orb_true_iff, !andb_true_iff, !Z.leb_le, !Z.eqb_eq, orb_false_iff, andb_false_iff,
      Z.ltb_ge, !Z.leb_gt.
    change (ch ".") with 46. change (ch "_") with 95. change (ch "-") with 45.
    change (ch ":") with 58. lia.
Qed.

Lemma valid_path_plain p bs : valid_path p → p = Some bs → plain (to_string_lossy bs).
Proof. intros H ->. apply no_control_plain. by destruct (H bs eq_refl) as (_ & _ & ?). Qed.

Section Plain.
Context {unicode : UnicodeTables}.
Lemma valid_label_plain s : valid_label s → plain s.
Proof.
  intros (_ & _ & _ & H). apply no_control_plain. eapply Forall_impl; [exact H|].
  intros c. cbn. unfold label_char. rewrite !orb_true_iff, !Z.eqb_eq.
  intros [[[[[[[[[Hc| ->]| ->]| ->]| ->]| ->]| ->]| ->]| ->]| ->]; try done.
  by apply is_alphanumeric_not_control.
Qed.
Lemma valid_labels_plain l : valid_labels l → Forall plain l.
Proof. intros (_ & H & _). eapply Forall_impl; [exact H|]. apply valid_label_plain. Qed.
End Plain.

(** ** The tables are good *)
#[export] Instance good_key_dec k : Decision (good_key k).
Proof. unfold good_key. apply _. Defined.

Lemma good_spec l :
  NoDup l.*1 → Forall good_key l.*1 → (∀ k v, (k, Some v) ∈ l → good_value v) →
  good_assigns (spec_assigns l).
Proof.
  intros Hnd Hk Hv. split; [by apply spec_assigns_NoDup|].
  apply Forall_forall. intros [k v] Hin%elem_of_spec_assigns. split; [|by eapply Hv].
  rewrite Forall_forall in Hk. apply Hk. by apply (list_elem_of_fmap_2 fst _ (k, Some v)).
Qed.

Lemma shaped_spec l :
  Forall good_key l.*1 → (∀ k v, (k, Some v) ∈ l → shaped v) →
  Forall good_item (assign_items (spec_assigns l)).
Proof.
  intros Hk Hv. unfold assign_items. rewrite Forall_fmap, Forall_forall.
  intros [k v] Hin%elem_of_spec_assigns. split; [|by eapply Hv].
  rewrite Forall_forall in Hk. apply Hk. by apply (list_elem_of_fmap_2 fst _ (k, Some v)).
Qed.

(** Walk through the entries of a listed table: one goal for each entry, with
    the field that is written. *)
Ltac each_entry H :=
  cbn [host_spec hop_spec chain_spec root_spec] in H;
  repeat (apply elem_of_cons in H as [H|H];
          [apply pair_eq in H as [_ H]; symmetry in H; apply fmap_Some in H as (? & H & ->) |]);
  try by apply elem_of_nil in H.

Lemma host_spec_keys h : Forall good_key (host_spec h).*1.
Proof. cbn [host_spec fmap list_fmap fst]. decide_now. Qed.
Lemma hop_spec_keys c i hop : Forall good_key (hop_spec c i hop).*1.
Proof. destruct hop; cbn [hop_spec fmap list_fmap fst]; decide_now. Qed.
Lemma chain_spec_keys n : Forall good_key (chain_spec n).*1.
Proof. cbn [chain_spec fmap list_fmap fst]. decide_now. Qed.
Lemma root_spec_keys db : Forall good_key (root_spec db).*1.
Proof. cbn [root_spec fmap list_fmap fst]. decide_now. Qed.

Lemma role_plain r : plain (role_as_str r).
Proof. unfold plain. destruct r; decide_now. Qed.
Lemma policy_plain p : plain (policy_as_str p).
Proof. unfold plain. destruct p; decide_now. Qed.
Lemma os_plain o : plain (os_as_str o).
Proof. unfold plain. destruct o; decide_now. Qed.
Lemma method_plain m : plain (method_as_str m).
Proof. unfold plain. destruct m; decide_now. Qed.
Lemma is_u16_u64 n : is_u16 n → is_u64 n.
Proof. unfold is_u16, is_u64, u16_max, u64_max. lia. Qed.

Create HintDb plain.
#[local] Hint Resolve role_plain policy_plain os_plain method_plain is_u16_u64
  valid_endpoint_plain valid_name_plain valid_path_plain valid_label_plain valid_labels_plain : plain.

(** What is left of an entry: its field is a component of the record. *)
Ltac entry H :=
  repeat (apply fmap_Some in H as (? & H & ->)); try (injection H as <-); eauto with plain.

Section Good.
Context {unicode : UnicodeTables}.

Lemma host_spec_good h k v :
  typed_host h → wf_host h → (k, Some v) ∈ host_spec h →
  shaped v ∧ ((∀ note, hr_note h = Some note → plain note) → good_value v).
Proof.
  intros [Hp Hc Ht] [] H.
  cut (good_value v ∨ ∃ note, v = ValString note ∧ hr_note h = Some note).
  { intros [Hv|(note & -> & Hn)]; [split; [by apply good_shaped|done]|]. split; [done|]. intros H'. by apply H'. }
  each_entry H; cbn [good_value]; try (left; entry H; fail). right. eauto.
Qed.

Lemma hop_spec_good chain index hop k v :
  typed_jump hop → wf_hop hop → valid_label chain → 0 ≤ index ≤ u64_max →
  (k, Some v) ∈ hop_spec chain index hop → good_value v.
Proof.
  intros Ht Hwf Hc Hi H. destruct hop as [alias|alias|j]; cbn [wf_hop typed_jump] in *.
  3: destruct Hwf.
  all: each_entry H; cbn [good_value]; entry H; try (unfold plain; decide_now).
Qed.

Lemma chain_spec_good name k v : valid_label name → (k, Some v) ∈ chain_spec name → good_value v.
Proof. intros Hn H. each_entry H; cbn [good_value]; entry H. Qed.

Lemma root_spec_good db k v : wf_database db → (k, Some v) ∈ root_spec db → good_value v.
Proof.
  intros Hwf H. destruct (proj1 (Forall_app _ _ _) (wf_folders db Hwf)) as [Hf Hj].
  pose proof (wf_version db Hwf) as Hv.
  each_entry H; cbn [good_value]; try (injection H as <-).
  - rewrite Hv. done.
  - unfold unless in H. case_bool_decide; [done|]. injection H as <-.
    eapply Forall_impl; [exact Hf|]. apply valid_label_plain.
  - unfold unless in H. case_bool_decide; [done|]. injection H as <-.
    eapply Forall_impl; [exact Hj|]. apply valid_label_plain.
Qed.
End Good.

(** ** The whole document *)
Definition host_block (h : HostRecord) : block := (TableHost, spec_assigns (host_spec h)).
Definition db_blocks (db : HostDatabase) : list block :=
  (host_block <$> btree_values (db_hosts db)) ++ concat (chain_blocks <$> btree_values (db_chains db)).
Definition comment_line : str :=
  lit "# Kaduox-SSH host library. Secrets are intentionally not stored here.".
Definition db_items (db : HostDatabase) : list item :=
  ISkip comment_line :: assign_items (spec_assigns (root_spec db))
    ++ concat (block_items <$> db_blocks db).

Lemma concat_fmap_text {A} (f : A → str) (g : A → list item) l :
  (∀ a, f a = text_of (g a)) → concat (f <$> l) = text_of (concat (g <$> l)).
Proof.
  intros H. rewrite text_of_concat, <- list_fmap_compose. f_equal. by apply list_fmap_ext.
Qed.

Lemma concat_fmap_concat {A B} (f : A → list B) (ls : list (list A)) :
  concat (f <$> concat ls) = concat ((λ l, concat (f <$> l)) <$> ls).
Proof.
  induction ls as [|l ls IH]; [done|]. cbn. rewrite fmap_app, concat_app. f_equal. apply IH.
Qed.

Section Document.
Context {unicode : UnicodeTables}.

Lemma encode_text db : wf_database db → encode db = Ok (text_of (db_items db)).
Proof.
  intros Hwf. unfold encode. rewrite (proj2 (db_validate_ok db) Hwf). step_bind. f_equal.
  assert (concat (encode_host <$> btree_values (db_hosts db)) =
    text_of (concat (block_items <$> (host_block <$> btree_values (db_hosts db))))) as ->.
  { rewrite <- list_fmap_compose. apply concat_fmap_text, encode_host_text. }
  assert (concat (encode_chain <$> btree_values (db_chains db)) =
    text_of (concat (block_items <$> concat (chain_blocks <$> btree_values (db_chains db))))) as ->.
  { rewrite concat_fmap_concat, <- list_fmap_compose. apply concat_fmap_text, encode_chain_text. }
  unfold db_items, db_blocks. rewrite text_of_cons, text_of_app, fmap_app, concat_app, text_of_app.
  cbn [render]. unfold root_spec. spec_text. rewrite app_nil_r, write_integer_field, !write_strings_field.
  rewrite <- !app_assoc. unfold comment_line. fields_eq.
Qed.

Lemma elem_of_db_blocks db b :
  b ∈ db_blocks db →
  (∃ a h, db_hosts db !! a = Some h ∧ b = host_block h) ∨
  (∃ n c, db_chains db !! n = Some c ∧
     (b = (TableChain, spec_assigns (chain_spec (jc_name c))) ∨
      ∃ i hop, jc_hops c !! i = Some hop ∧ b = hop_block (jc_name c) i hop)).
Proof.
  unfold db_blocks. rewrite elem_of_app, elem_of_concat, list_elem_of_fmap.
  intros [(h & -> & [a Ha]%elem_of_btree_values)|(l & Hl & Hb)]; [left; eauto|right].
  apply list_elem_of_fmap in Hl as (c & -> & [n Hn]%elem_of_btree_values). exists n, c. split; [done|].
  unfold chain_blocks in Hb. apply elem_of_cons in Hb as [->|Hb]; [by left|right].
  apply elem_of_lookup_imap in Hb as (i & hop & -> & Hi). eauto.
Qed.

Lemma chain_hop db n c i hop :
  wf_database db → typed_database db → db_chains db !! n = Some c → jc_hops c !! i = Some hop →
  n = jc_name c ∧ wf_chain c ∧ wf_hop hop ∧ typed_jump hop ∧ 0 ≤ Z.of_nat i ≤ u64_max.
Proof.
  intros Hwf Hty Hn Hi. destruct (wf_chains db Hwf n c Hn) as [Heq Hc].
  pose proof (list_elem_of_lookup_2 _ _ _ Hi) as Hin.
  split_and!; [done|done| | |lia|].
  - pose proof (wf_chain_hops c Hc) as H. rewrite Forall_forall in H. by apply H.
  - pose proof (typed_hops db Hty n c Hn) as H. rewrite Forall_forall in H. by apply H.
  - apply lookup_lt_Some in Hi. pose proof (wf_chain_hops_max c Hc) as Hmax.
    unfold MAX_CHAIN_HOPS, u64_max in *. lia.
Qed.

Lemma db_items_good db :
  wf_database db → typed_database db → Forall good_item (db_items db).
Proof.
  intros Hwf Hty. unfold db_items. constructor.
  { split; [|done]. apply (bool_decide_unpack _). by vm_compute. }
  apply Forall_app. split.
  { apply shaped_spec; [apply root_spec_keys|]. intros k v Hin.
    eapply good_shaped, root_spec_good; [exact Hwf|exact Hin]. }
  apply Forall_forall. intros i (l & Hl & Hi)%elem_of_concat.
  apply list_elem_of_fmap in Hl as (b & -> & Hb). revert i Hi. rewrite <- Forall_forall.
  unfold block_items. constructor; [split; [apply not_elem_of_nil|done]|]. constructor; [done|].
  apply elem_of_db_blocks in Hb as [(a & h & Ha & ->)|(n & c & Hn & [->|(i & hop & Hi & ->)])];
    cbn [snd host_block hop_block]; (apply shaped_spec; [auto using host_spec_keys, hop_spec_keys, chain_spec_keys|]).
  - intros k v Hin. eapply host_spec_good; [by eapply typed_hosts| |exact Hin]. by eapply wf_hosts.
  - intros k v Hin. eapply good_shaped, chain_spec_good; [|exact Hin].
    by apply wf_chain_name, (wf_chains db Hwf n c).
  - destruct (chain_hop db n c i hop) as (-> & Hc & Hh & Ht & Hb); [done..|].
    intros k v Hin. eapply good_shaped, hop_spec_good; [..|exact Hin]; try done. by apply wf_chain_name.
Qed.

(** Every note of the library is plain text. *)
Definition plain_notes (db : HostDatabase) : Prop :=
  ∀ a h note, db_hosts db !! a = Some h → hr_note h = Some note → plain note.

Lemma db_blocks_good db :
  wf_database db → typed_database db → plain_notes db → Forall (λ b, good_assigns b.2) (db_blocks db).
Proof.
  intros Hwf Hty Hnotes. apply Forall_forall. intros b Hb.
  apply elem_of_db_blocks in Hb as [(a & h & Ha & ->)|(n & c & Hn & [->|(i & hop & Hi & ->)])];
    cbn [snd host_block hop_block]; apply good_spec;
    auto using host_spec_keys, hop_spec_keys, chain_spec_keys.
  - intros k v Hin. eapply host_spec_good; [by eapply typed_hosts| |exact Hin|].
    + by eapply wf_hosts.
    + intros note. by eapply Hnotes.
  - intros k v Hin. eapply chain_spec_good; [|exact Hin].
    by apply wf_chain_name, (wf_chains db Hwf n c).
  - destruct (chain_hop db n c i hop) as (-> & Hc & Hh & Ht & Hb); [done..|].
    intros k v Hin. eapply hop_spec_good; [..|exact Hin]; try done. by apply wf_chain_name.
Qed.

Lemma parse_encoded db :
  wf_database db → typed_database db → plain_notes db →
  parse_document (text_of (db_items db)) =
  Ok (list_to_map (spec_assigns (root_spec db)), block_table <$> db_blocks db).
Proof.
  intros Hwf Hty Hnotes. rewrite parse_document_items by by apply db_items_good.
  unfold db_items. cbn [try_fold apply_item]. step_bind.
  rewrite try_fold_app, apply_assigns_root.
  - step_bind. destruct (apply_blocks (db_blocks db)
      (mk_doc (list_to_map (spec_assigns (root_spec db)) ∪ ∅) [] None)) as (st' & -> & Hr & Hf).
    { by apply db_blocks_good. }
    step_bind. rewrite Hr, Hf. cbn. by rewrite (right_id_L ∅ (∪)).
  - apply good_spec; [apply root_spec_nodup|apply root_spec_keys|].
    intros k v Hin. by eapply root_spec_good.
  - intros. apply lookup_empty.
Qed.

(** A note with a control character other than line feed, carriage return or
    tab makes the saved text unreadable. *)
Lemma parse_encoded_fails db a h note :
  wf_database db → typed_database db → db_hosts db !! a = Some h → hr_note h = Some note →
  ¬ plain note → is_ok (parse_document (text_of (db_items db))) = false.
Proof.
  intros Hwf Hty Ha Hn Hbad. rewrite parse_document_items by by apply db_items_good.
  assert (is_ok (try_fold apply_item (mk_doc ∅ [] None) (db_items db)) = false) as Hfail.
  { apply (try_fold_fails _ _ _ (IAssign (lit "note") (ValString note))).
    - unfold db_items. right. apply elem_of_app. right. apply elem_of_concat.
      exists (block_items (host_block h)). split.
      + apply list_elem_of_fmap_2. unfold db_blocks. apply elem_of_app. left.
        apply list_elem_of_fmap_2, elem_of_btree_values. eauto.
      + unfold block_items. do 2 right. unfold assign_items.
        apply (list_elem_of_fmap_2 (λ '(k, v), IAssign k v) _ (lit "note", ValString note)).
        apply elem_of_spec_assigns.
        assert (ValString <$> hr_note h = Some (ValString note)) as <- by by rewrite Hn.
        do 8 right. left.
    - intros acc. cbn [apply_item parse_value render_value]. unfold parse_value.
      rewrite starts_with_one, (bool_decide_eq_true_2 (head (quoted note) = Some dquote)),
        parse_string_quoted by done.
      assert (forallb plain_char note = false) as ->; [|done].
      apply not_true_iff_false. by rewrite <- plain_spec. }
  by destruct (try_fold apply_item _ _).
Qed.
End Document.
