(* ===== verification/HostRoundTrip.v ===== *)
(** * Saving and reopening the host library

    The tables of an encoded database decode to the database: the round trip of
    [HostCodec], and of the store's [save] and [open]. *)

From stdpp Require Import base list gmap strings numbers sorting.
From Stdlib Require Import Lia.
From S2P Require Import Prelude RustStr StrFacts HostModel HostCodec HostCodecProof.

(** ** Hops are numbered in order *)
Definition number (n : Z) (hops : list JumpHop) : list (Z * JumpHop) :=
  imap (λ i hop, (n + Z.of_nat i, hop)) hops.

Lemma number_cons n hop hops : number n (hop :: hops) = (n, hop) :: number (n + 1) hops.
Proof.
  unfold number. rewrite imap_cons. f_equal; [f_equal; lia|].
  apply imap_ext. intros i h _. cbn. f_equal. lia.
Qed.

Lemma number_ge n hops p : p ∈ number n hops → n ≤ p.1.
Proof. unfold number. intros (i & h & -> & _)%elem_of_lookup_imap. cbn. lia. Qed.

Lemma number_sorted n hops : StronglySorted index_le (number n hops).
Proof.
  revert n. induction hops as [|h hops IH]; intros n; [constructor|].
  rewrite number_cons. constructor; [apply IH|]. apply Forall_forall.
  intros p Hp%number_ge. unfold index_le. cbn. lia.
Qed.

Lemma number_inj n hops p q : p ∈ number n hops → q ∈ number n hops → p.1 = q.1 → p = q.
Proof.
  unfold number. intros (i & h & -> & Hi)%elem_of_lookup_imap (j & k & -> & Hj)%elem_of_lookup_imap.
  cbn. intros H. assert (i = j) as <- by lia. congruence.
Qed.

#[export] Instance index_le_total : Total index_le.
Proof. intros p q. unfold index_le. lia. Qed.
#[export] Instance index_le_trans : Transitive index_le.
Proof. intros p q r. unfold index_le. lia. Qed.

Lemma sort_number hops : merge_sort index_le (number 0 hops) = number 0 hops.
Proof.
  apply (StronglySorted_unique_strong index_le).
  - intros p q Hp Hq ? ?. rewrite merge_sort_Permutation in Hp.
    apply (number_inj 0 hops); [done..|]. unfold index_le in *. lia.
  - apply (StronglySorted_merge_sort _).
  - apply number_sorted.
  - apply merge_sort_Permutation.
Qed.

Lemma contiguous_number n hops : contiguous_hops n (number n hops) = Ok hops.
Proof.
  revert n. induction hops as [|h hops IH]; intros n; [done|].
  rewrite number_cons. cbn [contiguous_hops]. rewrite Z.eqb_refl. cbn [negb bail_if]. step_bind.
  by rewrite IH.
Qed.

(** ** Attaching the hops to their chains *)
Lemma attach_one chains n hops :
  chains !! n = Some (mk_chain n []) →
  attach_hops chains (n, number 0 hops) = Ok (<[ n := mk_chain n hops ]> chains).
Proof. intros H. unfold attach_hops. rewrite H, sort_number. cbn. by rewrite contiguous_number. Qed.

Lemma attach_all (F : str → list JumpHop) es chains :
  NoDup es.*1 →
  (∀ n l, (n, l) ∈ es → l = number 0 (F n) ∧ chains !! n = Some (mk_chain n [])) →
  try_fold attach_hops chains es =
  Ok (list_to_map ((λ e, (e.1, mk_chain e.1 (F e.1))) <$> es) ∪ chains).
Proof.
  revert chains. induction es as [|[n l] es IH]; intros chains.
  - intros _ _. csimpl. by rewrite (left_id_L ∅ (∪)).
  - intros [Hn Hnd]%NoDup_cons H. destruct (H n l) as [-> Hc]; [left|].
    cbn [try_fold]. rewrite attach_one by done. step_bind. rewrite IH; [|done|].
    + f_equal. csimpl. rewrite <- insert_union_l, insert_union_r; [done|].
      apply not_elem_of_list_to_map_1. rewrite <- list_fmap_compose. exact Hn.
    + intros n' l' Hin. destruct (H n' l') as [-> Hc']; [by right|]. split; [done|].
      rewrite lookup_insert_ne; [done|]. intros <-. apply Hn.
      by apply (list_elem_of_fmap_2 fst _ (n, number 0 (F n))).
Qed.

Section Decode.
Context {unicode : UnicodeTables}.

(** ** The tables of the hosts *)
Lemma decode_host_table acc h :
  wf_host h → typed_host h → text_path (hr_identity_file h) →
  db_hosts (acc_db acc) !! hr_alias h = None →
  decode_table acc (block_table (host_block h)) =
  Ok (mk_acc (set_hosts (acc_db acc) (<[ hr_alias h := h ]> (db_hosts (acc_db acc))))
        (acc_hops acc) (acc_seen acc)).
Proof.
  intros Hwf Hty Hpath Hfresh. unfold decode_table. cbn [block_table host_block table_kind table_values fst snd].
  pose proof (typed_port h Hty). pose proof (wf_host_port h Hwf).
  destruct (host_fields_spec h) as [values ->]; [unfold is_u16 in *; lia|]. step_bind.
  rewrite set_path_id, (proj2 (host_validate_ok h)) by done. step_bind.
  rewrite bool_decide_eq_true_2 by done. done.
Qed.

Lemma decode_hosts acc hs :
  Forall (λ h, wf_host h ∧ typed_host h ∧ text_path (hr_identity_file h)) hs →
  NoDup (hr_alias <$> hs) → (∀ h, h ∈ hs → db_hosts (acc_db acc) !! hr_alias h = None) →
  try_fold decode_table acc (block_table <$> (host_block <$> hs)) =
  Ok (mk_acc (set_hosts (acc_db acc) (foldl (λ m h, <[ hr_alias h := h ]> m) (db_hosts (acc_db acc)) hs))
        (acc_hops acc) (acc_seen acc)).
Proof.
  intros Hall. revert acc. induction Hall as [|h hs (Hwf & Hty & Hpath) _ IH]; intros acc Hnd Hfresh.
  - destruct acc as [[]]. done.
  - csimpl. apply NoDup_cons in Hnd as [Hh Hnd]. rewrite decode_host_table; [|done..|apply Hfresh; left].
    step_bind. rewrite IH; [done|done|].
    intros h' Hin. cbn. rewrite lookup_insert_ne; [apply Hfresh; by right|].
    intros Heq. apply Hh. rewrite Heq. by apply list_elem_of_fmap_2.
Qed.

(** ** The tables of the chains *)
Lemma decode_hop_table acc name i hop :
  wf_hop hop → typed_jump hop → text_hop hop → Z.of_nat i ≤ usize_max →
  decode_table acc (block_table (hop_block name i hop)) =
  Ok (mk_acc (acc_db acc)
        (<[ name := default [] (acc_hops acc !! name) ++ [(Z.of_nat i, hop)] ]> (acc_hops acc))
        (acc_seen acc)).
Proof.
  intros Hwf Hty Htext Hi. unfold decode_table. cbn [block_table hop_block table_kind table_values fst snd].
  destruct (hop_fields_spec name (Z.of_nat i) hop) as [values ->]; [lia| |].
  { destruct hop as [| |j]; [done..|]. cbn in *. destruct Hwf as [_ _ Hp _ _]. unfold is_u16 in *. lia. }
  step_bind. rewrite lossy_hop_id, (proj2 (hop_validate_ok hop)) by done. done.
Qed.

Definition ready_hop (hop : JumpHop) : Prop := wf_hop hop ∧ typed_jump hop ∧ text_hop hop.

Lemma decode_hops acc name i hops :
  Forall ready_hop hops → Z.of_nat (i + length hops) ≤ usize_max →
  try_fold decode_table acc (block_table <$> imap (λ j, hop_block name (i + j)) hops) =
  Ok (mk_acc (acc_db acc)
        (match hops with
         | [] => acc_hops acc
         | _ => <[ name := default [] (acc_hops acc !! name) ++ number (Z.of_nat i) hops ]> (acc_hops acc)
         end) (acc_seen acc)).
Proof.
  intros Hall. revert acc i. induction Hall as [|hop hops (Hwf & Hty & Htext) _ IH]; intros acc i Hi.
  - by destruct acc.
  - rewrite imap_cons, fmap_cons. cbn [try_fold length] in *. rewrite Nat.add_0_r.
    rewrite decode_hop_table; [|done..|lia]. step_bind.
    rewrite (imap_ext _ (λ j, hop_block name (S i + j))).
    2: { intros j h _. cbn. f_equal. lia. }
    rewrite IH by lia. cbn [acc_db acc_hops acc_seen]. do 2 f_equal.
    rewrite number_cons. replace (Z.of_nat i + 1) with (Z.of_nat (S i)) by lia.
    destruct hops as [|h hops]; [done|].
    rewrite lookup_insert_eq, insert_insert_eq. cbn [from_option id]. by rewrite <- app_assoc.
Qed.

Definition ready_chain (c : JumpChain) : Prop := wf_chain c ∧ Forall ready_hop (jc_hops c).

Lemma decode_chain_table acc name :
  name ∉ acc_seen acc →
  decode_table acc (block_table (TableChain, spec_assigns (chain_spec name))) =
  Ok (mk_acc (set_chains (acc_db acc) (<[ name := mk_chain name [] ]> (db_chains (acc_db acc))))
        (acc_hops acc) ({[ name ]} ∪ acc_seen acc)).
Proof.
  intros Hseen. unfold decode_table. cbn [block_table table_kind table_values fst snd].
  destruct (chain_fields_spec name) as [values ->]. step_bind.
  rewrite bool_decide_eq_false_2 by done. done.
Qed.

Lemma decode_chain acc c :
  ready_chain c → jc_name c ∉ acc_seen acc → acc_hops acc !! jc_name c = None →
  try_fold decode_table acc (block_table <$> chain_blocks c) =
  Ok (mk_acc (set_chains (acc_db acc)
                (<[ jc_name c := mk_chain (jc_name c) [] ]> (db_chains (acc_db acc))))
        (<[ jc_name c := number 0 (jc_hops c) ]> (acc_hops acc)) ({[ jc_name c ]} ∪ acc_seen acc)).
Proof.
  intros [Hwf Hready] Hseen Hhops. unfold chain_blocks. rewrite fmap_cons. cbn [try_fold].
  rewrite decode_chain_table by done. step_bind.
  pose proof (wf_chain_hops_max c Hwf) as Hmax. unfold MAX_CHAIN_HOPS in Hmax.
  pose proof (decode_hops (mk_acc (set_chains (acc_db acc)
                (<[ jc_name c := mk_chain (jc_name c) [] ]> (db_chains (acc_db acc)))) (acc_hops acc)
                ({[ jc_name c ]} ∪ acc_seen acc)) (jc_name c) 0 (jc_hops c) Hready) as H.
  etrans; [apply H; unfold usize_max, u64_max; lia|]. cbn [acc_db acc_hops acc_seen].
  rewrite Hhops. pose proof (wf_chain_nonempty c Hwf). by destruct (jc_hops c).
Qed.

Lemma decode_chains acc cs :
  Forall ready_chain cs → NoDup (jc_name <$> cs) →
  (∀ c, c ∈ cs → jc_name c ∉ acc_seen acc ∧ acc_hops acc !! jc_name c = None) →
  ∃ seen, try_fold decode_table acc (block_table <$> concat (chain_blocks <$> cs)) =
  Ok (mk_acc (set_chains (acc_db acc)
        (foldl (λ m c, <[ jc_name c := mk_chain (jc_name c) [] ]> m) (db_chains (acc_db acc)) cs))
        (foldl (λ m c, <[ jc_name c := number 0 (jc_hops c) ]> m) (acc_hops acc) cs) seen).
Proof.
  intros Hall. revert acc. induction Hall as [|c cs Hc _ IH]; intros acc Hnd Hfresh.
  - exists (acc_seen acc). by destruct acc as [[]].
  - rewrite fmap_cons. cbn [concat]. rewrite fmap_app. apply NoDup_cons in Hnd as [Hn Hnd].
    destruct (Hfresh c) as [Hseen Hhops]; [left|].
    destruct (IH (mk_acc (set_chains (acc_db acc)
                (<[ jc_name c := mk_chain (jc_name c) [] ]> (db_chains (acc_db acc))))
        (<[ jc_name c := number 0 (jc_hops c) ]> (acc_hops acc)) ({[ jc_name c ]} ∪ acc_seen acc)))
      as [seen Hseen']; [done| |].
    + intros c' Hin. destruct (Hfresh c') as [? ?]; [by right|].
      assert (jc_name c' ≠ jc_name c) as Hne.
      { intros Heq. apply Hn. rewrite <- Heq. by apply list_elem_of_fmap_2. }
      cbn [acc_seen acc_hops]. rewrite lookup_insert_ne by congruence. set_solver.
    + exists seen. rewrite try_fold_app, decode_chain by done. step_bind. rewrite Hseen'. done.
Qed.

(** ** The whole database *)
Lemma decode_blocks db :
  wf_database db → typed_database db → text_paths db →
  ∃ seen, try_fold decode_table
    (mk_acc (mk_db (db_folders db) (db_jump_folders db) DATABASE_VERSION ∅ ∅) ∅ ∅)
    (block_table <$> db_blocks db) =
  Ok (mk_acc (mk_db (db_folders db) (db_jump_folders db) DATABASE_VERSION (db_hosts db)
                ((λ c, mk_chain (jc_name c) []) <$> db_chains db))
        ((λ c, number 0 (jc_hops c)) <$> db_chains db) seen).
Proof.
  intros Hwf Hty Htext. unfold db_blocks. rewrite fmap_app, try_fold_app.
  assert (Hkeys : ∀ a h, db_hosts db !! a = Some h → a = hr_alias h).
  { intros a h Ha. by destruct (wf_hosts db Hwf a h Ha). }
  assert (Hnames : ∀ n c, db_chains db !! n = Some c → n = jc_name c).
  { intros n c Hn. by destruct (wf_chains db Hwf n c Hn). }
  rewrite decode_hosts.
  - step_bind. cbn [acc_db acc_hops acc_seen db_hosts].
    pose proof (refill_btree hr_alias (λ h, h) (db_hosts db) Hkeys) as Hh. cbn beta in Hh.
    rewrite Hh, map_fmap_id. 
    edestruct decode_chains as [seen Hseen].
    4: { exists seen. rewrite Hseen. cbn [acc_db acc_hops db_chains set_hosts].
         rewrite (refill_btree jc_name (λ c, mk_chain (jc_name c) []) (db_chains db)) by done.
         rewrite (refill_btree jc_name (λ c, number 0 (jc_hops c)) (db_chains db)) by done. done. }
    + apply Forall_btree_values. intros n c Hn. split; [by apply (wf_chains db Hwf n c)|].
      apply Forall_forall. intros hop Hin. apply list_elem_of_lookup_1 in Hin as [i Hi].
      destruct (chain_hop db n c i hop) as (_ & _ & ? & ? & _); [done..|]. split_and!; [done..|].
      pose proof (text_hops db Htext n c Hn) as Hall. rewrite Forall_lookup in Hall. by eapply Hall.
    + by apply NoDup_btree_values_key.
    + cbn. intros c _. split; [set_solver|apply lookup_empty].
  - apply Forall_btree_values. intros a h Ha. split_and!.
    + by apply (wf_hosts db Hwf a h).
    + by eapply typed_hosts.
    + by eapply text_hosts.
  - by apply NoDup_btree_values_key.
  - intros h _. apply lookup_empty.
Qed.

Lemma refilled_chains db :
  wf_database db →
  list_to_map ((λ e : str * list (Z * JumpHop),
     (e.1, mk_chain e.1 (default [] (jc_hops <$> (db_chains db !! e.1))))) <$>
       btree_entries ((λ c, number 0 (jc_hops c)) <$> db_chains db))
    ∪ ((λ c, mk_chain (jc_name c) []) <$> db_chains db) = db_chains db.
Proof.
  intros Hwf. apply map_eq. intros n. destruct (db_chains db !! n) as [c|] eqn:Hn.
  - apply lookup_union_Some_l, elem_of_list_to_map_1.
    + rewrite <- list_fmap_compose. apply NoDup_btree_keys.
    + destruct (wf_chains db Hwf n c Hn) as [Heq _]. apply list_elem_of_fmap.
      exists (n, number 0 (jc_hops c)). split.
      * cbn. rewrite Hn. cbn. rewrite Heq. by destruct c.
      * apply elem_of_btree_entries. by rewrite lookup_fmap, Hn.
  - apply lookup_union_None. split; [|by rewrite lookup_fmap, Hn].
    apply not_elem_of_list_to_map_1. rewrite <- list_fmap_compose.
    intros ([n' l] & -> & Hin)%list_elem_of_fmap. apply elem_of_btree_entries in Hin.
    rewrite lookup_fmap in Hin. cbn in Hn. by rewrite Hn in Hin.
Qed.

Lemma decode_text db :
  wf_database db → typed_database db → text_paths db → plain_notes db →
  str_len (text_of (db_items db)) ≤ MAX_INPUT →
  decode (text_of (db_items db)) = Ok db.
Proof.
  intros Hwf Hty Htext Hnotes Hlen. unfold decode.
  rewrite (proj2 (Z.ltb_ge MAX_INPUT _)) by done. cbn [bail_if]. step_bind.
  rewrite parse_encoded by done. step_bind.
  destruct (root_fields_spec db) as [values ->]; [by apply wf_version|]. step_bind.
  destruct (decode_blocks db Hwf Hty Htext) as [seen ->]. step_bind. cbn [acc_db acc_hops db_chains].
  rewrite (attach_all (λ n, default [] (jc_hops <$> (db_chains db !! n)))).
  - step_bind. cbn zeta. rewrite refilled_chains by done.
    replace (set_chains _ (db_chains db)) with db.
    + by rewrite (proj2 (db_validate_ok db) Hwf).
    + pose proof (wf_version db Hwf) as Hv. destruct db. cbn in *. by subst.
  - apply NoDup_btree_keys.
  - intros n l Hin%elem_of_btree_entries. rewrite lookup_fmap in Hin.
    apply fmap_Some in Hin as (c & Hn & ->). rewrite lookup_fmap, Hn. cbn. split; [done|].
    by destruct (wf_chains db Hwf n c Hn) as [-> _].
Qed.

(** C40: a library that is saved can be loaded back exactly when no note contains
    a control character other than line feed, carriage return and tab: then the
    file decodes to the very database it was written from, and otherwise it does
    not decode at all, although the validators accepted the note and the writer
    wrote it. *)
Theorem saved_library_reloads db :
  wf_database db → typed_database db → text_paths db →
  ∃ text, encode db = Ok text ∧
    (str_len text ≤ MAX_INPUT →
      (plain_notes db → decode text = Ok db) ∧
      (¬ plain_notes db → is_ok (decode text) = false)).
Proof.
  intros Hwf Hty Htext. exists (text_of (db_items db)). split; [by apply encode_text|].
  intros Hlen. split; [by intros; apply decode_text|].
  intros Hnotes. unfold decode. rewrite (proj2 (Z.ltb_ge MAX_INPUT _)) by done. cbn [bail_if]. step_bind.
  cut (is_ok (parse_document (text_of (db_items db))) = false).
  { by destruct (parse_document _) as [[]|]. }
  destruct (decide (map_Forall (λ _ h, plain (default [] (hr_note h))) (db_hosts db))) as [Hall|Hex].
  - exfalso. apply Hnotes. intros a h note Ha Hn. specialize (Hall a h Ha). cbn in Hall.
    by rewrite Hn in Hall.
  - apply map_not_Forall in Hex as (a & h & Ha & Hbad); [|apply _].
    destruct (hr_note h) as [note|] eqn:Hn; [by eapply parse_encoded_fails|].
    exfalso. apply Hbad. constructor.
Qed.

(** Whatever text [decode] accepts, the database it returns is valid. *)
Lemma decode_valid text db : decode text = Ok db → wf_database db.
Proof.
  unfold decode. intros (_ & _ & H)%bind_ok. apply bind_ok in H as ([root tables] & _ & H).
  apply bind_ok in H as ([[fs js] values] & _ & H). apply bind_ok in H as (acc & _ & H).
  apply bind_ok in H as (chains & _ & H). apply bind_ok in H as ([] & Hv & H).
  apply Ok_inj in H as <-. by apply db_validate_ok.
Qed.
End Decode.
