(* ===== verification/HostStore.v ===== *)
(** * The host store ([crates/kaduox-ssh-hosts/src/store.rs])

    The mutable store around a [HostDatabase]: folders, hosts, chains and
    connection statistics.  An operation takes the store and returns its result
    with the store it leaves, also when it fails, so that rollbacks are visible.
    [open_store] takes what the file system says of the path, [save_store]
    returns the bytes that are published; the staging file, the rename and the
    directory permissions of [atomic_write_private] are not modelled. *)

From stdpp Require Import base list gmap strings numbers sorting.
From Stdlib Require Import Lia.
From S2P Require Import Prelude RustStr StrFacts HostModel HostCodec HostCodecProof HostRoundTrip.

Record HostStore := mk_store { store_path : list Z; store_db : HostDatabase }.

(** The result of an operation and the store it leaves. *)
Definition store_op (A : Type) : Type := HostStore → result A * HostStore.

Definition set_db (s : HostStore) (db : HostDatabase) : HostStore := mk_store (store_path s) db.
Definition set_groups (h : HostRecord) (groups : list str) : HostRecord :=
  mk_host (hr_alias h) (hr_role h) (hr_address h) (hr_port h) (hr_user h) (hr_identity_file h)
    groups (hr_tags h) (hr_note h) (hr_host_key_policy h) (hr_jump_chain h) (hr_os_type h)
    (hr_stats h).
Definition set_stats (h : HostRecord) (stats : HostStats) : HostRecord :=
  mk_host (hr_alias h) (hr_role h) (hr_address h) (hr_port h) (hr_user h) (hr_identity_file h)
    (hr_groups h) (hr_tags h) (hr_note h) (hr_host_key_policy h) (hr_jump_chain h) (hr_os_type h)
    stats.

(** ** Reading *)

(** The folders named explicitly or by a host's groups. *)
Definition all_folder_names (db : HostDatabase) : list str :=
  db_folders db ++ db_jump_folders db ++ concat (hr_groups <$> btree_values (db_hosts db)).

(** [collect::<BTreeSet<_>>().into_iter().collect()] *)
Definition sorted_set (l : list str) : list str :=
  merge_sort str_le (elements (list_to_set l : gset str)).

Definition folders (s : HostStore) : list str := sorted_set (all_folder_names (store_db s)).

Inductive Area := AreaTarget | AreaJump.

(** The loop over the hosts' groups: a name not yet seen is a target folder. *)
Fixpoint push_unseen (seen : gset str) (names : list str) (entries : list (str * Area))
    : list (str * Area) :=
  match names with
  | [] => entries
  | name :: names =>
      if bool_decide (name ∈ seen) then push_unseen seen names entries
      else push_unseen ({[ name ]} ∪ seen) names (entries ++ [(name, AreaTarget)])
  end.

Definition folder_entries (s : HostStore) : list (str * Area) :=
  let db := store_db s in
  let entries := ((λ name, (name, AreaTarget)) <$> db_folders db)
                 ++ ((λ name, (name, AreaJump)) <$> db_jump_folders db) in
  let seen := list_to_set (db_folders db ++ db_jump_folders db) in
  merge_sort entry_le
    (push_unseen seen (concat (hr_groups <$> btree_values (db_hosts db))) entries).

Definition folder_role (s : HostStore) (name : str) : Area :=
  if existsb (λ folder, bool_decide (folder = name)) (db_jump_folders (store_db s))
  then AreaJump else AreaTarget.

Definition store_host (s : HostStore) (alias : str) : option HostRecord :=
  db_hosts (store_db s) !! alias.
Definition store_chain (s : HostStore) (name : str) : option JumpChain :=
  db_chains (store_db s) !! name.

(** [hosts_recent_first]: the sort key is (most recent first, most used first,
    alias). *)
Definition recency_le (h k : HostRecord) : Prop :=
  let t h := default 0 (last_connected_unix (hr_stats h)) in
  let n h := connection_count (hr_stats h) in
  t k < t h ∨ (t h = t k ∧ (n k < n h ∨ (n h = n k ∧ str_le (hr_alias h) (hr_alias k)))).
#[export] Instance recency_le_dec : RelDecision recency_le.
Proof. intros h k. unfold recency_le. apply _. Defined.
Definition hosts_recent_first (s : HostStore) : list HostRecord :=
  merge_sort recency_le (btree_values (db_hosts (store_db s))).

(** A chain has a hop that reuses the host [alias]. *)
Definition chain_uses_host (alias : str) (c : JumpChain) : bool :=
  existsb (λ hop, match hop with HopHost value => bool_decide (value = alias) | _ => false end)
    (jc_hops c).

Section Store.
Context {unicode : UnicodeTables}.

(** ** Folders *)
Definition rename_group (old name : str) (h : HostRecord) : HostRecord :=
  set_groups h ((λ folder, if bool_decide (folder = old) then name else folder) <$> hr_groups h).

(** [list.retain(|folder| folder != name)] *)
Definition retain_ne (name : str) (l : list str) : list str := filter (λ folder, folder ≠ name) l.

Definition save_folder (name : str) (original_name : option str) (role : str) : store_op unit :=
  λ s,
  match validate_label name with Err e => (Err e, s) | Ok _ =>
  if negb (bool_decide (role = lit "target") || bool_decide (role = lit "jump"))
  then (Err "folder area must be target or jump", s) else
  let db := store_db s in
  let all := folders s in
  let explicit value := existsb (λ f, bool_decide (f = value)) (db_folders db)
                        || existsb (λ f, bool_decide (f = value)) (db_jump_folders db) in
  if match original_name with
     | Some old => negb (existsb (λ folder, bool_decide (folder = old)) all)
     | None => false
     end
  then (Err "original folder does not exist", s) else
  let duplicate :=
    match original_name with
    | Some _ => negb (bool_decide (original_name = Some name))
                && existsb (λ folder, bool_decide (folder = name)) all
    | None => explicit name
    end in
  if duplicate then (Err "folder already exists", s) else
  let hosts :=
    match original_name with
    | Some old => if bool_decide (old = name) then db_hosts db
                  else rename_group old name <$> db_hosts db
    | None => db_hosts db
    end in
  let fs := retain_ne name (db_folders db) in
  let js := retain_ne name (db_jump_folders db) in
  let fs := match original_name with
            | Some old => if bool_decide (old = name) then fs else retain_ne old fs
            | None => fs
            end in
  let js := match original_name with
            | Some old => if bool_decide (old = name) then js else retain_ne old js
            | None => js
            end in
  let updated :=
    if bool_decide (role = lit "jump")
    then mk_db fs (js ++ [name]) (db_version db) hosts (db_chains db)
    else mk_db (fs ++ [name]) js (db_version db) hosts (db_chains db) in
  match db_validate updated with
  | Err e => (Err e, s)
  | Ok _ => (Ok tt, set_db s updated)
  end end.

(** The aliases of the hosts whose first group is [name], in iteration order. *)
Definition hosts_in_folder (name : str) (db : HostDatabase) : list str :=
  hr_alias <$> filter (λ h, head (hr_groups h) = Some name) (btree_values (db_hosts db)).

Definition remove_folder (name : str) : store_op (list str) := λ s,
  let db := store_db s in
  if negb (existsb (λ folder, bool_decide (folder = name)) (folders s))
  then (Err "folder does not exist", s) else
  let aliases := hosts_in_folder name db in
  if existsb (λ alias, existsb (chain_uses_host alias) (btree_values (db_chains db))) aliases
  then (Err "a host of the folder is used by a jump chain", s) else
  let updated :=
    mk_db (retain_ne name (db_folders db)) (retain_ne name (db_jump_folders db)) (db_version db)
      (foldl (λ hosts alias, delete alias hosts) (db_hosts db) aliases) (db_chains db) in
  match db_validate updated with
  | Err e => (Err e, s)
  | Ok _ => (Ok aliases, set_db s updated)
  end.

(** ** Hosts *)

(** Put back the previous binding of [key]. *)
Definition restore {A} (key : str) (previous : option A) (m : gmap str A) : gmap str A :=
  match previous with Some old => <[ key := old ]> m | None => delete key m end.

Definition upsert_host (host : HostRecord) : store_op (option HostRecord) := λ s,
  match host_validate host with Err e => (Err e, s) | Ok _ =>
  let db := store_db s in
  if match hr_jump_chain host with
     | Some chain => bool_decide (db_chains db !! chain = None)
     | None => false
     end
  then (Err "host references missing jump chain", s) else
  let alias := hr_alias host in
  let previous := db_hosts db !! alias in
  let db := set_hosts db (<[ alias := host ]> (db_hosts db)) in
  match db_validate db with
  | Err e => (Err e, set_db s (set_hosts db (restore alias previous (db_hosts db))))
  | Ok _ => (Ok previous, set_db s db)
  end end.

Definition insert_host (host : HostRecord) : store_op unit := λ s,
  let db := store_db s in
  let alias := hr_alias host in
  if negb (bool_decide (db_hosts db !! alias = None)) then (Err "host alias already exists", s) else
  match host_validate host with Err e => (Err e, s) | Ok _ =>
  let db := set_hosts db (<[ alias := host ]> (db_hosts db)) in
  match db_validate db with
  | Err e => (Err e, set_db s (set_hosts db (delete alias (db_hosts db))))
  | Ok _ => (Ok tt, set_db s db)
  end end.

Definition remove_host (alias : str) : store_op HostRecord := λ s,
  let db := store_db s in
  if existsb (chain_uses_host alias) (btree_values (db_chains db))
  then (Err "cannot remove host: a jump chain references it", s) else
  match db_hosts db !! alias with
  | None => (Err "host alias does not exist", s)
  | Some host => (Ok host, set_db s (set_hosts db (delete alias (db_hosts db))))
  end.

(** ** Chains *)
Definition upsert_chain (chain : JumpChain) : store_op (option JumpChain) := λ s,
  match chain_validate chain with Err e => (Err e, s) | Ok _ =>
  let db := store_db s in
  let name := jc_name chain in
  let previous := db_chains db !! name in
  let db := set_chains db (<[ name := chain ]> (db_chains db)) in
  match db_validate db with
  | Err e => (Err e, set_db s (set_chains db (restore name previous (db_chains db))))
  | Ok _ => (Ok previous, set_db s db)
  end end.

Definition insert_chain (chain : JumpChain) : store_op unit := λ s,
  let db := store_db s in
  let name := jc_name chain in
  if negb (bool_decide (db_chains db !! name = None)) then (Err "jump chain already exists", s) else
  let db := set_chains db (<[ name := chain ]> (db_chains db)) in
  match db_validate db with
  | Err e => (Err e, set_db s (set_chains db (delete name (db_chains db))))
  | Ok _ => (Ok tt, set_db s db)
  end.

Definition remove_chain (name : str) : store_op JumpChain := λ s,
  let db := store_db s in
  if existsb (λ host, bool_decide (hr_jump_chain host = Some name)) (btree_values (db_hosts db))
  then (Err "cannot remove jump chain: a host is bound to it", s) else
  match db_chains db !! name with
  | None => (Err "jump chain does not exist", s)
  | Some chain => (Ok chain, set_db s (set_chains db (delete name (db_chains db))))
  end.

(** ** Statistics

    [now] is the outcome of reading the clock.  The counter is incremented in
    place before the clock is read. *)
Definition record_success (now : result Z) (alias : str) (method : StoredAuthMethod)
    : store_op unit := λ s,
  let db := store_db s in
  match db_hosts db !! alias with
  | None => (Err "cannot update statistics for unknown host", s)
  | Some host =>
      match checked_add u64_max (connection_count (hr_stats host)) 1 with
      | None => (Err "host connection counter overflow", s)
      | Some count =>
          let put stats := set_db s (set_hosts db (<[ alias := set_stats host stats ]> (db_hosts db))) in
          match now with
          | Err e => (Err e, put (mk_stats (last_connected_unix (hr_stats host)) count
                                    (last_auth_method (hr_stats host))))
          | Ok now => (Ok tt, put (mk_stats (Some now) count (Some method)))
          end
      end
  end.

(** ** Opening and saving *)
Definition MAX_STORE_BYTES : Z := 4 * 1024 * 1024.

(** What [symlink_metadata] and the file tell of an existing path. *)
Record file_entry := mk_file {
  file_is_symlink : bool;
  file_is_regular : bool;
  file_mode : Z;
  file_bytes : list Z;
}.

(** [validate_private_file] on Unix: no permission for group and others. *)
Definition validate_private_file (f : file_entry) : result unit :=
  bail_if (negb (Z.land (Z.land (file_mode f) 511) 63 =? 0)) "host database has unsafe mode".

(** [entry] is the outcome of [symlink_metadata]: [Ok None] for a path that does
    not exist. *)
Definition open_store (path : list Z) (entry : result (option file_entry)) : result HostStore :=
  entry ← entry;
  match entry with
  | None => Ok (mk_store path default_db)
  | Some f =>
      bail_if (file_is_symlink f) "host database must not be a symlink" ≫= λ _,
      validate_private_file f ≫= λ _,
      bail_if (negb (file_is_regular f)) "host database is not a regular file" ≫= λ _,
      bail_if (MAX_STORE_BYTES <? zlen (file_bytes f)) "host database is too large" ≫= λ _,
      input ← with_context (from_utf8 (file_bytes f)) "failed to read UTF-8 host database";
      db ← decode input;
      Ok (mk_store path db)
  end.

(** The bytes [save] hands to [atomic_write_private]. *)
Definition save_store (s : HostStore) : result (list Z) :=
  db_validate (store_db s) ≫= λ _,
  encoded ← encode (store_db s);
  bail_if (MAX_STORE_BYTES <? str_len encoded) "encoded host database is too large" ≫= λ _,
  Ok (utf8 encoded).

(** ** The operations as one type *)
Inductive operation :=
| OpSaveFolder (name : str) (original_name : option str) (role : str)
| OpRemoveFolder (name : str)
| OpUpsertHost (host : HostRecord)
| OpInsertHost (host : HostRecord)
| OpRemoveHost (alias : str)
| OpUpsertChain (chain : JumpChain)
| OpInsertChain (chain : JumpChain)
| OpRemoveChain (name : str)
| OpRecordSuccess (now : result Z) (alias : str) (method : StoredAuthMethod).

(** Whether the operation succeeds, and the store it leaves. *)
Definition run (op : operation) (s : HostStore) : bool * HostStore :=
  let drop {A} (r : result A * HostStore) := (is_ok r.1, r.2) in
  match op with
  | OpSaveFolder name original role => drop (save_folder name original role s)
  | OpRemoveFolder name => drop (remove_folder name s)
  | OpUpsertHost host => drop (upsert_host host s)
  | OpInsertHost host => drop (insert_host host s)
  | OpRemoveHost alias => drop (remove_host alias s)
  | OpUpsertChain chain => drop (upsert_chain chain s)
  | OpInsertChain chain => drop (insert_chain chain s)
  | OpRemoveChain name => drop (remove_chain name s)
  | OpRecordSuccess now alias method => drop (record_success now alias method s)
  end.

(** The stores the program reaches from [s]. *)
Definition run_all (ops : list operation) (s : HostStore) : HostStore :=
  foldl (λ s op, (run op s).2) s ops.

(** ** Changing part of a valid database *)
Lemma wf_hosts_update db hosts' :
  wf_database db →
  (∀ a h', hosts' !! a = Some h' → ∃ h, db_hosts db !! a = Some h ∧ hr_alias h' = hr_alias h ∧
     hr_role h' = hr_role h ∧ hr_jump_chain h' = hr_jump_chain h ∧ wf_host h') →
  (∀ n c alias, db_chains db !! n = Some c → HopHost alias ∈ jc_hops c → is_Some (hosts' !! alias)) →
  wf_database (set_hosts db hosts').
Proof.
  intros [Hfm Hf Hnd Hv Hhm Hcm Hhosts Hchains Hhr Hhop Hnl] Hold Href. split; cbn; try done.
  - assert (dom hosts' ⊆ dom (db_hosts db)) as Hdom.
    { intros a [h' (h & ? & _)%Hold]%elem_of_dom. apply elem_of_dom. eauto. }
    apply subseteq_size in Hdom. rewrite !size_dom in Hdom. lia.
  - intros a h' Ha. destruct (Hold a h' Ha) as (h & Hh & -> & _ & _ & Hwf).
    by destruct (Hhosts a h Hh).
  - intros a h' n Ha Hn. destruct (Hold a h' Ha) as (h & Hh & _ & _ & Hc & _).
    rewrite Hc in Hn. eauto.
  - intros n c Hn. apply Forall_forall. intros hop Hin alias ->.
    destruct (Href n c alias Hn Hin) as [h' Hh']. exists h'. split; [done|].
    destruct (Hold alias h' Hh') as (h & Hh & _ & Hr & _).
    specialize (Hhop n c Hn). rewrite Forall_forall in Hhop.
    destruct (Hhop _ Hin alias eq_refl) as (h0 & Hh0 & Hrole). congruence.
  - intros a h' n c Ha Hn Hc. destruct (Hold a h' Ha) as (h & Hh & -> & _ & Hch & _).
    rewrite Hch in Hn. eauto.
Qed.

Lemma wf_chains_delete db name :
  wf_database db → (∀ a h, db_hosts db !! a = Some h → hr_jump_chain h ≠ Some name) →
  wf_database (set_chains db (delete name (db_chains db))).
Proof.
  intros [Hfm Hf Hnd Hv Hhm Hcm Hhosts Hchains Hhr Hhop Hnl] Hfree. split; cbn; try done.
  - assert (dom (delete name (db_chains db)) ⊆ dom (db_chains db)) as Hdom by set_solver.
    apply subseteq_size in Hdom. rewrite !size_dom in Hdom. lia.
  - intros n c [_ Hn]%lookup_delete_Some. eauto.
  - intros a h n Ha Hn. specialize (Hfree a h Ha). rewrite lookup_delete_ne by congruence. eauto.
  - intros n c [_ Hn]%lookup_delete_Some. eauto.
  - intros a h n c Ha Hn [_ Hc]%lookup_delete_Some. eauto.
Qed.

Lemma wf_folders_update db fs js :
  wf_database db → zlen fs ≤ MAX_HOSTS → Forall valid_label (fs ++ js) → NoDup (fs ++ js) →
  wf_database (mk_db fs js (db_version db) (db_hosts db) (db_chains db)).
Proof. intros [] ? ? ?. by split. Qed.

Lemma chain_uses_host_spec alias c : chain_uses_host alias c = true ↔ HopHost alias ∈ jc_hops c.
Proof.
  unfold chain_uses_host. rewrite existsb_exists. setoid_rewrite <- list_elem_of_In. split.
  - intros (hop & Hin & H). destruct hop; try done. apply bool_decide_eq_true in H. congruence.
  - intros Hin. exists (HopHost alias). split; [done|]. by apply bool_decide_eq_true.
Qed.

Lemma existsb_chains db alias :
  existsb (chain_uses_host alias) (btree_values (db_chains db)) = false ↔
  ∀ n c, db_chains db !! n = Some c → HopHost alias ∉ jc_hops c.
Proof.
  rewrite existsb_Forall, Forall_btree_values. setoid_rewrite <- chain_uses_host_spec.
  setoid_rewrite not_true_iff_false. done.
Qed.

Lemma wf_hop_host_some db n c alias :
  wf_database db → db_chains db !! n = Some c → HopHost alias ∈ jc_hops c →
  is_Some (db_hosts db !! alias).
Proof.
  intros [Hfm Hf Hnd Hv Hhm Hcm Hhosts Hchains Hhr Hhop Hnl] Hn Hin. specialize (Hhop n c Hn). rewrite Forall_forall in Hhop.
  destruct (Hhop _ Hin alias eq_refl) as (h & -> & _). eauto.
Qed.

Lemma wf_delete_host db alias :
  wf_database db → (∀ n c, db_chains db !! n = Some c → HopHost alias ∉ jc_hops c) →
  wf_database (set_hosts db (delete alias (db_hosts db))).
Proof.
  intros Hwf Hfree. apply wf_hosts_update; [done| |].
  - intros a h [_ Ha]%lookup_delete_Some. exists h. split_and!; try done. by eapply wf_hosts.
  - intros n c a Hn Hin. rewrite lookup_delete_ne; [by eapply wf_hop_host_some|].
    intros <-. by eapply Hfree.
Qed.

Lemma wf_set_stats h stats : wf_host h → wf_host (set_stats h stats).
Proof. by intros []; split. Qed.

Lemma wf_record_stats db alias h stats :
  wf_database db → db_hosts db !! alias = Some h →
  wf_database (set_hosts db (<[ alias := set_stats h stats ]> (db_hosts db))).
Proof.
  intros Hwf Hh. apply wf_hosts_update; [done| |].
  - intros a h' [[<- <-]|[Hne Ha]]%lookup_insert_Some.
    + exists h. split_and!; try done. apply wf_set_stats. by eapply wf_hosts.
    + exists h'. split_and!; try done. by eapply wf_hosts.
  - intros n c a Hn Hin. apply lookup_insert_is_Some'. right. by eapply wf_hop_host_some.
Qed.

(** ** Rollback *)
Lemma restore_insert {A} (key : str) (x : A) (m : gmap str A) :
  restore key (m !! key) (<[ key := x ]> m) = m.
Proof.
  unfold restore. destruct (m !! key) as [old|] eqn:E.
  - rewrite insert_insert_eq. by apply insert_id.
  - by apply delete_insert_id.
Qed.

Lemma set_db_id s : set_db s (store_db s) = s.
Proof. by destruct s. Qed.
Lemma set_hosts_id db : set_hosts db (db_hosts db) = db.
Proof. by destruct db. Qed.
Lemma set_chains_id db : set_chains db (db_chains db) = db.
Proof. by destruct db. Qed.

(** Undoing an insertion of a fresh key. *)
Lemma delete_insert_fresh {A} (k : str) (x : A) (m : gmap str A) :
  m !! k = None → delete k (<[ k := x ]> m) = m.
Proof. apply delete_insert_id. Qed.

Lemma set_hosts_back s f hosts :
  hosts = db_hosts (store_db s) → f = set_hosts (store_db s) hosts → set_db s f = s.
Proof. intros -> ->. by rewrite set_hosts_id, set_db_id. Qed.

Lemma set_chains_back s f chains :
  chains = db_chains (store_db s) → f = set_chains (store_db s) chains → set_db s f = s.
Proof. intros -> ->. by rewrite set_chains_id, set_db_id. Qed.

(** ** What each operation does to the store

    Every operation fails and restores the store, or succeeds and leaves a
    database that [P] describes.  [step_spec] is the shape shared by the
    lemmas below. *)
Definition step_spec (s : HostStore) {A} (r : result A * HostStore) (P : A → HostDatabase → Prop) : Prop :=
  match r.1 with
  | Ok a => ∃ db, r.2 = set_db s db ∧ P a db
  | Err _ => r.2 = s
  end.

(** The outcome of the final [db_validate] of an operation. *)
Ltac validated :=
  match goal with
  | |- context [db_validate ?db] =>
      let H := fresh in
      destruct (db_validate db) as [[]|] eqn:H;
      [apply db_validate_ok in H; exists db; split; [reflexivity | exact H] | try reflexivity]
  end.

Lemma save_folder_step name original role s :
  step_spec s (save_folder name original role s) (λ _ db, wf_database db).
Proof.
  unfold save_folder, step_spec. destruct (validate_label name); [|done].
  do 3 (match goal with |- context [if ?b then (Err _, s) else _] => destruct b; [done|] end).
  validated.
Qed.

Lemma remove_folder_step name s :
  step_spec s (remove_folder name s) (λ _ db, wf_database db).
Proof.
  unfold remove_folder, step_spec.
  do 2 (match goal with |- context [if ?b then (Err _, s) else _] => destruct b; [done|] end).
  validated.
Qed.

Lemma upsert_host_step h s :
  step_spec s (upsert_host h s) (λ _ db, wf_database db).
Proof.
  unfold upsert_host, step_spec. destruct (host_validate h); [|done].
  match goal with |- context [if ?b then (Err _, s) else _] => destruct b; [done|] end.
  validated. eapply set_hosts_back; [|done]. cbn. apply restore_insert.
Qed.

Lemma insert_host_step h s :
  step_spec s (insert_host h s) (λ _ db, wf_database db).
Proof.
  unfold insert_host, step_spec. case_bool_decide; [|done]. cbn [negb].
  destruct (host_validate h); [|done].
  validated. eapply set_hosts_back; [|done]. cbn. by apply delete_insert_fresh.
Qed.

Lemma remove_host_step alias s :
  step_spec s (remove_host alias s) (λ h db,
    db_hosts (store_db s) !! alias = Some h ∧
    db = set_hosts (store_db s) (delete alias (db_hosts (store_db s))) ∧
    ∀ n c, db_chains (store_db s) !! n = Some c → HopHost alias ∉ jc_hops c).
Proof.
  unfold remove_host, step_spec. destruct (existsb _ _) eqn:E; [done|].
  rewrite existsb_chains in E. destruct (db_hosts (store_db s) !! alias) eqn:Ha; [|done]. eexists. by split_and!.
Qed.

Lemma upsert_chain_step c s :
  step_spec s (upsert_chain c s) (λ _ db, wf_database db).
Proof.
  unfold upsert_chain, step_spec. destruct (chain_validate c); [|done].
  validated. eapply set_chains_back; [|done]. cbn. apply restore_insert.
Qed.

Lemma insert_chain_step c s :
  step_spec s (insert_chain c s) (λ _ db, wf_database db).
Proof.
  unfold insert_chain, step_spec. case_bool_decide; [|done]. cbn [negb].
  validated. eapply set_chains_back; [|done]. cbn. by apply delete_insert_fresh.
Qed.

Lemma remove_chain_step name s :
  step_spec s (remove_chain name s) (λ c db,
    db_chains (store_db s) !! name = Some c ∧
    db = set_chains (store_db s) (delete name (db_chains (store_db s))) ∧
    ∀ a h, db_hosts (store_db s) !! a = Some h → hr_jump_chain h ≠ Some name).
Proof.
  unfold remove_chain, step_spec. destruct (existsb _ _) eqn:E; [done|].
  apply existsb_Forall in E. rewrite Forall_btree_values in E.
  setoid_rewrite bool_decide_eq_false in E.
  destruct (db_chains (store_db s) !! name) eqn:Ha; [|done]. eexists. by split_and!.
Qed.

(** [record_success] changes only the statistics of one host, even when the
    clock fails. *)
Lemma record_success_step now alias method s :
  (record_success now alias method s).2 = s ∧ is_ok (record_success now alias method s).1 = false ∨
  ∃ h stats, db_hosts (store_db s) !! alias = Some h ∧
    connection_count stats = connection_count (hr_stats h) + 1 ∧
    connection_count stats ≤ u64_max ∧
    (record_success now alias method s).2 =
      set_db s (set_hosts (store_db s) (<[ alias := set_stats h stats ]> (db_hosts (store_db s)))) ∧
    match now with
    | Ok t => is_ok (record_success now alias method s).1 = true ∧
              last_connected_unix stats = Some t ∧ last_auth_method stats = Some method
    | Err e => (record_success now alias method s).1 = Err e ∧
               last_connected_unix stats = last_connected_unix (hr_stats h) ∧
               last_auth_method stats = last_auth_method (hr_stats h)
    end.
Proof.
  unfold record_success. destruct (db_hosts (store_db s) !! alias) as [h|] eqn:Hh; [|by left].
  destruct (checked_add _ _ _) as [n|] eqn:Hn; [|by left]. right.
  apply checked_add_some in Hn as [-> Hn]. exists h.
  destruct now as [t|e].
  - exists (mk_stats (Some t) (connection_count (hr_stats h) + 1) (Some method)). by split_and!.
  - exists (mk_stats (last_connected_unix (hr_stats h)) (connection_count (hr_stats h) + 1)
              (last_auth_method (hr_stats h))). by split_and!.
Qed.

(** ** Invariant *)
Lemma run_spec {A} (r : result A * HostStore) s P (Q : HostDatabase → Prop) :
  step_spec s r P → Q (store_db s) → (∀ a db, P a db → Q db) → Q (store_db r.2).
Proof.
  unfold step_spec. destruct r as [[a|e] s']; cbn; [|by intros ->].
  intros (db & -> & HP) _ H. cbn. eauto.
Qed.

Lemma run_wf op s : wf_database (store_db s) → wf_database (store_db (run op s).2).
Proof.
  intros Hwf. destruct op; cbn.
  - by eapply run_spec; [apply save_folder_step|done|].
  - by eapply run_spec; [apply remove_folder_step|done|].
  - by eapply run_spec; [apply upsert_host_step|done|].
  - by eapply run_spec; [apply insert_host_step|done|].
  - eapply run_spec; [apply remove_host_step|done|]. intros h db (Ha & -> & Hfree).
    by apply wf_delete_host.
  - by eapply run_spec; [apply upsert_chain_step|done|].
  - by eapply run_spec; [apply insert_chain_step|done|].
  - eapply run_spec; [apply remove_chain_step|done|]. intros h db (Ha & -> & Hfree).
    by apply wf_chains_delete.
  - destruct (record_success_step now alias method s)
      as [[-> _]|(h & stats & Hh & _ & _ & -> & _)]; [done|]. by apply wf_record_stats.
Qed.

Lemma run_fails {A} (r : result A * HostStore) s P :
  step_spec s r P → is_ok r.1 = false → r.2 = s.
Proof. unfold step_spec. by destruct r as [[a|e] s']. Qed.

(** C9: whatever operations run, in whatever order and with whatever outcome, a
    store that holds a valid database keeps holding one. *)
Theorem store_stays_valid ops s :
  wf_database (store_db s) → wf_database (store_db (run_all ops s)).
Proof.
  revert s. induction ops as [|op ops IH]; intros s Hwf; [done|]. by apply IH, run_wf.
Qed.

(** A failed operation leaves the store exactly as it was.  The one exception
    is [record_success] when the clock cannot be read: the counter has already
    been incremented, and nothing else. *)
Theorem failed_operation_atomic op s :
  (run op s).1 = false →
  (run op s).2 = s ∨
  ∃ e alias method h, op = OpRecordSuccess (Err e) alias method ∧
    db_hosts (store_db s) !! alias = Some h ∧
    (run op s).2 = set_db s (set_hosts (store_db s)
      (<[ alias := set_stats h (mk_stats (last_connected_unix (hr_stats h))
                                  (connection_count (hr_stats h) + 1)
                                  (last_auth_method (hr_stats h))) ]> (db_hosts (store_db s)))).
Proof.
  intros Hfail. destruct op; cbn in *;
    first [left; eapply run_fails; [|exact Hfail];
    first [apply save_folder_step | apply remove_folder_step | apply upsert_host_step
          | apply insert_host_step | apply remove_host_step | apply upsert_chain_step
          | apply insert_chain_step | apply remove_chain_step] | idtac].
  destruct (record_success_step now alias method s)
    as [[-> _]|(h & [lc cc lm] & Hh & Hn & _ & -> & Hnow)]; [by left|]. right.
  destruct now as [t|e]; cbn in *; [by destruct Hnow; congruence|].
  destruct Hnow as (_ & -> & ->). subst cc. eauto 10.
Qed.

(** ** Folders *)
Lemma elem_of_sorted_set x l : x ∈ sorted_set l ↔ x ∈ l.
Proof.
  unfold sorted_set. rewrite merge_sort_Permutation, elem_of_elements. apply elem_of_list_to_set.
Qed.

Lemma existsb_eq (x : str) l : existsb (λ y, bool_decide (y = x)) l = bool_decide (x ∈ l).
Proof.
  apply eq_true_iff_eq. rewrite existsb_exists, bool_decide_eq_true.
  setoid_rewrite <- list_elem_of_In. setoid_rewrite bool_decide_eq_true. naive_solver.
Qed.

Lemma elem_of_folders f s :
  f ∈ folders s ↔ f ∈ db_folders (store_db s) ∨ f ∈ db_jump_folders (store_db s) ∨
    ∃ a h, db_hosts (store_db s) !! a = Some h ∧ f ∈ hr_groups h.
Proof.
  unfold folders. rewrite elem_of_sorted_set. unfold all_folder_names.
  rewrite !elem_of_app, elem_of_concat. split.
  - intros [?|[?|(l & Hl & Hf)]]; [by left|by right; left|]. right; right.
    apply list_elem_of_fmap in Hl as (h & -> & [a Ha]%elem_of_btree_values). eauto.
  - intros [?|[?|(a & h & Ha & Hf)]]; [by left|by right; left|]. right; right.
    exists (hr_groups h). split; [|done]. apply list_elem_of_fmap_2, elem_of_btree_values. eauto.
Qed.

Lemma elem_of_retain x name l : x ∈ retain_ne name l ↔ x ∈ l ∧ x ≠ name.
Proof. unfold retain_ne. rewrite list_elem_of_filter. tauto. Qed.

Lemma retain_ne_fresh name l : name ∉ l → retain_ne name l = l.
Proof.
  intros H. unfold retain_ne. induction l as [|x l IH]; [done|].
  rewrite not_elem_of_cons in H. destruct H. rewrite filter_cons_True by congruence.
  by rewrite IH.
Qed.

Lemma Forall_retain (P : str → Prop) name l : Forall P l → Forall P (retain_ne name l).
Proof. rewrite !Forall_forall. setoid_rewrite elem_of_retain. naive_solver. Qed.

Lemma length_retain name l : zlen (retain_ne name l) ≤ zlen l.
Proof. unfold retain_ne. apply inj_le, length_filter. Qed.

(** The database after [old] was renamed to [name] in the area [jump]. *)
Definition renamed (old name : str) (jump : bool) (db : HostDatabase) : HostDatabase :=
  let add (here : bool) l := if here then retain_ne old l ++ [name] else retain_ne old l in
  mk_db (add (negb jump) (db_folders db)) (add jump (db_jump_folders db)) (db_version db)
    (rename_group old name <$> db_hosts db) (db_chains db).

Lemma rename_groups_valid old name l :
  valid_labels l → valid_label name → name ∉ l →
  valid_labels ((λ f, if bool_decide (f = old) then name else f) <$> l).
Proof.
  intros (Hlen & Hall & Hnd) Hname Hfresh. unfold valid_labels. rewrite length_fmap.
  split_and!; [done| |].
  - rewrite Forall_fmap. eapply Forall_impl; [exact Hall|]. intros f ?. cbn. by case_bool_decide.
  - apply NoDup_fmap_2_strong; [|done]. intros x y Hx Hy. repeat case_bool_decide; congruence.
Qed.

Lemma wf_rename_group old name h :
  wf_host h → valid_label name → name ∉ hr_groups h → wf_host (rename_group old name h).
Proof. intros [] ? ?. split; try done. by apply rename_groups_valid. Qed.

Lemma NoDup_retain_app name l k : NoDup (l ++ k) → NoDup (retain_ne name l ++ retain_ne name k).
Proof. intros H. unfold retain_ne. rewrite <- filter_app. by apply NoDup_filter. Qed.

Lemma renamed_labels (P : str → Prop) old name jump db :
  P name → Forall P (db_folders db ++ db_jump_folders db) →
  Forall P (db_folders (renamed old name jump db) ++ db_jump_folders (renamed old name jump db)).
Proof.
  intros Hn [Hf Hj]%Forall_app.
  pose proof (Forall_retain P old _ Hf). pose proof (Forall_retain P old _ Hj).
  destruct jump; cbn; rewrite !Forall_app; repeat split; auto.
Qed.

Lemma renamed_nodup old name jump db :
  NoDup (db_folders db ++ db_jump_folders db) →
  name ∉ db_folders db → name ∉ db_jump_folders db →
  NoDup (db_folders (renamed old name jump db) ++ db_jump_folders (renamed old name jump db)).
Proof.
  intros Hnd Hf Hj. pose proof (NoDup_retain_app old _ _ Hnd) as Hnd'.
  set (F := retain_ne old (db_folders db)) in *. set (J := retain_ne old (db_jump_folders db)) in *.
  assert (NoDup (name :: F ++ J)) as Hcons.
  { apply NoDup_cons. split; [|done]. unfold F, J. by rewrite elem_of_app, !elem_of_retain; naive_solver. }
  destruct jump; cbn; fold F J; eapply (NoDup_Permutation_proper (name :: F ++ J)); try done;
    solve_Permutation.
Qed.

Lemma wf_renamed old name jump db :
  wf_database db → valid_label name →
  name ∉ db_folders db → name ∉ db_jump_folders db →
  (∀ a h, db_hosts db !! a = Some h → name ∉ hr_groups h) →
  (jump = false → zlen (retain_ne old (db_folders db)) < MAX_HOSTS) →
  wf_database (renamed old name jump db).
Proof.
  intros Hwf Hname Hf Hj Hg Hmax.
  change (wf_database (set_hosts
    (mk_db (db_folders (renamed old name jump db)) (db_jump_folders (renamed old name jump db))
       (db_version db) (db_hosts db) (db_chains db)) (rename_group old name <$> db_hosts db))).
  apply wf_hosts_update.
  - apply wf_folders_update; [done| | |].
    + pose proof (length_retain old (db_folders db)). pose proof (wf_folders_max db Hwf).
      destruct jump; cbn; [lia|]. rewrite length_app. specialize (Hmax eq_refl). cbn [length]. lia.
    + apply renamed_labels; [done|by apply wf_folders].
    + apply renamed_nodup; [by apply wf_folders_nodup|done|done].
  - cbn. intros a h'. rewrite lookup_fmap. intros (h & Ha & ->)%fmap_Some.
    exists h. split_and!; try done. apply wf_rename_group; [|done|by eapply Hg].
    by eapply wf_hosts.
  - cbn. intros n c alias Hn Hin. rewrite lookup_fmap. apply fmap_is_Some.
    by eapply wf_hop_host_some.
Qed.

Definition area_of (jump : bool) : str := if jump then lit "jump" else lit "target".

Lemma area_of_ok jump :
  bool_decide (area_of jump = lit "target") || bool_decide (area_of jump = lit "jump") = true.
Proof. by destruct jump; vm_compute. Qed.

Lemma not_folder f s :
  f ∉ folders s → f ∉ db_folders (store_db s) ∧ f ∉ db_jump_folders (store_db s) ∧
    ∀ a h, db_hosts (store_db s) !! a = Some h → f ∉ hr_groups h.
Proof. rewrite elem_of_folders. naive_solver. Qed.

(** [save_folder] with an original name other than the new one. *)
Lemma save_folder_rename old name jump s :
  old ≠ name →
  save_folder name (Some old) (area_of jump) s =
  match validate_label name with Err e => (Err e, s) | Ok _ =>
  if negb (bool_decide (old ∈ folders s)) then (Err "original folder does not exist", s) else
  if bool_decide (name ∈ folders s) then (Err "folder already exists", s) else
  match db_validate (renamed old name jump (store_db s)) with
  | Err e => (Err e, s)
  | Ok _ => (Ok tt, set_db s (renamed old name jump (store_db s)))
  end end.
Proof.
  intros Hne. unfold save_folder. destruct (validate_label name) as [[]|]; [|done].
  rewrite area_of_ok, !existsb_eq, (bool_decide_eq_false_2 (Some old = Some name)) by congruence.
  rewrite (bool_decide_eq_false_2 (old = name)) by done. cbn [negb andb].
  case_bool_decide; cbn [negb]; [|done].
  case_bool_decide as Hnew; [done|]. apply not_folder in Hnew as (HF & HJ & _).
  rewrite !(retain_ne_fresh name) by done.
  assert (bool_decide (area_of jump = lit "jump") = jump) as -> by by destruct jump; vm_compute.
  destruct jump; reflexivity.
Qed.

Lemma rename_outcome old name jump s :
  wf_database (store_db s) → old ≠ name →
  (save_folder name (Some old) (area_of jump) s).1 = Ok tt ↔
    valid_label name ∧ old ∈ folders s ∧ name ∉ folders s ∧
    (jump = false → zlen (retain_ne old (db_folders (store_db s))) < MAX_HOSTS).
Proof.
  intros Hwf Hne. rewrite save_folder_rename, <- validate_label_ok by done.
  destruct (validate_label name) as [[]|] eqn:Hlabel; [|naive_solver].
  apply validate_label_ok in Hlabel.
  case_bool_decide as Hold; cbn [negb]; [|naive_solver].
  case_bool_decide as Hnew; [naive_solver|].
  destruct (db_validate _) as [[]|] eqn:Hv; cbn; split; try done.
  - apply db_validate_ok, wf_folders_max in Hv. intros _. split_and!; try done.
    intros ->. cbn in Hv. rewrite length_app in Hv. cbn in Hv. lia.
  - intros (_ & _ & _ & Hmax). exfalso.
    enough (db_validate (renamed old name jump (store_db s)) = Ok tt) by congruence.
    apply not_folder in Hnew as (? & ? & ?). by apply db_validate_ok, wf_renamed.
Qed.

Lemma rename_result old name jump s s' u :
  old ≠ name → save_folder name (Some old) (area_of jump) s = (Ok u, s') →
  name ∉ folders s ∧ s' = set_db s (renamed old name jump (store_db s)).
Proof.
  intros Hne. rewrite save_folder_rename by done. destruct (validate_label name); [|done].
  case_bool_decide; cbn [negb]; [|done]. case_bool_decide as Hnew; [done|].
  destruct (db_validate _); [|done]. by intros [= _ <-].
Qed.

Lemma renamed_group f old name h :
  f ∈ hr_groups (rename_group old name h) ↔
  (f = name ∧ old ∈ hr_groups h) ∨ (f ∈ hr_groups h ∧ f ≠ old).
Proof.
  cbn. rewrite list_elem_of_fmap. split.
  - intros (g & -> & Hg). case_bool_decide; subst; auto.
  - intros [[-> ?]|[? ?]]; [exists old|exists f]; by case_bool_decide.
Qed.

Lemma renamed_folders f old name jump db :
  f ∈ db_folders (renamed old name jump db) ∨ f ∈ db_jump_folders (renamed old name jump db) ↔
  f = name ∨ ((f ∈ db_folders db ∨ f ∈ db_jump_folders db) ∧ f ≠ old).
Proof. destruct jump; cbn; rewrite !elem_of_app, !elem_of_retain, list_elem_of_singleton; tauto. Qed.

Lemma renamed_all_folders f old name jump s :
  f ∈ folders (set_db s (renamed old name jump (store_db s))) ↔ f = name ∨ (f ∈ folders s ∧ f ≠ old).
Proof.
  rewrite !elem_of_folders, <- !Logic.or_assoc. cbn [store_db set_db].
  rewrite renamed_folders. cbn [renamed db_hosts].
  setoid_rewrite lookup_fmap. setoid_rewrite fmap_Some. split.
  - intros [H|(a & h & (h0 & Ha & ->) & [[-> _]|[? ?]]%renamed_group)]; [tauto|by left|]. eauto 10.
  - intros [->|[[H|(a & h & Ha & Hin)] Hold]]; [tauto..|].
    right. exists a, (rename_group old name h). rewrite renamed_group. split; [by exists h|tauto].
Qed.

Lemma renamed_role f old name jump s :
  name ∉ folders s →
  folder_role (set_db s (renamed old name jump (store_db s))) f =
  if bool_decide (f = name) then (if jump then AreaJump else AreaTarget)
  else if bool_decide (f = old) then AreaTarget else folder_role s f.
Proof.
  intros (_ & HJ & _)%not_folder. unfold folder_role. rewrite !existsb_eq.
  assert (f ∈ db_jump_folders (renamed old name jump (store_db s)) ↔
          (f = name ∧ jump = true) ∨ (f ∈ db_jump_folders (store_db s) ∧ f ≠ old)) as H.
  { destruct jump; cbn; rewrite ?elem_of_app, elem_of_retain, ?list_elem_of_singleton; naive_solver. }
  cbn [store_db set_db]. rewrite (bool_decide_ext _ _ H).
  repeat case_bool_decide; try done; destruct jump; naive_solver.
Qed.

(** Renaming a folder.  Under a valid store it succeeds exactly when the new
    label is valid, the old folder exists, the new name is not in use and a
    target folder is not the [MAX_HOSTS + 1]st.  Then the new name takes the
    place of the old one among the folders and in the groups of every host, in
    the requested area, and nothing else of a host or of a chain changes. *)
Theorem rename_folder_exact old name jump s :
  wf_database (store_db s) → old ≠ name →
  let '(r, s') := save_folder name (Some old) (area_of jump) s in
  (r = Ok tt ↔
    valid_label name ∧ old ∈ folders s ∧ name ∉ folders s ∧
    (jump = false → zlen (retain_ne old (db_folders (store_db s))) < MAX_HOSTS)) ∧
  (r = Ok tt →
    (∀ f, f ∈ folders s' ↔ f = name ∨ (f ∈ folders s ∧ f ≠ old)) ∧
    (∀ f, f ≠ name → f ≠ old → folder_role s' f = folder_role s f) ∧
    folder_role s' name = (if jump then AreaJump else AreaTarget) ∧
    (∀ a, store_host s' a = rename_group old name <$> store_host s a) ∧
    (∀ n, store_chain s' n = store_chain s n)).
Proof.
  intros Hwf Hne. pose proof (rename_outcome old name jump s Hwf Hne) as Hiff.
  pose proof (rename_result old name jump s) as Hres.
  destruct (save_folder name (Some old) (area_of jump) s) as [r s']. split; [done|].
  intros ->. destruct (Hres s' tt Hne eq_refl) as [Hfresh ->].
  split_and!.
  - intros f. apply renamed_all_folders.
  - intros f ? ?. rewrite renamed_role by done. by repeat case_bool_decide.
  - rewrite renamed_role by done. by case_bool_decide.
  - intros a. unfold store_host. cbn. by rewrite lookup_fmap.
  - done.
Qed.

Lemma lookup_foldl_delete {A} (aliases : list str) (m : gmap str A) a :
  foldl (λ m alias, delete alias m) m aliases !! a =
  if bool_decide (a ∈ aliases) then None else m !! a.
Proof.
  revert m. induction aliases as [|b bs IH]; intros m; cbn [foldl]; [done|].
  rewrite IH. destruct (decide (a = b)) as [->|Hne].
  - rewrite lookup_delete_eq, (bool_decide_eq_true_2 (b ∈ b :: bs)) by by left.
    by case_bool_decide.
  - rewrite lookup_delete_ne by congruence.
    rewrite (bool_decide_ext (a ∈ b :: bs) (a ∈ bs)); [done|]. rewrite elem_of_cons. tauto.
Qed.

Lemma elem_of_hosts_in_folder name db a :
  wf_database db →
  a ∈ hosts_in_folder name db ↔ ∃ h, db_hosts db !! a = Some h ∧ head (hr_groups h) = Some name.
Proof.
  intros Hwf. unfold hosts_in_folder. rewrite list_elem_of_fmap. setoid_rewrite list_elem_of_filter.
  setoid_rewrite elem_of_btree_values. split.
  - intros (h & -> & Hh & [k Hk]). destruct (wf_hosts db Hwf k h Hk) as [-> _]. eauto.
  - intros (h & Ha & Hh). destruct (wf_hosts db Hwf a h Ha) as [-> _]. eauto.
Qed.

(** The database without the folder [name] and the hosts it holds. *)
Definition without_folder (name : str) (db : HostDatabase) : HostDatabase :=
  mk_db (retain_ne name (db_folders db)) (retain_ne name (db_jump_folders db)) (db_version db)
    (foldl (λ hosts alias, delete alias hosts) (db_hosts db) (hosts_in_folder name db)) (db_chains db).

Lemma lookup_without_folder name db a h :
  wf_database db →
  db_hosts (without_folder name db) !! a = Some h ↔
  db_hosts db !! a = Some h ∧ head (hr_groups h) ≠ Some name.
Proof.
  intros Hwf. cbn. rewrite lookup_foldl_delete.
  case_bool_decide as Hin; rewrite elem_of_hosts_in_folder in Hin by done; naive_solver.
Qed.

(** No jump chain reuses a host that the folder holds. *)
Definition folder_unreferenced (name : str) (db : HostDatabase) : Prop :=
  ∀ a h n c, db_hosts db !! a = Some h → head (hr_groups h) = Some name →
    db_chains db !! n = Some c → HopHost a ∉ jc_hops c.

Lemma folder_unreferenced_spec name db :
  wf_database db →
  existsb (λ alias, existsb (chain_uses_host alias) (btree_values (db_chains db)))
    (hosts_in_folder name db) = false ↔ folder_unreferenced name db.
Proof.
  intros Hwf. rewrite existsb_Forall, Forall_forall. setoid_rewrite existsb_chains.
  setoid_rewrite elem_of_hosts_in_folder; [|done]. unfold folder_unreferenced. naive_solver.
Qed.

Lemma wf_without_folder name db :
  wf_database db → folder_unreferenced name db → wf_database (without_folder name db).
Proof.
  intros Hwf Hfree.
  change (wf_database (set_hosts
    (mk_db (retain_ne name (db_folders db)) (retain_ne name (db_jump_folders db)) (db_version db)
       (db_hosts db) (db_chains db)) (db_hosts (without_folder name db)))).
  apply wf_hosts_update.
  - apply wf_folders_update; [done| | |].
    + pose proof (length_retain name (db_folders db)). pose proof (wf_folders_max db Hwf). lia.
    + destruct (proj1 (Forall_app _ _ _) (wf_folders db Hwf)).
      apply Forall_app. split; by apply Forall_retain.
    + by apply NoDup_retain_app, wf_folders_nodup.
  - intros a h [Ha _]%lookup_without_folder; [|done]. exists h. split_and!; try done.
    by eapply wf_hosts.
  - intros n c a Hn Hin. destruct (wf_hop_host_some db n c a Hwf Hn Hin) as [h Ha]. exists h.
    apply lookup_without_folder; [done|]. split; [done|]. intros Hhead. by eapply Hfree.
Qed.

(** Removing a folder.  Under a valid store it succeeds exactly when the
    folder exists and no chain reuses a host it holds (a host whose first group
    is the folder).  It returns those hosts' aliases, removes them and them
    only, and the folder survives exactly when some other host names it as a
    further group. *)
Theorem remove_folder_exact name s :
  wf_database (store_db s) →
  let '(r, s') := remove_folder name s in
  (is_ok r = true ↔ name ∈ folders s ∧ folder_unreferenced name (store_db s)) ∧
  (∀ aliases, r = Ok aliases →
    (∀ a, a ∈ aliases ↔ ∃ h, store_host s a = Some h ∧ head (hr_groups h) = Some name) ∧
    (∀ a h, store_host s' a = Some h ↔ store_host s a = Some h ∧ a ∉ aliases) ∧
    (∀ n, store_chain s' n = store_chain s n) ∧
    (name ∈ folders s' ↔ ∃ a h, store_host s a = Some h ∧ name ∈ tail (hr_groups h) ∧
                                head (hr_groups h) ≠ Some name)).
Proof.
  intros Hwf. unfold remove_folder. fold (without_folder name (store_db s)). rewrite existsb_eq.
  case_bool_decide as Hin; cbn [negb]; [|naive_solver].
  destruct (existsb _ _) eqn:Hfree.
  { split; [|done]. split; [done|]. intros [_ H%folder_unreferenced_spec]; [congruence|done]. }
  rewrite folder_unreferenced_spec in Hfree by done.
  assert (db_validate (without_folder name (store_db s)) = Ok tt) as ->.
  { by apply db_validate_ok, wf_without_folder. }
  split; [done|]. intros aliases [= <-].
  assert (Hhosts : ∀ a h, store_host (set_db s (without_folder name (store_db s))) a = Some h ↔
            store_host s a = Some h ∧ head (hr_groups h) ≠ Some name).
  { intros a h. by apply lookup_without_folder. }
  split_and!; [by intros a; apply elem_of_hosts_in_folder| |done|].
  - intros a h. rewrite Hhosts, elem_of_hosts_in_folder by done. unfold store_host. naive_solver.
  - rewrite elem_of_folders. cbn [store_db set_db]. setoid_rewrite Hhosts. cbn [without_folder
      db_folders db_jump_folders]. rewrite !elem_of_retain. split.
    + intros [?|[?|(a & h & [Ha Hh] & Hg)]]; [tauto..|]. exists a, h.
      destruct (hr_groups h) as [|g gs]; cbn in *; [by apply elem_of_nil in Hg|].
      apply elem_of_cons in Hg as [->|?]; [done|]. eauto.
    + intros (a & h & Ha & Hg & Hh). right; right. exists a, h. split_and!; try done.
      destruct (hr_groups h); [done|]. by right.
Qed.

(** ** Files *)
Lemma open_store_valid path entry s : open_store path entry = Ok s → wf_database (store_db s).
Proof.
  unfold open_store. intros ([f|] & _ & H)%bind_ok.
  - do 5 apply bind_ok in H as (? & _ & H). apply bind_ok in H as (db & Hdb & H).
    apply Ok_inj in H as <-. by eapply decode_valid.
  - apply Ok_inj in H as <-. by apply db_validate_ok.
Qed.

Lemma save_store_ok s bytes :
  save_store s = Ok bytes ↔ ∃ text, encode (store_db s) = Ok text ∧
    str_len text ≤ MAX_STORE_BYTES ∧ bytes = utf8 text.
Proof.
  unfold save_store. split.
  - intros ([] & Hv & H)%bind_ok. apply bind_ok in H as (text & Ht & H).
    apply bind_ok in H as ([] & Hl & H). apply bail_if_ok, Z.ltb_ge in Hl. apply Ok_inj in H as <-. eauto.
  - intros (text & Ht & Hl & ->). pose proof Ht as Ht'. unfold encode in Ht'.
    apply bind_ok in Ht' as ([] & Hv & _). rewrite Hv, Ht. step_bind. step_bind.
    by rewrite (proj2 (Z.ltb_ge MAX_STORE_BYTES _)).
Qed.

(** The published file: regular, private, with the bytes of [save]. *)
Definition published (bytes : list Z) : file_entry := mk_file false true 384 bytes.

(** Saving and opening.  When [save] succeeds on a store whose notes are
    plain text, opening the file it publishes (a regular file with mode 0600)
    gives the store back; and every store that [open] returns is valid. *)
Theorem save_then_open s bytes :
  typed_database (store_db s) → text_paths (store_db s) → plain_notes (store_db s) →
  (∀ text, encode (store_db s) = Ok text → valid_str text) →
  save_store s = Ok bytes →
  open_store (store_path s) (Ok (Some (published bytes))) = Ok s ∧
  ∀ path entry s', open_store path entry = Ok s' → wf_database (store_db s').
Proof.
  intros Hty Hpaths Hnotes Hstr (text & Ht & Hl & ->)%save_store_ok.
  split; [|by intros; eapply open_store_valid].
  assert (Hwf : wf_database (store_db s)).
  { unfold encode in Ht. apply bind_ok in Ht as ([] & Hv & _). by apply db_validate_ok. }
  unfold open_store. step_bind.
  change (validate_private_file (published (utf8 text))) with (@Ok unit tt).
  cbn [published file_is_symlink file_is_regular file_bytes negb bail_if].
  do 3 step_bind. rewrite length_utf8, (proj2 (Z.ltb_ge MAX_STORE_BYTES _)) by done.
  cbn [bail_if]. step_bind. rewrite from_utf8_utf8 by by apply Hstr. cbn [with_context]. step_bind.
  assert (text = text_of (db_items (store_db s))) as ->.
  { rewrite encode_text in Ht by done. by apply Ok_inj in Ht. }
  rewrite decode_text by done. step_bind. by destruct s.
Qed.
End Store.

(** ** The theorems at concrete stores *)
Module Examples.
#[local] Existing Instance ascii_tables.

Definition bastion : HostRecord := host_new (lit "bastion") (lit "10.0.0.1") (lit "root").
Definition web : HostRecord :=
  mk_host (lit "web") RoleTarget (lit "10.0.0.2") 22 (lit "deploy") None
    [lit "prod"; lit "linux"] [] None PolicyStrict (Some (lit "dmz")) OsLinux default_stats.
Definition dmz : JumpChain := mk_chain (lit "dmz") [HopHost (lit "bastion")].
Definition example_db : HostDatabase :=
  mk_db [lit "spare"] [lit "hops"] 1
    (<[ lit "bastion" := bastion ]> (<[ lit "web" := web ]> ∅)) (<[ lit "dmz" := dmz ]> ∅).
Definition example_store : HostStore := mk_store (lit "hosts.toml") example_db.

Lemma example_wf : wf_database (store_db example_store).
Proof. apply db_validate_ok. by vm_compute. Qed.

Lemma store_stays_valid_witness :
  wf_database (store_db (run_all [OpSaveFolder (lit "live") (Some (lit "prod")) (lit "jump");
                                  OpRemoveHost (lit "bastion"); OpRemoveFolder (lit "live")]
                           example_store)).
Proof. apply store_stays_valid. exact example_wf. Defined.

Lemma failed_operation_atomic_witness :
  (run (OpRemoveHost (lit "bastion")) example_store).1 = false ∧
  (run (OpRecordSuccess (Err "clock") (lit "web") MethodAgent) example_store).2 ≠ example_store ∧
  let op := OpRemoveHost (lit "bastion") in
  (run op example_store).2 = example_store ∨
  ∃ e alias method h, op = OpRecordSuccess (Err e) alias method ∧
    db_hosts (store_db example_store) !! alias = Some h ∧
    (run op example_store).2 = set_db example_store (set_hosts (store_db example_store)
      (<[ alias := set_stats h (mk_stats (last_connected_unix (hr_stats h))
                                  (connection_count (hr_stats h) + 1)
                                  (last_auth_method (hr_stats h))) ]>
         (db_hosts (store_db example_store)))).
Proof.
  split; [by vm_compute|]. split; [by vm_compute|].
  apply failed_operation_atomic. by vm_compute.
Defined.

Lemma rename_folder_exact_witness :
  (save_folder (lit "live") (Some (lit "prod")) (area_of true) example_store).1 = Ok tt ∧
  ∀ f, f ∈ folders (save_folder (lit "live") (Some (lit "prod")) (area_of true) example_store).2 ↔
       f = lit "live" ∨ (f ∈ folders example_store ∧ f ≠ lit "prod").
Proof.
  assert (lit "prod" ≠ lit "live") as Hne by (by vm_compute).
  pose proof (rename_folder_exact (lit "prod") (lit "live") true example_store example_wf Hne) as H.
  assert ((save_folder (lit "live") (Some (lit "prod")) (area_of true) example_store).1 = Ok tt) as Hok
    by (by vm_compute).
  destruct (save_folder _ _ _ _) as [r s']. cbn [fst snd] in *. by split; [|apply H].
Defined.

Lemma remove_folder_exact_witness :
  (remove_folder (lit "prod") example_store).1 = Ok [lit "web"] ∧
  (lit "prod" ∈ folders example_store ∧ folder_unreferenced (lit "prod") (store_db example_store)).
Proof.
  pose proof (remove_folder_exact (lit "prod") example_store example_wf) as H.
  assert ((remove_folder (lit "prod") example_store).1 = Ok [lit "web"]) as Hok by (by vm_compute).
  destruct (remove_folder _ _) as [r s']. cbn [fst snd] in *. subst r. split; [done|]. by apply H.
Defined.

Definition noted (note : str) : HostRecord :=
  mk_host (lit "noted") RoleBoth (lit "::1") 22 (lit "u") (Some (lit "/home/u/id # 1")) [] []
    (Some note) PolicyInsecure None OsAuto (mk_stats (Some 1700000000) 3 (Some MethodAgent)).
Definition noted_db (note : str) : HostDatabase :=
  set_hosts example_db (<[ lit "noted" := noted note ]> (db_hosts example_db)).
(** A quote, a backslash, an equals sign and a line feed are fine; a bell is not. *)
Definition fine_note : str := lit "a=" ++ [dquote; backslash; LF] ++ lit "[b] # c".
Definition bell_note : str := lit "ding" ++ [7].

Lemma noted_typed note : typed_database (noted_db note).
Proof.
  assert (∀ a h, db_hosts (noted_db note) !! a = Some h →
    h = noted note ∨ h = web ∨ h = bastion) as Hhosts.
  { intros a h. unfold noted_db, example_db. cbn. rewrite !lookup_insert_Some, lookup_empty.
    naive_solver. }
  split.
  - intros a h Ha. destruct (Hhosts a h Ha) as [->|[->| ->]]; split; cbn;
      try (intros t [= <-]); decide_now.
  - intros n c. cbn. rewrite lookup_insert_Some, lookup_empty.
    intros [[<- <-]|[_ [=]]]. by repeat constructor.
Qed.

Lemma noted_paths note : text_paths (noted_db note).
Proof.
  split.
  - intros a h. unfold noted_db, example_db. cbn. rewrite !lookup_insert_Some, lookup_empty.
    intros [[<- <-]|[_ [[<- <-]|[_ [[<- <-]|[_ [=]]]]]]]; intros bs [= <-]. by eexists.
  - intros n c. cbn. rewrite lookup_insert_Some, lookup_empty.
    intros [[<- <-]|[_ [=]]]. by repeat constructor.
Qed.

Lemma noted_plain : plain_notes (noted_db fine_note).
Proof.
  intros a h note Ha. unfold noted_db, example_db in Ha. cbn in Ha. revert Ha.
  rewrite !lookup_insert_Some, lookup_empty.
  intros [[<- <-]|[_ [[<- <-]|[_ [[<- <-]|[_ [=]]]]]]] [= <-]. unfold plain. decide_now.
Qed.

Lemma saved_library_reloads_witness :
  (∃ text, encode (noted_db fine_note) = Ok text ∧ decode text = Ok (noted_db fine_note)) ∧
  (∃ text, encode (noted_db bell_note) = Ok text ∧ is_ok (decode text) = false).
Proof.
  split.
  - destruct (saved_library_reloads (noted_db fine_note)) as (text & Htext & H).
    + apply db_validate_ok. by vm_compute.
    + apply noted_typed.
    + apply noted_paths.
    + exists text. split; [exact Htext|]. apply H; [|exact noted_plain].
      assert (match encode (noted_db fine_note) with Ok t => str_len t <=? MAX_INPUT | _ => false end
              = true) as Hlen by (by vm_compute).
      rewrite Htext in Hlen. by apply Z.leb_le.
  - destruct (saved_library_reloads (noted_db bell_note)) as (text & Htext & H).
    + apply db_validate_ok. by vm_compute.
    + apply noted_typed.
    + apply noted_paths.
    + exists text. split; [exact Htext|]. apply H.
      * assert (match encode (noted_db bell_note) with Ok t => str_len t <=? MAX_INPUT | _ => false end
                = true) as Hlen by (by vm_compute).
        rewrite Htext in Hlen. by apply Z.leb_le.
      * intros Hplain. assert (Hbell : plain bell_note)
          by (eapply (Hplain (lit "noted") (noted bell_note)); by vm_compute).
        revert Hbell. rewrite plain_spec. by vm_compute.
Defined.

Lemma save_then_open_witness :
  ∃ bytes, save_store (mk_store (lit "hosts.toml") (noted_db fine_note)) = Ok bytes ∧
    open_store (lit "hosts.toml") (Ok (Some (published bytes))) =
      Ok (mk_store (lit "hosts.toml") (noted_db fine_note)).
Proof.
  set (s := mk_store (lit "hosts.toml") (noted_db fine_note)).
  destruct (save_store s) as [bytes|e] eqn:Hsave; [|vm_compute in Hsave; discriminate].
  exists bytes. split; [done|].
  apply (save_then_open s bytes); [apply noted_typed|apply noted_paths|exact noted_plain| |exact Hsave].
  intros text Htext.
  assert (match encode (store_db s) with Ok t => bool_decide (valid_str t) | _ => false end = true)
    as Hv by (by vm_compute).
  rewrite Htext in Hv. by apply bool_decide_eq_true in Hv.
Defined.
End Examples.
