(* ===== verification/Classify.v ===== *)
(** * The command risk classifier ([apps/kaduox-desktop/src-tauri/src/command_classify.rs])

    The desktop application asks [classify_command] how risky a shell command
    is, and [needs_approval] whether the user must approve it.  The lexer works
    on the bytes of the command and cuts it with byte offsets: a slice that is
    not at character boundaries would panic, which is [None] here. *)

From stdpp Require Import base list gmap strings numbers sorting.
From Stdlib Require Import Lia.
From S2P Require Import Prelude RustStr StrFacts.

Inductive RiskLevel := ReadOnly | Modify | Delete | Dangerous.
#[export] Instance risk_eq_dec : EqDecision RiskLevel.
Proof. solve_decision. Defined.

(** The derived order of the enumeration. *)
Definition risk_rank (l : RiskLevel) : Z :=
  match l with ReadOnly => 0 | Modify => 1 | Delete => 2 | Dangerous => 3 end.
Definition risk_le (a b : RiskLevel) : Prop := risk_rank a ≤ risk_rank b.
#[export] Instance risk_le_dec : RelDecision risk_le.
Proof. intros a b. unfold risk_le. apply _. Defined.
Definition risk_max (a b : RiskLevel) : RiskLevel := if decide (risk_le a b) then b else a.

Definition risk_as_str (l : RiskLevel) : str :=
  match l with
  | ReadOnly => lit "readOnly" | Modify => lit "modify"
  | Delete => lit "delete" | Dangerous => lit "dangerous"
  end.

(** [matches!(s, "a" | "b" | ...)] and [TABLE.contains(&s)]. *)
Definition one_of (s : str) (l : list str) : bool := existsb (λ t, bool_decide (s = t)) l.

(** ** The tables *)
Definition READONLY_CMDS : list str := lit <$> [
  "ls"; "ll"; "pwd"; "cat"; "less"; "more"; "head"; "tail"; "df"; "du"; "free"; "ps"; "top";
  "htop"; "uptime"; "uname"; "whoami"; "id"; "w"; "who"; "last"; "ip"; "ifconfig"; "ss";
  "netstat"; "ping"; "traceroute"; "tracepath"; "dig"; "nslookup"; "host"; "curl"; "wget";
  "grep"; "egrep"; "fgrep"; "find"; "locate"; "which"; "whereis"; "type"; "env"; "printenv";
  "echo"; "printf"; "date"; "cal"; "history"; "lscpu"; "lsblk"; "lsusb"; "lspci"; "lsmod";
  "vmstat"; "iostat"; "mpstat"; "sar"; "dmesg"; "journalctl"; "stat"; "file"; "wc"; "sort";
  "uniq"; "diff"; "comm"; "awk"; "cut"; "tr"; "man"; "info"; "help"; "alias"; "jobs";
  "mount"; "lsmount"; "blkid"; "fdisk"; "smartctl"; "ethtool"; "hostname"; "hostnamectl";
  "timedatectl"; "localectl"; "getent"; "groups"; "crontab"; "atq"; "lpq"; "sensors";
  "nvidia-smi"; "systemctl"; "service"; "chkconfig"; "arp"; "route"; "mtr"; "tcpdump";
  "iftop"; "nload"; "lsof"; "fuser"; "pgrep"; "pidof"; "pstree"; "tree"; "sha256sum";
  "md5sum"; "sha1sum"; "cksum"; "base64"; "od"; "hexdump"; "strings"; "zcat"; "zgrep";
  "bzcat"; "xzcat"; "tar"; "zipinfo"; "unzip"; "rpm"; "dpkg"; "apt-cache"; "yum"; "dnf";
  "snap"; "flatpak"; "pip"; "pip3"; "npm"; "screen"; "tmux"; "exit"; "logout"; "true";
  "test"; "["; "cd"; "clear"]%string.

Definition DELETE_CMDS : list str := lit <$> [
  "rm"; "rmdir"; "shred"; "wipe"; "unlink"; "userdel"; "groupdel"; "deluser"; "delgroup";
  "shutdown"; "poweroff"; "halt"; "reboot"; "init"; "telinit"; "kill"; "killall"; "pkill";
  "skill"; "swapoff"]%string.

Definition DANGEROUS_PATTERNS : list str := lit <$> [
  ":(){ :|:& };:"; ":(){:|:&};:"; "mkfs"; "mkswap"; "> /dev/sd"; "> /dev/nvme"; "> /dev/hd";
  "of=/dev/sd"; "of=/dev/nvme"; "of=/dev/hd"; "dd of=/dev/"]%string.

Definition MODIFY_CMDS : list str := lit <$> [
  "mkdir"; "touch"; "cp"; "mv"; "ln"; "install"; "chmod"; "chown"; "chgrp"; "chattr";
  "setfacl"; "apt"; "apt-get"; "apt-mark"; "dpkg-reconfigure"; "yum"; "dnf"; "zypper";
  "pacman"; "snap"; "flatpak"; "pip"; "pip3"; "npm"; "yarn"; "pnpm"; "gem"; "cargo";
  "systemctl"; "service"; "chkconfig"; "update-rc.d"; "useradd"; "adduser"; "usermod";
  "groupadd"; "addgroup"; "groupmod"; "passwd"; "chpasswd"; "visudo"; "crontab"; "at";
  "mount"; "umount"; "swapon"; "mkfs"; "fdisk"; "parted"; "sgdisk"; "lvcreate"; "lvremove";
  "vgcreate"; "pvcreate"; "sed"; "patch"; "git"; "helm"; "compose"; "ssh"; "scp"; "sftp";
  "rsync"; "vim"; "vi"; "nano"; "emacs"; "ed"; "ex"; "tee"; "rename"; "update-alternatives";
  "alternatives"; "locale-gen"; "timedatectl"; "hostnamectl"; "localectl"; "firewall-cmd";
  "ufw"; "iptables"; "ip6tables"; "nft"; "tc"; "ip"; "route"; "ifconfig"; "ifup"; "ifdown";
  "netplan"; "nmcli"; "ethtool"; "sysctl"; "modprobe"; "insmod"; "rmmod"; "depmod";
  "grub-install"; "update-grub"; "dpkg"; "rpm"; "make"; "cmake"; "ninja"; "meson"; "gcc";
  "g++"; "cc"; "ld"; "strip"; "objcopy"; "tar"; "zip"; "unzip"; "gzip"; "gunzip"; "bzip2";
  "bunzip2"; "xz"; "unxz"; "7z"; "rar"; "unrar"; "truncate"; "fallocate"; "split"; "csplit";
  "dd"; "badblocks"; "fsck"; "e2fsck"; "xfs_repair"; "tune2fs"; "resize2fs"; "mountpoint";
  "losetup"; "kpartx"; "dmsetup"; "cryptsetup"; "lvm"; "mdadm"; "zfs"; "zpool"; "btrfs";
  "xfs_admin"]%string.

(** The words skipped before the command. *)
Definition PREFIX_CMDS : list str := lit <$> [
  "sudo"; "doas"; "nice"; "ionice"; "nohup"; "timeout"; "env"; "command"; "builtin"; "exec";
  "time"; "stdbuf"; "chrt"; "taskset"; "runuser"]%string.

Definition RM_TARGETS : list str := lit <$> [
  "/"; "/*"; "//"; "~"; "~/"; "~/*"; "/."; "/.."; "/home"; "/home/*"; "/etc"; "/usr"; "/usr/*";
  "/var"; "/boot"; "/root"; "/root/*"; "/bin"; "/sbin"; "/lib"; "/lib64"]%string.

Definition RM_NEUTRAL_FLAGS : list str := lit <$> [
  "--no-preserve-root"; "--preserve-root"; "-d"; "--dir"; "-v"; "--verbose"; "-i"; "-I";
  "--interactive"]%string.

(** The piece of a string after its last separator: [s.rsplit(p).next()]. *)
Definition last_piece (p : char → bool) (s : str) : str := default s (last (split_on p s)).

Definition lower_contains (patterns : list str) (s : str) : bool :=
  existsb (contains (to_ascii_lowercase s)) patterns.

Section Classify.
Context {unicode : UnicodeTables}.

(** ** The command word *)
Definition is_assignment (word : str) : bool :=
  contains_char word (ch "=") && negb (starts_with word [ch "="])
  && match word with c :: _ => is_alphabetic c || (c =? ch "_") | [] => false end.

Definition is_prefix (word : str) : bool := one_of (to_ascii_lowercase word) PREFIX_CMDS.

Fixpoint skip_prefixes (words : list str) : list str :=
  match words with
  | word :: rest => if is_assignment word || is_prefix word then skip_prefixes rest else words
  | [] => []
  end.

(** The flags and targets of [rm]: recursive, force, targets. *)
Fixpoint rm_args (args : list str) (recursive force : bool) (targets : list str)
    : bool * bool * list str :=
  match args with
  | [] => (recursive, force, targets)
  | arg :: args =>
      if bool_decide (arg = lit "--recursive") then rm_args args true force targets
      else if bool_decide (arg = lit "--force") then rm_args args recursive true targets
      else if one_of arg RM_NEUTRAL_FLAGS then rm_args args recursive force targets
      else match strip_prefix [ch "-"] arg with
      | Some flags =>
          if negb (bool_decide (flags = [])) && forallb is_ascii_alphabetic flags
          then rm_args args (recursive || contains_char flags (ch "r") || contains_char flags (ch "R"))
                 (force || contains_char flags (ch "f")) targets
          else rm_args args recursive force (targets ++ [arg])
      | None => rm_args args recursive force (targets ++ [arg])
      end
  end.

Definition is_dangerous_rm (segment : str) : bool :=
  match skip_prefixes (split_whitespace segment) with
  | [] => false
  | cmd :: words =>
      if negb (bool_decide (last_piece (Z.eqb (ch "/")) cmd = lit "rm")) then false else
      let '(recursive, force, targets) := rm_args words false false [] in
      if negb (recursive && force) then false else existsb (λ arg, one_of arg RM_TARGETS) targets
  end.

(** [first_token]: every turn of the loop drops a word. *)
Fixpoint first_token_loop (fuel : nat) (rest : str) : str :=
  let token := take_while (λ c, negb (is_whitespace c)) rest in
  match token, fuel with
  | [], _ => []
  | _, O => []
  | _, S fuel =>
      if is_assignment token || is_prefix token
      then first_token_loop fuel (trim_start (drop_while (λ c, negb (is_whitespace c)) rest))
      else token
  end.
Definition first_token (segment : str) : str :=
  first_token_loop (S (length segment)) (trim_start segment).

(** ** Arguments with side effects *)
Definition find_has_exec_side_effect (words : list str) : bool :=
  existsb (λ w, one_of w (lit <$> ["-exec"; "-execdir"; "-ok"; "-okdir"; "-delete"]%string)) words.

Definition awk_has_side_effect (segment : str) : bool :=
  contains segment (lit "system(") || contains segment (lit "| getline")
  || contains segment (lit "getline <").

Definition UPLOAD_FLAGS : list str := lit <$> [
  "-F"; "--form"; "-d"; "--data"; "--data-binary"; "--data-raw"; "--data-urlencode";
  "-T"; "--upload-file"; "--post301"; "--post302"; "--post303"; "--body-file"; "--post-data";
  "--post-file"]%string.
Definition write_method (m : str) : bool :=
  one_of (to_ascii_uppercase m) (lit <$> ["POST"; "PUT"; "DELETE"; "PATCH"]%string).

(** [s.trim_start_matches(p)] for a non-empty string [p]. *)
Fixpoint trim_start_matches (fuel : nat) (p s : str) : str :=
  match fuel, strip_prefix p s with
  | S fuel, Some s => trim_start_matches fuel p s
  | _, _ => s
  end.

Fixpoint download_tool_uploads (words : list str) : bool :=
  match words with
  | [] => false
  | word :: rest =>
      if existsb (λ f, bool_decide (word = f) || starts_with word (f ++ [ch "="])) UPLOAD_FLAGS then true
      else if one_of word (lit <$> ["-X"; "--request"]%string)
              && match rest with m :: _ => write_method m | [] => false end then true
      else if starts_with word (lit "--request=")
              && write_method (trim_start_matches (length word) (lit "--request=") word) then true
      else download_tool_uploads rest
  end.

(** ** One segment *)
Definition SERVICE_QUERIES : list str := lit <$> [
  "status"; "show"; "list-units"; "list-unit-files"; "list-timers"; "is-active"; "is-enabled";
  "is-failed"; "cat"; "help"; "--version"; "list-dependencies"; "list-sockets"; "list-jobs"]%string.

Definition container_level (sub sub2 : str) : RiskLevel :=
  if one_of sub (lit <$> ["ps"; "images"; "inspect"; "logs"; "stats"; "version"; "info"; "top"; "diff";
                          "history"; "port"; "search"; "df"]%string)
     || (one_of sub (lit <$> ["container"; "image"]%string)
         && one_of sub2 (lit <$> ["ls"; "inspect"; "logs"; "stats"; "top"; "history"]%string))
  then ReadOnly
  else if one_of sub (lit <$> ["rm"; "rmi"; "kill"]%string)
     || (one_of sub (lit <$> ["container"; "image"; "volume"; "network"; "system"]%string)
         && one_of sub2 (lit <$> ["rm"; "prune"]%string))
     || bool_decide (sub = lit "stop")
  then Delete
  else Modify.

Definition kubectl_level (sub : str) : RiskLevel :=
  if one_of sub (lit <$> ["get"; "describe"; "logs"; "top"; "version"; "api-resources";
                          "api-versions"; "cluster-info"; "config"; "explain"]%string)
  then ReadOnly
  else if bool_decide (sub = lit "delete") then Delete else Modify.

Definition classify_segment (segment : str) (has_write_redirect : bool) : RiskLevel :=
  if lower_contains DANGEROUS_PATTERNS segment then Dangerous else
  if is_dangerous_rm segment then Dangerous else
  let token := to_ascii_lowercase (first_token segment) in
  let base := last_piece (Z.eqb (ch "/")) token in
  let words := split_whitespace segment in
  if one_of base (lit <$> ["systemctl"; "service"]%string) then
    if existsb (λ sub, existsb (λ word, bool_decide (word = sub)) words) SERVICE_QUERIES
    then ReadOnly else Modify
  else if one_of base (lit <$> ["docker"; "podman"; "nerdctl"]%string) then
    container_level (default [] (words !! 1%nat)) (default [] (words !! 2%nat))
  else if bool_decide (base = lit "kubectl") then kubectl_level (default [] (words !! 1%nat))
  else if has_write_redirect && negb (bool_decide (token = [])) && negb (bool_decide (base = []))
  then Modify
  else if bool_decide (base = lit "find") && find_has_exec_side_effect words then Modify
  else if bool_decide (base = lit "awk") && awk_has_side_effect segment then Modify
  else if one_of base (lit <$> ["curl"; "wget"]%string) && download_tool_uploads words then Modify
  else if one_of base DELETE_CMDS then Delete
  else if one_of base MODIFY_CMDS then Modify
  else if one_of base READONLY_CMDS then ReadOnly
  else Modify.
(** ** The lexer *)
Record Segment := mk_segment { seg_text : str; seg_write : bool }.

Definition SQUOTE : Z := 39.
Definition BSLASH : Z := 92.

(** One turn of the loop of [lex_segments], at byte [b] with [rest] behind it:
    the loop goes on [n] bytes further with new flags, or the segment is cut
    here ([split_here!(n)]).  [tail] is [prev_word_tail]. *)
Inductive lex_action :=
| Advance (n : nat) (in_single in_double has_write : bool) (tail : option Z)
| Cut (n : nat).

Definition lex_body (b : Z) (rest : list Z) (in_single in_double has_write : bool) (tail : option Z)
    : lex_action :=
  if in_single then Advance 1 (negb (b =? SQUOTE)) in_double has_write tail
  else if in_double then
    if b =? dquote then Advance 1 in_single false has_write tail
    else if b =? BSLASH then Advance 2 in_single in_double has_write tail
    else Advance 1 in_single in_double has_write tail
  else if b =? BSLASH then Advance 2 in_single in_double has_write (rest !! 0%nat)
  else if b =? SQUOTE then Advance 1 true in_double has_write tail
  else if b =? dquote then Advance 1 in_single true has_write tail
  else if (b =? ch ";") || (b =? LF) || (b =? CR) then Cut 1
  else if b =? ch "&" then
    let next := rest !! 0%nat in
    if bool_decide (next = Some (ch "&")) then Cut 2
    else if bool_decide (next = Some (ch ">")) then Advance 2 in_single in_double true None
    else Cut 1
  else if b =? ch "|" then
    if bool_decide (rest !! 0%nat = Some (ch "|")) then Cut 2 else Cut 1
  else if b =? ch ">" then
    let next := rest !! 0%nat in
    let is_stderr_fd := bool_decide (tail = Some (ch "2")) in
    if bool_decide (next = Some (ch "&")) then
      let fd_copy := match rest !! 1%nat with
                     | Some c => is_ascii_digit c || (c =? ch "-")
                     | None => false
                     end in
      Advance 2 in_single in_double (has_write || negb fd_copy) None
    else if bool_decide (next = Some (ch ">")) then
      Advance 2 in_single in_double (has_write || negb is_stderr_fd) None
    else Advance 1 in_single in_double (has_write || negb is_stderr_fd) None
  else if (b =? ch " ") || (b =? TAB) then Advance 1 in_single in_double has_write None
  else Advance 1 in_single in_double has_write (Some b).

(** The loop: [rest] is [bytes[i..]].  Every turn consumes a byte, so the length
    of the command is enough fuel. *)
Fixpoint lex_loop (fuel : nat) (command : str) (rest : list Z) (i start : Z)
    (in_single in_double has_write : bool) (tail : option Z) : option (list Segment) :=
  match rest, fuel with
  | [], _ =>
      if start <? str_len command
      then text ← slice command start (str_len command); Some [mk_segment text has_write]
      else Some []
  | _ :: _, O => None
  | b :: rest1, S fuel =>
      match lex_body b rest1 in_single in_double has_write tail with
      | Advance n in_single in_double has_write tail =>
          lex_loop fuel command (drop n rest) (i + Z.of_nat n) start in_single in_double has_write tail
      | Cut n =>
          text ← slice command start i;
          cons (mk_segment text has_write) <$>
            lex_loop fuel command (drop n rest) (i + Z.of_nat n) (i + Z.of_nat n)
              in_single in_double false None
      end
  end.

Definition lex_segments (command : str) : option (list Segment) :=
  let bytes := utf8 command in
  lex_loop (length bytes) command bytes 0 0 false false false None.

(** ** Whole commands *)
Definition has_subshell_syntax (command : str) : bool :=
  contains command (lit "$(") || contains_char command (ch "`") || contains command (lit "<(")
  || contains command (lit ">(").

(** The level of the worst segment: [.max().unwrap_or(ReadOnly)]. *)
Definition worst (classify : str → bool → RiskLevel) (segments : list Segment) : RiskLevel :=
  foldr (λ seg, risk_max (classify (seg_text seg) (seg_write seg))) ReadOnly segments.

Definition classify_command (command : str) : option RiskLevel :=
  if has_subshell_syntax command then Some Dangerous else
  if lower_contains DANGEROUS_PATTERNS command then Some Dangerous else
  worst classify_segment <$> lex_segments command.

(** ** Windows targets *)
Inductive TargetPlatform := Unix | Windows.
#[export] Instance platform_eq_dec : EqDecision TargetPlatform.
Proof. solve_decision. Defined.
Definition platform_parse (value : str) : TargetPlatform :=
  if eq_ignore_ascii_case value (lit "windows") then Windows else Unix.

Definition WINDOWS_READONLY_CMDS : list str := lit <$> [
  "ver"; "systeminfo"; "tasklist"; "netstat"; "findstr"; "find"; "ipconfig"; "whoami";
  "hostname"; "dir"; "type"; "echo"; "chcp"; "date"; "time"; "set"; "ping"; "tracert";
  "pathping"; "nslookup"; "arp"; "getmac"; "driverquery"; "qprocess"; "tree"; "where";
  "more"; "sort"; "cls"; "help"]%string.

Definition WINDOWS_DELETE_CMDS : list str := lit <$> [
  "del"; "erase"; "rd"; "rmdir"; "taskkill"; "shutdown"]%string.

Definition WINDOWS_DANGEROUS_PATTERNS : list str := lit <$> [
  "format c:"; "format d:"]%string.

Definition POWERSHELL_WRITE_VERBS : list str := lit <$> [
  "set-"; "new-"; "remove-"; "stop-"; "start-"; "restart-"; "clear-"; "rename-"; "copy-";
  "move-"; "out-file"; "add-content"; "set-content"; "invoke-"; "iex"; "del"; "rm"; "rmdir";
  "format-"]%string.

Definition is_dangerous_windows_delete (segment base : str) : bool :=
  if negb (one_of base (lit <$> ["del"; "erase"; "rd"; "rmdir"]%string)) then false else
  let words := split_whitespace (to_ascii_lowercase segment) in
  if negb (existsb (λ word, starts_with word (lit "/s") || starts_with word (lit "-s")) words)
  then false
  else existsb (λ word, one_of word (lit <$> ["c:\"; "c:\*"; "c:\windows"; "c:\windows\*";
                                              "%systemroot%"]%string)) words.

(** [s.trim_end_matches(p)] for a non-empty string [p]. *)
Fixpoint trim_end_matches (fuel : nat) (p s : str) : str :=
  match fuel, strip_suffix p s with
  | S fuel, Some s => trim_end_matches fuel p s
  | _, _ => s
  end.

Definition windows_base (token : str) : str :=
  let base := last_piece (λ c, (c =? ch "/") || (c =? BSLASH)) token in
  let base := trim_end_matches (length base) (lit ".exe") base in
  trim_end_matches (length base) (lit ".com") base.

Definition query_or_modify (b : bool) : RiskLevel := if b then ReadOnly else Modify.

Definition classify_windows_segment (segment : str) (has_write_redirect : bool) : RiskLevel :=
  if lower_contains WINDOWS_DANGEROUS_PATTERNS segment then Dangerous else
  let token := to_ascii_lowercase (first_token segment) in
  let base := windows_base token in
  if is_dangerous_windows_delete segment base then Dangerous else
  let words := split_whitespace segment in
  let word n (l : list string) :=
    match words !! n with Some w => one_of (to_ascii_lowercase w) (lit <$> l) | None => false end in
  if bool_decide (base = lit "sc") then query_or_modify (word 1%nat ["query"; "queryex"; "qc"; "enumdepend"]%string)
  else if bool_decide (base = lit "reg") then query_or_modify (word 1%nat ["query"]%string)
  else if bool_decide (base = lit "route")
  then query_or_modify (existsb (λ w, eq_ignore_ascii_case w (lit "print")) words)
  else if bool_decide (base = lit "net") then query_or_modify (word 1%nat ["view"]%string)
  else if bool_decide (base = lit "wmic") then query_or_modify (word 2%nat ["get"; "list"]%string)
  else if one_of base (lit <$> ["powershell"; "pwsh"]%string) then
    let has_get := existsb (λ w, starts_with (to_ascii_lowercase w) (lit "get-")) words in
    let has_write := existsb (λ w, existsb (starts_with (to_ascii_lowercase w)) POWERSHELL_WRITE_VERBS) words in
    query_or_modify (has_get && negb has_write && negb has_write_redirect)
  else if one_of base (lit <$> ["rm"; "shred"; "dd"; "mkfs"]%string) then Dangerous
  else if has_write_redirect && negb (bool_decide (token = [])) then Modify
  else if one_of base WINDOWS_DELETE_CMDS then Delete
  else if one_of base WINDOWS_READONLY_CMDS then ReadOnly
  else Modify.

Definition classify_command_for (command : str) (platform : TargetPlatform) : option RiskLevel :=
  if bool_decide (platform = Unix) then classify_command command else
  if has_subshell_syntax command then Some Dangerous else
  if lower_contains DANGEROUS_PATTERNS command then Some Dangerous else
  worst classify_windows_segment <$> lex_segments command.
End Classify.

(** ** Permission modes *)
Inductive PermissionMode := Strict | Approval | Full.
#[export] Instance mode_eq_dec : EqDecision PermissionMode.
Proof. solve_decision. Defined.
Definition mode_from_str (value : str) : PermissionMode :=
  if bool_decide (value = lit "strict") then Strict
  else if bool_decide (value = lit "full") then Full
  else Approval.
Definition mode_as_str (m : PermissionMode) : str :=
  match m with Strict => lit "strict" | Approval => lit "approval" | Full => lit "full" end.

Definition needs_approval (mode : PermissionMode) (level : RiskLevel) : bool :=
  match level with
  | Dangerous => true
  | Delete => true
  | Modify => negb (bool_decide (mode = Full))
  | ReadOnly => bool_decide (mode = Strict)
  end.
