(* ===== verification/ClassifySafety.v ===== *)
(** * What the command classifier guarantees

    The lexer never panics and covers the command; a command that is hidden
    behind a separator is still classified; the commands that run without
    approval; and where the classification falls short. *)

From stdpp Require Import base list gmap strings numbers sorting.
From Stdlib Require Import Lia.
From S2P Require Import Prelude RustStr StrFacts Classify.

(** ** The lexer on bytes

    [blex] cuts the bytes themselves: [cur] is the current segment, reversed.
    It is the lexer without offsets and slices. *)
Definition cut : Type := list Z * bool.

Fixpoint blex (fuel : nat) (rest cur : list Z) (in_single in_double has_write : bool) (tail : option Z)
    : list cut :=
  match rest, fuel with
  | [], _ => match cur with [] => [] | _ => [(reverse cur, has_write)] end
  | _ :: _, O => []
  | b :: rest1, S fuel =>
      match lex_body b rest1 in_single in_double has_write tail with
      | Advance n in_single in_double has_write tail =>
          blex fuel (drop n rest) (reverse (take n rest) ++ cur) in_single in_double has_write tail
      | Cut n => (reverse cur, has_write) :: blex fuel (drop n rest) [] in_single in_double false None
      end
  end.

Definition as_segment (c : cut) : Segment := mk_segment (default [] (from_utf8 c.1)) c.2.

(** The bytes of the cut are text. *)
Definition text_cut (c : cut) : Prop := ∃ q, valid_str q ∧ c.1 = utf8 q.

(** What a cut tells of the byte it happens at. *)
Lemma lex_body_cut b rest s d w t n :
  lex_body b rest s d w t = Cut n →
  s = false ∧ d = false ∧ 0 ≤ b < 128 ∧
  (n = 1%nat ∨ n = 2%nat ∧ rest !! 0%nat = Some b ∧ (b = ch "&" ∨ b = ch "|")).
Proof.
  unfold lex_body. destruct s; [done|]. destruct d; [by repeat case_match|].
  destruct (Z.eqb_spec b BSLASH); [done|]. destruct (Z.eqb_spec b SQUOTE); [done|].
  destruct (Z.eqb_spec b dquote); [done|].
  destruct ((b =? ch ";") || (b =? LF) || (b =? CR)) eqn:Hsep.
  { rewrite !orb_true_iff, !Z.eqb_eq in Hsep. intros [= <-].
    destruct Hsep as [[->| ->]| ->]; by (split_and!; auto). }
  destruct (Z.eqb_spec b (ch "&")) as [->|].
  { case_bool_decide as Hn; [intros [= <-]; by (split_and!; auto)|].
    case_bool_decide; [done|]. intros [= <-]. by (split_and!; auto). }
  destruct (Z.eqb_spec b (ch "|")) as [->|].
  { case_bool_decide as Hn; intros [= <-]; by (split_and!; auto). }
  destruct (Z.eqb_spec b (ch ">")); [by repeat case_match|]. by case_match.
Qed.

Lemma lex_body_advance b rest s d w t n s' d' w' t' :
  lex_body b rest s d w t = Advance n s' d' w' t' → n = 1%nat ∨ n = 2%nat.
Proof. unfold lex_body. intros H. repeat (case_match; try (injection H as <-); auto; try done). Qed.

Lemma slice_middle p t q : slice (p ++ t ++ q) (str_len p) (str_len (p ++ t)) = Some t.
Proof. rewrite str_len_app. apply slice_app. Qed.

Lemma from_utf8_valid t : valid_str t → default [] (from_utf8 (utf8 t)) = t.
Proof. intros H. by rewrite from_utf8_utf8. Qed.

(** The end of the command: what is left is the last segment. *)
Lemma lex_loop_end command fuel p cur i s d w t :
  valid_str command → valid_str p → utf8 command = utf8 p ++ reverse cur →
  lex_loop fuel command [] i (str_len p) s d w t = Some (as_segment <$> blex fuel [] cur s d w t) ∧
  Forall text_cut (blex fuel [] cur s d w t).
Proof.
  intros Hcmd Hp Heq. destruct (utf8_prefix command p _ Hcmd Hp Heq) as (q & -> & Hq).
  apply Forall_app in Hcmd as [_ Hvq].
  assert (Hlen : str_len q = zlen cur) by by rewrite <- length_utf8, Hq, length_reverse.
  assert (Hsl : slice (p ++ q) (str_len p) (str_len (p ++ q)) = Some q).
  { pose proof (slice_middle p q []) as Hs. by rewrite app_nil_r in Hs. }
  destruct fuel; cbn [lex_loop blex]; rewrite Hsl, str_len_app, Hlen;
    (destruct cur as [|c cur]; cbn [length];
     [rewrite (proj2 (Z.ltb_ge _ _)) by lia; split; [done|constructor]|]);
    rewrite (proj2 (Z.ltb_lt _ _)) by lia; cbn [mbind option_bind fmap list_fmap];
    unfold as_segment; cbn [fst snd]; rewrite <- Hq, from_utf8_valid by done;
    (split; [done|constructor; [by exists q|constructor]]).
Qed.

(** A cut: the text between the offsets is the current segment. *)
Lemma cut_slice command p cur b rest n :
  valid_str command → valid_str p → utf8 command = utf8 p ++ reverse cur ++ b :: rest →
  0 ≤ b < 128 → n = 1%nat ∨ n = 2%nat ∧ rest !! 0%nat = Some b →
  ∃ q p', slice command (str_len p) (str_len p + zlen cur) = Some q ∧ valid_str q ∧
    utf8 q = reverse cur ∧ p' = p ++ q ++ replicate n b ∧ valid_str p' ∧
    str_len p' = str_len p + zlen cur + Z.of_nat n ∧
    utf8 command = utf8 p' ++ drop n (b :: rest).
Proof.
  intros Hcmd Hp Heq Hb Hn. rewrite app_assoc in Heq.
  destruct (utf8_ascii_split command _ b rest Hcmd Heq) as (s1 & s2 & -> & Hs1 & Hs2); [lia|].
  apply Forall_app in Hcmd as [Hv1 Hv2].
  destruct (utf8_prefix s1 p _ Hv1 Hp Hs1) as (q & -> & Hq).
  apply Forall_app in Hv1 as [_ Hvq].
  assert (Hlen : str_len q = zlen cur) by by rewrite <- length_utf8, Hq, length_reverse.
  exists q, (p ++ q ++ replicate n b).
  assert (Hb1 : utf8_char b = [b]) by (unfold utf8_char; by rewrite (proj2 (Z.ltb_lt b 128)) by lia).
  assert (Hsb : is_scalar b) by (unfold is_scalar; lia).
  split_and!; try done.
  - rewrite <- Hlen, <- str_len_app, <- app_assoc. apply slice_middle.
  - apply Forall_app; split; [done|]. apply Forall_app; split; [done|]. by apply Forall_replicate.
  - rewrite !str_len_app, Hlen. destruct Hn as [->|(-> & _)]; cbn [replicate str_len];
      rewrite len_utf8_ascii by lia; lia.
  - rewrite !utf8_app, <- !app_assoc. cbn [utf8]. rewrite Hb1, Hs2. do 2 f_equal.
    destruct Hn as [->|(-> & Hr)]; cbn [replicate utf8 drop]; rewrite Hb1; [done|].
    destruct rest as [|c rest]; [done|]. injection Hr as ->. done.
Qed.

(** The offsets of the loop: [p] is cut off already, [cur] lies between [start]
    and [i]. *)
Lemma lex_loop_blex fuel command rest p cur i s d w t :
  (length rest ≤ fuel)%nat → valid_str command → valid_str p →
  utf8 command = utf8 p ++ reverse cur ++ rest → (rest ≠ [] → i = str_len p + zlen cur) →
  lex_loop fuel command rest i (str_len p) s d w t =
  Some (as_segment <$> blex fuel rest cur s d w t) ∧
  Forall text_cut (blex fuel rest cur s d w t).
Proof.
  intros Hfuel Hcmd. revert rest p cur i s d w t Hfuel.
  induction fuel as [|fuel IH]; intros rest p cur i s d w t Hfuel Hp Heq Hi;
    (destruct rest as [|b rest]; [apply lex_loop_end; [done..|by rewrite app_nil_r in Heq]|]);
    [cbn in Hfuel; lia|].
  cbn [lex_loop blex]. specialize (Hi ltac:(done)). subst i.
  destruct (lex_body b rest s d w t) as [n s' d' w' t'|n] eqn:Hbody.
  - apply lex_body_advance in Hbody. apply IH; [rewrite length_drop; cbn in *; lia|done| |].
    + by rewrite reverse_app, reverse_involutive, <- app_assoc, take_drop.
    + intros Hne. rewrite length_app, length_reverse, length_take.
      assert (n ≤ length (b :: rest))%nat; [|lia].
      destruct (decide (n ≤ length (b :: rest))%nat) as [|Hgt]; [done|].
      exfalso. apply Hne, drop_ge. lia.
  - apply lex_body_cut in Hbody as (-> & -> & Hb & Hn).
    destruct (cut_slice command p cur b rest n) as (q & p' & -> & Hvq & Hq & -> & Hvp & Hlen & Heq');
      [done..|naive_solver|].
    cbn [mbind option_bind]. rewrite <- Hlen.
    destruct (IH (drop n (b :: rest)) (p ++ q ++ replicate n b) [] (str_len (p ++ q ++ replicate n b))
                false false false None) as [-> Htext];
      [rewrite length_drop; destruct Hn as [->|(-> & _)]; cbn in *; lia|done..
      |intros _; cbn [length]; lia|].
    cbn [fmap list_fmap option_fmap option_map]. split.
    + unfold as_segment at 2. cbn [fst snd]. by rewrite <- Hq, from_utf8_valid.
    + constructor; [by exists q|done].
Qed.

(** The lexer in one equation; in particular it never panics. *)
Definition cuts (command : str) : list cut :=
  blex (length (utf8 command)) (utf8 command) [] false false false None.

Lemma lex_segments_cuts command :
  valid_str command →
  lex_segments command = Some (as_segment <$> cuts command) ∧ Forall text_cut (cuts command).
Proof.
  intros Hcmd. unfold lex_segments, cuts.
  change 0 with (str_len []) at 2. by apply lex_loop_blex.
Qed.

(** ** Nothing of the command is lost *)
Definition SEPARATORS : list str := lit <$> [";"; "&"; "&&"; "|"; "||"]%string.
Definition separator (s : str) : Prop := s ∈ [[LF]; [CR]] ++ SEPARATORS.

(** The pieces with the separators put back between them. *)
Fixpoint interleave (pieces seps : list (list Z)) : list Z :=
  match pieces, seps with
  | [], _ => []
  | piece :: _, [] => piece
  | piece :: pieces, sep :: seps => piece ++ sep ++ interleave pieces seps
  end.

Lemma lex_body_separator b rest s d w t n :
  lex_body b rest s d w t = Cut n → (n = 1%nat ∨ n = 2%nat) ∧ separator (take n (b :: rest)).
Proof.
  intros H. pose proof (lex_body_cut _ _ _ _ _ _ _ H) as (-> & -> & _ & Hn). revert H.
  unfold lex_body, separator, SEPARATORS.
  destruct (Z.eqb_spec b BSLASH); [done|]. destruct (Z.eqb_spec b SQUOTE); [done|].
  destruct (Z.eqb_spec b dquote); [done|].
  destruct ((b =? ch ";") || (b =? LF) || (b =? CR)) eqn:Hsep.
  { rewrite !orb_true_iff, !Z.eqb_eq in Hsep. intros [= <-]. split; [by left|].
    destruct Hsep as [[->| ->]| ->]; cbn; set_solver. }
  destruct (Z.eqb_spec b (ch "&")) as [->|].
  { case_bool_decide as Hr; [|case_bool_decide; [done|]]; intros [= <-].
    - split; [by right|]. destruct rest as [|c rest]; [done|]. injection Hr as ->. cbn. set_solver.
    - split; [by left|]. cbn. set_solver. }
  destruct (Z.eqb_spec b (ch "|")) as [->|].
  { case_bool_decide as Hr; intros [= <-].
    - split; [by right|]. destruct rest as [|c rest]; [done|]. injection Hr as ->. cbn. set_solver.
    - split; [by left|]. cbn. set_solver. }
  destruct (Z.eqb_spec b (ch ">")); [by repeat case_match|]. by case_match.
Qed.

Lemma blex_covers fuel rest cur s d w t :
  (length rest ≤ fuel)%nat →
  ∃ seps, Forall separator seps ∧
    (length (blex fuel rest cur s d w t) = length seps ∨
     length (blex fuel rest cur s d w t) = S (length seps)) ∧
    reverse cur ++ rest = interleave (blex fuel rest cur s d w t).*1 seps.
Proof.
  revert rest cur s d w t. induction fuel as [|fuel IH]; intros rest cur s d w t Hfuel;
    (destruct rest as [|b rest];
     [exists []; split; [constructor|]; cbn [blex]; rewrite app_nil_r;
      destruct cur; (split; [by auto|done])|]); [cbn in Hfuel; lia|].
  cbn [blex]. destruct (lex_body b rest s d w t) as [n s' d' w' t'|n] eqn:Hbody.
  - apply lex_body_advance in Hbody.
    destruct (IH (drop n (b :: rest)) (reverse (take n (b :: rest)) ++ cur) s' d' w' t') as (seps & Hsep & Hlen & Heq).
    { rewrite length_drop. cbn in *. lia. }
    exists seps. split_and!; [done..|].
    by rewrite <- Heq, reverse_app, reverse_involutive, <- app_assoc, take_drop.
  - apply lex_body_separator in Hbody as [Hn Hsep].
    destruct (IH (drop n (b :: rest)) [] s d false None) as (seps & Hseps & Hlen & Heq).
    { rewrite length_drop. cbn in *. lia. }
    exists (take n (b :: rest) :: seps). split_and!; [by constructor|cbn; lia|].
    csimpl. rewrite <- Heq. cbn [reverse rev_append app]. by rewrite take_drop.
Qed.

Lemma separator_ascii s : separator s → Forall (λ c, 0 ≤ c < 128) s.
Proof.
  unfold separator. revert s. apply Forall_forall. cbn. by repeat constructor.
Qed.

Lemma utf8_interleave texts seps :
  Forall separator seps → utf8 (interleave texts seps) = interleave (utf8 <$> texts) seps.
Proof.
  intros H. revert texts. induction H as [|sep seps Hsep _ IH]; intros [|text texts]; try done.
  cbn [interleave fmap list_fmap]. rewrite !utf8_app. rewrite <- IH. f_equal. f_equal.
  apply utf8_ascii. eapply Forall_impl; [by apply separator_ascii|]. cbn. lia.
Qed.

(** The lexer never panics (every slice it takes is at character
    boundaries), and it loses nothing: the texts of the segments, with the
    separators between them put back, are the command. *)
Theorem lexer_covers command :
  valid_str command →
  ∃ segments seps, lex_segments command = Some segments ∧ Forall separator seps ∧
    (length segments = length seps ∨ length segments = S (length seps)) ∧
    command = interleave (seg_text <$> segments) seps.
Proof.
  intros Hcmd. destruct (lex_segments_cuts command Hcmd) as [-> Htext].
  destruct (blex_covers (length (utf8 command)) (utf8 command) [] false false false None)
    as (seps & Hsep & Hlen & Heq); [done|]. fold (cuts command) in *.
  exists (as_segment <$> cuts command), seps. rewrite length_fmap. split_and!; [done..|].
  assert (Hbytes : utf8 <$> (seg_text <$> (as_segment <$> cuts command)) = (cuts command).*1 ∧
                   Forall valid_str (seg_text <$> (as_segment <$> cuts command))).
  { clear Heq Hlen. induction Htext as [|[bs w] cs (q & Hq & Hbs) _ [IH1 IH2]]; [by split|].
    cbn in Hbs. subst bs. csimpl. rewrite from_utf8_valid by done. by rewrite IH1; split; [|constructor]. }
  destruct Hbytes as [Hbytes Hvalid]. apply utf8_inj; [done| |].
  - clear Heq Hlen Htext Hbytes. revert seps Hsep. induction Hvalid as [|q qs Hq _ IH]; intros seps Hsep;
      [by destruct seps; constructor|].
    destruct Hsep as [|sep seps Hs Hsep]; cbn [interleave]; [done|].
    apply Forall_app; split; [done|]. apply Forall_app; split; [|by apply IH].
    eapply Forall_impl; [by apply separator_ascii|]. unfold is_scalar. cbn. lia.
  - rewrite utf8_interleave by done. rewrite Hbytes. exact Heq.
Qed.

(** ** Commands in sequence *)

(** Quotes are closed and no escape is pending after the bytes, when the scan
    starts inside of a single-quoted ([s]) or double-quoted ([d]) string. *)
Fixpoint closed_from (s d : bool) (bs : list Z) : bool :=
  match bs with
  | [] => negb s && negb d
  | b :: bs1 =>
      if s then closed_from (negb (b =? SQUOTE)) d bs1
      else if d then
        if b =? dquote then closed_from s false bs1
        else if b =? BSLASH then match bs1 with [] => false | _ :: bs2 => closed_from s d bs2 end
        else closed_from s d bs1
      else if b =? BSLASH then match bs1 with [] => false | _ :: bs2 => closed_from s d bs2 end
      else if b =? SQUOTE then closed_from true d bs1
      else if b =? dquote then closed_from s true bs1
      else closed_from s d bs1
  end.

Definition operator_byte (b : Z) : bool := (b =? ch "&") || (b =? ch "|") || (b =? ch ">").
Definition plain_end (bs : list Z) : Prop := ∀ b, last bs = Some b → operator_byte b = false.

Definition B (rest cur : list Z) (s d w : bool) (t : option Z) : list cut :=
  blex (length rest) rest cur s d w t.

Lemma blex_fuel fuel rest cur s d w t :
  (length rest ≤ fuel)%nat → blex fuel rest cur s d w t = B rest cur s d w t.
Proof.
  unfold B. revert rest cur s d w t. induction fuel as [fuel IH] using (well_founded_induction lt_wf).
  intros [|b rest] cur s d w t Hfuel; [by destruct fuel|].
  destruct fuel as [|fuel]; [cbn in Hfuel; lia|]. cbn [length blex].
  destruct (lex_body b rest s d w t) as [n s' d' w' t'|n] eqn:Hbody.
  - apply lex_body_advance in Hbody.
    assert (length (drop n (b :: rest)) ≤ length rest)%nat by (rewrite length_drop; cbn; lia).
    cbn in Hfuel. rewrite IH by lia. destruct (decide (length rest < S fuel)%nat); [|lia].
    by rewrite (IH (length rest)) by lia.
  - apply lex_body_separator in Hbody as [Hn _].
    assert (length (drop n (b :: rest)) ≤ length rest)%nat by (rewrite length_drop; cbn; lia).
    cbn in Hfuel. rewrite IH by lia. by rewrite (IH (length rest)) by lia.
Qed.

Lemma B_step b rest cur s d w t :
  B (b :: rest) cur s d w t =
  match lex_body b rest s d w t with
  | Advance n s d w t => B (drop n (b :: rest)) (reverse (take n (b :: rest)) ++ cur) s d w t
  | Cut n => (reverse cur, w) :: B (drop n (b :: rest)) [] s d false None
  end.
Proof.
  unfold B at 1. cbn [length blex]. destruct (lex_body b rest s d w t) as [n s' d' w' t'|n] eqn:Hbody.
  - apply lex_body_advance in Hbody. apply blex_fuel. rewrite length_drop. cbn. lia.
  - apply lex_body_separator in Hbody as [Hn _]. f_equal. apply blex_fuel. rewrite length_drop. cbn. lia.
Qed.

Lemma plain_end_tail b bs : plain_end (b :: bs) → plain_end bs.
Proof. intros H c Hc. apply H. destruct bs; [done|]. by rewrite last_cons_cons. Qed.

Lemma plain_end_cons b bs : operator_byte b = true → plain_end (b :: bs) → ∃ c cs, bs = c :: cs.
Proof.
  intros Hb H. destruct bs as [|c cs]; [|eauto]. specialize (H b eq_refl). congruence.
Qed.

Lemma closed_skip c x : operator_byte c = true → closed_from false false (c :: x) = closed_from false false x.
Proof.
  unfold operator_byte. rewrite !orb_true_iff, !Z.eqb_eq. by intros [[->| ->]| ->].
Qed.

(** What follows the closed bytes does not change how they are read, and the
    scan stays closed. *)
Definition stays_closed (s d : bool) (bs : list Z) (a : lex_action) : Prop :=
  match a with
  | Advance n s' d' _ _ => (n ≤ length bs)%nat ∧ closed_from s' d' (drop n bs) = true
  | Cut n => (n ≤ length bs)%nat ∧ closed_from s d (drop n bs) = true
  end.

Ltac local_step := split; [reflexivity|]; unfold stays_closed; split; [cbn; lia|cbn [drop]; assumption].

(** The bytes that are not operators look at most one escaped byte ahead. *)
Lemma lex_body_local_plain b x y s d w t :
  operator_byte b = false ∨ s = true ∨ d = true →
  closed_from s d (b :: x) = true →
  lex_body b (x ++ y) s d w t = lex_body b x s d w t ∧ stays_closed s d (b :: x) (lex_body b x s d w t).
Proof.
  intros Hop Hclosed. cbn [closed_from] in Hclosed. unfold lex_body.
  destruct s; [local_step|].
  destruct d.
  { destruct (b =? dquote); [local_step|].
    destruct (b =? BSLASH); [|local_step].
    destruct x as [|c x]; [done|]. local_step. }
  destruct Hop as [Hop|[?|?]]; [|done..]. unfold operator_byte in Hop. to_prop.
  destruct (b =? BSLASH); [destruct x as [|c x]; [done|]; local_step|].
  destruct (b =? SQUOTE); [local_step|].
  destruct (b =? dquote); [local_step|].
  destruct ((b =? ch ";") || (b =? LF) || (b =? CR)); [local_step|].
  rewrite (proj2 (Z.eqb_neq b (ch "&"))), (proj2 (Z.eqb_neq b (ch "|"))), (proj2 (Z.eqb_neq b (ch ">"))) by done.
  destruct ((b =? ch " ") || (b =? TAB)); local_step.
Qed.

(** The operators, outside of strings. *)
Lemma lex_body_amp rest w t :
  lex_body (ch "&") rest false false w t =
  if bool_decide (rest !! 0%nat = Some (ch "&")) then Cut 2
  else if bool_decide (rest !! 0%nat = Some (ch ">")) then Advance 2 false false true None
  else Cut 1.
Proof. reflexivity. Qed.
Lemma lex_body_bar rest w t :
  lex_body (ch "|") rest false false w t =
  if bool_decide (rest !! 0%nat = Some (ch "|")) then Cut 2 else Cut 1.
Proof. reflexivity. Qed.
Lemma lex_body_gt rest w t :
  lex_body (ch ">") rest false false w t =
  let err := bool_decide (t = Some (ch "2")) in
  if bool_decide (rest !! 0%nat = Some (ch "&")) then
    Advance 2 false false
      (w || negb match rest !! 1%nat with Some c => is_ascii_digit c || (c =? ch "-") | None => false end) None
  else if bool_decide (rest !! 0%nat = Some (ch ">")) then Advance 2 false false (w || negb err) None
  else Advance 1 false false (w || negb err) None.
Proof. reflexivity. Qed.

Lemma lex_body_local_operator b x y w t :
  operator_byte b = true → closed_from false false (b :: x) = true → plain_end (b :: x) →
  lex_body b (x ++ y) false false w t = lex_body b x false false w t ∧
  stays_closed false false (b :: x) (lex_body b x false false w t).
Proof.
  intros Hop Hclosed Hend. rewrite closed_skip in Hclosed by done.
  destruct (plain_end_cons b x Hop Hend) as (c & cs & ->). apply plain_end_tail in Hend.
  unfold operator_byte in Hop. rewrite !orb_true_iff, !Z.eqb_eq in Hop.
  destruct Hop as [[->| ->]| ->];
    rewrite ?lex_body_amp, ?lex_body_bar, ?lex_body_gt; cbn [app lookup list_lookup]; cbv zeta.
  - case_bool_decide as H1.
    { injection H1 as ->. rewrite closed_skip in Hclosed by done. local_step. }
    case_bool_decide as H2.
    { injection H2 as ->. rewrite closed_skip in Hclosed by done. local_step. }
    local_step.
  - case_bool_decide as H1.
    { injection H1 as ->. rewrite closed_skip in Hclosed by done. local_step. }
    local_step.
  - case_bool_decide as H1.
    { injection H1 as ->. destruct (plain_end_cons (ch "&") cs eq_refl Hend) as (e & es & ->).
      rewrite closed_skip in Hclosed by done. local_step. }
    case_bool_decide as H2.
    { injection H2 as ->. rewrite closed_skip in Hclosed by done. local_step. }
    local_step.
Qed.

Lemma lex_body_local b x y s d w t :
  closed_from s d (b :: x) = true → plain_end (b :: x) →
  lex_body b (x ++ y) s d w t = lex_body b x s d w t ∧ stays_closed s d (b :: x) (lex_body b x s d w t).
Proof.
  intros Hclosed Hend. destruct s; [apply lex_body_local_plain; auto|].
  destruct d; [apply lex_body_local_plain; auto|].
  destruct (operator_byte b) eqn:Hop; [by apply lex_body_local_operator|].
  apply lex_body_local_plain; auto.
Qed.

Lemma plain_end_drop n bs : plain_end bs → plain_end (drop n bs).
Proof.
  revert n. induction bs as [|b bs IH]; intros [|n] H; try done. apply IH. by eapply plain_end_tail.
Qed.

(** Scanning closed bytes produces cuts and a state that do not depend on what
    comes next. *)
Lemma B_scan x cur s d w t :
  closed_from s d x = true → plain_end x →
  ∃ L cur' w' t', ∀ y, B (x ++ y) cur s d w t = L ++ B y cur' false false w' t'.
Proof.
  revert cur s d w t. induction x as [x IH] using (induction_ltof1 _ length). unfold ltof in IH.
  intros cur s d w t Hclosed Hend. destruct x as [|b x].
  - cbn in Hclosed. destruct s, d; try done. by exists [], cur, w, t.
  - destruct (lex_body_local b x [] s d w t Hclosed Hend) as [_ Hstay].
    assert (Hloc : ∀ y, lex_body b (x ++ y) s d w t = lex_body b x s d w t).
    { intros y. by apply lex_body_local. }
    destruct (lex_body b x s d w t) as [n s' d' w' t'|n] eqn:Hbody; destruct Hstay as [Hle Hclosed'].
    + pose proof (lex_body_advance _ _ _ _ _ _ _ _ _ _ _ Hbody) as Hn.
      destruct (IH (drop n (b :: x))) with (cur := reverse (take n (b :: x)) ++ cur) (s := s') (d := d')
        (w := w') (t := t') as (L & cur' & w'' & t'' & HB);
        [rewrite length_drop; cbn in *; lia|done|by apply plain_end_drop|].
      exists L, cur', w'', t''. intros y. cbn [app]. rewrite B_step, Hloc, <- HB.
      rewrite app_comm_cons, drop_app_le, take_app_le by done. done.
    + pose proof (lex_body_cut _ _ _ _ _ _ _ Hbody) as (-> & -> & _ & Hn).
      destruct (IH (drop n (b :: x))) with (cur := @nil Z) (s := false) (d := false)
        (w := false) (t := @None Z) as (L & cur' & w'' & t'' & HB);
        [rewrite length_drop; destruct Hn as [->|(-> & _)]; cbn in *; lia|done|by apply plain_end_drop|].
      exists ((reverse cur, w) :: L), cur', w'', t''. intros y. cbn [app]. rewrite B_step, Hloc, <- HB.
      rewrite app_comm_cons, drop_app_le by done. done.
Qed.

(** The separator is read as one whatever follows it. *)
Definition cuts_before (sep b : list Z) : Prop :=
  sep ∈ [[ch ";"]; [LF]; [CR]; [ch "&"; ch "&"]; [ch "|"; ch "|"]] ∨
  (sep = [ch "&"] ∧ head b ≠ Some (ch "&") ∧ head b ≠ Some (ch ">")) ∨
  (sep = [ch "|"] ∧ head b ≠ Some (ch "|")).

Lemma B_separator sep b cur w t :
  cuts_before sep b →
  B (sep ++ b) cur false false w t = (reverse cur, w) :: B b [] false false false None.
Proof.
  intros [H|[(-> & H1 & H2)|(-> & H1)]].
  - repeat (apply elem_of_cons in H as [->|H]; [by cbn [app]; rewrite B_step|]).
    by apply elem_of_nil in H.
  - cbn [app]. rewrite B_step, lex_body_amp. rewrite <- head_lookup in *.
    by rewrite !bool_decide_eq_false_2.
  - cbn [app]. rewrite B_step, lex_body_bar. rewrite <- head_lookup in *.
    by rewrite !bool_decide_eq_false_2.
Qed.

Lemma cuts_B command : cuts command = B (utf8 command) [] false false false None.
Proof. done. Qed.

Lemma cuts_sequence a sep b :
  closed_from false false (utf8 a) = true → plain_end (utf8 a) → utf8 sep = sep →
  cuts_before sep (utf8 b) →
  ∃ more, cuts (a ++ sep ++ b) ≡ₚ cuts a ++ cuts b ++ more.
Proof.
  intros Hclosed Hend Hsep Hcut. rewrite !cuts_B, !utf8_app, Hsep.
  destruct (B_scan (utf8 a) [] false false false None Hclosed Hend) as (L & cur & w & t & HB).
  pose proof (HB []) as HB0. rewrite app_nil_r in HB0. rewrite HB, HB0, B_separator by done.
  unfold B at 2. cbn [length blex]. destruct cur as [|c cur].
  - exists [(reverse [], w)]. rewrite app_nil_r. solve_Permutation.
  - exists []. solve_Permutation.
Qed.

(** ** Levels *)
Lemma risk_max_le a b c : risk_le (risk_max a b) c ↔ risk_le a c ∧ risk_le b c.
Proof. unfold risk_max, risk_le. by destruct a, b, c; cbn; split; intros; (lia || done || split; lia). Qed.

#[export] Instance risk_le_po : PreOrder risk_le.
Proof. split; [intros a|intros a b c]; unfold risk_le; lia. Qed.

Lemma dangerous_top a : risk_le a Dangerous.
Proof. by destruct a. Qed.

Lemma worst_le f segments level :
  risk_le (worst f segments) level ↔
  risk_le ReadOnly level ∧ Forall (λ seg, risk_le (f (seg_text seg) (seg_write seg)) level) segments.
Proof.
  induction segments as [|seg segments IH]; cbn [worst foldr]; [by rewrite Forall_nil; tauto|].
  rewrite risk_max_le, Forall_cons, IH. tauto.
Qed.

Lemma worst_submset f l k : l ⊆+ k → risk_le (worst f l) (worst f k).
Proof.
  intros Hsub. apply worst_le. split; [by destruct (worst f k)|].
  apply Forall_forall. intros seg Hin. assert (Hk : seg ∈ k) by by eapply elem_of_submseteq.
  assert (H : risk_le (worst f k) (worst f k)) by done.
  apply worst_le in H as [_ H]. rewrite Forall_forall in H. by apply H.
Qed.

(** ** Patterns of a part are patterns of the whole *)
Lemma starts_with_app_r s t p : starts_with s p = true → starts_with (s ++ t) p = true.
Proof.
  unfold starts_with. revert s. induction p as [|x p IH]; intros [|y s]; cbn [app strip_prefix]; try done.
  by destruct (x =? y); [apply IH|].
Qed.

Lemma contains_app_r s t p : contains s p = true → contains (s ++ t) p = true.
Proof.
  induction s as [|c s IH]; cbn [contains app].
  - rewrite orb_false_r. intros H%(starts_with_app_r [] t). cbn [app] in H.
    destruct t; cbn [contains]; by rewrite H.
  - rewrite !orb_true_iff. intros [H|H]; [left|right; auto].
    by apply (starts_with_app_r (c :: s)).
Qed.

Lemma contains_app_l s t p : contains t p = true → contains (s ++ t) p = true.
Proof.
  intros H. induction s as [|c s IH]; [done|]. cbn [contains app]. by rewrite IH, orb_true_r.
Qed.

Lemma contains_char_app s t c : contains_char (s ++ t) c = contains_char s c || contains_char t c.
Proof. apply existsb_app. Qed.

Lemma subshell_part s t u : has_subshell_syntax t = true → has_subshell_syntax (s ++ t ++ u) = true.
Proof.
  unfold has_subshell_syntax. rewrite !orb_true_iff, !contains_char_app, !orb_true_iff.
  intros [[[H|H]|H]|H].
  - left; left; left. apply contains_app_l, contains_app_r, H.
  - tauto.
  - left; right. apply contains_app_l, contains_app_r, H.
  - right. apply contains_app_l, contains_app_r, H.
Qed.

Lemma patterns_part patterns s t u :
  lower_contains patterns t = true → lower_contains patterns (s ++ t ++ u) = true.
Proof.
  unfold lower_contains. rewrite !existsb_exists. intros (p & Hp & H). exists p. split; [done|].
  unfold to_ascii_lowercase. rewrite !fmap_app. by apply contains_app_l, contains_app_r.
Qed.

Lemma cuts_before_ascii sep b : cuts_before sep b → Forall (λ c, 0 ≤ c < 128) sep.
Proof.
  intros [H|[(-> & _)|(-> & _)]]; [|by repeat constructor..].
  revert sep H. apply Forall_forall. by repeat constructor.
Qed.

Section Safety.
Context {unicode : UnicodeTables}.

(** The classifier of one segment on a platform. *)
Definition segment_level (platform : TargetPlatform) : str → bool → RiskLevel :=
  if bool_decide (platform = Unix) then classify_segment else classify_windows_segment.

Lemma classify_command_for_eq command platform :
  classify_command_for command platform =
  if has_subshell_syntax command then Some Dangerous else
  if lower_contains DANGEROUS_PATTERNS command then Some Dangerous else
  worst (segment_level platform) <$> lex_segments command.
Proof. unfold classify_command_for, segment_level, classify_command. by case_bool_decide. Qed.

Lemma part_le platform part whole lp lw :
  (has_subshell_syntax part = true → has_subshell_syntax whole = true) →
  (lower_contains DANGEROUS_PATTERNS part = true → lower_contains DANGEROUS_PATTERNS whole = true) →
  valid_str part → valid_str whole → cuts part ⊆+ cuts whole →
  classify_command_for part platform = Some lp → classify_command_for whole platform = Some lw →
  risk_le lp lw.
Proof.
  intros Hsub Hpat Hvp Hvw Hcuts. rewrite !classify_command_for_eq.
  destruct (has_subshell_syntax whole); [intros _ [= <-]; apply dangerous_top|].
  destruct (has_subshell_syntax part); [by discriminate Hsub|].
  destruct (lower_contains _ whole); [intros _ [= <-]; apply dangerous_top|].
  destruct (lower_contains _ part); [by discriminate Hpat|].
  destruct (lex_segments_cuts part Hvp) as [-> _]. destruct (lex_segments_cuts whole Hvw) as [-> _].
  intros [= <-] [= <-]. apply worst_submset. by apply fmap_submseteq.
Qed.

Lemma classify_total command platform :
  valid_str command → ∃ level, classify_command_for command platform = Some level.
Proof.
  intros Hv. rewrite classify_command_for_eq. destruct (lex_segments_cuts command Hv) as [-> _].
  repeat case_match; eauto.
Qed.

(** Nothing hides behind a separator.  When the quotes and escapes of [a]
    are closed and it does not end in an operator, then the command [a sep b] is
    classified, on either platform, at least as high as [a] and as [b]. *)
Theorem sequence_not_hidden platform a sep b :
  valid_str a → valid_str b →
  closed_from false false (utf8 a) = true → plain_end (utf8 a) → cuts_before sep (utf8 b) →
  ∃ la lb l,
    classify_command_for a platform = Some la ∧ classify_command_for b platform = Some lb ∧
    classify_command_for (a ++ sep ++ b) platform = Some l ∧
    risk_le la l ∧ risk_le lb l.
Proof.
  intros Hva Hvb Hclosed Hend Hcut.
  pose proof (cuts_before_ascii sep _ Hcut) as Hsep.
  assert (Hvsep : valid_str sep).
  { eapply Forall_impl; [exact Hsep|]. unfold is_scalar. cbn. lia. }
  assert (Hbytes : utf8 sep = sep).
  { apply utf8_ascii. eapply Forall_impl; [exact Hsep|]. cbn. lia. }
  assert (Hv : valid_str (a ++ sep ++ b)) by by repeat (apply Forall_app; split).
  destruct (cuts_sequence a sep b Hclosed Hend Hbytes Hcut) as (more & Hperm).
  destruct (classify_total a platform Hva) as [la Ha].
  destruct (classify_total b platform Hvb) as [lb Hb].
  destruct (classify_total (a ++ sep ++ b) platform Hv) as [l Hl].
  exists la, lb, l. split_and!; [done..| |].
  - apply (part_le platform a (a ++ sep ++ b)); try done.
    + apply (subshell_part [] a).
    + apply (patterns_part _ [] a).
    + rewrite Hperm. apply submseteq_inserts_r. done.
  - apply (part_le platform b (a ++ sep ++ b)); try done.
    + intros H. pose proof (subshell_part (a ++ sep) b [] H) as H'. by rewrite app_nil_r, <- app_assoc in H'.
    + intros H. pose proof (patterns_part _ (a ++ sep) b [] H) as H'. by rewrite app_nil_r, <- app_assoc in H'.
    + rewrite Hperm. by apply submseteq_inserts_l, submseteq_inserts_r.
Qed.

(** ** What runs without approval *)
Lemma one_of_spec s l : one_of s l = true ↔ s ∈ l.
Proof.
  unfold one_of. rewrite existsb_exists. setoid_rewrite bool_decide_eq_true.
  setoid_rewrite <- list_elem_of_In. naive_solver.
Qed.

(** The white-listed commands that no other table takes back. *)
Definition SAFE_CMDS : list str :=
  filter (λ c, one_of c DELETE_CMDS = false ∧ one_of c MODIFY_CMDS = false) READONLY_CMDS.

Definition command_base (segment : str) : str :=
  last_piece (Z.eqb (ch "/")) (to_ascii_lowercase (first_token segment)).

(** The segments whose level is [ReadOnly]. *)
Record auto_segment (segment : str) (has_write : bool) : Prop := {
  auto_pattern : lower_contains DANGEROUS_PATTERNS segment = false;
  auto_rm : is_dangerous_rm segment = false;
  auto_command :
    let base := command_base segment in
    let words := split_whitespace segment in
    (base ∈ lit <$> ["systemctl"; "service"]%string ∧ ∃ word, word ∈ words ∧ word ∈ SERVICE_QUERIES) ∨
    (base ∈ lit <$> ["docker"; "podman"; "nerdctl"]%string ∧
       container_level (default [] (words !! 1%nat)) (default [] (words !! 2%nat)) = ReadOnly) ∨
    (base = lit "kubectl" ∧ kubectl_level (default [] (words !! 1%nat)) = ReadOnly) ∨
    (has_write = false ∧ base ∈ SAFE_CMDS ∧
       (base = lit "find" → find_has_exec_side_effect words = false) ∧
       (base = lit "awk" → awk_has_side_effect segment = false) ∧
       (base ∈ lit <$> ["curl"; "wget"]%string → download_tool_uploads words = false));
}.

Lemma service_query words :
  existsb (λ sub, existsb (λ word, bool_decide (word = sub)) words) SERVICE_QUERIES = true ↔
  ∃ word, word ∈ words ∧ word ∈ SERVICE_QUERIES.
Proof.
  rewrite existsb_exists. setoid_rewrite existsb_exists. setoid_rewrite bool_decide_eq_true.
  setoid_rewrite <- list_elem_of_In. naive_solver.
Qed.

(** The safe commands are none of the tools that are treated separately. *)
Lemma safe_not_special base :
  base ∈ SAFE_CMDS →
  one_of base (lit <$> ["systemctl"; "service"]%string) = false ∧
  one_of base (lit <$> ["docker"; "podman"; "nerdctl"]%string) = false ∧
  base ≠ lit "kubectl" ∧ base ≠ [] ∧ one_of base DELETE_CMDS = false ∧ one_of base MODIFY_CMDS = false ∧
  one_of base READONLY_CMDS = true.
Proof. revert base. apply Forall_forall. decide_now. Qed.

Lemma safe_intro base :
  one_of base DELETE_CMDS = false → one_of base MODIFY_CMDS = false → one_of base READONLY_CMDS = true →
  base ∈ SAFE_CMDS.
Proof. intros ? ? H%one_of_spec. unfold SAFE_CMDS. by apply list_elem_of_filter. Qed.

Lemma base_token segment : command_base segment ≠ [] → to_ascii_lowercase (first_token segment) ≠ [].
Proof. intros H Heq. apply H. unfold command_base. by rewrite Heq. Qed.

Lemma readonly_auto segment has_write :
  classify_segment segment has_write = ReadOnly → auto_segment segment has_write.
Proof.
  unfold classify_segment. fold (command_base segment). cbv zeta.
  destruct (lower_contains DANGEROUS_PATTERNS segment) eqn:Hpat; [done|].
  destruct (is_dangerous_rm segment) eqn:Hrm; [done|].
  intros H. split; [done..|]. cbv zeta.
  destruct (one_of (command_base segment) (lit <$> ["systemctl"; "service"]%string)) eqn:E1.
  { left. split; [by apply one_of_spec|]. destruct (existsb _ SERVICE_QUERIES) eqn:E; [|done].
    by apply service_query. }
  right. destruct (one_of (command_base segment) (lit <$> ["docker"; "podman"; "nerdctl"]%string)) eqn:E2.
  { left. split; [by apply one_of_spec|done]. }
  right. case_bool_decide as E3; [by left|]. right.
  destruct (has_write && _ && _) eqn:Hw; [done|].
  destruct (bool_decide (command_base segment = lit "find") && _) eqn:Hfind; [done|].
  destruct (bool_decide (command_base segment = lit "awk") && _) eqn:Hawk; [done|].
  destruct (one_of (command_base segment) (lit <$> ["curl"; "wget"]%string) && _) eqn:Hcurl; [done|].
  destruct (one_of _ DELETE_CMDS) eqn:Hd; [done|]. destruct (one_of _ MODIFY_CMDS) eqn:Hm; [done|].
  destruct (one_of _ READONLY_CMDS) eqn:Hr; [|done].
  pose proof (safe_intro _ Hd Hm Hr) as Hsafe.
  destruct (safe_not_special _ Hsafe) as (_ & _ & _ & Hne & _).
  split_and!; [|done|..].
  - rewrite !bool_decide_eq_false_2 in Hw by auto using base_token. by destruct has_write.
  - intros Heq. by rewrite Heq in Hfind.
  - intros Heq. by rewrite Heq in Hawk.
  - intros Hin%one_of_spec. by rewrite Hin in Hcurl.
Qed.

Lemma auto_readonly segment has_write :
  auto_segment segment has_write → classify_segment segment has_write = ReadOnly.
Proof.
  intros [Hpat Hrm Hcmd]. cbv zeta in Hcmd. unfold classify_segment. fold (command_base segment). cbv zeta.
  rewrite Hpat, Hrm.
  destruct Hcmd as [[Hb Hq]|[[Hb Hq]|[[Hb Hq]|(-> & Hsafe & Hfind & Hawk & Hcurl)]]].
  - apply one_of_spec in Hb. rewrite Hb. by rewrite (proj2 (service_query _) Hq).
  - assert (Hnot : one_of (command_base segment) (lit <$> ["systemctl"; "service"]%string) = false).
    { revert Hb. generalize (command_base segment). apply Forall_forall. decide_now. }
    rewrite Hnot. apply one_of_spec in Hb. by rewrite Hb.
  - rewrite Hb. exact Hq.
  - destruct (safe_not_special _ Hsafe) as (-> & -> & Hk & _ & -> & -> & ->).
    rewrite (bool_decide_eq_false_2 _ Hk). cbn [andb].
    assert (bool_decide (command_base segment = lit "find")
      && find_has_exec_side_effect (split_whitespace segment) = false) as ->.
    { case_bool_decide as E; [|done]. by rewrite Hfind. }
    assert (bool_decide (command_base segment = lit "awk") && awk_has_side_effect segment = false) as ->.
    { case_bool_decide as E; [|done]. by rewrite Hawk. }
    destruct (one_of _ (lit <$> ["curl"; "wget"]%string)) eqn:E; [|done].
    rewrite Hcurl; [done|]. by apply one_of_spec.
Qed.

Lemma worst_readonly f segments :
  worst f segments = ReadOnly ↔ Forall (λ seg, f (seg_text seg) (seg_write seg) = ReadOnly) segments.
Proof.
  assert (Hro : ∀ l, risk_le l ReadOnly ↔ l = ReadOnly) by by intros [].
  rewrite <- Hro, worst_le. setoid_rewrite Hro. tauto.
Qed.

(** A command runs without approval in the default mode exactly when it has
    no substitution syntax and no dangerous pattern and every segment the lexer
    finds is a query: a white-listed command that is in no other table, without
    write redirection or side-effect arguments, or a query subcommand of a
    service, container or cluster tool. *)
Theorem auto_run_exact command level :
  classify_command command = Some level →
  needs_approval Approval level = false ↔
  has_subshell_syntax command = false ∧ lower_contains DANGEROUS_PATTERNS command = false ∧
  ∃ segments, lex_segments command = Some segments ∧
    Forall (λ seg, auto_segment (seg_text seg) (seg_write seg)) segments.
Proof.
  intros Hlevel. assert (needs_approval Approval level = false ↔ level = ReadOnly) as -> by by destruct level.
  unfold classify_command in Hlevel.
  destruct (has_subshell_syntax command); [split; [naive_solver|by intros (? & _)]|].
  destruct (lower_contains _ command); [split; [naive_solver|by intros (_ & ? & _)]|].
  destruct (lex_segments command) as [segments|]; [|done]. injection Hlevel as <-.
  rewrite worst_readonly. split.
  - intros Hall. split_and!; [done..|]. exists segments. split; [done|].
    eapply Forall_impl; [exact Hall|]. intros seg. apply readonly_auto.
  - intros (_ & _ & segs & [= <-] & Hall). eapply Forall_impl; [exact Hall|]. intros seg. apply auto_readonly.
Qed.

(** ** The command word *)
Lemma first_token_loop_words fuel rest :
  (length rest < fuel)%nat → no_ws_head rest = true →
  first_token_loop fuel rest = default [] (head (skip_prefixes (split_whitespace rest))).
Proof.
  revert rest. induction fuel as [|fuel IH]; intros rest Hfuel Hhead; [lia|].
  cbn [first_token_loop]. set (nw := λ c, negb (is_whitespace c)).
  destruct rest as [|c rest]; [done|].
  assert (Htok : take_while nw (c :: rest) = c :: take_while nw rest).
  { cbn [take_while]. unfold nw at 1. cbn in Hhead. by rewrite Hhead. }
  pose proof (words_cons (c :: rest)) as Hw. fold nw in Hw. rewrite Htok in *.
  rewrite Hw by done. cbn [skip_prefixes].
  destruct (is_assignment (c :: take_while nw rest) || is_prefix (c :: take_while nw rest)); [|done].
  rewrite IH; [by rewrite words_trim| |apply trim_start_head].
  pose proof (length_drop_while is_whitespace (drop_while nw (c :: rest))) as H1.
  assert (length (drop_while nw (c :: rest)) < S (length rest))%nat as H2.
  { cbn [drop_while]. unfold nw at 1. cbn in Hhead. rewrite Hhead.
    pose proof (length_drop_while nw rest). cbn. lia. }
  unfold trim_start. cbn in Hfuel. lia.
Qed.

Lemma first_token_head segment :
  first_token segment = default [] (head (skip_prefixes (split_whitespace segment))).
Proof.
  unfold first_token. rewrite first_token_loop_words; [by rewrite words_trim| |apply trim_start_head].
  pose proof (length_drop_while is_whitespace segment). unfold trim_start. lia.
Qed.

(** The two functions that look for the command word agree: [first_token]
    finds the first word of the segment that is neither an assignment nor a
    prefix command, the word at which [is_dangerous_rm] starts to look for [rm]. *)
Theorem first_token_is_command_word segment :
  first_token segment = default [] (head (skip_prefixes (split_whitespace segment))) ∧
  (is_dangerous_rm segment = true →
   last_piece (Z.eqb (ch "/")) (first_token segment) = lit "rm").
Proof.
  split; [apply first_token_head|]. rewrite first_token_head. unfold is_dangerous_rm.
  destruct (skip_prefixes _) as [|cmd words]; [done|]. cbn [head from_option id].
  destruct (bool_decide _) eqn:E; [|done]. intros _. by apply bool_decide_eq_true in E.
Qed.

(** ** Where the classification falls short *)

(** A write redirection does not make a query of a service, container or
    cluster tool a modification: for these tools the flag of the lexer has no
    influence, although for any other command it excludes [ReadOnly]. *)
Theorem query_tools_ignore_redirects segment :
  (command_base segment ∈ lit <$> ["systemctl"; "service"; "docker"; "podman"; "nerdctl"; "kubectl"]%string →
   classify_segment segment true = classify_segment segment false) ∧
  (command_base segment ∉ lit <$> ["systemctl"; "service"; "docker"; "podman"; "nerdctl"; "kubectl"]%string →
   classify_segment segment true ≠ ReadOnly).
Proof.
  split.
  - intros Hb. unfold classify_segment. fold (command_base segment). cbv zeta.
    destruct (lower_contains _ segment); [done|]. destruct (is_dangerous_rm segment); [done|].
    revert Hb. generalize (command_base segment). apply Forall_forall. by repeat constructor.
  - intros Hb Hro%readonly_auto. destruct Hro as [_ _ H]. cbv zeta in H.
    cbn [fmap list_fmap] in *. rewrite !elem_of_cons in *. naive_solver.
Qed.

(** Prefix commands with an argument of their own. *)
Definition ARGUMENT_PREFIXES : list (str * str) :=
  (λ '(p, a), (lit p, lit a)) <$>
    [("sudo", "-u"); ("timeout", "5"); ("nice", "-n"); ("env", "-i"); ("stdbuf", "-oL")]%string.

Lemma prefix_argument_words prefix arg rest :
  (prefix, arg) ∈ ARGUMENT_PREFIXES →
  split_whitespace (prefix ++ [32] ++ arg ++ [32] ++ rest) = prefix :: arg :: split_whitespace rest.
Proof.
  intros H. unfold split_whitespace.
  assert (prefix ≠ [] ∧ arg ≠ [] ∧ Forall (λ c, is_whitespace c = false) prefix ∧
          Forall (λ c, is_whitespace c = false) arg) as (H1 & H2 & H3 & H4).
  { revert H. generalize prefix arg. intros p a. revert p a.
    cut (Forall (λ pa : str * str, pa.1 ≠ [] ∧ pa.2 ≠ [] ∧ Forall (λ c, is_whitespace c = false) pa.1 ∧
           Forall (λ c, is_whitespace c = false) pa.2) ARGUMENT_PREFIXES).
    - rewrite Forall_forall. intros Hall p a Hin. apply (Hall (p, a) Hin).
    - decide_now. }
  cbn [app]. by rewrite !pieces_word.
Qed.

(** The arguments of a prefix command hide the command behind it.  Whatever
    follows [sudo -u], [timeout 5], [nice -n], [env -i] or [stdbuf -oL], [rm] of
    the root directory included, is classified [Modify] unless it has one of the
    substring patterns; in the mode [Full] it then runs without approval. *)
Theorem prefix_arguments_hide_command prefix arg rest :
  (prefix, arg) ∈ ARGUMENT_PREFIXES →
  let segment := prefix ++ [32] ++ arg ++ [32] ++ rest in
  lower_contains DANGEROUS_PATTERNS segment = false →
  classify_segment segment false = Modify ∧ needs_approval Full Modify = false.
Proof.
  intros Hin segment Hpat. split; [|done].
  assert (Hfirst : first_token segment = arg ∧ is_dangerous_rm segment = false).
  { rewrite first_token_head. unfold is_dangerous_rm, segment. rewrite prefix_argument_words by done.
    clear Hpat segment. revert prefix arg Hin.
    cut (Forall (λ pa : str * str, ∀ ws,
      default [] (head (skip_prefixes (pa.1 :: pa.2 :: ws))) = pa.2 ∧
      (match skip_prefixes (pa.1 :: pa.2 :: ws) with
       | [] => false
       | cmd :: words =>
           if negb (bool_decide (last_piece (Z.eqb (ch "/")) cmd = lit "rm")) then false else
           let '(recursive, force, targets) := rm_args words false false [] in
           if negb (recursive && force) then false else existsb (λ arg, one_of arg RM_TARGETS) targets
       end) = false) ARGUMENT_PREFIXES).
    - rewrite Forall_forall. intros Hall p a Hin. apply (Hall (p, a) Hin).
    - by repeat constructor. }
  destruct Hfirst as [Hfirst Hrm]. unfold classify_segment. rewrite Hpat, Hrm, Hfirst.
  clear Hpat Hrm Hfirst. revert segment. unfold ARGUMENT_PREFIXES in Hin. cbn [fmap list_fmap] in Hin.
  repeat (apply elem_of_cons in Hin as [Hin|Hin];
          [apply pair_eq in Hin as [-> ->]; intros segment; cbv zeta; reflexivity|]).
  by apply elem_of_nil in Hin.
Qed.
End Safety.

(** ** The theorems at concrete commands *)
Module Examples.
#[local] Existing Instance ascii_tables.

Lemma lexer_covers_witness :
  ∃ segments seps, lex_segments (lit "echo 'a;b' x>f && ls | wc") = Some segments ∧
    seg_write <$> segments = [true; false; false] ∧ Forall separator seps ∧
    lit "echo 'a;b' x>f && ls | wc" = interleave (seg_text <$> segments) seps.
Proof.
  destruct (lexer_covers (lit "echo 'a;b' x>f && ls | wc")) as (segments & seps & Hlex & Hsep & _ & Heq).
  { decide_now. }
  exists segments, seps. split_and!; [done| |done..]. vm_compute in Hlex. by injection Hlex as <-.
Defined.

Lemma sequence_not_hidden_witness :
  ∃ l, classify_command_for (lit "echo ok" ++ [LF] ++ lit "rm -rf /") Unix = Some l ∧
       risk_le Dangerous l.
Proof.
  destruct (sequence_not_hidden Unix (lit "echo ok") [LF] (lit "rm -rf /"))
    as (la & lb & l & Ha & Hb & Hl & _ & Hle).
  - decide_now.
  - decide_now.
  - by vm_compute.
  - intros b [= <-]. by vm_compute.
  - left. apply (bool_decide_unpack _). by vm_compute.
  - exists l. split; [done|]. vm_compute in Hb. by injection Hb as <-.
Defined.

Lemma auto_run_exact_witness :
  classify_command (lit "docker ps > /etc/passwd") = Some ReadOnly ∧
  ∃ segments, lex_segments (lit "docker ps > /etc/passwd") = Some segments ∧
    Forall (λ seg, auto_segment (seg_text seg) (seg_write seg)) segments.
Proof.
  split; [by vm_compute|].
  apply (auto_run_exact (lit "docker ps > /etc/passwd") ReadOnly); by vm_compute.
Defined.

Lemma prefix_arguments_hide_command_witness :
  classify_segment (lit "sudo" ++ [32] ++ lit "-u" ++ [32] ++ lit "root rm -rf /") false = Modify ∧
  needs_approval Full Modify = false.
Proof.
  apply prefix_arguments_hide_command; [|by vm_compute].
  apply (bool_decide_unpack _). by vm_compute.
Defined.

Lemma query_tools_ignore_redirects_witness :
  classify_segment (lit "kubectl get pods") true = classify_segment (lit "kubectl get pods") false ∧
  classify_segment (lit "ls") true ≠ ReadOnly.
Proof.
  split.
  - apply query_tools_ignore_redirects. apply (bool_decide_unpack _). by vm_compute.
  - apply query_tools_ignore_redirects. apply (bool_decide_unpack _). by vm_compute.
Defined.

Lemma first_token_is_command_word_witness :
  first_token (lit "FOO=1 sudo /bin/rm -r -f /home") = lit "/bin/rm" ∧
  last_piece (Z.eqb (ch "/")) (first_token (lit "FOO=1 sudo /bin/rm -r -f /home")) = lit "rm".
Proof.
  split; [by vm_compute|].
  apply (first_token_is_command_word (lit "FOO=1 sudo /bin/rm -r -f /home")). by vm_compute.
Defined.
End Examples.
