(* ===== verification/TaskRegistry.v ===== *)
(** * The transfer task registry ([crates/kaduox-ssh-transfer/src/transfer_task.rs])

    Tracked transfers and their life cycle.  The registry is one value behind a
    mutex; its cancellation tokens are shared flags that the registration and the
    running transfer alias, so the state is a [world]: the registry and the store
    of the flags.  An operation returns its result and the world it leaves, also
    when it fails.  (A poisoned mutex, which needs a panic while it is held, is
    not modelled: no operation below panics.)

    The second half is the task manager ([transfer_task_manager.rs]), which
    drives one task through the registry while other clients use it too. *)

From stdpp Require Import base list gmap strings numbers sorting.
From Stdlib Require Import Lia.
From S2P Require Import Prelude RustStr StrFacts.

Definition DEFAULT_TRANSFER_TASK_RETENTION : Z := 128.
Definition MAX_TRANSFER_TASK_RETENTION : Z := 1024.
Definition MAX_TRANSFER_TASK_TEXT_BYTES : Z := 16 * 1024.

(** ** Data *)
Inductive TransferDirection := Upload | Download.
#[export] Instance direction_eq_dec : EqDecision TransferDirection.
Proof. solve_decision. Defined.

Record TransferEvent := mk_event {
  ev_direction : TransferDirection;
  ev_path : str;
  ev_bytes : Z;
  ev_total : option Z;
  ev_completed : bool;
}.

Record TransferSummary := mk_summary {
  sum_files : Z; sum_directories : Z; sum_bytes : Z; sum_skipped : Z;
}.

Inductive TransferTaskKind := UploadFile | UploadDirectory | DownloadFile | DownloadDirectory.
#[export] Instance kind_eq_dec : EqDecision TransferTaskKind.
Proof. solve_decision. Defined.
Definition direction (k : TransferTaskKind) : TransferDirection :=
  match k with UploadFile | UploadDirectory => Upload | DownloadFile | DownloadDirectory => Download end.
Definition recursive (k : TransferTaskKind) : bool :=
  match k with UploadDirectory | DownloadDirectory => true | _ => false end.

Inductive TransferTaskState := Queued | Running | Completed | Cancelled | Failed.
#[export] Instance state_eq_dec : EqDecision TransferTaskState.
Proof. solve_decision. Defined.
Definition is_terminal (s : TransferTaskState) : bool :=
  match s with Completed | Cancelled | Failed => true | _ => false end.

Record TransferTaskProgress := mk_progress {
  pr_path : str; pr_bytes : Z; pr_total : option Z; pr_completed : bool;
}.

Record TransferTaskSnapshot := mk_snapshot {
  ts_id : Z;
  ts_kind : TransferTaskKind;
  ts_source : str;
  ts_destination : str;
  ts_state : TransferTaskState;
  ts_cancel_requested : bool;
  ts_progress : option TransferTaskProgress;
  ts_summary : option TransferSummary;
  ts_error : option str;
  ts_retry_of : option Z;
}.

(** A [TransferCancellation] is the address of its shared flag. *)
Definition Token : Type := N.
Record TaskRecord := mk_task { t_snapshot : TransferTaskSnapshot; t_cancellation : Token }.
Record TransferTaskRegistration := mk_registration { reg_id : Z; reg_cancellation : Token }.

Record RegistryInner := mk_inner {
  next_id : Z;
  max_retained : Z;
  tasks : gmap Z TaskRecord;
  order : list Z;
}.

(** The flags allocated so far are those below [w_fresh]. *)
Record world := mk_world { w_inner : RegistryInner; w_flags : gmap N bool; w_fresh : N }.

Definition task_op (A : Type) : Type := world → result A * world.

Definition set_inner (w : world) (inner : RegistryInner) : world :=
  mk_world inner (w_flags w) (w_fresh w).
Definition set_tasks (inner : RegistryInner) (ts : gmap Z TaskRecord) : RegistryInner :=
  mk_inner (next_id inner) (max_retained inner) ts (order inner).
(** Write through [task_mut]. *)
Definition put_task (w : world) (id : Z) (t : TaskRecord) : world :=
  set_inner w (set_tasks (w_inner w) (<[ id := t ]> (tasks (w_inner w)))).

Definition set_state (s : TransferTaskSnapshot) (state : TransferTaskState) : TransferTaskSnapshot :=
  mk_snapshot (ts_id s) (ts_kind s) (ts_source s) (ts_destination s) state (ts_cancel_requested s)
    (ts_progress s) (ts_summary s) (ts_error s) (ts_retry_of s).
Definition set_cancel_requested (s : TransferTaskSnapshot) : TransferTaskSnapshot :=
  mk_snapshot (ts_id s) (ts_kind s) (ts_source s) (ts_destination s) (ts_state s) true
    (ts_progress s) (ts_summary s) (ts_error s) (ts_retry_of s).
Definition set_progress (s : TransferTaskSnapshot) (p : TransferTaskProgress) : TransferTaskSnapshot :=
  mk_snapshot (ts_id s) (ts_kind s) (ts_source s) (ts_destination s) (ts_state s) (ts_cancel_requested s)
    (Some p) (ts_summary s) (ts_error s) (ts_retry_of s).
Definition set_outcome (s : TransferTaskSnapshot) (summary : option TransferSummary) (error : option str)
    : TransferTaskSnapshot :=
  mk_snapshot (ts_id s) (ts_kind s) (ts_source s) (ts_destination s) (ts_state s) (ts_cancel_requested s)
    (ts_progress s) summary error (ts_retry_of s).

(** [TransferCancellation::cancel] and [is_cancelled]. *)
Definition cancel_token (tok : Token) (w : world) : world :=
  mk_world (w_inner w) (<[ tok := true ]> (w_flags w)) (w_fresh w).
Definition is_cancelled (tok : Token) (w : world) : bool := default false (w_flags w !! tok).
(** [TransferCancellation::default] *)
Definition new_token (w : world) : Token * world :=
  (w_fresh w, mk_world (w_inner w) (<[ w_fresh w := false ]> (w_flags w)) (N.succ (w_fresh w))).

(** ** Texts *)
Definition validate_task_text (value : str) : result unit :=
  if bool_decide (value = []) then Err "transfer task text must not be empty"
  else bail_if (MAX_TRANSFER_TASK_TEXT_BYTES <? str_len value) "transfer task text is too long".

(** The loop [while !value.is_char_boundary(end) { end -= 1 }]; [end] is unsigned,
    so below 0 it would panic: [None]. *)
Fixpoint floor_boundary (fuel : nat) (value : str) (end_ : Z) : option Z :=
  if is_char_boundary value end_ then Some end_
  else match fuel with
  | O => None
  | S fuel => if end_ =? 0 then None else floor_boundary fuel value (end_ - 1)
  end.

Definition bounded_text (value : str) : option str :=
  if str_len value <=? MAX_TRANSFER_TASK_TEXT_BYTES then Some value
  else
    end_ ← floor_boundary (Z.to_nat MAX_TRANSFER_TASK_TEXT_BYTES) value MAX_TRANSFER_TASK_TEXT_BYTES;
    output ← slice value 0 end_;
    Some (output ++ lit "...").

(** ** The registry *)
Definition validate_retention (max : Z) : result unit :=
  bail_if (max =? 0) "transfer task retention must be greater than zero" ≫= λ _,
  bail_if (MAX_TRANSFER_TASK_RETENTION <? max) "transfer task retention is too large".

Definition registry_default : RegistryInner := mk_inner 1 DEFAULT_TRANSFER_TASK_RETENTION ∅ [].
Definition registry_new (max : Z) : result RegistryInner :=
  validate_retention max ≫= λ _, Ok (mk_inner 1 max ∅ []).

Definition task_terminal (inner : RegistryInner) (id : Z) : bool :=
  match tasks inner !! id with Some t => is_terminal (ts_state (t_snapshot t)) | None => false end.

(** The id may be evicted: its task is gone ([is_none_or]) or terminal. *)
Definition evictable (inner : RegistryInner) (id : Z) : bool :=
  match tasks inner !! id with Some t => is_terminal (ts_state (t_snapshot t)) | None => true end.

Definition evict (inner : RegistryInner) (position : nat) (id : Z) : RegistryInner :=
  mk_inner (next_id inner) (max_retained inner) (delete id (tasks inner)) (delete position (order inner)).

(** The loop of [make_capacity]: every turn shortens [order]. *)
Fixpoint make_capacity (fuel : nat) (inner : RegistryInner) : result unit * RegistryInner :=
  if Z.of_nat (size (tasks inner)) <? max_retained inner then (Ok tt, inner)
  else match fuel with
  | O => (Err "fuel", inner)
  | S fuel =>
      match list_find (λ id, evictable inner id = true) (order inner) with
      | Some (position, id) => make_capacity fuel (evict inner position id)
      | None => (Err "transfer task registry is full", inner)
      end
  end.

Definition has_conflict (inner : RegistryInner) (d : TransferDirection) (destination : str) : bool :=
  existsb (λ '(_, t),
    negb (is_terminal (ts_state (t_snapshot t)))
    && bool_decide (direction (ts_kind (t_snapshot t)) = d)
    && bool_decide (ts_destination (t_snapshot t) = destination)) (map_to_list (tasks inner)).

Definition register_locked (kind : TransferTaskKind) (source destination : str) (retry_of : option Z)
    : task_op TransferTaskRegistration := λ w,
  if has_conflict (w_inner w) (direction kind) destination
  then (Err "a task is already writing this destination", w) else
  let '(capacity, inner) := make_capacity (S (length (order (w_inner w)))) (w_inner w) in
  let w := set_inner w inner in
  match capacity with Err e => (Err e, w) | Ok _ =>
  let id := next_id inner in
  match checked_add u64_max id 1 with
  | None => (Err "transfer task id counter overflow", w)
  | Some next =>
      let '(tok, w) := new_token w in
      let snapshot := mk_snapshot id kind source destination Queued false None None None retry_of in
      let inner := mk_inner next (max_retained inner) (<[ id := mk_task snapshot tok ]> (tasks inner))
                     (order inner ++ [id]) in
      (Ok (mk_registration id tok), set_inner w inner)
  end end.

Definition register (kind : TransferTaskKind) (source destination : str)
    : task_op TransferTaskRegistration := λ w,
  match validate_task_text source with Err e => (Err e, w) | Ok _ =>
  match validate_task_text destination with Err e => (Err e, w) | Ok _ =>
  register_locked kind source destination None w
  end end.

Definition register_retry (previous : Z) : task_op TransferTaskRegistration := λ w,
  match tasks (w_inner w) !! previous with
  | None => (Err "unknown transfer task id", w)
  | Some t =>
      let s := t_snapshot t in
      if bool_decide (ts_state s = Cancelled) || bool_decide (ts_state s = Failed)
      then register_locked (ts_kind s) (ts_source s) (ts_destination s) (Some previous) w
      else (Err "transfer task can only be retried after cancellation or failure", w)
  end.

(** [task_mut(&mut inner, id)?], and what is done with the record. *)
Definition with_task {A} (id : Z) (f : TaskRecord → task_op A) : task_op A := λ w,
  match tasks (w_inner w) !! id with
  | None => (Err "unknown transfer task id", w)
  | Some t => f t w
  end.

Definition mark_running (id : Z) : task_op unit := with_task id (λ t w,
  let s := t_snapshot t in
  if negb (bool_decide (ts_state s = Queued)) then (Err "transfer task cannot enter running state", w)
  else (Ok tt, put_task w id (mk_task (set_state s Running) (t_cancellation t)))).

(** [None] from [bounded_text] would be a panic. *)
Definition record_progress (id : Z) (event : TransferEvent) : task_op unit := with_task id (λ t w,
  let s := t_snapshot t in
  if negb (bool_decide (ts_state s = Running)) then (Err "transfer task cannot record progress", w)
  else if negb (bool_decide (ev_direction event = direction (ts_kind s)))
  then (Err "progress direction does not match task kind", w)
  else match bounded_text (ev_path event) with
  | None => (Err "panic: bounded_text", w)
  | Some path =>
      (Ok tt, put_task w id (mk_task (set_progress s
         (mk_progress path (ev_bytes event) (ev_total event) (ev_completed event))) (t_cancellation t)))
  end).

Definition request_cancel (id : Z) : task_op bool := with_task id (λ t w,
  let s := t_snapshot t in
  if is_terminal (ts_state s) then (Ok false, w)
  else if ts_cancel_requested s then (Ok false, w)
  else (Ok true, cancel_token (t_cancellation t)
                   (put_task w id (mk_task (set_cancel_requested s) (t_cancellation t))))).

Definition ensure_running (state : TransferTaskState) : result unit :=
  bail_if (negb (bool_decide (state = Running))) "transfer task cannot finish".

Definition complete (id : Z) (summary : TransferSummary) : task_op unit := with_task id (λ t w,
  let s := t_snapshot t in
  match ensure_running (ts_state s) with Err e => (Err e, w) | Ok _ =>
  (Ok tt, put_task w id (mk_task (set_outcome (set_state s Completed) (Some summary) None)
                           (t_cancellation t)))
  end).

Definition mark_cancelled (id : Z) : task_op unit := with_task id (λ t w,
  let s := t_snapshot t in
  if negb (bool_decide (ts_state s = Queued) || bool_decide (ts_state s = Running))
  then (Err "transfer task cannot be cancelled", w)
  else (Ok tt, cancel_token (t_cancellation t)
                 (put_task w id (mk_task (set_state (set_cancel_requested s) Cancelled)
                                   (t_cancellation t))))).

Definition fail (id : Z) (error : str) : task_op unit := with_task id (λ t w,
  let s := t_snapshot t in
  match ensure_running (ts_state s) with Err e => (Err e, w) | Ok _ =>
  match bounded_text error with
  | None => (Err "panic: bounded_text", w)
  | Some error =>
      (Ok tt, put_task w id (mk_task (set_outcome (set_state s Failed) (ts_summary s) (Some error))
                               (t_cancellation t)))
  end end).

Definition cancellation (id : Z) : task_op Token := with_task id (λ t w, (Ok (t_cancellation t), w)).

Definition get (id : Z) (w : world) : option TransferTaskSnapshot :=
  t_snapshot <$> tasks (w_inner w) !! id.

Definition recent (limit : Z) (w : world) : list TransferTaskSnapshot :=
  omap (λ id, get id w) (take (Z.to_nat limit) (reverse (order (w_inner w)))).

Definition clear_finished : task_op Z := λ w,
  let inner := w_inner w in
  let finished := filter (λ id, task_terminal inner id = true) (order inner) in
  let ts := foldl (λ ts id, delete id ts) (tasks inner) finished in
  (Ok (zlen finished),
   set_inner w (mk_inner (next_id inner) (max_retained inner) ts
                  (filter (λ id, id ∉ finished) (order inner)))).

(** ** The operations as one type *)
Inductive task_operation :=
| TaskRegister (kind : TransferTaskKind) (source destination : str)
| TaskRetry (previous : Z)
| TaskMarkRunning (id : Z)
| TaskProgress (id : Z) (event : TransferEvent)
| TaskRequestCancel (id : Z)
| TaskComplete (id : Z) (summary : TransferSummary)
| TaskMarkCancelled (id : Z)
| TaskFail (id : Z) (error : str)
| TaskClearFinished
(* a holder of a registration cancels its token *)
| TokenCancel (tok : Token).

Definition task_run (op : task_operation) (w : world) : world :=
  match op with
  | TaskRegister kind source destination => (register kind source destination w).2
  | TaskRetry previous => (register_retry previous w).2
  | TaskMarkRunning id => (mark_running id w).2
  | TaskProgress id event => (record_progress id event w).2
  | TaskRequestCancel id => (request_cancel id w).2
  | TaskComplete id summary => (complete id summary w).2
  | TaskMarkCancelled id => (mark_cancelled id w).2
  | TaskFail id error => (fail id error w).2
  | TaskClearFinished => (clear_finished w).2
  | TokenCancel tok => if (tok <? w_fresh w)%N then cancel_token tok w else w
  end.
Definition task_run_all (ops : list task_operation) (w : world) : world :=
  foldl (λ w op, task_run op w) w ops.

(** ** The task manager *)

(** What happens while a transfer runs: an event reaches the tracking bridge, the
    bridge polls the caller's flag, or another client uses the registry. *)
Inductive bridge_step :=
| StepEvent (event : TransferEvent)
| StepPoll (caller_cancelled : bool)
| StepOther (op : task_operation).

(** [spawn_tracking_bridge]: the bridge task ends with its first error; [alive] is
    its outcome so far. *)
Fixpoint tracking_bridge (id : Z) (steps : list bridge_step) (alive : result unit) : task_op unit := λ w,
  match steps with
  | [] => (alive, w)
  | StepOther op :: steps => tracking_bridge id steps alive (task_run op w)
  | StepEvent event :: steps =>
      match alive with
      | Err e => tracking_bridge id steps (Err e) w
      | Ok _ => let '(r, w) := record_progress id event w in tracking_bridge id steps r w
      end
  | StepPoll cancelled :: steps =>
      match alive, cancelled with
      | Ok _, true =>
          let '(r, w) := request_cancel id w in
          tracking_bridge id steps (match r with Ok _ => Ok tt | Err e => Err e end) w
      | _, _ => tracking_bridge id steps alive w
      end
  end.

(** The outcome of the transfer itself ([client_ops]), with the rendered error. *)
Inductive transfer_outcome := TransferOk (summary : TransferSummary) | TransferErr (error : str).

Definition run_registered (registration : TransferTaskRegistration) (steps : list bridge_step)
    (outcome : transfer_outcome) (tracking_error : str) : task_op TransferSummary := λ w,
  let id := reg_id registration in
  match mark_running id w with
  | (Err e, w) => (Err e, w)
  | (Ok _, w) =>
      match tracking_bridge id steps (Ok tt) w with
      | (Err e, w) => (Err e, (fail id (lit "transfer progress tracking failed: " ++ tracking_error) w).2)
      | (Ok _, w) =>
          match outcome with
          | TransferOk summary =>
              match complete id summary w with
              | (Err e, w) => (Err e, w)
              | (Ok _, w) => (Ok summary, w)
              end
          | TransferErr error =>
              if is_cancelled (reg_cancellation registration) w then
                match mark_cancelled id w with (Err e, w) => (Err e, w) | (Ok _, w) => (Err "transfer", w) end
              else
                match fail id error w with (Err e, w) => (Err e, w) | (Ok _, w) => (Err "transfer", w) end
          end
      end
  end.

Definition run_new (kind : TransferTaskKind) (source destination : str) (steps : list bridge_step)
    (outcome : transfer_outcome) (tracking_error : str) : task_op TransferSummary := λ w,
  match register kind source destination w with
  | (Err e, w) => (Err e, w)
  | (Ok registration, w) => run_registered registration steps outcome tracking_error w
  end.

Definition retry (previous : Z) (steps : list bridge_step) (outcome : transfer_outcome)
    (tracking_error : str) : task_op TransferSummary := λ w,
  match get previous w with
  | None => (Err "unknown transfer task id", w)
  | Some _ =>
      match register_retry previous w with
      | (Err e, w) => (Err e, w)
      | (Ok registration, w) => run_registered registration steps outcome tracking_error w
      end
  end.
