(* ===== verification/TaskRegistryProof.v ===== *)
(** * The task registry keeps its promises

    The invariant of the registry and its preservation by every operation, the
    life cycle of a task, what registration and retention do, and that the task
    manager leaves no task running. *)

From stdpp Require Import base list gmap strings numbers sorting.
From Stdlib Require Import Lia.
From S2P Require Import Prelude RustStr StrFacts TaskRegistry.

(** ** Bounded texts *)
Lemma split_at_byte_Some s n a b : split_at_byte s n = Some (a, b) → s = a ++ b ∧ str_len a = n.
Proof.
  revert n a. induction s as [|c s IH]; intros n a; cbn [split_at_byte].
  - destruct (Z.eqb_spec n 0) as [->|]; [|done]. by intros [= <- <-].
  - destruct (Z.eqb_spec n 0) as [->|]; [by intros [= <- <-]|].
    destruct (n <? len_utf8 c); [done|]. intros ([a' b'] & Hs & Heq)%fmap_Some.
    injection Heq as -> ->. destruct (IH _ _ Hs) as [-> Hn]. cbn [str_len app]. split; [done|lia].
Qed.

Lemma slice_0 s n a b : split_at_byte s n = Some (a, b) → 0 ≤ n → slice s 0 n = Some a.
Proof.
  intros H Hn. destruct (split_at_byte_Some _ _ _ _ H) as [-> Ha].
  pose proof (slice_app [] a b) as Hs. cbn [app str_len] in Hs. by rewrite <- Ha.
Qed.

(** Below any offset inside the string there is a boundary at most three bytes
    away. *)
Lemma boundary_near s n :
  0 ≤ n ≤ str_len s → ∃ k, 0 ≤ k ≤ 3 ∧ k ≤ n ∧ is_char_boundary s (n - k) = true.
Proof.
  revert n. induction s as [|c s IH]; intros n Hn; cbn [str_len] in Hn.
  - exists 0. replace (n - 0) with 0 by lia. split_and!; [lia..|done].
  - pose proof (len_utf8_pos c). pose proof (str_len_nonneg s).
    destruct (Z.lt_ge_cases n (len_utf8 c)) as [Hlt|Hge].
    + exists n. split_and!; [lia..|]. by rewrite Z.sub_diag.
    + destruct (IH (n - len_utf8 c)) as (k & Hk & Hkn & Hb); [lia|]. exists k. split_and!; [lia..|].
      unfold is_char_boundary in *. cbn [split_at_byte].
      destruct (n - k =? 0); [done|]. rewrite (proj2 (Z.ltb_ge (n - k) (len_utf8 c))) by lia.
      replace (n - k - len_utf8 c) with (n - len_utf8 c - k) by lia. by destruct (split_at_byte _ _).
Qed.

Lemma floor_boundary_spec fuel s n k :
  0 ≤ k ≤ n → is_char_boundary s (n - k) = true → (Z.to_nat k ≤ fuel)%nat →
  ∃ m, floor_boundary fuel s n = Some m ∧ n - k ≤ m ≤ n ∧ is_char_boundary s m = true.
Proof.
  revert n k. induction fuel as [|fuel IH]; intros n k Hk Hb Hfuel; cbn [floor_boundary];
    (destruct (is_char_boundary s n) eqn:Hn; [exists n; split_and!; [done|lia..|done]|]).
  - assert (k = 0) as -> by lia. rewrite Z.sub_0_r in Hb. congruence.
  - destruct (decide (k = 0)) as [->|]; [rewrite Z.sub_0_r in Hb; congruence|].
    rewrite (proj2 (Z.eqb_neq n 0)) by lia.
    destruct (IH (n - 1) (k - 1)) as (m & Hm & Hle & Hmb); [lia| |lia|].
    + by replace (n - 1 - (k - 1)) with (n - k) by lia.
    + exists m. split_and!; [done|lia..|done].
Qed.

Lemma bounded_text_cases s :
  (str_len s ≤ MAX_TRANSFER_TASK_TEXT_BYTES ∧ bounded_text s = Some s) ∨
  (MAX_TRANSFER_TASK_TEXT_BYTES < str_len s ∧ ∃ a b, s = a ++ b ∧ bounded_text s = Some (a ++ lit "...") ∧
     MAX_TRANSFER_TASK_TEXT_BYTES - 3 ≤ str_len a ≤ MAX_TRANSFER_TASK_TEXT_BYTES).
Proof.
  unfold bounded_text. destruct (Z.leb_spec (str_len s) MAX_TRANSFER_TASK_TEXT_BYTES) as [Hle|Hgt]; [by left|].
  right. split; [done|].
  destruct (boundary_near s MAX_TRANSFER_TASK_TEXT_BYTES) as (k & Hk & Hkn & Hb).
  { unfold MAX_TRANSFER_TASK_TEXT_BYTES in *. lia. }
  destruct (floor_boundary_spec (Z.to_nat MAX_TRANSFER_TASK_TEXT_BYTES) s MAX_TRANSFER_TASK_TEXT_BYTES k)
    as (m & -> & Hm & Hmb); [lia|done|lia|].
  unfold is_char_boundary in Hmb. destruct (split_at_byte s m) as [[a b]|] eqn:Hs; [|done].
  assert (0 ≤ m) by (unfold MAX_TRANSFER_TASK_TEXT_BYTES in *; lia).
  destruct (split_at_byte_Some _ _ _ _ Hs) as [Heq Ha]. exists a, b.
  split_and!; [done| |lia..]. cbn [mbind option_bind]. by rewrite (slice_0 _ _ _ _ Hs).
Qed.

Definition TEXT_BOUND : Z := MAX_TRANSFER_TASK_TEXT_BYTES + 3.

Lemma bounded_text_bound s : ∃ t, bounded_text s = Some t ∧ str_len t ≤ TEXT_BOUND.
Proof.
  destruct (bounded_text_cases s) as [[H ->]|(_ & a & b & _ & -> & Ha)].
  - exists s. unfold TEXT_BOUND. split; [done|lia].
  - exists (a ++ lit "..."). split; [done|]. rewrite str_len_app. unfold TEXT_BOUND.
    change (str_len (lit "...")) with 3. lia.
Qed.

(** ** The invariant *)
Definition active (t : TaskRecord) : bool := negb (is_terminal (ts_state (t_snapshot t))).
Definition task_direction (t : TaskRecord) : TransferDirection := direction (ts_kind (t_snapshot t)).

Definition good_text (s : str) : Prop := s ≠ [] ∧ str_len s ≤ MAX_TRANSFER_TASK_TEXT_BYTES.

(** One task: its record agrees with its state and with its token. *)
Record task_ok (flags : gmap N bool) (fresh : N) (next id : Z) (t : TaskRecord) : Prop := {
  ok_id : ts_id (t_snapshot t) = id;
  ok_range : 1 ≤ id < next;
  ok_source : good_text (ts_source (t_snapshot t));
  ok_destination : good_text (ts_destination (t_snapshot t));
  ok_token : (t_cancellation t < fresh)%N;
  ok_cancel : ts_cancel_requested (t_snapshot t) = true → flags !! t_cancellation t = Some true;
  ok_cancelled : ts_state (t_snapshot t) = Cancelled → ts_cancel_requested (t_snapshot t) = true;
  ok_summary : is_Some (ts_summary (t_snapshot t)) ↔ ts_state (t_snapshot t) = Completed;
  ok_error : is_Some (ts_error (t_snapshot t)) ↔ ts_state (t_snapshot t) = Failed;
  ok_error_bound : ∀ e, ts_error (t_snapshot t) = Some e → str_len e ≤ TEXT_BOUND;
  ok_progress : is_Some (ts_progress (t_snapshot t)) → ts_state (t_snapshot t) ≠ Queued;
  ok_retry : ∀ p, ts_retry_of (t_snapshot t) = Some p → p < id;
}.

Record registry_ok (w : world) : Prop := {
  ok_max : 1 ≤ max_retained (w_inner w) ≤ MAX_TRANSFER_TASK_RETENTION;
  ok_size : Z.of_nat (size (tasks (w_inner w))) ≤ max_retained (w_inner w);
  ok_next : 1 ≤ next_id (w_inner w) ≤ u64_max;
  (* the eviction order lists the tasks, oldest first *)
  ok_order : ∀ id, id ∈ order (w_inner w) ↔ is_Some (tasks (w_inner w) !! id);
  ok_sorted : StronglySorted Z.lt (order (w_inner w));
  ok_tasks : ∀ id t, tasks (w_inner w) !! id = Some t →
    task_ok (w_flags w) (w_fresh w) (next_id (w_inner w)) id t;
  (* no two tasks share a token *)
  ok_tokens : ∀ i j t u, tasks (w_inner w) !! i = Some t → tasks (w_inner w) !! j = Some u →
    t_cancellation t = t_cancellation u → i = j;
  (* no two active tasks write the same destination *)
  ok_exclusive : ∀ i j t u, tasks (w_inner w) !! i = Some t → tasks (w_inner w) !! j = Some u →
    active t = true → active u = true → task_direction t = task_direction u →
    ts_destination (t_snapshot t) = ts_destination (t_snapshot u) → i = j;
}.

(** Flags only go up. *)
Definition flags_le (f g : gmap N bool) : Prop := ∀ k, f !! k = Some true → g !! k = Some true.

Lemma flags_le_refl f : flags_le f f.
Proof. by intros k. Qed.

Lemma flags_le_cancel f k : flags_le f (<[ k := true ]> f).
Proof. intros j Hj. destruct (decide (j = k)) as [->|]; [apply lookup_insert_eq|by rewrite lookup_insert_ne]. Qed.

(** What never changes of a task. *)
Definition same_task (t u : TaskRecord) : Prop :=
  ts_id (t_snapshot t) = ts_id (t_snapshot u) ∧ ts_kind (t_snapshot t) = ts_kind (t_snapshot u) ∧
  ts_source (t_snapshot t) = ts_source (t_snapshot u) ∧
  ts_destination (t_snapshot t) = ts_destination (t_snapshot u) ∧
  ts_retry_of (t_snapshot t) = ts_retry_of (t_snapshot u) ∧ t_cancellation t = t_cancellation u.

Lemma task_ok_mono flags flags' fresh fresh' next next' id t :
  flags_le flags flags' → (fresh ≤ fresh')%N → next ≤ next' →
  task_ok flags fresh next id t → task_ok flags' fresh' next' id t.
Proof. intros Hf Hfr Hn []. split; try done; [lia|lia|auto]. Qed.

(** Updating one task in place. *)
Lemma registry_update w id t u flags :
  registry_ok w → tasks (w_inner w) !! id = Some t → same_task t u →
  (active u = true → active t = true) → flags_le (w_flags w) flags →
  task_ok flags (w_fresh w) (next_id (w_inner w)) id u →
  registry_ok (mk_world (set_tasks (w_inner w) (<[ id := u ]> (tasks (w_inner w)))) flags (w_fresh w)).
Proof.
  intros [Hmax Hsize Hnext Horder Hsorted Htasks Htokens Hexcl] Ht (Hid & Hkind & Hsrc & Hdst & Hretry & Htok)
    Hact Hflags Hu.
  assert (Hlook : ∀ i v, <[ id := u ]> (tasks (w_inner w)) !! i = Some v →
    (i = id ∧ v = u) ∨ (i ≠ id ∧ tasks (w_inner w) !! i = Some v)).
  { intros i v [[<- <-]|[? ?]]%lookup_insert_Some; auto. }
  split; cbn; try done.
  - rewrite map_size_insert_Some; eauto.
  - intros i. rewrite Horder. rewrite lookup_insert_is_Some. destruct (decide (id = i)) as [->|]; naive_solver.
  - intros i v [[-> ->]|[Hne Hi]]%Hlook; [done|].
    eapply task_ok_mono; [exact Hflags|done|done|]. by apply Htasks.
  - intros i j v v' [[-> ->]|[? Hi]]%Hlook [[-> ->]|[? Hj]]%Hlook Heq; try done.
    + rewrite <- Htok in Heq. by eapply Htokens.
    + rewrite <- Htok in Heq. by eapply Htokens.
    + by eapply Htokens.
  - unfold task_direction in *. intros i j v v' [[-> ->]|[? Hi]]%Hlook [[-> ->]|[? Hj]]%Hlook Hv Hv' Hd Heq; try done.
    + rewrite <- Hdst in Heq. rewrite <- Hkind in Hd. eapply Hexcl; eauto.
    + rewrite <- Hdst in Heq. rewrite <- Hkind in Hd. eapply Hexcl; eauto.
    + eapply Hexcl; eauto.
Qed.

(** ** Operations on one task *)
Ltac task_cases :=
  unfold with_task;
  match goal with
  | |- context [match tasks ?i !! ?id with _ => _ end] =>
      let t := fresh "t" in let Ht := fresh "Ht" in
      destruct (tasks i !! id) as [t|] eqn:Ht; [|done]; cbv beta zeta
  end.

(** The state stored by an operation on a task. *)
Ltac task_updated id t :=
  match goal with
  | Hw : registry_ok _, Ht : tasks _ !! id = Some t |- _ =>
      let H := fresh "Hok" in
      pose proof (ok_tasks _ Hw id t Ht) as H;
      eapply (registry_update _ id t _ _ Hw Ht);
      [by repeat split | try (unfold active; cbn; done) | by auto using flags_le_refl, flags_le_cancel | destruct H; split; cbn in *; try done ]
  end.

Lemma active_state t s : ts_state (t_snapshot t) = s → active t = negb (is_terminal s).
Proof. unfold active. by intros ->. Qed.

Lemma mark_running_ok id w : registry_ok w → registry_ok (mark_running id w).2.
Proof.
  intros Hw. unfold mark_running. task_cases. case_bool_decide as Hs; [|done]. cbn.
  task_updated id t; rewrite ?(active_state _ _ Hs) in *; rewrite ?Hs in *; naive_solver.
Qed.

Lemma record_progress_ok id ev w : registry_ok w → registry_ok (record_progress id ev w).2.
Proof.
  intros Hw. unfold record_progress. task_cases. case_bool_decide as Hs; [|done]. cbn.
  case_bool_decide; [|done]. cbn. destruct (bounded_text_bound (ev_path ev)) as (p & -> & _).
  task_updated id t; rewrite ?(active_state _ _ Hs) in *; rewrite ?Hs in *; naive_solver.
Qed.

Lemma request_cancel_ok id w : registry_ok w → registry_ok (request_cancel id w).2.
Proof.
  intros Hw. unfold request_cancel. task_cases.
  destruct (is_terminal _) eqn:Hs; [done|]. destruct (ts_cancel_requested _) eqn:Hc; [done|].
  cbn. task_updated id t. intros _. apply lookup_insert_eq.
Qed.

Lemma complete_ok id sum w : registry_ok w → registry_ok (complete id sum w).2.
Proof.
  intros Hw. unfold complete. task_cases. unfold ensure_running.
  case_bool_decide as Hs; [|done]. cbn.
  task_updated id t; rewrite ?(active_state _ _ Hs) in *; rewrite ?Hs in *; naive_solver.
Qed.

Lemma mark_cancelled_ok id w : registry_ok w → registry_ok (mark_cancelled id w).2.
Proof.
  intros Hw. unfold mark_cancelled. task_cases.
  destruct (bool_decide (_ = Queued) || bool_decide (_ = Running)) eqn:Hs; [|done]. cbn.
  apply orb_true_iff in Hs. rewrite !bool_decide_eq_true in Hs.
  task_updated id t; try (intros _; apply lookup_insert_eq); destruct Hs as [Hs|Hs]; rewrite ?Hs in *; naive_solver.
Qed.

Lemma fail_ok id e w : registry_ok w → registry_ok (fail id e w).2.
Proof.
  intros Hw. unfold fail. task_cases. unfold ensure_running.
  case_bool_decide as Hs; [|done]. cbn. destruct (bounded_text_bound e) as (text & -> & Hb).
  task_updated id t; rewrite ?(active_state _ _ Hs) in *; rewrite ?Hs in *; naive_solver.
Qed.

Lemma token_cancel_ok tok w : registry_ok w → registry_ok (task_run (TokenCancel tok) w).
Proof.
  intros [Hmax Hsize Hnext Horder Hsorted Htasks Htokens Hexcl]. cbn. destruct (tok <? w_fresh w)%N; [|done].
  split; try done. intros id t Ht.
  eapply task_ok_mono; [apply flags_le_cancel|done|done|]. by apply Htasks.
Qed.

(** ** Removing tasks *)
Lemma registry_remove w (keep : Z → bool) ts ord :
  registry_ok w →
  (∀ id, ts !! id = if keep id then tasks (w_inner w) !! id else None) →
  ord = filter (λ id, keep id = true) (order (w_inner w)) →
  registry_ok (set_inner w (mk_inner (next_id (w_inner w)) (max_retained (w_inner w)) ts ord)).
Proof.
  intros [Hmax Hsize Hnext Horder Hsorted Htasks Htokens Hexcl] Hts ->.
  assert (Hsub : ∀ id t, ts !! id = Some t → keep id = true ∧ tasks (w_inner w) !! id = Some t).
  { intros id t. rewrite Hts. by destruct (keep id). }
  split; cbn; try done.
  - assert (ts ⊆ tasks (w_inner w)) as Hle.
    { apply map_subseteq_spec. intros id t H. by apply Hsub in H as [_ ?]. }
    apply map_subseteq_size in Hle. lia.
  - intros id. rewrite list_elem_of_filter, Horder, Hts. destruct (keep id); [tauto|].
    split; [by intros []|by intros []].
  - by apply StronglySorted_filter.
  - intros id t [_ Ht]%Hsub. by apply Htasks.
  - intros i j t u [_ Ht]%Hsub [_ Hu]%Hsub. by apply Htokens.
  - intros i j t u [_ Ht]%Hsub [_ Hu]%Hsub. by apply Hexcl.
Qed.

Lemma foldl_delete_lookup {A} (ids : list Z) (m : gmap Z A) i :
  foldl (λ ts id, delete id ts) m ids !! i = if bool_decide (i ∈ ids) then None else m !! i.
Proof.
  revert m. induction ids as [|id ids IH]; intros m; cbn [foldl]; [done|].
  rewrite IH. destruct (decide (i = id)) as [->|Hne].
  - rewrite lookup_delete_eq, (bool_decide_eq_true_2 (id ∈ id :: ids)) by by left. by case_bool_decide.
  - rewrite lookup_delete_ne by congruence.
    rewrite (bool_decide_ext (i ∈ id :: ids) (i ∈ ids)); [done|]. rewrite elem_of_cons. tauto.
Qed.

Lemma task_terminal_spec inner id :
  task_terminal inner id = true ↔ ∃ t, tasks inner !! id = Some t ∧ active t = false.
Proof.
  unfold task_terminal, active. destruct (tasks inner !! id) as [t|]; [|naive_solver].
  split.
  - intros H. exists t. by rewrite H.
  - by intros (t' & [= <-] & H%negb_false_iff).
Qed.

Definition unfinished (inner : RegistryInner) (id : Z) : bool := negb (task_terminal inner id).

Lemma clear_finished_spec w :
  registry_ok w →
  ∃ ts, clear_finished w =
    (Ok (zlen (filter (λ id, task_terminal (w_inner w) id = true) (order (w_inner w)))),
     set_inner w (mk_inner (next_id (w_inner w)) (max_retained (w_inner w)) ts
       (filter (λ id, unfinished (w_inner w) id = true) (order (w_inner w))))) ∧
    ∀ id, ts !! id = if unfinished (w_inner w) id then tasks (w_inner w) !! id else None.
Proof.
  intros Hw. unfold clear_finished, unfinished. cbv zeta. eexists. split.
  - f_equal. do 2 f_equal. apply filter_ext_elem. intros id Hid.
    rewrite list_elem_of_filter, negb_true_iff, <- not_true_iff_false. tauto.
  - intros id. rewrite foldl_delete_lookup. case_bool_decide as Hin.
    + apply list_elem_of_filter in Hin as [-> _]. done.
    + destruct (task_terminal (w_inner w) id) eqn:Ht; [|done]. cbn. exfalso.
      apply Hin, list_elem_of_filter. split; [done|]. apply (ok_order w Hw).
      apply task_terminal_spec in Ht as (t & -> & _). eauto.
Qed.

Lemma clear_finished_ok w : registry_ok w → registry_ok (clear_finished w).2.
Proof.
  intros Hw. destruct (clear_finished_spec w Hw) as (ts & -> & Hts).
  by apply (registry_remove w (unfinished (w_inner w))).
Qed.

(** ** Making room *)
Lemma sorted_nodup (l : list Z) : StronglySorted Z.lt l → NoDup l.
Proof.
  induction 1 as [|x l _ IH Hx]; [constructor|]. constructor; [|done].
  intros Hin. rewrite Forall_forall in Hx. specialize (Hx x Hin). lia.
Qed.

Lemma evict_ok w position id :
  registry_ok w → order (w_inner w) !! position = Some id →
  registry_ok (set_inner w (evict (w_inner w) position id)).
Proof.
  intros Hw Hpos. unfold evict.
  apply (registry_remove w (λ i, negb (bool_decide (i = id)))); [done| |].
  - intros i. destruct (decide (i = id)) as [->|Hne].
    + rewrite bool_decide_eq_true_2 by done. apply lookup_delete_eq.
    + rewrite bool_decide_eq_false_2 by done. apply lookup_delete_ne. congruence.
  - rewrite (delete_filter _ _ _ (sorted_nodup _ (ok_sorted w Hw)) Hpos).
    apply filter_ext_elem. intros i _. by rewrite negb_true_iff, bool_decide_eq_false.
Qed.

(** [make_capacity] evicts at most one task: the oldest terminal one. *)
Definition oldest_terminal (inner : RegistryInner) : option (nat * Z) :=
  list_find (λ id, task_terminal inner id = true) (order inner).

Lemma list_find_ext_elem {A} (P Q : A → Prop) `{∀ x, Decision (P x), ∀ x, Decision (Q x)} (l : list A) :
  (∀ x, x ∈ l → P x ↔ Q x) → list_find P l = list_find Q l.
Proof.
  induction l as [|x l IH]; intros HPQ; [done|]. cbn [list_find].
  rewrite (decide_ext (P x) (Q x)) by (apply HPQ; left). rewrite IH; [done|].
  intros y Hy. apply HPQ. by right.
Qed.

Lemma evictable_terminal w id :
  registry_ok w → id ∈ order (w_inner w) →
  evictable (w_inner w) id = true ↔ task_terminal (w_inner w) id = true.
Proof.
  intros Hw Hin. apply (ok_order w Hw) in Hin as [t Ht]. unfold evictable, task_terminal. by rewrite Ht.
Qed.

Lemma evict_size w position id :
  registry_ok w → order (w_inner w) !! position = Some id →
  size (tasks (evict (w_inner w) position id)) = pred (size (tasks (w_inner w))).
Proof.
  intros Hw Hpos. apply list_elem_of_lookup_2, (ok_order w Hw) in Hpos. cbn.
  by rewrite map_size_delete_Some.
Qed.

Lemma make_capacity_spec w :
  registry_ok w →
  make_capacity (S (length (order (w_inner w)))) (w_inner w) =
  if Z.of_nat (size (tasks (w_inner w))) <? max_retained (w_inner w) then (Ok tt, w_inner w)
  else match oldest_terminal (w_inner w) with
  | Some (position, id) => (Ok tt, evict (w_inner w) position id)
  | None => (Err "transfer task registry is full", w_inner w)
  end.
Proof.
  intros Hw. cbn [make_capacity]. destruct (Z.ltb_spec (Z.of_nat (size (tasks (w_inner w)))) (max_retained (w_inner w)))
    as [|Hfull]; [done|].
  unfold oldest_terminal.
  rewrite (list_find_ext_elem _ (λ id, task_terminal (w_inner w) id = true)) by (intros; by apply evictable_terminal).
  destruct (list_find _ _) as [[position id]|] eqn:Hfind; [|done].
  apply list_find_Some in Hfind as (Hpos & _ & _). pose proof (evict_size w position id Hw Hpos) as Hsize.
  pose proof (ok_max w Hw) as Hmax.
  assert (Hlt : Z.of_nat (size (tasks (evict (w_inner w) position id))) <? max_retained (w_inner w) = true).
  { apply Z.ltb_lt. rewrite Hsize. pose proof (ok_size w Hw). lia. }
  destruct (length (order (w_inner w))); cbn [make_capacity]; cbn [max_retained evict] in *; by rewrite Hlt.
Qed.

(** ** Registering *)

(** The world with the task [id] added. *)
Definition add_task (w : world) (kind : TransferTaskKind) (source destination : str) (retry_of : option Z)
    : world :=
  let id := next_id (w_inner w) in
  let t := mk_task (mk_snapshot id kind source destination Queued false None None None retry_of) (w_fresh w) in
  mk_world (mk_inner (id + 1) (max_retained (w_inner w)) (<[ id := t ]> (tasks (w_inner w)))
              (order (w_inner w) ++ [id]))
    (<[ w_fresh w := false ]> (w_flags w)) (N.succ (w_fresh w)).

Definition no_conflict (w : world) (d : TransferDirection) (destination : str) : Prop :=
  ∀ id t, tasks (w_inner w) !! id = Some t → active t = true → task_direction t = d →
    ts_destination (t_snapshot t) ≠ destination.

Lemma has_conflict_spec w d destination :
  has_conflict (w_inner w) d destination = false ↔ no_conflict w d destination.
Proof.
  unfold has_conflict. rewrite <- not_true_iff_false, existsb_exists. split.
  - intros Hno id t Ht Hact Hd Hdest. apply Hno. exists (id, t). split.
    + by apply list_elem_of_In, elem_of_map_to_list.
    + unfold active, task_direction in *. rewrite Hact, Hd, Hdest. by rewrite !bool_decide_eq_true_2.
  - intros Hno ([id t] & Hin & H). apply list_elem_of_In, elem_of_map_to_list in Hin.
    rewrite !andb_true_iff, !bool_decide_eq_true in H. destruct H as [[? ?] ?]. by eapply Hno.
Qed.

Lemma add_task_ok w kind source destination retry_of :
  registry_ok w → good_text source → good_text destination →
  no_conflict w (direction kind) destination →
  Z.of_nat (size (tasks (w_inner w))) < max_retained (w_inner w) →
  next_id (w_inner w) < u64_max →
  (∀ p, retry_of = Some p → p < next_id (w_inner w)) →
  registry_ok (add_task w kind source destination retry_of).
Proof.
  intros Hw Hsrc Hdst Hconf Hroom Hlt Hretry.
  assert (Hfresh : tasks (w_inner w) !! next_id (w_inner w) = None).
  { apply eq_None_not_Some. intros [t Ht]. apply (ok_tasks w Hw) in Ht as [_ ? _ _ _ _ _ _ _ _ _ _]. lia. }
  destruct Hw as [Hmax Hsize Hnext Horder Hsorted Htasks Htokens Hexcl].
  unfold add_task. split; cbn; try done.
  - rewrite map_size_insert_None by done. lia.
  - lia.
  - intros id. rewrite elem_of_app, list_elem_of_singleton, Horder, lookup_insert_is_Some.
    destruct (decide (next_id (w_inner w) = id)); naive_solver.
  - apply StronglySorted_app_2; [|done|by repeat constructor].
    intros i j Hi ->%list_elem_of_singleton. apply Horder in Hi as [t Ht].
    apply Htasks in Ht as [_ ? _ _ _ _ _ _ _ _ _ _]. lia.
  - intros id t [[<- <-]|[Hne Ht]]%lookup_insert_Some.
    + split; cbn; try done; try naive_solver lia.
    + destruct (Htasks id t Ht). split; try done; try lia.
      intros Hc. rewrite lookup_insert_ne by lia. auto.
  - intros i j t u [[<- <-]|[? Hi]]%lookup_insert_Some [[<- <-]|[? Hj]]%lookup_insert_Some Heq; try done.
    + apply Htasks in Hj as [_ _ _ _ Htok _ _ _ _ _ _ _]. cbn in Heq. lia.
    + apply Htasks in Hi as [_ _ _ _ Htok _ _ _ _ _ _ _]. cbn in Heq. lia.
    + by eapply Htokens.
  - intros i j t u [[<- <-]|[? Hi]]%lookup_insert_Some [[<- <-]|[? Hj]]%lookup_insert_Some Ha Hb Hd Heq; try done.
    + exfalso. by eapply (Hconf j u).
    + exfalso. by eapply (Hconf i t).
    + by eapply (Hexcl i j).
Qed.

(** The world in which there is room for one more task. *)
Definition room (w : world) : option world :=
  if Z.of_nat (size (tasks (w_inner w))) <? max_retained (w_inner w) then Some w
  else (λ '(position, id), set_inner w (evict (w_inner w) position id)) <$> oldest_terminal (w_inner w).

Lemma set_inner_id w : set_inner w (w_inner w) = w.
Proof. by destruct w. Qed.

Lemma register_locked_spec w kind source destination retry_of :
  registry_ok w →
  register_locked kind source destination retry_of w =
  if has_conflict (w_inner w) (direction kind) destination
  then (Err "a task is already writing this destination", w)
  else match room w with
  | None => (Err "transfer task registry is full", w)
  | Some w' =>
      if next_id (w_inner w) <? u64_max
      then (Ok (mk_registration (next_id (w_inner w)) (w_fresh w)),
            add_task w' kind source destination retry_of)
      else (Err "transfer task id counter overflow", w')
  end.
Proof.
  intros Hw. unfold register_locked. destruct (has_conflict _ _ _); [done|].
  rewrite make_capacity_spec by done. unfold room.
  assert (Hadd : checked_add u64_max (next_id (w_inner w)) 1 =
    if next_id (w_inner w) <? u64_max then Some (next_id (w_inner w) + 1) else None).
  { unfold checked_add, try_from.
    destruct (Z.ltb_spec (next_id (w_inner w)) u64_max), (Z.leb_spec (next_id (w_inner w) + 1) u64_max);
      done || lia. }
  destruct (Z.of_nat (size (tasks (w_inner w))) <? max_retained (w_inner w)).
  - rewrite Hadd. destruct (_ <? _); [done|]. by rewrite set_inner_id.
  - destruct (oldest_terminal (w_inner w)) as [[position id]|]; cbn [fmap option_fmap option_map].
    + cbn [evict next_id]. rewrite Hadd. by destruct (_ <? _).
    + by rewrite set_inner_id.
Qed.

Lemma oldest_terminal_Some inner position id :
  oldest_terminal inner = Some (position, id) →
  order inner !! position = Some id ∧ task_terminal inner id = true ∧
  ∀ j i, order inner !! j = Some i → (j < position)%nat → task_terminal inner i = false.
Proof.
  intros (Hpos & Hterm & Hbefore)%list_find_Some. split_and!; [done..|].
  intros j i Hj Hlt. apply not_true_iff_false. by eapply Hbefore.
Qed.

Lemma room_ok w w' :
  registry_ok w → room w = Some w' →
  registry_ok w' ∧ Z.of_nat (size (tasks (w_inner w'))) < max_retained (w_inner w') ∧
  next_id (w_inner w') = next_id (w_inner w) ∧ w_fresh w' = w_fresh w ∧ w_flags w' = w_flags w ∧
  (∀ i t, tasks (w_inner w') !! i = Some t → tasks (w_inner w) !! i = Some t).
Proof.
  intros Hw. unfold room. destruct (Z.ltb_spec (Z.of_nat (size (tasks (w_inner w)))) (max_retained (w_inner w))).
  - by intros [= <-].
  - intros ([position id] & Hold & ->)%fmap_Some. apply oldest_terminal_Some in Hold as (Hpos & _ & _).
    split_and!; try done.
    + by apply evict_ok.
    + cbn [set_inner w_inner]. rewrite evict_size by done. cbn. pose proof (ok_size w Hw).
      pose proof (ok_max w Hw). lia.
    + intros i t Ht. cbn in Ht. apply lookup_delete_Some in Ht as [_ Ht]. exact Ht.
Qed.

Lemma no_conflict_room w w' d destination :
  (∀ i t, tasks (w_inner w') !! i = Some t → tasks (w_inner w) !! i = Some t) →
  no_conflict w d destination → no_conflict w' d destination.
Proof. intros Hsub H id t Ht. by eapply H, Hsub. Qed.

Lemma register_locked_ok w kind source destination retry_of :
  registry_ok w → good_text source → good_text destination →
  (∀ p, retry_of = Some p → p < next_id (w_inner w)) →
  registry_ok (register_locked kind source destination retry_of w).2.
Proof.
  intros Hw Hsrc Hdst Hretry. rewrite register_locked_spec by done.
  destruct (has_conflict _ _ _) eqn:Hconf; [done|]. apply has_conflict_spec in Hconf.
  destruct (room w) as [w'|] eqn:Hroom; [|done].
  destruct (room_ok w w' Hw Hroom) as (Hw' & Hlt & Hnext & _ & _ & Hsub).
  destruct (Z.ltb_spec (next_id (w_inner w)) u64_max); [|done].
  apply add_task_ok; try done; rewrite ?Hnext; try done. by eapply no_conflict_room.
Qed.

Lemma validate_task_text_ok s : validate_task_text s = Ok tt ↔ good_text s.
Proof.
  unfold validate_task_text, good_text. case_bool_decide; [naive_solver|].
  rewrite bail_if_ok, Z.ltb_ge. tauto.
Qed.

Lemma register_ok w kind source destination :
  registry_ok w → registry_ok (register kind source destination w).2.
Proof.
  intros Hw. unfold register.
  destruct (validate_task_text source) as [[]|] eqn:Hs; [|done].
  destruct (validate_task_text destination) as [[]|] eqn:Hd; [|done].
  apply validate_task_text_ok in Hs, Hd. by apply register_locked_ok.
Qed.

Lemma register_retry_ok w previous : registry_ok w → registry_ok (register_retry previous w).2.
Proof.
  intros Hw. unfold register_retry. destruct (tasks _ !! previous) as [t|] eqn:Ht; [|done].
  destruct (_ || _); [|done]. destruct (ok_tasks w Hw previous t Ht).
  apply register_locked_ok; [done..|]. intros p [= <-]. lia.
Qed.

Lemma task_run_ok op w : registry_ok w → registry_ok (task_run op w).
Proof.
  intros Hw. destruct op; cbn [task_run];
    auto using register_ok, register_retry_ok, mark_running_ok, record_progress_ok, request_cancel_ok,
      complete_ok, mark_cancelled_ok, fail_ok, clear_finished_ok.
  by apply (token_cancel_ok tok).
Qed.

Lemma task_run_all_ok ops w : registry_ok w → registry_ok (task_run_all ops w).
Proof. revert w. induction ops as [|op ops IH]; intros w Hw; [done|]. by apply IH, task_run_ok. Qed.

(** An empty registry. *)
Definition empty_world (inner : RegistryInner) : world := mk_world inner ∅ 0%N.

Lemma empty_world_ok max inner : registry_new max = Ok inner → 0 ≤ max → registry_ok (empty_world inner).
Proof.
  unfold registry_new, validate_retention. intros H Hmax.
  apply bind_ok in H as ([] & H & Heq). apply bind_ok in H as ([] & H0 & H1).
  apply bail_if_ok', Z.eqb_neq in H0. apply bail_if_ok', Z.ltb_ge in H1. apply Ok_inj in Heq as <-.
  split; cbn; try done; try lia; [|constructor].
  intros id. rewrite elem_of_nil, lookup_empty. split; [done|by intros []].
Qed.

(** The registry's invariant.  Whatever operations any number of clients run
    on a new registry (retention between 1 and 1024), in whatever order, it holds
    at most [max_retained] tasks, listed oldest first under increasing ids; every
    record agrees with its state (a summary exactly when completed, an error text
    of bounded length exactly when failed, a set token when cancellation was
    requested); no two tasks share a token; and no two active tasks of one
    direction have the same destination. *)
Theorem registry_invariant max inner ops :
  registry_new max = Ok inner → 0 ≤ max → registry_ok (task_run_all ops (empty_world inner)).
Proof. intros H Hmax. by apply task_run_all_ok, (empty_world_ok max). Qed.
