(* ===== verification/TaskLifecycle.v ===== *)
(** * What happens to a transfer task

    The life cycle of a task under every operation, what registration, retry,
    clean-up and listing do exactly, and that the task manager leaves no task
    unfinished, whatever other clients do meanwhile. *)

From stdpp Require Import base list gmap strings numbers sorting relations.
From Stdlib Require Import Lia.
From S2P Require Import Prelude RustStr StrFacts TaskRegistry TaskRegistryProof.

Notation tasks_of w := (tasks (w_inner w)).
Notation state_of t := (ts_state (t_snapshot t)).

(** ** One step *)

(** The edges of the state machine. *)
Inductive state_edge : TransferTaskState → TransferTaskState → Prop :=
| edge_start : state_edge Queued Running
| edge_cancel_queued : state_edge Queued Cancelled
| edge_complete : state_edge Running Completed
| edge_cancel : state_edge Running Cancelled
| edge_fail : state_edge Running Failed.

(** How one operation may change a task. *)
Definition task_step (t u : TaskRecord) : Prop :=
  same_task t u ∧
  (state_of u = state_of t ∨ state_edge (state_of t) (state_of u)) ∧
  (active t = false → u = t) ∧
  (ts_cancel_requested (t_snapshot t) = true → ts_cancel_requested (t_snapshot u) = true).

(** A set flag stays set. *)
Definition flags_kept (w w' : world) : Prop :=
  (w_fresh w ≤ w_fresh w')%N ∧
  ∀ tok, (tok < w_fresh w)%N → is_cancelled tok w = true → is_cancelled tok w' = true.

(** Every task of [w] takes a step or, finished, is dropped; what is new has the
    next id. *)
Definition tasks_step (w w' : world) : Prop :=
  next_id (w_inner w) ≤ next_id (w_inner w') ∧ flags_kept w w' ∧
  ∀ id, match tasks_of w !! id, tasks_of w' !! id with
        | Some t, Some u => task_step t u
        | Some t, None => active t = false
        | None, Some u => next_id (w_inner w) ≤ id ∧ state_of u = Queued
        | None, None => True
        end.

Lemma task_step_refl t : task_step t t.
Proof. by repeat split; auto. Qed.

Lemma is_cancelled_true tok w : is_cancelled tok w = true ↔ w_flags w !! tok = Some true.
Proof. unfold is_cancelled. destruct (w_flags w !! tok) as [[]|]; naive_solver. Qed.

Lemma flags_kept_refl w : flags_kept w w.
Proof. by split. Qed.

Lemma flags_kept_le w inner flags :
  flags_le (w_flags w) flags → flags_kept w (mk_world inner flags (w_fresh w)).
Proof. intros Hf. split; [done|]. intros tok _. rewrite !is_cancelled_true. apply Hf. Qed.

Lemma flags_kept_trans w w' w'' : flags_kept w w' → flags_kept w' w'' → flags_kept w w''.
Proof. intros [H1 H1'] [H2 H2']. split; [lia|]. intros tok Htok H. apply H2'; [lia|]. by apply H1'. Qed.

Lemma tasks_step_refl w : tasks_step w w.
Proof.
  split; [done|]. split; [apply flags_kept_refl|].
  intros id. destruct (tasks_of w !! id); [apply task_step_refl|done].
Qed.

Lemma tasks_step_update w id t u flags :
  tasks_of w !! id = Some t → task_step t u → flags_le (w_flags w) flags →
  tasks_step w (mk_world (set_tasks (w_inner w) (<[ id := u ]> (tasks_of w))) flags (w_fresh w)).
Proof.
  intros Ht Hu Hf. split; [done|]. split; [by apply flags_kept_le|]. intros i. cbn.
  destruct (decide (i = id)) as [->|Hne].
  - by rewrite Ht, lookup_insert_eq.
  - rewrite lookup_insert_ne by congruence. destruct (tasks_of w !! i); [apply task_step_refl|done].
Qed.

Lemma tasks_step_remove w (keep : Z → bool) ts ord :
  (∀ id, ts !! id = if keep id then tasks_of w !! id else None) →
  (∀ id t, tasks_of w !! id = Some t → keep id = false → active t = false) →
  tasks_step w (set_inner w (mk_inner (next_id (w_inner w)) (max_retained (w_inner w)) ts ord)).
Proof.
  intros Hts Hkeep. split; [done|]. split; [apply flags_kept_le, flags_le_refl|]. intros id. cbn. rewrite Hts.
  destruct (tasks_of w !! id) as [t|] eqn:Ht, (keep id) eqn:Hk; try done; [apply task_step_refl|eauto].
Qed.

Ltac one_task id t :=
  unfold cancel_token, put_task, set_inner; cbn [w_inner w_flags w_fresh];
  eapply (tasks_step_update _ id t); [done| |by auto using flags_le_refl, flags_le_cancel];
  split_and!; [by repeat split| cbn | unfold active; cbn | cbn; try done].

Lemma mark_running_step id w : tasks_step w (mark_running id w).2.
Proof.
  unfold mark_running, with_task. destruct (tasks_of w !! id) as [t|] eqn:Ht; [|apply tasks_step_refl].
  cbv zeta. case_bool_decide as Hs; cbn; [|apply tasks_step_refl].
  one_task id t; rewrite Hs; [right; constructor|done].
Qed.

Lemma record_progress_step id ev w : tasks_step w (record_progress id ev w).2.
Proof.
  unfold record_progress, with_task. destruct (tasks_of w !! id) as [t|] eqn:Ht; [|apply tasks_step_refl].
  cbv zeta. case_bool_decide as Hs; cbn; [|apply tasks_step_refl].
  case_bool_decide; cbn; [|apply tasks_step_refl].
  destruct (bounded_text _); cbn; [|apply tasks_step_refl].
  one_task id t; rewrite Hs; [by left|done].
Qed.

Lemma request_cancel_step id w : tasks_step w (request_cancel id w).2.
Proof.
  unfold request_cancel, with_task. destruct (tasks_of w !! id) as [t|] eqn:Ht; [|apply tasks_step_refl].
  cbv zeta. destruct (is_terminal _) eqn:Hs; cbn; [apply tasks_step_refl|].
  destruct (ts_cancel_requested _); cbn; [apply tasks_step_refl|].
  one_task id t; [by left|by rewrite Hs].
Qed.

Lemma complete_step id s w : tasks_step w (complete id s w).2.
Proof.
  unfold complete, with_task. destruct (tasks_of w !! id) as [t|] eqn:Ht; [|apply tasks_step_refl].
  cbv zeta. unfold ensure_running. case_bool_decide as Hs; cbn; [|apply tasks_step_refl].
  one_task id t; rewrite Hs; [right; constructor|done].
Qed.

Lemma mark_cancelled_step id w : tasks_step w (mark_cancelled id w).2.
Proof.
  unfold mark_cancelled, with_task. destruct (tasks_of w !! id) as [t|] eqn:Ht; [|apply tasks_step_refl].
  cbv zeta. do 2 case_bool_decide; cbn; try apply tasks_step_refl;
    one_task id t; match goal with H : state_of t = _ |- _ => rewrite H end; try done; right; constructor.
Qed.

Lemma fail_step id e w : tasks_step w (fail id e w).2.
Proof.
  unfold fail, with_task. destruct (tasks_of w !! id) as [t|] eqn:Ht; [|apply tasks_step_refl].
  cbv zeta. unfold ensure_running. case_bool_decide as Hs; cbn; [|apply tasks_step_refl].
  destruct (bounded_text _); cbn; [|apply tasks_step_refl].
  one_task id t; rewrite Hs; [right; constructor|done].
Qed.

Lemma clear_finished_step w : registry_ok w → tasks_step w (clear_finished w).2.
Proof.
  intros Hw. destruct (clear_finished_spec w Hw) as (ts & -> & Hts).
  apply (tasks_step_remove w (unfinished (w_inner w))); [done|].
  intros id t Ht Hk. apply negb_false_iff, task_terminal_spec in Hk as (t' & Ht' & Hact). congruence.
Qed.

Lemma evict_step w position id :
  task_terminal (w_inner w) id = true → tasks_step w (set_inner w (evict (w_inner w) position id)).
Proof.
  intros Hterm. apply (tasks_step_remove w (λ i, negb (bool_decide (i = id)))).
  - intros i. case_bool_decide; [subst; apply lookup_delete_eq|by apply lookup_delete_ne].
  - intros i t Ht Hk. apply negb_false_iff, bool_decide_eq_true in Hk as ->.
    apply task_terminal_spec in Hterm as (t' & Ht' & Hact). congruence.
Qed.

Lemma room_step w w' : room w = Some w' → tasks_step w w'.
Proof.
  unfold room. destruct (_ <? _); [intros [= <-]; apply tasks_step_refl|].
  intros ([position id] & Hold & ->)%fmap_Some. apply oldest_terminal_Some in Hold as (_ & Hterm & _).
  by apply evict_step.
Qed.

Lemma tasks_step_fresh w id :
  registry_ok w → next_id (w_inner w) ≤ id → tasks_of w !! id = None.
Proof.
  intros Hw Hid. destruct (tasks_of w !! id) as [t|] eqn:Ht; [|done].
  apply (ok_tasks w Hw) in Ht as [_ ? _ _ _ _ _ _ _ _ _ _]. lia.
Qed.

Lemma add_task_step w kind source destination retry_of :
  registry_ok w → tasks_step w (add_task w kind source destination retry_of).
Proof.
  intros Hw. split_and!; [cbn; lia| |].
  - split; [cbn; lia|]. intros tok Htok. rewrite !is_cancelled_true. cbn. by rewrite lookup_insert_ne by lia.
  - intros id. cbn. destruct (decide (id = next_id (w_inner w))) as [->|Hne].
    + by rewrite tasks_step_fresh, lookup_insert_eq by done.
    + rewrite lookup_insert_ne by congruence. destruct (tasks_of w !! id); [apply task_step_refl|done].
Qed.

Lemma state_edge_terminal s s' : state_edge s s' → is_terminal s = false.
Proof. by intros []. Qed.

Lemma task_step_active t u : task_step t u → active t = false → active u = false.
Proof. intros (_ & _ & H & _) Ht. by rewrite H. Qed.

(** Registering is making room, then adding. *)
Lemma room_add_step w w' kind source destination retry_of :
  registry_ok w → room w = Some w' → tasks_step w (add_task w' kind source destination retry_of).
Proof.
  intros Hw Hroom. destruct (room_ok w w' Hw Hroom) as (Hw' & _ & Hnext & Hfresh & Hflags & Hsub).
  destruct (room_step w w' Hroom) as (_ & _ & H1).
  destruct (add_task_step w' kind source destination retry_of Hw') as (Hn2 & Hf2 & H2).
  split_and!; [lia| |].
  - eapply flags_kept_trans; [|exact Hf2]. split; [lia|].
    intros tok _. rewrite !is_cancelled_true. by rewrite Hflags.
  - intros id. specialize (H1 id). specialize (H2 id). rewrite Hnext in H2.
    destruct (tasks_of w !! id) as [t|] eqn:Ht, (tasks_of w' !! id) as [t'|] eqn:Ht'; try done.
    + apply Hsub in Ht'. rewrite Ht in Ht'. injection Ht' as <-. done.
    + destruct (tasks_of (add_task _ _ _ _ _) !! id) as [u|] eqn:Hu; [|done].
      destruct H2 as [Hle _]. exfalso. apply (tasks_step_fresh w) in Hle; [congruence|done].
    + apply Hsub in Ht'. congruence.
Qed.

Lemma register_locked_step w kind source destination retry_of :
  registry_ok w → tasks_step w (register_locked kind source destination retry_of w).2.
Proof.
  intros Hw. rewrite register_locked_spec by done. destruct (has_conflict _ _ _); [apply tasks_step_refl|].
  destruct (room w) as [w'|] eqn:Hroom; [|apply tasks_step_refl].
  destruct (_ <? _); cbn; [by apply room_add_step|by apply room_step].
Qed.

Lemma register_step w kind source destination :
  registry_ok w → tasks_step w (register kind source destination w).2.
Proof.
  intros Hw. unfold register. destruct (validate_task_text source), (validate_task_text destination);
    by (apply register_locked_step || apply tasks_step_refl).
Qed.

Lemma register_retry_step w previous : registry_ok w → tasks_step w (register_retry previous w).2.
Proof.
  intros Hw. unfold register_retry. destruct (tasks_of w !! previous); [|apply tasks_step_refl].
  cbv zeta. destruct (_ || _); by (apply register_locked_step || apply tasks_step_refl).
Qed.

Lemma token_cancel_step tok w : tasks_step w (task_run (TokenCancel tok) w).
Proof.
  cbn. destruct (_ <? _)%N; [|apply tasks_step_refl]. split; [done|].
  split; [by apply flags_kept_le, flags_le_cancel|]. apply (tasks_step_refl w).
Qed.

Lemma task_run_step op w : registry_ok w → tasks_step w (task_run op w).
Proof.
  intros Hw. destruct op; cbn [task_run];
    auto using register_step, register_retry_step, mark_running_step, record_progress_step, request_cancel_step,
      complete_step, mark_cancelled_step, fail_step, clear_finished_step.
  apply (token_cancel_step tok).
Qed.

(** ** Histories *)
Definition history (w : world) (t : TaskRecord) (id : Z) (ops : list task_operation) : Prop :=
  match tasks_of (task_run_all ops w) !! id with
  | Some u => same_task t u ∧ rtc state_edge (state_of t) (state_of u) ∧ (active t = false → u = t)
  | None => id < next_id (w_inner (task_run_all ops w)) ∧ ∃ before after u,
      ops = before ++ after ∧ tasks_of (task_run_all before w) !! id = Some u ∧ active u = false
  end.

Lemma task_run_all_snoc ops op w : task_run_all (ops ++ [op]) w = task_run op (task_run_all ops w).
Proof. unfold task_run_all. by rewrite foldl_app. Qed.

Lemma same_task_trans t u v : same_task t u → same_task u v → same_task t v.
Proof. unfold same_task. intuition congruence. Qed.

(** C3: the life cycle of a task.  Whatever operations are run, a task keeps its
    id, kind, source, destination, lineage and token; its state only moves along
    Queued to Running or Cancelled, and Running to Completed, Cancelled or
    Failed; a finished task never changes at all; a task leaves the registry only
    after it has finished, and its id is never used again. *)
Theorem task_life_cycle w t id ops :
  registry_ok w → tasks_of w !! id = Some t → history w t id ops.
Proof.
  intros Hw Ht. induction ops as [|op ops IH] using rev_ind; unfold history in *.
  { cbn. rewrite Ht. split_and!; [by repeat split|constructor|done]. }
  rewrite task_run_all_snoc. pose proof (task_run_all_ok ops w Hw) as Hw1.
  destruct (task_run_step op (task_run_all ops w) Hw1) as (Hnext & _ & Hstep). specialize (Hstep id).
  set (w1 := task_run_all ops w) in *.
  destruct (tasks_of w1 !! id) as [u|] eqn:Hu.
  - destruct IH as (Hsame & Hrtc & Hfix). destruct (tasks_of (task_run op w1) !! id) as [v|].
    + destruct Hstep as (Hsame' & Hedge & Hfix' & _). split_and!.
      * by eapply same_task_trans.
      * destruct Hedge as [->|Hedge]; [done|by eapply rtc_r].
      * intros Hact. rewrite (Hfix Hact) in *. by apply Hfix'.
    + split; [|by exists ops, [op], u]. destruct (ok_tasks w1 Hw1 id u Hu) as [_ ? _ _ _ _ _ _ _ _ _ _]. lia.
  - destruct IH as (Hlt & before & after & u & -> & Hu' & Hact).
    destruct (tasks_of (task_run op w1) !! id) as [v|]; [destruct Hstep; lia|].
    split; [lia|]. exists before, (after ++ [op]), u. by rewrite app_assoc.
Qed.

(** ** Registration, retry and retention *)

(** Room for one more task, and who makes it. *)
Definition has_room (w : world) : Prop :=
  Z.of_nat (size (tasks_of w)) < max_retained (w_inner w) ∨ ∃ id t, tasks_of w !! id = Some t ∧ active t = false.

(** The oldest finished task, if the registry is full. *)
Definition evicted (w : world) (id : Z) : Prop :=
  max_retained (w_inner w) ≤ Z.of_nat (size (tasks_of w)) ∧
  (∃ t, tasks_of w !! id = Some t ∧ active t = false) ∧
  ∀ i t, tasks_of w !! i = Some t → active t = false → id ≤ i.

(** What registering a task does to the registry. *)
Definition registered (w w' : world) (reg : TransferTaskRegistration) (kind : TransferTaskKind)
    (source destination : str) (retry_of : option Z) : Prop :=
  reg = mk_registration (next_id (w_inner w)) (w_fresh w) ∧
  next_id (w_inner w') = next_id (w_inner w) + 1 ∧
  get (reg_id reg) w' =
    Some (mk_snapshot (reg_id reg) kind source destination Queued false None None None retry_of) ∧
  t_cancellation <$> tasks_of w' !! reg_id reg = Some (reg_cancellation reg) ∧
  is_cancelled (reg_cancellation reg) w' = false ∧
  ∀ i, i ≠ reg_id reg → tasks_of w' !! i = tasks_of w !! i ∨ evicted w i ∧ tasks_of w' !! i = None.

Lemma oldest_terminal_None inner :
  oldest_terminal inner = None → ∀ id, id ∈ order inner → task_terminal inner id = false.
Proof.
  intros H%list_find_None id Hid. rewrite Forall_forall in H. apply not_true_iff_false, H, Hid.
Qed.

Lemma room_has_room w : registry_ok w → is_Some (room w) ↔ has_room w.
Proof.
  intros Hw. unfold room, has_room.
  destruct (Z.ltb_spec (Z.of_nat (size (tasks_of w))) (max_retained (w_inner w))) as [Hlt|Hge].
  { split; [by left|eauto]. }
  rewrite fmap_is_Some. split.
  - intros [[position id] Hold]. right. apply oldest_terminal_Some in Hold as (_ & Hterm & _).
    apply task_terminal_spec in Hterm as (t & ? & ?). by exists id, t.
  - intros [|(id & t & Ht & Hact)]; [lia|]. destruct (oldest_terminal (w_inner w)) eqn:Hold; [eauto|]. exfalso.
    assert (task_terminal (w_inner w) id = false) as Hno.
    { apply oldest_terminal_None; [done|]. apply (ok_order w Hw). eauto. }
    apply not_true_iff_false in Hno. apply Hno, task_terminal_spec. eauto.
Qed.

Lemma sorted_lt (l : list Z) i j a b :
  StronglySorted Z.lt l → l !! i = Some a → l !! j = Some b → a < b → (i < j)%nat.
Proof.
  intros Hs. revert i j. induction Hs as [|x l Hs IH Hx]; intros i j Hi Hj Hab; [done|].
  rewrite Forall_forall in Hx.
  destruct i as [|i], j as [|j]; cbn in Hi, Hj; simplify_eq; try lia.
  - apply list_elem_of_lookup_2 in Hi. apply Hx in Hi. lia.
  - specialize (IH i j Hi Hj Hab). lia.
Qed.

Lemma room_lookup w w' i :
  registry_ok w → room w = Some w' →
  tasks_of w' !! i = tasks_of w !! i ∨ evicted w i ∧ tasks_of w' !! i = None.
Proof.
  intros Hw. unfold room.
  destruct (Z.ltb_spec (Z.of_nat (size (tasks_of w))) (max_retained (w_inner w))) as [Hlt|Hge].
  { intros [= <-]. by left. }
  intros ([position id] & (Hpos & Hterm & Hbefore)%oldest_terminal_Some & ->)%fmap_Some. cbn.
  destruct (decide (i = id)) as [->|Hne]; [right|left; by apply lookup_delete_ne].
  split; [|apply lookup_delete_eq]. apply task_terminal_spec in Hterm.
  split_and!; [done|done|]. intros j t Ht Hact. apply Z.le_ngt. intros Hji.
  assert (j ∈ order (w_inner w)) as [p Hp]%list_elem_of_lookup_1 by (apply (ok_order w Hw); eauto).
  assert (p < position)%nat as Hlt by exact (sorted_lt _ _ _ _ _ (ok_sorted w Hw) Hp Hpos Hji).
  specialize (Hbefore p j Hp Hlt). apply not_true_iff_false in Hbefore.
  apply Hbefore, task_terminal_spec. eauto.
Qed.

(** What one registration does, on every branch. *)
Lemma register_locked_exact w kind source destination retry_of :
  registry_ok w →
  match register_locked kind source destination retry_of w with
  | (Ok reg, w') =>
      no_conflict w (direction kind) destination ∧ has_room w ∧ next_id (w_inner w) < u64_max ∧
      registered w w' reg kind source destination retry_of
  | (Err _, w') =>
      (w' = w ∧ (¬ no_conflict w (direction kind) destination ∨ ¬ has_room w)) ∨
      next_id (w_inner w) = u64_max
  end.
Proof.
  intros Hw. rewrite register_locked_spec by done.
  pose proof (has_conflict_spec w (direction kind) destination) as Hconf.
  destruct (has_conflict _ _ _); [left; split; [done|naive_solver]|].
  pose proof (room_has_room w Hw) as Hhas. destruct (room w) as [w'|] eqn:Hroom.
  - destruct (room_ok w w' Hw Hroom) as (Hw' & _ & Hnext & Hfresh & _ & Hsub).
    destruct (Z.ltb_spec (next_id (w_inner w)) u64_max); [|pose proof (ok_next w Hw); right; lia].
    split_and!; [naive_solver|naive_solver|done|].
    unfold registered, get, add_task, is_cancelled. cbn. rewrite Hnext, Hfresh, !lookup_insert_eq.
    split_and!; try done.
    intros i Hi. rewrite lookup_insert_ne by congruence. by apply room_lookup.
  - left. split; [done|]. right. by intros []%Hhas.
Qed.

Lemma register_exact' w kind source destination :
  registry_ok w →
  match register kind source destination w with
  | (Ok reg, w') =>
      good_text source ∧ good_text destination ∧
      no_conflict w (direction kind) destination ∧ has_room w ∧ next_id (w_inner w) < u64_max ∧
      registered w w' reg kind source destination None
  | (Err _, w') =>
      (w' = w ∧ (¬ good_text source ∨ ¬ good_text destination ∨
                 ¬ no_conflict w (direction kind) destination ∨ ¬ has_room w)) ∨
      next_id (w_inner w) = u64_max
  end.
Proof.
  intros Hw. unfold register.
  pose proof (validate_task_text_ok source) as Hsrc. pose proof (validate_task_text_ok destination) as Hdst.
  destruct (validate_task_text source) as [[]|]; [|left; split; [done|naive_solver]].
  destruct (validate_task_text destination) as [[]|]; [|left; split; [done|naive_solver]].
  pose proof (register_locked_exact w kind source destination None Hw) as H.
  destruct (register_locked _ _ _ _ _) as [[reg|e] w']; tauto.
Qed.

(** Registration.  A task is registered exactly when both texts are
    non-empty and at most 16 KiB, no active task of the same direction writes the
    same destination, there is room (fewer than [max_retained] tasks, or a
    finished one to drop) and the id counter has not reached its end.  It then gets
    the next id, starts queued with a fresh, clear cancellation flag, and no other
    task changes, except that a full registry drops its oldest finished task.  A
    refused registration leaves the registry unchanged (unless the counter is
    exhausted). *)
Theorem register_exact w kind source destination :
  registry_ok w →
  match register kind source destination w with
  | (Ok reg, w') =>
      good_text source ∧ good_text destination ∧
      no_conflict w (direction kind) destination ∧ has_room w ∧ next_id (w_inner w) < u64_max ∧
      registered w w' reg kind source destination None
  | (Err _, w') =>
      (w' = w ∧ (¬ good_text source ∨ ¬ good_text destination ∨
                 ¬ no_conflict w (direction kind) destination ∨ ¬ has_room w)) ∨
      next_id (w_inner w) = u64_max
  end.
Proof. exact (register_exact' w kind source destination). Qed.

Lemma register_retry_exact' w previous :
  registry_ok w →
  match register_retry previous w with
  | (Ok reg, w') => ∃ s, get previous w = Some s ∧ (ts_state s = Cancelled ∨ ts_state s = Failed) ∧
      no_conflict w (direction (ts_kind s)) (ts_destination s) ∧
      registered w w' reg (ts_kind s) (ts_source s) (ts_destination s) (Some previous)
  | (Err _, w') =>
      (w' = w ∧ ∀ s, get previous w = Some s → ts_state s = Cancelled ∨ ts_state s = Failed →
         ¬ no_conflict w (direction (ts_kind s)) (ts_destination s)) ∨
      next_id (w_inner w) = u64_max
  end.
Proof.
  intros Hw. unfold register_retry, get.
  destruct (tasks_of w !! previous) as [t|] eqn:Ht; [|left; split; [done|by intros s]]. cbv zeta.
  destruct (bool_decide _ || bool_decide _) eqn:Hs.
  - apply orb_true_iff in Hs. rewrite !bool_decide_eq_true in Hs.
    pose proof (register_locked_exact w (ts_kind (t_snapshot t)) (ts_source (t_snapshot t))
      (ts_destination (t_snapshot t)) (Some previous) Hw) as H.
    destruct (register_locked _ _ _ _ _) as [[reg|e] w'].
    + exists (t_snapshot t). tauto.
    + destruct H as [[-> [Hno|Hno]]|]; [left; split; [done|]|exfalso|tauto].
      * by intros s [= <-] _.
      * apply Hno. right. exists previous, t. split; [done|]. unfold active.
        by destruct Hs as [-> | ->].
  - left. split; [done|]. intros s [= <-] Hst. exfalso. apply orb_false_iff in Hs.
    rewrite !bool_decide_eq_false in Hs. tauto.
Qed.

(** Retry.  Only a cancelled or failed task can be retried; the new task has
    the same kind, source and destination and remembers which task it retries,
    and the same admission rules apply as for a new registration. *)
Theorem register_retry_exact w previous :
  registry_ok w →
  match register_retry previous w with
  | (Ok reg, w') => ∃ s, get previous w = Some s ∧ (ts_state s = Cancelled ∨ ts_state s = Failed) ∧
      no_conflict w (direction (ts_kind s)) (ts_destination s) ∧
      registered w w' reg (ts_kind s) (ts_source s) (ts_destination s) (Some previous)
  | (Err _, w') =>
      (w' = w ∧ ∀ s, get previous w = Some s → ts_state s = Cancelled ∨ ts_state s = Failed →
         ¬ no_conflict w (direction (ts_kind s)) (ts_destination s)) ∨
      next_id (w_inner w) = u64_max
  end.
Proof. exact (register_retry_exact' w previous). Qed.

(** ** Clean-up, listing, texts *)
Lemma order_size w : registry_ok w → length (order (w_inner w)) = size (tasks_of w).
Proof.
  intros Hw. rewrite <- (length_fmap fst (map_to_list (tasks_of w))) || idtac.
  rewrite <- size_dom.
  rewrite <- (size_list_to_set (C := gset Z) (order (w_inner w))) by apply sorted_nodup, (ok_sorted w Hw).
  f_equal. apply set_eq. intros id. rewrite elem_of_list_to_set, elem_of_dom. apply (ok_order w Hw).
Qed.

Lemma filter_split_length inner (l : list Z) :
  zlen (filter (λ id, task_terminal inner id = true) l) =
  Z.of_nat (length l) - Z.of_nat (length (filter (λ id, unfinished inner id = true) l)).
Proof.
  cut (length l = length (filter (λ id, task_terminal inner id = true) l) +
    length (filter (λ id, unfinished inner id = true) l))%nat; [lia|].
  induction l as [|id l IH]; [done|].
  rewrite !filter_cons. assert (unfinished inner id = negb (task_terminal inner id)) as -> by done.
  destruct (task_terminal inner id); cbn [negb]; repeat case_decide; try done; cbn [length]; lia.
Qed.

(** Clean-up removes exactly the finished tasks, reports how many, and
    changes nothing else. *)
Theorem clear_finished_exact w :
  registry_ok w →
  let '(r, w') := clear_finished w in
  r = Ok (Z.of_nat (size (tasks_of w)) - Z.of_nat (size (tasks_of w'))) ∧
  (∀ id, tasks_of w' !! id = (t ← tasks_of w !! id; if active t then Some t else None)) ∧
  w_flags w' = w_flags w ∧ next_id (w_inner w') = next_id (w_inner w).
Proof.
  intros Hw. pose proof (clear_finished_ok w Hw) as Hw'.
  destruct (clear_finished_spec w Hw) as (ts & Heq & Hts). rewrite Heq in *. cbn [snd] in Hw'.
  split_and!; [|intros id|done..].
  - rewrite <- (order_size w), <- (order_size _ Hw') by done. cbn [w_inner set_inner order]. f_equal.
    apply filter_split_length.
  - cbn. rewrite Hts. unfold unfinished, task_terminal, active.
    destruct (tasks_of w !! id) as [t|]; [|done]. cbn. by destruct (is_terminal _).
Qed.

Lemma omap_all {A B} (f : A → option B) (l : list A) :
  (∀ x, x ∈ l → is_Some (f x)) → Forall2 (λ x y, f x = Some y) l (omap f l).
Proof.
  induction l as [|x l IH]; intros Hall; [constructor|].
  cbn. destruct (Hall x) as [y Hy]; [left|]. rewrite Hy. constructor; [done|].
  apply IH. intros z Hz. apply Hall. by right.
Qed.

Lemma sorted_reverse (l : list Z) : StronglySorted Z.lt l → StronglySorted (λ a b, b < a) (reverse l).
Proof.
  induction 1 as [|x l Hs IH Hx]; [constructor|]. rewrite reverse_cons. rewrite Forall_forall in Hx.
  apply StronglySorted_app_2; [|done|by repeat constructor].
  intros a b Ha Hb. rewrite elem_of_reverse in Ha. apply list_elem_of_singleton in Hb as ->. exact (Hx a Ha).
Qed.

(** Listing.  [recent limit] is the newest [limit] tasks (or all, if there
    are fewer), newest first, each as [get] reports it; every task it leaves out is
    older than every task it lists. *)
Theorem recent_exact w limit :
  registry_ok w → 0 ≤ limit →
  length (recent limit w) = Nat.min (Z.to_nat limit) (size (tasks_of w)) ∧
  StronglySorted (λ s s', ts_id s' < ts_id s) (recent limit w) ∧
  (∀ s, s ∈ recent limit w → get (ts_id s) w = Some s) ∧
  (∀ s id t, s ∈ recent limit w → tasks_of w !! id = Some t → t_snapshot t ∉ recent limit w → id < ts_id s).
Proof.
  intros Hw Hlimit. unfold recent. set (ids := reverse (order (w_inner w))).
  assert (Hsorted : StronglySorted (λ a b, b < a) ids) by apply sorted_reverse, (ok_sorted w Hw).
  assert (Hget : ∀ id, id ∈ ids → ∃ s, get id w = Some s ∧ ts_id s = id).
  { intros id Hid. unfold ids in Hid. rewrite elem_of_reverse in Hid. apply (ok_order w Hw) in Hid as [t Ht]. exists (t_snapshot t).
    unfold get. rewrite Ht. split; [done|]. by destruct (ok_tasks w Hw id t Ht). }
  assert (Hids : ∀ id, id ∈ ids ↔ is_Some (tasks_of w !! id)).
  { intros id. unfold ids. rewrite elem_of_reverse. apply (ok_order w Hw). }
  assert (Hlen : length ids = size (tasks_of w)) by (unfold ids; rewrite length_reverse; by apply order_size).
  rewrite <- (take_drop (Z.to_nat limit) ids) in Hsorted, Hids.
  apply StronglySorted_app in Hsorted as (Hcross & Hsorted & _).
  assert (Hall : Forall2 (λ id s, get id w = Some s ∧ ts_id s = id) (take (Z.to_nat limit) ids)
    (omap (λ id, get id w) (take (Z.to_nat limit) ids))).
  { eapply Forall2_impl; [apply omap_all|].
    - intros id Hid%elem_of_take. destruct Hid as (i & Hi%list_elem_of_lookup_2 & _).
      destruct (Hget id Hi) as (s & -> & _). eauto.
    - intros id s Hs. split; [done|]. unfold get in Hs. apply fmap_Some in Hs as (t & Ht & ->).
      by destruct (ok_tasks w Hw id t Ht). }
  set (listed := omap _ _) in *. clearbody listed. split_and!.
  - rewrite <- (Forall2_length _ _ _ Hall), length_take, Hlen. done.
  - clear Hcross Hids. revert Hsorted. induction Hall as [|id s l ls [_ Hid] Hall IH]; [constructor|].
    intros Hs. inversion Hs as [|? ? Hl Hfor]; subst. constructor; [by apply IH|].
    apply Forall_forall. intros s' Hs'. apply list_elem_of_lookup in Hs' as [i Hi].
    destruct (Forall2_lookup_r _ _ _ _ _ Hall Hi) as (id' & Hi' & _ & <-).
    rewrite Forall_forall in Hfor. apply Hfor. by eapply list_elem_of_lookup_2.
  - intros s Hs. apply list_elem_of_lookup in Hs as [i Hi].
    by destruct (Forall2_lookup_r _ _ _ _ _ Hall Hi) as (id' & _ & ? & <-).
  - intros s id t Hs Ht Hno. apply list_elem_of_lookup in Hs as [i Hi].
    destruct (Forall2_lookup_r _ _ _ _ _ Hall Hi) as (id' & Hi' & _ & <-).
    assert (id ∈ take (Z.to_nat limit) ids ++ drop (Z.to_nat limit) ids) as [Hin|Hin]%elem_of_app
      by (apply Hids; eauto).
    + exfalso. apply Hno. apply list_elem_of_lookup in Hin as [j Hj].
      destruct (Forall2_lookup_l _ _ _ _ _ Hall Hj) as (s' & Hj' & Hget' & _).
      unfold get in Hget'. rewrite Ht in Hget'. injection Hget' as <-. by eapply list_elem_of_lookup_2.
    + apply Hcross; [|done]. by eapply list_elem_of_lookup_2.
Qed.

(** Bounded texts.  [bounded_text] never panics: it returns the text itself
    when it fits 16 KiB, else a prefix of it that ends on a character boundary at
    most three bytes below the limit, marked with three dots. *)
Theorem bounded_text_exact s :
  ∃ out, bounded_text s = Some out ∧
  if str_len s <=? MAX_TRANSFER_TASK_TEXT_BYTES then out = s
  else ∃ a b, s = a ++ b ∧ out = a ++ lit "..." ∧
    MAX_TRANSFER_TASK_TEXT_BYTES - 3 ≤ str_len a ≤ MAX_TRANSFER_TASK_TEXT_BYTES.
Proof.
  destruct (bounded_text_cases s) as [[Hle ->]|(Hgt & a & b & Heq & -> & Ha)].
  - exists s. split; [done|]. by rewrite (proj2 (Z.leb_le _ _) Hle).
  - exists (a ++ lit "..."). split; [done|].
    rewrite (proj2 (Z.leb_gt _ _) Hgt). by exists a, b.
Qed.

(** ** The manager *)

(** Operations of other clients that leave the running of task [id] to its
    manager. *)
Definition foreign (id : Z) (op : task_operation) : Prop :=
  match op with
  | TaskMarkRunning i | TaskComplete i _ | TaskMarkCancelled i | TaskFail i _ => i ≠ id
  | _ => True
  end.
Definition step_foreign (id : Z) (s : bridge_step) : Prop :=
  match s with StepOther op => foreign id op | _ => True end.

(** The event is one of a transfer in direction [d]. *)
Definition step_matches (d : TransferDirection) (s : bridge_step) : bool :=
  match s with StepEvent event => bool_decide (ev_direction event = d) | _ => true end.

(** Other operations do not end a task of their own. *)
Lemma foreign_keeps op w id t :
  registry_ok w → tasks_of w !! id = Some t → active t = true → foreign id op →
  ∃ u, tasks_of (task_run op w) !! id = Some u ∧ state_of u = state_of t.
Proof.
  intros Hw Ht Hact Hop.
  assert (Hlocked : ∀ k s d r, ∃ u, tasks_of (register_locked k s d r w).2 !! id = Some u ∧ state_of u = state_of t).
  { intros k s d r. rewrite register_locked_spec by done. destruct (has_conflict _ _ _); [eauto|].
    destruct (room w) as [w'|] eqn:Hroom; [|eauto].
    assert (tasks_of w' !! id = Some t) as Ht'.
    { destruct (room_lookup w w' id Hw Hroom) as [->|[(_ & (t' & Ht' & Hno) & _) _]]; [done|congruence]. }
    destruct (room_ok w w' Hw Hroom) as (Hw' & _ & Hnext & _).
    destruct (_ <? _); cbn; [|eauto]. exists t. split; [|done]. rewrite lookup_insert_ne; [done|].
    apply (ok_tasks w' Hw') in Ht' as [_ ? _ _ _ _ _ _ _ _ _ _]. lia. }
  assert (Hupd : ∀ i t' u, tasks_of w !! i = Some t' → state_of u = state_of t' →
    ∃ v, <[ i := u ]> (tasks_of w) !! id = Some v ∧ state_of v = state_of t).
  { intros i t' u Hi Hu. destruct (decide (i = id)) as [->|]; [|rewrite lookup_insert_ne by done; eauto].
    rewrite lookup_insert_eq. exists u. split; [done|]. congruence. }
  assert (Hother : ∀ i u, i ≠ id →
    ∃ v, <[ i := u ]> (tasks_of w) !! id = Some v ∧ state_of v = state_of t).
  { intros i u Hi. rewrite lookup_insert_ne by done. eauto. }
  destruct op as [k s d|p|i|i ev|i|i s|i|i e| |tok]; cbn [task_run foreign] in *.
  - unfold register. destruct (validate_task_text s), (validate_task_text d); cbn; eauto.
  - unfold register_retry. destruct (tasks_of w !! p); cbn; [destruct (_ || _); eauto|eauto].
  - unfold mark_running, with_task. destruct (tasks_of w !! i); [|eauto]. cbv zeta. destruct (negb _); cbn; eauto.
  - unfold record_progress, with_task. destruct (tasks_of w !! i) as [t'|] eqn:Hi; [|eauto]. cbv zeta.
    destruct (negb _); [eauto|]. destruct (negb _); [eauto|]. destruct (bounded_text _); cbn; eauto.
  - unfold request_cancel, with_task. destruct (tasks_of w !! i) as [t'|] eqn:Hi; [|eauto]. cbv zeta.
    destruct (is_terminal _); [eauto|]. destruct (ts_cancel_requested _); cbn; eauto.
  - unfold complete, with_task. destruct (tasks_of w !! i); [|eauto]. cbv zeta.
    destruct (ensure_running _); cbn; eauto.
  - unfold mark_cancelled, with_task. destruct (tasks_of w !! i); [|eauto]. cbv zeta.
    destruct (negb _); cbn; eauto.
  - unfold fail, with_task. destruct (tasks_of w !! i); [|eauto]. cbv zeta.
    destruct (ensure_running _); [|eauto]. destruct (bounded_text e); cbn; eauto.
  - destruct (clear_finished_spec w Hw) as (ts & -> & Hts). cbn. rewrite Hts.
    unfold unfinished, task_terminal. rewrite Ht. unfold active in Hact. rewrite Hact. eauto.
  - destruct (_ <? _)%N; eauto.
Qed.

(** The task [id] runs; it is still the task [t]. *)
Definition running_as (t : TaskRecord) (id : Z) (w : world) : Prop :=
  registry_ok w ∧ ∃ u, tasks_of w !! id = Some u ∧ state_of u = Running ∧ same_task t u.

Lemma running_as_step t id w w' :
  running_as t id w → registry_ok w' → tasks_step w w' →
  (∀ u, tasks_of w !! id = Some u → state_of u = Running →
     ∃ v, tasks_of w' !! id = Some v ∧ state_of v = Running) →
  running_as t id w'.
Proof.
  intros (Hw & u & Hu & Hrun & Hsame) Hw' (_ & _ & Hstep) Hkeep. split; [done|].
  destruct (Hkeep u Hu Hrun) as (v & Hv & Hrun'). exists v. split_and!; [done..|].
  specialize (Hstep id). rewrite Hu, Hv in Hstep. destruct Hstep as (Hsame' & _). by eapply same_task_trans.
Qed.

Lemma running_as_other t id w op :
  running_as t id w → foreign id op → running_as t id (task_run op w).
Proof.
  intros Hrun Hop. pose proof Hrun as (Hw & _).
  apply (running_as_step t id w); [done|by apply task_run_ok|by apply task_run_step|].
  intros u Hu Hs. assert (active u = true) as Hact by (unfold active; by rewrite Hs).
  destruct (foreign_keeps op w id u Hw Hu Hact Hop) as (v & Hv & Hst). exists v. split; [done|congruence].
Qed.

Lemma running_as_progress t id w ev :
  running_as t id w →
  let '(r, w') := record_progress id ev w in
  running_as t id w' ∧ is_ok r = bool_decide (ev_direction ev = task_direction t).
Proof.
  intros Hrun. pose proof Hrun as (Hw & u & Hu & Hst & Hsame).
  pose proof (record_progress_ok id ev w Hw) as Hw'. pose proof (record_progress_step id ev w) as Hstep.
  unfold record_progress, with_task in *. rewrite Hu in *. cbv zeta in *.
  assert (task_direction t = direction (ts_kind (t_snapshot u))) as ->.
  { unfold task_direction. by destruct Hsame as (_ & -> & _). }
  rewrite Hst in *. cbn [negb bool_decide decide_rel] in *. rewrite (bool_decide_eq_true_2 (Running = Running)) in * by done.
  cbn [negb] in *. case_bool_decide; cbn [negb] in *; [|done].
  destruct (bounded_text_bound (ev_path ev)) as (p & Hp & _). rewrite Hp in *. cbn [snd] in *. split; [|done].
  apply (running_as_step t id w); [done..|]. intros v Hv Hs. cbn. rewrite lookup_insert_eq. eauto.
Qed.

Lemma running_as_cancel t id w :
  running_as t id w →
  let '(r, w') := request_cancel id w in
  running_as t id w' ∧ is_ok r = true ∧ is_cancelled (t_cancellation t) w' = true.
Proof.
  intros Hrun. pose proof Hrun as (Hw & u & Hu & Hst & Hsame).
  pose proof (request_cancel_ok id w Hw) as Hw'. pose proof (request_cancel_step id w) as Hstep.
  assert (t_cancellation t = t_cancellation u) as -> by (by destruct Hsame as (_ & _ & _ & _ & _ & ->)).
  unfold request_cancel, with_task in *. rewrite Hu in *. cbv zeta in *. rewrite Hst in *.
  cbn [is_terminal] in *. destruct (ts_cancel_requested _) eqn:Hc; cbn [snd] in *.
  - split_and!; [done..|]. apply is_cancelled_true. by apply (ok_tasks w Hw id u Hu).
  - split_and!; [|done|apply is_cancelled_true; cbn; apply lookup_insert_eq].
    apply (running_as_step t id w); [done..|]. intros v Hv Hs. cbn. rewrite lookup_insert_eq. eauto.
Qed.

(** A poll saw the caller's flag set. *)
Definition polled (s : bridge_step) : bool := match s with StepPoll b => b | _ => false end.

Lemma running_as_token t id w : running_as t id w → (t_cancellation t < w_fresh w)%N.
Proof. by intros (Hw & u & [_ _ _ _ ? _ _ _ _ _ _ _]%(ok_tasks w Hw) & _ & (_ & _ & _ & _ & _ & ->)). Qed.

(** The bridge keeps the task running, reports an error only for an event of the
    wrong direction, and passes the caller's cancellation on. *)
Lemma tracking_bridge_spec t id steps alive w :
  running_as t id w → Forall (step_foreign id) steps →
  let '(r, w') := tracking_bridge id steps alive w in
  running_as t id w' ∧ is_ok r = is_ok alive && forallb (step_matches (task_direction t)) steps ∧
  (is_cancelled (t_cancellation t) w = true ∨ is_ok r && existsb polled steps = true →
   is_cancelled (t_cancellation t) w' = true).
Proof.
  revert alive w. induction steps as [|s steps IH]; intros alive w Hrun Hall.
  { cbn. rewrite !andb_true_r, andb_false_r. split_and!; [done..|]. by intros []. }
  apply Forall_cons in Hall as [Hs Hall]. cbn [tracking_bridge].
  pose proof (running_as_token t id w Hrun) as Htok. pose proof Hrun as (Hw & _).
  destruct s as [ev|[]|op]; cbn [step_matches forallb existsb polled].
  - destruct alive as [[]|e].
    + pose proof (record_progress_step id ev w) as (_ & [_ Hk] & _).
      pose proof (running_as_progress t id w ev Hrun) as Hp.
      destruct (record_progress id ev w) as [r1 w1]. destruct Hp as [Hrun1 Hr1].
      specialize (IH r1 w1 Hrun1 Hall). destruct (tracking_bridge _ _ _ _) as [r w'].
      destruct IH as (? & Hr & Hc). rewrite Hr, Hr1 in *. split_and!; [done..|].
      intros [Hset|Hset]; apply Hc; [left; by apply Hk|by right].
    + specialize (IH (Err e) w Hrun Hall). destruct (tracking_bridge _ _ _ _) as [r w'].
      destruct IH as (? & -> & Hc). by split_and!.
  - destruct alive as [[]|e].
    + pose proof (request_cancel_step id w) as (_ & [_ Hk] & _).
      pose proof (running_as_cancel t id w Hrun) as Hp.
      destruct (request_cancel id w) as [[b|] w1]; destruct Hp as (Hrun1 & Hr1 & Hc1); [|done].
      specialize (IH (Ok tt) w1 Hrun1 Hall). destruct (tracking_bridge _ _ _ _) as [r w'].
      destruct IH as (? & -> & Hc). split_and!; [done..|]. intros _. apply Hc. by left.
    + specialize (IH (Err e) w Hrun Hall). destruct (tracking_bridge _ _ _ _) as [r w'].
      destruct IH as (? & -> & Hc). by split_and!.
  - replace (match alive with Ok _ | _ => tracking_bridge id steps alive w end)
      with (tracking_bridge id steps alive w) by by destruct alive.
    specialize (IH alive w Hrun Hall). destruct (tracking_bridge _ _ _ _) as [r w'].
    destruct IH as (? & -> & Hc). by split_and!.
  - pose proof (task_run_step op w Hw) as (_ & [_ Hk] & _).
    specialize (IH alive _ (running_as_other t id w op Hrun Hs) Hall). destruct (tracking_bridge _ _ _ _) as [r w'].
    destruct IH as (? & -> & Hc). split_and!; [done..|]. intros [Hset|Hset]; apply Hc; [left; by apply Hk|by right].
Qed.

(** The end of a run: the result and the final record [u] of the task. *)
Definition run_ended (matching : bool) (outcome : transfer_outcome) (r : result TransferSummary)
    (u : TaskRecord) (w' : world) : Prop :=
  if matching then
    match outcome with
    | TransferOk summary => r = Ok summary ∧ state_of u = Completed ∧ ts_summary (t_snapshot u) = Some summary
    | TransferErr error =>
        is_ok r = false ∧
        if is_cancelled (t_cancellation u) w' then state_of u = Cancelled
        else state_of u = Failed ∧ ts_error (t_snapshot u) = bounded_text error
    end
  else is_ok r = false ∧ state_of u = Failed.

Lemma complete_running id s w u :
  tasks_of w !! id = Some u → state_of u = Running →
  ∃ v w', complete id s w = (Ok tt, w') ∧ tasks_of w' !! id = Some v ∧ same_task u v ∧
    state_of v = Completed ∧ ts_summary (t_snapshot v) = Some s.
Proof.
  intros Hu Hst. unfold complete, with_task. rewrite Hu. cbv zeta. rewrite Hst. cbn.
  eexists _, _. split; [done|]. cbn. rewrite lookup_insert_eq. by repeat split.
Qed.

Lemma mark_cancelled_running id w u :
  tasks_of w !! id = Some u → state_of u = Running →
  ∃ v w', mark_cancelled id w = (Ok tt, w') ∧ tasks_of w' !! id = Some v ∧ same_task u v ∧
    state_of v = Cancelled ∧ is_cancelled (t_cancellation u) w' = true.
Proof.
  intros Hu Hst. unfold mark_cancelled, with_task. rewrite Hu. cbv zeta. rewrite Hst. cbn.
  eexists _, _. split; [done|]. cbn. rewrite lookup_insert_eq. split_and!; try done.
  apply is_cancelled_true. cbn. apply lookup_insert_eq.
Qed.

Lemma fail_running id e w u :
  tasks_of w !! id = Some u → state_of u = Running →
  ∃ v w', fail id e w = (Ok tt, w') ∧ tasks_of w' !! id = Some v ∧ same_task u v ∧
    state_of v = Failed ∧ ts_error (t_snapshot v) = bounded_text e ∧ w_flags w' = w_flags w.
Proof.
  intros Hu Hst. unfold fail, with_task. rewrite Hu. cbv zeta. rewrite Hst. cbn.
  destruct (bounded_text_bound e) as (p & -> & _).
  eexists _, _. split; [done|]. cbn. rewrite lookup_insert_eq. by repeat split.
Qed.

Definition ends_well (w : world) (t : TaskRecord) (id : Z) (steps : list bridge_step) (outcome : transfer_outcome)
    (r : result TransferSummary) (w' : world) : Prop :=
  let matching := forallb (step_matches (task_direction t)) steps in
  registry_ok w' ∧
  (∃ u, tasks_of w' !! id = Some u ∧ same_task t u ∧ run_ended matching outcome r u w') ∧
  (matching = true → existsb polled steps = true → is_cancelled (t_cancellation t) w' = true).

Lemma run_registered_spec w t id steps outcome tracking_error :
  registry_ok w → tasks_of w !! id = Some t → state_of t = Queued → Forall (step_foreign id) steps →
  let '(r, w') := run_registered (mk_registration id (t_cancellation t)) steps outcome tracking_error w in
  ends_well w t id steps outcome r w'.
Proof.
  intros Hw Ht Hst Hall. unfold run_registered, ends_well. cbn [reg_id reg_cancellation]. cbv zeta.
  pose proof (mark_running_ok id w Hw) as Hw1.
  assert (∃ w1, mark_running id w = (Ok tt, w1) ∧ running_as t id w1) as (w1 & Heq1 & Hrun1).
  { unfold mark_running, with_task in *. rewrite Ht in *. cbv zeta in *. rewrite Hst in *. cbn in *.
    eexists. split; [done|]. split; [done|]. cbn. eexists. rewrite lookup_insert_eq. by repeat split. }
  rewrite Heq1. clear Hw1 Heq1.
  pose proof (tracking_bridge_spec t id steps (Ok tt) w1 Hrun1 Hall) as Hbridge.
  destruct (tracking_bridge id steps (Ok tt) w1) as [r w2].
  destruct Hbridge as (Hrun2 & Hr & Hpoll). cbn [is_ok andb] in Hr.
  destruct Hrun2 as (Hw2 & u & Hu & Hrunning & Hsame).
  assert (t_cancellation t = t_cancellation u) as Htok by (by destruct Hsame as (_ & _ & _ & _ & _ & ->)).
  rewrite <- Hr. rewrite Htok in *. destruct r as [[]|e]; cbn [is_ok andb] in *.
  - destruct outcome as [summary|error].
    + pose proof (complete_ok id summary w2 Hw2) as Hw3. pose proof (complete_step id summary w2) as Hstep.
      destruct (complete_running id summary w2 u Hu Hrunning) as (v & w3 & Heq & Hv & Hsame' & Hfin).
        rewrite Heq in *. cbn [snd] in *.
      destruct Hstep as (_ & [_ Hk] & _). split_and!; [done| |].
      * exists v. split_and!; [done|by eapply same_task_trans|]. cbn. by destruct Hfin.
      * intros _ Hex. apply Hk; [by destruct (ok_tasks w2 Hw2 id u Hu)|]. apply Hpoll. by right.
    + destruct (is_cancelled (t_cancellation u) w2) eqn:Hc.
      * pose proof (mark_cancelled_ok id w2 Hw2) as Hw3.
        destruct (mark_cancelled_running id w2 u Hu Hrunning) as (v & w3 & Heq & Hv & Hsame' & Hfin & Hc3).
        rewrite Heq in *. cbn [snd] in *.
        split_and!; [done| |done]. exists v. split_and!; [done|by eapply same_task_trans|].
        split; [done|]. destruct Hsame' as (_ & _ & _ & _ & _ & <-). by rewrite Hc3.
      * pose proof (fail_ok id error w2 Hw2) as Hw3.
        destruct (fail_running id error w2 u Hu Hrunning) as (v & w3 & Heq & Hv & Hsame' & Hfin & Herr & Hfl).
        rewrite Heq in *. cbn [snd] in *.
        split_and!; [done| |].
        -- exists v. split_and!; [done|by eapply same_task_trans|]. split; [done|].
           destruct Hsame' as (_ & _ & _ & _ & _ & <-). unfold is_cancelled in *. rewrite Hfl, Hc. done.
        -- intros _ Hex. specialize (Hpoll (or_intror Hex)). congruence.
  - set (msg := lit "transfer progress tracking failed: " ++ tracking_error).
    pose proof (fail_ok id msg w2 Hw2) as Hw3.
    destruct (fail_running id msg w2 u Hu Hrunning) as (v & w3 & Heq & Hv & Hsame' & Hfin & _ & _).
    rewrite Heq in *. cbn [snd] in *. split_and!; [done| |done].
    exists v. split_and!; [done|by eapply same_task_trans|done].
Qed.

(** C38: the manager leaves nothing unfinished.  A queued task handed to
    [run_registered] always ends, whatever operations other clients interleave
    (registering, retrying, clearing, cancelling, running their own tasks): when
    the transfer reports its progress in the right direction, it is completed with
    the transfer's summary, or cancelled when its flag was raised, or failed with
    the bounded error text; a caller's cancellation the bridge saw raises that
    flag; an event of the wrong direction fails the task. *)
Theorem run_registered_ends w t id steps outcome tracking_error :
  registry_ok w → tasks_of w !! id = Some t → state_of t = Queued → Forall (step_foreign id) steps →
  let '(r, w') := run_registered (mk_registration id (t_cancellation t)) steps outcome tracking_error w in
  ends_well w t id steps outcome r w'.
Proof. exact (run_registered_spec w t id steps outcome tracking_error). Qed.

Lemma ends_well_result w t id steps outcome r w' :
  ends_well w t id steps outcome r w' →
  registry_ok w' ∧ ∃ u, tasks_of w' !! id = Some u ∧ same_task t u ∧ active u = false ∧
    is_ok r = bool_decide (state_of u = Completed).
Proof.
  intros (Hw & (u & Hu & Hsame & Hend) & _). split; [done|]. exists u. split; [done|]. split; [done|].
  unfold run_ended, active in *.
  assert (is_ok r = true ∧ state_of u = Completed ∨
          is_ok r = false ∧ (state_of u = Cancelled ∨ state_of u = Failed)) as H.
  { destruct (forallb _ _), outcome; [|destruct (is_cancelled (t_cancellation u) w')| |]; naive_solver. }
  by destruct H as [[-> ->]|[-> [-> | ->]]].
Qed.

(** How a started transfer ends, given how its registration went. *)
Definition finishes (id : Z) (registration : result TransferTaskRegistration * world)
    (ended : result TransferSummary * world) : Prop :=
  match registration with
  | (Err e, w1) => ended = (Err e, w1)
  | (Ok reg, w1) => reg_id reg = id ∧ registry_ok ended.2 ∧
      ∃ u, tasks_of ended.2 !! id = Some u ∧ active u = false ∧
        is_ok ended.1 = bool_decide (state_of u = Completed)
  end.

Lemma registered_finishes w w1 reg kind source destination retry_of steps outcome tracking_error :
  registry_ok w1 → registered w w1 reg kind source destination retry_of →
  Forall (step_foreign (next_id (w_inner w))) steps →
  finishes (next_id (w_inner w)) (Ok reg, w1) (run_registered reg steps outcome tracking_error w1).
Proof.
  intros Hw1 (-> & _ & Hget & Htok & _) Hall. cbn [reg_id reg_cancellation] in *. unfold get in Hget.
  apply fmap_Some in Hget as (t & Ht & Hsnap). rewrite Ht in Htok. injection Htok as Htok. split; [done|].
  assert (state_of t = Queued) as Hst by by rewrite <- Hsnap.
  pose proof (run_registered_spec w1 t _ steps outcome tracking_error Hw1 Ht Hst Hall) as H.
  rewrite Htok in H. destruct (run_registered _ _ _ _ _) as [r w'].
  apply ends_well_result in H as (Hw' & u & Hu & _ & Hact & Hr). eauto.
Qed.

(** Starting a transfer.  [run_new] and [retry] (of a known task) fail exactly
    when the registration is refused, leaving the registry as the refusal left it;
    otherwise they end with their new task finished, and they return a summary
    exactly when the task is completed. *)
Theorem manager_finishes w kind source destination previous steps outcome tracking_error :
  registry_ok w → Forall (step_foreign (next_id (w_inner w))) steps →
  finishes (next_id (w_inner w)) (register kind source destination w)
    (run_new kind source destination steps outcome tracking_error w) ∧
  finishes (next_id (w_inner w)) (register_retry previous w) (retry previous steps outcome tracking_error w).
Proof.
  intros Hw Hall. split.
  - unfold run_new. pose proof (register_exact' w kind source destination Hw) as H.
    pose proof (register_ok w kind source destination Hw) as Hw1.
    destruct (register _ _ _ _) as [[reg|e] w1]; [|done]. destruct H as (_ & _ & _ & _ & _ & H). by eapply registered_finishes.
  - unfold retry. pose proof (register_retry_exact' w previous Hw) as H.
    pose proof (register_retry_ok w previous Hw) as Hw1.
    destruct (get previous w) eqn:Hget.
    + destruct (register_retry _ _) as [[reg|e] w1]; [|done].
      destruct H as (s & _ & _ & _ & H). by eapply registered_finishes.
    + unfold get in Hget. apply fmap_None in Hget. unfold register_retry. by rewrite Hget.
Qed.

(** ** Examples *)
Module Examples.

Definition inner0 : RegistryInner := mk_inner 1 2 ∅ [].
Definition file_up : task_operation := TaskRegister UploadFile (lit "local/a") (lit "/remote/a").
Definition file_down : task_operation := TaskRegister DownloadFile (lit "/remote/b") (lit "local/b").

(** Two tasks: the first cancelled while queued, the second registered after it. *)
Definition ops0 : list task_operation := [file_up; TaskRequestCancel 1; TaskMarkCancelled 1; file_down].
Definition w2 : world := task_run_all ops0 (empty_world inner0).

Lemma inner0_new : registry_new 2 = Ok inner0.
Proof. reflexivity. Qed.

Lemma w2_ok : registry_ok w2.
Proof. apply task_run_all_ok, (empty_world_ok 2); [reflexivity|lia]. Qed.

Definition task1 : TaskRecord :=
  mk_task (mk_snapshot 1 UploadFile (lit "local/a") (lit "/remote/a") Cancelled true None None None None) 0%N.
Definition task2 : TaskRecord :=
  mk_task (mk_snapshot 2 DownloadFile (lit "/remote/b") (lit "local/b") Queued false None None None None) 1%N.

Example w2_tasks : tasks_of w2 !! 1 = Some task1 ∧ tasks_of w2 !! 2 = Some task2.
Proof. vm_compute. done. Qed.

Lemma registry_invariant_witness :
  registry_new 2 = Ok inner0 ∧ registry_ok (task_run_all ops0 (empty_world inner0)).
Proof. split; [reflexivity|]. apply (registry_invariant 2 inner0 ops0); [reflexivity|lia]. Defined.

Lemma task_life_cycle_witness :
  tasks_of w2 !! 2 = Some task2 ∧ history w2 task2 2 [TaskMarkRunning 2; TaskFail 2 (lit "gone"); TaskClearFinished].
Proof.
  split; [vm_compute; reflexivity|].
  apply task_life_cycle; [exact w2_ok|vm_compute; reflexivity].
Defined.

(** The full registry drops its cancelled task for a third one. *)
Lemma register_exact_witness :
  ∃ reg w', register UploadDirectory (lit "dir") (lit "/dir") w2 = (Ok reg, w') ∧
    registered w2 w' reg UploadDirectory (lit "dir") (lit "/dir") None ∧ tasks_of w' !! 1 = None.
Proof.
  pose proof (register_exact w2 UploadDirectory (lit "dir") (lit "/dir") w2_ok) as H.
  destruct (register UploadDirectory (lit "dir") (lit "/dir") w2) as [[reg|e] w'] eqn:Heq.
  - exists reg, w'. split; [done|]. split; [apply H|].
    vm_compute in Heq. injection Heq as _ <-. vm_compute. reflexivity.
  - exfalso. vm_compute in Heq. discriminate Heq.
Defined.

Lemma register_retry_exact_witness :
  ∃ reg w', register_retry 1 w2 = (Ok reg, w') ∧
    ∃ s, get 1 w2 = Some s ∧ ts_state s = Cancelled ∧
    registered w2 w' reg (ts_kind s) (ts_source s) (ts_destination s) (Some 1).
Proof.
  pose proof (register_retry_exact w2 1 w2_ok) as H.
  destruct (register_retry 1 w2) as [[reg|e] w'] eqn:Heq.
  - destruct H as (s & Hs & _ & _ & H). exists reg, w'. split; [done|]. exists s. split; [done|].
    split; [|done]. vm_compute in Hs. injection Hs as <-. reflexivity.
  - exfalso. vm_compute in Heq. discriminate Heq.
Defined.

Lemma clear_finished_exact_witness :
  (clear_finished w2).1 = Ok 1 ∧ tasks_of (clear_finished w2).2 !! 1 = None.
Proof.
  pose proof (clear_finished_exact w2 w2_ok) as H.
  destruct (clear_finished w2) as [r w'] eqn:Heq. destruct H as (_ & H & _). split.
  - vm_compute in Heq. injection Heq as <- _. reflexivity.
  - cbn. rewrite H. vm_compute. reflexivity.
Defined.

Lemma recent_exact_witness :
  recent 1 w2 = [t_snapshot task2] ∧ StronglySorted (λ s s', ts_id s' < ts_id s) (recent 5 w2).
Proof. split; [vm_compute; reflexivity|]. apply (recent_exact w2 5); [exact w2_ok|lia]. Defined.

Definition steps2 : list bridge_step :=
  [StepEvent (mk_event Download (lit "/remote/b") 10 (Some 20) false); StepOther (TaskRegister UploadFile (lit "x") (lit "y"));
   StepPoll true; StepOther TaskClearFinished].

Lemma run_registered_ends_witness :
  Forall (step_foreign 2) steps2 ∧
  let '(r, w') := run_registered (mk_registration 2 1%N) steps2 (TransferErr (lit "cancelled")) [] w2 in
  ends_well w2 task2 2 steps2 (TransferErr (lit "cancelled")) r w'.
Proof.
  assert (Forall (step_foreign 2) steps2) as Hall by (repeat constructor).
  split; [exact Hall|].
  apply (run_registered_ends w2 task2 2 steps2); [exact w2_ok|vm_compute; reflexivity|reflexivity|exact Hall].
Defined.

Lemma manager_finishes_witness :
  finishes 3 (register_retry 1 w2) (retry 1 [] (TransferOk (mk_summary 1 0 20 0)) [] w2).
Proof.
  apply (manager_finishes w2 UploadFile [] [] 1 []); [exact w2_ok|constructor].
Defined.

End Examples.
