(* ===== verification/RemotePath.v ===== *)
(** * Remote names and paths ([crates/kaduox-ssh-transfer/src/remote_path.rs])

    The checks between a server's or a plan's path strings and the file systems:
    one directory entry name, a relative path, joining it under a remote root and
    reading it as a local path (with the path rules of Unix). *)

From stdpp Require Import base list gmap strings numbers sorting.
From Stdlib Require Import Lia.
From S2P Require Import Prelude RustStr StrFacts.

Definition slash : char := 47.
Definition backslash : char := 92.
Definition dot : str := [46].
Definition dotdot : str := [46; 46].

(** ** Definitions *)
Definition RESERVED_DEVICES : list str :=
  lit <$> ["CON"; "PRN"; "AUX"; "NUL"; "COM1"; "COM2"; "COM3"; "COM4"; "COM5"; "COM6"; "COM7"; "COM8"; "COM9";
           "LPT1"; "LPT2"; "LPT3"; "LPT4"; "LPT5"; "LPT6"; "LPT7"; "LPT8"; "LPT9"]%string.

(** [name.split('.').next().unwrap_or(name)] *)
Definition stem_of (name : str) : str := default name (head (split 46 name)).

Definition validate_remote_child_name (name : str) : result unit :=
  bail_if (bool_decide (name = [])) "remote directory entry name cannot be empty" ≫= λ _,
  bail_if (bool_decide (name = dot) || bool_decide (name = dotdot))
    "remote directory entry cannot be a traversal component" ≫= λ _,
  bail_if (contains_char name slash || contains_char name backslash)
    "remote directory entry must be a single path component" ≫= λ _,
  bail_if (existsb is_control name) "remote directory entry cannot contain control characters" ≫= λ _,
  bail_if (contains_char name 58) "remote directory entry cannot contain ':'" ≫= λ _,
  bail_if (ends_with name [46] || ends_with name [32])
    "remote directory entry cannot end with '.' or space" ≫= λ _,
  bail_if (bool_decide (to_ascii_uppercase (stem_of name) ∈ RESERVED_DEVICES))
    "remote directory entry is a Windows reserved device name".

Definition validate_remote_relative_path (path : str) : result unit :=
  bail_if (bool_decide (path = [])) "remote relative path cannot be empty" ≫= λ _,
  bail_if (starts_with path [slash] || starts_with path [backslash]) "remote sync path must be relative" ≫= λ _,
  bail_if (contains_char path 0) "remote sync path cannot contain NUL bytes" ≫= λ _,
  for_each validate_remote_child_name (split slash path).

Definition join_remote_under_root (root relative : str) : result str :=
  validate_remote_relative_path relative ≫= λ _,
  Ok (if bool_decide (root = []) || bool_decide (root = dot) then relative
      else if bool_decide (root = [slash]) then slash :: relative
      else if ends_with root [slash] then root ++ relative
      else root ++ slash :: relative).

(** [join_remote] of transfer.rs and [join_remote_component] of sync/preflight.rs. *)
Definition join_remote (parent child : str) : str :=
  if bool_decide (parent = []) || bool_decide (parent = dot) then child
  else if bool_decide (parent = [slash]) then slash :: child
  else if ends_with parent [slash] then parent ++ child
  else parent ++ slash :: child.

(** [std::path::Component] and [Path::components] on Unix. *)
Inductive Component := RootDir | CurDir | ParentDir | Normal (name : str).

Definition component_of (piece : str) : option Component :=
  if bool_decide (piece = []) || bool_decide (piece = dot) then None
  else if bool_decide (piece = dotdot) then Some ParentDir
  else Some (Normal piece).

Definition path_components (path : str) : list Component :=
  match split slash path with
  | [] => []
  | first :: rest =>
      (if starts_with path [slash] then [RootDir] else if bool_decide (first = dot) then [CurDir] else []) ++
      omap component_of (first :: rest)
  end.

(** [PathBuf::push] on Unix. *)
Definition path_push (path component : str) : str :=
  if starts_with component [slash] then component
  else if bool_decide (path = []) || ends_with path [slash] then path ++ component
  else path ++ slash :: component.

Definition local_path_from_remote_relative (relative : str) : result str :=
  validate_remote_relative_path relative ≫= λ _,
  try_fold (λ path component,
    match path_components component with
    | [Normal _] => Ok (path_push path component)
    | _ => Err "sync path component is not a normal local filename on this platform"
    end) [] (split slash relative).

(** ** Splitting and joining *)
Lemma split_snoc_sep c a b : split c (a ++ c :: b) = split c a ++ split c b.
Proof.
  unfold split. induction a as [|x a IH]; cbn [app split_on]; [by rewrite Z.eqb_refl|].
  destruct (c =? x); [by rewrite IH|]. rewrite IH.
  destruct (split_on (Z.eqb c) a) as [|w ws] eqn:Hs; [|done].
  exfalso. destruct a as [|y a]; [done|]. cbn in Hs. destruct (c =? y); [done|].
  by destruct (split_on (Z.eqb c) a).
Qed.

Lemma split_nonempty c s : split c s ≠ [].
Proof.
  unfold split. destruct s as [|x s]; [done|]. cbn. destruct (c =? x); [done|].
  by destruct (split_on _ s).
Qed.

(** The pieces hold no separator, and joining them gives the string back. *)
Lemma split_pieces c s w : w ∈ split c s → c ∉ w.
Proof.
  unfold split. revert w. induction s as [|x s IH]; intros w; cbn [split_on].
  - intros ->%list_elem_of_singleton. apply not_elem_of_nil.
  - destruct (Z.eqb_spec c x) as [->|Hne].
    + intros [->|Hin]%elem_of_cons; [apply not_elem_of_nil|by apply IH].
    + destruct (split_on (Z.eqb c) s) as [|v vs] eqn:Hs.
      * intros ->%list_elem_of_singleton [?|?%elem_of_nil]%elem_of_cons; done.
      * intros [->|Hin]%elem_of_cons; [|apply IH; by right].
        intros [?|Hc]%elem_of_cons; [done|]. eapply (IH v); [by left|done].
Qed.

Fixpoint join_with (c : char) (ws : list str) : str :=
  match ws with [] => [] | [w] => w | w :: ws => w ++ c :: join_with c ws end.

Lemma join_with_cons c w ws : ws ≠ [] → join_with c (w :: ws) = w ++ c :: join_with c ws.
Proof. by destruct ws. Qed.

Lemma join_split c s : join_with c (split c s) = s.
Proof.
  unfold split. induction s as [|x s IH]; [done|]. cbn [split_on].
  destruct (Z.eqb_spec c x) as [->|Hne].
  - rewrite join_with_cons by apply (split_nonempty x s). cbn. by rewrite IH.
  - pose proof (split_nonempty c s) as Hn. unfold split in Hn.
    destruct (split_on (Z.eqb c) s) as [|w [|w' ws]]; [done|cbn in *; by rewrite IH|].
    cbn in *. by rewrite IH.
Qed.

Lemma split_join c ws : ws ≠ [] → Forall (λ w, c ∉ w) ws → split c (join_with c ws) = ws.
Proof.
  intros Hne Hall. induction Hall as [|w ws Hw Hall IH]; [done|].
  assert (Forall (λ x, (c =? x) = false) w) as Hw'.
  { apply Forall_forall. intros x Hx. apply Z.eqb_neq. intros <-. exact (Hw Hx). }
  destruct ws as [|w' ws]; [by apply split_on_none|].
  rewrite join_with_cons by done. unfold split in *. rewrite (split_on_cons _ w c _ Hw' (Z.eqb_refl c)).
  by rewrite IH.
Qed.

Lemma split_inj c s t : split c s = split c t → s = t.
Proof. intros H. by rewrite <- (join_split c s), H, join_split. Qed.

(** ** Safe names *)

(** What a validated name is. *)
Record safe_name (name : str) : Prop := {
  safe_nonempty : name ≠ [];
  safe_not_dot : name ≠ dot;
  safe_not_dotdot : name ≠ dotdot;
  safe_slash : slash ∉ name;
  safe_backslash : backslash ∉ name;
  safe_colon : 58 ∉ name;
  safe_control : Forall (λ c, is_control c = false) name;
  safe_end : last name ≠ Some 46 ∧ last name ≠ Some 32;
  safe_device : to_ascii_uppercase (stem_of name) ∉ RESERVED_DEVICES;
}.

Lemma contains_char_spec s c : contains_char s c = false ↔ c ∉ s.
Proof.
  unfold contains_char. rewrite <- not_true_iff_false, existsb_exists.
  setoid_rewrite <- list_elem_of_In. split.
  - intros H Hc. apply H. exists c. split; [done|apply Z.eqb_refl].
  - intros H (x & Hx & ->%Z.eqb_eq). done.
Qed.

Lemma ends_with_one s c : ends_with s [c] = bool_decide (last s = Some c).
Proof.
  destruct s as [|d s _] using rev_ind; [done|]. rewrite ends_with_snoc, last_snoc.
  destruct (Z.eqb_spec c d) as [->|Hne]; [by rewrite bool_decide_eq_true_2|].
  rewrite bool_decide_eq_false_2; [done|]. congruence.
Qed.

Lemma existsb_false {A} (f : A → bool) l : existsb f l = false ↔ Forall (λ x, f x = false) l.
Proof.
  induction l as [|x l IH]; cbn; [by rewrite Forall_nil|]. rewrite orb_false_iff, Forall_cons, IH. done.
Qed.

Lemma validate_child_safe name : validate_remote_child_name name = Ok tt ↔ safe_name name.
Proof.
  unfold validate_remote_child_name. rewrite !bind_ok. setoid_rewrite bind_ok.
  split.
  - intros ([] & H1 & [] & H2 & H). repeat setoid_rewrite bind_ok in H.
    destruct H as ([] & H3 & [] & H4 & [] & H5 & [] & H6 & H7).
    rewrite bail_if_ok in *. rewrite !orb_false_iff, !bool_decide_eq_false in *.
    rewrite !contains_char_spec, !ends_with_one, existsb_false, !bool_decide_eq_false in *.
    split; tauto.
  - intros []. exists tt. rewrite bail_if_ok, bool_decide_eq_false. split; [done|]. exists tt.
    rewrite bail_if_ok, orb_false_iff, !bool_decide_eq_false. split; [done|].
    rewrite !bind_ok. exists tt. rewrite bail_if_ok, orb_false_iff, !contains_char_spec. split; [done|].
    rewrite !bind_ok. exists tt. rewrite bail_if_ok, existsb_false. split; [done|].
    rewrite !bind_ok. exists tt. rewrite bail_if_ok, contains_char_spec. split; [done|].
    rewrite !bind_ok. exists tt. rewrite bail_if_ok, orb_false_iff, !ends_with_one, !bool_decide_eq_false.
    split; [done|]. by rewrite bail_if_ok, bool_decide_eq_false.
Qed.

(** A validated relative path: a non-empty list of safe names. *)
Definition safe_path (path : str) : Prop := Forall safe_name (split slash path).

Lemma starts_with_split c s w ws : split c s = w :: ws → starts_with s [c] = bool_decide (w = [] ∧ s ≠ []).
Proof.
  rewrite starts_with_one. unfold split. destruct s as [|x s]; cbn [split_on head].
  - intros [= <- _]. by rewrite !bool_decide_eq_false_2 by naive_solver.
  - destruct (Z.eqb_spec c x) as [->|Hne].
    + intros [= <- _]. by rewrite !bool_decide_eq_true_2.
    + rewrite (bool_decide_eq_false_2 (Some x = Some c)) by congruence. intros H.
      rewrite bool_decide_eq_false_2; [done|]. intros [-> _].
      by destruct (split_on _ s) as [|v vs]; injection H.
Qed.

Lemma elem_of_split c s x : x ∈ s → x ≠ c → ∃ w, w ∈ split c s ∧ x ∈ w.
Proof.
  intros Hx Hne. unfold split. induction s as [|y s IH]; [by apply elem_of_nil in Hx|]. cbn [split_on].
  apply elem_of_cons in Hx as [<-|Hx].
  - rewrite (proj2 (Z.eqb_neq c x)) by congruence.
    destruct (split_on _ s) as [|v vs]; eexists; (split; [left|by left]).
  - destruct (IH Hx) as (w & Hw & Hxw). destruct (c =? y); [exists w; split; [by right|done]|].
    destruct (split_on _ s) as [|v vs]; [by apply elem_of_nil in Hw|].
    apply elem_of_cons in Hw as [->|Hw]; [exists (y :: v)|exists w]; (split; [|done || by right]); [by left|by right].
Qed.

(** The checks of [validate_remote_relative_path] before its loop are implied by
    the loop. *)
Lemma validate_relative_safe path : validate_remote_relative_path path = Ok tt ↔ safe_path path.
Proof.
  assert (Hloop : for_each validate_remote_child_name (split slash path) = Ok tt ↔ safe_path path).
  { rewrite for_each_ok. unfold safe_path. rewrite !Forall_forall. by setoid_rewrite validate_child_safe. }
  unfold validate_remote_relative_path. split.
  - rewrite bind_ok. intros ([] & _ & H). apply bind_ok in H as ([] & _ & H).
    apply bind_ok in H as ([] & _ & H). by apply Hloop.
  - intros Hsafe. pose proof Hsafe as Hok. apply Hloop in Hok. rewrite Hok. clear Hok Hloop.
    unfold safe_path in Hsafe. pose proof (split_nonempty slash path) as Hne.
    assert (path ≠ []) as Hpath.
    { intros ->. apply Forall_cons in Hsafe as [[] _]. done. }
    rewrite bool_decide_eq_false_2 by done.
    assert (starts_with path [slash] = false) as ->.
    { destruct (split slash path) as [|w ws] eqn:Hs; [done|]. rewrite (starts_with_split _ _ _ _ Hs).
      apply Forall_cons in Hsafe as [[] _]. apply bool_decide_eq_false_2. tauto. }
    assert (∀ c, c ≠ slash → (∀ w, safe_name w → c ∉ w) → c ∉ path) as Hnot.
    { intros c Hc Hsafe' Hin. destruct (elem_of_split slash path c Hin Hc) as (w & Hw & Hcw).
      rewrite Forall_forall in Hsafe. by apply (Hsafe' w); [apply Hsafe|]. }
    assert (starts_with path [backslash] = false) as ->.
    { rewrite starts_with_one, bool_decide_eq_false. intros Hhead.
      destruct path as [|x path]; [done|]. injection Hhead as ->.
      apply (Hnot backslash); [done|by intros w []|by left]. }
    rewrite (proj2 (contains_char_spec path 0)); [done|]. apply Hnot; [done|]. intros w [] Hin.
    rewrite Forall_forall in safe_control0. by specialize (safe_control0 _ Hin).
Qed.

(** ** Where a joined path leads *)

(** The names a path walks through: POSIX ignores empty components and [.]. *)
Definition walk (path : str) : list str := filter (λ w, w ≠ [] ∧ w ≠ dot) (split slash path).
Definition absolute (path : str) : bool := starts_with path [slash].

Lemma walk_app_sep a b : walk (a ++ slash :: b) = walk a ++ walk b.
Proof. unfold walk. by rewrite split_snoc_sep, filter_app. Qed.

Lemma walk_safe path : safe_path path → walk path = split slash path.
Proof.
  intros Hsafe. unfold walk, safe_path in *. apply filter_all.
  eapply Forall_impl; [exact Hsafe|]. by intros w [].
Qed.

Lemma absolute_app root path : root ≠ [] → absolute (root ++ path) = absolute root.
Proof. unfold absolute. intros Hne. rewrite !starts_with_one. by destruct root. Qed.

Lemma safe_not_absolute path : safe_path path → absolute path = false.
Proof.
  intros Hsafe. unfold absolute, safe_path in *. pose proof (split_nonempty slash path).
  destruct (split slash path) as [|w ws] eqn:Hs; [done|]. rewrite (starts_with_split _ _ _ _ Hs).
  apply Forall_cons in Hsafe as [[] _]. apply bool_decide_eq_false_2. tauto.
Qed.

(** Joining a relative path: [join_remote_under_root] is [join_remote] after its
    check. *)
Lemma join_remote_relative root path :
  absolute path = false →
  walk (join_remote root path) = walk root ++ walk path ∧ absolute (join_remote root path) = absolute root.
Proof.
  intros Habs. unfold join_remote. split.
  - repeat case_bool_decide; cbn [orb]; subst; try done.
    destruct (ends_with root [slash]) eqn:He; [|apply walk_app_sep].
    rewrite ends_with_one, bool_decide_eq_true in He. destruct root as [|c root _] using rev_ind; [done|].
    rewrite last_snoc in He. injection He as ->.
    rewrite <- app_assoc. cbn [app]. rewrite !walk_app_sep. change (walk []) with (@nil str). by rewrite app_nil_r.
  - repeat case_bool_decide; cbn [orb]; subst; try done.
    destruct (ends_with root [slash]); by apply absolute_app.
Qed.

Lemma join_remote_under_root_safe root path :
  safe_path path → join_remote_under_root root path = Ok (join_remote root path).
Proof. intros Hsafe. unfold join_remote_under_root. by rewrite (proj2 (validate_relative_safe path) Hsafe). Qed.

Lemma join_remote_walk root path :
  safe_path path →
  walk (join_remote root path) = walk root ++ split slash path ∧
  absolute (join_remote root path) = absolute root ∧
  join_remote_under_root root path = Ok (join_remote root path).
Proof.
  intros Hsafe. rewrite <- (walk_safe path Hsafe).
  destruct (join_remote_relative root path (safe_not_absolute path Hsafe)) as [Hw Ha].
  split_and!; [done..|by apply join_remote_under_root_safe].
Qed.

(** Remote paths are confined to their root.  [join_remote_under_root]
    accepts a relative path exactly when all its components are safe names, and
    the path it builds walks through the root's components and then through those
    of the relative path, none of which is empty, [.], [..], or holds a
    separator, a colon or a control character; it is absolute exactly when the
    root is. *)
Theorem remote_paths_confined root relative :
  match join_remote_under_root root relative with
  | Ok path =>
      safe_path relative ∧ walk path = walk root ++ split slash relative ∧
      absolute path = absolute root ∧
      Forall (λ w, w ≠ [] ∧ w ≠ dot ∧ w ≠ dotdot ∧ slash ∉ w ∧ backslash ∉ w ∧ 58 ∉ w ∧
                   Forall (λ c, is_control c = false) w) (split slash relative)
  | Err _ => ¬ safe_path relative
  end.
Proof.
  destruct (join_remote_under_root root relative) as [path|e] eqn:Hj.
  - assert (safe_path relative) as Hsafe.
    { apply validate_relative_safe. unfold join_remote_under_root in Hj. by apply bind_ok in Hj as ([] & ? & _). }
    destruct (join_remote_walk root relative Hsafe) as (Hw & Ha & Heq). rewrite Heq in Hj. injection Hj as <-.
    split_and!; [done..|]. eapply Forall_impl; [exact Hsafe|]. by intros w [].
  - intros Hsafe. destruct (join_remote_walk root relative Hsafe) as (_ & _ & Heq). congruence.
Qed.

Lemma safe_component w : safe_name w → path_components w = [Normal w].
Proof.
  intros []. unfold path_components, split. rewrite split_on_none.
  - unfold absolute. rewrite starts_with_one, (bool_decide_eq_false_2 (head w = Some slash)).
    + rewrite (bool_decide_eq_false_2 (w = dot)) by done. cbn. unfold component_of.
      rewrite !bool_decide_eq_false_2 by done. done.
    + intros Hhead. destruct w as [|c w]; [done|]. injection Hhead as ->. apply safe_slash0. by left.
  - apply Forall_forall. intros x Hx. apply Z.eqb_neq. by intros <-.
Qed.

Lemma push_all ws path :
  path ≠ [] → last path ≠ Some slash → Forall safe_name ws →
  try_fold (λ path component,
    match path_components component with
    | [Normal _] => Ok (path_push path component)
    | _ => Err "sync path component is not a normal local filename on this platform"
    end) path ws = Ok (join_with slash (path :: ws)).
Proof.
  revert path. induction ws as [|w ws IH]; intros path Hne Hlast Hall; [done|].
  apply Forall_cons in Hall as [Hw Hall]. cbn [try_fold].
  rewrite (safe_component w Hw), bind_of_ok.
  assert (path_push path w = path ++ slash :: w) as ->.
  { unfold path_push. destruct Hw. destruct w as [|c w]; [done|].
    rewrite starts_with_one, (bool_decide_eq_false_2 (head (c :: w) = Some slash)).
    - rewrite ends_with_one. by rewrite !bool_decide_eq_false_2.
    - intros [= ->]. apply safe_slash0. by left. }
  rewrite IH; [|by destruct path| |done].
  - rewrite (join_with_cons _ path) by done. destruct ws as [|w' ws]; [done|].
    rewrite !join_with_cons by done. by rewrite <- app_assoc.
  - destruct Hw. rewrite last_app. destruct (last (slash :: w)) as [c|] eqn:Hl; [|done].
    intros [= ->]. destruct w as [|x w]; [done|]. change (last (slash :: x :: w)) with (last (x :: w)) in Hl.
    apply safe_slash0, last_Some_elem_of. done.
Qed.

Lemma local_path_safe relative : safe_path relative → local_path_from_remote_relative relative = Ok relative.
Proof.
  intros Hsafe. unfold local_path_from_remote_relative.
  rewrite (proj2 (validate_relative_safe _) Hsafe), bind_of_ok. unfold safe_path in Hsafe.
  rewrite <- (join_split slash relative) at 2. pose proof (split_nonempty slash relative).
  destruct (split slash relative) as [|w ws]; [done|]. apply Forall_cons in Hsafe as [Hw Hall].
  cbn [try_fold]. rewrite (safe_component w Hw), bind_of_ok.
  assert (path_push [] w = w) as ->.
  { unfold path_push. by destruct (starts_with w [slash]). }
  apply push_all; [by destruct Hw| |done].
  destruct Hw. intros Hl. by apply safe_slash0, last_Some_elem_of.
Qed.

Lemma path_components_safe path :
  safe_path path → path_components path = Normal <$> split slash path.
Proof.
  intros Hsafe. unfold path_components. pose proof (split_nonempty slash path).
  pose proof (safe_not_absolute path Hsafe) as Habs. unfold absolute in Habs. unfold safe_path in Hsafe.
  destruct (split slash path) as [|w ws]; [done|]. rewrite Habs.
  pose proof Hsafe as Hall. apply Forall_cons in Hsafe as [[] _].
  rewrite (bool_decide_eq_false_2 (w = dot)) by done. cbn [app]. clear -Hall.
  induction Hall as [|v vs [] _ IH]; [done|]. csimpl. rewrite IH. unfold component_of.
  by rewrite !bool_decide_eq_false_2 by done.
Qed.

(** The local reading of a remote path.  [local_path_from_remote_relative]
    never fails on a validated path; the local path it builds is the same string
    and consists of the same normal components: no root, no [.] and no [..]. *)
Theorem local_path_exact relative :
  match local_path_from_remote_relative relative with
  | Ok path => safe_path relative ∧ path = relative ∧
      path_components path = Normal <$> split slash relative
  | Err _ => ¬ safe_path relative
  end.
Proof.
  destruct (local_path_from_remote_relative relative) as [path|e] eqn:Hl.
  - assert (safe_path relative) as Hsafe.
    { apply validate_relative_safe. unfold local_path_from_remote_relative in Hl.
      by apply bind_ok in Hl as ([] & ? & _). }
    rewrite (local_path_safe relative Hsafe) in Hl. injection Hl as <-.
    split_and!; [done..|]. by apply path_components_safe.
  - intros Hsafe. rewrite (local_path_safe relative Hsafe) in Hl. done.
Qed.

(** ** Examples *)
Module Examples.

Example joined : join_remote_under_root (lit "/srv/app") (lit "releases/app.bin") = Ok (lit "/srv/app/releases/app.bin").
Proof. vm_compute. reflexivity. Qed.

Example rejected :
  forallb (λ p, negb (is_ok (validate_remote_relative_path (lit p))))
    [""; "."; ".."; "../etc/passwd"; "a/../b"; "a/./b"; "/etc/passwd"; "a//b"; "a/"; "a\b"; "con.txt"; "a "]%string = true.
Proof. vm_compute. reflexivity. Qed.

End Examples.
