(* ===== verification/SyncPlan.v ===== *)
(** * Directory synchronization: planning ([crates/kaduox-ssh-transfer/src/sync.rs])

    The plan that makes a remote tree equal to a local one, from the two
    snapshots, the validation of a plan, and the checks an atomic run makes
    before it changes anything ([sync/preflight.rs]). *)

From stdpp Require Import base list gmap strings numbers sorting.
From Stdlib Require Import Lia.
From S2P Require Import Prelude RustStr StrFacts RemotePath.

(** ** Data *)
Inductive SyncActionKind := DeleteRemoteFile | DeleteRemoteDirectory | CreateRemoteDirectory | UploadFile.
#[export] Instance action_kind_eq_dec : EqDecision SyncActionKind.
Proof. solve_decision. Defined.

Record SyncAction := mk_action { a_kind : SyncActionKind; a_path : str; a_bytes : Z }.
#[export] Instance action_eq_dec : EqDecision SyncAction.
Proof. solve_decision. Defined.

Record SyncPlan := mk_plan {
  actions : list SyncAction;
  bytes_to_upload : Z;
  files_to_upload : Z;
  entries_to_delete : Z;
  directories_to_create : Z;
}.
Definition plan_is_empty (plan : SyncPlan) : bool := bool_decide (actions plan = []).

(** The fields of [SyncOptions] that planning reads. *)
Record SyncOptions := mk_options { opt_delete : bool; opt_size_only : bool }.

Inductive EntryKind := File | Directory | Other.
#[export] Instance entry_kind_eq_dec : EqDecision EntryKind.
Proof. solve_decision. Defined.

Record SnapshotEntry := mk_entry { e_kind : EntryKind; e_len : Z; e_mtime : option Z }.
#[export] Instance entry_eq_dec : EqDecision SnapshotEntry.
Proof. solve_decision. Defined.

Abbreviation Snapshot := (gmap str SnapshotEntry).

(** ** Helpers *)
Definition files_match (local remote : SnapshotEntry) (size_only : bool) : bool :=
  if negb (e_len local =? e_len remote) then false
  else if size_only then true
  else match e_mtime local, e_mtime remote with
  | Some l, Some r => Z.abs (l - r) <=? 1
  | _, _ => false
  end.

Definition join_relative (parent child : str) : str :=
  if bool_decide (parent = []) then child else parent ++ slash :: child.

Definition path_depth (path : str) : Z := zlen (filter (λ part, part ≠ []) (split slash path)).

(** The orders of the four sorts. *)
Definition by_path (a b : SyncAction) : Prop := str_le (a_path a) (a_path b).
Definition shallow_first (a b : SyncAction) : Prop :=
  path_depth (a_path a) < path_depth (a_path b) ∨
  path_depth (a_path a) = path_depth (a_path b) ∧ str_le (a_path a) (a_path b).
Definition deep_first (a b : SyncAction) : Prop := shallow_first b a.

#[export] Instance by_path_dec : RelDecision by_path := λ a b, _.
#[export] Instance shallow_first_dec : RelDecision shallow_first.
Proof. intros a b. unfold shallow_first. apply _. Defined.
#[export] Instance deep_first_dec : RelDecision deep_first := λ a b, shallow_first_dec b a.

(** ** Planning *)
Record Pushes := mk_pushes {
  delete_files : list SyncAction;
  delete_directories : list SyncAction;
  create_directories : list SyncAction;
  uploads : list SyncAction;
}.
Definition no_pushes : Pushes := mk_pushes [] [] [] [].

Definition push_delete_file (s : Pushes) (a : SyncAction) : Pushes :=
  mk_pushes (delete_files s ++ [a]) (delete_directories s) (create_directories s) (uploads s).
Definition push_delete_directory (s : Pushes) (a : SyncAction) : Pushes :=
  mk_pushes (delete_files s) (delete_directories s ++ [a]) (create_directories s) (uploads s).
Definition push_create_directory (s : Pushes) (a : SyncAction) : Pushes :=
  mk_pushes (delete_files s) (delete_directories s) (create_directories s ++ [a]) (uploads s).
Definition push_upload (s : Pushes) (a : SyncAction) : Pushes :=
  mk_pushes (delete_files s) (delete_directories s) (create_directories s) (uploads s ++ [a]).

(** The two [match]es that create a local entry and delete a remote one. *)
Definition push_local (s : Pushes) (path : str) (entry : SnapshotEntry) : Pushes :=
  match e_kind entry with
  | Directory => push_create_directory s (mk_action CreateRemoteDirectory path 0)
  | File => push_upload s (mk_action UploadFile path (e_len entry))
  | Other => s
  end.
Definition push_removal (s : Pushes) (path : str) (entry : SnapshotEntry) : Pushes :=
  match e_kind entry with
  | Directory => push_delete_directory s (mk_action DeleteRemoteDirectory path 0)
  | File | Other => push_delete_file s (mk_action DeleteRemoteFile path 0)
  end.

(** The body of the first loop. *)
Definition plan_local (remote : Snapshot) (options : SyncOptions) (s : Pushes) (entry : str * SnapshotEntry)
    : result Pushes :=
  let '(path, local_entry) := entry in
  match remote !! path with
  | None => Ok (push_local s path local_entry)
  | Some remote_entry =>
      if bool_decide (e_kind remote_entry = e_kind local_entry) then
        if bool_decide (e_kind local_entry = File)
           && negb (files_match local_entry remote_entry (opt_size_only options))
        then Ok (push_upload s (mk_action UploadFile path (e_len local_entry)))
        else Ok s
      else if negb (opt_delete options)
      then Err "sync type conflict; rerun with --delete to permit replacement"
      else Ok (push_local (push_removal s path remote_entry) path local_entry)
  end.

(** The body of the second loop. *)
Definition plan_remote (local : Snapshot) (s : Pushes) (entry : str * SnapshotEntry) : Pushes :=
  let '(path, remote_entry) := entry in
  if bool_decide (is_Some (local !! path)) then s else push_removal s path remote_entry.

Definition build_push_plan (local remote : Snapshot) (options : SyncOptions) : result SyncPlan :=
  try_fold (plan_local remote options) no_pushes (btree_entries local) ≫= λ s,
  let s := if opt_delete options then foldl (plan_remote local) s (btree_entries remote) else s in
  let delete_files := merge_sort by_path (delete_files s) in
  let delete_directories := merge_sort deep_first (delete_directories s) in
  let create_directories := merge_sort shallow_first (create_directories s) in
  let uploads := merge_sort by_path (uploads s) in
  with_context (checked_add usize_max (zlen delete_files) (zlen delete_directories))
    "sync delete action count overflow" ≫= λ delete_count,
  with_context (try_from u64_max delete_count) "sync delete action count exceeds u64" ≫= λ entries_to_delete,
  with_context (try_from u64_max (zlen create_directories)) "sync directory action count exceeds u64"
    ≫= λ directories_to_create,
  with_context (try_from u64_max (zlen uploads)) "sync upload action count exceeds u64" ≫= λ files_to_upload,
  try_fold (λ total action, with_context (checked_add u64_max total (a_bytes action))
    "sync upload byte counter overflow") 0 uploads ≫= λ bytes_to_upload,
  with_context (total ← checked_add usize_max delete_count (zlen create_directories);
                checked_add usize_max total (zlen uploads)) "sync total action count overflow" ≫= λ _,
  Ok (mk_plan (delete_files ++ delete_directories ++ create_directories ++ uploads)
        bytes_to_upload files_to_upload entries_to_delete directories_to_create).

(** ** Validation *)
Definition validate_sync_plan (plan : SyncPlan) : result unit :=
  for_each (λ action,
    validate_remote_relative_path (a_path action) ≫= λ _,
    local_path_from_remote_relative (a_path action) ≫= λ _, Ok tt) (actions plan).
