(* ===== verification/SyncConverge.v ===== *)
(** * A synchronization plan does what it promises

    What a remote file system does on each action of a plan, and the theorem that
    the plan of [build_push_plan] can be executed to its end, its uploads in any
    order, and makes the remote tree what the local one says. *)

From stdpp Require Import base list gmap strings numbers sorting.
From Stdlib Require Import Lia.
From S2P Require Import Prelude RustStr StrFacts RemotePath SyncPlan.

(** ** Trees *)

(** The proper ancestors of a path: its prefixes before a slash. *)
Fixpoint ancestors_from (pre rest : str) : list str :=
  match rest with
  | [] => []
  | c :: rest => (if c =? slash then [pre] else []) ++ ancestors_from (pre ++ [c]) rest
  end.
Definition ancestors (path : str) : list str := ancestors_from [] path.

Lemma elem_of_ancestors_from pre rest q :
  q ∈ ancestors_from pre rest ↔ ∃ a b, rest = a ++ slash :: b ∧ q = pre ++ a.
Proof.
  revert pre. induction rest as [|c rest IH]; intros pre; cbn [ancestors_from].
  - rewrite elem_of_nil. split; [done|]. by intros ([] & ? & ? & _).
  - rewrite elem_of_app, IH. split.
    + intros [Hq|(a & b & -> & ->)].
      * destruct (Z.eqb_spec c slash) as [->|]; [|by apply elem_of_nil in Hq].
        apply list_elem_of_singleton in Hq as ->. exists [], rest. by rewrite app_nil_r.
      * exists (c :: a), b. by rewrite <- app_assoc.
    + intros ([|x a] & b & Heq & ->); injection Heq as -> ->.
      * left. rewrite Z.eqb_refl, app_nil_r. by left.
      * right. exists a, b. by rewrite <- app_assoc.
Qed.

Lemma elem_of_ancestors path q : q ∈ ancestors path ↔ ∃ b, path = q ++ slash :: b.
Proof. unfold ancestors. rewrite elem_of_ancestors_from. naive_solver. Qed.

Definition is_dir (m : Snapshot) (path : str) : bool :=
  match m !! path with Some e => bool_decide (e_kind e = Directory) | None => false end.

Lemma is_dir_spec m path : is_dir m path = true ↔ ∃ e, m !! path = Some e ∧ e_kind e = Directory.
Proof.
  unfold is_dir. destruct (m !! path) as [e|]; [rewrite bool_decide_eq_true; naive_solver|naive_solver].
Qed.

(** A snapshot of a tree: safe names, and an entry lies in a directory. *)
Definition tree_ok (m : Snapshot) : Prop :=
  map_Forall (λ path _, safe_path path ∧ ∀ q, q ∈ ancestors path → is_dir m q = true) m.

(** ** What an action does to the remote tree

    [local] gives the entry an upload creates (its size and time are preserved);
    an [atomic] upload cannot replace an entry. *)
Definition effect (atomic : bool) (local : Snapshot) (m : Snapshot) (a : SyncAction) : option Snapshot :=
  let path := a_path a in
  match a_kind a with
  | DeleteRemoteFile =>
      e ← m !! path; if bool_decide (e_kind e = Directory) then None else Some (delete path m)
  | DeleteRemoteDirectory =>
      (* the directory must be empty *)
      if is_dir m path && forallb (λ '(q, _), negb (bool_decide (path ∈ ancestors q))) (map_to_list m)
      then Some (delete path m) else None
  | CreateRemoteDirectory =>
      if forallb (is_dir m) (ancestors path) then
        match m !! path with
        | None => Some (<[ path := mk_entry Directory 0 None ]> m)
        | Some e => if bool_decide (e_kind e = Directory) then Some m else None
        end
      else None
  | UploadFile =>
      if forallb (is_dir m) (ancestors path) then
        match m !! path, local !! path with
        | _, None => None
        | Some e, Some f =>
            if negb atomic && bool_decide (e_kind e = File) then Some (<[ path := f ]> m) else None
        | None, Some f => Some (<[ path := f ]> m)
        end
      else None
  end.

Definition effects (atomic : bool) (local : Snapshot) (acts : list SyncAction) (m : Snapshot) : option Snapshot :=
  foldl (λ m a, m ← m; effect atomic local m a) (Some m) acts.

Lemma effects_cons atomic local a acts m : effects atomic local (a :: acts) m = effect atomic local m a ≫= effects atomic local acts.
Proof.
  unfold effects. cbn [foldl mbind option_bind]. destruct (effect atomic local m a) as [m'|]; [done|]. cbn.
  induction acts as [|b acts IH]; [done|apply IH].
Qed.

Lemma effects_app atomic local acts acts' m :
  effects atomic local (acts ++ acts') m = effects atomic local acts m ≫= effects atomic local acts'.
Proof.
  revert m. induction acts as [|a acts IH]; intros m; [done|].
  cbn [app]. rewrite !effects_cons. destruct (effect atomic local m a); [apply IH|done].
Qed.

(** ** The plan's actions *)
Definition pushed (s : Pushes) (k : SyncActionKind) : list SyncAction :=
  match k with
  | DeleteRemoteFile => delete_files s
  | DeleteRemoteDirectory => delete_directories s
  | CreateRemoteDirectory => create_directories s
  | UploadFile => uploads s
  end.

(** The action of kind [k] that creates the entry, or that removes it. *)
Definition create_action (k : SyncActionKind) (path : str) (e : SnapshotEntry) : option SyncAction :=
  match k, e_kind e with
  | CreateRemoteDirectory, Directory => Some (mk_action CreateRemoteDirectory path 0)
  | UploadFile, File => Some (mk_action UploadFile path (e_len e))
  | _, _ => None
  end.
Definition remove_action (k : SyncActionKind) (path : str) (e : SnapshotEntry) : option SyncAction :=
  match k, e_kind e with
  | DeleteRemoteDirectory, Directory => Some (mk_action DeleteRemoteDirectory path 0)
  | DeleteRemoteFile, (File | Other) => Some (mk_action DeleteRemoteFile path 0)
  | _, _ => None
  end.

Section planned.
Context (local remote : Snapshot) (options : SyncOptions).

Definition conflict (path : str) : Prop :=
  ∃ e r, local !! path = Some e ∧ remote !! path = Some r ∧ e_kind r ≠ e_kind e.

(** The actions of kind [k] that the first loop pushes for an entry. *)
Definition local_action (k : SyncActionKind) (entry : str * SnapshotEntry) : option SyncAction :=
  let '(path, e) := entry in
  match remote !! path with
  | None => create_action k path e
  | Some r =>
      if bool_decide (e_kind r = e_kind e) then
        if bool_decide (e_kind e = File) && negb (files_match e r (opt_size_only options))
        then create_action k path e else None
      else match k with
           | DeleteRemoteFile | DeleteRemoteDirectory => remove_action k path r
           | _ => create_action k path e
           end
  end.
Definition remote_action (k : SyncActionKind) (entry : str * SnapshotEntry) : option SyncAction :=
  let '(path, r) := entry in
  if bool_decide (is_Some (local !! path)) then None else remove_action k path r.

Definition planned (k : SyncActionKind) : list SyncAction :=
  omap (local_action k) (btree_entries local) ++
  (if opt_delete options then omap (remote_action k) (btree_entries remote) else []).

Lemma pushed_push_local s path e k :
  pushed (push_local s path e) k = pushed s k ++ option_list (create_action k path e).
Proof. unfold push_local, create_action. destruct (e_kind e), k; cbn; by rewrite ?app_nil_r. Qed.

Lemma pushed_push_removal s path e k :
  pushed (push_removal s path e) k = pushed s k ++ option_list (remove_action k path e).
Proof. unfold push_removal, remove_action. destruct (e_kind e), k; cbn; by rewrite ?app_nil_r. Qed.

Lemma plan_local_step s entry s' k :
  plan_local remote options s entry = Ok s' → pushed s' k = pushed s k ++ option_list (local_action k entry).
Proof.
  destruct entry as [path e]. unfold plan_local, local_action.
  destruct (remote !! path) as [r|]; [|intros [= <-]; apply pushed_push_local].
  case_bool_decide as Hk.
  - case_bool_decide as Hf; cbn [andb]; [|intros [= <-]; by rewrite app_nil_r].
    destruct (files_match _ _ _); cbn [negb]; intros [= <-]; [by rewrite app_nil_r|].
    rewrite <- pushed_push_local. unfold push_local. by rewrite Hf.
  - destruct (opt_delete options); [|done]. cbn [negb]. intros [= <-].
    rewrite pushed_push_local, pushed_push_removal, <- app_assoc.
    unfold create_action, remove_action. destruct k, (e_kind e), (e_kind r); cbn; by rewrite ?app_nil_r.
Qed.

Lemma omap_cons' {A B} (f : A → option B) x l : omap f (x :: l) = option_list (f x) ++ omap f l.
Proof. cbn. by destruct (f x). Qed.

Lemma plan_local_all l s s' k :
  try_fold (plan_local remote options) s l = Ok s' → pushed s' k = pushed s k ++ omap (local_action k) l.
Proof.
  revert s. induction l as [|entry l IH]; intros s; cbn [try_fold].
  { intros [= <-]. by rewrite app_nil_r. }
  intros (s1 & H1 & H2)%bind_ok. rewrite (IH _ H2), (plan_local_step _ _ _ k H1), omap_cons'.
  by rewrite app_assoc.
Qed.

Lemma plan_remote_all l s k :
  pushed (foldl (plan_remote local) s l) k = pushed s k ++ omap (remote_action k) l.
Proof.
  revert s. induction l as [|[path r] l IH]; intros s; cbn [foldl]; [by rewrite app_nil_r|].
  rewrite IH, omap_cons', app_assoc. f_equal. unfold plan_remote, remote_action.
  case_bool_decide; [by rewrite app_nil_r|]. apply pushed_push_removal.
Qed.

(** The first loop fails exactly on a type conflict it may not resolve. *)
Lemma plan_local_total l s :
  (is_ok (try_fold (plan_local remote options) s l) = true) ↔
  (opt_delete options = true ∨ ∀ path e r, (path, e) ∈ l → remote !! path = Some r → e_kind r = e_kind e).
Proof.
  revert s. induction l as [|[path e] l IH]; intros s; cbn [try_fold].
  { split; [|done]. intros _. right. intros path e r H. by apply elem_of_nil in H. }
  setoid_rewrite elem_of_cons.
  destruct (plan_local remote options s (path, e)) as [s1|err] eqn:Hs; cbn [mbind result_bind].
  - rewrite IH. split; intros [Hd|H]; auto; [|right; naive_solver].
    destruct (opt_delete options) eqn:Hd; [by left|right].
    intros p e' r [[= -> ->]|Hin] Hr; [|by eapply H]. unfold plan_local in Hs. rewrite Hr, Hd in Hs.
    by case_bool_decide.
  - cbn [is_ok]. split; [done|]. intros H. exfalso. unfold plan_local in Hs.
    destruct (remote !! path) as [r|] eqn:Hr; [|done]. case_bool_decide as Hk; [by destruct (_ && _)|].
    destruct H as [Hd|H]; [by rewrite Hd in Hs|]. apply Hk. eapply H; [by left|done].
Qed.
End planned.

(** ** What is planned for a path *)
Lemma create_action_Some k path e a :
  create_action k path e = Some a ↔
  a_path a = path ∧ a_kind a = k ∧
  (k = CreateRemoteDirectory ∧ e_kind e = Directory ∧ a_bytes a = 0 ∨
   k = UploadFile ∧ e_kind e = File ∧ a_bytes a = e_len e).
Proof.
  unfold create_action. destruct a as [ak ap ab], k, (e_kind e); cbn; naive_solver.
Qed.

Lemma remove_action_Some k path e a :
  remove_action k path e = Some a ↔
  a_path a = path ∧ a_kind a = k ∧ a_bytes a = 0 ∧
  (k = DeleteRemoteDirectory ∧ e_kind e = Directory ∨ k = DeleteRemoteFile ∧ e_kind e ≠ Directory).
Proof.
  unfold remove_action. destruct a as [ak ap ab], k, (e_kind e); cbn; naive_solver.
Qed.

Section facts.
Context (local remote : Snapshot) (options : SyncOptions).

(** The remote entry must go: it has no counterpart, or one of another kind. *)
Definition removed (path : str) (r : SnapshotEntry) : Prop :=
  remote !! path = Some r ∧ ∀ e, local !! path = Some e → e_kind r ≠ e_kind e.
(** The local entry must be created. *)
Definition created (path : str) (e : SnapshotEntry) : Prop :=
  local !! path = Some e ∧
  ∀ r, remote !! path = Some r →
    e_kind r ≠ e_kind e ∨ e_kind e = File ∧ files_match e r (opt_size_only options) = false.

(** What may be planned: removals only under [--delete]. *)
Definition resolved : Prop := opt_delete options = true ∨ ∀ path, ¬ conflict local remote path.

Definition wanted (a : SyncAction) : Prop :=
  match a_kind a with
  | DeleteRemoteFile =>
      opt_delete options = true ∧ ∃ r, removed (a_path a) r ∧ e_kind r ≠ Directory ∧ a_bytes a = 0
  | DeleteRemoteDirectory =>
      opt_delete options = true ∧ ∃ r, removed (a_path a) r ∧ e_kind r = Directory ∧ a_bytes a = 0
  | CreateRemoteDirectory => ∃ e, created (a_path a) e ∧ e_kind e = Directory ∧ a_bytes a = 0
  | UploadFile => ∃ e, created (a_path a) e ∧ e_kind e = File ∧ a_bytes a = e_len e
  end.

Lemma local_action_kind k path e a :
  local_action remote options k (path, e) = Some a → a_kind a = k ∧ a_path a = path.
Proof.
  unfold local_action. destruct (remote !! path); [|intros Hc%create_action_Some; tauto].
  case_bool_decide; [destruct (_ && _); [|done]; intros Hc%create_action_Some; tauto|].
  destruct k; first [intros Hc%create_action_Some; tauto|intros Hc%remove_action_Some; tauto].
Qed.

Lemma remote_action_kind k path r a :
  remote_action local k (path, r) = Some a → a_kind a = k ∧ a_path a = path ∧ local !! path = None.
Proof.
  unfold remote_action. case_bool_decide as Hl; [done|]. rewrite <- eq_None_not_Some in Hl.
  intros Hc%remove_action_Some. tauto.
Qed.

Lemma elem_of_planned a k :
  a ∈ planned local remote options k ↔
  (∃ path e, local !! path = Some e ∧ local_action remote options k (path, e) = Some a) ∨
  (opt_delete options = true ∧
   ∃ path r, remote !! path = Some r ∧ remote_action local k (path, r) = Some a).
Proof.
  unfold planned. rewrite elem_of_app, list_elem_of_omap.
  assert (Hent : ∀ (m : Snapshot) f, (∃ x, x ∈ btree_entries m ∧ f x = Some a) ↔
    ∃ path e, m !! path = Some e ∧ f (path, e) = Some a).
  { intros m f. split.
    - intros ([p e] & Hin%elem_of_btree_entries & Hf). eauto.
    - intros (p & e & Hp & Hf). exists (p, e). by rewrite elem_of_btree_entries. }
  rewrite Hent. destruct (opt_delete options).
  - rewrite list_elem_of_omap, Hent. naive_solver.
  - rewrite elem_of_nil. naive_solver.
Qed.

Lemma planned_wanted a k :
  resolved → a ∈ planned local remote options k ↔ a_kind a = k ∧ wanted a.
Proof.
  intros Hres. rewrite elem_of_planned. split.
  - intros [(path & e & Hl & Ha)|(Hd & path & r & Hr & Ha)].
    + pose proof (local_action_kind _ _ _ _ Ha) as [Hk Hp]. split; [done|]. unfold local_action in Ha.
      unfold wanted, created, removed. rewrite Hp.
      destruct (remote !! path) as [r|] eqn:Hr.
      * case_bool_decide as Hkind.
        -- destruct (bool_decide _ && _) eqn:Hf; [|done].
           apply andb_true_iff in Hf as [Hf Hm]. apply bool_decide_eq_true in Hf. apply negb_true_iff in Hm.
           apply create_action_Some in Ha as (_ & -> & [(-> & ? & ?)|(-> & ? & ?)]); [congruence|].
           naive_solver.
        -- assert (opt_delete options = true) as Hd.
           { destruct Hres as [|Hres]; [done|]. destruct (Hres path). by exists e, r. }
           destruct k; rewrite Hk;
             [apply remove_action_Some in Ha|apply remove_action_Some in Ha
             |apply create_action_Some in Ha|apply create_action_Some in Ha]; naive_solver.
      * apply create_action_Some in Ha as (_ & -> & [(-> & ? & ?)|(-> & ? & ?)]); naive_solver.
    + pose proof (remote_action_kind _ _ _ _ Ha) as (Hk & Hp & Hl). split; [done|].
      unfold remote_action in Ha. case_bool_decide; [done|]. apply remove_action_Some in Ha as (_ & _ & Hb & Ha).
      unfold wanted, removed. rewrite Hk, Hp, Hl, Hr. destruct k; naive_solver.
  - intros [Hk Hw]. unfold wanted in Hw. rewrite Hk in Hw. unfold local_action, remote_action.
    destruct k.
    + destruct Hw as (Hd & r & (Hr & Hl) & Hkind & Hb). destruct (local !! a_path a) as [e|] eqn:He.
      * left. exists (a_path a), e. split; [done|]. rewrite Hr, bool_decide_eq_false_2 by by apply Hl.
        apply remove_action_Some. naive_solver.
      * right. split; [done|]. exists (a_path a), r. split; [done|]. rewrite He, bool_decide_eq_false_2 by by intros [].
        apply remove_action_Some. naive_solver.
    + destruct Hw as (Hd & r & (Hr & Hl) & Hkind & Hb). destruct (local !! a_path a) as [e|] eqn:He.
      * left. exists (a_path a), e. split; [done|]. rewrite Hr, bool_decide_eq_false_2 by by apply Hl.
        apply remove_action_Some. naive_solver.
      * right. split; [done|]. exists (a_path a), r. split; [done|]. rewrite He, bool_decide_eq_false_2 by by intros [].
        apply remove_action_Some. naive_solver.
    + destruct Hw as (e & [He Hr] & Hkind & Hb). left. exists (a_path a), e. split; [done|].
      destruct (remote !! a_path a) as [r|]; [|apply create_action_Some; naive_solver].
      destruct (Hr r eq_refl) as [Hne|[? _]]; [|congruence]. rewrite bool_decide_eq_false_2 by done.
      apply create_action_Some; naive_solver.
    + destruct Hw as (e & [He Hr] & Hkind & Hb). left. exists (a_path a), e. split; [done|].
      destruct (remote !! a_path a) as [r|]; [|apply create_action_Some; naive_solver].
      case_bool_decide as Hsame; [|apply create_action_Some; naive_solver].
      destruct (Hr r eq_refl) as [Hne|[_ Hm]]; [done|]. rewrite Hm, (bool_decide_eq_true_2 (e_kind e = File)) by done. cbn [negb andb].
      apply create_action_Some; naive_solver.
Qed.

Lemma NoDup_omap_paths (f : str * SnapshotEntry → option SyncAction) l :
  NoDup l.*1 → (∀ p e a, f (p, e) = Some a → a_path a = p) → NoDup (a_path <$> omap f l).
Proof.
  intros Hnd Hf. induction l as [|[p e] l IH]; [constructor|].
  csimpl in Hnd. apply NoDup_cons in Hnd as [Hp Hnd]. cbn.
  destruct (f (p, e)) as [a|] eqn:Ha; [|by apply IH]. csimpl. constructor; [|by apply IH].
  rewrite (Hf _ _ _ Ha). intros (b & Hb & ([p' e'] & Hin & Hfb)%list_elem_of_omap)%list_elem_of_fmap.
  apply Hp. rewrite Hb, (Hf _ _ _ Hfb). apply (list_elem_of_fmap_2 fst _ (p', e')). done.
Qed.

Lemma NoDup_planned k : NoDup (a_path <$> planned local remote options k).
Proof.
  unfold planned. rewrite fmap_app. apply NoDup_app. split_and!.
  - apply NoDup_omap_paths; [apply NoDup_btree_keys|]. intros p e a H. by apply local_action_kind in H as [].
  - intros p (a & -> & ([q e] & Hin & Ha)%list_elem_of_omap)%list_elem_of_fmap.
    apply elem_of_btree_entries in Hin. apply local_action_kind in Ha as [_ Hp].
    destruct (opt_delete options); [|apply not_elem_of_nil].
    intros (b & Hb & ([q' r] & _ & Hrb)%list_elem_of_omap)%list_elem_of_fmap.
    apply remote_action_kind in Hrb as (_ & Hp' & Hl). congruence.
  - destruct (opt_delete options); [|constructor].
    apply NoDup_omap_paths; [apply NoDup_btree_keys|]. intros p e a H. by apply remote_action_kind in H as (_ & ? & _).
Qed.
End facts.

(** ** Executing one list of actions *)
Abbreviation paths acts := (a_path <$> acts).

(** What a list of removals, or of creations, leaves. *)
Definition without (m : Snapshot) (acts : list SyncAction) (m' : Snapshot) : Prop :=
  ∀ p, m' !! p = if bool_decide (p ∈ paths acts) then None else m !! p.
Definition with_entries (f : str → option SnapshotEntry) (m : Snapshot) (acts : list SyncAction) (m' : Snapshot) : Prop :=
  ∀ p, m' !! p = if bool_decide (p ∈ paths acts) then f p else m !! p.

Lemma without_cons m a acts m' :
  a_path a ∉ paths acts → without (delete (a_path a) m) acts m' → without m (a :: acts) m'.
Proof.
  intros Hnew H p. rewrite H. csimpl. destruct (decide (p = a_path a)) as [->|Hne].
  - rewrite (bool_decide_eq_false_2 (a_path a ∈ paths acts)) by done.
    rewrite (bool_decide_eq_true_2 (a_path a ∈ a_path a :: paths acts)) by by left. apply lookup_delete_eq.
  - rewrite lookup_delete_ne by congruence.
    rewrite (bool_decide_ext (p ∈ a_path a :: paths acts) (p ∈ paths acts)); [done|].
    rewrite elem_of_cons. tauto.
Qed.

Lemma with_entries_cons f e m a acts m' :
  a_path a ∉ paths acts → f (a_path a) = Some e → with_entries f (<[ a_path a := e ]> m) acts m' →
  with_entries f m (a :: acts) m'.
Proof.
  intros Hnew He H p. rewrite H. csimpl. destruct (decide (p = a_path a)) as [->|Hne].
  - rewrite (bool_decide_eq_false_2 (a_path a ∈ paths acts)) by done.
    rewrite (bool_decide_eq_true_2 (a_path a ∈ a_path a :: paths acts)) by by left. by rewrite lookup_insert_eq.
  - rewrite lookup_insert_ne by congruence.
    rewrite (bool_decide_ext (p ∈ a_path a :: paths acts) (p ∈ paths acts)); [done|].
    rewrite elem_of_cons. tauto.
Qed.

Lemma delete_files_effects atomic local acts m :
  Forall (λ a, a_kind a = DeleteRemoteFile ∧ ∃ e, m !! a_path a = Some e ∧ e_kind e ≠ Directory) acts →
  NoDup (paths acts) → ∃ m', effects atomic local acts m = Some m' ∧ without m acts m'.
Proof.
  revert m. induction acts as [|a acts IH]; intros m Hall Hnd.
  { exists m. split; [done|]. by intros p. }
  apply Forall_cons in Hall as [(Hk & e & He & Hkind) Hall]. csimpl in Hnd. apply NoDup_cons in Hnd as [Hnew Hnd].
  destruct (IH (delete (a_path a) m)) as (m' & Heff & Hm'); [|done|].
  - eapply Forall_impl_elem; [exact Hall|]. intros b Hb (Hkb & e' & He' & Hkind'). split; [done|].
    exists e'. split; [|done]. rewrite lookup_delete_ne; [done|].
    intros Heq. apply Hnew. rewrite Heq. by apply list_elem_of_fmap_2.
  - exists m'. split; [|by apply without_cons]. rewrite effects_cons. unfold effect at 1. rewrite Hk, He.
    cbn [mbind option_bind]. by rewrite bool_decide_eq_false_2.
Qed.

(** An ancestor is less deep. *)
Lemma ancestor_depth p q : safe_path q → p ∈ ancestors q → path_depth p < path_depth q.
Proof.
  intros Hsafe [b ->]%elem_of_ancestors. unfold path_depth, safe_path in *.
  rewrite split_snoc_sep in *. apply Forall_app in Hsafe as [_ Hb]. rewrite filter_app, length_app.
  pose proof (split_nonempty slash b). destruct (split slash b) as [|w ws]; [done|].
  apply Forall_cons in Hb as [[Hne _ _ _ _ _ _ _ _] _]. rewrite filter_cons_True by done. cbn [length]. lia.
Qed.

Lemma empty_dir (m : Snapshot) path :
  (∀ q, is_Some (m !! q) → path ∉ ancestors q) →
  forallb (λ '(q, _), negb (bool_decide (path ∈ ancestors q))) (map_to_list m) = true.
Proof.
  intros H. apply forallb_forall. intros [q e] Hin%list_elem_of_In%elem_of_map_to_list.
  rewrite negb_true_iff, bool_decide_eq_false. apply H. eauto.
Qed.

Lemma delete_directories_effects atomic local acts m :
  StronglySorted deep_first acts →
  Forall (λ a, a_kind a = DeleteRemoteDirectory ∧ is_dir m (a_path a) = true) acts →
  (∀ a q, a ∈ acts → is_Some (m !! q) → a_path a ∈ ancestors q → safe_path q ∧ q ∈ paths acts) →
  NoDup (paths acts) → ∃ m', effects atomic local acts m = Some m' ∧ without m acts m'.
Proof.
  revert m. induction acts as [|a acts IH]; intros m Hsorted Hall Hbelow Hnd.
  { exists m. split; [done|]. by intros p. }
  apply Forall_cons in Hall as [(Hk & Hdir) Hall]. csimpl in Hnd. apply NoDup_cons in Hnd as [Hnew Hnd].
  inversion Hsorted as [|? ? Hsorted' Hfirst]; subst. rewrite Forall_forall in Hfirst.
  assert (∀ q, is_Some (m !! q) → a_path a ∉ ancestors q) as Hempty.
  { intros q Hq Hanc. destruct (Hbelow a q) as [Hsafe Hin]; [by left|done..|].
    pose proof (ancestor_depth _ _ Hsafe Hanc) as Hlt. csimpl in Hin. apply elem_of_cons in Hin as [->|Hin]; [lia|].
    apply list_elem_of_fmap in Hin as (b & -> & Hb). specialize (Hfirst b Hb).
    unfold deep_first, shallow_first in Hfirst. lia. }
  destruct (IH (delete (a_path a) m)) as (m' & Heff & Hm'); [done| | |done|].
  - eapply Forall_impl_elem; [exact Hall|]. intros b Hb (Hkb & Hdb). split; [done|].
    unfold is_dir in *. rewrite lookup_delete_ne; [done|].
    intros Heq. apply Hnew. rewrite Heq. by apply list_elem_of_fmap_2.
  - intros b q Hb [e Hq]%lookup_delete_is_Some Hanc.
    destruct (Hbelow b q) as [Hsafe Hin]; [by right|done..|]. split; [done|].
    csimpl in Hin. apply elem_of_cons in Hin as [->|]; [done|done].
  - exists m'. split; [|by apply without_cons]. rewrite effects_cons. unfold effect at 1.
    rewrite Hk, Hdir, empty_dir by done. done.
Qed.

Definition new_dir : SnapshotEntry := mk_entry Directory 0 None.

Lemma create_directories_effects atomic local acts m :
  StronglySorted shallow_first acts →
  Forall (λ a, a_kind a = CreateRemoteDirectory ∧ m !! a_path a = None ∧ safe_path (a_path a)) acts →
  (∀ a q, a ∈ acts → q ∈ ancestors (a_path a) → is_dir m q = true ∨ q ∈ paths acts) →
  NoDup (paths acts) →
  ∃ m', effects atomic local acts m = Some m' ∧ with_entries (λ _, Some new_dir) m acts m'.
Proof.
  revert m. induction acts as [|a acts IH]; intros m Hsorted Hall Hparents Hnd.
  { exists m. split; [done|]. by intros p. }
  apply Forall_cons in Hall as [(Hk & Hnone & Hsafe) Hall]. csimpl in Hnd. apply NoDup_cons in Hnd as [Hnew Hnd].
  inversion Hsorted as [|? ? Hsorted' Hfirst]; subst. rewrite Forall_forall in Hfirst.
  assert (forallb (is_dir m) (ancestors (a_path a)) = true) as Hdirs.
  { apply forallb_forall. intros q Hq%list_elem_of_In.
    destruct (Hparents a q) as [|Hin]; [by left|done..|].
    pose proof (ancestor_depth _ _ Hsafe Hq) as Hlt. csimpl in Hin. apply elem_of_cons in Hin as [->|Hin]; [lia|].
    apply list_elem_of_fmap in Hin as (b & -> & Hb). specialize (Hfirst b Hb). unfold shallow_first in Hfirst. lia. }
  destruct (IH (<[ a_path a := new_dir ]> m)) as (m' & Heff & Hm'); [done| | |done|].
  - eapply Forall_impl_elem; [exact Hall|]. intros b Hb (Hkb & Hnb & Hsb). split; [done|]. split; [|done].
    rewrite lookup_insert_ne; [done|]. intros Heq. apply Hnew. rewrite Heq. by apply list_elem_of_fmap_2.
  - intros b q Hb Hq. unfold is_dir. destruct (decide (q = a_path a)) as [->|Hne].
    + left. rewrite lookup_insert_eq. by apply bool_decide_eq_true_2.
    + rewrite lookup_insert_ne by congruence. destruct (Hparents b q) as [|Hin]; [by right|done|by left|].
      right. csimpl in Hin. by apply elem_of_cons in Hin as [->|].
  - exists m'. split; [|by eapply with_entries_cons]. rewrite effects_cons. unfold effect at 1.
    by rewrite Hk, Hdirs, Hnone.
Qed.

Lemma upload_effects atomic local acts m :
  Forall (λ a, a_kind a = UploadFile ∧
    (∃ e, local !! a_path a = Some e ∧ e_kind e = File) ∧
    (∀ e, m !! a_path a = Some e → e_kind e = File ∧ atomic = false) ∧
    forallb (is_dir m) (ancestors (a_path a)) = true) acts →
  NoDup (paths acts) →
  ∃ m', effects atomic local acts m = Some m' ∧ with_entries (λ p, local !! p) m acts m'.
Proof.
  revert m. induction acts as [|a acts IH]; intros m Hall Hnd.
  { exists m. split; [done|]. by intros p. }
  apply Forall_cons in Hall as [(Hk & (e & He & Hkind) & Hold & Hdirs) Hall].
  csimpl in Hnd. apply NoDup_cons in Hnd as [Hnew Hnd].
  destruct (IH (<[ a_path a := e ]> m)) as (m' & Heff & Hm'); [|done|].
  - eapply Forall_impl_elem; [exact Hall|]. intros b Hb (Hkb & Heb & Hob & Hdb). split_and!; [done|done| |].
    + intros f. rewrite lookup_insert_ne; [apply Hob|]. intros Heq. apply Hnew. rewrite Heq. by apply list_elem_of_fmap_2.
    + apply forallb_forall. intros q Hq. rewrite forallb_forall in Hdb. specialize (Hdb q Hq).
      unfold is_dir in *. destruct (decide (q = a_path a)) as [->|Hne]; [|by rewrite lookup_insert_ne by congruence].
      destruct (m !! a_path a) as [f|] eqn:Hf; [|done]. apply bool_decide_eq_true in Hdb.
      rewrite (proj1 (Hold f eq_refl)) in Hdb. done.
  - exists m'. split; [|by eapply with_entries_cons]. rewrite effects_cons. unfold effect at 1.
    rewrite Hk, Hdirs, He. destruct (m !! a_path a) as [f|] eqn:Hf; [|done].
    destruct (Hold f eq_refl) as [Hf' ->]. by rewrite bool_decide_eq_true_2.
Qed.

(** ** The whole plan *)
#[export] Instance by_path_total : Total by_path.
Proof. intros a b. apply (total str_le). Qed.
#[export] Instance by_path_trans : Transitive by_path.
Proof. intros a b c. unfold by_path. apply transitivity. Qed.
#[export] Instance shallow_first_total : Total shallow_first.
Proof. intros a b. unfold shallow_first. destruct (total str_le (a_path a) (a_path b)); lia || (destruct (Z.lt_trichotomy (path_depth (a_path a)) (path_depth (a_path b))) as [|[|]]; auto). Qed.
#[export] Instance shallow_first_trans : Transitive shallow_first.
Proof.
  intros a b c [H1|[H1 H1']] [H2|[H2 H2']]; [left; lia..|]. right. split; [lia|]. by transitivity (a_path b).
Qed.
#[export] Instance deep_first_total : Total deep_first.
Proof. intros a b. unfold deep_first. destruct (total shallow_first a b); auto. Qed.
#[export] Instance deep_first_trans : Transitive deep_first.
Proof. intros a b c H1 H2. unfold deep_first in *. by transitivity b. Qed.

Section whole.
Context (local remote : Snapshot) (options : SyncOptions).

Definition sorted_planned (k : SyncActionKind) : list SyncAction :=
  match k with
  | DeleteRemoteFile | UploadFile => merge_sort by_path (planned local remote options k)
  | DeleteRemoteDirectory => merge_sort deep_first (planned local remote options k)
  | CreateRemoteDirectory => merge_sort shallow_first (planned local remote options k)
  end.

Lemma sorted_planned_perm k : sorted_planned k ≡ₚ planned local remote options k.
Proof. destruct k; apply merge_sort_Permutation. Qed.

Lemma elem_of_sorted_planned k a :
  resolved local remote options → a ∈ sorted_planned k ↔ a_kind a = k ∧ wanted local remote options a.
Proof. intros Hres. rewrite sorted_planned_perm. by apply planned_wanted. Qed.

Lemma NoDup_sorted_planned k : NoDup (paths (sorted_planned k)).
Proof. rewrite sorted_planned_perm. apply NoDup_planned. Qed.

Lemma pushed_all s k :
  try_fold (plan_local remote options) no_pushes (btree_entries local) = Ok s →
  pushed (if opt_delete options then foldl (plan_remote local) s (btree_entries remote) else s) k =
  planned local remote options k.
Proof.
  intros Hs. unfold planned. destruct (opt_delete options).
  - rewrite plan_remote_all, (plan_local_all _ _ _ _ _ _ Hs). by destruct k.
  - rewrite (plan_local_all _ _ _ _ _ _ Hs), app_nil_r. by destruct k.
Qed.

Lemma resolved_spec :
  is_ok (try_fold (plan_local remote options) no_pushes (btree_entries local)) = true ↔
  resolved local remote options.
Proof.
  rewrite plan_local_total. unfold resolved, conflict. split; (intros [Hd|H]; [by left|right]).
  - intros p (e & r & He & Hr & Hne). apply Hne. eapply H; [by apply elem_of_btree_entries|done].
  - intros p e r Hin%elem_of_btree_entries Hr. apply dec_stable. intros Hne. apply (H p). by exists e, r.
Qed.

(** The bytes of the uploads. *)
Definition total_bytes (acts : list SyncAction) : Z := foldr Z.add 0 (a_bytes <$> acts).

Definition the_plan : SyncPlan :=
  mk_plan (sorted_planned DeleteRemoteFile ++ sorted_planned DeleteRemoteDirectory ++
           sorted_planned CreateRemoteDirectory ++ sorted_planned UploadFile)
    (total_bytes (sorted_planned UploadFile)) (zlen (sorted_planned UploadFile))
    (zlen (sorted_planned DeleteRemoteFile) + zlen (sorted_planned DeleteRemoteDirectory))
    (zlen (sorted_planned CreateRemoteDirectory)).

Lemma total_bytes_cons a acts : total_bytes (a :: acts) = a_bytes a + total_bytes acts.
Proof. done. Qed.

Lemma sum_upload_bytes acts t e r :
  Forall (λ a, 0 ≤ a_bytes a) acts → t ≤ u64_max →
  try_fold (λ total a, with_context (checked_add u64_max total (a_bytes a)) e) t acts = Ok r ↔
  r = t + total_bytes acts ∧ t + total_bytes acts ≤ u64_max.
Proof.
  intros Hall. revert t. induction Hall as [|a acts Ha Hall IH]; intros t Ht.
  { cbn. split; [intros [= <-]; lia|]. intros [-> _]. f_equal. lia. }
  cbn [try_fold]. rewrite bind_ok, total_bytes_cons. setoid_rewrite with_context_ok.
  setoid_rewrite checked_add_some. split.
  - intros (t' & [-> Hle] & H). apply IH in H; [lia|done].
  - intros [-> Hle].
    assert (0 ≤ total_bytes acts) by (clear -Hall; induction Hall; [done|rewrite total_bytes_cons; lia]).
    exists (t + a_bytes a). split; [lia|]. apply IH; lia.
Qed.

Hypothesis lens : map_Forall (λ _ e, 0 ≤ e_len e) local.

Lemma planned_bytes : resolved local remote options → Forall (λ a, 0 ≤ a_bytes a) (sorted_planned UploadFile).
Proof.
  intros Hres. apply Forall_forall. intros a Ha. apply elem_of_sorted_planned in Ha as [Hk Hw]; [|done].
  unfold wanted in Hw. rewrite Hk in Hw. destruct Hw as (e & [He _] & _ & ->). by apply (lens (a_path a)).
Qed.

(** Nothing overflows. *)
Definition fits : Prop := zlen (actions the_plan) ≤ usize_max ∧ bytes_to_upload the_plan ≤ u64_max.

Lemma build_push_plan_ok plan :
  build_push_plan local remote options = Ok plan ↔ resolved local remote options ∧ fits ∧ plan = the_plan.
Proof.
  unfold build_push_plan. destruct (try_fold _ no_pushes _) as [s|e] eqn:Hs.
  - rewrite bind_of_ok. cbv zeta.
    pose proof (proj1 resolved_spec) as Hres. rewrite Hs in Hres. specialize (Hres eq_refl).
    pose proof (pushed_all s DeleteRemoteFile Hs) as H1. pose proof (pushed_all s DeleteRemoteDirectory Hs) as H2.
    pose proof (pushed_all s CreateRemoteDirectory Hs) as H3. pose proof (pushed_all s UploadFile Hs) as H4.
    cbn [pushed] in H1, H2, H3, H4. rewrite H1, H2, H3, H4.
    change (merge_sort by_path (planned local remote options DeleteRemoteFile)) with (sorted_planned DeleteRemoteFile).
    change (merge_sort deep_first (planned local remote options DeleteRemoteDirectory))
      with (sorted_planned DeleteRemoteDirectory).
    change (merge_sort shallow_first (planned local remote options CreateRemoteDirectory))
      with (sorted_planned CreateRemoteDirectory).
    change (merge_sort by_path (planned local remote options UploadFile)) with (sorted_planned UploadFile).
    unfold fits, the_plan. cbn [actions bytes_to_upload]. rewrite !length_app.
    repeat (setoid_rewrite bind_ok || setoid_rewrite with_context_ok || setoid_rewrite checked_add_some
      || setoid_rewrite try_from_some).
    setoid_rewrite (sum_upload_bytes (sorted_planned UploadFile) 0); [|by apply planned_bytes|done].
    unfold usize_max. split.
    + intros (c & [-> Hc] & d & [-> Hd] & n & [-> Hn] & f & [-> Hf] & b & [-> Hb] & t & Ht & Heq).
      apply bind_Some in Ht as (t' & [-> Ht']%checked_add_some & [-> Ht]%checked_add_some).
      apply Ok_inj in Heq as <-. split_and!; [done|lia|lia|done].
    + intros (_ & [Hlen Hb] & ->).
      eexists. split; [split; [done|lia]|]. eexists. split; [split; [done|lia]|].
      eexists. split; [split; [done|lia]|]. eexists. split; [split; [done|lia]|].
      eexists. split; [split; [done|lia]|]. eexists. split; [|done].
      apply bind_Some. eexists. rewrite !checked_add_some. split_and!; try done; lia.
  - cbn [mbind result_bind]. split; [done|]. intros (Hres & _). apply resolved_spec in Hres. by rewrite Hs in Hres.
Qed.
End whole.

(** ** Convergence *)
Lemma filter_nil_iff_elem {A} (P : A → Prop) `{∀ x, Decision (P x)} (l : list A) :
  (∀ x, x ∈ l → ¬ P x) → filter P l = [].
Proof.
  induction l as [|x l IH]; intros HP; [done|]. rewrite filter_cons_False by (apply HP; by left).
  apply IH. intros y Hy. apply HP. by right.
Qed.

(** The orders in which a plan's actions may run: everything but the uploads in
    the plan's order, then the uploads in any order. *)
Definition run_order (plan : SyncPlan) (acts : list SyncAction) : Prop :=
  ∃ ups, acts = filter (λ a, a_kind a ≠ UploadFile) (actions plan) ++ ups ∧
         ups ≡ₚ filter (λ a, a_kind a = UploadFile) (actions plan).

(** The remote entry after synchronizing [path]. *)
Definition synced (local remote : Snapshot) (options : SyncOptions) (m' : Snapshot) (path : str) : Prop :=
  match local !! path with
  | Some e =>
      ∃ f, m' !! path = Some f ∧ e_kind f = e_kind e ∧
        (e_kind e = File → f = e ∨ remote !! path = Some f ∧ files_match e f (opt_size_only options) = true)
  | None => m' !! path = if opt_delete options then None else remote !! path
  end.

(** No upload replaces a regular file. *)
Definition no_overwrite (local remote : Snapshot) (options : SyncOptions) : Prop :=
  ∀ path e r, local !! path = Some e → remote !! path = Some r → e_kind e = File → e_kind r = File →
    files_match e r (opt_size_only options) = true.

Section converge.
Context (local remote : Snapshot) (options : SyncOptions).
Hypothesis local_tree : tree_ok local.
Hypothesis remote_tree : tree_ok remote.
Hypothesis local_kinds : map_Forall (λ _ e, e_kind e ≠ Other) local.
Hypothesis res : resolved local remote options.
Context (atomic : bool).
Hypothesis overwrites : atomic = true → no_overwrite local remote options.

Abbreviation todo k := (sorted_planned local remote options k).

Lemma mem_paths k p :
  p ∈ paths (todo k) ↔ ∃ a, a_path a = p ∧ a_kind a = k ∧ wanted local remote options a.
Proof.
  rewrite list_elem_of_fmap. split.
  - intros (a & -> & Ha). apply elem_of_sorted_planned in Ha as [? ?]; eauto.
  - intros (a & <- & Hk & Hw). exists a. split; [done|]. by apply elem_of_sorted_planned.
Qed.

Lemma mem_delete_file p :
  p ∈ paths (todo DeleteRemoteFile) ↔
  opt_delete options = true ∧ ∃ r, removed local remote p r ∧ e_kind r ≠ Directory.
Proof.
  rewrite mem_paths. unfold wanted. split.
  - intros (a & <- & -> & ? & r & ? & ? & _). eauto.
  - intros (Hd & r & Hr & Hk). exists (mk_action DeleteRemoteFile p 0). cbn. eauto 10.
Qed.
Lemma mem_delete_directory p :
  p ∈ paths (todo DeleteRemoteDirectory) ↔
  opt_delete options = true ∧ ∃ r, removed local remote p r ∧ e_kind r = Directory.
Proof.
  rewrite mem_paths. unfold wanted. split.
  - intros (a & <- & -> & ? & r & ? & ? & _). eauto.
  - intros (Hd & r & Hr & Hk). exists (mk_action DeleteRemoteDirectory p 0). cbn. eauto 10.
Qed.
Lemma mem_create p :
  p ∈ paths (todo CreateRemoteDirectory) ↔ ∃ e, created local remote options p e ∧ e_kind e = Directory.
Proof.
  rewrite mem_paths. unfold wanted. split.
  - intros (a & <- & -> & e & ? & ? & _). eauto.
  - intros (e & He & Hk). exists (mk_action CreateRemoteDirectory p 0). cbn. eauto 10.
Qed.
Lemma mem_upload p :
  p ∈ paths (todo UploadFile) ↔ ∃ e, created local remote options p e ∧ e_kind e = File.
Proof.
  rewrite mem_paths. unfold wanted. split.
  - intros (a & <- & -> & e & ? & ? & _). eauto.
  - intros (e & He & Hk). exists (mk_action UploadFile p (e_len e)). cbn. eauto 10.
Qed.

(** What lies under a removed directory is removed. *)
Lemma removed_below p r q s :
  removed local remote p r → e_kind r = Directory → p ∈ ancestors q → remote !! q = Some s →
  removed local remote q s.
Proof.
  intros [Hr Hl] Hkind Hanc Hs. split; [done|]. intros e He.
  destruct (local_tree q e He) as [_ Hdirs]. specialize (Hdirs p Hanc).
  apply is_dir_spec in Hdirs as (d & Hd & Hdk). exfalso. apply (Hl d Hd). congruence.
Qed.

(** The ancestors of a local entry are, remotely, kept or created. *)
Lemma ancestor_ready p e q :
  local !! p = Some e → q ∈ ancestors p →
  (∃ r, remote !! q = Some r ∧ e_kind r = Directory ∧ ∀ s, ¬ removed local remote q s) ∨
  q ∈ paths (todo CreateRemoteDirectory).
Proof.
  intros Hp Hq. destruct (local_tree p e Hp) as [_ Hdirs]. specialize (Hdirs q Hq).
  apply is_dir_spec in Hdirs as (d & Hd & Hdk).
  destruct (remote !! q) as [r|] eqn:Hr.
  - destruct (decide (e_kind r = Directory)) as [Hk|Hk].
    + left. exists r. split_and!; [done..|]. intros s [Hs Hl]. apply (Hl d Hd). congruence.
    + right. apply mem_create. exists d. split; [|done]. split; [done|]. intros r' [= <-]%(eq_trans (eq_sym Hr)).
      left. congruence.
  - right. apply mem_create. exists d. split; [|done]. split; [done|]. intros r' Hr'. congruence.
Qed.

Lemma delete_phases :
  ∃ m, effects atomic local (todo DeleteRemoteFile ++ todo DeleteRemoteDirectory) remote = Some m ∧
    ∀ p, m !! p = if bool_decide (p ∈ paths (todo DeleteRemoteFile) ∨ p ∈ paths (todo DeleteRemoteDirectory))
                  then None else remote !! p.
Proof.
  destruct (delete_files_effects atomic local (todo DeleteRemoteFile) remote) as (m1 & He1 & Hm1).
  { apply Forall_forall. intros a Ha. apply elem_of_sorted_planned in Ha as [Hk Hw]; [|done].
    split; [done|]. unfold wanted in Hw. rewrite Hk in Hw. destruct Hw as (_ & r & [Hr _] & Hk' & _). eauto. }
  { apply NoDup_sorted_planned. }
  assert (Hdir : ∀ a, a ∈ todo DeleteRemoteDirectory → opt_delete options = true ∧
    ∃ r, removed local remote (a_path a) r ∧ e_kind r = Directory).
  { intros a Ha. apply mem_delete_directory. by apply list_elem_of_fmap_2. }
  destruct (delete_directories_effects atomic local (todo DeleteRemoteDirectory) m1) as (m2 & He2 & Hm2).
  - apply (StronglySorted_merge_sort deep_first).
  - apply Forall_forall. intros a Ha. pose proof Ha as Ha'.
    apply elem_of_sorted_planned in Ha' as [Hk _]; [|done]. split; [done|].
    destruct (Hdir a Ha) as (_ & r & [Hr Hl] & Hk'). apply is_dir_spec. exists r. split; [|done].
    rewrite Hm1, bool_decide_eq_false_2; [done|]. rewrite mem_delete_file.
    intros (_ & r' & [Hr' _] & Hn). congruence.
  - intros a q Ha [s Hs] Hanc. rewrite Hm1 in Hs. case_bool_decide as Hnot; [done|].
    destruct (Hdir a Ha) as (Hd & r & Hr & Hk'). pose proof (removed_below _ _ _ _ Hr Hk' Hanc Hs) as Hrem.
    split; [by apply (remote_tree q s)|]. apply mem_delete_directory. split; [done|]. exists s. split; [done|].
    apply dec_stable. intros Hn. apply Hnot, mem_delete_file. eauto.
  - apply NoDup_sorted_planned.
  - exists m2. split; [rewrite effects_app, He1; exact He2|]. intros p. rewrite Hm2, Hm1.
    repeat case_bool_decide; tauto.
Qed.

(** After the deletions, a created path is free. *)
Definition cleared (m : Snapshot) : Prop :=
  ∀ p, m !! p = if bool_decide (p ∈ paths (todo DeleteRemoteFile) ∨ p ∈ paths (todo DeleteRemoteDirectory))
                then None else remote !! p.

Lemma cleared_other m p r : cleared m → m !! p = Some r → remote !! p = Some r.
Proof. intros Hm. rewrite Hm. by case_bool_decide. Qed.

Lemma cleared_kept m p r :
  cleared m → remote !! p = Some r → (∀ s, ¬ removed local remote p s) → m !! p = Some r.
Proof.
  intros Hm Hr Hno. rewrite Hm, bool_decide_eq_false_2; [done|].
  rewrite mem_delete_file, mem_delete_directory. intros [(_ & s & Hs & _)|(_ & s & Hs & _)]; by eapply Hno.
Qed.

Lemma cleared_removed m p r :
  cleared m → opt_delete options = true → removed local remote p r → m !! p = None.
Proof.
  intros Hm Hd Hr. rewrite Hm, bool_decide_eq_true_2; [done|].
  rewrite mem_delete_file, mem_delete_directory.
  destruct (decide (e_kind r = Directory)); [right|left]; eauto.
Qed.

(** A kind conflict is resolved by a deletion. *)
Lemma cleared_conflict m p e r :
  cleared m → local !! p = Some e → remote !! p = Some r → e_kind r ≠ e_kind e → m !! p = None.
Proof.
  intros Hm He Hr Hne. apply (cleared_removed m p r Hm); [|split; [done|congruence]].
  destruct res as [|Hres]; [done|]. destruct (Hres p). by exists e, r.
Qed.

Lemma create_phase m :
  cleared m →
  ∃ m', effects atomic local (todo CreateRemoteDirectory) m = Some m' ∧
    with_entries (λ _, Some new_dir) m (todo CreateRemoteDirectory) m'.
Proof.
  intros Hm. apply create_directories_effects.
  - apply (StronglySorted_merge_sort shallow_first).
  - apply Forall_forall. intros a Ha. pose proof Ha as Ha'.
    apply elem_of_sorted_planned in Ha' as [Hk _]; [|done].
    assert (a_path a ∈ paths (todo CreateRemoteDirectory)) as (e & [He Hr] & Hk')%mem_create
      by by apply list_elem_of_fmap_2.
    split_and!; [done| |by apply (local_tree _ e He)].
    destruct (remote !! a_path a) as [r|] eqn:Hra; [|by rewrite Hm, Hra; case_bool_decide].
    destruct (Hr r eq_refl) as [Hne|[? _]]; [by eapply cleared_conflict|congruence].
  - intros a q Ha Hq.
    assert (a_path a ∈ paths (todo CreateRemoteDirectory)) as (e & [He _] & _)%mem_create
      by by apply list_elem_of_fmap_2.
    destruct (ancestor_ready _ _ _ He Hq) as [(r & Hr & Hk & Hno)|]; [left|by right].
    apply is_dir_spec. exists r. split; [by eapply cleared_kept|done].
  - apply NoDup_sorted_planned.
Qed.

Lemma upload_phase m m' ups :
  cleared m → with_entries (λ _, Some new_dir) m (todo CreateRemoteDirectory) m' → ups ≡ₚ todo UploadFile →
  ∃ m'', effects atomic local ups m' = Some m'' ∧ with_entries (λ p, local !! p) m' (todo UploadFile) m''.
Proof.
  intros Hm Hm' Hups. destruct (upload_effects atomic local ups m') as (m'' & Heff & Hm'').
  - apply Forall_forall. intros a Ha. rewrite Hups in Ha. pose proof Ha as Ha'.
    apply elem_of_sorted_planned in Ha' as [Hk _]; [|done].
    assert (a_path a ∈ paths (todo UploadFile)) as (e & [He Hr] & Hk')%mem_upload by by apply list_elem_of_fmap_2.
    split_and!; [done|eauto| |].
    + intros f Hf. rewrite Hm' in Hf. case_bool_decide as Hc.
      { apply mem_create in Hc as (e' & [He' _] & Hk''). congruence. }
      pose proof (cleared_other _ _ _ Hm Hf) as Hrf.
      destruct (decide (e_kind f = e_kind e)) as [Hsame|Hne];
        [|rewrite (cleared_conflict _ _ _ _ Hm He Hrf Hne) in Hf; done].
      split; [congruence|]. destruct (Hr f Hrf) as [Hne|[_ Hfm]]; [done|]. apply not_true_iff_false. intros Hat.
      rewrite (overwrites Hat _ _ _ He Hrf) in Hfm; [done..|congruence].
    + apply forallb_forall. intros q Hq%list_elem_of_In. apply is_dir_spec. rewrite Hm'.
      destruct (ancestor_ready _ _ _ He Hq) as [(r & Hrq & Hkq & Hno)|Hin].
      * case_bool_decide; [by exists new_dir|]. exists r. split; [by eapply cleared_kept|done].
      * rewrite bool_decide_eq_true_2 by done. by exists new_dir.
  - rewrite Hups. apply NoDup_sorted_planned.
  - exists m''. split; [done|]. intros p. rewrite Hm''.
    by rewrite (bool_decide_ext (p ∈ paths ups) (p ∈ paths (todo UploadFile))) by by rewrite Hups.
Qed.

(** What the four phases leave at a path. *)
Lemma phases_synced m m' m'' p :
  cleared m → with_entries (λ _, Some new_dir) m (todo CreateRemoteDirectory) m' →
  with_entries (λ p, local !! p) m' (todo UploadFile) m'' → synced local remote options m'' p.
Proof.
  intros Hm Hm' Hm''. unfold synced. rewrite Hm''. destruct (local !! p) as [e|] eqn:He.
  - case_bool_decide as Hup; [exists e; split_and!; [done..|by left]|]. rewrite Hm'.
    case_bool_decide as Hcr.
    { apply mem_create in Hcr as (e' & [He' _] & Hk). rewrite He in He'. injection He' as <-.
      exists new_dir. split_and!; [done..|]. by rewrite Hk. }
    assert (¬ created local remote options p e) as Hnot.
    { intros Hc. destruct (e_kind e) eqn:Hk.
      - apply Hup, mem_upload. eauto.
      - apply Hcr, mem_create. eauto.
      - by apply (local_kinds p e). }
    destruct (remote !! p) as [r|] eqn:Hr.
    + assert (e_kind r = e_kind e) as Hsame.
      { apply dec_stable. intros Hne. apply Hnot. split; [done|]. intros r' [= <-]%(eq_trans (eq_sym Hr)). by left. }
      exists r. split_and!; [|done|].
      * apply (cleared_kept m p r Hm Hr). intros s [Hs Hl]. rewrite Hr in Hs. injection Hs as <-.
        by apply (Hl e).
      * intros Hf. right. split; [done|]. apply not_false_iff_true. intros Hfm. apply Hnot.
        split; [done|]. intros r' [= <-]%(eq_trans (eq_sym Hr)). by right.
    + exfalso. apply Hnot. split; [done|]. intros r Hr'. congruence.
  - rewrite (bool_decide_eq_false_2 (p ∈ _)), Hm', (bool_decide_eq_false_2 (p ∈ _)).
    + destruct (opt_delete options) eqn:Hd.
      * destruct (remote !! p) as [r|] eqn:Hr; [|rewrite Hm, Hr; by case_bool_decide].
        apply (cleared_removed m p r Hm Hd). split; [done|congruence].
      * rewrite Hm, bool_decide_eq_false_2; [done|]. rewrite mem_delete_file, mem_delete_directory, Hd.
        intros [[? _]|[? _]]; done.
    + rewrite mem_create. intros (e & [He' _] & _). congruence.
    + rewrite mem_upload. intros (e & [He' _] & _). congruence.
Qed.

Lemma sorted_planned_kind k a : a ∈ todo k → a_kind a = k.
Proof. intros Ha. by apply elem_of_sorted_planned in Ha as [Hk _]. Qed.

Lemma plan_filters :
  filter (λ a, a_kind a ≠ UploadFile) (actions (the_plan local remote options)) =
    (todo DeleteRemoteFile ++ todo DeleteRemoteDirectory) ++ todo CreateRemoteDirectory ∧
  filter (λ a, a_kind a = UploadFile) (actions (the_plan local remote options)) = todo UploadFile.
Proof.
  cbn [actions the_plan]. rewrite !filter_app.
  assert (Hother : ∀ k, k ≠ UploadFile → filter (λ a, a_kind a ≠ UploadFile) (todo k) = todo k ∧
    filter (λ a, a_kind a = UploadFile) (todo k) = []).
  { intros k Hk. split.
    - apply filter_all, Forall_forall. intros a Ha%sorted_planned_kind. congruence.
    - apply filter_nil_iff_elem. intros a Ha%sorted_planned_kind. congruence. }
  destruct (Hother DeleteRemoteFile) as [-> ->]; [done|]. destruct (Hother DeleteRemoteDirectory) as [-> ->]; [done|].
  destruct (Hother CreateRemoteDirectory) as [-> ->]; [done|]. split.
  - rewrite <- app_assoc. do 2 f_equal. rewrite <- app_nil_r. f_equal. apply filter_nil_iff_elem.
    intros a Ha%sorted_planned_kind. congruence.
  - cbn [app]. apply filter_all, Forall_forall. intros a Ha%sorted_planned_kind. done.
Qed.

Lemma run_synced acts :
  run_order (the_plan local remote options) acts →
  ∃ m, effects atomic local acts remote = Some m ∧ ∀ path, synced local remote options m path.
Proof.
  intros (ups & -> & Hups). destruct plan_filters as [Hf1 Hf2]. rewrite Hf2 in Hups. rewrite Hf1.
  destruct delete_phases as (m & He & Hm). destruct (create_phase m Hm) as (m' & He' & Hm').
  destruct (upload_phase m m' ups Hm Hm' Hups) as (m'' & He'' & Hm'').
  exists m''. split; [|intros p; by eapply phases_synced].
  rewrite !effects_app in *. rewrite He. cbn [mbind option_bind]. rewrite He'. exact He''.
Qed.
End converge.

(** ** Synchronizing again *)
Lemma in_sync_nothing local m options k :
  (∀ path, match local !! path with
           | Some e => ∃ f, m !! path = Some f ∧ e_kind f = e_kind e ∧
               (e_kind e = File → files_match e f (opt_size_only options) = true)
           | None => opt_delete options = true → m !! path = None
           end) →
  resolved local m options ∧ sorted_planned local m options k = [].
Proof.
  intros Hsync.
  assert (Hcreated : ∀ p e, ¬ created local m options p e).
  { intros p e [He Hr]. specialize (Hsync p). rewrite He in Hsync. destruct Hsync as (f & Hf & Hk & Hm).
    destruct (Hr f Hf) as [|[Hfile Hno]]; [done|]. rewrite (Hm Hfile) in Hno. done. }
  assert (Hremoved : opt_delete options = true → ∀ p r, ¬ removed local m p r).
  { intros Hd p r [Hr Hl]. specialize (Hsync p). destruct (local !! p) as [e|].
    - destruct Hsync as (f & Hf & Hk & _). apply (Hl e eq_refl). congruence.
    - rewrite Hsync in Hr by done. done. }
  assert (resolved local m options) as Hres.
  { right. intros p (e & r & He & Hr & Hne). specialize (Hsync p). rewrite He in Hsync.
    destruct Hsync as (f & Hf & Hk & _). congruence. }
  split; [done|]. destruct (sorted_planned local m options k) as [|a l] eqn:Hl; [done|]. exfalso.
  assert (a ∈ sorted_planned local m options k) as Ha by (rewrite Hl; by left).
  apply elem_of_sorted_planned in Ha as [_ Hw]; [|done]. unfold wanted in Hw.
  destruct (a_kind a); [destruct Hw as (Hd & r & Hr & _)|destruct Hw as (Hd & r & Hr & _)
    |destruct Hw as (e & He & _)|destruct Hw as (e & He & _)]; [by eapply Hremoved..|by eapply Hcreated|by eapply Hcreated].
Qed.

Lemma files_match_self e size_only :
  size_only = true ∨ is_Some (e_mtime e) → files_match e e size_only = true.
Proof.
  intros H. unfold files_match. rewrite Z.eqb_refl. cbn [negb]. destruct size_only; [done|].
  destruct H as [|[t ->]]; [done|]. by rewrite Z.sub_diag.
Qed.

(** ** The properties *)

(** What a plan is.  [build_push_plan] returns a plan exactly when no path
    has entries of two kinds, unless [delete] permits to replace them, and no
    count or byte total overflows; the plan then lists exactly the wanted actions,
    each path at most once per kind of action, file deletions first, then
    directory deletions deepest first, then directories to create parents first,
    then uploads; and its totals are those of the lists. *)
Theorem plan_exact local remote options plan :
  map_Forall (λ _ e, 0 ≤ e_len e) local →
  build_push_plan local remote options = Ok plan ↔
  resolved local remote options ∧
  let todo := sorted_planned local remote options in
  (∀ k a, a ∈ todo k ↔ a_kind a = k ∧ wanted local remote options a) ∧ (∀ k, NoDup (paths (todo k))) ∧
  StronglySorted deep_first (todo DeleteRemoteDirectory) ∧ StronglySorted shallow_first (todo CreateRemoteDirectory) ∧
  StronglySorted by_path (todo DeleteRemoteFile) ∧ StronglySorted by_path (todo UploadFile) ∧
  let all := todo DeleteRemoteFile ++ todo DeleteRemoteDirectory ++ todo CreateRemoteDirectory ++ todo UploadFile in
  plan = mk_plan all (total_bytes (todo UploadFile)) (zlen (todo UploadFile))
           (zlen (todo DeleteRemoteFile) + zlen (todo DeleteRemoteDirectory)) (zlen (todo CreateRemoteDirectory)) ∧
  zlen all ≤ usize_max ∧ bytes_to_upload plan ≤ u64_max.
Proof.
  intros Hlens. rewrite build_push_plan_ok by done. unfold fits. split.
  - intros (Hres & [Hlen Hb] & ->). split_and!; try done.
    + intros k a. by apply elem_of_sorted_planned.
    + apply NoDup_sorted_planned.
    + apply (StronglySorted_merge_sort deep_first).
    + apply (StronglySorted_merge_sort shallow_first).
    + apply (StronglySorted_merge_sort by_path).
    + apply (StronglySorted_merge_sort by_path).
  - intros (Hres & _ & _ & _ & _ & _ & _ & -> & Hlen & Hb). done.
Qed.

(** Synchronization converges.  For snapshots of trees, every order in which
    the plan may run (its uploads in any order) can be executed to its end: each
    deleted file is there, each deleted directory is empty by then, each created
    directory and each upload finds its parent directories.  After it every local
    directory and file is there remotely, with the local contents or, unchanged,
    with contents that match; everything else is gone under [delete] and
    untouched otherwise.  (Atomic uploads need that no remote regular file is
    replaced.) *)
Theorem plan_converges atomic local remote options plan acts :
  tree_ok local → tree_ok remote → map_Forall (λ _ e, e_kind e ≠ Other ∧ 0 ≤ e_len e) local →
  build_push_plan local remote options = Ok plan → (atomic = true → no_overwrite local remote options) →
  run_order plan acts →
  ∃ m, effects atomic local acts remote = Some m ∧ ∀ path, synced local remote options m path.
Proof.
  intros Hl Hr Hkinds Hbuild Hover Hrun.
  apply build_push_plan_ok in Hbuild as (Hres & _ & ->); [|by intros p e [_ ?]%Hkinds].
  eapply run_synced; try done. by intros p e [? _]%Hkinds.
Qed.

(** Synchronizing twice changes nothing.  When files are compared by size, or
    all local files have a modification time, planning again after the run
    succeeds with an empty plan. *)
Theorem plan_idempotent atomic local remote options plan acts m :
  tree_ok local → tree_ok remote →
  map_Forall (λ _ e, e_kind e ≠ Other ∧ 0 ≤ e_len e ∧
    (e_kind e = File → opt_size_only options = true ∨ is_Some (e_mtime e))) local →
  build_push_plan local remote options = Ok plan → (atomic = true → no_overwrite local remote options) →
  run_order plan acts → effects atomic local acts remote = Some m →
  build_push_plan local m options = Ok (mk_plan [] 0 0 0 0).
Proof.
  intros Hl Hr Hkinds Hbuild Hover Hrun Heff.
  assert (map_Forall (λ _ e, 0 ≤ e_len e) local) as Hlens by by intros p e (_ & ? & _)%Hkinds.
  apply build_push_plan_ok in Hbuild as (Hres & _ & ->); [|done].
  destruct (run_synced local remote options Hl Hr) with (atomic := atomic) (acts := acts)
    as (m' & Heff' & Hsync); [by intros p e (? & _ & _)%Hkinds|done..|].
  rewrite Heff in Heff'. injection Heff' as <-.
  assert (∀ k, resolved local m options ∧ sorted_planned local m options k = []) as Hnone.
  { intros k. apply in_sync_nothing. intros p. specialize (Hsync p). unfold synced in Hsync.
    destruct (local !! p) as [e|] eqn:He.
    - destruct Hsync as (f & Hf & Hk & Hfile). exists f. split_and!; [done..|]. intros Hkf.
      destruct (Hfile Hkf) as [-> |[_ ?]]; [|done]. apply files_match_self. by apply (Hkinds p e).
    - intros Hd. by rewrite Hd in Hsync. }
  apply build_push_plan_ok; [done|]. split; [by apply (Hnone UploadFile)|].
  unfold fits, the_plan. rewrite !(λ k, proj2 (Hnone k)). done.
Qed.

(** ** Examples *)
Module Examples.

Definition file (len mtime : Z) : SnapshotEntry := mk_entry File len (Some mtime).

(** Locally [a/f] and [b]; remotely [a] is a file, [b] a directory with a file,
    and [c] is a special file. *)
Definition local0 : Snapshot :=
  list_to_map [(lit "a", new_dir); (lit "a/f", file 3 10); (lit "b", file 5 11)].
Definition remote0 : Snapshot :=
  list_to_map [(lit "a", file 9 1); (lit "b", new_dir); (lit "b/x", file 1 1); (lit "c", mk_entry Other 0 None)].
Definition mirror : SyncOptions := mk_options true false.

Definition plan0 : SyncPlan :=
  mk_plan [mk_action DeleteRemoteFile (lit "a") 0; mk_action DeleteRemoteFile (lit "b/x") 0;
           mk_action DeleteRemoteFile (lit "c") 0; mk_action DeleteRemoteDirectory (lit "b") 0;
           mk_action CreateRemoteDirectory (lit "a") 0;
           mk_action UploadFile (lit "a/f") 3; mk_action UploadFile (lit "b") 5] 8 2 4 1.

Example plan0_built : build_push_plan local0 remote0 mirror = Ok plan0.
Proof. vm_compute. reflexivity. Qed.

Lemma tree_ok_dec (m : Snapshot) :
  forallb (λ '(p, _), is_ok (validate_remote_relative_path p) && forallb (is_dir m) (ancestors p)) (map_to_list m) = true →
  tree_ok m.
Proof.
  intros H p e Hp%elem_of_map_to_list. rewrite forallb_forall in H.
  apply list_elem_of_In in Hp. specialize (H _ Hp). cbv beta iota in H. apply andb_true_iff in H as [H1 H2]. split.
  - apply validate_relative_safe. by destruct (validate_remote_relative_path p) as [[]|].
  - intros q Hq. rewrite forallb_forall in H2. by apply H2, list_elem_of_In.
Qed.

Lemma local0_tree : tree_ok local0.
Proof. apply tree_ok_dec. vm_compute. reflexivity. Qed.
Lemma remote0_tree : tree_ok remote0.
Proof. apply tree_ok_dec. vm_compute. reflexivity. Qed.

Lemma plan_exact_witness :
  build_push_plan local0 remote0 mirror = Ok plan0 ∧ resolved local0 remote0 mirror.
Proof.
  assert (map_Forall (λ _ e, 0 ≤ e_len e) local0) as Hlens by decide_now.
  split; [vm_compute; reflexivity|].
  apply (plan_exact local0 remote0 mirror plan0 Hlens). vm_compute. reflexivity.
Defined.

(** The uploads in the reverse order. *)
Definition acts0 : list SyncAction :=
  [mk_action DeleteRemoteFile (lit "a") 0; mk_action DeleteRemoteFile (lit "b/x") 0;
   mk_action DeleteRemoteFile (lit "c") 0; mk_action DeleteRemoteDirectory (lit "b") 0;
   mk_action CreateRemoteDirectory (lit "a") 0; mk_action UploadFile (lit "b") 5; mk_action UploadFile (lit "a/f") 3].

Lemma acts0_order : run_order plan0 acts0.
Proof.
  exists [mk_action UploadFile (lit "b") 5; mk_action UploadFile (lit "a/f") 3]. split; [vm_compute; reflexivity|].
  vm_compute. apply Permutation_swap.
Qed.

Lemma plan_converges_witness :
  run_order plan0 acts0 ∧ ∃ m, effects false local0 acts0 remote0 = Some m ∧ ∀ path, synced local0 remote0 mirror m path.
Proof.
  split; [exact acts0_order|].
  apply (plan_converges false local0 remote0 mirror plan0 acts0);
    [exact local0_tree|exact remote0_tree|decide_now|vm_compute; reflexivity|intros Hf; discriminate Hf|exact acts0_order].
Defined.

Lemma plan_idempotent_witness :
  ∃ m, effects false local0 acts0 remote0 = Some m ∧ build_push_plan local0 m mirror = Ok (mk_plan [] 0 0 0 0).
Proof.
  destruct (effects false local0 acts0 remote0) as [m|] eqn:Heff; [|exfalso; vm_compute in Heff; discriminate Heff].
  exists m. split; [reflexivity|].
  apply (plan_idempotent false local0 remote0 mirror plan0 acts0 m);
    [exact local0_tree|exact remote0_tree|decide_now|vm_compute; reflexivity|intros Hf; discriminate Hf|exact acts0_order|exact Heff].
Defined.

End Examples.
