(* ===== verification/Sftp.v ===== *)
(** * The SFTP server behind the transfer code

    The server is not part of the program: it is an instance of [SftpServer], and
    what the code relies on is [SftpLaws], the documented behaviour of the SFTP
    version 3 requests on paths whose parents are plain directories.  [Model]
    gives a concrete server, to evaluate examples.

    Over it, the directory creation of the transfer engine
    ([crates/kaduox-ssh-transfer/src/transfer.rs], [ensure_remote_dir]). *)

From stdpp Require Import base list gmap strings numbers sorting.
From Stdlib Require Import Lia.
From S2P Require Import Prelude RustStr StrFacts RemotePath.

(** ** The interface *)
Inductive FileKind := KDirectory | KSymlink | KRegular | KSpecial.
#[export] Instance file_kind_eq_dec : EqDecision FileKind.
Proof. solve_decision. Defined.

(** The fields of [FileAttributes] the code reads. *)
Record Attrs := mk_attrs { at_kind : FileKind; at_len : Z; at_mtime : option Z }.

(** The answer to a request: [NoSuchFile] is the one status the code tells apart. *)
Inductive sftp_result (A : Type) := SOk (a : A) | NoSuchFile | SErr (e : string).
Arguments SOk {A} a. Arguments NoSuchFile {A}. Arguments SErr {A} e.

Class SftpServer (S : Type) := {
  symlink_metadata : str → S → sftp_result Attrs;
  create_dir : str → S → result unit * S;
  remove_file : str → S → result unit * S;
  remove_dir : str → S → result unit * S;
}.

(** A place in the server's tree: below the root or below the login directory. *)
Abbreviation loc := (bool * list str)%type.
Definition loc_of (path : str) : loc := (absolute path, walk path).

(** A path the server resolves component by component. *)
Definition plain (path : str) : Prop := dotdot ∉ split slash path.

Section nodes.
Context (node : loc → option Attrs).

Definition is_directory (l : loc) : Prop := ∃ a, node l = Some a ∧ at_kind a = KDirectory.

(** All proper prefixes are directories, none of them a link. *)
Definition parents_ok (l : loc) : Prop := ∀ ws us, l.2 = ws ++ us → us ≠ [] → is_directory (l.1, ws).

Definition nothing_below (l : loc) : Prop := ∀ us, us ≠ [] → node (l.1, l.2 ++ us) = None.
End nodes.

(** [f] updated at one place. *)
Definition upd (f : loc → option Attrs) (l : loc) (v : option Attrs) : loc → option Attrs :=
  λ l', if decide (l' = l) then v else f l'.

Class SftpLaws (S : Type) `{SftpServer S} := {
  node : S → loc → option Attrs;
  (* the two roots are directories, and a node lies in directories *)
  node_root s b : is_directory (node s) (b, []);
  node_tree s l a : node s l = Some a → parents_ok (node s) l;
  lstat_law s path : plain path → parents_ok (node s) (loc_of path) →
    symlink_metadata path s =
      match node s (loc_of path) with Some a => SOk a | None => NoSuchFile end;
  create_dir_law s path : plain path → parents_ok (node s) (loc_of path) → node s (loc_of path) = None →
    ∃ a s', create_dir path s = (Ok tt, s') ∧ at_kind a = KDirectory ∧
      ∀ l, node s' l = upd (node s) (loc_of path) (Some a) l;
  remove_file_law s path a : plain path → node s (loc_of path) = Some a → at_kind a ≠ KDirectory →
    ∃ s', remove_file path s = (Ok tt, s') ∧ ∀ l, node s' l = upd (node s) (loc_of path) None l;
  remove_dir_law s path a : plain path → node s (loc_of path) = Some a → at_kind a = KDirectory →
    (loc_of path).2 ≠ [] → nothing_below (node s) (loc_of path) →
    ∃ s', remove_dir path s = (Ok tt, s') ∧ ∀ l, node s' l = upd (node s) (loc_of path) None l;
}.

(** ** [ensure_remote_dir] *)
Section ensure.
Context {S : Type} `{SftpServer S}.

Definition remote_symlink_metadata_if_exists (path : str) (s : S) : result (option Attrs) :=
  match symlink_metadata path s with
  | SOk a => Ok (Some a)
  | NoSuchFile => Ok None
  | SErr e => Err e
  end.

(** The loop over the non-empty segments. *)
Fixpoint ensure_segments (current : str) (segments : list str) (s : S) : result unit * S :=
  match segments with
  | [] => (Ok tt, s)
  | segment :: segments =>
      if bool_decide (segment = dot) then ensure_segments current segments s
      else if bool_decide (segment = dotdot)
      then (Err "remote directory traversal with '..' is not supported", s)
      else
        let current := join_remote current segment in
        match remote_symlink_metadata_if_exists current s with
        | Err e => (Err e, s)
        | Ok (Some a) =>
            if bool_decide (at_kind a = KSymlink)
            then (Err "refusing to follow remote symbolic-link directory component", s)
            else if negb (bool_decide (at_kind a = KDirectory))
            then (Err "remote path component is not a directory", s)
            else ensure_segments current segments s
        | Ok None =>
            match create_dir current s with
            | (Err e, s) => (Err e, s)
            | (Ok _, s) => ensure_segments current segments s
            end
        end
  end.

Definition ensure_remote_dir (path : str) (s : S) : result unit * S :=
  if bool_decide (path = []) || bool_decide (path = dot) || bool_decide (path = [slash]) then (Ok tt, s)
  else ensure_segments (if absolute path then [slash] else []) (filter (λ w, w ≠ []) (split slash path)) s.

Definition ensure_remote_parent (path : str) (s : S) : result unit * S :=
  match rsplit_once slash path with
  | Some (parent, _) => if bool_decide (parent = []) then (Ok tt, s) else ensure_remote_dir parent s
  | None => (Ok tt, s)
  end.
End ensure.

(** ** Locations *)
Lemma plain_walk path : plain path ↔ dotdot ∉ walk path.
Proof. unfold plain, walk. rewrite list_elem_of_filter. naive_solver. Qed.

(** A segment the loop appends. *)
Definition name_ok (w : str) : Prop := w ≠ [] ∧ w ≠ dot ∧ slash ∉ w.

Lemma walk_name w : name_ok w → walk w = [w].
Proof.
  intros (Hne & Hdot & Hs). unfold walk, split. rewrite split_on_none; [by rewrite filter_cons_True by (split; done)|].
  apply Forall_forall. intros x Hx. apply Z.eqb_neq. intros <-. exact (Hs Hx).
Qed.

Lemma name_not_absolute w : slash ∉ w → absolute w = false.
Proof.
  intros Hs. unfold absolute. rewrite starts_with_one, bool_decide_eq_false.
  destruct w as [|c w]; [done|]. intros [= ->]. apply Hs. by left.
Qed.

Lemma loc_of_join current w :
  name_ok w → loc_of (join_remote current w) = (absolute current, walk current ++ [w]).
Proof.
  intros Hw. pose proof Hw as (_ & _ & Hs). unfold loc_of.
  destruct (join_remote_relative current w (name_not_absolute w Hs)) as [-> ->]. by rewrite (walk_name w Hw).
Qed.

Lemma walk_names path w : w ∈ walk path → name_ok w.
Proof.
  unfold walk. rewrite list_elem_of_filter. intros [[? ?] Hin]. split_and!; [done..|].
  by apply (split_pieces slash path).
Qed.

(** ** What [ensure_remote_dir] does *)
Section ensure_spec.
Context {S : Type} `{SftpLaws S}.

(** All directories down to [l] exist in [s']; nothing that existed changed,
    and nothing else appeared. *)
Definition dirs_made (s s' : S) (l : loc) : Prop :=
  (∀ ws us, l.2 = ws ++ us → is_directory (node s') (l.1, ws)) ∧
  ∀ l', (is_Some (node s l') ∨ ∀ us, l ≠ (l'.1, l'.2 ++ us)) → node s' l' = node s l'.

(** Something on the way to [l] is not a directory. *)
Definition blocked (s : S) (l : loc) : Prop :=
  ∃ ws us a, l.2 = ws ++ us ∧ node s (l.1, ws) = Some a ∧ at_kind a ≠ KDirectory.

Definition ensured (s : S) (l : loc) (result : result unit * S) : Prop :=
  match result with
  | (Ok _, s') => dirs_made s s' l
  | (Err _, s') => s' = s ∧ blocked s l
  end.

Lemma prefix_snoc {A} (ws us done : list A) w :
  done ++ [w] = ws ++ us → us = [] ∧ ws = done ++ [w] ∨ ∃ vs, us = vs ++ [w] ∧ done = ws ++ vs.
Proof.
  destruct us as [|x us _] using rev_ind; intros Heq.
  - left. by rewrite app_nil_r in Heq.
  - right. rewrite app_assoc in Heq. apply app_inj_tail in Heq as [-> ->]. by exists us.
Qed.

Lemma dirs_made_refl s l : (∀ ws us, l.2 = ws ++ us → is_directory (node s) (l.1, ws)) → dirs_made s s l.
Proof. intros Hd. split; [done|]. by intros l' _. Qed.

Lemma ensure_segments_spec segments current s :
  Forall (λ w, w ≠ [] ∧ w ≠ dotdot ∧ slash ∉ w) segments → dotdot ∉ walk current →
  (∀ ws us, walk current = ws ++ us → is_directory (node s) (absolute current, ws)) →
  ensured s (absolute current, walk current ++ filter (λ w, w ≠ dot) segments) (ensure_segments current segments s).
Proof.
  revert current s. induction segments as [|w segments IH]; intros current s Hall Hplain Hdirs.
  { cbn. rewrite app_nil_r. apply dirs_made_refl. exact Hdirs. }
  apply Forall_cons in Hall as [(Hne & Hdd & Hs) Hall]. cbn [ensure_segments].
  case_bool_decide as Hdot.
  { rewrite filter_cons_False by by intros []. by apply IH. }
  rewrite filter_cons_True by done. rewrite (bool_decide_eq_false_2 (w = dotdot)) by done.
  assert (name_ok w) as Hw by done. pose proof (loc_of_join current w Hw) as Hloc.
  set (current' := join_remote current w) in *. unfold loc_of in Hloc. injection Hloc as Habs Hwalk.
  assert (dotdot ∉ walk current') as Hplain'.
  { rewrite Hwalk, elem_of_app, list_elem_of_singleton. intros [?|?]; [done|by subst w]. }
  assert (parents_ok (node s) (loc_of current')) as Hparents.
  { intros ws us Heq Hus. unfold loc_of in *. cbn [fst snd] in *. rewrite Hwalk in Heq. rewrite Habs.
    apply prefix_snoc in Heq as [[-> _]|(vs & -> & Hd)]; [done|]. by eapply Hdirs. }
  unfold remote_symlink_metadata_if_exists. rewrite lstat_law by (done || by apply plain_walk).
  replace (walk current ++ w :: filter (λ w, w ≠ dot) segments)
    with (walk current' ++ filter (λ w, w ≠ dot) segments) by (by rewrite Hwalk, <- app_assoc).
  rewrite <- Habs. destruct (node s (loc_of current')) as [a|] eqn:Hnode.
  - assert (Hblock : at_kind a ≠ KDirectory →
      blocked s (absolute current', walk current' ++ filter (λ w, w ≠ dot) segments)).
    { intros Hk. by exists (walk current'), (filter (λ w, w ≠ dot) segments), a. }
    case_bool_decide as Hlink; [split; [done|apply Hblock; congruence]|].
    case_bool_decide as Hdir; cbn [negb]; [|by split; [|apply Hblock]].
    apply IH; [done..|]. intros ws us Heq. rewrite Hwalk in Heq. rewrite Habs.
    apply prefix_snoc in Heq as [[-> ->]|(vs & -> & Heq)]; [|by eapply Hdirs].
    exists a. split; [|done]. rewrite <- Hnode. unfold loc_of. by rewrite Habs, Hwalk.
  - destruct (create_dir_law s current') as (a & s1 & -> & Hk & Hs1); [by apply plain_walk|done..|].
    assert (Hkeep : ∀ l, is_Some (node s l) → node s1 l = node s l).
    { intros l Hl. rewrite Hs1. unfold upd. case_decide as Heq; [|done]. subst l. rewrite Hnode in Hl. by destruct Hl. }
    assert (Hdirs1 : ∀ ws us, walk current' = ws ++ us → is_directory (node s1) (absolute current', ws)).
    { intros ws us Heq. rewrite Hwalk in Heq. rewrite Habs.
      apply prefix_snoc in Heq as [[-> ->]|(vs & -> & Heq)].
      - exists a. split; [|done]. rewrite Hs1. unfold upd, loc_of. rewrite Habs, Hwalk. by rewrite decide_True.
      - destruct (Hdirs ws vs Heq) as (b & Hb & Hkb). exists b. split; [|done]. rewrite Hkeep; [done|]. eauto. }
    specialize (IH current' s1 Hall Hplain' Hdirs1).
    destruct (ensure_segments current' segments s1) as [[[]|e] s']; cbn [ensured] in *.
    + destruct IH as [Hmade Hother]. split; [done|]. intros l Hl. assert (node s1 l = node s l) as Heq1.
      { rewrite Hs1. unfold upd. case_decide as Heq; [|done]. subst l. destruct Hl as [Hl|Hl].
        - rewrite Hnode in Hl. by destruct Hl.
        - by destruct (Hl (filter (λ w, w ≠ dot) segments)). }
      rewrite <- Heq1. apply Hother. by rewrite Heq1.
    + destruct IH as [_ (ws & us & b & Heq & Hb & Hkb)]. exfalso. cbn [fst snd] in *.
      apply app_eq_inv in Heq as [(k & Hk1 & _)|(k & -> & Hk2)].
      * destruct (Hdirs1 ws k Hk1) as (b' & Hb' & Hkb'). congruence.
      * destruct k as [|x k].
        { rewrite app_nil_r in Hb. destruct (Hdirs1 (walk current') []) as (b' & Hb' & Hkb'); [by rewrite app_nil_r|congruence]. }
        rewrite Hs1 in Hb. unfold upd in Hb. case_decide as Heq.
        { unfold loc_of in Heq. injection Heq as Heq. apply (f_equal length) in Heq.
          rewrite length_app in Heq. cbn [length] in Heq. lia. }
        destruct (node_tree s _ _ Hb (walk current') (x :: k)) as (c & Hc & _); [done..|].
        unfold loc_of in Hnode. cbn [fst] in Hc. congruence.
Qed.

Lemma filter_segments path :
  filter (λ w, w ≠ dot) (filter (λ w, w ≠ []) (split slash path)) = walk path.
Proof.
  unfold walk. rewrite list_filter_filter. apply list_filter_iff. tauto.
Qed.

Lemma ensure_remote_dir_spec path s : plain path → ensured s (loc_of path) (ensure_remote_dir path s).
Proof.
  intros Hplain. unfold ensure_remote_dir.
  assert (Htop : ∀ b, dirs_made s s (b, [])).
  { intros b. apply dirs_made_refl. intros ws us Heq. symmetry in Heq. apply app_nil in Heq as [-> _]. apply node_root. }
  destruct (bool_decide (path = []) || bool_decide (path = dot) || bool_decide (path = [slash])) eqn:Htriv.
  { rewrite !orb_true_iff, !bool_decide_eq_true in Htriv. destruct Htriv as [[-> | ->]| ->]; apply Htop. }
  pose proof (ensure_segments_spec (filter (λ w, w ≠ []) (split slash path))
    (if absolute path then [slash] else []) s) as Hspec.
  rewrite filter_segments in Hspec. unfold loc_of.
  assert (absolute (if absolute path then [slash] else []) = absolute path) as Habs by by destruct (absolute path).
  assert (walk (if absolute path then [slash] else []) = []) as Hw by by destruct (absolute path).
  rewrite Habs, Hw in Hspec. apply Hspec.
  - apply Forall_forall. intros w [Hne Hin]%list_elem_of_filter. split_and!; [done| |by apply (split_pieces slash path)].
    intros ->. by apply Hplain.
  - apply not_elem_of_nil.
  - intros ws us Heq. symmetry in Heq. apply app_nil in Heq as [-> _]. apply node_root.
Qed.

Lemma ensure_segments_traversal segments current s :
  dotdot ∈ segments → is_ok (ensure_segments current segments s).1 = false.
Proof.
  revert current s. induction segments as [|w segments IH]; intros current s Hin; [by apply elem_of_nil in Hin|].
  cbn [ensure_segments]. case_bool_decide as Hdot.
  { apply IH. apply elem_of_cons in Hin as [Hw|]; [|done]. by subst w. }
  case_bool_decide as Hdd; [done|]. assert (dotdot ∈ segments) as Hin' by by apply elem_of_cons in Hin as [|].
  destruct (remote_symlink_metadata_if_exists _ _) as [[a|]|e]; [| |done].
  - case_bool_decide; [done|]. destruct (negb _); [done|by apply IH].
  - destruct (create_dir _ _) as [[[]|e] s']; [by apply IH|done].
Qed.

(** Making a directory.  [ensure_remote_dir] refuses a path with a [..]
    component.  On any other path it succeeds unless something on the way exists
    and is not a plain directory (a symbolic link counts), in which case it
    changes nothing; when it succeeds, all directories down to the path exist,
    everything that existed is unchanged and nothing else appeared. *)
Theorem ensure_remote_dir_exact path s :
  match ensure_remote_dir path s with
  | (Ok _, s') => plain path ∧ dirs_made s s' (loc_of path)
  | (Err _, s') => plain path → s' = s ∧ blocked s (loc_of path)
  end.
Proof.
  destruct (decide (plain path)) as [Hplain|Hnot].
  - pose proof (ensure_remote_dir_spec path s Hplain) as Hspec.
    destruct (ensure_remote_dir path s) as [[[]|e] s']; first [done | by split].
  - assert (is_ok (ensure_remote_dir path s).1 = false) as Hno.
    { unfold plain in Hnot. apply dec_stable in Hnot. unfold ensure_remote_dir.
      destruct (bool_decide (path = []) || bool_decide (path = dot) || bool_decide (path = [slash])) eqn:Htriv.
      - exfalso. rewrite !orb_true_iff, !bool_decide_eq_true in Htriv.
        destruct Htriv as [[-> | ->]| ->]; revert Hnot; decide_now.
      - apply ensure_segments_traversal. by apply list_elem_of_filter. }
    destruct (ensure_remote_dir path s) as [[[]|e] s']; done.
Qed.
End ensure_spec.

(** ** A concrete server *)
Module Model.

(** The entries below the two roots; an entry whose parents are missing is not
    there. *)
Abbreviation tree := (gmap (bool * list str) Attrs).

Definition raw_directory (t : tree) (l : loc) : bool :=
  match t !! l with Some a => bool_decide (at_kind a = KDirectory) | None => false end.

(** The proper, non-empty prefixes of a list. *)
Definition prefixes (ws : list str) : list (list str) :=
  (λ n, take n ws) <$> seq 1 (pred (length ws)).

Definition directory_attrs : Attrs := mk_attrs KDirectory 0 None.

Definition lookup_node (t : tree) (l : loc) : option Attrs :=
  match l.2 with
  | [] => Some directory_attrs
  | _ => if forallb (λ ws, raw_directory t (l.1, ws)) (prefixes l.2) then t !! l else None
  end.

Definition is_dir_node (t : tree) (l : loc) : bool :=
  match lookup_node t l with Some a => bool_decide (at_kind a = KDirectory) | None => false end.

Definition parent_of (l : loc) : loc := (l.1, take (pred (length l.2)) l.2).

(** Strictly below. *)
Definition below (l l' : loc) : bool :=
  bool_decide (l.1 = l'.1) && bool_decide (take (length l.2) l'.2 = l.2) && bool_decide (length l.2 < length l'.2)%nat.

(** Put or remove an entry; what may be left below it is dropped. *)
Definition place (t : tree) (l : loc) (a : option Attrs) : tree :=
  partial_alter (λ _, a) l (filter (λ '(l', _), below l l' = false) t).

Definition model_lstat (path : str) (t : tree) : sftp_result Attrs :=
  match lookup_node t (loc_of path) with Some a => SOk a | None => NoSuchFile end.
Definition model_create_dir (path : str) (t : tree) : result unit * tree :=
  match lookup_node t (loc_of path) with
  | Some _ => (Err "exists", t)
  | None => if is_dir_node t (parent_of (loc_of path)) then (Ok tt, place t (loc_of path) (Some directory_attrs))
            else (Err "no parent", t)
  end.
Definition model_remove_file (path : str) (t : tree) : result unit * tree :=
  match lookup_node t (loc_of path) with
  | Some a => if bool_decide (at_kind a = KDirectory) then (Err "is a directory", t)
              else (Ok tt, place t (loc_of path) None)
  | None => (Err "no such file", t)
  end.
Definition model_remove_dir (path : str) (t : tree) : result unit * tree :=
  if is_dir_node t (loc_of path) && negb (bool_decide ((loc_of path).2 = [])) &&
     forallb (λ '(l', _), negb (below (loc_of path) l' && bool_decide (is_Some (lookup_node t l')))) (map_to_list t)
  then (Ok tt, place t (loc_of path) None) else (Err "cannot remove directory", t).

#[export] Instance model_server : SftpServer tree := {|
  symlink_metadata := model_lstat;
  create_dir := model_create_dir;
  remove_file := model_remove_file;
  remove_dir := model_remove_dir;
|}.

(** *** The laws hold *)
Lemma elem_of_prefixes ws vs : vs ∈ prefixes ws ↔ vs ≠ [] ∧ ∃ us, us ≠ [] ∧ ws = vs ++ us.
Proof.
  unfold prefixes. rewrite list_elem_of_fmap. split.
  - intros (n & -> & Hn%elem_of_seq). split.
    + destruct ws, n; cbn in *; done || lia.
    + exists (drop n ws). rewrite take_drop. split; [|done]. intros Hnil. apply (f_equal length) in Hnil.
      rewrite length_drop in Hnil. cbn in Hnil. lia.
  - intros (Hne & us & Hus & ->). exists (length vs). rewrite take_app_length. split; [done|].
    apply elem_of_seq. rewrite length_app. destruct vs, us; try done; cbn; lia.
Qed.

Definition raw_parents (t : tree) (l : loc) : bool := forallb (λ ws, raw_directory t (l.1, ws)) (prefixes l.2).

Lemma raw_parents_spec t l :
  raw_parents t l = true ↔ ∀ ws us, l.2 = ws ++ us → us ≠ [] → ws ≠ [] → raw_directory t (l.1, ws) = true.
Proof.
  unfold raw_parents. rewrite forallb_forall. setoid_rewrite <- list_elem_of_In. setoid_rewrite elem_of_prefixes.
  naive_solver.
Qed.

Lemma lookup_node_below t b ws : ws ≠ [] → lookup_node t (b, ws) = if raw_parents t (b, ws) then t !! (b, ws) else None.
Proof. unfold lookup_node, raw_parents. by destruct ws. Qed.

Lemma raw_directory_spec t l : raw_directory t l = true ↔ ∃ a, t !! l = Some a ∧ at_kind a = KDirectory.
Proof. unfold raw_directory. destruct (t !! l) as [a|]; [rewrite bool_decide_eq_true|]; naive_solver. Qed.

Lemma parents_raw t l : raw_parents t l = true ↔ parents_ok (lookup_node t) l.
Proof.
  rewrite raw_parents_spec. split.
  - intros Hraw ws us Heq Hus. destruct (decide (ws = [])) as [->|Hws]; [by exists directory_attrs|].
    pose proof (Hraw ws us Heq Hus Hws) as Hd. apply raw_directory_spec in Hd as (a & Ha & Hk). exists a.
    split; [|exact Hk].
    rewrite lookup_node_below by done. assert (raw_parents t (l.1, ws) = true) as ->; [|exact Ha].
    apply raw_parents_spec. cbn. intros vs ks -> Hks Hvs. rewrite <- app_assoc in Heq.
    apply (Hraw vs (ks ++ us)); [done| |done]. by destruct ks.
  - intros Hok ws us Heq Hus Hws. destruct (Hok ws us Heq Hus) as (a & Ha & Hk).
    rewrite lookup_node_below in Ha by done. destruct (raw_parents _ _); [|done]. apply raw_directory_spec. by exists a.
Qed.

Lemma below_spec l l' : below l l' = true ↔ ∃ us, us ≠ [] ∧ l' = (l.1, l.2 ++ us).
Proof.
  unfold below. rewrite !andb_true_iff, !bool_decide_eq_true. split.
  - intros [[Hb Ht] Hlen]. exists (drop (length l.2) l'.2). split.
    + intros Hnil. apply (f_equal length) in Hnil. rewrite length_drop in Hnil. cbn in Hnil. lia.
    + rewrite <- Ht at 2. rewrite Hb, Ht. destruct l' as [b' ws']. cbn in *. f_equal. rewrite <- Ht at 1. by rewrite take_drop.
  - intros (us & Hus & ->). cbn. rewrite take_app_length. split; [done|]. rewrite length_app. destruct us; [done|]. cbn. lia.
Qed.

Lemma lookup_place t l a l' :
  place t l a !! l' = if decide (l' = l) then a else if below l l' then None else t !! l'.
Proof.
  unfold place. case_decide as Heq; [subst; apply lookup_partial_alter_eq|].
  rewrite lookup_partial_alter_ne by done. destruct (below l l') eqn:Hb.
  - apply map_lookup_filter_None. right. intros b _ H. congruence.
  - destruct (t !! l') as [b|] eqn:Ht; [by apply map_lookup_filter_Some|apply map_lookup_filter_None; by left].
Qed.

Lemma place_prefix t l a b vs us :
  us ≠ [] → below l (b, vs ++ us) = false → place t l a !! (b, vs) = t !! (b, vs).
Proof.
  intros Hus Hb. rewrite lookup_place. apply not_true_iff_false in Hb. rewrite below_spec in Hb.
  case_decide as Heq.
  - exfalso. apply Hb. exists us. by subst l.
  - destruct (below l (b, vs)) eqn:Hb'; [|done]. exfalso. apply Hb.
    apply below_spec in Hb' as (ks & Hks & [= -> ->]). exists (ks ++ us). rewrite <- app_assoc. by destruct ks.
Qed.

Lemma place_upd t l a l' :
  l.2 ≠ [] → parents_ok (lookup_node t) l → nothing_below (lookup_node t) l →
  lookup_node (place t l a) l' = upd (lookup_node t) l a l'.
Proof.
  intros Hne Hparents Hbelow. destruct l' as [b ws]. unfold upd.
  destruct (decide (ws = [])) as [->|Hws].
  { rewrite decide_False by (intros <-; done). done. }
  rewrite !lookup_node_below by done.
  (* a prefix of [l'] is untouched unless [l'] lies below [l] *)
  assert (Hpre : below l (b, ws) = false → raw_parents (place t l a) (b, ws) = raw_parents t (b, ws)).
  { intros Hb. apply eq_iff_eq_true. rewrite !raw_parents_spec. cbn [fst snd].
    assert (Hsame : ∀ vs us, ws = vs ++ us → us ≠ [] → raw_directory (place t l a) (b, vs) = raw_directory t (b, vs)).
    { intros vs us Heq Hus. unfold raw_directory. by rewrite (place_prefix t l a b vs us) by (done || by rewrite <- Heq). }
    split; intros H vs us Heq Hus Hvs; specialize (H vs us Heq Hus Hvs); specialize (Hsame vs us Heq Hus); congruence. }
  rewrite lookup_place. case_decide as Heq.
  - subst l. rewrite Hpre.
    + apply parents_raw in Hparents. by rewrite Hparents.
    + apply not_true_iff_false. intros (us & Hus & [= Heq])%below_spec. apply Hus.
      apply (f_equal length) in Heq. rewrite length_app in Heq. destruct us; [done|cbn in Heq; lia].
  - destruct (below l (b, ws)) eqn:Hb.
    + apply below_spec in Hb as (us & Hus & [= -> ->]). specialize (Hbelow us Hus).
      rewrite lookup_node_below in Hbelow by by destruct (l.2). rewrite Hbelow. clear; by case_match.
    + by rewrite Hpre.
Qed.

Lemma model_tree t l a : lookup_node t l = Some a → parents_ok (lookup_node t) l.
Proof.
  destruct l as [b ws]. destruct (decide (ws = [])) as [->|Hws].
  - intros _ vs us Heq Hus. symmetry in Heq. by apply app_nil in Heq as [_ ->].
  - rewrite lookup_node_below by done. destruct (raw_parents t (b, ws)) eqn:Hr; [|done]. intros _. by apply parents_raw.
Qed.

(** Below what is no directory there is nothing. *)
Lemma model_below t l : ¬ is_directory (lookup_node t) l → nothing_below (lookup_node t) l.
Proof.
  intros Hno us Hus. destruct (lookup_node t (l.1, l.2 ++ us)) as [a|] eqn:Ha; [|done]. exfalso. apply Hno.
  apply model_tree in Ha. destruct l as [b ws]. by apply (Ha ws us).
Qed.

Lemma parent_directory t l : l.2 ≠ [] → parents_ok (lookup_node t) l → is_dir_node t (parent_of l) = true.
Proof.
  intros Hne Hok. destruct (Hok (take (pred (length l.2)) l.2) (drop (pred (length l.2)) l.2)) as (a & Ha & Hk).
  - by rewrite take_drop.
  - intros Hnil. apply (f_equal length) in Hnil. rewrite length_drop in Hnil. destruct (l.2); [done|]. cbn in Hnil. lia.
  - unfold is_dir_node, parent_of. rewrite Ha. by apply bool_decide_eq_true_2.
Qed.

#[export] Instance model_laws : SftpLaws tree.
Proof.
  refine {| node := lookup_node |}.
  - intros t b. by exists directory_attrs.
  - intros t l a. apply model_tree.
  - intros t path _ _. cbn. unfold model_lstat. by destruct (lookup_node t (loc_of path)).
  - intros t path _ Hok Hnone. cbn. unfold model_create_dir. rewrite Hnone.
    assert ((loc_of path).2 ≠ []) as Hne.
    { intros Hnil. unfold lookup_node in Hnone. by rewrite Hnil in Hnone. }
    rewrite parent_directory by done. exists directory_attrs. eexists. split_and!; [done..|].
    intros l. apply place_upd; [done..|]. apply model_below. intros (a & Ha & _). congruence.
  - intros t path a _ Ha Hk. cbn. unfold model_remove_file. rewrite Ha, bool_decide_eq_false_2 by done.
    eexists. split; [done|]. intros l. apply place_upd.
    + intros Hnil. unfold lookup_node in Ha. rewrite Hnil in Ha. injection Ha as <-. done.
    + by eapply model_tree.
    + apply model_below. intros (a' & Ha' & ?). congruence.
  - intros t path a _ Ha Hk Hne Hbelow. cbn. unfold model_remove_dir, is_dir_node. rewrite Ha.
    rewrite bool_decide_eq_true_2 by done. rewrite (bool_decide_eq_false_2 (_ = [])) by done. cbn [negb andb].
    assert (forallb (λ '(l', _), negb (below (loc_of path) l' && bool_decide (is_Some (lookup_node t l')))) (map_to_list t) = true) as ->.
    { apply forallb_forall. intros [l' b] _. rewrite negb_true_iff, andb_false_iff, bool_decide_eq_false.
      destruct (below (loc_of path) l') eqn:Hb; [|by left]. right. apply below_spec in Hb as (us & Hus & ->).
      rewrite (Hbelow us Hus). by intros []. }
    eexists. split; [done|]. intros l. apply place_upd; [done| |done]. by eapply model_tree.
Defined.

End Model.

(** ** Examples *)
Module Examples.
Import Model.

Definition server0 : tree := {[ (true, [lit "srv"]) := directory_attrs ]}.

Lemma ensure_remote_dir_exact_witness :
  ∃ s', ensure_remote_dir (lit "/srv/./app//x") server0 = (Ok tt, s') ∧
    dirs_made server0 s' (true, [lit "srv"; lit "app"; lit "x"]).
Proof.
  pose proof (ensure_remote_dir_exact (lit "/srv/./app//x") server0) as H.
  destruct (ensure_remote_dir (lit "/srv/./app//x") server0) as [[[]|e] s'] eqn:Heq.
  - exists s'. split; [reflexivity|].
    assert (loc_of (lit "/srv/./app//x") = (true, [lit "srv"; lit "app"; lit "x"])) as <- by (vm_compute; reflexivity).
    exact (proj2 H).
  - exfalso. apply (f_equal (λ r, is_ok r.1)) in Heq. vm_compute in Heq. discriminate Heq.
Defined.

End Examples.
