(* ===== verification/SyncPreflight.v ===== *)
(** * Checks before an atomic synchronization ([crates/kaduox-ssh-transfer/src/sync/preflight.rs])

    An atomic upload cannot replace an existing remote entry, so before anything
    is changed the plan is checked against the server: the mutations the plan
    holds for every path, and what lies on the way to every upload.  Here the checks
    are functions of the state of a lawful server; [SyncRun] has them as the requests of
    a run. *)

From stdpp Require Import base list gmap strings numbers sorting.
From Stdlib Require Import Lia.
From S2P Require Import Prelude RustStr StrFacts RemotePath SyncPlan SyncConverge Sftp.

(** ** Definitions *)
Inductive RemoteNodeKind := NodeDirectory | NodeSymlink | NodeOther.
#[export] Instance node_kind_eq_dec : EqDecision RemoteNodeKind.
Proof. solve_decision. Defined.

(** The indices of the actions that change a path. *)
Record PlannedMutation := mk_mutation {
  delete_file : option Z;
  delete_directory : option Z;
  create_directory : option Z;
}.
Definition no_mutation : PlannedMutation := mk_mutation None None None.

Definition some {A} (o : option A) : bool := match o with Some _ => true | None => false end.
Definition has_delete (m : PlannedMutation) : bool := some (delete_file m) || some (delete_directory m).
Definition deletes_file (m : PlannedMutation) : bool := some (delete_file m).
Definition deletes_directory (m : PlannedMutation) : bool := some (delete_directory m).
Definition creates_directory (m : PlannedMutation) : bool := some (create_directory m).

(** [slot.replace(index).is_some()] for the slot of the kind. *)
Definition replace_slot (kind : SyncActionKind) (index : Z) (m : PlannedMutation) : option Z * PlannedMutation :=
  match kind with
  | DeleteRemoteFile => (delete_file m, mk_mutation (Some index) (delete_directory m) (create_directory m))
  | DeleteRemoteDirectory => (delete_directory m, mk_mutation (delete_file m) (Some index) (create_directory m))
  | CreateRemoteDirectory => (create_directory m, mk_mutation (delete_file m) (delete_directory m) (Some index))
  | UploadFile => (None, m)
  end.

Definition mutation_for (mutations : gmap str PlannedMutation) (path : str) : PlannedMutation :=
  default no_mutation (mutations !! path).

(** The first loop of [collect_planned_mutations]; an upload only makes the entry. *)
Fixpoint collect_mutations (index : Z) (acts : list SyncAction) (mutations : gmap str PlannedMutation)
    : result (gmap str PlannedMutation) :=
  match acts with
  | [] => Ok mutations
  | action :: acts =>
      let '(old, mutation) := replace_slot (a_kind action) index (mutation_for mutations (a_path action)) in
      bail_if (some old) "sync plan contains duplicate mutation" ≫= λ _,
      collect_mutations (index + 1) acts (<[ a_path action := mutation ]> mutations)
  end.

Definition option_or {A} (a b : option A) : option A := match a with Some _ => a | None => b end.

(** The body of the second loop. *)
Definition check_mutation (m : PlannedMutation) : result unit :=
  bail_if (deletes_file m && deletes_directory m)
    "sync plan contains contradictory file/directory delete mutations" ≫= λ _,
  match create_directory m with
  | Some create_index =>
      match option_or (delete_file m) (delete_directory m) with
      | Some delete_index =>
          bail_if (create_index <=? delete_index) "sync plan must delete before recreating as a directory"
      | None => Ok tt
      end
  | None => Ok tt
  end.

Definition collect_planned_mutations (plan : SyncPlan) : result (gmap str PlannedMutation) :=
  collect_mutations 0 (actions plan) ∅ ≫= λ mutations,
  for_each check_mutation (btree_values mutations) ≫= λ _, Ok mutations.

Definition validate_parent_beneath_fresh_ancestor (m : PlannedMutation) : result unit :=
  bail_if (has_delete m) "atomic sync plan is stale: beneath a freshly created parent but has a delete mutation".

Definition validate_upload_beneath_fresh_ancestor (m : PlannedMutation) : result unit :=
  bail_if (has_delete m) "atomic sync plan is stale: upload destination will be absent but has a delete mutation" ≫= λ _,
  bail_if (creates_directory m) "sync plan cannot create a directory and upload a regular file at the same path".

Definition validate_final_upload_destination (current : option RemoteNodeKind) (m : PlannedMutation) : result unit :=
  bail_if (creates_directory m) "sync plan cannot create a directory and upload a regular file at the same path" ≫= λ _,
  match current with
  | None => bail_if (has_delete m) "atomic sync plan is stale: upload destination is absent but the plan deletes it"
  | Some NodeDirectory =>
      if deletes_directory m && negb (deletes_file m) then Ok tt
      else if deletes_file m then Err "atomic sync plan expects to delete a file, but it is a directory"
      else Err "atomic sync upload would replace existing remote destination"
  | Some (NodeSymlink | NodeOther) =>
      if deletes_file m && negb (deletes_directory m) then Ok tt
      else if deletes_directory m then Err "atomic sync plan expects to delete a directory, but it is not one"
      else Err "atomic sync upload would replace existing remote destination"
  end.

Section preflight.
Context {S : Type} `{SftpServer S}.

Definition remote_node_kind_if_exists (path : str) (s : S) : result (option RemoteNodeKind) :=
  match symlink_metadata path s with
  | SOk a => Ok (Some (match at_kind a with
                       | KSymlink => NodeSymlink | KDirectory => NodeDirectory | _ => NodeOther end))
  | NoSuchFile => Ok None
  | SErr e => Err e
  end.

(** The loop over the components of one upload path; [fresh] is
    [ancestor_will_be_fresh]. *)
Fixpoint preflight_components (root : str) (mutations : gmap str PlannedMutation) (prefix : str) (fresh : bool)
    (components : list str) (s : S) : result unit :=
  match components with
  | [] => Ok tt
  | component :: components =>
      let prefix := if bool_decide (prefix = []) then component else prefix ++ slash :: component in
      let mutation := mutation_for mutations prefix in
      let final_component := bool_decide (components = []) in
      if fresh then
        if final_component then validate_upload_beneath_fresh_ancestor mutation
        else validate_parent_beneath_fresh_ancestor mutation ≫= λ _,
             preflight_components root mutations prefix true components s
      else
        join_remote_under_root root prefix ≫= λ remote_path,
        remote_node_kind_if_exists remote_path s ≫= λ current,
        if final_component then validate_final_upload_destination current mutation
        else match current with
        | Some NodeDirectory =>
            bail_if (has_delete mutation) "atomic sync plan would delete existing parent directory" ≫= λ _,
            preflight_components root mutations prefix false components s
        | Some (NodeSymlink | NodeOther) =>
            if deletes_file mutation && negb (deletes_directory mutation) && creates_directory mutation
            then preflight_components root mutations prefix true components s
            else Err "refusing atomic sync preflight through non-directory or symbolic-link parent"
        | None =>
            bail_if (has_delete mutation) "atomic sync plan is stale: parent is absent but has a delete mutation" ≫= λ _,
            preflight_components root mutations prefix true components s
        end
  end.

Definition preflight_atomic_upload_path (root relative : str) (mutations : gmap str PlannedMutation) (s : S)
    : result unit :=
  validate_remote_relative_path relative ≫= λ _,
  preflight_components root mutations [] false (split slash relative) s.

Fixpoint root_exists_loop (current : str) (segments : list str) (s : S) : result bool :=
  match segments with
  | [] => Ok true
  | segment :: segments =>
      if bool_decide (segment = dot) then root_exists_loop current segments s
      else if bool_decide (segment = dotdot) then Err "remote sync root traversal with '..' is not supported"
      else
        let current := join_remote current segment in
        remote_node_kind_if_exists current s ≫= λ kind,
        match kind with
        | Some NodeDirectory => root_exists_loop current segments s
        | Some NodeSymlink => Err "refusing to follow symbolic-link component in remote sync destination root"
        | Some NodeOther => Err "remote sync destination root component is not a directory"
        | None => Ok false
        end
  end.

Definition remote_root_exists_without_symlinks (root : str) (s : S) : result bool :=
  if bool_decide (root = []) || bool_decide (root = dot) || bool_decide (root = [slash]) then Ok true
  else
    bail_if (contains_char root 0) "remote sync root cannot contain NUL bytes" ≫= λ _,
    root_exists_loop (if absolute root then [slash] else []) (filter (λ w, w ≠ []) (split slash root)) s.

Definition preflight_atomic_sync (root : str) (plan : SyncPlan) (s : S) : result unit :=
  collect_planned_mutations plan ≫= λ mutations,
  remote_root_exists_without_symlinks root s ≫= λ root_exists,
  let upload_actions := filter (λ a, a_kind a = UploadFile) (actions plan) in
  if negb root_exists then
    bail_if (existsb (λ a, bool_decide (a_kind a = DeleteRemoteFile) || bool_decide (a_kind a = DeleteRemoteDirectory))
               (actions plan))
      "atomic sync plan is stale: remote root is absent but the plan still deletes" ≫= λ _,
    for_each (λ a, validate_upload_beneath_fresh_ancestor (mutation_for mutations (a_path a))) upload_actions
  else
    for_each (λ a, preflight_atomic_upload_path root (a_path a) mutations s) upload_actions.
End preflight.

(** ** The mutations of a plan *)
Definition slot (k : SyncActionKind) (m : PlannedMutation) : option Z :=
  match k with
  | DeleteRemoteFile => delete_file m
  | DeleteRemoteDirectory => delete_directory m
  | CreateRemoteDirectory => create_directory m
  | UploadFile => None
  end.

Lemma slot_replace k k' i m : slot k (replace_slot k' i m).2 = if decide (k = k' ∧ k ≠ UploadFile) then Some i else slot k m.
Proof. by destruct k, k'. Qed.

Lemma replaced k i m : (replace_slot k i m).1 = slot k m.
Proof. by destruct k. Qed.

Lemma mutation_for_insert m p v q :
  mutation_for (<[ p := v ]> m) q = if decide (q = p) then v else mutation_for m q.
Proof.
  unfold mutation_for. case_decide as Heq; [by rewrite Heq, lookup_insert_eq|by rewrite lookup_insert_ne by congruence].
Qed.

(** An action at its position. *)
Definition at_index (i : Z) (acts : list SyncAction) (k : SyncActionKind) (p : str) (j : Z) : Prop :=
  ∃ n a, acts !! n = Some a ∧ j = i + Z.of_nat n ∧ a_kind a = k ∧ a_path a = p.

Lemma at_index_cons i a acts k p j :
  at_index i (a :: acts) k p j ↔ (j = i ∧ a_kind a = k ∧ a_path a = p) ∨ at_index (i + 1) acts k p j.
Proof.
  unfold at_index. split.
  - intros ([|n] & b & Hn & -> & Hk & Hp); cbn in Hn.
    + left. injection Hn as <-. split_and!; [lia|done..].
    + right. exists n, b. split_and!; [done|lia|done..].
  - intros [(-> & Hk & Hp)|(n & b & Hn & -> & Hk & Hp)].
    + exists 0%nat, a. split_and!; [done|lia|done..].
    + exists (S n), b. split_and!; [done|lia|done..].
Qed.

(** Each kind of mutation at most once per path. *)
Definition no_duplicates (acts : list SyncAction) (m : gmap str PlannedMutation) : Prop :=
  ∀ k p, k ≠ UploadFile →
    (∀ i j, at_index 0 acts k p i → at_index 0 acts k p j → i = j) ∧
    (some (slot k (mutation_for m p)) = true → ∀ i, ¬ at_index 0 acts k p i).

Lemma at_index_shift d i acts k p j : at_index (i + d) acts k p (j + d) ↔ at_index i acts k p j.
Proof.
  unfold at_index. split; intros (n & a & Hn & Hj & Hk & Hp); exists n, a; split_and!; try done; lia.
Qed.

Lemma collect_mutations_spec acts i m :
  no_duplicates acts m →
  ∃ m', collect_mutations i acts m = Ok m' ∧
    ∀ k p, k ≠ UploadFile → ∀ j, slot k (mutation_for m' p) = Some j ↔
      at_index i acts k p j ∨ (slot k (mutation_for m p) = Some j ∧ ∀ j', ¬ at_index i acts k p j').
Proof.
  revert i m. induction acts as [|a acts IH]; intros i m Hnd.
  { exists m. split; [done|]. intros k p _ j. split; [|intros [(n & b & Hn & _)|[? _]]; [by destruct n|done]].
    intros Hj. right. split; [done|]. by intros j' (n & b & Hn & _). }
  cbn [collect_mutations]. pose proof (replaced (a_kind a) i (mutation_for m (a_path a))) as Hold.
  pose proof (slot_replace) as Hslot. specialize (λ k, Hslot k (a_kind a) i (mutation_for m (a_path a))).
  destruct (replace_slot (a_kind a) i (mutation_for m (a_path a))) as [old v]. cbn [fst snd] in *.
  assert (some old = false) as ->.
  { rewrite Hold. destruct (decide (a_kind a = UploadFile)) as [->|Hk]; [done|]. apply not_true_iff_false. intros Hs.
    apply (proj2 (Hnd (a_kind a) (a_path a) Hk) Hs 0). apply at_index_cons. by left. }
  cbn [bail_if]. rewrite bind_of_ok.
  destruct (IH (i + 1) (<[ a_path a := v ]> m)) as (m' & Hm' & Hspec).
  { intros k p Hk. destruct (Hnd k p Hk) as [Hone Hnone]. split.
    - intros x y Hx Hy. enough (x + 1 = y + 1) by lia. apply Hone; apply at_index_cons; right; rewrite (at_index_shift 1 0); done.
    - rewrite mutation_for_insert. intros Hs j Hj. case_decide as Hp.
      + subst p. rewrite Hslot in Hs. case_decide as Hkk.
        * destruct Hkk as [-> _]. enough (j + 1 = 0) by (destruct Hj as (? & ? & _ & -> & _); lia).
          apply Hone; apply at_index_cons; [right; by rewrite (at_index_shift 1 0)|by left].
        * apply (Hnone Hs (j + 1)). apply at_index_cons. right. by rewrite (at_index_shift 1 0).
      + apply (Hnone Hs (j + 1)). apply at_index_cons. right. by rewrite (at_index_shift 1 0). }
  exists m'. split; [done|]. intros k p Hk j. rewrite Hspec, mutation_for_insert by done.
  setoid_rewrite at_index_cons. destruct (Hnd k p Hk) as [Hone _].
  assert (Hex : ∀ x, a_kind a = k → a_path a = p → ¬ at_index (i + 1) acts k p x).
  { intros x Hka Hpa Hx. enough (x - i = 0) by (destruct Hx as (? & ? & _ & -> & _); lia).
    apply Hone; apply at_index_cons; [right|by left].
    rewrite <- (at_index_shift i). by replace (0 + 1 + i) with (i + 1) by lia; replace (x - i + i) with x by lia. }
  case_decide as Hp; [subst p; rewrite Hslot; case_decide as Hkk|].
  - destruct Hkk as [-> _]. split.
    + intros [Hj|[[= <-] _]]; [by left; right|by left; left].
    + intros [[(-> & _)|Hj]|[_ Hno]]; [|by left|].
      * right. split; [done|]. intros j'. by apply Hex.
      * exfalso. apply (Hno i). by left.
  - assert (a_kind a ≠ k) by (intros <-; by apply Hkk). naive_solver.
  - assert (a_path a ≠ p) by congruence. naive_solver.
Qed.

Section planned_mutations.
Context (local remote : Snapshot) (options : SyncOptions).
Hypothesis res : resolved local remote options.
Abbreviation todo k := (sorted_planned local remote options k).
Abbreviation plan := (the_plan local remote options).

Lemma NoDup_tagged k : NoDup ((λ a, (a_kind a, a_path a)) <$> todo k).
Proof.
  eapply (NoDup_fmap_1 snd). rewrite <- list_fmap_compose. apply NoDup_sorted_planned.
Qed.

Lemma NoDup_actions : NoDup ((λ a, (a_kind a, a_path a)) <$> actions plan).
Proof.
  cbn [actions the_plan]. rewrite !fmap_app.
  assert (Htag : ∀ k x, x ∈ (λ a, (a_kind a, a_path a)) <$> todo k → x.1 = k).
  { intros k x (a & -> & Ha)%list_elem_of_fmap. by eapply sorted_planned_kind. }
  apply NoDup_app. split_and!; [apply NoDup_tagged| |apply NoDup_app; split_and!;
    [apply NoDup_tagged| |apply NoDup_app; split_and!; [apply NoDup_tagged| |apply NoDup_tagged]]].
  - intros x Hx%Htag. rewrite !elem_of_app. intros [H|[H|H]]; apply Htag in H; congruence.
  - intros x Hx%Htag. rewrite !elem_of_app. intros [H|H]; apply Htag in H; congruence.
  - intros x Hx%Htag H. apply Htag in H. congruence.
Qed.

Lemma elem_of_actions a : a ∈ actions plan ↔ wanted local remote options a.
Proof.
  cbn [actions the_plan]. rewrite !elem_of_app, !elem_of_sorted_planned by done. destruct (a_kind a); naive_solver.
Qed.

Lemma at_index_unique k p i j : at_index 0 (actions plan) k p i → at_index 0 (actions plan) k p j → i = j.
Proof.
  intros (n & a & Hn & -> & Hka & Hpa) (n' & b & Hn' & -> & Hkb & Hpb). do 2 f_equal.
  apply (NoDup_lookup _ n n' (k, p) NoDup_actions); rewrite list_lookup_fmap.
  - rewrite Hn. cbn. by rewrite Hka, Hpa.
  - rewrite Hn'. cbn. by rewrite Hkb, Hpb.
Qed.

Lemma at_index_paths k p : (∃ j, at_index 0 (actions plan) k p j) ↔ p ∈ paths (todo k).
Proof.
  rewrite mem_paths by done. split.
  - intros (j & n & a & Hn%list_elem_of_lookup_2 & _ & Hk & Hp). exists a. by rewrite <- elem_of_actions.
  - intros (a & Hp & Hk & Ha%elem_of_actions). apply list_elem_of_lookup in Ha as [n Hn].
    exists (Z.of_nat n), n, a. split_and!; [done|lia|done..].
Qed.

(** Deletions come before creations. *)
Lemma at_index_order k p q i j :
  k = DeleteRemoteFile ∨ k = DeleteRemoteDirectory →
  at_index 0 (actions plan) k p i → at_index 0 (actions plan) CreateRemoteDirectory q j → i < j.
Proof.
  intros Hk (n & a & Hn & -> & Hka & _) (n' & b & Hn' & -> & Hkb & _).
  enough (n < n')%nat by lia. cbn [actions the_plan] in *. rewrite app_assoc in Hn, Hn'.
  set (dels := todo DeleteRemoteFile ++ todo DeleteRemoteDirectory) in *.
  assert (Hdel : ∀ x, x ∈ dels → a_kind x ≠ CreateRemoteDirectory).
  { intros x [Hx|Hx]%elem_of_app; apply sorted_planned_kind in Hx; try done; congruence. }
  assert (Hrest : ∀ x, x ∈ todo CreateRemoteDirectory ++ todo UploadFile → a_kind x ≠ k).
  { intros x [Hx|Hx]%elem_of_app; apply sorted_planned_kind in Hx; try done; destruct Hk; congruence. }
  assert (n < length dels)%nat.
  { apply not_ge. intros Hge. rewrite lookup_app_r in Hn by lia. apply list_elem_of_lookup_2 in Hn. by apply (Hrest a). }
  apply not_ge. intros Hge. rewrite lookup_app_l in Hn' by lia. apply list_elem_of_lookup_2 in Hn'. by apply (Hdel b).
Qed.

(** The mutations collected from the plan are those of its lists. *)
Lemma plan_mutations :
  ∃ m, collect_planned_mutations plan = Ok m ∧
    ∀ k p, k ≠ UploadFile → some (slot k (mutation_for m p)) = bool_decide (p ∈ paths (todo k)).
Proof.
  destruct (collect_mutations_spec (actions plan) 0 ∅) as (m & Hm & Hslot).
  { intros k p Hk. split; [intros i j; apply at_index_unique|]. by destruct k. }
  assert (Hslot' : ∀ k p j, k ≠ UploadFile → slot k (mutation_for m p) = Some j ↔ at_index 0 (actions plan) k p j).
  { intros k p j Hk. rewrite Hslot by done. split; [|by left]. intros [|[H _]]; [done|]. by destruct k. }
  exists m. split.
  - unfold collect_planned_mutations. rewrite Hm, bind_of_ok.
    assert (for_each check_mutation (btree_values m) = Ok tt) as ->; [|done].
    apply for_each_ok, Forall_forall. intros v (p & Hp)%elem_of_btree_values.
    assert (v = mutation_for m p) as -> by (unfold mutation_for; by rewrite Hp).
    pose proof (λ k, Hslot' k p) as Hs. unfold check_mutation, deletes_file, deletes_directory.
    pose proof (Hs DeleteRemoteFile) as H1. pose proof (Hs DeleteRemoteDirectory) as H2.
    pose proof (Hs CreateRemoteDirectory) as H3. cbn [slot] in H1, H2, H3. clear Hs.
    destruct (delete_file (mutation_for m p)) as [i|] eqn:Hf, (delete_directory (mutation_for m p)) as [j|] eqn:Hd;
      cbn [some andb bail_if option_or].
    + exfalso. pose proof (proj1 (H1 i ltac:(done)) eq_refl) as Hi. pose proof (proj1 (H2 j ltac:(done)) eq_refl) as Hj.
      assert (p ∈ paths (todo DeleteRemoteFile)) as Hp1 by (apply at_index_paths; eauto).
      assert (p ∈ paths (todo DeleteRemoteDirectory)) as Hp2 by (apply at_index_paths; eauto).
      apply mem_delete_file in Hp1 as (_ & r & [Hr _] & Hk); [|done].
      apply mem_delete_directory in Hp2 as (_ & r' & [Hr' _] & Hk'); [|done]. congruence.
    + rewrite bind_of_ok. destruct (create_directory (mutation_for m p)) as [c|]; [|done]. apply bail_if_ok, Z.leb_gt.
      apply (at_index_order DeleteRemoteFile p p); [by left|by apply H1|by apply H3].
    + rewrite bind_of_ok. destruct (create_directory (mutation_for m p)) as [c|]; [|done]. apply bail_if_ok, Z.leb_gt.
      apply (at_index_order DeleteRemoteDirectory p p); [by right|by apply H2|by apply H3].
    + rewrite bind_of_ok. by destruct (create_directory (mutation_for m p)).
  - intros k p Hk. apply eq_iff_eq_true. rewrite bool_decide_eq_true, <- at_index_paths.
    setoid_rewrite <- (λ j, Hslot' k p j Hk). destruct (slot k (mutation_for m p)); cbn; [split; eauto|].
    split; [done|by intros []].
Qed.
End planned_mutations.

(** ** The server and its snapshot *)
Definition entry_of (a : Attrs) : SnapshotEntry :=
  mk_entry (match at_kind a with KDirectory => Directory | KRegular => File | _ => Other end) (at_len a) (at_mtime a).

Section scanned.
Context {S : Type} `{SftpLaws S}.

(** The place of a relative path below the root. *)
Definition under (root path : str) : loc := (absolute root, walk root ++ split slash path).

(** The root is a directory the server reaches without links. *)
Definition root_ok (root : str) (s : S) : Prop := plain root ∧ 0 ∉ root ∧ is_directory (node s) (loc_of root).

(** [snapshot] is what lies below the root. *)
Definition scanned (root : str) (s : S) (snapshot : Snapshot) : Prop :=
  ∀ path, safe_path path → snapshot !! path = entry_of <$> node s (under root path).

Lemma loc_of_under root path : safe_path path → loc_of (join_remote root path) = under root path.
Proof. intros Hsafe. unfold loc_of, under. by destruct (join_remote_walk root path Hsafe) as (-> & -> & _). Qed.

Lemma plain_under root path : plain root → safe_path path → plain (join_remote root path).
Proof.
  rewrite !plain_walk. intros Hroot Hsafe. destruct (join_remote_walk root path Hsafe) as (-> & _ & _).
  rewrite elem_of_app. intros [?|Hin]; [done|]. unfold safe_path in Hsafe. rewrite Forall_forall in Hsafe.
  by destruct (Hsafe _ Hin).
Qed.

Lemma parents_snoc s b ws w : is_directory (node s) (b, ws) → parents_ok (node s) (b, ws ++ [w]).
Proof.
  intros Hd vs us Heq Hus. cbn [fst snd] in *.
  apply prefix_snoc in Heq as [[-> _]|(ks & -> & ->)]; [done|].
  destruct ks as [|x ks]; [by rewrite app_nil_r in Hd|]. destruct Hd as (a & Ha & _).
  by apply (node_tree s _ _ Ha vs (x :: ks)).
Qed.

Lemma directory_entry root s m path :
  scanned root s m → safe_path path → is_dir m path = true ↔ is_directory (node s) (under root path).
Proof.
  intros Hm Hsafe. rewrite is_dir_spec, Hm by done. unfold is_directory, entry_of. split.
  - intros (e & (a & Ha & ->)%fmap_Some & Hk). exists a. split; [done|]. cbn in Hk. by destruct (at_kind a).
  - intros (a & -> & Hk). eexists. split; [done|]. cbn. by rewrite Hk.
Qed.

(** The prefix that the loop over components extends. *)
Definition extend (prefix component : str) : str :=
  if bool_decide (prefix = []) then component else prefix ++ slash :: component.

Lemma split_extend prefix w :
  slash ∉ w → split slash (extend prefix w) = (if bool_decide (prefix = []) then [] else split slash prefix) ++ [w].
Proof.
  intros Hs. assert (split slash w = [w]) as Hw.
  { unfold split. apply split_on_none, Forall_forall. intros x Hx. apply Z.eqb_neq. intros <-. exact (Hs Hx). }
  unfold extend. case_bool_decide; [done|]. by rewrite split_snoc_sep, Hw.
Qed.

(** The parent of an extended prefix is a directory on the server. *)
Definition reached (root prefix : str) (s : S) : Prop :=
  if bool_decide (prefix = []) then is_directory (node s) (loc_of root)
  else is_directory (node s) (under root prefix).

Lemma extend_parents root prefix w s :
  slash ∉ w → reached root prefix s → parents_ok (node s) (under root (extend prefix w)).
Proof.
  intros Hs. unfold reached, under, loc_of. rewrite split_extend by done.
  case_bool_decide; intros Hd; [by apply parents_snoc|]. rewrite app_assoc. by apply parents_snoc.
Qed.

Lemma node_kind_at root path s :
  plain root → safe_path path → parents_ok (node s) (under root path) →
  remote_node_kind_if_exists (join_remote root path) s =
  Ok ((λ a, match at_kind a with KSymlink => NodeSymlink | KDirectory => NodeDirectory | _ => NodeOther end)
      <$> node s (under root path)).
Proof.
  intros Hroot Hsafe Hpar. unfold remote_node_kind_if_exists.
  rewrite lstat_law, loc_of_under by (done || by rewrite ?loc_of_under || by apply plain_under).
  by destruct (node s (under root path)).
Qed.
End scanned.

(** ** The walk to an upload *)
Section walk_to_upload.
Context {S : Type} `{SftpLaws S}.
Context (local remote : Snapshot) (options : SyncOptions) (root : str) (s : S) (mutations : gmap str PlannedMutation).
Hypothesis local_tree : tree_ok local.
Hypothesis remote_tree : tree_ok remote.
Hypothesis res : resolved local remote options.
Hypothesis root_plain : plain root.
Hypothesis view : scanned root s remote.
Abbreviation todo k := (sorted_planned local remote options k).
Hypothesis mutations_spec :
  ∀ k p, k ≠ UploadFile → some (slot k (mutation_for mutations p)) = bool_decide (p ∈ paths (todo k)).

Lemma deletes_file_spec p : deletes_file (mutation_for mutations p) = bool_decide (p ∈ paths (todo DeleteRemoteFile)).
Proof. by apply (mutations_spec DeleteRemoteFile). Qed.
Lemma deletes_directory_spec p :
  deletes_directory (mutation_for mutations p) = bool_decide (p ∈ paths (todo DeleteRemoteDirectory)).
Proof. by apply (mutations_spec DeleteRemoteDirectory). Qed.
Lemma creates_directory_spec p :
  creates_directory (mutation_for mutations p) = bool_decide (p ∈ paths (todo CreateRemoteDirectory)).
Proof. by apply (mutations_spec CreateRemoteDirectory). Qed.
Lemma has_delete_spec p :
  has_delete (mutation_for mutations p) = deletes_file (mutation_for mutations p) || deletes_directory (mutation_for mutations p).
Proof. done. Qed.

(** What is not there is not deleted; neither is what has its local kind. *)
Lemma absent_not_deleted p : remote !! p = None → has_delete (mutation_for mutations p) = false.
Proof.
  intros Hp. rewrite has_delete_spec, deletes_file_spec, deletes_directory_spec, orb_false_iff, !bool_decide_eq_false.
  rewrite mem_delete_file, mem_delete_directory by done.
  split; intros (_ & r & [Hr _] & _); congruence.
Qed.

Lemma same_kind_not_deleted p e r :
  local !! p = Some e → remote !! p = Some r → e_kind r = e_kind e → has_delete (mutation_for mutations p) = false.
Proof.
  intros He Hr Hk. rewrite has_delete_spec, deletes_file_spec, deletes_directory_spec, orb_false_iff, !bool_decide_eq_false.
  rewrite mem_delete_file, mem_delete_directory by done.
  split; intros (_ & r' & [Hr' Hl] & _); apply (Hl e He); congruence.
Qed.

Lemma conflict_deleted p e r :
  local !! p = Some e → remote !! p = Some r → e_kind r ≠ e_kind e →
  deletes_file (mutation_for mutations p) = bool_decide (e_kind r ≠ Directory) ∧
  deletes_directory (mutation_for mutations p) = bool_decide (e_kind r = Directory).
Proof.
  intros He Hr Hne. rewrite deletes_file_spec, deletes_directory_spec.
  assert (opt_delete options = true) as Hd by (destruct res as [|Hres]; [done|]; destruct (Hres p); by exists e, r).
  split; apply bool_decide_ext; rewrite ?mem_delete_file, ?mem_delete_directory by done; split.
  - intros (_ & r' & [Hr' _] & Hk). congruence.
  - intros Hk. split; [done|]. exists r. split; [|done]. split; [done|]. congruence.
  - intros (_ & r' & [Hr' _] & Hk). congruence.
  - intros Hk. split; [done|]. exists r. split; [|done]. split; [done|]. congruence.
Qed.

Lemma created_directory p e :
  local !! p = Some e → e_kind e = Directory → (∀ r, remote !! p = Some r → e_kind r ≠ Directory) →
  creates_directory (mutation_for mutations p) = true.
Proof.
  intros He Hk Hr. rewrite creates_directory_spec. apply bool_decide_eq_true_2, mem_create; [done|].
  exists e. split; [|done]. split; [done|]. intros r Hr'. left. rewrite Hk. by apply Hr.
Qed.

Lemma file_not_created p e :
  local !! p = Some e → e_kind e = File → creates_directory (mutation_for mutations p) = false.
Proof.
  intros He Hk. rewrite creates_directory_spec. apply bool_decide_eq_false_2. rewrite mem_create by done.
  intros (e' & [He' _] & Hk'). congruence.
Qed.

(** The verdict on the last component. *)
Lemma final_verdict path e :
  safe_path path → local !! path = Some e → e_kind e = File →
  is_ok (validate_final_upload_destination
    ((λ a, match at_kind a with KSymlink => NodeSymlink | KDirectory => NodeDirectory | _ => NodeOther end)
     <$> node s (under root path)) (mutation_for mutations path)) = true ↔
  ∀ r, remote !! path = Some r → e_kind r ≠ File.
Proof.
  intros Hsafe He Hk. unfold validate_final_upload_destination. rewrite (file_not_created path e) by done.
  cbn [bail_if]. rewrite bind_of_ok. pose proof (view path Hsafe) as Hview.
  destruct (node s (under root path)) as [a|]; cbn [fmap option_fmap option_map] in *.
  - assert (Hsame : e_kind (entry_of a) = File → has_delete (mutation_for mutations path) = false).
    { intros Hf. eapply same_kind_not_deleted; [exact He|exact Hview|congruence]. }
    rewrite has_delete_spec in Hsame.
    assert (Hdiff : e_kind (entry_of a) ≠ File →
      deletes_file (mutation_for mutations path) = bool_decide (e_kind (entry_of a) ≠ Directory) ∧
      deletes_directory (mutation_for mutations path) = bool_decide (e_kind (entry_of a) = Directory)).
    { intros Hf. eapply conflict_deleted; [exact He|exact Hview|congruence]. }
    rewrite Hview. unfold entry_of in *. cbn [e_kind] in *.
    destruct (at_kind a); [|  |specialize (Hsame eq_refl); apply orb_false_iff in Hsame as [-> ->]|];
      try (destruct Hdiff as [-> ->]; [done|]); cbn; split; intros Hx; try done; try (intros r [= <-]; done);
      by specialize (Hx _ eq_refl).
  - rewrite absent_not_deleted by done. split; [|done]. intros _ r Hr. congruence.
Qed.

Definition path_from (prefix : str) (components : list str) : str :=
  if bool_decide (prefix = []) then join_with slash components else prefix ++ slash :: join_with slash components.

Lemma path_from_step prefix w ws : w ≠ [] → ws ≠ [] → path_from prefix (w :: ws) = path_from (extend prefix w) ws.
Proof.
  intros Hw Hws. unfold path_from, extend. rewrite join_with_cons by done.
  case_bool_decide; [by rewrite bool_decide_eq_false_2|].
  rewrite bool_decide_eq_false_2 by by destruct prefix. by rewrite <- app_assoc.
Qed.

Lemma path_from_last prefix w : path_from prefix [w] = extend prefix w.
Proof. done. Qed.

Lemma extend_nonempty prefix w : w ≠ [] → extend prefix w ≠ [].
Proof. intros Hw. unfold extend. case_bool_decide; [done|]. by destruct prefix. Qed.

Lemma extend_ancestor prefix w ws :
  w ≠ [] → ws ≠ [] → extend prefix w ∈ ancestors (path_from prefix (w :: ws)).
Proof.
  intros Hw Hws. rewrite path_from_step by done. apply elem_of_ancestors. unfold path_from.
  rewrite bool_decide_eq_false_2 by by apply extend_nonempty. eauto.
Qed.

Lemma extend_safe prefix w : prefix = [] ∨ safe_path prefix → safe_name w → safe_path (extend prefix w).
Proof.
  intros Hp Hw. unfold safe_path. rewrite split_extend by by destruct Hw. apply Forall_app. split; [|by constructor].
  case_bool_decide; [done|]. by destruct Hp.
Qed.

(** Below something that is no remote directory. *)
Definition beneath_fresh (prefix : str) : Prop :=
  prefix ≠ [] ∧ ∃ q, is_dir remote q = false ∧ (prefix = q ∨ q ∈ ancestors prefix).

Lemma beneath_fresh_extend prefix w : beneath_fresh prefix → w ≠ [] → beneath_fresh (extend prefix w) ∧ remote !! extend prefix w = None.
Proof.
  intros (Hne & q & Hq & Hin) Hw. assert (q ∈ ancestors (extend prefix w)) as Hanc.
  { unfold extend. rewrite bool_decide_eq_false_2 by done. apply elem_of_ancestors.
    destruct Hin as [->|[b ->]%elem_of_ancestors]; [by exists w|]. exists (b ++ slash :: w). by rewrite <- app_assoc. }
  split.
  - split; [by apply extend_nonempty|]. exists q. split; [done|by right].
  - destruct (remote !! extend prefix w) as [r|] eqn:Hr; [|done]. exfalso.
    destruct (remote_tree _ _ Hr) as [_ Hd]. specialize (Hd q Hanc). congruence.
Qed.

Lemma preflight_components_spec components prefix (fresh : bool) e :
  components ≠ [] → Forall safe_name components → prefix = [] ∨ safe_path prefix →
  local !! path_from prefix components = Some e → e_kind e = File →
  (if fresh then beneath_fresh prefix else reached root prefix s) →
  is_ok (preflight_components root mutations prefix fresh components s) = true ↔
  ∀ r, remote !! path_from prefix components = Some r → e_kind r ≠ File.
Proof.
  revert prefix fresh. induction components as [|w ws IH]; intros prefix fresh Hne Hall Hprefix He Hk Hst; [done|].
  apply Forall_cons in Hall as [Hw Hall]. pose proof Hw as [Hw0 _ _ Hslash _ _ _ _ _].
  pose proof (extend_safe prefix w Hprefix Hw) as Hsafe. cbn [preflight_components].
  change (if bool_decide (prefix = []) then w else prefix ++ slash :: w) with (extend prefix w).
  destruct (decide (ws = [])) as [->|Hws].
  - rewrite bool_decide_eq_true_2 by done. rewrite path_from_last in *. destruct fresh.
    + destruct (beneath_fresh_extend prefix w Hst Hw0) as [_ Hnone]. unfold validate_upload_beneath_fresh_ancestor.
      rewrite absent_not_deleted by done. rewrite (file_not_created _ e) by done. split; [|done]. intros _ r Hr. congruence.
    + rewrite join_remote_under_root_safe, bind_of_ok by done.
      rewrite node_kind_at, bind_of_ok by (done || by apply extend_parents). by apply (final_verdict _ e).
  - rewrite bool_decide_eq_false_2 by done. pose proof (extend_ancestor prefix w ws Hw0 Hws) as Hanc.
    destruct (local_tree _ _ He) as [_ Hdirs]. specialize (Hdirs _ Hanc).
    apply is_dir_spec in Hdirs as (d & Hd & Hdk). rewrite path_from_step in * by done. destruct fresh.
    + destruct (beneath_fresh_extend prefix w Hst Hw0) as [Hfresh Hnone]. unfold validate_parent_beneath_fresh_ancestor.
      rewrite absent_not_deleted by done. cbn [bail_if]. rewrite bind_of_ok. apply IH; auto.
    + rewrite join_remote_under_root_safe, bind_of_ok by done.
      rewrite node_kind_at, bind_of_ok by (done || by apply extend_parents).
      pose proof (view (extend prefix w) Hsafe) as Hview. pose proof (directory_entry root s remote _ view Hsafe) as Hdir.
      assert (Hblocked : is_dir remote (extend prefix w) = false → beneath_fresh (extend prefix w)).
      { intros Hno. split; [by apply extend_nonempty|]. exists (extend prefix w). auto. }
      assert (Hreach : is_dir remote (extend prefix w) = true → reached root (extend prefix w) s).
      { intros Hyes. unfold reached. rewrite bool_decide_eq_false_2 by by apply extend_nonempty. by apply Hdir. }
      unfold is_dir in Hblocked, Hreach. rewrite Hview in Hblocked, Hreach.
      destruct (node s (under root (extend prefix w))) as [a|] eqn:Hnode; cbn [fmap option_fmap option_map] in *.
      * assert (Hconf : e_kind (entry_of a) ≠ Directory →
          deletes_file (mutation_for mutations (extend prefix w)) = true ∧
          deletes_directory (mutation_for mutations (extend prefix w)) = false ∧
          creates_directory (mutation_for mutations (extend prefix w)) = true).
        { intros Hx. destruct (conflict_deleted _ d _ Hd Hview) as [-> ->]; [congruence|].
          rewrite (bool_decide_eq_true_2 (e_kind (entry_of a) ≠ Directory)), (bool_decide_eq_false_2 (e_kind (entry_of a) = Directory)) by done.
          split_and!; [done..|]. apply (created_directory _ d); [done..|]. intros r Hr. congruence. }
        assert (Hsame : e_kind (entry_of a) = Directory → has_delete (mutation_for mutations (extend prefix w)) = false).
        { intros Hx. eapply same_kind_not_deleted; [exact Hd|exact Hview|congruence]. }
        unfold entry_of in *. cbn [e_kind] in *.
        destruct (at_kind a); try (destruct Hconf as (-> & -> & ->); [done|]; apply IH; auto).
        rewrite (Hsame eq_refl). cbn [bail_if]. rewrite bind_of_ok. apply IH; auto.
      * rewrite absent_not_deleted by done. cbn [bail_if]. rewrite bind_of_ok. apply IH; auto.
Qed.
End walk_to_upload.

(** ** The verdict *)
Section verdict.
Context {S : Type} `{SftpLaws S}.

Lemma root_exists_loop_spec segments current s :
  Forall (λ w, w ≠ [] ∧ w ≠ dotdot ∧ slash ∉ w) segments → dotdot ∉ walk current →
  is_directory (node s) (absolute current, walk current ++ filter (λ w, w ≠ dot) segments) →
  root_exists_loop current segments s = Ok true.
Proof.
  revert current. induction segments as [|w segments IH]; intros current Hall Hplain Hdir; [done|].
  apply Forall_cons in Hall as [(Hne & Hdd & Hs) Hall]. cbn [root_exists_loop].
  case_bool_decide as Hdot; [rewrite filter_cons_False in Hdir by (by intros []); by apply IH|].
  rewrite filter_cons_True in Hdir by done. rewrite (bool_decide_eq_false_2 (w = dotdot)) by done.
  assert (name_ok w) as Hw by done. pose proof (loc_of_join current w Hw) as Hloc.
  set (current' := join_remote current w) in *. unfold loc_of in Hloc. injection Hloc as Habs Hwalk.
  assert (dotdot ∉ walk current') as Hplain'.
  { rewrite Hwalk, elem_of_app, list_elem_of_singleton. intros [?|?]; [done|by subst w]. }
  rewrite (cons_middle w), app_assoc, <- Hwalk, <- Habs in Hdir.
  assert (is_directory (node s) (loc_of current')) as (a & Ha & Hka).
  { destruct (filter (λ w, w ≠ dot) segments) as [|x l] eqn:Hf.
    - by rewrite app_nil_r in Hdir.
    - destruct Hdir as (a & Ha & _). by apply (node_tree s _ _ Ha (walk current') (x :: l)). }
  unfold remote_node_kind_if_exists. rewrite lstat_law; [|by apply plain_walk|by eapply node_tree].
  rewrite Ha, Hka, bind_of_ok. by apply IH.
Qed.

Lemma root_exists root s : root_ok root s → remote_root_exists_without_symlinks root s = Ok true.
Proof.
  intros (Hplain & Hnul & Hdir). unfold remote_root_exists_without_symlinks.
  destruct (_ || _); [done|]. rewrite (proj2 (contains_char_spec root 0) Hnul). cbn [bail_if]. rewrite bind_of_ok.
  apply root_exists_loop_spec.
  - apply Forall_forall. intros w [Hne Hin]%list_elem_of_filter. split_and!; [done| |by apply (split_pieces slash root)].
    intros ->. by apply Hplain.
  - destruct (absolute root); apply not_elem_of_nil.
  - rewrite filter_segments. destruct Hdir as (a & Ha & Hk). exists a. split; [|done]. rewrite <- Ha. f_equal.
    unfold loc_of. by destruct (absolute root).
Qed.

(** The first missing directory ends the search. *)
Lemma root_absent_loop segments current s :
  Forall (λ w, w ≠ [] ∧ w ≠ dotdot ∧ slash ∉ w) segments → dotdot ∉ walk current →
  is_directory (node s) (absolute current, walk current) →
  (∀ ws us a, filter (λ w, w ≠ dot) segments = ws ++ us → node s (absolute current, walk current ++ ws) = Some a →
     at_kind a = KDirectory) →
  node s (absolute current, walk current ++ filter (λ w, w ≠ dot) segments) = None →
  root_exists_loop current segments s = Ok false.
Proof.
  revert current. induction segments as [|w segments IH]; intros current Hall Hplain Hdir Hclear Hnone.
  { destruct Hdir as (a & Ha & _). cbn in Hnone. rewrite app_nil_r in Hnone. congruence. }
  apply Forall_cons in Hall as [(Hne & Hdd & Hs) Hall]. cbn [root_exists_loop].
  case_bool_decide as Hdot; [rewrite filter_cons_False in Hclear, Hnone by (by intros []); by apply IH|].
  rewrite filter_cons_True in Hclear, Hnone by done. rewrite (bool_decide_eq_false_2 (w = dotdot)) by done.
  assert (name_ok w) as Hw by done. pose proof (loc_of_join current w Hw) as Hloc.
  set (current' := join_remote current w) in *.
  assert (parents_ok (node s) (loc_of current')) as Hpar by (rewrite Hloc; by apply parents_snoc).
  unfold loc_of in Hloc. injection Hloc as Habs Hwalk.
  assert (dotdot ∉ walk current') as Hplain'.
  { rewrite Hwalk, elem_of_app, list_elem_of_singleton. intros [?|?]; [done|by subst w]. }
  unfold remote_node_kind_if_exists. rewrite lstat_law by (done || by apply plain_walk).
  destruct (node s (loc_of current')) as [a|] eqn:Ha; [|done].
  assert (at_kind a = KDirectory) as Hk.
  { apply (Hclear [w] (filter (λ w, w ≠ dot) segments)); [done|]. rewrite <- Habs, <- Hwalk. exact Ha. }
  rewrite Hk, bind_of_ok. apply IH; [done..|by exists a| |].
  - intros ws us b Heq Hb. apply (Hclear (w :: ws) us b); [by rewrite Heq|].
    rewrite <- Habs, (cons_middle w), app_assoc, <- Hwalk. exact Hb.
  - rewrite Habs, Hwalk, <- app_assoc. exact Hnone.
Qed.

(** The root is not there, but could be created. *)
Definition root_missing (root : str) (s : S) : Prop :=
  plain root ∧ 0 ∉ root ∧ node s (loc_of root) = None ∧ ¬ blocked s (loc_of root).

Lemma root_absent root s : root_missing root s → remote_root_exists_without_symlinks root s = Ok false.
Proof.
  intros (Hplain & Hnul & Hnone & Hclear). unfold remote_root_exists_without_symlinks.
  destruct (bool_decide (root = []) || bool_decide (root = dot) || bool_decide (root = [slash])) eqn:Htriv.
  { exfalso. assert (loc_of root = (absolute root, [])) as Hloc.
    { rewrite !orb_true_iff, !bool_decide_eq_true in Htriv. by destruct Htriv as [[-> | ->]| ->]. }
    destruct (node_root s (absolute root)) as (a & Ha & _). rewrite Hloc in Hnone. congruence. }
  rewrite (proj2 (contains_char_spec root 0) Hnul). cbn [bail_if]. rewrite bind_of_ok.
  assert (absolute (if absolute root then [slash] else []) = absolute root) as Habs by by destruct (absolute root).
  assert (walk (if absolute root then [slash] else []) = []) as Hw by by destruct (absolute root).
  apply root_absent_loop; rewrite ?Habs, ?Hw, ?filter_segments.
  - apply Forall_forall. intros w [Hne Hin]%list_elem_of_filter. split_and!; [done| |by apply (split_pieces slash root)].
    intros ->. by apply Hplain.
  - apply not_elem_of_nil.
  - apply node_root.
  - intros ws us a Heq Ha. apply dec_stable. intros Hk. apply Hclear. by exists ws, us, a.
  - exact Hnone.
Qed.

Lemma for_each_is_ok {A} (f : A → result unit) l :
  is_ok (for_each f l) = true ↔ ∀ x, x ∈ l → is_ok (f x) = true.
Proof.
  assert (Hunit : ∀ r : result unit, is_ok r = true ↔ r = Ok tt) by (intros [[]|]; done).
  rewrite Hunit, for_each_ok, Forall_forall. by setoid_rewrite Hunit.
Qed.

Lemma preflight_spec local remote options root plan s :
  tree_ok local → tree_ok remote → map_Forall (λ _ e, e_kind e ≠ Other ∧ 0 ≤ e_len e) local →
  build_push_plan local remote options = Ok plan →
  (root_ok root s ∧ scanned root s remote) ∨
  (remote_root_exists_without_symlinks root s = Ok false ∧ remote = ∅) →
  is_ok (preflight_atomic_sync root plan s) = true ↔ no_overwrite local remote options.
Proof.
  intros Hl Hr Hkinds Hbuild Hroot.
  apply build_push_plan_ok in Hbuild as (Hres & _ & ->); [|by intros p e [_ ?]%Hkinds].
  destruct (plan_mutations local remote options Hres) as (m & Hm & Hslots).
  unfold preflight_atomic_sync. rewrite Hm, bind_of_ok.
  destruct (plan_filters local remote options Hres) as [_ Hups]. rewrite Hups. clear Hups.
  destruct Hroot as [[Hroot Hview]|[-> ->]].
  - rewrite (root_exists root s Hroot), bind_of_ok. cbn [negb]. rewrite for_each_is_ok.
    assert (Hone : ∀ a, a ∈ sorted_planned local remote options UploadFile →
      is_ok (preflight_atomic_upload_path root (a_path a) m s) = true ↔
      ∀ r, remote !! a_path a = Some r → e_kind r ≠ File).
    { intros a Ha. assert (a_path a ∈ paths (sorted_planned local remote options UploadFile)) as Hp
        by by apply list_elem_of_fmap_2.
      apply mem_upload in Hp as (e & [He _] & Hk); [|done]. destruct (Hl _ _ He) as [Hsafe _].
      unfold preflight_atomic_upload_path. rewrite (proj2 (validate_relative_safe _) Hsafe), bind_of_ok.
      assert (path_from [] (split slash (a_path a)) = a_path a) as Hpath by apply join_split.
      pose proof (preflight_components_spec local remote options root s m Hl Hr Hres (proj1 Hroot) Hview Hslots
        (split slash (a_path a)) [] false e (split_nonempty _ _) Hsafe (or_introl eq_refl)) as Hspec.
      rewrite Hpath in Hspec. apply Hspec; [done|done|]. unfold reached. by destruct Hroot as (_ & _ & ?). }
    split.
    + intros Hall p e r He Hre Hke Hkr. apply not_false_iff_true. intros Hfm.
      assert (p ∈ paths (sorted_planned local remote options UploadFile)) as (a & -> & Ha)%list_elem_of_fmap.
      { apply mem_upload; [done|]. exists e. split; [|done]. split; [done|]. intros r' Hr'. right.
        split; [done|]. congruence. }
      apply (proj1 (Hone a Ha) (Hall a Ha) r Hre Hkr).
    + intros Hno a Ha. apply Hone; [done|]. intros r Hre Hkr.
      assert (a_path a ∈ paths (sorted_planned local remote options UploadFile)) as Hp by by apply list_elem_of_fmap_2.
      apply mem_upload in Hp as (e & [He Hc] & Hk); [|done]. destruct (Hc r Hre) as [Hne|[_ Hfm]]; [congruence|].
      rewrite (Hno _ _ _ He Hre Hk Hkr) in Hfm. done.
  - rewrite bind_of_ok. cbn [negb].
    assert (Hdel : ∀ p, has_delete (mutation_for m p) = false).
    { intros p. eapply absent_not_deleted; [exact Hres|exact Hslots|apply lookup_empty]. }
    assert (existsb (λ a, bool_decide (a_kind a = DeleteRemoteFile) || bool_decide (a_kind a = DeleteRemoteDirectory))
      (actions (the_plan local ∅ options)) = false) as ->.
    { apply existsb_false, Forall_forall. intros a Ha%elem_of_actions; [|done]. unfold wanted, removed in Ha.
      destruct (a_kind a); try done; destruct Ha as (_ & r & [Hr' _] & _); by rewrite lookup_empty in Hr'. }
    cbn [bail_if]. rewrite bind_of_ok, for_each_is_ok. split; [intros _ p e r _ Hr'; by rewrite lookup_empty in Hr'|].
    intros _ a Ha. unfold validate_upload_beneath_fresh_ancestor. rewrite Hdel.
    assert (a_path a ∈ paths (sorted_planned local ∅ options UploadFile)) as Hp by by apply list_elem_of_fmap_2.
    apply mem_upload in Hp as (e & [He _] & Hk); [|done].
    by rewrite (file_not_created local ∅ options m Hres Hslots _ e He Hk).
Qed.

(** The atomic preflight.  For a plan just built from the two snapshots, and
    a server that is still as scanned (or has no remote root), the checks pass
    exactly when no upload would overwrite a remote regular file: kind conflicts
    are fine, because the plan deletes the old entry first. *)
Theorem preflight_exact local remote options root plan s :
  tree_ok local → tree_ok remote → map_Forall (λ _ e, e_kind e ≠ Other ∧ 0 ≤ e_len e) local →
  build_push_plan local remote options = Ok plan →
  (root_ok root s ∧ scanned root s remote) ∨
  (remote_root_exists_without_symlinks root s = Ok false ∧ remote = ∅) →
  is_ok (preflight_atomic_sync root plan s) = true ↔ no_overwrite local remote options.
Proof. exact (preflight_spec local remote options root plan s). Qed.
End verdict.

(** Prefixes of the components of a safe path are its ancestors. *)
Lemma ancestor_split p ks us :
  safe_path p → split slash p = ks ++ us → ks ≠ [] → us ≠ [] →
  join_with slash ks ∈ ancestors p ∧ safe_path (join_with slash ks) ∧ split slash (join_with slash ks) = ks.
Proof.
  intros Hsafe Hsplit Hks Hus. unfold safe_path in *. rewrite Hsplit in Hsafe. apply Forall_app in Hsafe as [Hk Hu].
  assert (Hns : ∀ ws, Forall safe_name ws → Forall (λ w, slash ∉ w) ws).
  { intros ws Hws. eapply Forall_impl; [exact Hws|]. by intros w []. }
  assert (split slash (join_with slash ks) = ks) as Heq by (apply split_join; auto).
  rewrite Heq. split_and!; [|done..]. apply elem_of_ancestors. exists (join_with slash us).
  apply (split_inj slash). rewrite split_snoc_sep, Heq, (split_join slash us) by auto. done.
Qed.

(** ** Examples *)
Module Examples.
Import Model SyncConverge.Examples.

(** [remote0] below [/srv]. *)
Definition attrs_of (e : SnapshotEntry) : Attrs :=
  mk_attrs (match e_kind e with Directory => KDirectory | File => KRegular | Other => KSymlink end) (e_len e) (e_mtime e).
Definition server_of (root : list str) (snapshot : Snapshot) : tree :=
  <[ (true, root) := directory_attrs ]>
  (list_to_map ((λ '(p, e), ((true, root ++ split slash p), attrs_of e)) <$> map_to_list snapshot)).

(** The server shows exactly the snapshot it was made of. *)
Lemma entry_attrs e : entry_of (attrs_of e) = e.
Proof. destruct e as [[] l t]; done. Qed.

Definition place_of (w : str) (p : str) : loc := (true, w :: split slash p).

Lemma place_inj w : Inj (=) (=) (place_of w).
Proof. intros p q [= Heq]. by apply (split_inj slash). Qed.

Lemma server_lookup w m ws a :
  ws ≠ [] → server_of [w] m !! (true, w :: ws) = Some a ↔ ∃ p e, m !! p = Some e ∧ ws = split slash p ∧ a = attrs_of e.
Proof.
  intros Hws. unfold server_of. rewrite lookup_insert_ne by (intros [= Heq]; done).
  set (l := (λ '(p, e), ((true, [w] ++ split slash p), attrs_of e)) <$> map_to_list m).
  assert (l.*1 = place_of w <$> (map_to_list m).*1) as Hfst.
  { unfold l. rewrite <- !list_fmap_compose. apply list_fmap_ext. by intros _ [p e] _. }
  rewrite <- elem_of_list_to_map.
  - unfold l. rewrite list_elem_of_fmap. split.
    + intros ([p e] & [= -> ->] & Hp%elem_of_map_to_list). eauto.
    + intros (p & e & Hp & -> & ->). exists (p, e). by rewrite elem_of_map_to_list.
  - rewrite Hfst. apply NoDup_fmap_2; [apply place_inj|]. apply NoDup_fst_map_to_list.
Qed.

Lemma server_root w m : server_of [w] m !! (true, [w]) = Some directory_attrs.
Proof. apply lookup_insert_eq. Qed.

Lemma server_node w m p :
  tree_ok m → safe_path p → lookup_node (server_of [w] m) (place_of w p) = attrs_of <$> m !! p.
Proof.
  intros Htree Hsafe. pose proof (split_nonempty slash p) as Hne. unfold place_of. rewrite lookup_node_below by done.
  destruct (m !! p) as [e|] eqn:Hp; cbn [fmap option_fmap option_map].
  - assert (raw_parents (server_of [w] m) (true, w :: split slash p) = true) as ->.
    { apply raw_parents_spec. cbn [fst snd]. intros ws us Heq Hus Hws. apply raw_directory_spec.
      destruct ws as [|x ks]; [done|]. injection Heq as <- Heq.
      destruct (decide (ks = [])) as [->|Hks]; [exists directory_attrs; split; [apply server_root|done]|].
      destruct (Htree p e Hp) as [_ Hdirs].
      assert (safe_path (join_with slash ks) ∧ split slash (join_with slash ks) = ks ∧ join_with slash ks ∈ ancestors p)
        as (_ & Hsp & Hanc) by (destruct (ancestor_split p ks us) as (? & ? & ?); done).
      specialize (Hdirs _ Hanc). apply is_dir_spec in Hdirs as (d & Hd & Hk). exists (attrs_of d). split.
      - apply server_lookup; [done|]. by exists (join_with slash ks), d.
      - unfold attrs_of. by rewrite Hk. }
    apply server_lookup; [done|]. eauto.
  - destruct (raw_parents _ _); [|done]. apply eq_None_not_Some. intros [a Ha].
    apply server_lookup in Ha as (q & e & Hq & Heq & _); [|done]. apply split_inj in Heq as ->. congruence.
Qed.

Lemma server_names w m ws a :
  tree_ok m → ws ≠ [] → lookup_node (server_of [w] m) (true, w :: ws) = Some a → Forall safe_name ws.
Proof.
  intros Htree Hws. rewrite lookup_node_below by done. destruct (raw_parents _ _); [|done].
  intros (p & e & Hp & -> & _)%server_lookup; [|done]. by destruct (Htree p e Hp).
Qed.

Definition server1 : tree := server_of [lit "srv"] remote0.

Example server1_passes : is_ok (preflight_atomic_sync (lit "/srv") plan0 server1) = true.
Proof. vm_compute. reflexivity. Qed.

Lemma server1_scanned :
  root_ok (lit "/srv") server1 ∧ scanned (lit "/srv") server1 remote0 ∧
  ∀ ws a, ws ≠ [] → node server1 (absolute (lit "/srv"), walk (lit "/srv") ++ ws) = Some a → Forall safe_name ws.
Proof.
  assert (absolute (lit "/srv") = true) as Habs by (vm_compute; reflexivity).
  assert (walk (lit "/srv") = [lit "srv"]) as Hwalk by (vm_compute; reflexivity). unfold root_ok, plain. split_and!.
  - decide_now.
  - decide_now.
  - exists directory_attrs. unfold loc_of. rewrite Habs, Hwalk. split; [|done].
    change (lookup_node server1 (true, [lit "srv"]) = Some directory_attrs). rewrite lookup_node_below by done. apply server_root.
  - intros p Hp. unfold under. rewrite Habs, Hwalk. change (remote0 !! p = entry_of <$> lookup_node server1 (place_of (lit "srv") p)).
    unfold server1. rewrite server_node by (done || exact remote0_tree). destruct (remote0 !! p) as [e|]; [|done].
    cbn. by rewrite entry_attrs.
  - intros ws a Hws. rewrite Habs, Hwalk. apply server_names; [exact remote0_tree|done].
Qed.

Lemma mirror_no_overwrite : no_overwrite local0 remote0 mirror.
Proof.
  intros p e r He Hr Hk Hk'. exfalso.
  assert (map_Forall (λ p e, e_kind e = File → (e_kind <$> remote0 !! p) ≠ Some File) local0) as Hall by decide_now.
  specialize (Hall p e He Hk). rewrite Hr in Hall. cbn in Hall. congruence.
Qed.

Lemma preflight_exact_witness :
  no_overwrite local0 remote0 mirror ∧ is_ok (preflight_atomic_sync (lit "/srv") plan0 server1) = true.
Proof.
  split; [exact mirror_no_overwrite|].
  apply (preflight_exact local0 remote0 mirror (lit "/srv") plan0 server1);
    [exact local0_tree|exact remote0_tree|decide_now|vm_compute; reflexivity| |exact mirror_no_overwrite].
  left. split; apply server1_scanned.
Defined.

End Examples.
