(* ===== verification/Glob.v ===== *)
(** * The two wildcard matchers of the OpenSSH crate

    [wildcard_match] of [crates/kaduox-ssh-openssh/src/openssh_match.rs] (host
    patterns) and [glob_match] of [openssh_include.rs] (file names), both over the
    bytes of pattern and candidate, with indices and a memo table, as the source
    has them; and a reference semantics of patterns ([matches]) that both are
    proved to decide. *)

From stdpp Require Import base list gmap strings numbers sorting.
From Stdlib Require Import Lia.
From S2P Require Import Prelude RustStr StrFacts.

Definition star : Z := 42.
Definition question : Z := 63.
Definition backslash_byte : Z := 92.

(** ** Definitions *)

(** The memo table: from a pattern index and a candidate index. *)
Abbreviation memo := (gmap (nat * nat) bool).

(** The [while] loop over the stars that follow. *)
Fixpoint skip_stars (rest : list Z) (next : nat) : nat :=
  match rest with
  | b :: rest => if b =? star then skip_stars rest (S next) else next
  | [] => next
  end.

(** [(i..=n).any(f)] with the table passed through. *)
Fixpoint any_candidate (f : nat → memo → bool * memo) (candidates : list nat) (m : memo) : bool * memo :=
  match candidates with
  | [] => (false, m)
  | i :: candidates =>
      match f i m with
      | (true, m) => (true, m)
      | (false, m) => any_candidate f candidates m
      end
  end.

(** [inner] of [wildcard_match]; every call moves forward in the pattern. *)
Fixpoint wildcard_inner (fuel : nat) (pattern candidate : list Z) (i j : nat) (m : memo) : bool * memo :=
  match fuel with
  | O => (false, m)
  | S fuel =>
      match m !! (i, j) with
      | Some result => (result, m)
      | None =>
          match pattern !! i with
          | None => (bool_decide (length candidate ≤ j)%nat, m)
          | Some b =>
              let '(result, m) :=
                if b =? star then
                  let next := skip_stars (drop (S i) pattern) (S i) in
                  if bool_decide (length pattern ≤ next)%nat then (true, m)
                  else any_candidate (wildcard_inner fuel pattern candidate next)
                         (seq j (S (length candidate) - j)) m
                else match candidate !! j with
                     | None => (false, m)
                     | Some c => if (b =? question) || (c =? b)
                                 then wildcard_inner fuel pattern candidate (S i) (S j) m else (false, m)
                     end in
              (result, <[ (i, j) := result ]> m)
          end
      end
  end.

Definition wildcard_match (pattern candidate : list Z) : bool :=
  (wildcard_inner (S (length pattern)) pattern candidate 0 0 ∅).1.

(** The [for] loop of [glob_match]: [?] leaves it, a match ends it. *)
Fixpoint find_candidate (f : nat → memo → result bool * memo) (candidates : list nat) (m : memo) : result bool * memo :=
  match candidates with
  | [] => (Ok false, m)
  | i :: candidates =>
      match f i m with
      | (Err e, m) => (Err e, m)
      | (Ok true, m) => (Ok true, m)
      | (Ok false, m) => find_candidate f candidates m
      end
  end.

Definition incomplete_escape : string := "OpenSSH Include glob ends with an incomplete escape".

Fixpoint glob_inner (fuel : nat) (pattern candidate : list Z) (i j : nat) (m : memo) : result bool * memo :=
  match fuel with
  | O => (Err "out of fuel", m)
  | S fuel =>
      match m !! (i, j) with
      | Some result => (Ok result, m)
      | None =>
          match pattern !! i with
          | None => (Ok (bool_decide (length candidate ≤ j)%nat), m)
          | Some head =>
              let '(result, m) :=
                if head =? star then
                  let next := skip_stars (drop (S i) pattern) (S i) in
                  if bool_decide (length pattern ≤ next)%nat then (Ok true, m)
                  else find_candidate (glob_inner fuel pattern candidate next)
                         (seq j (S (length candidate) - j)) m
                else if head =? question then
                  match candidate !! j with
                  | None => (Ok false, m)
                  | Some _ => glob_inner fuel pattern candidate (S i) (S j) m
                  end
                else if head =? backslash_byte then
                  match pattern !! S i with
                  | None => (Err incomplete_escape, m)
                  | Some literal =>
                      match candidate !! j with
                      | None => (Ok false, m)
                      | Some c => if c =? literal then glob_inner fuel pattern candidate (S (S i)) (S j) m
                                  else (Ok false, m)
                      end
                  end
                else
                  match candidate !! j with
                  | None => (Ok false, m)
                  | Some c => if c =? head then glob_inner fuel pattern candidate (S i) (S j) m else (Ok false, m)
                  end in
              match result with
              | Err e => (Err e, m)
              | Ok result => (Ok result, <[ (i, j) := result ]> m)
              end
          end
      end
  end.

Definition glob_match (pattern candidate : list Z) : result bool :=
  (glob_inner (S (length pattern)) pattern candidate 0 0 ∅).1.

(** ** Patterns and what they match *)
Inductive Token := TStar | TAny | TLit (b : Z).
#[export] Instance token_eq_dec : EqDecision Token.
Proof. solve_decision. Defined.

Inductive matches : list Token → list Z → Prop :=
| matches_nil : matches [] []
| matches_lit b ts c : matches ts c → matches (TLit b :: ts) (b :: c)
| matches_any b ts c : matches ts c → matches (TAny :: ts) (b :: c)
| matches_star ts x c : matches ts c → matches (TStar :: ts) (x ++ c).

(** How the two matchers read a pattern; the flag is an escape at its end. *)
Definition wild_token (b : Z) : Token := if b =? star then TStar else if b =? question then TAny else TLit b.
Definition wild_tokens (pattern : list Z) : list Token := wild_token <$> pattern.

Fixpoint glob_tokens (pattern : list Z) : list Token * bool :=
  match pattern with
  | [] => ([], false)
  | b :: pattern =>
      if b =? star then prod_map (cons TStar) id (glob_tokens pattern)
      else if b =? question then prod_map (cons TAny) id (glob_tokens pattern)
      else if b =? backslash_byte then
        match pattern with
        | [] => ([], true)
        | literal :: pattern => prod_map (cons (TLit literal)) id (glob_tokens pattern)
        end
      else prod_map (cons (TLit b)) id (glob_tokens pattern)
  end.

(** The run of a token list: [Err] when an escape at its end is reached. *)
Section run.
Context (dangling : bool).

Fixpoint tails (c : list Z) : list (list Z) := c :: match c with [] => [] | _ :: c => tails c end.

(** The first candidate that does not fail to match. *)
Fixpoint first_of (f : list Z → result bool) (cs : list (list Z)) : result bool :=
  match cs with
  | [] => Ok false
  | c :: cs => match f c with Ok false => first_of f cs | r => r end
  end.

Fixpoint run (ts : list Token) (c : list Z) : result bool :=
  match ts with
  | [] => if dangling then Err incomplete_escape else Ok (bool_decide (c = []))
  | TLit b :: ts => match c with [] => Ok false | x :: c => if x =? b then run ts c else Ok false end
  | TAny :: ts => match c with [] => Ok false | _ :: c => run ts c end
  | TStar :: ts => first_of (run ts) (tails c)
  end.
End run.

(** ** The run decides matching *)
Lemma first_of_false f cs : first_of f cs = Ok false ↔ Forall (λ c, f c = Ok false) cs.
Proof.
  induction cs as [|c cs IH]; cbn; [by rewrite Forall_nil|]. rewrite Forall_cons, <- IH.
  destruct (f c) as [[]|]; naive_solver.
Qed.

Lemma first_of_other f cs r : first_of f cs = r → r ≠ Ok false → ∃ c, c ∈ cs ∧ f c = r.
Proof.
  intros <-. induction cs as [|c cs IH]; cbn; [done|]. intros Hr.
  destruct (f c) as [[]|e] eqn:Hf; [exists c; split; [left|done]| |exists c; split; [left|done]].
  destruct (IH Hr) as (d & Hd & ?). exists d. split; [by right|done].
Qed.

Lemma first_of_ext f g cs : (∀ c, c ∈ cs → f c = g c) → first_of f cs = first_of g cs.
Proof.
  induction cs as [|c cs IH]; intros Hfg; [done|]. cbn. rewrite Hfg by left.
  rewrite IH; [done|]. intros d Hd. apply Hfg. by right.
Qed.

Lemma elem_of_tails c d : d ∈ tails c ↔ ∃ x, c = x ++ d.
Proof.
  induction c as [|b c IH]; cbn [tails].
  - rewrite list_elem_of_singleton. split; [intros ->; by exists []|].
    intros (x & Hx). symmetry in Hx. by apply app_nil in Hx as [_ ->].
  - rewrite elem_of_cons, IH. split.
    + intros [->|(x & ->)]; [by exists []|by exists (b :: x)].
    + intros ([|y x] & Hx); [left; by rewrite Hx|right]. injection Hx as <- ->. by exists x.
Qed.

Lemma tails_drop c : tails c = (λ k, drop k c) <$> seq 0 (S (length c)).
Proof.
  induction c as [|b c IH]; [done|]. cbn [tails]. rewrite IH. cbn [length]. change (seq 0 (S (S (length c)))) with (0%nat :: seq 1 (S (length c))).
  rewrite fmap_cons. f_equal. by rewrite <- (fmap_S_seq 0), <- list_fmap_compose.
Qed.

Lemma tails_drop_from c j :
  (j ≤ length c)%nat → tails (drop j c) = (λ k, drop k c) <$> seq j (S (length c) - j).
Proof.
  intros Hj. rewrite tails_drop, length_drop. replace (S (length c) - j)%nat with (S (length c - j)) by lia.
  apply list_eq. intros k. rewrite !list_lookup_fmap.
  destruct (decide (k < S (length c - j))%nat).
  - rewrite !lookup_seq_lt by lia. cbn. by rewrite drop_drop.
  - by rewrite !lookup_seq_ge by lia.
Qed.

(** A second star adds nothing. *)
Lemma first_of_twice f c : first_of (λ d, first_of f (tails d)) (tails c) = first_of f (tails c).
Proof.
  destruct (first_of f (tails c)) as [[]|e] eqn:Hf.
  - by destruct c; cbn [tails first_of] in *; rewrite Hf.
  - apply first_of_false. apply Forall_forall. intros d (x & ->)%elem_of_tails.
    apply first_of_false. apply first_of_false in Hf. rewrite Forall_forall in Hf |- *.
    intros e (y & ->)%elem_of_tails. apply Hf, elem_of_tails. exists (x ++ y). by rewrite <- app_assoc.
  - by destruct c; cbn [tails first_of] in *; rewrite Hf.
Qed.

Lemma run_stars d k ts c : run d (TStar :: replicate k TStar ++ ts) c = run d (TStar :: ts) c.
Proof.
  revert c. induction k as [|k IH]; intros c; [done|]. cbn [replicate app].
  change (run d (TStar :: TStar :: replicate k TStar ++ ts) c)
    with (first_of (run d (TStar :: replicate k TStar ++ ts)) (tails c)).
  rewrite (first_of_ext _ (run d (TStar :: ts))) by done. apply first_of_twice.
Qed.

Lemma run_false ts c : ∃ b, run false ts c = Ok b ∧ (b = true ↔ matches ts c).
Proof.
  revert c. induction ts as [|t ts IH]; intros c; cbn [run].
  - eexists. split; [done|]. rewrite bool_decide_eq_true. split; [intros ->; constructor|by inversion 1].
  - destruct t as [| |b].
    + destruct (first_of (run false ts) (tails c)) as [[]|e] eqn:Hf.
      * exists true. split; [done|]. split; [intros _|done]. apply first_of_other in Hf as (d & Hd & Hr); [|done].
        apply elem_of_tails in Hd as (x & ->). constructor. destruct (IH d) as (b & Hb & Hm). apply Hm. congruence.
      * exists false. split; [done|]. split; [done|]. intros Hm. exfalso. inversion Hm as [| | |? x c' Hm' Heq1 Heq2]; subst.
        apply first_of_false in Hf. rewrite Forall_forall in Hf.
        specialize (Hf c' (proj2 (elem_of_tails _ _) (ex_intro _ x eq_refl))).
        destruct (IH c') as (b & Hb & Hbm). assert (b = true) by by apply Hbm. congruence.
      * exfalso. apply first_of_other in Hf as (d & _ & Hr); [|done]. destruct (IH d) as (b & Hb & _). congruence.
    + destruct c as [|x c]; [exists false; split; [done|]; split; [done|inversion 1]|].
      destruct (IH c) as (b & -> & Hb). exists b. split; [done|]. rewrite Hb. split; [by constructor|by inversion 1].
    + destruct c as [|x c]; [exists false; split; [done|]; split; [done|inversion 1]|].
      destruct (Z.eqb_spec x b) as [->|Hne].
      * destruct (IH c) as (b' & -> & Hb). exists b'. split; [done|]. rewrite Hb. split; [by constructor|by inversion 1].
      * exists false. split; [done|]. split; [done|]. by inversion 1.
Qed.

(** The tokens match a beginning of the candidate. *)
Definition reached (ts : list Token) (c : list Z) : Prop := ∃ x y, c = x ++ y ∧ matches ts x.

Lemma run_true ts c :
  (run true ts c = Err incomplete_escape ∧ reached ts c) ∨ (run true ts c = Ok false ∧ ¬ reached ts c).
Proof.
  assert (Hnil : ∀ t ts, t ≠ TStar → ¬ reached (t :: ts) []).
  { intros t ts' Ht (x & y & Hx & Hm). symmetry in Hx. apply app_nil in Hx as [-> ->]. inversion Hm; subst; done. }
  revert c. induction ts as [|t ts IH]; intros c; cbn [run].
  - left. split; [done|]. exists [], c. split; [done|constructor].
  - destruct t as [| |b].
    + assert (Hiff : reached (TStar :: ts) c ↔ ∃ d, d ∈ tails c ∧ reached ts d).
      { split.
        - intros (x & y & -> & Hm). inversion Hm as [| | |? u v Hm' Heq1 Heq2]; subst. exists (v ++ y). split.
          + apply elem_of_tails. exists u. by rewrite <- app_assoc.
          + by exists v, y.
        - intros (d & (u & ->)%elem_of_tails & v & y & -> & Hm). exists (u ++ v), y. rewrite <- app_assoc. split; [done|by constructor]. }
      rewrite Hiff. destruct (first_of (run true ts) (tails c)) as [[]|e] eqn:Hf.
      * exfalso. apply first_of_other in Hf as (d & _ & Hr); [|done]. destruct (IH d) as [[? _]|[? _]]; congruence.
      * right. split; [done|]. intros (d & Hd & Hr). apply first_of_false in Hf. rewrite Forall_forall in Hf.
        specialize (Hf d Hd). destruct (IH d) as [[? _]|[_ ?]]; [congruence|done].
      * left. apply first_of_other in Hf as (d & Hd & Hr); [|done]. destruct (IH d) as [[He ?]|[? _]]; [|congruence].
        rewrite He in Hr. injection Hr as <-. split; [done|]. by exists d.
    + destruct c as [|x c]; [right; split; [done|by apply Hnil]|].
      assert (Hiff : reached (TAny :: ts) (x :: c) ↔ reached ts c).
      { split.
        - intros (u & y & Heq & Hm). inversion Hm as [| |? ? u' Hm'|]; subst. injection Heq as -> ->. by exists u', y.
        - intros (u & y & -> & Hm). exists (x :: u), y. split; [done|by constructor]. }
      rewrite Hiff. apply IH.
    + destruct c as [|x c]; [right; split; [done|by apply Hnil]|].
      destruct (Z.eqb_spec x b) as [->|Hne].
      * assert (Hiff : reached (TLit b :: ts) (b :: c) ↔ reached ts c).
        { split.
          - intros (u & y & Heq & Hm). inversion Hm as [|? ? u' Hm'| |]; subst. injection Heq as ->. by exists u', y.
          - intros (u & y & -> & Hm). exists (b :: u), y. split; [done|by constructor]. }
        rewrite Hiff. apply IH.
      * right. split; [done|]. intros (u & y & Heq & Hm). inversion Hm as [|? ? u' Hm'| |]; subst. injection Heq as -> _. done.
Qed.

(** ** The matchers follow the run *)
Lemma skip_stars_spec rest next :
  ∃ k rest', rest = replicate k star ++ rest' ∧ head rest' ≠ Some star ∧ skip_stars rest next = (next + k)%nat.
Proof.
  revert next. induction rest as [|b rest IH]; intros next; cbn [skip_stars].
  - exists 0%nat, []. split_and!; [done..|lia].
  - destruct (Z.eqb_spec b star) as [->|Hne].
    + destruct (IH (S next)) as (k & rest' & -> & Hh & ->). exists (S k), rest'. split_and!; [done..|lia].
    + exists 0%nat, (b :: rest). cbn. split_and!; [done| |lia]. congruence.
Qed.

Section memoized.
Context (pattern candidate : list Z) (value : nat → nat → result bool).

(** Every entry of the table is the value of its indices. *)
Definition sound (m : memo) : Prop := ∀ i j b, m !! (i, j) = Some b → value i j = Ok b.

Lemma sound_insert m i j b : sound m → value i j = Ok b → sound (<[ (i, j) := b ]> m).
Proof.
  intros Hm Hv i' j' b'. destruct (decide ((i, j) = (i', j'))) as [[= <- <-]|Hne].
  - rewrite lookup_insert_eq. by intros [= <-].
  - rewrite lookup_insert_ne by done. apply Hm.
Qed.

(** What a call promises. *)
Definition computes (r : result bool * memo) (v : result bool) : Prop := r.1 = v ∧ sound r.2.
Definition computes_bool (r : bool * memo) (v : result bool) : Prop := Ok r.1 = v ∧ sound r.2.

Lemma find_candidate_spec f ks m (g : list Z → result bool) :
  sound m → (∀ k m, k ∈ ks → sound m → computes (f k m) (g (drop k candidate))) →
  computes (find_candidate f ks m) (first_of g ((λ k, drop k candidate) <$> ks)).
Proof.
  revert m. induction ks as [|k ks IH]; intros m Hm Hf; [done|]. cbn [find_candidate fmap list_fmap first_of].
  destruct (Hf k m) as [Hv Hs]; [left|done|]. rewrite <- Hv. destruct (f k m) as [[[]|e] m']; cbn [fst snd] in *; [done| |done].
  apply IH; [done|]. intros k' m'' Hk'. apply Hf. by right.
Qed.

Lemma any_candidate_spec f ks m (g : list Z → result bool) :
  sound m → (∀ k m, k ∈ ks → sound m → computes_bool (f k m) (g (drop k candidate))) →
  computes_bool (any_candidate f ks m) (first_of g ((λ k, drop k candidate) <$> ks)).
Proof.
  revert m. induction ks as [|k ks IH]; intros m Hm Hf; [done|]. cbn [any_candidate fmap list_fmap first_of].
  destruct (Hf k m) as [Hv Hs]; [left|done|]. rewrite <- Hv. destruct (f k m) as [[] m']; cbn [fst snd] in *; [done|].
  apply IH; [done|]. intros k' m'' Hk'. apply Hf. by right.
Qed.
End memoized.

(** What is left of the pattern after the stars at [i]. *)
Lemma stars_at (pattern : list Z) i :
  pattern !! i = Some star →
  ∃ k, let next := skip_stars (drop (S i) pattern) (S i) in
    drop i pattern = star :: replicate k star ++ drop next pattern ∧ (i < next)%nat ∧ (next ≤ length pattern)%nat.
Proof.
  intros Hi. destruct (skip_stars_spec (drop (S i) pattern) (S i)) as (k & rest & Hd & _ & Hnext). exists k. cbv zeta.
  pose proof (lookup_lt_Some _ _ _ Hi) as Hlt. assert (length (drop (S i) pattern) = (k + length rest)%nat) as Hlen.
  { by rewrite Hd, length_app, length_replicate. }
  rewrite length_drop in Hlen. rewrite Hnext. split_and!; [|lia..].
  rewrite (drop_S pattern star i Hi). f_equal. rewrite Hd at 1. f_equal.
  rewrite <- drop_drop, Hd, drop_app_length'; [done|]. by rewrite length_replicate.
Qed.

Lemma run_star_only c : run false [TStar] c = Ok true.
Proof.
  destruct (run_false [TStar] c) as (b & -> & Hb). f_equal. apply Hb. rewrite <- (app_nil_r c). repeat constructor.
Qed.

Lemma run_rest_star k c : run false (TStar :: replicate k TStar) c = Ok true.
Proof. rewrite <- (app_nil_r (replicate k TStar)), app_comm_cons. change (run false (TStar :: replicate k TStar ++ []) c = Ok true). rewrite run_stars. apply run_star_only. Qed.

Lemma bool_empty_drop (c : list Z) j :
  (j ≤ length c)%nat → bool_decide (drop j c = []) = bool_decide (length c ≤ j)%nat.
Proof.
  intros Hj. apply bool_decide_ext. split; [intros Hd|by apply drop_ge].
  apply (f_equal length) in Hd. rewrite length_drop in Hd. cbn in Hd. lia.
Qed.

(** *** [wildcard_match] *)
Definition wild_value (pattern candidate : list Z) (i j : nat) : result bool :=
  run false (wild_tokens (drop i pattern)) (drop j candidate).

Lemma wildcard_inner_spec pattern candidate fuel i j m :
  (length pattern < fuel + i)%nat → (i ≤ length pattern)%nat → (j ≤ length candidate)%nat →
  sound (wild_value pattern candidate) m →
  computes_bool (wild_value pattern candidate) (wildcard_inner fuel pattern candidate i j m)
    (wild_value pattern candidate i j).
Proof.
  revert i j m. induction fuel as [|fuel IH]; intros i j m Hfuel Hi Hj Hm; [lia|].
  cbn [wildcard_inner]. destruct (m !! (i, j)) as [b|] eqn:Hmemo; [split; [symmetry; by apply Hm|done]|].
  destruct (pattern !! i) as [b|] eqn:Hb.
  2: { split; [|done]. cbn [fst]. unfold wild_value. apply lookup_ge_None in Hb. rewrite drop_ge by done.
       cbn. by rewrite bool_empty_drop. }
  pose proof (lookup_lt_Some _ _ _ Hb) as Hlt. unfold wild_value at 2. rewrite (drop_S pattern b i Hb).
  match goal with |- computes_bool _ (let '(result, m) := ?r in _) ?v =>
    assert (Hr : computes_bool (wild_value pattern candidate) r v); [|] end.
  2: { destruct Hr as [Hv Hs]. destruct (if b =? star then _ else _) as [r m']. split; [done|]. cbn [snd]. apply sound_insert; [done|].
       unfold wild_value. by rewrite (drop_S pattern b i Hb), <- Hv. }
  cbn [wild_tokens fmap list_fmap]. unfold wild_token at 1. destruct (Z.eqb_spec b star) as [->|Hstar].
  - destruct (stars_at pattern i Hb) as (k & Hd & Hlt' & Hle). rewrite (drop_S pattern star i Hb) in Hd. injection Hd as Hd.
    cbv zeta in Hd |- *. set (next := skip_stars (drop (S i) pattern) (S i)) in *. rewrite Hd.
    assert (wild_tokens (replicate k star ++ drop next pattern) = replicate k TStar ++ wild_tokens (drop next pattern)) as Htok
      by (unfold wild_tokens; by rewrite fmap_app, fmap_replicate). unfold wild_tokens in Htok. rewrite Htok, run_stars.
    case_bool_decide as Hend.
    + split; [|done]. cbn [fst]. rewrite drop_ge by done. symmetry. apply run_star_only.
    + cbn [run]. rewrite tails_drop_from by done. apply any_candidate_spec; [done|].
      intros k' m' Hk%elem_of_seq Hm'. apply IH; [lia..|done].
  - destruct (candidate !! j) as [c|] eqn:Hc.
    + pose proof (lookup_lt_Some _ _ _ Hc). rewrite (drop_S candidate c j Hc).
      destruct (Z.eqb_spec b question) as [->|Hq]; cbn [orb run]; [apply IH; [lia..|done]|].
      destruct (c =? b); [apply IH; [lia..|done]|done].
    + apply lookup_ge_None in Hc. rewrite (drop_ge candidate) by done. by destruct (b =? question).
Qed.

(** *** [glob_match] *)
Definition run_tokens (ts : list Token * bool) : list Z → result bool := run ts.2 ts.1.
Definition glob_value (pattern candidate : list Z) (i j : nat) : result bool :=
  run_tokens (glob_tokens (drop i pattern)) (drop j candidate).

Lemma glob_tokens_stars k pattern :
  glob_tokens (replicate k star ++ pattern) = prod_map (app (replicate k TStar)) id (glob_tokens pattern).
Proof.
  induction k as [|k IH]; cbn [replicate app glob_tokens]; [by destruct (glob_tokens pattern)|].
  rewrite IH. by destruct (glob_tokens pattern).
Qed.

Lemma glob_inner_spec pattern candidate fuel i j m :
  (length pattern < fuel + i)%nat → (i ≤ length pattern)%nat → (j ≤ length candidate)%nat →
  sound (glob_value pattern candidate) m →
  computes (glob_value pattern candidate) (glob_inner fuel pattern candidate i j m) (glob_value pattern candidate i j).
Proof.
  revert i j m. induction fuel as [|fuel IH]; intros i j m Hfuel Hi Hj Hm; [lia|].
  cbn [glob_inner]. destruct (m !! (i, j)) as [b|] eqn:Hmemo; [split; [symmetry; by apply Hm|done]|].
  destruct (pattern !! i) as [b|] eqn:Hb.
  2: { split; [|done]. cbn [fst]. unfold glob_value. apply lookup_ge_None in Hb. rewrite drop_ge by done.
       cbn. by rewrite bool_empty_drop. }
  pose proof (lookup_lt_Some _ _ _ Hb) as Hlt. unfold glob_value at 2. rewrite (drop_S pattern b i Hb).
  match goal with |- computes _ (let '(result, m) := ?r in _) ?v =>
    assert (Hr : computes (glob_value pattern candidate) r v); [|] end.
  2: { destruct Hr as [Hv Hs]. destruct (if b =? star then _ else _) as [[r|e] m']; cbn [fst snd] in *; [|done].
       split; [done|]. cbn [snd]. apply sound_insert; [done|]. unfold glob_value. by rewrite (drop_S pattern b i Hb), <- Hv. }
  cbn [glob_tokens]. unfold run_tokens. destruct (Z.eqb_spec b star) as [->|Hstar].
  - destruct (stars_at pattern i Hb) as (k & Hd & Hlt' & Hle). rewrite (drop_S pattern star i Hb) in Hd. injection Hd as Hd.
    cbv zeta in Hd |- *. set (next := skip_stars (drop (S i) pattern) (S i)) in *. rewrite Hd, glob_tokens_stars.
    unfold prod_map, id. cbn [fst snd]. rewrite run_stars. case_bool_decide as Hend.
    + split; [|done]. cbn [fst]. rewrite drop_ge by done. symmetry. apply run_star_only.
    + cbn [run]. rewrite tails_drop_from by done. apply find_candidate_spec; [done|].
      intros k' m' Hk%elem_of_seq Hm'. apply IH; [lia..|done].
  - assert (Hnone : candidate !! j = None → drop j candidate = []) by (intros ?%lookup_ge_None; by apply drop_ge).
    destruct (Z.eqb_spec b question) as [->|Hq]; [|destruct (Z.eqb_spec b backslash_byte) as [->|Hesc]].
    + destruct (candidate !! j) as [c|] eqn:Hc; [|by rewrite Hnone].
      pose proof (lookup_lt_Some _ _ _ Hc). rewrite (drop_S candidate c j Hc). apply IH; [lia..|done].
    + destruct (pattern !! S i) as [literal|] eqn:Hlit.
      2: { apply lookup_ge_None in Hlit. by rewrite (drop_ge pattern). }
      pose proof (lookup_lt_Some _ _ _ Hlit). rewrite (drop_S pattern literal (S i) Hlit).
      destruct (candidate !! j) as [c|] eqn:Hc; [|by rewrite Hnone].
      pose proof (lookup_lt_Some _ _ _ Hc). rewrite (drop_S candidate c j Hc). unfold prod_map, id. cbn [fst snd run].
      destruct (c =? literal); [apply IH; [lia..|done]|done].
    + destruct (candidate !! j) as [c|] eqn:Hc; [|by rewrite Hnone].
      pose proof (lookup_lt_Some _ _ _ Hc). rewrite (drop_S candidate c j Hc). unfold prod_map, id. cbn [fst snd run].
      destruct (c =? b); [apply IH; [lia..|done]|done].
Qed.

Lemma sound_empty value : sound value ∅.
Proof. intros i j b Hb. by rewrite lookup_empty in Hb. Qed.

Lemma wildcard_match_run pattern candidate : Ok (wildcard_match pattern candidate) = run false (wild_tokens pattern) candidate.
Proof.
  destruct (wildcard_inner_spec pattern candidate (S (length pattern)) 0 0 ∅) as [Hv _]; [lia..|apply sound_empty|].
  exact Hv.
Qed.

Lemma glob_match_run pattern candidate : glob_match pattern candidate = run_tokens (glob_tokens pattern) candidate.
Proof.
  destruct (glob_inner_spec pattern candidate (S (length pattern)) 0 0 ∅) as [Hv _]; [lia..|apply sound_empty|].
  exact Hv.
Qed.

Lemma wildcard_match_spec pattern candidate :
  wildcard_match pattern candidate = true ↔ matches (wild_tokens pattern) candidate.
Proof.
  destruct (run_false (wild_tokens pattern) candidate) as (b & Hb & <-). rewrite <- wildcard_match_run in Hb.
  by injection Hb as ->.
Qed.

(** *** Quoting *)

(** A name as a pattern that stands for itself. *)
Definition glob_quote (name : str) : str :=
  concat ((λ c, if (c =? star) || (c =? question) || (c =? backslash_byte) then [backslash_byte; c] else [c]) <$> name).

Lemma utf8_char_high' c : 128 ≤ c → Forall (λ b, 128 ≤ b) (utf8_char c).
Proof.
  intros Hc. unfold utf8_char. pose proof (Z.div_pos c 64). pose proof (Z.div_pos c 4096). pose proof (Z.div_pos c 262144).
  pose proof (Z.mod_pos_bound c 64). pose proof (Z.mod_pos_bound (c / 64) 64). pose proof (Z.mod_pos_bound (c / 4096) 64).
  zbool; repeat constructor; lia.
Qed.

(** Bytes that the matcher takes literally. *)
Definition literal_byte (b : Z) : Prop := b ≠ star ∧ b ≠ question ∧ b ≠ backslash_byte.

Lemma glob_tokens_literal bs pattern :
  Forall literal_byte bs → glob_tokens (bs ++ pattern) = prod_map (app (TLit <$> bs)) id (glob_tokens pattern).
Proof.
  induction 1 as [|b bs (Hs & Hq & Hb) _ IH]; [cbn [app]; by destruct (glob_tokens pattern)|]. cbn [app glob_tokens].
  destruct (Z.eqb_spec b star); [done|]. destruct (Z.eqb_spec b question); [done|].
  destruct (Z.eqb_spec b backslash_byte); [done|]. rewrite IH. by destruct (glob_tokens pattern).
Qed.

Lemma glob_quote_tokens name : glob_tokens (utf8 (glob_quote name)) = (TLit <$> utf8 name, false).
Proof.
  induction name as [|c name IH]; [done|]. unfold glob_quote. cbn [fmap list_fmap concat].
  change (concat _) with (glob_quote name) in *. rewrite utf8_app. cbn [utf8].
  destruct ((c =? star) || (c =? question) || (c =? backslash_byte)) eqn:Hc.
  - assert (utf8_char c = [c]) as Hu.
    { unfold utf8_char. destruct (Z.ltb_spec c 128); [done|]. unfold star, question, backslash_byte in Hc.
      rewrite !orb_true_iff, !Z.eqb_eq in Hc. lia. }
    cbn [utf8]. rewrite Hu, !app_nil_r. change (utf8_char backslash_byte) with [backslash_byte]. cbn [app glob_tokens].
    change (backslash_byte =? star) with false. change (backslash_byte =? question) with false.
    rewrite Z.eqb_refl, IH. done.
  - rewrite !orb_false_iff, !Z.eqb_neq in Hc. destruct Hc as [[Hs Hq] Hb]. cbn [utf8]. rewrite app_nil_r, glob_tokens_literal.
    + rewrite IH. unfold prod_map, id. cbn [fst snd]. by rewrite fmap_app.
    + destruct (Z.ltb_spec c 128) as [Hlt|Hge].
      * unfold utf8_char. destruct (Z.ltb_spec c 128); [|lia]. by constructor.
      * eapply Forall_impl; [by apply utf8_char_high'|]. intros b Hb'. unfold literal_byte, star, question, backslash_byte in *. lia.
Qed.

Lemma matches_literal bs c : matches (TLit <$> bs) c ↔ c = bs.
Proof.
  split.
  - revert c. induction bs as [|b bs IH]; intros c; cbn [fmap list_fmap]; inversion 1; [done|]. f_equal. by apply IH.
  - intros ->. induction bs; by constructor.
Qed.

(** A quoted name matches itself and nothing else. *)
Lemma glob_quote_match name candidate :
  glob_match (utf8 (glob_quote name)) candidate = Ok (bool_decide (candidate = utf8 name)).
Proof.
  rewrite glob_match_run, glob_quote_tokens. unfold run_tokens. cbn [fst snd].
  destruct (run_false (TLit <$> utf8 name) candidate) as (b & -> & Hb). f_equal. rewrite matches_literal in Hb.
  case_bool_decide as Hd; destruct b; naive_solver.
Qed.

(** File-name matching is exact.  [glob_match] decides the reference
    semantics of the pattern's tokens, whatever its memo table holds; when the
    pattern ends in an unfinished escape it never matches, and fails exactly when
    the tokens before the escape match a beginning of the name. *)
Theorem glob_match_exact pattern candidate :
  let '(ts, dangling) := glob_tokens pattern in
  if dangling then
    glob_match pattern candidate ≠ Ok true ∧
    (glob_match pattern candidate = Err incomplete_escape ↔ reached ts candidate) ∧
    (glob_match pattern candidate = Ok false ↔ ¬ reached ts candidate)
  else
    ∃ b, glob_match pattern candidate = Ok b ∧ (b = true ↔ matches ts candidate).
Proof.
  rewrite glob_match_run. unfold run_tokens. destruct (glob_tokens pattern) as [ts []]; cbn [fst snd]; [|apply run_false].
  destruct (run_true ts candidate) as [[-> Hr]|[-> Hr]]; naive_solver.
Qed.

(** ** Examples *)
Module Examples.

Definition bytes (s : string) : list Z := utf8 (lit s).

Example glob_star : glob_match (bytes "*.conf") (bytes "10-prod.conf") = Ok true.
Proof. vm_compute. reflexivity. Qed.
Example glob_question : glob_match (bytes "host?.conf") (bytes "host10.conf") = Ok false.
Proof. vm_compute. reflexivity. Qed.
Example glob_escape : glob_match (bytes "literal\*.conf") (bytes "literal*.conf") = Ok true.
Proof. vm_compute. reflexivity. Qed.
Example glob_dangling : glob_match (bytes "a*\") (bytes "ab") = Err incomplete_escape.
Proof. vm_compute. reflexivity. Qed.
Example glob_dangling_unreached : glob_match (bytes "x*\") (bytes "ab") = Ok false.
Proof. vm_compute. reflexivity. Qed.
Example wildcard_stars : wildcard_match (bytes "*a**b*") (bytes "xxaybz") = true.
Proof. vm_compute. reflexivity. Qed.

End Examples.
