(* ===== verification/OpenSshMatch.v ===== *)
(** * OpenSSH [Match] ([crates/kaduox-ssh-openssh/src/openssh_match.rs])

    Host pattern lists, the supported [Match] criteria, and the rewriting of a
    configuration without [Include] into [Host] blocks for one host. *)

From stdpp Require Import base list gmap strings numbers sorting.
From Stdlib Require Import Lia.
From S2P Require Import Prelude RustStr StrFacts Glob.

(** ** Definitions *)
Definition MAX_CONFIG_BYTES : Z := 4 * 1024 * 1024.
Definition MAX_MATCH_ARGUMENTS : Z := 8.
Definition MAX_PATTERN_LIST_BYTES : Z := 16 * 1024.
Definition MAX_PATTERN_BYTES : Z := 1023.

Definition comma : char := 44.
Definition bang : char := 33.
Definition hash : char := 35.
Definition equals : char := 61.

(** The loop over the subpatterns; [host] is already in lower case. *)
Fixpoint match_subpatterns (host : str) (got_positive : bool) (subpatterns : list str) : result bool :=
  match subpatterns with
  | [] => Ok got_positive
  | raw_pattern :: subpatterns =>
      bail_if (bool_decide (raw_pattern = [])) "Match originalhost pattern-list contains an empty subpattern" ≫= λ _,
      let '(negated, pattern) :=
        match strip_prefix [bang] raw_pattern with
        | Some pattern => (true, pattern)
        | None => (false, raw_pattern)
        end in
      bail_if (bool_decide (pattern = [])) "Match originalhost contains an empty negated subpattern" ≫= λ _,
      bail_if (MAX_PATTERN_BYTES <? str_len pattern)
        "Match originalhost subpattern exceeds the OpenSSH-compatible bound" ≫= λ _,
      if wildcard_match (utf8 (to_ascii_lowercase pattern)) (utf8 host) then
        if negated then Ok false else match_subpatterns host true subpatterns
      else match_subpatterns host got_positive subpatterns
  end.

Definition match_hostname_pattern_list (host pattern_list : str) : result bool :=
  bail_if (bool_decide (pattern_list = [])) "Match originalhost pattern-list cannot be empty" ≫= λ _,
  bail_if (MAX_PATTERN_LIST_BYTES <? str_len pattern_list)
    "Match originalhost pattern-list exceeds the safety limit" ≫= λ _,
  match_subpatterns (to_ascii_lowercase host) false (split comma pattern_list).

Definition evaluate_supported_match (arguments : list str) (original_host : str) : result bool :=
  bail_if (MAX_MATCH_ARGUMENTS <? zlen arguments) "Match contains too many arguments for the supported subset" ≫= λ _,
  match arguments with
  | [criterion] =>
      if eq_ignore_ascii_case criterion (lit "all") then Ok true
      else Err "only standalone Match all and Match originalhost are supported"
  | [criterion; pattern_list] =>
      if eq_ignore_ascii_case criterion (lit "originalhost")
      then match_hostname_pattern_list original_host pattern_list
      else Err "only standalone Match all and Match originalhost are supported"
  | [] => Err "Match requires a criterion"
  | _ => Err "only standalone Match all and Match originalhost are supported"
  end.

(** The characters that end a keyword. *)
Definition is_key_end (c : char) : bool := is_ascii_whitespace c || (c =? equals).

Definition directive_key (line : str) : option str :=
  let trimmed := trim_start line in
  if bool_decide (trimmed = []) || starts_with trimmed [hash] then None
  else Some (take_while (λ c, negb (is_key_end c)) trimmed).

(** The part of the line after the keyword and the separators that follow it. *)
Definition after_key (line key : str) : str := drop_while is_key_end (drop (length key) (trim_start line)).

Definition is_quoting (c : char) : bool := (c =? 92) || (c =? 39) || (c =? dquote).

Definition parse_match_arguments (input : str) : result (list str) :=
  let input := match split_once hash input with Some (head, _) => head | None => input end in
  bail_if (existsb is_quoting input) "quoted or backslash-escaped Match arguments are not supported" ≫= λ _,
  Ok (split_ascii_whitespace input).

Definition directive_arguments (line key : str) : result (list str) := parse_match_arguments (after_key line key).

Definition push_line_bounded (output line : str) : result str :=
  with_context (checked_add usize_max (str_len line) 1) "OpenSSH Match output byte accounting overflow" ≫= λ required,
  with_context (checked_add usize_max (str_len output) required) "OpenSSH Match output byte accounting overflow"
    ≫= λ new_len,
  bail_if (MAX_CONFIG_BYTES <? new_len) "resolved OpenSSH configuration exceeds the safety limit" ≫= λ _,
  Ok (output ++ line ++ [LF]).

Definition host_all : str := lit "Host *".

(** [if emit { push_line_bounded(&mut output, line)?; }] *)
Definition push_if (emit : bool) (output line : str) : result (str * bool) :=
  if emit then push_line_bounded output line ≫= λ output, Ok (output, emit) else Ok (output, emit).

(** The body of the loop over the lines. *)
Definition rewrite_line (original_host : str) (state : str * bool) (line : str) : result (str * bool) :=
  match directive_key line with
  | None => push_if state.2 state.1 line
  | Some key =>
      bail_if (eq_ignore_ascii_case key (lit "include"))
        "standalone OpenSSH Match rewrite cannot process Include" ≫= λ _,
      if eq_ignore_ascii_case key (lit "host") then push_if true state.1 line
      else if eq_ignore_ascii_case key (lit "match") then
        directive_arguments line key ≫= λ arguments,
        evaluate_supported_match arguments original_host ≫= λ emit,
        push_if emit state.1 host_all
      else push_if state.2 state.1 line
  end.

Definition rewrite_supported_match_config (contents original_host : str) : result str :=
  try_fold (rewrite_line original_host) (host_all ++ [LF], true) (lines contents) ≫= λ state, Ok state.1.

(** ** Pattern lists *)
Definition negated (raw : str) : Prop := head raw = Some bang.
#[export] Instance negated_dec raw : Decision (negated raw) := _.
Definition subpattern (raw : str) : str := if decide (negated raw) then tail raw else raw.
Definition well_formed (raw : str) : Prop := subpattern raw ≠ [] ∧ str_len (subpattern raw) ≤ MAX_PATTERN_BYTES.

(** The host matches the subpattern, negated or not, without regard to ASCII case. *)
Definition hit (host raw : str) : Prop :=
  matches (wild_tokens (utf8 (to_ascii_lowercase (subpattern raw)))) (utf8 (to_ascii_lowercase host)).

#[export] Instance hit_dec host raw : Decision (hit host raw).
Proof.
  refine (cast_if (decide (wildcard_match (utf8 (to_ascii_lowercase (subpattern raw))) (utf8 (to_ascii_lowercase host)) = true)));
    unfold hit; by rewrite <- wildcard_match_spec.
Defined.

(** A negated subpattern that hits ends the list: what follows is not looked at. *)
Definition refused (host : str) (raws : list str) : Prop :=
  ∃ pre raw post, raws = pre ++ raw :: post ∧ Forall well_formed pre ∧ well_formed raw ∧ negated raw ∧ hit host raw.

Lemma match_subpatterns_cons host got raw raws :
  match_subpatterns (to_ascii_lowercase host) got (raw :: raws) =
    if decide (well_formed raw) then
      if decide (hit host raw) then
        if decide (negated raw) then Ok false else match_subpatterns (to_ascii_lowercase host) true raws
      else match_subpatterns (to_ascii_lowercase host) got raws
    else Err (if decide (raw = []) then "Match originalhost pattern-list contains an empty subpattern"
              else if decide (subpattern raw = []) then "Match originalhost contains an empty negated subpattern"
              else "Match originalhost subpattern exceeds the OpenSSH-compatible bound").
Proof.
  cbn [match_subpatterns].
  assert (match strip_prefix [bang] raw with Some pattern => (true, pattern) | None => (false, raw) end =
    (bool_decide (negated raw), subpattern raw)) as ->.
  { unfold subpattern, negated. destruct raw as [|c raw]; [done|]. cbn -[Z.eqb bang].
    destruct (Z.eqb_spec bang c) as [<-|Hne].
    - rewrite bool_decide_eq_true_2, decide_True by done. by destruct raw.
    - by rewrite bool_decide_eq_false_2, decide_False by congruence. }
  cbv beta iota. destruct (decide (raw = [])) as [->|Hraw]; [done|].
  rewrite (bool_decide_eq_false_2 (raw = [])) by done. cbn [bail_if]. step_bind.
  destruct (decide (subpattern raw = [])) as [Hsub|Hsub].
  { rewrite (bool_decide_eq_true_2 (subpattern raw = [])) by done. rewrite decide_False; [done|]. by intros [? _]. }
  rewrite (bool_decide_eq_false_2 (subpattern raw = [])) by done. cbn [bail_if]. step_bind. unfold bail_if.
  destruct (Z.ltb_spec MAX_PATTERN_BYTES (str_len (subpattern raw))).
  { rewrite decide_False; [done|]. intros [_ ?]. lia. }
  step_bind. rewrite decide_True by (split; [done|lia]).
  destruct (wildcard_match _ _) eqn:Hw.
  - rewrite (decide_True (P := hit host raw)) by by apply wildcard_match_spec. by destruct (decide (negated raw)); case_bool_decide.
  - rewrite (decide_False (P := hit host raw)); [done|]. unfold hit. rewrite <- wildcard_match_spec. by rewrite Hw.
Qed.

Lemma match_subpatterns_true host got raws :
  match_subpatterns (to_ascii_lowercase host) got raws = Ok true ↔
  Forall well_formed raws ∧ Forall (λ raw, negated raw → ¬ hit host raw) raws ∧
  (got = true ∨ ∃ raw, raw ∈ raws ∧ ¬ negated raw ∧ hit host raw).
Proof.
  revert got. induction raws as [|raw raws IH]; intros got.
  - cbn. rewrite !Forall_nil. split; [intros [= ->]; split_and!; auto|]. intros (_ & _ & [->|(raw & Hin & _)]); [done|].
    by apply elem_of_nil in Hin.
  - rewrite match_subpatterns_cons, !Forall_cons. setoid_rewrite elem_of_cons.
    destruct (decide (well_formed raw)) as [Hwf|Hwf]; [|naive_solver].
    destruct (decide (hit host raw)) as [Hh|Hh]; [destruct (decide (negated raw)) as [Hn|Hn]|]; rewrite ?IH; naive_solver.
Qed.

Lemma match_subpatterns_false host got raws :
  match_subpatterns (to_ascii_lowercase host) got raws = Ok false ↔
  refused host raws ∨
  (Forall well_formed raws ∧ got = false ∧ Forall (λ raw, ¬ hit host raw) raws).
Proof.
  revert got. induction raws as [|raw raws IH]; intros got.
  - cbn. rewrite !Forall_nil. split; [intros [= ->]; auto|]. intros [(pre & raw & post & Heq & _)|(_ & -> & _)]; [|done].
    by destruct pre.
  - rewrite match_subpatterns_cons, !Forall_cons.
    assert (Hrefused : refused host (raw :: raws) ↔
      well_formed raw ∧ ((negated raw ∧ hit host raw) ∨ refused host raws)).
    { split.
      - intros ([|x pre] & y & post & [= -> ->] & Hpre & Hwf & Hn & Hh); [naive_solver|].
        apply Forall_cons in Hpre as [? ?]. split; [done|]. right. by exists pre, y, post.
      - intros (Hwf & [[Hn Hh]|(pre & y & post & -> & Hpre & Hy)]); [by exists [], raw, raws|].
        exists (raw :: pre), y, post. split; [done|]. split; [by constructor|done]. }
    rewrite Hrefused. destruct (decide (well_formed raw)) as [Hwf|Hwf]; [|naive_solver].
    destruct (decide (hit host raw)) as [Hh|Hh]; [destruct (decide (negated raw)) as [Hn|Hn]|]; rewrite ?IH; naive_solver.
Qed.

Definition list_ok (pattern_list : str) : Prop := pattern_list ≠ [] ∧ str_len pattern_list ≤ MAX_PATTERN_LIST_BYTES.

Lemma pattern_list_unfold host pattern_list b :
  match_hostname_pattern_list host pattern_list = Ok b ↔
  list_ok pattern_list ∧ match_subpatterns (to_ascii_lowercase host) false (split comma pattern_list) = Ok b.
Proof.
  unfold match_hostname_pattern_list, list_ok, bail_if. case_bool_decide as Hnil; [naive_solver|]. step_bind.
  destruct (Z.ltb_spec MAX_PATTERN_LIST_BYTES (str_len pattern_list)); [split; [done|]; intros [[_ ?] _]; lia|].
  step_bind. naive_solver.
Qed.

(** Host pattern lists are matched exactly as documented.  A list is accepted
    when it is well-formed, some positive subpattern matches and no negated one
    does; it is refused when nothing matches, or as soon as a negated subpattern
    matches, and then what follows is not even checked; any other list is an
    error.  Matching is the reference semantics of wildcards, without regard to
    ASCII case. *)
Theorem pattern_list_exact host pattern_list :
  (match_hostname_pattern_list host pattern_list = Ok true ↔
    list_ok pattern_list ∧ Forall well_formed (split comma pattern_list) ∧
    (∃ raw, raw ∈ split comma pattern_list ∧ ¬ negated raw ∧ hit host raw) ∧
    (∀ raw, raw ∈ split comma pattern_list → negated raw → ¬ hit host raw)) ∧
  (match_hostname_pattern_list host pattern_list = Ok false ↔
    list_ok pattern_list ∧
    (refused host (split comma pattern_list) ∨
     Forall well_formed (split comma pattern_list) ∧ ∀ raw, raw ∈ split comma pattern_list → ¬ hit host raw)).
Proof.
  split; rewrite pattern_list_unfold.
  - rewrite match_subpatterns_true, !Forall_forall. naive_solver.
  - rewrite match_subpatterns_false, !Forall_forall. naive_solver.
Qed.

(** ** [Match] criteria *)
Lemma evaluate_spec arguments host b :
  evaluate_supported_match arguments host = Ok b ↔
  (∃ criterion, arguments = [criterion] ∧ eq_ignore_ascii_case criterion (lit "all") = true ∧ b = true) ∨
  (∃ criterion pattern_list, arguments = [criterion; pattern_list] ∧
    eq_ignore_ascii_case criterion (lit "originalhost") = true ∧
    match_hostname_pattern_list host pattern_list = Ok b).
Proof.
  unfold evaluate_supported_match.
  destruct arguments as [|a [|p [|q arguments]]].
  - naive_solver.
  - change (bail_if (MAX_MATCH_ARGUMENTS <? zlen [a]) _) with (@Ok unit tt). step_bind.
    destruct (eq_ignore_ascii_case a (lit "all")) eqn:Ha; split; [intros [= <-]; left; by exists a| |done|];
      intros [(c & [= <-] & Hc & ->)|(c & p & ? & _)]; congruence.
  - change (bail_if (MAX_MATCH_ARGUMENTS <? zlen [a; p]) _) with (@Ok unit tt). step_bind.
    destruct (eq_ignore_ascii_case a (lit "originalhost")) eqn:Ha; split; [intros Hb; right; by exists a, p| |done|];
      intros [(c & ? & _)|(c & p' & [= <- <-] & Hc & Hb)]; congruence.
  - unfold bail_if. split; [destruct (_ <? _); [|step_bind]; done|]. intros [(c & ? & _)|(c & p' & ? & _)]; congruence.
Qed.

(** ** The rewriting of a configuration *)
Inductive Directive := BlankLine | IncludeLine | HostLine | MatchLine | OptionLine.
#[export] Instance directive_eq_dec : EqDecision Directive.
Proof. solve_decision. Defined.

Definition directive_of (line : str) : Directive :=
  match directive_key line with
  | None => BlankLine
  | Some key =>
      if eq_ignore_ascii_case key (lit "include") then IncludeLine
      else if eq_ignore_ascii_case key (lit "host") then HostLine
      else if eq_ignore_ascii_case key (lit "match") then MatchLine
      else OptionLine
  end.

(** What a [Match] line says of the host. *)
Definition match_line (host line : str) : result bool :=
  directive_arguments line (default [] (directive_key line)) ≫= λ arguments, evaluate_supported_match arguments host.

Definition supported (host line : str) : Prop :=
  match directive_of line with
  | IncludeLine => False
  | MatchLine => ∃ b, match_line host line = Ok b
  | _ => True
  end.

(** Whether the options after these lines apply to the host ([Host] blocks are
    left to the reader of the result). *)
Definition scope_step (host : str) (scope : bool) (line : str) : bool :=
  match directive_of line with
  | HostLine => true
  | MatchLine => bool_decide (match_line host line = Ok true)
  | _ => scope
  end.
Definition scope (host : str) (before : list str) : bool := foldl (scope_step host) true before.

(** What a line becomes, after the lines [before]. *)
Definition emitted (host : str) (before : list str) (line : str) : list str :=
  match directive_of line with
  | HostLine => [line]
  | MatchLine => if scope host (before ++ [line]) then [host_all] else []
  | _ => if scope host before then [line] else []
  end.

Fixpoint rewritten (host : str) (before ls : list str) : list str :=
  match ls with
  | [] => []
  | line :: ls => emitted host before line ++ rewritten host (before ++ [line]) ls
  end.

Lemma push_line_bounded_ok output line out :
  push_line_bounded output line = Ok out ↔
  out = output ++ unlines [line] ∧ str_len (output ++ unlines [line]) ≤ MAX_CONFIG_BYTES.
Proof.
  assert (unlines [line] = line ++ [LF]) as -> by (unfold unlines; cbn; by rewrite app_nil_r).
  unfold push_line_bounded.
  assert (str_len (output ++ line ++ [LF]) = str_len output + (str_len line + 1)) as ->
    by (rewrite !str_len_app; cbn; lia).
  pose proof (str_len_nonneg line). pose proof (str_len_nonneg output).
  unfold checked_add, try_from, with_context, bail_if.
  assert (MAX_CONFIG_BYTES < usize_max) by done.
  destruct (Z.leb_spec (str_len line + 1) usize_max); [|split; [done|intros [_ ?]; lia]]. step_bind.
  destruct (Z.leb_spec (str_len output + (str_len line + 1)) usize_max); [|split; [done|intros [_ ?]; lia]]. step_bind.
  destruct (Z.ltb_spec MAX_CONFIG_BYTES (str_len output + (str_len line + 1))); [split; [done|intros [_ ?]; lia]|].
  step_bind. naive_solver.
Qed.

Lemma scope_snoc host before line : scope host (before ++ [line]) = scope_step host (scope host before) line.
Proof. apply foldl_snoc. Qed.

Lemma push_if_ok emit output line out scope' :
  str_len output ≤ MAX_CONFIG_BYTES →
  push_if emit output line = Ok (out, scope') ↔
  out = output ++ unlines (if emit then [line] else []) ∧ scope' = emit ∧ str_len out ≤ MAX_CONFIG_BYTES.
Proof.
  intros Hlen. unfold push_if. destruct emit.
  - rewrite bind_ok. setoid_rewrite push_line_bounded_ok. naive_solver.
  - change (unlines []) with ([] : str). rewrite app_nil_r. naive_solver.
Qed.

(** One line: what is added, and the scope after it. *)
Lemma rewrite_line_ok host before output line out emit :
  str_len output ≤ MAX_CONFIG_BYTES →
  rewrite_line host (output, scope host before) line = Ok (out, emit) ↔
  supported host line ∧ out = output ++ unlines (emitted host before line) ∧
  emit = scope host (before ++ [line]) ∧ str_len out ≤ MAX_CONFIG_BYTES.
Proof.
  intros Hlen. unfold rewrite_line, supported, emitted. rewrite scope_snoc. unfold scope_step, match_line.
  unfold directive_of. destruct (directive_key line) as [key|]; cbn [fst snd]; [|rewrite push_if_ok by done; tauto].
  change (default [] (Some key)) with key. destruct (eq_ignore_ascii_case key (lit "include")); cbv beta iota; [split; [intros H; discriminate H|by intros [[] _]]|].
  cbn [bail_if]. step_bind.
  destruct (eq_ignore_ascii_case key (lit "host")); [rewrite push_if_ok by done; tauto|].
  destruct (eq_ignore_ascii_case key (lit "match")); [|rewrite push_if_ok by done; tauto].
  destruct (directive_arguments line key) as [args|e]; [|split; [intros H; discriminate H|by intros [[? ?] _]]].
  rewrite !bind_of_ok. cbv beta.
  destruct (evaluate_supported_match args host) as [b|e]; [|split; [intros H; discriminate H|by intros [[? ?] _]]].
  rewrite !bind_of_ok. cbv beta.
  rewrite push_if_ok by done.
  assert (bool_decide (Ok b = Ok true) = b) as -> by (destruct b; [by apply bool_decide_eq_true_2|by apply bool_decide_eq_false_2]).
  assert (∃ b', Ok b = Ok b') by eauto. tauto.
Qed.

Lemma str_len_mono s t n : str_len (s ++ t) ≤ n → str_len s ≤ n.
Proof. rewrite str_len_app. pose proof (str_len_nonneg t). lia. Qed.

Lemma rewrite_lines_ok host before ls output out emit :
  str_len output ≤ MAX_CONFIG_BYTES →
  try_fold (rewrite_line host) (output, scope host before) ls = Ok (out, emit) ↔
  Forall (supported host) ls ∧ out = output ++ unlines (rewritten host before ls) ∧
  emit = scope host (before ++ ls) ∧ str_len out ≤ MAX_CONFIG_BYTES.
Proof.
  revert before output. induction ls as [|line ls IH]; intros before output Hlen; cbn [try_fold rewritten].
  { rewrite Forall_nil, !app_nil_r. naive_solver. }
  rewrite bind_ok, Forall_cons, unlines_app, (app_assoc output). split.
  - intros ([out1 emit1] & Hline & Hrest). rewrite rewrite_line_ok in Hline by done.
    destruct Hline as (Hs & -> & -> & Hlen1). rewrite IH in Hrest by done. destruct Hrest as (Hall & -> & -> & Hout).
    by rewrite <- (app_assoc before).
  - intros ([Hs Hall] & -> & -> & Hout).
    eexists (_, _). rewrite rewrite_line_ok by done. split.
    + split_and!; [done..|]. by eapply str_len_mono.
    + apply IH; [by eapply str_len_mono|]. rewrite <- (app_assoc before). done.
Qed.

Lemma elem_of_emitted host before line l :
  l ∈ emitted host before line → (l = line ∧ directive_of line ≠ MatchLine) ∨ l = host_all.
Proof.
  unfold emitted. destruct (directive_of line); try destruct (scope host _);
    rewrite ?list_elem_of_singleton, ?elem_of_nil; intros Hl; try done; auto; by left.
Qed.

Lemma rewritten_directives host before ls :
  Forall (supported host) ls →
  Forall (λ line, directive_of line ≠ MatchLine ∧ directive_of line ≠ IncludeLine) (rewritten host before ls).
Proof.
  intros Hall. revert before. induction Hall as [|line ls Hl _ IH]; intros before; [constructor|]. cbn [rewritten].
  apply Forall_app. split; [|done]. apply Forall_forall. intros l [[-> Hm]| ->]%elem_of_emitted; [|by vm_compute].
  split; [done|]. intros Hi. unfold supported in Hl. by rewrite Hi in Hl.
Qed.

Lemma rewrite_spec contents host out :
  rewrite_supported_match_config contents host = Ok out ↔
    Forall (supported host) (lines contents) ∧
    out = unlines (host_all :: rewritten host [] (lines contents)) ∧ str_len out ≤ MAX_CONFIG_BYTES.
Proof.
  unfold rewrite_supported_match_config. rewrite bind_ok.
  change (host_all ++ [LF], true) with (host_all ++ [LF], scope host []).
  assert (unlines (host_all :: rewritten host [] (lines contents)) =
    (host_all ++ [LF]) ++ unlines (rewritten host [] (lines contents))) as -> by done.
  split.
  - intros ([o e] & Hfold & [= <-]). rewrite rewrite_lines_ok in Hfold by by vm_compute.
    by destruct Hfold as (Hall & -> & _ & Hlen).
  - intros (Hall & -> & Hlen). eexists (_, _). rewrite rewrite_lines_ok by by vm_compute. done.
Qed.

(** Rewriting [Match] away.  The rewriting succeeds exactly when every [Match]
    line is supported, there is no [Include] and the result fits the limit; the
    result is then a first [Host *] and, in order, the lines whose nearest [Host]
    or [Match] before them admits them, every accepted [Match] as [Host *].  No
    [Match] and no [Include] is left. *)
Theorem rewrite_exact contents host out :
  (rewrite_supported_match_config contents host = Ok out ↔
    Forall (supported host) (lines contents) ∧
    out = unlines (host_all :: rewritten host [] (lines contents)) ∧ str_len out ≤ MAX_CONFIG_BYTES) ∧
  (rewrite_supported_match_config contents host = Ok out →
    Forall (λ line, directive_of line ≠ MatchLine ∧ directive_of line ≠ IncludeLine)
      (host_all :: rewritten host [] (lines contents))).
Proof.
  split; [apply rewrite_spec|]. intros (Hall & _ & _)%rewrite_spec. constructor; [by vm_compute|].
  by apply rewritten_directives.
Qed.

(** ** Examples *)
Module Examples.

Example list_negated : match_hostname_pattern_list (lit "prod.example") (lit "*,!PROD.*,") = Ok false.
Proof. vm_compute. reflexivity. Qed.
Example list_malformed : is_ok (match_hostname_pattern_list (lit "prod.example") (lit "prod.*,,x")) = false.
Proof. vm_compute. reflexivity. Qed.

Definition config : str :=
  unlines (lit <$> ["Host prod"; "  User alice"; "Match originalhost other"; "  User bob"; "match ALL"; "  Port 2222"])%string.

Example config_rewritten :
  rewrite_supported_match_config config (lit "prod") =
    Ok (unlines (lit <$> ["Host *"; "Host prod"; "  User alice"; "Host *"; "  Port 2222"])%string).
Proof. vm_compute. reflexivity. Qed.

Lemma rewrite_exact_witness :
  rewrite_supported_match_config config (lit "prod") =
    Ok (unlines (lit <$> ["Host *"; "Host prod"; "  User alice"; "Host *"; "  Port 2222"])%string) ∧
  Forall (λ line, directive_of line ≠ MatchLine ∧ directive_of line ≠ IncludeLine)
    (host_all :: rewritten (lit "prod") [] (lines config)).
Proof.
  assert (rewrite_supported_match_config config (lit "prod") =
    Ok (unlines (lit <$> ["Host *"; "Host prod"; "  User alice"; "Host *"; "  Port 2222"])%string)) as Heq
    by (vm_compute; reflexivity).
  split; [exact Heq|]. exact (proj2 (rewrite_exact _ _ _) Heq).
Defined.

End Examples.
