(* ===== verification/IncludeEnv.v ===== *)
(** * Environment and percent expansion of [Include] paths
      ([crates/kaduox-ssh-openssh/src/openssh_include/env.rs])

    [${NAME}] and [%%], [%l], [%L] in one pass, with a limit on the result.  The
    environment and [gethostname] are parameters. *)

From stdpp Require Import base list gmap strings numbers sorting.
From Stdlib Require Import Lia.
From S2P Require Import Prelude RustStr StrFacts.

(** ** Definitions *)
Definition HOST_NAME_BUFFER_BYTES : Z := 256.
Definition percent : char := 37.
Definition dollar : char := 36.
Definition open_brace : char := 123.
Definition close_brace : char := 125.
Definition variable_start : str := [dollar; open_brace].

Record LocalHostnames := mk_hostnames { full : str; short : str }.

(** The parts of [s] before and after the first occurrence of [p]. *)
Fixpoint split_once_str (p s : str) : option (str * str) :=
  match strip_prefix p s with
  | Some rest => Some ([], rest)
  | None => match s with [] => None | c :: s => prod_map (cons c) id <$> split_once_str p s end
  end.

Definition push_bounded (output value : str) (max_bytes : Z) : result str :=
  with_context (checked_add usize_max (str_len output) (str_len value))
    "OpenSSH Include environment/percent expansion byte accounting overflow" ≫= λ new_len,
  bail_if (max_bytes <? new_len) "expanded OpenSSH Include path exceeds the safety limit" ≫= λ _,
  Ok (output ++ value).

(** The bytes [gethostname] leaves in the buffer before the first NUL. *)
Definition hostname_from_buffer (buffer : list Z) : result str :=
  let bytes := take_while (λ b, negb (b =? 0)) buffer in
  bail_if (HOST_NAME_BUFFER_BYTES <=? zlen bytes) "local hostname exceeds the safety limit" ≫= λ _,
  bail_if (bool_decide (bytes = [])) "local hostname is empty" ≫= λ _,
  with_context (from_utf8 bytes) "local hostname used by OpenSSH Include is not valid UTF-8".

Section expansion.
(** The environment, and the buffer that [gethostname] fills ([None] when it fails). *)
Context (lookup : str → result str) (gethostname : option (list Z)) (max_bytes : Z).

Definition query_local_hostname : result str :=
  with_context gethostname "gethostname failed while expanding OpenSSH Include" ≫= hostname_from_buffer.

Definition query_local_hostnames : result LocalHostnames :=
  query_local_hostname ≫= λ full,
  bail_if (bool_decide (full = [])) "local hostname is empty" ≫= λ _,
  Ok (mk_hostnames full (default full (head (split 46 full)))).

(** The output so far and the cache of the hostnames. *)
Abbreviation expansion := (str * option LocalHostnames)%type.

Definition cached_hostnames (local_names : option LocalHostnames) : result LocalHostnames :=
  match local_names with Some names => Ok names | None => query_local_hostnames end.

Fixpoint expand_percent_tokens (fuel : nat) (state : expansion) (rest : str) : result expansion :=
  match fuel with
  | O => Err "out of fuel"
  | S fuel =>
      match split_once percent rest with
      | None => push_bounded state.1 rest max_bytes ≫= λ output, Ok (output, state.2)
      | Some (before, after_percent) =>
          push_bounded state.1 before max_bytes ≫= λ output,
          match after_percent with
          | [] => Err "OpenSSH Include ends with an incomplete percent token"
          | token :: rest =>
              if token =? percent then
                push_bounded output [percent] max_bytes ≫= λ output,
                expand_percent_tokens fuel (output, state.2) rest
              else if (token =? ch "l") || (token =? ch "L") then
                cached_hostnames state.2 ≫= λ names,
                push_bounded output (if token =? ch "l" then full names else short names) max_bytes ≫= λ output,
                expand_percent_tokens fuel (output, Some names) rest
              else Err "OpenSSH Include percent token is not supported yet"
          end
      end
  end.

(** The [while let] loop. *)
Fixpoint expand_variables (fuel : nat) (state : expansion) (rest : str) : result expansion :=
  match fuel with
  | O => Err "out of fuel"
  | S fuel =>
      match split_once_str variable_start rest with
      | None => expand_percent_tokens (S (length rest)) state rest
      | Some (before, variable_and_rest) =>
          expand_percent_tokens (S (length before)) state before ≫= λ state,
          match split_once close_brace variable_and_rest with
          | None => Err "OpenSSH Include contains an unterminated environment expansion"
          | Some (name, rest) =>
              bail_if (bool_decide (name = [])) "OpenSSH Include contains an empty environment variable name" ≫= λ _,
              lookup name ≫= λ value,
              push_bounded state.1 value max_bytes ≫= λ output,
              expand_variables fuel (output, state.2) rest
          end
      end
  end.

Definition expand_include_environment_with (value : str) : result str :=
  fst <$> expand_variables (S (length value)) ([], None) value.

(** ** The reference: pieces and what they stand for *)

(** Text without [${], with its percent tokens. *)
Inductive segment_expands : str → str → Prop :=
| seg_nil : segment_expands [] []
| seg_char c s out : c ≠ percent → segment_expands s out → segment_expands (c :: s) (c :: out)
| seg_percent s out : segment_expands s out → segment_expands (percent :: percent :: s) (percent :: out)
| seg_full s out names : query_local_hostnames = Ok names → segment_expands s out →
    segment_expands (percent :: ch "l" :: s) (full names ++ out)
| seg_short s out names : query_local_hostnames = Ok names → segment_expands s out →
    segment_expands (percent :: ch "L" :: s) (short names ++ out).

Definition no_variable (s : str) : Prop := ∀ a b, s ≠ a ++ variable_start ++ b.

Inductive expands : str → str → Prop :=
| expands_last s out : no_variable s → segment_expands s out → expands s out
| expands_variable s out name value rest out' :
    no_variable s → segment_expands s out →
    close_brace ∉ name → name ≠ [] → lookup name = Ok value → expands rest out' →
    expands (s ++ variable_start ++ name ++ close_brace :: rest) (out ++ value ++ out').
End expansion.

(** ** Finding *)
Lemma split_once_some c s a b : split_once c s = Some (a, b) ↔ s = a ++ c :: b ∧ c ∉ a.
Proof.
  revert a. induction s as [|d s IH]; intros a; cbn [split_once]; [by split; [|intros [? _]; destruct a]|].
  destruct (Z.eqb_spec c d) as [<-|Hne].
  - split; [intros [= <- <-]; split; [done|apply not_elem_of_nil]|]. intros [Heq Ha]. destruct a as [|e a]; [by injection Heq as ->|].
    injection Heq as <- _. exfalso. apply Ha. left.
  - rewrite fmap_Some. split.
    + intros ([a' b'] & Hs & [= -> ->]). apply IH in Hs as [-> Ha]. split; [done|]. by apply not_elem_of_cons.
    + intros [Heq Ha]. destruct a as [|e a]; [by injection Heq as ? ?|]. injection Heq as <- ->.
      apply not_elem_of_cons in Ha as [_ Ha]. exists (a, b). split; [by apply IH|done].
Qed.

Lemma split_once_none c s : split_once c s = None ↔ c ∉ s.
Proof.
  induction s as [|d s IH]; cbn [split_once]; [split; [intros _; apply not_elem_of_nil|done]|].
  rewrite not_elem_of_cons. destruct (Z.eqb_spec c d) as [<-|Hne]; [naive_solver|]. rewrite fmap_None, IH. naive_solver.
Qed.

Lemma find_variable_some s a b : split_once_str variable_start s = Some (a, b) ↔ s = a ++ variable_start ++ b ∧ no_variable a.
Proof.
  revert a. induction s as [|c s IH]; intros a; cbn [split_once_str].
  { split; [done|]. intros [Heq _]. by destruct a. }
  destruct (strip_prefix variable_start (c :: s)) as [rest|] eqn:Hp.
  - apply strip_prefix_some in Hp. rewrite Hp. split.
    + intros [= <- <-]. split; [done|]. intros x y Heq. by destruct x.
    + intros [Heq Ha]. destruct a as [|d [|e a]]; [by injection Heq as ->|exfalso|exfalso].
      * cbn in Heq. by injection Heq as <- ?.
      * cbn in Heq. injection Heq as <- <- _. by apply (Ha [] a).
  - assert (Hno : ∀ rest, c :: s ≠ variable_start ++ rest).
    { intros rest Heq. apply strip_prefix_some in Heq. congruence. }
    rewrite fmap_Some. split.
    + intros ([a' b'] & Hs & [= -> ->]). apply IH in Hs as [-> Ha]. split; [done|].
      intros x y Heq. destruct x as [|d x]; [|injection Heq as <- Heq; by apply (Ha x y)].
      destruct a' as [|e a']; [done|]. cbn in Heq. injection Heq as -> -> _. by apply (Hno (a' ++ variable_start ++ b')).
    + intros [Heq Ha]. destruct a as [|d a]; [by apply Hno in Heq|]. injection Heq as <- ->. exists (a, b).
      split; [|done]. apply IH. split; [done|]. intros x y ->. by apply (Ha (c :: x) y).
Qed.

Lemma find_variable_none s : split_once_str variable_start s = None ↔ no_variable s.
Proof.
  destruct (split_once_str variable_start s) as [[a b]|] eqn:Hs.
  - apply find_variable_some in Hs as [-> _]. split; [done|]. intros Hno. by destruct (Hno a b).
  - split; [intros _|done]. intros a b ->. revert Hs. induction a as [|c a IH]; [done|]. cbn [app split_once_str].
    destruct (strip_prefix _ _); [done|]. rewrite fmap_None. done.
Qed.

(** ** The expansion follows the reference *)
Section exact.
Context (lookup : str → result str) (gethostname : option (list Z)) (max_bytes : Z).
Hypothesis max_usize : 0 ≤ max_bytes ≤ usize_max.
Abbreviation segment := (segment_expands gethostname).

Lemma push_bounded_ok output value o :
  push_bounded output value max_bytes = Ok o ↔ o = output ++ value ∧ str_len (output ++ value) ≤ max_bytes.
Proof.
  unfold push_bounded, checked_add, try_from, with_context, bail_if. rewrite str_len_app.
  destruct (Z.leb_spec (str_len output + str_len value) usize_max); [|split; [done|intros [_ ?]; lia]]. step_bind.
  destruct (Z.ltb_spec max_bytes (str_len output + str_len value)); [split; [done|intros [_ ?]; lia]|]. step_bind.
  naive_solver.
Qed.

Lemma segment_plain before s out :
  percent ∉ before → segment (before ++ s) out ↔ ∃ out', out = before ++ out' ∧ segment s out'.
Proof.
  revert out. induction before as [|c before IH]; intros out Hb; cbn [app]; [naive_solver|].
  apply not_elem_of_cons in Hb as [Hc Hb]. split.
  - inversion 1; subst; try done. apply IH in H4 as (out' & -> & ?); [|done]. by exists out'.
  - intros (out' & -> & Hs). constructor; [done|]. apply IH; [done|]. by exists out'.
Qed.

Definition cache_ok (cache : option LocalHostnames) : Prop :=
  ∀ names, cache = Some names → query_local_hostnames gethostname = Ok names.

Lemma cached_ok cache names :
  cache_ok cache → cached_hostnames gethostname cache = Ok names ↔ query_local_hostnames gethostname = Ok names.
Proof.
  intros Hc. destruct cache as [n|]; cbn; [|done]. specialize (Hc n eq_refl). split; [|congruence].
  by intros [= <-].
Qed.
(** A percent token, as the loop handles it. *)
Definition token_value (token : char) (value : str) : Prop :=
  (token = percent ∧ value = [percent]) ∨
  ∃ names, query_local_hostnames gethostname = Ok names ∧
    ((token = ch "l" ∧ value = full names) ∨ (token = ch "L" ∧ value = short names)).

Lemma segment_token token s out :
  segment (percent :: token :: s) out ↔ ∃ value out', out = value ++ out' ∧ token_value token value ∧ segment s out'.
Proof.
  split.
  - inversion 1; subst; [done| | |].
    + exists [percent], out0. split; [done|]. split; [by left|done].
    + exists (full names), out0. split; [done|]. split; [right; eauto|done].
    + exists (short names), out0. split; [done|]. split; [right; eauto|done].
  - intros (value & out' & -> & [[-> ->]|(names & Hn & [[-> ->]|[-> ->]])] & Hs); by constructor.
Qed.

Lemma segment_incomplete out : ¬ segment [percent] out.
Proof. inversion 1; subst; done. Qed.

Lemma segment_no_percent s out : percent ∉ s → segment s out ↔ out = s.
Proof.
  intros Hs. rewrite <- (app_nil_r s) at 1. rewrite segment_plain by done. split.
  - intros (out' & -> & Hout). inversion Hout. by rewrite app_nil_r.
  - intros ->. exists []. rewrite app_nil_r. split; [done|constructor].
Qed.

Lemma output_fits a b c : str_len ((a ++ b) ++ c) ≤ max_bytes → str_len (a ++ b) ≤ max_bytes.
Proof. rewrite (str_len_app (a ++ b)). pose proof (str_len_nonneg c). lia. Qed.

(** What the loops return: the output with what the text stands for. *)
Definition extends (state : str * option LocalHostnames) (spec : str → Prop)
    (r : result (str * option LocalHostnames)) : Prop :=
  (∀ state', r = Ok state' → ∃ out, spec out ∧ state'.1 = state.1 ++ out ∧ str_len state'.1 ≤ max_bytes ∧ cache_ok state'.2) ∧
  (∀ out, spec out → str_len (state.1 ++ out) ≤ max_bytes →
    ∃ cache, r = Ok (state.1 ++ out, cache) ∧ cache_ok cache).

(** Push a value, go on with the rest. *)
Lemma extends_push (state : str * option LocalHostnames) cache spec value (f : str → result (str * option LocalHostnames)) :
  extends (state.1 ++ value, cache) spec (f (state.1 ++ value)) →
  extends state (λ out, ∃ out', out = value ++ out' ∧ spec out') (push_bounded state.1 value max_bytes ≫= f).
Proof.
  intros [Hok Hspec]. cbn [fst snd] in *. split.
  - intros state' Hr. apply bind_ok in Hr as (o & Ho & Hr). apply push_bounded_ok in Ho as [-> _].
    destruct (Hok state' Hr) as (out & Hs & Heq & Hlen & Hc). exists (value ++ out). rewrite app_assoc, <- Heq.
    split; [by exists out|done].
  - intros out (out' & -> & Hs) Hlen. assert (push_bounded state.1 value max_bytes = Ok (state.1 ++ value)) as ->.
    { apply push_bounded_ok. split; [done|]. rewrite app_assoc in Hlen. by apply output_fits in Hlen. }
    step_bind. rewrite app_assoc in *. by apply Hspec.
Qed.

Lemma extends_iff state (spec spec' : str → Prop) r :
  (∀ out, spec out ↔ spec' out) → extends state spec r → extends state spec' r.
Proof.
  intros Hiff [H1 H2]. split.
  - intros s' Hs'. destruct (H1 s' Hs') as (out & ? & ?). exists out. by rewrite <- Hiff.
  - intros out Ho. by apply H2, Hiff.
Qed.

Lemma extends_err state (spec : str → Prop) e : (∀ out, ¬ spec out) → extends state spec (Err e).
Proof. intros Hno. split; [done|]. intros out Ho. by destruct (Hno out). Qed.

(** A failure on the way: nothing is promised. *)
Lemma extends_fails {A} state (spec : str → Prop) (e : string) (f : A → result (str * option LocalHostnames)) :
  (∀ out, ¬ spec out) → extends state spec (Err e ≫= f).
Proof. apply extends_err. Qed.

Lemma extends_done state cache output :
  output = state.1 → str_len output ≤ max_bytes → cache_ok cache → extends state (λ out, out = []) (Ok (output, cache)).
Proof.
  intros -> Hlen Hc. split.
  - intros s' [= <-]. exists []. by rewrite app_nil_r.
  - intros out -> _. exists cache. by rewrite app_nil_r.
Qed.

Lemma extends_last state cache value :
  cache_ok cache →
  extends state (λ out, out = value) (push_bounded state.1 value max_bytes ≫= λ output, Ok (output, cache)).
Proof.
  intros Hc. split.
  - intros s' Hr. apply bind_ok in Hr as (o & Ho & [= <-]). apply push_bounded_ok in Ho as [-> Hlen]. by exists value.
  - intros out -> Hlen. exists cache. split; [|done].
    assert (push_bounded state.1 value max_bytes = Ok (state.1 ++ value)) as -> by by apply push_bounded_ok. done.
Qed.

Lemma percent_extends fuel state rest :
  (length rest < fuel)%nat → cache_ok state.2 →
  extends state (segment rest) (expand_percent_tokens gethostname max_bytes fuel state rest).
Proof.
  revert state rest. induction fuel as [|fuel IH]; intros state rest Hfuel Hcache; [lia|]. cbn [expand_percent_tokens].
  destruct (split_once percent rest) as [[before after]|] eqn:Hs.
  2: { apply split_once_none in Hs. apply (extends_iff _ (λ out, out = rest)); [|by apply extends_last].
       intros out. by rewrite segment_no_percent. }
  apply split_once_some in Hs as [-> Hb]. rewrite length_app in Hfuel. cbn [length] in Hfuel.
  apply (extends_iff _ (λ out, ∃ out', out = before ++ out' ∧ segment (percent :: after) out')).
  { intros out. by rewrite segment_plain. }
  apply (extends_push state state.2). destruct after as [|token rest].
  { apply extends_err. apply segment_incomplete. }
  cbn [length] in Hfuel. set (state1 := (state.1 ++ before, state.2)). change (state.1 ++ before) with state1.1.
  destruct (Z.eqb_spec token percent) as [->|Hnp]; [|destruct ((token =? ch "l") || (token =? ch "L")) eqn:Htok].
  - apply (extends_iff _ (λ out, ∃ out', out = [percent] ++ out' ∧ segment rest out')).
    { intros out. rewrite segment_token. split.
      - intros (out' & -> & ?). exists [percent], out'. split; [done|]. split; [by left|done].
      - intros (value & out' & -> & [[_ ->]|(? & _ & [[Hl _]|[Hl _]])] & ?); [by exists out'|discriminate Hl..]. }
    apply (extends_push state1 state.2). apply IH; [lia|done].
  - destruct (cached_hostnames gethostname state.2) as [names|e] eqn:Hnames.
    + apply cached_ok in Hnames; [|done]. step_bind.
      apply (extends_iff _ (λ out, ∃ out', out = (if token =? ch "l" then full names else short names) ++ out' ∧ segment rest out')).
      { intros out. rewrite segment_token. split.
        - intros (out' & -> & ?). eexists _, out'. split; [done|]. split; [|done]. right. exists names. split; [done|].
          destruct (Z.eqb_spec token (ch "l")) as [->|Hl]; [by left|right].
          cbn [orb] in Htok. by apply Z.eqb_eq in Htok as ->.
        - intros (value & out' & -> & [[-> _]|(names' & Hn & Hv)] & ?); [done|]. exists out'. split; [|done].
          assert (names' = names) as -> by congruence. f_equal. destruct Hv as [[-> ->]|[-> ->]]; done. }
      apply (extends_push state1 (Some names)). apply IH; [lia|]. by intros ? [= <-].
    + apply extends_fails. intros out. rewrite segment_token.
      intros (value & out' & -> & [[-> _]|(names' & Hn & Hv)] & ?); [done|].
      apply (cached_ok state.2) in Hn; [congruence|done].
  - apply extends_err. intros out. rewrite segment_token.
    intros (value & out' & -> & [[-> _]|(names' & Hn & [[-> _]|[-> _]])] & ?); done.
Qed.

(** *** Variables *)
Lemma extends_bind state (spec1 spec2 : str → Prop) r f :
  extends state spec1 r → (∀ state1, cache_ok state1.2 → extends state1 spec2 (f state1)) →
  extends state (λ out, ∃ o1 o2, out = o1 ++ o2 ∧ spec1 o1 ∧ spec2 o2) (r ≫= f).
Proof.
  intros [H1 H2] Hf. split.
  - intros s' Hr. apply bind_ok in Hr as (s1 & Hr & Hs'). destruct (H1 s1 Hr) as (o1 & Ho1 & Heq1 & Hl1 & Hc1).
    destruct (Hf s1 Hc1) as [Hf1 _]. destruct (Hf1 s' Hs') as (o2 & Ho2 & Heq2 & Hl2 & Hc2).
    exists (o1 ++ o2). rewrite Heq2, Heq1, <- app_assoc in *. split; [by exists o1, o2|done].
  - intros out (o1 & o2 & -> & Ho1 & Ho2) Hlen. rewrite app_assoc in Hlen.
    destruct (H2 o1 Ho1) as (cache & -> & Hc); [by apply output_fits in Hlen|]. step_bind.
    destruct (Hf (state.1 ++ o1, cache) Hc) as [_ Hf2]. destruct (Hf2 o2 Ho2 Hlen) as (c2 & -> & ?).
    exists c2. cbn [fst]. by rewrite <- app_assoc.
Qed.

Lemma expands_no_variable s out : no_variable s → expands lookup gethostname s out ↔ segment s out.
Proof.
  intros Hno. split; [|by apply expands_last]. intros Hs. destruct Hs as [s out _ Hs|s ? name]; [done|].
  by destruct (Hno s (name ++ close_brace :: rest)).
Qed.

(** The first variable of a text is determined. *)
Lemma first_variable_unique s x before y :
  no_variable s → no_variable before → s ++ variable_start ++ x = before ++ variable_start ++ y → s = before ∧ x = y.
Proof.
  intros Hs Hb Heq. assert (split_once_str variable_start (s ++ variable_start ++ x) = Some (s, x)) as H1
    by by apply find_variable_some.
  rewrite Heq in H1. assert (split_once_str variable_start (before ++ variable_start ++ y) = Some (before, y)) as H2
    by by apply find_variable_some.
  rewrite H2 in H1. by injection H1 as -> ->.
Qed.

Lemma expands_first before name rest out :
  no_variable before → close_brace ∉ name →
  expands lookup gethostname (before ++ variable_start ++ name ++ close_brace :: rest) out ↔
  ∃ o1 o2, out = o1 ++ o2 ∧ segment before o1 ∧
    ∃ value out', o2 = value ++ out' ∧ name ≠ [] ∧ lookup name = Ok value ∧ expands lookup gethostname rest out'.
Proof.
  intros Hb Hname. split.
  - intros He. inversion He as [s o Hno Hs Heq1 Heq2|s o name' value rest' o' Hno Hs Hn Hne Hv Hrest Heq1 Heq2]; subst.
    { by destruct (Hno before (name ++ close_brace :: rest)). }
    destruct (first_variable_unique s (name' ++ close_brace :: rest') before (name ++ close_brace :: rest) Hno Hb Heq1) as [-> Heq].
    assert (split_once close_brace (name ++ close_brace :: rest) = Some (name, rest)) as Hc1 by by apply split_once_some.
    rewrite <- Heq in Hc1. assert (split_once close_brace (name' ++ close_brace :: rest') = Some (name', rest')) as Hc2
      by by apply split_once_some. rewrite Hc2 in Hc1. injection Hc1 as -> ->.
    exists o, (value ++ o'). split; [done|]. split; [done|]. by exists value, o'.
  - intros (o1 & o2 & -> & Hs & value & out' & -> & Hne & Hv & Hrest). by apply expands_variable.
Qed.

Lemma expands_unterminated before rest out :
  no_variable before → close_brace ∉ rest → ¬ expands lookup gethostname (before ++ variable_start ++ rest) out.
Proof.
  intros Hb Hrest He. inversion He as [s o Hno Hs Heq1 Heq2|s o name' value rest' o' Hno Hs Hn Hne Hv Hr Heq1 Heq2]; subst.
  - by destruct (Hno before rest).
  - destruct (first_variable_unique s (name' ++ close_brace :: rest') before rest Hno Hb Heq1) as [-> <-].
    apply Hrest. set_solver.
Qed.

Lemma variables_extend fuel state rest :
  (length rest < fuel)%nat → cache_ok state.2 →
  extends state (expands lookup gethostname rest) (expand_variables lookup gethostname max_bytes fuel state rest).
Proof.
  revert state rest. induction fuel as [|fuel IH]; intros state rest Hfuel Hcache; [lia|]. cbn [expand_variables].
  destruct (split_once_str variable_start rest) as [[before after]|] eqn:Hs.
  2: { apply find_variable_none in Hs. apply (extends_iff _ (segment rest)); [|apply percent_extends; [lia|done]].
       intros out. by rewrite expands_no_variable. }
  apply find_variable_some in Hs as [-> Hb]. rewrite !length_app in Hfuel. cbn [length variable_start] in Hfuel.
  destruct (split_once close_brace after) as [[name rest]|] eqn:Hc.
  - apply split_once_some in Hc as [-> Hname]. rewrite length_app in Hfuel. cbn [length] in Hfuel.
    eapply extends_iff; [intros out; symmetry; by apply expands_first|].
    apply extends_bind; [apply percent_extends; [lia|done]|]. intros state1 Hc1. unfold bail_if.
    case_bool_decide as Hne; [apply extends_fails; by intros ? (? & ? & _ & ? & _)|]. step_bind.
    destruct (lookup name) as [value|e] eqn:Hv; [|apply extends_fails; intros ? (? & ? & _ & _ & ? & _); congruence]. step_bind.
    apply (extends_iff _ (λ out, ∃ out', out = value ++ out' ∧ expands lookup gethostname rest out')); [naive_solver|].
    apply (extends_push state1 state1.2). apply IH; [lia|done].
  - apply split_once_none in Hc.
    apply (extends_iff _ (λ out, ∃ o1 o2, out = o1 ++ o2 ∧ segment before o1 ∧ False)).
    { intros out. split; [by intros (? & ? & _ & _ & [])|]. intros He. by apply expands_unterminated in He. }
    apply extends_bind; [apply percent_extends; [lia|done]|]. intros state1 _. apply extends_err. by intros ? [].
Qed.
End exact.

(** The expansion of an [Include] path is exact.  It succeeds with [out]
    exactly when [out] fits the limit and is the text with every [${NAME}] replaced
    by the value of the variable, [%%] by a percent sign, [%l] and [%L] by the
    local host name and its first label, in one pass: what a variable brings in is
    not expanded again.  Everything else, an unknown token, an unset or empty
    name, an unterminated variable, is an error, and the loops always end. *)
Theorem expand_include_exact lookup gethostname max_bytes value out :
  0 ≤ max_bytes ≤ usize_max →
  expand_include_environment_with lookup gethostname max_bytes value = Ok out ↔
  expands lookup gethostname value out ∧ str_len out ≤ max_bytes.
Proof.
  intros Hmax. unfold expand_include_environment_with. rewrite fmap_ok.
  destruct (variables_extend lookup gethostname max_bytes Hmax (S (length value)) ([], None) value) as [H1 H2]; [lia|done|].
  split.
  - intros (state & Hr & ->). destruct (H1 state Hr) as (o & Ho & -> & Hlen & _). done.
  - intros [Ho Hlen]. destruct (H2 out Ho Hlen) as (cache & Hr & _). by exists (out, cache).
Qed.

(** ** Examples *)
Module Examples.

Definition env (name : str) : result str :=
  if bool_decide (name = lit "CONF_ROOT") then Ok (lit "conf.d")
  else if bool_decide (name = lit "NESTED") then Ok (lit "${CONF_ROOT}%l")
  else Err "unset".
Definition host_buffer : option (list Z) := Some (lit "db1.example" ++ [0; 65]).

Example expand_all :
  expand_include_environment_with env host_buffer 16384 (lit "$5/${CONF_ROOT}/%L/%l%%/${NESTED}")
  = Ok (lit "$5/conf.d/db1/db1.example%/${CONF_ROOT}%l").
Proof. vm_compute. reflexivity. Qed.

Lemma expand_include_exact_witness :
  0 ≤ 6 ≤ usize_max ∧ expands env host_buffer (lit "${CONF_ROOT}") (lit "conf.d").
Proof.
  assert (0 ≤ 6 ≤ usize_max) as Hmax by (unfold usize_max, u64_max; lia). split; [exact Hmax|].
  apply (expand_include_exact env host_buffer 6 (lit "${CONF_ROOT}") (lit "conf.d") Hmax). vm_compute. reflexivity.
Defined.

End Examples.
