(* ===== verification/OpenSshInclude.v ===== *)
(** * OpenSSH [Include] ([crates/kaduox-ssh-openssh/src/openssh_include.rs],
      [openssh_config_trust.rs])

    Reading trusted configuration files, the arguments of [Include], their
    expansion to files, and the recursive expansion of a configuration for one
    host, with its limits on depth, files and bytes and its cycle check.

    The file system and the parser of the [russh-config] package are parameters;
    paths follow the rules of Unix. *)

From stdpp Require Import base list gmap strings numbers sorting.
From Stdlib Require Import Lia.
From S2P Require Import Prelude RustStr StrFacts Glob OpenSshMatch IncludeEnv RemotePath.

(** ** Definitions *)
Definition MAX_INCLUDE_DEPTH : Z := 16.
Definition MAX_INCLUDE_FILES : Z := 256.
Definition MAX_INCLUDE_ARGUMENTS_PER_LINE : Z := 64.
Definition MAX_INCLUDE_PATH_BYTES : Z := 16 * 1024.
Definition MAX_GLOB_COMPONENT_BYTES : Z := 1024.
Definition ACTIVE_PROBE_PORT : Z := 65534.
Definition FALLBACK_PROBE_PORT : Z := 65535.
Definition MAX_CONFIG_FILE_BYTES : Z := 4 * 1024 * 1024.

(** The answer of a file system call: [NotFound] is the kind the code tells apart. *)
Inductive io_result (A : Type) := IoOk (a : A) | NotFound | IoErr (e : string).
Arguments IoOk {A} a. Arguments NotFound {A}. Arguments IoErr {A} e.

(** An open file: what [fstat] says and what reading gives. *)
Record OpenFile := mk_open_file { is_file : bool; owner_uid : Z; file_mode : Z; content : list Z }.

(** The system the code runs on. *)
Record System := mk_system {
  canonicalize : str → result str;
  open_file : str → result OpenFile;
  (* the names are bytes, and each may be an error *)
  read_dir : str → io_result (list (result (list Z)));
  metadata_is_file : str → io_result bool;
  env_var : str → result str;
  hostname_buffer : option (list Z);
  getuid : Z;
}.

(** *** Arguments *)

(** The loop of [parse_arguments] and what follows it. *)
Fixpoint parse_arguments_from (output : list str) (current : str) (quote : option char) (escaped : bool) (input : str)
    : result (list str) :=
  let finish :=
    bail_if escaped "OpenSSH Include ends with an incomplete escape" ≫= λ _,
    bail_if (bool_decide (quote ≠ None)) "OpenSSH Include contains an unterminated quote" ≫= λ _,
    Ok (if bool_decide (current = []) then output else output ++ [current]) in
  match input with
  | [] => finish
  | c :: input =>
      if escaped then
        let current := if (c =? star) || (c =? question) || (c =? 92) then current ++ [92] else current in
        parse_arguments_from output (current ++ [c]) quote false input
      else if (c =? 92) && bool_decide (quote ≠ Some 39) then parse_arguments_from output current quote true input
      else match quote with
      | Some active =>
          if c =? active then parse_arguments_from output current None false input
          else parse_arguments_from output (current ++ [c]) quote false input
      | None =>
          if (c =? 39) || (c =? dquote) then parse_arguments_from output current (Some c) false input
          else if c =? hash then finish
          else if is_ascii_whitespace c then
            parse_arguments_from (if bool_decide (current = []) then output else output ++ [current]) [] None false input
          else parse_arguments_from output (current ++ [c]) None false input
      end
  end.
Definition parse_arguments (input : str) : result (list str) := parse_arguments_from [] [] None false input.

Definition include_arguments (line : str) : result (option (list str)) :=
  match directive_key line with
  | None => Ok None
  | Some key =>
      if negb (eq_ignore_ascii_case key (lit "include")) then Ok None
      else Some <$> parse_arguments (after_key line key)
  end.

Definition validate_include_arguments (arguments : list str) : result unit :=
  bail_if (bool_decide (arguments = [])) "OpenSSH Include requires at least one path" ≫= λ _,
  bail_if (MAX_INCLUDE_ARGUMENTS_PER_LINE <? zlen arguments) "OpenSSH Include exceeds the per-line safety limit".

Definition push_bounded (output text : str) : result str :=
  with_context (checked_add usize_max (str_len output) (str_len text))
    "OpenSSH Include output byte accounting overflow" ≫= λ new_len,
  bail_if (MAX_CONFIG_BYTES <? new_len) "expanded OpenSSH configuration exceeds the safety limit" ≫= λ _,
  Ok (output ++ text).

Definition push_line (output line : str) : result str :=
  push_bounded output line ≫= λ output, push_bounded output [LF].

(** *** Paths and globs *)

(** [component.as_os_str()] *)
Definition component_str (c : Component) : str :=
  match c with RootDir => [slash] | CurDir => dot | ParentDir => dotdot | Normal name => name end.

(** [Path::join]. *)
Definition path_join (path p : str) : str := path_push path p.

Definition is_meta (c : char) : bool := (c =? star) || (c =? question).
Definition contains_glob_meta (segment : str) : bool := existsb is_meta segment.

Definition validate_glob_component (pattern : str) : result unit :=
  bail_if (MAX_GLOB_COMPONENT_BYTES <? str_len pattern) "OpenSSH Include glob component exceeds the safety limit".

Definition pattern_explicitly_starts_with_period (pattern : str) : bool :=
  starts_with pattern [46] || starts_with pattern [92; 46].

(** The candidate is the bytes of a directory entry. *)
Definition glob_segment_matches (pattern : str) (candidate : list Z) : result bool :=
  with_context (from_utf8 candidate) "OpenSSH Include matched a non-UTF-8 path component" ≫= λ candidate,
  glob_match (utf8 pattern) (utf8 candidate).

(** The order of [Path]: its components, the root, [.] and [..] before the names. *)
Definition component_key (c : Component) : str :=
  match c with RootDir => [0] | CurDir => [1] | ParentDir => [2] | Normal name => 3 :: name end.
Definition path_key (path : str) : list str := component_key <$> path_components path.
Fixpoint keys_leb (xs ys : list str) : bool :=
  match xs, ys with
  | [], _ => true
  | _ :: _, [] => false
  | x :: xs, y :: ys => if bool_decide (x = y) then keys_leb xs ys else str_leb x y
  end.
Definition path_le (p q : str) : Prop := Is_true (keys_leb (path_key p) (path_key q)).
#[export] Instance path_le_dec : RelDecision path_le := λ p q, _.

(** [Vec::dedup]. *)
Fixpoint dedup_from (prev : str) (paths : list str) : list str :=
  match paths with
  | [] => []
  | p :: paths => if bool_decide (path_key prev = path_key p) then dedup_from prev paths else p :: dedup_from p paths
  end.
Definition dedup (paths : list str) : list str :=
  match paths with [] => [] | p :: paths => p :: dedup_from p paths end.

Section system.
Context (sys : System).

(** One directory entry of a glob component. *)
Definition glob_entry (segment candidate : str) (allow_hidden : bool) (next : list str) (entry : result (list Z))
    : result (list str) :=
  entry ≫= λ name,
  if negb allow_hidden && bool_decide (head name = Some 46) then Ok next
  else
    glob_segment_matches segment name ≫= λ matched,
    if negb matched then Ok next
    else
      with_context (from_utf8 name) "OpenSSH Include matched a non-UTF-8 path component" ≫= λ name,
      let next := next ++ [path_join candidate name] in
      bail_if (MAX_INCLUDE_FILES <? zlen next) "OpenSSH Include glob expansion exceeds the safety limit" ≫= λ _,
      Ok next.

Definition glob_candidate (segment : str) (allow_hidden : bool) (next : list str) (candidate : str) : result (list str) :=
  match read_dir sys (if bool_decide (candidate = []) then dot else candidate) with
  | NotFound => Ok next
  | IoErr e => Err e
  | IoOk entries => try_fold (glob_entry segment candidate allow_hidden) next entries
  end.

Definition expand_component (candidates : list str) (component : Component) : result (list str) :=
  match component with
  | Normal segment =>
      if contains_glob_meta segment then
        validate_glob_component segment ≫= λ _,
        next ← try_fold (glob_candidate segment (pattern_explicitly_starts_with_period segment)) [] candidates;
        Ok (dedup (merge_sort path_le next))
      else Ok ((λ c, path_push c segment) <$> candidates)
  | _ => Ok ((λ c, path_push c (component_str component)) <$> candidates)
  end.

(** The files among the candidates. *)
Definition push_file (files : list str) (candidate : str) : result (list str) :=
  match metadata_is_file sys candidate with
  | IoOk true => Ok (files ++ [candidate])
  | IoOk false => Err "OpenSSH Include matched a non-file path"
  | NotFound => Ok files
  | IoErr e => Err e
  end.

Definition expand_path_pattern (pattern : str) : result (list str) :=
  candidates ← try_fold expand_component [[]] (path_components pattern);
  files ← try_fold push_file [] candidates;
  Ok (dedup (merge_sort path_le files)).

(** *** Trusted files *)
Definition verify_platform_trust (file : OpenFile) : result unit :=
  bail_if (negb (owner_uid file =? getuid sys) && negb (owner_uid file =? 0))
    "OpenSSH config is owned by another uid; expected the current uid or root" ≫= λ _,
  let mode := Z.land (file_mode file) 4095 in
  bail_if (negb (Z.land mode 18 =? 0)) "OpenSSH config has insecure permissions; group/other write bits must be clear".

Definition read_user_config_file (path : str) : result str :=
  open_file sys path ≫= λ file,
  bail_if (negb (is_file file)) "OpenSSH config path is not a regular file" ≫= λ _,
  verify_platform_trust file ≫= λ _,
  (* at most one byte more than the limit is read *)
  with_context (from_utf8 (take (S (Z.to_nat MAX_CONFIG_FILE_BYTES)) (content file))) "failed to read OpenSSH config"
    ≫= λ contents,
  bail_if (MAX_CONFIG_FILE_BYTES <? str_len contents) "OpenSSH config exceeds the per-file safety limit" ≫= λ _,
  Ok contents.
End system.

(** *** The expansion: a state and an error *)
Record ExpansionState := mk_expansion { files_seen : Z; bytes_read : Z; active_paths : gset str }.
Definition new_expansion : ExpansionState := mk_expansion 0 0 ∅.

Definition expand (A : Type) : Type := ExpansionState → result A * ExpansionState.
#[export] Instance expand_ret : MRet expand := λ A a s, (Ok a, s).
#[export] Instance expand_bind : MBind expand := λ A B f m s,
  match m s with (Ok a, s) => f a s | (Err e, s) => (Err e, s) end.
Definition lift {A} (r : result A) : expand A := λ s, (r, s).

(** [for x in l { acc = f(acc, x)?; }] *)
Fixpoint expand_fold {A B} (f : B → A → expand B) (acc : B) (l : list A) : expand B :=
  match l with
  | [] => mret acc
  | x :: l => f acc x ≫= λ acc, expand_fold f acc l
  end.

Section expansion.
Context (sys : System).
(** [russh_config::parse(text, host)], of which only the port is looked at. *)
Context (russh_port : str → str → result Z).
Context (home : str) (original_host : option str).

Definition connection_host : result str :=
  with_context original_host "OpenSSH connection expansion requires an original host".

Definition enter_file (path : str) (depth : Z) : expand str := λ s,
  if MAX_INCLUDE_DEPTH <? depth then (Err "OpenSSH Include nesting exceeds the safety limit", s)
  else if MAX_INCLUDE_FILES <=? files_seen s then (Err "OpenSSH Include expansion exceeds the file safety limit", s)
  else
    match canonicalize sys path with
    | Err e => (Err e, s)
    | Ok identity =>
        if bool_decide (identity ∈ active_paths s) then (Err "OpenSSH Include cycle detected", s)
        else (Ok identity, mk_expansion (files_seen s + 1) (bytes_read s) ({[ identity ]} ∪ active_paths s))
    end.

Definition leave_file (identity : str) (s : ExpansionState) : ExpansionState :=
  mk_expansion (files_seen s) (bytes_read s) (active_paths s ∖ {[ identity ]}).

(** Between [enter_file] and the removal of the file from the active ones,
    whether [inner] fails or not. *)
Definition within_file {A} (path : str) (depth : Z) (inner : expand A) : expand A := λ s,
  match enter_file path depth s with
  | (Err e, s) => (Err e, s)
  | (Ok identity, s) => let '(r, s) := inner s in (r, leave_file identity s)
  end.

Definition account_input_bytes (additional : Z) : expand unit := λ s,
  match checked_add usize_max (bytes_read s) additional with
  | None => (Err "OpenSSH Include byte accounting overflow", s)
  | Some bytes =>
      let s := mk_expansion (files_seen s) bytes (active_paths s) in
      (bail_if (MAX_CONFIG_BYTES <? bytes) "OpenSSH configuration input exceeds the safety limit", s)
  end.

Definition read_config (path : str) : expand str :=
  lift (read_user_config_file sys path) ≫= λ contents,
  account_input_bytes (str_len contents) ≫= λ _,
  mret contents.

Definition anchor_user_include (value : str) : result str :=
  bail_if (bool_decide (value = [])) "OpenSSH Include path cannot be empty" ≫= λ _,
  bail_if (MAX_INCLUDE_PATH_BYTES <? str_len value) "OpenSSH Include path exceeds the safety limit" ≫= λ _,
  bail_if (existsb is_control value) "OpenSSH Include path cannot contain control characters" ≫= λ _,
  expand_include_environment_with (env_var sys) (hostname_buffer sys) MAX_INCLUDE_PATH_BYTES value ≫= λ value,
  bail_if (existsb is_control value) "expanded OpenSSH Include path cannot contain control characters" ≫= λ _,
  bail_if (contains_char value 91 || contains_char value 93)
    "OpenSSH Include bracket glob expressions are not supported yet" ≫= λ _,
  if bool_decide (value = lit "~") then Ok home
  else
    match strip_prefix (lit "~/") value with
    | Some rest => Ok (path_join home rest)
    | None =>
        match strip_prefix (lit "~\") value with
        | Some rest => Ok (path_join home rest)
        | None =>
            if starts_with value (lit "~") then Err "OpenSSH Include ~user expansion is not supported"
            else if starts_with value [slash] then Ok value
            else Ok (path_join (path_join home (lit ".ssh")) value)
        end
    end.

(** The probes given to the parser. *)
Definition probe (line : str) : str :=
  line ++ [LF] ++ lit "  Port " ++ dec_of ACTIVE_PROBE_PORT ++ [LF] ++ host_all ++ [LF] ++
  lit "  Port " ++ dec_of FALLBACK_PROBE_PORT ++ [LF].

Definition host_directive_matches (line host : str) : result bool :=
  russh_port (probe line) host ≫= λ port, Ok (port =? ACTIVE_PROBE_PORT).

Definition supported_match_directive_matches (line host : str) : result bool :=
  rewrite_supported_match_config (probe line) host ≫= λ rewritten,
  russh_port rewritten host ≫= λ port, Ok (port =? ACTIVE_PROBE_PORT).

Definition valid_port (value : str) : bool :=
  match parse_uint u16_max value with Some port => 0 <? port | None => false end.

Definition validate_inactive_option (line host : str) : result unit :=
  match directive_key line with
  | None => Ok tt
  | Some key =>
      bail_if (eq_ignore_ascii_case key (lit "port") && negb (valid_port (trim (after_key line key))))
        "invalid OpenSSH Port value" ≫= λ _,
      russh_port (host_all ++ [LF] ++ line ++ [LF]) host ≫= λ _, Ok tt
  end.

(** The files an argument stands for. *)
Definition included_files (argument : str) : result (list str) :=
  anchor_user_include argument ≫= expand_path_pattern sys.

(** Append an included text, ended by a line feed. *)
Definition push_included (newline_if_empty : bool) (expanded included : str) : result str :=
  push_bounded expanded included ≫= λ expanded,
  if (newline_if_empty || negb (bool_decide (included = []))) && negb (ends_with included [LF])
  then push_bounded expanded [LF] else Ok expanded.

(** The bodies of the loops over the files and the arguments. *)
Definition include_file (recurse : str → expand str) (newline_if_empty : bool) (expanded : str) (include : str) : expand str :=
  recurse include ≫= λ included, lift (push_included newline_if_empty expanded included).

Definition include_argument (recurse : str → expand str) (newline_if_empty : bool) (expanded argument : str) : expand str :=
  lift (included_files argument) ≫= λ files, expand_fold (include_file recurse newline_if_empty) expanded files.

(** One line of a file; [recurse] expands an included one, given the active
    state and whether nothing may match. *)
Definition connection_line (recurse : bool → bool → str → expand str) (never_match : bool) (host : str)
    (state : str * bool) (line : str) : expand (str * bool) :=
  let '(expanded, active) := state in
  let key := directive_key line in
  let key_is name := match key with Some key => eq_ignore_ascii_case key name | None => false end in
  if key_is (lit "host") then
    lift (host_directive_matches line host) ≫= λ matched, mret (expanded, negb never_match && matched)
  else if key_is (lit "match") then
    lift (supported_match_directive_matches line host) ≫= λ matched, mret (expanded, negb never_match && matched)
  else
    lift (include_arguments line) ≫= λ arguments,
    match arguments with
    | None =>
        if active then lift (push_line expanded line) ≫= λ expanded, mret (expanded, active)
        else lift (validate_inactive_option line host) ≫= λ _, mret (expanded, active)
    | Some arguments =>
        lift (validate_include_arguments arguments) ≫= λ _,
        expand_fold (include_argument (recurse active (never_match || negb active)) false) expanded arguments
          ≫= λ expanded, mret (expanded, active)
    end.

(** The recursion is bounded by the depth: [fuel] levels are left. *)
Fixpoint expand_connection_file (fuel : nat) (path : str) (depth : Z) (inherited_active never_match : bool)
    : expand str :=
  match fuel with
  | O => lift (Err "out of fuel")
  | S fuel =>
      within_file path depth
        (read_config path ≫= λ contents,
         lift connection_host ≫= λ host,
         expand_fold (connection_line (λ active never path, expand_connection_file fuel path (depth + 1) active never)
                        never_match host) ([], inherited_active && negb never_match) (lines contents) ≫= λ state,
         mret state.1)
  end.

Definition catalog_line (recurse : str → expand str) (expanded line : str) : expand str :=
  lift (include_arguments line) ≫= λ arguments,
  match arguments with
  | None => lift (push_line expanded line)
  | Some arguments =>
      lift (validate_include_arguments arguments) ≫= λ _,
      expand_fold (include_argument recurse true) expanded arguments
  end.

Fixpoint expand_catalog_file (fuel : nat) (path : str) (depth : Z) : expand str :=
  match fuel with
  | O => lift (Err "out of fuel")
  | S fuel =>
      within_file path depth
        (read_config path ≫= λ contents,
         expand_fold (catalog_line (λ path, expand_catalog_file fuel path (depth + 1))) [] (lines contents))
  end.
End expansion.

(** Enough levels for any depth that is entered. *)
Definition include_fuel : nat := S (S (Z.to_nat MAX_INCLUDE_DEPTH)).

Definition expand_user_config (sys : System) (russh_port : str → str → result Z) (root home original_host : str)
    : result str :=
  let '(r, _) := expand_connection_file sys russh_port home (Some original_host) include_fuel root 0 true false
                   new_expansion in
  r ≫= λ root_contents, push_bounded (host_all ++ [LF]) root_contents.

Definition expand_user_config_for_catalog (sys : System) (root home : str) : result str :=
  (expand_catalog_file sys home include_fuel root 0 new_expansion).1.
