(* ===== verification/IncludeScope.v ===== *)
(** * What an expanded OpenSSH configuration holds

    A reference semantics of [Include], [Host] and [Match] for one host, without
    limits, buffers or recursion depth; and the theorems that the expansion of
    [OpenSshInclude] follows it, keeps its limits, ends, and emits nothing from a
    file that is included where nothing may match. *)

From stdpp Require Import base list gmap strings numbers sorting.
From Stdlib Require Import Lia.
From S2P Require Import Prelude RustStr StrFacts Glob OpenSshMatch IncludeEnv RemotePath OpenSshInclude.

(** ** The reference semantics *)
Section reference.
Context (sys : System) (russh_port : str → str → result Z) (home host : str).

(** [active]: the options apply to the host; [never]: nothing below may match. *)
Inductive file_expands : bool → bool → str → list str → Prop :=
| file_intro active never path text active' out :
    read_user_config_file sys path = Ok text →
    block_expands never (active && negb never) (lines text) active' out →
    file_expands active never path out
with block_expands : bool → bool → list str → bool → list str → Prop :=
| block_nil never active : block_expands never active [] active []
| block_host never active line ls matched active' out :
    directive_of line = HostLine → host_directive_matches russh_port line host = Ok matched →
    block_expands never (negb never && matched) ls active' out →
    block_expands never active (line :: ls) active' out
| block_match never active line ls matched active' out :
    directive_of line = MatchLine → supported_match_directive_matches russh_port line host = Ok matched →
    block_expands never (negb never && matched) ls active' out →
    block_expands never active (line :: ls) active' out
| block_option never active line ls active' out :
    directive_of line = OptionLine ∨ directive_of line = BlankLine →
    (active = false → validate_inactive_option russh_port line host = Ok tt) →
    block_expands never active ls active' out →
    block_expands never active (line :: ls) active' ((if active then [line] else []) ++ out)
| block_include never active line ls arguments files included active' out :
    directive_of line = IncludeLine → include_arguments line = Ok (Some arguments) →
    validate_include_arguments arguments = Ok tt →
    Forall2 (λ argument fs, included_files sys home argument = Ok fs) arguments files →
    (* an included file keeps its own state: the state here is the one before *)
    files_expand active (never || negb active) (concat files) included →
    block_expands never active ls active' out →
    block_expands never active (line :: ls) active' (included ++ out)
with files_expand : bool → bool → list str → list str → Prop :=
| files_nil active never : files_expand active never [] []
| files_cons active never f fs out outs :
    file_expands active never f out → files_expand active never fs outs →
    files_expand active never (f :: fs) (out ++ outs).

Scheme file_expands_ind' := Minimality for file_expands Sort Prop
  with block_expands_ind' := Minimality for block_expands Sort Prop
  with files_expand_ind' := Minimality for files_expand Sort Prop.
Combined Scheme expands_mutind from file_expands_ind', block_expands_ind', files_expand_ind'.

Lemma block_app never active ls active1 out1 ks active2 out2 :
  block_expands never active ls active1 out1 → block_expands never active1 ks active2 out2 →
  block_expands never active (ls ++ ks) active2 (out1 ++ out2).
Proof.
  intros H1 H2. induction H1; cbn [app]; [done|..]; rewrite <- ?app_assoc.
  - by eapply block_host; [..|apply IHblock_expands].
  - by eapply block_match; [..|apply IHblock_expands].
  - by eapply block_option; [..|apply IHblock_expands].
  - by eapply block_include; [..|apply IHblock_expands].
Qed.

Lemma files_app active never fs out gs outs :
  files_expand active never fs out → files_expand active never gs outs →
  files_expand active never (fs ++ gs) (out ++ outs).
Proof. intros H1 H2. induction H1; cbn [app]; [done|]. rewrite <- app_assoc. by constructor; [|apply IHfiles_expand]. Qed.

(** Where nothing may match, nothing is emitted. *)
Lemma never_emits_nothing :
  (∀ active never path out, file_expands active never path out → never = true → out = []) ∧
  (∀ never active ls active' out, block_expands never active ls active' out → never = true → active = false → out = []) ∧
  (∀ active never fs out, files_expand active never fs out → never = true → out = []).
Proof.
  apply expands_mutind; try done.
  - intros active never path text active' out _ _ IH ->. apply IH; [done|]. by destruct active.
  - intros never active line ls matched active' out _ _ _ IH -> _. by apply IH.
  - intros never active line ls matched active' out _ _ _ IH -> _. by apply IH.
  - intros never active line ls active' out _ _ _ IH -> ->. by rewrite IH.
  - intros never active line ls args files included active' out _ _ _ _ _ IHf _ IH -> ->. by rewrite IHf, IH.
  - intros active never f fs out outs _ IHf _ IH ->. by rewrite IHf, IH.
Qed.

(** Only option lines are emitted. *)
Definition option_line (line : str) : Prop := directive_of line = OptionLine ∨ directive_of line = BlankLine.

Lemma emits_options :
  (∀ active never path out, file_expands active never path out → Forall option_line out) ∧
  (∀ never active ls active' out, block_expands never active ls active' out → Forall option_line out) ∧
  (∀ active never fs out, files_expand active never fs out → Forall option_line out).
Proof.
  apply expands_mutind; intros; rewrite ?Forall_app; try done.
  split; [|done]. destruct active; [by apply Forall_singleton|constructor].
Qed.
End reference.

(** ** The expansion follows it *)

(** The limits of the state. *)
Definition within_limits (s : ExpansionState) : Prop :=
  0 ≤ files_seen s ≤ MAX_INCLUDE_FILES ∧ 0 ≤ bytes_read s ≤ MAX_CONFIG_BYTES.

(** A computation that, when it returns, keeps the limits, puts the active files
    back as they were, and returns what [P] says. *)
Definition yields {A} (m : expand A) (P : A → Prop) : Prop :=
  ∀ s a s', within_limits s → m s = (Ok a, s') → within_limits s' ∧ active_paths s' = active_paths s ∧ P a.

Lemma yields_ret {A} (a : A) (P : A → Prop) : P a → yields (mret a) P.
Proof. intros Ha s b s' Hs [= <- <-]. done. Qed.

Lemma yields_lift {A} (r : result A) (P : A → Prop) : (∀ a, r = Ok a → P a) → yields (lift r) P.
Proof. intros Hr s a s' Hs [= Ha <-]. auto. Qed.

Lemma yields_lift_ok {A} (r : result A) : yields (lift r) (λ a, r = Ok a).
Proof. by apply yields_lift. Qed.

Lemma yields_bind {A B} (m : expand A) (f : A → expand B) P Q :
  yields m P → (∀ a, P a → yields (f a) Q) → yields (m ≫= f) Q.
Proof.
  intros Hm Hf s b s' Hs. unfold mbind, expand_bind. destruct (m s) as [[a|e] s1] eqn:Hm1; [|done].
  destruct (Hm s a s1 Hs Hm1) as (Hs1 & Hact & Ha). intros Hb. destruct (Hf a Ha s1 b s' Hs1 Hb) as (? & ? & ?).
  split_and!; [done|congruence|done].
Qed.

Lemma yields_impl {A} (m : expand A) (P Q : A → Prop) : yields m P → (∀ a, P a → Q a) → yields m Q.
Proof. intros Hm HPQ s a s' Hs Ha. destruct (Hm s a s' Hs Ha) as (? & ? & ?). auto. Qed.

Lemma yields_fold {A B} (f : B → A → expand B) (I : list A → B → Prop) acc l :
  I [] acc → (∀ pre x post acc, l = pre ++ x :: post → I pre acc → yields (f acc x) (I (pre ++ [x]))) →
  yields (expand_fold f acc l) (I l).
Proof.
  intros Hacc Hf. cut (∀ pre acc, I pre acc → ∀ post, l = pre ++ post → yields (expand_fold f acc post) (I l)).
  { intros H. by apply (H [] acc). }
  clear acc Hacc. intros pre acc Hacc post. revert pre acc Hacc. induction post as [|x post IH]; intros pre acc Hacc Hl.
  { rewrite Hl, app_nil_r. by apply yields_ret. }
  cbn [expand_fold]. eapply yields_bind; [by eapply Hf|]. intros acc' Hacc'.
  apply (IH (pre ++ [x])); [done|]. by rewrite <- app_assoc.
Qed.

Lemma yields_within_file {A} sys path depth (inner : expand A) P :
  yields inner P → yields (within_file sys path depth inner) P.
Proof.
  intros Hin s a s' [Hf Hb]. unfold within_file, enter_file.
  destruct (Z.ltb_spec MAX_INCLUDE_DEPTH depth); [done|].
  destruct (Z.leb_spec MAX_INCLUDE_FILES (files_seen s)); [done|].
  destruct (canonicalize sys path) as [identity|e]; [|done]. case_bool_decide as Hid; [done|].
  set (s0 := mk_expansion (files_seen s + 1) (bytes_read s) ({[ identity ]} ∪ active_paths s)).
  assert (within_limits s0) as Hs0 by (split; [cbn; lia|exact Hb]).
  destruct (inner s0) as [r s1] eqn:Hr. intros [= -> <-]. destruct (Hin s0 a s1 Hs0 Hr) as (Hs1 & Hact & HP).
  split; [exact Hs1|]. split; [|done]. cbn [active_paths leave_file]. rewrite Hact. cbn [active_paths s0]. set_solver.
Qed.

Lemma push_text_ok output text o :
  push_bounded output text = Ok o ↔ o = output ++ text ∧ str_len (output ++ text) ≤ MAX_CONFIG_BYTES.
Proof.
  unfold push_bounded, checked_add, try_from, with_context, bail_if. rewrite str_len_app.
  assert (MAX_CONFIG_BYTES < usize_max) by done.
  destruct (Z.leb_spec (str_len output + str_len text) usize_max); [|split; [done|intros [_ ?]; lia]]. step_bind.
  destruct (Z.ltb_spec MAX_CONFIG_BYTES (str_len output + str_len text)); [split; [done|intros [_ ?]; lia]|]. step_bind.
  naive_solver.
Qed.

Lemma push_line_ok output line o :
  push_line output line = Ok o → o = output ++ unlines [line] ∧ str_len o ≤ MAX_CONFIG_BYTES.
Proof.
  unfold push_line. intros (o1 & [-> _]%push_text_ok & [-> Hlen]%push_text_ok)%bind_ok.
  assert (unlines [line] = line ++ [LF]) as -> by (unfold unlines; cbn; by rewrite app_nil_r).
  by rewrite app_assoc.
Qed.

Lemma unlines_end ls : ls = [] ∨ ends_with (unlines ls) [LF] = true.
Proof.
  destruct ls as [|l ls] using rev_ind; [by left|right]. rewrite unlines_app.
  assert (unlines [l] = l ++ [LF]) as -> by (unfold unlines; cbn; by rewrite app_nil_r).
  rewrite app_assoc. rewrite ends_with_snoc. done.
Qed.

(** A text made of lines is appended as it is. *)
Lemma push_included_ok expanded out o :
  push_included false expanded (unlines out) = Ok o →
  o = expanded ++ unlines out ∧ str_len o ≤ MAX_CONFIG_BYTES.
Proof.
  unfold push_included. intros (o1 & [-> Hlen]%push_text_ok & Ho)%bind_ok.
  destruct (unlines_end out) as [->|Hend].
  - by injection Ho as <-.
  - rewrite Hend, andb_false_r in Ho. by injection Ho as <-.
Qed.

Section follows.
Context (sys : System) (russh_port : str → str → result Z) (home host : str).
Abbreviation connection := (expand_connection_file sys russh_port home (Some host)).
Abbreviation file_expands' := (file_expands sys russh_port home host).
Abbreviation block_expands' := (block_expands sys russh_port home host).
Abbreviation files_expand' := (files_expand sys russh_port home host).

(** What the expansion of a file returns. *)
Definition text_of (active never : bool) (path text : str) : Prop :=
  ∃ out, file_expands' active never path out ∧ text = unlines out ∧ str_len text ≤ MAX_CONFIG_BYTES.

Lemma read_config_yields path : yields (read_config sys path) (λ text, read_user_config_file sys path = Ok text).
Proof.
  eapply yields_bind; [apply yields_lift_ok|]. intros text Htext. intros s a s' [Hf Hb].
  unfold mbind, expand_bind, account_input_bytes.
  destruct (checked_add usize_max (bytes_read s) (str_len text)) as [bytes|] eqn:Hadd; [|done].
  apply checked_add_some in Hadd as [-> _]. unfold bail_if.
  destruct (Z.ltb_spec MAX_CONFIG_BYTES (bytes_read s + str_len text)); [done|]. intros [= <- <-].
  split; [|done]. pose proof (str_len_nonneg text). split; [done|cbn; lia].
Qed.

Lemma include_files_yield recurse active never files expanded :
  (∀ path, yields (recurse path) (text_of active never path)) → str_len expanded ≤ MAX_CONFIG_BYTES →
  yields (expand_fold (include_file recurse false) expanded files)
    (λ text, ∃ out, files_expand' active never files out ∧ text = expanded ++ unlines out ∧ str_len text ≤ MAX_CONFIG_BYTES).
Proof.
  intros Hrec Hlen.
  apply (yields_fold _ (λ done text, ∃ out, files_expand' active never done out ∧ text = expanded ++ unlines out ∧
    str_len text ≤ MAX_CONFIG_BYTES)).
  - exists []. change (unlines []) with ([] : str). rewrite app_nil_r. split; [constructor|done].
  - intros pre path post acc _ (out & Hout & -> & _). eapply yields_bind; [apply Hrec|].
    intros text (out1 & Hfile & -> & _). apply yields_lift. intros o [-> Ho]%push_included_ok.
    exists (out ++ out1). rewrite unlines_app, app_assoc. split; [|done].
    eapply files_app; [done|]. rewrite <- (app_nil_r out1). by constructor; [|constructor].
Qed.

Lemma include_arguments_yield recurse active never arguments expanded :
  (∀ path, yields (recurse path) (text_of active never path)) → str_len expanded ≤ MAX_CONFIG_BYTES →
  yields (expand_fold (include_argument sys home recurse false) expanded arguments)
    (λ text, ∃ files out, Forall2 (λ argument fs, included_files sys home argument = Ok fs) arguments files ∧
      files_expand' active never (concat files) out ∧ text = expanded ++ unlines out ∧ str_len text ≤ MAX_CONFIG_BYTES).
Proof.
  intros Hrec Hlen.
  apply (yields_fold _ (λ done text, ∃ files out,
    Forall2 (λ argument fs, included_files sys home argument = Ok fs) done files ∧
    files_expand' active never (concat files) out ∧ text = expanded ++ unlines out ∧ str_len text ≤ MAX_CONFIG_BYTES)).
  - exists [], []. change (unlines []) with ([] : str). rewrite app_nil_r. split_and!; constructor || done.
  - intros pre argument post acc _ (files & out & Hargs & Hout & -> & Hacc).
    eapply yields_bind; [apply yields_lift_ok|]. intros fs Hfs.
    eapply yields_impl; [by apply (include_files_yield recurse active never)|].
    intros text (out1 & Hfiles & -> & Ho). exists (files ++ [fs]), (out ++ out1).
    rewrite unlines_app, app_assoc, concat_app. cbn [concat]. rewrite app_nil_r. split_and!; [|by apply files_app|done..].
    apply Forall2_app; [done|by constructor].
Qed.
(** The state after the lines [done]. *)
Definition lines_done (never active0 : bool) (done : list str) (state : str * bool) : Prop :=
  ∃ out, block_expands' never active0 done state.2 out ∧ state.1 = unlines out ∧ str_len state.1 ≤ MAX_CONFIG_BYTES.

(** Keywords are told apart without regard to case. *)
Lemma key_lower key name : eq_ignore_ascii_case key name = true ↔ to_ascii_lowercase key = to_ascii_lowercase name.
Proof. apply bool_decide_eq_true. Qed.

Lemma connection_line_yields recurse never active0 done line state :
  (∀ active never path, yields (recurse active never path) (text_of active never path)) →
  lines_done never active0 done state →
  yields (connection_line sys russh_port home recurse never host state line) (lines_done never active0 (done ++ [line])).
Proof.
  intros Hrec. destruct state as [expanded active]. intros (out & Hblock & Hexp & Hlen). cbn [fst snd] in *.
  (* the scope after a structural line, and a single line appended to the block *)
  assert (Hstep : ∀ active' out1 text, block_expands' never active [line] active' out1 →
    text = expanded ++ unlines out1 → str_len text ≤ MAX_CONFIG_BYTES → lines_done never active0 (done ++ [line]) (text, active')).
  { intros active' out1 text H1 -> Htext. exists (out ++ out1). rewrite unlines_app, <- Hexp. split; [by eapply block_app|done]. }
  assert (Hnone : ∀ active', block_expands' never active [line] active' [] →
    lines_done never active0 (done ++ [line]) (expanded, active')).
  { intros active' H1. apply (Hstep active' []); [done| |done]. change (unlines []) with ([] : str). by rewrite app_nil_r. }
  unfold connection_line, include_arguments. destruct (directive_key line) as [key|] eqn:Hkey.
  2: { change (lift (Ok None)) with (mret None : expand (option (list str))).
       eapply yields_bind; [by apply (yields_ret None (λ o, o = None))|]. intros ? ->. destruct active.
       - eapply yields_bind; [apply yields_lift_ok|]. intros text [-> Htext]%push_line_ok. apply yields_ret.
         apply (Hstep true [line]); [|done..]. apply (block_option _ _ _ _ never true line [] true []); [|done|constructor].
         right. unfold directive_of. by rewrite Hkey.
       - eapply yields_bind; [apply yields_lift_ok|]. intros [] Hv. apply yields_ret.
         apply Hnone.
         apply (block_option _ _ _ _ never false line [] false []); [|done|constructor]. right. unfold directive_of. by rewrite Hkey. }
  assert (Hother : ∀ name, to_ascii_lowercase key = to_ascii_lowercase name →
    ∀ name', to_ascii_lowercase name ≠ to_ascii_lowercase name' → eq_ignore_ascii_case key name' = false).
  { intros name Hn name' Hne. apply not_true_iff_false. rewrite key_lower. congruence. }
  destruct (eq_ignore_ascii_case key (lit "host")) eqn:Hhost.
  { assert (directive_of line = HostLine) as Hd.
    { unfold directive_of. apply key_lower in Hhost. rewrite Hkey, (Hother _ Hhost (lit "include")) by (vm_compute; discriminate).
      apply key_lower in Hhost. by rewrite Hhost. }
    eapply yields_bind; [apply yields_lift_ok|]. intros matched Hm. apply yields_ret.
    apply Hnone. apply (block_host _ _ _ _ never active line [] matched); [done..|constructor]. }
  destruct (eq_ignore_ascii_case key (lit "match")) eqn:Hmatch.
  { assert (directive_of line = MatchLine) as Hd.
    { unfold directive_of. rewrite Hkey, Hhost. apply key_lower in Hmatch. rewrite (Hother _ Hmatch (lit "include")) by (vm_compute; discriminate).
      apply key_lower in Hmatch. by rewrite Hmatch. }
    eapply yields_bind; [apply yields_lift_ok|]. intros matched Hm. apply yields_ret.
    apply Hnone. apply (block_match _ _ _ _ never active line [] matched); [done..|constructor]. }
  destruct (eq_ignore_ascii_case key (lit "include")) eqn:Hinc; cbn [negb].
  - eapply yields_bind; [apply yields_lift_ok|]. intros args Hargs. apply fmap_ok in Hargs as (arguments & Hargs & ->).
    eapply yields_bind; [apply yields_lift_ok|]. intros [] Hval.
    eapply yields_bind; [by apply (include_arguments_yield (recurse active (never || negb active)) active (never || negb active))|].
    intros text (files & out1 & Hfiles & Hout1 & -> & Htext). apply yields_ret. apply (Hstep active out1); [|done..].
    rewrite <- (app_nil_r out1). apply (block_include _ _ _ _ never active line [] arguments files); [| |done..|constructor].
    + unfold directive_of. by rewrite Hkey, Hinc.
    + unfold include_arguments. rewrite Hkey, Hinc. cbn [negb]. by rewrite Hargs.
  - assert (directive_of line = OptionLine) as Hd by (unfold directive_of; by rewrite Hkey, Hinc, Hhost, Hmatch).
    eapply yields_bind; [by apply (yields_ret None (λ o, o = None))|]. intros ? ->. destruct active.
    + eapply yields_bind; [apply yields_lift_ok|]. intros text [-> Htext]%push_line_ok. apply yields_ret.
      apply (Hstep true [line]); [|done..]. apply (block_option _ _ _ _ never true line [] true []); [by left|done|constructor].
    + eapply yields_bind; [apply yields_lift_ok|]. intros [] Hv. apply yields_ret.
      apply Hnone.
      apply (block_option _ _ _ _ never false line [] false []); [by left|done|constructor].
Qed.

Lemma connection_yields fuel path depth active never :
  yields (connection fuel path depth active never) (text_of active never path).
Proof.
  revert path depth active never. induction fuel as [|fuel IH]; intros path depth active never.
  { by apply yields_lift. }
  cbn [expand_connection_file]. apply yields_within_file.
  eapply yields_bind; [apply read_config_yields|]. intros text Htext.
  eapply yields_bind; [apply yields_lift_ok|]. intros h [= <-].
  eapply yields_bind.
  - apply (yields_fold _ (lines_done never (active && negb never))).
    + exists []. cbn [fst snd]. split; [constructor|]. split; [done|]. by vm_compute.
    + intros pre line post state _ Hstate. by apply connection_line_yields.
  - intros state (out & Hblock & Hst & Hlen). apply yields_ret. exists out. split; [|done]. by apply (file_intro _ _ _ _ active never path text state.2).
Qed.
End follows.

(** ** The recursion is bounded by the depth *)
Section fuel.
Context (sys : System) (russh_port : str → str → result Z) (home : str) (original_host : option str).

(** The same computation. *)
Definition same {A} (m m' : expand A) : Prop := ∀ s, m s = m' s.

Lemma same_bind {A B} (m m' : expand A) (f f' : A → expand B) :
  same m m' → (∀ a, same (f a) (f' a)) → same (m ≫= f) (m' ≫= f').
Proof. intros Hm Hf s. unfold mbind, expand_bind. rewrite (Hm s). destruct (m' s) as [[a|e] s']; [apply Hf|done]. Qed.

Lemma same_refl {A} (m : expand A) : same m m.
Proof. done. Qed.

Lemma same_fold {A B} (f f' : B → A → expand B) acc l :
  (∀ acc x, same (f acc x) (f' acc x)) → same (expand_fold f acc l) (expand_fold f' acc l).
Proof.
  intros Hf. revert acc. induction l as [|x l IH]; intros acc; [done|]. cbn [expand_fold].
  apply same_bind; [apply Hf|]. intros acc'. apply IH.
Qed.

Lemma same_within_file {A} path depth (m m' : expand A) :
  (depth ≤ MAX_INCLUDE_DEPTH → same m m') → same (within_file sys path depth m) (within_file sys path depth m').
Proof.
  intros Hm s. unfold within_file, enter_file. destruct (Z.ltb_spec MAX_INCLUDE_DEPTH depth); [done|].
  destruct (MAX_INCLUDE_FILES <=? files_seen s); [done|]. destruct (canonicalize sys path); [|done].
  case_bool_decide; [done|]. by rewrite Hm.
Qed.

Lemma connection_fuel fuel fuel' path depth active never :
  MAX_INCLUDE_DEPTH + 1 < Z.of_nat fuel + depth → MAX_INCLUDE_DEPTH + 1 < Z.of_nat fuel' + depth →
  depth ≤ MAX_INCLUDE_DEPTH + 1 →
  same (expand_connection_file sys russh_port home original_host fuel path depth active never)
       (expand_connection_file sys russh_port home original_host fuel' path depth active never).
Proof.
  revert fuel' path depth active never.
  induction fuel as [|fuel IH]; intros [|fuel'] path depth active never Hf Hf' Hd; try lia.
  cbn [expand_connection_file]. apply same_within_file. intros Hdepth.
  apply same_bind; [apply same_refl|]. intros text. apply same_bind; [apply same_refl|]. intros host.
  apply same_bind; [|intros; apply same_refl]. apply same_fold. intros [expanded act] line. unfold connection_line.
  destruct (match directive_key line with Some _ => _ | None => _ end); [apply same_refl|].
  destruct (match directive_key line with Some _ => _ | None => _ end); [apply same_refl|].
  apply same_bind; [apply same_refl|]. intros [args|]; [|apply same_refl].
  apply same_bind; [apply same_refl|]. intros []. apply same_bind; [|intros; apply same_refl].
  apply same_fold. intros acc argument. unfold include_argument. apply same_bind; [apply same_refl|]. intros files.
  apply same_fold. intros acc' file. unfold include_file. apply same_bind; [|intros; apply same_refl].
  apply IH; lia.
Qed.
End fuel.

(** ** The probes *)

(** The lines of a text of [Host *] blocks with ports. *)
Inductive probe_line := AllHosts | PortLine (port : Z).
Definition render_probe (l : probe_line) : str :=
  match l with AllHosts => host_all | PortLine port => lit "  Port " ++ dec_of port end.
Definition probe_port (l : probe_line) : option Z := match l with AllHosts => None | PortLine port => Some port end.

(** What [russh_config::parse] documents, for such a text: [Host *] is every host,
    and the first value of an option is the one used. *)
Definition first_port_wins (russh_port : str → str → result Z) : Prop :=
  ∀ host ls port, Forall (λ l, ∀ p, probe_port l = Some p → 0 < p ≤ u16_max) ls → head (omap probe_port ls) = Some port →
    russh_port (unlines (render_probe <$> ls)) host = Ok port.

Lemma probe_unlines line :
  probe line = unlines [line; render_probe (PortLine ACTIVE_PROBE_PORT); host_all; render_probe (PortLine FALLBACK_PROBE_PORT)].
Proof.
  unfold probe, unlines. cbn [fmap list_fmap concat render_probe]. by rewrite app_nil_r, <- !app_assoc.
Qed.

Lemma match_line_probe russh_port line host b :
  first_port_wins russh_port → directive_of line = MatchLine → LF ∉ line → last line ≠ Some CR →
  supported_match_directive_matches russh_port line host = Ok b ↔ match_line host line = Ok b.
Proof.
  intros Hlaw Hd Hlf Hcr. unfold supported_match_directive_matches.
  assert (Hlines : lines (probe line) =
    [line; render_probe (PortLine ACTIVE_PROBE_PORT); host_all; render_probe (PortLine FALLBACK_PROBE_PORT)]).
  { rewrite probe_unlines. apply lines_unlines. constructor; [done|].
    repeat constructor; try (vm_compute; discriminate); intros Hin; apply (bool_decide_pack _) in Hin; vm_compute in Hin; done. }
  (* the rewritten probe *)
  set (ls := λ matched : bool, AllHosts :: (if matched then [AllHosts; PortLine ACTIVE_PROBE_PORT] else []) ++
    [AllHosts; PortLine FALLBACK_PROBE_PORT]).
  assert (Hrewrite : ∀ matched, match_line host line = Ok matched →
    rewrite_supported_match_config (probe line) host = Ok (unlines (render_probe <$> ls matched))).
  { intros matched Hm. apply rewrite_spec. rewrite Hlines.
    assert (scope host [line] = matched) as Hscope.
    { unfold scope. cbn [foldl]. unfold scope_step. rewrite Hd, Hm. destruct matched; by vm_compute. }
    assert (scope host [line; render_probe (PortLine ACTIVE_PROBE_PORT)] = matched) as Hscope2.
    { rewrite <- Hscope. change [line; render_probe (PortLine ACTIVE_PROBE_PORT)]
        with ([line] ++ [render_probe (PortLine ACTIVE_PROBE_PORT)]). by rewrite scope_snoc. }
    split_and!.
    - repeat constructor. unfold supported. rewrite Hd. by exists matched.
    - cbn [rewritten app]. unfold emitted at 1. rewrite Hd. cbn [app]. rewrite Hscope.
      unfold emitted. change (directive_of (render_probe (PortLine ACTIVE_PROBE_PORT))) with OptionLine.
      change (directive_of (render_probe (PortLine FALLBACK_PROBE_PORT))) with OptionLine.
      change (directive_of host_all) with HostLine. cbv iota.
      change [line; render_probe (PortLine ACTIVE_PROBE_PORT); host_all]
        with ([line; render_probe (PortLine ACTIVE_PROBE_PORT)] ++ [host_all]).
      rewrite scope_snoc. change (scope_step host _ host_all) with true. cbv iota.
      rewrite Hscope. by destruct matched.
    - destruct matched; by vm_compute. }
  assert (Hport : ∀ matched : bool, russh_port (unlines (render_probe <$> ls matched)) host =
    Ok (if matched then ACTIVE_PROBE_PORT else FALLBACK_PROBE_PORT)).
  { intros matched. apply Hlaw; [|by destruct matched].
    assert (∀ p, p = ACTIVE_PROBE_PORT ∨ p = FALLBACK_PROBE_PORT → 0 < p ≤ u16_max) as Hp
      by (intros p [-> | ->]; unfold ACTIVE_PROBE_PORT, FALLBACK_PROBE_PORT, u16_max; lia).
    apply Forall_forall. intros l Hin p Hpp. apply Hp. destruct l as [|q]; [done|]. injection Hpp as <-.
    destruct matched; unfold ls in Hin; cbn [app] in Hin;
      rewrite !elem_of_cons, elem_of_nil in Hin; intuition congruence. }
  split.
  - intros (out & Hout & Hb)%bind_ok.
    assert (∃ matched, match_line host line = Ok matched) as [matched Hm].
    { apply rewrite_spec in Hout as (Hall & _). rewrite Hlines in Hall. apply Forall_cons in Hall as [Hs _].
      unfold supported in Hs. by rewrite Hd in Hs. }
    rewrite (Hrewrite matched Hm) in Hout. apply Ok_inj in Hout as <-. cbv beta in Hb. rewrite Hport in Hb. rewrite bind_of_ok in Hb.
    injection Hb as <-. rewrite Hm. by destruct matched.
  - intros Hm. rewrite (Hrewrite b Hm), bind_of_ok, Hport, bind_of_ok. by destruct b.
Qed.

(** ** Quoted arguments *)

(** Every character escaped, and the arguments separated by spaces. *)
Definition escape_argument (name : str) : str := concat ((λ c, [92; c]) <$> name).
Definition write_arguments (names : list str) : str := join_with 32 (escape_argument <$> names).

Lemma parse_escaped output current name rest :
  parse_arguments_from output current None false (escape_argument name ++ rest) =
  parse_arguments_from output (current ++ glob_quote name) None false rest.
Proof.
  revert current. induction name as [|c name IH]; intros current; [by rewrite app_nil_r|].
  unfold escape_argument, glob_quote. cbn [fmap list_fmap concat app parse_arguments_from].
  change (92 =? 92) with true. rewrite (bool_decide_eq_true_2 (None ≠ Some 39)) by done. cbn [andb].
  change (concat ((λ c, [92; c]) <$> name)) with (escape_argument name). rewrite IH.
  change (concat (_ <$> name)) with (glob_quote name). change backslash_byte with 92.
  destruct ((c =? star) || (c =? question) || (c =? 92)); by rewrite <- ?app_assoc.
Qed.

Lemma glob_quote_nonempty name : name ≠ [] → glob_quote name ≠ [].
Proof. destruct name as [|c name]; [done|]. intros _. unfold glob_quote. cbn. by destruct (_ || _). Qed.

Lemma parse_written output names :
  Forall (λ name, name ≠ []) names →
  parse_arguments_from output [] None false (write_arguments names) = Ok (output ++ (glob_quote <$> names)).
Proof.
  intros Hall. revert output. induction Hall as [|name names Hne _ IH]; intros output.
  { cbn. by rewrite app_nil_r. }
  unfold write_arguments in *. destruct names as [|name' names].
  - cbn [fmap list_fmap join_with]. rewrite <- (app_nil_r (escape_argument name)), parse_escaped. cbn [app parse_arguments_from].
    cbn [bail_if]. step_bind. rewrite (bool_decide_eq_false_2 (None ≠ None)) by auto. cbn [bail_if]. step_bind.
    rewrite bool_decide_eq_false_2 by by apply glob_quote_nonempty. done.
  - cbn [fmap list_fmap join_with] in *. rewrite parse_escaped. cbn [app parse_arguments_from].
    change (32 =? 92) with false. change (32 =? 39) with false. change (32 =? dquote) with false.
    change (32 =? hash) with false. change (is_ascii_whitespace 32) with true. cbn [andb orb].
    rewrite bool_decide_eq_false_2 by by apply glob_quote_nonempty. rewrite IH. by rewrite <- app_assoc.
Qed.

(** Arguments survive quoting.  Any list of non-empty names, written with every
    character escaped and with spaces between, is read back as that many
    arguments, and each of them as a glob pattern matches its name and no other. *)
Theorem quoted_arguments_roundtrip names candidate :
  Forall (λ name, name ≠ []) names →
  ∃ arguments, parse_arguments (write_arguments names) = Ok arguments ∧
    Forall2 (λ name argument, glob_match (utf8 argument) candidate = Ok (bool_decide (candidate = utf8 name)))
      names arguments.
Proof.
  intros Hall. exists (glob_quote <$> names). split; [by apply parse_written|].
  apply Forall2_fmap_r, Forall_Forall2_diag, Forall_forall. intros name _. apply glob_quote_match.
Qed.

(** C37: the expansion of a configuration follows the semantics of OpenSSH's scopes.
    When expanding a file for a host returns a text, the text is, line by line, what
    the reference semantics gives: only option lines that are in force for the
    host, an included file leaving the scope of its includer as it was, and nothing
    at all from a file in which nothing may match; the text, the bytes read and the
    number of files stay within their limits and the set of active files is as
    before. *)
Theorem connection_expansion_refines sys russh_port home host fuel path depth active never s text s' :
  within_limits s →
  expand_connection_file sys russh_port home (Some host) fuel path depth active never s = (Ok text, s') →
  within_limits s' ∧ active_paths s' = active_paths s ∧ str_len text ≤ MAX_CONFIG_BYTES ∧
  ∃ out, file_expands sys russh_port home host active never path out ∧ text = unlines out ∧
    Forall option_line out ∧ (never = true → text = []).
Proof.
  intros Hs Hrun.
  destruct (connection_yields sys russh_port home host fuel path depth active never s text s' Hs Hrun)
    as (Hs' & Hact & out & Hfile & -> & Hlen).
  split_and!; try done. exists out. split_and!; [done..| |].
  - by eapply (proj1 (emits_options sys russh_port home host)).
  - intros Hnever. by rewrite (proj1 (never_emits_nothing sys russh_port home host) _ _ _ _ Hfile Hnever).
Qed.

(** The expansion ends.  The recursion through included files is bounded by the
    depth limit, whatever the files include: with [include_fuel] levels it gives
    the result that any greater number of levels gives. *)
Theorem expansion_terminates sys russh_port home original_host path active never extra s :
  expand_connection_file sys russh_port home original_host (include_fuel + extra) path 0 active never s =
  expand_connection_file sys russh_port home original_host include_fuel path 0 active never s.
Proof. apply connection_fuel; unfold include_fuel, MAX_INCLUDE_DEPTH; lia. Qed.

(** The probe for [Match] is exact.  When the parser resolves ports as it
    documents, probing a [Match] line says that it matches, or that it does not,
    exactly when evaluating its criteria says so. *)
Theorem match_probe_exact russh_port line host b :
  first_port_wins russh_port → directive_of line = MatchLine → LF ∉ line → last line ≠ Some CR →
  supported_match_directive_matches russh_port line host = Ok b ↔ match_line host line = Ok b.
Proof. apply match_line_probe. Qed.

(** ** Examples *)
Module Examples.

(** A parser for texts whose hosts are all [*]: the first port counts. *)
Definition port_of (line : str) : option Z :=
  match strip_prefix (lit "  Port ") line with Some value => parse_uint u16_max value | None => None end.
Definition russh0 (text host : str) : result Z := Ok (default 22 (head (omap port_of (lines text)))).

Lemma dec_of_no c n : 0 ≤ n → is_ascii_digit c = false → c ∉ dec_of n.
Proof.
  intros Hn Hc Hin. destruct (dec_of_spec n Hn) as (_ & Hall & _). rewrite Forall_forall in Hall.
  specialize (Hall c Hin). cbv beta in Hall. congruence.
Qed.

Lemma russh0_law : first_port_wins russh0.
Proof.
  intros host ls port Hports Hhead. unfold russh0. do 1 f_equal. rewrite lines_unlines.
  - assert (omap port_of (render_probe <$> ls) = omap probe_port ls) as ->; [|by rewrite Hhead].
    clear Hhead. induction Hports as [|l ls Hl _ IH]; [done|]. cbn [fmap list_fmap omap list_omap].
    assert (port_of (render_probe l) = probe_port l) as Hl'.
    { destruct l as [|p]; [done|]. specialize (Hl p eq_refl). cbn [render_probe]. unfold port_of.
      assert (strip_prefix (lit "  Port ") (lit "  Port " ++ dec_of p) = Some (dec_of p)) as -> by by apply strip_prefix_some.
      rewrite parse_dec_of by lia. done. }
    rewrite Hl'. destruct (probe_port l); [f_equal|]; exact IH.
  - apply Forall_fmap, Forall_forall. intros l Hin. rewrite Forall_forall in Hports. specialize (Hports l Hin).
    cbn [compose]. destruct l as [|p]; cbn [render_probe].
    + split; [|vm_compute; discriminate]. intros Hlf. apply (bool_decide_pack _) in Hlf. vm_compute in Hlf. done.
    + specialize (Hports p eq_refl). split.
      * rewrite not_elem_of_app. split; [|apply dec_of_no; [lia|done]].
        intros Hlf. apply (bool_decide_pack _) in Hlf. vm_compute in Hlf. done.
      * intros Hlast. apply last_Some in Hlast as (rest & Heq).
        destruct (dec_of_spec p) as (_ & Hall & Hne); [lia|]. destruct (dec_of p) as [|d ds _] eqn:Hd using rev_ind; [done|].
        rewrite app_assoc in Heq. apply app_inj_tail in Heq as [_ ->]. rewrite Forall_app, Forall_singleton in Hall.
        by destruct Hall.
Qed.

(** A home with two included files and one that must not apply. *)
Definition file_of (text : str) : OpenFile := mk_open_file true 1000 420 (utf8 text).
Definition files0 : list (str * str) :=
  [(lit "/h/.ssh/config", unlines (lit <$> ["Match originalhost PROD"; "  Include conf.d/*.conf"; "  Port 2200";
                                            "Match originalhost other"; "  Include never.conf"])%string);
   (lit "/h/.ssh/conf.d/10-a.conf", unlines (lit <$> ["  User first"; "Match originalhost other"; "  User wrong"])%string);
   (lit "/h/.ssh/conf.d/20-b.conf", unlines (lit <$> ["  IdentityFile second"])%string);
   (lit "/h/.ssh/never.conf", unlines (lit <$> ["Match all"; "  Port 2999"])%string)].
Definition find_file (path : str) : option str :=
  match list_find (λ f : str * str, f.1 = path) files0 with Some (_, (_, text)) => Some text | None => None end.
Definition system0 : System :=
  mk_system Ok
    (λ path, match find_file path with Some text => Ok (file_of text) | None => Err "no such file" end)
    (λ path, if bool_decide (path = lit "/h/.ssh/conf.d")
             then IoOk (Ok <$> [lit "20-b.conf"; lit ".hidden.conf"; lit "10-a.conf"; lit "readme"]) else NotFound)
    (λ path, match find_file path with Some _ => IoOk true | None => NotFound end)
    (λ _, Err "unset") None 1000.

Definition expanded0 : str :=
  unlines (lit <$> ["  User first"; "  IdentityFile second"; "  Port 2200"])%string.

Example expand0 :
  expand_user_config system0 russh0 (lit "/h/.ssh/config") (lit "/h") (lit "prod") =
    Ok (unlines [host_all] ++ expanded0).
Proof. vm_compute. reflexivity. Qed.

Lemma connection_expansion_refines_witness :
  within_limits new_expansion ∧
  ∃ out, file_expands system0 russh0 (lit "/h") (lit "prod") true false (lit "/h/.ssh/config") out ∧ expanded0 = unlines out.
Proof.
  assert (within_limits new_expansion) as Hlim by (split; split; vm_compute; discriminate).
  split; [exact Hlim|].
  destruct (expand_connection_file system0 russh0 (lit "/h") (Some (lit "prod")) include_fuel (lit "/h/.ssh/config") 0 true false
    new_expansion) as [r s'] eqn:Hrun.
  assert (r = Ok expanded0) as Hr by (apply (f_equal fst) in Hrun; cbn [fst] in Hrun; rewrite <- Hrun; vm_compute; reflexivity).
  rewrite Hr in Hrun.
  destruct (connection_expansion_refines system0 russh0 (lit "/h") (lit "prod") include_fuel (lit "/h/.ssh/config") 0 true false
    new_expansion expanded0 s' Hlim Hrun) as (_ & _ & _ & out & Hfile & Heq & _).
  exists out. split; [exact Hfile|exact Heq].
Defined.

Lemma quoted_arguments_roundtrip_witness :
  Forall (λ name, name ≠ []) (lit <$> ["a *b"; "c\d#"]%string) ∧
  ∃ arguments, parse_arguments (write_arguments (lit <$> ["a *b"; "c\d#"]%string)) = Ok arguments ∧ length arguments = 2%nat.
Proof.
  assert (Forall (λ name, name ≠ []) (lit <$> ["a *b"; "c\d#"]%string)) as Hall by (repeat constructor; discriminate).
  split; [exact Hall|]. destruct (quoted_arguments_roundtrip _ (utf8 (lit "a *b")) Hall) as (arguments & Hparse & Hmatch).
  exists arguments. split; [exact Hparse|]. apply Forall2_length in Hmatch. symmetry. exact Hmatch.
Defined.

Lemma match_probe_exact_witness :
  first_port_wins russh0 ∧
  supported_match_directive_matches russh0 (lit "Match originalhost *,!db?") (lit "web1") = Ok true.
Proof.
  split; [exact russh0_law|].
  apply (match_probe_exact russh0 (lit "Match originalhost *,!db?") (lit "web1") true russh0_law);
    [vm_compute; reflexivity| |vm_compute; discriminate|vm_compute; reflexivity].
  intros Hlf. apply (bool_decide_pack _) in Hlf. vm_compute in Hlf. destruct Hlf.
Defined.

(** An escaped backslash reaches the file system doubled when the name has no
    wildcard: the escapes are only read by the matcher. *)
Example doubled_backslash :
  parse_arguments (write_arguments [lit "/etc/a\b"]) = Ok [lit "/etc/a\\b"] ∧
  try_fold (expand_component system0) [[]] (path_components (lit "/etc/a\\b")) = Ok [lit "/etc/a\\b"].
Proof. split; vm_compute; reflexivity. Qed.

(** [~//] leaves the home directory: joining an absolute path replaces it. *)
Example home_slash_absolute : anchor_user_include system0 (lit "/h") (lit "~//etc/x") = Ok (lit "/etc/x").
Proof. vm_compute. reflexivity. Qed.

End Examples.
