(* ===== verification/Targets.v ===== *)
(** * Connection targets and the host catalog
      ([crates/kaduox-ssh-openssh/src/target.rs], [host_catalog.rs])

    [user@host] as it is typed, and the host aliases that an OpenSSH
    configuration names. *)

From stdpp Require Import base list gmap strings numbers sorting.
From Stdlib Require Import Lia.
From S2P Require Import Prelude RustStr StrFacts IncludeEnv OpenSshMatch.

(** ** Definitions *)
Definition at_sign : char := 64.
Definition colon : char := 58.
Definition open_bracket : char := 91.
Definition close_bracket : char := 93.

Record ConnectionTarget := mk_target { t_host : str; t_username : option str }.

(** [value.matches(c).count()] *)
Definition count_char (c : char) (s : str) : Z := zlen (filter (λ d, d = c) s).

Definition normalize_host (value : str) : result str :=
  match strip_prefix [open_bracket] value with
  | Some rest =>
      with_context (strip_suffix [close_bracket] rest) "missing closing ']' in SSH target" ≫= λ host,
      bail_if (bool_decide (host = [])) "SSH target host cannot be empty" ≫= λ _,
      bail_if (contains_char host open_bracket || contains_char host close_bracket)
        "invalid bracketed SSH target host" ≫= λ _,
      Ok host
  | None =>
      bail_if (contains_char value open_bracket || contains_char value close_bracket)
        "invalid bracket syntax in SSH target" ≫= λ _,
      if count_char colon value =? 1 then
        match rsplit_once colon value with
        | None => Ok value
        | Some (host, port) =>
            bail_if (negb (bool_decide (host = [])) && negb (bool_decide (port = [])) && forallb is_ascii_digit port)
              "SSH target does not accept host:port syntax" ≫= λ _,
            Ok value
        end
      else Ok value
  end.

Definition target_parse (value : str) : result ConnectionTarget :=
  bail_if (bool_decide (value = [])) "SSH target cannot be empty" ≫= λ _,
  bail_if (existsb (λ c, is_whitespace c || is_control c) value)
    "SSH target cannot contain whitespace or control characters" ≫= λ _,
  match rsplit_once at_sign value with
  | Some (username, host) =>
      bail_if (bool_decide (username = [])) "SSH target username cannot be empty" ≫= λ _,
      bail_if (bool_decide (host = [])) "SSH target host cannot be empty" ≫= λ _,
      bail_if (contains_char username at_sign || contains_char host at_sign)
        "SSH target must contain at most one '@'" ≫= λ _,
      normalize_host host ≫= λ host, Ok (mk_target host (Some username))
  | None => normalize_host value ≫= λ host, Ok (mk_target host None)
  end.

(** *** The host catalog *)
Record OpenSshHostCatalog := mk_catalog {
  config_path : option str;
  aliases : list str;
  has_unsupported_structural_directives : bool;
}.

Definition directive_parts (line : str) : option (str * str) :=
  let line := trim_start line in
  if bool_decide (line = []) || starts_with line [hash] then None
  else
    let key := take_while (λ c, negb (is_key_end c)) line in
    let arguments := trim_start (drop_while (λ c, negb (is_key_end c)) line) in
    Some (key, match strip_prefix [equals] arguments with Some rest => trim_start rest | None => arguments end).

Definition is_quote (c : char) : bool := (c =? 39) || (c =? dquote).

(** The loop over the words; a comment ends it. *)
Fixpoint host_tokens_from (raws : list str) : list str :=
  match raws with
  | [] => []
  | raw :: raws =>
      let '(token, comment_started) :=
        match split_once hash raw with Some (before, _) => (before, true) | None => (raw, false) end in
      let token := trim_matches is_quote token in
      (if bool_decide (token = []) then [] else [token]) ++ (if comment_started then [] else host_tokens_from raws)
  end.
Definition host_tokens (arguments : str) : list str := host_tokens_from (split_ascii_whitespace arguments).

Definition is_pattern_char (c : char) : bool :=
  is_whitespace c || is_control c || (c =? 42) || (c =? 63) || (c =? open_bracket) || (c =? close_bracket).

Definition concrete_alias (value : str) : bool :=
  if bool_decide (value = []) || starts_with value [bang] then false else negb (existsb is_pattern_char value).

(** The body of the loop over the lines. *)
Definition catalog_step (state : gset str * bool) (line : str) : gset str * bool :=
  match directive_parts line with
  | None => state
  | Some (key, arguments) =>
      let unsupported :=
        if eq_ignore_ascii_case key (lit "match") || eq_ignore_ascii_case key (lit "include") then true else state.2 in
      if negb (eq_ignore_ascii_case key (lit "host")) then (state.1, unsupported)
      else (foldl (λ aliases token, if concrete_alias token then {[ token ]} ∪ aliases else aliases)
              state.1 (host_tokens arguments), unsupported)
  end.

(** The elements of a [BTreeSet<String>] in iteration order. *)
Definition btree_elements (s : gset str) : list str := merge_sort str_le (elements s).

Definition parse_host_catalog (contents : str) (config_path : option str) : OpenSshHostCatalog :=
  let '(aliases, unsupported) := foldl catalog_step (∅, false) (lines contents) in
  mk_catalog config_path (btree_elements aliases) unsupported.

(** ** Targets *)
Lemma contains_char_elem s c : contains_char s c = true ↔ c ∈ s.
Proof.
  unfold contains_char. rewrite existsb_exists. setoid_rewrite <- list_elem_of_In. split.
  - intros (d & Hd & Heq%Z.eqb_eq). by subst.
  - intros Hc. exists c. by rewrite Z.eqb_refl.
Qed.

Lemma contains_char_not s c : contains_char s c = false ↔ c ∉ s.
Proof. rewrite <- contains_char_elem, not_true_iff_false. done. Qed.

Lemma reverse_around c (a b : str) : reverse (a ++ c :: b) = reverse b ++ c :: reverse a.
Proof. by rewrite reverse_app, reverse_cons, <- app_assoc. Qed.

Lemma rsplit_once_some c s a b : rsplit_once c s = Some (a, b) ↔ s = a ++ c :: b ∧ c ∉ b.
Proof.
  unfold rsplit_once. split.
  - destruct (split_once c (reverse s)) as [[x y]|] eqn:Hs; [|done]. intros [= <- <-].
    apply split_once_some in Hs as [Heq Hx]. apply (f_equal reverse) in Heq.
    rewrite reverse_involutive, reverse_around in Heq. by rewrite elem_of_reverse.
  - intros [-> Hb].
    assert (split_once c (reverse (a ++ c :: b)) = Some (reverse b, reverse a)) as ->
      by (apply split_once_some; by rewrite reverse_around, elem_of_reverse).
    by rewrite !reverse_involutive.
Qed.

Lemma rsplit_once_none c s : rsplit_once c s = None ↔ c ∉ s.
Proof.
  unfold rsplit_once. destruct (split_once c (reverse s)) as [[x y]|] eqn:Hs.
  - apply split_once_some in Hs as [Heq _]. split; [done|]. intros Hn. exfalso. apply Hn.
    apply (elem_of_reverse (A:=Z)). assert (c ∈ x ++ c :: y) as Hc by set_solver. by rewrite <- Heq in Hc.
  - apply split_once_none in Hs. by rewrite elem_of_reverse in Hs.
Qed.

Lemma strip_suffix_some p s rest : strip_suffix p s = Some rest ↔ s = rest ++ p.
Proof.
  unfold strip_suffix. rewrite fmap_Some. setoid_rewrite strip_prefix_some. split.
  - intros (x & Hx & ->). apply (f_equal reverse) in Hx. by rewrite reverse_app, !reverse_involutive in Hx.
  - intros ->. exists (reverse rest). by rewrite reverse_app, reverse_involutive.
Qed.

(** [host:port], which a target may not be. *)
Definition host_port (s : str) : Prop :=
  ∃ host port, s = host ++ colon :: port ∧ colon ∉ host ∧ host ≠ [] ∧ port ≠ [] ∧
    Forall (λ c, is_ascii_digit c = true) port.

(** A host as it is written, and the host it stands for. *)
Definition denotes (raw host : str) : Prop :=
  open_bracket ∉ host ∧ close_bracket ∉ host ∧
  (raw = open_bracket :: host ++ [close_bracket] ∧ host ≠ [] ∨ raw = host ∧ ¬ host_port host).

Lemma count_char_app c s t : count_char c (s ++ t) = count_char c s + count_char c t.
Proof. unfold count_char. rewrite filter_app, length_app. apply Nat2Z.inj_add. Qed.

Lemma count_char_0 c s : count_char c s = 0 ↔ c ∉ s.
Proof.
  unfold count_char. induction s as [|d s IH]; [split; [intros _; apply not_elem_of_nil|done]|].
  rewrite filter_cons, not_elem_of_cons. case_decide as Hd; cbn [length]; [|rewrite IH; naive_solver].
  split; [lia|]. naive_solver.
Qed.

Lemma digits_no_colon port : Forall (λ c, is_ascii_digit c = true) port → colon ∉ port.
Proof. rewrite Forall_forall. intros Hall Hin. specialize (Hall colon Hin). done. Qed.

Lemma normalize_host_ok raw host : normalize_host raw = Ok host ↔ denotes raw host.
Proof.
  unfold normalize_host, denotes. destruct (strip_prefix [open_bracket] raw) as [rest|] eqn:Hp.
  - apply strip_prefix_some in Hp as ->. cbn [app]. split.
    + intros (h & Hh%with_context_ok & Hrest)%bind_ok. apply strip_suffix_some in Hh as ->.
      apply bind_ok in Hrest as ([] & Hne%bail_if_ok & Hrest). apply bind_ok in Hrest as ([] & Hb%bail_if_ok & [= <-]).
      to_prop. rewrite !contains_char_not in *. split_and!; [done..|]. by left.
    + intros (Ho & Hc & [[Heq Hne]|[<- _]]); [|set_solver]. injection Heq as ->.
      assert (strip_suffix [close_bracket] (host ++ [close_bracket]) = Some host) as -> by by apply strip_suffix_some.
      cbn [with_context]. step_bind. rewrite bool_decide_eq_false_2 by done. cbn [bail_if]. step_bind.
      apply contains_char_not in Ho, Hc. by rewrite Ho, Hc.
  - assert (Hno : ∀ rest, raw ≠ open_bracket :: rest).
    { intros rest ->. assert (strip_prefix [open_bracket] (open_bracket :: rest) = Some rest) as Heq by by apply strip_prefix_some.
      congruence. }
    assert (Hcolon : (if count_char colon raw =? 1 then
        match rsplit_once colon raw with
        | None => Ok raw
        | Some (host, port) =>
            bail_if (negb (bool_decide (host = [])) && negb (bool_decide (port = [])) && forallb is_ascii_digit port)
              "SSH target does not accept host:port syntax" ≫= λ _, Ok raw
        end else Ok raw) = Ok host ↔ host = raw ∧ ¬ host_port raw).
    { destruct (Z.eqb_spec (count_char colon raw) 1) as [Hone|Hmany].
      - destruct (rsplit_once colon raw) as [[h p]|] eqn:Hr.
        + apply rsplit_once_some in Hr as [-> Hp']. rewrite count_char_app in Hone.
          change (colon :: p) with ([colon] ++ p) in Hone. rewrite count_char_app in Hone.
          change (count_char colon [colon]) with 1 in Hone. apply count_char_0 in Hp' as Hp0.
          assert (colon ∉ h) as Hh by (apply count_char_0; unfold count_char in *; lia).
          assert (negb (bool_decide (h = [])) && negb (bool_decide (p = [])) && forallb is_ascii_digit p = true ↔
            host_port (h ++ colon :: p)) as Hhp.
          { rewrite !andb_true_iff, !negb_true_iff, !bool_decide_eq_false. rewrite forallb_forall.
            setoid_rewrite <- list_elem_of_In. rewrite <- (Forall_forall (λ c, is_ascii_digit c = true) p). split.
            - intros [[? ?] ?]. by exists h, p.
            - intros (h' & p' & Heq & Hh' & ? & ? & ?).
              assert (split_once colon (h ++ colon :: p) = Some (h, p)) as Hs1 by by apply split_once_some.
              assert (split_once colon (h' ++ colon :: p') = Some (h', p')) as Hs2 by by apply split_once_some.
              rewrite Heq, Hs2 in Hs1. by injection Hs1 as -> ->. }
          rewrite <- Hhp. destruct (_ && _ && _); cbn [bail_if]; [|rewrite bind_of_ok]; naive_solver.
        + apply rsplit_once_none in Hr. apply count_char_0 in Hr. lia.
      - split; [|by intros [-> _]]. intros [= <-]. split; [done|]. intros (h & p & -> & Hh & _ & _ & Hp'%digits_no_colon).
        apply Hmany. rewrite count_char_app. change (colon :: p) with ([colon] ++ p). rewrite count_char_app.
        apply count_char_0 in Hh, Hp'. rewrite Hh, Hp'. done. }
    rewrite bind_ok. split.
    + intros ([] & Hb%bail_if_ok & Hrest). apply Hcolon in Hrest as [-> ?]. to_prop. rewrite !contains_char_not in *.
      split_and!; [done..|]. by right.
    + intros (Ho & Hc & [[Heq _]|[-> Hhp]]); [by apply Hno in Heq|]. exists tt.
      apply contains_char_not in Ho, Hc. rewrite Ho, Hc. split; [done|]. by apply Hcolon.
Qed.

(** Parsing a target is exact.  [ConnectionTarget::parse] accepts exactly the
    strings without white space and control characters that are a host, or a
    non-empty user name, one at sign and a host; the host is a non-empty one in
    brackets, or one without brackets that is not [host:port]; and it returns that
    user and host. *)
Theorem target_parse_exact value target :
  target_parse value = Ok target ↔
  Forall (λ c, is_whitespace c = false ∧ is_control c = false) value ∧
  ∃ raw, raw ≠ [] ∧ at_sign ∉ raw ∧ denotes raw (t_host target) ∧
    match t_username target with
    | None => value = raw
    | Some username => username ≠ [] ∧ at_sign ∉ username ∧ value = username ++ at_sign :: raw
    end.
Proof.
  assert (Hclean : existsb (λ c, is_whitespace c || is_control c) value = false ↔
    Forall (λ c, is_whitespace c = false ∧ is_control c = false) value).
  { rewrite <- not_true_iff_false, existsb_exists, Forall_forall. setoid_rewrite <- list_elem_of_In.
    setoid_rewrite <- orb_false_iff. split.
    - intros H c Hc. apply not_true_iff_false. intros Ht. apply H. eauto.
    - intros H (c & Hc & Ht). rewrite H in Ht; done. }
  unfold target_parse. rewrite <- Hclean. split.
  - intros ([] & Hne%bail_if_ok & Hrest)%bind_ok. apply bind_ok in Hrest as ([] & Hcl%bail_if_ok & Hrest).
    to_prop. split; [done|]. destruct (rsplit_once at_sign value) as [[username raw]|] eqn:Hr.
    + apply rsplit_once_some in Hr as [-> Hraw]. apply bind_ok in Hrest as ([] & Hu%bail_if_ok & Hrest).
      apply bind_ok in Hrest as ([] & Hh%bail_if_ok & Hrest). apply bind_ok in Hrest as ([] & Hat%bail_if_ok & Hrest).
      apply bind_ok in Hrest as (host & Hn%normalize_host_ok & [= <-]). to_prop. rewrite !contains_char_not in *.
      by exists raw.
    + apply rsplit_once_none in Hr. apply bind_ok in Hrest as (host & Hn%normalize_host_ok & [= <-]). by exists value.
  - intros (Hcl & raw & Hraw & Hat & Hden & Hval). destruct target as [host [username|]]; cbn [t_host t_username] in *.
    + destruct Hval as (Hu & Hatu & ->). rewrite bool_decide_eq_false_2 by by destruct username. cbn [bail_if]. step_bind.
      rewrite Hcl. cbn [bail_if]. step_bind.
      assert (rsplit_once at_sign (username ++ at_sign :: raw) = Some (username, raw)) as -> by by apply rsplit_once_some.
      rewrite !bool_decide_eq_false_2 by done. cbn [bail_if]. do 2 step_bind.
      apply contains_char_not in Hat, Hatu. rewrite Hat, Hatu. cbn [orb bail_if]. step_bind.
      apply normalize_host_ok in Hden as ->. done.
    + subst value. rewrite bool_decide_eq_false_2 by done. cbn [bail_if]. step_bind. rewrite Hcl. cbn [bail_if]. step_bind.
      apply rsplit_once_none in Hat. rewrite Hat. apply normalize_host_ok in Hden as ->. done.
Qed.

(** ** The catalog *)
Lemma elem_of_btree_elements (x : str) (s : gset str) : x ∈ btree_elements s ↔ x ∈ s.
Proof. unfold btree_elements. rewrite merge_sort_Permutation. apply elem_of_elements. Qed.

Lemma NoDup_btree_elements (s : gset str) : NoDup (btree_elements s).
Proof. unfold btree_elements. rewrite merge_sort_Permutation. apply NoDup_elements. Qed.

Lemma sorted_btree_elements (s : gset str) : StronglySorted str_le (btree_elements s).
Proof. apply (StronglySorted_merge_sort str_le). Qed.

Lemma elem_of_fold_insert (p : str → bool) (l : list str) (s : gset str) x :
  x ∈ foldl (λ s t, if p t then {[ t ]} ∪ s else s) s l ↔ x ∈ s ∨ x ∈ l ∧ p x = true.
Proof.
  revert s. induction l as [|t l IH]; intros s; cbn [foldl].
  { split; [auto|]. intros [?|[[]%not_elem_of_nil _]]. done. }
  rewrite IH, elem_of_cons. destruct (p t) eqn:Ht; [rewrite elem_of_union, elem_of_singleton|]; split; intros.
  - destruct H as [[->|?]|[? ?]]; auto.
  - destruct H as [?|[[->|?] ?]]; auto.
  - destruct H as [?|[? ?]]; auto.
  - destruct H as [?|[[->|?] ?]]; [auto|congruence|auto].
Qed.

(** [line] is a directive [keyword] with these [arguments]. *)
Definition directive (keyword : str) (line arguments : str) : Prop :=
  ∃ key, directive_parts line = Some (key, arguments) ∧ eq_ignore_ascii_case key keyword = true.

(** [line] is a [Host] line with the token [alias]. *)
Definition names_alias (line alias : str) : Prop :=
  ∃ arguments, directive (lit "host") line arguments ∧ alias ∈ host_tokens arguments ∧ concrete_alias alias = true.

(** [line] is a [Match] or an [Include] line. *)
Definition structural (line : str) : Prop :=
  ∃ arguments, directive (lit "match") line arguments ∨ directive (lit "include") line arguments.

Lemma catalog_step_exact state line alias :
  (alias ∈ (catalog_step state line).1 ↔ alias ∈ state.1 ∨ names_alias line alias) ∧
  ((catalog_step state line).2 = true ↔ state.2 = true ∨ structural line).
Proof.
  unfold catalog_step, names_alias, structural, directive.
  destruct (directive_parts line) as [[key arguments]|]; [|split; (split; [auto|])].
  - split.
    + destruct (eq_ignore_ascii_case key (lit "host")) eqn:Hk; cbn [negb fst].
      * rewrite elem_of_fold_insert. split; (intros [?|H]; [by left|right]).
        -- destruct H. eauto 10.
        -- destruct H as (a & (k & [= <- <-] & _) & ? & ?). auto.
      * split; [auto|]. intros [?|(a & (k & [= <- <-] & ?) & _)]; [done|congruence].
    + assert (H : (if eq_ignore_ascii_case key (lit "match") || eq_ignore_ascii_case key (lit "include")
        then true else state.2) = true ↔ state.2 = true ∨
        (eq_ignore_ascii_case key (lit "match") = true ∨ eq_ignore_ascii_case key (lit "include") = true)).
      { rewrite <- orb_true_iff. destruct (_ || _); split; auto. by intros [?|?]. }
      transitivity ((if eq_ignore_ascii_case key (lit "match") || eq_ignore_ascii_case key (lit "include")
        then true else state.2) = true); [by destruct (negb _)|].
      rewrite H. apply or_iff_compat_l. split.
      * intros [Hm|Hm]; exists arguments; [left|right]; eauto.
      * intros (a & [(k & [= <- <-] & ?)|(k & [= <- <-] & ?)]); auto.
  - intros [?|(a & (k & [=] & _) & _)]. done.
  - intros [?|(a & [(k & [=] & _)|(k & [=] & _)])]. done.
Qed.

Lemma catalog_fold_exact ls state alias :
  (alias ∈ (foldl catalog_step state ls).1 ↔ alias ∈ state.1 ∨ ∃ line, line ∈ ls ∧ names_alias line alias) ∧
  ((foldl catalog_step state ls).2 = true ↔ state.2 = true ∨ ∃ line, line ∈ ls ∧ structural line).
Proof.
  revert state. induction ls as [|line ls IH]; intros state; cbn [foldl].
  { split; (split; [auto|]); intros [?|(l & []%not_elem_of_nil & _)]; done. }
  destruct (IH (catalog_step state line)) as [-> ->]. destruct (catalog_step_exact state line alias) as [-> ->].
  setoid_rewrite elem_of_cons. split; (split; [intros [[?|?]|(l & ? & ?)]|intros [?|(l & [->|?] & ?)]]); eauto 10.
Qed.

(** The catalog of a configuration is exact.  [parse_host_catalog] lists, in
    order and once each, exactly the concrete aliases (non-empty, not negated and
    without pattern characters) that the [Host] lines of the file name, and reports
    structural directives it does not follow exactly when the file has a [Match] or
    an [Include] line. *)
Theorem host_catalog_exact contents path :
  let catalog := parse_host_catalog contents path in
  StronglySorted str_le (aliases catalog) ∧ NoDup (aliases catalog) ∧ config_path catalog = path ∧
  (∀ alias, alias ∈ aliases catalog ↔
    ∃ line arguments, line ∈ lines contents ∧ directive (lit "host") line arguments ∧
      alias ∈ host_tokens arguments ∧ alias ≠ [] ∧ head alias ≠ Some bang ∧
      Forall (λ c, is_pattern_char c = false) alias) ∧
  (has_unsupported_structural_directives catalog = true ↔
    ∃ line arguments, line ∈ lines contents ∧
      (directive (lit "match") line arguments ∨ directive (lit "include") line arguments)).
Proof.
  intros catalog. unfold catalog, parse_host_catalog.
  pose proof (catalog_fold_exact (lines contents) (∅, false)) as Hall.
  destruct (foldl catalog_step (∅, false) (lines contents)) as [set flag]. cbn [aliases config_path
    has_unsupported_structural_directives fst snd] in *.
  split_and!; [apply sorted_btree_elements|apply NoDup_btree_elements|done| |].
  - intros alias. rewrite elem_of_btree_elements. destruct (Hall alias) as [-> _].
    assert (Hc : concrete_alias alias = true ↔
      alias ≠ [] ∧ head alias ≠ Some bang ∧ Forall (λ c, is_pattern_char c = false) alias).
    { unfold concrete_alias. rewrite starts_with_one. rewrite Forall_forall. destruct alias as [|c alias]; [naive_solver|].
      rewrite bool_decide_eq_false_2 by done. cbn [orb]. case_bool_decide as Hb.
      { split; [done|]. intros (_ & ? & _). done. }
      rewrite negb_true_iff, <- not_true_iff_false, existsb_exists. setoid_rewrite <- list_elem_of_In. split.
      - intros Hn. split_and!; [done..|]. intros d Hd. apply not_true_iff_false. intros Ht. apply Hn. eauto.
      - intros (_ & _ & H) (d & Hd & Ht). rewrite H in Ht; done. }
    unfold names_alias. setoid_rewrite Hc. split; [intros [[]%not_elem_of_empty|?]|right]; naive_solver.
  - destruct (Hall []) as [_ ->]. unfold structural. split; [intros [?|?]|right]; naive_solver.
Qed.

Module Examples.
Example user_host : target_parse (lit "deploy@[2001:db8::1]") = Ok (mk_target (lit "2001:db8::1") (Some (lit "deploy"))).
Proof. reflexivity. Qed.

Example with_port : target_parse (lit "web:22") = Err "SSH target does not accept host:port syntax".
Proof. reflexivity. Qed.

Example catalog :
  aliases (parse_host_catalog (lit "Host web db *.internal" ++ [LF] ++ lit "  Port 22" ++ [LF] ++
    lit "Host 'api' !bad web # old") None) = [lit "api"; lit "db"; lit "web"].
Proof. by vm_compute. Qed.
End Examples.
