(* ===== verification/Inventory.v ===== *)
(** * The host inventory
      ([crates/kaduox-ssh-openssh/src/inventory.rs],
       [crates/kaduox-ssh-cli/src/fleet_targets.rs])

    The inventory file declares hosts and named groups of hosts and groups; a
    fleet command names hosts and groups and runs on what they expand to.  The
    file system and the environment are parameters. *)

From stdpp Require Import base list gmap strings numbers sorting.
From Stdlib Require Import Lia.
From S2P Require Import Prelude RustStr StrFacts RemotePath IncludeEnv OpenSshMatch OpenSshInclude Targets.

(** ** Definitions *)
Definition MAX_INVENTORY_BYTES : Z := 1024 * 1024.
Definition MAX_HOSTS : Z := 4096.
Definition MAX_GROUPS : Z := 512.
Definition MAX_GROUP_MEMBERS : Z := 8192.
Definition MAX_EXPANDED_GROUP_HOSTS : Z := 1024.

Inductive InventoryMember := Host (host : str) | Group (group : str).
#[export] Instance inventory_member_eq_dec : EqDecision InventoryMember.
Proof. solve_decision. Defined.

Record InventoryGroup := mk_group { g_name : str; g_members : list InventoryMember }.
Record HostInventory := mk_inventory { source : option str; hosts : list str; groups : list InventoryGroup }.

Definition group (inventory : HostInventory) (name : str) : option InventoryGroup :=
  snd <$> list_find (λ group, g_name group = name) (groups inventory).

(** *** Expansion *)

(** The three [&mut] arguments of [expand_group_inner]. *)
Record Expansion := mk_expansion { visiting : list str; seen_hosts : gset str; expanded : list str }.

(** [visiting.iter().position(|entry| entry == name)] is [Some]. *)
Definition is_visiting (name : str) (state : Expansion) : bool := bool_decide (name ∈ visiting state).

(** The body of the loop over the members for a host. *)
Definition expand_host (host : str) (state : Expansion) : result Expansion :=
  if bool_decide (host ∈ seen_hosts state) then Ok state
  else
    let expanded := expanded state ++ [host] in
    bail_if (MAX_EXPANDED_GROUP_HOSTS <? zlen expanded) "inventory group expands beyond the host safety limit" ≫= λ _,
    Ok (mk_expansion (visiting state) ({[ host ]} ∪ seen_hosts state) expanded).

Definition visit (name : str) (state : Expansion) : Expansion :=
  mk_expansion (visiting state ++ [name]) (seen_hosts state) (expanded state).
(** [visiting.pop()] *)
Definition leave (state : Expansion) : Expansion :=
  mk_expansion (take (length (visiting state) - 1) (visiting state)) (seen_hosts state) (expanded state).

Fixpoint expand_group_inner (fuel : nat) (groups : gmap str InventoryGroup) (name : str) (state : Expansion)
    : result Expansion :=
  match fuel with
  | O => Err "out of fuel"
  | S fuel =>
      bail_if (is_visiting name state) "inventory group cycle detected" ≫= λ _,
      with_context (groups !! name) "inventory group not found during expansion" ≫= λ group,
      try_fold (λ state member,
        match member with
        | Host host => expand_host host state
        | Group group => expand_group_inner fuel groups group state
        end) (visit name state) (g_members group) ≫= λ state,
      Ok (leave state)
  end.

(** [groups.iter().map(|group| (name, group)).collect()]: a later entry replaces
    an earlier one of the same name. *)
Definition group_lookup (groups : list InventoryGroup) : gmap str InventoryGroup :=
  foldl (λ lookup group, <[ g_name group := group ]> lookup) ∅ groups.

(** A call visits each group at most once on its way down. *)
Definition expand_fuel (lookup : gmap str InventoryGroup) : nat := S (size lookup).

Definition expand_group (inventory : HostInventory) (name : str) : result (list str) :=
  let lookup := group_lookup (groups inventory) in
  bail_if (negb (bool_decide (is_Some (lookup !! name)))) "inventory group not found" ≫= λ _,
  expand_group_inner (expand_fuel lookup) lookup name (mk_expansion [] ∅ []) ≫= λ state,
  Ok (expanded state).

(** *** Parsing *)

(** [Result::with_context]. *)
Definition in_context {A} (r : result A) (e : string) : result A :=
  match r with Ok a => Ok a | Err _ => Err e end.

Definition is_group_char (c : char) : bool :=
  is_ascii_alphanumeric c || (c =? ch ".") || (c =? ch "_") || (c =? ch "-").

Definition validate_group_name (name : str) : result unit :=
  bail_if (bool_decide (name = []) || (64 <? str_len name)) "group names must contain between 1 and 64 bytes" ≫= λ _,
  bail_if (negb (forallb is_group_char (utf8 name)))
    "group names may only contain ASCII letters, digits, '.', '_' and '-'".

Record ParseState := mk_parse {
  p_hosts : gset str;
  p_groups : gmap str (list InventoryMember);
  p_total : Z;
}.

Definition parse_member (token : str) : result InventoryMember :=
  match strip_prefix [at_sign] token with
  | Some group =>
      in_context (validate_group_name group) "invalid nested group reference" ≫= λ _, Ok (Group group)
  | None =>
      in_context (target_parse token) "invalid host member" ≫= λ _, Ok (Host token)
  end.

Definition identity (member : InventoryMember) : str :=
  match member with Host host => lit "h:" ++ host | Group group => lit "g:" ++ group end.

(** [members], [unique_members] and [total_members]. *)
Record MemberState := mk_members { ms_members : list InventoryMember; ms_unique : gset str; ms_total : Z }.

Definition push_member (state : MemberState) (token : str) : result MemberState :=
  parse_member token ≫= λ member,
  bail_if (bool_decide (identity member ∈ ms_unique state)) "duplicate member" ≫= λ _,
  let total := ms_total state + 1 in
  bail_if (MAX_GROUP_MEMBERS <? total) "inventory cannot contain more than MAX_GROUP_MEMBERS total group members" ≫= λ _,
  Ok (mk_members (ms_members state ++ [member]) ({[ identity member ]} ∪ ms_unique state) total).

Definition parse_host (state : ParseState) (tokens : list str) : result ParseState :=
  match tokens with
  | [_; target] =>
      in_context (target_parse target) "invalid host target" ≫= λ _,
      bail_if (bool_decide (target ∈ p_hosts state)) "duplicate host target" ≫= λ _,
      let hosts := {[ target ]} ∪ p_hosts state in
      bail_if (MAX_HOSTS <? Z.of_nat (size hosts)) "inventory cannot contain more than MAX_HOSTS hosts" ≫= λ _,
      Ok (mk_parse hosts (p_groups state) (p_total state))
  | _ => Err "host requires exactly one target"
  end.

Definition parse_group (state : ParseState) (tokens : list str) : result ParseState :=
  match tokens with
  | _ :: name :: (_ :: _) as members =>
      in_context (validate_group_name name) "invalid group name" ≫= λ _,
      bail_if (bool_decide (is_Some (p_groups state !! name))) "duplicate group" ≫= λ _,
      bail_if (MAX_GROUPS <=? Z.of_nat (size (p_groups state))) "inventory cannot contain more than MAX_GROUPS groups" ≫= λ _,
      try_fold push_member (mk_members [] ∅ (p_total state)) (drop 2 tokens) ≫= λ members,
      Ok (mk_parse (p_hosts state) (<[ name := ms_members members ]> (p_groups state)) (ms_total members))
  | _ => Err "group requires a name and at least one member"
  end.

(** The body of the loop over the lines. *)
Definition parse_line (state : ParseState) (raw_line : str) : result ParseState :=
  let line := trim (match split_once hash raw_line with Some (prefix, _) => prefix | None => raw_line end) in
  if bool_decide (line = []) then Ok state
  else
    let tokens := split_whitespace line in
    match tokens with
    | [] => Ok state
    | directive :: _ =>
        if bool_decide (directive = lit "host") then parse_host state tokens
        else if bool_decide (directive = lit "group") then parse_group state tokens
        else Err "unsupported directive; expected host or group"
    end.

(** The checks of the references, over the finished maps. *)
Definition check_member (hosts : gset str) (groups : gmap str (list InventoryMember)) (member : InventoryMember)
    : result unit :=
  match member with
  | Host host => bail_if (bool_decide (host ∉ hosts)) "references undeclared host"
  | Group group => bail_if (negb (bool_decide (is_Some (groups !! group)))) "references unknown group"
  end.

Definition parse_inventory (text : str) (source : option str) : result HostInventory :=
  try_fold parse_line (mk_parse ∅ ∅ 0) (lines text) ≫= λ state,
  for_each (λ entry, for_each (check_member (p_hosts state) (p_groups state)) entry.2)
    (btree_entries (p_groups state)) ≫= λ _,
  let inventory :=
    mk_inventory source (btree_elements (p_hosts state))
      ((λ entry, mk_group entry.1 entry.2) <$> btree_entries (p_groups state)) in
  for_each (λ group, expand_group inventory (g_name group) ≫= λ _, Ok tt) (groups inventory) ≫= λ _,
  Ok inventory.

(** *** Loading and the targets of a fleet command *)

(** [fs::read]; the code tells [ErrorKind::NotFound] apart. *)
Inductive read_result := Contents (bytes : list Z) | NotFound | ReadError.

Section system.
Context (fs_read : str → read_result) (env_var : str → option str).

Definition inventory_of_bytes (bytes : list Z) (path : str) : result HostInventory :=
  bail_if (MAX_INVENTORY_BYTES <? zlen bytes) "inventory exceeds the byte safety limit" ≫= λ _,
  with_context (from_utf8 bytes) "inventory must be valid UTF-8" ≫= λ text,
  parse_inventory text (Some path).

Definition load_inventory (path : str) : result HostInventory :=
  match fs_read path with
  | Contents bytes => inventory_of_bytes bytes path
  | _ => Err "failed to read inventory"
  end.

Definition non_empty_env (name : str) : option str :=
  value ← env_var name; if bool_decide (trim value = []) then None else Some value.

(** On Unix. *)
Definition default_inventory_path : result str :=
  match non_empty_env (lit "KADUOX_SSH_INVENTORY") with
  | Some path => Ok path
  | None =>
      match non_empty_env (lit "XDG_CONFIG_HOME") with
      | Some xdg => Ok (path_join (path_join xdg (lit "kaduox-ssh")) (lit "inventory"))
      | None =>
          match non_empty_env (lit "HOME") with
          | Some home => Ok (path_join (path_join (path_join home (lit ".config")) (lit "kaduox-ssh")) (lit "inventory"))
          | None => Err "cannot determine inventory path; set KADUOX_SSH_INVENTORY explicitly"
          end
      end
  end.

Definition discover_inventory : result HostInventory :=
  default_inventory_path ≫= λ path,
  match fs_read path with
  | Contents bytes => inventory_of_bytes bytes path
  | NotFound => Ok (mk_inventory (Some path) [] [])
  | ReadError => Err "failed to read inventory"
  end.

Definition load_selected_inventory (path : option str) : result HostInventory :=
  match path with Some path => load_inventory path | None => discover_inventory end.

(** [targets] and [seen]. *)
Definition push_unique (state : list str * gset str) (target : str) : list str * gset str :=
  if bool_decide (target ∈ state.2) then state else (state.1 ++ [target], {[ target ]} ∪ state.2).

Definition resolve_target_labels (direct_hosts groups : list str) (inventory_path : option str) : result (list str) :=
  (if bool_decide (is_Some inventory_path) || negb (bool_decide (groups = []))
   then Some <$> load_selected_inventory inventory_path else Ok None) ≫= λ inventory,
  let state := foldl push_unique ([], ∅) direct_hosts in
  match inventory with
  | None => Ok state.1
  | Some inventory =>
      try_fold (λ state group,
        in_context (expand_group inventory group) "failed to expand fleet inventory group" ≫= λ expanded,
        Ok (foldl push_unique state expanded)) state groups ≫= λ state,
      Ok state.1
  end.
End system.
