(* ===== verification/InventoryExpand.v ===== *)
(** * Expanding inventory groups

    The reference semantics of a group is the list of hosts it flattens to, by
    rules; the code computes its first occurrences, within the limit, and reports
    every cycle. *)

From stdpp Require Import base list gmap strings numbers sorting relations.
From Stdlib Require Import Lia.
From S2P Require Import Prelude RustStr StrFacts IncludeEnv Targets Inventory.

(** ** First occurrences *)
Definition add_new (l : list str) (h : str) : list str := if bool_decide (h ∈ l) then l else l ++ [h].
Definition add_all (acc l : list str) : list str := foldl add_new acc l.
Definition first_occurrences (l : list str) : list str := add_all [] l.

Lemma add_all_app acc l k : add_all acc (l ++ k) = add_all (add_all acc l) k.
Proof. apply foldl_app. Qed.

Lemma add_new_prefix l h : l `prefix_of` add_new l h.
Proof. unfold add_new. case_bool_decide; [done|]. by exists [h]. Qed.

Lemma add_all_prefix acc l : acc `prefix_of` add_all acc l.
Proof.
  revert acc. induction l as [|h l IH]; intros acc; [done|]. cbn [add_all foldl].
  etrans; [apply (add_new_prefix _ h)|apply IH].
Qed.

Lemma add_all_length acc l : zlen acc ≤ zlen (add_all acc l).
Proof. pose proof (prefix_length _ _ (add_all_prefix acc l)). lia. Qed.

Lemma elem_of_add_all acc l h : h ∈ add_all acc l ↔ h ∈ acc ∨ h ∈ l.
Proof.
  revert acc. induction l as [|x l IH]; intros acc; cbn [add_all foldl]; [set_solver|].
  change (h ∈ add_all (add_new acc x) l ↔ h ∈ acc ∨ h ∈ x :: l). rewrite IH. unfold add_new.
  case_bool_decide; set_solver.
Qed.

Lemma NoDup_add_all acc l : NoDup acc → NoDup (add_all acc l).
Proof.
  revert acc. induction l as [|x l IH]; intros acc Hacc; [done|]. cbn [add_all foldl]. apply IH.
  unfold add_new. case_bool_decide; [done|]. apply NoDup_app. split_and!; [done| |apply NoDup_singleton].
  intros y Hy ->%list_elem_of_singleton. done.
Qed.

(** ** The reference semantics *)
Section groups.
Context (groups : gmap str InventoryGroup).

Inductive flattens : str → list str → Prop :=
| flattens_group name g l :
    groups !! name = Some g → flatten_members (g_members g) l → flattens name l
with flatten_members : list InventoryMember → list str → Prop :=
| flatten_nil : flatten_members [] []
| flatten_host h ms l : flatten_members ms l → flatten_members (Host h :: ms) (h :: l)
| flatten_sub name ms l k : flattens name l → flatten_members ms k → flatten_members (Group name :: ms) (l ++ k).

Scheme flattens_mut := Induction for flattens Sort Prop
with flatten_members_mut := Induction for flatten_members Sort Prop.

(** Group [x] has [y] as a member. *)
Definition refers (x y : str) : Prop := ∃ g, groups !! x = Some g ∧ Group y ∈ g_members g.

Lemma flattens_acc name l : flattens name l → Acc (flip refers) name.
Proof.
  intros H. induction H as [name g l Hg _ IH| |h ms l _ IH|name ms l k _ IHn _ IHm] using flattens_mut
    with (P0 := λ ms _ _, ∀ y, Group y ∈ ms → Acc (flip refers) y).
  - constructor. intros y (g' & Hg' & Hy). rewrite Hg in Hg'. injection Hg' as <-. by apply IH.
  - intros y []%not_elem_of_nil.
  - intros y [?|Hy]%elem_of_cons; [done|]. by apply IH.
  - intros y [[= ->]|Hy]%elem_of_cons; [done|]. by apply IHm.
Qed.

Lemma acc_irreflexive x : Acc (flip refers) x → ¬ tc refers x x.
Proof.
  intros Hacc. induction Hacc as [x _ IH]. intros Hx.
  inversion Hx as [? ? Hxx|? y ? Hxy Hyx]; subst; [by apply (IH x Hxx)|].
  apply (IH y Hxy). eapply tc_r; [exact Hyx|exact Hxy].
Qed.

Lemma flattens_no_cycle name l : flattens name l → ¬ tc refers name name.
Proof. intros H%flattens_acc. by apply acc_irreflexive. Qed.

Lemma flattens_functional name l k : flattens name l → flattens name k → l = k.
Proof.
  intros H. revert k. induction H as [name g l Hg _ IH| |h ms l _ IH|name ms l k _ IHn _ IHm] using flattens_mut
    with (P0 := λ ms l _, ∀ k, flatten_members ms k → l = k).
  - intros k Hk. inversion Hk as [? g' ? Hg' Hms]. subst. apply IH. congruence.
  - intros k Hk. by inversion Hk.
  - intros k' Hk. inversion Hk; subst. f_equal. by apply IH.
  - intros k' Hk. inversion Hk; subst. f_equal; [by apply IHn|by apply IHm].
Qed.

(** ** The code against the semantics *)
Definition coherent (state : Expansion) : Prop := seen_hosts state = list_to_set (expanded state).

(** [state] after the hosts [l]. *)
Definition grown (state : Expansion) (l : list str) : Expansion :=
  mk_expansion (visiting state) (list_to_set (add_all (expanded state) l)) (add_all (expanded state) l).

Lemma grown_coherent state l : coherent (grown state l).
Proof. done. Qed.

Lemma grown_app state l k : grown state (l ++ k) = grown (grown state l) k.
Proof. unfold grown. cbn [expanded visiting]. by rewrite add_all_app. Qed.

Lemma grown_nil state : coherent state → grown state [] = state.
Proof. destruct state as [v s e]. unfold coherent, grown. cbn. by intros ->. Qed.

Lemma leave_visit name state l : leave (grown (visit name state) l) = grown state l.
Proof.
  unfold leave, grown, visit. cbn [visiting expanded seen_hosts].
  replace (length (visiting state ++ [name]) - 1)%nat with (length (visiting state)) by (rewrite length_app; cbn; lia).
  by rewrite take_app_length.
Qed.

Lemma expand_host_ok h state state' :
  coherent state → zlen (expanded state) ≤ MAX_EXPANDED_GROUP_HOSTS →
  expand_host h state = Ok state' ↔
  state' = grown state [h] ∧ zlen (expanded (grown state [h])) ≤ MAX_EXPANDED_GROUP_HOSTS.
Proof.
  intros Hc Hmax. destruct state as [v s e]. unfold coherent in Hc. cbn in Hc. subst s.
  unfold expand_host, grown, add_all. cbn [seen_hosts visiting expanded foldl]. unfold add_new.
  assert (bool_decide (h ∈ (list_to_set e : gset str)) = bool_decide (h ∈ e)) as ->
    by (apply bool_decide_ext; apply elem_of_list_to_set).
  case_bool_decide; [naive_solver|]. rewrite bind_ok. split.
  - intros ([] & Hle%bail_if_ok & [= <-]). split; [|lia]. f_equal. rewrite list_to_set_app_L. set_solver.
  - intros [-> Hle]. exists tt. split; [apply bail_if_ok; lia|]. f_equal. f_equal. rewrite list_to_set_app_L. set_solver.
Qed.

(** The loop over the members, with the recursive call abstracted. *)
Definition members_loop (call : str → Expansion → result Expansion) (state : Expansion) (ms : list InventoryMember) :=
  try_fold (λ state member,
    match member with Host host => expand_host host state | Group group => call group state end) state ms.

Lemma inner_unfold fuel name state :
  expand_group_inner (S fuel) groups name state =
  (bail_if (is_visiting name state) "inventory group cycle detected" ≫= λ _,
   with_context (groups !! name) "inventory group not found during expansion" ≫= λ group,
   members_loop (expand_group_inner fuel groups) (visit name state) (g_members group) ≫= λ state, Ok (leave state)).
Proof. done. Qed.

Lemma members_sound call ms state state' :
  (∀ name s s', coherent s → zlen (expanded s) ≤ MAX_EXPANDED_GROUP_HOSTS → call name s = Ok s' →
    ∃ l, flattens name l ∧ s' = grown s l ∧ zlen (expanded s') ≤ MAX_EXPANDED_GROUP_HOSTS) →
  coherent state → zlen (expanded state) ≤ MAX_EXPANDED_GROUP_HOSTS →
  members_loop call state ms = Ok state' →
  ∃ l, flatten_members ms l ∧ state' = grown state l ∧ zlen (expanded state') ≤ MAX_EXPANDED_GROUP_HOSTS.
Proof.
  intros Hcall. unfold members_loop. revert state. induction ms as [|m ms IH]; intros state Hc Hmax.
  - intros [= <-]. exists []. split_and!; [constructor| |done]. symmetry. by apply grown_nil.
  - cbn [try_fold]. intros (s1 & H1 & Hrest)%bind_ok. destruct m as [h|name].
    + apply expand_host_ok in H1 as [-> Hle]; [|done..].
      apply IH in Hrest as (l & Hl & -> & Hmax'); [|done..]. exists (h :: l). split_and!; [by constructor| |done].
      by rewrite <- grown_app.
    + apply Hcall in H1 as (l & Hl & -> & Hle); [|done..].
      apply IH in Hrest as (k & Hk & -> & Hmax'); [|done..]. exists (l ++ k). split_and!; [by constructor| |done].
      by rewrite grown_app.
Qed.

Lemma inner_sound fuel name state state' :
  coherent state → zlen (expanded state) ≤ MAX_EXPANDED_GROUP_HOSTS →
  expand_group_inner fuel groups name state = Ok state' →
  ∃ l, flattens name l ∧ state' = grown state l ∧ zlen (expanded state') ≤ MAX_EXPANDED_GROUP_HOSTS.
Proof.
  revert name state state'. induction fuel as [|fuel IH]; intros name state state' Hc Hmax; [done|].
  rewrite inner_unfold. intros ([] & _ & Hrest)%bind_ok. apply bind_ok in Hrest as (g & Hg%with_context_ok & Hrest).
  apply bind_ok in Hrest as (s1 & Hloop & [= <-]).
  apply members_sound in Hloop as (l & Hl & -> & Hmax'); [|exact IH|done|done].
  exists l. rewrite leave_visit. split_and!; [by econstructor|done|done].
Qed.

(** The groups on the way down are distinct, declared, and lead to [name]. *)
Definition on_the_way (name : str) (state : Expansion) : Prop :=
  NoDup (visiting state) ∧ Forall (λ v, is_Some (groups !! v) ∧ tc refers v name) (visiting state).

Lemma visiting_bound name state : on_the_way name state → (length (visiting state) ≤ size groups)%nat.
Proof.
  intros [Hnd Hall]. rewrite <- (size_list_to_set (C := gset str)) by done. rewrite <- size_dom.
  apply subseteq_size. intros v Hv%elem_of_list_to_set. rewrite Forall_forall in Hall.
  apply elem_of_dom. by apply Hall.
Qed.

Lemma members_complete call ms l state :
  (∀ name s k, Group name ∈ ms → visiting s = visiting state → coherent s →
    flattens name k → zlen (expanded (grown s k)) ≤ MAX_EXPANDED_GROUP_HOSTS → call name s = Ok (grown s k)) →
  coherent state → flatten_members ms l → zlen (expanded (grown state l)) ≤ MAX_EXPANDED_GROUP_HOSTS →
  members_loop call state ms = Ok (grown state l).
Proof.
  unfold members_loop. intros Hcall Hc Hl. revert state Hcall Hc. induction Hl as [|h ms l Hl IH|name ms l k Hl Hk IH];
    intros state Hcall Hc Hmax; cbn [try_fold].
  - by rewrite grown_nil.
  - change (h :: l) with ([h] ++ l) in *. rewrite grown_app in Hmax |- *.
    assert (zlen (expanded (grown state [h])) ≤ MAX_EXPANDED_GROUP_HOSTS) as Hh
      by (etrans; [apply add_all_length|exact Hmax]).
    assert (expand_host h state = Ok (grown state [h])) as ->.
    { apply expand_host_ok; [done| |done]. etrans; [apply add_all_length|exact Hh]. }
    step_bind. apply IH; [|done|done]. intros name s k' Hin. apply Hcall. by right.
  - rewrite grown_app in Hmax |- *.
    rewrite (Hcall name state l); [|by left|done|done|done|by etrans; [apply add_all_length|exact Hmax]].
    step_bind. apply IH; [|done|done]. intros name' s k' Hin. apply Hcall. by right.
Qed.

Lemma inner_complete fuel name state l :
  (S (size groups) ≤ fuel + length (visiting state))%nat → on_the_way name state → coherent state →
  flattens name l → zlen (expanded (grown state l)) ≤ MAX_EXPANDED_GROUP_HOSTS →
  expand_group_inner fuel groups name state = Ok (grown state l).
Proof.
  revert name state l. induction fuel as [|fuel IH]; intros name state l Hfuel Hway Hc Hl Hmax.
  { apply visiting_bound in Hway. lia. }
  rewrite inner_unfold. pose proof (flattens_no_cycle _ _ Hl) as Hacyclic.
  inversion Hl as [? g ? Hg Hms]; subst. destruct Hway as [Hnd Hall].
  assert (is_visiting name state = false) as ->.
  { apply bool_decide_eq_false. intros Hin. rewrite Forall_forall in Hall. by apply Hacyclic, (Hall name). }
  cbn [bail_if]. step_bind. rewrite Hg. cbn [with_context]. step_bind.
  rewrite (members_complete _ _ l); [step_bind; by rewrite leave_visit| |done|done|done].
  intros y s k Hy Hv Hs Hk Hmax'. assert (refers name y) as Href by by exists g.
  apply IH; [rewrite Hv; cbn; rewrite length_app; cbn; lia| |done|done|done].
  unfold on_the_way. rewrite Hv. cbn [visit visiting]. split.
  - apply NoDup_app. split_and!; [done| |apply NoDup_singleton].
    intros v Hv' ->%list_elem_of_singleton. rewrite Forall_forall in Hall. by apply Hacyclic, (Hall name).
  - apply Forall_app. split; [|by repeat constructor; [eexists|]].
    apply (Forall_impl _ _ _ Hall). intros v [? ?]. split; [done|]. by eapply tc_r.
Qed.

Lemma expand_spec name hosts :
  (state ← expand_group_inner (expand_fuel groups) groups name (mk_expansion [] ∅ []); Ok (expanded state)) = Ok hosts ↔
  ∃ l, flattens name l ∧ hosts = first_occurrences l ∧ zlen hosts ≤ MAX_EXPANDED_GROUP_HOSTS.
Proof.
  rewrite bind_ok. split.
  - intros (state & Hs & [= <-]). apply inner_sound in Hs as (l & Hl & -> & Hmax); [|done|done]. by exists l.
  - intros (l & Hl & -> & Hmax). exists (grown (mk_expansion [] ∅ []) l). split; [|done].
    apply inner_complete; [cbn; unfold expand_fuel; lia| |done|done|done]. by split; [constructor|].
Qed.
End groups.

(** ** The lookup table *)
Lemma group_lookup_NoDup gs name g :
  NoDup (g_name <$> gs) → group_lookup gs !! name = Some g ↔ g ∈ gs ∧ g_name g = name.
Proof.
  intros Hnd. unfold group_lookup.
  assert (foldl (λ lookup group, <[ g_name group := group ]> lookup) ∅ gs =
    (list_to_map ((λ g, (g_name g, g)) <$> gs) : gmap str InventoryGroup)) as ->.
  { rewrite <- insert_all_empty; [by rewrite foldl_fmap|]. by rewrite <- list_fmap_compose. }
  rewrite <- elem_of_list_to_map; [|by rewrite <- list_fmap_compose].
  rewrite list_elem_of_fmap. split; [intros (g' & [= -> ->] & ?); done|intros [? <-]; by exists g].
Qed.

Lemma expand_group_spec inventory name hosts :
  expand_group inventory name = Ok hosts ↔
  ∃ l, flattens (group_lookup (groups inventory)) name l ∧ hosts = first_occurrences l ∧
    zlen hosts ≤ MAX_EXPANDED_GROUP_HOSTS.
Proof.
  rewrite <- expand_spec. unfold expand_group. rewrite bind_ok. split; [by intros ([] & _ & ?)|].
  intros H. exists tt. split; [|done]. apply bail_if_ok, negb_false_iff, bool_decide_eq_true.
  apply expand_spec in H as (l & Hl & _). inversion Hl; subst. by eexists.
Qed.

(** Expanding a group is exact.  [HostInventory::expand_group] returns hosts
    exactly when the group and every group below it are declared, no group contains
    itself, and the hosts that they flatten to have at most 1024 different ones; the
    result is then those hosts, in the order of their first occurrence.  In
    particular the recursion returns on every inventory, cyclic ones included. *)
Theorem expand_group_exact inventory name hosts :
  expand_group inventory name = Ok hosts ↔
  ∃ l, flattens (group_lookup (groups inventory)) name l ∧ hosts = first_occurrences l ∧ NoDup hosts ∧
    zlen hosts ≤ MAX_EXPANDED_GROUP_HOSTS.
Proof.
  rewrite expand_group_spec. split; intros (l & Hl & -> & H); exists l; [|naive_solver].
  split_and!; try done. apply NoDup_add_all. constructor.
Qed.

(** ** Fleet targets *)
Lemma push_unique_fold l (acc : list str) :
  foldl push_unique (acc, list_to_set acc) l = (add_all acc l, list_to_set (add_all acc l)).
Proof.
  revert acc. induction l as [|h l IH]; intros acc; [done|]. cbn [foldl].
  assert (push_unique (acc, list_to_set acc) h = (add_new acc h, list_to_set (add_new acc h))) as ->; [|by rewrite IH].
  unfold push_unique, add_new. cbn [fst snd].
  assert (bool_decide (h ∈ (list_to_set acc : gset str)) = bool_decide (h ∈ acc)) as ->
    by (apply bool_decide_ext; apply elem_of_list_to_set).
  case_bool_decide; [done|]. f_equal. rewrite list_to_set_app_L. set_solver.
Qed.

Lemma in_context_ok {A} (r : result A) e a : in_context r e = Ok a ↔ r = Ok a.
Proof. by destruct r. Qed.

Lemma expansions_fold inventory gs acc targets :
  (state ← try_fold (λ state group,
        in_context (expand_group inventory group) "failed to expand fleet inventory group" ≫= λ expanded,
        Ok (foldl push_unique state expanded)) (acc, list_to_set acc) gs; Ok state.1) = Ok targets ↔
  ∃ ls, Forall2 (λ g l, expand_group inventory g = Ok l) gs ls ∧ targets = add_all acc (concat ls).
Proof.
  revert acc. induction gs as [|g gs IH]; intros acc; cbn [try_fold].
  - rewrite bind_of_ok. split; [intros [= <-]; by exists []|]. by intros (ls & ->%Forall2_nil_inv_l & ->).
  - destruct (in_context (expand_group inventory g) "failed to expand fleet inventory group") as [l|e] eqn:Hg.
    + rewrite bind_of_ok. rewrite bind_of_ok. rewrite push_unique_fold, IH. apply in_context_ok in Hg. split.
      * intros (ls & Hls & ->). exists (l :: ls). split; [by constructor|]. cbn [concat]. by rewrite add_all_app.
      * intros (ls & (l' & ls' & Hl & Hls & ->)%Forall2_cons_inv_l & ->). rewrite Hg in Hl. injection Hl as <-.
        exists ls'. split; [done|]. cbn [concat]. by rewrite add_all_app.
    + split; [done|]. intros (ls & (l' & ls' & Hl & Hls & ->)%Forall2_cons_inv_l & ->).
      by rewrite Hl in Hg.
Qed.

(** The targets of a fleet command.  [resolve_target_labels] loads an inventory
    exactly when a path or a group was given, succeeds exactly when the load and
    the expansion of every group do, and returns the direct hosts and the hosts of
    the groups, in the order given, each at its first occurrence only. *)
Theorem fleet_targets_exact fs_read env_var direct groups path targets :
  resolve_target_labels fs_read env_var direct groups path = Ok targets ↔
  NoDup targets ∧
  if bool_decide (path = None ∧ groups = []) then targets = first_occurrences direct
  else ∃ inventory ls, load_selected_inventory fs_read env_var path = Ok inventory ∧
    Forall2 (λ group l, expand_group inventory group = Ok l) groups ls ∧
    targets = first_occurrences (direct ++ concat ls).
Proof.
  assert (Hnd : ∀ l, NoDup (first_occurrences l)) by (intros l; apply NoDup_add_all; constructor).
  unfold resolve_target_labels.
  assert (bool_decide (is_Some path) || negb (bool_decide (groups = [])) =
    negb (bool_decide (path = None ∧ groups = []))) as ->.
  { destruct path, groups; done. }
  change (foldl push_unique ([], ∅) direct) with (foldl push_unique ([], list_to_set []) direct).
  rewrite push_unique_fold. cbv beta zeta. case_bool_decide as Hnone; cbn [negb].
  - rewrite bind_of_ok. split; [intros [= <-]|intros [_ ->]]; [split; [apply Hnd|]|]; done.
  - destruct (load_selected_inventory fs_read env_var path) as [inventory|e] eqn:Hload.
    + change (Some <$> Ok inventory) with (Ok (Some inventory)). rewrite bind_of_ok, expansions_fold. split.
      * intros (ls & Hls & ->). rewrite <- add_all_app. split; [apply Hnd|]. by exists inventory, ls.
      * intros [_ (i & ls & [= <-] & Hls & ->)]. exists ls. by rewrite <- add_all_app.
    + split; [done|]. by intros [_ (i & ls & [=] & _)].
Qed.
