(* ===== verification/InventoryParse.v ===== *)
(** * Parsing the host inventory

    What the parser accepts: an accepted inventory is well formed and is what its
    lines declare, and every well-formed inventory is read back from its printed
    form. *)

From stdpp Require Import base list gmap strings numbers sorting relations.
From Stdlib Require Import Lia.
From S2P Require Import Prelude RustStr StrFacts IncludeEnv OpenSshMatch Targets Inventory InventoryExpand.

(** ** Sums over maps *)
Definition sum_z (l : list Z) : Z := foldr Z.add 0 l.

#[export] Instance sum_z_perm : Proper ((≡ₚ) ==> (=)) sum_z.
Proof. unfold sum_z. intros l k H. induction H; cbn [foldr] in *; lia. Qed.

Lemma sum_z_app l k : sum_z (l ++ k) = sum_z l + sum_z k.
Proof. unfold sum_z. induction l as [|x l IH]; cbn [app foldr]; [done|]. rewrite IH. lia. Qed.

(** The members of all groups together. *)
Definition total_members (groups : gmap str (list InventoryMember)) : Z :=
  sum_z ((λ entry, zlen entry.2) <$> map_to_list groups).

Lemma total_members_insert groups name ms :
  groups !! name = None → total_members (<[ name := ms ]> groups) = zlen ms + total_members groups.
Proof. intros H. unfold total_members. by rewrite map_to_list_insert. Qed.

(** ** Members *)
#[export] Instance identity_inj : Inj (=) (=) identity.
Proof.
  intros [x|x] [y|y] H; unfold identity in H; [|discriminate H..|].
  - f_equal. by apply (app_inv_head (lit "h:")).
  - f_equal. by apply (app_inv_head (lit "g:")).
Qed.

Lemma push_members_ok toks t r :
  t ≤ MAX_GROUP_MEMBERS →
  try_fold push_member (mk_members [] ∅ t) toks = Ok r ↔
  ∃ ms, Forall2 (λ tok m, parse_member tok = Ok m) toks ms ∧ NoDup ms ∧ t + zlen toks ≤ MAX_GROUP_MEMBERS ∧
    r = mk_members ms (list_to_set (identity <$> ms)) (t + zlen toks).
Proof.
  intros Ht. revert r. induction toks as [|tok toks IH] using rev_ind; intros r.
  { cbn [try_fold]. split.
    - intros [= <-]. exists []. change (zlen []) with 0. rewrite Z.add_0_r.
      split_and!; [apply Forall2_nil_2|apply NoDup_nil_2|done|done].
    - intros (ms & ->%Forall2_nil_inv_l & _ & _ & ->). change (zlen []) with 0. by rewrite Z.add_0_r. }
  rewrite try_fold_app, bind_ok. setoid_rewrite IH. cbn [try_fold].
  assert (Hlen : zlen (toks ++ [tok]) = zlen toks + 1) by (rewrite length_app; cbn; lia). rewrite Hlen. split.
  - intros (s & (ms & Hms & Hnd & Hmax & ->) & Hrest). apply bind_ok in Hrest as (s' & Hpush & [= <-]).
    unfold push_member in Hpush. cbn [ms_unique ms_total ms_members] in Hpush.
    apply bind_ok in Hpush as (m & Hm & Hpush). apply bind_ok in Hpush as ([] & Hu%bail_if_ok & Hpush).
    apply bind_ok in Hpush as ([] & Hle%bail_if_ok & [= <-]).
    to_prop. exists (ms ++ [m]). split_and!.
    + apply Forall2_app; [done|]. by repeat constructor.
    + apply NoDup_app. split_and!; [done| |apply NoDup_singleton]. intros x Hx ->%list_elem_of_singleton.
      apply Hu, elem_of_list_to_set. by apply list_elem_of_fmap_2.
    + lia.
    + f_equal; [|lia]. rewrite fmap_app, list_to_set_app_L. cbn. set_solver.
  - intros (ms' & (ms & mt & Hms & Hm & ->)%Forall2_app_inv_l & Hnd & Hmax & ->).
    apply Forall2_cons_inv_l in Hm as (m & mt' & Hm & ->%Forall2_nil_inv_l & ->).
    apply NoDup_app in Hnd as (Hnd & Hdisj & _).
    eexists. split; [exists ms; split_and!; [done|done|lia|done]|]. unfold push_member.
    rewrite Hm. step_bind. cbn [ms_unique ms_total ms_members].
    rewrite bool_decide_eq_false_2.
    2:{ intros (m' & Heq & Hin)%elem_of_list_to_set%list_elem_of_fmap. apply (inj identity) in Heq as ->.
        apply (Hdisj m'); [done|by left]. }
    cbn [bail_if]. step_bind. replace (MAX_GROUP_MEMBERS <? t + zlen toks + 1) with false by lia.
    cbn [bail_if]. step_bind. apply (f_equal Ok). f_equal; [|lia]. rewrite fmap_app, list_to_set_app_L. cbn. set_solver.
Qed.

(** ** Lines *)

(** The words of a line, up to a comment. *)
Definition words_of (raw : str) : list str :=
  split_whitespace (trim (match split_once hash raw with Some (prefix, _) => prefix | None => raw end)).

(** What a line adds to the state. *)
Inductive line_adds (state : ParseState) : list str → ParseState → Prop :=
| adds_nothing : line_adds state [] state
| adds_host h t :
    target_parse h = Ok t → h ∉ p_hosts state → Z.of_nat (size (p_hosts state)) < MAX_HOSTS →
    line_adds state [lit "host"; h] (mk_parse ({[ h ]} ∪ p_hosts state) (p_groups state) (p_total state))
| adds_group name toks ms :
    validate_group_name name = Ok tt → p_groups state !! name = None →
    Z.of_nat (size (p_groups state)) < MAX_GROUPS → toks ≠ [] →
    Forall2 (λ tok m, parse_member tok = Ok m) toks ms → NoDup ms →
    p_total state + zlen ms ≤ MAX_GROUP_MEMBERS →
    line_adds state (lit "group" :: name :: toks)
      (mk_parse (p_hosts state) (<[ name := ms ]> (p_groups state)) (p_total state + zlen ms)).

Lemma parse_host_ok state tokens state' :
  parse_host state (lit "host" :: tokens) = Ok state' ↔ line_adds state (lit "host" :: tokens) state'.
Proof.
  unfold parse_host. split.
  - destruct tokens as [|h [|]]; [done| |done]. intros (t & Ht%in_context_ok & Hrest)%bind_ok.
    apply bind_ok in Hrest as ([] & Hh%bail_if_ok & Hrest). apply bind_ok in Hrest as ([] & Hle%bail_if_ok & [= <-]).
    to_prop. rewrite size_union in Hle by set_solver. rewrite size_singleton in Hle. econstructor; [done..|lia].
  - intros H. inversion H as [|h t Ht Hh Hle|]; subst. rewrite (proj2 (in_context_ok _ _ t)) by done. step_bind.
    rewrite bool_decide_eq_false_2 by done. cbn [bail_if]. step_bind.
    rewrite size_union by set_solver. rewrite size_singleton.
    assert (MAX_HOSTS <? Z.of_nat (1 + size (p_hosts state)) = false) as -> by (apply Z.ltb_ge; rewrite Nat2Z.inj_succ; apply Z.le_succ_l, Hle). done.
Qed.

Lemma parse_group_ok state tokens state' :
  p_total state ≤ MAX_GROUP_MEMBERS →
  parse_group state (lit "group" :: tokens) = Ok state' ↔ line_adds state (lit "group" :: tokens) state'.
Proof.
  intros Htotal. unfold parse_group. split.
  - destruct tokens as [|name [|tok toks]]; [done..|]. intros ([] & Hv%in_context_ok & Hrest)%bind_ok.
    apply bind_ok in Hrest as ([] & Hn%bail_if_ok & Hrest). apply bind_ok in Hrest as ([] & Hle%bail_if_ok & Hrest).
    apply bind_ok in Hrest as (r & Hr & [= <-]). change (drop 2 _) with (tok :: toks) in Hr.
    apply push_members_ok in Hr as (ms & Hms & Hnd & Hmax & ->); [|done]. cbn [ms_members ms_total].
    to_prop. rewrite (Forall2_length _ _ _ Hms) in *. apply eq_None_not_Some in Hn.
    by apply adds_group.
  - intros H. inversion H as [| |name toks ms Hv Hn Hle Hne Hms Hnd Hmax]; subst.
    destruct toks as [|tok toks]; [done|]. rewrite (proj2 (in_context_ok _ _ tt)) by done. step_bind.
    rewrite Hn. rewrite bool_decide_eq_false_2 by (by intros [? ?]). cbn [bail_if]. step_bind.
    replace (MAX_GROUPS <=? Z.of_nat (size (p_groups state))) with false by lia. cbn [bail_if]. step_bind.
    change (drop 2 _) with (tok :: toks).
    assert (try_fold push_member (mk_members [] ∅ (p_total state)) (tok :: toks) =
      Ok (mk_members ms (list_to_set (identity <$> ms)) (p_total state + zlen (tok :: toks)))) as ->.
    { apply push_members_ok; [done|]. exists ms. rewrite (Forall2_length _ _ _ Hms). done. }
    step_bind. by rewrite (Forall2_length _ _ _ Hms).
Qed.

Lemma parse_line_ok state raw state' :
  p_total state ≤ MAX_GROUP_MEMBERS →
  parse_line state raw = Ok state' ↔ line_adds state (words_of raw) state'.
Proof.
  intros Htotal. unfold parse_line, words_of.
  set (line := trim (match split_once hash raw with Some (prefix, _) => prefix | None => raw end)).
  assert (Hnil : Ok state = Ok state' ↔ line_adds state [] state').
  { split; [intros [= <-]; constructor|]. intros H. by inversion H. }
  case_bool_decide as Hline; [by rewrite Hline|]. destruct (split_whitespace line) as [|directive tokens]; [done|].
  case_bool_decide as Hh; [subst; apply parse_host_ok|].
  case_bool_decide as Hg; [subst; by apply parse_group_ok|].
  split; [done|]. intros H. by inversion H; subst.
Qed.

(** ** The state of the parser *)
Definition valid_host (h : str) : Prop := is_ok (target_parse h) = true ∧ hash ∉ h.

Record good_state (state : ParseState) : Prop := {
  gs_host_count : Z.of_nat (size (p_hosts state)) ≤ MAX_HOSTS;
  gs_hosts : ∀ h, h ∈ p_hosts state → valid_host h;
  gs_group_count : Z.of_nat (size (p_groups state)) ≤ MAX_GROUPS;
  gs_groups : ∀ name ms, p_groups state !! name = Some ms →
    validate_group_name name = Ok tt ∧ ms ≠ [] ∧ NoDup ms;
  gs_total : p_total state = total_members (p_groups state);
  gs_max : p_total state ≤ MAX_GROUP_MEMBERS;
}.

Lemma elem_of_words p s w c : w ∈ nonempty_pieces p s → c ∈ w → c ∈ s.
Proof.
  unfold nonempty_pieces. rewrite list_elem_of_filter. intros [_ Hw] Hc. revert w Hw Hc.
  induction s as [|d s IH]; cbn [split_on]; intros w Hw Hc.
  { apply list_elem_of_singleton in Hw as ->. done. }
  destruct (p d).
  - apply elem_of_cons in Hw as [->|Hw]; [by apply not_elem_of_nil in Hc|]. right. by eapply IH.
  - destruct (split_on p s) as [|v vs].
    + apply list_elem_of_singleton in Hw as ->. apply list_elem_of_singleton in Hc as ->. by left.
    + apply elem_of_cons in Hw as [->|Hw]; [|right; eapply IH; [by right|done]].
      apply elem_of_cons in Hc as [->|Hc]; [by left|]. right. eapply IH; [by left|done].
Qed.

Lemma elem_of_drop_while p s c : c ∈ drop_while p s → c ∈ s.
Proof. intros Hc. rewrite <- (take_drop_while p s). set_solver. Qed.

Lemma elem_of_trim s c : c ∈ trim s → c ∈ s.
Proof.
  unfold trim, trim_end, trim_start. rewrite elem_of_reverse.
  intros Hc%elem_of_drop_while. rewrite elem_of_reverse in Hc. by apply elem_of_drop_while in Hc.
Qed.

Lemma words_of_no_hash raw w : w ∈ words_of raw → hash ∉ w.
Proof.
  intros Hw Hc. pose proof (elem_of_trim _ _ (elem_of_words _ _ _ _ Hw Hc)) as Hin.
  destruct (split_once hash raw) as [[prefix rest]|] eqn:Hs.
  - apply split_once_some in Hs as [_ Hn]. done.
  - apply split_once_none in Hs. done.
Qed.

(** ** Accepted inventories *)

(** The lines declare a host; a group with its members. *)
Definition declares_host (ls : list str) (h : str) : Prop := ∃ raw, raw ∈ ls ∧ words_of raw = [lit "host"; h].
Definition declares_group (ls : list str) (name : str) (ms : list InventoryMember) : Prop :=
  ∃ raw toks, raw ∈ ls ∧ words_of raw = lit "group" :: name :: toks ∧
    Forall2 (λ tok m, parse_member tok = Ok m) toks ms.

Record parsed (ls : list str) (state : ParseState) : Prop := {
  parsed_good : good_state state;
  parsed_hosts : ∀ h, h ∈ p_hosts state ↔ declares_host ls h;
  parsed_groups : ∀ name ms, p_groups state !! name = Some ms ↔ declares_group ls name ms;
}.

Lemma declares_host_snoc ls raw h :
  declares_host (ls ++ [raw]) h ↔ declares_host ls h ∨ words_of raw = [lit "host"; h].
Proof.
  unfold declares_host. setoid_rewrite elem_of_app. setoid_rewrite list_elem_of_singleton. split.
  - intros (r & [?| ->] & ?); eauto.
  - intros [(r & ? & ?)|?]; eauto.
Qed.

Lemma declares_group_snoc ls raw name ms :
  declares_group (ls ++ [raw]) name ms ↔ declares_group ls name ms ∨
    ∃ toks, words_of raw = lit "group" :: name :: toks ∧ Forall2 (λ tok m, parse_member tok = Ok m) toks ms.
Proof.
  unfold declares_group. setoid_rewrite elem_of_app. setoid_rewrite list_elem_of_singleton. split.
  - intros (r & toks & [?| ->] & ? & ?); eauto 10.
  - intros [(r & toks & ? & ? & ?)|(toks & ? & ?)]; eauto 10.
Qed.

Lemma host_not_group : lit "host" ≠ lit "group".
Proof. by vm_compute. Qed.

Lemma parse_members_functional toks ms ms' :
  Forall2 (λ tok m, parse_member tok = Ok m) toks ms → Forall2 (λ tok m, parse_member tok = Ok m) toks ms' → ms = ms'.
Proof.
  intros H. revert ms'. induction H as [|tok m toks ms Hm _ IH]; intros ms'.
  { by intros ->%Forall2_nil_inv_l. }
  intros (m' & k & Hm' & Hk & ->)%Forall2_cons_inv_l. f_equal; [congruence|by apply IH].
Qed.

Lemma good_state_empty : good_state (mk_parse ∅ ∅ 0).
Proof. by split. Qed.

Lemma good_state_adds state words state' :
  (∀ w, w ∈ words → hash ∉ w) → good_state state → line_adds state words state' → good_state state'.
Proof.
  intros Hwords [Hhc Hh Hgc Hg Ht Hmax] H. destruct H as [|h t Htgt Hnew Hlt|name toks ms Hv Hnew Hlt Hne Hms Hnd Hle].
  - done.
  - split; cbn [p_hosts p_groups p_total]; try done.
    + rewrite size_union by set_solver. rewrite size_singleton, Nat2Z.inj_add. lia.
    + intros h' [->%elem_of_singleton|Hin]%elem_of_union; [|by apply Hh]. split; [by rewrite Htgt|].
      apply Hwords. right. by left.
  - split; cbn [p_hosts p_groups p_total]; try done.
    + rewrite map_size_insert_None by done. lia.
    + intros n ms' [[<- <-]|[_ Hin]]%lookup_insert_Some; [|by apply Hg]. split_and!; [done| |done].
      intros ->. apply Forall2_nil_inv_r in Hms. done.
    + rewrite total_members_insert by done. lia.
Qed.

Lemma parsed_adds ls raw state state' :
  parsed ls state → line_adds state (words_of raw) state' → parsed (ls ++ [raw]) state'.
Proof.
  intros [Hgood Hh Hg] Hadds. split.
  - eapply good_state_adds; [apply words_of_no_hash|done..].
  - intros h. rewrite declares_host_snoc, <- Hh.
    inversion Hadds as [Hw|h' t Htgt Hnew Hlt Hw|name toks ms Hv Hnew Hlt Hne Hms Hnd Hle Hw]; cbn [p_hosts].
    + by split; [auto|intros [?|?]].
    + rewrite elem_of_union, elem_of_singleton. split; [intros [->|?]; auto|intros [?|[= ->]]; auto].
    + split; [auto|]. intros [?|Heq]; [done|]. discriminate Heq.
  - intros n ms'. rewrite declares_group_snoc, <- Hg.
    inversion Hadds as [Hw|h' t Htgt Hnew Hlt Hw|name toks ms Hv Hnew Hlt Hne Hms Hnd Hle Hw]; cbn [p_groups].
    + split; [auto|]. intros [?|(k & [=] & _)]. done.
    + split; [auto|]. intros [?|(k & Heq & _)]; [done|]. discriminate Heq.
    + rewrite lookup_insert_Some. split.
      * intros [[<- <-]|[_ ?]]; [right; eauto|auto].
      * intros [Hin|(k & [= <- <-] & Hk)]; [right; split; [congruence|done]|left; split; [done|]].
        by eapply parse_members_functional.
Qed.

Lemma parse_lines_sound ls state :
  try_fold parse_line (mk_parse ∅ ∅ 0) ls = Ok state → parsed ls state.
Proof.
  revert state. induction ls as [|raw ls IH] using rev_ind; intros state.
  - intros [= <-]. split; [apply good_state_empty| |].
    + intros h. split; [by intros ?%not_elem_of_empty|]. by intros (r & ?%not_elem_of_nil & _).
    + intros n ms. cbn [p_groups]. rewrite lookup_empty. split; [done|]. by intros (r & k & ?%not_elem_of_nil & _).
  - rewrite try_fold_app. intros (s & Hs%IH & Hrest)%bind_ok. cbn [try_fold] in Hrest.
    apply bind_ok in Hrest as (s' & Hline & [= <-]).
    apply parse_line_ok in Hline; [by eapply parsed_adds|]. by destruct Hs as [[]].
Qed.

(** ** Well-formed inventories *)
Definition declared (inventory : HostInventory) (m : InventoryMember) : Prop :=
  match m with Host h => h ∈ hosts inventory | Group name => name ∈ g_name <$> groups inventory end.

(** The group flattens to at most 1024 hosts: neither it nor a group below it
    contains itself. *)
Definition expandable (inventory : HostInventory) (name : str) : Prop :=
  ∃ l, flattens (group_lookup (groups inventory)) name l ∧ zlen (first_occurrences l) ≤ MAX_EXPANDED_GROUP_HOSTS.

Record wf_inventory (inventory : HostInventory) : Prop := {
  wf_hosts_sorted : StronglySorted str_le (hosts inventory);
  wf_hosts_NoDup : NoDup (hosts inventory);
  wf_hosts_count : zlen (hosts inventory) ≤ MAX_HOSTS;
  wf_hosts_valid : Forall valid_host (hosts inventory);
  wf_groups_sorted : StronglySorted str_le (g_name <$> groups inventory);
  wf_groups_NoDup : NoDup (g_name <$> groups inventory);
  wf_groups_count : zlen (groups inventory) ≤ MAX_GROUPS;
  wf_groups_valid : Forall (λ g, validate_group_name (g_name g) = Ok tt ∧ g_members g ≠ [] ∧ NoDup (g_members g) ∧
    Forall (declared inventory) (g_members g)) (groups inventory);
  wf_members_count : sum_z ((λ g, zlen (g_members g)) <$> groups inventory) ≤ MAX_GROUP_MEMBERS;
  wf_expandable : Forall (λ g, expandable inventory (g_name g)) (groups inventory);
}.

Lemma expandable_ok inventory name :
  (expand_group inventory name ≫= λ _, Ok tt) = Ok tt ↔ expandable inventory name.
Proof.
  rewrite bind_ok. setoid_rewrite expand_group_spec. unfold expandable. split.
  - intros (hs & (l & Hl & -> & H) & _). eauto.
  - intros (l & Hl & H). eauto 10.
Qed.

Lemma StronglySorted_keys {A} (l : list (str * A)) : StronglySorted entry_le l → StronglySorted str_le l.*1.
Proof.
  induction 1 as [|[k v] l _ IH Hall]; csimpl; constructor; [done|]. apply Forall_fmap. exact Hall.
Qed.

#[export] Instance entry_le_total {A} : Total (@entry_le A).
Proof. intros p q. apply (total str_le). Qed.
#[export] Instance entry_le_trans {A} : Transitive (@entry_le A).
Proof. intros p q r. apply (transitivity (R := str_le)). Qed.

Lemma sorted_btree_entries {A} (m : gmap str A) : StronglySorted entry_le (btree_entries m).
Proof. apply (StronglySorted_merge_sort entry_le). Qed.

Lemma check_member_ok hs gs m :
  check_member hs gs m = Ok tt ↔
  match m with Host h => h ∈ hs | Group name => is_Some (gs !! name) end.
Proof.
  destruct m as [h|name]; cbn [check_member]; rewrite bail_if_ok.
  - rewrite bool_decide_eq_false. split; [apply dec_stable|auto].
  - rewrite negb_false_iff. apply bool_decide_eq_true.
Qed.

Lemma parse_inventory_wf text src inventory :
  parse_inventory text src = Ok inventory →
  wf_inventory inventory ∧ source inventory = src ∧
  (∀ h, h ∈ hosts inventory ↔ declares_host (lines text) h) ∧
  (∀ name ms, mk_group name ms ∈ groups inventory ↔ declares_group (lines text) name ms).
Proof.
  unfold parse_inventory. intros (state & Hstate%parse_lines_sound & Hrest)%bind_ok.
  apply bind_ok in Hrest as ([] & Hrefs%for_each_ok & Hrest).
  apply bind_ok in Hrest as ([] & Hexp%for_each_ok & [= <-]). destruct Hstate as [[Hhc Hh Hgc Hg Ht Hmax] Hhosts Hgroups].
  assert (Hnames : g_name <$> ((λ entry, mk_group entry.1 entry.2) <$> btree_entries (p_groups state)) =
    (btree_entries (p_groups state)).*1) by by rewrite <- list_fmap_compose.
  assert (Hin : ∀ name ms, mk_group name ms ∈ (λ entry, mk_group entry.1 entry.2) <$> btree_entries (p_groups state) ↔
    p_groups state !! name = Some ms).
  { intros name ms. rewrite <- elem_of_btree_entries, list_elem_of_fmap. split.
    - by intros ([n k] & [= -> ->] & ?).
    - intros ?. by exists (name, ms). }
  split_and!; [|done| |]; cbn [hosts groups].
  - split; cbn [hosts groups].
    + apply sorted_btree_elements.
    + apply NoDup_btree_elements.
    + unfold btree_elements. by rewrite merge_sort_Permutation.
    + apply Forall_forall. intros h ?%elem_of_btree_elements. by apply Hh.
    + rewrite Hnames. apply StronglySorted_keys, sorted_btree_entries.
    + rewrite Hnames. apply NoDup_btree_keys.
    + rewrite length_fmap, btree_entries_perm, length_map_to_list. exact Hgc.
    + apply Forall_forall. intros [name ms] Hentry. apply Hin in Hentry as Hlk. cbn [g_name g_members].
      destruct (Hg name ms Hlk) as (? & ? & ?). split_and!; [done..|].
      rewrite Forall_btree_entries in Hrefs. specialize (Hrefs name ms Hlk). cbn in Hrefs.
      apply for_each_ok in Hrefs. apply (Forall_impl _ _ _ Hrefs). intros [h|n] Hm%check_member_ok; cbn [declared hosts groups].
      * by apply elem_of_btree_elements.
      * destruct Hm as [k Hk]. rewrite Hnames. apply list_elem_of_fmap. exists (n, k). split; [done|].
        by apply elem_of_btree_entries.
    + rewrite <- list_fmap_compose. rewrite btree_entries_perm. rewrite Ht in Hmax. exact Hmax.
    + apply (Forall_impl _ _ _ Hexp). intros g ?%expandable_ok. done.
  - intros h. rewrite elem_of_btree_elements. apply Hhosts.
  - intros name ms. rewrite Hin. apply Hgroups.
Qed.

(** ** Printing *)
Definition space : char := 32.
Definition words_line (ws : list str) : str :=
  match ws with [] => [] | w :: ws => w ++ concat ((λ v, space :: v) <$> ws) end.
Definition member_token (m : InventoryMember) : str :=
  match m with Host h => h | Group name => at_sign :: name end.
Definition host_words (h : str) : list str := [lit "host"; h].
Definition group_words (g : InventoryGroup) : list str := lit "group" :: g_name g :: (member_token <$> g_members g).

(** The text that declares an inventory, hosts first. *)
Definition print_inventory (inventory : HostInventory) : str :=
  unlines (words_line <$> (host_words <$> hosts inventory) ++ (group_words <$> groups inventory)).

(** A word that survives on a line. *)
Definition clean_word (w : str) : Prop :=
  w ≠ [] ∧ Forall (λ c, is_whitespace c = false) w ∧ hash ∉ w.

Lemma words_line_snoc ws w : ws ≠ [] → words_line (ws ++ [w]) = words_line ws ++ space :: w.
Proof.
  destruct ws as [|v ws]; [done|]. intros _. cbn [app words_line]. rewrite fmap_app, concat_app. cbn [fmap list_fmap concat].
  by rewrite app_nil_r, app_assoc.
Qed.

Lemma clean_no_ws_head w s : clean_word w → no_ws_head (w ++ s) = true.
Proof. intros (Hne & Hw & _). destruct w as [|c w]; [done|]. apply Forall_cons in Hw as [Hc _]. cbn. by rewrite Hc. Qed.

Lemma clean_no_ws_last w s : clean_word w → no_ws_head (reverse w ++ s) = true.
Proof.
  intros (Hne & Hw & Hh). apply clean_no_ws_head. split_and!.
  - intros Heq%(f_equal reverse). by rewrite reverse_involutive in Heq.
  - by apply Forall_reverse.
  - by rewrite elem_of_reverse.
Qed.

Lemma split_words_line ws : Forall clean_word ws → split_whitespace (words_line ws) = ws.
Proof.
  destruct ws as [|w ws]; [done|]. intros [Hw Hws]%Forall_cons. revert w Hw.
  induction Hws as [|v ws Hv _ IH]; intros w (Hne & Hws & _); unfold split_whitespace in *.
  - cbn [words_line fmap list_fmap concat]. rewrite app_nil_r. by apply pieces_last.
  - cbn [words_line fmap list_fmap concat]. cbn [app]. rewrite pieces_word by done. f_equal.
    change (v ++ concat ((λ v, space :: v) <$> ws)) with (words_line (v :: ws)). by apply IH.
Qed.

Lemma hash_words_line ws : Forall clean_word ws → hash ∉ words_line ws.
Proof.
  intros Hall. destruct ws as [|w ws]; [apply not_elem_of_nil|]. cbn [words_line].
  rewrite Forall_forall in Hall. intros [Hc|(l & Hl & Hc)%elem_of_concat]%elem_of_app.
  - by apply (Hall w); [left|].
  - apply list_elem_of_fmap in Hl as (v & -> & Hv). apply elem_of_cons in Hc as [?|Hc]; [done|].
    by apply (Hall v); [right|].
Qed.

Lemma words_of_line ws : ws ≠ [] → Forall clean_word ws → words_of (words_line ws) = ws.
Proof.
  intros Hne Hall. unfold words_of. rewrite (proj2 (split_once_none _ _)) by by apply hash_words_line.
  rewrite trim_id; [by apply split_words_line| |].
  - destruct ws as [|w ws]; [done|]. apply Forall_cons in Hall as [Hw _]. by apply clean_no_ws_head.
  - destruct ws as [|w ws _] using rev_ind; [done|]. apply Forall_app in Hall as [_ [Hw _]%Forall_cons].
    destruct ws as [|v ws].
    + cbn [words_line app fmap list_fmap concat]. rewrite app_nil_r. rewrite <- (app_nil_r (reverse w)).
      by apply clean_no_ws_last.
    + rewrite words_line_snoc by done. rewrite reverse_app, reverse_cons, <- app_assoc. by apply clean_no_ws_last.
Qed.

(** *** The words of a well-formed inventory are clean *)
Lemma target_parse_clean v :
  is_ok (target_parse v) = true →
  v ≠ [] ∧ Forall (λ c, is_whitespace c = false ∧ is_control c = false) v ∧ strip_prefix [at_sign] v = None.
Proof.
  destruct (target_parse v) as [t|e] eqn:Ht; [|done]. intros _. unfold target_parse in Ht.
  apply bind_ok in Ht as ([] & Hne%bail_if_ok & Ht). apply bind_ok in Ht as ([] & Hcl%bail_if_ok & Ht).
  to_prop. split_and!; [done| |].
  - apply Forall_forall. intros c Hc. apply orb_false_iff. apply not_true_iff_false. intros Hbad.
    apply not_true_iff_false in Hcl. apply Hcl, existsb_exists. exists c. by rewrite <- list_elem_of_In.
  - destruct (strip_prefix [at_sign] v) as [rest|] eqn:Hp; [|done]. apply strip_prefix_some in Hp. exfalso.
    destruct (rsplit_once at_sign v) as [[u h]|] eqn:Hr.
    + apply rsplit_once_some in Hr as [Heq Hh]. apply bind_ok in Ht as ([] & Hu%bail_if_ok & Ht).
      apply bind_ok in Ht as ([] & _ & Ht). apply bind_ok in Ht as ([] & Hat%bail_if_ok & _). to_prop.
      rewrite !contains_char_not in *. rewrite Hp in Heq. destruct u as [|c u]; [done|]. injection Heq as <- _. set_solver.
    + apply rsplit_once_none in Hr. rewrite Hp in Hr. set_solver.
Qed.

Lemma group_char_range c : is_group_char c = true → 45 ≤ c ≤ 122.
Proof.
  unfold is_group_char, is_ascii_alphanumeric, is_ascii_alphabetic, is_ascii_uppercase, is_ascii_lowercase, is_ascii_digit.
  change (ch ".") with 46. change (ch "_") with 95. change (ch "-") with 45. zbool; intros; try done; lia.
Qed.

Lemma group_char_clean c : 45 ≤ c ≤ 122 → is_whitespace c = false ∧ is_control c = false ∧ c ≠ hash.
Proof.
  intros H. unfold is_whitespace, is_control. zdecide. split_and!; [done..|]. change hash with 35. lia.
Qed.

Lemma group_bytes s : forallb is_group_char (utf8 s) = true → Forall (λ c, 45 ≤ c ≤ 122) s.
Proof.
  induction s as [|c s IH]; [constructor|]. cbn [utf8]. rewrite forallb_app, andb_true_iff. intros [Hc Hs].
  constructor; [|by apply IH]. unfold utf8_char in Hc. destruct (Z.ltb_spec c 128) as [Hlt|Hge].
  { cbn [forallb] in Hc. rewrite andb_true_r in Hc. by apply group_char_range. }
  assert (∀ q r, 0 ≤ q → forallb is_group_char ((192 + q) :: r) = true → False) as Hlead.
  { intros q r Hq H. cbn [forallb] in H. apply andb_true_iff in H as [H%group_char_range _]. lia. }
  exfalso. destruct (c <? 2048); [|destruct (c <? 65536)].
  - apply (Hlead (c / 64) [128 + c mod 64]); [pose proof (Z.div_pos c 64); lia|done].
  - apply (Hlead (32 + c / 4096) [128 + c / 64 mod 64; 128 + c mod 64]); [pose proof (Z.div_pos c 4096); lia|].
    by replace (192 + (32 + c / 4096)) with (224 + c / 4096) by lia.
  - apply (Hlead (48 + c / 262144) [128 + c / 4096 mod 64; 128 + c / 64 mod 64; 128 + c mod 64]);
      [pose proof (Z.div_pos c 262144); lia|].
    by replace (192 + (48 + c / 262144)) with (240 + c / 262144) by lia.
Qed.

Lemma group_name_clean name : validate_group_name name = Ok tt → name ≠ [] ∧ Forall (λ c, 45 ≤ c ≤ 122) name.
Proof.
  unfold validate_group_name. intros ([] & Hne%bail_if_ok & Hb%bail_if_ok)%bind_ok. to_prop.
  split; [done|]. by apply group_bytes.
Qed.

(** A word of a line: clean and without control characters. *)
Definition line_word (w : str) : Prop := clean_word w ∧ Forall (λ c, is_control c = false) w.

Lemma valid_host_word h : valid_host h → line_word h.
Proof.
  intros [(Hne & Hall & _)%target_parse_clean Hh]. split; [split_and!; [done| |done]|];
    apply (Forall_impl _ _ _ Hall); intros c [? ?]; done.
Qed.

Lemma group_name_word name : validate_group_name name = Ok tt → line_word name.
Proof.
  intros [Hne Hall]%group_name_clean. split; [split_and!; [done| |]|].
  - apply (Forall_impl _ _ _ Hall). intros c Hc. by apply group_char_clean.
  - intros Hin. rewrite Forall_forall in Hall. by apply (group_char_clean hash (Hall _ Hin)).
  - apply (Forall_impl _ _ _ Hall). intros c Hc. by apply group_char_clean.
Qed.

Lemma at_sign_word w : line_word w → line_word (at_sign :: w).
Proof.
  intros [(_ & Hw & Hh) Hc]. split; [split_and!; [done|by constructor|]|by constructor].
  by apply not_elem_of_cons.
Qed.

(** ** Reading a printed inventory *)
Lemma parse_member_token m :
  match m with Host h => valid_host h | Group name => validate_group_name name = Ok tt end →
  parse_member (member_token m) = Ok m.
Proof.
  unfold parse_member. destruct m as [h|name]; cbn [member_token].
  - intros [Hok _]. destruct (target_parse_clean h Hok) as (_ & _ & ->).
    by destruct (target_parse h).
  - intros Hv. assert (strip_prefix [at_sign] (at_sign :: name) = Some name) as -> by by apply strip_prefix_some.
    by rewrite Hv.
Qed.

Lemma member_word m :
  match m with Host h => valid_host h | Group name => validate_group_name name = Ok tt end → line_word (member_token m).
Proof. destruct m; [apply valid_host_word|]. intros. by apply at_sign_word, group_name_word. Qed.

Lemma keyword_word w : w ∈ [lit "host"; lit "group"] → line_word w.
Proof.
  assert (∀ w, forallb (λ c, negb (is_whitespace c) && negb (is_control c) && negb (c =? hash)) w = true → w ≠ [] → line_word w) as H.
  { intros v Hv Hne. rewrite forallb_forall in Hv. setoid_rewrite <- list_elem_of_In in Hv.
    split; [split_and!; [done| |]|].
    - apply Forall_forall. intros c Hc. specialize (Hv c Hc). by destruct (is_whitespace c).
    - intros Hc. specialize (Hv hash Hc). done.
    - apply Forall_forall. intros c Hc. specialize (Hv c Hc). destruct (is_control c); [|done]. by rewrite andb_false_r in Hv. }
  rewrite !elem_of_cons. intros [->|[->|?%not_elem_of_nil]]; [by apply H..|done].
Qed.

Lemma host_line_words h : valid_host h → Forall line_word (host_words h).
Proof.
  intros Hh. constructor; [by apply keyword_word; left|]. constructor; [by apply valid_host_word|constructor].
Qed.

(** The member is one the parser accepts. *)
Definition valid_member (m : InventoryMember) : Prop :=
  match m with Host h => valid_host h | Group name => validate_group_name name = Ok tt end.

Lemma group_line_words g :
  validate_group_name (g_name g) = Ok tt → Forall valid_member (g_members g) → Forall line_word (group_words g).
Proof.
  intros Hn Hms. constructor; [by apply keyword_word; right; left|]. constructor; [by apply group_name_word|].
  apply Forall_fmap. apply (Forall_impl _ _ _ Hms). intros m. apply member_word.
Qed.

Lemma words_of_words ws : ws ≠ [] → Forall line_word ws → words_of (words_line ws) = ws.
Proof.
  intros Hne Hall. apply words_of_line; [done|]. apply (Forall_impl _ _ _ Hall). by intros w [? _].
Qed.

Lemma control_free_line ws : Forall line_word ws → Forall (λ c, is_control c = false) (words_line ws).
Proof.
  intros Hall. destruct ws as [|w ws]; [constructor|]. cbn [words_line].
  apply Forall_cons in Hall as [[_ Hw] Hws]. apply Forall_app. split; [done|]. induction Hws as [|v ws [_ Hv] _ IH]; [constructor|].
  cbn [fmap list_fmap concat app]. constructor; [done|]. by apply Forall_app.
Qed.

Lemma printable_line ws : Forall line_word ws → LF ∉ words_line ws ∧ last (words_line ws) ≠ Some CR.
Proof.
  intros Hall%control_free_line. rewrite Forall_forall in Hall. split.
  - intros Hin. by specialize (Hall _ Hin).
  - intros Hin%last_Some_elem_of. by specialize (Hall _ Hin).
Qed.

Lemma parse_host_lines hs :
  NoDup hs → Forall valid_host hs → zlen hs ≤ MAX_HOSTS →
  try_fold parse_line (mk_parse ∅ ∅ 0) (words_line <$> (host_words <$> hs)) = Ok (mk_parse (list_to_set hs) ∅ 0).
Proof.
  induction hs as [|h hs IH] using rev_ind; intros Hnd Hall Hle; [done|].
  apply NoDup_app in Hnd as (Hnd & Hnew & _). apply Forall_app in Hall as [Hall [Hh _]%Forall_cons].
  rewrite length_app in Hle. cbn [length] in Hle. rewrite !fmap_app, try_fold_app, IH by (try done; lia).
  step_bind. cbn [fmap list_fmap try_fold]. assert (h ∉ hs) as Hn by (intros Hin; apply (Hnew h Hin); by left).
  assert (parse_line (mk_parse (list_to_set hs) ∅ 0) (words_line (host_words h)) =
    Ok (mk_parse ({[ h ]} ∪ list_to_set hs) ∅ 0)) as ->.
  { apply parse_line_ok; [done|]. rewrite words_of_words; [|done|by apply host_line_words].
    destruct Hh as [Hok _]. destruct (target_parse h) as [t|e] eqn:Ht; [|done].
    apply (adds_host (mk_parse (list_to_set hs) ∅ 0) h t Ht); cbn [p_hosts].
    - by rewrite elem_of_list_to_set.
    - rewrite size_list_to_set by done. lia. }
  step_bind. apply (f_equal Ok). f_equal. rewrite list_to_set_app_L. set_solver.
Qed.

(** The entry of a group in the map. *)
Definition group_entry (g : InventoryGroup) : str * list InventoryMember := (g_name g, g_members g).

Lemma group_entry_names gs : (group_entry <$> gs).*1 = g_name <$> gs.
Proof. by rewrite <- list_fmap_compose. Qed.

Lemma parse_group_lines H gs :
  NoDup (g_name <$> gs) → zlen gs ≤ MAX_GROUPS →
  Forall (λ g, validate_group_name (g_name g) = Ok tt ∧ g_members g ≠ [] ∧ NoDup (g_members g) ∧
    Forall valid_member (g_members g)) gs →
  sum_z ((λ g, zlen (g_members g)) <$> gs) ≤ MAX_GROUP_MEMBERS →
  try_fold parse_line (mk_parse H ∅ 0) (words_line <$> (group_words <$> gs)) =
  Ok (mk_parse H (list_to_map (group_entry <$> gs)) (sum_z ((λ g, zlen (g_members g)) <$> gs))).
Proof.
  induction gs as [|g gs IH] using rev_ind; intros Hnd Hle Hall Hsum; [done|].
  rewrite fmap_app in Hnd. apply NoDup_app in Hnd as (Hnd & Hnew & _).
  apply Forall_app in Hall as [Hall [(Hv & Hne & Hms & Hvm) _]%Forall_cons].
  rewrite length_app in Hle. cbn [length] in Hle.
  assert (sum_z ((λ g, zlen (g_members g)) <$> gs ++ [g]) =
    sum_z ((λ g, zlen (g_members g)) <$> gs) + zlen (g_members g)) as Hs.
  { rewrite fmap_app, sum_z_app. f_equal. unfold sum_z. cbn [fmap list_fmap foldr]. apply Z.add_0_r. }
  rewrite Hs in Hsum |- *.
  rewrite !fmap_app, try_fold_app, IH by (try done; lia). step_bind. cbn [fmap list_fmap try_fold].
  assert (g_name g ∉ g_name <$> gs) as Hn by (intros Hin; apply (Hnew _ Hin); by left).
  set (state := mk_parse H (list_to_map (group_entry <$> gs)) (sum_z ((λ g, zlen (g_members g)) <$> gs))).
  assert (parse_line state (words_line (group_words g)) =
    Ok (mk_parse H (<[ g_name g := g_members g ]> (p_groups state)) (p_total state + zlen (g_members g)))) as ->.
  { apply parse_line_ok; [unfold state; cbn [p_total]; lia|].
    rewrite words_of_words; [|done|by apply group_line_words].
    apply (adds_group state (g_name g) (member_token <$> g_members g) (g_members g)); try done.
    - apply not_elem_of_list_to_map_1. by rewrite group_entry_names.
    - unfold state. cbn [p_groups]. rewrite map_size_list_to_map by by rewrite group_entry_names.
      rewrite length_fmap. lia.
    - intros Hnil%fmap_nil_inv. done.
    - apply Forall2_fmap_l. apply Forall_Forall2_diag. apply (Forall_impl _ _ _ Hvm). intros m. apply parse_member_token. }
  step_bind. apply (f_equal Ok). unfold state. cbn [p_groups p_total]. f_equal.
  change [group_entry g] with [(g_name g, g_members g)].
  rewrite list_to_map_snoc; [done|]. by rewrite group_entry_names.
Qed.

Lemma btree_elements_of_list l :
  StronglySorted str_le l → NoDup l → btree_elements (list_to_set l) = l.
Proof.
  intros Hs Hnd. apply (StronglySorted_unique_strong str_le).
  - intros s t _ _ Hst Hts. apply str_leb_antisym; by apply Is_true_eq_true.
  - apply sorted_btree_elements.
  - done.
  - unfold btree_elements. rewrite merge_sort_Permutation. by apply elements_list_to_set.
Qed.

Lemma btree_entries_of_list {A} (l : list (str * A)) :
  StronglySorted str_le l.*1 → NoDup l.*1 → btree_entries (list_to_map l) = l.
Proof.
  intros Hs Hnd. apply (StronglySorted_unique_strong entry_le).
  - intros [k v] [k' v'] Hin Hin' Hst Hts. apply elem_of_btree_entries in Hin. apply elem_of_list_to_map in Hin'; [|done].
    assert (k = k') as -> by (apply str_leb_antisym; by apply Is_true_eq_true). congruence.
  - apply sorted_btree_entries.
  - clear Hnd. induction l as [|[k v] l IH]; [constructor|]. csimpl in Hs. apply StronglySorted_inv in Hs as [Hs Hall].
    constructor; [by apply IH|]. rewrite Forall_fmap in Hall. exact Hall.
  - rewrite btree_entries_perm. by apply map_to_list_to_map.
Qed.

Lemma regroup (gs : list InventoryGroup) : (λ entry : str * list InventoryMember, mk_group entry.1 entry.2) <$> (group_entry <$> gs) = gs.
Proof. rewrite <- list_fmap_compose. rewrite <- (list_fmap_id gs) at 2. apply list_fmap_ext. by intros i [n ms] _. Qed.

Lemma wf_valid_members inventory :
  wf_inventory inventory →
  Forall (λ g, validate_group_name (g_name g) = Ok tt ∧ g_members g ≠ [] ∧ NoDup (g_members g) ∧
    Forall valid_member (g_members g)) (groups inventory).
Proof.
  intros Hwf. pose proof (wf_groups_valid _ Hwf) as Hall. apply Forall_forall. intros g Hg.
  rewrite Forall_forall in Hall. destruct (Hall g Hg) as (? & ? & ? & Hms). split_and!; [done..|].
  apply (Forall_impl _ _ _ Hms). intros [h|name] Hd; cbn in *.
  - pose proof (wf_hosts_valid _ Hwf) as Hh. rewrite Forall_forall in Hh. by apply Hh.
  - apply list_elem_of_fmap in Hd as (g' & -> & Hg'). by apply (Hall g').
Qed.

Lemma print_lines inventory :
  wf_inventory inventory →
  lines (print_inventory inventory) = words_line <$> (host_words <$> hosts inventory) ++ (group_words <$> groups inventory).
Proof.
  intros Hwf. apply lines_unlines. apply Forall_fmap, Forall_app. split; apply Forall_fmap.
  - apply (Forall_impl _ _ _ (wf_hosts_valid _ Hwf)). intros h Hh. by apply printable_line, host_line_words.
  - apply (Forall_impl _ _ _ (wf_valid_members _ Hwf)). intros g (? & _ & _ & ?). by apply printable_line, group_line_words.
Qed.

Lemma print_parse inventory :
  wf_inventory inventory → parse_inventory (print_inventory inventory) (source inventory) = Ok inventory.
Proof.
  intros Hwf. unfold parse_inventory. rewrite print_lines by done. rewrite fmap_app, try_fold_app.
  pose proof (wf_valid_members _ Hwf) as Hvm. destruct inventory as [src hs gs]. destruct Hwf as
    [Hhs Hhn Hhc Hhv Hgs Hgn Hgc Hgv Hsum Hexp]. cbn [hosts groups source] in *.
  rewrite parse_host_lines by done. step_bind. rewrite parse_group_lines by done. step_bind. cbn [p_hosts p_groups].
  rewrite btree_elements_of_list by done.
  rewrite btree_entries_of_list by by rewrite group_entry_names.
  assert (for_each (λ entry, for_each (check_member (list_to_set hs) (list_to_map (group_entry <$> gs))) entry.2)
    (group_entry <$> gs) = Ok tt) as ->.
  { apply for_each_ok, Forall_fmap. apply (Forall_impl _ _ _ Hgv). intros g (_ & _ & _ & Hms). cbn.
    apply for_each_ok. apply (Forall_impl _ _ _ Hms). intros [h|name] Hd; apply check_member_ok; cbn in *.
    - by apply elem_of_list_to_set.
    - apply elem_of_dom. rewrite dom_list_to_map_L. by rewrite group_entry_names, elem_of_list_to_set. }
  step_bind. rewrite regroup. cbn [groups]. rewrite (proj2 (for_each_ok _ _)); [done|].
  apply (Forall_impl _ _ _ Hexp). intros g ?. by apply expandable_ok.
Qed.

(** An accepted inventory is well formed.  When [parse_inventory] succeeds, the
    hosts and the groups are exactly those that the lines of the text declare
    (comments and blank lines aside), in order and without duplicates, within the
    limits on hosts, groups and members; every host is a valid target, every group
    has a valid name and distinct members that are declared, and every group
    expands, so no group contains itself. *)
Theorem inventory_accepted text src inventory :
  parse_inventory text src = Ok inventory →
  wf_inventory inventory ∧ source inventory = src ∧
  (∀ h, h ∈ hosts inventory ↔ declares_host (lines text) h) ∧
  (∀ name ms, mk_group name ms ∈ groups inventory ↔ declares_group (lines text) name ms) ∧
  (∀ g, g ∈ groups inventory → ∃ hs, expand_group inventory (g_name g) = Ok hs ∧ Forall valid_host hs).
Proof.
  intros H. destruct (parse_inventory_wf _ _ _ H) as (Hwf & ? & ? & ?). split_and!; [done..|]. intros g Hg.
  pose proof (wf_expandable _ Hwf) as Hexp. rewrite Forall_forall in Hexp. destruct (Hexp g Hg) as (l & Hl & Hle).
  exists (first_occurrences l). split; [by apply expand_group_spec; exists l|].
  apply Forall_forall. intros h Hh. unfold first_occurrences in Hh. rewrite elem_of_add_all in Hh.
  destruct Hh as [Hh%not_elem_of_nil|Hh]; [done|]. clear Hg Hle. revert h Hh.
  induction Hl as [name g' l Hg _ IH| |h ms l _ IH|name ms l k _ IHn _ IHm] using flattens_mut
    with (P0 := λ ms l _, Forall valid_member ms → ∀ h, h ∈ l → valid_host h).
  - apply IH. apply group_lookup_NoDup in Hg as [Hg _]; [|by apply wf_groups_NoDup].
    pose proof (wf_valid_members _ Hwf) as Hall. rewrite Forall_forall in Hall. by apply (Hall g').
  - intros _ h ?%not_elem_of_nil. done.
  - intros [? ?]%Forall_cons h' [->|?]%elem_of_cons; [done|]. by apply IH.
  - intros [? ?]%Forall_cons h' [?|?]%elem_of_app; [by apply IHn|]. by apply IHm.
Qed.

(** A printed inventory is read back.  Every well-formed inventory, written as
    one line per host and per group, is parsed to itself, so the parser accepts
    everything its rules allow. *)
Theorem inventory_roundtrip inventory :
  wf_inventory inventory → parse_inventory (print_inventory inventory) (source inventory) = Ok inventory.
Proof. apply print_parse. Qed.

Module Examples.
Definition text : str :=
  unlines [lit "host web-01"; lit "host web-02 # spare"; lit "host deploy@db-01"; [];
    lit "group web web-01 web-02"; lit "group production @web deploy@db-01 web-01"].

Definition inventory : HostInventory :=
  mk_inventory None [lit "deploy@db-01"; lit "web-01"; lit "web-02"]
    [mk_group (lit "production") [Group (lit "web"); Host (lit "deploy@db-01"); Host (lit "web-01")];
     mk_group (lit "web") [Host (lit "web-01"); Host (lit "web-02")]].

Lemma text_parses : parse_inventory text None = Ok inventory.
Proof. by vm_compute. Qed.

Example production :
  expand_group inventory (lit "production") = Ok [lit "web-01"; lit "web-02"; lit "deploy@db-01"].
Proof. by vm_compute. Qed.

Example cycle :
  parse_inventory (unlines [lit "host web"; lit "group a @b"; lit "group b @c"; lit "group c @a web"]) None =
  Err "inventory group cycle detected".
Proof. by vm_compute. Qed.

Lemma inventory_accepted_witness :
  wf_inventory inventory ∧ Forall (λ g, ∃ hs, expand_group inventory (g_name g) = Ok hs) (groups inventory).
Proof.
  destruct (inventory_accepted text None inventory text_parses) as (Hwf & _ & _ & _ & H). split; [exact Hwf|].
  apply Forall_forall. intros g Hg. destruct (H g Hg) as (hs & ? & _). by exists hs.
Defined.

Lemma inventory_roundtrip_witness :
  parse_inventory (print_inventory inventory) None = Ok inventory ∧
  print_inventory inventory ≠ text.
Proof.
  split; [|by vm_compute]. apply (inventory_roundtrip inventory).
  apply (parse_inventory_wf text None inventory text_parses).
Defined.

(** The recursion has no memory of the groups it finished: the calls below group
    [name], itself included. *)
Fixpoint calls (fuel : nat) (gs : gmap str InventoryGroup) (name : str) : Z :=
  match fuel with
  | O => 0
  | S fuel =>
      match gs !! name with
      | None => 1
      | Some g => 1 + sum_z ((λ m, match m with Host _ => 0 | Group n => calls fuel gs n end) <$> g_members g)
      end
  end.

(** Each group has the two groups before it as its members. *)
Definition chain (n : nat) : str :=
  unlines (lit "host h" :: lit "group g0 h" :: lit "group g1 @g0" ::
    ((λ i, let i := Z.of_nat i in
      lit "group g" ++ dec_of (i + 2) ++ lit " @g" ++ dec_of (i + 1) ++ lit " @g" ++ dec_of i) <$> seq 0 n)).

(** Twenty-two lines, one host, and almost thirty thousand calls for one group. *)
Example chain_calls :
  match parse_inventory (chain 19) None with
  | Ok inventory => calls 30 (group_lookup (groups inventory)) (lit "g20") = 28656
  | Err _ => False
  end.
Proof. by vm_compute. Qed.
End Examples.
