(* ===== verification/ShellWords.v ===== *)
(** * How a POSIX shell reads a command line

    A reference for the commands the program composes as text: the words, quotes
    and [&&] lists of the shell command language, without expansions.  A line that
    uses anything else (an expansion, a pattern, a redirection, a reserved word)
    has no reading here, so a line that has one is run literally by every shell. *)

From stdpp Require Import base list gmap strings numbers sorting.
From Stdlib Require Import Lia.
From S2P Require Import Prelude RustStr StrFacts.

Definition single_quote : char := 39.
Definition ampersand : char := 38.
Definition blank (c : char) : bool := (c =? 32) || (c =? TAB).

(** The characters that stand for something else unless quoted (POSIX XCU 2.2). *)
Definition shell_special (c : char) : bool :=
  existsb (Z.eqb c) (lit "|&;<>()$`\'*?[#~{}!" ++ [dquote; LF; 0]) || blank c.

(** A word is its characters, each with whether it was quoted. *)
Abbreviation word := (list (bool * char)).
Inductive sh_token := Word (w : word) | AndIf.

Inductive quoting := Unquoted | Single | Double.

Definition flush_word (cur : option word) : list sh_token := match cur with Some w => [Word w] | None => [] end.
Definition push_word_char (cur : option word) (quoted : bool) (c : char) : option word :=
  Some (default [] cur ++ [(quoted, c)]).

Fixpoint sh_lex (q : quoting) (cur : option word) (s : str) : option (list sh_token) :=
  match s with
  | [] => match q with Unquoted => Some (flush_word cur) | _ => None end
  | c :: s =>
      match q with
      | Single => if c =? single_quote then sh_lex Unquoted cur s else sh_lex Single (push_word_char cur true c) s
      | Double =>
          if c =? dquote then sh_lex Unquoted cur s
          else if existsb (Z.eqb c) (lit "$`\") then None
          else sh_lex Double (push_word_char cur true c) s
      | Unquoted =>
          if c =? single_quote then sh_lex Single (Some (default [] cur)) s
          else if c =? dquote then sh_lex Double (Some (default [] cur)) s
          else if blank c then app (flush_word cur) <$> sh_lex Unquoted None s
          else if c =? ampersand then
            match s with
            | d :: s => if d =? ampersand then app (flush_word cur ++ [AndIf]) <$> sh_lex Unquoted None s else None
            | [] => None
            end
          else if shell_special c then None
          else sh_lex Unquoted (push_word_char cur false c) s
      end
  end.

(** *** Simple commands *)
Record SimpleCommand := mk_command { sc_assigns : list (str * str); sc_argv : list str }.

Definition text_of_word (w : word) : str := w.*2.

Definition name_start (c : char) : bool := is_ascii_alphabetic c || (c =? 95).
Definition name_char (c : char) : bool := is_ascii_alphanumeric c || (c =? 95).
Definition is_name (s : str) : bool :=
  match s with c :: _ => name_start c && forallb name_char s | [] => false end.

(** A word that assigns: an unquoted name and an unquoted equals sign. *)
Fixpoint split_equals (name : str) (w : word) : option (str * word) :=
  match w with
  | (false, c) :: w => if c =? 61 then Some (name, w) else split_equals (name ++ [c]) w
  | _ => None
  end.
Definition assignment (w : word) : option (str * str) :=
  match split_equals [] w with
  | Some (name, value) => if is_name name then Some (name, text_of_word value) else None
  | None => None
  end.

Definition reserved_words : list str := lit <$>
  ["case"; "do"; "done"; "elif"; "else"; "esac"; "fi"; "for"; "if"; "in"; "then"; "until"; "while"]%string.

(** A reserved word is one only when no character of it is quoted. *)
Definition reserved (w : word) : bool :=
  forallb (λ c, negb c.1) w && existsb (λ r, bool_decide (text_of_word w = r)) reserved_words.

Fixpoint read_command (assigns : list (str * str)) (ws : list word) : option SimpleCommand :=
  match ws with
  | [] => Some (mk_command assigns [])
  | w :: ws =>
      match assignment w with
      | Some a => read_command (assigns ++ [a]) ws
      | None =>
          if bool_decide (assigns = []) && reserved w then None
          else Some (mk_command assigns (text_of_word <$> w :: ws))
      end
  end.

(** The commands between the [&&]. *)
Fixpoint read_list (cur : list word) (ts : list sh_token) : option (list SimpleCommand) :=
  match ts with
  | [] => c ← read_command [] cur; Some [c]
  | Word w :: ts => read_list (cur ++ [w]) ts
  | AndIf :: ts => c ← read_command [] cur; cons c <$> read_list [] ts
  end.

Definition sh_read (s : str) : option (list SimpleCommand) := sh_lex Unquoted None s ≫= read_list [].

(** ** Lemmas *)
Definition quoted (s : str) : word := (λ c, (true, c)) <$> s.
Definition unquoted (s : str) : word := (λ c, (false, c)) <$> s.

Lemma text_quoted s : text_of_word (quoted s) = s.
Proof. unfold text_of_word, quoted. rewrite <- list_fmap_compose. apply list_fmap_id. Qed.

Lemma text_unquoted s : text_of_word (unquoted s) = s.
Proof. unfold text_of_word, unquoted. rewrite <- list_fmap_compose. apply list_fmap_id. Qed.

Lemma text_app w v : text_of_word (w ++ v) = text_of_word w ++ text_of_word v.
Proof. apply fmap_app. Qed.

(** Characters that need no quotes stand for themselves. *)
Lemma sh_lex_inert cur p rest :
  p ≠ [] → Forall (λ c, shell_special c = false) p →
  sh_lex Unquoted cur (p ++ rest) = sh_lex Unquoted (Some (default [] cur ++ unquoted p)) rest.
Proof.
  intros Hne Hp. revert cur Hne. induction Hp as [|c p Hc Hp IH]; intros cur Hne; [done|].
  assert (Hstep : sh_lex Unquoted cur ((c :: p) ++ rest) = sh_lex Unquoted (push_word_char cur false c) (p ++ rest)).
  { cbn [app sh_lex]. rewrite Hc. unfold shell_special in Hc. apply orb_false_iff in Hc as [Hc ->].
    assert (∀ d, existsb (Z.eqb d) (lit "|&;<>()$`\'*?[#~{}!" ++ [dquote; LF; 0]) = true → (c =? d) = false) as Hd.
    { intros d Hd. apply Z.eqb_neq. intros ->. congruence. }
    by rewrite !Hd. }
  rewrite Hstep. destruct p as [|d p]; [by unfold push_word_char|].
  rewrite IH by done. unfold push_word_char, unquoted. cbn [from_option fmap list_fmap]. unfold id. by rewrite <- app_assoc.
Qed.

(** Inside single quotes everything stands for itself. *)
Lemma sh_lex_single w p rest :
  single_quote ∉ p → sh_lex Single (Some w) (p ++ single_quote :: rest) = sh_lex Unquoted (Some (w ++ quoted p)) rest.
Proof.
  revert w. induction p as [|c p IH]; intros w Hp; cbn [app sh_lex].
  { rewrite Z.eqb_refl. by rewrite app_nil_r. }
  apply not_elem_of_cons in Hp as [Hc Hp]. destruct (Z.eqb_spec c single_quote); [by subst|].
  unfold push_word_char. rewrite IH by done. unfold quoted. cbn [from_option fmap list_fmap]. unfold id. by rewrite <- app_assoc.
Qed.

(** A word that is followed by a space, by [&&], or by nothing. *)
Lemma sh_lex_space w rest : sh_lex Unquoted (Some w) (32 :: rest) = cons (Word w) <$> sh_lex Unquoted None rest.
Proof. done. Qed.

Lemma sh_lex_and rest :
  sh_lex Unquoted None (ampersand :: ampersand :: 32 :: rest) = cons AndIf <$> sh_lex Unquoted None rest.
Proof. cbn [sh_lex Z.eqb]. cbn. by destruct (sh_lex Unquoted None rest). Qed.

Lemma read_list_words cur ws : read_list cur (Word <$> ws) = (c ← read_command [] (cur ++ ws); Some [c]).
Proof.
  revert cur. induction ws as [|w ws IH]; intros cur; csimpl; [by rewrite app_nil_r|].
  by rewrite IH, <- app_assoc.
Qed.

Lemma read_list_and cur ws ts :
  read_list cur ((Word <$> ws) ++ AndIf :: ts) = (c ← read_command [] (cur ++ ws); cons c <$> read_list [] ts).
Proof.
  revert cur. induction ws as [|w ws IH]; intros cur; csimpl; [by rewrite app_nil_r|].
  by rewrite IH, <- app_assoc.
Qed.
