(* ===== verification/RemoteCommand.v ===== *)
(** * Remote commands as text
      ([crates/kaduox-ssh-core/src/command.rs], and the quoting of [client.rs])

    A structured command, its rendering for a POSIX shell and for [cmd.exe], and
    the wrapping for another user.  [ShellWords] is the reference they are checked
    against. *)

From stdpp Require Import base list gmap strings numbers sorting.
From Stdlib Require Import Lia.
From S2P Require Import Prelude RustStr StrFacts ShellWords.

(** ** Definitions *)
Definition safe_punctuation : str := lit "_+-./:@%,=".

Definition quote_posix (value : str) : str :=
  if bool_decide (value = []) then lit "''"
  else if forallb (λ byte, is_ascii_alphanumeric byte || existsb (Z.eqb byte) safe_punctuation) (utf8 value) then value
  else [single_quote] ++
       concat ((λ c, if c =? single_quote then [single_quote; dquote; single_quote; dquote; single_quote] else [c]) <$> value)
       ++ [single_quote].

Inductive RemoteUser := Current | Sudo (user : str).
Inductive RemotePlatform := Unix | Windows.
#[export] Instance remote_platform_eq_dec : EqDecision RemotePlatform.
Proof. solve_decision. Defined.

Definition command_for_user (command : str) (remote_user : RemoteUser) (platform : RemotePlatform) : result str :=
  match remote_user with
  | Current => Ok command
  | Sudo user =>
      bail_if (bool_decide (platform = Windows)) "Windows targets do not support sudo privilege switching" ≫= λ _,
      Ok (lit "sudo -n -u " ++ quote_posix user ++ lit " -- sh -lc " ++ quote_posix command)
  end.

Definition sudo_login_shell (user : str) : str := lit "sudo -iu " ++ quote_posix user.

Record RemoteCommandSpec := mk_spec {
  program : str;
  arguments : list str;
  environment : list (str * str);
  working_directory : option str;
}.

Definition spec_new (program : str) : RemoteCommandSpec := mk_spec program [] [] None.

Definition valid_environment_name (name : str) : bool :=
  match utf8 name with
  | [] => false
  | first :: bytes =>
      if negb (is_ascii_alphabetic first || (first =? 95)) then false
      else forallb (λ byte, is_ascii_alphanumeric byte || (byte =? 95)) bytes
  end.

Definition reject_nul (value : str) : result unit := bail_if (contains_char value 0) "cannot contain NUL bytes".

Fixpoint validate_environment (names : gset str) (environment : list (str * str)) : result unit :=
  match environment with
  | [] => Ok tt
  | (name, value) :: environment =>
      bail_if (negb (valid_environment_name name)) "invalid remote environment variable name" ≫= λ _,
      bail_if (bool_decide (name ∈ names)) "duplicate remote environment variable" ≫= λ _,
      reject_nul value ≫= λ _,
      validate_environment ({[ name ]} ∪ names) environment
  end.

Definition validated (spec : RemoteCommandSpec) : result unit :=
  bail_if (bool_decide (program spec = [])) "remote command program cannot be empty" ≫= λ _,
  reject_nul (program spec) ≫= λ _,
  for_each reject_nul (arguments spec) ≫= λ _,
  match working_directory spec with
  | None => Ok tt
  | Some directory =>
      bail_if (bool_decide (directory = [])) "remote working directory cannot be empty" ≫= λ _,
      reject_nul directory
  end ≫= λ _,
  validate_environment ∅ (environment spec).

Definition safe_cd_operand (directory : str) : str :=
  if starts_with directory [ch "-"] then lit "./" ++ directory else directory.

(** The two loops. *)
Definition render_environment (environment : list (str * str)) : str :=
  concat ((λ entry : str * str, entry.1 ++ 61 :: quote_posix entry.2 ++ [32]) <$> environment).
Definition render_arguments (arguments : list str) : str := concat ((λ argument, 32 :: quote_posix argument) <$> arguments).

Definition render_posix (spec : RemoteCommandSpec) : result str :=
  validated spec ≫= λ _,
  Ok (match working_directory spec with
      | Some directory => lit "cd " ++ quote_posix (safe_cd_operand directory) ++ lit " && "
      | None => []
      end
      ++ render_environment (environment spec) ++ quote_posix (program spec) ++ render_arguments (arguments spec)).

Definition quote_cmd (token : str) : str :=
  if negb (bool_decide (token = []))
     && negb (existsb (λ c, is_whitespace c || existsb (Z.eqb c) (dquote :: lit "&|<>^")) token)
  then token
  else [dquote] ++ concat ((λ c, if c =? dquote then [dquote; dquote] else [c]) <$> token) ++ [dquote].

Definition render_cmd (spec : RemoteCommandSpec) : result str :=
  validated spec ≫= λ _,
  Ok (match working_directory spec with
      | Some directory => lit "cd /d " ++ quote_cmd directory ++ lit " && "
      | None => []
      end
      ++ concat ((λ entry, lit "set " ++ entry.1 ++ [ch "="] ++ quote_cmd entry.2 ++ lit " && ") <$> environment spec)
      ++ quote_cmd (if eq_ignore_ascii_case (program spec) (lit "cmd") then lit "cmd.exe" else program spec)
      ++ concat ((λ argument, 32 :: quote_cmd argument) <$> arguments spec)).

(** [exec_spec]: the text that is sent for a command run as a user. *)
Definition exec_spec_text (spec : RemoteCommandSpec) (remote_user : RemoteUser) (platform : RemotePlatform) : result str :=
  render_posix spec ≫= λ command, command_for_user command remote_user platform.

(** ** Quoting *)

(** The word a quoted value is read as. *)
Definition needs_no_quotes (value : str) : bool :=
  negb (bool_decide (value = [])) &&
  forallb (λ byte, is_ascii_alphanumeric byte || existsb (Z.eqb byte) safe_punctuation) (utf8 value).
Definition word_of (value : str) : word := if needs_no_quotes value then unquoted value else quoted value.

Lemma text_word_of value : text_of_word (word_of value) = value.
Proof. unfold word_of. destruct (needs_no_quotes value); [apply text_unquoted|apply text_quoted]. Qed.

Lemma safe_byte_inert b :
  is_ascii_alphanumeric b || existsb (Z.eqb b) safe_punctuation = true → shell_special b = false ∧ 0 ≤ b < 128.
Proof.
  intros H.
  assert (Hr : 43 ≤ b ≤ 58 ∨ b = 37 ∨ b = 61 ∨ b = 95 ∨ 64 ≤ b ≤ 90 ∨ 97 ≤ b ≤ 122).
  { apply orb_true_iff in H as [H|(c & Hc & Heq%Z.eqb_eq)%existsb_exists].
    - unfold is_ascii_alphanumeric, is_ascii_alphabetic, is_ascii_uppercase, is_ascii_lowercase, is_ascii_digit in H.
      rewrite !orb_true_iff, !andb_true_iff, !Z.leb_le in H. lia.
    - subst c. vm_compute in Hc. lia. }
  split; [|lia]. unfold shell_special, blank.
  assert (existsb (Z.eqb b) (lit "|&;<>()$`\'*?[#~{}!" ++ [dquote; LF; 0]) = false) as ->.
  { apply not_true_iff_false. intros (c & Hc & Heq%Z.eqb_eq)%existsb_exists. subst c. vm_compute in Hc. lia. }
  change TAB with 9. zdecide. done.
Qed.

Lemma safe_value_inert value : needs_no_quotes value = true → value ≠ [] ∧ Forall (λ c, shell_special c = false) value.
Proof.
  unfold needs_no_quotes. rewrite andb_true_iff, negb_true_iff, bool_decide_eq_false. intros [Hne Hall]. split; [done|].
  apply safe_utf8 in Hall; [|intros b Hb; by apply safe_byte_inert].
  apply (Forall_impl _ _ _ Hall). intros c [Hc _]. by apply safe_byte_inert.
Qed.

Lemma sh_lex_requoted w value rest :
  sh_lex Single (Some w) (concat ((λ c, if c =? single_quote then [single_quote; dquote; single_quote; dquote; single_quote] else [c])
    <$> value) ++ single_quote :: rest) = sh_lex Unquoted (Some (w ++ quoted value)) rest.
Proof.
  revert w. induction value as [|c value IH]; intros w.
  { cbn [fmap list_fmap concat app sh_lex]. rewrite Z.eqb_refl. unfold quoted. cbn. by rewrite app_nil_r. }
  cbn [fmap list_fmap concat]. rewrite <- app_assoc.
  assert (Hnext : (w ++ [(true, c)]) ++ quoted value = w ++ quoted (c :: value)) by by rewrite <- app_assoc.
  rewrite <- Hnext, <- IH. destruct (Z.eqb_spec c single_quote) as [->|Hc].
  - cbn [app sh_lex]. cbn. done.
  - cbn [app sh_lex]. apply Z.eqb_neq in Hc. by rewrite Hc.
Qed.

(** The shell reads a quoted value as one word with that text. *)
Lemma sh_lex_quote cur value rest :
  sh_lex Unquoted cur (quote_posix value ++ rest) = sh_lex Unquoted (Some (default [] cur ++ word_of value)) rest.
Proof.
  unfold quote_posix, word_of. case_bool_decide as Hne.
  { subst. cbn. by rewrite app_nil_r. }
  match goal with |- context [forallb ?p (utf8 value)] => destruct (forallb p (utf8 value)) eqn:Hsafe end.
  - assert (needs_no_quotes value = true) as Hn by (unfold needs_no_quotes; by rewrite bool_decide_eq_false_2, Hsafe).
    rewrite Hn. apply safe_value_inert in Hn as [_ Hall]. by apply sh_lex_inert.
  - assert (needs_no_quotes value = false) as -> by (unfold needs_no_quotes; by rewrite Hsafe, andb_false_r).
    rewrite <- !app_assoc. cbn [app]. cbn [sh_lex]. rewrite Z.eqb_refl. apply sh_lex_requoted.
Qed.

(** ** Whole commands *)
Lemma sh_lex_values w args :
  sh_lex Unquoted (Some w) (render_arguments args) = Some (Word <$> w :: (word_of <$> args)).
Proof.
  unfold render_arguments. revert w. induction args as [|a args IH]; intros w; [done|]. cbn [fmap list_fmap concat]. cbn [app].
  rewrite sh_lex_space. rewrite sh_lex_quote. cbn [from_option app]. by rewrite IH.
Qed.

(** *** Environment entries *)
Lemma environment_name_ok name :
  valid_environment_name name = true →
  name ≠ [] ∧ is_name name = true ∧ Forall (λ c, shell_special c = false ∧ c ≠ 61) name.
Proof.
  unfold valid_environment_name. intros H.
  assert (Hhead : forallb (λ byte, is_ascii_alphanumeric byte || (byte =? 95)) (utf8 name) = true).
  { destruct (utf8 name) as [|b bs]; [done|]. cbn [forallb]. destruct (is_ascii_alphabetic b || (b =? 95)) eqn:Hb; [|done].
    cbn [negb] in H. rewrite H, andb_true_r. apply orb_true_iff. apply orb_true_iff in Hb as [Hb|Hb]; [left|by right].
    unfold is_ascii_alphanumeric. by rewrite Hb. }
  assert (Hbyte : ∀ b, is_ascii_alphanumeric b || (b =? 95) = true → shell_special b = false ∧ 0 ≤ b < 128 ∧ b ≠ 61).
  { intros b Hb. assert (is_ascii_alphanumeric b || existsb (Z.eqb b) safe_punctuation = true) as [? ?]%safe_byte_inert.
    - apply orb_true_iff in Hb as [->|Hb%Z.eqb_eq]; [done|by subst b].
    - split_and!; try done; try lia. intros ->. done. }
  destruct name as [|c name]; [done|]. split; [done|].
  pose proof (safe_utf8 _ (c :: name) (λ b Hb, proj1 (proj2 (Hbyte b Hb))) Hhead) as Hall. split.
  - cbn [is_name]. apply Forall_cons in Hall as Hall'. destruct Hall' as [[Hc Hc128] _].
    apply andb_true_iff. split.
    + cbn [utf8] in H. unfold utf8_char in H. destruct (Z.ltb_spec c 128); [|lia]. cbn [app] in H.
      unfold name_start. by destruct (is_ascii_alphabetic c || (c =? 95)).
    + apply forallb_forall. intros d Hd%list_elem_of_In. rewrite Forall_forall in Hall. by apply Hall.
  - apply (Forall_impl _ _ _ Hall). intros d [Hd _]. by destruct (Hbyte d Hd) as (? & _ & ?).
Qed.

Definition entry_word (entry : str * str) : word := unquoted (entry.1 ++ [61]) ++ word_of entry.2.

Lemma sh_lex_environment env rest :
  Forall (λ e, valid_environment_name e.1 = true) env →
  sh_lex Unquoted None (render_environment env ++ rest) =
  app (Word <$> (entry_word <$> env)) <$> sh_lex Unquoted None rest.
Proof.
  unfold render_environment. induction 1 as [|[name value] env Hname _ IH]; cbn [fmap list_fmap concat].
  { cbn [app]. by destruct (sh_lex Unquoted None rest). }
  cbn [fst snd] in *. apply environment_name_ok in Hname as (Hne & _ & Hall).
  rewrite <- app_assoc. change (61 :: quote_posix value ++ [32]) with ([61] ++ quote_posix value ++ [32]).
  rewrite (app_assoc name). rewrite <- app_assoc.
  rewrite sh_lex_inert; [|by destruct name|].
  2:{ apply Forall_app. split; [|by repeat constructor]. apply (Forall_impl _ _ _ Hall). by intros c [? _]. }
  cbn [from_option app]. rewrite <- app_assoc, sh_lex_quote. cbn [from_option app]. rewrite sh_lex_space, IH.
  by destruct (sh_lex Unquoted None rest).
Qed.

Lemma split_equals_name acc name w :
  Forall (λ c, c ≠ 61) name → split_equals acc (unquoted (name ++ [61]) ++ w) = Some (acc ++ name, w).
Proof.
  intros H. revert acc. induction H as [|c name Hc _ IH]; intros acc.
  { unfold unquoted. cbn. by rewrite app_nil_r. }
  unfold unquoted in *. cbn [app fmap list_fmap split_equals]. apply Z.eqb_neq in Hc. rewrite Hc.
  rewrite IH. by rewrite <- app_assoc.
Qed.

Lemma assignment_entry entry : valid_environment_name entry.1 = true → assignment (entry_word entry) = Some entry.
Proof.
  intros (_ & Hname & Hall)%environment_name_ok. unfold assignment, entry_word. rewrite split_equals_name.
  - cbn [app]. rewrite Hname, text_word_of. by destruct entry.
  - apply (Forall_impl _ _ _ Hall). by intros c [_ ?].
Qed.

Lemma read_command_entries acc env ws :
  Forall (λ e, valid_environment_name e.1 = true) env →
  read_command acc ((entry_word <$> env) ++ ws) = read_command (acc ++ env) ws.
Proof.
  intros H. revert acc. induction H as [|e env He _ IH]; intros acc; csimpl; [by rewrite app_nil_r|].
  rewrite assignment_entry by done. by rewrite IH, <- app_assoc.
Qed.

(** *** The program word *)

(** A program that the shell does not take for the name of a command. *)
Definition taken_as_assignment (program : str) : bool :=
  needs_no_quotes program && match split_once 61 program with Some (name, _) => is_name name | None => false end.
Definition taken_as_keyword (spec : RemoteCommandSpec) : bool :=
  bool_decide (environment spec = []) && existsb (λ r, bool_decide (program spec = r)) reserved_words.

Lemma split_equals_text acc s :
  split_equals acc (unquoted s) = prod_map (app acc) unquoted <$> split_once 61 s.
Proof.
  revert acc. induction s as [|c s IH]; intros acc; [done|]. unfold unquoted in *. cbn [fmap list_fmap split_equals split_once].
  rewrite (Z.eqb_sym c 61). destruct (61 =? c); [by unfold prod_map; cbn; rewrite app_nil_r|].
  rewrite IH. destruct (split_once 61 s) as [[a b]|]; [|done].
  unfold prod_map. cbn. by rewrite <- app_assoc.
Qed.

Lemma assignment_program program : taken_as_assignment program = false → assignment (word_of program) = None.
Proof.
  unfold taken_as_assignment, word_of, assignment. destruct (needs_no_quotes program); cbn [andb].
  - rewrite split_equals_text. destruct (split_once 61 program) as [[a b]|]; [|done]. cbn. by intros ->.
  - intros _. by destruct program.
Qed.

Lemma reserved_program program :
  existsb (λ r, bool_decide (program = r)) reserved_words = false → reserved (word_of program) = false.
Proof. intros H. unfold reserved. rewrite text_word_of, H. apply andb_false_r. Qed.

Lemma sh_lex_program spec :
  sh_lex Unquoted None (quote_posix (program spec) ++ render_arguments (arguments spec)) =
  Some (Word <$> word_of (program spec) :: (word_of <$> arguments spec)).
Proof. rewrite sh_lex_quote. cbn [from_option app]. apply sh_lex_values. Qed.

(** What the shell runs for the directory, and for the program. *)
Definition cd_command (spec : RemoteCommandSpec) : list SimpleCommand :=
  match working_directory spec with
  | Some directory => [mk_command [] [lit "cd"; safe_cd_operand directory]]
  | None => []
  end.
Definition program_command (spec : RemoteCommandSpec) : SimpleCommand :=
  mk_command (environment spec) (program spec :: arguments spec).

(** *** Validation *)
Definition no_nul (s : str) : Prop := 0 ∉ s.
Record well_formed_spec (spec : RemoteCommandSpec) : Prop := {
  wf_program : program spec ≠ [] ∧ no_nul (program spec);
  wf_arguments : Forall no_nul (arguments spec);
  wf_directory : ∀ directory, working_directory spec = Some directory → directory ≠ [] ∧ no_nul directory;
  wf_environment : Forall (λ e, valid_environment_name e.1 = true ∧ no_nul e.2) (environment spec);
  wf_names : NoDup (environment spec).*1;
}.

Lemma reject_nul_ok value : reject_nul value = Ok tt ↔ no_nul value.
Proof.
  unfold reject_nul, no_nul. rewrite bail_if_ok. unfold contains_char. rewrite <- not_true_iff_false, existsb_exists.
  split; intros H.
  - intros H0%list_elem_of_In. apply H. by exists 0.
  - intros (c & Hc & Heq%Z.eqb_eq). subst. by apply H, list_elem_of_In.
Qed.

Lemma validate_environment_ok names env :
  validate_environment names env = Ok tt ↔
  Forall (λ e, valid_environment_name e.1 = true ∧ no_nul e.2) env ∧ NoDup env.*1 ∧ Forall (λ e, e.1 ∉ names) env.
Proof.
  revert names. induction env as [|[name value] env IH]; intros names; cbn [validate_environment].
  { split; [|done]. intros _. split_and!; constructor. }
  csimpl. rewrite !Forall_cons, NoDup_cons, bind_ok. setoid_rewrite bind_ok. setoid_rewrite bind_ok. setoid_rewrite IH.
  cbn [fst snd]. split.
  - intros ([] & Hv%bail_if_ok & [] & Hn%bail_if_ok & [] & Hz%reject_nul_ok & Hall & Hnd & Hnew). to_prop.
    split_and!; try done.
    + intros (e & -> & He)%list_elem_of_fmap. rewrite Forall_forall in Hnew. specialize (Hnew e He). set_solver.
    + apply (Forall_impl _ _ _ Hnew). intros e He. set_solver.
  - intros ([[Hv Hz] Hall] & [Hnotin Hnd] & [Hn Hnew]). exists tt. rewrite Hv. split; [done|]. exists tt.
    rewrite bool_decide_eq_false_2 by done. split; [done|]. exists tt. rewrite reject_nul_ok. split_and!; try done.
    apply Forall_forall. intros e He. rewrite Forall_forall in Hnew. specialize (Hnew e He).
    assert (e.1 ≠ name) by (intros <-; apply Hnotin; by apply list_elem_of_fmap_2). set_solver.
Qed.

Lemma validated_ok spec : validated spec = Ok tt ↔ well_formed_spec spec.
Proof.
  unfold validated. split.
  - intros ([] & Hp%bail_if_ok & Hrest)%bind_ok. apply bind_ok in Hrest as ([] & Hpn%reject_nul_ok & Hrest).
    apply bind_ok in Hrest as ([] & Ha%for_each_ok & Hrest). apply bind_ok in Hrest as ([] & Hd & He).
    apply validate_environment_ok in He as (He & Hnd & _). to_prop. split; try done.
    + apply (Forall_impl _ _ _ Ha). intros a. apply reject_nul_ok.
    + intros directory Hdir. rewrite Hdir in Hd. apply bind_ok in Hd as ([] & Hd%bail_if_ok & Hz%reject_nul_ok). by to_prop.
  - intros [[Hp Hpn] Ha Hd He Hnd]. rewrite bool_decide_eq_false_2 by done. cbn [bail_if]. step_bind.
    rewrite (proj2 (reject_nul_ok _)) by done. step_bind.
    assert (for_each reject_nul (arguments spec) = Ok tt) as ->
      by (apply for_each_ok; apply (Forall_impl _ _ _ Ha); intros a; apply reject_nul_ok).
    step_bind. destruct (working_directory spec) as [directory|].
    + destruct (Hd directory) as [Hdn Hdz]; [done|]. rewrite bool_decide_eq_false_2 by done. cbn [bail_if]. step_bind.
      rewrite (proj2 (reject_nul_ok _)) by done. step_bind. apply validate_environment_ok. split_and!; [done..|].
      apply Forall_forall. intros e _. apply not_elem_of_empty.
    + step_bind. apply validate_environment_ok. split_and!; [done..|]. apply Forall_forall. intros e _. apply not_elem_of_empty.
Qed.

(** *** The commands *)
Lemma read_program spec :
  Forall (λ e, valid_environment_name e.1 = true) (environment spec) →
  taken_as_assignment (program spec) = false → taken_as_keyword spec = false →
  read_command [] ((entry_word <$> environment spec) ++ word_of (program spec) :: (word_of <$> arguments spec)) =
  Some (program_command spec).
Proof.
  intros Henv Hassign Hkey. rewrite read_command_entries by done. cbn [app read_command].
  rewrite assignment_program by done.
  assert (bool_decide (environment spec = []) && reserved (word_of (program spec)) = false) as ->.
  { unfold taken_as_keyword in Hkey. apply andb_false_iff in Hkey as [->|Hk]; [done|].
    rewrite reserved_program by done. apply andb_false_r. }
  unfold program_command. f_equal. f_equal. csimpl. rewrite text_word_of. f_equal.
  rewrite <- list_fmap_compose. rewrite <- (list_fmap_id (arguments spec)) at 2. apply list_fmap_ext.
  intros i a _. apply text_word_of.
Qed.

Lemma lex_command spec :
  Forall (λ e, valid_environment_name e.1 = true) (environment spec) →
  sh_lex Unquoted None (render_environment (environment spec) ++ quote_posix (program spec) ++ render_arguments (arguments spec)) =
  Some (Word <$> (entry_word <$> environment spec) ++ word_of (program spec) :: (word_of <$> arguments spec)).
Proof. intros Henv. rewrite sh_lex_environment, sh_lex_program by done. cbn. by rewrite fmap_app. Qed.

Lemma not_assignment_plain w : Forall (λ c, c ≠ 61) (text_of_word w) → assignment w = None.
Proof.
  unfold assignment. intros H. assert (∀ acc, split_equals acc w = None) as ->; [|done].
  induction w as [|[[] c] w IH]; intros acc; cbn; try done. apply Forall_cons in H as [Hc H]. cbn in Hc.
  apply Z.eqb_neq in Hc. rewrite Hc. by apply IH.
Qed.

Lemma read_cd directory :
  read_command [] [unquoted (lit "cd"); word_of directory] = Some (mk_command [] [lit "cd"; directory]).
Proof. cbn. by rewrite text_word_of. Qed.

Lemma lex_cd directory rest :
  sh_lex Unquoted None (lit "cd " ++ quote_posix directory ++ lit " && " ++ rest) =
  app [Word (unquoted (lit "cd")); Word (word_of directory); AndIf] <$> sh_lex Unquoted None rest.
Proof.
  change (lit "cd ") with (lit "cd" ++ [32]). rewrite <- app_assoc.
  rewrite sh_lex_inert by (done || by repeat constructor). cbn [from_option app]. unfold id. rewrite sh_lex_space, sh_lex_quote.
  cbn [from_option app]. change (lit " && ") with [32; ampersand; ampersand; 32]. cbn [app].
  rewrite sh_lex_space, sh_lex_and. by destruct (sh_lex Unquoted None rest).
Qed.

Lemma render_posix_spec spec :
  is_ok (render_posix spec) = true ↔ well_formed_spec spec.
Proof.
  rewrite <- validated_ok. unfold render_posix. destruct (validated spec) as [[]|e]; [done|]. by split.
Qed.

Lemma render_posix_reads spec text :
  render_posix spec = Ok text → taken_as_assignment (program spec) = false → taken_as_keyword spec = false →
  sh_read text = Some (cd_command spec ++ [program_command spec]).
Proof.
  unfold render_posix. intros ([] & Hv%validated_ok & Htext%Ok_inj)%bind_ok Hassign Hkey. rewrite <- Htext.
  assert (Henv : Forall (λ e, valid_environment_name e.1 = true) (environment spec))
    by (apply (Forall_impl _ _ _ (wf_environment _ Hv)); by intros e [? _]).
  unfold sh_read, cd_command. destruct (working_directory spec) as [directory|]; cbn [app].
  - rewrite <- !app_assoc, lex_cd, lex_command by done. cbn [fmap option_fmap option_map mbind option_bind].
    change ([Word (unquoted (lit "cd")); Word (word_of (safe_cd_operand directory)); AndIf] ++ ?x)
      with ((Word <$> [unquoted (lit "cd"); word_of (safe_cd_operand directory)]) ++ AndIf :: x).
    rewrite read_list_and. cbn [app]. rewrite read_cd. cbn [mbind option_bind]. rewrite read_list_words. cbn [app].
    by rewrite read_program.
  - rewrite lex_command by done. cbn [mbind option_bind]. rewrite read_list_words. cbn [app]. by rewrite read_program.
Qed.

Lemma sudo_reads user command :
  sh_read (lit "sudo -n -u " ++ quote_posix user ++ lit " -- sh -lc " ++ quote_posix command) =
  Some [mk_command [] [lit "sudo"; lit "-n"; lit "-u"; user; lit "--"; lit "sh"; lit "-lc"; command]].
Proof.
  unfold sh_read.
  assert (sh_lex Unquoted None (lit "sudo -n -u " ++ quote_posix user ++ lit " -- sh -lc " ++ quote_posix command) =
    Some (Word <$> [unquoted (lit "sudo"); unquoted (lit "-n"); unquoted (lit "-u"); word_of user; unquoted (lit "--");
      unquoted (lit "sh"); unquoted (lit "-lc"); word_of command])) as ->.
  { change (lit "sudo -n -u ") with (lit "sudo" ++ [32] ++ lit "-n" ++ [32] ++ lit "-u" ++ [32]).
    change (lit " -- sh -lc ") with ([32] ++ lit "--" ++ [32] ++ lit "sh" ++ [32] ++ lit "-lc" ++ [32]).
    rewrite <- !app_assoc. rewrite sh_lex_inert by (done || by repeat constructor).
    do 2 (change ([32] ++ ?x) with (32 :: x); rewrite sh_lex_space; rewrite sh_lex_inert by (done || by repeat constructor)).
    change ([32] ++ ?x) with (32 :: x). rewrite sh_lex_space, sh_lex_quote.
    do 3 (change ([32] ++ ?x) with (32 :: x); rewrite sh_lex_space; rewrite sh_lex_inert by (done || by repeat constructor)).
    change ([32] ++ ?x) with (32 :: x). rewrite sh_lex_space. rewrite <- (app_nil_r (quote_posix command)), sh_lex_quote.
    done. }
  cbn [mbind option_bind]. rewrite read_list_words. cbn [app]. cbn. by rewrite !text_word_of.
Qed.

(** *** The words, and when the first of them is the program *)
Definition token_text (t : sh_token) : option str := match t with Word w => Some (text_of_word w) | AndIf => None end.
(** The texts of the words of a line, [None] for [&&]. *)
Definition sh_words (s : str) : option (list (option str)) := (λ ts : list sh_token, token_text <$> ts) <$> sh_lex Unquoted None s.
Definition spec_words (spec : RemoteCommandSpec) : list (option str) :=
  match working_directory spec with Some directory => [Some (lit "cd"); Some (safe_cd_operand directory); None] | None => [] end ++
  (Some <$> ((λ entry : str * str, entry.1 ++ 61 :: entry.2) <$> environment spec) ++ program spec :: arguments spec).

Lemma token_texts (ws : list word) : token_text <$> (Word <$> ws) = Some <$> (text_of_word <$> ws).
Proof. induction ws as [|w ws IH]; [done|]. csimpl. by rewrite IH. Qed.
Lemma texts_word_of (l : list str) : text_of_word <$> (word_of <$> l) = l.
Proof. induction l as [|x l IH]; [done|]. csimpl. by rewrite IH, text_word_of. Qed.
Lemma texts_entries (env : list (str * str)) : text_of_word <$> (entry_word <$> env) = (λ entry : str * str, entry.1 ++ 61 :: entry.2) <$> env.
Proof.
  induction env as [|[name value] env IH]; [done|]. csimpl. rewrite IH. f_equal. unfold entry_word.
  rewrite text_app, text_unquoted, text_word_of. cbn. by rewrite <- app_assoc.
Qed.

Lemma render_posix_words spec text : render_posix spec = Ok text → sh_words text = Some (spec_words spec).
Proof.
  unfold render_posix. intros ([] & Hv%validated_ok & Htext%Ok_inj)%bind_ok. rewrite <- Htext.
  assert (Henv : Forall (λ e, valid_environment_name e.1 = true) (environment spec))
    by (apply (Forall_impl _ _ _ (wf_environment _ Hv)); by intros e [? _]).
  assert (token_text <$> (Word <$> (entry_word <$> environment spec) ++ word_of (program spec) :: (word_of <$> arguments spec)) =
    Some <$> ((λ entry : str * str, entry.1 ++ 61 :: entry.2) <$> environment spec) ++ program spec :: arguments spec) as Hwords.
  { rewrite token_texts. f_equal. rewrite fmap_app, texts_entries. f_equal. csimpl. by rewrite text_word_of, texts_word_of. }
  unfold sh_words, spec_words. destruct (working_directory spec) as [directory|]; cbn [app].
  - rewrite <- !app_assoc, lex_cd, lex_command by done. cbn [fmap option_fmap option_map]. rewrite fmap_app, Hwords.
    cbn [fmap list_fmap token_text]. by rewrite text_word_of.
  - rewrite lex_command by done. cbn [fmap option_fmap option_map]. by rewrite Hwords.
Qed.

Lemma read_command_assigns acc ws c : read_command acc ws = Some c → acc `prefix_of` sc_assigns c.
Proof.
  revert acc. induction ws as [|w ws IH]; intros acc; cbn [read_command]; [by intros [= <-]|].
  destruct (assignment w) as [a|]; [intros Hc%IH; etrans; [|exact Hc]; by apply prefix_app_r|].
  destruct (bool_decide (acc = []) && reserved w); [done|]. by intros [= <-].
Qed.

Lemma reserved_words_plain w : w ∈ reserved_words → needs_no_quotes w = true ∧ Forall (λ c, c ≠ 61) w.
Proof.
  intros Hw. assert (forallb (λ w, needs_no_quotes w && forallb (λ c, negb (c =? 61)) w) reserved_words = true) as Hall by by vm_compute.
  rewrite forallb_forall in Hall. apply list_elem_of_In, Hall, andb_true_iff in Hw as [? Hw]. split; [done|].
  apply Forall_forall. intros c Hc. rewrite forallb_forall in Hw. apply list_elem_of_In, Hw in Hc. by apply negb_true_iff, Z.eqb_neq in Hc.
Qed.

(** A program of the form [NAME=value], or a reserved word, is not run. *)
Lemma not_run spec :
  Forall (λ e, valid_environment_name e.1 = true) (environment spec) →
  read_command [] ((entry_word <$> environment spec) ++ word_of (program spec) :: (word_of <$> arguments spec)) = Some (program_command spec) →
  taken_as_assignment (program spec) = false ∧ taken_as_keyword spec = false.
Proof.
  intros Henv. rewrite read_command_entries by done. cbn [app read_command]. destruct (assignment (word_of (program spec))) as [a|] eqn:Ha.
  { intros Hc%read_command_assigns%prefix_length. cbn in Hc. rewrite length_app in Hc. cbn in Hc. lia. }
  destruct (bool_decide (environment spec = []) && reserved (word_of (program spec))) eqn:Hres; [done|]. intros _. split.
  - unfold taken_as_assignment, assignment, word_of in *. destruct (needs_no_quotes (program spec)); [|done]. cbn [andb].
    rewrite split_equals_text in Ha. destruct (split_once 61 (program spec)) as [[name value]|]; [|done]. cbn in Ha. by destruct (is_name name).
  - unfold taken_as_keyword. destruct (bool_decide (environment spec = [])); [|done]. cbn [andb] in *. apply not_true_iff_false.
    intros Hk. pose proof Hk as (r & Hr%list_elem_of_In & Heq%bool_decide_eq_true)%existsb_exists. subst r.
    apply reserved_words_plain in Hr as [Hn _]. unfold reserved in Hres. rewrite text_word_of, Hk, andb_true_r in Hres.
    unfold word_of in Hres. rewrite Hn in Hres. apply not_true_iff_false in Hres. apply Hres. unfold unquoted.
    apply forallb_forall. by intros x (c & <- & _)%in_map_iff.
Qed.

Lemma render_posix_runs spec text :
  render_posix spec = Ok text →
  sh_read text = Some (cd_command spec ++ [program_command spec]) ↔ taken_as_assignment (program spec) = false ∧ taken_as_keyword spec = false.
Proof.
  intros Hrender. split; [|intros [? ?]; by apply render_posix_reads]. revert Hrender.
  unfold render_posix. intros ([] & Hv%validated_ok & Htext%Ok_inj)%bind_ok. rewrite <- Htext.
  assert (Henv : Forall (λ e, valid_environment_name e.1 = true) (environment spec))
    by (apply (Forall_impl _ _ _ (wf_environment _ Hv)); by intros e [? _]).
  unfold sh_read, cd_command. destruct (working_directory spec) as [directory|]; cbn [app].
  - rewrite <- !app_assoc, lex_cd, lex_command by done. cbn [fmap option_fmap option_map mbind option_bind].
    change ([Word (unquoted (lit "cd")); Word (word_of (safe_cd_operand directory)); AndIf] ++ ?x)
      with ((Word <$> [unquoted (lit "cd"); word_of (safe_cd_operand directory)]) ++ AndIf :: x).
    rewrite read_list_and. cbn [app]. rewrite read_cd. cbn [mbind option_bind]. rewrite read_list_words. cbn [app].
    destruct (read_command _ _) as [c|] eqn:Hc; [|done]. cbn. intros [= ->]. by apply not_run.
  - rewrite lex_command by done. cbn [mbind option_bind]. rewrite read_list_words. cbn [app].
    destruct (read_command _ _) as [c|] eqn:Hc; [|done]. cbn. intros [= ->]. by apply not_run.
Qed.

(** C35: a structured command reaches the remote shell word for word.  The text of
    [exec_spec] exists exactly when the command is well formed (a program, no NUL,
    distinct environment names of the portable form); its words are then, whatever characters
    they contain, the environment entries, the program and the arguments, behind a [cd] to the
    directory if there is one; and the shell runs the program with exactly these arguments and
    this environment if and only if the program is neither an unquoted [NAME=value] nor, without
    an environment, a reserved word.  Behind [sudo], the login shell receives that text as
    one argument. *)
Theorem rendered_command_runs spec remote_user :
  (is_ok (exec_spec_text spec remote_user Unix) = true ↔ well_formed_spec spec) ∧
  ∀ text, exec_spec_text spec remote_user Unix = Ok text → ∃ command,
    sh_words command = Some (spec_words spec) ∧
    (sh_read command = Some (cd_command spec ++ [program_command spec]) ↔
       taken_as_assignment (program spec) = false ∧ taken_as_keyword spec = false) ∧
    match remote_user with
    | Current => text = command
    | Sudo user => sh_read text = Some [mk_command [] [lit "sudo"; lit "-n"; lit "-u"; user; lit "--"; lit "sh"; lit "-lc"; command]]
    end.
Proof.
  unfold exec_spec_text. split.
  - rewrite <- render_posix_spec. by destruct (render_posix spec), remote_user.
  - intros text (command & Hcommand & Htext)%bind_ok. exists command.
    split; [by apply render_posix_words|]. split; [by apply render_posix_runs|].
    destruct remote_user as [|user]; cbn [command_for_user] in Htext; [by apply Ok_inj in Htext|].
    cbn [bool_decide] in Htext. apply bind_ok in Htext as ([] & _ & Htext%Ok_inj). subst text. apply sudo_reads.
Qed.

Module Examples.
Definition deploy : RemoteCommandSpec :=
  mk_spec (lit "printf") [lit "%s\n"; lit "it's $HOME; rm -rf /"] [(lit "APP_ENV", lit "prod west")] (Some (lit "-srv/app")).

Lemma rendered_command_runs_witness :
  ∃ text command, exec_spec_text deploy (Sudo (lit "www")) Unix = Ok text ∧
    sh_read text = Some [mk_command [] [lit "sudo"; lit "-n"; lit "-u"; lit "www"; lit "--"; lit "sh"; lit "-lc"; command]] ∧
    sh_read command = Some [mk_command [] [lit "cd"; lit "./-srv/app"];
      mk_command [(lit "APP_ENV", lit "prod west")] [lit "printf"; lit "%s\n"; lit "it's $HOME; rm -rf /"]].
Proof.
  destruct (rendered_command_runs deploy (Sudo (lit "www"))) as [_ Hread].
  assert (is_ok (exec_spec_text deploy (Sudo (lit "www")) Unix) = true) as Hyes by by vm_compute.
  destruct (exec_spec_text deploy (Sudo (lit "www")) Unix) as [text|e]; [|discriminate Hyes].
  destruct (Hread text eq_refl) as (command & _ & Hruns & Htext). exists text, command. split; [done|]. split; [exact Htext|].
  apply Hruns. by vm_compute.
Defined.

(** The equals sign counts as safe, so a program of the form [NAME=value] is not
    quoted: the shell assigns the variable and runs the first argument instead. *)
Definition assigning : RemoteCommandSpec := mk_spec (lit "PATH=/tmp") [lit "id"] [] None.
Example program_taken_as_assignment :
  match render_posix assigning with
  | Ok text => sh_read text = Some [mk_command [(lit "PATH", lit "/tmp")] [lit "id"]]
  | Err _ => False
  end.
Proof. by vm_compute. Qed.

(** Nor is a reserved word: the shell waits for a loop. *)
Example program_taken_as_keyword :
  match render_posix (mk_spec (lit "while") [lit "true"] [] None) with
  | Ok text => text = lit "while true" ∧ sh_read text = None
  | Err _ => False
  end.
Proof. by vm_compute. Qed.
End Examples.
