(* ===== verification/Config.v ===== *)
(** * Connection configuration ([crates/kaduox-ssh-core/src/config.rs])

    The settings of a connection: from the OpenSSH configuration, with its
    ProxyJump chain.  The parser [russh_config] and the system are parameters. *)

From stdpp Require Import base list gmap strings numbers sorting.
From Stdlib Require Import Lia.
From S2P Require Import Prelude RustStr StrFacts RemotePath Glob IncludeEnv OpenSshMatch OpenSshInclude Targets.

(** ** Definitions *)
Definition MAX_JUMP_HOPS : Z := 8.
Definition SHELL_ACTIVE_TOKEN_CHARS : str := 39 :: lit "`" ++ dquote :: lit "$\;&<>|(){}".

Inductive HostKeyPolicy := Strict | AcceptNew | Insecure.
#[export] Instance host_key_policy_eq_dec : EqDecision HostKeyPolicy.
Proof. solve_decision. Defined.

(** A path as the bytes of an [OsString]. *)
Abbreviation os_path := (list Z) (only parsing).

Record JumpHost := mk_jump {
  jh_alias : str;
  jh_host : str;
  jh_port : Z;
  jh_username : str;
  jh_identity_files : list os_path;
  jh_host_key_policy : HostKeyPolicy;
  jh_known_hosts_file : option os_path;
}.
#[export] Instance jump_host_eq_dec : EqDecision JumpHost.
Proof. solve_decision. Defined.

(** Durations in seconds. *)
Record ConnectionConfig := mk_config {
  c_alias : str;
  c_host : str;
  c_port : Z;
  c_username : str;
  c_identity_files : list os_path;
  c_host_key_policy : HostKeyPolicy;
  c_known_hosts_file : option os_path;
  c_keepalive_interval : option Z;
  c_inactivity_timeout : option Z;
  c_connect_timeout : Z;
  c_channel_open_timeout : Z;
  c_channel_request_timeout : Z;
  c_authentication_timeout : Z;
  c_proxy_command : option str;
  c_jump_hosts : list JumpHost;
  c_agent_forwarding : bool;
}.
#[export] Instance connection_config_eq_dec : EqDecision ConnectionConfig.
Proof. solve_decision. Defined.

Inductive ConnectionRouteSnapshot := Direct | ProxyCommand | ProxyJump (hops : list JumpHost).

Record ConnectionConfigSnapshot := mk_snapshot {
  s_alias : str;
  s_host : str;
  s_port : Z;
  s_username : str;
  s_identity_files : list os_path;
  s_host_key_policy : HostKeyPolicy;
  s_known_hosts_file : option os_path;
  s_keepalive_interval : option Z;
  s_inactivity_timeout : option Z;
  s_route : ConnectionRouteSnapshot;
  s_agent_forwarding : bool;
}.

Definition config_new (host username : str) : ConnectionConfig :=
  mk_config host host 22 username [] AcceptNew None (Some 30) None 15 15 15 30 None [] false.

Definition snapshot (config : ConnectionConfig) : ConnectionConfigSnapshot :=
  let route :=
    if negb (bool_decide (c_jump_hosts config = [])) then ProxyJump (c_jump_hosts config)
    else if bool_decide (is_Some (c_proxy_command config)) then ProxyCommand else Direct in
  mk_snapshot (c_alias config) (c_host config) (c_port config) (c_username config) (c_identity_files config)
    (c_host_key_policy config) (c_known_hosts_file config) (c_keepalive_interval config)
    (c_inactivity_timeout config) route (c_agent_forwarding config).

Definition validate_timeouts (config : ConnectionConfig) : result unit :=
  bail_if (c_connect_timeout config =? 0) "SSH connect timeout must be greater than zero" ≫= λ _,
  bail_if (c_channel_open_timeout config =? 0) "SSH channel-open timeout must be greater than zero" ≫= λ _,
  bail_if (c_channel_request_timeout config =? 0) "SSH channel request timeout must be greater than zero" ≫= λ _,
  bail_if (c_authentication_timeout config =? 0) "SSH authentication timeout must be greater than zero".

(** Setters for [config.field = value]. *)
Definition set_route (config : ConnectionConfig) (proxy : option str) (jumps : list JumpHost) : ConnectionConfig :=
  mk_config (c_alias config) (c_host config) (c_port config) (c_username config) (c_identity_files config)
    (c_host_key_policy config) (c_known_hosts_file config) (c_keepalive_interval config) (c_inactivity_timeout config)
    (c_connect_timeout config) (c_channel_open_timeout config) (c_channel_request_timeout config)
    (c_authentication_timeout config) proxy jumps (c_agent_forwarding config).

(** *** IPv6 addresses

    [str::parse::<Ipv6Addr>] of the standard library, of which the code uses only
    whether it succeeds.  A parser takes the rest of the input and returns what is
    left after what it read. *)
Definition is_hex_digit (c : char) : bool :=
  is_ascii_digit c || ((97 <=? c) && (c <=? 102)) || ((65 <=? c) && (c <=? 70)).

(** [read_number(16, Some(4), true)]: one to four digits, and no fifth. *)
Definition read_hex_group (s : str) : option str :=
  let digits := take_while is_hex_digit s in
  if bool_decide (digits = []) || (4 <? zlen digits) then None else Some (drop_while is_hex_digit s).

(** [read_number(10, Some(3), false)] of a [u8]: no leading zero. *)
Definition read_octet (s : str) : option str :=
  let digits := take_while is_ascii_digit s in
  if bool_decide (digits = []) || (3 <? zlen digits) then None
  else if bool_decide (head digits = Some 48) && (1 <? zlen digits) then None
  else if 255 <? dec_value 0 digits then None else Some (drop_while is_ascii_digit s).

Definition read_char (c : char) (s : str) : option str :=
  match s with d :: s => if c =? d then Some s else None | [] => None end.

Definition read_ipv4 (s : str) : option str :=
  s ← read_octet s; s ← read_char 46 s; s ← read_octet s; s ← read_char 46 s;
  s ← read_octet s; s ← read_char 46 s; read_octet s.

(** [read_separator(':', i, inner)]. *)
Definition read_separated (i : nat) (inner : str → option str) (s : str) : option str :=
  match i with O => inner s | S _ => s ← read_char colon s; inner s end.

(** [read_groups] from group [i] of [limit] on: the number of groups, whether the
    last was an IPv4 address, and the rest. *)
Fixpoint read_groups (todo i limit : nat) (s : str) : nat * bool * str :=
  match todo with
  | O => (limit, false, s)
  | S todo =>
      match (if bool_decide (i < limit - 1)%nat then read_separated i read_ipv4 s else None) with
      | Some s => ((i + 2)%nat, true, s)
      | None =>
          match read_separated i read_hex_group s with
          | Some s => read_groups todo (S i) limit s
          | None => (i, false, s)
          end
      end
  end.

Definition is_ipv6 (s : str) : bool :=
  let '(head_size, head_ipv4, rest) := read_groups 8 0 8 s in
  if bool_decide (head_size = 8%nat) then bool_decide (rest = [])
  else if head_ipv4 then false
  else
    match rest ← read_char colon rest; read_char colon rest with
    | None => false
    | Some rest =>
        let limit := (8 - (head_size + 1))%nat in
        let '(_, _, rest) := read_groups limit 0 limit rest in bool_decide (rest = [])
    end.

(** *** ProxyJump *)
Definition validate_untrusted_shell_token (value : str) : result unit :=
  bail_if (bool_decide (value = [])) "token cannot be empty" ≫= λ _,
  bail_if (starts_with value [45]) "token cannot begin with '-'" ≫= λ _,
  bail_if (existsb (λ c, is_whitespace c || is_control c || contains_char SHELL_ACTIVE_TOKEN_CHARS c) value)
    "token contains shell-active or whitespace characters that are unsafe for ProxyCommand token expansion".

Definition host_key_policy_from_config (strict : option bool) : HostKeyPolicy :=
  match strict with Some true => Strict | Some false => Insecure | None => AcceptNew end.

Definition parse_jump_destination (spec : str) : result (option str * str) :=
  match strip_prefix (lit "ssh://") spec with
  | Some uri =>
      bail_if (bool_decide (uri = [])) "ProxyJump SSH URI is missing a destination" ≫= λ _,
      bail_if (contains_char uri slash || contains_char uri question || contains_char uri hash)
        "ProxyJump SSH URI cannot contain a path, query, or fragment" ≫= λ _, Ok uri
  | None =>
      bail_if (contains spec (lit "://")) "ProxyJump URI must use the ssh:// scheme" ≫= λ _, Ok spec
  end ≫= λ destination,
  bail_if (1 <? count_char at_sign destination) "ProxyJump destination contains more than one '@'" ≫= λ _,
  match split_once at_sign destination with
  | Some (user, host_port) =>
      bail_if (bool_decide (user = [])) "ProxyJump user cannot be empty" ≫= λ _,
      bail_if (bool_decide (host_port = [])) "ProxyJump host cannot be empty" ≫= λ _,
      Ok (Some user, host_port)
  | None => Ok (None, destination)
  end.

(** The suffix after the bracket that closes an IPv6 address. *)
Definition bracket_suffix (host suffix : str) : result (str * option Z) :=
  match strip_prefix [colon] suffix with
  | Some port =>
      bail_if (bool_decide (port = [])) "ProxyJump port cannot be empty" ≫= λ _,
      with_context (parse_uint u16_max port) "invalid ProxyJump port" ≫= λ port, Ok (host, Some port)
  | None => bail_if (negb (bool_decide (suffix = []))) "invalid ProxyJump address suffix" ≫= λ _, Ok (host, None)
  end.

(** After an opening bracket. *)
Definition bracketed_host_port (rest : str) : result (str * option Z) :=
  with_context (split_once close_bracket rest) "missing closing ']' in ProxyJump IPv6 address" ≫= λ '(host, suffix),
  bail_if (bool_decide (host = [])) "ProxyJump IPv6 host cannot be empty" ≫= λ _,
  bail_if (negb (is_ipv6 host)) "invalid ProxyJump IPv6 address" ≫= λ _,
  bracket_suffix host suffix.

(** Without brackets: the match on the number of colons. *)
Definition bare_host_port (value : str) : result (str * option Z) :=
  if count_char colon value =? 0 then Ok (value, None)
  else if count_char colon value =? 1 then
    with_context (rsplit_once colon value) "invalid ProxyJump host:port specification" ≫= λ '(host, port),
    bail_if (bool_decide (host = [])) "ProxyJump host cannot be empty" ≫= λ _,
    bail_if (bool_decide (port = [])) "ProxyJump port cannot be empty" ≫= λ _,
    bail_if (negb (forallb is_ascii_digit (utf8 port))) "invalid ProxyJump port" ≫= λ _,
    with_context (parse_uint u16_max port) "port out of range" ≫= λ port, Ok (host, Some port)
  else
    bail_if (negb (is_ipv6 value)) "invalid unbracketed ProxyJump IPv6 address" ≫= λ _, Ok (value, None).

Definition parse_host_port (value : str) : result (str * option Z) :=
  bail_if (bool_decide (value = [])) "ProxyJump host cannot be empty" ≫= λ _,
  bail_if (existsb (λ c, is_whitespace c || is_control c) value)
    "ProxyJump host contains whitespace or control characters" ≫= λ _,
  match strip_prefix [open_bracket] value with
  | Some rest => bracketed_host_port rest
  | None =>
      bail_if (contains_char value open_bracket || contains_char value close_bracket)
        "invalid ProxyJump bracket placement" ≫= λ _,
      bare_host_port value
  end.

(** *** The OpenSSH configuration *)

(** What the code reads of a [russh_config::Config]. *)
Record RusshConfig := mk_russh {
  r_host : str;
  r_user : str;
  r_port : Z;
  r_identity_file : option (list os_path);
  r_user_known_hosts_file : option os_path;
  r_proxy_command : option str;
  r_proxy_jump : option str;
  r_strict_host_key_checking : option bool;
}.

Definition reject_structural_line (line : str) : result unit :=
  match directive_key line with
  | None => Ok tt
  | Some key =>
      bail_if (eq_ignore_ascii_case key (lit "match") || eq_ignore_ascii_case key (lit "include"))
        "OpenSSH directive is not safely supported by the current config parser"
  end.
Definition reject_unsupported_structural_directives (contents : str) : result unit :=
  for_each reject_structural_line (lines contents).

(** [Path::parent]: without the last component, and the separators and dots before
    it. *)
Definition droppable (segment : str) : bool := bool_decide (segment = []) || bool_decide (segment = dot).
Fixpoint drop_trailing (rev_segments : list str) : list str :=
  match rev_segments with
  | [] => []
  | [w] => [w]
  | w :: ws => if droppable w then drop_trailing ws else w :: ws
  end.
Definition path_parent (path : str) : option str :=
  match drop_trailing (reverse (split slash path)) with
  | [] => None
  | [w] => if droppable w && negb (bool_decide (w = dot)) then None else Some []
  | _ :: ws =>
      match drop_trailing ws with
      | [w] => Some (if bool_decide (w = []) then [slash] else w)
      | ws => Some (join_with slash (reverse ws))
      end
  end.

Section config.
Context (sys : System).
Context (home_var : option str) (metadata : str → io_result unit).
Context (russh_parse : str → str → result RusshConfig) (russh_default : str → RusshConfig).

Definition user_home_dir : option str := home_var.
Definition openssh_config_path : option str :=
  (λ home, path_join (path_join home (lit ".ssh")) (lit "config")) <$> user_home_dir.

Definition parse_openssh_contents (contents alias : str) : result RusshConfig :=
  reject_unsupported_structural_directives contents ≫= λ _, russh_parse contents alias.

(** The port that a text gives a host. *)
Definition russh_port (text host : str) : result Z := r_port <$> russh_parse text host.

Definition parse_home_config (alias : str) : result RusshConfig :=
  match openssh_config_path with
  | None => Ok (russh_default alias)
  | Some path =>
      with_context (ssh_dir ← path_parent path; path_parent ssh_dir)
        "failed to resolve home directory from OpenSSH config path" ≫= λ home,
      match metadata path with
      | NotFound => Ok (russh_default alias)
      | IoErr e => Err e
      | IoOk _ =>
          expand_user_config sys russh_port path home alias ≫= λ contents,
          parse_openssh_contents contents alias
      end
  end.

Definition resolve_jump_host (validate_untrusted : bool) (spec : str) : result JumpHost :=
  bail_if (existsb (λ c, is_whitespace c || is_control c) spec)
    "ProxyJump hop contains whitespace or control characters" ≫= λ _,
  parse_jump_destination spec ≫= λ '(user_override, host_port),
  parse_host_port host_port ≫= λ '(alias, port_override),
  (if validate_untrusted then
     validate_untrusted_shell_token alias ≫= λ _,
     match user_override with Some username => validate_untrusted_shell_token username | None => Ok tt end
   else Ok tt) ≫= λ _,
  parse_home_config alias ≫= λ parsed,
  Ok (mk_jump alias (r_host parsed) (default (r_port parsed) port_override) (default (r_user parsed) user_override)
        (default [] (r_identity_file parsed)) (host_key_policy_from_config (r_strict_host_key_checking parsed))
        (r_user_known_hosts_file parsed)).

Definition resolve_jump_hosts_internal (spec : str) (validate_untrusted : bool) : result (list JumpHost) :=
  let spec := trim spec in
  if bool_decide (spec = []) || eq_ignore_ascii_case spec (lit "none") then Ok []
  else
    let raw_hops := trim <$> split comma spec in
    bail_if (existsb (λ hop, bool_decide (hop = [])) raw_hops) "ProxyJump chain contains an empty hop" ≫= λ _,
    bail_if (existsb (λ hop, eq_ignore_ascii_case hop (lit "none")) raw_hops)
      "ProxyJump 'none' cannot be combined with other hops" ≫= λ _,
    bail_if (MAX_JUMP_HOPS <? zlen raw_hops) "ProxyJump chain exceeds the hop safety limit" ≫= λ _,
    try_fold (λ hops hop, resolve_jump_host validate_untrusted hop ≫= λ jump, Ok (hops ++ [jump])) [] raw_hops.

Definition resolve_jump_hosts (spec : str) : result (list JumpHost) := resolve_jump_hosts_internal spec true.

Definition from_openssh (alias : str) (username_override : option str) (port_override : option Z)
    : result ConnectionConfig :=
  validate_untrusted_shell_token alias ≫= λ _,
  match username_override with Some username => validate_untrusted_shell_token username | None => Ok tt end ≫= λ _,
  parse_home_config alias ≫= λ parsed,
  let new := config_new (r_host parsed) (default (r_user parsed) username_override) in
  let config :=
    mk_config alias (c_host new) (default (r_port parsed) port_override) (c_username new)
      (default [] (r_identity_file parsed)) (host_key_policy_from_config (r_strict_host_key_checking parsed))
      (r_user_known_hosts_file parsed) (c_keepalive_interval new) (c_inactivity_timeout new) (c_connect_timeout new)
      (c_channel_open_timeout new) (c_channel_request_timeout new) (c_authentication_timeout new)
      (r_proxy_command parsed) (c_jump_hosts new) (c_agent_forwarding new) in
  match r_proxy_jump parsed with
  | None => Ok config
  | Some proxy_jump =>
      resolve_jump_hosts_internal proxy_jump false ≫= λ jump_hosts,
      Ok (set_route config (if bool_decide (jump_hosts = []) then c_proxy_command config else None) jump_hosts)
  end.

Definition with_proxy_jump (config : ConnectionConfig) (spec : str) : result ConnectionConfig :=
  resolve_jump_hosts spec ≫= λ jump_hosts, Ok (set_route config None jump_hosts).
End config.
