(* ===== verification/ConfigProof.v ===== *)
(** * Facts of the connection configuration

    The grammar of ProxyJump, the resolution of a chain of jump hosts, and the
    composition with the expansion of the OpenSSH configuration. *)

From stdpp Require Import base list gmap strings numbers sorting.
From Stdlib Require Import Lia.
From S2P Require Import Prelude RustStr StrFacts RemotePath Glob IncludeEnv OpenSshMatch OpenSshInclude IncludeScope Targets Config.

(** ** The grammar of ProxyJump *)

Definition clean (s : str) : Prop := Forall (λ c, is_whitespace c = false ∧ is_control c = false) s.

Definition plain_host (host : str) : Prop :=
  host ≠ [] ∧ colon ∉ host ∧ open_bracket ∉ host ∧ close_bracket ∉ host.

(** A port written in digits. *)
Definition decimal_port (digits : str) (port : Z) : Prop :=
  digits ≠ [] ∧ Forall (λ c, is_ascii_digit c = true) digits ∧ dec_value 0 digits = port ∧ port ≤ u16_max.

(** What an address says: the host and perhaps a port. *)
Inductive jump_address : str → str → option Z → Prop :=
| address_host host : plain_host host → jump_address host host None
| address_port host digits port :
    plain_host host → decimal_port digits port →
    jump_address (host ++ colon :: digits) host (Some port)
| address_ipv6 host :
    1 < count_char colon host → open_bracket ∉ host → close_bracket ∉ host → is_ipv6 host = true →
    jump_address host host None
| address_bracketed host :
    close_bracket ∉ host → is_ipv6 host = true → jump_address (open_bracket :: host ++ [close_bracket]) host None
(* inside brackets the port may have a plus sign *)
| address_bracketed_port host digits port :
    close_bracket ∉ host → is_ipv6 host = true → parse_uint u16_max digits = Some port →
    jump_address (open_bracket :: host ++ close_bracket :: colon :: digits) host (Some port).

(** What a hop says: the user, perhaps, and the address. *)
Inductive jump_destination : str → option str → str → Prop :=
| destination_host address : at_sign ∉ address → jump_destination address None address
| destination_user user address :
    user ≠ [] → address ≠ [] → at_sign ∉ user → at_sign ∉ address →
    jump_destination (user ++ at_sign :: address) (Some user) address.

Definition scheme : str := lit "ssh://".
Inductive jump_uri : str → str → Prop :=
| uri_plain spec : contains spec (lit "://") = false → jump_uri spec spec
| uri_ssh destination :
    destination ≠ [] → slash ∉ destination → question ∉ destination → hash ∉ destination →
    jump_uri (scheme ++ destination) destination.

(** ** Lemmas *)
Lemma existsb_clean s : existsb (λ c, is_whitespace c || is_control c) s = false ↔ clean s.
Proof.
  unfold clean. induction s as [|c s IH]; cbn [existsb]; [by rewrite Forall_nil|].
  rewrite orb_false_iff, orb_false_iff, IH, Forall_cons. tauto.
Qed.

Lemma count_char_cons c s : count_char c (c :: s) = 1 + count_char c s.
Proof. change (c :: s) with ([c] ++ s). rewrite count_char_app. unfold count_char at 1. by rewrite filter_cons_True. Qed.

Lemma count_char_nonneg c s : 0 ≤ count_char c s.
Proof. unfold count_char. lia. Qed.

Lemma parse_decimal digits port :
  digits ≠ [] → Forall (λ c, is_ascii_digit c = true) digits →
  parse_uint u16_max digits = Some port ↔ decimal_port digits port.
Proof.
  intros Hne Hd. unfold decimal_port, parse_uint. destruct digits as [|c digits]; [done|].
  assert ((c =? ch "+") = false) as ->.
  { apply Z.eqb_neq. intros ->. by apply Forall_cons in Hd as [Hd _]. }
  unfold parse_digits. apply forallb_Forall in Hd as Hb. rewrite Hb, try_from_some. naive_solver.
Qed.

Lemma no_prefix (c : char) s : strip_prefix [c] s = None ↔ ∀ rest, s ≠ c :: rest.
Proof.
  destruct (strip_prefix [c] s) as [rest|] eqn:Hs.
  - apply strip_prefix_some in Hs as ->. split; [done|]. intros H. by destruct (H rest).
  - split; [|done]. intros _ rest ->. assert (strip_prefix [c] (c :: rest) = Some rest) by by apply strip_prefix_some.
    congruence.
Qed.

Lemma bracket_suffix_ok host suffix h port :
  bracket_suffix host suffix = Ok (h, port) ↔
  h = host ∧ (suffix = [] ∧ port = None ∨ ∃ p n, suffix = colon :: p ∧ parse_uint u16_max p = Some n ∧ port = Some n).
Proof.
  unfold bracket_suffix. destruct (strip_prefix [colon] suffix) as [p|] eqn:Hp.
  - apply strip_prefix_some in Hp as ->. split.
    + intros ([] & _ & (n & Hn%with_context_ok & [= <- <-])%bind_ok)%bind_ok. split; [done|]. right. by exists p, n.
    + intros [-> [[? _]|(p' & n & [= <-] & Hn & ->)]]; [done|]. destruct p as [|c p]; [done|]. by rewrite Hn.
  - case_bool_decide as Hs; cbn [negb bail_if].
    + subst. split; [intros [= <- <-]; split; [done|by left]|]. by intros [-> [[_ ->]|(? & ? & ? & _)]].
    + split; [intros H; discriminate H|]. intros [_ [[? _]|(p & n & -> & _)]]; [done|].
      by destruct (proj1 (no_prefix _ _) Hp p).
Qed.

Lemma bracketed_ok rest host port :
  bracketed_host_port rest = Ok (host, port) ↔
  close_bracket ∉ host ∧ is_ipv6 host = true ∧
  (rest = host ++ [close_bracket] ∧ port = None ∨
   ∃ p n, rest = host ++ close_bracket :: colon :: p ∧ parse_uint u16_max p = Some n ∧ port = Some n).
Proof.
  unfold bracketed_host_port. split.
  - intros ([h suffix] & (-> & Hno)%with_context_ok%split_once_some & Hrest)%bind_ok.
    apply bind_ok in Hrest as ([] & _ & Hrest). apply bind_ok in Hrest as ([] & Hv%bail_if_ok & Hrest).
    apply negb_false_iff in Hv. apply bracket_suffix_ok in Hrest as [-> [[-> ->]|(p & n & -> & Hn & ->)]]; naive_solver.
  - intros (Hno & Hv & Hrest). assert (host ≠ []) as Hne by by intros ->.
    assert (∃ suffix, rest = host ++ close_bracket :: suffix ∧ bracket_suffix host suffix = Ok (host, port))
      as (suffix & -> & Hsuffix).
    { destruct Hrest as [[-> ->]|(p & n & -> & Hn & ->)]; eexists; (split; [done|]); apply bracket_suffix_ok; naive_solver. }
    assert (split_once close_bracket (host ++ close_bracket :: suffix) = Some (host, suffix)) as -> by by apply split_once_some.
    cbn [with_context]. step_bind. rewrite bool_decide_eq_false_2 by done. cbn [bail_if]. step_bind.
    rewrite Hv. cbn [negb bail_if]. step_bind. exact Hsuffix.
Qed.

Lemma bare_ok value host port :
  value ≠ [] → open_bracket ∉ value → close_bracket ∉ value →
  bare_host_port value = Ok (host, port) ↔
  plain_host value ∧ host = value ∧ port = None ∨
  (∃ digits n, plain_host host ∧ value = host ++ colon :: digits ∧ decimal_port digits n ∧ port = Some n) ∨
  (1 < count_char colon value ∧ is_ipv6 value = true ∧ host = value ∧ port = None).
Proof.
  intros Hne Hopen Hclose. unfold bare_host_port. pose proof (count_char_nonneg colon value) as Hpos.
  assert (Hport : ∀ h digits, value = h ++ colon :: digits → colon ∉ h → colon ∉ digits → count_char colon value = 1).
  { intros h digits -> Hh%count_char_0 Hd%count_char_0. rewrite count_char_app, count_char_cons. lia. }
  destruct (Z.eqb_spec (count_char colon value) 0) as [H0|H0].
  { apply count_char_0 in H0 as Hcolon. split.
    - intros [= <- <-]. left. done.
    - intros [(_ & -> & ->)|[(digits & n & _ & -> & _)|(H1 & _)]]; [done| |lia]. set_solver. }
  destruct (Z.eqb_spec (count_char colon value) 1) as [H1|H1].
  - destruct (rsplit_once colon value) as [[h digits]|] eqn:Hr;
      [|apply rsplit_once_none, count_char_0 in Hr; lia].
    apply rsplit_once_some in Hr as [Hval Hd].
    assert (Hh : colon ∉ h).
    { apply count_char_0. rewrite Hval, count_char_app, count_char_cons in H1. apply count_char_0 in Hd. lia. }
    cbn [with_context]. step_bind. split.
    + intros ([] & Hhne%bail_if_ok & Hrest)%bind_ok. apply bind_ok in Hrest as ([] & Hdne%bail_if_ok & Hrest).
      apply bind_ok in Hrest as ([] & Hdig%bail_if_ok & Hrest). apply negb_false_iff, utf8_digits in Hdig.
      apply bind_ok in Hrest as (n & Hn%with_context_ok & [= <- <-]). to_prop. right. left. exists digits, n.
      split_and!; [|done|by apply parse_decimal|done]. subst value. unfold plain_host. set_solver.
    + intros [([_ [Hc _]] & _)|[(digits' & n & (Hhne & Hh' & _) & Hval' & Hn & ->)|(H2 & _)]]; [|clear H0|lia].
      { subst value. set_solver. }
      destruct Hn as (Hdne & Hdig & Hn).
      assert (split_once colon value = Some (h, digits)) as Hs1 by by apply split_once_some.
      assert (split_once colon value = Some (host, digits')) as Hs2 by by apply split_once_some.
      rewrite Hs1 in Hs2. injection Hs2 as -> ->.
      rewrite !bool_decide_eq_false_2 by done. cbn [bail_if]. do 2 step_bind.
      assert (forallb is_ascii_digit (utf8 digits') = true) as -> by by apply utf8_digits. cbn [negb bail_if]. step_bind.
      assert (parse_uint u16_max digits' = Some n) as -> by (apply parse_decimal; done). done.
  - destruct (is_ipv6 value) eqn:Hv; cbn [negb bail_if].
    + rewrite bind_of_ok. split.
      * intros [= <- <-]. right. right. split; [lia|done].
      * intros [([_ [Hc _]] & _)|[(digits & n & (_ & Hh & _) & Hval & (_ & Hdig & _) & _)|(_ & _ & -> & ->)]]; [| |done].
        -- apply count_char_0 in Hc. lia.
        -- apply digits_no_colon in Hdig. by specialize (Hport _ _ Hval Hh Hdig).
    + split; [intros H; discriminate H|].
      intros [([_ [Hc _]] & _)|[(digits & n & (_ & Hh & _) & Hval & (_ & Hdig & _) & _)|(_ & ? & _)]]; [| |done].
      * apply count_char_0 in Hc. lia.
      * apply digits_no_colon in Hdig. by specialize (Hport _ _ Hval Hh Hdig).
Qed.

(** What [parse_host_port] accepts, and returns. *)
Lemma parse_host_port_spec value host port :
  parse_host_port value = Ok (host, port) ↔ clean value ∧ jump_address value host port.
Proof.
  unfold parse_host_port. case_bool_decide as Hne; cbn [bail_if].
  { subst. split; [intros H; discriminate H|]. intros [_ H]. remember [] as value eqn:Hval. destruct H; subst; try discriminate.
    - by destruct H as [? _].
    - by destruct host. }
  rewrite bind_of_ok. rewrite bind_ok. setoid_rewrite bail_if_ok'. rewrite <- existsb_clean.
  destruct (strip_prefix [open_bracket] value) as [rest|] eqn:Hp.
  - apply strip_prefix_some in Hp as ->. cbn [app] in *. setoid_rewrite bracketed_ok. split.
    + intros (_ & Hc & Hno & Hv & [[-> ->]|(p & n & -> & Hn & ->)]); (split; [done|]); by constructor.
    + intros [Hc Ha]. exists tt. split; [done|].
      assert (∃ value, value = open_bracket :: rest ∧ jump_address value host port) as (value & Hval & Ha') by eauto.
      revert Hval. destruct Ha'; intros Hval.
      * destruct H as (_ & _ & Hb & _). subst host. destruct Hb. by left.
      * destruct H as (Hhne & _ & Hb & _). destruct host as [|c host]; [done|]. cbn [app] in Hval. injection Hval as -> _. destruct Hb. by left.
      * subst host. match goal with Hb : open_bracket ∉ _ |- _ => destruct Hb; by left end.
      * injection Hval as <-. naive_solver.
      * injection Hval as <-. naive_solver.
  - assert (Hno : ∀ rest, value ≠ open_bracket :: rest) by by apply no_prefix.
    setoid_rewrite bind_ok. setoid_rewrite bail_if_ok'. setoid_rewrite orb_false_iff. setoid_rewrite contains_char_not. split.
    + intros (_ & Hc & _ & [Hopen Hclose] & Hbare). split; [done|]. apply bare_ok in Hbare; [|done..].
      destruct Hbare as [(? & -> & ->)|[(digits & n & ? & -> & ? & ->)|(? & ? & -> & ->)]]; by constructor.
    + intros [Hc Ha]. exists tt. split; [done|]. exists tt.
      assert (open_bracket ∉ value ∧ close_bracket ∉ value) as [Hopen Hclose].
      { destruct Ha as [host (? & ? & ? & ?)|host digits port (? & ? & ? & ?) (? & Hd & _)|host|host|host]; [done| |done| |].
        - assert (∀ c, is_ascii_digit c = false → c ∉ digits) as Hnd.
          { intros c Hcd Hin. rewrite Forall_forall in Hd. specialize (Hd c Hin). congruence. }
          pose proof (Hnd open_bracket eq_refl). pose proof (Hnd close_bracket eq_refl). split; set_solver.
        - by destruct (Hno (host ++ [close_bracket])).
        - by destruct (Hno (host ++ close_bracket :: colon :: digits)). }
      split; [done|]. apply bare_ok; [done..|]. destruct Ha; [by left|right; left; eauto 10|right; right; done| |].
      * by destruct (Hno (host ++ [close_bracket])).
      * by destruct (Hno (host ++ close_bracket :: colon :: digits)).
Qed.

(** *** The destination of a hop *)
Lemma destination_ok destination user address :
  (bail_if (1 <? count_char at_sign destination) "ProxyJump destination contains more than one '@'" ≫= λ _,
   match split_once at_sign destination with
   | Some (user, host_port) =>
       bail_if (bool_decide (user = [])) "ProxyJump user cannot be empty" ≫= λ _,
       bail_if (bool_decide (host_port = [])) "ProxyJump host cannot be empty" ≫= λ _,
       Ok (Some user, host_port)
   | None => Ok (None, destination)
   end) = Ok (user, address) ↔ jump_destination destination user address.
Proof.
  destruct (split_once at_sign destination) as [[u a]|] eqn:Hs.
  - apply split_once_some in Hs as [-> Hu]. apply count_char_0 in Hu as Hu0.
    rewrite count_char_app, count_char_cons, Hu0. pose proof (count_char_nonneg at_sign a). split.
    + intros ([] & Hone%bail_if_ok & Hrest)%bind_ok. apply bind_ok in Hrest as ([] & Hune%bail_if_ok & Hrest).
      apply bind_ok in Hrest as ([] & Hane%bail_if_ok & [= <- <-]). to_prop.
      constructor; [done..|]. apply count_char_0. lia.
    + intros Hd. assert (∃ d, d = u ++ at_sign :: a ∧ jump_destination d user address) as (d & Heq & Hd') by eauto.
      destruct Hd' as [address' Hno|user' address' Hune Hane Hu' Ha']; [set_solver|].
      assert (split_once at_sign (u ++ at_sign :: a) = Some (u, a)) as Hs1 by by apply split_once_some.
      assert (split_once at_sign (u ++ at_sign :: a) = Some (user', address')) as Hs2 by (rewrite <- Heq; by apply split_once_some).
      rewrite Hs1 in Hs2. injection Hs2 as -> ->. apply count_char_0 in Ha'. rewrite Ha'. change (1 <? 0 + (1 + 0)) with false.
      cbn [bail_if]. step_bind. rewrite !bool_decide_eq_false_2 by done. done.
  - apply split_once_none in Hs. apply count_char_0 in Hs as H0. rewrite H0. change (1 <? 0) with false.
    cbn [bail_if]. rewrite bind_of_ok. split; [intros [= <- <-]; by constructor|].
    intros Hd. destruct Hd as [address Hno|u a]; [done|]. set_solver.
Qed.

Lemma contains_app s p t : contains (s ++ p ++ t) p = true.
Proof.
  induction s as [|c s IH]; cbn [app].
  - destruct (p ++ t) eqn:Heq; cbn [contains]; rewrite <- ?Heq, ?starts_with_app; [|done].
    apply app_eq_nil in Heq as [-> _]. done.
  - cbn [contains]. by rewrite IH, orb_true_r.
Qed.

Lemma jump_uri_ok spec destination :
  (match strip_prefix (lit "ssh://") spec with
   | Some uri =>
       bail_if (bool_decide (uri = [])) "ProxyJump SSH URI is missing a destination" ≫= λ _,
       bail_if (contains_char uri slash || contains_char uri question || contains_char uri hash)
         "ProxyJump SSH URI cannot contain a path, query, or fragment" ≫= λ _, Ok uri
   | None =>
       bail_if (contains spec (lit "://")) "ProxyJump URI must use the ssh:// scheme" ≫= λ _, Ok spec
   end : result str) = Ok destination ↔ jump_uri spec destination.
Proof.
  assert (Hscheme : ∀ uri, contains (scheme ++ uri) (lit "://") = true).
  { intros uri. apply (contains_app (lit "ssh") (lit "://") uri). }
  destruct (strip_prefix (lit "ssh://") spec) as [uri|] eqn:Hp.
  - apply strip_prefix_some in Hp as ->. fold scheme. split.
    + intros ([] & Hne%bail_if_ok & Hrest)%bind_ok. apply bind_ok in Hrest as ([] & Hc%bail_if_ok & <-%Ok_inj).
      to_prop. rewrite !contains_char_not in *. by constructor.
    + intros Hu. assert (∃ s, s = scheme ++ uri ∧ jump_uri s destination) as (s & Heq & Hu') by eauto.
      destruct Hu' as [spec Hno|destination Hne Hs Hq Hh]; [subst; by rewrite Hscheme in Hno|].
      apply app_inv_head in Heq as ->. rewrite bool_decide_eq_false_2 by done. cbn [bail_if]. step_bind.
      apply contains_char_not in Hs, Hq, Hh. by rewrite Hs, Hq, Hh.
  - rewrite bind_ok. setoid_rewrite bail_if_ok'. split.
    + intros (_ & Hno & <-%Ok_inj). by constructor.
    + intros Hu. destruct Hu as [spec Hno|destination Hne]; [by exists tt|].
      assert (strip_prefix (lit "ssh://") (scheme ++ destination) = Some destination) by by apply strip_prefix_some.
      congruence.
Qed.

Lemma parse_jump_destination_spec spec user address :
  parse_jump_destination spec = Ok (user, address) ↔
  ∃ destination, jump_uri spec destination ∧ jump_destination destination user address.
Proof.
  unfold parse_jump_destination. rewrite bind_ok. setoid_rewrite jump_uri_ok. setoid_rewrite destination_ok. done.
Qed.

(** *** Tokens *)
Definition safe_token (value : str) : Prop :=
  value ≠ [] ∧ head value ≠ Some 45 ∧
  Forall (λ c, is_whitespace c = false ∧ is_control c = false ∧ c ∉ SHELL_ACTIVE_TOKEN_CHARS) value.

Lemma existsb_unsafe value :
  existsb (λ c, is_whitespace c || is_control c || contains_char SHELL_ACTIVE_TOKEN_CHARS c) value = false ↔
  Forall (λ c, is_whitespace c = false ∧ is_control c = false ∧ c ∉ SHELL_ACTIVE_TOKEN_CHARS) value.
Proof.
  induction value as [|d t IH]; [by rewrite Forall_nil|].
  cbn [existsb]. rewrite !orb_false_iff, IH, Forall_cons, contains_char_not. tauto.
Qed.

Lemma safe_token_ok value : validate_untrusted_shell_token value = Ok tt ↔ safe_token value.
Proof.
  unfold validate_untrusted_shell_token, safe_token. rewrite bind_ok. setoid_rewrite bind_ok.
  setoid_rewrite bail_if_ok'. rewrite starts_with_one. setoid_rewrite bool_decide_eq_false.
  setoid_rewrite existsb_unsafe. naive_solver.
Qed.

(** ** The expanded configuration *)

Lemma lines_from_no_LF cur s : LF ∉ cur → Forall (λ l, LF ∉ l) (lines_from cur s).
Proof.
  assert (Hstrip : ∀ l, LF ∉ l → LF ∉ strip_cr l).
  { intros l Hl. unfold strip_cr. destruct (strip_suffix [CR] l) as [l'|] eqn:Hs; [|done].
    apply strip_suffix_some in Hs as ->. cbn [default from_option]. unfold id. set_solver. }
  revert cur. induction s as [|c s IH]; intros cur Hcur; cbn [lines_from].
  - destruct cur; repeat constructor. by rewrite elem_of_reverse.
  - destruct (Z.eqb_spec c LF); [constructor|]; [apply Hstrip; by rewrite elem_of_reverse|apply IH, not_elem_of_nil|].
    apply IH. rewrite not_elem_of_cons. by split.
Qed.

Section emits.
Context (sys : System) (russh_port : str → str → result Z) (home host : str).

Lemma emits_lines :
  (∀ active never path out, file_expands sys russh_port home host active never path out → Forall (λ l, LF ∉ l) out) ∧
  (∀ never active ls active' out, block_expands sys russh_port home host never active ls active' out →
     Forall (λ l, LF ∉ l) ls → Forall (λ l, LF ∉ l) out) ∧
  (∀ active never fs out, files_expand sys russh_port home host active never fs out → Forall (λ l, LF ∉ l) out).
Proof.
  apply expands_mutind; intros; rewrite ?Forall_app;
    try match goal with H : Forall _ (_ :: _) |- _ => apply Forall_cons in H as [? ?] end; auto.
  - match goal with H : _ → Forall _ out |- _ => apply H end. by apply lines_from_no_LF, not_elem_of_nil.
  - split; [|auto]. destruct active; [by apply Forall_singleton|constructor].
Qed.
End emits.

Lemma trim_start_snoc s c : trim_start s ≠ [] → trim_start (s ++ [c]) = trim_start s ++ [c].
Proof.
  unfold trim_start. induction s as [|d s IH]; [done|]. cbn [app drop_while]. destruct (is_whitespace d); [apply IH|done].
Qed.

Lemma trim_start_blank s c : trim_start s = [] → is_whitespace c = true → trim_start (s ++ [c]) = [].
Proof.
  unfold trim_start. intros Hs Hc. induction s as [|d s IH]; cbn [app drop_while] in *; [by rewrite Hc|].
  destruct (is_whitespace d); [by apply IH|done].
Qed.

Lemma take_while_snoc p s c : p c = false → take_while p (s ++ [c]) = take_while p s.
Proof. intros Hc. induction s as [|d s IH]; cbn [app take_while]; [by rewrite Hc|]. by rewrite IH. Qed.

(** A carriage return at the end of a line says nothing of its directive. *)
Lemma directive_key_cr line : directive_key (strip_cr line) = directive_key line.
Proof.
  unfold strip_cr. destruct (strip_suffix [CR] line) as [l|] eqn:Hs; [|done].
  apply strip_suffix_some in Hs as ->. cbn [default from_option]. unfold id, directive_key.
  destruct (decide (trim_start l = [])) as [Hl|Hl].
  { rewrite Hl, trim_start_blank by done. done. }
  rewrite trim_start_snoc, !starts_with_one by done. rewrite !(bool_decide_eq_false_2 (_ = [])) by (done || by destruct (trim_start l)).
  rewrite take_while_snoc by done. by destruct (trim_start l).
Qed.

Lemma reject_option_line line : option_line line ∨ line = host_all → reject_structural_line (strip_cr line) = Ok tt.
Proof.
  unfold reject_structural_line. rewrite directive_key_cr. intros [Hopt| ->]; [|by vm_compute].
  unfold option_line, directive_of in Hopt. destruct (directive_key line) as [key|]; [|done].
  destruct (eq_ignore_ascii_case key (lit "include")); [by destruct Hopt|].
  destruct (eq_ignore_ascii_case key (lit "host")); [by destruct Hopt|].
  by destruct (eq_ignore_ascii_case key (lit "match")); [destruct Hopt|].
Qed.

(** The text that is read is a block for every host, of option lines. *)
Lemma expanded_lines sys russh_port root home host text :
  expand_user_config sys russh_port root home host = Ok text →
  ∃ out, file_expands sys russh_port home host true false root out ∧ text = unlines (host_all :: out) ∧
    Forall option_line out ∧ Forall (λ l, LF ∉ l) out ∧ str_len text ≤ MAX_CONFIG_BYTES.
Proof.
  unfold expand_user_config. destruct (expand_connection_file _ _ _ _ _ _ _ _ _ _) as [r s'] eqn:Hrun.
  intros (contents & -> & Hpush)%bind_ok.
  assert (Hlimits : within_limits new_expansion) by (split; cbn; vm_compute; intuition discriminate).
  destruct (connection_yields _ _ _ _ _ _ _ _ _ _ _ _ Hlimits Hrun) as (_ & _ & out & Hfile & -> & _).
  apply push_text_ok in Hpush as [-> Hlen]. exists out. split_and!; [done| | | |done].
  - by rewrite <- app_assoc.
  - by eapply (proj1 (emits_options sys russh_port home host)).
  - by eapply (proj1 (emits_lines sys russh_port home host)).
Qed.

Lemma lines_unlines_cr ls : Forall (λ l, LF ∉ l) ls → lines (unlines ls) = strip_cr <$> ls.
Proof.
  unfold lines, unlines. induction 1 as [|l ls Hl _ IH]; [done|]. cbn [fmap list_fmap concat].
  rewrite <- app_assoc. cbn [app]. rewrite lines_from_app by done. by rewrite IH.
Qed.

Lemma expanded_not_rejected sys russh_port root home host text :
  expand_user_config sys russh_port root home host = Ok text → reject_unsupported_structural_directives text = Ok tt.
Proof.
  intros (out & _ & -> & Hopt & Hlf & _)%expanded_lines. unfold reject_unsupported_structural_directives.
  rewrite lines_unlines_cr by (constructor; [decide_now|done]). apply for_each_ok, Forall_fmap, Forall_cons. split.
  - apply reject_option_line. by right.
  - apply (Forall_impl _ _ _ Hopt). intros line Hline. apply reject_option_line. by left.
Qed.

(** ** Whole configurations *)
Lemma clean_app s t : clean (s ++ t) ↔ clean s ∧ clean t.
Proof. apply Forall_app. Qed.

Lemma jump_uri_clean spec destination : jump_uri spec destination → clean spec → clean destination.
Proof. intros []; [done|]. by intros [_ ?]%clean_app. Qed.

Lemma jump_destination_clean destination user address :
  jump_destination destination user address → clean destination → clean address.
Proof. intros []; [done|]. by intros [_ [_ ?]%Forall_cons]%clean_app. Qed.

Section resolution.
Context (sys : System) (home_var : option str) (metadata : str → io_result unit).
Context (russh_parse : str → str → result RusshConfig) (russh_default : str → RusshConfig).
Abbreviation home_config := (parse_home_config sys home_var metadata russh_parse russh_default).
Abbreviation hop_of := (resolve_jump_host sys home_var metadata russh_parse russh_default).
Abbreviation chain_of := (resolve_jump_hosts_internal sys home_var metadata russh_parse russh_default).

(** Where the configuration of an alias comes from. *)
Definition home_config_reads (alias : str) (parsed : RusshConfig) : Prop :=
  match openssh_config_path home_var with
  | None => parsed = russh_default alias
  | Some path =>
      ∃ home, (ssh_dir ← path_parent path; path_parent ssh_dir) = Some home ∧
      match metadata path with
      | NotFound => parsed = russh_default alias
      | IoErr _ => False
      | IoOk _ =>
          ∃ out, file_expands sys (russh_port russh_parse) home alias true false path out ∧
            Forall option_line out ∧ str_len (unlines (host_all :: out)) ≤ MAX_CONFIG_BYTES ∧
            expand_user_config sys (russh_port russh_parse) path home alias = Ok (unlines (host_all :: out)) ∧
            russh_parse (unlines (host_all :: out)) alias = Ok parsed
      end
  end.

Lemma home_config_spec alias parsed : home_config alias = Ok parsed ↔ home_config_reads alias parsed.
Proof.
  unfold parse_home_config, home_config_reads. destruct (openssh_config_path home_var) as [path|]; [|naive_solver].
  rewrite bind_ok. setoid_rewrite with_context_ok. apply exist_proper. intros home.
  destruct (metadata path) as [| |e]; [|naive_solver|split; [intros [_ H]; discriminate H|tauto]].
  rewrite bind_ok. unfold parse_openssh_contents. split.
  - intros [Hhome (contents & Hexp & ([] & _ & Hparse)%bind_ok)]. split; [done|].
    destruct (expanded_lines _ _ _ _ _ _ Hexp) as (out & ? & -> & ? & _ & ?). by exists out.
  - intros [Hhome (out & _ & _ & _ & Hexp & Hparse)]. split; [done|]. exists (unlines (host_all :: out)).
    split; [done|]. by rewrite (expanded_not_rejected _ _ _ _ _ _ Hexp).
Qed.

(** A hop is its destination, over what the configuration says of its alias. *)
Definition hop_denotes (untrusted : bool) (spec : str) (hop : JumpHost) : Prop :=
  clean spec ∧ ∃ destination user address port parsed,
    jump_uri spec destination ∧ jump_destination destination user address ∧ jump_address address (jh_alias hop) port ∧
    (untrusted = true → safe_token (jh_alias hop) ∧ ∀ u, user = Some u → safe_token u) ∧
    home_config (jh_alias hop) = Ok parsed ∧
    hop = mk_jump (jh_alias hop) (r_host parsed) (default (r_port parsed) port) (default (r_user parsed) user)
            (default [] (r_identity_file parsed)) (host_key_policy_from_config (r_strict_host_key_checking parsed))
            (r_user_known_hosts_file parsed).

Lemma hop_ok untrusted spec hop : hop_of untrusted spec = Ok hop ↔ hop_denotes untrusted spec hop.
Proof.
  unfold resolve_jump_host, hop_denotes. split.
  - intros ([] & Hc%bail_if_ok%existsb_clean & ([user address] & Hd & Hrest)%bind_ok)%bind_ok.
    apply parse_jump_destination_spec in Hd as (destination & Huri & Hd).
    apply bind_ok in Hrest as ([alias port] & [_ Ha]%parse_host_port_spec & Hrest).
    apply bind_ok in Hrest as ([] & Hsafe & (parsed & Hparsed & <-%Ok_inj)%bind_ok). split; [done|].
    exists destination, user, address, port, parsed. cbn [jh_alias]. split_and!; try done.
    intros ->. apply bind_ok in Hsafe as ([] & Hs%safe_token_ok & Hu). split; [done|].
    intros u ->. by apply safe_token_ok.
  - intros (Hc & destination & user & address & port & parsed & Huri & Hd & Ha & Hsafe & Hparsed & Hhop).
    rewrite (proj2 (existsb_clean spec)) by done. cbn [bail_if]. step_bind.
    rewrite (proj2 (parse_jump_destination_spec spec user address)) by eauto. step_bind.
    assert (clean address) as Hca by eauto using jump_uri_clean, jump_destination_clean.
    rewrite (proj2 (parse_host_port_spec address (jh_alias hop) port)) by done. step_bind.
    assert ((if untrusted then validate_untrusted_shell_token (jh_alias hop) ≫= λ _,
      match user with Some username => validate_untrusted_shell_token username | None => Ok tt end else Ok tt) = Ok tt) as ->.
    { destruct untrusted; [|done]. destruct (Hsafe eq_refl) as [Hs Hu]. apply safe_token_ok in Hs as ->. step_bind.
      destruct user; [|done]. by apply safe_token_ok, Hu. }
    step_bind. rewrite Hparsed. step_bind. by f_equal.
Qed.

Definition is_none (s : str) : Prop := to_ascii_lowercase s = lit "none".
Definition hop_texts (spec : str) : list str := trim <$> split comma (trim spec).

(** A chain: disabled, or at most eight hops in order. *)
Definition chain_resolves (untrusted : bool) (spec : str) (hops : list JumpHost) : Prop :=
  (trim spec = [] ∨ is_none (trim spec)) ∧ hops = [] ∨
  trim spec ≠ [] ∧ Forall (λ t, t ≠ [] ∧ ¬ is_none t) (hop_texts spec) ∧ ¬ is_none (trim spec) ∧
    zlen hops ≤ MAX_JUMP_HOPS ∧ Forall2 (hop_denotes untrusted) (hop_texts spec) hops.

Lemma eq_none s : eq_ignore_ascii_case s (lit "none") = true ↔ is_none s.
Proof. unfold eq_ignore_ascii_case. apply bool_decide_eq_true. Qed.

Lemma existsb_none (p : str → bool) (P : str → Prop) l :
  (∀ s, p s = true ↔ P s) → existsb p l = false ↔ Forall (λ s, ¬ P s) l.
Proof.
  intros Hp. induction l as [|s l IH]; cbn [existsb]; [by rewrite Forall_nil|].
  rewrite orb_false_iff, IH, Forall_cons, <- Hp, not_true_iff_false. done.
Qed.

Lemma chain_ok untrusted spec hops : chain_of spec untrusted = Ok hops ↔ chain_resolves untrusted spec hops.
Proof.
  unfold resolve_jump_hosts_internal, chain_resolves. fold (hop_texts spec).
  destruct (bool_decide (trim spec = []) || eq_ignore_ascii_case (trim spec) (lit "none")) eqn:Hoff.
  - apply orb_true_iff in Hoff as [Hoff%bool_decide_eq_true|Hoff%eq_none]; naive_solver.
  - apply orb_false_iff in Hoff as [Hne%bool_decide_eq_false Hnone].
    assert (¬ is_none (trim spec)) as Hn by (rewrite <- eq_none; congruence).
    rewrite bind_ok. setoid_rewrite bind_ok. setoid_rewrite bind_ok. setoid_rewrite bail_if_ok'. setoid_rewrite (try_fold_collect _ _ _ _ _ (hop_ok untrusted)).
    setoid_rewrite (existsb_none _ (λ s, s = []) _ (λ s, bool_decide_eq_true _)).
    setoid_rewrite (existsb_none _ is_none _ eq_none). setoid_rewrite Z.ltb_ge. split.
    + intros (_ & Hempty & _ & Hnones & _ & Hlen & more & -> & Hall). right.
      pose proof (Forall2_length _ _ _ Hall) as Hlen2. cbn [app]. split_and!; [done| |done|lia|done].
      apply Forall_and. done.
    + intros [[[?|?] _]|(_ & [Hempty Hnones]%Forall_and & _ & Hlen & Hall)]; [done..|].
      pose proof (Forall2_length _ _ _ Hall) as Hlen2.
      exists tt. split; [done|]. exists tt. split; [done|]. exists tt. split; [lia|]. by exists hops.
Qed.
End resolution.

(** ** Theorems *)

(** What [ConnectionConfig::from_openssh] makes of an alias. *)
Definition openssh_config sys home_var metadata russh_parse russh_default (alias : str) (user : option str)
    (port : option Z) (config : ConnectionConfig) : Prop :=
  safe_token alias ∧ (∀ u, user = Some u → safe_token u) ∧
  ∃ parsed hops,
    home_config_reads sys home_var metadata russh_parse russh_default alias parsed ∧
    match r_proxy_jump parsed with
    | None => hops = []
    | Some spec => chain_resolves sys home_var metadata russh_parse russh_default false spec hops
    end ∧
    config =
      mk_config alias (r_host parsed) (default (r_port parsed) port) (default (r_user parsed) user)
        (default [] (r_identity_file parsed)) (host_key_policy_from_config (r_strict_host_key_checking parsed))
        (r_user_known_hosts_file parsed) (Some 30) None 15 15 15 30
        (if bool_decide (hops = []) then r_proxy_command parsed else None) hops false.

(** The configuration of an alias is exact.  [from_openssh] accepts exactly an
    alias (and user name) that the shell would read as a plain token; what it reads
    is the configuration expanded for that alias as OpenSSH scopes it, of option
    lines only, so that the guard against [Match] and [Include] never refuses it;
    given users and ports win; and a ProxyJump chain, of at most eight hops, wins
    over a ProxyCommand. *)
Theorem from_openssh_exact sys home_var metadata russh_parse russh_default alias user port config :
  from_openssh sys home_var metadata russh_parse russh_default alias user port = Ok config ↔
  openssh_config sys home_var metadata russh_parse russh_default alias user port config.
Proof.
  unfold from_openssh, openssh_config. setoid_rewrite <- home_config_spec.
  assert (Huser : match user with Some username => validate_untrusted_shell_token username | None => Ok tt end = Ok tt ↔
    (∀ u, user = Some u → safe_token u)).
  { destruct user as [u|]; [rewrite safe_token_ok|]; naive_solver. }
  split.
  - intros ([] & Halias%safe_token_ok & ([] & Hu & (parsed & Hparsed & Hrest)%bind_ok)%bind_ok)%bind_ok.
    split; [done|]. split; [by apply Huser|]. exists parsed. destruct (r_proxy_jump parsed) as [spec|].
    + apply bind_ok in Hrest as (hops & Hhops%chain_ok & <-%Ok_inj). by exists hops.
    + apply Ok_inj in Hrest as <-. by exists [].
  - intros (Halias%safe_token_ok & Hu & parsed & hops & Hparsed & Hhops & ->).
    rewrite Halias. step_bind. rewrite (proj2 Huser) by done. step_bind. rewrite Hparsed. step_bind.
    destruct (r_proxy_jump parsed) as [spec|]; [|by subst].
    apply chain_ok in Hhops as ->. done.
Qed.

(** A jump chain is exact.  [resolve_jump_hosts] returns nothing for an empty
    text or [none], and otherwise exactly the hops that the text names between its
    commas, in order and at most eight: each a destination of the grammar (perhaps the
    scheme ssh, perhaps a user, a host, perhaps a port; IPv6 hosts in brackets when
    they have a port), its host and user plain shell tokens, completed by the configuration of
    its alias. *)
Theorem resolve_jump_hosts_exact sys home_var metadata russh_parse russh_default spec hops :
  resolve_jump_hosts sys home_var metadata russh_parse russh_default spec = Ok hops ↔
  chain_resolves sys home_var metadata russh_parse russh_default true spec hops.
Proof. apply chain_ok. Qed.

Module Examples.
Import IncludeScope.Examples.

Definition russh1 (text host : str) : result RusshConfig :=
  port ← russh0 text host;
  Ok (mk_russh host (lit "root") port None None (Some (lit "nc %h %p"))
        (if bool_decide (host = lit "prod") then Some (lit "ops@bastion:2200, ssh://[2001:db8::1]:2222") else None) None).
Definition russh_default1 (alias : str) : RusshConfig := mk_russh alias (lit "root") 22 None None None None None.
Definition metadata1 (path : str) : io_result unit := IoOk tt.
Definition connect1 (alias : str) : result ConnectionConfig :=
  from_openssh system0 (Some (lit "/h")) metadata1 russh1 russh_default1 alias None (Some 2022).

Example from_openssh_prod :
  connect1 (lit "prod") =
    Ok (mk_config (lit "prod") (lit "prod") 2022 (lit "root") [] AcceptNew None (Some 30) None 15 15 15 30 None
          [mk_jump (lit "bastion") (lit "bastion") 2200 (lit "ops") [] AcceptNew None;
           mk_jump (lit "2001:db8::1") (lit "2001:db8::1") 2222 (lit "root") [] AcceptNew None] false).
Proof. vm_compute. reflexivity. Qed.

Example from_openssh_dash : connect1 (lit "-oProxyCommand") = Err "token cannot begin with '-'".
Proof. by vm_compute. Qed.

(** Outside brackets a port is digits; inside them a plus sign passes. *)
Example signed_port_in_brackets :
  parse_host_port (lit "[::1]:+22") = Ok (lit "::1", Some 22) ∧ parse_host_port (lit "host:+22") = Err "invalid ProxyJump port".
Proof. by vm_compute. Qed.

Example ipv6_addresses :
  is_ipv6 (lit "::") = true ∧ is_ipv6 (lit "1:2:3:4:5:6:7:8") = true ∧ is_ipv6 (lit "::ffff:192.168.0.1") = true ∧
  is_ipv6 (lit "1:2:3:4:5:6:1.2.3.4") = true ∧ is_ipv6 (lit "fe80::1%eth0") = false ∧ is_ipv6 (lit "1:2:3") = false ∧
  is_ipv6 (lit "1::2::3") = false ∧ is_ipv6 (lit "12345::") = false ∧ is_ipv6 (lit "::1.2.3.04") = false.
Proof. by vm_compute. Qed.
End Examples.
