(* ===== verification/ProxyCommand.v ===== *)
(** * The ProxyCommand ([crates/kaduox-ssh-core/src/client.rs])

    The expansion of the tokens of a ProxyCommand, whose result is given to
    [sh -c], and what a shell reads in it. *)

From stdpp Require Import base list gmap strings numbers sorting.
From Stdlib Require Import Lia.
From S2P Require Import Prelude RustStr StrFacts RemotePath Glob IncludeEnv OpenSshMatch OpenSshInclude Targets ShellWords Config.

(** ** Definitions *)
Definition PROXY_EXPANSION_SAFE_PUNCTUATION : str := lit "._:@+-[]".

Definition proxy_value_char (c : char) : bool :=
  is_ascii_alphanumeric c || contains_char PROXY_EXPANSION_SAFE_PUNCTUATION c.

Definition validate_proxy_expansion_value (value : str) : result unit :=
  bail_if (bool_decide (value = [])) "ProxyCommand expansion value must not be empty" ≫= λ _,
  bail_if (negb (forallb proxy_value_char value))
    "refusing unsafe ProxyCommand expansion value outside the portable shell-token grammar".

(** The loop over the characters; two are taken at a percent sign. *)
Fixpoint expand_proxy_from (config : ConnectionConfig) (output template : str) : result str :=
  match template with
  | [] => Ok output
  | c :: template =>
      if negb (c =? percent) then expand_proxy_from config (output ++ [c]) template
      else
        match template with
        | [] => Ok (output ++ [percent])
        | d :: template =>
            if d =? percent then expand_proxy_from config (output ++ [percent]) template
            else if d =? ch "h" then
              validate_proxy_expansion_value (c_host config) ≫= λ _,
              expand_proxy_from config (output ++ c_host config) template
            else if d =? ch "p" then expand_proxy_from config (output ++ dec_of (c_port config)) template
            else if d =? ch "r" then
              validate_proxy_expansion_value (c_username config) ≫= λ _,
              expand_proxy_from config (output ++ c_username config) template
            else if d =? ch "n" then
              validate_proxy_expansion_value (c_alias config) ≫= λ _,
              expand_proxy_from config (output ++ c_alias config) template
            else expand_proxy_from config (output ++ [percent; d]) template
        end
  end.
Definition expand_proxy_command (template : str) (config : ConnectionConfig) : result str :=
  expand_proxy_from config [] template.

(** ** What a template says

    A template is text with holes.  The shell's reading of it is words with holes,
    each hole quoted or not as the text around it is. *)
Inductive hole := HostHole | PortHole | UserHole | AliasHole.
#[export] Instance hole_eq_dec : EqDecision hole.
Proof. solve_decision. Defined.

Definition hole_of (c : char) : option hole :=
  if c =? ch "h" then Some HostHole else if c =? ch "p" then Some PortHole
  else if c =? ch "r" then Some UserHole else if c =? ch "n" then Some AliasHole else None.

Definition hole_value (config : ConnectionConfig) (h : hole) : str :=
  match h with
  | HostHole => c_host config | PortHole => dec_of (c_port config)
  | UserHole => c_username config | AliasHole => c_alias config
  end.

Fixpoint template_symbols (template : str) : list (char + hole) :=
  match template with
  | [] => []
  | c :: template =>
      if negb (c =? percent) then inl c :: template_symbols template
      else
        match template with
        | [] => [inl percent]
        | d :: template =>
            if d =? percent then inl percent :: template_symbols template
            else match hole_of d with
                 | Some h => inr h :: template_symbols template
                 | None => inl percent :: inl d :: template_symbols template
                 end
        end
  end.

Definition symbol_text (config : ConnectionConfig) (s : char + hole) : str :=
  match s with inl c => [c] | inr h => hole_value config h end.
Definition symbols_text (config : ConnectionConfig) (ss : list (char + hole)) : str := concat (symbol_text config <$> ss).

(** The words of a template: [sh_lex] over symbols, a hole being a character that
    means nothing to the shell. *)
Abbreviation pattern := (list (bool * (char + hole))).
Inductive pattern_token := PatternWord (w : pattern) | PatternAndIf.

Definition pattern_flush (cur : option pattern) : list pattern_token :=
  match cur with Some w => [PatternWord w] | None => [] end.
Definition pattern_push (cur : option pattern) (quoted : bool) (s : char + hole) : option pattern :=
  Some (default [] cur ++ [(quoted, s)]).

(** The characters that make a word a pathname pattern: they mean something only after the words
    are read.  [word_special] is what means something before. *)
Definition pathname_pattern (c : char) : bool := existsb (Z.eqb c) (lit "[*?").
Definition word_special (c : char) : bool := shell_special c && negb (pathname_pattern c).

Section reading.
Context (special : char → bool).
(** [sh_lex] with another set of special characters; and the same over symbols. *)
Fixpoint sh_words_from (q : quoting) (cur : option word) (s : str) : option (list sh_token) :=
  match s with
  | [] => match q with Unquoted => Some (flush_word cur) | _ => None end
  | c :: s =>
      match q with
      | Single => if c =? single_quote then sh_words_from Unquoted cur s else sh_words_from Single (push_word_char cur true c) s
      | Double =>
          if c =? dquote then sh_words_from Unquoted cur s
          else if existsb (Z.eqb c) (lit "$`\") then None
          else sh_words_from Double (push_word_char cur true c) s
      | Unquoted =>
          if c =? single_quote then sh_words_from Single (Some (default [] cur)) s
          else if c =? dquote then sh_words_from Double (Some (default [] cur)) s
          else if blank c then app (flush_word cur) <$> sh_words_from Unquoted None s
          else if c =? ampersand then
            match s with
            | d :: s => if d =? ampersand then app (flush_word cur ++ [AndIf]) <$> sh_words_from Unquoted None s else None
            | [] => None
            end
          else if special c then None
          else sh_words_from Unquoted (push_word_char cur false c) s
      end
  end.

Fixpoint template_words_from (q : quoting) (cur : option pattern) (ss : list (char + hole)) : option (list pattern_token) :=
  match ss with
  | [] => match q with Unquoted => Some (pattern_flush cur) | _ => None end
  | inr h :: ss => template_words_from q (pattern_push cur (match q with Unquoted => false | _ => true end) (inr h)) ss
  | inl c :: ss =>
      match q with
      | Single => if c =? single_quote then template_words_from Unquoted cur ss else template_words_from Single (pattern_push cur true (inl c)) ss
      | Double =>
          if c =? dquote then template_words_from Unquoted cur ss
          else if existsb (Z.eqb c) (lit "$`\") then None
          else template_words_from Double (pattern_push cur true (inl c)) ss
      | Unquoted =>
          if c =? single_quote then template_words_from Single (Some (default [] cur)) ss
          else if c =? dquote then template_words_from Double (Some (default [] cur)) ss
          else if blank c then app (pattern_flush cur) <$> template_words_from Unquoted None ss
          else if c =? ampersand then
            match ss with
            | inl d :: ss =>
                if d =? ampersand then app (pattern_flush cur ++ [PatternAndIf]) <$> template_words_from Unquoted None ss else None
            | _ => None
            end
          else if special c then None
          else template_words_from Unquoted (pattern_push cur false (inl c)) ss
      end
  end.
End reading.
(** The words as they are read, before pathnames are expanded. *)
Definition sh_words_read (s : str) : option (list sh_token) := sh_words_from word_special Unquoted None s.
Definition template_words_read (ss : list (char + hole)) : option (list pattern_token) := template_words_from word_special Unquoted None ss.
(** The words of a line in which no pathname is expanded. *)
Definition template_lex (q : quoting) (cur : option pattern) (ss : list (char + hole)) : option (list pattern_token) :=
  template_words_from shell_special q cur ss.

Definition fill_piece (config : ConnectionConfig) (p : bool * (char + hole)) : word :=
  (λ c, (p.1, c)) <$> symbol_text config p.2.
Definition fill_word (config : ConnectionConfig) (w : pattern) : word := concat (fill_piece config <$> w).
Definition fill_token (config : ConnectionConfig) (t : pattern_token) : sh_token :=
  match t with PatternWord w => Word (fill_word config w) | PatternAndIf => AndIf end.

Definition fill (config : ConnectionConfig) (ts : list pattern_token) : list sh_token := fill_token config <$> ts.

(** ** Lemmas *)
Lemma proxy_value_ok value :
  validate_proxy_expansion_value value = Ok tt ↔ value ≠ [] ∧ Forall (λ c, proxy_value_char c = true) value.
Proof.
  unfold validate_proxy_expansion_value. case_bool_decide as Hne; cbn [bail_if]; [by split; [|intros [? _]]|].
  rewrite bind_of_ok, bail_if_ok, negb_false_iff, forallb_Forall. tauto.
Qed.

Lemma proxy_char_range c :
  proxy_value_char c = true → 43 ≤ c ≤ 58 ∨ 64 ≤ c ≤ 91 ∨ c = 93 ∨ c = 95 ∨ 97 ≤ c ≤ 122.
Proof.
  unfold proxy_value_char, contains_char. intros [H|(d & Hd & Heq%Z.eqb_eq)%existsb_exists]%orb_true_iff.
  - unfold is_ascii_alphanumeric, is_ascii_alphabetic, is_ascii_uppercase, is_ascii_lowercase, is_ascii_digit in H.
    rewrite !orb_true_iff, !andb_true_iff, !Z.leb_le in H. lia.
  - subst d. vm_compute in Hd. lia.
Qed.

(** A value that is read as itself wherever it stands. *)
Definition inert_char (special : char → bool) (c : char) : Prop :=
  special c = false ∧ c ≠ single_quote ∧ c ≠ dquote ∧ blank c = false ∧ c ≠ ampersand ∧ existsb (Z.eqb c) (lit "$`\") = false.
Definition inert_value (special : char → bool) (value : str) : Prop := value ≠ [] ∧ Forall (inert_char special) value.

Lemma not_among c ds : (∀ d, d ∈ ds → c ≠ d) → existsb (Z.eqb c) ds = false.
Proof. intros Hds. apply not_true_iff_false. intros (d & Hd%list_elem_of_In & Heq%Z.eqb_eq)%existsb_exists. by apply (Hds d). Qed.

Lemma proxy_char_inert c : proxy_value_char c = true → inert_char word_special c.
Proof.
  intros Hr%proxy_char_range. unfold inert_char, word_special, blank. change TAB with 9. change single_quote with 39. change dquote with 34.
  change ampersand with 38. split_and!; try lia.
  - destruct (pathname_pattern c) eqn:Hp; [apply andb_false_r|]. rewrite andb_true_r. unfold shell_special, blank.
    assert (c ≠ 91) as Hb by (intros ->; by vm_compute in Hp). change TAB with 9. rewrite not_among; [zdecide; done|].
    intros d Hd%list_elem_of_In. vm_compute in Hd. lia.
  - apply not_among. intros d Hd%list_elem_of_In. vm_compute in Hd. lia.
Qed.
Lemma plain_char_inert c : proxy_value_char c = true → c ≠ open_bracket → inert_char shell_special c.
Proof.
  intros Hc Hb. destruct (proxy_char_inert c Hc) as (Hw & Hrest). split; [|done]. unfold word_special in Hw.
  apply andb_false_iff in Hw as [Hw|Hw%negb_false_iff]; [done|]. apply proxy_char_range in Hc. change open_bracket with 91 in Hb.
  exfalso. revert Hw. unfold pathname_pattern. rewrite not_among; [done|]. intros d Hd%list_elem_of_In. vm_compute in Hd. lia.
Qed.

Definition quoted_in (q : quoting) : bool := match q with Unquoted => false | _ => true end.

(** With the shell's own special characters this is [sh_lex]. *)
Lemma sh_words_lex q cur s : sh_words_from shell_special q cur s = sh_lex q cur s.
Proof. reflexivity. Qed.

(** Wherever an inert value stands, its characters are read. *)
Lemma sh_words_inert special q cur value rest :
  inert_value special value →
  sh_words_from special q cur (value ++ rest) = sh_words_from special q (Some (default [] cur ++ ((λ c, (quoted_in q, c)) <$> value))) rest.
Proof.
  intros [Hne Hi]. revert cur Hne. induction Hi as [|c value (Hc & Hs & Hd & Hb & Ha & He) Hi IH]; intros cur Hne; [done|].
  assert (Hstep : sh_words_from special q cur ((c :: value) ++ rest) = sh_words_from special q (push_word_char cur (quoted_in q) c) (value ++ rest)).
  { apply Z.eqb_neq in Hs, Hd, Ha. destruct q; cbn [app sh_words_from quoted_in]; by rewrite ?Hs, ?Hd, ?Hb, ?Ha, ?Hc, ?He. }
  etrans; [exact Hstep|]. destruct value as [|d value]; [done|]. rewrite IH by done. unfold push_word_char.
  cbn [from_option fmap list_fmap]. unfold id. by rewrite <- app_assoc.
Qed.

Lemma fill_push config cur q s :
  Some (default [] (fill_word config <$> cur) ++ ((λ c, (q, c)) <$> symbol_text config s)) =
  fill_word config <$> pattern_push cur q s.
Proof.
  unfold pattern_push, fill_word. cbn [fmap option_fmap option_map]. f_equal. rewrite fmap_app, concat_app.
  cbn [fmap list_fmap concat]. rewrite app_nil_r. f_equal. by destruct cur.
Qed.

Lemma fill_push_char config cur q c :
  push_word_char (fill_word config <$> cur) q c = fill_word config <$> pattern_push cur q (inl c).
Proof. rewrite <- fill_push. done. Qed.

Lemma fill_flush config cur : flush_word (fill_word config <$> cur) = fill config (pattern_flush cur).
Proof. by destruct cur. Qed.

Lemma fill_start config cur : Some (default [] (fill_word config <$> cur)) = fill_word config <$> Some (default [] cur).
Proof. by destruct cur. Qed.

Definition holes_inert (special : char → bool) (config : ConnectionConfig) (ss : list (char + hole)) : Prop :=
  ∀ h, inr h ∈ ss → inert_value special (hole_value config h).

Lemma holes_inert_cons special config s ss :
  holes_inert special config (s :: ss) ↔ (∀ h, s = inr h → inert_value special (hole_value config h)) ∧ holes_inert special config ss.
Proof. unfold holes_inert. setoid_rewrite elem_of_cons. naive_solver. Qed.

Lemma fill_continue config ts (r : option (list pattern_token)) (s : option (list sh_token)) :
  s = fill config <$> r → app (fill config ts) <$> s = fill config <$> (app ts <$> r).
Proof. intros ->. destruct r; [|done]. cbn. unfold fill. by rewrite fmap_app. Qed.

(** The shell reads the filled template as the filled words of the template. *)
Lemma words_fill special config ss q cur :
  holes_inert special config ss →
  sh_words_from special q (fill_word config <$> cur) (symbols_text config ss) = fill config <$> template_words_from special q cur ss.
Proof.
  remember (length ss) as n eqn:Hn. revert ss q cur Hn. induction (lt_wf n) as [n _ IH]. intros ss q cur -> Hplain.
  destruct ss as [|[c|h] ss].
  - destruct q; cbn; [by destruct cur|done|done].
  - apply holes_inert_cons in Hplain as [_ Hplain]. unfold symbols_text. cbn [fmap list_fmap symbol_text concat app].
    assert (IH1 : ∀ q cur, sh_words_from special q (fill_word config <$> cur) (symbols_text config ss) =
      fill config <$> template_words_from special q cur ss).
    { intros q' cur'. by apply (IH (length ss)); [cbn; lia| |]. }
    destruct q; cbn [sh_words_from template_words_from].
    + destruct (c =? single_quote); [rewrite fill_start; apply IH1|].
      destruct (c =? dquote); [rewrite fill_start; apply IH1|].
      destruct (blank c). { rewrite fill_flush. apply fill_continue, (IH1 Unquoted None). }
      destruct (c =? ampersand).
      { destruct ss as [|[d|h] ss]; cbn [fmap list_fmap symbol_text concat app]; [done| |].
        - destruct (d =? ampersand); [|done]. rewrite fill_flush.
          change [AndIf] with (fill config [PatternAndIf]). unfold fill at 1 2. rewrite <- fmap_app. apply fill_continue.
          apply holes_inert_cons in Hplain as [_ Hplain]. by apply (IH (length ss)) with (cur := None); [cbn; lia| |].
        - apply holes_inert_cons in Hplain as [[Hne Hall]%(λ H, H h eq_refl) _].
          destruct (hole_value config h) as [|d v]; [done|]. cbn [app]. apply Forall_cons in Hall as [(_ & _ & _ & _ & Hd & _) _].
          apply Z.eqb_neq in Hd. by rewrite Hd. }
      destruct (special c); [done|]. rewrite fill_push_char. apply IH1.
    + destruct (c =? single_quote); [apply IH1|]. rewrite fill_push_char. apply IH1.
    + destruct (c =? dquote); [apply IH1|]. destruct (existsb (Z.eqb c) (lit "$`\")); [done|].
      rewrite fill_push_char. apply IH1.
  - apply holes_inert_cons in Hplain as [Hh Hplain]. specialize (Hh h eq_refl).
    unfold symbols_text. cbn [fmap list_fmap concat symbol_text]. rewrite sh_words_inert by done.
    pose proof (fill_push config cur (quoted_in q) (inr h)) as Hpush. cbn [symbol_text] in Hpush.
    etrans; [refine (f_equal (λ cur, sh_words_from special q cur _) _); exact Hpush|].
    cbn [template_words_from]. change (match q with Unquoted => false | _ => true end) with (quoted_in q).
    apply (IH (length ss)); [cbn; lia|done|done].
Qed.

(** *** The expansion *)
Lemma dec_of_chars n : 0 ≤ n → dec_of n ≠ [] ∧ Forall (λ c, proxy_value_char c = true ∧ c ≠ open_bracket) (dec_of n).
Proof.
  intros Hn. destruct (dec_of_spec n Hn) as (_ & Hd & Hne). split; [done|].
  apply (Forall_impl _ _ _ Hd). intros c Hc. unfold proxy_value_char, is_ascii_alphanumeric. rewrite Hc, orb_true_r.
  split; [done|]. unfold is_ascii_digit in Hc. apply andb_true_iff in Hc as [?%Z.leb_le ?%Z.leb_le].
  change open_bracket with 91. lia.
Qed.

Definition hole_valid (config : ConnectionConfig) (h : hole) : Prop :=
  h = PortHole ∨ validate_proxy_expansion_value (hole_value config h) = Ok tt.

Lemma symbols_text_cons config s ss : symbols_text config (s :: ss) = symbol_text config s ++ symbols_text config ss.
Proof. done. Qed.

(** The expansion succeeds exactly when the values of the holes are valid, and is
    the template with its holes filled. *)
Lemma expand_proxy_spec config output template :
  match expand_proxy_from config output template with
  | Ok out => (∀ h, inr h ∈ template_symbols template → hole_valid config h) ∧
              out = output ++ symbols_text config (template_symbols template)
  | Err _ => ∃ h, inr h ∈ template_symbols template ∧ ¬ hole_valid config h
  end.
Proof.
  remember (length template) as n eqn:Hn. revert template output Hn. induction (lt_wf n) as [n _ IH].
  intros template output ->.
  assert (Hcontinue : ∀ s template' output', (length template' < length template)%nat →
    (∀ h, s = inr h → hole_valid config h) → output' = output ++ symbol_text config s →
    match expand_proxy_from config output' template' with
    | Ok out => (∀ h, inr h ∈ s :: template_symbols template' → hole_valid config h) ∧
                out = output ++ symbols_text config (s :: template_symbols template')
    | Err _ => ∃ h, inr h ∈ s :: template_symbols template' ∧ ¬ hole_valid config h
    end).
  { intros s template' output' Hlen Hs ->. specialize (IH _ Hlen template' (output ++ symbol_text config s) eq_refl).
    rewrite symbols_text_cons, app_assoc. destruct (expand_proxy_from _ _ _) as [out|e].
    - destruct IH as [Hvalid ->]. split; [|done]. intros h [Heq|Hin]%elem_of_cons; [by apply Hs|by apply Hvalid].
    - destruct IH as (h & Hin & Hbad). exists h. split; [by right|done]. }
  destruct template as [|c template]; cbn [expand_proxy_from template_symbols].
  { split; [by intros h ?%elem_of_nil|]. unfold symbols_text. cbn. by rewrite app_nil_r. }
  destruct (c =? percent); cbn [negb]; [|by apply Hcontinue; [cbn; lia| |]].
  destruct template as [|d template].
  { split; [by intros h [?|?%elem_of_nil]%elem_of_cons|done]. }
  destruct (d =? percent); [by apply Hcontinue; [cbn; lia| |]|].
  assert (Hhole : ∀ h, match validate_proxy_expansion_value (hole_value config h) ≫= λ _,
                         expand_proxy_from config (output ++ hole_value config h) template with
    | Ok out => (∀ h', inr h' ∈ inr h :: template_symbols template → hole_valid config h') ∧
                out = output ++ symbols_text config (inr h :: template_symbols template)
    | Err _ => ∃ h', inr h' ∈ inr h :: template_symbols template ∧ (h = PortHole ∨ ¬ hole_valid config h')
    end).
  { intros h. destruct (validate_proxy_expansion_value (hole_value config h)) as [[]|e] eqn:Hv.
    - rewrite bind_of_ok. cbv beta.
      assert (Hh : ∀ h', (inr h : char + hole) = inr h' → hole_valid config h') by (intros h' [= <-]; by right).
      pose proof (Hcontinue (inr h) template (output ++ hole_value config h) ltac:(cbn; lia) Hh eq_refl) as H.
      destruct (expand_proxy_from _ _ _); [done|]. destruct H as (h' & ? & ?). exists h'. auto.
    - exists h. split; [by left|]. destruct (decide (h = PortHole)); [by left|]. right. intros [->|Hv']; [done|].
      rewrite Hv' in Hv. discriminate Hv. }
  unfold hole_of.
  destruct (d =? ch "h"). { pose proof (Hhole HostHole) as H. cbn [hole_value] in H.
    destruct (mbind _ _); [done|]. destruct H as (h' & ? & [|]); [done|by exists h']. }
  destruct (d =? ch "p"). { apply (Hcontinue (@inr char hole PortHole)); [cbn; lia|intros h [= <-]; by left|done]. }
  destruct (d =? ch "r"). { pose proof (Hhole UserHole) as H. cbn [hole_value] in H.
    destruct (mbind _ _); [done|]. destruct H as (h' & ? & [|]); [done|by exists h']. }
  destruct (d =? ch "n"). { pose proof (Hhole AliasHole) as H. cbn [hole_value] in H.
    destruct (mbind _ _); [done|]. destruct H as (h' & ? & [|]); [done|by exists h']. }
  specialize (IH (length template) ltac:(cbn; lia) template (output ++ [percent; d]) eq_refl).
  destruct (expand_proxy_from _ _ _) as [out|e].
  - destruct IH as [Hvalid ->]. split.
    + intros h [?|[?|Hin]%elem_of_cons]%elem_of_cons; [done|done|by apply Hvalid].
    + rewrite !symbols_text_cons, <- !app_assoc. done.
  - destruct IH as (h & Hin & Hbad). exists h. split; [by do 2 right|done].
Qed.

(** ** Theorems *)

(** C36: nothing in the settings of a connection can change the words of a ProxyCommand.
    A template is text with holes for the host, port, user and alias.  Its expansion
    exists exactly when the values of its holes are valid.  The shell then reads in
    it, before it expands pathnames, the words and the [&&] of the template itself, each hole
    being read as the characters of its value, inside its word and quoted as the template quotes
    it; and it refuses the expansion exactly when it refuses the template.  Only a value that
    holds an opening bracket can make of its word a pathname pattern: when none does, the words
    are also what the shell reads in all. *)
Theorem proxy_command_not_injectable template config :
  0 ≤ c_port config →
  let holes := template_symbols template in
  (is_ok (expand_proxy_command template config) = true ↔ ∀ h, inr h ∈ holes → hole_valid config h) ∧
  ∀ command, expand_proxy_command template config = Ok command →
    sh_words_read command = fill config <$> template_words_read holes ∧
    ((∀ h, inr h ∈ holes → open_bracket ∉ hole_value config h) →
     sh_lex Unquoted None command = fill config <$> template_lex Unquoted None holes).
Proof.
  intros Hport holes. unfold expand_proxy_command. pose proof (expand_proxy_spec config [] template) as Hspec.
  fold holes in Hspec. destruct (expand_proxy_from config [] template) as [out|e]; cbn [is_ok].
  - destruct Hspec as [Hvalid Hout]. split; [done|]. intros command <-%Ok_inj. rewrite Hout.
    assert (∀ h, inr h ∈ holes → hole_value config h ≠ [] ∧ Forall (λ c, proxy_value_char c = true) (hole_value config h)) as Hchars.
    { intros h Hin. destruct (Hvalid h Hin) as [->|Hv%proxy_value_ok]; [|done]. destruct (dec_of_chars _ Hport) as [Hne Hall].
      split; [done|]. apply (Forall_impl _ _ _ Hall). by intros c []. }
    split.
    + apply (words_fill word_special config holes Unquoted None). intros h Hin. destruct (Hchars h Hin) as [Hne Hall]. split; [done|].
      apply (Forall_impl _ _ _ Hall). apply proxy_char_inert.
    + intros Hplain. rewrite <-sh_words_lex. apply (words_fill shell_special config holes Unquoted None). intros h Hin.
      destruct (Hchars h Hin) as [Hne Hall]. split; [done|]. rewrite Forall_forall in Hall |- *. intros c Hc.
      apply plain_char_inert; [by apply Hall|]. intros ->. by apply (Hplain h Hin).
  - destruct Hspec as (h & Hin & Hbad). split; [|intros command H; discriminate H].
    split; [intros H; discriminate H|]. intros H. destruct (Hbad (H h Hin)).
Qed.

Module Examples.
Definition config0 : ConnectionConfig :=
  mk_config (lit "db1") (lit "db1.example") 2222 (lit "deploy") [] AcceptNew None None None 15 15 15 30 None [] false.
Definition template0 : str := lit "test -n '%r' && nc -x proxy:%p %h 100%%".

Lemma proxy_command_not_injectable_witness :
  expand_proxy_command template0 config0 = Ok (lit "test -n 'deploy' && nc -x proxy:2222 db1.example 100%") ∧
  (sh_lex Unquoted None (lit "test -n 'deploy' && nc -x proxy:2222 db1.example 100%") ≫= read_list []) =
    Some [mk_command [] [lit "test"; lit "-n"; lit "deploy"];
          mk_command [] [lit "nc"; lit "-x"; lit "proxy:2222"; lit "db1.example"; lit "100%"]].
Proof.
  assert (0 ≤ c_port config0) as Hport by by vm_compute.
  assert (expand_proxy_command template0 config0 = Ok (lit "test -n 'deploy' && nc -x proxy:2222 db1.example 100%"))
    as Hok by by vm_compute.
  split; [exact Hok|].
  destruct (proxy_command_not_injectable template0 config0 Hport) as [_ Hread].
  destruct (Hread _ Hok) as [_ Hlex]. rewrite Hlex.
  - by vm_compute.
  - intros h _. destruct h; decide_now.
Defined.

(** A bracket is accepted: outside quotes such a host is one word, but a pathname pattern. *)
Example bracket_is_a_pattern :
  match expand_proxy_command (lit "nc %h")
    (mk_config (lit "a") (lit "[ab]") 22 (lit "u") [] AcceptNew None None None 15 15 15 30 None [] false) with
  | Ok command =>
      sh_words_read command = Some [Word (unquoted (lit "nc")); Word (unquoted (lit "[ab]"))] ∧ sh_lex Unquoted None command = None
  | Err _ => False
  end.
Proof. by vm_compute. Qed.

(** A value that would end its word, or its quotes, is refused. *)
Example quote_in_host_refused :
  expand_proxy_command (lit "nc %h %p") (mk_config (lit "a") (lit "a;id") 22 (lit "u") [] AcceptNew None None None 15 15 15 30 None [] false)
  = Err "refusing unsafe ProxyCommand expansion value outside the portable shell-token grammar".
Proof. by vm_compute. Qed.
End Examples.
