(* ===== verification/Resolver.v ===== *)
(** * Resolution and import ([crates/kaduox-ssh-hosts/src/resolver.rs], [import.rs];
      [discover_openssh_hosts] of [crates/kaduox-ssh-openssh/src/host_catalog.rs])

    From the host library to the settings of a connection: a host with its jump
    chain, over the OpenSSH configuration of its alias; and the import of the
    OpenSSH hosts into the library. *)

From stdpp Require Import base list gmap strings numbers sorting.
From Stdlib Require Import Lia.
From S2P Require Import Prelude RustStr StrFacts HostModel HostStore OpenSshInclude Targets Config ConfigProof.

(** ** Definitions *)
Inductive ResolutionSource := HostLibrary | OpenSsh.
#[export] Instance resolution_source_eq_dec : EqDecision ResolutionSource.
Proof. solve_decision. Defined.

Record ResolvedHost := mk_resolved { rh_source : ResolutionSource; rh_config : ConnectionConfig }.
#[export] Instance resolved_host_eq_dec : EqDecision ResolvedHost.
Proof. solve_decision. Defined.

Definition map_host_key_policy (policy : StoredHostKeyPolicy) : HostKeyPolicy :=
  match policy with PolicyStrict => Strict | PolicyAcceptNew => AcceptNew | PolicyInsecure => Insecure end.

Definition stored_policy (policy : HostKeyPolicy) : StoredHostKeyPolicy :=
  match policy with Strict => PolicyStrict | AcceptNew => PolicyAcceptNew | Insecure => PolicyInsecure end.

Definition jump_from_inline (jump : InlineJump) : JumpHost :=
  mk_jump (ij_alias jump) (ij_host jump) (ij_port jump) (ij_user jump)
    (match ij_identity_file jump with Some path => [path] | None => [] end)
    (map_host_key_policy (ij_host_key_policy jump)) None.

Definition overlay_record (config : ConnectionConfig) (record : HostRecord) (user_override : option str)
    (port_override : option Z) : ConnectionConfig :=
  mk_config (hr_alias record) (hr_address record) (default (hr_port record) port_override)
    (default (hr_user record) user_override)
    (match hr_identity_file record with Some path => [path] | None => c_identity_files config end)
    (map_host_key_policy (hr_host_key_policy record)) (c_known_hosts_file config) (c_keepalive_interval config)
    (c_inactivity_timeout config) (c_connect_timeout config) (c_channel_open_timeout config)
    (c_channel_request_timeout config) (c_authentication_timeout config) (c_proxy_command config)
    (c_jump_hosts config) (c_agent_forwarding config).

Definition portable_byte (byte : Z) : bool :=
  is_ascii_alphanumeric byte || existsb (Z.eqb byte) (lit "._-:").

(** [format!("{base}-{suffix}")] for the suffixes from [suffix] on. *)
Fixpoint first_free_name (store : HostStore) (base : str) (fuel : nat) (suffix : Z) : str :=
  match fuel with
  | O => base ++ lit "-exhausted"
  | S fuel =>
      let candidate := base ++ lit "-" ++ dec_of suffix in
      if bool_decide (store_chain store candidate = None) then candidate
      else first_free_name store base fuel (suffix + 1)
  end.

Definition unique_chain_name (store : HostStore) (alias : str) : str :=
  let normalized := (λ byte, if portable_byte byte then byte else ch "-") <$> utf8 alias in
  let normalized := take 96 normalized in
  let base := lit "openssh-" ++ normalized ++ lit "-jump" in
  if bool_decide (store_chain store base = None) then base else first_free_name store base 9999 2.

Record ImportReport := mk_report {
  imported_hosts : Z;
  skipped_existing : Z;
  skipped_unsupported_alias : Z;
  created_chains : Z;
  (* of each warning, the alias it names *)
  warnings : list str;
}.

Section resolver.
Context (sys : System) (home_var : option str) (metadata : str → io_result unit).
Context (russh_parse : str → str → result RusshConfig) (russh_default : str → RusshConfig).
Context {unicode : UnicodeTables}.
Abbreviation from_openssh' := (from_openssh sys home_var metadata russh_parse russh_default).

Definition record_fallback (record : HostRecord) : result ConnectionConfig :=
  if is_ok (validate_name (hr_alias record)) then from_openssh' (hr_alias record) None None
  else Ok (config_new (hr_address record) (hr_user record)).

Definition jump_from_host_record (record : HostRecord) : result JumpHost :=
  record_fallback record ≫= λ fallback,
  Ok (mk_jump (hr_alias record) (hr_address record) (hr_port record) (hr_user record)
        (match hr_identity_file record with Some path => [path] | None => c_identity_files fallback end)
        (map_host_key_policy (hr_host_key_policy record)) (c_known_hosts_file fallback)).

Definition jump_from_openssh_alias (alias : str) : result JumpHost :=
  from_openssh' alias None None ≫= λ config,
  bail_if (negb (bool_decide (c_jump_hosts config = [])) || bool_decide (is_Some (c_proxy_command config)))
    "nested jump routing is rejected" ≫= λ _,
  Ok (mk_jump alias (c_host config) (c_port config) (c_username config) (c_identity_files config)
        (c_host_key_policy config) (c_known_hosts_file config)).

(** One hop of the loop. *)
Definition resolve_hop (database : HostDatabase) (target_alias : str) (hop : JumpHop) : result JumpHost :=
  match hop with
  | HopHost alias =>
      bail_if (bool_decide (alias = target_alias)) "routing loop" ≫= λ _,
      with_context (db_hosts database !! alias) "jump chain references missing host-library alias" ≫= λ record,
      jump_from_host_record record
  | HopOpenSshAlias alias =>
      bail_if (bool_decide (alias = target_alias)) "routing loop" ≫= λ _, jump_from_openssh_alias alias
  | HopInline jump =>
      bail_if (bool_decide (ij_alias jump = target_alias)) "routing loop" ≫= λ _, Ok (jump_from_inline jump)
  end.

Definition resolve_chain (database : HostDatabase) (target_alias chain_name : str) : result (list JumpHost) :=
  db_validate database ≫= λ _,
  with_context (db_chains database !! chain_name) "jump chain does not exist" ≫= λ chain,
  bail_if (MAX_CHAIN_HOPS <? zlen (jc_hops chain)) "jump chain contains too many hops" ≫= λ _,
  try_fold (λ resolved hop, resolve_hop database target_alias hop ≫= λ jump, Ok (resolved ++ [jump])) [] (jc_hops chain).

Definition resolve_host (database : HostDatabase) (alias : str) (user_override : option str)
    (port_override : option Z) : result ResolvedHost :=
  db_validate database ≫= λ _,
  match db_hosts database !! alias with
  | None =>
      from_openssh' alias user_override port_override ≫= λ config, Ok (mk_resolved OpenSsh config)
  | Some record =>
      record_fallback record ≫= λ config,
      let config := overlay_record config record user_override port_override in
      match hr_jump_chain record with
      | Some chain_name =>
          resolve_chain database alias chain_name ≫= λ jump_hosts,
          Ok (mk_resolved HostLibrary (set_route config None jump_hosts))
      | None => Ok (mk_resolved HostLibrary config)
      end
  end.

(** *** Import *)
Definition discover_openssh_hosts : result OpenSshHostCatalog :=
  match openssh_config_path home_var with
  | None => Ok (mk_catalog None [] false)
  | Some path =>
      match metadata path with
      | NotFound => Ok (mk_catalog (Some path) [] false)
      | IoErr e => Err e
      | IoOk _ =>
          with_context (ssh_dir ← path_parent path; path_parent ssh_dir)
            "failed to resolve home directory from OpenSSH config path" ≫= λ home,
          expand_user_config_for_catalog sys path home ≫= λ contents,
          Ok (parse_host_catalog contents (Some path))
      end
  end.

(** The host of an alias, before its chain. *)
Definition imported_record (alias : str) (config : ConnectionConfig) (jump_chain : option str) : HostRecord :=
  let host := host_new alias (c_host config) (c_username config) in
  mk_host (hr_alias host) (hr_role host) (hr_address host) (c_port config) (hr_user host)
    (head (c_identity_files config)) (hr_groups host) (hr_tags host ++ [lit "openssh-import"]) (hr_note host)
    (stored_policy (c_host_key_policy config)) jump_chain (hr_os_type host) (hr_stats host).

Definition imported_chain (name : str) (config : ConnectionConfig) : JumpChain :=
  mk_chain name ((λ jump, HopOpenSshAlias (jh_alias jump)) <$> c_jump_hosts config).

(** The body of the loop over the aliases. *)
Definition import_alias (state : HostStore * ImportReport) (alias : str) : result (HostStore * ImportReport) :=
  let '(candidate, report) := state in
  if bool_decide (is_Some (store_host candidate alias)) then
    Ok (candidate, mk_report (imported_hosts report) (skipped_existing report + 1) (skipped_unsupported_alias report)
                     (created_chains report) (warnings report))
  else if negb (is_ok (validate_name alias)) then
    Ok (candidate, mk_report (imported_hosts report) (skipped_existing report) (skipped_unsupported_alias report + 1)
                     (created_chains report) (warnings report ++ [alias]))
  else
    from_openssh' alias None None ≫= λ config,
    (if bool_decide (c_jump_hosts config = []) then Ok (candidate, None, created_chains report)
     else
       let chain_name := unique_chain_name candidate alias in
       let '(r, candidate) := insert_chain (imported_chain chain_name config) candidate in
       r ≫= λ _, Ok (candidate, Some chain_name, created_chains report + 1)) ≫= λ '(candidate, jump_chain, created),
    let '(r, candidate) := insert_host (imported_record alias config jump_chain) candidate in
    r ≫= λ _,
    Ok (candidate, mk_report (imported_hosts report + 1) (skipped_existing report) (skipped_unsupported_alias report)
                     created (warnings report)).

Definition import_openssh : store_op ImportReport := λ store,
  let outcome :=
    discover_openssh_hosts ≫= λ catalog,
    bail_if (has_unsupported_structural_directives catalog)
      "Kaduox import refuses partial resolution" ≫= λ _,
    try_fold import_alias (store, mk_report 0 0 0 0 []) (aliases catalog) ≫= λ '(candidate, report),
    db_validate (store_db candidate) ≫= λ _, Ok (candidate, report) in
  match outcome with
  | Ok (candidate, report) => (Ok report, candidate)
  | Err e => (Err e, store)
  end.
End resolver.

(** ** Resolution *)
Lemma map_stored_policy policy : map_host_key_policy (stored_policy policy) = policy.
Proof. by destruct policy. Qed.

Section resolution.
Context (sys : System) (home_var : option str) (metadata : str → io_result unit).
Context (russh_parse : str → str → result RusshConfig) (russh_default : str → RusshConfig).
Context {unicode : UnicodeTables}.
Abbreviation from_openssh' := (from_openssh sys home_var metadata russh_parse russh_default).
Abbreviation resolve_hop' := (resolve_hop sys home_var metadata russh_parse russh_default).
Abbreviation resolve_chain' := (resolve_chain sys home_var metadata russh_parse russh_default).
Abbreviation record_fallback' := (record_fallback sys home_var metadata russh_parse russh_default).

(** The settings that a host of the library starts from: those of OpenSSH when its
    alias can be one of OpenSSH. *)
Definition starts_from (record : HostRecord) (config : ConnectionConfig) : Prop :=
  if decide (valid_name (hr_alias record)) then from_openssh' (hr_alias record) None None = Ok config
  else config = config_new (hr_address record) (hr_user record).

(** What the code makes of a hop of a chain. *)
Definition hop_made (database : HostDatabase) (target : str) (hop : JumpHop) (jump : JumpHost) : Prop :=
  display_name hop ≠ target ∧
  match hop with
  | HopHost alias => ∃ record fallback,
      db_hosts database !! alias = Some record ∧ starts_from record fallback ∧
      jump = mk_jump (hr_alias record) (hr_address record) (hr_port record) (hr_user record)
               (match hr_identity_file record with Some path => [path] | None => c_identity_files fallback end)
               (map_host_key_policy (hr_host_key_policy record)) (c_known_hosts_file fallback)
  | HopOpenSshAlias alias => ∃ config,
      from_openssh' alias None None = Ok config ∧ c_jump_hosts config = [] ∧ c_proxy_command config = None ∧
      jump = mk_jump alias (c_host config) (c_port config) (c_username config) (c_identity_files config)
               (c_host_key_policy config) (c_known_hosts_file config)
  | HopInline inline => jump = jump_from_inline inline
  end.

Lemma is_ok_name alias : is_ok (validate_name alias) = true ↔ valid_name alias.
Proof. rewrite <- validate_name_ok. destruct (validate_name alias) as [[]|]; [done|]. split; [done|intros H; discriminate H]. Qed.

Lemma fallback_ok record config : record_fallback' record = Ok config ↔ starts_from record config.
Proof.
  unfold record_fallback, starts_from. case_decide as Hv.
  - by rewrite (proj2 (is_ok_name _) Hv).
  - assert (is_ok (validate_name (hr_alias record)) = false) as ->
      by (apply not_true_iff_false; by rewrite is_ok_name). naive_solver.
Qed.

Lemma library_hop_ok database target hop jump :
  resolve_hop' database target hop = Ok jump ↔ hop_made database target hop jump.
Proof.
  unfold resolve_hop, hop_made. destruct hop as [alias|alias|inline]; cbn [display_name].
  - split.
    + intros ([] & Hne%bail_if_ok%bool_decide_eq_false & (record & Hr%with_context_ok & (fallback & Hf%fallback_ok & <-%Ok_inj)%bind_ok)%bind_ok)%bind_ok.
      split; [done|]. by exists record, fallback.
    + intros (Hne & record & fallback & Hr & Hf%fallback_ok & ->). rewrite bool_decide_eq_false_2 by done.
      cbn [bail_if]. step_bind. rewrite Hr.
      cbn [with_context]. step_bind. unfold jump_from_host_record. by rewrite Hf.
  - split.
    + intros ([] & Hne%bail_if_ok%bool_decide_eq_false & Hrest)%bind_ok. split; [done|].
      apply bind_ok in Hrest as (config & Hc & ([] & Hno%bail_if_ok & <-%Ok_inj)%bind_ok). exists config.
      apply orb_false_iff in Hno as [Hj%negb_false_iff%bool_decide_eq_true Hp%bool_decide_eq_false].
      split_and!; try done. by apply eq_None_not_Some.
    + intros (Hne & config & Hc & Hj & Hp & ->). rewrite bool_decide_eq_false_2 by done. cbn [bail_if]. step_bind.
      unfold jump_from_openssh_alias. rewrite Hc. step_bind.
      rewrite (bool_decide_eq_true_2 (c_jump_hosts config = [])) by done.
      rewrite (bool_decide_eq_false_2 (is_Some (c_proxy_command config))) by by apply eq_None_not_Some. done.
  - rewrite bind_ok. setoid_rewrite bail_if_ok'. setoid_rewrite bool_decide_eq_false. split.
    + intros ([] & Hne & <-%Ok_inj). done.
    + intros [Hne ->]. by exists tt.
Qed.

Lemma library_chain_ok database target name jumps :
  resolve_chain' database target name = Ok jumps ↔
  wf_database database ∧ ∃ chain, db_chains database !! name = Some chain ∧
    Forall2 (hop_made database target) (jc_hops chain) jumps.
Proof.
  unfold resolve_chain. rewrite bind_ok. split.
  - intros ([] & Hwf%db_validate_ok & (chain & Hc%with_context_ok & ([] & _ & Hfold)%bind_ok)%bind_ok). split; [done|].
    exists chain. split; [done|]. apply (try_fold_collect _ _ _ _ _ (library_hop_ok database target)) in Hfold as (more & -> & ?). done.
  - intros (Hwf & chain & Hc & Hall). exists tt. split; [by apply db_validate_ok|]. rewrite Hc. cbn [with_context]. step_bind.
    destruct (wf_chains _ Hwf _ _ Hc) as [_ Hchain]. pose proof (wf_chain_hops_max _ Hchain).
    assert ((MAX_CHAIN_HOPS <? zlen (jc_hops chain)) = false) as -> by (apply Z.ltb_ge; lia). cbn [bail_if]. step_bind.
    apply (try_fold_collect _ _ _ _ _ (library_hop_ok database target)). by exists jumps.
Qed.

(** What the code makes of an alias. *)
Definition resolution (database : HostDatabase) (alias : str) (user : option str) (port : option Z)
    (resolved : ResolvedHost) : Prop :=
  match db_hosts database !! alias with
  | None => rh_source resolved = OpenSsh ∧ from_openssh' alias user port = Ok (rh_config resolved)
  | Some record => ∃ fallback,
      starts_from record fallback ∧ rh_source resolved = HostLibrary ∧
      let config := overlay_record fallback record user port in
      match hr_jump_chain record with
      | None => rh_config resolved = config
      | Some name => ∃ chain jumps,
          db_chains database !! name = Some chain ∧ Forall2 (hop_made database alias) (jc_hops chain) jumps ∧
          rh_config resolved = set_route config None jumps
      end
  end.

Lemma resolve_host_spec database alias user port resolved :
  resolve_host sys home_var metadata russh_parse russh_default database alias user port = Ok resolved ↔
  wf_database database ∧ resolution database alias user port resolved.
Proof.
  unfold resolve_host, resolution. destruct resolved as [source config]. cbn [rh_source rh_config]. split.
  - intros ([] & Hwf%db_validate_ok & Hrest)%bind_ok. split; [done|].
    destruct (db_hosts database !! alias) as [record|].
    + apply bind_ok in Hrest as (fallback & Hf%fallback_ok & Hrest). exists fallback. split; [done|].
      destruct (hr_jump_chain record) as [name|]; [|by injection Hrest as <- <-].
      apply bind_ok in Hrest as (jumps & (_ & chain & Hc & Hall)%library_chain_ok & Hrest). injection Hrest as <- <-.
      split; [done|]. by exists chain, jumps.
    + apply bind_ok in Hrest as (c & Hc & Hrest). by injection Hrest as <- <-.
  - intros [Hwf Hrest]. pose proof Hwf as Hdb. apply db_validate_ok in Hdb as ->. step_bind.
    destruct (db_hosts database !! alias) as [record|].
    + destruct Hrest as (fallback & Hf%fallback_ok & -> & Hrest). rewrite Hf. step_bind.
      destruct (hr_jump_chain record) as [name|]; [|by subst].
      destruct Hrest as (chain & jumps & Hc & Hall & ->). rewrite (proj2 (library_chain_ok database alias name jumps)); [done|eauto].
    + destruct Hrest as [-> Hc]. by rewrite Hc.
Qed.

(** *** The settings, one by one *)
Definition same_policy (stored : StoredHostKeyPolicy) (policy : HostKeyPolicy) : Prop :=
  match stored, policy with
  | PolicyStrict, Strict | PolicyAcceptNew, AcceptNew | PolicyInsecure, Insecure => True
  | _, _ => False
  end.
(** The own key file, or else these. *)
Definition keys_are (own : option os_path) (otherwise files : list os_path) : Prop :=
  match own with Some path => files = [path] | None => files = otherwise end.

Record host_settings (record : HostRecord) (fallback : ConnectionConfig) (user : option str) (port : option Z) (config : ConnectionConfig) : Prop := {
  hs_alias : c_alias config = hr_alias record;
  hs_host : c_host config = hr_address record;
  hs_port : c_port config = match port with Some port => port | None => hr_port record end;
  hs_user : c_username config = match user with Some user => user | None => hr_user record end;
  hs_keys : keys_are (hr_identity_file record) (c_identity_files fallback) (c_identity_files config);
  hs_policy : same_policy (hr_host_key_policy record) (c_host_key_policy config);
  hs_known_hosts : c_known_hosts_file config = c_known_hosts_file fallback;
  hs_keepalive : c_keepalive_interval config = c_keepalive_interval fallback;
  hs_inactivity : c_inactivity_timeout config = c_inactivity_timeout fallback;
  hs_connect : c_connect_timeout config = c_connect_timeout fallback;
  hs_open : c_channel_open_timeout config = c_channel_open_timeout fallback;
  hs_request : c_channel_request_timeout config = c_channel_request_timeout fallback;
  hs_authentication : c_authentication_timeout config = c_authentication_timeout fallback;
  hs_agent : c_agent_forwarding config = c_agent_forwarding fallback;
}.

Record jump_settings (alias host : str) (port : Z) (user : str) (own : option os_path) (otherwise : list os_path)
    (policy : StoredHostKeyPolicy) (known_hosts : option os_path) (jump : JumpHost) : Prop := {
  js_alias : jh_alias jump = alias;
  js_host : jh_host jump = host;
  js_port : jh_port jump = port;
  js_user : jh_username jump = user;
  js_keys : keys_are own otherwise (jh_identity_files jump);
  js_policy : same_policy policy (jh_host_key_policy jump);
  js_known_hosts : jh_known_hosts_file jump = known_hosts;
}.

(** What a hop of a chain becomes. *)
Definition hop_becomes (database : HostDatabase) (target : str) (hop : JumpHop) (jump : JumpHost) : Prop :=
  display_name hop ≠ target ∧
  match hop with
  | HopHost alias => ∃ record fallback,
      db_hosts database !! alias = Some record ∧ starts_from record fallback ∧
      jump_settings (hr_alias record) (hr_address record) (hr_port record) (hr_user record) (hr_identity_file record)
        (c_identity_files fallback) (hr_host_key_policy record) (c_known_hosts_file fallback) jump
  | HopOpenSshAlias alias => ∃ config,
      from_openssh' alias None None = Ok config ∧ c_jump_hosts config = [] ∧ c_proxy_command config = None ∧
      jump = mk_jump alias (c_host config) (c_port config) (c_username config) (c_identity_files config)
               (c_host_key_policy config) (c_known_hosts_file config)
  | HopInline inline =>
      jump_settings (ij_alias inline) (ij_host inline) (ij_port inline) (ij_user inline) (ij_identity_file inline) []
        (ij_host_key_policy inline) None jump
  end.

(** The settings a valid library gives for an alias. *)
Definition resolves_to (database : HostDatabase) (alias : str) (user : option str) (port : option Z)
    (resolved : ResolvedHost) : Prop :=
  match db_hosts database !! alias with
  | None => rh_source resolved = OpenSsh ∧ from_openssh' alias user port = Ok (rh_config resolved)
  | Some record => ∃ fallback,
      starts_from record fallback ∧ rh_source resolved = HostLibrary ∧ host_settings record fallback user port (rh_config resolved) ∧
      match hr_jump_chain record with
      | None =>
          c_proxy_command (rh_config resolved) = c_proxy_command fallback ∧ c_jump_hosts (rh_config resolved) = c_jump_hosts fallback
      | Some name => ∃ chain,
          db_chains database !! name = Some chain ∧ c_proxy_command (rh_config resolved) = None ∧
          Forall2 (hop_becomes database alias) (jc_hops chain) (c_jump_hosts (rh_config resolved))
      end
  end.

Lemma same_policy_mapped stored policy : same_policy stored policy ↔ policy = map_host_key_policy stored.
Proof. destruct stored, policy; cbn; split; done. Qed.
Lemma keys_are_these own otherwise files : keys_are own otherwise files ↔ files = match own with Some path => [path] | None => otherwise end.
Proof. by destruct own. Qed.

Lemma jump_settings_these alias host port user own otherwise policy known_hosts jump :
  jump_settings alias host port user own otherwise policy known_hosts jump ↔
  jump = mk_jump alias host port user (match own with Some path => [path] | None => otherwise end) (map_host_key_policy policy) known_hosts.
Proof.
  split.
  - intros [<- <- <- <- Hk%keys_are_these Hp%same_policy_mapped <-]. rewrite <-Hp, <-Hk. by destruct jump.
  - intros ->. split; try done; [by apply keys_are_these|by apply same_policy_mapped].
Qed.
Lemma host_settings_these record fallback user port config :
  host_settings record fallback user port config ↔
  config = set_route (overlay_record fallback record user port) (c_proxy_command config) (c_jump_hosts config).
Proof.
  split.
  - intros [H1 H2 H3 H4 H5%keys_are_these H6%same_policy_mapped H7 H8 H9 H10 H11 H12 H13 H14].
    destruct config; cbn in *; subst. unfold set_route, overlay_record. cbn. by destruct port, user.
  - intros ->. split; try done; cbn; [by apply keys_are_these|by apply same_policy_mapped].
Qed.

Lemma hop_made_becomes database target hop jump : hop_made database target hop jump ↔ hop_becomes database target hop jump.
Proof.
  unfold hop_made, hop_becomes. destruct hop as [alias|alias|inline]; [|done|].
  - by setoid_rewrite jump_settings_these.
  - by rewrite jump_settings_these.
Qed.
Lemma resolution_is database alias user port resolved :
  resolution database alias user port resolved ↔ resolves_to database alias user port resolved.
Proof.
  unfold resolution, resolves_to. destruct (db_hosts database !! alias) as [record|]; [|done].
  setoid_rewrite host_settings_these. destruct resolved as [source config]. cbn [rh_source rh_config].
  destruct (hr_jump_chain record) as [name|].
  - split.
    + intros (fallback & Hf & Hs & chain & jumps & Hc & Hall & ->). exists fallback. split_and!; try done.
      exists chain. split_and!; [done..|]. eapply Forall2_impl; [exact Hall|]. intros hop jump. by rewrite hop_made_becomes.
    + intros (fallback & Hf & Hs & Hconfig & chain & Hc & Hp & Hall). exists fallback. split_and!; try done.
      exists chain, (c_jump_hosts config). split_and!; [done| |by rewrite Hp in Hconfig].
      eapply Forall2_impl; [exact Hall|]. intros hop jump. by rewrite hop_made_becomes.
  - split; intros (fallback & Hf & Hs & Hrest); exists fallback; split_and!; try done.
    + by rewrite Hrest.
    + by rewrite Hrest.
    + by rewrite Hrest.
    + destruct Hrest as (Hconfig & Hp & Hj). by rewrite Hp, Hj in Hconfig.
Qed.

(** *** What resolution needs of the OpenSSH configuration *)
Definition openssh_ready (record : HostRecord) : Prop :=
  valid_name (hr_alias record) → is_ok (from_openssh' (hr_alias record) None None) = true.

Definition hop_ready (database : HostDatabase) (hop : JumpHop) : Prop :=
  match hop with
  | HopHost alias => ∀ record, db_hosts database !! alias = Some record → openssh_ready record
  | HopOpenSshAlias alias => ∃ config,
      from_openssh' alias None None = Ok config ∧ c_jump_hosts config = [] ∧ c_proxy_command config = None
  | HopInline _ => True
  end.

Lemma ready_starts record : openssh_ready record ↔ ∃ config, starts_from record config.
Proof.
  unfold openssh_ready, starts_from. case_decide as Hv; [|naive_solver].
  destruct (from_openssh' (hr_alias record) None None) as [config|e]; cbn [is_ok]; naive_solver.
Qed.

Lemma hop_is_not target hop : hop_is target hop = false ↔ display_name hop ≠ target.
Proof. destruct hop; cbn [hop_is display_name]; apply bool_decide_eq_false. Qed.

Lemma hop_ready_made database target hop :
  hop_resolves (db_hosts database) hop → display_name hop ≠ target →
  hop_ready database hop ↔ ∃ jump, hop_made database target hop jump.
Proof.
  intros Href Hne. unfold hop_ready, hop_made. destruct hop as [alias|alias|inline].
  - destruct (Href alias eq_refl) as (record & Hr & _). rewrite Hr. split.
    + intros [fallback Hf]%(λ H, proj1 (ready_starts record) (H record eq_refl)).
      eexists. split; [done|]. by exists record, fallback.
    + intros (jump & _ & record' & fallback & [= <-] & Hf & _) ? [= <-]. apply ready_starts. eauto.
  - split; [|naive_solver]. intros (config & ? & ? & ?). eexists. split; [done|]. by exists config.
  - split; [|done]. intros _. eexists. done.
Qed.

Lemma Forall2_exists {A B} (P : A → B → Prop) l : (∃ k, Forall2 P l k) ↔ Forall (λ x, ∃ y, P x y) l.
Proof.
  split.
  - intros [k Hk]. induction Hk; constructor; eauto.
  - induction 1 as [|x l [y Hy] _ [k Hk]]; [by exists []|]. exists (y :: k). by constructor.
Qed.
End resolution.

(** ** Import *)

Lemma insert_host_ok {unicode : UnicodeTables} host store store' :
  insert_host host store = (Ok tt, store') →
  db_hosts (store_db store) !! hr_alias host = None ∧
  store' = set_db store (set_hosts (store_db store) (<[ hr_alias host := host ]> (db_hosts (store_db store)))).
Proof.
  unfold insert_host. case_bool_decide as Hnew; cbn [negb]; [|done]. destruct (host_validate host); [|done].
  destruct (db_validate _); [|done]. by intros [= <-].
Qed.

Lemma insert_chain_ok {unicode : UnicodeTables} chain store store' :
  insert_chain chain store = (Ok tt, store') →
  db_chains (store_db store) !! jc_name chain = None ∧
  store' = set_db store (set_chains (store_db store) (<[ jc_name chain := chain ]> (db_chains (store_db store)))).
Proof.
  unfold insert_chain. case_bool_decide as Hnew; cbn [negb]; [|done].
  destruct (db_validate _); [|done]. by intros [= <-].
Qed.

Section import.
Context (sys : System) (home_var : option str) (metadata : str → io_result unit).
Context (russh_parse : str → str → result RusshConfig) (russh_default : str → RusshConfig).
Context {unicode : UnicodeTables}.
Abbreviation from_openssh' := (from_openssh sys home_var metadata russh_parse russh_default).
Abbreviation import_alias' := (import_alias sys home_var metadata russh_parse russh_default).

(** A host that the import added. *)
Definition imported_as (chains : gmap str JumpChain) (alias : str) (host : HostRecord) : Prop :=
  valid_name alias ∧ ∃ config jump_chain,
    from_openssh' alias None None = Ok config ∧ host = imported_record alias config jump_chain ∧
    (jump_chain = None ↔ c_jump_hosts config = []) ∧
    ∀ name, jump_chain = Some name → chains !! name = Some (imported_chain name config).

(** The state of the loop after some of the aliases. *)
Record import_state (store : HostStore) (done : list str) (candidate : HostStore) (report : ImportReport) : Prop := {
  is_frame : ∃ hosts chains, candidate = set_db store (set_chains (set_hosts (store_db store) hosts) chains);
  is_hosts : db_hosts (store_db store) ⊆ db_hosts (store_db candidate);
  is_chains : db_chains (store_db store) ⊆ db_chains (store_db candidate);
  is_total : imported_hosts report + skipped_existing report + skipped_unsupported_alias report = zlen done;
  is_host_count : Z.of_nat (size (db_hosts (store_db candidate))) =
    Z.of_nat (size (db_hosts (store_db store))) + imported_hosts report;
  is_chain_count : Z.of_nat (size (db_chains (store_db candidate))) =
    Z.of_nat (size (db_chains (store_db store))) + created_chains report;
  is_warnings : skipped_unsupported_alias report = zlen (warnings report) ∧
    ∀ alias, alias ∈ warnings report → alias ∈ done ∧ ¬ valid_name alias;
  is_present : ∀ alias, alias ∈ done → valid_name alias → is_Some (db_hosts (store_db candidate) !! alias);
  is_new : ∀ alias host, db_hosts (store_db candidate) !! alias = Some host →
    db_hosts (store_db store) !! alias = Some host ∨
    alias ∈ done ∧ imported_as (db_chains (store_db candidate)) alias host;
}.

Lemma imported_as_mono chains chains' alias host :
  chains ⊆ chains' → imported_as chains alias host → imported_as chains' alias host.
Proof.
  intros Hsub (Hv & config & jc & Hc & Hh & Hj & Hname). split; [done|]. exists config, jc. split_and!; try done.
  intros name Hn. by eapply lookup_weaken; [apply Hname|].
Qed.

Lemma import_start store : import_state store [] store (mk_report 0 0 0 0 []).
Proof.
  constructor; cbn [imported_hosts skipped_existing skipped_unsupported_alias created_chains warnings]; try done; try lia.
  - exists (db_hosts (store_db store)), (db_chains (store_db store)).
    rewrite set_hosts_id. destruct store as [path []]. done.
  - split; [done|]. by intros ? ?%elem_of_nil.
  - by intros ? ?%elem_of_nil.
  - by left.
Qed.

(** The chain of an imported host. *)
Lemma import_chain_ok candidate config alias created candidate' jump_chain created' :
  (if bool_decide (c_jump_hosts config = []) then Ok (candidate, None, created)
   else
     let chain_name := unique_chain_name candidate alias in
     let '(r, candidate) := insert_chain (imported_chain chain_name config) candidate in
     r ≫= λ _, Ok (candidate, Some chain_name, created + 1)) = Ok (candidate', jump_chain, created') →
  ∃ chains, candidate' = set_db candidate (set_chains (store_db candidate) chains) ∧
    db_chains (store_db candidate) ⊆ chains ∧
    Z.of_nat (size chains) - created' = Z.of_nat (size (db_chains (store_db candidate))) - created ∧
    (jump_chain = None ↔ c_jump_hosts config = []) ∧
    ∀ name, jump_chain = Some name → chains !! name = Some (imported_chain name config).
Proof.
  case_bool_decide as Hjumps.
  - intros [= <- <- <-]. exists (db_chains (store_db candidate)). rewrite set_chains_id, set_db_id. by split_and!.
  - cbv zeta. destruct (insert_chain (imported_chain (unique_chain_name candidate alias) config) candidate) as [[[]|e] c] eqn:Hins; [|done]. intros [= <- <- <-].
    apply insert_chain_ok in Hins as [Hnew ->]. cbn [imported_chain jc_name] in Hnew |- *.
    eexists. split; [done|]. split_and!.
    + by apply insert_subseteq.
    + rewrite map_size_insert_None by done. lia.
    + done.
    + intros name [= <-]. by rewrite lookup_insert_eq.
Qed.

Lemma import_step store done candidate report alias candidate' report' :
  import_state store done candidate report →
  import_alias' (candidate, report) alias = Ok (candidate', report') →
  import_state store (done ++ [alias]) candidate' report'.
Proof.
  intros [Hframe Hhosts Hchains Htotal Hhc Hcc [Hwc Hw] Hpresent Hnew]. unfold import_alias.
  assert (Hlen : zlen (done ++ [alias]) = zlen done + 1) by (rewrite length_app; cbn; lia).
  case_bool_decide as Hold; [|destruct (is_ok (validate_name alias)) eqn:Hv; cbn [negb]].
  - intros [= <- <-]. constructor; cbn [imported_hosts skipped_existing skipped_unsupported_alias created_chains warnings];
      [done|done|done|lia|done|done| | |].
    + split; [done|]. intros a Ha. destruct (Hw a Ha). rewrite elem_of_app. auto.
    + intros a [Ha| ->%list_elem_of_singleton]%elem_of_app Hva; [by apply Hpresent|done].
    + intros a h Ha. destruct (Hnew a h Ha) as [?|[? ?]]; [by left|right]. rewrite elem_of_app. auto.
  - apply is_ok_name in Hv. intros (config & Hconfig & Hrest)%bind_ok.
    apply bind_ok in Hrest as ([[c1 jc] created] & (chains & -> & Hsub & Hsize & Hjc & Hname)%import_chain_ok & Hrest).
    destruct (insert_host _ _) as [[[]|e] c2] eqn:Hins; [|done]. apply Ok_inj in Hrest. injection Hrest as <- <-.
    apply insert_host_ok in Hins as [Hfresh ->]. cbn in Hfresh.
    assert (hr_alias (imported_record alias config jc) = alias) as -> by done.
    set (h := imported_record alias config jc) in *.
    constructor; cbn [imported_hosts skipped_existing skipped_unsupported_alias created_chains warnings
      store_db set_db set_hosts set_chains db_hosts db_chains].
    + destruct Hframe as (hosts & chains0 & ->). eexists _, _. done.
    + etrans; [done|]. by apply insert_subseteq.
    + by etrans.
    + lia.
    + rewrite map_size_insert_None by done. lia.
    + lia.
    + split; [done|]. intros a Ha. destruct (Hw a Ha). rewrite elem_of_app. auto.
    + intros a [Ha| ->%list_elem_of_singleton]%elem_of_app Hva; [|by rewrite lookup_insert_eq].
      destruct (decide (a = alias)) as [->|Hne]; [by rewrite lookup_insert_eq|].
      rewrite lookup_insert_ne by done. by apply Hpresent.
    + intros a k. destruct (decide (a = alias)) as [->|Hne].
      * rewrite lookup_insert_eq. intros [= <-]. right. rewrite elem_of_app, list_elem_of_singleton. split; [by right|].
        split; [done|]. by exists config, jc.
      * rewrite lookup_insert_ne by done. intros Ha. destruct (Hnew a k Ha) as [?|[? Hi]]; [by left|right].
        rewrite elem_of_app. split; [by left|]. by eapply imported_as_mono.
  - assert (¬ valid_name alias) as Hnv by (rewrite <- is_ok_name; congruence).
    intros [= <- <-]. constructor; cbn [imported_hosts skipped_existing skipped_unsupported_alias created_chains warnings];
      [done|done|done|lia|done|done| | |].
    + rewrite length_app. cbn [length]. split; [lia|]. intros a [Ha| ->%list_elem_of_singleton]%elem_of_app.
      * destruct (Hw a Ha). rewrite elem_of_app. auto.
      * rewrite elem_of_app, list_elem_of_singleton. auto.
    + intros a [Ha| ->%list_elem_of_singleton]%elem_of_app Hva; [by apply Hpresent|done].
    + intros a k Ha. destruct (Hnew a k Ha) as [?|[? ?]]; [by left|right]. rewrite elem_of_app. auto.
Qed.

Lemma import_loop store done aliases candidate report candidate' report' :
  import_state store done candidate report →
  try_fold import_alias' (candidate, report) aliases = Ok (candidate', report') →
  import_state store (done ++ aliases) candidate' report'.
Proof.
  revert done candidate report. induction aliases as [|alias aliases IH]; intros done c r Hst; cbn [try_fold].
  - intros [= <- <-]. by rewrite app_nil_r.
  - intros ([c1 r1] & Hstep & Hrest)%bind_ok. replace (done ++ alias :: aliases) with ((done ++ [alias]) ++ aliases)
      by by rewrite <- app_assoc. eapply IH; [|exact Hrest]. by eapply import_step.
Qed.
End import.

(** ** Theorems *)

(** C13: resolution is exact and total on valid libraries.  For a valid library,
    [resolve_host] returns exactly the settings the library gives: the address,
    port, user, key and policy of the host, or what is given for them, over the
    OpenSSH configuration of its alias, with the hops of its chain in order and no
    ProxyCommand; hosts that are not in the library are those of OpenSSH; and for
    a host of the library it fails only when OpenSSH fails for an alias that is
    asked of it, or has a route of its own for a hop. *)
Theorem resolve_host_exact sys home_var metadata russh_parse russh_default {unicode : UnicodeTables} database alias user port :
  wf_database database →
  (∀ resolved, resolve_host sys home_var metadata russh_parse russh_default database alias user port = Ok resolved ↔
     resolves_to sys home_var metadata russh_parse russh_default database alias user port resolved) ∧
  ∀ record, db_hosts database !! alias = Some record →
    is_ok (resolve_host sys home_var metadata russh_parse russh_default database alias user port) = true ↔
    openssh_ready sys home_var metadata russh_parse russh_default record ∧
    ∀ name chain, hr_jump_chain record = Some name → db_chains database !! name = Some chain →
      Forall (hop_ready sys home_var metadata russh_parse russh_default database) (jc_hops chain).
Proof.
  intros Hwf. split; [intros resolved; rewrite resolve_host_spec, resolution_is; tauto|]. intros record Hr.
  trans (∃ resolved, resolution sys home_var metadata russh_parse russh_default database alias user port resolved).
  { destruct (resolve_host _ _ _ _ _ database alias user port) as [resolved|e] eqn:Hres; cbn [is_ok].
    - apply resolve_host_spec in Hres as [_ Hres]. naive_solver.
    - split; [done|]. intros [resolved H]. assert (Err e = Ok resolved) as Heq; [|discriminate Heq].
      rewrite <- Hres. by apply resolve_host_spec. }
  unfold resolution. rewrite Hr, ready_starts. split.
  - intros ([source config] & fallback & Hf & _ & Hrest). split; [eauto|]. intros name chain Hname Hchain.
    rewrite Hname in Hrest. destruct Hrest as (chain' & jumps & Hc & Hall & _). rewrite Hchain in Hc. injection Hc as <-.
    pose proof (wf_hop_ref _ Hwf _ _ Hchain) as Href. pose proof (wf_no_loop _ Hwf _ _ _ _ Hr Hname Hchain) as Hloop.
    destruct (wf_hosts _ Hwf _ _ Hr) as [Halias _]. rewrite <- Halias in Hloop.
    assert (∃ jumps, Forall2 (hop_made sys home_var metadata russh_parse russh_default database alias) (jc_hops chain) jumps)
      as Hex%Forall2_exists by eauto.
    rewrite Forall_forall in Hex, Href, Hloop |- *. intros hop Hin.
    apply (hop_ready_made _ _ _ _ _ database alias); auto. by apply hop_is_not, Hloop.
  - intros [[fallback Hf] Hready]. destruct (hr_jump_chain record) as [name|] eqn:Hname.
    + destruct (wf_host_chain_ref _ Hwf _ _ _ Hr Hname) as [chain Hchain]. specialize (Hready name chain eq_refl Hchain).
      pose proof (wf_hop_ref _ Hwf _ _ Hchain) as Href. pose proof (wf_no_loop _ Hwf _ _ _ _ Hr Hname Hchain) as Hloop.
      destruct (wf_hosts _ Hwf _ _ Hr) as [Halias _]. rewrite <- Halias in Hloop.
      assert (∃ jumps, Forall2 (hop_made sys home_var metadata russh_parse russh_default database alias) (jc_hops chain) jumps)
        as [jumps Hall].
      { apply Forall2_exists. rewrite Forall_forall in Hready, Href, Hloop |- *. intros hop Hin.
        apply hop_ready_made; auto. by apply hop_is_not, Hloop. }
      eexists (mk_resolved HostLibrary _), fallback. split; [done|]. split; [done|]. by exists chain, jumps.
    + by exists (mk_resolved HostLibrary (overlay_record fallback record user port)), fallback.
Qed.

(** The import is all or nothing.  It fails and leaves the library as it was;
    or it leaves a valid library with every host, chain and folder it had,
    unchanged, and in it every alias of the OpenSSH configuration that a name can
    hold; each host it added has the settings of its alias and, if these have jump
    hosts, a chain of its own with their aliases; and the report counts every alias
    once, the hosts and the chains that were added, and names each alias left
    out. *)
Theorem import_openssh_exact sys home_var metadata russh_parse russh_default {unicode : UnicodeTables} store :
  match import_openssh sys home_var metadata russh_parse russh_default store with
  | (Err _, store') => store' = store
  | (Ok report, store') =>
      wf_database (store_db store') ∧
      ∃ catalog, discover_openssh_hosts sys home_var metadata = Ok catalog ∧
        has_unsupported_structural_directives catalog = false ∧
        import_state sys home_var metadata russh_parse russh_default store (aliases catalog) store' report
  end.
Proof.
  unfold import_openssh. destruct (discover_openssh_hosts sys home_var metadata) as [catalog|e]; [|done].
  rewrite bind_of_ok. destruct (has_unsupported_structural_directives catalog) eqn:Huns; [done|]. cbn [bail_if].
  rewrite bind_of_ok. destruct (try_fold _ _ (aliases catalog)) as [[candidate report]|e] eqn:Hloop; [|done].
  rewrite bind_of_ok. destruct (db_validate (store_db candidate)) as [[]|e] eqn:Hwf; [|done]. rewrite bind_of_ok.
  split; [by apply db_validate_ok|]. exists catalog. split; [done|]. split; [done|].
  pose proof (import_start sys home_var metadata russh_parse russh_default store) as Hstart.
  eapply (import_loop _ _ _ _ _ _ []) in Hloop; [|exact Hstart]. exact Hloop.
Qed.

(** An imported host is reached as before.  Resolving, in any valid library that
    holds it, a host imported from settings without jump hosts gives these
    settings back, with the first of their identity files. *)
Theorem imported_host_resolves sys home_var metadata russh_parse russh_default {unicode : UnicodeTables} database alias config :
  wf_database database → valid_name alias →
  from_openssh sys home_var metadata russh_parse russh_default alias None None = Ok config → c_jump_hosts config = [] →
  db_hosts database !! alias = Some (imported_record alias config None) →
  resolve_host sys home_var metadata russh_parse russh_default database alias None None =
    Ok (mk_resolved HostLibrary
      (mk_config alias (c_host config) (c_port config) (c_username config) (take 1 (c_identity_files config))
        (c_host_key_policy config) (c_known_hosts_file config) (c_keepalive_interval config) (c_inactivity_timeout config)
        (c_connect_timeout config) (c_channel_open_timeout config) (c_channel_request_timeout config)
        (c_authentication_timeout config) (c_proxy_command config) [] (c_agent_forwarding config))).
Proof.
  intros Hwf Hv Hc Hj Hr. apply resolve_host_spec. split; [done|]. unfold resolution. rewrite Hr.
  exists config. split; [|split; [done|]].
  - unfold starts_from. by rewrite decide_True.
  - unfold overlay_record. cbn. rewrite map_stored_policy, Hj. f_equal. by destruct (c_identity_files config).
Qed.

Module Examples.
#[local] Existing Instance ascii_tables.
Import IncludeScope.Examples HostStore.Examples.

Definition config2 : str := unlines (lit <$> ["Host web prod mail *"; "  Port 2200"; "Host b@d"]%string).
Definition system2 : System :=
  mk_system Ok (λ path, if bool_decide (path = lit "/h/.ssh/config") then Ok (file_of config2) else Err "no such file")
    (λ _, NotFound) (λ _, IoOk true) (λ _, Err "unset") None 1000.

(** A parser for that text: [prod] has a jump host with a user and a port. *)
Definition russh2 (text host : str) : result RusshConfig :=
  Ok (mk_russh (host ++ lit ".example") (lit "root") 2200 (Some [lit "/k1"; lit "/k2"]) None None
        (if bool_decide (host = lit "prod") then Some (lit "ops@bastion:2222") else None) None).
Definition metadata2 (path : str) : io_result unit := IoOk tt.
Definition default2 (alias : str) : RusshConfig := mk_russh alias (lit "root") 22 None None None None None.
Definition home2 : option str := Some (lit "/h").

Definition imported : result ImportReport * HostStore := import_openssh system2 home2 metadata2 russh2 default2 example_store.

Example import2 :
  imported.1 = Ok (mk_report 2 1 1 1 [lit "b@d"]) ∧
  store_chain imported.2 (lit "openssh-prod-jump") = Some (mk_chain (lit "openssh-prod-jump") [HopOpenSshAlias (lit "bastion")]).
Proof. by vm_compute. Qed.

(** OpenSSH reaches [prod] through the jump host as [ops] on port 2222; the
    imported chain holds the alias of the jump host only, so the library reaches
    the same jump host as [root] on port 2200. *)
Example import_forgets_jump_user :
  (c_jump_hosts <$> from_openssh system2 home2 metadata2 russh2 default2 (lit "prod") None None) =
    Ok [mk_jump (lit "bastion") (lit "bastion.example") 2222 (lit "ops") [lit "/k1"; lit "/k2"] AcceptNew None] ∧
  ((λ r, c_jump_hosts (rh_config r)) <$>
     resolve_host system2 home2 metadata2 russh2 default2 (store_db imported.2) (lit "prod") None None) =
    Ok [mk_jump (lit "bastion") (lit "bastion.example") 2200 (lit "root") [lit "/k1"; lit "/k2"] AcceptNew None].
Proof. by vm_compute. Qed.

Lemma resolve_host_exact_witness :
  wf_database example_db ∧
  is_ok (resolve_host system2 home2 metadata2 russh2 default2 example_db (lit "web") None None) = true.
Proof.
  assert (wf_database example_db) as Hwf by exact example_wf. split; [exact Hwf|].
  assert (db_hosts example_db !! lit "web" = Some web) as Hweb by by vm_compute.
  apply (proj2 (resolve_host_exact system2 home2 metadata2 russh2 default2 example_db (lit "web") None None Hwf) web Hweb).
  split.
  - intros _. by vm_compute.
  - intros name chain Hname Hchain. change (Some (lit "dmz") = Some name) in Hname. apply (inj Some) in Hname as <-.
    assert (db_chains example_db !! lit "dmz" = Some dmz) as Hdmz by by vm_compute.
    rewrite Hdmz in Hchain. apply (inj Some) in Hchain as <-. apply Forall_singleton. intros record Hrecord _.
    assert (db_hosts example_db !! lit "bastion" = Some bastion) as Hbastion by by vm_compute.
    rewrite Hbastion in Hrecord. apply (inj Some) in Hrecord as <-. by vm_compute.
Defined.

Definition mail_config : ConnectionConfig :=
  mk_config (lit "mail") (lit "mail.example") 2200 (lit "root") [lit "/k1"; lit "/k2"] AcceptNew None (Some 30) None
    15 15 15 30 None [] false.

Lemma imported_host_resolves_witness :
  db_hosts (store_db imported.2) !! lit "mail" = Some (imported_record (lit "mail") mail_config None) ∧
  (c_identity_files ∘ rh_config <$>
     resolve_host system2 home2 metadata2 russh2 default2 (store_db imported.2) (lit "mail") None None) = Ok [lit "/k1"].
Proof.
  assert (db_hosts (store_db imported.2) !! lit "mail" = Some (imported_record (lit "mail") mail_config None)) as Hmail
    by by vm_compute.
  split; [exact Hmail|].
  rewrite (imported_host_resolves system2 home2 metadata2 russh2 default2 (store_db imported.2) (lit "mail") mail_config).
  - by vm_compute.
  - apply db_validate_ok. by vm_compute.
  - apply is_ok_name. by vm_compute.
  - by vm_compute.
  - by vm_compute.
  - exact Hmail.
Defined.
End Examples.
