(* ===== verification/HostTrust.v ===== *)
(** * Trust in host keys ([crates/kaduox-ssh-core/src/host_trust.rs], and
      [ClientHandler::check_server_key] of [handler.rs])

    The [@cert-authority] and [@revoked] markers of the known hosts file, the
    matching of host patterns and certificate principals, and the decision on the
    key or certificate that a server presents.  The keys, the patterns and the
    certificates of the package [ssh_key], HMAC-SHA1, and the known hosts of
    [russh] are parameters. *)

From stdpp Require Import base list gmap strings numbers sorting.
From Stdlib Require Import Lia.
From S2P Require Import Prelude RustStr StrFacts Glob OpenSshMatch OpenSshInclude Targets Config.

(** ** Definitions *)

(** *** Wildcards

    The loop of [wildcard_match], over the indices of the code. *)
Record WildState := mk_wild { w_pattern : nat; w_candidate : nat; w_star : option nat; w_star_candidate : nat }.

Definition byte_eq_ignore_case (a b : Z) : bool := to_ascii_lowercase_char a =? to_ascii_lowercase_char b.

(** One iteration: the next state, or the answer. *)
Definition wild_step (pattern candidate : list Z) (s : WildState) : WildState + bool :=
  match candidate !! w_candidate s with
  | None => inr (forallb (Z.eqb star) (drop (w_pattern s) pattern))
  | Some c =>
      let p := pattern !! w_pattern s in
      if match p with Some b => (b =? question) || byte_eq_ignore_case b c | None => false end then
        inl (mk_wild (S (w_pattern s)) (S (w_candidate s)) (w_star s) (w_star_candidate s))
      else if bool_decide (p = Some star) then
        inl (mk_wild (S (w_pattern s)) (w_candidate s) (Some (w_pattern s)) (w_candidate s))
      else
        match w_star s with
        | Some st => inl (mk_wild (S st) (S (w_star_candidate s)) (Some st) (S (w_star_candidate s)))
        | None => inr false
        end
  end.

Fixpoint wild_loop (fuel : nat) (pattern candidate : list Z) (s : WildState) : option bool :=
  match fuel with
  | O => None
  | S fuel =>
      match wild_step pattern candidate s with
      | inl s => wild_loop fuel pattern candidate s
      | inr b => Some b
      end
  end.

(** More iterations than the loop can make. *)
Definition wild_fuel (pattern candidate : list Z) : nat :=
  S ((length pattern + 2) * (S (length candidate) * S (length candidate))).

Definition wildcard_match_trust (pattern candidate : list Z) : bool :=
  default false (wild_loop (wild_fuel pattern candidate) pattern candidate (mk_wild 0 0 None 0)).

Definition host_principal_matches (host principal : str) : bool :=
  wildcard_match_trust (utf8 (to_ascii_lowercase principal)) (utf8 (to_ascii_lowercase host)).

(** *** Host patterns *)
Inductive HostPatterns := Patterns (patterns : list str) | HashedName (salt hash : list Z).

Fixpoint clear_patterns_from (target : str) (positive_match : bool) (patterns : list str) : result bool :=
  match patterns with
  | [] => Ok positive_match
  | pattern :: patterns =>
      bail_if (bool_decide (pattern = [])) "known_hosts host pattern list contains an empty entry" ≫= λ _,
      match strip_prefix [bang] pattern with
      | Some pattern =>
          bail_if (bool_decide (pattern = [])) "known_hosts negated host pattern is empty" ≫= λ _, Ok (true, pattern)
      | None => Ok (false, pattern)
      end ≫= λ '(negated, pattern),
      if wildcard_match_trust (utf8 pattern) (utf8 target) then
        if (negated : bool) then Ok false else clear_patterns_from target true patterns
      else clear_patterns_from target positive_match patterns
  end.
Definition clear_host_patterns_match (target : str) (patterns : list str) : result bool :=
  clear_patterns_from (to_ascii_lowercase target) false patterns.

Definition known_hosts_target (host : str) (port : Z) : str :=
  if port =? 22 then host else [open_bracket] ++ host ++ [close_bracket; colon] ++ dec_of port.

Definition MAX_KNOWN_HOSTS_BYTES : Z := 8 * 1024 * 1024.

Inductive marker := CertAuthority | Revoked.
Definition marker_of (field : str) : option marker :=
  if bool_decide (field = lit "@cert-authority") then Some CertAuthority
  else if bool_decide (field = lit "@revoked") then Some Revoked else None.

(** What the code reads of a [Certificate]. *)
Record CertificateView (key : Type) := mk_certificate {
  ct_is_host : bool;
  ct_public_key : key;
  ct_signature_key : key;
  (* [certificate.validate(fingerprints)] succeeds *)
  ct_validate : list str → bool;
  ct_critical_options : list str;
  ct_valid_principals : list str;
}.
Arguments ct_is_host {key} _. Arguments ct_public_key {key} _. Arguments ct_signature_key {key} _.
Arguments ct_validate {key} _ _. Arguments ct_critical_options {key} _. Arguments ct_valid_principals {key} _.

Section trust.
Context {key : Type} `{EqDecision key}.
(** [PublicKey::from_openssh], whether [PublicKey::algorithm] is Ed25519 or ECDSA,
    the fingerprint; [HostPatterns::from_str]; HMAC-SHA1 under a salt. *)
Context (from_openssh_key : str → option key) (ed25519_or_ecdsa : key → bool) (fingerprint : key → str).
Context (parse_patterns : str → option HostPatterns) (hmac : list Z → option (list Z → list Z → bool)).

Record HostTrustPolicy := mk_trust { trusted_certificate_authorities : list key; revoked_keys : list key }.
Definition default_trust : HostTrustPolicy := mk_trust [] [].

Definition hashed_host_matches (target : str) (salt expected_hash : list Z) : result bool :=
  with_context (hmac salt) "failed to initialize OpenSSH hashed-host HMAC" ≫= λ verify,
  Ok (verify (utf8 target) expected_hash).

Definition host_patterns_match (target : str) (patterns : HostPatterns) : result bool :=
  match patterns with
  | Patterns patterns => clear_host_patterns_match target patterns
  | HashedName salt hash => hashed_host_matches target salt hash
  end.

Definition push_key (policy : HostTrustPolicy) (m : marker) (k : key) : HostTrustPolicy :=
  match m with
  | CertAuthority => mk_trust (trusted_certificate_authorities policy ++ [k]) (revoked_keys policy)
  | Revoked => mk_trust (trusted_certificate_authorities policy) (revoked_keys policy ++ [k])
  end.

(** The fields of a marker line: the marker, the patterns and the text of the key. *)
Definition marker_fields (fields : list str) : result (marker * HostPatterns * str) :=
  with_context (marker_of (default [] (head fields))) "unsupported known_hosts marker" ≫= λ m,
  with_context (fields !! 1%nat) "known_hosts marker is missing host patterns" ≫= λ patterns_text,
  with_context (parse_patterns patterns_text) "invalid known_hosts host pattern" ≫= λ patterns,
  with_context (fields !! 2%nat) "known_hosts marker is missing a key algorithm" ≫= λ algorithm,
  with_context (fields !! 3%nat) "known_hosts marker is missing key data" ≫= λ encoded_key,
  Ok (m, patterns, algorithm ++ [32] ++ encoded_key).

(** The body of the loop over the lines. *)
Definition trust_line (target : str) (policy : HostTrustPolicy) (raw_line : str) : result HostTrustPolicy :=
  let line := trim raw_line in
  if bool_decide (line = []) || starts_with line [hash] || negb (starts_with line [at_sign]) then Ok policy
  else
    marker_fields (split_ascii_whitespace line) ≫= λ '(m, patterns, key_text),
    host_patterns_match target patterns ≫= λ matched,
    if negb matched then Ok policy
    else
      with_context (from_openssh_key key_text) "invalid public key on known_hosts marker line" ≫= λ k,
      Ok (push_key policy m k).

Definition dedup_step (unique : list key) (k : key) : list key :=
  if bool_decide (k ∈ unique) then unique else unique ++ [k].
Definition dedup_public_keys (keys : list key) : list key := foldl dedup_step [] keys.

Definition trust_parse (host : str) (port : Z) (contents : str) : result HostTrustPolicy :=
  let target := known_hosts_target host port in
  try_fold (trust_line target) default_trust (lines contents) ≫= λ policy,
  Ok (mk_trust (dedup_public_keys (trusted_certificate_authorities policy)) (dedup_public_keys (revoked_keys policy))).

Definition has_certificate_authority (policy : HostTrustPolicy) : bool :=
  existsb ed25519_or_ecdsa (trusted_certificate_authorities policy).

Definition is_revoked (policy : HostTrustPolicy) (k : key) : bool := bool_decide (k ∈ revoked_keys policy).

Definition verify_host_certificate (policy : HostTrustPolicy) (host : str) (certificate : CertificateView key)
    : result unit :=
  bail_if (negb (ct_is_host certificate)) "server presented a user certificate" ≫= λ _,
  let certified_key := ct_public_key certificate in
  let signing_ca := ct_signature_key certificate in
  bail_if (is_revoked policy certified_key) "server host certificate public key is marked @revoked" ≫= λ _,
  bail_if (is_revoked policy signing_ca) "server host certificate signing CA is marked @revoked" ≫= λ _,
  bail_if (negb (ed25519_or_ecdsa signing_ca)) "server host certificate uses a CA algorithm that is not enabled" ≫= λ _,
  let ca_fingerprints := fingerprint <$> filter (λ k, ed25519_or_ecdsa k = true) (trusted_certificate_authorities policy) in
  bail_if (bool_decide (ca_fingerprints = [])) "no matching verifiable @cert-authority is trusted" ≫= λ _,
  bail_if (negb (ct_validate certificate ca_fingerprints)) "server host certificate is invalid" ≫= λ _,
  bail_if (negb (bool_decide (ct_critical_options certificate = []))) "unsupported critical options" ≫= λ _,
  let principals := ct_valid_principals certificate in
  bail_if (negb (bool_decide (principals = [])) && negb (existsb (host_principal_matches host) principals))
    "server host certificate does not authorize hostname".

(** *** The known hosts file

    [open] gives the bytes of a file. *)
Definition read_known_hosts_bounded (file : io_result (list Z)) : result (option str) :=
  match file with
  | NotFound => Ok None
  | IoErr e => Err e
  | IoOk bytes =>
      (* at most one byte more than the limit is read *)
      with_context (from_utf8 (take (S (Z.to_nat MAX_KNOWN_HOSTS_BYTES)) bytes)) "failed to read known_hosts file"
        ≫= λ contents,
      bail_if (MAX_KNOWN_HOSTS_BYTES <? str_len contents) "known_hosts file exceeds the safety limit" ≫= λ _,
      Ok (Some contents)
  end.

Definition load_path (host : str) (port : Z) (file : io_result (list Z)) : result HostTrustPolicy :=
  read_known_hosts_bounded file ≫= λ contents,
  match contents with
  | None => Ok default_trust
  | Some contents => trust_parse host port contents
  end.

(** [home] is [std::env::home_dir]; [open] opens a file. *)
Definition default_known_hosts_path (home : option str) : result str :=
  with_context ((λ home, path_join (path_join home (lit ".ssh")) (lit "known_hosts")) <$> home)
    "failed to resolve home directory for known_hosts".

Definition load (home : option str) (open : str → io_result (list Z)) (host : str) (port : Z)
    (known_hosts_file : option str) : result HostTrustPolicy :=
  match known_hosts_file with
  | Some path => Ok path
  | None => default_known_hosts_path home
  end ≫= λ path, load_path host port (open path).
End trust.
Arguments HostTrustPolicy key : clear implicits.

(** *** The decision on the key of a server ([handler.rs], [diagnostics.rs]) *)
Inductive HostKeyVerification := Known | Learned | InsecureKey.
#[export] Instance host_key_verification_eq_dec : EqDecision HostKeyVerification.
Proof. solve_decision. Defined.

Record ServerHostKeyInfo := mk_key_info { ki_algorithm : str; ki_fingerprint : str; ki_verification : HostKeyVerification }.

Inductive PublicKeyOrCertificate (key : Type) := PlainKey (k : key) | HostCertificate (c : CertificateView key).
Arguments PlainKey {key} k. Arguments HostCertificate {key} c.

Definition presented_key {key} (presented : PublicKeyOrCertificate key) : key :=
  match presented with PlainKey k => k | HostCertificate c => ct_public_key c end.

(** What the handler records, and the keys it adds to the known hosts. *)
Record HandlerKeys (key : Type) := mk_handler_keys { server_host_key : option ServerHostKeyInfo; learned_keys : list key }.
Arguments mk_handler_keys {key} _ _. Arguments server_host_key {key} _. Arguments learned_keys {key} _.

Section check.
Context {key : Type} `{EqDecision key}.
Context (from_openssh_key : str → option key) (ed25519_or_ecdsa : key → bool) (fingerprint : key → str).
Context (parse_patterns : str → option HostPatterns) (hmac : list Z → option (list Z → list Z → bool)).
Context (algorithm_name : key → str) (home : option str) (open : str → io_result (list Z)).
(** [russh::keys::known_hosts]: whether the key is known for the host, and adding
    it; the file is the configured one, or the default. *)
Context (check_known_hosts : option str → key → result bool) (learn_known_hosts : option str → key → result unit).
Context (host : str) (port : Z) (host_key_policy : HostKeyPolicy) (known_hosts_file : option str).

Definition record_server_host_key (presented : PublicKeyOrCertificate key) (verification : HostKeyVerification)
    (s : HandlerKeys key) : HandlerKeys key :=
  let k := presented_key presented in
  mk_handler_keys (Some (mk_key_info (algorithm_name k) (fingerprint k) verification)) (learned_keys s).

Definition load_trust : result (HostTrustPolicy key) :=
  load from_openssh_key parse_patterns hmac home open host port known_hosts_file.

Definition check_server_key (presented : PublicKeyOrCertificate key) (s : HandlerKeys key) : result bool * HandlerKeys key :=
  match presented with
  | HostCertificate certificate =>
      if bool_decide (host_key_policy = Insecure) then
        (Err "server unexpectedly presented a host certificate while certificate trust is disabled", s)
      else
        match load_trust with
        | Err e => (Err e, s)
        | Ok trust =>
            match verify_host_certificate ed25519_or_ecdsa fingerprint trust host certificate with
            | Err e => (Err e, s)
            | Ok _ => (Ok true, record_server_host_key presented Known s)
            end
        end
  | PlainKey public_key =>
      match load_trust with
      | Err e => (Err e, s)
      | Ok trust =>
          if is_revoked trust public_key then (Err "server host key is marked @revoked", s)
          else if bool_decide (host_key_policy = Insecure) then (Ok true, record_server_host_key presented InsecureKey s)
          else
            match check_known_hosts known_hosts_file public_key with
            | Err e => (Err e, s)
            | Ok true => (Ok true, record_server_host_key presented Known s)
            | Ok false =>
                if bool_decide (host_key_policy = Strict) then (Ok false, s)
                else
                  match learn_known_hosts known_hosts_file public_key with
                  | Err e => (Err e, s)
                  | Ok _ =>
                      let s := mk_handler_keys (server_host_key s) (learned_keys s ++ [public_key]) in
                      (Ok true, record_server_host_key presented Learned s)
                  end
            end
      end
  end.
End check.

(** ** The matcher *)

(** The bytes a pattern stands for: the tokens of [Glob], without regard to case. *)
Definition wild_matches (pattern candidate : list Z) : Prop :=
  matches (wild_tokens (to_ascii_lowercase pattern)) (to_ascii_lowercase candidate).

Section wild.
Context (pattern candidate : list Z).
Context (Hplain : star ∉ candidate).

(** What remains of the pattern against what remains of the candidate. *)
Definition rest_matches (i j : nat) : Prop := wild_matches (drop i pattern) (drop j candidate).

Lemma lower_star b : to_ascii_lowercase_char b = star ↔ b = star.
Proof.
  unfold to_ascii_lowercase_char, is_ascii_uppercase. change star with 42.
  destruct (Z.leb_spec 65 b), (Z.leb_spec b 90); cbn [andb]; split; lia.
Qed.

Lemma lower_question b : to_ascii_lowercase_char b = question ↔ b = question.
Proof.
  unfold to_ascii_lowercase_char, is_ascii_uppercase. change question with 63.
  destruct (Z.leb_spec 65 b), (Z.leb_spec b 90); cbn [andb]; split; lia.
Qed.

Lemma matches_lit_inv b ts x c : matches (TLit b :: ts) (x :: c) ↔ b = x ∧ matches ts c.
Proof. split; [inversion 1; subst; done|]. intros [-> ?]. by constructor. Qed.
Lemma matches_any_inv ts x c : matches (TAny :: ts) (x :: c) ↔ matches ts c.
Proof. split; [by inversion 1|]. by constructor. Qed.
Lemma matches_nil_inv c : matches [] c ↔ c = [].
Proof. split; [by inversion 1|]. intros ->. constructor. Qed.
Lemma matches_star_inv ts c : matches (TStar :: ts) c ↔ ∃ k, (k ≤ length c)%nat ∧ matches ts (drop k c).
Proof.
  split.
  - inversion 1 as [| | |ts' x c' Hm]; subst. exists (length x). rewrite length_app, drop_app_length. split; [lia|done].
  - intros (k & _ & Hm). rewrite <- (take_drop k c). by constructor.
Qed.

Lemma wild_token_lower b :
  wild_token (to_ascii_lowercase_char b) =
    if b =? star then TStar else if b =? question then TAny else TLit (to_ascii_lowercase_char b).
Proof.
  unfold wild_token. destruct (Z.eqb_spec b star) as [->|Hs]; [done|]. destruct (Z.eqb_spec b question) as [->|Hq]; [done|].
  rewrite (proj2 (Z.eqb_neq _ star)) by by rewrite lower_star.
  by rewrite (proj2 (Z.eqb_neq _ question)) by by rewrite lower_question.
Qed.

Lemma rest_unfold i b j :
  pattern !! i = Some b →
  rest_matches i j = matches ((if b =? star then TStar else if b =? question then TAny else TLit (to_ascii_lowercase_char b))
    :: wild_tokens (to_ascii_lowercase (drop (S i) pattern))) (to_ascii_lowercase (drop j candidate)).
Proof.
  intros Hb. unfold rest_matches, wild_matches. rewrite (drop_S pattern b i Hb).
  unfold wild_tokens, to_ascii_lowercase. cbn [fmap list_fmap]. by rewrite wild_token_lower.
Qed.

Lemma lower_drop j c : candidate !! j = Some c →
  to_ascii_lowercase (drop j candidate) = to_ascii_lowercase_char c :: to_ascii_lowercase (drop (S j) candidate).
Proof. intros Hc. by rewrite (drop_S candidate c j Hc). Qed.

Lemma rest_question i j c : pattern !! i = Some question → candidate !! j = Some c → rest_matches i j ↔ rest_matches (S i) (S j).
Proof. intros Hb Hc. rewrite (rest_unfold i question j Hb). cbn. rewrite (lower_drop j c Hc). apply matches_any_inv. Qed.

Lemma rest_literal i j b c :
  pattern !! i = Some b → candidate !! j = Some c → b ≠ star → b ≠ question →
  rest_matches i j ↔ byte_eq_ignore_case b c = true ∧ rest_matches (S i) (S j).
Proof.
  intros Hb Hc Hs Hq. rewrite (rest_unfold i b j Hb). rewrite (proj2 (Z.eqb_neq b star)), (proj2 (Z.eqb_neq b question)) by done.
  rewrite (lower_drop j c Hc), matches_lit_inv. unfold byte_eq_ignore_case. by rewrite Z.eqb_eq.
Qed.

Lemma rest_star i j :
  pattern !! i = Some star → (j ≤ length candidate)%nat →
  rest_matches i j ↔ ∃ k, (j ≤ k ≤ length candidate)%nat ∧ rest_matches (S i) k.
Proof.
  intros Hb Hj. rewrite (rest_unfold i star j Hb). cbn [Z.eqb]. rewrite matches_star_inv.
  unfold rest_matches, wild_matches, to_ascii_lowercase. rewrite length_fmap, length_drop. change char with Z. split.
  - intros (k & Hk & Hm). exists (j + k)%nat. split; [lia|]. rewrite <- drop_drop. by rewrite <- fmap_drop in Hm.
  - intros (k & Hk & Hm). exists (k - j)%nat. split; [lia|]. rewrite <- fmap_drop, drop_drop.
    by replace (j + (k - j))%nat with k by lia.
Qed.

Lemma rest_end i j : (length pattern ≤ i)%nat → rest_matches i j ↔ (length candidate ≤ j)%nat.
Proof.
  intros Hi. unfold rest_matches, wild_matches. rewrite (drop_ge pattern) by done. cbn [to_ascii_lowercase fmap list_fmap wild_tokens].
  change (wild_tokens (to_ascii_lowercase [])) with (@nil Token).
  rewrite matches_nil_inv. unfold to_ascii_lowercase. split.
  - intros Hn%fmap_nil_inv. apply (f_equal length) in Hn. rewrite length_drop in Hn. change char with Z in Hn. cbn [length] in Hn. lia.
  - intros Hj. by rewrite drop_ge.
Qed.

(** The answer at the end of the candidate. *)
Lemma rest_stars i : rest_matches i (length candidate) ↔ forallb (Z.eqb star) (drop i pattern) = true.
Proof.
  unfold rest_matches, wild_matches. rewrite (drop_ge candidate) by done. change (to_ascii_lowercase []) with (@nil char).
  induction (drop i pattern) as [|b p IH]; [split; [done|constructor]|].
  cbn [forallb]. unfold wild_tokens, to_ascii_lowercase in *. cbn [fmap list_fmap]. rewrite wild_token_lower, andb_true_iff, <- IH.
  rewrite (Z.eqb_sym star b). destruct (b =? star).
  - rewrite matches_star_inv. split; [intros (k & _ & Hm); rewrite drop_nil in Hm; done|].
    intros [_ Hm]. by exists 0%nat.
  - destruct (b =? question); (split; [inversion 1|by intros [? _]]).
Qed.

(** A stretch of the pattern without stars takes as much of the candidate. *)
Definition star_free (i n : nat) : Prop := ∀ k, (i ≤ k < i + n)%nat → ∃ b, pattern !! k = Some b ∧ b ≠ star.

Lemma stretch_matches i j n :
  star_free i n → (j ≤ length candidate)%nat → rest_matches i j →
  (j + n ≤ length candidate)%nat ∧ rest_matches (i + n) (j + n).
Proof.
  revert i j. induction n as [|n IH]; intros i j Hfree Hj Hm; [rewrite !Nat.add_0_r; done|].
  destruct (Hfree i ltac:(lia)) as (b & Hb & Hns).
  destruct (candidate !! j) as [c|] eqn:Hc.
  - assert (Hnext : rest_matches (S i) (S j)).
    { destruct (decide (b = question)) as [->|Hq]; [by apply (rest_question i j c)|].
      apply (rest_literal i j b c Hb Hc Hns Hq) in Hm. by destruct Hm. }
    apply lookup_lt_Some in Hc. rewrite !Nat.add_succ_r, <- !Nat.add_succ_l. apply IH; [|lia|done].
    intros k Hk. apply Hfree. lia.
  - apply lookup_ge_None in Hc. assert (j = length candidate) as -> by lia.
    apply rest_stars in Hm. rewrite (drop_S pattern b i Hb) in Hm. cbn [forallb] in Hm.
    apply andb_true_iff in Hm as [Hm%Z.eqb_eq _]. congruence.
Qed.

(** *** The loop *)
Definition wild_inv (s : WildState) : Prop :=
  (w_candidate s ≤ length candidate)%nat ∧ (w_pattern s ≤ length pattern)%nat ∧
  match w_star s with
  | None => w_star_candidate s = 0%nat ∧ (rest_matches 0 0 ↔ rest_matches (w_pattern s) (w_candidate s))
  | Some st => ∃ n,
      w_pattern s = (S st + n)%nat ∧ w_candidate s = (w_star_candidate s + n)%nat ∧ star_free (S st) n ∧
      (rest_matches 0 0 ↔ ∃ k, (w_star_candidate s ≤ k ≤ length candidate)%nat ∧ rest_matches (S st) k) ∧
      (rest_matches (S st) (w_star_candidate s) ↔ rest_matches (w_pattern s) (w_candidate s))
  end.

(** The work that is left. *)
Definition wild_measure (s : WildState) : nat :=
  let w := S (length candidate) in
  (match w_star s with None => S (length pattern) | Some st => length pattern - st end) * (w * w)
  + (length candidate - w_star_candidate s) * w + (length candidate - w_candidate s).

(** The whole matches exactly when what remains of this attempt does, once the
    candidate is used up or the pattern is at a star. *)
Lemma attempt_whole s :
  wild_inv s → (w_candidate s = length candidate ∨ pattern !! w_pattern s = Some star) →
  rest_matches 0 0 ↔ rest_matches (w_pattern s) (w_candidate s).
Proof.
  intros (Hc & Hp & Hinv) Hwhen. destruct (w_star s) as [st|]; [|tauto].
  destruct Hinv as (n & Hpn & Hcn & Hfree & Hall & Hthis). rewrite Hall. split.
  - intros (k & Hk & Hm). destruct (stretch_matches _ _ _ Hfree (proj2 Hk) Hm) as [Hlen Hrest].
    rewrite <- Hpn in Hrest. destruct Hwhen as [Hend|Hstar].
    + assert (k = w_star_candidate s) as -> by lia. by apply Hthis.
    + apply rest_star in Hrest as (m & Hm' & Hrest); [|done|lia]. apply rest_star; [done|lia|]. exists m. split; [lia|done].
  - intros Hm. exists (w_star_candidate s). split; [lia|by apply Hthis].
Qed.

Lemma mismatch i j c :
  candidate !! j = Some c →
  match pattern !! i with Some b => (b =? question) || byte_eq_ignore_case b c | None => false end = false →
  pattern !! i ≠ Some star → ¬ rest_matches i j.
Proof.
  intros Hc Hno Hstar Hm. destruct (pattern !! i) as [b|] eqn:Hb.
  - apply orb_false_iff in Hno as [Hq%Z.eqb_neq Hne]. assert (b ≠ star) as Hns by congruence.
    apply (rest_literal i j b c Hb Hc Hns Hq) in Hm as [Heq _]. congruence.
  - apply lookup_ge_None in Hb. apply rest_end in Hm; [|done]. apply lookup_lt_Some in Hc. lia.
Qed.

Lemma byte_hit i j b c :
  pattern !! i = Some b → candidate !! j = Some c → (b =? question) || byte_eq_ignore_case b c = true →
  b ≠ star ∧ (rest_matches i j ↔ rest_matches (S i) (S j)).
Proof.
  intros Hb Hc Hhit. destruct (decide (b = question)) as [->|Hq]; [split; [done|by apply (rest_question i j c)]|].
  rewrite (proj2 (Z.eqb_neq b question)) in Hhit by done. cbn [orb] in Hhit.
  assert (b ≠ star) as Hs.
  { intros ->. unfold byte_eq_ignore_case in Hhit. apply Z.eqb_eq in Hhit. symmetry in Hhit.
    change (to_ascii_lowercase_char star) with star in Hhit. apply lower_star in Hhit as ->.
    by apply Hplain, (list_elem_of_lookup_2 _ j). }
  split; [done|]. rewrite (rest_literal i j b c) by done. tauto.
Qed.

Lemma wild_step_ok s :
  wild_inv s →
  match wild_step pattern candidate s with
  | inl s' => wild_inv s' ∧ (wild_measure s' < wild_measure s)%nat
  | inr b => b = true ↔ rest_matches 0 0
  end.
Proof.
  intros Hinv. pose proof Hinv as (Hc & Hp & Hst). unfold wild_step. destruct (candidate !! w_candidate s) as [c|] eqn:Hlook.
  2: { apply lookup_ge_None in Hlook. assert (w_candidate s = length candidate) as Hend by lia.
       rewrite (attempt_whole s) by auto. rewrite Hend. symmetry. apply rest_stars. }
  apply lookup_lt_Some in Hlook as Hlt.
  destruct (match pattern !! w_pattern s with Some b => _ | None => false end) eqn:Hhit.
  - destruct (pattern !! w_pattern s) as [b|] eqn:Hb; [|done]. apply lookup_lt_Some in Hb as Hplt.
    destruct (byte_hit _ _ _ _ Hb Hlook Hhit) as [Hns Hnext]. split.
    + split; [cbn; lia|]. split; [cbn; lia|]. cbn [w_star w_star_candidate w_pattern w_candidate].
      destruct (w_star s) as [st|]; [|rewrite <- Hnext; tauto]. destruct Hst as (n & Hpn & Hcn & Hfree & Hall & Hthis).
      exists (S n). split_and!; [lia|lia| |done|by rewrite <- Hnext].
      intros k Hk. destruct (decide (k = w_pattern s)) as [->|]; [by exists b|]. apply Hfree. lia.
    + unfold wild_measure. cbn [w_star w_star_candidate w_candidate]. lia.
  - case_bool_decide as Hstar.
    + apply lookup_lt_Some in Hstar as Hplt. split.
      * split; [cbn; lia|]. split; [cbn; lia|]. cbn [w_star w_star_candidate w_pattern w_candidate].
        exists 0%nat. split_and!; [lia|lia|intros k Hk; lia| |done].
        rewrite (attempt_whole s) by auto. apply rest_star; [done|lia].
      * unfold wild_measure. cbn [w_star w_star_candidate w_candidate].
        set (w := S (length candidate)). set (a := (length candidate - w_candidate s)%nat).
        assert (a * w + a < w * w)%nat by (unfold a, w; nia).
        assert (match w_star s with None => S (length pattern) | Some st => length pattern - st end ≥ S (length pattern - w_pattern s))%nat.
        { destruct (w_star s) as [st|]; [destruct Hst as (n & ? & _)|]; lia. }
        nia.
    + destruct (w_star s) as [st|] eqn:Hw.
      * destruct Hst as (n & Hpn & Hcn & Hfree & Hall & Hthis). split.
        -- split; [cbn; lia|]. split; [cbn; lia|]. cbn [w_star w_star_candidate w_pattern w_candidate].
           exists 0%nat. split_and!; [lia|lia|intros k Hk; lia| |done].
           rewrite Hall. split; [|intros (k & ? & ?); exists k; split; [lia|done]].
           intros (k & Hk & Hm). destruct (decide (k = w_star_candidate s)) as [->|]; [|exists k; split; [lia|done]].
           by apply Hthis, (mismatch _ _ c) in Hm.
        -- unfold wild_measure. cbn [w_star w_star_candidate w_candidate]. rewrite Hw. nia.
      * destruct Hst as [_ Hall]. split; [done|]. intros Hm. by apply Hall, (mismatch _ _ c) in Hm.
Qed.

Lemma wild_loop_ok fuel s :
  wild_inv s → (wild_measure s < fuel)%nat →
  ∃ b, wild_loop fuel pattern candidate s = Some b ∧ (b = true ↔ rest_matches 0 0).
Proof.
  revert s. induction fuel as [|fuel IH]; intros s Hinv Hfuel; [lia|]. cbn [wild_loop].
  pose proof (wild_step_ok s Hinv) as Hstep. destruct (wild_step pattern candidate s) as [s'|b]; [|by exists b].
  destruct Hstep as [Hinv' Hless]. apply IH; [done|lia].
Qed.

Lemma wild_start : wild_inv (mk_wild 0 0 None 0) ∧ (wild_measure (mk_wild 0 0 None 0) < wild_fuel pattern candidate)%nat.
Proof.
  split; [split; [cbn; lia|split; [cbn; lia|done]]|]. unfold wild_measure, wild_fuel. cbn [w_star w_star_candidate w_candidate].
  nia.
Qed.

Lemma wildcard_match_ok :
  ∃ b, wild_loop (wild_fuel pattern candidate) pattern candidate (mk_wild 0 0 None 0) = Some b ∧
    (b = true ↔ wild_matches pattern candidate).
Proof. destruct wild_start as [? ?]. by apply wild_loop_ok. Qed.
End wild.

(** ** The policy of a known hosts file *)
Section policy.
Context {key : Type} `{EqDecision key}.
Context (from_openssh_key : str → option key).
Context (parse_patterns : str → option HostPatterns) (hmac : list Z → option (list Z → list Z → bool)).
Abbreviation trust_line' := (trust_line from_openssh_key parse_patterns hmac).
Abbreviation trust_parse' := (trust_parse from_openssh_key parse_patterns hmac).

(** Lines that say nothing of trust: empty ones, comments and plain entries. *)
Definition unmarked (raw_line : str) : Prop := head (trim raw_line) ≠ Some at_sign.

(** A line that marks a key for the target. *)
Definition marks (target raw_line : str) (m : marker) (k : key) : Prop :=
  ¬ unmarked raw_line ∧ ∃ patterns key_text,
    marker_fields parse_patterns (split_ascii_whitespace (trim raw_line)) = Ok (m, patterns, key_text) ∧
    host_patterns_match hmac target patterns = Ok true ∧ from_openssh_key key_text = Some k.

(** A line that the policy can be read from. *)
Definition readable (target raw_line : str) : Prop :=
  unmarked raw_line ∨ ∃ m patterns key_text matched,
    marker_fields parse_patterns (split_ascii_whitespace (trim raw_line)) = Ok (m, patterns, key_text) ∧
    host_patterns_match hmac target patterns = Ok matched ∧
    (matched = true → is_Some (from_openssh_key key_text)).

Definition marked_keys (m : marker) (policy : HostTrustPolicy key) : list key :=
  match m with CertAuthority => trusted_certificate_authorities policy | Revoked => revoked_keys policy end.

Lemma unmarked_cond line :
  bool_decide (line = []) || starts_with line [hash] || negb (starts_with line [at_sign]) = true ↔ head line ≠ Some at_sign.
Proof.
  rewrite !orb_true_iff, negb_true_iff, !starts_with_one, !bool_decide_eq_true, bool_decide_eq_false.
  destruct line as [|c line]; cbn [head]; [naive_solver|]. split; [|auto]. intros [[?|[= ->]]|?]; done.
Qed.

Lemma elem_of_push_key m m' policy k k' :
  k ∈ marked_keys m (push_key policy m' k') ↔ k ∈ marked_keys m policy ∨ m = m' ∧ k = k'.
Proof.
  destruct m, m'; cbn; rewrite ?elem_of_app, ?list_elem_of_singleton; naive_solver.
Qed.

Lemma trust_line_ok target policy line :
  match trust_line' target policy line with
  | Ok policy' => readable target line ∧ ∀ m k, k ∈ marked_keys m policy' ↔ k ∈ marked_keys m policy ∨ marks target line m k
  | Err _ => ¬ readable target line
  end.
Proof.
  unfold trust_line, readable, marks, unmarked.
  destruct (bool_decide (trim line = []) || _ || _) eqn:Hskip.
  { apply unmarked_cond in Hskip. split; [by left|]. tauto. }
  assert (¬ head (trim line) ≠ Some at_sign) as Hmark by (rewrite <- unmarked_cond; congruence).
  destruct (marker_fields _ _) as [[[m patterns] key_text]|e] eqn:Hfields;
    [rewrite bind_of_ok|rewrite bind_of_err; intros [?|(? & ? & ? & ? & ? & _)]; [done|congruence]].
  destruct (host_patterns_match hmac target patterns) as [matched|e] eqn:Hmatch;
    [rewrite bind_of_ok|rewrite bind_of_err; intros [?|(? & ? & ? & ? & Hf & Hm & _)]; [done|injection Hf as <- <- <-; congruence]].
  destruct matched; cbn [negb].
  - destruct (from_openssh_key key_text) as [k|] eqn:Hkey; cbn [with_context]; [rewrite bind_of_ok|].
    + split; [right; exists m, patterns, key_text, true; split_and!; [done|done|by exists k]|].
      intros m' k'. rewrite elem_of_push_key. split.
      * intros [?|[-> ->]]; [by left|right]. split; [done|]. by exists patterns, key_text.
      * intros [?|[_ (p' & t' & Hf & _ & Hk)]]; [by left|right]. injection Hf as <- <- <-. split; [done|congruence].
    + rewrite bind_of_err. intros [?|(m' & p' & t' & mt & Hf & Hm' & Hsome)]; [done|].
      injection Hf as <- <- <-. rewrite Hmatch in Hm'. injection Hm' as <-. destruct (Hsome eq_refl) as [k Hk]. congruence.
  - split; [right; exists m, patterns, key_text, false; by split_and!|]. intros m' k'. split; [by left|].
    intros [?|[_ (p' & t' & Hf & Hm & _)]]; [done|]. injection Hf as <- <- <-. congruence.
Qed.

Lemma trust_lines_ok target policy ls :
  match try_fold (trust_line' target) policy ls with
  | Ok policy' => Forall (readable target) ls ∧
      ∀ m k, k ∈ marked_keys m policy' ↔ k ∈ marked_keys m policy ∨ ∃ line, line ∈ ls ∧ marks target line m k
  | Err _ => ¬ Forall (readable target) ls
  end.
Proof.
  revert policy. induction ls as [|line ls IH]; intros policy; cbn [try_fold].
  { split; [constructor|]. intros m k. split; [by left|]. by intros [?|(? & ?%elem_of_nil & _)]. }
  pose proof (trust_line_ok target policy line) as Hline.
  destruct (trust_line' target policy line) as [policy'|e]; [rewrite bind_of_ok|rewrite bind_of_err, Forall_cons; tauto].
  specialize (IH policy'). destruct (try_fold _ policy' ls) as [policy''|e].
  - destruct Hline as [Hr Hk], IH as [Hrs Hks]. split; [by constructor|]. intros m k. rewrite Hks, Hk. split.
    + intros [[?|?]|(l & ? & ?)]; [by left|right; exists line; split; [by left|done]|right; exists l; split; [by right|done]].
    + intros [?|(l & [->|?]%elem_of_cons & ?)]; [by left; left|by left; right|right; by exists l].
  - rewrite Forall_cons. tauto.
Qed.

Lemma dedup_keys_ok (unique keys : list key) :
  NoDup unique → NoDup (foldl dedup_step unique keys) ∧ ∀ k, k ∈ foldl dedup_step unique keys ↔ k ∈ unique ∨ k ∈ keys.
Proof.
  revert unique. induction keys as [|x keys IH]; intros unique Hnd; cbn [foldl]; [split; [done|set_solver]|].
  unfold dedup_step at 2 4. case_bool_decide as Hx.
  - destruct (IH unique Hnd) as [? Hk]. split; [done|]. intros k. rewrite Hk. set_solver.
  - destruct (IH (unique ++ [x])) as [? Hk].
    { apply NoDup_app. split; [done|]. split; [set_solver|apply NoDup_singleton]. }
    split; [done|]. intros k. rewrite Hk. set_solver.
Qed.

(** The keys of a policy are exactly the marked ones. *)
Lemma trust_parse_ok host port contents :
  let target := known_hosts_target host port in
  match trust_parse' host port contents with
  | Ok policy => Forall (readable target) (lines contents) ∧
      ∀ m, NoDup (marked_keys m policy) ∧
        ∀ k, k ∈ marked_keys m policy ↔ ∃ line, line ∈ lines contents ∧ marks target line m k
  | Err _ => ¬ Forall (readable target) (lines contents)
  end.
Proof.
  intros target. unfold trust_parse. pose proof (trust_lines_ok target default_trust (lines contents)) as Hls.
  fold target. destruct (try_fold _ _ _) as [policy|e]; [rewrite bind_of_ok|done].
  destruct Hls as [Hr Hk]. split; [done|]. intros m. specialize (Hk m).
  assert (Hempty : ∀ k, k ∉ marked_keys m default_trust) by (intros k; destruct m; apply not_elem_of_nil).
  destruct (dedup_keys_ok [] (marked_keys m policy) (NoDup_nil_2)) as [Hnd Hdedup].
  assert (marked_keys m (mk_trust (dedup_public_keys (trusted_certificate_authorities policy)) (dedup_public_keys (revoked_keys policy)))
    = dedup_public_keys (marked_keys m policy)) as -> by by destruct m.
  split; [done|]. intros k. unfold dedup_public_keys. rewrite Hdedup, Hk, elem_of_nil.
  specialize (Hempty k). tauto.
Qed.
End policy.

(** ** The decision *)
Section decision.
Context {key : Type} `{EqDecision key}.
Context (from_openssh_key : str → option key) (ed25519_or_ecdsa : key → bool) (fingerprint : key → str).
Context (parse_patterns : str → option HostPatterns) (hmac : list Z → option (list Z → list Z → bool)).
Context (algorithm_name : key → str) (home : option str) (open : str → io_result (list Z)).
Context (check_known_hosts : option str → key → result bool) (learn_known_hosts : option str → key → result unit).
Context (host : str) (port : Z) (host_key_policy : HostKeyPolicy) (known_hosts_file : option str).
Abbreviation load_trust' :=
  (load_trust from_openssh_key parse_patterns hmac home open host port known_hosts_file).
Abbreviation check_server_key' :=
  (check_server_key from_openssh_key ed25519_or_ecdsa fingerprint parse_patterns hmac algorithm_name home open
     check_known_hosts learn_known_hosts host port host_key_policy known_hosts_file).

(** A host certificate that the policy vouches for. *)
Definition certificate_trusted (trust : HostTrustPolicy key) (c : CertificateView key) : Prop :=
  let authorities := filter (λ k, ed25519_or_ecdsa k = true) (trusted_certificate_authorities trust) in
  ct_is_host c = true ∧ ct_public_key c ∉ revoked_keys trust ∧ ct_signature_key c ∉ revoked_keys trust ∧
  ed25519_or_ecdsa (ct_signature_key c) = true ∧ authorities ≠ [] ∧ ct_validate c (fingerprint <$> authorities) = true ∧
  ct_critical_options c = [] ∧
  (ct_valid_principals c = [] ∨ ∃ principal, principal ∈ ct_valid_principals c ∧ host_principal_matches host principal = true).

Lemma verify_certificate_ok trust c :
  is_ok (verify_host_certificate ed25519_or_ecdsa fingerprint trust host c) = true ↔ certificate_trusted trust c.
Proof.
  trans (verify_host_certificate ed25519_or_ecdsa fingerprint trust host c = Ok tt).
  { destruct (verify_host_certificate _ _ _ _ _) as [[]|]; [done|]. split; [done|intros H; discriminate H]. }
  unfold verify_host_certificate, certificate_trusted, is_revoked. rewrite !then_ok, !bail_if_ok.
  rewrite !negb_false_iff, !bool_decide_eq_false, bool_decide_eq_true.
  rewrite andb_false_iff, !negb_false_iff, bool_decide_eq_true, existsb_exists. setoid_rewrite list_elem_of_In.
  assert (∀ l : list key, fingerprint <$> l ≠ [] ↔ l ≠ []) as -> by (intros []; done). tauto.
Qed.

(** Which presented keys are accepted, and as what. *)
Definition accepted_as (presented : PublicKeyOrCertificate key) (v : HostKeyVerification) : Prop :=
  ∃ trust, load_trust' = Ok trust ∧
  match presented with
  | HostCertificate c => host_key_policy ≠ Insecure ∧ certificate_trusted trust c ∧ v = Known
  | PlainKey k =>
      k ∉ revoked_keys trust ∧
      (host_key_policy = Insecure ∧ v = InsecureKey ∨
       host_key_policy ≠ Insecure ∧ check_known_hosts known_hosts_file k = Ok true ∧ v = Known ∨
       host_key_policy = AcceptNew ∧ check_known_hosts known_hosts_file k = Ok false ∧
         learn_known_hosts known_hosts_file k = Ok tt ∧ v = Learned)
  end.

Lemma check_key_ok presented s :
  match check_server_key' presented s with
  | (Ok true, s') => ∃ v, accepted_as presented v ∧
      s' = record_server_host_key fingerprint algorithm_name presented v
             (mk_handler_keys (server_host_key s)
                (learned_keys s ++ match v with Learned => [presented_key presented] | _ => [] end))
  | (_, s') => s' = s ∧ ∀ v, ¬ accepted_as presented v
  end.
Proof.
  unfold check_server_key, accepted_as. destruct presented as [k|c].
  - destruct load_trust' as [trust|e]; [|split; [done|]; by intros v (? & ? & _)].
    unfold is_revoked. case_bool_decide as Hrev; [split; [done|]; intros v (? & [= <-] & ? & _); done|].
    case_bool_decide as Hins.
    { exists InsecureKey. split; [|unfold record_server_host_key; cbn; by rewrite app_nil_r]. exists trust. by split_and!; [| |left]. }
    destruct (check_known_hosts known_hosts_file k) as [[]|e] eqn:Hknown.
    + exists Known. split; [|unfold record_server_host_key; cbn; by rewrite app_nil_r].
      exists trust. split_and!; [done|done|right; left; done].
    + case_bool_decide as Hstrict.
      { split; [done|]. intros v (? & [= <-] & _ & [[? _]|[(_ & ? & _)|(? & _)]]); congruence. }
      destruct (learn_known_hosts known_hosts_file k) as [[]|e] eqn:Hlearn.
      * exists Learned. split; [|done]. exists trust. split_and!; [done|done|]. right. right.
        by destruct host_key_policy.
      * split; [done|]. intros v (? & [= <-] & _ & [[? _]|[(_ & ? & _)|(_ & _ & ? & _)]]); congruence.
    + split; [done|]. intros v (? & [= <-] & _ & [[? _]|[(_ & ? & _)|(_ & ? & _)]]); congruence.
  - case_bool_decide as Hins; [split; [done|]; by intros v (? & _ & ? & _)|].
    destruct load_trust' as [trust|e]; [|split; [done|]; by intros v (? & ? & _)].
    pose proof (verify_certificate_ok trust c) as Hv. destruct (verify_host_certificate _ _ _ _ c) as [[]|e]; cbn [is_ok] in Hv.
    + exists Known. split; [|unfold record_server_host_key; cbn; by rewrite app_nil_r]. exists trust. naive_solver.
    + split; [done|]. intros v (? & [= <-] & _ & Ht & _). apply Hv in Ht. discriminate Ht.
Qed.

(** The text of the file whose markers count. *)
Definition trust_file (contents : str) : Prop :=
  ∃ path bytes,
    match known_hosts_file with Some path => Ok path | None => default_known_hosts_path home end = Ok path ∧
    open path = IoOk bytes ∧ from_utf8 bytes = Some contents.

Lemma load_file_ok contents trust :
  trust_file contents → load_trust' = Ok trust →
  trust_parse from_openssh_key parse_patterns hmac host port contents = Ok trust.
Proof.
  intros (path & bytes & Hpath & Hopen & Hutf8). unfold load_trust, load. rewrite Hpath, bind_of_ok, Hopen.
  unfold load_path, read_known_hosts_bounded.
  apply utf8_from_utf8 in Hutf8 as Hutf8'. destruct Hutf8' as [Hbytes Hvalid]. intros Hload.
  apply bind_ok in Hload as (contents' & Hread & Hload).
  apply bind_ok in Hread as (text & Htext%with_context_ok & Hread).
  apply bind_ok in Hread as ([] & Hlen%bail_if_ok & <-%Ok_inj). apply Z.ltb_ge in Hlen.
  assert (text = contents) as ->; [|exact Hload].
  apply utf8_from_utf8 in Htext as [Htake Hvalid']. assert (length bytes ≤ Z.to_nat MAX_KNOWN_HOSTS_BYTES)%nat as Hshort.
  { rewrite <- length_utf8, Htake, length_take in Hlen. lia. }
  rewrite take_ge in Htake by lia. apply utf8_inj; [done..|congruence].
Qed.
End decision.

(** ** Theorems *)

(** The wildcard matcher is exact.  The loop with one backtracking point ends,
    and says of a pattern and a name without stars what the reference relation of
    wildcards says, without regard to the case of ASCII letters. *)
Theorem wildcard_exact pattern candidate :
  star ∉ candidate →
  ∃ b, wild_loop (wild_fuel pattern candidate) pattern candidate (mk_wild 0 0 None 0) = Some b ∧
    wildcard_match_trust pattern candidate = b ∧ (b = true ↔ wild_matches pattern candidate).
Proof.
  intros Hplain. destruct (wildcard_match_ok pattern candidate Hplain) as (b & Hloop & Hb).
  exists b. split_and!; [done| |done]. unfold wildcard_match_trust. by rewrite Hloop.
Qed.

(** C16: the decision on a server key is exact.  A plain key is accepted exactly when
    the policy of the known hosts file can be read and does not revoke it, and it
    is known, or host keys are not checked, or new keys are accepted and it could
    be learned; a certificate exactly when certificates are checked and a trusted
    authority vouches for it, for a name that covers the host.  What is recorded
    says how it was accepted, only accepted new keys are learned, and a refusal
    changes nothing.  In particular a key that the file revokes for the host is
    never accepted, whatever the policy, nor is a certificate with or by it, and
    nothing is accepted when a marker line cannot be read. *)
Theorem server_key_decision {key} `{EqDecision key} (from_openssh_key : str → option key) ed25519_or_ecdsa fingerprint
    parse_patterns hmac algorithm_name home open check_known_hosts learn_known_hosts host port host_key_policy
    known_hosts_file presented s :
  let accepted := accepted_as from_openssh_key ed25519_or_ecdsa fingerprint parse_patterns hmac home open
    check_known_hosts learn_known_hosts host port host_key_policy known_hosts_file presented in
  let '(r, s') := check_server_key from_openssh_key ed25519_or_ecdsa fingerprint parse_patterns hmac algorithm_name home open
    check_known_hosts learn_known_hosts host port host_key_policy known_hosts_file presented s in
  (r = Ok true ↔ ∃ v, accepted v) ∧
  (r = Ok true → ∃ v, accepted v ∧
     s' = record_server_host_key fingerprint algorithm_name presented v
       (mk_handler_keys (server_host_key s)
          (learned_keys s ++ match v with Learned => [presented_key presented] | _ => [] end))) ∧
  (r ≠ Ok true → s' = s) ∧
  ∀ contents, trust_file home open known_hosts_file contents →
    (∀ line, line ∈ lines contents →
       marks from_openssh_key parse_patterns hmac (known_hosts_target host port) line Revoked (presented_key presented) →
       r ≠ Ok true) ∧
    (r = Ok true → Forall (readable from_openssh_key parse_patterns hmac (known_hosts_target host port)) (lines contents)).
Proof.
  intros accepted.
  pose proof (check_key_ok from_openssh_key ed25519_or_ecdsa fingerprint parse_patterns hmac algorithm_name home open
    check_known_hosts learn_known_hosts host port host_key_policy known_hosts_file presented s) as Hspec. fold accepted in Hspec.
  destruct (check_server_key _ _ _ _ _ _ _ _ _ _ _ _ _ _ presented s) as [[[]|e] s'].
  - destruct Hspec as (v & Hv & Hs'). split_and!; [naive_solver|naive_solver|done|].
    intros contents Hfile. destruct Hv as (trust & Hload & Hv). pose proof (load_file_ok _ _ _ _ _ _ _ _ _ _ Hfile Hload) as Hparse.
    pose proof (trust_parse_ok from_openssh_key parse_patterns hmac host port contents) as Hok. cbv zeta in Hok. rewrite Hparse in Hok.
    destruct Hok as [Hread Hkeys]. split; [|done]. intros line Hline Hmark _. destruct (Hkeys Revoked) as [_ Hrev].
    assert (presented_key presented ∈ revoked_keys trust) as Hin by (apply Hrev; by exists line).
    destruct presented as [k|c]; cbn [presented_key] in Hin; destruct Hv as (? & Hv); [done|].
    destruct Hv as [(_ & Hnot & _) _]. done.
  - destruct Hspec as [-> Hno]. split_and!; [naive_solver|done|done|]. intros contents _. split; [done|done].
  - destruct Hspec as [-> Hno]. split_and!; [naive_solver|done|done|]. intros contents _. split; [done|done].
Qed.

Module Examples.
Lemma wildcard_exact_witness :
  star ∉ utf8 (lit "api.prod.example") ∧ wild_matches (utf8 (lit "*.PROD.exampl?")) (utf8 (lit "api.prod.example")).
Proof.
  assert (star ∉ utf8 (lit "api.prod.example")) as Hplain by decide_now. split; [exact Hplain|].
  destruct (wildcard_exact (utf8 (lit "*.PROD.exampl?")) _ Hplain) as (b & _ & Hb & Hiff).
  apply Hiff. rewrite <- Hb. by vm_compute.
Defined.

(** A star in the candidate is taken for the star of the pattern, which is then
    forgotten as a wildcard. *)
Example star_in_candidate :
  wildcard_match_trust (utf8 (lit "*")) (utf8 (lit "*a")) = false ∧ wild_matches (utf8 (lit "*")) (utf8 (lit "*a")).
Proof. split; [by vm_compute|]. apply (matches_star [] (lit "*a") []). constructor. Qed.

(** Keys are their text; [db1] is known, [db2] is revoked, every name is vouched for
    by the authority [ca]. *)
Definition parse_patterns0 (text : str) : option HostPatterns := Some (Patterns (split comma text)).
Definition known_hosts0 : str :=
  unlines (lit <$> ["# trust"; "db1 ssh-ed25519 K1"; "@revoked *.example,!db9.example ssh-ed25519 K2"; "@cert-authority * ssh-ed25519 CA"]%string).
Definition check0 (policy : HostKeyPolicy) (host : str) (presented : PublicKeyOrCertificate str) : result bool * HandlerKeys str :=
  check_server_key Some (λ _, true) id parse_patterns0 (λ _, None) id (Some (lit "/h"))
    (λ path, if bool_decide (path = lit "/h/.ssh/known_hosts") then IoOk (utf8 known_hosts0) else NotFound)
    (λ _ k, Ok (bool_decide (k = lit "ssh-ed25519 K1"))) (λ _ _, Ok tt) host 22 policy None presented (mk_handler_keys None []).

Example decisions0 :
  (check0 Insecure (lit "db2.example") (PlainKey (lit "ssh-ed25519 K2"))).1 = Err "server host key is marked @revoked" ∧
  (check0 Strict (lit "db9.example") (PlainKey (lit "ssh-ed25519 K2"))).1 = Ok false ∧
  check0 AcceptNew (lit "db9.example") (PlainKey (lit "ssh-ed25519 K2")) =
    (Ok true, mk_handler_keys (Some (mk_key_info (lit "ssh-ed25519 K2") (lit "ssh-ed25519 K2") Learned)) [lit "ssh-ed25519 K2"]) ∧
  (check0 Strict (lit "db1") (PlainKey (lit "ssh-ed25519 K1"))).1 = Ok true ∧
  (check0 Strict (lit "db1.example") (HostCertificate (mk_certificate str true (lit "K7") (lit "ssh-ed25519 CA")
     (λ fps, bool_decide (lit "ssh-ed25519 CA" ∈ fps)) [] [lit "*.example"]))).1 = Ok true.
Proof. vm_compute. repeat split. Qed.
End Examples.
