(* ===== verification/ConnectionManager.v ===== *)
(** * The connection manager ([crates/kaduox-ssh-core/src/manager.rs],
      [manager/jump.rs]; the reuse keys of [auth.rs])

    Named connections shared by concurrent tasks.  Every method is cut at its
    awaits and lock releases into steps of a task; a system step runs one task or
    one event of the environment (a transport dies, a lease is dropped, a future is
    cancelled), so a list of labels is an interleaving.  Reference counts are what
    the tasks, the map and the leases hold; a wrapper nobody holds is dropped at
    the end of the step, and its capacity permit returned. *)

From stdpp Require Import base list gmap fin_maps strings numbers sorting.
From Stdlib Require Import Lia.
From S2P Require Import Prelude RustStr Config.

(** ** Definitions *)

(** *** Authentication ([auth.rs]) *)
Inductive Authentication :=
| AuthPassword (password : str)
| AuthKeyboardInteractive (secret : str)
| AuthPrivateKey (path : os_path) (passphrase : option str)
| AuthAgent
| AuthAuto (identity_files : list os_path) (passphrase : option str).

Inductive AuthenticationReuseKey :=
| ReusePrivateKey (path : os_path)
| ReuseAgent
| ReuseAuto (identity_files : list os_path)
| NonReusable.
#[export] Instance reuse_key_eq_dec : EqDecision AuthenticationReuseKey.
Proof. solve_decision. Defined.

Definition can_reuse_with (existing requested : AuthenticationReuseKey) : bool :=
  match existing, requested with
  | ReusePrivateKey e, ReusePrivateKey r => bool_decide (e = r)
  | ReuseAgent, ReuseAgent => true
  | ReuseAuto e, ReuseAuto r => bool_decide (e = r)
  | _, _ => false
  end.

Definition reuse_key (a : Authentication) : AuthenticationReuseKey :=
  match a with
  | AuthPassword _ | AuthKeyboardInteractive _ => NonReusable
  | AuthPrivateKey path passphrase => if bool_decide (is_Some passphrase) then NonReusable else ReusePrivateKey path
  | AuthAgent => ReuseAgent
  | AuthAuto files passphrase =>
      if bool_decide (is_Some passphrase) || bool_decide (files = []) then NonReusable else ReuseAuto files
  end.

Definition ensure_config_matches (existing requested : ConnectionConfig) : result unit :=
  bail_if (negb (bool_decide (existing = requested))) "already bound to a different SSH configuration".

Definition ensure_reusable (existing requested : ConnectionConfig) (existing_auth requested_auth : AuthenticationReuseKey)
    : result unit :=
  bail_if (negb (bool_decide (existing = requested))) "already bound to a different SSH configuration" ≫= λ _,
  bail_if (negb (can_reuse_with existing_auth requested_auth))
    "already bound to a different or non-reusable authentication source".

(** *** State *)

(** A [ManagedConnection] with its client. *)
Record Managed := mk_managed {
  mg_config : ConnectionConfig;
  mg_auth : AuthenticationReuseKey;
  mg_alive : bool;
  mg_leases : nat;
  (* clones of the client outside the manager *)
  mg_clients : nat;
  mg_last_used : Z;
}.

Inductive outcome := OConnection (id : nat) | ONone | OError (e : string) | OCancelled.

(** Which lookup of the method a task is at. *)
Inductive lookup_site := Optimistic | Follower | LeaderAgain (sig : nat).

Inductive pc :=
| PLookup (site : lookup_site)
| PEvict (site : lookup_site) (id : nat)
| PClaim
| PWait (sig : nat)
| PPrune (sig : nat)
| PPermit (sig : nat)
| PConnect (sig : nat)
| PInsert (sig id : nat)
| PClose (sig existing : nat) (compatibility : result unit)
| PLeave (sig : nat) (o : outcome)
| PGot (id : nat)
| PDone (o : outcome).

Inductive request :=
| Connect (config : ConnectionConfig) (authentication : AuthenticationReuseKey) (jump : bool)
| Get.

Record Task := mk_task { tk_name : str; tk_request : request; tk_lease : bool; tk_pc : pc }.
Definition at_pc (t : Task) (p : pc) : Task := mk_task (tk_name t) (tk_request t) (tk_lease t) p.

Record Manager := mk_manager {
  mc_max : nat;
  mc_idle_timeout : Z;
  mc_now : Z;
  (* free permits of the semaphore *)
  mc_permits : nat;
  mc_connections : gmap str nat;
  mc_connecting : gmap str nat;
  (* the signals whose watch is true *)
  mc_signalled : gset nat;
  mc_heap : gmap nat Managed;
  mc_tasks : gmap nat Task;
  (* connections taken out of the map that are being closed *)
  mc_closing : list nat;
  mc_next_id : nat;
  mc_next_signal : nat;
}.

Definition manager_new (max_connections : nat) (idle_timeout : Z) : Manager :=
  mk_manager max_connections idle_timeout 0 max_connections ∅ ∅ ∅ ∅ ∅ [] 0 0.

(** *** Updates of one field *)
Definition set_now (n : Z) (m : Manager) := mk_manager (mc_max m) (mc_idle_timeout m) n (mc_permits m) (mc_connections m)
  (mc_connecting m) (mc_signalled m) (mc_heap m) (mc_tasks m) (mc_closing m) (mc_next_id m) (mc_next_signal m).
Definition set_permits (n : nat) (m : Manager) := mk_manager (mc_max m) (mc_idle_timeout m) (mc_now m) n (mc_connections m)
  (mc_connecting m) (mc_signalled m) (mc_heap m) (mc_tasks m) (mc_closing m) (mc_next_id m) (mc_next_signal m).
Definition set_connections (c : gmap str nat) (m : Manager) := mk_manager (mc_max m) (mc_idle_timeout m) (mc_now m) (mc_permits m) c
  (mc_connecting m) (mc_signalled m) (mc_heap m) (mc_tasks m) (mc_closing m) (mc_next_id m) (mc_next_signal m).
Definition set_heap (h : gmap nat Managed) (m : Manager) := mk_manager (mc_max m) (mc_idle_timeout m) (mc_now m) (mc_permits m)
  (mc_connections m) (mc_connecting m) (mc_signalled m) h (mc_tasks m) (mc_closing m) (mc_next_id m) (mc_next_signal m).
Definition set_tasks (t : gmap nat Task) (m : Manager) := mk_manager (mc_max m) (mc_idle_timeout m) (mc_now m) (mc_permits m)
  (mc_connections m) (mc_connecting m) (mc_signalled m) (mc_heap m) t (mc_closing m) (mc_next_id m) (mc_next_signal m).
Definition set_closing (c : list nat) (m : Manager) := mk_manager (mc_max m) (mc_idle_timeout m) (mc_now m) (mc_permits m)
  (mc_connections m) (mc_connecting m) (mc_signalled m) (mc_heap m) (mc_tasks m) c (mc_next_id m) (mc_next_signal m).
Definition set_signals (connecting : gmap str nat) (signalled : gset nat) (next : nat) (m : Manager) :=
  mk_manager (mc_max m) (mc_idle_timeout m) (mc_now m) (mc_permits m) (mc_connections m)
  connecting signalled (mc_heap m) (mc_tasks m) (mc_closing m) (mc_next_id m) next.

(** *** Ownership *)
Definition pc_holds (p : pc) (id : nat) : bool :=
  match p with
  | PEvict _ i | PInsert _ i | PClose _ i _ | PLeave _ (OConnection i) | PGot i => bool_decide (i = id)
  | _ => false
  end.
(** The candidate's client is cloned besides its wrapper. *)
Definition pc_holds_client (p : pc) (id : nat) : bool :=
  match p with PInsert _ i => bool_decide (i = id) | _ => false end.

Definition in_map (m : Manager) (id : nat) : bool := existsb (λ e, bool_decide (e.2 = id)) (map_to_list (mc_connections m)).
Definition task_holds (m : Manager) (id : nat) : nat :=
  length (filter (λ e : nat * Task, pc_holds (tk_pc e.2) id = true) (map_to_list (mc_tasks m))).
Definition task_holds_client (m : Manager) (id : nat) : nat :=
  length (filter (λ e : nat * Task, pc_holds_client (tk_pc e.2) id = true) (map_to_list (mc_tasks m))).

(** [Arc::strong_count] of a wrapper, and of its client. *)
Definition strong_count (m : Manager) (id : nat) (mg : Managed) : nat :=
  (if in_map m id then 1 else 0) + task_holds m id + length (filter (λ i, i = id) (mc_closing m)) + mg_leases mg.
Definition client_strong_count (m : Manager) (id : nat) (mg : Managed) : nat := 1 + mg_clients mg + task_holds_client m id.

Definition managed_is_in_use (m : Manager) (id : nat) (mg : Managed) : bool :=
  negb (mg_leases mg =? 0)%nat || (1 <? strong_count m id mg)%nat || (1 <? client_strong_count m id mg)%nat.

(** *** Views *)
Record ConnectionSnapshot := mk_connection_snapshot {
  cs_name : str; cs_idle_for : Z; cs_in_use : bool; cs_active_leases : nat }.
Definition snapshot_le (x y : ConnectionSnapshot) : Prop := str_le (cs_name x) (cs_name y).
#[export] Instance snapshot_le_dec : RelDecision snapshot_le.
Proof. intros x y. unfold snapshot_le. apply _. Defined.

Definition connection_snapshots (m : Manager) : list ConnectionSnapshot :=
  merge_sort snapshot_le
    (omap (λ e : str * nat, mg ← mc_heap m !! e.2;
       Some (mk_connection_snapshot e.1 (mc_now m - mg_last_used mg) (managed_is_in_use m e.2 mg) (mg_leases mg)))
      (map_to_list (mc_connections m))).

Record ConnectionManagerSnapshot := mk_manager_snapshot {
  ms_total_connections : nat; ms_in_use_connections : nat; ms_active_leases : nat; ms_max_connections : nat;
  ms_available_capacity : nat }.
(** The lease total saturates at [usize::MAX]; the counters are far below. *)
Definition manager_snapshot (m : Manager) : ConnectionManagerSnapshot :=
  let entries := omap (λ e : str * nat, mg ← mc_heap m !! e.2; Some (e.2, mg)) (map_to_list (mc_connections m)) in
  mk_manager_snapshot (size (mc_connections m))
    (length (filter (λ e : nat * Managed, managed_is_in_use m e.1 e.2 = true) entries))
    (foldl (λ total e, total + mg_leases e.2)%nat 0%nat entries)
    (mc_max m) (mc_permits m).

(** Wrappers that nobody owns any more are dropped, with their permits. *)
Definition sweep (m : Manager) : Manager :=
  let kept := filter (λ e : nat * Managed, strong_count m e.1 e.2 ≠ 0%nat) (mc_heap m) in
  set_heap kept (set_permits (mc_permits m + (size (mc_heap m) - size kept)) m).

(** *** Operations on an entry *)
Definition touch (now : Z) (mg : Managed) : Managed :=
  mk_managed (mg_config mg) (mg_auth mg) (mg_alive mg) (mg_leases mg) (mg_clients mg) now.
Definition acquire_lease (now : Z) (mg : Managed) : Managed :=
  mk_managed (mg_config mg) (mg_auth mg) (mg_alive mg) (S (mg_leases mg)) (mg_clients mg) now.
Definition release_lease (now : Z) (mg : Managed) : Managed :=
  mk_managed (mg_config mg) (mg_auth mg) (mg_alive mg) (pred (mg_leases mg)) (mg_clients mg) now.
Definition set_clients (n : nat) (mg : Managed) : Managed :=
  mk_managed (mg_config mg) (mg_auth mg) (mg_alive mg) (mg_leases mg) n (mg_last_used mg).
Definition die (mg : Managed) : Managed :=
  mk_managed (mg_config mg) (mg_auth mg) false (mg_leases mg) (mg_clients mg) (mg_last_used mg).

Definition put_task (t : nat) (task : Task) (m : Manager) : Manager := set_tasks (<[ t := task ]> (mc_tasks m)) m.
Definition move (t : nat) (task : Task) (p : pc) (m : Manager) : Manager := put_task t (at_pc task p) m.
Definition with_entry (id : nat) (f : Managed → Managed) (m : Manager) : Manager := set_heap (alter f id (mc_heap m)) m.

(** [ConnectLeader::drop]. *)
Definition release_leader (name : str) (sig : nat) (m : Manager) : Manager :=
  if bool_decide (mc_connecting m !! name = Some sig) then
    set_signals (delete name (mc_connecting m)) ({[ sig ]} ∪ mc_signalled m) (mc_next_signal m) m
  else m.

(** [prune_idle], under the write lock. *)
Definition prunable (m : Manager) (id : nat) : bool :=
  match mc_heap m !! id with
  | None => false
  | Some mg =>
      (strong_count m id mg =? 1)%nat && (client_strong_count m id mg =? 1)%nat && (mg_leases mg =? 0)%nat
      && (mc_idle_timeout m <=? mc_now m - mg_last_used mg)
  end.
Definition prune_idle (m : Manager) : Manager :=
  set_connections (filter (λ e : str * nat, prunable m e.2 = false) (mc_connections m)) m.

(** What a lookup decides about a live entry. *)
Definition lookup_compatible (site : lookup_site) (r : request) (mg : Managed) : result unit :=
  match r with
  | Get => Ok tt
  | Connect config authentication _ =>
      let allow_non_reusable_pair := match site with Follower => true | _ => false end in
      if can_reuse_with (mg_auth mg) authentication
         || (allow_non_reusable_pair && bool_decide (mg_auth mg = NonReusable) && bool_decide (authentication = NonReusable))
      then ensure_config_matches (mg_config mg) config
      else ensure_reusable (mg_config mg) config (mg_auth mg) authentication
  end.

(** Leaving the method with an outcome: a leader drops its guard first. *)
Definition finish (site : lookup_site) (o : outcome) : pc :=
  match site with
  | LeaderAgain sig => PLeave sig o
  | _ => match o with OConnection id => PGot id | _ => PDone o end
  end.

(** After a lookup that found nothing. *)
Definition not_found (r : request) (site : lookup_site) : pc :=
  match r, site with
  | Get, _ => PDone ONone
  | _, Optimistic => PClaim
  | _, Follower => PLookup Optimistic
  | _, LeaderAgain sig => PPrune sig
  end.

(** A task's steps, up to its next await or lock.  [get_managed] and
    [get_reusable_managed_inner]: *)
Definition lookup_task (site : lookup_site) (t : nat) (task : Task) (m : Manager) : option Manager :=
  match mc_connections m !! tk_name task with
  | None => Some (move t task (not_found (tk_request task) site) m)
  | Some id =>
      mg ← mc_heap m !! id;
      if negb (mg_alive mg) then Some (move t task (PEvict site id) m)
      else
        match lookup_compatible site (tk_request task) mg with
        | Err e => Some (move t task (finish site (OError e)) m)
        | Ok _ => Some (with_entry id (touch (mc_now m)) (move t task (finish site (OConnection id)) m))
        end
  end.

Definition evict_dead (site : lookup_site) (id t : nat) (task : Task) (m : Manager) : option Manager :=
  let m := move t task (not_found (tk_request task) site) m in
  match mc_connections m !! tk_name task, mc_heap m !! id with
  | Some current, Some mg =>
      if bool_decide (current = id) && negb (mg_alive mg)
      then Some (set_connections (delete (tk_name task) (mc_connections m)) m) else Some m
  | _, _ => Some m
  end.

Definition claim_connect (t : nat) (task : Task) (m : Manager) : option Manager :=
  match mc_connecting m !! tk_name task with
  | Some sig => Some (move t task (PWait sig) m)
  | None =>
      let sig := mc_next_signal m in
      Some (move t task (PLookup (LeaderAgain sig))
              (set_signals (<[ tk_name task := sig ]> (mc_connecting m)) (mc_signalled m) (S sig) m))
  end.

Definition wait_done (sig t : nat) (task : Task) (m : Manager) : option Manager :=
  if bool_decide (sig ∈ mc_signalled m) then
    Some (move t task (match tk_request task with Connect _ _ true => PLookup Optimistic | _ => PLookup Follower end) m)
  else None.

Definition acquire_permit (sig t : nat) (task : Task) (m : Manager) : option Manager :=
  match mc_permits m with
  | O => Some (move t task (PLeave sig (OError "connection manager capacity reached")) m)
  | S free => Some (move t task (PConnect sig) (set_permits free m))
  end.

(** The candidate against the map, under the write lock: [manager.rs] gives way to a
    live entry, [jump.rs] to any entry. *)
Definition insert_candidate (sig id t : nat) (task : Task) (m : Manager) : option Manager :=
  candidate ← mc_heap m !! id;
  let existing :=
    existing ← mc_connections m !! tk_name task;
    mg ← mc_heap m !! existing;
    if match tk_request task with Connect _ _ true => true | _ => mg_alive mg end then Some (existing, mg) else None in
  match existing with
  | None =>
      Some (move t task (PLeave sig (OConnection id)) (set_connections (<[ tk_name task := id ]> (mc_connections m)) m))
  | Some (existing, mg) =>
      let compatibility := ensure_reusable (mg_config mg) (mg_config candidate) (mg_auth mg) (mg_auth candidate) in
      Some (move t task (PClose sig existing compatibility) m)
  end.

Definition close_candidate (sig existing : nat) (compatibility : result unit) (t : nat) (task : Task) (m : Manager)
    : option Manager :=
  match compatibility with
  | Err e => Some (move t task (PLeave sig (OError e)) m)
  | Ok _ => Some (with_entry existing (touch (mc_now m)) (move t task (PLeave sig (OConnection existing)) m))
  end.

(** A lease, or a clone of the client. *)
Definition hand_over (id t : nat) (task : Task) (m : Manager) : option Manager :=
  let m := move t task (PDone (OConnection id)) m in
  if tk_lease task then Some (with_entry id (acquire_lease (mc_now m)) m)
  else Some (with_entry id (λ mg, set_clients (S (mg_clients mg)) mg) m).

Definition run_task (t : nat) (m : Manager) : option Manager :=
  task ← mc_tasks m !! t;
  match tk_pc task with
  | PLookup site => lookup_task site t task m
  | PEvict site id => evict_dead site id t task m
  | PClaim => claim_connect t task m
  | PWait sig => wait_done sig t task m
  | PPrune sig => Some (move t task (PPermit sig) (prune_idle m))
  | PPermit sig => acquire_permit sig t task m
  | PConnect _ => None
  | PInsert sig id => insert_candidate sig id t task m
  | PClose sig existing compatibility => close_candidate sig existing compatibility t task m
  | PLeave sig o => Some (release_leader (tk_name task) sig (move t task (finish Optimistic o) m))
  | PGot id => hand_over id t task m
  | PDone _ => None
  end.

(** A fresh wrapper. *)
Definition alloc (mg : Managed) (m : Manager) : Manager :=
  mk_manager (mc_max m) (mc_idle_timeout m) (mc_now m) (mc_permits m) (mc_connections m) (mc_connecting m)
    (mc_signalled m) (<[ mc_next_id m := mg ]> (mc_heap m)) (mc_tasks m) (mc_closing m) (S (mc_next_id m)) (mc_next_signal m).

(** [SshClient::connect] returns. *)
Definition connected (t : nat) (success : bool) (m : Manager) : option Manager :=
  task ← mc_tasks m !! t;
  match tk_pc task, tk_request task with
  | PConnect sig, Connect config authentication _ =>
      if success then
        let id := mc_next_id m in
        let mg := mk_managed config authentication true 0 0 (mc_now m) in
        Some (move t task (PInsert sig id) (alloc mg m))
      else
        (* the permit is dropped with the error *)
        Some (move t task (PLeave sig (OError "connect")) (set_permits (S (mc_permits m)) m))
  | _, _ => None
  end.

(** The future of a task is dropped at one of its awaits. *)
Definition pc_signal (p : pc) : option nat :=
  match p with
  | PLookup (LeaderAgain sig) | PEvict (LeaderAgain sig) _ | PPrune sig | PPermit sig | PConnect sig | PInsert sig _
  | PClose sig _ _ | PLeave sig _ => Some sig
  | _ => None
  end.
Definition cancel (t : nat) (m : Manager) : option Manager :=
  task ← mc_tasks m !! t;
  match tk_pc task with
  | PDone _ => None
  | p =>
      let m := move t task (PDone OCancelled) m in
      let m := match p with PConnect _ => set_permits (S (mc_permits m)) m | _ => m end in
      Some (match pc_signal p with Some sig => release_leader (tk_name task) sig m | None => m end)
  end.

Inductive label :=
| Start (t : nat) (name : str) (r : request) (lease : bool)
| Run (t : nat)
| Connected (t : nat) (success : bool)
| Cancel (t : nat)
| Tick (d : nat)
| Die (id : nat)
| CloneLease (id : nat)
| DropLease (id : nat)
| DropClient (id : nat)
| Remove (name : str)
| CloseAll
| Closed (id : nat)
| PruneIdle.

(** The first occurrence of an element. *)
Fixpoint remove_one (id : nat) (l : list nat) : list nat :=
  match l with [] => [] | i :: l => if bool_decide (i = id) then l else i :: remove_one id l end.

Definition step (l : label) (m : Manager) : option Manager :=
  match l with
  | Start t name r lease =>
      if bool_decide (is_Some (mc_tasks m !! t)) then None
      else
        let p := match r with
                 | Connect _ _ _ => if bool_decide (name = []) then PDone (OError "connection name cannot be empty") else PLookup Optimistic
                 | Get => PLookup Optimistic
                 end in
        (* [connect_with_jump_auth] has no leasing variant *)
        let lease := match r with Connect _ _ true => false | _ => lease end in
        Some (put_task t (mk_task name r lease p) m)
  | Run t => run_task t m
  | Connected t success => connected t success m
  | Cancel t => cancel t m
  | Tick d => Some (set_now (mc_now m + Z.of_nat d) m)
  | Die id => Some (with_entry id die m)
  | CloneLease id =>
      mg ← mc_heap m !! id;
      if (mg_leases mg =? 0)%nat then None else Some (with_entry id (acquire_lease (mc_now m)) m)
  | DropLease id =>
      mg ← mc_heap m !! id;
      if (mg_leases mg =? 0)%nat then None else Some (with_entry id (release_lease (mc_now m)) m)
  | DropClient id => Some (with_entry id (λ mg, set_clients (pred (mg_clients mg)) mg) m)
  | Remove name =>
      id ← mc_connections m !! name;
      Some (set_closing (id :: mc_closing m) (set_connections (delete name (mc_connections m)) m))
  | CloseAll =>
      Some (set_closing ((map_to_list (mc_connections m)).*2 ++ mc_closing m) (set_connections ∅ m))
  | Closed id =>
      if bool_decide (id ∈ mc_closing m)
      then Some (with_entry id die (set_closing (remove_one id (mc_closing m)) m)) else None
  | PruneIdle => Some (prune_idle m)
  end.

Definition system_step (l : label) (m : Manager) : option Manager := sweep <$> step l m.

Fixpoint run_labels (ls : list label) (m : Manager) : option Manager :=
  match ls with
  | [] => Some m
  | l :: ls => m ← system_step l m; run_labels ls m
  end.

(** The definition of a task's step. *)
Ltac unfold_task :=
  unfold run_task, lookup_task, evict_dead, claim_connect, wait_done, acquire_permit, insert_candidate, close_candidate, hand_over.

(** ** Lemmas on counts *)
Lemma length_filter_zero {A} (P : A → Prop) `{∀ x, Decision (P x)} (l : list A) x :
  x ∈ l → P x → length (filter P l) ≠ 0%nat.
Proof.
  intros Hx HP Hlen. apply nil_length_inv in Hlen. assert (x ∈ filter P l) as Hin by by apply list_elem_of_filter.
  rewrite Hlen in Hin. by apply elem_of_nil in Hin.
Qed.

(** The number of entries of a map that satisfy a predicate. *)
Definition count {K A} `{Countable K} (p : A → bool) (m : gmap K A) : nat := size (filter (λ e, p e.2 = true) m).

Lemma count_insert_new {K A} `{Countable K} (p : A → bool) (m : gmap K A) k x :
  m !! k = None → count p (<[ k := x ]> m) = ((if p x then 1 else 0) + count p m)%nat.
Proof.
  intros Hk. unfold count. destruct (p x) eqn:Hp.
  - rewrite map_filter_insert_True by done. rewrite map_size_insert_None; [done|]. apply map_lookup_filter_None. by left.
  - rewrite map_filter_insert_False by (cbn; congruence). by rewrite delete_id.
Qed.

Lemma count_insert {K A} `{Countable K} (p : A → bool) (m : gmap K A) k x y :
  m !! k = Some y → (count p (<[ k := x ]> m) + (if p y then 1 else 0) = (if p x then 1 else 0) + count p m)%nat.
Proof.
  intros Hk. rewrite <- insert_delete_eq, count_insert_new by apply lookup_delete_eq.
  rewrite <- (insert_delete_id m k y Hk) at 2. rewrite (count_insert_new p (delete k m)) by apply lookup_delete_eq. lia.
Qed.

(** ** The invariant *)
Definition at_connect (task : Task) : bool := match tk_pc task with PConnect _ => true | _ => false end.

(** Who refers to a wrapper. *)
Definition refers (m : Manager) (id : nat) : Prop :=
  (∃ name, mc_connections m !! name = Some id) ∨
  (∃ t task, mc_tasks m !! t = Some task ∧ pc_holds (tk_pc task) id = true) ∨ id ∈ mc_closing m.

Definition permits_ok (m : Manager) : Prop :=
  (mc_permits m + size (mc_heap m) + count at_connect (mc_tasks m) = mc_max m)%nat.

Definition heap_ok (m : Manager) : Prop :=
  (∀ id, refers m id → is_Some (mc_heap m !! id)) ∧ (∀ id, is_Some (mc_heap m !! id) → (id < mc_next_id m)%nat).

Record signals_ok (m : Manager) : Prop := {
  so_leader : ∀ name sig, mc_connecting m !! name = Some sig →
    ∃ t task, mc_tasks m !! t = Some task ∧ tk_name task = name ∧ pc_signal (tk_pc task) = Some sig;
  so_signal : ∀ t task sig, mc_tasks m !! t = Some task → pc_signal (tk_pc task) = Some sig →
    mc_connecting m !! tk_name task = Some sig;
  so_unique : ∀ t1 t2 k1 k2 sig, mc_tasks m !! t1 = Some k1 → mc_tasks m !! t2 = Some k2 →
    pc_signal (tk_pc k1) = Some sig → pc_signal (tk_pc k2) = Some sig → t1 = t2;
  so_fresh : ∀ name sig, mc_connecting m !! name = Some sig → (sig < mc_next_signal m)%nat;
  so_done : ∀ sig, sig ∈ mc_signalled m → (sig < mc_next_signal m)%nat ∧ ∀ name, mc_connecting m !! name ≠ Some sig;
  so_wait : ∀ t task sig, mc_tasks m !! t = Some task → tk_pc task = PWait sig →
    sig ∈ mc_signalled m ∨ mc_connecting m !! tk_name task = Some sig;
}.

(** What a leader knows of its name: no other entry can appear, so that it never
    finds one when it inserts its own. *)
Definition leader_knows (m : Manager) (task : Task) : Prop :=
  match tk_pc task with
  | PPrune _ | PPermit _ | PConnect _ | PInsert _ _ => mc_connections m !! tk_name task = None
  | PEvict (LeaderAgain _) id =>
      mc_connections m !! tk_name task = None ∨
      mc_connections m !! tk_name task = Some id ∧ ∃ mg, mc_heap m !! id = Some mg ∧ mg_alive mg = false
  | PClose _ _ _ => False
  | _ => True
  end.
Definition leaders_ok (m : Manager) : Prop := ∀ t task, mc_tasks m !! t = Some task → leader_knows m task.

(** The connection a task is about to return is one it asked for. *)
Definition pc_result (p : pc) : option nat :=
  match p with PInsert _ id | PLeave _ (OConnection id) | PGot id => Some id | _ => None end.
Definition results_ok (m : Manager) : Prop := ∀ t task id config authentication jump,
  mc_tasks m !! t = Some task → pc_result (tk_pc task) = Some id → tk_request task = Connect config authentication jump →
  ∃ mg, mc_heap m !! id = Some mg ∧ mg_config mg = config ∧ mg_auth mg = authentication.

(** A plain lookup never claims a name. *)
Definition get_pc (p : pc) : bool :=
  match p with PLookup Optimistic | PEvict Optimistic _ | PGot _ | PDone _ => true | _ => false end.
Definition gets_ok (m : Manager) : Prop :=
  ∀ t task, mc_tasks m !! t = Some task → tk_request task = Get → get_pc (tk_pc task) = true.

Record manager_ok (m : Manager) : Prop := {
  mo_permits : permits_ok m;
  mo_heap : heap_ok m;
  mo_signals : signals_ok m;
  mo_leaders : leaders_ok m;
  mo_results : results_ok m;
  mo_gets : gets_ok m;
}.

(** *** The end of a step: dropping what nobody owns *)
Lemma refers_strong m id mg : refers m id → strong_count m id mg ≠ 0%nat.
Proof.
  unfold strong_count. intros [(name & Hn)|[(t & task & Ht & Hh)|Hc]].
  - assert (in_map m id = true) as ->; [|lia]. unfold in_map. apply existsb_exists. exists (name, id).
    split; [|by apply bool_decide_eq_true]. by apply list_elem_of_In, elem_of_map_to_list.
  - assert (task_holds m id ≠ 0)%nat; [|lia]. unfold task_holds. eapply length_filter_zero with (x := (t, task)); [|done].
    by apply elem_of_map_to_list.
  - assert (length (filter (λ i, i = id) (mc_closing m)) ≠ 0)%nat; [|lia]. by eapply length_filter_zero.
Qed.

Lemma sweep_keeps m id mg : mc_heap (sweep m) !! id = Some mg ↔ mc_heap m !! id = Some mg ∧ strong_count m id mg ≠ 0%nat.
Proof. unfold sweep. cbn. by rewrite map_lookup_filter_Some. Qed.

Lemma sweep_refers m id : refers m id → mc_heap (sweep m) !! id = mc_heap m !! id.
Proof.
  intros Href. apply option_eq. intros mg. rewrite sweep_keeps. split; [by intros []|]. intros Hmg. split; [done|].
  by apply refers_strong.
Qed.

Lemma sweep_ok m : manager_ok m → manager_ok (sweep m).
Proof.
  intros [Hp [Hr Hid] Hs Hl Hres Hg]. constructor; [| | | | |exact Hg].
  - unfold permits_ok, sweep in *. cbn.
    assert (size (filter (λ e : nat * Managed, strong_count m e.1 e.2 ≠ 0%nat) (mc_heap m)) ≤ size (mc_heap m))%nat; [|lia].
    apply map_subseteq_size, map_filter_subseteq.
  - split.
    + intros id Href. change (refers m id) in Href. rewrite sweep_refers by done. by apply Hr.
    + intros id [mg Hmg]. apply Hid. apply sweep_keeps in Hmg as [Hmg _]. by exists mg.
  - destruct Hs as [H1 H2 H3 H4 H5 H6]. by constructor.
  - intros t task Ht. specialize (Hl t task Ht). unfold leader_knows in *. change (mc_connections (sweep m)) with (mc_connections m).
    destruct (tk_pc task) as [|[]| | | | | | | | | |] eqn:Hpc; try done.
    destruct Hl as [?|(Hc & mg & Hmg & Hdead)]; [by left|right]. split; [done|]. exists mg. split; [|done].
    rewrite sweep_refers; [done|]. left. by exists (tk_name task).
  - intros t task id config authentication jump Ht Hpc Hreq. destruct (Hres t task id _ _ _ Ht Hpc Hreq) as (mg & Hmg & Hc).
    exists mg. split; [|done]. rewrite sweep_refers; [done|]. right. left. exists t, task. split; [done|].
    destruct (tk_pc task) as [| | | | | | |?? | |? []| |]; cbn in Hpc |- *; simplify_eq; by apply bool_decide_eq_true.
Qed.

(** *** Updates that keep parts of the invariant *)
Lemma lookup_move t task p m t' : mc_tasks (move t task p m) !! t' = (if decide (t = t') then Some (at_pc task p) else mc_tasks m !! t').
Proof. unfold move, put_task. cbn. case_decide; [subst; apply lookup_insert_eq|by apply lookup_insert_ne]. Qed.

Lemma lookup_with_entry id f m id' :
  mc_heap (with_entry id f m) !! id' = (if decide (id = id') then f <$> mc_heap m !! id' else mc_heap m !! id').
Proof. unfold with_entry. cbn. case_decide; [subst; apply lookup_alter_eq|by apply lookup_alter_ne]. Qed.

(** Updates of an entry that keep what it was authenticated as. *)
Definition keeps (f : Managed → Managed) : Prop := ∀ mg,
  mg_config (f mg) = mg_config mg ∧ mg_auth (f mg) = mg_auth mg ∧ (mg_alive mg = false → mg_alive (f mg) = false).

Lemma permits_move t task p m :
  mc_tasks m !! t = Some task → at_connect task = at_connect (at_pc task p) → permits_ok m → permits_ok (move t task p m).
Proof.
  unfold permits_ok, move, put_task. cbn. intros Ht Heq Hp.
  pose proof (count_insert at_connect (mc_tasks m) t (at_pc task p) task Ht) as Hc. rewrite Heq in Hc. lia.
Qed.

Lemma permits_entry id f m : permits_ok m → permits_ok (with_entry id f m).
Proof.
  unfold permits_ok, with_entry. cbn. intros <-.
  assert (size (alter f id (mc_heap m)) = size (mc_heap m)) as ->; [|done].
  rewrite <- !size_dom. by rewrite dom_alter_L.
Qed.

Lemma heap_move t task p m :
  (∀ id, pc_holds p id = true → is_Some (mc_heap m !! id)) → heap_ok m → heap_ok (move t task p m).
Proof.
  intros Hp [Hr Hid]. split; [|exact Hid]. intros id [Hn|[(t' & task' & Ht & Hh)|Hc]].
  - apply Hr. by left.
  - rewrite lookup_move in Ht. case_decide; [injection Ht as <-; by apply Hp|]. apply Hr. right. left. eauto.
  - apply Hr. by right; right.
Qed.

Lemma heap_entry id f m : heap_ok m → heap_ok (with_entry id f m).
Proof.
  intros [Hr Hid]. split; intros id'; rewrite lookup_with_entry; case_decide; subst; rewrite ?fmap_is_Some; [apply Hr|apply Hr|apply Hid|apply Hid].
Qed.

Lemma heap_connections c m :
  (∀ name id, c !! name = Some id → is_Some (mc_heap m !! id)) → heap_ok m → heap_ok (set_connections c m).
Proof.
  intros Hc [Hr Hid]. split; [|exact Hid]. intros id [(name & Hn)|Hrest]; [by eapply Hc|]. apply Hr. by right.
Qed.

Lemma heap_fewer c m : c ⊆ mc_connections m → heap_ok m → heap_ok (set_connections c m).
Proof.
  intros Hc Hh. apply heap_connections; [|done]. intros name id Hn. apply (proj1 Hh). left. exists name.
  by eapply lookup_weaken.
Qed.

Lemma results_move t task p m :
  mc_tasks m !! t = Some task →
  (∀ id config authentication jump, pc_result p = Some id → tk_request task = Connect config authentication jump →
     pc_result (tk_pc task) = Some id ∨ ∃ mg, mc_heap m !! id = Some mg ∧ mg_config mg = config ∧ mg_auth mg = authentication) →
  results_ok m → results_ok (move t task p m).
Proof.
  intros Ht Hp Hr t' task' id config authentication jump Ht' Hres Hreq. rewrite lookup_move in Ht'. case_decide; [|by eapply Hr].
  subst t'. injection Ht' as <-. cbn in Hres, Hreq. destruct (Hp id _ _ _ Hres Hreq) as [Hold|?]; [by eapply Hr|done].
Qed.

Lemma results_entry id f m : keeps f → results_ok m → results_ok (with_entry id f m).
Proof.
  intros Hf Hr t task id' config authentication jump Ht Hres Hreq.
  destruct (Hr t task id' _ _ _ Ht Hres Hreq) as (mg & Hmg & Hc & Ha). rewrite lookup_with_entry. case_decide as Heq.
  - rewrite Hmg. exists (f mg). destruct (Hf mg) as (-> & -> & _). done.
  - by exists mg.
Qed.

Lemma leaders_move t task p m :
  leader_knows m (at_pc task p) → leaders_ok m → leaders_ok (move t task p m).
Proof.
  intros Hp Hl t' task' Ht'. rewrite lookup_move in Ht'. case_decide; [by injection Ht' as <-|]. by apply (Hl t').
Qed.

Lemma leaders_entry id f m : keeps f → leaders_ok m → leaders_ok (with_entry id f m).
Proof.
  intros Hf Hl t task Ht. specialize (Hl t task Ht). unfold leader_knows in *. change (mc_connections (with_entry id f m)) with (mc_connections m).
  destruct (tk_pc task) as [|[]| | | | | | | | | |]; try done.
  destruct Hl as [?|(Hc & mg & Hmg & Hdead)]; [by left|right]. split; [done|]. rewrite lookup_with_entry. case_decide; [|by exists mg].
  rewrite Hmg. exists (f mg). split; [done|]. by apply Hf.
Qed.

Lemma leaders_fewer c m : c ⊆ mc_connections m → leaders_ok m → leaders_ok (set_connections c m).
Proof.
  intros Hc Hl t task Ht. specialize (Hl t task Ht). unfold leader_knows in *. cbn.
  assert (Hnone : mc_connections m !! tk_name task = None → c !! tk_name task = None).
  { intros Hn. by eapply lookup_weaken_None. }
  destruct (tk_pc task) as [|[]| | | | | | | | | |]; auto.
  destruct Hl as [?|[Hn Hdead]]; [by left; apply Hnone|].
  destruct (c !! tk_name task) as [id'|] eqn:Hid; [right|by left]. split; [|done].
  pose proof (lookup_weaken _ _ _ _ Hid Hc) as Heq. congruence.
Qed.

Lemma gets_move t task p m :
  (tk_request task = Get → get_pc p = true) → gets_ok m → gets_ok (move t task p m).
Proof. intros Hp Hg t' task' Ht'. rewrite lookup_move in Ht'. case_decide; [by injection Ht' as <-|by apply (Hg t')]. Qed.

Lemma signals_ext m m' :
  mc_tasks m' = mc_tasks m → mc_connecting m' = mc_connecting m → mc_signalled m' = mc_signalled m →
  mc_next_signal m' = mc_next_signal m → signals_ok m → signals_ok m'.
Proof. intros Ht Hc Hs Hn [H1 H2 H3 H4 H5 H6]. constructor; rewrite ?Ht, ?Hc, ?Hs, ?Hn; done. Qed.

Lemma signals_move t task p m :
  mc_tasks m !! t = Some task → pc_signal p = pc_signal (tk_pc task) → (∀ sig, p ≠ PWait sig) →
  signals_ok m → signals_ok (move t task p m).
Proof.
  intros Ht Hsig Hwait [H1 H2 H3 H4 H5 H6].
  assert (Hold : ∀ t' task', mc_tasks (move t task p m) !! t' = Some task' → ∃ old,
    mc_tasks m !! t' = Some old ∧ pc_signal (tk_pc task') = pc_signal (tk_pc old) ∧ tk_name task' = tk_name old).
  { intros t' task'. rewrite lookup_move. case_decide; [intros [= <-]; subst; by exists task|intros ?; by exists task']. }
  constructor; try done.
  - intros name sig Hn. destruct (H1 name sig Hn) as (t' & task' & Ht' & Hname & Hs). exists t'. rewrite lookup_move.
    case_decide; [|by exists task']. subst t'. rewrite Ht in Ht'. injection Ht' as <-. exists (at_pc task p). cbn. by rewrite Hsig.
  - intros t' task' sig Ht' Hs. destruct (Hold t' task' Ht') as (old & Ho & Hos & Hon). rewrite Hon. apply (H2 t' old); [done|congruence].
  - intros t1 t2 k1 k2 sig Ht1 Ht2 Hs1 Hs2. destruct (Hold t1 k1 Ht1) as (o1 & Ho1 & Hos1 & _).
    destruct (Hold t2 k2 Ht2) as (o2 & Ho2 & Hos2 & _). apply (H3 t1 t2 o1 o2 sig Ho1 Ho2); congruence.
  - intros t' task' sig Ht' Hw. rewrite lookup_move in Ht'. case_decide; [|by eapply H6].
    injection Ht' as <-. cbn in Hw. by destruct (Hwait sig).
Qed.

Lemma signals_wait t task sig m :
  mc_tasks m !! t = Some task → pc_signal (tk_pc task) = None → mc_connecting m !! tk_name task = Some sig →
  signals_ok m → signals_ok (move t task (PWait sig) m).
Proof.
  intros Ht Hnone Hsig [H1 H2 H3 H4 H5 H6].
  assert (Hold : ∀ t' task' sig', mc_tasks (move t task (PWait sig) m) !! t' = Some task' → pc_signal (tk_pc task') = Some sig' →
    mc_tasks m !! t' = Some task').
  { intros t' task' sig'. rewrite lookup_move. case_decide; [by intros [= <-]|done]. }
  constructor; try done.
  - intros name sig' Hn. destruct (H1 name sig' Hn) as (t' & task' & Ht' & Hname & Hs). exists t', task'. split; [|done].
    rewrite lookup_move. case_decide; [congruence|done].
  - intros t' task' sig' Ht' Hs. eapply H2; eauto.
  - intros t1 t2 k1 k2 sig' Ht1 Ht2 Hs1 Hs2. eapply H3; eauto.
  - intros t' task' sig' Ht' Hw. rewrite lookup_move in Ht'. case_decide; [|by eapply H6].
    injection Ht' as <-. cbn in Hw |- *. injection Hw as <-. by right.
Qed.

Lemma signals_claim t task m :
  mc_tasks m !! t = Some task → pc_signal (tk_pc task) = None → mc_connecting m !! tk_name task = None →
  signals_ok m →
  signals_ok (move t task (PLookup (LeaderAgain (mc_next_signal m)))
    (set_signals (<[ tk_name task := mc_next_signal m ]> (mc_connecting m)) (mc_signalled m) (S (mc_next_signal m)) m)).
Proof.
  intros Ht Hnone Hfree [H1 H2 H3 H4 H5 H6]. set (next := mc_next_signal m) in *.
  assert (Hold : ∀ t' task', mc_tasks (move t task (PLookup (LeaderAgain next)) m) !! t' = Some task' →
    t' = t ∧ task' = at_pc task (PLookup (LeaderAgain next)) ∨ t' ≠ t ∧ mc_tasks m !! t' = Some task').
  { intros t' task'. rewrite lookup_move. case_decide; [intros [= <-]; subst; by left|intros ?; by right]. }
  assert (Hlt : ∀ t' task' sig, mc_tasks m !! t' = Some task' → pc_signal (tk_pc task') = Some sig → (sig < next)%nat).
  { intros t' task' sig Ht' Hs. eapply H4, H2; eauto. }
  constructor; cbn [mc_connecting mc_signalled mc_next_signal move put_task set_tasks set_signals].
  - intros name sig. rewrite lookup_insert_Some. intros [[<- <-]|[Hne Hn]].
    + exists t, (at_pc task (PLookup (LeaderAgain next))). split; [|done]. apply lookup_insert_eq.
    + destruct (H1 name sig Hn) as (t' & task' & Ht' & Hname & Hs). exists t', task'. split; [|done].
      change (mc_tasks (move t task (PLookup (LeaderAgain next)) m) !! t' = Some task'). rewrite lookup_move.
      case_decide; [congruence|done].
  - intros t' task' sig Ht' Hs. destruct (Hold t' task' Ht') as [[-> ->]|[Hne Ht'']].
    + cbn in Hs. injection Hs as <-. apply lookup_insert_eq.
    + rewrite lookup_insert_ne; [by eapply H2|]. intros Heq. pose proof (H2 _ _ _ Ht'' Hs) as Hc. rewrite <- Heq in Hc. congruence.
  - intros t1 t2 k1 k2 sig Ht1 Ht2 Hs1 Hs2.
    destruct (Hold t1 k1 Ht1) as [[-> ->]|[Hne1 Ho1]], (Hold t2 k2 Ht2) as [[-> ->]|[Hne2 Ho2]]; [done| | |by eapply H3].
    + cbn in Hs1. injection Hs1 as <-. specialize (Hlt _ _ _ Ho2 Hs2). lia.
    + cbn in Hs2. injection Hs2 as <-. specialize (Hlt _ _ _ Ho1 Hs1). lia.
  - intros name sig. rewrite lookup_insert_Some. intros [[_ <-]|[_ Hn]]; [lia|]. apply H4 in Hn. lia.
  - intros sig Hs. destruct (H5 sig Hs) as [Hlt' Hno]. split; [lia|]. intros name. rewrite lookup_insert_Some.
    intros [[_ <-]|[_ Hn]]; [lia|by eapply Hno].
  - intros t' task' sig Ht' Hw. destruct (Hold t' task' Ht') as [[-> ->]|[Hne Ht'']]; [done|].
    destruct (H6 t' task' sig Ht'' Hw) as [?|Hc]; [by left|right]. rewrite lookup_insert_ne; [done|].
    intros Heq. rewrite <- Heq in Hc. congruence.
Qed.

(** Leaving the method: the guard signals the followers. *)
Lemma signals_release t task p sig m :
  mc_tasks m !! t = Some task → pc_signal (tk_pc task) = Some sig → pc_signal p = None → (∀ s, p ≠ PWait s) →
  signals_ok m → signals_ok (release_leader (tk_name task) sig (move t task p m)).
Proof.
  intros Ht Hsig Hp Hnw [H1 H2 H3 H4 H5 H6]. pose proof (H2 t task sig Ht Hsig) as Hconn.
  unfold release_leader. rewrite bool_decide_eq_true_2 by exact Hconn.
  assert (Hold : ∀ t' task' s, mc_tasks (move t task p m) !! t' = Some task' → pc_signal (tk_pc task') = Some s →
    t' ≠ t ∧ mc_tasks m !! t' = Some task').
  { intros t' task' s. rewrite lookup_move. case_decide; [intros [= <-]; cbn; congruence|done]. }
  assert (Hother : ∀ t' task' s, t' ≠ t → mc_tasks m !! t' = Some task' → pc_signal (tk_pc task') = Some s →
    tk_name task' ≠ tk_name task).
  { intros t' task' s Hne Ht' Hs Hname. pose proof (H2 _ _ _ Ht' Hs) as Hc. rewrite Hname, Hconn in Hc. injection Hc as <-.
    by apply Hne, (H3 t' t task' task sig). }
  constructor; cbn [mc_connecting mc_signalled mc_next_signal set_signals].
  - intros name s. rewrite lookup_delete_Some. intros [Hne Hn]. destruct (H1 name s Hn) as (t' & task' & Ht' & Hname & Hs).
    exists t', task'. split; [|done]. change (mc_tasks (move t task p m) !! t' = Some task'). rewrite lookup_move.
    case_decide; [congruence|done].
  - intros t' task' s Ht' Hs. destruct (Hold t' task' s Ht' Hs) as [Hne Ht'']. rewrite lookup_delete_ne; [by eapply H2|].
    intros Heq. by eapply Hother.
  - intros t1 t2 k1 k2 s Ht1 Ht2 Hs1 Hs2. destruct (Hold t1 k1 s Ht1 Hs1) as [_ Ho1], (Hold t2 k2 s Ht2 Hs2) as [_ Ho2].
    by eapply H3.
  - intros name s. rewrite lookup_delete_Some. intros [_ Hn]. by eapply H4.
  - intros s. rewrite elem_of_union, elem_of_singleton. intros [->|Hs].
    + split; [by eapply H4|]. intros name. rewrite lookup_delete_Some. intros [Hne Hn].
      destruct (H1 name sig Hn) as (t' & task' & Ht' & Hname & Hs). assert (t' = t) as -> by by eapply H3.
      rewrite Ht in Ht'. injection Ht' as <-. congruence.
    + destruct (H5 s Hs) as [? Hno]. split; [done|]. intros name. rewrite lookup_delete_Some. intros [_ Hn]. by eapply Hno.
  - intros t' task' s Ht' Hw. change (mc_tasks (move t task p m) !! t' = Some task') in Ht'. rewrite lookup_move in Ht'.
    case_decide; [injection Ht' as <-; cbn in Hw; by destruct (Hnw s)|].
    rewrite elem_of_union, elem_of_singleton. destruct (H6 t' task' s Ht' Hw) as [?|Hc]; [left; by right|].
    destruct (decide (tk_name task' = tk_name task)) as [Hname|Hname].
    + left. left. rewrite Hname, Hconn in Hc. congruence.
    + right. by rewrite lookup_delete_ne.
Qed.

(** A task that is not in the table yet. *)
Lemma signals_start t task m :
  mc_tasks m !! t = None → pc_signal (tk_pc task) = None → (∀ s, tk_pc task ≠ PWait s) →
  signals_ok m → signals_ok (put_task t task m).
Proof.
  intros Ht Hp Hnw [H1 H2 H3 H4 H5 H6]. unfold put_task. constructor; cbn [mc_tasks mc_connecting mc_signalled mc_next_signal set_tasks]; try done.
  - intros name sig Hn. destruct (H1 name sig Hn) as (t' & task' & Ht' & Hrest). exists t', task'. split; [|done].
    rewrite lookup_insert_ne; [done|]. intros ->. congruence.
  - intros t' task' sig. rewrite lookup_insert_Some. intros [[_ <-]|[_ Ht']] Hs; [congruence|by eapply H2].
  - intros t1 t2 k1 k2 sig. rewrite !lookup_insert_Some. intros [[_ <-]|[_ Ht1]] [[_ <-]|[_ Ht2]] Hs1 Hs2; [congruence..|by eapply H3].
  - intros t' task' sig. rewrite lookup_insert_Some. intros [[_ <-]|[_ Ht']] Hw; [by destruct (Hnw sig)|by eapply H6].
Qed.

(** *** Steps of a task *)
Lemma move_ok t task p m :
  mc_tasks m !! t = Some task → at_connect task = at_connect (at_pc task p) →
  pc_signal p = pc_signal (tk_pc task) → (∀ sig, p ≠ PWait sig) →
  (∀ id, pc_holds p id = true → is_Some (mc_heap m !! id)) →
  leader_knows m (at_pc task p) →
  (∀ id config authentication jump, pc_result p = Some id → tk_request task = Connect config authentication jump →
     pc_result (tk_pc task) = Some id ∨ ∃ mg, mc_heap m !! id = Some mg ∧ mg_config mg = config ∧ mg_auth mg = authentication) →
  (tk_request task = Get → get_pc p = true) →
  manager_ok m → manager_ok (move t task p m).
Proof.
  intros Ht Hc Hs Hw Hh Hl Hr Hget [H1 H2 H3 H4 H5 H6].
  constructor; [by apply permits_move|by apply heap_move|by apply signals_move|by apply leaders_move|by apply results_move|by apply gets_move].
Qed.

Lemma entry_ok id f m : keeps f → manager_ok m → manager_ok (with_entry id f m).
Proof.
  intros Hf [H1 H2 H3 H4 H5 H6].
  constructor; [by apply permits_entry|by apply heap_entry| |by apply leaders_entry|by apply results_entry|exact H6].
  by apply (signals_ext m).
Qed.

Lemma fewer_ok c m : c ⊆ mc_connections m → manager_ok m → manager_ok (set_connections c m).
Proof.
  intros Hc [H1 H2 H3 H4 H5 H6].
  constructor; [exact H1|by apply heap_fewer|by apply (signals_ext m)|by apply leaders_fewer|exact H5|exact H6].
Qed.

Lemma release_leader_fields name sig m :
  mc_max (release_leader name sig m) = mc_max m ∧ mc_permits (release_leader name sig m) = mc_permits m ∧
  mc_heap (release_leader name sig m) = mc_heap m ∧ mc_tasks (release_leader name sig m) = mc_tasks m ∧
  mc_connections (release_leader name sig m) = mc_connections m ∧ mc_closing (release_leader name sig m) = mc_closing m ∧
  mc_next_id (release_leader name sig m) = mc_next_id m.
Proof. unfold release_leader. by case_bool_decide. Qed.

(** A leader leaves: whatever it returns to, its followers are signalled. *)
Lemma release_ok t task p sig m :
  mc_tasks m !! t = Some task → pc_signal (tk_pc task) = Some sig → at_connect task = at_connect (at_pc task p) →
  pc_signal p = None → (∀ s, p ≠ PWait s) →
  (∀ id, pc_holds p id = true → is_Some (mc_heap m !! id)) →
  leader_knows m (at_pc task p) →
  (∀ id config authentication jump, pc_result p = Some id → tk_request task = Connect config authentication jump →
     pc_result (tk_pc task) = Some id ∨ ∃ mg, mc_heap m !! id = Some mg ∧ mg_config mg = config ∧ mg_auth mg = authentication) →
  (tk_request task = Get → get_pc p = true) →
  manager_ok m → manager_ok (release_leader (tk_name task) sig (move t task p m)).
Proof.
  intros Ht Hsig Hc Hs Hw Hh Hl Hr Hget [H1 H2 H3 H4 H5 H6].
  pose proof (permits_move _ _ _ _ Ht Hc H1) as P1. pose proof (heap_move t task p m Hh H2) as P2.
  pose proof (leaders_move t task p m Hl H4) as P4. pose proof (results_move t task p m Ht Hr H5) as P5.
  pose proof (gets_move t task p m Hget H6) as P6.
  pose proof (signals_release t task p sig m Ht Hsig Hs Hw H3) as P3.
  constructor; [| |exact P3| | |]; unfold permits_ok, heap_ok, leaders_ok, gets_ok, results_ok, leader_knows, refers in *;
    destruct (release_leader_fields (tk_name task) sig (move t task p m)) as (E1 & E2 & E3 & E4 & E5 & E6 & E7);
    rewrite ?E1, ?E2, ?E3, ?E4, ?E5, ?E6, ?E7; assumption.
Qed.

(** A lookup that succeeds found what was asked for. *)
Lemma can_reuse_with_eq e r : can_reuse_with e r = true → e = r.
Proof. destruct e, r; cbn; rewrite ?bool_decide_eq_true; congruence. Qed.

Lemma lookup_compatible_ok site config authentication jump mg :
  is_ok (lookup_compatible site (Connect config authentication jump) mg) = true →
  mg_config mg = config ∧ mg_auth mg = authentication.
Proof.
  unfold lookup_compatible, ensure_config_matches, ensure_reusable, bail_if. case_match eqn:Hc.
  - destruct (bool_decide (mg_config mg = config)) eqn:Heq; [|done]. apply bool_decide_eq_true in Heq. intros _. split; [done|]. apply orb_true_iff in Hc as [Hc|Hc]; [by apply can_reuse_with_eq|].
    apply andb_true_iff in Hc as [Hc H2]. apply andb_true_iff in Hc as [_ H1]. apply bool_decide_eq_true in H1, H2. congruence.
  - destruct (bool_decide (mg_config mg = config)) eqn:Heq; [|done]. apply bool_decide_eq_true in Heq. cbn. destruct (can_reuse_with (mg_auth mg) authentication) eqn:Hr; [|done].
    intros _. split; [done|]. by apply can_reuse_with_eq.
Qed.

Lemma finish_signal task site o : pc_signal (finish site o) = pc_signal (PLookup site) ∧ (∀ sig, finish site o ≠ PWait sig) ∧
  at_connect (at_pc task (finish site o)) = false.
Proof. by destruct site, o. Qed.
Lemma finish_holds site o id : pc_holds (finish site o) id = true → o = OConnection id.
Proof. destruct site, o; cbn; try done; intros H%bool_decide_eq_true; congruence. Qed.
Lemma finish_result site o id : pc_result (finish site o) = Some id → o = OConnection id.
Proof. destruct site, o; cbn; congruence. Qed.
Lemma finish_knows m task site o : leader_knows m (at_pc task (finish site o)).
Proof. by destruct site, o. Qed.

Lemma not_found_pc r site :
  (r = Get → pc_signal (PLookup site) = None) →
  pc_signal (not_found r site) = pc_signal (PLookup site) ∧ (∀ sig, not_found r site ≠ PWait sig) ∧
  (∀ task, at_connect (at_pc task (not_found r site)) = false) ∧ (∀ id, pc_holds (not_found r site) id = false) ∧
  pc_result (not_found r site) = None.
Proof. destruct r, site; cbn; naive_solver. Qed.
Lemma not_found_knows m task r site :
  mc_connections m !! tk_name task = None → leader_knows m (at_pc task (not_found r site)).
Proof. by destruct r, site. Qed.

Lemma touch_keeps now : keeps (touch now).
Proof. by intros []. Qed.
Lemma lease_keeps now : keeps (acquire_lease now).
Proof. by intros []. Qed.
Lemma unlease_keeps now : keeps (release_lease now).
Proof. by intros []. Qed.
Lemma clients_keeps (f : Managed → nat) : keeps (λ mg, set_clients (f mg) mg).
Proof. intros mg. by cbn. Qed.
Lemma die_keeps : keeps die.
Proof. by intros []. Qed.

(** A lookup that finds nothing goes on. *)
Lemma not_found_ok m t task site :
  mc_tasks m !! t = Some task → manager_ok m →
  (∀ sig, site = LeaderAgain sig → mc_connections m !! tk_name task = None) →
  (tk_pc task = PLookup site ∨ ∃ id, tk_pc task = PEvict site id) →
  manager_ok (move t task (not_found (tk_request task) site) m).
Proof.
  intros Ht Hok Hn Hpc. assert (Hsig : pc_signal (tk_pc task) = pc_signal (PLookup site)).
  { by destruct Hpc as [->|[id ->]]. }
  assert (Hget : tk_request task = Get → site = Optimistic).
  { intros Hg. pose proof (mo_gets m Hok t task Ht Hg) as Hpcg. destruct Hpc as [Hpc|[id Hpc]]; rewrite Hpc in Hpcg; by destruct site. }
  destruct (not_found_pc (tk_request task) site) as (N1 & N2 & N3 & N4 & N5).
  { intros Hg. by rewrite Hget. }
  apply move_ok; try done.
  - rewrite N3. unfold at_connect. by destruct Hpc as [->|[id ->]].
  - congruence.
  - intros id. by rewrite N4.
  - destruct site; [by destruct (tk_request task)..|]. apply not_found_knows. by eapply Hn.
  - intros ????. by rewrite N5.
  - intros Hg. by rewrite Hg, Hget.
Qed.

#[local] Hint Resolve touch_keeps lease_keeps unlease_keeps clients_keeps die_keeps : manager.

Section run.
Context (m : Manager) (t : nat) (task : Task).
Hypotheses (Ht : mc_tasks m !! t = Some task) (Hok : manager_ok m).

Lemma task_get : tk_request task = Get → get_pc (tk_pc task) = true.
Proof. by apply (mo_gets m Hok t). Qed.

Lemma task_knows : leader_knows m task.
Proof. by apply (mo_leaders m Hok t). Qed.

(** What a task or the map refers to is in the heap. *)
Lemma map_heap name id : mc_connections m !! name = Some id → is_Some (mc_heap m !! id).
Proof. intros Hn. apply (proj1 (mo_heap m Hok)). left. by exists name. Qed.
Lemma held_heap id : pc_holds (tk_pc task) id = true → is_Some (mc_heap m !! id).
Proof. intros Hn. apply (proj1 (mo_heap m Hok)). right. left. by exists t, task. Qed.

Lemma lookup_task_ok site m' : tk_pc task = PLookup site → run_task t m = Some m' → manager_ok m'.
Proof.
  intros Hpc. unfold_task. rewrite Ht. cbn [mbind option_bind]. rewrite Hpc.
  destruct (mc_connections m !! tk_name task) as [id|] eqn:Hid; [|intros [= <-]; apply not_found_ok; by auto].
  destruct (mc_heap m !! id) as [mg|] eqn:Hmg; [|done]. cbn [mbind option_bind].
  assert (Hget : tk_request task = Get → site = Optimistic).
  { intros Hg. apply task_get in Hg. rewrite Hpc in Hg. by destruct site. }
  destruct (mg_alive mg) eqn:Halive; cbn [negb].
  2:{ intros [= <-]. apply move_ok; try done; cbn; rewrite ?Hpc; try done.
    - unfold at_connect. by rewrite Hpc.
    - intros id' Hb%bool_decide_eq_true. subst id'. by exists mg.
    - unfold leader_knows. cbn. destruct site; [done..|]. right. eauto.
    - intros Hg. by rewrite Hget. }
  assert (Hfin : ∀ o, (∀ i, o = OConnection i → i = id ∧ is_ok (lookup_compatible site (tk_request task) mg) = true) →
    manager_ok (move t task (finish site o) m)).
  { intros o Ho. destruct (finish_signal task site o) as (F1 & F2 & F3). apply move_ok; try done.
    - rewrite F3. unfold at_connect. by rewrite Hpc.
    - by rewrite F1, Hpc.
    - intros i Hi. apply finish_holds, Ho in Hi as [-> _]. by exists mg.
    - apply finish_knows.
    - intros i config authentication jump Hi Hreq. apply finish_result, Ho in Hi as [-> Hi]. right. exists mg.
      split; [done|]. rewrite Hreq in Hi. by apply lookup_compatible_ok in Hi.
    - intros Hg. rewrite Hget by done. by destruct o. }
  destruct (lookup_compatible site (tk_request task) mg) as [u|e] eqn:Hcompat; intros [= <-].
  - apply entry_ok; [auto with manager|]. apply Hfin. by intros i [= ->].
  - by apply Hfin.
Qed.

Lemma evict_task_ok site id m' : tk_pc task = PEvict site id → run_task t m = Some m' → manager_ok m'.
Proof.
  intros Hpc. unfold_task. rewrite Ht. cbn [mbind option_bind]. rewrite Hpc.
  pose proof task_knows as Hknows. unfold leader_knows in Hknows. rewrite Hpc in Hknows.
  assert (Hn : ∀ c, c ⊆ mc_connections m → (∀ sig, site = LeaderAgain sig → c !! tk_name task = None) →
    manager_ok (set_connections c (move t task (not_found (tk_request task) site) m))).
  { intros c Hc Hfree. change (manager_ok (move t task (not_found (tk_request task) site) (set_connections c m))).
    apply not_found_ok; [done|by apply fewer_ok|done|by eauto]. }
  assert (Hsame : manager_ok (move t task (not_found (tk_request task) site) m) ↔
    manager_ok (set_connections (mc_connections m) (move t task (not_found (tk_request task) site) m))) by done.
  cbn [mc_connections mc_heap move put_task set_tasks].
  destruct (mc_connections m !! tk_name task) as [current|] eqn:Hcur; cycle 1.
  { intros [= <-]. apply Hsame, Hn; [done|]. by intros. }
  destruct (map_heap _ _ Hcur) as [mgc Hmgc].
  destruct (mc_heap m !! id) as [mg|] eqn:Hmg.
  - destruct (bool_decide (current = id) && negb (mg_alive mg)) eqn:Hboth; intros [= <-].
    + apply Hn; [apply delete_subseteq|]. intros ? _. apply lookup_delete_eq.
    + apply Hsame, Hn; [done|]. intros sig ->. exfalso. destruct Hknows as [?|(Heq & mg' & Hmg' & Hdead)]; [done|].
      simplify_eq. by rewrite bool_decide_eq_true_2, Hdead in Hboth.
  - intros [= <-]. apply Hsame, Hn; [done|]. intros sig ->. destruct Hknows as [?|(Heq & mg' & Hmg' & Hdead)]; congruence.
Qed.

Ltac at_task Hpc := unfold_task; rewrite Ht; cbn [mbind option_bind]; rewrite Hpc.
Ltac no_connect Hpc := unfold at_connect; cbn; by rewrite ?Hpc.

Lemma claim_task_ok m' : tk_pc task = PClaim → run_task t m = Some m' → manager_ok m'.
Proof.
  intros Hpc. at_task Hpc. pose proof task_get as Hget. rewrite Hpc in Hget. pose proof Hok as [H1 H2 H3 H4 H5 H6].
  assert (Hmove : ∀ p, (∀ id, pc_holds p id = false) → at_connect (at_pc task p) = false → leader_knows m (at_pc task p) →
    pc_result p = None → permits_ok (move t task p m) ∧ heap_ok (move t task p m) ∧ leaders_ok (move t task p m) ∧
    results_ok (move t task p m) ∧ gets_ok (move t task p m)).
  { intros p Hp Hc Hk Hr. split_and!.
    - apply permits_move; [done| |done]. rewrite Hc. no_connect Hpc.
    - apply heap_move; [|done]. intros id. by rewrite Hp.
    - by apply leaders_move.
    - apply results_move; [done| |done]. intros ????. by rewrite Hr.
    - apply gets_move; [|done]. intros Hg. by apply Hget in Hg. }
  destruct (mc_connecting m !! tk_name task) as [sig|] eqn:Hsig; intros [= <-].
  - destruct (Hmove (PWait sig)) as (P1 & P2 & P3 & P4 & P5); [done..|]. constructor; try done.
    apply signals_wait; try done. by rewrite Hpc.
  - destruct (Hmove (PLookup (LeaderAgain (mc_next_signal m)))) as (P1 & P2 & P3 & P4 & P5); [done..|]. constructor; try done.
    apply signals_claim; try done. by rewrite Hpc.
Qed.

Lemma wait_task_ok sig m' : tk_pc task = PWait sig → run_task t m = Some m' → manager_ok m'.
Proof.
  intros Hpc. at_task Hpc. pose proof task_get as Hget. rewrite Hpc in Hget. case_bool_decide; [|done]. intros [= <-].
  apply move_ok; try done; destruct (tk_request task) as [?? []|]; try done; try (rewrite Hpc; done); no_connect Hpc.
Qed.

Lemma prune_task_ok sig m' : tk_pc task = PPrune sig → run_task t m = Some m' → manager_ok m'.
Proof.
  intros Hpc. at_task Hpc. pose proof task_get as Hget. rewrite Hpc in Hget. intros [= <-].
  assert (Hsub : mc_connections (prune_idle m) ⊆ mc_connections m) by apply map_filter_subseteq.
  apply move_ok; try done.
  - no_connect Hpc.
  - by rewrite Hpc.
  - unfold leader_knows. cbn. pose proof task_knows as Hk. unfold leader_knows in Hk. rewrite Hpc in Hk.
    by eapply lookup_weaken_None.
  - by apply fewer_ok.
Qed.

Lemma permit_task_ok sig m' : tk_pc task = PPermit sig → run_task t m = Some m' → manager_ok m'.
Proof.
  intros Hpc. at_task Hpc. pose proof task_get as Hget. rewrite Hpc in Hget.
  pose proof task_knows as Hk. unfold leader_knows in Hk. rewrite Hpc in Hk.
  destruct (mc_permits m) as [|free] eqn:Hfree; intros [= <-].
  - apply move_ok; try done; [no_connect Hpc|by rewrite Hpc].
  - pose proof Hok as [H1 H2 H3 H4 H5 H6]. constructor.
    + unfold permits_ok in *. cbn. pose proof (count_insert at_connect (mc_tasks m) t (at_pc task (PConnect sig)) task Ht) as Hc.
      unfold at_connect at 2 3 in Hc. cbn in Hc. rewrite Hpc in Hc. lia.
    + by apply (heap_move t task (PConnect sig) m).
    + apply (signals_ext (move t task (PConnect sig) m)); try done. apply signals_move; try done. by rewrite Hpc.
    + by apply (leaders_move t task (PConnect sig) m).
    + apply (results_move t task (PConnect sig) m); by try intros.
    + apply (gets_move t task (PConnect sig) m); [|done]. done.
Qed.

(** No other task leads the name of a leader. *)
Lemma lone_leader sig t' task' : pc_signal (tk_pc task) = Some sig → mc_tasks m !! t' = Some task' →
  is_Some (pc_signal (tk_pc task')) → tk_name task' = tk_name task → t' = t.
Proof.
  intros Hs Ht' [sig' Hs'] Hname. pose proof (mo_signals m Hok) as [_ H2 H3 _ _ _].
  pose proof (H2 _ _ _ Ht Hs) as C1. pose proof (H2 _ _ _ Ht' Hs') as C2. rewrite Hname, C1 in C2. injection C2 as <-.
  by apply (H3 t' t task' task sig).
Qed.

Lemma insert_task_ok sig id m' : tk_pc task = PInsert sig id → run_task t m = Some m' → manager_ok m'.
Proof.
  intros Hpc. at_task Hpc. pose proof task_get as Hget. rewrite Hpc in Hget.
  pose proof task_knows as Hk. unfold leader_knows in Hk. rewrite Hpc in Hk.
  assert (Hheld : is_Some (mc_heap m !! id)).
  { apply held_heap. rewrite Hpc. by apply bool_decide_eq_true. }
  destruct Hheld as [mg Hmg]. rewrite Hmg. cbn [mbind option_bind]. rewrite Hk. cbn [mbind option_bind]. intros [= <-].
  assert (Hmove : manager_ok (move t task (PLeave sig (OConnection id)) m)).
  { apply move_ok; try done; [no_connect Hpc|by rewrite Hpc| |].
    - intros i Hi%bool_decide_eq_true. subst i. by exists mg.
    - cbn. intros i ??? [= <-] _. left. by rewrite Hpc. }
  destruct Hmove as [M1 M2 M3 M4 M5 M6]. constructor; [exact M1| |by apply (signals_ext (move t task (PLeave sig (OConnection id)) m))| |exact M5|exact M6].
  - apply (heap_connections (<[ tk_name task := id ]> (mc_connections m)) (move t task (PLeave sig (OConnection id)) m)); [|done].
    intros name i. rewrite lookup_insert_Some.
    intros [[<- <-]|[_ Hn]]; [by exists mg|by eapply map_heap].
  - intros t' task' Ht'. change (mc_tasks (move t task (PLeave sig (OConnection id)) m) !! t' = Some task') in Ht'.
    rewrite lookup_move in Ht'. case_decide as Hne; [by injection Ht' as <-|].
    assert (Hlead : is_Some (pc_signal (tk_pc task')) → tk_name task' ≠ tk_name task).
    { intros Hs Hname. apply Hne. symmetry. eapply lone_leader; eauto. by rewrite Hpc. }
    pose proof (mo_leaders m Hok t' task' Ht') as Hk'. unfold leader_knows in *. cbn [mc_connections mc_heap set_connections move put_task set_tasks].
    destruct (tk_pc task') as [|[]| | | | | | | | | |]; try done; rewrite lookup_insert_ne; try done;
      intros Heq; by apply Hlead; [eexists|].
Qed.

Lemma close_task_ok sig existing c m' : tk_pc task = PClose sig existing c → manager_ok m'.
Proof. intros Hpc. pose proof task_knows as Hk. unfold leader_knows in Hk. by rewrite Hpc in Hk. Qed.

Lemma leave_task_ok sig o m' : tk_pc task = PLeave sig o → run_task t m = Some m' → manager_ok m'.
Proof.
  intros Hpc. at_task Hpc. pose proof task_get as Hget. rewrite Hpc in Hget. intros [= <-].
  destruct (finish_signal task Optimistic o) as (F1 & F2 & F3).
  apply (release_ok t task (finish Optimistic o) sig m); try done.
  - by rewrite Hpc.
  - rewrite F3. no_connect Hpc.
  - intros id Hi%finish_holds. apply held_heap. rewrite Hpc. subst o. by apply bool_decide_eq_true.
  - apply finish_knows.
  - intros id ??? Hi%finish_result _. left. subst o. by rewrite Hpc.
  - intros Hg. by apply Hget in Hg.
Qed.

Lemma got_task_ok id m' : tk_pc task = PGot id → run_task t m = Some m' → manager_ok m'.
Proof.
  intros Hpc. at_task Hpc. intros Hrun.
  assert (manager_ok (move t task (PDone (OConnection id)) m)).
  { apply move_ok; try done; [no_connect Hpc|by rewrite Hpc]. }
  destruct (tk_lease task); injection Hrun as <-; apply entry_ok; auto with manager.
Qed.
End run.

Lemma run_task_ok t m m' : manager_ok m → run_task t m = Some m' → manager_ok m'.
Proof.
  intros Hok Hrun. destruct (mc_tasks m !! t) as [task|] eqn:Ht; [|by unfold run_task in Hrun; rewrite Ht in Hrun].
  destruct (tk_pc task) as [site|site id| |sig|sig|sig|sig|sig id|sig existing c|sig o|id|o] eqn:Hpc.
  - by eapply lookup_task_ok.
  - by eapply evict_task_ok.
  - by eapply claim_task_ok.
  - by eapply wait_task_ok.
  - by eapply prune_task_ok.
  - by eapply permit_task_ok.
  - unfold run_task in Hrun. rewrite Ht in Hrun. cbn in Hrun. by rewrite Hpc in Hrun.
  - by eapply insert_task_ok.
  - by eapply close_task_ok.
  - by eapply leave_task_ok.
  - by eapply got_task_ok.
  - unfold run_task in Hrun. rewrite Ht in Hrun. cbn in Hrun. by rewrite Hpc in Hrun.
Qed.

(** *** Steps of the environment *)
Lemma heap_alloc t task p mg m :
  heap_ok m → (∀ i, pc_holds p i = true → mc_next_id m = i) → heap_ok (move t task p (alloc mg m)).
Proof.
  intros H2 Hp. split; cbn.
  - intros i Href. destruct (decide (i = mc_next_id m)) as [->|Hne]; [rewrite lookup_insert_eq; by eexists|].
    rewrite lookup_insert_ne by done. apply (proj1 H2). destruct Href as [(name & Hn)|[(t' & task' & Ht' & Hh)|Hc]].
    + left. by exists name.
    + rewrite lookup_move in Ht'. case_decide; [|right; left; by eauto]. injection Ht' as <-. by apply Hp in Hh.
    + by right; right.
  - intros i. destruct (decide (i = mc_next_id m)) as [->|Hne]; [lia|]. rewrite lookup_insert_ne by done.
    intros Hi%(proj2 H2). lia.
Qed.

Lemma connected_ok t success m m' : manager_ok m → connected t success m = Some m' → manager_ok m'.
Proof.
  intros Hok. unfold connected. destruct (mc_tasks m !! t) as [task|] eqn:Ht; [|done]. cbn [mbind option_bind].
  destruct (tk_pc task) eqn:Hpc; try done. destruct (tk_request task) as [config authentication jump|] eqn:Hreq; [|done].
  pose proof Hok as [H1 H2 H3 H4 H5 H6]. pose proof (H4 t task Ht) as Hk. unfold leader_knows in Hk. rewrite Hpc in Hk.
  assert (Hfresh : mc_heap m !! mc_next_id m = None).
  { apply eq_None_not_Some. intros Hs%(proj2 H2). lia. }
  assert (Hcount : ∀ p, at_connect (at_pc task p) = false →
    (S (count at_connect (<[ t := at_pc task p ]> (mc_tasks m))) = count at_connect (mc_tasks m))%nat).
  { intros p Hp. pose proof (count_insert at_connect (mc_tasks m) t (at_pc task p) task Ht) as Hc. rewrite Hp in Hc.
    unfold at_connect at 2 in Hc. rewrite Hpc in Hc. lia. }
  destruct success; intros [= <-].
  - set (mg := mk_managed config authentication true 0 0 (mc_now m)).
    set (m2 := move t task (PInsert sig (mc_next_id m)) (alloc mg m)).
    assert (Hmg : ∀ i mg', mc_heap m !! i = Some mg' → mc_heap m2 !! i = Some mg').
    { intros i mg' Hi. cbn. rewrite lookup_insert_ne; [done|]. intros Heq. rewrite <- Heq in Hi. congruence. }
    constructor.
    + unfold permits_ok in *. cbn. rewrite map_size_insert_None by done. specialize (Hcount (PInsert sig (mc_next_id m)) eq_refl). lia.
    + apply heap_alloc; [done|]. by intros i Hi%bool_decide_eq_true.
    + apply (signals_ext (move t task (PInsert sig (mc_next_id m)) m)); try done. apply signals_move; try done. by rewrite Hpc.
    + intros t' task' Ht'. unfold m2 in Ht'. rewrite lookup_move in Ht'. case_decide; [by injection Ht' as <-|].
      specialize (H4 t' task' Ht'). unfold leader_knows in *. destruct (tk_pc task') as [|[]| | | | | | | | | |]; try done.
      destruct H4 as [?|(Hc & mg' & Hi & Hd)]; [by left|right]. split; [done|]. exists mg'. split; [by apply Hmg|done].
    + intros t' task' i c a j Ht' Hr Hq. unfold m2 in Ht'. rewrite lookup_move in Ht'. case_decide.
      * injection Ht' as <-. cbn in Hr, Hq. injection Hr as <-. rewrite Hreq in Hq. injection Hq as <- <- _. exists mg.
        split; [apply lookup_insert_eq|done].
      * destruct (H5 t' task' i c a j Ht' Hr Hq) as (mg' & Hi & Hrest). exists mg'. split; [by apply Hmg|done].
    + apply (gets_move t task (PInsert sig (mc_next_id m)) m); [|done]. congruence.
  - constructor.
    + unfold permits_ok in *. cbn. specialize (Hcount (PLeave sig (OError "connect")) eq_refl). lia.
    + by apply (heap_move t task (PLeave sig (OError "connect")) m).
    + apply (signals_ext (move t task (PLeave sig (OError "connect")) m)); try done. apply signals_move; try done. by rewrite Hpc.
    + by apply (leaders_move t task (PLeave sig (OError "connect")) m).
    + apply (results_move t task (PLeave sig (OError "connect")) m); by try intros.
    + apply (gets_move t task (PLeave sig (OError "connect")) m); [|done]. congruence.
Qed.

(** Moving a task out of its connect returns the permit. *)
Lemma permits_leave t task p m : mc_tasks m !! t = Some task → at_connect (at_pc task p) = false → permits_ok m →
  permits_ok (if at_connect task then set_permits (S (mc_permits m)) (move t task p m) else move t task p m).
Proof.
  intros Ht Hp H1. pose proof (count_insert at_connect (mc_tasks m) t (at_pc task p) task Ht) as Hc. rewrite Hp in Hc.
  unfold permits_ok in *. destruct (at_connect task); cbn; lia.
Qed.

Lemma cancel_ok t m m' : manager_ok m → cancel t m = Some m' → manager_ok m'.
Proof.
  intros Hok. unfold cancel. destruct (mc_tasks m !! t) as [task|] eqn:Ht; [|done]. cbn [mbind option_bind].
  set (m1 := move t task (PDone OCancelled) m).
  set (m2 := match tk_pc task with PConnect _ => set_permits (S (mc_permits m1)) m1 | _ => m1 end).
  intros Hc. assert (Hm' : m' = match pc_signal (tk_pc task) with Some sig => release_leader (tk_name task) sig m2 | None => m2 end).
  { unfold m2. destruct (tk_pc task); by simplify_eq. }
  assert (Hm2 : m2 = if at_connect task then set_permits (S (mc_permits m)) m1 else m1) by (unfold m2, at_connect; by destruct (tk_pc task)).
  subst m'. pose proof Hok as [H1 H2 H3 H4 H5 H6].
  pose proof (permits_leave t task (PDone OCancelled) m Ht eq_refl H1) as P1. fold m1 in P1. rewrite <- Hm2 in P1.
  assert (P2 : heap_ok m1) by by apply heap_move.
  assert (P4 : leaders_ok m1) by by apply leaders_move.
  assert (P5 : results_ok m1) by by apply results_move.
  assert (P6 : gets_ok m1) by by apply gets_move.
  assert (Hfields : mc_heap m2 = mc_heap m1 ∧ mc_tasks m2 = mc_tasks m1 ∧ mc_connections m2 = mc_connections m1 ∧
    mc_closing m2 = mc_closing m1 ∧ mc_next_id m2 = mc_next_id m1 ∧ mc_connecting m2 = mc_connecting m1 ∧
    mc_signalled m2 = mc_signalled m1 ∧ mc_next_signal m2 = mc_next_signal m1).
  { rewrite Hm2. by destruct (at_connect task). }
  destruct Hfields as (A1 & A2 & A3 & A4 & A5 & A6 & A7 & A8).
  destruct (pc_signal (tk_pc task)) as [sig|] eqn:Hsig.
  - assert (P3 : signals_ok (release_leader (tk_name task) sig m2)).
    { apply (signals_ext (release_leader (tk_name task) sig m1)); [..|by apply signals_release];
        unfold release_leader; rewrite A6; case_bool_decide; cbn; by rewrite ?A6, ?A7, ?A8. }
    constructor; [| |exact P3| | |]; unfold permits_ok, heap_ok, leaders_ok, results_ok, gets_ok, leader_knows, refers in *;
      destruct (release_leader_fields (tk_name task) sig m2) as (E1 & E2 & E3 & E4 & E5 & E6 & E7);
      rewrite ?E1, ?E2, ?E3, ?E4, ?E5, ?E6, ?E7, ?A1, ?A2, ?A3, ?A4, ?A5 in *; assumption.
  - assert (P3 : signals_ok m1) by by apply signals_move.
    constructor; [done| | | | |]; unfold heap_ok, leaders_ok, results_ok, gets_ok, leader_knows, refers in *;
      rewrite ?A1, ?A2, ?A3, ?A4, ?A5 in *; try assumption. by apply (signals_ext m1).
Qed.

Lemma closing_ok l m : (∀ id, id ∈ l → is_Some (mc_heap m !! id)) → manager_ok m → manager_ok (set_closing l m).
Proof.
  intros Hl [H1 [H2 H2'] H3 H4 H5 H6]. constructor; [exact H1| |by apply (signals_ext m)|exact H4|exact H5|exact H6].
  split; [|exact H2']. intros id [Hn|[Ht|Hc]]; [apply H2; by left|apply H2; by right; left|by apply Hl].
Qed.

Lemma remove_one_subset id l i : i ∈ remove_one id l → i ∈ l.
Proof.
  induction l as [|j l IH]; cbn; [done|]. case_bool_decide; rewrite !elem_of_cons; [by right|]. intros [->|Hi]; [by left|right; by apply IH].
Qed.

Lemma start_ok t task m :
  mc_tasks m !! t = None → (tk_pc task = PLookup Optimistic ∨ ∃ e, tk_pc task = PDone (OError e)) →
  manager_ok m → manager_ok (put_task t task m).
Proof.
  intros Ht Hpc [H1 [H2 H2'] H3 H4 H5 H6]. constructor.
  - unfold permits_ok, put_task in *. cbn. rewrite count_insert_new by done. unfold at_connect at 1. by destruct Hpc as [->|[e ->]].
  - split; [|exact H2']. intros id [Hn|[(t' & task' & Ht' & Hh)|Hc]]; [apply H2; by left| |apply H2; by right; right].
    cbn in Ht'. apply lookup_insert_Some in Ht' as [[_ <-]|[_ Ht']]; [by destruct Hpc as [Hpc|[e Hpc]]; rewrite Hpc in Hh|].
    apply H2. right. left. eauto.
  - apply signals_start; try done; [|intros s]; by destruct Hpc as [->|[e ->]].
  - intros t' task' Ht'. cbn in Ht'. apply lookup_insert_Some in Ht' as [[_ <-]|[_ Ht']]; [|by apply (H4 t')].
    unfold leader_knows. by destruct Hpc as [->|[e ->]].
  - intros t' task' id c a j Ht' Hr Hq. cbn in Ht'. apply lookup_insert_Some in Ht' as [[_ <-]|[_ Ht']]; [|by eapply H5].
    by destruct Hpc as [Hpc|[e Hpc]]; rewrite Hpc in Hr.
  - intros t' task' Ht'. cbn in Ht'. apply lookup_insert_Some in Ht' as [[_ <-]|[_ Ht']]; [|by apply (H6 t')].
    intros _. by destruct Hpc as [->|[e ->]].
Qed.

Lemma step_ok l m m' : manager_ok m → step l m = Some m' → manager_ok m'.
Proof.
  intros Hok. assert (Hclosing : ∀ id, id ∈ mc_closing m → is_Some (mc_heap m !! id)).
  { intros id Hid. apply (proj1 (mo_heap m Hok)). by right; right. }
  assert (Hmap : ∀ name id, mc_connections m !! name = Some id → is_Some (mc_heap m !! id)).
  { intros name id Hn. apply (proj1 (mo_heap m Hok)). left. by exists name. }
  destruct l as [t name r lease|t|t success|t|d|id|id|id|id|name| |id|]; cbn [step].
  - case_bool_decide as Hsome; [done|]. intros [= <-]. apply eq_None_not_Some in Hsome. apply start_ok; try done.
    destruct r; cbn; [case_bool_decide|]; by eauto.
  - by apply run_task_ok.
  - by apply connected_ok.
  - by apply cancel_ok.
  - intros [= <-]. destruct Hok as [H1 H2 H3 H4 H5 H6]. constructor; try done. by apply (signals_ext m).
  - intros [= <-]. apply entry_ok; auto with manager.
  - destruct (mc_heap m !! id); [|done]. cbn. case_match; [done|]. intros [= <-]. apply entry_ok; auto with manager.
  - destruct (mc_heap m !! id); [|done]. cbn. case_match; [done|]. intros [= <-]. apply entry_ok; auto with manager.
  - intros [= <-]. apply entry_ok; auto with manager.
  - destruct (mc_connections m !! name) as [id|] eqn:Hid; [|done]. cbn. intros [= <-].
    apply closing_ok; [|apply fewer_ok; [apply delete_subseteq|done]]. cbn. intros i. rewrite elem_of_cons.
    intros [->|Hi]; [by eapply Hmap|by apply Hclosing].
  - intros [= <-]. apply closing_ok; [|apply fewer_ok; [apply map_empty_subseteq|done]]. cbn. intros i. rewrite elem_of_app.
    intros [Hi|Hi]; [|by apply Hclosing]. apply list_elem_of_fmap in Hi as ([n j] & -> & Hi). apply elem_of_map_to_list in Hi.
    by eapply Hmap.
  - case_bool_decide; [|done]. intros [= <-]. apply entry_ok; [auto with manager|]. apply closing_ok; [|done].
    intros i Hi%remove_one_subset. by apply Hclosing.
  - intros [= <-]. apply fewer_ok; [apply map_filter_subseteq|done].
Qed.

Lemma new_ok max idle : manager_ok (manager_new max idle).
Proof.
  constructor; try done.
  - unfold permits_ok. cbn. rewrite map_size_empty. unfold count. rewrite map_filter_empty, map_size_empty. lia.
  - split; [|by intros id [mg Hmg]]. intros id [(name & Hn)|[(t & task & Ht & _)|Hc]]; [done..|by apply elem_of_nil in Hc].
Qed.

Lemma system_ok l m m' : manager_ok m → system_step l m = Some m' → manager_ok m'.
Proof.
  unfold system_step. intros Hok Hs. destruct (step l m) as [m1|] eqn:Hstep; [|done]. cbn in Hs. injection Hs as <-.
  apply sweep_ok. by eapply step_ok.
Qed.

Lemma run_labels_ok ls m m' : manager_ok m → run_labels ls m = Some m' → manager_ok m'.
Proof.
  revert m. induction ls as [|l ls IH]; intros m Hok; [by intros [= <-]|]. cbn [run_labels].
  destruct (system_step l m) as [m1|] eqn:Hs; [|done]. cbn. apply IH. by eapply system_ok.
Qed.

Lemma reachable_ok ls max idle m : run_labels ls (manager_new max idle) = Some m → manager_ok m.
Proof. apply run_labels_ok, new_ok. Qed.

(** *** Progress *)
Lemma step_bounds l m m' : step l m = Some m' → mc_max m' = mc_max m ∧ mc_idle_timeout m' = mc_idle_timeout m.
Proof.
  destruct l; cbn [step]; unfold_task; unfold connected, cancel, mbind, option_bind, release_leader;
    intros Hs; simplify_eq/=; try done; repeat (case_match; simplify_eq/=; try done).
Qed.

Lemma reachable_max ls max idle m : run_labels ls (manager_new max idle) = Some m → mc_max m = max.
Proof.
  change max with (mc_max (manager_new max idle)) at 2. generalize (manager_new max idle) as m0.
  induction ls as [|l ls IH]; intros m0; [by intros [= <-]|]. cbn [run_labels]. unfold system_step.
  destruct (step l m0) as [m1|] eqn:Hs; [|done]. cbn. intros Hrun. apply IH in Hrun. rewrite Hrun. cbn. by eapply step_bounds.
Qed.

(** How far a leader is from leaving. *)
Definition leader_rank (p : pc) : nat :=
  match p with
  | PLookup _ => 7 | PEvict _ _ => 6 | PPrune _ => 5 | PPermit _ => 4 | PConnect _ => 3 | PInsert _ _ => 2 | PClose _ _ _ => 1 | _ => 0
  end.

(** The step that runs a task. *)
Definition own_step (success : bool) (t : nat) (p : pc) : label := match p with PConnect _ => Connected t success | _ => Run t end.

Definition progresses (t : nat) (task : Task) (sig : nat) (m' : Manager) : Prop :=
  (∃ p, mc_tasks m' !! t = Some (at_pc task p) ∧ pc_signal p = Some sig ∧ (leader_rank p < leader_rank (tk_pc task))%nat) ∨
  sig ∈ mc_signalled m' ∧ is_Some (mc_tasks m' !! t).

Lemma progresses_move t task sig p m :
  pc_signal p = Some sig → (leader_rank p < leader_rank (tk_pc task))%nat → progresses t task sig (move t task p m).
Proof. intros Hs Hr. left. exists p. by rewrite lookup_move, decide_True by done. Qed.

Lemma lookup_progress t task m site sig success :
  manager_ok m → mc_tasks m !! t = Some task → tk_pc task = PLookup site → pc_signal (PLookup site) = Some sig →
  ∃ m', step (own_step success t (PLookup site)) m = Some m' ∧ progresses t task sig m'.
Proof.
  intros Hok Ht Hpc Hsig. cbn [own_step step]. unfold_task. rewrite Ht. cbn [mbind option_bind]. rewrite Hpc.
  destruct site as [| |s]; [done..|]. injection Hsig as ->.
  assert (Hget : tk_request task ≠ Get).
  { intros Hg. pose proof (mo_gets m Hok t task Ht Hg) as H. by rewrite Hpc in H. }
  destruct (mc_connections m !! tk_name task) as [id|] eqn:Hid.
  - destruct (map_heap m Hok _ _ Hid) as [mg ->]. cbn [mbind option_bind]. destruct (mg_alive mg); cbn [negb].
    + destruct (lookup_compatible _ _ _); eexists; split; [done| |done|]; apply (progresses_move t task sig); rewrite ?Hpc; cbn; try done; lia.
    + eexists; split; [done|]. apply progresses_move; rewrite ?Hpc; cbn; [done|lia].
  - eexists; split; [done|]. destruct (tk_request task); [|done]. apply progresses_move; rewrite ?Hpc; cbn; [done|lia].
Qed.

Lemma evict_progress t task m site id sig success :
  manager_ok m → mc_tasks m !! t = Some task → tk_pc task = PEvict site id → pc_signal (PEvict site id) = Some sig →
  ∃ m', step (own_step success t (PEvict site id)) m = Some m' ∧ progresses t task sig m'.
Proof.
  intros Hok Ht Hpc Hsig. cbn [own_step step]. unfold_task. rewrite Ht. cbn [mbind option_bind]. rewrite Hpc.
  destruct site as [| |s]; [done..|]. injection Hsig as ->.
  assert (Hget : tk_request task ≠ Get).
  { intros Hg. pose proof (mo_gets m Hok t task Ht Hg) as H. by rewrite Hpc in H. }
  assert (Hp : pc_signal (not_found (tk_request task) (LeaderAgain sig)) = Some sig ∧
    (leader_rank (not_found (tk_request task) (LeaderAgain sig)) < leader_rank (tk_pc task))%nat).
  { destruct (tk_request task); [|done]. rewrite Hpc. cbn. split; [done|lia]. }
  repeat case_match; (eexists; split; [done|]); left; eexists; (split; [cbn; apply lookup_insert_eq|exact Hp]).
Qed.

(** A leader that is not connecting can always run; when the transport is set up or
    refused it goes on. *)
Lemma leader_step t task m sig success :
  manager_ok m → mc_tasks m !! t = Some task → pc_signal (tk_pc task) = Some sig →
  ∃ m', step (own_step success t (tk_pc task)) m = Some m' ∧ progresses t task sig m'.
Proof.
  intros Hok Ht Hsig. destruct (tk_pc task) as [site|site id| |s|s|s|s|s id|s existing c|s o|id|o] eqn:Hpc; try done.
  - by eapply lookup_progress.
  - by eapply evict_progress.
  - injection Hsig as ->. cbn. unfold_task. rewrite Ht. cbn [mbind option_bind]. rewrite Hpc. eexists; split; [done|].
    apply progresses_move; rewrite ?Hpc; cbn; [done|lia].
  - injection Hsig as ->. cbn. unfold_task. rewrite Ht. cbn [mbind option_bind]. rewrite Hpc.
    destruct (mc_permits m); (eexists; split; [done|]); apply (progresses_move t task sig); rewrite ?Hpc; cbn; try done; lia.
  - injection Hsig as ->. cbn. unfold connected. rewrite Ht. cbn [mbind option_bind]. rewrite Hpc.
    destruct (tk_request task) eqn:Hreq.
    + destruct success; (eexists; split; [done|]); apply (progresses_move t task sig); rewrite ?Hpc; cbn; try done; lia.
    + pose proof (mo_gets m Hok t task Ht Hreq) as H. by rewrite Hpc in H.
  - injection Hsig as ->. cbn. unfold_task. rewrite Ht. cbn [mbind option_bind]. rewrite Hpc.
    pose proof (mo_leaders m Hok t task Ht) as Hk. unfold leader_knows in Hk. rewrite Hpc in Hk.
    destruct (held_heap m t task Ht Hok id) as [mg ->]; [rewrite Hpc; by apply bool_decide_eq_true|].
    cbn [mbind option_bind]. rewrite Hk. cbn [mbind option_bind]. eexists; split; [done|].
    apply (progresses_move t task sig); rewrite ?Hpc; cbn; [done|lia].
  - pose proof (mo_leaders m Hok t task Ht) as Hk. unfold leader_knows in Hk. by rewrite Hpc in Hk.
  - injection Hsig as ->. cbn. unfold_task. rewrite Ht. cbn [mbind option_bind]. rewrite Hpc. eexists; split; [done|].
    right. pose proof (so_signal m (mo_signals m Hok) t task sig Ht) as Hc. rewrite Hpc in Hc. specialize (Hc eq_refl).
    unfold release_leader. cbn [mc_connecting move put_task set_tasks]. rewrite bool_decide_eq_true_2 by done. cbn.
    split; [by apply elem_of_union_l, elem_of_singleton|]. rewrite lookup_insert_eq. by eexists.
Qed.

(** By its own steps a leader signals its followers. *)
Lemma leader_signals_ok success n t task m sig :
  manager_ok m → mc_tasks m !! t = Some task → pc_signal (tk_pc task) = Some sig → (leader_rank (tk_pc task) < n)%nat →
  ∃ ls m', (length ls ≤ n)%nat ∧ Forall (λ l, l = Run t ∨ l = Connected t success) ls ∧
    run_labels ls m = Some m' ∧ sig ∈ mc_signalled m'.
Proof.
  revert task m. induction n as [|n IH]; intros task m Hok Ht Hsig Hr; [lia|].
  destruct (leader_step t task m sig success Hok Ht Hsig) as (m1 & Hstep & Hprog).
  assert (Hl : own_step success t (tk_pc task) = Run t ∨ own_step success t (tk_pc task) = Connected t success).
  { destruct (tk_pc task); by auto. }
  assert (Hs : system_step (own_step success t (tk_pc task)) m = Some (sweep m1)) by (unfold system_step; by rewrite Hstep).
  pose proof (system_ok _ _ _ Hok Hs) as Hok1.
  destruct Hprog as [(p & Hp & Hps & Hlt)|[Hdone _]].
  - destruct (IH (at_pc task p) (sweep m1) Hok1 Hp Hps) as (ls & m' & Hlen & Hall & Hrun & Hin); [cbn; lia|].
    exists (own_step success t (tk_pc task) :: ls), m'. split_and!; [cbn; lia|by constructor| |done]. cbn [run_labels]. by rewrite Hs.
  - exists [own_step success t (tk_pc task)], (sweep m1). split_and!; [cbn; lia|constructor; [done|constructor]| |done]. cbn [run_labels]. by rewrite Hs.
Qed.

(** *** Idle pruning *)
Lemma strong_count_parts m id mg : strong_count m id mg = 1%nat → in_map m id = true →
  mg_leases mg = 0%nat ∧ id ∉ mc_closing m ∧ ∀ t task, mc_tasks m !! t = Some task → pc_holds (tk_pc task) id = false.
Proof.
  unfold strong_count. intros Hc Hm. rewrite Hm in Hc. split_and!; [lia| |].
  - intros Hin. pose proof (length_filter_zero (λ i, i = id) (mc_closing m) id Hin eq_refl). lia.
  - intros t task Ht. apply not_true_is_false. intros Hh.
    assert (task_holds m id ≠ 0)%nat; [|lia]. unfold task_holds. eapply length_filter_zero with (x := (t, task)); [|done].
    by apply elem_of_map_to_list.
Qed.

Lemma in_map_spec m id : in_map m id = true ↔ ∃ name, mc_connections m !! name = Some id.
Proof.
  unfold in_map. rewrite existsb_exists. split.
  - intros ([name i] & Hin & Heq%bool_decide_eq_true). cbn in Heq. subst i. exists name.
    by apply elem_of_map_to_list, list_elem_of_In.
  - intros (name & Hn). exists (name, id). split; [|by apply bool_decide_eq_true]. by apply list_elem_of_In, elem_of_map_to_list.
Qed.

Lemma prune_idle_lookup m name id :
  mc_connections (prune_idle m) !! name = Some id ↔ mc_connections m !! name = Some id ∧ prunable m id = false.
Proof. unfold prune_idle. cbn. by rewrite map_lookup_filter_Some. Qed.

Lemma prunable_in_use m id mg : mc_heap m !! id = Some mg → managed_is_in_use m id mg = true → prunable m id = false.
Proof.
  intros Hmg Huse. unfold prunable. rewrite Hmg. unfold managed_is_in_use in Huse.
  destruct (mg_leases mg =? 0)%nat eqn:H0; [|by rewrite !andb_false_r]. cbn [negb orb] in Huse.
  apply orb_true_iff in Huse as [H%Nat.ltb_lt|H%Nat.ltb_lt].
  - destruct (strong_count m id mg =? 1)%nat eqn:He; [apply Nat.eqb_eq in He; lia|done].
  - destruct (client_strong_count m id mg =? 1)%nat eqn:He; [apply Nat.eqb_eq in He; lia|by rewrite andb_false_r].
Qed.

(** ** Properties *)

(** C15: the capacity is exact and the set-up single-flight.  After any interleaving
    of calls, environment events and cancellations, the free permits, the live
    connections and the connections being set up together are the configured maximum
    (so there are never more than [max] of them); everything the map, a task or a
    closing call refers to is still live; and of the tasks with one name at most one
    is past the claim, so no two of them connect at once. *)
Theorem capacity_and_single_flight ls max idle m :
  run_labels ls (manager_new max idle) = Some m →
  (mc_permits m + size (mc_heap m) + count at_connect (mc_tasks m) = max)%nat ∧
  (∀ id, refers m id → is_Some (mc_heap m !! id)) ∧
  (∀ t1 t2 k1 k2 s1 s2, mc_tasks m !! t1 = Some k1 → mc_tasks m !! t2 = Some k2 → tk_name k1 = tk_name k2 →
     pc_signal (tk_pc k1) = Some s1 → pc_signal (tk_pc k2) = Some s2 → t1 = t2) ∧
  (∀ t task sig, mc_tasks m !! t = Some task → tk_pc task = PConnect sig → mc_connections m !! tk_name task = None).
Proof.
  intros Hrun. pose proof (reachable_ok _ _ _ _ Hrun) as Hok. rewrite <- (reachable_max _ _ _ _ Hrun).
  split_and!; [apply Hok|apply Hok| |].
  - intros t1 t2 k1 k2 s1 s2 H1 H2 Hname Hs1 Hs2. symmetry.
    by apply (lone_leader m t1 k1 H1 Hok s1 t2 k2 Hs1 H2 (ex_intro _ s2 Hs2)).
  - intros t task sig Ht Hpc. pose proof (mo_leaders m Hok t task Ht) as Hk. unfold leader_knows in Hk. by rewrite Hpc in Hk.
Qed.

(** C20: a returned connection is the one asked for.  Whatever entry a connecting task
    is about to return, its configuration is the requested one and its
    authentication key is the requested one; and a lookup that is not a follower's
    returns an entry only when its authentication source may be reused. *)
Theorem returned_connection_matches ls max idle m :
  run_labels ls (manager_new max idle) = Some m →
  (∀ t task id config authentication jump, mc_tasks m !! t = Some task → tk_request task = Connect config authentication jump →
     tk_pc task = PGot id →
     ∃ mg, mc_heap m !! id = Some mg ∧ mg_config mg = config ∧ mg_auth mg = authentication) ∧
  (∀ t task id config authentication jump sig, mc_tasks m !! t = Some task → tk_request task = Connect config authentication jump →
     tk_pc task = PLookup Optimistic ∨ tk_pc task = PLookup (LeaderAgain sig) →
     authentication = NonReusable →
     ∀ m', run_task t m = Some m' → ∀ task', mc_tasks m' !! t = Some task' → pc_result (tk_pc task') ≠ Some id).
Proof.
  intros Hrun. pose proof (reachable_ok _ _ _ _ Hrun) as Hok. split.
  - intros t task id config authentication jump Ht Hreq Hpc. eapply (mo_results m Hok t task id); [done| |done]. by rewrite Hpc.
  - intros t task id config authentication jump sig Ht Hreq Hpc -> m' Hstep task' Ht' Hres.
    assert (∃ site, site ≠ Follower ∧ tk_pc task = PLookup site) as (site & Hsite & Hpcs) by (destruct Hpc as [-> | ->]; eexists; (split; [|done]); done).
    unfold run_task, lookup_task in Hstep. rewrite Ht in Hstep. cbn [mbind option_bind] in Hstep. rewrite Hpcs, Hreq in Hstep.
    assert (Hmove : ∀ p m2, mc_tasks m2 = mc_tasks (move t task p m) → Some m2 = Some m' → pc_result p = Some id).
    { intros p m2 Hm2 [= <-]. rewrite Hm2, lookup_move, decide_True in Ht' by done. by injection Ht' as <-. }
    destruct (mc_connections m !! tk_name task) as [i|].
    + destruct (mc_heap m !! i) as [mg|]; [|done]. cbn [mbind option_bind] in Hstep.
      destruct (mg_alive mg); cbn [negb] in Hstep; [|by apply (Hmove (PEvict site i)) in Hstep].
      assert (Herr : ∃ e, lookup_compatible site (Connect config NonReusable jump) mg = Err e).
      { unfold lookup_compatible, ensure_reusable, bail_if. assert (can_reuse_with (mg_auth mg) NonReusable = false) as -> by by destruct (mg_auth mg).
        destruct site; [|done|]; cbn [orb andb]; destruct (bool_decide _); cbn; by eexists. }
      destruct Herr as [e He]. rewrite He in Hstep. apply (Hmove (finish site (OError e))) in Hstep; [|done]. by destruct site.
    + apply (Hmove (not_found (Connect config NonReusable jump) site)) in Hstep; [|done]. by destruct site.
Qed.

(** Pruning evicts exactly the entries that nothing uses.  An entry stays in the
    map unless it is idle for the timeout and has no lease, no client clone, no task
    and no closing call that holds it; whatever [connection_snapshots] reports as in
    use stays. *)
Theorem prune_idle_exact m name id mg :
  mc_connections m !! name = Some id → mc_heap m !! id = Some mg →
  (mc_connections (prune_idle m) !! name = None →
     mg_leases mg = 0%nat ∧ mg_clients mg = 0%nat ∧ (mc_idle_timeout m <= mc_now m - mg_last_used mg)%Z ∧ id ∉ mc_closing m ∧
     ∀ t task, mc_tasks m !! t = Some task → pc_holds (tk_pc task) id = false) ∧
  (managed_is_in_use m id mg = true → mc_connections (prune_idle m) !! name = Some id) ∧
  (managed_is_in_use m id mg = false → mc_idle_timeout m <= mc_now m - mg_last_used mg → mc_connections (prune_idle m) !! name = None).
Proof.
  intros Hn Hmg. assert (Hin : in_map m id = true) by by (apply in_map_spec; exists name).
  assert (Hkeep : mc_connections (prune_idle m) !! name = (if prunable m id then None else Some id)).
  { destruct (prunable m id) eqn:Hp; [|by apply prune_idle_lookup]. apply eq_None_not_Some. intros [i Hi].
    apply prune_idle_lookup in Hi as [Hi Hpi]. congruence. }
  rewrite Hkeep. split_and!.
  - destruct (prunable m id) eqn:Hp; [intros _|done]. unfold prunable in Hp. rewrite Hmg in Hp.
    apply andb_true_iff in Hp as [[[H1%Nat.eqb_eq H2%Nat.eqb_eq]%andb_true_iff H3%Nat.eqb_eq]%andb_true_iff H4%Z.leb_le].
    destruct (strong_count_parts m id mg H1 Hin) as (? & ? & ?). unfold client_strong_count in H2. split_and!; try done; lia.
  - intros Huse. by rewrite (prunable_in_use m id mg).
  - intros Huse Hidle. unfold managed_is_in_use in Huse. apply orb_false_iff in Huse as [[H1%negb_false_iff H2%Nat.ltb_ge]%orb_false_iff H3%Nat.ltb_ge].
    assert (prunable m id = true) as ->; [|done]. unfold prunable. rewrite Hmg, H1.
    assert ((mc_idle_timeout m <=? mc_now m - mg_last_used mg) = true) as -> by by apply Z.leb_le.
    assert (strong_count m id mg = 1%nat) as ->; [|assert (client_strong_count m id mg = 1%nat) as ->; [|done]].
    + unfold strong_count in *. rewrite Hin in *. lia.
    + unfold client_strong_count in *. lia.
Qed.

(** No follower waits for ever on the manager.  In every reachable state an
    unfinished task is connecting, or can take a step, or waits on a signal whose
    leader is a live task; and that leader, whether its connect succeeds or fails,
    needs at most eight steps of its own to signal. *)
Theorem followers_are_signalled ls max idle m t task :
  run_labels ls (manager_new max idle) = Some m → mc_tasks m !! t = Some task → (∀ o, tk_pc task ≠ PDone o) →
  (∃ sig, tk_pc task = PConnect sig) ∨ is_Some (step (Run t) m) ∨
  ∃ sig leader task', tk_pc task = PWait sig ∧ mc_tasks m !! leader = Some task' ∧ tk_name task' = tk_name task ∧
    ∀ success, ∃ ls' m', (length ls' <= 8)%nat ∧ Forall (λ l, l = Run leader ∨ l = Connected leader success) ls' ∧
      run_labels ls' m = Some m' ∧ sig ∈ mc_signalled m'.
Proof.
  intros Hrun Ht Hdone. pose proof (reachable_ok _ _ _ _ Hrun) as Hok. pose proof (mo_signals m Hok) as Hs.
  destruct (pc_signal (tk_pc task)) as [sig|] eqn:Hsig.
  { destruct (leader_step t task m sig true Hok Ht Hsig) as (m1 & Hstep & _).
    destruct (tk_pc task) eqn:Hpc; try done; try (right; left; by exists m1). left. by eexists. }
  right. destruct (tk_pc task) as [site|site id| |s|s|s|s|s id|s existing c|s o|id|o] eqn:Hpc; try done.
  - left. cbn. unfold_task. rewrite Ht. cbn [mbind option_bind]. rewrite Hpc.
    destruct (mc_connections m !! tk_name task) as [id|] eqn:Hid; [|by eexists].
    destruct (map_heap m Hok _ _ Hid) as [mg ->]. cbn [mbind option_bind]. repeat case_match; by eexists.
  - left. cbn. unfold_task. rewrite Ht. cbn [mbind option_bind]. rewrite Hpc. repeat case_match; by eexists.
  - left. cbn. unfold_task. rewrite Ht. cbn [mbind option_bind]. rewrite Hpc. repeat case_match; by eexists.
  - destruct (so_wait m Hs t task s Ht Hpc) as [Hin|Hconn].
    + left. cbn. unfold_task. rewrite Ht. cbn [mbind option_bind]. rewrite Hpc, bool_decide_eq_true_2 by done. by eexists.
    + right. destruct (so_leader m Hs _ _ Hconn) as (leader & task' & Hl & Hname & Hsig'). exists s, leader, task'.
      split_and!; try done. intros success. apply (leader_signals_ok success 8 leader task'); try done.
      destruct (tk_pc task'); cbn; lia.
  - left. cbn. unfold_task. rewrite Ht. cbn [mbind option_bind]. rewrite Hpc. repeat case_match; by eexists.
  - by destruct (Hdone o).
Qed.

(** ** Concrete runs *)
Module Examples.

Definition demo : ConnectionConfig := config_new (lit "server") (lit "deploy").
Definition name : str := lit "prod".
Definition password (p : string) : AuthenticationReuseKey := reuse_key (AuthPassword (lit p)).

(** Two concurrent connects with different passwords: the second waits for the first. *)
Definition two_connects (jump : bool) : list label :=
  [ Start 0 name (Connect demo (password "right") jump) true; Start 1 name (Connect demo (password "wrong") jump) true;
    Run 0; Run 0; Run 1; Run 1; Run 0; Run 0; Run 0; Connected 0 true; Run 0; Run 0; Run 0; Run 1; Run 1; Run 1 ].
Definition pc_of (t : nat) (m : option Manager) : option pc := m ← m; tk_pc <$> mc_tasks m !! t.

(** The follower's own password never reaches the server, and it gets the leader's
    authenticated transport. *)
Example follower_shares_secret :
  pc_of 0 (run_labels (two_connects false) (manager_new 4 10)) = Some (PDone (OConnection 0)) ∧
  pc_of 1 (run_labels (two_connects false) (manager_new 4 10)) = Some (PDone (OConnection 0)).
Proof. split; by vm_compute. Qed.

(** With [connect_with_jump_auth] the same follower is refused. *)
Example jump_follower_refused :
  pc_of 1 (run_labels (take 15 (two_connects true)) (manager_new 4 10)) = Some (PDone (OError "already bound to a different or non-reusable authentication source")).
Proof. by vm_compute. Qed.

(** The states those runs reach. *)
Definition final : Manager := default (manager_new 0 0) (run_labels (two_connects false) (manager_new 4 10)).
Definition waiting : Manager := default (manager_new 0 0) (run_labels (take 6 (two_connects false)) (manager_new 4 10)).
Definition landed : Manager := default (manager_new 0 0) (run_labels (take 12 (two_connects false)) (manager_new 4 10)).
(** The leases are dropped and the entry ages. *)
Definition idle_labels : list label := two_connects false ++ [DropLease 0; DropLease 0; Tick 10].
Definition idle : Manager := default (manager_new 0 0) (run_labels idle_labels (manager_new 4 10)).

Lemma capacity_and_single_flight_witness :
  run_labels (two_connects false) (manager_new 4 10) = Some final ∧
  (mc_permits final + size (mc_heap final) + count at_connect (mc_tasks final) = 4)%nat.
Proof.
  assert (Hrun : run_labels (two_connects false) (manager_new 4 10) = Some final) by by vm_compute.
  split; [exact Hrun|]. exact (proj1 (capacity_and_single_flight (two_connects false) 4 10 final Hrun)).
Defined.

Lemma returned_connection_matches_witness :
  run_labels (take 12 (two_connects false)) (manager_new 4 10) = Some landed ∧
  ∃ mg, mc_heap landed !! 0%nat = Some mg ∧ mg_config mg = demo ∧ mg_auth mg = password "right".
Proof.
  assert (Hrun : run_labels (take 12 (two_connects false)) (manager_new 4 10) = Some landed) by by vm_compute.
  split; [exact Hrun|].
  apply (proj1 (returned_connection_matches _ 4 10 landed Hrun) 0%nat (mk_task name (Connect demo (password "right") false) true (PGot 0))
    0%nat demo (password "right") false); by vm_compute.
Defined.

Lemma prune_idle_exact_witness : ∃ mg,
  mc_connections idle !! name = Some 0%nat ∧ mc_heap idle !! 0%nat = Some mg ∧ mc_connections (prune_idle idle) !! name = None.
Proof.
  assert (Hin : mc_connections idle !! name = Some 0%nat) by by vm_compute.
  eexists. split; [exact Hin|]. split; [by vm_compute|].
  apply (proj2 (proj2 (prune_idle_exact idle name 0 (mk_managed demo NonReusable true 0 0 0) Hin ltac:(by vm_compute))));
    [by vm_compute|by vm_compute].
Defined.

Lemma followers_are_signalled_witness :
  run_labels (take 6 (two_connects false)) (manager_new 4 10) = Some waiting ∧
  ((∃ sig, PWait 0 = PConnect sig) ∨ is_Some (step (Run 1) waiting) ∨
   ∃ sig leader task', PWait 0 = PWait sig ∧ mc_tasks waiting !! leader = Some task' ∧ tk_name task' = name ∧
     ∀ success, ∃ ls' m', (length ls' <= 8)%nat ∧ Forall (λ l, l = Run leader ∨ l = Connected leader success) ls' ∧
       run_labels ls' waiting = Some m' ∧ sig ∈ mc_signalled m').
Proof.
  assert (Hrun : run_labels (take 6 (two_connects false)) (manager_new 4 10) = Some waiting) by by vm_compute.
  split; [exact Hrun|].
  apply (followers_are_signalled _ 4 10 waiting 1 (mk_task name (Connect demo (password "wrong") false) true (PWait 0)) Hrun);
    [by vm_compute|done].
Defined.
End Examples.
