(* ===== verification/TreeWalk.v ===== *)
(** * Walking a tree with a worklist

    The directory walks of the program (sizes, deletion plans, recursive transfers,
    sync scans) pop a directory, list it, emit its entries and push those that are
    directories.  Whatever the order of the worklist, they emit every node once and
    a parent before its children. *)

From stdpp Require Import base list gmap strings numbers sorting.
From Stdlib Require Import Lia.
From S2P Require Import Prelude RustStr.

Section walk.
(** The nodes of a tree by their names from its root [[]]; only directories have
    nodes in them. *)
Context (is_node is_dir : list str → Prop) `{∀ x, Decision (is_dir x)}.
Context (node_parent : ∀ x name, is_node (x ++ [name]) → is_dir x).
Context (dir_node : ∀ x, is_dir x → x ≠ [] → is_node x).

(** The entries of a directory, in some order. *)
Definition lists (w : list str) (kids : list (list str)) : Prop :=
  NoDup kids ∧ ∀ x, x ∈ kids ↔ is_node x ∧ ∃ name, x = w ++ [name].

(** [emitted] so far, in order, with the directories [work] still to list. *)
Record walking (emitted work : list (list str)) : Prop := {
  wk_nodup : NoDup emitted;
  wk_work_nodup : NoDup work;
  wk_work : ∀ w, w ∈ work → is_dir w ∧ (w = [] ∨ w ∈ emitted);
  wk_nodes : ∀ x, x ∈ emitted → is_node x ∧ x ≠ [];
  wk_covers : ∀ x, is_node x → x ≠ [] → x ∈ emitted ∨ ∃ w us, w ∈ work ∧ us ≠ [] ∧ x = w ++ us;
  wk_fresh : ∀ x w us, x ∈ emitted → w ∈ work → us ≠ [] → x ≠ w ++ us;
  wk_order : ∀ done x rest name, emitted = done ++ (x ++ [name]) :: rest → x = [] ∨ x ∈ done;
}.

Lemma node_prefix x us : us ≠ [] → is_node (x ++ us) → is_dir x.
Proof.
  destruct us as [|name us _] using rev_ind; [done|]. intros _. revert name.
  induction us as [|u us IH] using rev_ind; intros name Hn; [by apply (node_parent x name)|].
  rewrite app_assoc in Hn. apply node_parent in Hn. apply (IH u). apply dir_node; [done|]. by destruct x, us.
Qed.

Lemma walk_start : is_dir [] → walking [] [[]].
Proof.
  intros Hd. constructor.
  - constructor.
  - apply NoDup_singleton.
  - intros w ->%list_elem_of_singleton. split; [done|by left].
  - intros x []%elem_of_nil.
  - intros x _ Hx. right. exists [], x. split_and!; [by left|done|done].
  - intros x w us []%elem_of_nil.
  - intros done x rest name Heq. by destruct done.
Qed.

(** One directory is listed. *)
Lemma walk_step emitted w work kids :
  walking emitted (w :: work) → lists w kids → walking (emitted ++ kids) (filter is_dir kids ++ work).
Proof.
  intros [H1 H2 H3 H4 H5 H6 H7] [Hk1 Hk2].
  assert (Hkid : ∀ x, x ∈ kids → is_node x ∧ ∃ name, x = w ++ [name]) by (intros x; apply Hk2).
  assert (Hnew : ∀ x, x ∈ kids → x ∉ emitted).
  { intros x Hx He. destruct (Hkid x Hx) as (_ & name & ->). eapply (H6 _ w [name]); [done|by left|done|done]. }
  assert (Hother : ∀ x v, x ∈ kids → v ∈ work → ∀ us, x ≠ v ++ us).
  { intros x v Hx Hv us Heq. destruct (Hkid x Hx) as (Hnode & name & ->). apply NoDup_cons in H2 as [Hwv _].
    destruct us as [|u us _] using rev_ind.
    - rewrite app_nil_r in Heq. destruct (H3 v) as [_ [->|Hve]]; [by right|by destruct w|].
      rewrite <- Heq in Hve. by eapply (H6 _ w [name]); [|by left| |].
    - rewrite app_assoc in Heq. apply app_inj_tail in Heq as [Heq _].
      destruct us as [|u' us _] using rev_ind; [rewrite app_nil_r in Heq; subst w; done|].
      destruct (H3 w) as [_ [->|Hwe]]; [by left| |].
      + symmetry in Heq. apply app_nil in Heq as [_ Heq]. by destruct us.
      + eapply (H6 w v (us ++ [u'])); [done|by right| |done]. by destruct us. }
  constructor.
  - apply NoDup_app. split_and!; [done| |done]. intros x He Hx. by apply (Hnew x).
  - apply NoDup_app. apply NoDup_cons in H2 as [_ H2]. split_and!; [by apply NoDup_filter| |done].
    intros x [_ Hx]%list_elem_of_filter Hv. apply (Hother x x Hx Hv []). by rewrite app_nil_r.
  - intros v [[Hd Hx]%list_elem_of_filter|Hv]%elem_of_app.
    + split; [done|]. right. apply elem_of_app. by right.
    + destruct (H3 v) as [Hd [?|He]]; [by right|by split; [|left]|]. split; [done|]. right. apply elem_of_app. by left.
  - intros x [He|Hx]%elem_of_app; [by apply H4|]. destruct (Hkid x Hx) as (Hn & name & ->). split; [done|by destruct w].
  - intros x Hn Hne. destruct (H5 x Hn Hne) as [He|(v & us & Hv & Hus & ->)]; [left; apply elem_of_app; by left|].
    apply elem_of_cons in Hv as [->|Hv]; [|right; exists v, us; split; [apply elem_of_app; by right|done]].
    destruct us as [|u us]; [done|]. assert (Hu : is_node (w ++ [u])).
    { destruct us as [|u' us]; [done|]. apply dir_node; [|by destruct w]. apply (node_prefix _ (u' :: us)); [done|].
      by rewrite <- app_assoc. }
    assert (Hx : w ++ [u] ∈ kids) by (apply Hk2; eauto). destruct us as [|u' us]; [left; apply elem_of_app; by right|].
    right. exists (w ++ [u]), (u' :: us). rewrite <- app_assoc. split_and!; [|done|done].
    apply elem_of_app. left. apply list_elem_of_filter. split; [|done]. apply (node_prefix _ (u' :: us)); [done|].
    by rewrite <- app_assoc.
  - intros x v us [He|Hx]%elem_of_app [[Hd Hv]%list_elem_of_filter|Hv]%elem_of_app Hus Heq.
    + destruct (Hkid v Hv) as (_ & name & ->). eapply (H6 x w (name :: us)); [done|by left|done|]. by rewrite Heq, <- app_assoc.
    + eapply (H6 x v us); [done|by right|done|done].
    + destruct (Hkid v Hv) as (_ & name & ->), (Hkid x Hx) as (_ & name' & ->). rewrite <- app_assoc in Heq.
      apply (inj (w ++.)) in Heq. by destruct us.
    + by eapply Hother.
  - intros done x rest name Heq. apply app_eq_inv in Heq as [(k & He & Hr)|(k & -> & Hk)].
    + destruct k as [|y k]; [|injection Hr as <- ->; by eapply H7].
      cbn in Hr. rewrite app_nil_r in He. subst done. assert (Hx : x ++ [name] ∈ kids) by (rewrite <- Hr; by left).
      destruct (Hkid _ Hx) as (_ & name' & Heq). apply app_inj_tail in Heq as [-> _].
      apply (H3 w). by left.
    + assert (Hx : x ++ [name] ∈ kids) by (rewrite Hk; apply elem_of_app; right; by left).
      destruct (Hkid _ Hx) as (_ & name' & Heq). apply app_inj_tail in Heq as [-> _].
      destruct (H3 w) as [_ [?|?]]; [by left|by left|]. right. apply elem_of_app. by left.
Qed.

(** The end: every node, once. *)
Lemma walk_end emitted : walking emitted [] → NoDup emitted ∧ ∀ x, x ∈ emitted ↔ is_node x ∧ x ≠ [].
Proof.
  intros [H1 _ _ H4 H5 _ _]. split; [done|]. intros x. split; [by apply H4|]. intros [Hn Hne].
  destruct (H5 x Hn Hne) as [?|(w & us & Hw & _)]; [done|by apply elem_of_nil in Hw].
Qed.

(** The worklist may be kept in any order. *)
Lemma walk_perm emitted work work' : work ≡ₚ work' → walking emitted work → walking emitted work'.
Proof.
  intros Hp [H1 H2 H3 H4 H5 H6 H7]. constructor; [done|by rewrite <- Hp| |done| | |done].
  - intros w Hw. apply H3. by rewrite Hp.
  - intros x Hn Hne. destruct (H5 x Hn Hne) as [?|(w & us & Hw & ?)]; [by left|right]. exists w, us. by rewrite <- Hp.
  - intros x w us He Hw. apply H6; [done|]. by rewrite Hp.
Qed.

(** *** How long it takes *)
Section measure.
Context (nodes : list (list str)) (all_nodes : ∀ x, is_node x → x ≠ [] → x ∈ nodes).

Definition to_list (emitted work : list (list str)) : nat :=
  length (filter (λ x, is_dir x ∧ x ∉ emitted) nodes) + length work.

Lemma filter_split {A} `{EqDecision A} (P Q : A → Prop) `{∀ x, Decision (P x), ∀ x, Decision (Q x)} (l k : list A) :
  NoDup k → (∀ x, x ∈ k → x ∈ l ∧ P x ∧ ¬ Q x) → (∀ x, Q x → P x) →
  (length k + length (filter Q l) ≤ length (filter P l))%nat.
Proof.
  intros Hk Hin HQP. revert k Hk Hin. induction l as [|x l IH]; intros k Hk Hin.
  - destruct k as [|y k]; [done|]. destruct (Hin y) as [[]%elem_of_nil _]. by left.
  - destruct (decide (x ∈ k)) as [Hx|Hx].
    + destruct (Hin x Hx) as (_ & HP & HQ). rewrite filter_cons_False, filter_cons_True by done.
      apply list_elem_of_split in Hx as (k1 & k2 & ->).
      assert (Hnd : NoDup (k1 ++ k2) ∧ x ∉ k1 ++ k2).
      { rewrite <- Permutation_middle in Hk. apply NoDup_cons in Hk. naive_solver. }
      specialize (IH (k1 ++ k2) (proj1 Hnd)). rewrite !length_app in *. cbn.
      assert (length k1 + length k2 + length (filter Q l) ≤ length (filter P l))%nat; [|lia]. apply IH. intros y Hy. destruct (Hin y) as (Hyl & Hyp); [rewrite elem_of_app, elem_of_cons in *; naive_solver|].
      split; [|done]. apply elem_of_cons in Hyl as [->|]; [naive_solver|done].
    + assert (Hl : ∀ y, y ∈ k → y ∈ l ∧ P y ∧ ¬ Q y).
      { intros y Hy. destruct (Hin y Hy) as (Hyl & Hyp). split; [|done]. apply elem_of_cons in Hyl as [->|]; done. }
      specialize (IH k Hk Hl). destruct (decide (Q x)) as [HQ|HQ].
      * rewrite !filter_cons_True by auto. cbn. lia.
      * rewrite (filter_cons_False Q) by done. destruct (decide (P x)); [rewrite filter_cons_True by done; cbn; lia|].
        by rewrite filter_cons_False.
Qed.

Lemma walk_measure emitted w work kids :
  walking emitted (w :: work) → lists w kids →
  (to_list (emitted ++ kids) (filter is_dir kids ++ work) < to_list emitted (w :: work))%nat.
Proof.
  intros Hw Hk. pose proof Hk as [Hk1 Hk2]. unfold to_list. rewrite length_app. cbn.
  pose proof (filter_split (λ x, is_dir x ∧ x ∉ emitted) (λ x, is_dir x ∧ x ∉ emitted ++ kids) nodes (filter is_dir kids)) as Hf.
  assert (length (filter is_dir kids) + length (filter (λ x, is_dir x ∧ x ∉ emitted ++ kids) nodes) ≤
    length (filter (λ x, is_dir x ∧ x ∉ emitted) nodes))%nat; [|lia].
  apply Hf.
  - by apply NoDup_filter.
  - intros x [Hd Hx]%list_elem_of_filter. destruct (proj1 (Hk2 x) Hx) as (Hn & name & ->). split_and!; [|done| |].
    + apply all_nodes; [done|by destruct w].
    + intros He. eapply (wk_fresh _ _ Hw _ w [name]); [done|by left|done|done].
    + intros [_ Hnot]. apply Hnot, elem_of_app. by right.
  - intros x [Hd Hnot]. split; [done|]. intros He. apply Hnot, elem_of_app. by left.
Qed.
End measure.
End walk.
