(* ===== verification/RemoteServer.v ===== *)
(** * The session with the file server, and its effects

    What the file operations of [crates/kaduox-ssh-transfer] call: an SFTP session,
    an instance of [RemoteServer].  Nothing is assumed of it (a server may answer
    anything, and other clients may change its files between two requests: every
    request may change the state); [RemoteLaws] is what the protocol promises of a
    well-behaved one that nobody else changes.

    Operations are computations in [io], state passing with errors, and properties
    are stated with pre- and postconditions. *)

From stdpp Require Import base list gmap strings numbers sorting.
From Stdlib Require Import Lia.
From S2P Require Import Prelude RustStr StrFacts RemotePath Sftp.

(** ** The monad *)
Definition io (S A : Type) : Type := S → result A * S.

Definition io_ret {S A} (a : A) : io S A := λ s, (Ok a, s).
Definition io_err {S A} (e : string) : io S A := λ s, (Err e, s).
Definition io_bind {S A B} (c : io S A) (k : A → io S B) : io S B := λ s,
  match c s with (Ok a, s') => k a s' | (Err e, s') => (Err e, s') end.
(** A pure computation that may fail. *)
Definition io_lift {S A} (r : result A) : io S A := λ s, (r, s).
(** [.with_context(…)] on the error. *)
Definition io_context {S A} (e : string) (c : io S A) : io S A := λ s,
  match c s with (Err _, s') => (Err e, s') | p => p end.
(** Running a computation to its result, error included. *)
Definition io_try {S A} (c : io S A) : io S (result A) := λ s, let '(r, s') := c s in (Ok r, s').

Declare Scope io_scope.
Delimit Scope io_scope with io.
Notation "x ⇐ c ; k" := (io_bind c (λ x, k)) (at level 20, c at level 100, k at level 200, right associativity) : io_scope.
Notation "c ;; k" := (io_bind c (λ _, k)) (at level 100, k at level 200, right associativity) : io_scope.

Fixpoint io_for_each {S A} (f : A → io S unit) (l : list A) : io S unit :=
  match l with [] => io_ret tt | x :: l => io_bind (f x) (λ _, io_for_each f l) end.

(** *** Specifications *)
Definition triple {S A} (P : S → Prop) (c : io S A) (Q : result A → S → Prop) : Prop :=
  ∀ s, P s → Q (c s).1 (c s).2.

Lemma triple_ret {S A} (P : S → Prop) (a : A) (Q : result A → S → Prop) :
  (∀ s, P s → Q (Ok a) s) → triple P (io_ret a) Q.
Proof. intros H s Hs. by apply H. Qed.

Lemma triple_err {S A} (P : S → Prop) e (Q : result A → S → Prop) :
  (∀ s, P s → Q (Err e) s) → triple P (io_err e) Q.
Proof. intros H s Hs. by apply H. Qed.

Lemma triple_lift {S A} (P : S → Prop) r (Q : result A → S → Prop) :
  (∀ s, P s → Q r s) → triple P (io_lift r) Q.
Proof. intros H s Hs. by apply H. Qed.

Lemma triple_bind {S A B} (P : S → Prop) (c : io S A) (k : A → io S B) (R : A → S → Prop) (Q : result B → S → Prop) :
  triple P c (λ r s, match r with Ok a => R a s | Err e => Q (Err e) s end) →
  (∀ a, triple (R a) (k a) Q) → triple P (io_bind c k) Q.
Proof.
  intros Hc Hk s Hs. specialize (Hc s Hs). unfold io_bind. destruct (c s) as [[a|e] s']; cbn in *; [by apply Hk|done].
Qed.

Lemma triple_context {S A} (P : S → Prop) e (c : io S A) (Q : result A → S → Prop) :
  triple P c (λ r s, match r with Ok a => Q (Ok a) s | Err _ => Q (Err e) s end) → triple P (io_context e c) Q.
Proof. intros Hc s Hs. specialize (Hc s Hs). unfold io_context. by destruct (c s) as [[a|e'] s']. Qed.

Lemma triple_try {S A} (P : S → Prop) (c : io S A) (Q : result (result A) → S → Prop) :
  triple P c (λ r s, Q (Ok r) s) → triple P (io_try c) Q.
Proof. intros Hc s Hs. specialize (Hc s Hs). unfold io_try. by destruct (c s). Qed.

Lemma triple_weaken {S A} (P P' : S → Prop) (c : io S A) (Q Q' : result A → S → Prop) :
  triple P' c Q' → (∀ s, P s → P' s) → (∀ r s, Q' r s → Q r s) → triple P c Q.
Proof. intros Hc HP HQ s Hs. by apply HQ, Hc, HP. Qed.

Lemma triple_for_each {S A} (I : S → Prop) (E : string → S → Prop) (f : A → io S unit) l :
  (∀ x, x ∈ l → triple I (f x) (λ r s, match r with Ok _ => I s | Err e => E e s end)) →
  triple I (io_for_each f l) (λ r s, match r with Ok _ => I s | Err e => E e s end).
Proof.
  induction l as [|x l IH]; intros Hf; cbn [io_for_each]; [by apply triple_ret|].
  apply triple_bind with (R := λ _, I); [apply Hf; by left|]. intros _. apply IH. intros y Hy. apply Hf. by right.
Qed.

(** ** The server *)

(** [russh_sftp::protocol::FileAttributes], and the types its [permissions] name. *)
Record FileAttributes := mk_file_attributes {
  fa_size : option Z; fa_uid : option Z; fa_user : option str; fa_gid : option Z; fa_group : option str;
  fa_permissions : option Z; fa_atime : option Z; fa_mtime : option Z }.
Inductive FileType := FtDir | FtFile | FtSymlink | FtOther.
#[export] Instance file_type_eq_dec : EqDecision FileType.
Proof. solve_decision. Defined.
#[export] Instance file_attributes_eq_dec : EqDecision FileAttributes.
Proof. solve_decision. Defined.

(** The open flags the code uses. *)
Record OpenFlags := mk_open_flags { of_create : bool; of_exclude : bool; of_truncate : bool; of_write : bool }.
#[export] Instance open_flags_eq_dec : EqDecision OpenFlags.
Proof. solve_decision. Defined.

Class RemoteServer (S : Type) := {
  (* [FileType::from] of the mode bits *)
  rs_file_type : Z → FileType;
  rs_handle : Type;
  rs_open_session : io S unit;
  rs_close_session : io S unit;
  rs_lstat : str → S → sftp_result FileAttributes * S;
  rs_read_dir : str → io S (list (str * FileAttributes));
  rs_read_link : str → io S str;
  rs_create_dir : str → io S unit;
  rs_remove_file : str → io S unit;
  rs_remove_dir : str → io S unit;
  rs_rename : str → str → io S unit;
  rs_open : str → OpenFlags → io S rs_handle;
  (* at an offset, at most so many bytes; no byte at the end *)
  rs_read : rs_handle → Z → Z → io S (list Z);
  rs_write : rs_handle → Z → list Z → io S unit;
  rs_close : rs_handle → io S unit;
  (* [flush] and [shutdown] *)
  rs_finish : rs_handle → io S unit;
  rs_try_exists : str → io S bool;
  rs_set_metadata : str → option Z → option Z → io S unit;
}.

(** [FileAttributes::file_type], [DirEntry::file_type]. *)
Definition attr_type {S : Type} `{RemoteServer S} (a : FileAttributes) : FileType := rs_file_type (default 0 (fa_permissions a)).

(** [sftp.symlink_metadata(…).await?] *)
Definition lstat {S : Type} `{RemoteServer S} (path : str) : io S FileAttributes := λ s,
  match rs_lstat path s with
  | (SOk a, s') => (Ok a, s')
  | (NoSuchFile, s') => (Err "no such file", s')
  | (SErr e, s') => (Err e, s')
  end.

(** An SFTP session around some work: [client.open_sftp_for_transfer] and [sftp.close];
    the error of the work is reported before that of closing. *)
Definition with_sftp {S : Type} `{RemoteServer S} {A} (close_error : string) (body : io S A) : io S A :=
  (rs_open_session ;; result ⇐ io_try body; closed ⇐ io_try rs_close_session;
   value ⇐ io_lift result; io_context close_error (io_lift closed) ;; io_ret value)%io.

(** *** Recording the changes a session asks for *)
Inductive mutation :=
| MCreateDir (path : str) | MRemoveFile (path : str) | MRemoveDir (path : str) | MRename (from to : str) | MOpenWrite (path : str) (flags : OpenFlags)
| MSetMetadata (path : str)
(* on this side *)
| LCreateDir (path : str) | LOpenWrite (path : str) (create_new : bool) | LRename (from to : str) | LHardLink (from to : str)
| LRemoveFile (path : str) | LSetMtime (path : str).
#[export] Instance mutation_eq_dec : EqDecision mutation.
Proof. solve_decision. Defined.

Definition logged {S A} (m : mutation) (c : io S A) : io (S * list mutation) A := λ s,
  let '(r, s') := c s.1 in (r, (s', s.2 ++ [m])).
Definition quiet {S A} (c : io S A) : io (S * list mutation) A := λ s, let '(r, s') := c s.1 in (r, (s', s.2)).

#[export] Instance logging_server {S} (server : RemoteServer S) : RemoteServer (S * list mutation) := {|
  rs_file_type := @rs_file_type S server;
  rs_handle := @rs_handle S server;
  rs_open_session := quiet rs_open_session;
  rs_close_session := quiet rs_close_session;
  rs_lstat := λ path s, let '(r, s') := rs_lstat path s.1 in (r, (s', s.2));
  rs_read_dir := λ path, quiet (rs_read_dir path);
  rs_read_link := λ path, quiet (rs_read_link path);
  rs_create_dir := λ path, logged (MCreateDir path) (rs_create_dir path);
  rs_remove_file := λ path, logged (MRemoveFile path) (rs_remove_file path);
  rs_remove_dir := λ path, logged (MRemoveDir path) (rs_remove_dir path);
  rs_rename := λ from to, logged (MRename from to) (rs_rename from to);
  rs_open := λ path flags, if of_write flags then logged (MOpenWrite path flags) (rs_open path flags) else quiet (rs_open path flags);
  rs_read := λ h offset max, quiet (rs_read h offset max);
  rs_write := λ h offset bytes, quiet (rs_write h offset bytes);
  rs_close := λ h, quiet (rs_close h);
  rs_finish := λ h, quiet (rs_finish h);
  rs_try_exists := λ path, quiet (rs_try_exists path);
  rs_set_metadata := λ path mtime permissions, logged (MSetMetadata path) (rs_set_metadata path mtime permissions);
|}.

(** [log] is a property of the recorded changes that a quiet request keeps. *)
Lemma triple_quiet {S A} (P : list mutation → Prop) (c : io S A) :
  triple (λ s : S * list mutation, P s.2) (quiet c) (λ _ s, P s.2).
Proof. intros s Hs. unfold quiet. by destruct (c s.1). Qed.

Lemma triple_logged {S A} (P Q : list mutation → Prop) m (c : io S A) :
  (∀ l, P l → Q (l ++ [m])) → triple (λ s : S * list mutation, P s.2) (logged m c) (λ _ s, Q s.2).
Proof. intros H s Hs. unfold logged. destruct (c s.1). by apply H. Qed.

Lemma triple_lstat_quiet {S} `{server : RemoteServer S} (P : list mutation → Prop) path :
  triple (λ s : S * list mutation, P s.2) (@lstat _ (logging_server server) path) (λ _ s, P s.2).
Proof. intros s Hs. unfold lstat. cbn. by destruct (rs_lstat path s.1) as [[] ?]. Qed.

(** ** A well-behaved server *)
Definition entry_name (name : str) : Prop :=
  name ≠ [] ∧ name ≠ dot ∧ name ≠ dotdot ∧ slash ∉ name ∧ 0 ∉ name.

(** The places on the way down to [l] are directories. *)
Definition parent_dirs (ty : loc → option FileType) (l : loc) : Prop :=
  ∀ ws us, l.2 = ws ++ us → us ≠ [] → ty (l.1, ws) = Some FtDir.

Definition place (f : loc → option FileAttributes) (l : loc) (v : option FileAttributes) : loc → option FileAttributes :=
  λ l', if decide (l' = l) then v else f l'.

Class RemoteLaws (S : Type) `{RemoteServer S} := {
  rl_attrs : S → loc → option FileAttributes;
  rl_type s l := attr_type <$> rl_attrs s l;
  rl_root s b : rl_type s (b, []) = Some FtDir;
  rl_tree s l : is_Some (rl_attrs s l) → parent_dirs (rl_type s) l;
  rl_names s b ws : is_Some (rl_attrs s (b, ws)) → Forall entry_name ws;
  rl_permissions s l a : rl_attrs s l = Some a → is_Some (fa_permissions a);
  rl_open s : rs_open_session s = (Ok tt, s);
  rl_close s : rs_close_session s = (Ok tt, s);
  rl_lstat s path : plain path → parent_dirs (rl_type s) (loc_of path) →
    rs_lstat path s = (match rl_attrs s (loc_of path) with Some a => SOk a | None => NoSuchFile end, s);
  rl_read_dir s path : plain path → rl_type s (loc_of path) = Some FtDir →
    ∃ entries, rs_read_dir path s = (Ok entries, s) ∧ NoDup entries.*1 ∧
      ∀ name a, name ≠ dot → name ≠ dotdot →
        ((name, a) ∈ entries ↔ rl_attrs s ((loc_of path).1, (loc_of path).2 ++ [name]) = Some a);
  rl_read_link s path : plain path → rl_type s (loc_of path) = Some FtSymlink → ∃ target, rs_read_link path s = (Ok target, s);
  rl_remove_file s path t : plain path → rl_type s (loc_of path) = Some t → t ≠ FtDir →
    ∃ s', rs_remove_file path s = (Ok tt, s') ∧ ∀ l, rl_attrs s' l = place (rl_attrs s) (loc_of path) None l;
  rl_remove_dir s path : plain path → rl_type s (loc_of path) = Some FtDir → (loc_of path).2 ≠ [] →
    (∀ us, us ≠ [] → rl_attrs s ((loc_of path).1, (loc_of path).2 ++ us) = None) →
    ∃ s', rs_remove_dir path s = (Ok tt, s') ∧ ∀ l, rl_attrs s' l = place (rl_attrs s) (loc_of path) None l;
}.

Section laws.
Context {S : Type} `{RemoteLaws S}.

Lemma node_parent s b ws name : is_Some (rl_attrs s (b, ws ++ [name])) → rl_type s (b, ws) = Some FtDir.
Proof. intros Hn. by apply (rl_tree s _ Hn ws [name]). Qed.

Lemma dir_exists s l : rl_type s l = Some FtDir → is_Some (rl_attrs s l).
Proof. unfold rl_type. destruct (rl_attrs s l); [by eexists|done]. Qed.

Lemma lstat_exists s path a :
  plain path → rl_attrs s (loc_of path) = Some a → lstat path s = (Ok a, s).
Proof.
  intros Hp Ha. unfold lstat. rewrite rl_lstat, Ha by (done || apply rl_tree; by eexists). done.
Qed.
End laws.
