(* ===== verification/RemoteModel.v ===== *)
(** * A concrete well-behaved file server

    The tree of [Sftp.Model] behind the session interface of [RemoteServer], to
    evaluate examples and to show that the laws can hold. *)

From stdpp Require Import base list gmap strings numbers sorting.
From Stdlib Require Import Lia.
From S2P Require Import Prelude RustStr StrFacts RemotePath Sftp RemoteServer.
Import Sftp.Model.

#[export] Instance entry_name_dec name : Decision (entry_name name).
Proof. unfold entry_name. apply _. Defined.

(** The mode bits of a kind, and back. *)
Definition mode_of (k : FileKind) : Z :=
  match k with KDirectory => 16877 | KSymlink => 41471 | KRegular => 33188 | KSpecial => 4516 end.
Definition model_file_type (mode : Z) : FileType :=
  let format := Z.land mode 61440 in
  if format =? 16384 then FtDir else if format =? 32768 then FtFile else if format =? 40960 then FtSymlink else FtOther.
Definition file_attributes (a : Attrs) : FileAttributes :=
  mk_file_attributes (Some (at_len a)) (Some 0) None (Some 0) None (Some (mode_of (at_kind a))) None (at_mtime a).

(** Entries under names that no directory can hold do not count. *)
Definition clean (t : tree) : tree := filter (λ '(l, _), Forall entry_name l.2) t.
Definition lookup_entry (t : tree) (l : loc) : option Attrs := lookup_node (clean t) l.

Definition dir_entries (t : tree) (l : loc) : list (str * FileAttributes) :=
  omap (λ e : loc * Attrs,
    match rev e.1.2 with
    | name :: _ =>
        if bool_decide (e.1 = (l.1, l.2 ++ [name])) && bool_decide (is_Some (lookup_entry t e.1))
        then Some (name, file_attributes e.2) else None
    | [] => None
    end) (map_to_list (clean t)).

#[export] Instance remote_model : RemoteServer tree := {|
  rs_file_type := model_file_type;
  rs_handle := str;
  rs_open_session := λ t, (Ok tt, t);
  rs_close_session := λ t, (Ok tt, t);
  rs_lstat := λ path t, (match lookup_entry t (loc_of path) with Some a => SOk (file_attributes a) | None => NoSuchFile end, t);
  rs_read_dir := λ path t,
    match lookup_entry t (loc_of path) with
    | Some a =>
        if bool_decide (at_kind a = KDirectory)
        then (Ok ((dot, file_attributes directory_attrs) :: (dotdot, file_attributes directory_attrs) :: dir_entries t (loc_of path)), t)
        else (Err "not a directory", t)
    | None => (Err "no such file", t)
    end;
  rs_read_link := λ path t, (Ok dot, t);
  rs_create_dir := λ path t, model_create_dir path (clean t);
  rs_remove_file := λ path t, model_remove_file path (clean t);
  rs_remove_dir := λ path t, model_remove_dir path (clean t);
  rs_rename := λ from to t, (Err "unsupported", t);
  rs_open := λ path flags t, (Ok path, t);
  rs_read := λ h offset max t, (Ok [], t);
  rs_write := λ h offset bytes t, (Ok tt, t);
  rs_close := λ h t, (Ok tt, t);
  rs_finish := λ h t, (Ok tt, t);
  rs_try_exists := λ path t, (Ok (bool_decide (is_Some (lookup_entry t (loc_of path)))), t);
  rs_set_metadata := λ path mtime permissions t, (Ok tt, t);
|}.

Lemma file_type_kind k : model_file_type (mode_of k) = match k with KDirectory => FtDir | KSymlink => FtSymlink | KRegular => FtFile | KSpecial => FtOther end.
Proof. by destruct k. Qed.

Lemma entry_type t l : attr_type <$> (file_attributes <$> lookup_entry t l) = Some FtDir ↔ is_directory (lookup_entry t) l.
Proof.
  unfold is_directory. destruct (lookup_entry t l) as [a|]; cbn.
  - unfold attr_type. cbn. rewrite file_type_kind. split.
    + intros Ht. exists a. split; [done|]. by destruct (at_kind a).
    + by intros (a' & [= <-] & ->).
  - split; [done|by intros (a' & ? & _)].
Qed.

Lemma lookup_node_raw t l a : l.2 ≠ [] → lookup_node t l = Some a → t !! l = Some a.
Proof. intros Hne. destruct l as [b ws]. rewrite lookup_node_below by done. by case_match. Qed.

Lemma entry_names t l : is_Some (lookup_entry t l) → Forall entry_name l.2.
Proof.
  intros [a Ha]. destruct l as [b ws]. destruct (decide (ws = [])) as [->|Hne]; [constructor|].
  apply lookup_node_raw in Ha; [|done]. by apply map_lookup_filter_Some in Ha as [_ Hn].
Qed.

Lemma elem_of_dir_entries t l name b :
  (name, b) ∈ dir_entries t l ↔ ∃ a, lookup_entry t (l.1, l.2 ++ [name]) = Some a ∧ b = file_attributes a.
Proof.
  assert (Hsnoc : ∀ n, l.2 ++ [n] ≠ []) by by destruct (l.2). unfold dir_entries. rewrite list_elem_of_omap. split.
  - intros ([l' a] & Hin%elem_of_map_to_list & Hm). cbn in Hm. destruct (rev l'.2) as [|n ns]; [done|].
    destruct (bool_decide (l' = (l.1, l.2 ++ [n])) && _) eqn:Hb; [|done]. injection Hm as -> <-.
    apply andb_true_iff in Hb as [->%bool_decide_eq_true [a' Ha]%bool_decide_eq_true]. exists a. split; [|done].
    pose proof Ha as Hraw. apply lookup_node_raw in Hraw; [|apply Hsnoc]. congruence.
  - intros (a & Ha & ->). pose proof Ha as Hraw. apply lookup_node_raw in Hraw; [|apply Hsnoc].
    exists ((l.1, l.2 ++ [name]), a). split; [by apply elem_of_map_to_list|]. cbn. rewrite rev_app_distr. cbn.
    rewrite bool_decide_eq_true_2 by done. by rewrite bool_decide_eq_true_2 by by eexists.
Qed.

Lemma NoDup_dir_entries t l : NoDup (dir_entries t l).*1.
Proof.
  unfold dir_entries. pose proof (NoDup_fst_map_to_list (clean t)) as Hnd.
  induction (map_to_list (clean t)) as [|[l' a] es IH]; cbn; [constructor|]. cbn in Hnd. apply NoDup_cons in Hnd as [Hl' Hnd].
  specialize (IH Hnd). destruct (rev l'.2) as [|n ns] eqn:Hrev; [done|].
  destruct (bool_decide (l' = (l.1, l.2 ++ [n])) && _) eqn:Hb; [|done]. cbn. apply NoDup_cons. split; [|done].
  apply andb_true_iff in Hb as [->%bool_decide_eq_true _]. intros ([n' b] & -> & Hin)%list_elem_of_fmap.
  apply list_elem_of_omap in Hin as ([l'' a''] & Hin & Hm). cbn in Hm. destruct (rev l''.2) as [|n'' ns'']; [done|].
  destruct (bool_decide (l'' = (l.1, l.2 ++ [n''])) && _) eqn:Hb; [|done]. injection Hm as -> <-.
  apply andb_true_iff in Hb as [->%bool_decide_eq_true _]. apply Hl', list_elem_of_fmap. cbn. by eexists (_, _).
Qed.

Lemma clean_place t l : Forall entry_name l.2 → clean (Sftp.Model.place (clean t) l None) = Sftp.Model.place (clean t) l None.
Proof.
  intros Hn. apply map_eq. intros l'. unfold clean at 1. apply option_eq. intros a. rewrite map_lookup_filter_Some.
  split; [by intros []|]. intros Ha. split; [done|]. rewrite lookup_place in Ha. repeat case_match; try done.
  by apply map_lookup_filter_Some in Ha as [_ ?].
Qed.

Lemma place_entry t l l' :
  l.2 ≠ [] → is_Some (lookup_entry t l) → nothing_below (lookup_entry t) l →
  (file_attributes <$> lookup_entry (Sftp.Model.place (clean t) l None) l') =
    RemoteServer.place (λ l', file_attributes <$> lookup_entry t l') l None l'.
Proof.
  intros Hne [a Ha] Hb. unfold RemoteServer.place, lookup_entry. rewrite clean_place by (apply (entry_names t); by eexists).
  rewrite place_upd; [|done|by eapply model_tree|done]. unfold upd. by case_decide.
Qed.

#[export] Instance remote_model_laws : RemoteLaws tree.
Proof.
  refine {| rl_attrs := λ t l, file_attributes <$> lookup_entry t l |}.
  - intros t b. apply entry_type. by exists directory_attrs.
  - intros t l [? Hl] ws us Heq Hus. apply entry_type. destruct (lookup_entry t l) as [a|] eqn:Ha; [|done].
    by apply (model_tree (clean t) l a Ha ws us).
  - intros t b ws [? Hl]. destruct (lookup_entry t (b, ws)) as [a|] eqn:Ha; [|done]. apply (entry_names t (b, ws)). by eexists.
  - intros t l a Ha. destruct (lookup_entry t l); [|done]. injection Ha as <-. by eexists.
  - done.
  - done.
  - intros t path _ _. cbn. by destruct (lookup_entry t (loc_of path)).
  - intros t path _ (a & Ha & Hk)%entry_type. cbn. rewrite Ha, bool_decide_eq_true_2 by done. eexists. split; [done|]. split.
    + assert (Hno : ∀ name, name ∈ (dir_entries t (loc_of path)).*1 → entry_name name).
      { intros name ([n b] & -> & Hin)%list_elem_of_fmap. apply elem_of_dir_entries in Hin as (a' & Ha' & _).
        assert (Hn : Forall entry_name ((loc_of path).2 ++ [n])) by (apply (entry_names t ((loc_of path).1, (loc_of path).2 ++ [n])); by eexists).
        apply Forall_app in Hn as [_ Hn]. by apply Forall_cons in Hn as [Hn _]. }
      cbn. apply NoDup_cons. split; [|apply NoDup_cons; split; [|apply NoDup_dir_entries]].
      * rewrite elem_of_cons. intros [?|Hin]; [done|]. by destruct (Hno _ Hin) as (_ & ? & _).
      * intros Hin. by destruct (Hno _ Hin) as (_ & _ & ? & _).
    + intros name b H1 H2. rewrite !elem_of_cons. split.
      * intros [[= -> _]|[[= -> _]|Hin]]; [done..|]. apply elem_of_dir_entries in Hin as (a' & Ha' & ->).
        apply (f_equal (fmap file_attributes)) in Ha'. exact Ha'.
      * intros Hl. right. right. apply elem_of_dir_entries. apply fmap_Some in Hl as (a' & Ha' & ->). by exists a'.
  - intros t path _ _. by eexists.
  - intros t path ty _ Hty Hne. destruct (lookup_entry t (loc_of path)) as [a|] eqn:Ha; [|done]. cbn in Hty.
    assert (Hk : at_kind a ≠ KDirectory).
    { intros Hk. injection Hty as <-. unfold attr_type in Hne. cbn in Hne. by rewrite Hk in Hne. }
    cbn. unfold model_remove_file. unfold lookup_entry in Ha. rewrite Ha, bool_decide_eq_false_2 by done.
    eexists. split; [done|]. intros l. apply place_entry; [|by eexists|].
    + intros Hnil. unfold lookup_node in Ha. rewrite Hnil in Ha. by injection Ha as <-.
    + apply model_below. intros (a' & Ha' & ?). congruence.
  - intros t path _ (a & Ha & Hk)%entry_type Hne Hbelow. cbn. unfold model_remove_dir, is_dir_node. unfold lookup_entry in Ha.
    rewrite Ha, bool_decide_eq_true_2 by done. rewrite (bool_decide_eq_false_2 (_ = [])) by done. cbn [negb andb].
    assert (Hb : nothing_below (lookup_node (clean t)) (loc_of path)).
    { intros us Hus. specialize (Hbelow us Hus). by apply fmap_None in Hbelow. }
    assert (forallb (λ '(l', _), negb (below (loc_of path) l' && bool_decide (is_Some (lookup_node (clean t) l')))) (map_to_list (clean t)) = true) as ->.
    { apply forallb_forall. intros [l' b] _. rewrite negb_true_iff, andb_false_iff, bool_decide_eq_false.
      destruct (below (loc_of path) l') eqn:Hbl; [|by left]. right. apply below_spec in Hbl as (us & Hus & ->).
      rewrite (Hb us Hus). by intros []. }
    eexists. split; [done|]. intros l. apply place_entry; [done|by eexists|done].
Defined.
