(* ===== verification/RemoteFs.v ===== *)
(** * Remote listings ([crates/kaduox-ssh-transfer/src/remote_fs.rs])

    Directory listings, [stat], the size of a tree by a breadth-first walk over
    concurrent listings, and the output of [du]. *)

From stdpp Require Import base list gmap strings numbers sorting.
From Stdlib Require Import Lia.
From S2P Require Import Prelude RustStr StrFacts RemotePath Sftp RemoteServer RemoteModel TreeWalk.

(** ** Definitions *)
Inductive RemoteFileType := RDirectory | RFile | RSymlink | ROther.
#[export] Instance remote_file_type_eq_dec : EqDecision RemoteFileType.
Proof. solve_decision. Defined.

Record RemoteFileMetadata := mk_remote_metadata {
  rm_file_type : RemoteFileType; rm_size : option Z; rm_uid : option Z; rm_user : option str; rm_gid : option Z;
  rm_group : option str; rm_permissions : option Z; rm_accessed_at : option Z; rm_modified_at : option Z }.
Record RemoteDirEntry := mk_dir_entry { re_name : str; re_path : str; re_metadata : RemoteFileMetadata }.
Record RemoteFileStat := mk_file_stat { rf_path : str; rf_metadata : RemoteFileMetadata; rf_symlink_target : option str }.

Definition map_file_type (t : FileType) : RemoteFileType :=
  match t with FtDir => RDirectory | FtFile => RFile | FtSymlink => RSymlink | FtOther => ROther end.

Definition map_metadata (a : FileAttributes) (t : RemoteFileType) : RemoteFileMetadata :=
  mk_remote_metadata t (if bool_decide (t = RDirectory) then None else fa_size a) (fa_uid a) (fa_user a) (fa_gid a)
    (fa_group a) (fa_permissions a) (fa_atime a) (fa_mtime a).

Definition validate_remote_entry_name (name : str) : result unit :=
  bail_if (bool_decide (name = []) || bool_decide (name = dot) || bool_decide (name = dotdot))
    "remote directory returned an invalid entry name" ≫= λ _,
  bail_if (contains_char name slash || contains_char name 0) "remote directory returned a path-bearing entry name".

Definition join_remote_child (parent name : str) : str :=
  if bool_decide (parent = [slash]) then slash :: name
  else if ends_with parent [slash] then parent ++ name
  else parent ++ slash :: name.

(** [a.saturating_add(b)] on [u64]. *)
Definition saturating_add (a b : Z) : Z := Z.min u64_max (a + b).

(** [slice.chunks(n)] *)
Fixpoint chunks_fuel {A} (fuel n : nat) (l : list A) : list (list A) :=
  match fuel, l with
  | S fuel, _ :: _ => take n l :: chunks_fuel fuel n (drop n l)
  | _, _ => []
  end.
Definition chunks {A} (n : nat) (l : list A) : list (list A) := chunks_fuel (length l) n l.

Definition DIRECTORY_WALK_CONCURRENCY : nat := 8.

(** [str.split_once(char::is_whitespace)] *)
Fixpoint split_once_whitespace (s : str) : option (str * str) :=
  match s with
  | [] => None
  | c :: s =>
      if is_whitespace c then Some ([], s)
      else match split_once_whitespace s with Some (a, b) => Some (c :: a, b) | None => None end
  end.

Definition parse_du_bytes (stdout : list Z) : option Z :=
  text ← from_utf8 stdout;
  line ← head (lines text);
  let line := trim line in
  let '(size, _) := default (line, []) (split_once_whitespace line) in
  parse_uint u64_max size.

Section server.
Context {S : Type} `{RemoteServer S}.

(** One entry of a listing: [.] and [..] are left out. *)
Definition listed (path : str) (entries : list RemoteDirEntry) (entry : str * FileAttributes) : result (list RemoteDirEntry) :=
  let '(name, attrs) := entry in
  if bool_decide (name = dot) || bool_decide (name = dotdot) then Ok entries
  else
    validate_remote_entry_name name ≫= λ _,
    Ok (entries ++ [mk_dir_entry name (join_remote_child path name) (map_metadata attrs (map_file_type (attr_type attrs)))]).

Definition name_le (x y : RemoteDirEntry) : Prop := str_le (re_name x) (re_name y).
#[global] Instance name_le_dec : RelDecision name_le.
Proof. intros x y. unfold name_le. apply _. Defined.

(** Entries of the same name, which a directory cannot have, may come in any order. *)
Definition list_directory (path : str) : io S (list RemoteDirEntry) :=
  (directory ⇐ io_context "failed to list remote directory" (rs_read_dir path);
   entries ⇐ io_lift (try_fold (listed path) [] directory);
   io_ret (merge_sort name_le entries))%io.

Definition stat_path (path : str) : io S RemoteFileStat :=
  (attrs ⇐ io_context "failed to stat remote path" (lstat path);
   let file_type := default ROther (map_file_type ∘ rs_file_type <$> fa_permissions attrs) in
   symlink_target ⇐
     (if bool_decide (file_type = RSymlink)
      then target ⇐ io_context "failed to read remote symlink" (rs_read_link path); io_ret (Some target)
      else io_ret None);
   io_ret (mk_file_stat path (map_metadata attrs file_type) symlink_target))%io.

(** [futures::future::join_all]: every listing runs, whatever the others return. *)
Fixpoint join_all {A} (cs : list (io S A)) : io S (list (result A)) :=
  match cs with
  | [] => io_ret []
  | c :: cs => (r ⇐ io_try c; rs ⇐ join_all cs; io_ret (r :: rs))%io
  end.

(** The sizes and the subdirectories of some listings. *)
Definition count_entry (acc : Z * list str) (entry : RemoteDirEntry) : Z * list str :=
  match rm_file_type (re_metadata entry) with
  | RDirectory => (acc.1, acc.2 ++ [re_path entry])
  | _ => (saturating_add acc.1 (default 0 (rm_size (re_metadata entry))), acc.2)
  end.

Definition count_listing (acc : Z * list str) (listing : result (list RemoteDirEntry)) : result (Z * list str) :=
  entries ← listing; Ok (foldl count_entry acc entries).

Fixpoint walk_chunks (cs : list (list str)) (acc : Z * list str) : io S (Z * list str) :=
  match cs with
  | [] => io_ret acc
  | chunk :: cs =>
      (listings ⇐ join_all (list_directory <$> chunk);
       acc ⇐ io_lift (try_fold count_listing acc listings);
       walk_chunks cs acc)%io
  end.

(** One iteration per level of the tree. *)
Fixpoint walk_levels (fuel : nat) (total : Z) (level : list str) : io S Z :=
  match level, fuel with
  | [], _ => io_ret total
  | _, O => io_err "out of fuel"
  | _, Datatypes.S fuel =>
      (acc ⇐ walk_chunks (chunks DIRECTORY_WALK_CONCURRENCY level) (total, []);
       walk_levels fuel acc.1 acc.2)%io
  end.

Definition directory_size (fuel : nat) (path : str) : io S Z := walk_levels fuel 0 [path].
End server.

(** ** Lemmas: names and paths *)
Lemma join_child_join path name : path ≠ [] → path ≠ dot → join_remote_child path name = join_remote path name.
Proof.
  intros H1 H2. unfold join_remote_child, join_remote. rewrite (bool_decide_eq_false_2 (path = [])) by done.
  by rewrite (bool_decide_eq_false_2 (path = dot)) by done.
Qed.

Lemma entry_name_ok name : entry_name name → name_ok name.
Proof. by intros (? & ? & ? & ? & ?). Qed.

Lemma loc_of_child path name :
  path ≠ [] → entry_name name → loc_of (join_remote_child path name) = ((loc_of path).1, (loc_of path).2 ++ [name]).
Proof.
  intros Hne Hn. destruct (decide (path = dot)) as [->|Hdot].
  - unfold join_remote_child. rewrite bool_decide_eq_false_2 by done. cbn [ends_with]. unfold loc_of. cbn [fst snd].
    assert (ends_with dot [slash] = false) as -> by by vm_compute. rewrite walk_app_sep, (walk_name name) by by apply entry_name_ok.
    done.
  - rewrite join_child_join by done. by rewrite loc_of_join by by apply entry_name_ok.
Qed.

Lemma plain_child path name : path ≠ [] → entry_name name → plain path → plain (join_remote_child path name).
Proof.
  intros Hne Hn Hp. apply plain_walk. apply plain_walk in Hp. change (dotdot ∉ (loc_of (join_remote_child path name)).2).
  rewrite loc_of_child by done. cbn. rewrite not_elem_of_app, list_elem_of_singleton. split; [done|].
  destruct Hn as (_ & _ & H & _). congruence.
Qed.

Lemma join_child_nonempty path name : name ≠ [] → join_remote_child path name ≠ [].
Proof.
  intros Hn. unfold join_remote_child. repeat case_match; try done; intros Heq; apply app_nil in Heq as [_ Heq]; done.
Qed.

Lemma contains_char_true s c : contains_char s c = true ↔ c ∈ s.
Proof.
  unfold contains_char. rewrite existsb_exists. setoid_rewrite <- list_elem_of_In. setoid_rewrite Z.eqb_eq. naive_solver.
Qed.

Lemma validate_entry_ok name : validate_remote_entry_name name = Ok tt ↔ entry_name name.
Proof.
  unfold validate_remote_entry_name, entry_name. rewrite then_ok, !bail_if_ok, !orb_false_iff, !bool_decide_eq_false.
  rewrite <- !not_true_iff_false, !contains_char_true. naive_solver.
Qed.

Lemma validate_entry_ok' name u : validate_remote_entry_name name = Ok u ↔ entry_name name.
Proof. destruct u. apply validate_entry_ok. Qed.

(** ** Listings of any server *)
Section any_server.
Context {S : Type} `{RemoteServer S}.

(** What a listing of [path] holds: entries with valid names, below [path]. *)
Definition entry_of (path name : str) (a : FileAttributes) : RemoteDirEntry :=
  mk_dir_entry name (join_remote_child path name) (map_metadata a (map_file_type (attr_type a))).

Lemma listed_ok path acc entries es :
  try_fold (listed path) acc entries = Ok es →
  ∃ l, es = acc ++ ((λ p, entry_of path p.1 p.2) <$> l) ∧ Forall (λ p, entry_name p.1) l ∧
    l = filter (λ p : str * FileAttributes, p.1 ≠ dot ∧ p.1 ≠ dotdot) entries.
Proof.
  revert acc. induction entries as [|[name a] entries IH]; intros acc; cbn [try_fold].
  { intros [= <-]. exists []. by rewrite app_nil_r. }
  intros (acc1 & Hl & Hrest)%bind_ok. unfold listed in Hl. destruct (bool_decide (name = dot) || _) eqn:Hdots.
  - injection Hl as <-. apply IH in Hrest as (l & -> & Hall & ->). eexists. split; [done|]. split; [done|].
    rewrite filter_cons_False; [done|]. cbn. apply orb_true_iff in Hdots. rewrite !bool_decide_eq_true in Hdots. naive_solver.
  - apply bind_ok in Hl as (u & Hv%validate_entry_ok' & [= <-]). apply IH in Hrest as (l & -> & Hall & Hl).
    exists ((name, a) :: l). rewrite <- app_assoc. split_and!; [done|by constructor|].
    rewrite filter_cons_True, Hl; [done|]. cbn. apply orb_false_iff in Hdots. rewrite !bool_decide_eq_false in Hdots. done.
Qed.

(** Whatever the server answers, the entries returned have valid names and lie
    directly below the listed directory, in the order of their names. *)
Lemma list_directory_safe path s es s' :
  list_directory path s = (Ok es, s') →
  Forall (λ e, entry_name (re_name e) ∧ re_path e = join_remote_child path (re_name e)) es ∧
  StronglySorted name_le es.
Proof.
  unfold list_directory, io_bind, io_context, io_lift. destruct (rs_read_dir path s) as [[entries|e] s1]; [|done].
  destruct (try_fold (listed path) [] entries) as [l|e] eqn:Hl; [|done]. intros [= <- <-].
  apply listed_ok in Hl as (k & -> & Hall & _). split.
  - rewrite merge_sort_Permutation. apply Forall_fmap. eapply Forall_impl; [exact Hall|]. by intros [name a].
  - assert (Htotal : Total (name_le)) by (intros x y; unfold name_le, str_le; rewrite !Is_true_true; apply str_leb_total).
    assert (Htrans : Transitive (name_le)).
    { intros x y z. unfold name_le, str_le. rewrite !Is_true_true. apply str_leb_trans. }
    apply (StronglySorted_merge_sort name_le).
Qed.
End any_server.

(** The path under which a node is listed. *)
Definition path_of (root : str) (ws : list str) : str := foldl join_remote_child root ws.

Lemma path_of_snoc root ws name : path_of root (ws ++ [name]) = join_remote_child (path_of root ws) name.
Proof. unfold path_of. by rewrite foldl_app. Qed.

Lemma path_of_loc root ws : root ≠ [] → plain root → Forall entry_name ws →
  path_of root ws ≠ [] ∧ plain (path_of root ws) ∧ loc_of (path_of root ws) = ((loc_of root).1, (loc_of root).2 ++ ws).
Proof.
  intros root_ne root_plain. induction ws as [|w ws IH] using rev_ind; intros Hall.
  - change (path_of root []) with root. rewrite app_nil_r. by destruct (loc_of root).
  - apply Forall_app in Hall as [Hws Hw]. apply Forall_cons in Hw as [Hw _]. destruct (IH Hws) as (H1 & H2 & H3).
    rewrite path_of_snoc. split_and!.
    + apply join_child_nonempty. by destruct Hw as [? _].
    + by apply plain_child.
    + rewrite loc_of_child by done. rewrite H3. cbn. by rewrite app_assoc.
Qed.

(** ** The tree of a well-behaved server *)
Section tree.
Context {S : Type} `{RemoteLaws S}.
Context (s : S) (root : str) (root_ne : root ≠ []) (root_plain : plain root) (root_dir : rl_type s (loc_of root) = Some FtDir).

Definition attrs_at (ws : list str) : option FileAttributes := rl_attrs s ((loc_of root).1, (loc_of root).2 ++ ws).
Definition is_node (ws : list str) : Prop := is_Some (attrs_at ws).
Definition is_dir (ws : list str) : Prop := rl_type s ((loc_of root).1, (loc_of root).2 ++ ws) = Some FtDir.
#[local] Instance is_dir_dec ws : Decision (is_dir ws).
Proof. unfold is_dir. apply _. Defined.

Lemma node_names ws : is_node ws → Forall entry_name ws.
Proof. intros Hn. apply rl_names in Hn. by apply Forall_app in Hn as [_ Hn]. Qed.

Lemma dir_names ws : is_dir ws → Forall entry_name ws.
Proof. intros Hd. apply node_names. unfold is_node, attrs_at. by apply dir_exists. Qed.

Lemma tree_parent x name : is_node (x ++ [name]) → is_dir x.
Proof. unfold is_node, is_dir, attrs_at. rewrite app_assoc. apply node_parent. Qed.

Lemma tree_dir_node x : is_dir x → x ≠ [] → is_node x.
Proof. intros Hd _. by apply dir_exists. Qed.

Lemma tree_root : is_dir [].
Proof. unfold is_dir. rewrite app_nil_r. by destruct (loc_of root). Qed.

(** The entries of a directory, as the code lists them. *)
Definition entry_at (w : list str) (name : str) : option RemoteDirEntry :=
  entry_of (path_of root w) name <$> attrs_at (w ++ [name]).

Lemma list_directory_lawful w : is_dir w →
  ∃ es, list_directory (path_of root w) s = (Ok es, s) ∧
    lists is_node w ((λ e, w ++ [re_name e]) <$> es) ∧ Forall (λ e, entry_at w (re_name e) = Some e) es.
Proof.
  intros Hd. destruct (path_of_loc root w root_ne root_plain (dir_names w Hd)) as (Hne & Hp & Hloc).
  destruct (rl_read_dir s (path_of root w) Hp) as (entries & Hread & Hnd & Hin); [by rewrite Hloc|]. rewrite Hloc in Hin. cbn [fst snd] in Hin.
  assert (Hin' : ∀ name a, name ≠ dot → name ≠ dotdot → (name, a) ∈ entries ↔ attrs_at (w ++ [name]) = Some a).
  { intros name a H1 H2. rewrite Hin by done. unfold attrs_at. by rewrite app_assoc. }
  assert (Hnames : ∀ name a, (name, a) ∈ entries → name ≠ dot → name ≠ dotdot → entry_name name).
  { intros name a Hna H1 H2. apply Hin' in Hna; [|done..]. assert (Hn : is_node (w ++ [name])) by by eexists.
    apply node_names, Forall_app in Hn as [_ Hn]. by apply Forall_cons in Hn as [Hn _]. }
  assert (Hfold : ∃ es, try_fold (listed (path_of root w)) [] entries = Ok es).
  { assert (Hgen : ∀ l acc, (∀ name a, (name, a) ∈ l → name ≠ dot → name ≠ dotdot → entry_name name) →
      ∃ es, try_fold (listed (path_of root w)) acc l = Ok es); [|by apply Hgen]. clear -H.
    induction l as [|[name a] l IH]; intros acc Hl; [by eexists|]. cbn [try_fold].
    assert (∃ acc', listed (path_of root w) acc (name, a) = Ok acc') as [acc' ->].
    { unfold listed. destruct (bool_decide (name = dot) || _) eqn:Hb; [by eexists|].
      apply orb_false_iff in Hb. rewrite !bool_decide_eq_false in Hb. rewrite (proj2 (validate_entry_ok name)); [by eexists|].
      apply (Hl name a); [by left|tauto..]. }
    rewrite bind_of_ok. apply IH. intros n b Hnb. apply (Hl n b). by right. }
  destruct Hfold as [es Hes]. pose proof Hes as Hl. apply listed_ok in Hl as (l & Heq & Hall & ->). cbn in Heq.
  exists (merge_sort name_le es). unfold list_directory, io_bind, io_context, io_lift. rewrite Hread, Hes. split; [done|].
  set (kept := filter _ entries) in *.
  assert (Hkept : ∀ name a, (name, a) ∈ kept ↔ attrs_at (w ++ [name]) = Some a).
  { intros name a. unfold kept. rewrite list_elem_of_filter. cbn. split.
    - intros [[? ?] Hna]. by apply Hin'.
    - intros Ha. assert (Hn : is_node (w ++ [name])) by by eexists. apply node_names, Forall_app in Hn as [_ Hn].
      apply Forall_cons in Hn as [(_ & H1 & H2 & _) _]. split; [done|]. by apply Hin'. }
  split.
  - split.
    + rewrite merge_sort_Permutation, Heq, <- list_fmap_compose. apply NoDup_fmap_2_strong.
      * intros [n1 a1] [n2 a2] H1 H2 Hnn. cbn in Hnn. apply app_inj_tail in Hnn as [_ <-].
        apply Hkept in H1, H2. congruence.
      * unfold kept. apply NoDup_filter. by eapply NoDup_fmap_1.
    + intros x. rewrite list_elem_of_fmap. setoid_rewrite merge_sort_Permutation. setoid_rewrite Heq. setoid_rewrite list_elem_of_fmap.
      split.
      * intros (e & -> & [name a] & -> & Hna). cbn. apply Hkept in Hna. split; [by eexists|by eexists].
      * intros ([a Ha] & name & ->). exists (entry_of (path_of root w) name a). split; [done|]. exists (name, a). split; [done|]. by apply Hkept.
  - rewrite merge_sort_Permutation, Heq. apply Forall_fmap, Forall_forall. intros [name a] Hna. cbn. unfold entry_at.
    apply Hkept in Hna. by rewrite Hna.
Qed.

(** *** Sizes *)
(** What a node adds to the size. *)
Definition node_size (ws : list str) : Z :=
  match attrs_at ws with
  | Some a => if bool_decide (attr_type a = FtDir) then 0 else default 0 (fa_size a)
  | None => 0
  end.
Definition total_size (nodes : list (list str)) : Z := foldr (λ ws total, node_size ws + total) 0 nodes.

Lemma total_size_app l k : total_size (l ++ k) = total_size l + total_size k.
Proof. unfold total_size. induction l as [|x l IH]; cbn; [done|]. rewrite IH. lia. Qed.

Lemma total_size_perm l k : l ≡ₚ k → total_size l = total_size k.
Proof. unfold total_size. induction 1; cbn; lia. Qed.

Context (sizes_nonneg : ∀ ws a z, attrs_at ws = Some a → fa_size a = Some z → 0 ≤ z).

Lemma node_size_nonneg ws : 0 ≤ node_size ws.
Proof.
  unfold node_size. destruct (attrs_at ws) as [a|] eqn:Ha; [|done]. case_bool_decide; [done|].
  destruct (fa_size a) as [z|] eqn:Hz; [|done]. by apply (sizes_nonneg ws a).
Qed.

Lemma total_size_nonneg l : 0 ≤ total_size l.
Proof. unfold total_size. induction l as [|x l IH]; cbn; [done|]. pose proof (node_size_nonneg x). lia. Qed.

(** A listing of [w] counted. *)
Lemma count_listing_ok w es total next :
  Forall (λ e, entry_at w (re_name e) = Some e) es → 0 ≤ total →
  foldl count_entry (Z.min u64_max total, next) es =
    (Z.min u64_max (total + total_size ((λ e, w ++ [re_name e]) <$> es)),
     next ++ (path_of root <$> filter is_dir ((λ e, w ++ [re_name e]) <$> es))).
Proof.
  intros Hes. revert total next. induction Hes as [|e es He Hes IH]; intros total next Htotal; cbn [foldl fmap list_fmap].
  { cbn. by rewrite app_nil_r, Z.add_0_r. }
  unfold entry_at in He. destruct (attrs_at (w ++ [re_name e])) as [a|] eqn:Ha; [|done]. cbn in He. injection He as He.
  assert (Hpath : re_path e = path_of root (w ++ [re_name e])) by (rewrite path_of_snoc, <- He; done).
  assert (Hdir : is_dir (w ++ [re_name e]) ↔ attr_type a = FtDir).
  { unfold is_dir, rl_type. unfold attrs_at in Ha. rewrite Ha. split; [by intros ?%(inj Some)|intros Ht; by rewrite <- Ht]. }
  assert (Hmeta : re_metadata e = map_metadata a (map_file_type (attr_type a))) by by rewrite <- He.
  change (total_size ?l) with (total_size l). cbn [total_size foldr].
  assert (Hpos : 0 ≤ default 0 (fa_size a)).
  { destruct (fa_size a) as [z|] eqn:Hz; [by eapply sizes_nonneg|done]. }
  assert (Hsize : node_size (w ++ [re_name e]) = if bool_decide (attr_type a = FtDir) then 0 else default 0 (fa_size a)).
  { unfold node_size. by rewrite Ha. }
  rewrite Hsize. clear Hsize.
  destruct (decide (attr_type a = FtDir)) as [Ht|Ht].
  - rewrite bool_decide_eq_true_2 by done. rewrite filter_cons_True by by apply Hdir. unfold count_entry at 2. rewrite Hmeta, Ht. cbn.
    rewrite IH by done. rewrite Hpath, <- app_assoc. done.
  - rewrite (bool_decide_eq_false_2 (attr_type a = FtDir)) by done. rewrite filter_cons_False by (rewrite Hdir; done). unfold count_entry at 2. rewrite Hmeta.
    assert (bool_decide (map_file_type (attr_type a) = RDirectory) = false) as Hno.
    { apply bool_decide_eq_false. by destruct (attr_type a). }
    unfold map_metadata. rewrite Hno. cbn [rm_file_type rm_size].
    assert (Hsat : saturating_add (Z.min u64_max total) (default 0 (fa_size a)) = Z.min u64_max (total + default 0 (fa_size a))).
    { unfold saturating_add. lia. }
    destruct (map_file_type (attr_type a)) eqn:Hm; [by destruct (attr_type a)|..]; cbn [fst snd]; rewrite Hsat, IH by lia;
      f_equal; f_equal; unfold total_size; lia.
Qed.

(** The listings of a chunk, all of which succeed. *)
Lemma join_all_ok {A} (cs : list (io S A)) (rs : list A) :
  Forall2 (λ c r, c s = (Ok r, s)) cs rs → join_all cs s = (Ok (Ok <$> rs), s).
Proof. induction 1 as [|c r cs rs Hc Hcs IH]; [done|]. cbn [join_all]. unfold io_bind, io_try, io_ret. by rewrite Hc, IH. Qed.

Lemma concat_chunks {A} fuel n (l : list A) : (length l ≤ fuel)%nat → (0 < n)%nat → concat (chunks_fuel fuel n l) = l.
Proof.
  intros Hl Hn. revert l Hl. induction fuel as [|fuel IH]; intros [|x l] Hl; cbn in Hl; [done|lia|done|].
  cbn [chunks_fuel concat]. rewrite IH; [apply take_drop|]. rewrite length_drop. cbn. lia.
Qed.

(** A level, one directory after the other. *)
Lemma walk_chunks_ok (f : str → list RemoteDirEntry) cs acc :
  Forall (λ p, list_directory p s = (Ok (f p), s)) (concat cs) →
  walk_chunks cs acc s = (Ok (foldl (λ acc p, foldl count_entry acc (f p)) acc (concat cs)), s).
Proof.
  revert acc. induction cs as [|c cs IH]; intros acc Hall; [done|]. cbn [concat] in Hall. apply Forall_app in Hall as [Hc Hcs].
  cbn [walk_chunks concat]. unfold io_bind, io_lift. rewrite (join_all_ok _ (f <$> c)).
  - assert (Hfold : ∀ acc, try_fold count_listing acc (Ok <$> (f <$> c)) = Ok (foldl (λ acc p, foldl count_entry acc (f p)) acc c)).
    { clear. induction c as [|p c IH]; intros acc; [done|]. cbn. apply IH. }
    rewrite Hfold, IH by done. by rewrite foldl_app.
  - clear -Hc. induction Hc as [|p c Hp Hc IH]; constructor; done.
Qed.

Context (nodes : list (list str)) (nodes_nodup : NoDup nodes) (nodes_all : ∀ x, x ∈ nodes ↔ is_node x ∧ x ≠ []).

Abbreviation walking := (walking is_node is_dir).
Abbreviation remaining := (to_list is_dir nodes).

(** One level: its directories are listed and their subdirectories come next. *)
Lemma walk_level_ok level emitted next total :
  walking emitted (level ++ next) → total = total_size emitted →
  ∃ emitted' next' (f : str → list RemoteDirEntry),
    Forall (λ p, list_directory p s = (Ok (f p), s)) (path_of root <$> level) ∧
    foldl (λ acc p, foldl count_entry acc (f p)) (Z.min u64_max total, path_of root <$> next) (path_of root <$> level) =
      (Z.min u64_max (total_size emitted'), path_of root <$> next') ∧
    walking emitted' next' ∧ (remaining emitted' next' + length level ≤ remaining emitted (level ++ next))%nat.
Proof.
  set (f := λ p, match (list_directory p s).1 with Ok es => es | Err _ => [] end).
  revert emitted next total. induction level as [|w level IH]; intros emitted next total Hw Htotal.
  - exists emitted, next, f. split_and!; [done|by rewrite Htotal|done|cbn; lia].
  - assert (Hdir : is_dir w) by (apply (wk_work _ _ _ _ Hw w); by left).
    destruct (list_directory_lawful w Hdir) as (es & Hlist & Hkids & Hes).
    assert (Hf : f (path_of root w) = es) by (unfold f; by rewrite Hlist).
    pose proof (walk_step is_node is_dir tree_parent tree_dir_node _ _ _ _ Hw Hkids) as Hw'.
    pose proof (walk_measure is_node is_dir nodes (λ x Hn Hne, proj2 (nodes_all x) (conj Hn Hne)) _ _ _ _ Hw Hkids) as Hm.
    set (kids := (λ e, w ++ [re_name e]) <$> es) in *.
    assert (Hperm : filter is_dir kids ++ level ++ next ≡ₚ level ++ next ++ filter is_dir kids).
    { rewrite (Permutation_app_comm (filter is_dir kids)). by rewrite app_assoc. }
    apply (walk_perm _ _ _ _ _ Hperm) in Hw'.
    destruct (IH _ _ _ Hw' eq_refl) as (emitted' & next' & g & Hg & Hfold & Hw'' & Hm').
    exists emitted', next', f.
    assert (Hgf : Forall (λ p, g p = f p) (path_of root <$> level)).
    { eapply Forall_impl; [exact Hg|]. intros p Hp. unfold f. cbn in Hp. by rewrite Hp. }
    split_and!; [|rewrite <- Hfold|done|].
    + cbn. constructor; [by rewrite Hf|]. apply Forall_forall. intros p Hp.
      rewrite <- (proj1 (Forall_forall _ _) Hgf p Hp). exact (proj1 (Forall_forall _ _) Hg p Hp).
    + cbn [fmap list_fmap foldl]. rewrite Hf, (count_listing_ok w); [|done|rewrite Htotal; apply total_size_nonneg].
      rewrite total_size_app, <- Htotal, fmap_app. fold kids. clear -Hgf.
      generalize (Z.min u64_max (total + total_size kids), (path_of root <$> next) ++ (path_of root <$> filter is_dir kids)) as acc.
      induction Hgf as [|p l Hp Hl IH]; intros acc; [done|]. cbn. rewrite Hp. apply IH.
    + unfold to_list in *. cbn [app length] in *. rewrite !length_app in *. lia.
Qed.

Lemma walk_levels_ok fuel emitted work :
  walking emitted work → (remaining emitted work ≤ fuel)%nat →
  walk_levels fuel (Z.min u64_max (total_size emitted)) (path_of root <$> work) s = (Ok (Z.min u64_max (total_size nodes)), s).
Proof.
  revert emitted work. induction fuel as [|fuel IH]; intros emitted work Hw Hm.
  - destruct work as [|w work]; [|unfold to_list in Hm; cbn in Hm; lia]. cbn. unfold io_ret. do 3 f_equal.
    destruct (walk_end is_node is_dir emitted Hw) as [Hnd Hall]. apply total_size_perm, NoDup_Permutation; [done..|].
    intros x. by rewrite Hall, nodes_all.
  - destruct (decide (work = [])) as [->|Hne].
    { cbn. unfold io_ret. do 3 f_equal. destruct (walk_end is_node is_dir emitted Hw) as [Hnd Hall].
      apply total_size_perm, NoDup_Permutation; [done..|]. intros x. by rewrite Hall, nodes_all. }
    rewrite <- (app_nil_r work) in Hw, Hm. destruct (walk_level_ok work emitted [] _ Hw eq_refl) as (emitted' & next' & f & Hf & Hfold & Hw' & Hm').
    destruct work as [|w work]; [done|]. cbn [fmap list_fmap walk_levels]. unfold io_bind.
    change (path_of root w :: list_fmap _ _ (path_of root) work) with (path_of root <$> (w :: work)).
    rewrite (walk_chunks_ok f).
    + unfold chunks. rewrite concat_chunks by (reflexivity || (unfold DIRECTORY_WALK_CONCURRENCY; lia)). cbn in Hfold |- *. rewrite Hfold. cbn [fst snd].
      apply IH; [done|]. cbn in Hm'. rewrite ?app_nil_r in *. cbn in Hm'. clear -Hm Hm'. lia.
    + unfold chunks. by rewrite concat_chunks by (reflexivity || (unfold DIRECTORY_WALK_CONCURRENCY; lia)).
Qed.

Lemma directory_size_ok fuel : (length nodes < fuel)%nat → directory_size fuel root s = (Ok (Z.min u64_max (total_size nodes)), s).
Proof.
  intros Hfuel. unfold directory_size. change 0 with (Z.min u64_max (total_size [])). change [root] with (path_of root <$> [[]]).
  apply walk_levels_ok; [apply walk_start, tree_root|]. unfold to_list. cbn.
  pose proof (length_filter (λ x, is_dir x ∧ x ∉ []) nodes). lia.
Qed.
End tree.

(** ** Properties *)

(** The size of a directory.  On a server that behaves, the breadth-first walk
    over concurrent listings ends and returns the sum of the sizes of everything below
    the directory that is not itself a directory, each counted once and links not
    followed, saturated at [u64::MAX]. *)
Theorem directory_size_exact {S} `{RemoteLaws S} s root nodes fuel :
  root ≠ [] → plain root → rl_type s (loc_of root) = Some FtDir →
  (∀ ws a z, attrs_at s root ws = Some a → fa_size a = Some z → 0 ≤ z) →
  NoDup nodes → (∀ x, x ∈ nodes ↔ is_node s root x ∧ x ≠ []) → (length nodes < fuel)%nat →
  directory_size fuel root s = (Ok (Z.min u64_max (total_size s root nodes)), s).
Proof. intros. by apply directory_size_ok. Qed.

(** ** Examples *)
Module Examples.

Definition file (n : Z) : Attrs := mk_attrs KRegular n (Some 1).
Definition tree1 : Sftp.Model.tree :=
  {[ (true, [lit "srv"]) := Sftp.Model.directory_attrs; (true, [lit "srv"; lit "a"]) := file 3;
     (true, [lit "srv"; lit "d"]) := Sftp.Model.directory_attrs; (true, [lit "srv"; lit "d"; lit "b"]) := file 40 ]}.
Definition nodes1 : list (list str) := [ [lit "a"]; [lit "d"]; [lit "d"; lit "b"] ].

Example du_output : parse_du_bytes (utf8 (lit "4096" ++ TAB :: lit "/srv/my files" ++ [LF])) = Some 4096.
Proof. by vm_compute. Qed.

(** Every key of the example tree. *)
Lemma tree1_nodes x : x ∈ nodes1 ↔ is_node tree1 (lit "/srv") x ∧ x ≠ [].
Proof.
  unfold is_node, attrs_at. assert (Hloc : loc_of (lit "/srv") = (true, [lit "srv"])) by by vm_compute. rewrite Hloc. cbn [fst snd app]. split.
  - unfold nodes1. rewrite !elem_of_cons. intros [->|[->|[->|[]%elem_of_nil]]]; (split; [|done]); eexists; vm_compute; reflexivity.
  - intros [[a' Ha'] Hne]. change (file_attributes <$> lookup_entry tree1 (true, lit "srv" :: x) = Some a') in Ha'.
    apply fmap_Some in Ha' as (a & Ha & _). apply lookup_node_raw in Ha; [|done]. apply map_lookup_filter_Some in Ha as [Ha _].
    assert (Hf : Forall (λ e : loc * Attrs, Exists (λ y, e.1.2 = lit "srv" :: y) ([] :: nodes1)) (map_to_list tree1)) by (apply (bool_decide_unpack _); by vm_compute).
    apply elem_of_map_to_list in Ha. apply (proj1 (Forall_forall _ _) Hf) in Ha. apply Exists_exists in Ha as (y & Hy & Heq). cbn in Heq.
    injection Heq as ->. by apply elem_of_cons in Hy as [->|Hy].
Qed.

Lemma directory_size_exact_witness : directory_size 4 (lit "/srv") tree1 = (Ok 43, tree1).
Proof.
  assert (Heq : Z.min u64_max (total_size tree1 (lit "/srv") nodes1) = 43) by by vm_compute. rewrite <- Heq. clear Heq.
  apply (directory_size_exact tree1 (lit "/srv") nodes1 4).
  - done.
  - apply plain_walk. apply (bool_decide_unpack _). by vm_compute.
  - by vm_compute.
  - intros ws a z Ha Hz. assert (Hn : is_node tree1 (lit "/srv") ws) by by eexists.
    destruct (decide (ws = [])) as [->|Hne]; [vm_compute in Ha; injection Ha as <-; by injection Hz as <-|].
    assert (Hin : ws ∈ nodes1) by by apply tree1_nodes. unfold nodes1 in Hin. rewrite !elem_of_cons in Hin.
    destruct Hin as [->|[->|[->|[]%elem_of_nil]]]; vm_compute in Ha; injection Ha as <-; by injection Hz as <-.
  - apply (bool_decide_unpack _). by vm_compute.
  - exact tree1_nodes.
  - cbn. lia.
Defined.
End Examples.
