(* ===== verification/RemoteMutation.v ===== *)
(** * Changing remote files ([crates/kaduox-ssh-transfer/src/remote_mutation.rs])

    Single-entry operations (mkdir, rename, removal, small files) and the recursive
    deletion: a plan built by a bounded walk, approved by the user, rebuilt and
    compared before the first removal, and executed in post-order. *)

From stdpp Require Import base list gmap strings numbers sorting.
From Stdlib Require Import Lia.
From S2P Require Import Prelude RustStr StrFacts RemotePath Sftp RemoteServer TreeWalk RemoteFs RemoteModel.

(** ** Definitions *)
Definition MAX_REMOTE_DELETE_MAX_ENTRIES : Z := 100000.
Definition MAX_SMALL_FILE_BYTES : Z := 1024 * 1024.

(** [RemoteDeleteOptions] is its [max_entries]. *)
Definition delete_options_validated (max_entries : Z) : result Z :=
  bail_if (max_entries =? 0) "remote recursive deletion max_entries must be greater than zero" ≫= λ _,
  bail_if (MAX_REMOTE_DELETE_MAX_ENTRIES <? max_entries) "remote recursive deletion max_entries is too large" ≫= λ _,
  Ok max_entries.

Record RemoteDeleteEntry := mk_delete_entry { de_path : str; de_file_type : RemoteFileType }.
#[export] Instance delete_entry_eq_dec : EqDecision RemoteDeleteEntry.
Proof. solve_decision. Defined.
Record RemoteDeletePlan := mk_delete_plan {
  dp_root : str; dp_files : Z; dp_directories : Z; dp_symlinks : Z; dp_entries : list RemoteDeleteEntry }.
#[export] Instance delete_plan_eq_dec : EqDecision RemoteDeletePlan.
Proof. solve_decision. Defined.
Record RemoteDeleteSummary := mk_delete_summary { ds_files : Z; ds_directories : Z; ds_symlinks : Z }.

Definition total_entries (plan : RemoteDeletePlan) : Z := zlen (dp_entries plan).

Definition ensure_delete_plan_budget (max_entries : Z) (plan : RemoteDeletePlan) : result unit :=
  bail_if (max_entries <? total_entries plan) "remote recursive deletion plan exceeds max_entries".

Definition checked_increment (value : Z) (label : string) : result Z := with_context (checked_add u64_max value 1) label.

Definition validate_mutation_path (path : str) : result unit :=
  bail_if (bool_decide (path = [])) "remote mutation path must not be empty" ≫= λ _,
  bail_if (existsb is_control path || contains_char path 0)
    "remote mutation path must not contain control characters or NUL" ≫= λ _,
  bail_if (bool_decide (path = [slash]) || bool_decide (path = dot))
    "refusing to mutate the remote root/current-directory path" ≫= λ _,
  let body :=
    match strip_prefix (dot ++ [slash]) path with
    | Some body => body
    | None => default path (strip_prefix [slash] path)
    end in
  bail_if (bool_decide (body = []) || ends_with body [slash]) "remote mutation path must name one concrete entry" ≫= λ _,
  for_each (λ component,
    bail_if (bool_decide (component = []) || bool_decide (component = dot) || bool_decide (component = dotdot))
      "remote mutation path contains an ambiguous path component") (split slash body).

Definition remote_parent (path : str) : str :=
  match rsplit_once slash path with
  | Some ([], _) => [slash]
  | Some (parent, _) => parent
  | None => dot
  end.

Definition ensure_same_parent (source destination : str) : result unit :=
  bail_if (negb (bool_decide (remote_parent source = remote_parent destination)))
    "remote rename is restricted to the same directory".

Section server.
Context {S : Type} `{RemoteServer S}.

Definition path_exists_no_follow (path : str) : io S bool := λ s,
  match rs_lstat path s with
  | (SOk _, s') => (Ok true, s')
  | (NoSuchFile, s') => (Ok false, s')
  | (SErr _, s') => (Err "failed to inspect remote path occupancy", s')
  end.

(** *** Single entries *)
Definition CREATE_NEW : OpenFlags := mk_open_flags true true false true.
Definition CREATE_TRUNCATE : OpenFlags := mk_open_flags true false true true.
Definition READ_ONLY : OpenFlags := mk_open_flags false false false false.

Definition create_file (path : str) : io S unit :=
  (exists_ ⇐ path_exists_no_follow path;
   io_lift (bail_if exists_ "remote path already exists") ;;
   file ⇐ io_context "cannot create remote file" (rs_open path CREATE_NEW);
   io_context "cannot finish creating remote file" (rs_close file))%io.

(** [file.take(limit).read_to_end(…)]: reads until no byte comes or the limit is
    reached. *)
Fixpoint read_to_end (fuel : nat) (file : rs_handle) (limit offset : Z) (content : list Z) : io S (list Z) :=
  match fuel with
  | O => io_err "out of fuel"
  | Datatypes.S fuel =>
      if limit <=? 0 then io_ret content
      else
        (bytes ⇐ rs_read file offset limit;
         (* a reader fills at most the buffer it is given *)
         let bytes := take (Z.to_nat limit) bytes in
         match bytes with
         | [] => io_ret content
         | _ => read_to_end fuel file (limit - zlen bytes) (offset + zlen bytes) (content ++ bytes)
         end)%io
  end.

Definition read_file (path : str) : io S (list Z) :=
  (stat ⇐ io_context "cannot stat remote file" (stat_path path);
   io_lift (bail_if (negb (bool_decide (rm_file_type (rf_metadata stat) = RFile))) "only regular files can be read") ;;
   io_lift (bail_if (match rm_size (rf_metadata stat) with Some size => MAX_SMALL_FILE_BYTES <? size | None => false end)
     "file exceeds 1 MiB") ;;
   file ⇐ io_context "cannot open remote file" (rs_open path READ_ONLY);
   content ⇐ io_context "cannot read remote file"
     (read_to_end (Z.to_nat (MAX_SMALL_FILE_BYTES + 2)) file (MAX_SMALL_FILE_BYTES + 1) 0 []);
   io_lift (bail_if (MAX_SMALL_FILE_BYTES <? zlen content) "file exceeds 1 MiB") ;;
   io_ret content)%io.

Definition write_file (path : str) (content : list Z) : io S unit :=
  (stat ⇐ io_try (stat_path path);
   io_lift (match stat with
     | Ok stat => bail_if (bool_decide (rm_file_type (rf_metadata stat) = RDirectory)) "the target is a directory"
     | Err _ => Ok tt
     end) ;;
   file ⇐ io_context "cannot open remote file" (rs_open path CREATE_TRUNCATE);
   io_context "cannot write remote file" (rs_write file 0 content) ;;
   io_context "cannot finish writing remote file" (rs_close file))%io.

Definition create_directory (path : str) : io S unit :=
  (exists_ ⇐ path_exists_no_follow path;
   io_lift (bail_if exists_ "remote directory target already exists") ;;
   io_context "failed to create remote directory" (rs_create_dir path))%io.

Definition rename_path (source destination : str) : io S RemoteFileType :=
  (source_stat ⇐ io_context "failed to preflight remote rename source" (stat_path source);
   exists_ ⇐ path_exists_no_follow destination;
   io_lift (bail_if exists_ "remote rename destination already exists") ;;
   io_context "failed to rename remote path" (rs_rename source destination) ;;
   io_ret (rm_file_type (rf_metadata source_stat)))%io.

Definition remove_path (path : str) : io S RemoteFileType :=
  (stat ⇐ io_context "failed to preflight remote removal" (stat_path path);
   let file_type := rm_file_type (rf_metadata stat) in
   match file_type with
   | RFile | RSymlink => io_context "failed to remove remote path" (rs_remove_file path)
   | RDirectory =>
       (entries ⇐ io_context "failed to verify remote directory is empty" (list_directory path);
        io_lift (bail_if (negb (bool_decide (length entries = 0%nat)))
          "refusing recursive remote deletion through single-entry API: directory is not empty") ;;
        io_context "failed to remove empty remote directory" (rs_remove_dir path))
   | ROther => io_err "refusing to remove unsupported remote file type"
   end ;;
   io_ret file_type)%io.

(** *** The deletion plan *)
Definition scan_entry (max_entries : Z) (acc : RemoteDeletePlan * list str) (entry : RemoteDirEntry)
    : result (RemoteDeletePlan * list str) :=
  let '(plan, directories) := acc in
  let file_type := rm_file_type (re_metadata entry) in
  match file_type with
  | RDirectory =>
      count ← checked_increment (dp_directories plan) "recursive remote delete directory counter";
      Ok (mk_delete_plan (dp_root plan) (dp_files plan) count (dp_symlinks plan) (dp_entries plan), re_path entry :: directories)
  | RFile =>
      count ← checked_increment (dp_files plan) "recursive remote delete file counter";
      Ok (mk_delete_plan (dp_root plan) count (dp_directories plan) (dp_symlinks plan) (dp_entries plan), directories)
  | RSymlink =>
      count ← checked_increment (dp_symlinks plan) "recursive remote delete symlink counter";
      Ok (mk_delete_plan (dp_root plan) (dp_files plan) (dp_directories plan) count (dp_entries plan), directories)
  | ROther => Err "refusing recursive remote deletion because unsupported entry type was found"
  end ≫= λ '(plan, directories),
  let plan := mk_delete_plan (dp_root plan) (dp_files plan) (dp_directories plan) (dp_symlinks plan)
                (dp_entries plan ++ [mk_delete_entry (re_path entry) file_type]) in
  ensure_delete_plan_budget max_entries plan ≫= λ _,
  Ok (plan, directories).

(** The stack of directories to list, its top first. *)
Fixpoint scan_directories (fuel : nat) (max_entries : Z) (plan : RemoteDeletePlan) (directories : list str)
    : io S RemoteDeletePlan :=
  match directories, fuel with
  | [], _ => io_ret plan
  | _, O => io_err "out of fuel"
  | directory :: directories, Datatypes.S fuel =>
      (entries ⇐ io_context "failed to scan remote directory for deletion" (list_directory directory);
       acc ⇐ io_lift (try_fold (scan_entry max_entries) (plan, directories) entries);
       scan_directories fuel max_entries acc.1 acc.2)%io
  end.

(** Every directory popped is an entry of the plan, so that [max_entries] rounds are
    enough. *)
Definition build_delete_plan_within (fuel : nat) (root : str) (max_entries : Z) : io S RemoteDeletePlan :=
  (root_stat ⇐ io_context "failed to stat recursive remote delete root" (stat_path root);
   io_lift (bail_if (negb (bool_decide (rm_file_type (rf_metadata root_stat) = RDirectory)))
     "recursive remote deletion root must be a real directory") ;;
   let plan := mk_delete_plan root 0 1 0 [mk_delete_entry root RDirectory] in
   io_lift (ensure_delete_plan_budget max_entries plan) ;;
   scan_directories fuel max_entries plan [root])%io.
Definition build_delete_plan (root : str) (max_entries : Z) : io S RemoteDeletePlan :=
  build_delete_plan_within (Z.to_nat max_entries) root max_entries.

Definition remove_entry (entry : RemoteDeleteEntry) : io S unit :=
  (stat ⇐ io_context "failed to revalidate remote delete entry" (stat_path (de_path entry));
   io_lift (bail_if (negb (bool_decide (rm_file_type (rf_metadata stat) = de_file_type entry)))
     "remote delete entry type changed after planning") ;;
   match de_file_type entry with
   | RFile | RSymlink => io_context "failed to remove remote path" (rs_remove_file (de_path entry))
   | RDirectory =>
       (remaining ⇐ io_context "failed to verify remote directory is empty during recursive deletion"
          (list_directory (de_path entry));
        io_lift (bail_if (negb (bool_decide (length remaining = 0%nat)))
          "remote directory changed during recursive deletion and is not empty") ;;
        io_context "failed to remove remote directory" (rs_remove_dir (de_path entry)))
   | ROther => io_err "refusing to remove unsupported remote file type"
   end)%io.

Definition execute_delete_plan (approved : RemoteDeletePlan) (max_entries : Z) : io S RemoteDeleteSummary :=
  (current ⇐ build_delete_plan (dp_root approved) max_entries;
   io_lift (bail_if (negb (bool_decide (current = approved))) "remote directory tree changed after deletion planning") ;;
   io_for_each remove_entry (reverse (dp_entries approved)) ;;
   io_ret (mk_delete_summary (dp_files approved) (dp_directories approved) (dp_symlinks approved)))%io.

(** *** Entry points *)
Definition create_remote_directory (path : str) : io S unit :=
  (io_lift (validate_mutation_path path) ;;
   with_sftp "failed to close SFTP session after remote mkdir" (create_directory path))%io.

Definition rename_remote_path (source destination : str) : io S RemoteFileType :=
  (io_lift (validate_mutation_path source) ;;
   io_lift (validate_mutation_path destination) ;;
   io_lift (ensure_same_parent source destination) ;;
   io_lift (bail_if (bool_decide (source = destination)) "remote rename source and destination are identical") ;;
   with_sftp "failed to close SFTP session after remote rename" (rename_path source destination))%io.

Definition remove_remote_path (path : str) : io S RemoteFileType :=
  (io_lift (validate_mutation_path path) ;;
   with_sftp "failed to close SFTP session after remote removal" (remove_path path))%io.

Definition plan_remote_tree_removal (path : str) (max_entries : Z) : io S RemoteDeletePlan :=
  (io_lift (validate_mutation_path path) ;;
   max_entries ⇐ io_lift (delete_options_validated max_entries);
   with_sftp "failed to close SFTP session after remote delete planning" (build_delete_plan path max_entries))%io.

Definition remove_remote_tree (plan : RemoteDeletePlan) (max_entries : Z) : io S RemoteDeleteSummary :=
  (io_lift (validate_mutation_path (dp_root plan)) ;;
   max_entries ⇐ io_lift (delete_options_validated max_entries);
   io_lift (bail_if (max_entries <? total_entries plan) "approved remote delete plan exceeds max_entries") ;;
   with_sftp "failed to close SFTP session after recursive remote deletion" (execute_delete_plan plan max_entries))%io.

Definition create_remote_file (path : str) : io S unit :=
  (io_lift (validate_mutation_path path) ;;
   with_sftp "failed to close SFTP session after remote file creation" (create_file path))%io.

Definition read_remote_file (path : str) : io S (list Z) :=
  (io_lift (validate_mutation_path path) ;;
   with_sftp "failed to close SFTP session after remote read" (read_file path))%io.

Definition write_remote_file (path : str) (content : list Z) : io S Z :=
  (io_lift (validate_mutation_path path) ;;
   io_lift (bail_if (MAX_SMALL_FILE_BYTES <? zlen content) "remote file content exceeds 1 MiB") ;;
   with_sftp "failed to close SFTP session after remote write" (write_file path content) ;;
   io_ret (zlen content))%io.
End server.

(** ** What any server sees *)

(** Computations that ask for no change. *)
Definition silent {S A} (c : io (S * list mutation) A) : Prop := ∀ s, (c s).2.2 = s.2.

Lemma silent_ret {S A} (a : A) : silent (S := S) (io_ret a).
Proof. done. Qed.
Lemma silent_err {S A} e : silent (S := S) (io_err (A := A) e).
Proof. done. Qed.
Lemma silent_lift {S A} (r : result A) : silent (S := S) (io_lift r).
Proof. done. Qed.
Lemma silent_bind {S A B} (c : io (S * list mutation) A) (k : A → io _ B) :
  silent c → (∀ a, silent (k a)) → silent (io_bind c k).
Proof. intros Hc Hk s. unfold io_bind. specialize (Hc s). destruct (c s) as [[a|e] s']; cbn in *; [by rewrite Hk|done]. Qed.
Lemma silent_context {S A} e (c : io (S * list mutation) A) : silent c → silent (io_context e c).
Proof. intros Hc s. unfold io_context. specialize (Hc s). by destruct (c s) as [[]]. Qed.
Lemma silent_try {S A} (c : io (S * list mutation) A) : silent c → silent (io_try c).
Proof. intros Hc s. unfold io_try. specialize (Hc s). by destruct (c s). Qed.
Lemma silent_quiet {S A} (c : io S A) : silent (quiet c).
Proof. intros s. unfold quiet. by destruct (c s.1). Qed.

Create HintDb silent.
#[export] Hint Resolve silent_ret silent_err silent_lift silent_bind silent_context silent_try silent_quiet : silent.

(** The request an entry of the plan stands for. *)
Definition removal (e : RemoteDeleteEntry) : mutation :=
  match de_file_type e with RDirectory => MRemoveDir (de_path e) | _ => MRemoveFile (de_path e) end.

(** At most this request, and it was made when the computation succeeds. *)
Definition only_asks {S A} (m : mutation) (c : io (S * list mutation) A) : Prop := ∀ s,
  match c s with
  | (Ok _, s') => s'.2 = s.2 ++ [m]
  | (Err _, s') => s'.2 = s.2 ∨ s'.2 = s.2 ++ [m]
  end.

Lemma asks_logged {S A} m (c : io S A) : only_asks m (logged m c).
Proof. intros s. unfold logged. destruct (c s.1) as [[]]; [done|by right]. Qed.
Lemma asks_context {S A} m e (c : io (S * list mutation) A) : only_asks m c → only_asks m (io_context e c).
Proof. intros Hc s. unfold io_context. specialize (Hc s). by destruct (c s) as [[]]. Qed.
Lemma asks_after {S A B} m (c : io (S * list mutation) A) (k : A → io _ B) :
  silent c → (∀ a, only_asks m (k a)) → only_asks m (io_bind c k).
Proof.
  intros Hc Hk s. unfold io_bind. specialize (Hc s). destruct (c s) as [[a|e] s']; cbn in Hc; [|by left].
  rewrite <- Hc. apply Hk.
Qed.
Lemma asks_then {S A B} m (c : io (S * list mutation) A) (k : A → io _ B) :
  only_asks m c → (∀ a, silent (k a)) → only_asks m (io_bind c k).
Proof.
  intros Hc Hk s. unfold io_bind. specialize (Hc s). destruct (c s) as [[a|e] s']; [|done].
  pose proof (Hk a s') as Hs. destruct (k a s') as [[b|e] s'']; cbn in Hs; rewrite Hs; [done|by right].
Qed.
Lemma asks_err {S A} m e : only_asks (S := S) m (io_err (A := A) e).
Proof. intros s. by left. Qed.
#[export] Hint Resolve asks_logged asks_context asks_err : silent.

Section logging.
Context {S : Type} `{server : RemoteServer S}.

Lemma silent_lstat path : silent (lstat path).
Proof. intros s. unfold lstat. cbn. by destruct (rs_lstat path s.1) as [[]]. Qed.
#[local] Hint Resolve silent_lstat : silent.

Lemma silent_exists path : silent (path_exists_no_follow path).
Proof. intros s. unfold path_exists_no_follow. cbn. by destruct (rs_lstat path s.1) as [[]]. Qed.
Lemma silent_list path : silent (list_directory path).
Proof. unfold list_directory. cbn. auto 10 with silent. Qed.
Lemma silent_stat path : silent (stat_path path).
Proof.
  unfold stat_path. apply silent_bind; [auto with silent|]. intros attrs. cbn zeta. apply silent_bind; [|auto with silent].
  case_match; cbn; auto 10 with silent.
Qed.
#[local] Hint Resolve silent_exists silent_list silent_stat : silent.

Lemma silent_scan fuel max_entries plan directories : silent (scan_directories fuel max_entries plan directories).
Proof.
  revert plan directories. induction fuel as [|fuel IH]; intros plan [|d directories]; cbn [scan_directories]; auto 10 with silent.
Qed.
#[local] Hint Resolve silent_scan : silent.

(** Planning asks for no change. *)
Lemma silent_build root max_entries : silent (build_delete_plan root max_entries).
Proof. unfold build_delete_plan, build_delete_plan_within. auto 10 with silent. Qed.
#[local] Hint Resolve silent_build : silent.

Lemma asks_remove_entry e : only_asks (removal e) (remove_entry e).
Proof.
  unfold remove_entry, removal. repeat (apply asks_after; [auto with silent|intros]).
  destruct (de_file_type e); cbn; try (by auto with silent). repeat (apply asks_after; [auto with silent|intros]). cbn. auto with silent.
Qed.

Lemma asks_remove_all l s : ∃ n, (io_for_each remove_entry l s).2.2 = s.2 ++ take n (removal <$> l) ∧
  (∀ u, (io_for_each remove_entry l s).1 = Ok u → take n (removal <$> l) = removal <$> l).
Proof.
  revert s. induction l as [|e l IH]; intros s; [exists 0%nat; by rewrite app_nil_r|]. cbn [io_for_each]. unfold io_bind.
  pose proof (asks_remove_entry e s) as He. destruct (remove_entry e s) as [[u|err] s'].
  - destruct (IH s') as (n & Hn & Hok). exists (Datatypes.S n). cbn [fmap list_fmap take]. rewrite Hn, He, <- app_assoc. split; [done|].
    intros u' Hu. f_equal. by eapply Hok.
  - cbn in *. destruct He as [He|He]; rewrite He; [exists 0%nat; by rewrite app_nil_r|]. exists 1%nat. cbn. by destruct l.
Qed.

Lemma silent_execute approved max_entries s :
  (∃ n, (execute_delete_plan approved max_entries s).2.2 = s.2 ++ take n (removal <$> reverse (dp_entries approved))) ∧
  ((execute_delete_plan approved max_entries s).2.2 ≠ s.2 ∨ is_ok (execute_delete_plan approved max_entries s).1 = true →
    ∃ s', build_delete_plan (dp_root approved) max_entries s = (Ok approved, s')) ∧
  (is_ok (execute_delete_plan approved max_entries s).1 = true →
    (execute_delete_plan approved max_entries s).2.2 = s.2 ++ (removal <$> reverse (dp_entries approved))).
Proof.
  unfold execute_delete_plan, io_bind, io_lift, io_ret. pose proof (silent_build (dp_root approved) max_entries s) as Hb.
  destruct (build_delete_plan (dp_root approved) max_entries s) as [[current|e] s1]; cbn in Hb.
  - destruct (decide (current = approved)) as [->|Hne].
    + rewrite bool_decide_eq_true_2 by done. cbn [negb bail_if]. destruct (asks_remove_all (reverse (dp_entries approved)) s1) as (n & Hn & Hok).
      destruct (io_for_each _ _ s1) as [[u|e] s2]; cbn in *; rewrite Hn, Hb.
      * split; [by exists n|]. split; [by exists s1|]. intros _. by rewrite (Hok u).
      * split; [by exists n|]. split; [by exists s1|done].
    + rewrite bool_decide_eq_false_2 by done. cbn. rewrite Hb. split; [exists 0%nat; by rewrite app_nil_r|]. split; [|done]. by intros [].
  - cbn. rewrite Hb. split; [exists 0%nat; by rewrite app_nil_r|]. split; [|done]. by intros [].
Qed.
End logging.

(** ** The plan *)
Definition of_type (t : RemoteFileType) (es : list RemoteDirEntry) : list RemoteDirEntry :=
  filter (λ e, rm_file_type (re_metadata e) = t) es.
Definition planned (e : RemoteDirEntry) : RemoteDeleteEntry := mk_delete_entry (re_path e) (rm_file_type (re_metadata e)).

(** The plan after the entries of one directory. *)
Definition scanned (plan : RemoteDeletePlan) (es : list RemoteDirEntry) : RemoteDeletePlan :=
  mk_delete_plan (dp_root plan) (dp_files plan + zlen (of_type RFile es)) (dp_directories plan + zlen (of_type RDirectory es))
    (dp_symlinks plan + zlen (of_type RSymlink es)) (dp_entries plan ++ (planned <$> es)).
Definition pushed (directories : list str) (es : list RemoteDirEntry) : list str :=
  reverse (re_path <$> of_type RDirectory es) ++ directories.

Definition counters_fit (plan : RemoteDeletePlan) (n : Z) : Prop :=
  dp_files plan + n ≤ u64_max ∧ dp_directories plan + n ≤ u64_max ∧ dp_symlinks plan + n ≤ u64_max.

Lemma checked_increment_ok v label n : checked_increment v label = Ok n ↔ n = v + 1 ∧ v + 1 ≤ u64_max.
Proof. unfold checked_increment. by rewrite with_context_ok, checked_add_some. Qed.

Lemma of_type_cons t e es : of_type t (e :: es) = (if decide (rm_file_type (re_metadata e) = t) then [e] else []) ++ of_type t es.
Proof. unfold of_type. rewrite filter_cons. by case_decide. Qed.

Lemma scan_entry_ok max_entries plan directories e acc :
  scan_entry max_entries (plan, directories) e = Ok acc →
  acc = (scanned plan [e], pushed directories [e]) ∧ rm_file_type (re_metadata e) ≠ ROther ∧
  total_entries (scanned plan [e]) ≤ max_entries.
Proof.
  unfold scan_entry, ensure_delete_plan_budget. intros ([plan1 dirs1] & Hcount & (u & Hb%bail_if_ok' & [= <-])%bind_ok)%bind_ok.
  apply Z.ltb_ge in Hb. revert Hcount Hb. unfold scanned, pushed, total_entries. rewrite !of_type_cons. unfold of_type, planned.
  destruct (rm_file_type (re_metadata e)) eqn:Ht; intros Hcount Hb; try done;
    apply bind_ok in Hcount as (n & [-> _]%checked_increment_ok & [= <- <-]); cbn in *; rewrite ?Z.add_0_r, Ht; split_and!; by (done || lia).
Qed.

Lemma scan_entry_succeeds max_entries plan directories e :
  rm_file_type (re_metadata e) ≠ ROther → total_entries plan + 1 ≤ max_entries → counters_fit plan 1 →
  scan_entry max_entries (plan, directories) e = Ok (scanned plan [e], pushed directories [e]).
Proof.
  intros Ht Hb (H1 & H2 & H3). unfold scan_entry, ensure_delete_plan_budget, checked_increment, checked_add, try_from, total_entries, scanned, pushed in *.
  rewrite !of_type_cons. unfold of_type, planned.
  destruct (rm_file_type (re_metadata e)) eqn:Hty; cbn [decide]; try done;
    rewrite (proj2 (Z.leb_le _ _)) by done; cbn [with_context]; rewrite bind_of_ok, bind_of_ok; cbn [dp_entries];
    rewrite length_app; cbn [length]; rewrite (proj2 (Z.ltb_ge _ _)) by lia; cbn; by rewrite ?Z.add_0_r, Hty.
Qed.

Lemma scanned_cons plan e es : scanned plan (e :: es) = scanned (scanned plan [e]) es.
Proof.
  unfold scanned. cbn [dp_root dp_files dp_directories dp_symlinks dp_entries]. rewrite !of_type_cons, !length_app, <- app_assoc.
  change (of_type ?t []) with (@nil RemoteDirEntry). cbn [length fmap list_fmap app]. rewrite !Nat2Z.inj_add, !Z.add_0_r, !Z.add_assoc. done.
Qed.

Lemma pushed_cons directories e es : pushed directories (e :: es) = pushed (pushed directories [e]) es.
Proof.
  unfold pushed. rewrite !of_type_cons. change (of_type RDirectory []) with (@nil RemoteDirEntry).
  by rewrite app_nil_r, fmap_app, reverse_app, app_assoc.
Qed.

Lemma scanned_nil plan : scanned plan [] = plan.
Proof. unfold scanned. cbn. rewrite app_nil_r, !Z.add_0_r. by destruct plan. Qed.

Lemma scan_entries_ok max_entries plan directories es acc :
  try_fold (scan_entry max_entries) (plan, directories) es = Ok acc →
  acc = (scanned plan es, pushed directories es) ∧ Forall (λ e, rm_file_type (re_metadata e) ≠ ROther) es ∧
  (es ≠ [] → total_entries (scanned plan es) ≤ max_entries).
Proof.
  revert plan directories acc. induction es as [|e es IH]; intros plan directories acc; cbn [try_fold].
  - intros [= <-]. by rewrite scanned_nil.
  - intros (acc1 & (-> & Ht & Hb)%scan_entry_ok & (-> & Hes & Hmax)%IH)%bind_ok. rewrite (scanned_cons plan e es), (pushed_cons directories e es).
    split_and!; [done|by constructor|]. intros _. destruct (decide (es = [])) as [->|Hne]; [|by apply Hmax].
    by rewrite scanned_nil.
Qed.

Lemma scanned_budget plan es : total_entries (scanned plan es) = total_entries plan + zlen es.
Proof. unfold total_entries, scanned. cbn [dp_entries]. rewrite length_app, length_fmap. lia. Qed.

Lemma scanned_counters plan es n : counters_fit plan (zlen es + n) → counters_fit (scanned plan es) n.
Proof.
  unfold counters_fit, scanned. cbn [dp_files dp_directories dp_symlinks].
  assert (Hlen : ∀ t, zlen (of_type t es) ≤ zlen es).
  { intros t. unfold of_type. pose proof (length_filter (λ e, rm_file_type (re_metadata e) = t) es). lia. }
  pose proof (Hlen RFile). pose proof (Hlen RDirectory). pose proof (Hlen RSymlink). lia.
Qed.

Lemma scan_entries_succeed max_entries plan directories es :
  Forall (λ e, rm_file_type (re_metadata e) ≠ ROther) es → total_entries plan + zlen es ≤ max_entries → counters_fit plan (zlen es) →
  try_fold (scan_entry max_entries) (plan, directories) es = Ok (scanned plan es, pushed directories es).
Proof.
  intros Hes. revert plan directories. induction Hes as [|e es Ht Hes IH]; intros plan directories Hb Hc.
  - by rewrite scanned_nil.
  - cbn [try_fold length] in *. pose proof Hc as Hone. unfold counters_fit in Hone.
    rewrite scan_entry_succeeds by (done || unfold counters_fit; lia). rewrite bind_of_ok.
    rewrite (scanned_cons plan e es), (pushed_cons directories e es). apply IH.
    + rewrite scanned_budget. cbn [length]. lia.
    + apply scanned_counters. cbn [length]. by replace (Z.of_nat 1 + zlen es) with (Z.of_nat (Datatypes.S (length es))) by lia.
Qed.

(** A path made of [root] and names below it. *)
Definition under (root path : str) : Prop := ∃ ws, Forall entry_name ws ∧ path = path_of root ws.

Lemma under_child root path name : under root path → entry_name name → under root (join_remote_child path name).
Proof.
  intros (ws & Hws & ->) Hn. exists (ws ++ [name]). rewrite path_of_snoc. split; [|done]. apply Forall_app. by split; [|constructor].
Qed.

Section any_server.
Context {S : Type} `{RemoteServer S}.

(** Whatever the server answers, a finished scan is within the budget and below the
    root, and the fuel is never used up. *)
Lemma scan_bounded root max_entries fuel plan directories s :
  Forall (λ e, under root (de_path e)) (dp_entries plan) → Forall (under root) directories →
  total_entries plan ≤ max_entries →
  match scan_directories fuel max_entries plan directories s with
  | (Ok plan', _) => dp_root plan' = dp_root plan ∧ Forall (λ e, under root (de_path e)) (dp_entries plan') ∧
      total_entries plan' ≤ max_entries ∧ dp_entries plan `prefix_of` dp_entries plan'
  | (Err _, _) => True
  end.
Proof.
  revert plan directories s. induction fuel as [|fuel IH]; intros plan [|d directories] s Hplan Hdirs Hb; cbn [scan_directories];
    try (cbn; done).
  apply Forall_cons in Hdirs as [Hd Hdirs]. unfold io_bind, io_context, io_lift.
  destruct (list_directory d s) as [[es|e] s1] eqn:Hlist; [|done]. apply list_directory_safe in Hlist as [Hes _].
  destruct (try_fold (scan_entry max_entries) (plan, directories) es) as [acc|e] eqn:Hfold; [|done].
  apply scan_entries_ok in Hfold as (-> & Hty & Hmax). cbn [fst snd].
  assert (Hchild : Forall (λ e, under root (re_path e)) es).
  { eapply Forall_impl; [exact Hes|]. intros e [Hn Hp]. cbn in Hp. rewrite Hp. by apply under_child. }
  specialize (IH (scanned plan es) (pushed directories es) s1). destruct (scan_directories fuel _ _ _ s1) as [[plan'|e] s2]; [|done].
  destruct IH as (H1 & H2 & H3 & H4).
  - apply Forall_app. split; [done|]. apply Forall_fmap. exact Hchild.
  - apply Forall_app. split; [|done]. apply Forall_reverse, Forall_fmap, Forall_forall.
    intros e [_ He]%list_elem_of_filter. by apply (proj1 (Forall_forall _ _) Hchild).
  - destruct (decide (es = [])) as [->|Hne]; [|by apply Hmax]. by rewrite scanned_nil.
  - split_and!; [done|done|done|]. etransitivity; [|exact H4]. by eexists.
Qed.

Lemma scan_fuel_enough max_entries fuel extra plan directories s :
  total_entries plan ≤ max_entries → max_entries + zlen directories ≤ total_entries plan + Z.of_nat fuel →
  scan_directories (fuel + extra) max_entries plan directories s = scan_directories fuel max_entries plan directories s.
Proof.
  revert plan directories s. induction fuel as [|fuel IH]; intros plan [|d directories] s Hb Hf; cbn [length] in Hf;
    [by destruct extra|lia|by cbn; destruct (fuel + extra)%nat|].
  cbn [scan_directories Nat.add]. unfold io_bind, io_context, io_lift. destruct (list_directory d s) as [[es|e] s1]; [|done].
  destruct (try_fold (scan_entry max_entries) (plan, directories) es) as [acc|e] eqn:Hfold; [|done].
  apply scan_entries_ok in Hfold as (-> & _ & Hmax). cbn [fst snd]. apply IH.
  - destruct (decide (es = [])) as [->|Hne]; [|by apply Hmax]. by rewrite scanned_nil.
  - unfold total_entries, scanned, pushed in *. cbn. rewrite !length_app, length_reverse, !length_fmap.
    assert (length (of_type RDirectory es) ≤ length es)%nat by apply length_filter. lia.
Qed.

Lemma build_fuel_enough root max_entries fuel s :
  (Z.to_nat max_entries ≤ fuel)%nat → build_delete_plan_within fuel root max_entries s = build_delete_plan root max_entries s.
Proof.
  intros Hf. unfold build_delete_plan, build_delete_plan_within, io_bind, io_context, io_lift.
  destruct (stat_path root s) as [[st|e] s1]; [|done]. destruct (bail_if (negb _) _) as [u|e]; [|done].
  set (plan0 := mk_delete_plan root 0 1 0 [mk_delete_entry root RDirectory]).
  destruct (ensure_delete_plan_budget max_entries plan0) as [u'|e] eqn:Hb; [|done]. apply bail_if_ok', Z.ltb_ge in Hb.
  replace fuel with (Z.to_nat max_entries + (fuel - Z.to_nat max_entries))%nat by lia. unfold total_entries in Hb. cbn in Hb.
  apply scan_fuel_enough; unfold total_entries; cbn; lia.
Qed.

Lemma build_bounded root max_entries s plan s' :
  build_delete_plan root max_entries s = (Ok plan, s') →
  dp_root plan = root ∧ Forall (λ e, under root (de_path e)) (dp_entries plan) ∧ total_entries plan ≤ max_entries.
Proof.
  unfold build_delete_plan, build_delete_plan_within, io_bind, io_context, io_lift. destruct (stat_path root s) as [[st|e] s1]; [|done].
  destruct (bool_decide (rm_file_type _ = RDirectory)); [|done]. cbn [negb bail_if].
  set (plan0 := mk_delete_plan root 0 1 0 [mk_delete_entry root RDirectory]).
  destruct (ensure_delete_plan_budget max_entries plan0) as [u|e] eqn:Hb; [|done]. apply bail_if_ok', Z.ltb_ge in Hb.
  assert (Hroot : under root root) by by (exists []).
  pose proof (scan_bounded root max_entries (Z.to_nat max_entries) plan0 [root] s1) as Hscan. intros Heq. rewrite Heq in Hscan.
  destruct Hscan as (H1 & H2 & H3 & _); [by repeat constructor|by repeat constructor|done|]. done.
Qed.
End any_server.

(** ** The path to change *)
Lemma validate_mutation_ok path :
  validate_mutation_path path = Ok tt →
  path ≠ [] ∧ plain path ∧ (loc_of path).2 ≠ [] ∧ Forall (λ c, is_control c = false) path.
Proof.
  unfold validate_mutation_path. rewrite !then_ok, !bail_if_ok, for_each_ok. intros (Hne & Hctl & _ & _ & Hall).
  apply bool_decide_eq_false in Hne. apply orb_false_iff in Hctl as [Hctl _].
  set (body := match strip_prefix (dot ++ [slash]) path with Some body => body | None => default path (strip_prefix [slash] path) end) in *.
  assert (Hwalk : walk path = split slash body ∧ dotdot ∉ split slash body).
  { assert (Hb : walk body = split slash body ∧ dotdot ∉ split slash body).
    { unfold walk. split.
      - apply filter_all. eapply Forall_impl; [exact Hall|]. intros w Hw%bail_if_ok. apply orb_false_iff in Hw as [Hw _].
        apply orb_false_iff in Hw as [H1%bool_decide_eq_false H2%bool_decide_eq_false]. done.
      - intros Hin. apply (proj1 (Forall_forall _ _) Hall) in Hin. by apply bail_if_ok in Hin. }
    destruct Hb as [Hb Hd]. split; [|done]. rewrite <- Hb. unfold body.
    destruct (strip_prefix (dot ++ [slash]) path) as [b|] eqn:H1.
    - apply strip_prefix_some in H1 as ->. change ((dot ++ [slash]) ++ b) with (dot ++ slash :: b). by rewrite walk_app_sep.
    - destruct (strip_prefix [slash] path) as [b|] eqn:H2; [|done]. apply strip_prefix_some in H2 as ->.
      change ([slash] ++ b) with ([] ++ slash :: b). by rewrite walk_app_sep. }
  destruct Hwalk as [Hw Hd]. unfold loc_of. cbn [snd]. rewrite Hw. split_and!.
  - done.
  - apply plain_walk. by rewrite Hw.
  - apply split_nonempty.
  - apply Forall_forall. intros c Hc. apply not_true_iff_false. intros Ht. apply not_true_iff_false in Hctl. apply Hctl.
    apply existsb_exists. exists c. split; [by apply list_elem_of_In|done].
Qed.

(** ** Removing a tree of a well-behaved server *)
Section tree.
Context {S : Type} `{RemoteLaws S}.
Context (s : S) (root : str) (root_ne : root ≠ []) (root_plain : plain root) (root_dir : rl_type s (loc_of root) = Some FtDir).

Abbreviation path := (path_of root).
Definition at_loc (ws : list str) : loc := ((loc_of root).1, (loc_of root).2 ++ ws).

(** The entry of the plan for a node. *)
Definition node_type (ws : list str) : RemoteFileType := default ROther (map_file_type <$> rl_type s (at_loc ws)).
Definition plan_entry (ws : list str) : RemoteDeleteEntry := mk_delete_entry (path ws) (node_type ws).

Lemma stat_path_lawful s' ws : Forall entry_name ws → is_Some (rl_attrs s' (at_loc ws)) →
  ∃ st, stat_path (path ws) s' = (Ok st, s') ∧ Some (rm_file_type (rf_metadata st)) = map_file_type <$> rl_type s' (at_loc ws).
Proof.
  intros Hn [a Ha]. destruct (path_of_loc root ws root_ne root_plain Hn) as (Hne & Hp & Hloc).
  unfold stat_path, io_bind, io_context, io_ret. rewrite (lstat_exists s' (path ws) a) by (done || by rewrite Hloc).
  destruct (rl_permissions s' _ a Ha) as [p Hperm]. rewrite Hperm. cbn [fmap option_fmap option_map default].
  assert (Hty : rl_type s' (at_loc ws) = Some (rs_file_type p)).
  { unfold rl_type. rewrite Ha. cbn. unfold attr_type. by rewrite Hperm. }
  rewrite Hty. cbn [compose]. case_bool_decide as Hlink.
  - destruct (rl_read_link s' (path ws) Hp) as [target ->].
    + rewrite Hloc. unfold at_loc in Hty. rewrite Hty. by destruct (rs_file_type p).
    + eexists. split; [done|]. cbn. done.
  - eexists. split; [done|]. cbn. done.
Qed.

Lemma node_type_dir ws : node_type ws = RDirectory ↔ is_dir s root ws.
Proof.
  unfold node_type, is_dir, at_loc. generalize (rl_type s ((loc_of root).1, (loc_of root).2 ++ ws)). clear.
  intros [[]|]; split; intros Ht; done.
Qed.

Lemma planned_entry w e : entry_at s root w (re_name e) = Some e → planned e = plan_entry (w ++ [re_name e]).
Proof.
  unfold entry_at. destruct (attrs_at s root (w ++ [re_name e])) as [a|] eqn:Ha; [|done]. intros [= He].
  assert (Hp : re_path e = path (w ++ [re_name e])) by (rewrite path_of_snoc, <- He; done).
  assert (Ht : rm_file_type (re_metadata e) = map_file_type (attr_type a)) by (rewrite <- He; done).
  unfold planned, plan_entry, node_type, rl_type. unfold attrs_at in Ha. unfold at_loc. by rewrite Hp, Ht, Ha.
Qed.

Context (max_entries : Z) (nodes : list (list str)) (nodes_nodup : NoDup nodes)
  (nodes_all : ∀ x, x ∈ nodes ↔ is_node s root x ∧ x ≠ []) (nodes_plain : ∀ x, x ∈ nodes → node_type x ≠ ROther)
  (nodes_fit : 1 + zlen nodes ≤ max_entries) (max_fits : max_entries ≤ u64_max).
#[local] Existing Instance is_dir_dec.

Abbreviation walking := (walking (is_node s root) (is_dir s root)).
Abbreviation remaining := (to_list (is_dir s root) nodes).

Definition typed (t : RemoteFileType) (l : list (list str)) : list (list str) := filter (λ x, node_type x = t) l.
Definition plan_for (emitted : list (list str)) : RemoteDeletePlan :=
  mk_delete_plan root (zlen (typed RFile emitted)) (1 + zlen (typed RDirectory emitted)) (zlen (typed RSymlink emitted))
    (plan_entry <$> [] :: emitted).

Lemma emitted_nodes emitted work : walking emitted work → ∀ x, x ∈ emitted → x ∈ nodes.
Proof. intros Hw x Hx. apply nodes_all. by apply (wk_nodes _ _ _ _ Hw). Qed.

Lemma emitted_length emitted work : walking emitted work → (length emitted ≤ length nodes)%nat.
Proof.
  intros Hw. apply submseteq_length, NoDup_submseteq; [by apply (wk_nodup _ _ _ _ Hw)|]. by apply (emitted_nodes _ work).
Qed.

Lemma typed_of_type t w es : Forall (λ e, entry_at s root w (re_name e) = Some e) es →
  zlen (of_type t es) = zlen (typed t ((λ e, w ++ [re_name e]) <$> es)) ∧
  path <$> typed t ((λ e, w ++ [re_name e]) <$> es) = re_path <$> of_type t es.
Proof.
  induction 1 as [|e es He Hes [IH1 IH2]]; [done|]. rewrite of_type_cons. apply planned_entry in He. unfold planned, plan_entry in He.
  injection He as Hp Ht. unfold typed in *. cbn [fmap list_fmap]. rewrite filter_cons. rewrite <- Ht.
  case_decide; cbn [app length fmap list_fmap]; [|done]. rewrite Hp. split; [lia|]. f_equal. exact IH2.
Qed.

Lemma scan_lawful fuel emitted work :
  walking emitted work → (remaining emitted work ≤ fuel)%nat →
  ∃ emitted', scan_directories fuel max_entries (plan_for emitted) (path <$> work) s = (Ok (plan_for emitted'), s) ∧
    walking emitted' [].
Proof.
  revert emitted work. induction fuel as [|fuel IH]; intros emitted [|w work] Hw Hm; try (by exists emitted);
    [unfold to_list in Hm; cbn in Hm; lia|].
  destruct (wk_work _ _ _ _ Hw w) as [Hd _]; [by left|].
  destruct (list_directory_lawful s root root_ne root_plain w Hd) as (es & Hlist & Hkids & Hes).
  set (kids := (λ e, w ++ [re_name e]) <$> es) in *.
  pose proof (walk_step _ _ (tree_parent s root) (tree_dir_node s root) _ _ _ _ Hw Hkids) as Hw'.
  pose proof (walk_measure _ _ nodes (λ x Hn Hne, proj2 (nodes_all x) (conj Hn Hne)) _ _ _ _ Hw Hkids) as Hmeasure.
  assert (Hperm : filter (is_dir s root) kids ++ work ≡ₚ reverse (filter (is_dir s root) kids) ++ work) by by rewrite reverse_Permutation.
  pose proof (walk_perm _ _ _ _ _ Hperm Hw') as Hw''.
  assert (Hlen : 1 + zlen emitted + zlen es ≤ max_entries).
  { pose proof (emitted_length _ _ Hw') as Hl. rewrite length_app in Hl. unfold kids in Hl. rewrite length_fmap in Hl. lia. }
  cbn [scan_directories fmap list_fmap]. unfold io_bind, io_context, io_lift. rewrite Hlist. rewrite scan_entries_succeed.
  - cbn [fst snd]. assert (Hplan : scanned (plan_for emitted) es = plan_for (emitted ++ kids)).
    { unfold scanned, plan_for. cbn [dp_root dp_files dp_directories dp_symlinks dp_entries]. unfold typed. rewrite !filter_app, !length_app.
      destruct (typed_of_type RFile w es Hes) as [-> _], (typed_of_type RDirectory w es Hes) as [-> _], (typed_of_type RSymlink w es Hes) as [-> _].
      fold kids. unfold typed. rewrite !Nat2Z.inj_add, Z.add_assoc. f_equal. cbn [fmap list_fmap app]. f_equal. change (list_fmap ?A ?B ?f ?l) with (f <$> l).
      rewrite fmap_app. f_equal. unfold kids. rewrite <- list_fmap_compose. apply list_fmap_ext. intros i e He.
      apply list_elem_of_lookup_2 in He. apply planned_entry. by apply (proj1 (Forall_forall _ _) Hes). }
    assert (Hdirs : pushed (path <$> work) es = path <$> (reverse (filter (is_dir s root) kids) ++ work)).
    { unfold pushed. rewrite fmap_app, fmap_reverse. do 2 f_equal. destruct (typed_of_type RDirectory w es Hes) as [_ <-]. fold kids. f_equal.
      unfold typed. apply list_filter_iff. intros x. apply node_type_dir. }
    change (list_fmap (list str) str path work) with (path <$> work). rewrite Hplan, Hdirs. apply IH; [done|].
    unfold to_list in *. rewrite length_app, length_reverse in *. cbn in Hm, Hmeasure. lia.
  - apply Forall_forall. intros e He. pose proof (proj1 (Forall_forall _ _) Hes e He) as Hentry. apply planned_entry in Hentry.
    unfold planned, plan_entry in Hentry. injection Hentry as _ ->. apply nodes_plain. apply (emitted_nodes _ _ Hw'). apply elem_of_app. right.
    apply list_elem_of_fmap. by exists e.
  - unfold total_entries, plan_for. cbn [dp_entries]. rewrite length_fmap. cbn [length]. lia.
  - assert (Htyped : ∀ t, zlen (typed t emitted) ≤ zlen emitted).
    { intros t. unfold typed. pose proof (length_filter (λ x, node_type x = t) emitted). lia. }
    unfold counters_fit, plan_for. cbn [dp_files dp_directories dp_symlinks].
    pose proof (Htyped RFile). pose proof (Htyped RDirectory). pose proof (Htyped RSymlink). lia.
Qed.

Lemma build_lawful : ∃ emitted, build_delete_plan root max_entries s = (Ok (plan_for emitted), s) ∧ walking emitted [].
Proof.
  destruct (stat_path_lawful s [] ltac:(constructor)) as (st & Hst & Hty).
  { pose proof (dir_exists s _ root_dir) as Hex. unfold at_loc. rewrite app_nil_r. by destruct (loc_of root). }
  unfold build_delete_plan, build_delete_plan_within, io_bind, io_context, io_lift. change (path []) with root in Hst. rewrite Hst.
  assert (rm_file_type (rf_metadata st) = RDirectory) as ->.
  { pose proof (tree_root s root root_dir) as Hd. unfold is_dir in Hd. unfold at_loc in Hty. rewrite Hd in Hty. by injection Hty. }
  rewrite bool_decide_eq_true_2 by done. cbn [negb bail_if].
  set (plan0 := mk_delete_plan root 0 1 0 [mk_delete_entry root RDirectory]).
  assert (Hb : ensure_delete_plan_budget max_entries plan0 = Ok tt).
  { apply bail_if_ok, Z.ltb_ge. unfold total_entries. cbn. lia. }
  rewrite Hb.
  assert (Hp0 : plan0 = plan_for []).
  { unfold plan_for, plan0, plan_entry. cbn. assert (node_type [] = RDirectory) as ->; [|done]. by apply node_type_dir, tree_root. }
  rewrite Hp0. change [root] with (path <$> [[]]).
  apply scan_lawful; [by apply walk_start, tree_root|]. unfold to_list. cbn [length].
  pose proof (length_filter (λ x, is_dir s root x ∧ x ∉ []) nodes). lia.
Qed.

(** *** The removals *)
Context (emitted : list (list str)) (emitted_all : walking emitted []) (root_below : (loc_of root).2 ≠ []).

Lemma at_loc_inj x y : at_loc x = at_loc y → x = y.
Proof. unfold at_loc. intros [= Heq]. by apply (inj ((loc_of root).2 ++.)) in Heq. Qed.

Lemma node_or_root x : x ∈ [] :: emitted ↔ is_Some (rl_attrs s (at_loc x)).
Proof.
  rewrite elem_of_cons. destruct (walk_end _ _ emitted emitted_all) as [_ Hall]. rewrite Hall. split.
  - intros [->|[Hn _]]; [|exact Hn]. pose proof (dir_exists s _ root_dir) as Hex. unfold at_loc. rewrite app_nil_r. by destruct (loc_of root).
  - intros Hn. destruct (decide (x = [])) as [->|Hne]; [by left|right]. by split.
Qed.

Lemma child_after done x rest name :
  [] :: emitted = done ++ (x ++ [name]) :: rest → x ∈ done.
Proof.
  intros Heq. destruct done as [|y done]; cbn in Heq; [by destruct x|]. injection Heq as <- Heq.
  destruct (wk_order _ _ _ _ emitted_all _ _ _ _ Heq) as [->|Hin]; [by left|by right].
Qed.

(** The tree without the nodes [gone]. *)
Definition without (gone : list (list str)) (s' : S) : Prop :=
  ∀ l, rl_attrs s' l = if bool_decide (l ∈ at_loc <$> gone) then None else rl_attrs s l.

Lemma without_kept gone s' x : without gone s' → x ∉ gone → rl_attrs s' (at_loc x) = rl_attrs s (at_loc x).
Proof.
  intros Hw Hx. rewrite Hw, bool_decide_eq_false_2; [done|]. intros (y & Heq & Hy)%list_elem_of_fmap.
  apply at_loc_inj in Heq as ->. done.
Qed.

Lemma without_gone gone s' x : without gone s' → x ∈ gone → rl_attrs s' (at_loc x) = None.
Proof. intros Hw Hx. rewrite Hw, bool_decide_eq_true_2; [done|]. by apply list_elem_of_fmap_2. Qed.

(** In post-order nothing is left below a directory when its turn comes. *)
Lemma nothing_left todo x gone s' us :
  [] :: emitted = todo ++ x :: gone → without gone s' → us ≠ [] → rl_attrs s' (at_loc (x ++ us)) = None.
Proof.
  intros Heq Hw. revert us. assert (Hchild : ∀ name, rl_attrs s' (at_loc (x ++ [name])) = None).
  { intros name. destruct (rl_attrs s (at_loc (x ++ [name]))) as [a|] eqn:Ha; cycle 1.
    - rewrite Hw, Ha. by destruct (bool_decide _).
    - assert (Hin : x ++ [name] ∈ [] :: emitted) by (apply node_or_root; by eexists). rewrite Heq in Hin.
      apply elem_of_app in Hin as [Hin|Hin].
      + exfalso. apply list_elem_of_split in Hin as (l1 & l2 & ->). rewrite <- app_assoc in Heq. cbn in Heq.
        pose proof (child_after _ _ _ _ Heq) as Hx. assert (Hnd : NoDup ([] :: emitted)).
        { apply NoDup_cons. split; [|by apply (wk_nodup _ _ _ _ emitted_all)]. intros Hin. by apply (wk_nodes _ _ _ _ emitted_all) in Hin as [_ ?]. }
        rewrite Heq in Hnd. apply NoDup_app in Hnd as (_ & Hdisj & _). apply (Hdisj x Hx). rewrite elem_of_cons, elem_of_app, elem_of_cons. tauto.
      + apply elem_of_cons in Hin as [Hin|Hin]; [|by eapply without_gone].
        exfalso. apply (f_equal length) in Hin. rewrite length_app in Hin. cbn in Hin. lia. }
  intros [|name us]; [done|]. intros _. destruct us as [|u us]; [apply Hchild|].
  destruct (rl_attrs s' (at_loc (x ++ name :: u :: us))) as [a|] eqn:Ha; [|done]. exfalso.
  pose proof (rl_tree s' (at_loc (x ++ name :: u :: us)) (ex_intro _ a Ha) ((loc_of root).2 ++ x ++ [name]) (u :: us)) as Hd.
  unfold at_loc in Hd at 1. cbn [fst snd] in Hd. rewrite <- !app_assoc in Hd. cbn [app] in Hd. specialize (Hd eq_refl ltac:(done)).
  pose proof (dir_exists s' _ Hd) as [b Hb]. change (rl_attrs s' (at_loc (x ++ [name])) = Some b) in Hb. by rewrite Hchild in Hb.
Qed.

Lemma remove_entry_lawful todo x gone s' :
  [] :: emitted = todo ++ x :: gone → without gone s' →
  ∃ s'', remove_entry (plan_entry x) s' = (Ok tt, s'') ∧ without (x :: gone) s''.
Proof.
  intros Heq Hw. assert (Hnd : NoDup ([] :: emitted)).
  { apply NoDup_cons. split; [|by apply (wk_nodup _ _ _ _ emitted_all)]. intros Hin. by apply (wk_nodes _ _ _ _ emitted_all) in Hin as [_ ?]. }
  assert (Hxg : x ∉ gone) by (rewrite Heq in Hnd; apply NoDup_app in Hnd as (_ & _ & [Hnd _]%NoDup_cons); done).
  assert (Hx : is_Some (rl_attrs s (at_loc x))) by (apply node_or_root; rewrite Heq, elem_of_app, elem_of_cons; tauto).
  pose proof (without_kept gone s' x Hw Hxg) as Hkept.
  assert (Hn : Forall entry_name x). { apply (rl_names s) in Hx. by apply Forall_app in Hx as [_ Hx]. }
  destruct (path_of_loc root x root_ne root_plain Hn) as (Hne & Hp & Hloc). fold (at_loc x) in Hloc.
  destruct (stat_path_lawful s' x Hn) as (st & Hst & Hty); [by rewrite Hkept|].
  assert (Htype : rl_type s' (at_loc x) = rl_type s (at_loc x)) by (unfold rl_type; by rewrite Hkept).
  assert (Hnt : node_type x = rm_file_type (rf_metadata st)).
  { unfold node_type. rewrite <- Htype, <- Hty. done. }
  assert (Hgone : ∀ s'', (∀ l, rl_attrs s'' l = place (rl_attrs s') (loc_of (path x)) None l) → without (x :: gone) s'').
  { intros s'' Hs'' l. rewrite Hs'', Hloc. unfold place. cbn [fmap list_fmap]. case_decide as Hl.
    - rewrite bool_decide_eq_true_2; [done|]. rewrite Hl. by left.
    - rewrite Hw. rewrite (bool_decide_ext (l ∈ at_loc x :: list_fmap _ _ at_loc gone) (l ∈ at_loc <$> gone)); [done|].
      rewrite elem_of_cons. naive_solver. }
  unfold remove_entry, io_bind, io_context, io_lift. cbn [plan_entry de_path de_file_type]. rewrite Hst, Hnt, bool_decide_eq_true_2 by done. cbn [negb bail_if].
  destruct (rl_type s' (at_loc x)) as [ty|] eqn:Hty'; [|by destruct (rl_attrs s (at_loc x)); [unfold rl_type in Hty'; rewrite Hkept in Hty'|destruct Hx]].
  cbn in Hty. apply (inj Some) in Hty. rewrite Hty.
  assert (Hfile : ty ≠ FtDir → ∃ s'', rs_remove_file (path x) s' = (Ok tt, s'') ∧ without (x :: gone) s'').
  { intros Hnd'. destruct (rl_remove_file s' (path x) ty Hp) as (s'' & Hrm & Hs''); [by rewrite Hloc|done|]. exists s''. by auto. }
  destruct ty; cbn [map_file_type].
  - assert (Hdir : is_dir s' root x) by exact Hty'.
    assert (Hroot : rl_type s' (loc_of root) = Some FtDir).
    { destruct (decide (x = [])) as [->|Hx0]; [clear -Hty'; unfold at_loc in Hty'; rewrite app_nil_r in Hty'; by destruct (loc_of root)|].
      pose proof (rl_tree s' (at_loc x) (dir_exists s' _ Hty') ((loc_of root).2) x eq_refl Hx0) as Hr.
      unfold at_loc in Hr. cbn [fst] in Hr. by destruct (loc_of root). }
    destruct (list_directory_lawful s' root root_ne root_plain x Hdir) as (es & -> & [_ Hkids] & _).
    assert (Hes : es = []).
    { destruct es as [|e es]; [done|]. exfalso. assert (Hin : x ++ [re_name e] ∈ (λ e, x ++ [re_name e]) <$> (e :: es)) by by left.
      apply Hkids in Hin as [[a Ha] _]. unfold attrs_at in Ha. change (rl_attrs s' (at_loc (x ++ [re_name e])) = Some a) in Ha.
      by rewrite (nothing_left todo x gone s') in Ha. }
    subst es. cbn. destruct (rl_remove_dir s' (path x) Hp) as (s'' & -> & Hs'').
    + by rewrite Hloc.
    + rewrite Hloc. cbn. intros Hnil. apply app_nil in Hnil as [Hnil _]. by apply root_below.
    + intros us Hus. rewrite Hloc. unfold at_loc at 1 2. cbn [fst snd]. rewrite <- app_assoc. change (rl_attrs s' (at_loc (x ++ us)) = None). by eapply nothing_left.
    + exists s''. by auto.
  - destruct Hfile as (s'' & -> & Hs''); [done|]. by exists s''.
  - destruct Hfile as (s'' & -> & Hs''); [done|]. by exists s''.
  - exfalso. destruct (decide (x = [])) as [->|Hx0].
    + unfold at_loc in Htype. rewrite app_nil_r, <- surjective_pairing in Htype. congruence.
    + apply (nodes_plain x); [|by rewrite Hnt, Hty]. apply nodes_all. split; [exact Hx|done].
Qed.

Lemma remove_all_lawful todo gone s' :
  [] :: emitted = todo ++ gone → without gone s' →
  ∃ s'', io_for_each remove_entry (reverse (plan_entry <$> todo)) s' = (Ok tt, s'') ∧ without ([] :: emitted) s''.
Proof.
  revert gone s'. induction todo as [|x todo IH] using rev_ind; intros gone s' Heq Hw.
  - exists s'. split; [done|]. by rewrite Heq.
  - rewrite <- app_assoc in Heq. cbn in Heq. destruct (remove_entry_lawful todo x gone s' Heq Hw) as (s1 & Hrm & Hw1).
    rewrite fmap_app, reverse_app. cbn. unfold io_bind. rewrite Hrm. by apply (IH (x :: gone)).
Qed.
End tree.

(** ** Sessions around the operations *)
Section sessions.
Context {S : Type} `{server : RemoteServer S}.

Lemma with_sftp_body {A} e (body : io (S * list mutation) A) s :
  ((with_sftp e body s).2.2 = s.2 ∧ is_ok (with_sftp e body s).1 = false) ∨
  ∃ s1, s1.2 = s.2 ∧ (with_sftp e body s).2.2 = (body s1).2.2 ∧
    ∀ a, (with_sftp e body s).1 = Ok a → (body s1).1 = Ok a.
Proof.
  unfold with_sftp, io_bind, io_try, io_lift, io_context, io_ret. cbn.
  pose proof (silent_quiet rs_open_session s) as Ho. destruct (quiet rs_open_session s) as [[u|err] s1]; cbn in Ho; [|by left].
  right. exists s1. split; [done|]. destruct (body s1) as [[a|err] s2];
    pose proof (silent_quiet rs_close_session s2) as Hc; destruct (quiet rs_close_session s2) as [[u'|err'] s3]; cbn in *; rewrite Hc; naive_solver.
Qed.

Lemma asks_session {A} m e (body : io (S * list mutation) A) : only_asks m body → only_asks m (with_sftp e body).
Proof.
  intros Hb s. destruct (with_sftp_body e body s) as [[Hlog Hr]|(s1 & Hs1 & Hlog & Hr)].
  - destruct (with_sftp e body s) as [[a|err] s']; cbn in *; [done|by left].
  - specialize (Hb s1). destruct (with_sftp e body s) as [[a|err] s']; cbn in *.
    + specialize (Hr a eq_refl). destruct (body s1) as [[b|err] s2]; cbn in *; [|done]. by rewrite Hlog, Hb, Hs1.
    + rewrite Hlog, <- Hs1. destruct (body s1) as [[b|err'] s2]; cbn in *; [by right|done].
Qed.

Lemma remove_tree_ok plan max_entries s :
  let log := (remove_remote_tree plan max_entries s).2.2 in
  let r := (remove_remote_tree plan max_entries s).1 in
  (∃ n, log = s.2 ++ take n (removal <$> reverse (dp_entries plan))) ∧
  (log ≠ s.2 ∨ is_ok r = true →
     validate_mutation_path (dp_root plan) = Ok tt ∧ Forall (λ e, under (dp_root plan) (de_path e)) (dp_entries plan) ∧
     total_entries plan ≤ max_entries ≤ MAX_REMOTE_DELETE_MAX_ENTRIES ∧
     ∃ s1 s2 : S * list mutation, build_delete_plan (dp_root plan) max_entries s1 = (Ok plan, s2)) ∧
  (is_ok r = true → log = s.2 ++ (removal <$> reverse (dp_entries plan))).
Proof.
  assert (Hno : ∀ (log : list mutation) (b : bool), log = s.2 → b = false →
    (∃ n, log = s.2 ++ take n (removal <$> reverse (dp_entries plan))) ∧ (log ≠ s.2 ∨ b = true → False) ∧ (b = true → False)).
  { intros log b -> ->. split; [exists 0%nat; by rewrite app_nil_r|]. naive_solver. }
  unfold remove_remote_tree, io_bind, io_lift.
  destruct (validate_mutation_path (dp_root plan)) as [[]|e] eqn:Hv; [|destruct (Hno s.2 false) as (? & ? & ?); cbn; naive_solver].
  destruct (delete_options_validated max_entries) as [n|e] eqn:Ho; [|destruct (Hno s.2 false) as (? & ? & ?); cbn; naive_solver].
  unfold delete_options_validated in Ho. apply bind_ok in Ho as (? & _ & (? & Hmax%bail_if_ok'%Z.ltb_ge & [= <-])%bind_ok).
  destruct (bail_if (max_entries <? total_entries plan) _) as [u|e] eqn:Hb; [|destruct (Hno s.2 false) as (? & ? & ?); cbn; naive_solver].
  set (body := with_sftp _ _). destruct (with_sftp_body "failed to close SFTP session after recursive remote deletion" (execute_delete_plan plan max_entries) s)
    as [[Hlog Hr]|(s1 & Hs1 & Hlog & Hr)]; fold body in Hlog, Hr.
  { destruct (Hno _ _ Hlog Hr) as (? & ? & ?). cbn. naive_solver. }
  destruct (silent_execute plan max_entries s1) as (Hn & Hbuilt & Hok). rewrite Hs1 in *. rewrite <- Hlog in *.
  assert (Hok' : is_ok (body s).1 = true → is_ok (execute_delete_plan plan max_entries s1).1 = true).
  { destruct (body s).1 as [a|e]; [|done]. by rewrite (Hr a). }
  cbv zeta. split; [done|]. split; [|naive_solver]. intros Hdone.
  destruct Hbuilt as (s2 & Hbuilt); [naive_solver|]. destruct (build_bounded _ _ _ _ _ Hbuilt) as (_ & Hunder & Hfit). split_and!; try done. by exists s1, s2.
Qed.
End sessions.

(** ** Properties *)

(** C11: a recursive removal asks only for what was approved.  Whatever the server
    answers at every request, the changes it is asked for are an initial part of the
    removals of the approved plan's entries in reverse order, each a file or a
    directory removal by the entry's type, all of them when the call succeeds; and
    nothing is asked for unless the root is a valid path, every path of the plan is
    the root or joined to it from valid entry names, the plan is within the budget,
    and a new scan has just given the same plan. *)
Theorem recursive_removal_confined {S} `{server : RemoteServer S} plan max_entries s :
  let '(r, s') := @remove_remote_tree _ (logging_server server) plan max_entries (s, []) in
  (∃ n, s'.2 = take n (removal <$> reverse (dp_entries plan))) ∧
  (is_ok r = true → s'.2 = removal <$> reverse (dp_entries plan)) ∧
  (s'.2 ≠ [] ∨ is_ok r = true →
     validate_mutation_path (dp_root plan) = Ok tt ∧ Forall (λ e, under (dp_root plan) (de_path e)) (dp_entries plan) ∧
     total_entries plan ≤ max_entries ≤ MAX_REMOTE_DELETE_MAX_ENTRIES ∧
     ∃ s1 s2, @build_delete_plan _ (logging_server server) (dp_root plan) max_entries s1 = (Ok plan, s2)).
Proof.
  destruct (remove_tree_ok plan max_entries (s, [])) as (H1 & H2 & H3).
  destruct (@remove_remote_tree _ (logging_server server) plan max_entries (s, [])) as [r s']. cbn in *. by split_and!.
Qed.

(** C19: planning a removal is read-only, bounded and always ends.  Whatever the
    server answers, it is asked for no change; a finished plan has at most
    [max_entries] entries, all at or below the root; and more rounds of the walk than
    [max_entries] never change the outcome, even if the server shows an endless
    tree. *)
Theorem removal_planning_bounded {S} `{server : RemoteServer S} root max_entries s :
  (@plan_remote_tree_removal _ (logging_server server) root max_entries (s, [])).2.2 = [] ∧
  (∀ plan s', build_delete_plan root max_entries s = (Ok plan, s') →
     Forall (λ e, under root (de_path e)) (dp_entries plan) ∧ total_entries plan ≤ max_entries) ∧
  ∀ fuel, (Z.to_nat max_entries ≤ fuel)%nat →
    build_delete_plan_within fuel root max_entries s = build_delete_plan root max_entries s.
Proof.
  split_and!.
  - unfold plan_remote_tree_removal, io_bind, io_lift. destruct (validate_mutation_path root); [|done].
    destruct (delete_options_validated max_entries) as [n|e]; [|done].
    set (logs := logging_server server).
    destruct (with_sftp_body "failed to close SFTP session after remote delete planning" (@build_delete_plan _ logs root n) (s, []))
      as [[Hlog _]|(s1 & Hs1 & Hlog & _)]; [exact Hlog|]. etransitivity; [exact Hlog|].
    etransitivity; [apply silent_build|exact Hs1].
  - intros plan s' Hb. by apply build_bounded in Hb as (_ & ? & ?).
  - intros fuel. apply build_fuel_enough.
Qed.

(** C10: on a server that behaves, planning and then executing removes exactly the
    tree.  For a valid root that is a directory without special files and within the
    budget, the plan is made without a change, its execution succeeds and counts the
    files, directories (the root included) and links, afterwards neither the root nor
    anything below it exists, and nothing else has changed. *)
Theorem recursive_removal_exact {S} `{RemoteLaws S} s root max_entries nodes :
  validate_mutation_path root = Ok tt → rl_type s (loc_of root) = Some FtDir →
  NoDup nodes → (∀ x, x ∈ nodes ↔ is_node s root x ∧ x ≠ []) → (∀ x, x ∈ nodes → node_type s root x ≠ ROther) →
  1 + zlen nodes ≤ max_entries ≤ MAX_REMOTE_DELETE_MAX_ENTRIES →
  ∃ plan s', plan_remote_tree_removal root max_entries s = (Ok plan, s) ∧
    remove_remote_tree plan max_entries s =
      (Ok (mk_delete_summary (zlen (typed s root RFile nodes)) (1 + zlen (typed s root RDirectory nodes))
             (zlen (typed s root RSymlink nodes))), s') ∧
    (∀ us, rl_attrs s' ((loc_of root).1, (loc_of root).2 ++ us) = None) ∧
    ∀ l, (∀ us, l ≠ ((loc_of root).1, (loc_of root).2 ++ us)) → rl_attrs s' l = rl_attrs s l.
Proof.
  intros Hv Hd Hnd Hall Hplain [Hfit Hmax]. destruct (validate_mutation_ok root Hv) as (Hne & Hp & Hbelow & _).
  assert (Hu : max_entries ≤ u64_max) by (unfold MAX_REMOTE_DELETE_MAX_ENTRIES, u64_max in *; lia).
  destruct (build_lawful s root Hne Hp Hd max_entries nodes Hall Hplain Hfit Hu) as (emitted & Hbuild & Hw).
  destruct (walk_end _ _ emitted Hw) as [Hend Hmem].
  assert (Hperm : emitted ≡ₚ nodes). { apply NoDup_Permutation; [done..|]. intros x. by rewrite Hmem, Hall. }
  destruct (remove_all_lawful s root Hne Hp Hd nodes Hall Hplain emitted Hw Hbelow ([] :: emitted) [] s) as (s' & Hrm & Hgone).
  { by rewrite app_nil_r. } { done. }
  assert (Hopt : delete_options_validated max_entries = Ok max_entries).
  { unfold delete_options_validated. rewrite (proj2 (Z.eqb_neq _ _)) by lia. by rewrite (proj2 (Z.ltb_ge _ _)) by done. }
  assert (Hsession : ∀ A e (c : io S A) a s1 s2, c s1 = (Ok a, s2) → with_sftp e c s1 = (Ok a, s2)).
  { intros A e c a s1 s2 Hc. unfold with_sftp, io_bind, io_try, io_lift, io_context, io_ret. by rewrite rl_open, Hc, rl_close. }
  assert (Hbudget : bail_if (max_entries <? total_entries (plan_for s root emitted)) "approved remote delete plan exceeds max_entries" = Ok tt).
  { apply bail_if_ok, Z.ltb_ge. unfold total_entries, plan_for. cbn [dp_entries]. rewrite length_fmap, Hperm. cbn [length]. lia. }
  exists (plan_for s root emitted), s'. split_and!.
  - unfold plan_remote_tree_removal, io_bind, io_lift. rewrite Hv, Hopt. by apply Hsession.
  - unfold remove_remote_tree, io_bind, io_lift. change (dp_root (plan_for s root emitted)) with root. rewrite Hv, Hopt, Hbudget. apply Hsession.
    unfold execute_delete_plan, io_bind, io_lift, io_ret. change (dp_root (plan_for s root emitted)) with root.
    rewrite Hbuild, bool_decide_eq_true_2 by done. cbn [negb bail_if]. change (dp_entries (plan_for s root emitted)) with (plan_entry s root <$> [] :: emitted).
    rewrite Hrm. cbn [plan_for dp_files dp_directories dp_symlinks]. unfold typed. by rewrite Hperm.
  - intros us. change (rl_attrs s' (at_loc root us) = None). destruct (decide (us ∈ [] :: emitted)) as [Hin|Hin].
    + by eapply without_gone.
    + rewrite (without_kept s root ([] :: emitted)) by done. apply eq_None_not_Some. intros Hs. apply Hin.
      by eapply node_or_root.
  - intros l Hl. rewrite Hgone, bool_decide_eq_false_2; [done|]. intros (x & -> & _)%list_elem_of_fmap. by apply (Hl x).
Qed.

(** *** Reading a small file *)
Lemma read_to_end_ok {S} `{RemoteServer S} fuel file limit offset content s r s' :
  read_to_end fuel file limit offset content s = (Ok r, s') → 0 ≤ limit → zlen r ≤ zlen content + limit ∧ content `prefix_of` r.
Proof.
  revert limit offset content s. induction fuel as [|fuel IH]; intros limit offset content s; cbn [read_to_end]; [done|].
  destruct (Z.leb_spec limit 0) as [Hl|Hl]; [intros [= <- _] ?; split; [lia|done]|].
  unfold io_bind. destruct (rs_read file offset limit s) as [[bytes|e] s1]; [|done]. intros Hrun _.
  assert (Hlen : zlen (take (Z.to_nat limit) bytes) ≤ limit) by (rewrite length_take; lia).
  destruct (take (Z.to_nat limit) bytes) as [|b bs] eqn:Hb; [injection Hrun as <- _; split; [lia|done]|].
  apply IH in Hrun as [Hr Hp]; [|lia]. rewrite length_app in Hr. split; [lia|]. etransitivity; [|exact Hp]. by eexists.
Qed.

Lemma read_fuel_enough {S} `{RemoteServer S} fuel extra file limit offset content s :
  0 ≤ limit < Z.of_nat fuel → read_to_end (fuel + extra) file limit offset content s = read_to_end fuel file limit offset content s.
Proof.
  revert limit offset content s. induction fuel as [|fuel IH]; intros limit offset content s Hf.
  - lia.
  - cbn [read_to_end Nat.add]. destruct (Z.leb_spec limit 0) as [Hl|Hl]; [done|]. unfold io_bind.
    destruct (rs_read file offset limit s) as [[bytes|e] s1]; [|done].
    assert (Hlen : zlen (take (Z.to_nat limit) bytes) ≤ limit) by (rewrite length_take; lia).
    destruct (take (Z.to_nat limit) bytes) as [|b bs]; [done|]. apply IH. cbn [length] in *. lia.
Qed.

(** A file is read for editing within a fixed bound.  Whatever the server reports
    and however it splits or extends the contents, [read_remote_file] returns at most
    1 MiB, reads nothing but what it was given in order, and ends: more rounds of
    reading than the limit never change the outcome. *)
Theorem small_file_read_bounded {S} `{RemoteServer S} path s :
  (∀ content s', read_remote_file path s = (Ok content, s') → zlen content ≤ MAX_SMALL_FILE_BYTES) ∧
  (∀ file s extra, let limit := MAX_SMALL_FILE_BYTES + 1 in
     read_to_end (Z.to_nat (limit + 1) + extra) file limit 0 [] s = read_to_end (Z.to_nat (limit + 1)) file limit 0 [] s).
Proof.
  split; [|intros file s0 extra limit; apply read_fuel_enough; unfold limit, MAX_SMALL_FILE_BYTES; lia].
  intros content s'. unfold read_remote_file, io_bind, io_lift. destruct (validate_mutation_path path) as [u|e]; [|done].
  unfold with_sftp, io_bind, io_try, io_lift, io_context, io_ret. destruct (rs_open_session s) as [[u'|e] s1]; [|done].
  assert (Hread : ∀ r s2, read_file path s1 = (Ok r, s2) → zlen r ≤ MAX_SMALL_FILE_BYTES).
  { intros r s2. unfold read_file, io_bind, io_lift, io_context, io_ret. destruct (stat_path path s1) as [[st|e] s3]; [|done].
    destruct (bail_if (negb _) _); [|done]. destruct (bail_if (match rm_size _ with Some _ => _ | None => _ end) _); [|done].
    destruct (rs_open path READ_ONLY s3) as [[file|e] s4]; [|done].
    destruct (read_to_end _ file _ _ _ s4) as [[content'|e] s5]; [|done]. destruct (bail_if (MAX_SMALL_FILE_BYTES <? zlen content') _) eqn:Hb; [|done].
    intros [= <- _]. by apply bail_if_ok', Z.ltb_ge in Hb. }
  destruct (read_file path s1) as [[r|e] s2]; destruct (rs_close_session s2) as [[u''|e'] s3]; try done.
  intros [= <- _]. by eapply Hread.
Qed.

(** *** Single entries *)
(** What a call may have asked for. *)
Definition asked {S A} (m : mutation) (p : result A * (S * list mutation)) : Prop :=
  match p with
  | (Ok _, s') => s'.2 = [m]
  | (Err _, s') => s'.2 = [] ∨ s'.2 = [m]
  end.

Section single.
Context {S : Type} `{server : RemoteServer S}.

Lemma asks_create_directory path : only_asks (MCreateDir path) (create_directory path).
Proof.
  unfold create_directory. apply asks_after; [apply silent_exists|]. intros found. apply asks_after; [auto with silent|]. intros _.
  apply asks_context, asks_logged.
Qed.

Lemma asks_rename_path source destination : only_asks (MRename source destination) (rename_path source destination).
Proof.
  unfold rename_path. apply asks_after; [apply silent_context, silent_stat|]. intros st. apply asks_after; [apply silent_exists|].
  intros found. apply asks_after; [auto with silent|]. intros _. apply asks_then; [|auto with silent]. apply asks_context, asks_logged.
Qed.

Lemma asks_create_file path : only_asks (MOpenWrite path CREATE_NEW) (create_file path).
Proof.
  unfold create_file. apply asks_after; [apply silent_exists|]. intros found. apply asks_after; [auto with silent|]. intros _.
  apply asks_then; [apply asks_context, asks_logged|]. intros h. apply silent_context, silent_quiet.
Qed.

Lemma asks_write_file path content : only_asks (MOpenWrite path CREATE_TRUNCATE) (write_file path content).
Proof.
  unfold write_file. apply asks_after; [apply silent_try, silent_stat|]. intros st. apply asks_after; [auto with silent|]. intros _.
  apply asks_then; [apply asks_context, asks_logged|]. intros h. apply silent_bind; [apply silent_context, silent_quiet|].
  intros _. apply silent_context, silent_quiet.
Qed.

(** Existing entries are never overwritten by creating or renaming. *)
Lemma occupied_stops path s a s' : rs_lstat path s = (SOk a, s') → path_exists_no_follow path s = (Ok true, s').
Proof. intros Hs. unfold path_exists_no_follow. by rewrite Hs. Qed.
End single.

(** The single-entry operations touch one entry.  Whatever the server answers,
    creating a directory or a file, renaming and writing ask for at most their one
    change, on the validated paths; nothing is asked for when a path is rejected or, for
    a rename, when the directories differ; and a call that succeeds has asked for it. *)
Theorem single_operations_confined {S} `{server : RemoteServer S} path destination content s :
  asked (MCreateDir path) (@create_remote_directory _ (logging_server server) path (s, [])) ∧
  asked (MOpenWrite path CREATE_NEW) (@create_remote_file _ (logging_server server) path (s, [])) ∧
  asked (MRename path destination) (@rename_remote_path _ (logging_server server) path destination (s, [])) ∧
  asked (MOpenWrite path CREATE_TRUNCATE) (@write_remote_file _ (logging_server server) path content (s, [])) ∧
  (validate_mutation_path path ≠ Ok tt →
     (@create_remote_directory _ (logging_server server) path (s, [])).2.2 = [] ∧
     (@rename_remote_path _ (logging_server server) path destination (s, [])).2.2 = []) ∧
  (remote_parent path ≠ remote_parent destination ∨ path = destination →
     (@rename_remote_path _ (logging_server server) path destination (s, [])).2.2 = []).
Proof.
  assert (Hask : ∀ A m (c : io (S * list mutation) A), only_asks m c → asked m (c (s, []))).
  { intros A m c Hc. specialize (Hc (s, [])). unfold asked. by destruct (c (s, [])) as [[]]. }
  split_and!.
  - apply Hask. unfold create_remote_directory. apply asks_after; [auto with silent|]. intros _. apply asks_session, asks_create_directory.
  - apply Hask. unfold create_remote_file. apply asks_after; [auto with silent|]. intros _. apply asks_session, asks_create_file.
  - apply Hask. unfold rename_remote_path. repeat (apply asks_after; [auto with silent|]; intros _). apply asks_session, asks_rename_path.
  - apply Hask. unfold write_remote_file. repeat (apply asks_after; [auto with silent|]; intros _). apply asks_then; [|auto with silent].
    apply asks_session, asks_write_file.
  - intros Hv. unfold create_remote_directory, rename_remote_path, io_bind, io_lift. by destruct (validate_mutation_path path) as [[]|e].
  - intros Hsame. unfold rename_remote_path, io_bind, io_lift. destruct (validate_mutation_path path); [|done].
    destruct (validate_mutation_path destination); [|done]. unfold ensure_same_parent. destruct Hsame as [Hp| ->].
    + by rewrite bool_decide_eq_false_2.
    + rewrite (bool_decide_eq_true_2 (remote_parent destination = remote_parent destination)) by done. cbn [negb bail_if].
      by rewrite bool_decide_eq_true_2.
Qed.

(** ** A concrete removal *)
Module Examples.

Definition app_root : str := lit "/srv/app".
Definition file (n : Z) : Attrs := mk_attrs KRegular n (Some 1).
Definition link : Attrs := mk_attrs KSymlink 0 None.
Definition tree0 : Sftp.Model.tree :=
  {[ (true, [lit "srv"]) := Sftp.Model.directory_attrs; (true, [lit "srv"; lit "app"]) := Sftp.Model.directory_attrs;
     (true, [lit "srv"; lit "app"; lit "a"]) := file 3; (true, [lit "srv"; lit "app"; lit "d"]) := Sftp.Model.directory_attrs;
     (true, [lit "srv"; lit "app"; lit "d"; lit "b"]) := link; (true, [lit "srv"; lit "other"]) := file 4 ]}.
Definition nodes0 : list (list str) := [ [lit "a"]; [lit "d"]; [lit "d"; lit "b"] ].

Example removal_runs :
  (match plan_remote_tree_removal app_root 10 tree0 with
   | (Ok plan, t) => (remove_remote_tree plan 10 t).1
   | (Err e, _) => Err e
   end) = Ok (mk_delete_summary 1 2 1).
Proof. by vm_compute. Qed.

Lemma tree0_keys l : is_Some (lookup_entry tree0 l) → l.2 = [] ∨ l ∈ (map_to_list tree0).*1.
Proof.
  intros [a Ha]. destruct l as [b ws]. destruct (decide (ws = [])) as [->|Hne]; [by left|right].
  apply lookup_node_raw in Ha; [|done]. apply map_lookup_filter_Some in Ha as [Ha _].
  apply list_elem_of_fmap. exists ((b, ws), a). split; [done|]. by apply elem_of_map_to_list.
Qed.

Lemma nodes0_all x : x ∈ nodes0 ↔ is_node tree0 app_root x ∧ x ≠ [].
Proof.
  assert (Hloc : loc_of app_root = (true, [lit "srv"; lit "app"])) by by vm_compute.
  unfold is_node, attrs_at. rewrite Hloc. cbn [fst snd app]. split.
  - unfold nodes0. rewrite !elem_of_cons. intros [->|[->|[->|[]%elem_of_nil]]]; (split; [|done]); eexists; vm_compute; reflexivity.
  - intros [Hn Hne]. assert (Hs : is_Some (lookup_entry tree0 (true, lit "srv" :: lit "app" :: x))).
    { destruct Hn as [a' Ha']. change (file_attributes <$> lookup_entry tree0 (true, lit "srv" :: lit "app" :: x) = Some a') in Ha'.
      apply fmap_Some in Ha' as (a & Ha & _). by exists a. }
    apply tree0_keys in Hs as [?|Hin]; [done|].
    assert (Hkeys : ∀ l, l ∈ (map_to_list tree0).*1 → l.2 = [lit "srv"] ∨ l.2 = [lit "srv"; lit "app"] ∨ (l.2 = [lit "srv"; lit "other"]) ∨
      ∃ y, y ∈ nodes0 ∧ l.2 = lit "srv" :: lit "app" :: y).
    { assert (Hf : Forall (λ l : loc, l.2 = [lit "srv"] ∨ l.2 = [lit "srv"; lit "app"] ∨ (l.2 = [lit "srv"; lit "other"]) ∨
        Exists (λ y, l.2 = lit "srv" :: lit "app" :: y) nodes0) (map_to_list tree0).*1) by (apply (bool_decide_unpack _); by vm_compute).
      intros l Hl. apply (proj1 (Forall_forall _ _) Hf) in Hl. rewrite Exists_exists in Hl. naive_solver. }
    apply Hkeys in Hin. cbn [snd] in Hin. destruct Hin as [[=]|[[= ->]|[[= Hc _]|(y & Hy & [= ->])]]]; done.
Qed.

Lemma recursive_removal_exact_witness :
  ∃ plan s', plan_remote_tree_removal app_root 10 tree0 = (Ok plan, tree0) ∧
    remove_remote_tree plan 10 tree0 = (Ok (mk_delete_summary 1 2 1), s').
Proof.
  destruct (recursive_removal_exact tree0 app_root 10 nodes0) as (plan & s' & Hplan & Hrm & _).
  - by vm_compute.
  - by vm_compute.
  - apply (bool_decide_unpack _). by vm_compute.
  - exact nodes0_all.
  - assert (Hf : Forall (λ x, node_type tree0 app_root x ≠ ROther) nodes0) by (apply (bool_decide_unpack _); by vm_compute).
    intros x Hx. by apply (proj1 (Forall_forall _ _) Hf).
  - split; vm_compute; discriminate.
  - exists plan, s'. split; [exact Hplan|exact Hrm].
Defined.
End Examples.
