(* ===== verification/Program.v ===== *)
(** * Concurrent programs over requests

    The recursive transfers run many file transfers at once, against a server and a
    disk that other processes change too.  Such a program is a tree of requests:
    at every request any answer is possible.  What it may ask for and what it
    promises is a weakest precondition against a [monitor], an automaton that
    watches the requests and their answers.

    [JoinSet] is a main program with more requests (spawn a task, the number of
    tasks, the next result) beside the tasks it spawned, interleaved at every
    request; a theorem about each program alone is one about all interleavings. *)

From stdpp Require Import base list gmap strings numbers sorting relations.
From Stdlib Require Import Lia.
From S2P Require Import Prelude.

(** ** Requests and programs *)
Record interface := Interface { request :> Type; answer : request → Type }.
Arguments answer {_} _.

Inductive prog (E : interface) (A : Type) : Type :=
| Done (r : result A)
| Ask (q : E) (k : answer q → prog E A).
Arguments Done {E A} r.
Arguments Ask {E A} q k.

Section prog.
Context {E : interface}.

Fixpoint p_bind {A B} (p : prog E A) (f : A → prog E B) : prog E B :=
  match p with
  | Done (Ok a) => f a
  | Done (Err e) => Done (Err e)
  | Ask q k => Ask q (λ r, p_bind (k r) f)
  end.
Definition p_ret {A} (a : A) : prog E A := Done (Ok a).
Definition p_err {A} (e : string) : prog E A := Done (Err e).
Definition ask (q : E) : prog E (answer q) := Ask q (λ r, Done (Ok r)).

(** Continuing with the result, error included. *)
Fixpoint p_try {A} (p : prog E A) : prog E (result A) :=
  match p with Done r => Done (Ok r) | Ask q k => Ask q (λ r, p_try (k r)) end.

Definition in_context {A} (e : string) (r : result A) : result A :=
  match r with Ok a => Ok a | Err _ => Err e end.
(** [.with_context(…)] on the error. *)
Fixpoint p_context {A} (e : string) (p : prog E A) : prog E A :=
  match p with Done r => Done (in_context e r) | Ask q k => Ask q (λ r, p_context e (k r)) end.

End prog.

Declare Scope prog_scope.
Delimit Scope prog_scope with prog.
Notation "x ⇐ c ; k" := (p_bind c (λ x, k)) (at level 20, c at level 100, k at level 200, right associativity) : prog_scope.
Notation "c ;; k" := (p_bind c (λ _, k)) (at level 100, k at level 200, right associativity) : prog_scope.

Fixpoint p_for_each {E A} (f : A → prog E unit) (l : list A) : prog E unit :=
  match l with [] => p_ret tt | x :: l => p_bind (f x) (λ _, p_for_each f l) end.

(** [for x in l { acc = … }] with early returns. *)
Fixpoint p_fold {E A B} (f : B → A → prog E B) (acc : B) (l : list A) : prog E B :=
  match l with [] => p_ret acc | x :: l => p_bind (f acc x) (λ acc, p_fold f acc l) end.

(** ** Monitors and weakest preconditions *)

(** [allowed] is what a program must keep to; [step] the answers it may get, and
    what they do to the watched state. *)
Record monitor (E : interface) (G : Type) := Monitor {
  allowed : E → G → Prop;
  step : ∀ q : E, answer q → G → G → Prop;
}.
Arguments Monitor {E G} _ _.
Arguments allowed {E G} _ _ _.
Arguments step {E G} _ _ _ _ _.

(** A monitor of single requests. *)
Definition only {E : interface} (P : E → Prop) : monitor E unit := Monitor (λ q _, P q) (λ _ _ _ _, True).

Section wp.
Context {E : interface} {G : Type} (m : monitor E G).

Fixpoint wp {A} (p : prog E A) (Q : result A → G → Prop) (g : G) : Prop :=
  match p with
  | Done r => Q r g
  | Ask q k => allowed m q g ∧ ∀ r g', step m q r g g' → wp (k r) Q g'
  end.

Lemma wp_mono {A} (p : prog E A) (Q Q' : result A → G → Prop) g :
  wp p Q g → (∀ r g, Q r g → Q' r g) → wp p Q' g.
Proof.
  intros Hp HQ. revert g Hp. induction p as [r|q k IH]; cbn; intros g; [apply HQ|].
  intros [Ha Hk]. split; [done|]. intros r g' Hr. by apply IH, Hk.
Qed.

Lemma wp_bind {A B} (p : prog E A) (f : A → prog E B) Q g :
  wp (p_bind p f) Q g ↔ wp p (λ r g, match r with Ok a => wp (f a) Q g | Err e => Q (Err e) g end) g.
Proof.
  revert g. induction p as [[a|e]|q k IH]; cbn; intros g; [done..|].
  split; (intros [Ha Hk]; split; [done|]; intros r g' Hr; by apply IH, Hk).
Qed.

Lemma wp_ask_bind {B} (q : E) (f : answer q → prog E B) Q g :
  wp (p_bind (ask q) f) Q g ↔ allowed m q g ∧ ∀ r g', step m q r g g' → wp (f r) Q g'.
Proof. done. Qed.
Lemma wp_done {A} (r : result A) Q g : wp (Done r) Q g ↔ Q r g.
Proof. done. Qed.
(** A pure check. *)
Lemma wp_done_bind {A B} (r : result A) (f : A → prog E B) Q g :
  wp (p_bind (Done r) f) Q g ↔ match r with Ok a => wp (f a) Q g | Err e => Q (Err e) g end.
Proof. by destruct r. Qed.

Lemma wp_try {A} (p : prog E A) Q g : wp (p_try p) Q g ↔ wp p (λ r g, Q (Ok r) g) g.
Proof.
  revert g. induction p as [r|q k IH]; cbn; intros g; [done|].
  split; (intros [Ha Hk]; split; [done|]; intros r g' Hr; by apply IH, Hk).
Qed.

Lemma wp_context {A} e (p : prog E A) Q g : wp (p_context e p) Q g ↔ wp p (λ r g, Q (in_context e r) g) g.
Proof.
  revert g. induction p as [r|q k IH]; cbn; intros g; [done|].
  split; (intros [Ha Hk]; split; [done|]; intros r g' Hr; by apply IH, Hk).
Qed.

Lemma wp_for_each {A} (I : list A → G → Prop) (f : A → prog E unit) (Q : result unit → G → Prop) l g :
  I l g → (∀ g, I [] g → Q (Ok tt) g) →
  (∀ x l' g, x ∈ l → I (x :: l') g → wp (f x) (λ r g, match r with Ok _ => I l' g | Err e => Q (Err e) g end) g) →
  wp (p_for_each f l) Q g.
Proof.
  intros HI HQ Hf. revert g HI. induction l as [|x l IH]; cbn [p_for_each]; intros g HI; [by apply HQ|].
  rewrite wp_bind. eapply wp_mono; [apply Hf; [by left|done]|]. cbn. intros [[]|e] g'; [|done].
  intros HI'. apply IH; [|done]. intros y l' g'' Hy. apply Hf. by right.
Qed.

Lemma wp_fold {A B} (I : B → G → Prop) (f : B → A → prog E B) (Q : result B → G → Prop) acc l g :
  I acc g → (∀ acc g, I acc g → Q (Ok acc) g) →
  (∀ acc x g, x ∈ l → I acc g → wp (f acc x) (λ r g, match r with Ok acc => I acc g | Err e => Q (Err e) g end) g) →
  wp (p_fold f acc l) Q g.
Proof.
  intros HI HQ Hf. revert acc g HI. induction l as [|x l IH]; cbn [p_fold]; intros acc g HI; [by apply HQ|].
  rewrite wp_bind. eapply wp_mono; [apply Hf; [by left|done]|]. cbn. intros [acc'|e] g'; [|done].
  intros HI'. apply IH; [|done]. intros acc'' y g'' Hy. apply Hf. by right.
Qed.
End wp.

(** A monitor that allows more. *)
Lemma wp_allow {E : interface} {G A} (ok ok' : E → G → Prop) step (p : prog E A) Q g :
  (∀ q g, ok q g → ok' q g) → wp (Monitor ok step) p Q g → wp (Monitor ok' step) p Q g.
Proof.
  intros Hok. revert g. induction p as [r|q k IH]; cbn; intros g; [done|]. intros [Ha Hk]. split; [by apply Hok|].
  intros r g' Hr. by apply IH, Hk.
Qed.

(** Programs that keep to [P], whatever the answers. *)
Definition keeps {E : interface} {A} (P : E → Prop) (p : prog E A) : Prop := wp (only P) p (λ _ _, True) tt.

Section keeps.
Context {E : interface} (P : E → Prop).

Lemma keeps_done {A} (r : result A) : keeps P (Done r).
Proof. done. Qed.
Lemma keeps_ask q : P q → keeps P (ask q).
Proof. done. Qed.
Lemma keeps_bind_with {A B} (p : prog E A) (f : A → prog E B) :
  wp (only P) p (λ r _, match r with Ok a => keeps P (f a) | Err _ => True end) tt → keeps P (p_bind p f).
Proof. intros Hp. unfold keeps. rewrite wp_bind. eapply wp_mono; [exact Hp|]. by intros [a|e] []. Qed.
Lemma keeps_bind {A B} (p : prog E A) (f : A → prog E B) : keeps P p → (∀ a, keeps P (f a)) → keeps P (p_bind p f).
Proof. intros Hp Hf. apply keeps_bind_with. eapply wp_mono; [exact Hp|]. intros [a|e] [] _; [apply Hf|done]. Qed.
Lemma keeps_try {A} (p : prog E A) : keeps P p → keeps P (p_try p).
Proof. intros Hp. unfold keeps. rewrite wp_try. exact Hp. Qed.
Lemma keeps_context {A} e (p : prog E A) : keeps P p → keeps P (p_context e p).
Proof. intros Hp. unfold keeps. rewrite wp_context. exact Hp. Qed.
Lemma keeps_for_each {A} (f : A → prog E unit) l : (∀ x, x ∈ l → keeps P (f x)) → keeps P (p_for_each f l).
Proof.
  induction l as [|x l IH]; intros Hf; [apply keeps_done|]. cbn. apply keeps_bind; [apply Hf; by left|].
  intros _. apply IH. intros y Hy. apply Hf. by right.
Qed.
Lemma keeps_fold {A B} (f : B → A → prog E B) acc l : (∀ acc x, x ∈ l → keeps P (f acc x)) → keeps P (p_fold f acc l).
Proof.
  revert acc. induction l as [|x l IH]; intros acc Hf; [apply keeps_done|]. cbn. apply keeps_bind; [apply Hf; by left|].
  intros acc'. apply IH. intros acc'' y Hy. apply Hf. by right.
Qed.
Lemma keeps_weaken {A} (P' : E → Prop) (p : prog E A) : keeps P p → (∀ q, P q → P' q) → keeps P' p.
Proof.
  unfold keeps. intros Hp HP. revert Hp. induction p as [r|q k IH]; cbn; [done|]. intros [Ha Hk]. split; [by apply HP|].
  intros r [] _. by apply IH, (Hk r tt).
Qed.
End keeps.

Create HintDb keeps.
#[export] Hint Resolve keeps_done keeps_ask keeps_bind keeps_try keeps_context : keeps.

(** One step into a program that keeps to a predicate. *)
Ltac keeps_step :=
  match goal with
  | |- ∀ _, _ => intros ?
  | |- keeps _ (Done _) => apply keeps_done
  | |- keeps _ (p_ret _) => apply keeps_done
  | |- keeps _ (p_err _) => apply keeps_done
  | |- keeps _ (ask _) => apply keeps_ask
  | |- keeps _ (p_bind _ _) => apply keeps_bind
  | |- keeps _ (p_try _) => apply keeps_try
  | |- keeps _ (p_context _ _) => apply keeps_context
  | |- keeps _ (match ?x with _ => _ end) => destruct x
  | |- keeps _ _ => solve [eauto with keeps]
  end.
Ltac keeps := repeat (cbv zeta; keeps_step).

(** ** Running a program against the world *)
Section run.
Context {E : interface} {W : Type} (serve : ∀ q : E, W → answer q * W).

Fixpoint run {A} (p : prog E A) (w : W) : result A * W :=
  match p with
  | Done r => (r, w)
  | Ask q k => let '(r, w') := serve q w in run (k r) w'
  end.

Lemma run_bind {A B} (p : prog E A) (f : A → prog E B) w :
  run (p_bind p f) w = match run p w with (Ok a, w') => run (f a) w' | (Err e, w') => (Err e, w') end.
Proof. revert w. induction p as [[a|e]|q k IH]; cbn; intros w; [done..|]. destruct (serve q w) as [r w']. apply IH. Qed.

Lemma run_try {A} (p : prog E A) w : run (p_try p) w = let '(r, w') := run p w in (Ok r, w').
Proof. revert w. induction p as [r|q k IH]; cbn; intros w; [done|]. destruct (serve q w) as [r w']. apply IH. Qed.

Lemma run_context {A} e (p : prog E A) w : run (p_context e p) w = let '(r, w') := run p w in (in_context e r, w').
Proof. revert w. induction p as [r|q k IH]; cbn; intros w; [done|]. destruct (serve q w) as [r w']. apply IH. Qed.

(** What holds for every answer holds for those of the world. *)
Lemma run_wp {G A} (m : monitor E G) (R : W → G → Prop) (p : prog E A) Q w g :
  (∀ q w g r w', R w g → allowed m q g → serve q w = (r, w') → ∃ g', step m q r g g' ∧ R w' g') →
  R w g → wp m p Q g → ∃ g', R (run p w).2 g' ∧ Q (run p w).1 g'.
Proof.
  intros Hserve. revert w g. induction p as [r|q k IH]; cbn; intros w g HR.
  - intros HQ. by exists g.
  - intros [Ha Hk]. destruct (serve q w) as [r w'] eqn:Hs. destruct (Hserve q w g r w' HR Ha Hs) as (g' & Hp & HR').
    apply (IH r w' g' HR'). by apply Hk.
Qed.
End run.

(** ** Task sets *)
Section pool.
Context (E : interface) (T V : Type).

Inductive pool_request := Sys (q : E) | Spawn (t : T) | Len | JoinNext.
Definition pooled : interface := Interface pool_request (λ q,
  match q with Sys q => answer q | Spawn _ => unit | Len => Z | JoinNext => option (result V) end).

(** A program of the interface [E] inside the main program. *)
Fixpoint sys {A} (p : prog E A) : prog pooled A :=
  match p with Done r => Done r | Ask q k => Ask (E := pooled) (Sys q) (λ r, sys (k r)) end.

(** The history of a task set: what it spawned, and the results it handed out. *)
Record history := mk_history { spawned : list T; joined : list (result V) }.
Definition tasks_left (h : history) : Z := zlen (spawned h) - zlen (joined h).

(** What the main program keeps to, and what a [JoinSet] promises it. *)
Definition pool_allowed (sys_ok : E → Prop) (spawn_ok : T → history → Prop) (q : pool_request) (h : history) : Prop :=
  match q with Sys q => sys_ok q | Spawn t => spawn_ok t h | Len | JoinNext => True end.
Definition pool_answers (result_ok : result V → Prop) (q : pool_request) : answer (i := pooled) q → history → history → Prop :=
  match q with
  | Sys _ => λ _ h h', h' = h
  | Spawn t => λ _ h h', h' = mk_history (spawned h ++ [t]) (joined h)
  | Len => λ n h h', n = tasks_left h ∧ h' = h
  | JoinNext => λ r h h',
      match r with
      | Some r => 0 < tasks_left h ∧ result_ok r ∧ h' = mk_history (spawned h) (joined h ++ [r])
      | None => tasks_left h = 0 ∧ h' = h
      end
  end.
Definition pool_monitor (sys_ok : E → Prop) (spawn_ok : T → history → Prop) (result_ok : result V → Prop)
    : monitor pooled history :=
  Monitor (E := pooled) (pool_allowed sys_ok spawn_ok) (pool_answers result_ok).

Lemma wp_sys {A} sys_ok spawn_ok result_ok (p : prog E A) Q h :
  wp (only sys_ok) p (λ r _, Q r h) tt → wp (pool_monitor sys_ok spawn_ok result_ok) (sys p) Q h.
Proof. induction p as [r|q k IH]; cbn; [done|]. intros [Ha Hk]. split; [done|]. intros r h' ->. by apply IH, (Hk r tt). Qed.

(** What holds whatever the tasks report. *)
Lemma wp_pool_results {A} sys_ok spawn_ok (any result_ok : result V → Prop) (p : prog pooled A) Q h :
  (∀ r, result_ok r → any r) →
  wp (pool_monitor sys_ok spawn_ok any) p Q h → wp (pool_monitor sys_ok spawn_ok result_ok) p Q h.
Proof.
  intros Hany. revert h. induction p as [r|q k IH]; cbn; intros h; [done|]. intros [Ha Hk]. split; [done|].
  intros r h' Hr. apply IH, Hk. destruct q as [q|t| |]; try done. change (option (result V)) in r. destruct r as [r|]; [|done].
  cbn in *. destruct Hr as (? & ? & ?). auto.
Qed.

(** *** Interleavings *)
Context (body : T → prog E V).
Context {W : Type} (serves : ∀ q : E, W → answer q → W → Prop).

Record pool (A : Type) := mk_pool {
  main : prog pooled A;
  running : list (T * prog E V);
  finished : list (T * result V);
}.
Arguments mk_pool {A}.
Arguments main {A}.
Arguments running {A}.
Arguments finished {A}.

(** Who asked for what. *)
Inductive pool_event := MainAsked (q : E) | TaskAsked (t : T) (q : E) | Spawned (t : T) | Joined (t : T) (r : result V).

Inductive pool_step {A} : pool A * W → option pool_event → pool A * W → Prop :=
| main_asks q k run fin w r w' :
    serves q w r w' →
    pool_step (mk_pool (Ask (E := pooled) (Sys q) k) run fin, w) (Some (MainAsked q)) (mk_pool (k r) run fin, w')
| main_spawns t k run fin w :
    pool_step (mk_pool (Ask (E := pooled) (Spawn t) k) run fin, w) (Some (Spawned t)) (mk_pool (k tt) (run ++ [(t, body t)]) fin, w)
| main_counts k run fin w :
    pool_step (mk_pool (Ask (E := pooled) Len k) run fin, w) None (mk_pool (k (zlen run + zlen fin)) run fin, w)
| main_joins k run pre t r post w :
    pool_step (mk_pool (Ask (E := pooled) JoinNext k) run (pre ++ (t, r) :: post), w) (Some (Joined t r))
      (mk_pool (k (Some r)) run (pre ++ post), w)
| main_joins_none k w :
    pool_step (mk_pool (Ask (E := pooled) JoinNext k) [] [], w) None (mk_pool (k None) [] [], w)
| task_asks m pre t q k post fin w r w' :
    (∀ res, m ≠ Done res) → serves q w r w' →
    pool_step (mk_pool m (pre ++ (t, Ask q k) :: post) fin, w) (Some (TaskAsked t q)) (mk_pool m (pre ++ (t, k r) :: post) fin, w')
| task_ends m pre t r post fin w :
    (∀ res, m ≠ Done res) →
    pool_step (mk_pool m (pre ++ (t, Done r) :: post) fin, w) None (mk_pool m (pre ++ post) (fin ++ [(t, r)]), w).
(* The set is dropped, and its tasks aborted, when the main program ends. *)

Inductive pool_run {A} (c : pool A * W) : list pool_event → pool A * W → Prop :=
| run_none : pool_run c [] c
| run_more tr c' e c'' : pool_run c tr c' → pool_step c' e c'' → pool_run c (tr ++ option_list e) c''.

(** What the events so far did to the set. *)
Definition event_history (h : history) (e : pool_event) : history :=
  match e with
  | Spawned t => mk_history (spawned h ++ [t]) (joined h)
  | Joined _ r => mk_history (spawned h) (joined h ++ [r])
  | _ => h
  end.
Definition history_of (tr : list pool_event) : history := foldl event_history (mk_history [] []) tr.

Section safe.
Context (sys_ok : E → Prop) (spawn_ok : T → history → Prop) (task_ok : T → E → Prop) (result_ok : T → result V → Prop).
Context (body_ok : ∀ t h, spawn_ok t h → wp (only (task_ok t)) (body t) (λ r _, result_ok t r) tt).

Definition event_ok (e : pool_event) (h : history) : Prop :=
  match e with
  | MainAsked q => sys_ok q
  | TaskAsked t q => task_ok t q
  | Spawned t => spawn_ok t h
  | Joined t r => result_ok t r
  end.
Definition events_ok (tr : list pool_event) : Prop :=
  ∀ before e after, tr = before ++ e :: after → event_ok e (history_of before).

Definition any_result (r : result V) : Prop := ∃ t, result_ok t r.

Record pool_inv {A} (Q : result A → history → Prop) (c : pool A * W) (tr : list pool_event) : Prop := {
  pi_events : events_ok tr;
  pi_main : wp (pool_monitor sys_ok spawn_ok any_result) (main c.1) Q (history_of tr);
  pi_running : Forall (λ '(t, p), wp (only (task_ok t)) p (λ r _, result_ok t r) tt) (running c.1);
  pi_finished : Forall (λ '(t, r), result_ok t r) (finished c.1);
  pi_count : tasks_left (history_of tr) = zlen (running c.1) + zlen (finished c.1);
}.

Lemma events_ok_snoc tr e : events_ok tr → event_ok e (history_of tr) → events_ok (tr ++ [e]).
Proof.
  intros Htr He before e' after Heq. destruct after as [|x after _] using rev_ind.
  - by apply app_inj_tail in Heq as [-> ->].
  - rewrite app_comm_cons, app_assoc in Heq. apply app_inj_tail in Heq as [-> _]. by eapply Htr.
Qed.

Lemma history_snoc tr e : history_of (tr ++ [e]) = event_history (history_of tr) e.
Proof. unfold history_of. by rewrite foldl_app. Qed.

Lemma pool_inv_step {A} (Q : result A → history → Prop) c tr e c' :
  pool_inv Q c tr → pool_step c e c' → pool_inv Q c' (tr ++ option_list e).
Proof.
  intros [Hev Hm Hr Hf Hc] Hstep.
  destruct Hstep as [q k run fin w r w' Hs|t k run fin w|k run fin w|k run pre t r post w|k w
    |m pre t q k post fin w r w' _ Hs|m pre t r post fin w _]; cbn in *; rewrite ?app_nil_r.
  - destruct Hm as [Ha Hk]. split; rewrite ?history_snoc; try done; [by apply events_ok_snoc|]. by apply (Hk r).
  - destruct Hm as [Ha Hk]. split; rewrite ?history_snoc; try done; [by apply events_ok_snoc|by apply (Hk tt _ eq_refl)| |].
    + apply Forall_app. split; [done|]. constructor; [|done]. by eapply body_ok.
    + cbn. unfold tasks_left in *. cbn. rewrite !length_app. cbn. lia.
  - destruct Hm as [_ Hk]. split; try done. apply (Hk (zlen run + zlen fin)). split; [by unfold tasks_left in *|done].
  - destruct Hm as [_ Hk]. apply Forall_app in Hf as [Hpre [Hres Hpost]%Forall_cons].
    rewrite length_app in Hc. cbn in Hc. split; rewrite ?history_snoc; cbn; try done.
    + by apply events_ok_snoc.
    + apply (Hk (Some r)). split_and!; [lia|by exists t|done].
    + by apply Forall_app.
    + unfold tasks_left in *. cbn. rewrite !length_app. cbn. lia.
  - destruct Hm as [_ Hk]. split; try done. apply (Hk None). split; [cbn in *; lia|done].
  - apply Forall_app in Hr as [Hpre [[Ha Hk] Hpost]%Forall_cons]. split; rewrite ?history_snoc; try done.
    + by apply events_ok_snoc.
    + apply Forall_app. split; [done|]. constructor; [|done]. by apply Hk.
    + cbn. rewrite !length_app in *. cbn in *. lia.
  - apply Forall_app in Hr as [Hpre [Hres Hpost]%Forall_cons]. split; try done.
    + by apply Forall_app.
    + apply Forall_app. split; [done|]. by constructor.
    + cbn. rewrite !length_app in *. cbn in *. lia.
Qed.

(** Every interleaving keeps to what the programs keep to. *)
Lemma pool_safe {A} (p : prog pooled A) Q w tr c :
  wp (pool_monitor sys_ok spawn_ok any_result) p Q (mk_history [] []) →
  pool_run (mk_pool p [] [], w) tr c → pool_inv Q c tr.
Proof.
  intros Hp. induction 1 as [|tr c' e c'' _ IH Hstep].
  - split; cbn; [by intros [] ? ?|done|constructor|constructor|done].
  - by eapply pool_inv_step.
Qed.
End safe.

(** *** What the main program learned

    The exchanges of the main program in order, answers included, in a world that its
    tasks change too. *)
Section logged.
Definition log : Type := list {q : E & answer q}.
Context (sys_ok : E → log → Prop) (spawn_ok : T → history → log → Prop) (task_ok : T → E → Prop).
Context (body_ok : ∀ t h l, spawn_ok t h l → keeps (task_ok t) (body t)).

(** The log after a request. *)
Definition log_after (q : pool_request) : answer (i := pooled) q → log → log :=
  match q with Sys q => λ r l, l ++ [existT q r] | _ => λ _ l, l end.
Definition logged_monitor : monitor pooled (history * log) :=
  Monitor (E := pooled) (λ q g, pool_allowed (λ q, sys_ok q g.2) (λ t h, spawn_ok t h g.2) q g.1)
    (λ q r g g', pool_answers (λ _, True) q r g.1 g'.1 ∧ g'.2 = log_after q r g.2).
(** Its requests to the system alone. *)
Definition logging : monitor E log := Monitor sys_ok (λ q r l l', l' = l ++ [existT q r]).

(** A trace, the world after it and what the main program was told on the way. *)
Inductive watched (w0 : W) : list pool_event → W → log → Prop :=
| watch_start : watched w0 [] w0 []
| watch_main tr w l q r w' : watched w0 tr w l → serves q w r w' → watched w0 (tr ++ [MainAsked q]) w' (l ++ [existT q r])
| watch_task tr w l t q r w' : watched w0 tr w l → serves q w r w' → watched w0 (tr ++ [TaskAsked t q]) w' l
| watch_spawn tr w l t : watched w0 tr w l → watched w0 (tr ++ [Spawned t]) w l
| watch_join tr w l t r : watched w0 tr w l → watched w0 (tr ++ [Joined t r]) w l.

Definition logged_ok (e : pool_event) (h : history) (l : log) : Prop :=
  match e with
  | MainAsked q => sys_ok q l
  | TaskAsked t q => task_ok t q
  | Spawned t => spawn_ok t h l
  | Joined _ _ => True
  end.
Definition logged_events_ok (w0 : W) (tr : list pool_event) : Prop :=
  ∀ before e after, tr = before ++ e :: after → ∃ w l, watched w0 before w l ∧ logged_ok e (history_of before) l.

Lemma wp_sys_logged {A} (p : prog E A) Q h l : wp logging p (λ r l', Q r (h, l')) l → wp logged_monitor (sys p) Q (h, l).
Proof.
  revert l. induction p as [r|q k IH]; cbn; intros l; [done|]. intros [Ha Hk]. split; [done|].
  intros r [h' l'] [Hh Hl]. cbn in Hh, Hl. subst h' l'. by apply IH, Hk.
Qed.

(** A part that asks only its task set. *)
Lemma wp_pool_logged {A} (may : T → history → Prop) (p : prog pooled A) Q h l :
  (∀ t h, may t h → spawn_ok t h l) → wp (pool_monitor (λ _, False) may (λ _, True)) p Q h →
  wp logged_monitor p (λ r g, g.2 = l ∧ Q r g.1) (h, l).
Proof.
  intros Hmay. revert h. induction p as [r|q k IH]; cbn; intros h; [done|]. intros [Ha Hk]. split.
  - destruct q; cbn in *; [done|by apply Hmay|done..].
  - intros r [h' l'] [Hr Hl]. cbn in *. destruct q; cbn in *; [done|subst l'..]; by apply IH, Hk.
Qed.

Record logged_inv {A} (Q : result A → history * log → Prop) (w0 : W) (c : pool A * W) (tr : list pool_event) : Prop := {
  li_events : logged_events_ok w0 tr;
  li_main : ∃ l, watched w0 tr c.2 l ∧ wp logged_monitor (main c.1) Q (history_of tr, l);
  li_running : Forall (λ '(t, p), keeps (task_ok t) p) (running c.1);
  li_count : tasks_left (history_of tr) = zlen (running c.1) + zlen (finished c.1);
}.

Lemma logged_events_snoc w0 tr e w l :
  logged_events_ok w0 tr → watched w0 tr w l → logged_ok e (history_of tr) l → logged_events_ok w0 (tr ++ [e]).
Proof.
  intros Htr Hw He before e' after Heq. destruct after as [|x after _] using rev_ind.
  - apply app_inj_tail in Heq as [-> ->]. by exists w, l.
  - rewrite app_comm_cons, app_assoc in Heq. apply app_inj_tail in Heq as [-> _]. by eapply Htr.
Qed.

Lemma logged_inv_step {A} (Q : result A → history * log → Prop) w0 c tr e c' :
  logged_inv Q w0 c tr → pool_step c e c' → logged_inv Q w0 c' (tr ++ option_list e).
Proof.
  intros [Hev (l & Hw & Hm) Hr Hc] Hstep.
  destruct Hstep as [q k run fin w r w' Hs|t k run fin w|k run fin w|k run pre t r post w|k w
    |m pre t q k post fin w r w' _ Hs|m pre t r post fin w _]; cbn in *; rewrite ?app_nil_r.
  - destruct Hm as [Ha Hk]. split; rewrite ?history_snoc; try done; [by eapply logged_events_snoc|].
    exists (l ++ [existT q r]). split; [by econstructor|]. by apply (Hk r).
  - destruct Hm as [Ha Hk]. split; rewrite ?history_snoc; cbn.
    + by eapply logged_events_snoc.
    + exists l. split; [by constructor|]. by apply (Hk tt (mk_history (spawned (history_of tr) ++ [t]) (joined (history_of tr)), l)).
    + apply Forall_app. split; [done|]. constructor; [|done]. by eapply body_ok.
    + unfold tasks_left in *. cbn. rewrite !length_app. cbn. lia.
  - destruct Hm as [_ Hk]. split; try done. exists l. split; [done|]. by apply (Hk (zlen run + zlen fin) (history_of tr, l)).
  - destruct Hm as [_ Hk]. rewrite length_app in Hc. cbn in Hc. split; rewrite ?history_snoc; cbn; try done.
    + by eapply logged_events_snoc.
    + exists l. split; [by constructor|]. apply (Hk (Some r) (mk_history (spawned (history_of tr)) (joined (history_of tr) ++ [r]), l)).
      cbn -[tasks_left]. split_and!; [lia|done..].
    + unfold tasks_left in *. cbn. rewrite !length_app. cbn. lia.
  - destruct Hm as [_ Hk]. split; try done. exists l. split; [done|]. apply (Hk None (history_of tr, l)). split; [split; [|done]|done]. cbn in *. lia.
  - apply Forall_app in Hr as [Hpre [[Ha Hk] Hpost]%Forall_cons]. split; rewrite ?history_snoc; try done.
    + by eapply logged_events_snoc.
    + exists l. split; [by econstructor|done].
    + apply Forall_app. split; [done|]. constructor; [|done]. by apply (Hk r tt).
    + cbn. rewrite !length_app in *. cbn in *. lia.
  - apply Forall_app in Hr as [Hpre [Hres Hpost]%Forall_cons]. split; try done.
    + by exists l.
    + by apply Forall_app.
    + cbn. rewrite !length_app in *. cbn in *. lia.
Qed.

(** Every interleaving keeps to what the programs keep to, knowing what the main one was told. *)
Lemma pool_logged {A} (p : prog pooled A) Q w tr c :
  wp logged_monitor p Q (mk_history [] [], []) → pool_run (mk_pool p [] [], w) tr c → logged_inv Q w c tr.
Proof.
  intros Hp. induction 1 as [|tr c' e c'' _ IH Hstep].
  - split; cbn; [by intros [] ? ?| |constructor|done]. exists []. split; [constructor|done].
  - by eapply logged_inv_step.
Qed.
End logged.

(** *** What one task asks over a run

    Tasks that are told apart by a [key]: the requests of each are those that its monitor
    allows, one after the other, and when it is joined it has ended as it must. *)
Inductive monitored {G} (m : monitor E G) (g : G) : list E → G → Prop :=
| monitored_start : monitored m g [] g
| monitored_on qs q r g1 g2 : monitored m g qs g1 → allowed m q g1 → step m q r g1 g2 → monitored m g (qs ++ [q]) g2.

Section follows.
Context {K : Type} `{EqDecision K} (key : T → K).
Context {G : Type} (m : T → monitor E G) (start : T → G) (ends : T → result V → G → Prop).
Context (answered : ∀ t q r g, allowed (m t) q g → ∃ g', step (m t) q r g g').

Definition asks_of (k : K) (tr : list pool_event) : list E :=
  omap (λ e, match e with TaskAsked t q => if decide (key t = k) then Some q else None | _ => None end) tr.
Definition joined_tasks (tr : list pool_event) : list (T * result V) :=
  omap (λ e, match e with Joined t r => Some (t, r) | _ => None end) tr.
Definition has_asked (tr : list pool_event) (t : T) (p : prog E V) : Prop :=
  ∃ g, monitored (m t) (start t) (asks_of (key t) tr) g ∧ wp (m t) p (ends t) g.

Record follows {A} (c : pool A * W) (tr : list pool_event) : Prop := {
  fo_running : Forall (λ '(t, p), has_asked tr t p) (running c.1);
  fo_finished : Forall (λ '(t, r), has_asked tr t (Done r)) (finished c.1);
  fo_joined : Forall (λ '(t, r), has_asked tr t (Done r)) (joined_tasks tr);
  fo_keys : key <$> (running c.1).*1 ++ (finished c.1).*1 ++ (joined_tasks tr).*1 ≡ₚ key <$> spawned (history_of tr);
  fo_asked : ∀ t q, TaskAsked t q ∈ tr → key t ∈ key <$> spawned (history_of tr);
  fo_results : (joined_tasks tr).*2 = joined (history_of tr) }.

Lemma asks_snoc k tr e : asks_of k (tr ++ [e]) = asks_of k tr ++ match e with TaskAsked t q => if decide (key t = k) then [q] else [] | _ => [] end.
Proof. unfold asks_of. rewrite omap_app. f_equal. destruct e; cbn; try done. by case_decide. Qed.
Lemma joined_snoc tr e : joined_tasks (tr ++ [e]) = joined_tasks tr ++ match e with Joined t r => [(t, r)] | _ => [] end.
Proof. unfold joined_tasks. rewrite omap_app. f_equal. by destruct e. Qed.
Lemma asks_none k tr : (∀ t q, TaskAsked t q ∈ tr → key t ≠ k) → asks_of k tr = [].
Proof.
  intros Hk. induction tr as [|e tr IH]; [done|]. cbn. rewrite <-IH by (intros t q Hin; apply (Hk t q); by right).
  destruct e; try done. rewrite decide_False; [done|]. apply (Hk t q). by left.
Qed.
Lemma has_asked_other tr e t p : (∀ t' q, e = TaskAsked t' q → key t' ≠ key t) → has_asked tr t p → has_asked (tr ++ [e]) t p.
Proof.
  intros He (g & Hg & Hp). exists g. rewrite asks_snoc. split; [|done]. destruct e; rewrite ?app_nil_r; try done.
  rewrite decide_False by (by apply (He t0 q)). by rewrite app_nil_r.
Qed.

Lemma follows_other {A} (c c' : pool A * W) tr e :
  follows c tr → running c'.1 = running c.1 → finished c'.1 = finished c.1 →
  (∀ t q, e ≠ TaskAsked t q) → (∀ t, e ≠ Spawned t) → (∀ t r, e ≠ Joined t r) → follows c' (tr ++ [e]).
Proof.
  intros [Hr Hf Hj Hk Ha Hres] Hr' Hf' H1 H2 H3. assert (history_of (tr ++ [e]) = history_of tr) as Hh.
  { rewrite history_snoc. destruct e; try done; [by destruct (H2 t)|by destruct (H3 t r)]. }
  assert (joined_tasks (tr ++ [e]) = joined_tasks tr) as Hj'.
  { rewrite joined_snoc. destruct e; rewrite ?app_nil_r; try done. by destruct (H3 t r). }
  assert (∀ t p, has_asked tr t p → has_asked (tr ++ [e]) t p) as Hstill
    by (intros t p; apply has_asked_other; intros t' q ->; by destruct (H1 t' q)).
  split; rewrite ?Hr', ?Hf', ?Hh, ?Hj'; try done.
  - eapply Forall_impl; [exact Hr|]. intros []. apply Hstill.
  - eapply Forall_impl; [exact Hf|]. intros []. apply Hstill.
  - eapply Forall_impl; [exact Hj|]. intros []. apply Hstill.
  - intros t q [?|Hq%list_elem_of_singleton]%elem_of_app; [by apply (Ha t q)|]. by destruct (H1 t q).
Qed.

Lemma follows_step {A} (c : pool A * W) tr e c' :
  NoDup (key <$> spawned (history_of (tr ++ option_list e))) →
  (∀ t, e = Some (Spawned t) → wp (m t) (body t) (ends t) (start t)) →
  follows c tr → pool_step c e c' → follows c' (tr ++ option_list e).
Proof.
  intros Hnd Hbody Hfo Hstep.
  destruct Hstep as [q k run fin w r w' Hs|t k run fin w|k run fin w|k run pre t r post w|k w
    |ma pre t q k post fin w r w' _ Hs|ma pre t r post fin w _]; cbn [option_list] in *; rewrite ?app_nil_r.
  - by eapply follows_other.
  - destruct Hfo as [Hr Hf Hj Hk Ha Hres]. cbn in *. rewrite history_snoc in Hnd. cbn in Hnd. rewrite fmap_app in Hnd.
    assert (∀ t p, has_asked tr t p → has_asked (tr ++ [Spawned t]) t p) as _ by (intros; by apply has_asked_other).
    split; rewrite ?history_snoc, ?joined_snoc, ?app_nil_r; cbn.
    + apply Forall_app. split; [eapply Forall_impl; [exact Hr|]; intros []; by apply has_asked_other|]. constructor; [|done].
      exists (start t). rewrite asks_snoc, app_nil_r. split; [|by apply Hbody].
      rewrite asks_none; [constructor|]. intros t' q Hq%Ha He. rewrite He in Hq. apply NoDup_app in Hnd as (_ & Hnd & _).
      apply (Hnd _ Hq). by left.
    + eapply Forall_impl; [exact Hf|]. intros []. by apply has_asked_other.
    + eapply Forall_impl; [exact Hj|]. intros []. by apply has_asked_other.
    + rewrite (fmap_app key (spawned _)), <-Hk. rewrite !fmap_app. cbn. solve_Permutation.
    + intros t' q' [Hq|Hq%list_elem_of_singleton]%elem_of_app; [|done]. rewrite fmap_app. apply elem_of_app. left. by eapply Ha.
    + done.
  - by destruct Hfo; split.
  - destruct Hfo as [Hr Hf Hj Hk Ha Hres]. cbn in *. apply Forall_app in Hf as [Hpre [Ht Hpost]%Forall_cons].
    split; rewrite ?history_snoc, ?joined_snoc; cbn.
    + eapply Forall_impl; [exact Hr|]. intros []. by apply has_asked_other.
    + apply Forall_app. split; (eapply Forall_impl; [eassumption|]); intros []; by apply has_asked_other.
    + apply Forall_app. split; [eapply Forall_impl; [exact Hj|]; intros []; by apply has_asked_other|].
      constructor; [|done]. by apply has_asked_other.
    + rewrite <-Hk. rewrite !fmap_app. cbn. solve_Permutation.
    + intros t' q' [Hq|Hq%list_elem_of_singleton]%elem_of_app; [by eapply Ha|done].
    + by rewrite fmap_app, Hres.
  - by destruct Hfo; split.
  - destruct Hfo as [Hr Hf Hj Hk Ha Hres]. cbn in *. apply Forall_app in Hr as [Hpre [Ht Hpost]%Forall_cons].
    rewrite history_snoc in Hnd. cbn in Hnd. rewrite <-Hk in Hnd.
    assert (∀ t' p, t' ∈ pre.*1 ++ post.*1 ++ fin.*1 ++ (joined_tasks tr).*1 → has_asked tr t' p → has_asked (tr ++ [TaskAsked t q]) t' p) as Hstill.
    { intros t' p Hin. apply has_asked_other. intros t1 q1 [= -> ->] He. rewrite !fmap_app in Hnd. cbn in Hnd.
      rewrite <-app_assoc in Hnd. cbn in Hnd. rewrite <-Permutation_middle in Hnd. apply NoDup_cons in Hnd as [Hnd _]. apply Hnd.
      rewrite He. apply (list_elem_of_fmap_2 key) in Hin. rewrite !fmap_app in Hin. rewrite ?fmap_app. set_solver. }
    assert (∀ t' p (l : list T), (∀ x, x ∈ l → x ∈ pre.*1 ++ post.*1 ++ fin.*1 ++ (joined_tasks tr).*1) → t' ∈ l →
      has_asked tr t' p → has_asked (tr ++ [TaskAsked t q]) t' p) as Hin by (intros t' p l Hl Ht'; by apply Hstill, Hl).
    split; rewrite ?history_snoc, ?joined_snoc, ?app_nil_r; cbn.
    + rewrite Forall_app, Forall_cons. rewrite !Forall_forall in *. split_and!.
      * intros [t' p] Hx. apply (Hin t' p pre.*1); [set_solver|by apply (list_elem_of_fmap_2 fst _ _ Hx)|by apply (Hpre _ Hx)].
      * destruct Ht as (g & Hg & Hal & Hk'). destruct (answered t q r g Hal) as (g' & Hg'). exists g'.
        rewrite asks_snoc, decide_True by done. split; [by econstructor|by apply Hk'].
      * intros [t' p] Hx. apply (Hin t' p post.*1); [set_solver|by apply (list_elem_of_fmap_2 fst _ _ Hx)|by apply (Hpost _ Hx)].
    + rewrite !Forall_forall in *.
      intros [t' p] Hx. apply (Hin t' _ fin.*1); [set_solver|by apply (list_elem_of_fmap_2 fst _ _ Hx)|by apply (Hf _ Hx)].
    + rewrite !Forall_forall in *.
      intros [t' p] Hx. apply (Hin t' _ (joined_tasks tr).*1); [set_solver|by apply (list_elem_of_fmap_2 fst _ _ Hx)|by apply (Hj _ Hx)].
    + rewrite <-Hk. by rewrite !fmap_app.
    + intros t' q' [Hq|Hq%list_elem_of_singleton]%elem_of_app; [by eapply Ha|]. injection Hq as -> ->.
      rewrite <-Hk. apply list_elem_of_fmap_2. rewrite fmap_app. cbn. set_solver.
    + done.
  - destruct Hfo as [Hr Hf Hj Hk Ha Hres]. cbn in *. apply Forall_app in Hr as [Hpre [Ht Hpost]%Forall_cons].
    split; cbn; try done.
    + by apply Forall_app.
    + apply Forall_app. split; [done|]. by constructor.
    + rewrite <-Hk. rewrite !fmap_app. cbn. solve_Permutation.
Qed.

(** Tasks that are told apart follow their monitors, each by its own requests. *)
Lemma pool_follows {A} (p : prog pooled A) w tr c :
  NoDup (key <$> spawned (history_of tr)) →
  (∀ t, t ∈ spawned (history_of tr) → wp (m t) (body t) (ends t) (start t)) →
  pool_run (mk_pool p [] [], w) tr c → follows c tr.
Proof.
  intros Hnd Hbody Hrun. revert Hnd Hbody. induction Hrun as [|tr c' e c'' Hrun IH Hstep]; intros Hnd Hbody.
  { split; cbn; try done. by intros t q ?%not_elem_of_nil. }
  assert (∃ more, spawned (history_of (tr ++ option_list e)) = spawned (history_of tr) ++ more ∧ ∀ t, e = Some (Spawned t) → more = [t]) as (more & Hmore & He).
  { destruct e as [e|]; cbn; [|exists []; by rewrite !app_nil_r]. rewrite history_snoc. destruct e; cbn.
    all: first [exists []; by rewrite app_nil_r | eexists; split; [reflexivity|]; by intros t' [= ->]]. }
  eapply follows_step; [exact Hnd| |apply IH|exact Hstep].
  - intros t Ht. apply Hbody. rewrite Hmore, (He t Ht). apply elem_of_app. right. by left.
  - rewrite Hmore, fmap_app in Hnd. by apply NoDup_app in Hnd as (? & _).
  - intros t Ht. apply Hbody. rewrite Hmore. apply elem_of_app. by left.
Qed.
End follows.

(** A set is never stuck: a result that is waited for comes from a running task. *)
Lemma pool_progress {A} (c : pool A * W) :
  (∀ (q : E) w, ∃ r w', serves q w r w') → (∀ r, main c.1 ≠ Done r) → ∃ e c', pool_step c e c'.
Proof.
  intros Htotal Hmain. destruct c as [[m run fin] w]. cbn in Hmain.
  assert (run ≠ [] → ∃ e c', pool_step (mk_pool m run fin, w) e c') as Hrun.
  { destruct run as [|[t [r|q k]] run]; [done|intros _..].
    - eexists _, _. by apply (task_ends m [] t r run).
    - destruct (Htotal q w) as (r & w' & Hs). eexists _, _. by eapply (task_asks m [] t q k run). }
  destruct m as [r|[q|t| |] k]; [by destruct (Hmain r)| | | |].
  - destruct (Htotal q w) as (r & w' & Hs). eexists _, _. by eapply main_asks.
  - eexists _, _. by apply main_spawns.
  - eexists _, _. by apply main_counts.
  - destruct run as [|x run]; [|by apply Hrun]. destruct fin as [|[t r] fin].
    + eexists _, _. by apply main_joins_none.
    + eexists _, _. by apply (main_joins k [] [] t r fin).
Qed.

(** *** A scheduler: a task runs only while the main program waits for it *)
Section play.
Context (serve : ∀ q : E, W → answer q * W) (serves_serve : ∀ q w, serves q w (serve q w).1 (serve q w).2).

Definition play_task {A} (m : prog pooled A) (run : list (T * prog E V)) (fin : list (T * result V)) (w : W)
    : option (list pool_event * (pool A * W)) :=
  match run with
  | [] => None
  | (t, Done r) :: run => Some ([], (mk_pool m run (fin ++ [(t, r)]), w))
  | (t, Ask q k) :: run => Some ([TaskAsked t q], (mk_pool m ((t, k (serve q w).1) :: run) fin, (serve q w).2))
  end.

Definition play_step {A} (c : pool A * W) : option (list pool_event * (pool A * W)) :=
  let '(mk_pool m run fin, w) := c in
  match m with
  | Done _ => None
  | Ask q k =>
      match q return (answer (i := pooled) q → prog pooled A) → option (list pool_event * (pool A * W)) with
      | Sys q => λ k, Some ([MainAsked q], (mk_pool (k (serve q w).1) run fin, (serve q w).2))
      | Spawn t => λ k, Some ([Spawned t], (mk_pool (k tt) (run ++ [(t, body t)]) fin, w))
      | Len => λ k, Some ([], (mk_pool (k (zlen run + zlen fin)) run fin, w))
      | JoinNext => λ k,
          match fin with
          | (t, r) :: fin => Some ([Joined t r], (mk_pool (k (Some r)) run fin, w))
          | [] =>
              match run with
              | [] => Some ([], (mk_pool (k None) [] [], w))
              | _ => play_task m run [] w
              end
          end
      end k
  end.

Fixpoint play {A} (n : nat) (tr : list pool_event) (c : pool A * W) : list pool_event * (pool A * W) :=
  match n with
  | O => (tr, c)
  | S n => match play_step c with Some (e, c') => play n (tr ++ e) c' | None => (tr, c) end
  end.

Lemma play_task_step {A} q k run fin w e c' :
  play_task (A := A) (Ask q k) run fin w = Some (e, c') → ∃ o, e = option_list o ∧ pool_step (mk_pool (Ask q k) run fin, w) o c'.
Proof.
  destruct run as [|[t [r|q' k']] run]; cbn; [done| |]; intros [= <- <-].
  - exists None. split; [done|]. by apply (task_ends _ [] t r run).
  - exists (Some (TaskAsked t q')). split; [done|]. by apply (task_asks _ [] t q' k' run).
Qed.

Lemma play_step_ok {A} (c : pool A * W) e c' : play_step c = Some (e, c') → ∃ o, e = option_list o ∧ pool_step c o c'.
Proof.
  destruct c as [[[r|[q|t| |] k] run fin] w]; cbn; [done|intros [= <- <-]..|].
  - exists (Some (MainAsked q)). split; [done|]. by apply main_asks.
  - exists (Some (Spawned t)). split; [done|]. apply main_spawns.
  - exists None. split; [done|]. apply main_counts.
  - destruct fin as [|[t r] fin].
    + destruct run as [|x run]; [|by apply play_task_step]. intros [= <- <-]. exists None. split; [done|]. apply main_joins_none.
    + intros [= <- <-]. exists (Some (Joined t r)). split; [done|]. apply (main_joins _ _ [] t r fin).
Qed.

Lemma play_runs {A} n (c0 : pool A * W) : pool_run c0 (play n [] c0).1 (play n [] c0).2.
Proof.
  assert (∀ n tr c, pool_run c0 tr c → pool_run c0 (play n tr c).1 (play n tr c).2) as Hplay; [|apply Hplay; constructor].
  clear n. induction n as [|n IH]; intros tr c Hrun; cbn; [done|]. destruct (play_step c) as [[e c']|] eqn:Hs; [|done].
  apply play_step_ok in Hs as (o & -> & Hs). apply IH. by econstructor.
Qed.
End play.
End pool.
Arguments Sys {E T}.
Arguments Spawn {E T}.
Arguments Len {E T}.
Arguments JoinNext {E T}.
Arguments mk_history {T V}.
Arguments spawned {T V}.
Arguments joined {T V}.
Arguments tasks_left {T V}.
