(* ===== verification/LocalPath.v ===== *)
(** * Local paths

    [std::path::Path] on Unix as the string it holds: [parent], [ancestors], [join]
    (RemotePath's [path_push]) and the appended staging suffix.  A parent is a
    proper prefix of its path, so the chain of ancestors is finite. *)

From stdpp Require Import base list gmap strings numbers sorting.
From Stdlib Require Import Lia.
From S2P Require Import Prelude RustStr StrFacts RemotePath.

(** ** [Path::parent] *)

(** The part before the components: the root, or a leading [.]. *)
Definition path_head (path : str) : str :=
  if starts_with path [slash] then [slash]
  else if bool_decide (path = dot) || starts_with path (dot ++ [slash]) then dot
  else [].

Definition void_piece (piece : str) : bool := bool_decide (piece = []) || bool_decide (piece = dot).
(** From the back: what is no component. *)
Fixpoint trim_void (pieces : list str) : list str :=
  match pieces with p :: ps => if void_piece p then trim_void ps else pieces | [] => [] end.

(** The pieces after the head, the last component first. *)
Definition path_body (path : str) : list str :=
  trim_void (reverse (split slash (drop (length (path_head path)) path))).

Definition path_parent (path : str) : option str :=
  match path_body path with
  | _ :: rest => Some (path_head path ++ join_with slash (reverse (trim_void rest)))
  | [] => if bool_decide (path_head path = dot) then Some [] else None
  end.

(** [Path::ancestors]: the path, its parent, … *)
Fixpoint ancestors_from (fuel : nat) (path : str) : list str :=
  path ::
  match fuel, path_parent path with
  | S fuel, Some parent => ancestors_from fuel parent
  | _, _ => []
  end.
Definition path_ancestors (path : str) : list str := ancestors_from (length path) path.

(** [.filter(|path| !path.as_os_str().is_empty())], and [ancestors.reverse()]. *)
Definition nonempty_parent (path : str) : option str :=
  match path_parent path with Some parent => if bool_decide (parent = []) then None else Some parent | None => None end.
Definition directory_chain (path : str) : list str :=
  reverse (filter (λ candidate, candidate ≠ []) (path_ancestors path)).

(** ** A parent is a proper prefix *)
Lemma starts_with_prefix s p : starts_with s p = true → p `prefix_of` s.
Proof. unfold starts_with. destruct (strip_prefix p s) as [r|] eqn:Hr; [|done]. apply strip_prefix_some in Hr. by exists r. Qed.

Lemma head_prefix path : path_head path `prefix_of` path.
Proof.
  unfold path_head. destruct (starts_with path [slash]) eqn:Hs.
  - by apply starts_with_prefix.
  - case_match eqn:Hd; [|apply prefix_nil]. apply orb_true_iff in Hd as [->%bool_decide_eq_true|Hd]; [done|].
    apply starts_with_prefix in Hd. eapply prefix_app_l. exact Hd.
Qed.

Lemma join_with_app c ws vs :
  ws ≠ [] → vs ≠ [] → join_with c (ws ++ vs) = join_with c ws ++ c :: join_with c vs.
Proof.
  intros Hws Hvs. induction ws as [|w ws IH]; [done|]. destruct ws as [|w' ws].
  - cbn [app]. by rewrite join_with_cons.
  - cbn [app]. rewrite join_with_cons by done. rewrite (join_with_cons c w (w' :: ws)) by done.
    rewrite <- app_assoc. cbn [app] in *. by rewrite IH.
Qed.

(** Fewer pieces, the last of which is not empty, are a shorter text. *)
Lemma join_with_proper c ws w vs :
  w ≠ [] → join_with c ws `prefix_of` join_with c (ws ++ w :: vs) ∧
    (length (join_with c ws) < length (join_with c (ws ++ w :: vs)))%nat.
Proof.
  intros Hw. assert (length (join_with c (w :: vs)) ≠ 0%nat) as Hlen.
  { destruct w; [done|]. destruct vs; [done|]. by rewrite join_with_cons. }
  destruct ws as [|x ws]; [split; [apply prefix_nil|cbn in *; lia]|].
  rewrite join_with_app by done. split; [by apply prefix_app_r|]. rewrite length_app. cbn [length]. lia.
Qed.

Lemma trim_void_suffix pieces : ∃ voids, pieces = voids ++ trim_void pieces.
Proof.
  induction pieces as [|p ps [voids IH]]; [by exists []|]. cbn [trim_void].
  destruct (void_piece p); [|by exists []]. exists (p :: voids). by rewrite IH at 1.
Qed.

Lemma trim_void_head pieces p ps : trim_void pieces = p :: ps → p ≠ [].
Proof.
  induction pieces as [|q qs IH]; [done|]. cbn [trim_void]. destruct (void_piece q) eqn:Hq; [done|].
  intros [= -> _] ->. done.
Qed.

Lemma path_parent_prefix path parent :
  path_parent path = Some parent → parent `prefix_of` path ∧ (length parent < length path)%nat.
Proof.
  destruct (head_prefix path) as [body Hbody]. unfold path_parent, path_body.
  rewrite Hbody at 2. rewrite drop_app_length.
  destruct (trim_void (reverse (split slash body))) as [|w rest] eqn:Htrim.
  - case_bool_decide as Hd; [|done]. intros [= <-]. split; [apply prefix_nil|]. rewrite Hbody, Hd. cbn. lia.
  - intros [= <-]. pose proof (trim_void_head _ _ _ Htrim) as Hw.
    destruct (trim_void_suffix (reverse (split slash body))) as [voids Hv]. rewrite Htrim in Hv.
    destruct (trim_void_suffix rest) as [voids' Hv'].
    assert (split slash body = (reverse (trim_void rest) ++ reverse voids') ++ w :: reverse voids) as Hsplit.
    { rewrite <- (reverse_involutive (split slash body)), Hv, Hv' at 1. rewrite reverse_app, reverse_cons, reverse_app.
      by rewrite <- app_assoc. }
    clear Hv Hv' Htrim. revert Hbody. generalize (path_head path). intros path_head' ->.
    rewrite <- (join_split slash body), Hsplit, !length_app.
    destruct (join_with_proper slash (reverse (trim_void rest) ++ reverse voids') w (reverse voids) Hw) as [Hp Hl].
    assert (join_with slash (reverse (trim_void rest)) `prefix_of` join_with slash (reverse (trim_void rest) ++ reverse voids') ∧
      (length (join_with slash (reverse (trim_void rest))) ≤ length (join_with slash (reverse (trim_void rest) ++ reverse voids')))%nat) as [Hp' Hl'].
    { destruct (reverse (trim_void rest)) as [|x xs]; [split; [apply prefix_nil|cbn; lia]|].
      destruct (reverse voids') as [|y ys]; [by rewrite app_nil_r|]. rewrite join_with_app by done.
      split; [by apply prefix_app_r|]. rewrite length_app. lia. }
    split; [|lia]. apply prefix_app. by etrans.
Qed.

Lemma ancestors_prefix path ancestor : ancestor ∈ path_ancestors path → ancestor `prefix_of` path.
Proof.
  unfold path_ancestors. generalize (length path) as fuel. intros fuel. revert path.
  induction fuel as [|fuel IH]; intros path; cbn [ancestors_from].
  - by intros ->%list_elem_of_singleton.
  - intros [->|Hin]%elem_of_cons; [done|]. destruct (path_parent path) as [parent|] eqn:Hp; [|by apply elem_of_nil in Hin].
    etrans; [by apply IH|]. by apply path_parent_prefix.
Qed.

(** The chain is complete: more rounds find nothing more. *)
Lemma ancestors_enough path fuel :
  (length path ≤ fuel)%nat → ancestors_from fuel path = path_ancestors path.
Proof.
  unfold path_ancestors. assert (∀ n path fuel, (length path ≤ n)%nat → (n ≤ fuel)%nat → ancestors_from fuel path = ancestors_from n path) as H.
  { clear. induction n as [|n IH]; intros path fuel Hn Hf.
    - destruct path; [|cbn in Hn; lia]. by destruct fuel.
    - destruct fuel as [|fuel]; [lia|]. cbn [ancestors_from]. destruct (path_parent path) as [parent|] eqn:Hp; [|done].
      apply path_parent_prefix in Hp as [_ Hl]. rewrite (IH parent fuel) by lia. done. }
  intros Hf. by apply H.
Qed.

Lemma directory_chain_ancestor path candidate :
  candidate ∈ directory_chain path ↔ candidate ∈ path_ancestors path ∧ candidate ≠ [].
Proof. unfold directory_chain. rewrite elem_of_reverse, list_elem_of_filter. naive_solver. Qed.

Lemma nonempty_parent_some path parent :
  nonempty_parent path = Some parent ↔ path_parent path = Some parent ∧ parent ≠ [].
Proof. unfold nonempty_parent. destruct (path_parent path) as [p|]; [case_bool_decide|]; naive_solver. Qed.

Lemma parent_is_ancestor path parent ancestor :
  path_parent path = Some parent → ancestor ∈ path_ancestors parent → ancestor ∈ path_ancestors path.
Proof.
  intros Hp Hin. pose proof (path_parent_prefix _ _ Hp) as [_ Hl].
  rewrite <- (ancestors_enough path (S (length path))) by lia. cbn [ancestors_from]. rewrite Hp. right.
  rewrite ancestors_enough by lia. done.
Qed.
