(* ===== verification/TransferOps.v ===== *)
(** * What the transfers are made of
      ([crates/kaduox-ssh-transfer/src/transfer.rs], [transfer_policy.rs],
       [transfer_download_policy.rs])

    The options of a transfer, the requests it makes of the SFTP session, the local
    disk, the clock and its cancellation flag, and the checks and copies that the
    transfers share.  Every answer is the environment's: a server or another
    process may change anything between two requests. *)

From stdpp Require Import base list gmap strings numbers sorting.
From Stdlib Require Import Lia.
From S2P Require Import Prelude RustStr StrFacts RemotePath Sftp RemoteServer TaskRegistry Program LocalPath.

Definition TRANSFER_BUFFER_SIZE : Z := 255 * 1024.
Definition DEFAULT_FILE_CONCURRENCY : Z := 4.
Definition DEFAULT_SFTP_WRITE_CONCURRENCY : Z := 16.
Definition DEFAULT_SFTP_PACKET_SIZE : Z := 256 * 1024.
Definition DEFAULT_REQUEST_TIMEOUT_SECS : Z := 30.
Definition MAX_FILE_CONCURRENCY : Z := 128.
Definition MAX_SFTP_WRITE_CONCURRENCY : Z := 128.
Definition MAX_SFTP_PACKET_SIZE : Z := 4 * 1024 * 1024.
Definition MAX_ESTIMATED_IN_FLIGHT_WRITE_BYTES : Z := 512 * 1024 * 1024.

(** ** Options *)

(** The cancellation flag and the progress channel are shared with other tasks: the
    requests [IsCancelled] and [TrySend] below. *)
Record TransferOptions := mk_options {
  resume : bool; atomic : bool; file_concurrency : Z; sftp_write_concurrency : Z; sftp_packet_size : Z;
  request_timeout_secs : Z; progress : bool;
}.

Definition default_options : TransferOptions :=
  mk_options false true DEFAULT_FILE_CONCURRENCY DEFAULT_SFTP_WRITE_CONCURRENCY DEFAULT_SFTP_PACKET_SIZE
    DEFAULT_REQUEST_TIMEOUT_SECS false.

Definition u128_max : Z := 340282366920938463463374607431768211455.
(** Multiplication of [u128]s, which wraps in a release build. *)
Definition u128_mul (a b : Z) : Z := Z.modulo (a * b) (u128_max + 1).

Definition validated (o : TransferOptions) : result unit :=
  bail_if (file_concurrency o =? 0) "file concurrency must be greater than zero" ≫= λ _,
  bail_if (MAX_FILE_CONCURRENCY <? file_concurrency o) "file concurrency must be within its maximum" ≫= λ _,
  bail_if (sftp_write_concurrency o =? 0) "SFTP write concurrency must be greater than zero" ≫= λ _,
  bail_if (MAX_SFTP_WRITE_CONCURRENCY <? sftp_write_concurrency o) "SFTP write concurrency must be within its maximum" ≫= λ _,
  bail_if (sftp_packet_size o <? 4096) "SFTP packet size must be at least 4096 bytes" ≫= λ _,
  bail_if (MAX_SFTP_PACKET_SIZE <? sftp_packet_size o) "SFTP packet size must be within its maximum" ≫= λ _,
  bail_if (request_timeout_secs o =? 0) "SFTP request timeout must be greater than zero" ≫= λ _,
  let estimated_in_flight := u128_mul (u128_mul (file_concurrency o) (sftp_write_concurrency o)) (sftp_packet_size o) in
  bail_if (MAX_ESTIMATED_IN_FLIGHT_WRITE_BYTES <? estimated_in_flight) "transfer settings exceed the in-flight safety budget".

(** ** Requests *)

(** What [std::fs::Metadata] tells; the modification time in seconds from 1970, if
    the platform has one. *)
Record LocalMeta := mk_local_meta { lm_kind : FileKind; lm_len : Z; lm_modified : option Z; lm_mode : Z }.
(** A directory entry: its name as the system's string (with values that are no
    characters for bytes that are not UTF-8), and its [file_type]. *)
Record LocalEntry := mk_local_entry { le_name : str; le_type : result FileKind }.
Record LocalOpen := mk_local_open { lo_write : bool; lo_create : bool; lo_create_new : bool; lo_truncate : bool; lo_nofollow : bool }.
Definition OPEN_READ : LocalOpen := mk_local_open false false false false false.
(** Creating something that may be there already. *)
Inductive creation := Created | AlreadyExists | NotCreated (e : string).

Inductive req :=
(* the SFTP session *)
| OpenSession | CloseSession
| RLstat (path : str) | RReadDir (path : str) | RCreateDir (path : str)
| ROpen (path : str) (flags : OpenFlags) | RSeek (file offset : Z) | RRead (file max : Z) | RWrite (file : Z) (bytes : list Z)
| RFlush (file : Z) | RShutdown (file : Z)
| RRename (from to : str) | RRemoveFile (path : str) | RRemoveDir (path : str) | RTryExists (path : str)
| RSetMetadata (path : str) (mtime permissions : option Z)
(* the disk *)
| LLstat (path : str) | LStat (path : str) | LReadDir (path : str) | LCreateDir (path : str)
| LOpen (path : str) (options : LocalOpen) | LSeek (file offset : Z) | LRead (file max : Z) | LWrite (file : Z) (bytes : list Z)
| LFlush (file : Z) | LSyncAll (file : Z) | LSetModified (file secs : Z)
| LRename (from to : str) | LRemoveFile (path : str) | LHardLink (from to : str)
(* the process *)
| IsCancelled | TrySend (event : TransferEvent) | FetchSerial (direction : TransferDirection) | Now | ProcessId.

Definition req_answer (q : req) : Type :=
  match q with
  | RLstat _ => sftp_result FileAttributes
  | RReadDir _ => result (list (str * FileAttributes))
  | ROpen _ _ | LOpen _ _ => result Z
  | RRead _ _ | LRead _ _ => result (list Z)
  | RTryExists _ => result bool
  | LLstat _ | LStat _ => sftp_result LocalMeta
  | LReadDir _ => result (list (result LocalEntry))
  | LCreateDir _ | LHardLink _ _ => creation
  | IsCancelled => bool
  | TrySend _ => unit
  | FetchSerial _ | Now | ProcessId => Z
  | _ => result unit
  end.
Definition io_interface : interface := Interface req req_answer.
Abbreviation transfer := (prog io_interface).
Abbreviation tell q := (ask (E := io_interface) q).

(** [request.await?] *)
Definition call {A} (p : transfer (result A)) : transfer A := p_bind p Done.

(** ** Checks *)
Class FileModes := { (* [FileType::from] of the mode bits *) mode_type : Z → FileType }.

Section checks.
Context `{FileModes}.

Definition remote_type (a : FileAttributes) : FileType := mode_type (default 0 (fa_permissions a)).
Definition is_symlink (a : FileAttributes) : bool := bool_decide (remote_type a = FtSymlink).
Definition is_regular (a : FileAttributes) : bool := bool_decide (remote_type a = FtFile).
Definition is_dir (a : FileAttributes) : bool := bool_decide (remote_type a = FtDir).
Definition remote_len (a : FileAttributes) : Z := default 0 (fa_size a).

Definition local_is (k : FileKind) (m : LocalMeta) : bool := bool_decide (lm_kind m = k).
(** On Unix. *)
Definition is_local_link_like (m : LocalMeta) : bool := local_is KSymlink m.

Definition check_cancelled : transfer unit :=
  (cancelled ⇐ tell IsCancelled; Done (bail_if cancelled "transfer cancelled"))%prog.

Definition emit_progress (o : TransferOptions) (direction : TransferDirection) (path : str) (bytes : Z) (total : option Z)
    (completed : bool) : transfer unit :=
  if progress o then tell (TrySend (mk_event direction path bytes total completed)) else p_ret tt.

Definition remote_symlink_metadata_if_exists (path : str) : transfer (option FileAttributes) :=
  (r ⇐ tell (RLstat path);
   match r with SOk a => p_ret (Some a) | NoSuchFile => p_ret None | SErr e => p_err e end)%prog.

(** [sftp.symlink_metadata(…).await?] and [tokio::fs::symlink_metadata(…).await?]. *)
Definition found {A} (r : sftp_result A) : transfer A :=
  match r with SOk a => p_ret a | NoSuchFile => p_err "no such file" | SErr e => p_err e end.
Definition remote_lstat (path : str) : transfer FileAttributes := p_bind (tell (RLstat path)) found.
Definition local_lstat (path : str) : transfer LocalMeta := p_bind (tell (LLstat path)) found.

(** *** Remote directories *)
Definition ensure_segment (path current segment : str) : transfer str :=
  if bool_decide (segment = dot) then p_ret current
  else if bool_decide (segment = dotdot) then p_err "remote directory traversal with '..' is not supported"
  else
    let current := join_remote current segment in
    (metadata ⇐ remote_symlink_metadata_if_exists current;
     match metadata with
     | Some metadata =>
         if is_symlink metadata then p_err "refusing to follow remote symbolic-link directory component"
         else if negb (is_dir metadata) then p_err "remote path component is not a directory"
         else p_ret current
     | None => call (tell (RCreateDir current)) ;; p_ret current
     end)%prog.

Definition ensure_remote_dir (path : str) : transfer unit :=
  if bool_decide (path = []) || bool_decide (path = dot) || bool_decide (path = [slash]) then p_ret tt
  else
    (p_fold (ensure_segment path) (if starts_with path [slash] then [slash] else [])
       (filter (λ segment, segment ≠ []) (split slash path)) ;;
     p_ret tt)%prog.

Definition ensure_remote_parent (path : str) : transfer unit :=
  match rsplit_once slash path with
  | Some (parent, _) => if bool_decide (parent = []) then p_ret tt else ensure_remote_dir parent
  | None => p_ret tt
  end.

Definition validate_remote_file_leaf (path : str) : result unit :=
  let leaf := default path (last (split slash path)) in
  bail_if (bool_decide (leaf = []) || bool_decide (leaf = dot) || bool_decide (leaf = dotdot))
    "remote upload target has an unsafe final component" ≫= λ _,
  bail_if (contains_char leaf 0) "remote upload target cannot contain NUL bytes".

(** *** Local directories *)
Definition validate_local_directory (m : LocalMeta) : result unit :=
  bail_if (is_local_link_like m) "refusing to follow symbolic-link component" ≫= λ _,
  bail_if (negb (local_is KDirectory m)) "component is not a directory".

(** [ensure_local_directory_no_symlinks] of the engine and
    [ensure_local_directory_no_links] of the download policy. *)
Definition ensure_local_component (candidate : str) : transfer unit :=
  (r ⇐ tell (LLstat candidate);
   match r with
   | SOk m => Done (validate_local_directory m)
   | NoSuchFile =>
       created ⇐ tell (LCreateDir candidate);
       match created with
       | Created => p_ret tt
       | AlreadyExists =>
           m ⇐ p_context "failed to inspect concurrently created directory" (local_lstat candidate);
           Done (validate_local_directory m)
       | NotCreated _ => p_err "failed to create directory"
       end
   | SErr _ => p_err "failed to inspect directory"
   end)%prog.
Definition ensure_local_directory_no_links (path : str) : transfer unit :=
  p_for_each ensure_local_component (directory_chain path).

(** [if let Some(parent) = path.parent().filter(…) { ensure(parent)?; }] *)
Definition ensure_local_parent (path : str) : transfer unit :=
  match nonempty_parent path with Some parent => ensure_local_directory_no_links parent | None => p_ret tt end.

Definition reject_existing_local_symlink (path : str) : transfer unit :=
  (r ⇐ tell (LLstat path);
   match r with
   | SOk m => Done (bail_if (local_is KSymlink m) "refusing to follow symbolic link")
   | NoSuchFile => p_ret tt
   | SErr _ => p_err "failed to inspect local path"
   end)%prog.

(** *** Times *)
Definition preserve_remote_mtime (remote_path : str) (m : LocalMeta) : transfer unit :=
  let mtime := match lm_modified m with Some secs => if secs <? 0 then None else try_from u32_max secs | None => None end in
  (* on Unix *)
  let permissions := Some (lm_mode m) in
  if match mtime, permissions with None, None => false | _, _ => true end
  then call (tell (RSetMetadata remote_path mtime permissions)) else p_ret tt.

Definition preserve_local_mtime (path : str) (mtime : option Z) : transfer unit :=
  match mtime with
  | None => p_ret tt
  | Some mtime =>
      (file ⇐ p_context "failed to open file to preserve mtime" (call (tell (LOpen path (mk_local_open true false false false false))));
       p_context "failed to preserve mtime" (call (tell (LSetModified file mtime))))%prog
  end.

(** *** Copying *)
Section copy.
Context (add_copied add_progress : Z → Z → result Z).
Context (read : Z → transfer (list Z)) (write_all : list Z → transfer unit).
Context (o : TransferOptions) (direction : TransferDirection) (path : str) (initial : Z) (total : option Z).

(** The three [copy_with_progress], which differ in how they add; [fuel] bounds the
    number of reads. *)
Fixpoint copy_chunks (fuel : nat) (copied : Z) : transfer Z :=
  match fuel with
  | O => p_err "out of fuel"
  | S fuel =>
      (check_cancelled ;;
       chunk ⇐ read TRANSFER_BUFFER_SIZE;
       (* a reader fills at most the buffer it is given *)
       let chunk := take (Z.to_nat TRANSFER_BUFFER_SIZE) chunk in
       match chunk with
       | [] => p_ret copied
       | _ =>
           write_all chunk ;;
           copied ⇐ Done (add_copied copied (zlen chunk));
           transferred ⇐ Done (add_progress initial copied);
           emit_progress o direction path transferred total false ;;
           copy_chunks fuel copied
       end)%prog
  end.
End copy.

(** *** Staging names *)
Definition hex_digit (d : Z) : char := if d <? 10 then 48 + d else 87 + d.
Fixpoint hex_digits (fuel : nat) (n : Z) (acc : str) : str :=
  match fuel with
  | O => acc
  | S fuel =>
      let acc := hex_digit (Z.modulo n 16) :: acc in
      if n <? 16 then acc else hex_digits fuel (n / 16) acc
  end.
(** [{:x}] *)
Definition hex_of (n : Z) : str := hex_digits (S (Z.to_nat (Z.log2 n))) n [].

Definition PART : str := lit ".kaduox.part".
(** [stable_remote_staging_path], [stable_local_staging_path]. *)
Definition stable_staging_path (path : str) : str := path ++ PART.
(** [unique_remote_staging_path], [unique_local_staging_path]. *)
Definition unique_staging_suffix (process stamp serial : Z) : str :=
  PART ++ lit "." ++ hex_of process ++ lit "." ++ hex_of stamp ++ lit "." ++ hex_of serial.
Definition unique_staging_path (direction : TransferDirection) (path : str) : transfer str :=
  (stamp ⇐ tell Now;
   serial ⇐ tell (FetchSerial direction);
   process ⇐ tell ProcessId;
   p_ret (path ++ unique_staging_suffix process stamp serial))%prog.
End checks.
