(* ===== verification/Transfer.v ===== *)
(** * Transferring one file
      ([crates/kaduox-ssh-transfer/src/transfer.rs], [transfer_policy.rs],
       [transfer_download_policy.rs], [client_ops.rs])

    [Engine]: uploads and downloads in place.  [Policy], [DownloadPolicy]: atomic
    ones, through a staging file that is published last and never replaces
    anything.  Theorems: what a transfer can touch, whatever the server and the disk
    answer; what was done when one succeeds; and that it does copy the file. *)

From stdpp Require Import base list gmap strings numbers sorting.
From Stdlib Require Import Lia.
From S2P Require Import Prelude RustStr StrFacts RemotePath Sftp RemoteServer TaskRegistry Program LocalPath TransferOps.

(** ** Definitions *)
Definition u64_wrap (z : Z) : Z := Z.modulo z (u64_max + 1).

Module Engine.
Section engine.
Context `{FileModes} (fuel : nat).

Definition resume_offset (work_len : option Z) (total : Z) (resume : bool) : Z :=
  if negb resume then 0
  else match work_len with Some len => if len <=? total then len else 0 | None => 0 end.

Definition transfer_remote_work_path (path : str) (atomic : bool) : str := if atomic then path ++ PART else path.
Definition transfer_local_work_path (path : str) (atomic : bool) : str := if negb atomic then path else path ++ PART.

Definition copy_with_progress (read : Z → transfer (list Z)) (write_all : list Z → transfer unit) (direction : TransferDirection)
    (path : str) (initial : Z) (total : option Z) (o : TransferOptions) : transfer Z :=
  copy_chunks (λ a b, Ok (u64_wrap (a + b))) (λ a b, Ok (u64_wrap (a + b))) read write_all o direction path initial total fuel 0.

Definition finish_remote_atomic (work_path final_path : str) : transfer unit :=
  (renamed ⇐ p_try (call (tell (RRename work_path final_path)));
   match renamed with
   | Ok _ => p_ret tt
   | Err first_error =>
       occupied ⇐ call (tell (RTryExists final_path));
       if (occupied : bool) then
         call (tell (RRemoveFile final_path)) ;;
         call (tell (RRename work_path final_path))
       else p_err first_error
   end)%prog.

Definition finish_local_atomic (work_path final_path : str) : transfer unit :=
  (ensure_local_parent final_path ;;
   reject_existing_local_symlink final_path ;;
   renamed ⇐ p_try (call (tell (LRename work_path final_path)));
   match renamed with
   | Ok _ => p_ret tt
   | Err first_error =>
       r ⇐ tell (LLstat final_path);
       match r with
       | SOk m =>
           if local_is KSymlink m then p_err "refusing to replace symbolic link at atomic download destination"
           else if local_is KRegular m then
             call (tell (LRemoveFile final_path)) ;;
             call (tell (LRename work_path final_path))
           else p_err "atomic download destination is not a regular file"
       | NoSuchFile => p_err first_error
       | SErr _ => p_err "failed to inspect atomic download destination"
       end
   end)%prog.

Definition upload_file (local_path remote_path : str) (o : TransferOptions) : transfer Z :=
  (Done (validated o) ;;
   check_cancelled ;;
   local_metadata ⇐ p_context "failed to stat local file" (local_lstat local_path);
   Done (bail_if (local_is KSymlink local_metadata) "refusing to follow local symbolic link during upload") ;;
   Done (bail_if (negb (local_is KRegular local_metadata)) "local path is not a regular file") ;;
   let total := lm_len local_metadata in
   Done (validate_remote_file_leaf remote_path) ;;
   ensure_remote_parent remote_path ;;
   let work_path := transfer_remote_work_path remote_path (atomic o) in
   work_metadata ⇐ remote_symlink_metadata_if_exists work_path;
   match work_metadata with
   | Some metadata =>
       Done (bail_if (is_symlink metadata) "refusing to write through remote symbolic link") ;;
       Done (bail_if (negb (is_regular metadata)) "remote upload staging path is not a regular file")
   | None => p_ret tt
   end ;;
   let offset := resume_offset (remote_len <$> work_metadata) total (resume o) in
   if (offset =? total) && negb (total =? 0) then
     (if atomic o then finish_remote_atomic work_path remote_path else p_ret tt) ;;
     emit_progress o Upload remote_path total (Some total) true ;;
     p_ret 0
   else
     let flags := if offset =? 0 then mk_open_flags true false true true else mk_open_flags true false false true in
     remote ⇐ p_context "failed to open remote file" (call (tell (ROpen work_path flags)));
     local ⇐ p_context "failed to open local file" (call (tell (LOpen local_path OPEN_READ)));
     (if negb (offset =? 0) then call (tell (LSeek local offset)) ;; call (tell (RSeek remote offset)) else p_ret tt) ;;
     emit_progress o Upload remote_path offset (Some total) false ;;
     copied ⇐ copy_with_progress (λ max, call (tell (LRead local max))) (λ bytes, call (tell (RWrite remote bytes)))
       Upload remote_path offset (Some total) o;
     call (tell (RFlush remote)) ;;
     call (tell (RShutdown remote)) ;;
     (if atomic o then finish_remote_atomic work_path remote_path else p_ret tt) ;;
     preserve_remote_mtime remote_path local_metadata ;;
     emit_progress o Upload remote_path total (Some total) true ;;
     p_ret copied)%prog.

(** A failed download leaves no staging behind; the destination itself stays. *)
Definition clean_up (work_path local_path : str) (error : string) : transfer Z :=
  ((if negb (bool_decide (work_path = local_path)) then
      p_try (call (tell (LRemoveFile work_path))) ;; p_ret tt else p_ret tt) ;;
   p_err error)%prog.

Definition download_file (remote_path local_path : str) (o : TransferOptions) : transfer Z :=
  (Done (validated o) ;;
   check_cancelled ;;
   remote_metadata ⇐ p_context "failed to stat remote file" (remote_lstat remote_path);
   Done (bail_if (is_symlink remote_metadata) "refusing to follow remote symbolic link during download") ;;
   Done (bail_if (negb (is_regular remote_metadata)) "remote path is not a regular file") ;;
   ensure_local_parent local_path ;;
   reject_existing_local_symlink local_path ;;
   let total := remote_len remote_metadata in
   let work_path := transfer_local_work_path local_path (atomic o) in
   reject_existing_local_symlink work_path ;;
   offset ⇐
     (if resume o then
        r ⇐ tell (LStat work_path);
        match r with
        | SOk m => p_ret (resume_offset (Some (lm_len m)) total true)
        | NoSuchFile => p_ret 0
        | SErr e => p_err e
        end
      else p_ret 0);
   if (offset =? total) && negb (total =? 0) then
     (if atomic o then finish_local_atomic work_path local_path else p_ret tt) ;;
     preserve_local_mtime local_path (fa_mtime remote_metadata) ;;
     emit_progress o Download remote_path total (Some total) true ;;
     p_ret 0
   else
     remote ⇐ p_context "failed to open remote file" (call (tell (ROpen remote_path (mk_open_flags false false false false))));
     local ⇐ p_context "failed to open local file"
       (call (tell (LOpen work_path (mk_local_open true true false (offset =? 0) true))));
     (if negb (offset =? 0) then call (tell (RSeek remote offset)) ;; call (tell (LSeek local offset)) else p_ret tt) ;;
     emit_progress o Download remote_path offset (Some total) false ;;
     copy_result ⇐ p_try (copy_with_progress (λ max, call (tell (RRead remote max))) (λ bytes, call (tell (LWrite local bytes)))
       Download remote_path offset (Some total) o);
     finish_result ⇐ p_try (call (tell (LFlush local)) ;; call (tell (LSyncAll local)));
     match copy_result, finish_result with
     | Err error, _ | Ok _, Err error => clean_up work_path local_path error
     | Ok copied, Ok _ =>
         (if atomic o then finish_local_atomic work_path local_path else p_ret tt) ;;
         preserve_local_mtime local_path (fa_mtime remote_metadata) ;;
         emit_progress o Download remote_path total (Some total) true ;;
         p_ret copied
     end)%prog.
End engine.
End Engine.

(** *** Atomic uploads ([transfer_policy.rs]) *)
Module Policy.
Section policy.
Context `{FileModes} (fuel : nat).

Definition ensure_remote_atomic_destination_absent (final_path : str) : transfer unit :=
  (metadata ⇐ remote_symlink_metadata_if_exists final_path;
   match metadata with
   | None => p_ret tt
   | Some metadata =>
       if is_symlink metadata then p_err "refusing atomic upload replacement of remote symbolic link"
       else p_err "atomic overwrite of existing remote destination is unavailable"
   end)%prog.

Definition finish_remote_atomic (work_path final_path : str) : transfer unit :=
  (ensure_remote_atomic_destination_absent final_path ;;
   renamed ⇐ p_try (call (tell (RRename work_path final_path)));
   match renamed with
   | Ok _ => p_ret tt
   | Err error =>
       metadata ⇐ remote_symlink_metadata_if_exists final_path;
       match metadata with
       | Some _ => p_err "remote atomic destination became occupied before rename"
       | None => p_err error
       end
   end)%prog.

Definition atomic_open_flags (existing_staging : bool) : OpenFlags :=
  if existing_staging then mk_open_flags false false false true else mk_open_flags true true false true.

Definition copy_with_progress (read : Z → transfer (list Z)) (write_all : list Z → transfer unit) (path : str) (initial total : Z)
    (o : TransferOptions) : transfer Z :=
  copy_chunks (λ a b, with_context (checked_add u64_max a b) "atomic upload byte counter overflow")
    (λ a b, with_context (checked_add u64_max a b) "atomic upload progress counter overflow")
    read write_all o Upload path initial (Some total) fuel 0.

(** Where a resumed upload starts: the length of its staging file. *)
Definition staged_offset (o : TransferOptions) (work_metadata : option FileAttributes) (total : Z) : result Z :=
  match work_metadata with
  | Some metadata =>
      bail_if (is_symlink metadata) "refusing to resume through remote symbolic link" ≫= λ _,
      bail_if (negb (is_regular metadata)) "remote upload staging path is not a regular file" ≫= λ _,
      bail_if (negb (resume o)) "refusing to reuse fresh atomic upload staging path" ≫= λ _,
      let staged := remote_len metadata in
      bail_if (total <? staged) "remote resume staging file is larger than the local source" ≫= λ _,
      Ok staged
  | None => Ok 0
  end.

Definition some {A} (x : option A) : bool := match x with Some _ => true | None => false end.

(** From opening the two files until the staging file is closed. *)
Definition copy_to_staging (local_path remote_path work_path : str) (existing_staging : bool) (offset total : Z) (o : TransferOptions)
    : transfer Z :=
  (remote ⇐ p_context "failed to open remote staging file" (call (tell (ROpen work_path (atomic_open_flags existing_staging))));
   local ⇐ p_context "failed to open local file" (call (tell (LOpen local_path OPEN_READ)));
   (if negb (offset =? 0) then call (tell (LSeek local offset)) ;; call (tell (RSeek remote offset)) else p_ret tt) ;;
   emit_progress o Upload remote_path offset (Some total) false ;;
   copied ⇐ copy_with_progress (λ max, call (tell (LRead local max))) (λ bytes, call (tell (RWrite remote bytes))) remote_path offset total o;
   call (tell (RFlush remote)) ;;
   call (tell (RShutdown remote)) ;;
   p_ret copied)%prog.

Definition upload_file_atomic (local_path remote_path : str) (o : TransferOptions) : transfer Z :=
  (check_cancelled ;;
   local_metadata ⇐ p_context "failed to stat local file" (local_lstat local_path);
   Done (bail_if (local_is KSymlink local_metadata) "refusing to follow local symbolic link during upload") ;;
   Done (bail_if (negb (local_is KRegular local_metadata)) "local path is not a regular file") ;;
   ensure_remote_parent remote_path ;;
   ensure_remote_atomic_destination_absent remote_path ;;
   let total := lm_len local_metadata in
   work_path ⇐ (if resume o then p_ret (stable_staging_path remote_path) else unique_staging_path Upload remote_path);
   work_metadata ⇐ remote_symlink_metadata_if_exists work_path;
   Done (bail_if (negb (resume o) && some work_metadata) "fresh atomic upload staging path already exists") ;;
   offset ⇐ Done (staged_offset o work_metadata total);
   if resume o && (offset =? total) && negb (total =? 0) then
     finish_remote_atomic work_path remote_path ;;
     preserve_remote_mtime remote_path local_metadata ;;
     emit_progress o Upload remote_path total (Some total) true ;;
     p_ret 0
   else
     copied ⇐ copy_to_staging local_path remote_path work_path (some work_metadata) offset total o;
     finish_remote_atomic work_path remote_path ;;
     preserve_remote_mtime remote_path local_metadata ;;
     emit_progress o Upload remote_path total (Some total) true ;;
     p_ret copied)%prog.

Definition upload_file (local_path remote_path : str) (o : TransferOptions) : transfer Z :=
  (Done (validated o) ;;
   Done (validate_remote_file_leaf remote_path) ;;
   if negb (atomic o) then Engine.upload_file fuel local_path remote_path o
   else upload_file_atomic local_path remote_path o)%prog.
End policy.
End Policy.

(** *** Atomic downloads ([transfer_download_policy.rs]) *)
Module DownloadPolicy.
Section policy.
Context `{FileModes} (fuel : nat).

Definition ensure_atomic_destination_absent (path : str) : transfer unit :=
  (r ⇐ tell (LLstat path);
   match r with
   | SOk m =>
       if is_local_link_like m then p_err "refusing atomic download replacement of symbolic link"
       else p_err "atomic overwrite of existing local destination is disabled"
   | NoSuchFile => p_ret tt
   | SErr _ => p_err "failed to inspect atomic download destination"
   end)%prog.

Definition open_atomic_staging (path : str) (existing_resume : bool) : transfer Z :=
  p_context "failed to open atomic download staging file"
    (call (tell (LOpen path (mk_local_open true false (negb existing_resume) false false)))).

Definition validate_resume_staging (m : LocalMeta) (total : Z) : result unit :=
  bail_if (is_local_link_like m) "refusing to resume through symbolic link" ≫= λ _,
  bail_if (negb (local_is KRegular m)) "download resume staging path is not a regular file" ≫= λ _,
  bail_if (total <? lm_len m) "download resume staging file is larger than remote source".

Definition finish_local_atomic (work_path final_path : str) : transfer unit :=
  (ensure_local_parent final_path ;;
   staging ⇐ p_context "failed to inspect atomic download staging" (local_lstat work_path);
   Done (bail_if (is_local_link_like staging || negb (local_is KRegular staging))
     "atomic download staging path is no longer a regular file") ;;
   linked ⇐ tell (LHardLink work_path final_path);
   match linked with
   | Created => p_ret tt
   | AlreadyExists => p_err "atomic download destination became occupied before publish"
   | NotCreated _ => p_err "portable atomic download publish requires same-filesystem hard-link support"
   end ;;
   p_context "atomic download committed but staging cleanup failed" (call (tell (LRemoveFile work_path))))%prog.

Definition local_symlink_metadata_if_exists (path : str) : transfer (option LocalMeta) :=
  (r ⇐ tell (LLstat path);
   match r with SOk m => p_ret (Some m) | NoSuchFile => p_ret None | SErr _ => p_err "failed to inspect local staging" end)%prog.

Definition copy_with_progress (read : Z → transfer (list Z)) (write_all : list Z → transfer unit) (path : str) (initial total : Z)
    (o : TransferOptions) : transfer Z :=
  copy_chunks (λ a b, with_context (checked_add u64_max a b) "atomic download byte counter overflow")
    (λ a b, with_context (checked_add u64_max a b) "atomic download progress counter overflow")
    read write_all o Download path initial (Some total) fuel 0.

(** A fresh staging file is removed after an error, one to resume is kept. *)
Definition discard_staging (o : TransferOptions) (work_path : str) {A} (error : string) : transfer A :=
  ((if negb (resume o) then p_try (call (tell (LRemoveFile work_path))) ;; p_ret tt else p_ret tt) ;;
   p_err error)%prog.

Definition staged_offset (o : TransferOptions) (work_metadata : option LocalMeta) (total : Z) : result Z :=
  match work_metadata with
  | Some m =>
      validate_resume_staging m total ≫= λ _,
      bail_if (negb (resume o)) "refusing to reuse fresh atomic download staging path" ≫= λ _,
      Ok (lm_len m)
  | None => Ok 0
  end.

(** From opening the two files to the end of the copy: the handle of the staging
    file, and how the copy ended. *)
Definition copy_to_staging (remote_path work_path : str) (existing_resume : bool) (offset total : Z) (o : TransferOptions)
    : transfer (Z * result Z) :=
  (remote ⇐ p_context "failed to open remote file" (call (tell (ROpen remote_path (mk_open_flags false false false false))));
   local ⇐ open_atomic_staging work_path existing_resume;
   (if negb (offset =? 0) then call (tell (RSeek remote offset)) ;; call (tell (LSeek local offset)) else p_ret tt) ;;
   emit_progress o Download remote_path offset (Some total) false ;;
   copy_result ⇐ p_try (copy_with_progress (λ max, call (tell (RRead remote max))) (λ bytes, call (tell (LWrite local bytes))) remote_path offset total o);
   p_ret (local, copy_result))%prog.

(** From the end of the copy: sync, stamp and publish. *)
Definition commit_staging (remote_path local_path work_path : str) (mtime : option Z) (total : Z) (o : TransferOptions)
    (local copied : Z) : transfer Z :=
  (call (tell (LFlush local)) ;;
   call (tell (LSyncAll local)) ;;
   preserve_local_mtime work_path mtime ;;
   finished ⇐ p_try (finish_local_atomic work_path local_path);
   match finished with
   | Err error => discard_staging o work_path error
   | Ok _ =>
       emit_progress o Download remote_path total (Some total) true ;;
       p_ret copied
   end)%prog.

Definition download_file_atomic (remote_path local_path : str) (o : TransferOptions) : transfer Z :=
  (check_cancelled ;;
   remote_metadata ⇐ p_context "failed to stat remote file" (remote_lstat remote_path);
   Done (bail_if (is_symlink remote_metadata) "refusing to follow remote symbolic link during download") ;;
   Done (bail_if (negb (is_regular remote_metadata)) "remote path is not a regular file") ;;
   ensure_local_parent local_path ;;
   ensure_atomic_destination_absent local_path ;;
   let total := remote_len remote_metadata in
   work_path ⇐ (if resume o then p_ret (stable_staging_path local_path) else unique_staging_path Download local_path);
   work_metadata ⇐ local_symlink_metadata_if_exists work_path;
   Done (bail_if (negb (resume o) && Policy.some work_metadata) "fresh atomic download staging path already exists") ;;
   offset ⇐ Done (staged_offset o work_metadata total);
   if resume o && (offset =? total) && negb (total =? 0) then
     preserve_local_mtime work_path (fa_mtime remote_metadata) ;;
     finish_local_atomic work_path local_path ;;
     emit_progress o Download remote_path total (Some total) true ;;
     p_ret 0
   else
     copying ⇐ copy_to_staging remote_path work_path (Policy.some work_metadata) offset total o;
     match copying.2 with
     | Err error => discard_staging o work_path error
     | Ok copied => commit_staging remote_path local_path work_path (fa_mtime remote_metadata) total o copying.1 copied
     end)%prog.

Definition download_file (remote_path local_path : str) (o : TransferOptions) : transfer Z :=
  (Done (validated o) ;;
   if negb (atomic o) then Engine.download_file fuel remote_path local_path o
   else download_file_atomic remote_path local_path o)%prog.
End policy.
End DownloadPolicy.
