(* ===== verification/TransferSafety.v ===== *)
(** * What a transfer can touch

    Whatever the server and the disk answer, and whatever is cancelled: an atomic
    download changes the disk only at its staging file and creates its destination
    only by a hard link; an atomic upload changes the server only at its staging
    file, which it then renames after it saw the destination free; neither removes
    or truncates a file it did not create. *)

From stdpp Require Import base list gmap strings numbers sorting.
From Stdlib Require Import Lia.
From S2P Require Import Prelude RustStr StrFacts RemotePath Sftp RemoteServer TaskRegistry Program LocalPath TransferOps Transfer.

Abbreviation keeps_io P p := (keeps (E := io_interface) P p).

(** ** Requests that change nothing *)
Definition observes (q : req) : bool :=
  match q with
  | ROpen _ _ | RWrite _ _ | RFlush _ | RShutdown _ | RCreateDir _ | RRename _ _ | RRemoveFile _ | RRemoveDir _ | RSetMetadata _ _ _ => false
  | LOpen _ _ | LWrite _ _ | LFlush _ | LSyncAll _ | LSetModified _ _ | LCreateDir _ | LRename _ _ | LRemoveFile _ | LHardLink _ _ => false
  | _ => true
  end.

Definition quiet_ok (P : req → Prop) : Prop := ∀ q, observes q = true → P q.

(** The directories that may be made above a local path, and above a remote one. *)
Definition local_directory_above (path d : str) : Prop :=
  ∃ parent, path_parent path = Some parent ∧ d ∈ path_ancestors parent.
(** [ensure_remote_dir] makes prefixes of the path without its empty and [.] segments. *)
Fixpoint remote_prefixes (current : str) (segments : list str) : list str :=
  match segments with
  | [] => []
  | w :: ws =>
      if bool_decide (w = dot) then remote_prefixes current ws
      else join_remote current w :: remote_prefixes (join_remote current w) ws
  end.
Definition remote_chain (path : str) : list str :=
  remote_prefixes (if starts_with path [slash] then [slash] else []) (filter (λ w, w ≠ []) (split slash path)).
Definition remote_directory_above (path d : str) : Prop :=
  ∃ parent name, rsplit_once slash path = Some (parent, name) ∧ d ∈ remote_chain parent.

Section quiet.
Context `{FileModes} (P : req → Prop) (quiet : quiet_ok P).

Lemma keeps_quiet q : observes q = true → keeps_io P (tell q).
Proof. intros Hq. apply keeps_ask. by apply quiet. Qed.

Lemma keeps_call {A} (p : transfer (result A)) : keeps_io P p → keeps_io P (call p).
Proof. intros Hp. unfold call. apply keeps_bind; [done|]. intros a. apply keeps_done. Qed.

Lemma keeps_check_cancelled : keeps_io P check_cancelled.
Proof. unfold check_cancelled. keeps. by apply quiet. Qed.
Lemma keeps_emit o d p b t c : keeps_io P (emit_progress o d p b t c).
Proof. unfold emit_progress. keeps. by apply quiet. Qed.
Lemma keeps_if_exists path : keeps_io P (remote_symlink_metadata_if_exists path).
Proof. unfold remote_symlink_metadata_if_exists. keeps. by apply quiet. Qed.
Lemma keeps_found {A} (r : sftp_result A) : keeps_io P (found r).
Proof. unfold found. keeps. Qed.
Lemma keeps_remote_lstat path : keeps_io P (remote_lstat path).
Proof. unfold remote_lstat. keeps; [by apply quiet|apply keeps_found]. Qed.
Lemma keeps_local_lstat path : keeps_io P (local_lstat path).
Proof. unfold local_lstat. keeps; [by apply quiet|apply keeps_found]. Qed.
Lemma keeps_reject path : keeps_io P (reject_existing_local_symlink path).
Proof. unfold reject_existing_local_symlink. keeps; by apply quiet. Qed.
Lemma keeps_dest_absent path : keeps_io P (DownloadPolicy.ensure_atomic_destination_absent path).
Proof. unfold DownloadPolicy.ensure_atomic_destination_absent. keeps; by apply quiet. Qed.
Lemma keeps_remote_absent path : keeps_io P (Policy.ensure_remote_atomic_destination_absent path).
Proof. unfold Policy.ensure_remote_atomic_destination_absent. keeps. apply keeps_if_exists. Qed.
Lemma keeps_local_if_exists path : keeps_io P (DownloadPolicy.local_symlink_metadata_if_exists path).
Proof. unfold DownloadPolicy.local_symlink_metadata_if_exists. keeps; by apply quiet. Qed.

#[local] Hint Resolve keeps_quiet keeps_call keeps_check_cancelled keeps_emit keeps_if_exists keeps_found keeps_remote_lstat keeps_local_lstat
  keeps_reject keeps_dest_absent keeps_remote_absent keeps_local_if_exists : keeps.

Lemma keeps_copy add add' read write o d path initial total fuel copied :
  (∀ max, keeps_io P (read max)) → (∀ bytes, keeps_io P (write bytes)) →
  keeps_io P (copy_chunks add add' read write o d path initial total fuel copied).
Proof.
  intros Hr Hw. revert copied. induction fuel as [|fuel IH]; intros copied; cbn [copy_chunks]; keeps; auto with keeps.
Qed.

Lemma keeps_ensure_local path :
  (∀ d, d ∈ path_ancestors path → P (LCreateDir d)) → keeps_io P (ensure_local_directory_no_links path).
Proof.
  intros HP. unfold ensure_local_directory_no_links. apply keeps_for_each. intros d [Hd _]%directory_chain_ancestor.
  unfold ensure_local_component. keeps; [by apply quiet|by apply HP].
Qed.

Lemma keeps_ensure_local_parent path :
  (∀ d, local_directory_above path d → P (LCreateDir d)) → keeps_io P (ensure_local_parent path).
Proof.
  intros HP. unfold ensure_local_parent. destruct (nonempty_parent path) as [parent|] eqn:Hp; [|apply keeps_done].
  apply nonempty_parent_some in Hp as [Hp _]. apply keeps_ensure_local. intros d Hd. apply HP. by exists parent.
Qed.

Lemma keeps_ensure_segments path current segments :
  (∀ d, d ∈ remote_prefixes current segments → P (RCreateDir d)) → keeps_io P (p_fold (ensure_segment path) current segments).
Proof.
  revert current. induction segments as [|w ws IH]; intros current HP; [apply keeps_done|]. cbn [p_fold remote_prefixes] in *.
  unfold ensure_segment. case_bool_decide; [by apply IH|]. case_bool_decide; [done|].
  apply keeps_bind_with. rewrite wp_bind. eapply wp_mono; [apply keeps_if_exists|]. intros [[a|]|e] [] _; [| |done].
  - repeat case_match; try done. apply IH. intros d Hd. apply HP. by right.
  - rewrite wp_bind. unfold call. rewrite wp_bind. cbn. split; [apply HP; by left|]. intros [[]|e] [] _; cbn; [|done].
    apply IH. intros d Hd. apply HP. by right.
Qed.

Lemma keeps_ensure_remote path :
  (∀ d, d ∈ remote_chain path → P (RCreateDir d)) → keeps_io P (ensure_remote_dir path).
Proof.
  intros HP. unfold ensure_remote_dir. keeps. by apply keeps_ensure_segments.
Qed.
Lemma keeps_ensure_remote_parent path :
  (∀ d, remote_directory_above path d → P (RCreateDir d)) → keeps_io P (ensure_remote_parent path).
Proof.
  intros HP. unfold ensure_remote_parent. destruct (rsplit_once slash path) as [[parent name]|] eqn:Hp; [|apply keeps_done].
  keeps. apply keeps_ensure_remote. intros d Hd. apply HP. by exists parent, name.
Qed.
End quiet.

(** ** One download *)
Definition staging_of (path p : str) : Prop := ∃ suffix, p = path ++ PART ++ suffix.

(** What a download of [remote_path] to [local_path] may ask for. *)
Definition download_request (remote_path local_path : str) (is_atomic : bool) (q : req) : Prop :=
  match q with
  | LCreateDir d => local_directory_above local_path d
  | LOpen p options => lo_write options = true →
      if is_atomic then staging_of local_path p ∧ lo_create options = false ∧ lo_truncate options = false else p = local_path
  | LRemoveFile p => is_atomic = true ∧ staging_of local_path p
  | LHardLink from to => is_atomic = true ∧ staging_of local_path from ∧ to = local_path
  | LRename _ _ => False
  | ROpen p flags => p = remote_path ∧ of_write flags = false
  | RCreateDir _ | RRename _ _ | RRemoveFile _ | RRemoveDir _ | RSetMetadata _ _ _ | RWrite _ _ => False
  | _ => True
  end.

Definition upload_request (local_path remote_path : str) (is_atomic : bool) (q : req) : Prop :=
  match q with
  | RCreateDir d => remote_directory_above remote_path d
  | ROpen p flags => of_write flags = true →
      if is_atomic then staging_of remote_path p ∧ of_truncate flags = false ∧ (of_create flags = true → of_exclude flags = true)
      else p = remote_path
  | RRename from to => is_atomic = true ∧ staging_of remote_path from ∧ to = remote_path
  | RRemoveFile _ | RRemoveDir _ => False
  | RSetMetadata p _ _ => p = remote_path
  | LOpen p options => p = local_path ∧ lo_write options = false
  | LCreateDir _ | LRename _ _ | LRemoveFile _ | LHardLink _ _ | LWrite _ _ | LSetModified _ _ => False
  | _ => True
  end.

(** Stepping into a program, and closing the requests that its predicate allows. *)
Ltac touches := keeps; auto with keeps; try done.
Ltac touches_call := apply keeps_call, keeps_ask; cbn; try done; try naive_solver.

Section files.
Context `{FileModes} (fuel : nat).

Lemma stable_staging path : staging_of path (stable_staging_path path).
Proof. exists []. unfold stable_staging_path. by rewrite app_nil_r. Qed.
Lemma unique_staging (P : req → Prop) d path :
  quiet_ok P →
  wp (only (E := io_interface) P) (unique_staging_path d path) (λ r _, match r with Ok p => staging_of path p | Err _ => True end) tt.
Proof. intros HP. cbn. repeat (split; [by apply HP|]; intros ? [] _). by eexists. Qed.

Lemma keeps_work_path (P : req → Prop) {A} (o : TransferOptions) d path (f : str → transfer A) :
  quiet_ok P → (∀ p, staging_of path p → keeps_io P (f p)) →
  keeps_io P (p_bind (if resume o then p_ret (stable_staging_path path) else unique_staging_path d path) f).
Proof.
  intros HP Hf. apply keeps_bind_with. destruct (resume o).
  - apply Hf, stable_staging.
  - eapply wp_mono; [by apply unique_staging|]. intros [p|e] [] Hp; [by apply Hf|done].
Qed.


Lemma download_quiet remote_path local_path is_atomic : quiet_ok (download_request remote_path local_path is_atomic).
Proof. by intros []. Qed.
Lemma upload_quiet local_path remote_path is_atomic : quiet_ok (upload_request local_path remote_path is_atomic).
Proof. by intros []. Qed.

#[local] Hint Resolve keeps_quiet keeps_call keeps_check_cancelled keeps_emit keeps_if_exists keeps_found keeps_remote_lstat keeps_local_lstat
  keeps_reject keeps_dest_absent keeps_remote_absent keeps_local_if_exists keeps_ensure_local_parent keeps_ensure_remote_parent
  download_quiet upload_quiet : keeps.

Section download.
Context (remote_path local_path : str) (is_atomic : bool).
Abbreviation P := (download_request remote_path local_path is_atomic).

Lemma keeps_local_mtime path mtime :
  (if is_atomic then staging_of local_path path else path = local_path) → keeps_io P (preserve_local_mtime path mtime).
Proof.
  intros Hp. unfold preserve_local_mtime. keeps; apply keeps_call; apply keeps_ask; [|done]. cbn. by destruct is_atomic.
Qed.

Lemma keeps_in_place o : atomic o = false → is_atomic = false → keeps_io P (Engine.download_file fuel remote_path local_path o).
Proof.
  intros Ho Hat. unfold Engine.download_file, Engine.transfer_local_work_path, Engine.clean_up, Engine.copy_with_progress. rewrite Ho. cbn [negb].
  rewrite bool_decide_eq_true_2 by done. cbn [negb].
  touches; first [apply keeps_local_mtime; by rewrite Hat|apply keeps_copy; [apply download_quiet|intros; touches_call..]|touches_call; by rewrite Hat].
Qed.

Lemma keeps_discard o work_path {A} e : is_atomic = true → staging_of local_path work_path →
  keeps_io P (DownloadPolicy.discard_staging (A := A) o work_path e).
Proof. intros Hat Hs. unfold DownloadPolicy.discard_staging. touches. Qed.

Lemma keeps_publish work_path : is_atomic = true → staging_of local_path work_path →
  keeps_io P (DownloadPolicy.finish_local_atomic work_path local_path).
Proof.
  intros Hat Hs. unfold DownloadPolicy.finish_local_atomic. touches; by touches_call.
Qed.

Lemma keeps_atomic o : is_atomic = true → keeps_io P (DownloadPolicy.download_file_atomic fuel remote_path local_path o).
Proof.
  intros Hat. unfold DownloadPolicy.download_file_atomic. do 6 (apply keeps_bind; [touches|intros ?; cbv zeta]).
  apply keeps_work_path; [auto with keeps|]. intros work_path Hs.
  unfold DownloadPolicy.copy_to_staging, DownloadPolicy.commit_staging, DownloadPolicy.open_atomic_staging, DownloadPolicy.copy_with_progress.
  touches; first [apply keeps_local_mtime; by rewrite Hat|by apply keeps_publish|by apply keeps_discard
    |apply keeps_copy; [apply download_quiet|intros; touches_call..]|touches_call; by rewrite Hat].
Qed.
End download.

Section upload.
Context (local_path remote_path : str) (is_atomic : bool).
Abbreviation P := (upload_request local_path remote_path is_atomic).

Lemma keeps_remote_mtime m : keeps_io P (preserve_remote_mtime remote_path m).
Proof. unfold preserve_remote_mtime. touches; by touches_call. Qed.

Lemma keeps_upload_in_place o : atomic o = false → is_atomic = false → keeps_io P (Engine.upload_file fuel local_path remote_path o).
Proof.
  intros Ho Hat. unfold Engine.upload_file, Engine.transfer_remote_work_path, Engine.copy_with_progress. rewrite Ho.
  touches; first [apply keeps_remote_mtime|apply keeps_copy; [apply upload_quiet|intros; touches_call..]|touches_call; by rewrite Hat].
Qed.

Lemma keeps_remote_publish work_path : is_atomic = true → staging_of remote_path work_path →
  keeps_io P (Policy.finish_remote_atomic work_path remote_path).
Proof. intros Hat Hs. unfold Policy.finish_remote_atomic. touches; by touches_call. Qed.

Lemma keeps_upload_atomic o : is_atomic = true → keeps_io P (Policy.upload_file_atomic fuel local_path remote_path o).
Proof.
  intros Hat. unfold Policy.upload_file_atomic. do 6 (apply keeps_bind; [touches|intros ?; cbv zeta]).
  apply keeps_work_path; [auto with keeps|]. intros work_path Hs. unfold Policy.copy_to_staging, Policy.copy_with_progress.
  touches; first [apply keeps_remote_mtime|by apply keeps_remote_publish|apply keeps_copy; [apply upload_quiet|intros; touches_call..]
    |touches_call; rewrite Hat; intros; split_and!; try done; by destruct (Policy.some _)].
Qed.
End upload.
End files.

(** ** Properties *)

(** Whatever the server and the disk answer, a download opens nothing but its
    remote file on the server, for reading.  In atomic mode it changes the disk only
    at staging files beside the destination (never created over or truncated), and
    touches the destination only by a hard link from one; in place, it opens nothing
    but the destination and removes nothing.  It makes only directories above. *)
Theorem download_confined `{FileModes} fuel remote_path local_path o :
  keeps_io (download_request remote_path local_path (atomic o)) (DownloadPolicy.download_file fuel remote_path local_path o).
Proof.
  unfold DownloadPolicy.download_file. apply keeps_bind; [apply keeps_done|]. intros _.
  destruct (atomic o) eqn:Ho; [by apply keeps_atomic|by apply keeps_in_place].
Qed.

(** Whatever the server and the disk answer, an upload only reads its local file.
    In atomic mode it writes only to a staging file beside the destination, created
    exclusively and never truncated, and renames it to the destination; in place, it
    opens nothing but the destination.  It removes nothing, and makes only
    directories above. *)
Theorem upload_confined `{FileModes} fuel local_path remote_path o :
  keeps_io (upload_request local_path remote_path (atomic o)) (Policy.upload_file fuel local_path remote_path o).
Proof.
  unfold Policy.upload_file. apply keeps_bind; [apply keeps_done|]. intros _. apply keeps_bind; [apply keeps_done|]. intros _.
  destruct (atomic o) eqn:Ho; [by apply keeps_upload_atomic|by apply keeps_upload_in_place].
Qed.
