(* ===== verification/TransferExact.v ===== *)
(** * What a transfer leaves behind

    A file world: regular files and directories by their paths on both sides, open
    handles with their positions, and answers that may be errors at any time unless
    [calm] holds.  In it an atomic transfer is all or nothing: the destination is
    never seen half written, the staging file is always a prefix of the source, and
    in a calm world the transfer ends and has copied the file. *)

From stdpp Require Import base list gmap strings numbers sorting.
From Stdlib Require Import Lia.
From S2P Require Import Prelude RustStr StrFacts RemotePath Sftp RemoteServer TaskRegistry Program LocalPath TransferOps Transfer TransferSafety.

(** ** The world *)
Record side := mk_side { regular : gmap str (list Z); dirs : gset str; handles : gmap Z (str * Z) }.
Record files := mk_files { on_server : side; on_disk : side }.

(** Bytes written at an offset. *)
Definition splice (content : list Z) (offset : Z) (bytes : list Z) : list Z :=
  take (Z.to_nat offset) content ++ bytes ++ drop (Z.to_nat offset + length bytes) content.

Definition set_file (path : str) (c : option (list Z)) (s : side) : side :=
  mk_side (match c with Some c => <[path := c]> (regular s) | None => delete path (regular s) end) (dirs s) (handles s).
Definition set_handle (h : Z) (p : str * Z) (s : side) : side := mk_side (regular s) (dirs s) (<[h := p]> (handles s)).
Definition add_dir (path : str) (s : side) : side := mk_side (regular s) ({[path]} ∪ dirs s) (handles s).

Section world.
Context `{FileModes} (calm : Prop).

(** *** One side *)
Definition opens (path : str) (create exclusive truncate : bool) (r : result Z) (s s' : side) : Prop :=
  match r with
  | Ok h =>
      handles s !! h = None ∧
      ∃ c, match regular s !! path with
           | Some old => exclusive = false ∧ c = if truncate then [] else old
           | None => (create || exclusive) = true ∧ c = []
           end ∧ s' = set_handle h (path, 0) (set_file path (Some c) s)
  | Err _ => s' = s ∧ (calm → regular s !! path = None ∧ (create || exclusive) = false ∨ is_Some (regular s !! path) ∧ exclusive = true)
  end.
Definition seeks (h offset : Z) (r : result unit) (s s' : side) : Prop :=
  match r with
  | Ok _ => ∃ path at_, handles s !! h = Some (path, at_) ∧ s' = set_handle h (path, offset) s
  | Err _ => s' = s ∧ ¬ calm
  end.
(** Any part of what follows; nothing only at the end. *)
Definition reads (h max : Z) (r : result (list Z)) (s s' : side) : Prop :=
  match r with
  | Ok bytes => ∃ path at_ c, handles s !! h = Some (path, at_) ∧ regular s !! path = Some c ∧
      zlen bytes ≤ max ∧ bytes `prefix_of` drop (Z.to_nat at_) c ∧ (bytes = [] → drop (Z.to_nat at_) c = []) ∧
      s' = set_handle h (path, at_ + zlen bytes) s
  | Err _ => s' = s ∧ ¬ calm
  end.
(** A failed write may have written a part. *)
Definition writes (h : Z) (bytes : list Z) (r : result unit) (s s' : side) : Prop :=
  ∃ path at_ c written, handles s !! h = Some (path, at_) ∧ regular s !! path = Some c ∧
    s' = set_handle h (path, at_ + zlen written) (set_file path (Some (splice c at_ written)) s) ∧
    match r with Ok _ => written = bytes | Err _ => written `prefix_of` bytes ∧ ¬ calm end.
Definition makes_dir (path : str) (r : creation) (s s' : side) : Prop :=
  match r with
  | Created => path ∉ dirs s ∧ regular s !! path = None ∧ s' = add_dir path s
  | AlreadyExists => s' = s ∧ (path ∈ dirs s ∨ is_Some (regular s !! path) ∨ ¬ calm)
  | NotCreated _ => s' = s ∧ ¬ calm
  end.
(** A new name for a file that has the other name no more. *)
Definition renames (from to : str) (r : result unit) (s s' : side) : Prop :=
  match r with
  | Ok _ => ∃ c, regular s !! from = Some c ∧ s' = set_file to (Some c) (set_file from None s)
  | Err _ => s' = s ∧ (calm → regular s !! from = None ∨ is_Some (regular s !! to) ∨ to ∈ dirs s)
  end.
Definition links (from to : str) (r : creation) (s s' : side) : Prop :=
  match r with
  | Created => ∃ c, regular s !! from = Some c ∧ regular s !! to = None ∧ s' = set_file to (Some c) s
  | AlreadyExists => s' = s ∧ (is_Some (regular s !! to) ∨ to ∈ dirs s ∨ ¬ calm)
  | NotCreated _ => s' = s ∧ (calm → regular s !! from = None)
  end.
Definition removes (path : str) (r : result unit) (s s' : side) : Prop :=
  match r with
  | Ok _ => is_Some (regular s !! path) ∧ s' = set_file path None s
  | Err _ => s' = s ∧ (calm → regular s !! path = None)
  end.

(** A directory that is not empty stays. *)
Definition removes_dir (path : str) (r : result unit) (s s' : side) : Prop :=
  match r with
  | Ok _ => path ∈ dirs s ∧ s' = mk_side (regular s) (dirs s ∖ {[ path ]}) (handles s)
  | Err _ => s' = s
  end.

(** What a look at a path tells. *)
Definition sees {A} (is_file is_directory : A → Prop) (len : A → Z) (path : str) (r : sftp_result A) (s : side) : Prop :=
  match r with
  | SOk a =>
      (is_file a → ∃ c, regular s !! path = Some c ∧ len a = zlen c) ∧ (¬ is_file a → regular s !! path = None) ∧
      (calm → is_file a ∨ is_directory a ∧ path ∈ dirs s)
  | NoSuchFile => regular s !! path = None ∧ path ∉ dirs s
  | SErr _ => ¬ calm
  end.

(** *** Both sides *)
Definition at_server (R : side → side → Prop) (g g' : files) : Prop := R (on_server g) (on_server g') ∧ on_disk g' = on_disk g.
Definition at_disk (R : side → side → Prop) (g g' : files) : Prop := R (on_disk g) (on_disk g') ∧ on_server g' = on_server g.

Definition file_step (q : req) : req_answer q → files → files → Prop :=
  match q with
  | RLstat p => λ r g g', sees (λ a, remote_type a = FtFile) (λ a, remote_type a = FtDir) remote_len p r (on_server g) ∧ g' = g
  | LLstat p | LStat p => λ r g g', sees (λ m, lm_kind m = KRegular) (λ m, lm_kind m = KDirectory) lm_len p r (on_disk g) ∧ g' = g
  | ROpen p flags => λ r, at_server (opens p (of_create flags) (of_exclude flags) (of_truncate flags) r)
  | LOpen p o => λ r, at_disk (opens p (lo_create o) (lo_create_new o) (lo_truncate o) r)
  | RSeek h offset => λ r, at_server (seeks h offset r)
  | LSeek h offset => λ r, at_disk (seeks h offset r)
  | RRead h max => λ r, at_server (reads h max r)
  | LRead h max => λ r, at_disk (reads h max r)
  | RWrite h bytes => λ r, at_server (writes h bytes r)
  | LWrite h bytes => λ r, at_disk (writes h bytes r)
  | RCreateDir p => λ r, at_server (makes_dir p match r with Ok _ => Created | Err e => NotCreated e end)
  | LCreateDir p => λ r, at_disk (makes_dir p r)
  | RRename a b => λ r, at_server (renames a b r)
  | LRename a b => λ r, at_disk (renames a b r)
  | LHardLink a b => λ r, at_disk (links a b r)
  | RRemoveFile p => λ r, at_server (removes p r)
  | RRemoveDir p => λ r, at_server (removes_dir p r)
  | LRemoveFile p => λ r, at_disk (removes p r)
  | OpenSession | CloseSession | RFlush _ | RShutdown _ | RSetMetadata _ _ _ | LFlush _ | LSyncAll _ | LSetModified _ _ =>
      λ r g g', g' = g ∧ match r with Ok _ => True | Err _ => ¬ calm end
  | IsCancelled => λ r g g', g' = g ∧ (r = true → ¬ calm)
  | RReadDir _ => λ r g g', g' = g
  | LReadDir _ => λ r g g', g' = g
  | RTryExists p => λ r g g', g' = g
  | TrySend _ => λ r g g', g' = g
  | FetchSerial _ | Now | ProcessId => λ r g g', g' = g
  end.
Definition file_world : monitor io_interface files := Monitor (E := io_interface) (λ _ _, True) file_step.
End world.

(** ** Single steps *)
Section steps.
Context `{FileModes} (calm : Prop).
Abbreviation wpf p Q g := (wp (file_world calm) p Q g).

Lemma wp_call {A} (p : transfer (result A)) Q g :
  wpf (call p) Q g ↔ wpf p (λ r g, match r with Ok r => Q r g | Err e => Q (Err e) g end) g.
Proof. unfold call. by rewrite wp_bind. Qed.

(** A request that leaves the files alone. *)
Definition stays {A} (g : files) (R : A → Prop) (r : result A) (g' : files) : Prop :=
  g' = g ∧ match r with Ok a => R a | Err _ => ¬ calm end.

Lemma wp_check_cancelled g : wpf check_cancelled (stays g (λ _, True)) g.
Proof. split; [done|]. intros [] g' [-> Hc]; (split; [done|]); cbn; auto. Qed.
Lemma wp_emit o d p b t c g : wpf (emit_progress o d p b t c) (λ r g', r = Ok tt ∧ g' = g) g.
Proof. unfold emit_progress. destruct (progress o); [|by split]. split; [done|]. by intros [] g' ->. Qed.
(** The copy loop: [Inv n] when [n] bytes of [content] are in place. *)
Section copy.
Context (add_copied add_progress : Z → Z → result Z) (content : list Z) (initial : Z) (Inv : Z → files → Prop) (Broken : files → Prop).
Context (read : Z → transfer (list Z)) (write_all : list Z → transfer unit) (o : TransferOptions) (d : TransferDirection) (path : str)
  (total : option Z).
Hypothesis adds : ∀ a b, 0 ≤ a → 0 ≤ b → a + b ≤ u64_max → add_copied a b = Ok (a + b) ∧ add_progress a b = Ok (a + b).
Hypothesis content_len : zlen content ≤ u64_max.
Hypothesis initial_nonneg : 0 ≤ initial.
Hypothesis inv_broken : ∀ n g, Inv n g → Broken g.
Hypothesis read_ok : ∀ n g, Inv n g → 0 ≤ n →
  wpf (read TRANSFER_BUFFER_SIZE) (λ r g', match r with
    | Ok bytes => zlen bytes ≤ TRANSFER_BUFFER_SIZE ∧ bytes `prefix_of` drop (Z.to_nat n) content ∧
        match bytes with
        | [] => drop (Z.to_nat n) content = [] ∧ Inv n g'
        | _ => wpf (write_all bytes) (λ r g', match r with Ok _ => Inv (n + zlen bytes) g' | Err _ => ¬ calm ∧ Broken g' end) g'
        end
    | Err _ => ¬ calm ∧ Broken g' end) g.

Lemma copy_exact fuel copied g :
  0 ≤ copied → initial + copied ≤ zlen content → Inv (initial + copied) g →
  wpf (copy_chunks add_copied add_progress read write_all o d path initial total fuel copied)
    (λ r g', match r with
      | Ok n => n = zlen content - initial ∧ Inv (zlen content) g'
      | Err _ => Broken g' ∧ (calm → Z.of_nat fuel ≤ zlen content - (initial + copied)) end) g.
Proof.
  revert copied g. induction fuel as [|fuel IH]; intros copied g Hc Hle Hinv; cbn [copy_chunks].
  - split; [by eapply inv_broken|]. intros _. lia.
  - rewrite wp_bind. eapply wp_mono; [apply wp_check_cancelled|]. intros [_|e] g1 [-> H1]; [|split; [by eapply inv_broken|done]].
    rewrite wp_bind. eapply wp_mono; [apply (read_ok _ _ Hinv); lia|].
    intros [bytes|e] g2; [|by intros []]. intros (Hmax & [rest Hpre] & H2). cbv zeta.
    rewrite take_ge by lia. destruct bytes as [|b bs].
    + destruct H2 as [Hend H2].
      assert (initial + copied = zlen content) as Heq.
      { apply (f_equal length) in Hend. rewrite length_drop in Hend. cbn in Hend. lia. }
      split; [lia|]. by rewrite <- Heq.
    + assert (zlen (b :: bs) ≤ zlen content - (initial + copied)) as Hlen.
      { apply (f_equal length) in Hpre. rewrite length_drop, length_app in Hpre. lia. }
      set (bytes := b :: bs) in *. assert (1 ≤ zlen bytes) by (cbn; lia).
      rewrite wp_bind. eapply wp_mono; [exact H2|]. intros [_|e] g3; [|by intros []]. intros H3.
      rewrite wp_bind. cbn [wp]. destruct (adds copied (zlen bytes)) as [-> _]; [lia..|].
      rewrite wp_bind. cbn [wp]. destruct (adds initial (copied + zlen bytes)) as [_ ->]; [lia..|].
      rewrite wp_bind. eapply wp_mono; [apply wp_emit|]. intros r g4 [-> ->].
      eapply wp_mono; [apply IH; [lia..|]|].
      { by replace (initial + (copied + zlen bytes)) with (initial + copied + zlen bytes) by lia. }
      intros [n|e] g5; [done|]. intros [Hb Hf]. split; [done|]. intros Hcalm. specialize (Hf Hcalm). lia.
Qed.
End copy.

(** One read and one write of a copy. *)
Lemma reads_at h max r p n content s s' :
  regular s !! p = Some content → reads calm h max r (set_handle h (p, n) s) s' →
  match r with
  | Ok bytes => zlen bytes ≤ max ∧ bytes `prefix_of` drop (Z.to_nat n) content ∧ (bytes = [] → drop (Z.to_nat n) content = []) ∧
      s' = set_handle h (p, n + zlen bytes) s
  | Err _ => s' = set_handle h (p, n) s ∧ ¬ calm
  end.
Proof.
  intros Hc. destruct r as [bytes|e]; cbn; [|done]. intros (p' & n' & c & Hh & Hf & Hmax & Hpre & Hend & ->).
  rewrite lookup_insert_eq in Hh. injection Hh as <- <-. assert (c = content) as -> by congruence.
  split_and!; [done..|]. unfold set_handle. cbn. by rewrite insert_insert_eq.
Qed.

Lemma splice_prefix (content bytes : list Z) n :
  0 ≤ n ≤ zlen content → bytes `prefix_of` drop (Z.to_nat n) content →
  splice (take (Z.to_nat n) content) n bytes = take (Z.to_nat (n + zlen bytes)) content.
Proof.
  intros Hn [rest Hrest]. unfold splice.
  rewrite take_take, Nat.min_id, (drop_ge (take _ _)), app_nil_r by (rewrite length_take; lia).
  rewrite Z2Nat.inj_add, Nat2Z.id by lia. rewrite <- take_take_drop, Hrest, take_app_length. done.
Qed.

Lemma writes_at h bytes r p n content s s' :
  0 ≤ n ≤ zlen content → bytes `prefix_of` drop (Z.to_nat n) content →
  writes calm h bytes r (set_handle h (p, n) (set_file p (Some (take (Z.to_nat n) content)) s)) s' →
  ∃ k, n ≤ k ∧ s' = set_handle h (p, k) (set_file p (Some (take (Z.to_nat k) content)) s) ∧
    match r with Ok _ => k = n + zlen bytes | Err _ => ¬ calm end.
Proof.
  intros Hn Hpre (p' & n' & c & written & Hh & Hf & -> & Hr). cbn in Hh, Hf.
  rewrite lookup_insert_eq in Hh. injection Hh as <- <-.
  rewrite lookup_insert_eq in Hf. injection Hf as <-.
  assert (written `prefix_of` bytes) as Hw by (destruct r; [by subst|by destruct Hr]).
  exists (n + zlen written). split; [lia|]. rewrite splice_prefix by (done || by etrans). split.
  - unfold set_handle, set_file. cbn. by rewrite !insert_insert_eq.
  - destruct r; [by subst|by destruct Hr].
Qed.

(** *** Directories *)

(** Only directories above a path were made. *)
Definition grown (above : str → Prop) (s s' : side) : Prop :=
  regular s' = regular s ∧ handles s' = handles s ∧ ∀ d, d ∈ dirs s' → d ∈ dirs s ∨ above d.

Lemma grown_refl above s : grown above s s.
Proof. split_and!; [done..|]. by left. Qed.
Lemma grown_trans above s1 s2 s3 : grown above s1 s2 → grown above s2 s3 → grown above s1 s3.
Proof. intros (? & ? & Hd1) (? & ? & Hd2). split_and!; [congruence..|]. intros d [Hd|Hd]%Hd2; [by apply Hd1|by right]. Qed.
Lemma grown_add (above : str → Prop) d s : above d → grown above s (add_dir d s).
Proof. intros Hd. split_and!; [done..|]. cbn. intros d' [->%elem_of_singleton|Hd']%elem_of_union; [by right|by left]. Qed.

Lemma wp_local_lstat path g :
  wpf (local_lstat path) (λ r g', g' = g ∧ match r with
    | Ok m => sees calm (λ m, lm_kind m = KRegular) (λ m, lm_kind m = KDirectory) lm_len path (SOk m) (on_disk g)
    | Err _ => calm → regular (on_disk g) !! path = None ∧ path ∉ dirs (on_disk g) end) g.
Proof. cbn. split; [done|]. intros [m| |e] g' [Hs ->]; cbn in *; (split; [done|]); [done|by intros _|by intros ?]. Qed.

Lemma validate_directory_not m :
  is_ok (validate_local_directory m) = false → lm_kind m ≠ KDirectory.
Proof.
  unfold validate_local_directory, is_local_link_like, local_is. intros Hv Hk. rewrite Hk in Hv. done.
Qed.

Lemma wp_ensure_local_component (above : str → Prop) d g :
  above d →
  wpf (ensure_local_component d) (λ r g', on_server g' = on_server g ∧ grown above (on_disk g) (on_disk g') ∧
    match r with Ok _ => True | Err _ => calm → is_Some (regular (on_disk g) !! d) end) g.
Proof.
  intros Hd. unfold ensure_local_component. cbn. split; [done|]. intros r g1 [Hsees ->].
  assert (∀ m, sees calm (λ m, lm_kind m = KRegular) (λ m, lm_kind m = KDirectory) lm_len d (SOk m) (on_disk g) →
    match validate_local_directory m with Ok _ => True | Err _ => calm → is_Some (regular (on_disk g) !! d) end) as Hvalid.
  { intros m (Hfile & _ & Hcalm). destruct (validate_local_directory m) as [|e] eqn:Hv; [done|]. intros HC.
    destruct (Hcalm HC) as [Hk|[Hk _]]; [destruct (Hfile Hk) as (c & -> & _); by eexists|].
    by destruct (validate_directory_not m); [rewrite Hv|]. }
  destruct r as [m| |e]; cbn -[sees].
  - split; [done|]. split; [apply grown_refl|]. by apply Hvalid.
  - split; [done|]. intros r g2 [Hmake Hserver]. destruct Hsees as [Hnone Hnot]. destruct r as [| |e]; cbn in *.
    + destruct Hmake as (_ & _ & Hmake). rewrite Hmake. split_and!; [done|by apply grown_add|done].
    + destruct Hmake as [Hsame Hwhy]. split; [done|]. intros r g3 [Hs ->]. rewrite Hsame in Hs.
      assert (calm → is_Some (regular (on_disk g) !! d)) as Hnc.
      { intros HC. by destruct Hwhy as [?|[?|?]]. }
      destruct r as [m| |e]; cbn -[sees]; rewrite ?Hserver, Hsame; (split; [done|]; split; [apply grown_refl|]); [|done..].
      by apply Hvalid.
    + destruct Hmake as [Hsame Hwhy]. rewrite Hsame. split_and!; [done|apply grown_refl|done].
  - split; [done|]. split; [apply grown_refl|]. done.
Qed.

(** What stands in the way of the directories above a path. *)
Definition blocked_above (path : str) (s : side) : Prop := ∃ d, local_directory_above path d ∧ is_Some (regular s !! d).

Lemma wp_ensure_local_parent path g :
  wpf (ensure_local_parent path) (λ r g', on_server g' = on_server g ∧ grown (local_directory_above path) (on_disk g) (on_disk g') ∧
    match r with Ok _ => True | Err _ => calm → blocked_above path (on_disk g) end) g.
Proof.
  unfold ensure_local_parent. destruct (nonempty_parent path) as [parent|] eqn:Hp.
  2: { split_and!; [done|apply grown_refl|done]. }
  apply nonempty_parent_some in Hp as [Hp _]. unfold ensure_local_directory_no_links.
  apply wp_for_each with (I := λ _ g', on_server g' = on_server g ∧ grown (local_directory_above path) (on_disk g) (on_disk g')).
  - split; [done|apply grown_refl].
  - intros g' [? ?]. done.
  - intros d l g' [Hd _]%directory_chain_ancestor [Hserver Hgrown].
    eapply wp_mono; [apply (wp_ensure_local_component (local_directory_above path)); by exists parent|].
    intros [[]|e] g'' (Hs & Hg & Hr); (assert (on_server g'' = on_server g) by congruence);
      (assert (grown (local_directory_above path) (on_disk g) (on_disk g'')) by (by eapply grown_trans)); [done|].
    split_and!; [done..|]. intros HC. exists d. split; [by exists parent|]. destruct Hgrown as (<- & _). by apply Hr.
Qed.

(** *** Publishing a download *)

(** What keeps a destination from being created. *)
Definition occupied (path : str) (s : side) : Prop :=
  blocked_above path s ∨ is_Some (regular s !! path) ∨ path ∈ dirs s.

Lemma above_shorter path d : local_directory_above path d → (length d < length path)%nat.
Proof.
  intros (parent & Hp & Hd). apply path_parent_prefix in Hp as [_ Hl]. apply ancestors_prefix, prefix_length in Hd. lia.
Qed.

(** What publishing [c], staged at [work], as [final] does to the disk. *)
Definition published (work final : str) (c : list Z) (s : side) (r : result unit) (s' : side) : Prop :=
  (∀ d, d ∈ dirs s' → d ∈ dirs s ∨ local_directory_above final d) ∧
  match r with
  | Ok _ => regular s !! final = None ∧ regular s' = delete work (<[final := c]> (regular s))
  | Err _ => (regular s' = regular s ∨ regular s !! final = None ∧ regular s' = <[final := c]> (regular s)) ∧ (calm → occupied final s)
  end.

Lemma wp_publish work final c g :
  regular (on_disk g) !! work = Some c → work ≠ final →
  wpf (DownloadPolicy.finish_local_atomic work final)
    (λ r g', on_server g' = on_server g ∧ published work final c (on_disk g) r (on_disk g')) g.
Proof.
  intros Hwork Hne. unfold DownloadPolicy.finish_local_atomic. rewrite wp_bind.
  eapply wp_mono; [apply wp_ensure_local_parent|].
  intros [[]|e] g1 (Hserver & (Hreg & Hhan & Hdirs) & Hr).
  2: { split; [done|]. split; [done|]. split; [by left|]. intros HC. left. by apply Hr. }
  rewrite wp_bind, wp_context. eapply wp_mono; [apply wp_local_lstat|]. intros [m|e] g2 [-> Hm]; cbn [in_context].
  2: { split; [done|]. split; [done|]. split; [by left|]. intros HC. destruct (Hm HC) as [Hnone _]. congruence. }
  assert (lm_kind m = KRegular) as Hk.
  { destruct Hm as (_ & Hm & _). destruct (decide (lm_kind m = KRegular)); [done|]. rewrite Hreg, Hwork in Hm. by specialize (Hm n). }
  unfold is_local_link_like, local_is. rewrite Hk. cbn [bool_decide orb negb bail_if]. rewrite wp_bind. cbn [wp].
  split; [done|]. intros r g3 [Hl Hs3]. change (creation) in r. destruct r as [| |e]; cbn [links] in Hl.
  - destruct Hl as (c' & Hc' & Hfinal & Hg3). assert (c' = c) as -> by congruence. cbn [p_bind p_ret].
    rewrite wp_context, wp_call. cbn [wp ask]. split; [done|]. intros r g4 [Hrm Hs4]. destruct r as [[]|e]; cbn [removes in_context] in *.
    + destruct Hrm as [_ Hg4]. split; [congruence|]. rewrite Hg4, Hg3. split; [done|]. cbn. rewrite Hreg in *. by rewrite Hfinal.
    + destruct Hrm as [Hg4 Hrm]. split; [congruence|]. rewrite Hg4, Hg3. split; [done|]. rewrite Hreg in *. cbn. rewrite Hreg. split; [by right|].
      intros HC. specialize (Hrm HC). rewrite Hg3 in Hrm. cbn in Hrm. rewrite lookup_insert_ne, Hreg in Hrm by done. congruence.
  - destruct Hl as [Hg3 Hwhy]. split; [cbn; congruence|]. cbn. rewrite Hg3. split; [done|]. split; [by left|]. intros HC.
    right. rewrite Hreg in Hwhy. destruct Hwhy as [?|[Hd|?]]; [by left|right|done].
    destruct (Hdirs _ Hd) as [?|Hab%above_shorter]; [done|lia].
  - destruct Hl as [Hg3 Hwhy]. split; [cbn; congruence|]. cbn. rewrite Hg3. split; [done|]. split; [by left|]. intros HC.
    specialize (Hwhy HC). congruence.
Qed.

(** *** Copying into a staging file *)

(** The staging file is as it was, or holds a part of [content] from [offset] on. *)
Definition partly (work : str) (content : list Z) (offset : Z) (s s' : side) : Prop :=
  regular s' = regular s ∨ ∃ k, offset ≤ k ∧ regular s' = <[work := take (Z.to_nat k) content]> (regular s).

Definition copied_to (fuel : nat) (work : str) (content : list Z) (offset : Z) (s : side) (r : result (result Z)) (s' : side) : Prop :=
  dirs s' = dirs s ∧
  match r with
  | Ok (Ok copied) => copied = zlen content - offset ∧ regular s' = <[work := content]> (regular s)
  | Ok (Err _) => partly work content offset s s' ∧ (calm → Z.of_nat fuel ≤ zlen content - offset)
  | Err _ => partly work content offset s s' ∧ ¬ calm
  end.

(** Both handles are at [n], and [n] bytes are there. *)
Definition copying (hs : Z) (sp : str) (hd : Z) (dp : str) (content : list Z) (n : Z) (src0 dst0 src dst : side) : Prop :=
  0 ≤ n ≤ zlen content ∧
  src = set_handle hs (sp, n) src0 ∧ dst = set_handle hd (dp, n) (set_file dp (Some (take (Z.to_nat n) content)) dst0).

(** The copy stopped somewhere. *)
Definition stopped (hs : Z) (sp : str) (hd : Z) (dp : str) (content : list Z) (from : Z) (src0 dst0 src dst : side) : Prop :=
  ∃ n k, from ≤ k ∧ src = set_handle hs (sp, n) src0 ∧ dst = set_handle hd (dp, k) (set_file dp (Some (take (Z.to_nat k) content)) dst0).

Lemma checked_adds a b e e' : a + b ≤ u64_max →
  with_context (checked_add u64_max a b) e = Ok (a + b) ∧ with_context (checked_add u64_max a b) e' = Ok (a + b).
Proof. intros Hle. split; apply with_context_ok, checked_add_some; done. Qed.

Section down.
Context (fuel : nat) (remote_path work : str) (content : list Z) (o : TransferOptions).
Hypothesis content_len : zlen content ≤ u64_max.

Lemma wp_copy_down hs hd offset total src0 dst0 g :
  0 ≤ offset → regular src0 !! remote_path = Some content →
  copying hs remote_path hd work content offset src0 dst0 (on_server g) (on_disk g) →
  wpf (DownloadPolicy.copy_with_progress fuel (λ max, call (tell (RRead hs max))) (λ bytes, call (tell (LWrite hd bytes))) remote_path offset total o)
    (λ r g', match r with
      | Ok n => n = zlen content - offset ∧ copying hs remote_path hd work content (zlen content) src0 dst0 (on_server g') (on_disk g')
      | Err _ => stopped hs remote_path hd work content offset src0 dst0 (on_server g') (on_disk g') ∧ (calm → Z.of_nat fuel ≤ zlen content - offset) end) g.
Proof.
  intros Ho Hsrc Hinv. unfold DownloadPolicy.copy_with_progress.
  pose (Inv := λ n g, offset ≤ n ∧ copying hs remote_path hd work content n src0 dst0 (on_server g) (on_disk g)).
  pose (Broken := λ g, stopped hs remote_path hd work content offset src0 dst0 (on_server g) (on_disk g)).
  eapply wp_mono; [apply (copy_exact _ _ content offset Inv Broken)|]; try done.
  - intros a b _ _ Hle. by apply checked_adds.
  - intros n g' (Hle & _ & Hs & Hd). by exists n, n.
  - intros n g' (Hle & Hn & Hs & Hd) _. rewrite wp_call. cbn -[TRANSFER_BUFFER_SIZE]. split; [done|]. intros r g1 [Hread Hd1].
    rewrite Hs in Hread. apply (reads_at _ _ _ _ _ content) in Hread; [|done]. destruct r as [bytes|e].
    + destruct Hread as (Hmax & Hpre & Hend & Hs1). cbn [wp]. split_and!; [done..|]. destruct bytes as [|b bs].
      * split; [by apply Hend|]. rewrite Z.add_0_r in Hs1. split; [done|]. split_and!; [lia..|congruence|congruence].
      * set (bytes := b :: bs) in *. split; [done|]. intros r g2 [Hw Hs2].
        rewrite Hd1, Hd in Hw. apply writes_at in Hw as (k & Hk & Hd2 & Hr); [|done..].
        pose proof (prefix_length _ _ Hpre) as Hlen. rewrite length_drop in Hlen.
        destruct r as [[]|e]; cbn [wp].
        -- subst k. split; [lia|]. split_and!; [lia..|congruence|congruence].
        -- split; [done|]. exists (n + zlen bytes), k. split_and!; [lia|congruence|congruence].
    + destruct Hread as [Hs1 Hnc]. split; [done|]. exists n, n. split_and!; [lia|congruence|congruence].
  - destruct Hinv as [? _]. lia.
  - rewrite Z.add_0_r. split; [lia|done].
  - intros [n|e] g' [Hr Hi]; rewrite ?Z.add_0_r in *; [by destruct Hi|done].
Qed.

Lemma stopped_partly hs hd from src0 dst0 c0 src dst :
  stopped hs remote_path hd work content from src0 (set_file work (Some c0) dst0) src dst → partly work content from dst0 dst.
Proof. intros (n & k & Hk & _ & ->). right. exists k. split; [done|]. cbn. by rewrite insert_insert_eq. Qed.

Lemma wp_copy_to_staging offset total g :
  0 ≤ offset ≤ zlen content → regular (on_server g) !! remote_path = Some content →
  (regular (on_disk g) !! work = Some (take (Z.to_nat offset) content) ∨ regular (on_disk g) !! work = None ∧ offset = 0) →
  wpf (DownloadPolicy.copy_to_staging fuel remote_path work (Policy.some (regular (on_disk g) !! work)) offset total o)
    (λ r g', regular (on_server g') = regular (on_server g) ∧ copied_to fuel work content offset (on_disk g) (snd <$> r) (on_disk g')) g.
Proof.
  intros Ho Hsrc Hwork. unfold DownloadPolicy.copy_to_staging, DownloadPolicy.open_atomic_staging.
  rewrite wp_bind, wp_context, wp_call. cbn [wp ask]. split; [done|]. intros r g1 [Hopen Hd1]. destruct r as [hs|e]; cbn [in_context opens] in *.
  2: { destruct Hopen as [Hs1 Hnc]. rewrite Hs1, Hd1. split; [done|]. split; [done|]. split; [by left|]. intros HC.
       destruct (Hnc HC) as [[? _]|[_ ?]]; [congruence|done]. }
  destruct Hopen as (_ & c & Hc & Hs1). rewrite Hsrc in Hc. destruct Hc as [_ ->]. cbn in Hs1.
  rewrite wp_bind, wp_context, wp_call. cbn [wp ask]. split; [done|]. intros r g2 [Hopen Hs2]. destruct r as [hd|e]; cbn [in_context opens] in *.
  2: { destruct Hopen as [Hd2 Hnc]. rewrite Hd2, Hs2, Hs1, Hd1. cbn. rewrite insert_id by done. split; [done|]. split; [done|]. split; [by left|]. intros HC.
       rewrite Hd1 in Hnc. destruct (Hnc HC) as [[Hn Hf]|[[x Hx] Hf]]; [by rewrite Hn in Hf|by rewrite Hx in Hf]. }
  destruct Hopen as (_ & c & Hc & Hd2). rewrite Hd1 in Hc, Hd2.
  assert (c = take (Z.to_nat offset) content) as ->.
  { destruct Hwork as [Hw|[Hw ->]]; rewrite Hw in Hc; [by destruct Hc as [_ ->]|destruct Hc as [_ ->]; done]. }
  pose (src0 := set_file remote_path (Some content) (on_server g)).
  pose (dst0 := set_file work (Some (take (Z.to_nat offset) content)) (on_disk g)).
  assert (∀ n, regular (set_handle hs (remote_path, n) src0) = regular (on_server g)) as Hsame by (intros n; cbn; by rewrite insert_id).
  assert (∀ g', on_server g' = set_handle hs (remote_path, 0) src0 ∨ on_server g' = set_handle hs (remote_path, offset) src0 →
    on_disk g' = set_handle hd (work, 0) dst0 → regular (on_server g') = regular (on_server g) ∧ dirs (on_disk g') = dirs (on_disk g) ∧ partly work content offset (on_disk g) (on_disk g')) as Hbroken.
  { intros g' Hg' Hg''. split; [destruct Hg' as [-> | ->]; apply Hsame|]. rewrite Hg''. split; [done|]. right. by exists offset. }
  rewrite wp_bind. apply wp_mono with (Q := λ r g3, match r with
    | Ok _ => copying hs remote_path hd work content offset src0 dst0 (on_server g3) (on_disk g3)
    | Err _ => ¬ calm ∧ regular (on_server g3) = regular (on_server g) ∧ dirs (on_disk g3) = dirs (on_disk g) ∧ partly work content offset (on_disk g) (on_disk g3) end).
  - destruct (Z.eqb_spec offset 0) as [-> |Hz]; cbn [negb].
    + cbn. split; [lia|]. rewrite Hs2, Hs1, Hd2. split; [done|]. unfold dst0, set_handle, set_file. cbn. by rewrite insert_insert_eq.
    + rewrite wp_bind, wp_call. cbn [wp ask]. split; [done|]. intros r g3 [Hseek Hd3]. destruct r as [[]|e]; cbn [seeks] in Hseek.
      2: { destruct Hseek as [Hs3 ?]. split; [done|]. apply Hbroken; [left; by rewrite Hs3, Hs2, Hs1|by rewrite Hd3, Hd2]. }
      destruct Hseek as (p & at_ & Hh & Hs3). rewrite Hs2, Hs1 in Hh. cbn in Hh. rewrite lookup_insert_eq in Hh. injection Hh as <- <-.
      assert (on_server g3 = set_handle hs (remote_path, offset) src0) as Hs3'.
      { rewrite Hs3, Hs2, Hs1. unfold set_handle. cbn. by rewrite insert_insert_eq. }
      rewrite wp_call. cbn [wp ask]. split; [done|]. intros r g4 [Hseek Hs4]. destruct r as [[]|e]; cbn [seeks] in Hseek.
      2: { destruct Hseek as [Hd4 ?]. split; [done|]. apply Hbroken; [right; by rewrite Hs4|by rewrite Hd4, Hd3, Hd2]. }
      destruct Hseek as (p & at' & Hh' & Hd4). rewrite Hd3, Hd2 in Hh'. cbn in Hh'. rewrite lookup_insert_eq in Hh'. injection Hh' as <- <-.
      split; [lia|]. split; [by rewrite Hs4|]. rewrite Hd4, Hd3, Hd2. unfold dst0, set_handle, set_file. cbn. by rewrite !insert_insert_eq.
  - intros [[]|e] g3 H3; [|by destruct H3 as (? & ? & ? & ?)].
    rewrite wp_bind. eapply wp_mono; [apply wp_emit|]. intros r g4 [-> ->].
    rewrite wp_bind, wp_try. eapply wp_mono; [eapply wp_copy_down; [lia| |exact H3]; cbn; by rewrite lookup_insert_eq|].
    intros [n|e] g5 H5; cbn.
    + destruct H5 as (-> & _ & -> & ->). split; [apply Hsame|]. split; [done|]. split; [done|]. cbn. rewrite !insert_insert_eq. f_equal. apply take_ge. lia.
    + destruct H5 as [Hst Hf]. pose proof (stopped_partly _ _ _ _ _ _ _ _ Hst). destruct Hst as (n & k & _ & Hs5 & Hd5).
      split; [rewrite Hs5; apply Hsame|]. split; [by rewrite Hd5|]. done.
Qed.
End down.

(** *** The end of a download *)
Lemma wp_local_mtime path mtime c g :
  regular (on_disk g) !! path = Some c →
  wpf (preserve_local_mtime path mtime) (λ r g', on_server g' = on_server g ∧ dirs (on_disk g') = dirs (on_disk g) ∧
    regular (on_disk g') = regular (on_disk g) ∧ match r with Ok _ => True | Err _ => ¬ calm end) g.
Proof.
  intros Hc. unfold preserve_local_mtime. destruct mtime as [secs|]; [|done].
  rewrite wp_bind, wp_context, wp_call. cbn [wp ask]. split; [done|]. intros r g1 [Hopen Hs1]. destruct r as [h|e]; cbn [in_context opens] in *.
  2: { destruct Hopen as [-> Hnc]. split_and!; [done..|]. intros HC. destruct (Hnc HC) as [[? _]|[_ ?]]; [congruence|done]. }
  destruct Hopen as (_ & c' & Hc' & Hd1). rewrite Hc in Hc'. destruct Hc' as [_ ->].
  rewrite wp_context, wp_call. cbn [wp ask]. split; [done|]. intros r g2 [Hg2 Hr]. subst g2.
  split; [done|]. rewrite Hd1. cbn. rewrite insert_id by done. destruct r; done.
Qed.

(** After an error: a fresh staging file is removed, one to resume stays. *)
Lemma wp_discard {A} o work e g :
  wpf (DownloadPolicy.discard_staging (A := A) o work e) (λ r g', is_ok r = false ∧ on_server g' = on_server g ∧
    dirs (on_disk g') = dirs (on_disk g) ∧
    (regular (on_disk g') = regular (on_disk g) ∨ resume o = false ∧ regular (on_disk g') = delete work (regular (on_disk g)))) g.
Proof.
  unfold DownloadPolicy.discard_staging. destruct (resume o); cbn [negb]; [cbn; auto|].
  rewrite wp_bind, wp_bind, wp_try, wp_call. cbn [wp ask p_ret]. split; [done|]. intros r g1 [Hr Hs1].
  destruct r as [[]|e']; cbn [removes] in Hr; [destruct Hr as [_ Hr]|destruct Hr as [Hr _]]; cbn; rewrite Hr; split_and!; auto.
Qed.

(** How a transfer from [s], with [c] staged at [work], ends when it fails. *)
Definition abandoned (o : TransferOptions) (work final : str) (c : list Z) (s s' : side) : Prop :=
  (∀ p, p ≠ final → p ≠ work → regular s' !! p = regular s !! p) ∧
  (regular s' !! final = regular s !! final ∨ regular s !! final = None ∧ regular s' !! final = Some c) ∧
  (regular s' !! work = Some c ∨ resume o = false ∧ regular s' !! work = None).

Lemma abandoned_discard o work final c s s' s'' :
  regular s !! work = Some c → work ≠ final →
  (regular s' = regular s ∨ regular s !! final = None ∧ regular s' = <[final := c]> (regular s)) →
  (regular s'' = regular s' ∨ resume o = false ∧ regular s'' = delete work (regular s')) → abandoned o work final c s s''.
Proof.
  intros Hc Hne Hs' Hs''. split_and!.
  - intros p Hf Hw. destruct Hs'' as [-> |[_ ->]]; rewrite ?lookup_delete_ne by done; (destruct Hs' as [-> |[_ ->]]; [done|]); by rewrite lookup_insert_ne.
  - assert (regular s'' !! final = regular s' !! final) as ->.
    { destruct Hs'' as [-> |[_ ->]]; [done|]. by rewrite lookup_delete_ne. }
    destruct Hs' as [-> |[? ->]]; [by left|right]. by rewrite lookup_insert_eq.
  - destruct Hs'' as [-> |[? ->]]; [left|right; split; [done|apply lookup_delete_eq]].
    destruct Hs' as [-> |[_ ->]]; [done|]. by rewrite lookup_insert_ne.
Qed.

Lemma wp_commit remote_path local_path work mtime total o h copied c g :
  regular (on_disk g) !! work = Some c → work ≠ local_path →
  wpf (DownloadPolicy.commit_staging remote_path local_path work mtime total o h copied)
    (λ r g', regular (on_server g') = regular (on_server g) ∧
      match r with
      | Ok n => n = copied ∧ regular (on_disk g) !! local_path = None ∧
          regular (on_disk g') = delete work (<[local_path := c]> (regular (on_disk g)))
      | Err _ => abandoned o work local_path c (on_disk g) (on_disk g') ∧ (calm → occupied local_path (on_disk g))
      end) g.
Proof.
  intros Hc Hne. unfold DownloadPolicy.commit_staging.
  assert (∀ e g', on_disk g' = on_disk g → on_server g' = on_server g → ¬ calm →
    regular (on_server g') = regular (on_server g) ∧ match Err (A := Z) e with Ok _ => False | Err _ =>
      abandoned o work local_path c (on_disk g) (on_disk g') ∧ (calm → occupied local_path (on_disk g)) end) as Hstop.
  { intros e g' -> ->. split; [done|]. split; [|done]. split_and!; [done|by left|by left]. }
  rewrite wp_bind, wp_call. cbn [wp ask]. split; [done|]. intros r g1 [-> Hr]. destruct r as [[]|e]; [|by apply (Hstop e)].
  rewrite wp_bind, wp_call. cbn [wp ask]. split; [done|]. intros r g1 [-> Hr1]. destruct r as [[]|e]; [|by apply (Hstop e)].
  rewrite wp_bind. eapply wp_mono; [by apply (wp_local_mtime _ _ c)|]. intros [[]|e] g1 (Hs1 & Hdirs & Hreg & Hnc).
  2: { split; [by rewrite Hs1|]. split; [|done]. split_and!; [by rewrite Hreg|left; by rewrite Hreg|left; by rewrite Hreg]. }
  rewrite wp_bind, wp_try. eapply wp_mono; [apply (wp_publish work local_path c); [by rewrite Hreg|done]|].
  intros [[]|e] g2 (Hs2 & _ & Hp).
  - rewrite wp_bind. eapply wp_mono; [apply wp_emit|]. intros r g3 [-> ->]. cbn.
    split; [congruence|]. rewrite Hreg in Hp. done.
  - eapply wp_mono; [apply wp_discard|]. intros [n|e'] g3 (Hf & Hs3 & _ & Hreg3); [done|]. clear Hf.
    destruct Hp as [Hp Hocc]. rewrite Hreg in *. split; [congruence|]. split; [by apply abandoned_discard with (on_disk g2)|].
    intros HC. specialize (Hocc HC). unfold occupied, blocked_above in *. by rewrite Hreg, Hdirs in Hocc.
Qed.

(** *** The whole download *)
Definition staged_len (o : TransferOptions) (path : str) (s : side) : Z :=
  if resume o then zlen (default [] (regular s !! stable_staging_path path)) else 0.

(** What is left of the staging file when an interrupted transfer stops. *)
Definition interrupted (o : TransferOptions) (final : str) (content : list Z) (s s' : side) : Prop :=
  ∃ work, staging_of final work ∧ (resume o = true → work = stable_staging_path final) ∧
    (∀ p, p ≠ final → p ≠ work → regular s' !! p = regular s !! p) ∧
    (regular s' !! final = regular s !! final ∨ regular s !! final = None ∧ regular s' !! final = Some content) ∧
    (regular s' !! work = regular s !! work ∨ ∃ k, staged_len o final s ≤ k ∧ regular s' !! work = Some (take (Z.to_nat k) content)).

Definition transferred (o : TransferOptions) (final : str) (content : list Z) (s : side) (r : result Z) (s' : side) : Prop :=
  match r with
  | Ok n => n = zlen content - staged_len o final s ∧ regular s !! final = None ∧
      regular s' = <[final := content]> (if resume o then delete (stable_staging_path final) (regular s) else regular s)
  | Err _ => interrupted o final content s s'
  end.

(** Nothing stands in the way, and [fuel] reads are enough. *)
Definition ready (fuel : nat) (o : TransferOptions) (final : str) (content : list Z) (s : side) : Prop :=
  ¬ occupied final s ∧ zlen content < Z.of_nat fuel ∧
  ∀ p, staging_of final p → p ∉ dirs s ∧ (is_Some (regular s !! p) → resume o = true ∧ p = stable_staging_path final).

(** A staging file to resume holds a part of the source. *)
Definition resumable (o : TransferOptions) (final : str) (content : list Z) (s : side) : Prop :=
  resume o = true → ∀ c, regular s !! stable_staging_path final = Some c → c `prefix_of` content.

Lemma unchanged o final content s s' : regular s' = regular s → interrupted o final content s s'.
Proof. intros Hs. exists (stable_staging_path final). rewrite Hs. split_and!; try done; [apply stable_staging|by left|by left]. Qed.

Lemma staging_not_final final work : staging_of final work → work ≠ final.
Proof.
  intros [suffix ->] Heq. apply (f_equal length) in Heq. rewrite !length_app in Heq. cbn in Heq. lia.
Qed.

Lemma transferred_resumable o final content s r s' :
  resumable o final content s → transferred o final content s r s' → resumable o final content s'.
Proof.
  intros Hs Ht Hr c Hc. destruct r as [n|e].
  - destruct Ht as (_ & _ & Ht). rewrite Ht, Hr, lookup_insert_ne, lookup_delete_eq in Hc; [done|].
    apply not_eq_sym, staging_not_final, stable_staging.
  - destruct Ht as (work & _ & Hwork & _ & _ & Hw). rewrite Hwork in Hw by done. rewrite Hc in Hw.
    destruct Hw as [Hw|(k & _ & [= ->])]; [by apply Hs|]. exists (drop (Z.to_nat k) content). by rewrite take_drop.
Qed.

Lemma wp_work_path (o : TransferOptions) d path g :
  wpf (if resume o then p_ret (stable_staging_path path) else unique_staging_path d path)
    (λ r g', g' = g ∧ ∃ work, r = Ok work ∧ staging_of path work ∧ (resume o = true → work = stable_staging_path path)) g.
Proof.
  destruct (resume o).
  - split; [done|]. eexists. split; [done|]. split; [apply stable_staging|done].
  - cbn. split; [done|]. intros stamp g1 ->. split; [done|]. intros serial g1 ->. split; [done|]. intros process g1 ->.
    split; [done|]. eexists. split; [done|]. split; [by eexists|done].
Qed.

Section download.
Context (fuel : nat) (remote_path local_path : str) (content : list Z) (o : TransferOptions) (g : files).
Hypothesis content_len : zlen content ≤ u64_max.
Hypothesis source : regular (on_server g) !! remote_path = Some content.
Hypothesis staged : resumable o local_path content (on_disk g).

Definition download_ends (r : result Z) (g' : files) : Prop :=
  regular (on_server g') = regular (on_server g) ∧ transferred o local_path content (on_disk g) r (on_disk g') ∧
  (calm → ready fuel o local_path content (on_disk g) → is_ok r = true).

Lemma fails_unchanged e g' :
  regular (on_server g') = regular (on_server g) → regular (on_disk g') = regular (on_disk g) →
  (calm → ¬ ready fuel o local_path content (on_disk g)) → download_ends (Err e) g'.
Proof. intros Hs Hd Hr. split; [done|]. split; [by apply unchanged|]. intros HC HR. by destruct (Hr HC). Qed.

(** A staging file to go on with is a regular file no longer than the source. *)
Lemma staged_offset_spec m total :
  (lm_kind m = KRegular ∧ lm_len m ≤ total ∧ resume o = true ∧ DownloadPolicy.staged_offset o (Some m) total = Ok (lm_len m)) ∨
  ¬ (lm_kind m = KRegular ∧ lm_len m ≤ total ∧ resume o = true) ∧ ∃ e, DownloadPolicy.staged_offset o (Some m) total = Err e.
Proof.
  unfold DownloadPolicy.staged_offset, DownloadPolicy.validate_resume_staging, is_local_link_like, local_is.
  destruct (lm_kind m); cbn; try (right; split; [naive_solver|by eexists]).
  destruct (Z.ltb_spec total (lm_len m)); cbn; [right; split; [lia|by eexists]|].
  destruct (resume o); cbn; [by left|right; split; [naive_solver|by eexists]].
Qed.

(** The disk once its directories are made. *)
Definition prepared (g1 : files) : Prop :=
  regular (on_server g1) = regular (on_server g) ∧ regular (on_disk g1) = regular (on_disk g) ∧
  ∀ d, d ∈ dirs (on_disk g1) → d ∈ dirs (on_disk g) ∨ local_directory_above local_path d.

Lemma prepared_fails e g1 : prepared g1 → (calm → ¬ ready fuel o local_path content (on_disk g)) → download_ends (Err e) g1.
Proof. intros (Hs & Hd & _). by apply fails_unchanged. Qed.

(** Where the copy starts. *)
Definition start (work : str) (offset : Z) : Prop :=
  staging_of local_path work ∧ (resume o = true → work = stable_staging_path local_path) ∧
  0 ≤ offset ≤ zlen content ∧ offset = staged_len o local_path (on_disk g) ∧
  (regular (on_disk g) !! work = Some (take (Z.to_nat offset) content) ∧ resume o = true ∨ regular (on_disk g) !! work = None ∧ offset = 0).

Lemma wp_staged_offset work (f : bool → Z → transfer Z) g1 :
  prepared g1 → staging_of local_path work → (resume o = true → work = stable_staging_path local_path) →
  (∀ offset, start work offset → wpf (f (Policy.some (regular (on_disk g1) !! work)) offset) download_ends g1) →
  wpf (work_metadata ⇐ DownloadPolicy.local_symlink_metadata_if_exists work;
    Done (bail_if (negb (resume o) && Policy.some work_metadata) "fresh atomic download staging path already exists") ;;
    offset ⇐ Done (DownloadPolicy.staged_offset o work_metadata (zlen content));
    f (Policy.some work_metadata) offset)%prog download_ends g1.
Proof.
  intros Hprep Hs Hstable Hf. pose proof Hprep as (_ & Hreg & Hdirs).
  assert (∀ e, (calm → ¬ ready fuel o local_path content (on_disk g)) → download_ends (Err e) g1) as Hfail by (intros e; by apply prepared_fails).
  cbn -[DownloadPolicy.staged_offset]. split; [done|]. intros r g2 [Hsees ->]. destruct r as [m| |e]; cbn [p_ret p_err p_bind].
  - destruct Hsees as (Hfile & Hnot & Hcalm).
    assert (calm → ready fuel o local_path content (on_disk g) → lm_kind m = KRegular ∧ resume o = true) as Hgood.
    { intros HC (_ & _ & Hfree). destruct (Hfree work Hs) as [Hd Hsome]. destruct (Hcalm HC) as [Hk|[_ Hin]].
      - split; [done|]. destruct (Hfile Hk) as (c & Hc & _). rewrite Hreg in Hc. destruct Hsome; [by eexists|done].
      - destruct (Hdirs _ Hin) as [?|Hab%above_shorter]; [done|]. destruct Hs as [suffix ->]. rewrite !length_app in Hab. lia. }
    cbn -[DownloadPolicy.staged_offset]. rewrite andb_true_r. destruct (resume o) eqn:Hr; cbn [negb bail_if].
    2: { apply Hfail. intros HC HR. by destruct (Hgood HC HR). }
    destruct (staged_offset_spec m (zlen content)) as [(Hk & Hle & _ & ->)|[Hbad [e ->]]].
    + destruct (Hfile Hk) as (c & Hc & Hlen). rewrite Hreg, Hstable in Hc by done. pose proof (staged Hr _ Hc) as Hpre. pose proof (prefix_length _ _ Hpre).
      rewrite Hreg, Hstable, Hc in Hf by done. apply Hf. rewrite Hlen in *. split_and!; try done; [apply stable_staging|apply Nat2Z.is_nonneg| |left; split; [|done]].
      * unfold staged_len. by rewrite Hr, Hc.
      * rewrite Hc. destruct Hpre as [rest ->]. by rewrite Nat2Z.id, take_app_length.
    + apply Hfail. intros HC HR. destruct (Hgood HC HR) as [Hk _]. apply Hbad. split; [done|]. split; [|done].
      destruct (Hfile Hk) as (c & Hc & ->). rewrite Hreg, Hstable in Hc by done. pose proof (prefix_length _ _ (staged Hr _ Hc)). lia.
  - destruct Hsees as [Hnone _]. rewrite andb_false_r. cbn. rewrite Hnone in Hf. rewrite Hreg in Hnone. apply Hf.
    split_and!; try done; [lia| |by right]. unfold staged_len. destruct (resume o) eqn:Hr; [|done]. rewrite <- Hstable by done. by rewrite Hnone.
  - cbn. by apply Hfail.
Qed.

Lemma occupied_not_ready work s' :
  staging_of local_path work → (∀ p, p ≠ work → regular s' !! p = regular (on_disk g) !! p) →
  (∀ d, d ∈ dirs s' → d ∈ dirs (on_disk g) ∨ local_directory_above local_path d) →
  occupied local_path s' → ¬ ready fuel o local_path content (on_disk g).
Proof.
  intros Hs Hreg Hdirs Hocc (Hfree & _ & _). apply Hfree. destruct Hocc as [(d & Hd & Hx)|[Hx|Hx]].
  - left. exists d. split; [done|]. rewrite <- Hreg; [done|]. intros ->. apply above_shorter in Hd. destruct Hs as [suffix ->].
    rewrite !length_app in Hd. lia.
  - right. left. rewrite <- Hreg; [done|]. by apply not_eq_sym, staging_not_final.
  - right. right. destruct (Hdirs _ Hx) as [?|Hab%above_shorter]; [done|lia].
Qed.

Lemma partly_interrupted work offset s1 s2 s3 :
  start work offset → regular s1 = regular (on_disk g) → partly work content offset s1 s2 →
  (regular s3 = regular s2 ∨ resume o = false ∧ regular s3 = delete work (regular s2)) → interrupted o local_path content (on_disk g) s3.
Proof.
  intros (Hs & Hstable & Ho & Hlen & Hstart) Hs1 Hpartly Hs3. exists work. split; [done|]. split; [done|].
  pose proof (staging_not_final _ _ Hs) as Hne. rewrite <- Hs1 in *. split_and!.
  - intros p _ Hw. destruct Hs3 as [-> |[_ ->]]; rewrite ?lookup_delete_ne by done; (destruct Hpartly as [-> |(k & _ & ->)]; [done|]); by rewrite lookup_insert_ne.
  - left. destruct Hs3 as [-> |[_ ->]]; rewrite ?lookup_delete_ne by done; (destruct Hpartly as [-> |(k & _ & ->)]; [done|]); by rewrite lookup_insert_ne.
  - destruct Hs3 as [-> |[Hr ->]].
    + destruct Hpartly as [-> |(k & Hk & ->)]; [by left|right]. exists k. rewrite lookup_insert_eq. split; [lia|done].
    + left. rewrite lookup_delete_eq. destruct Hstart as [[_ Hr']|[-> _]]; [congruence|done].
Qed.

Lemma abandoned_interrupted work offset s1 s2 :
  start work offset → (∀ p, p ≠ work → regular s1 !! p = regular (on_disk g) !! p) → abandoned o work local_path content s1 s2 →
  interrupted o local_path content (on_disk g) s2.
Proof.
  intros (Hs & Hstable & Ho & Hlen & Hstart) Hs1 (Hothers & Hfinal & Hwork). exists work. split; [done|]. split; [done|].
  pose proof (not_eq_sym (staging_not_final _ _ Hs)) as Hne. split_and!.
  - intros p Hp1 Hp2. by rewrite Hothers, Hs1.
  - by rewrite !Hs1 in Hfinal.
  - destruct Hwork as [Hw|[Hr Hw]].
    + right. exists (zlen content). split; [lia|]. by rewrite Nat2Z.id, take_ge.
    + left. destruct Hstart as [[_ Hr']|[-> _]]; [congruence|done].
Qed.

Lemma transferred_all work offset s' :
  start work offset → regular (on_disk g) !! local_path = None →
  regular s' = delete work (<[local_path := content]> (regular (on_disk g))) ∨
  regular s' = delete work (<[local_path := content]> (<[work := content]> (regular (on_disk g)))) →
  transferred o local_path content (on_disk g) (Ok (zlen content - offset)) s'.
Proof.
  intros (Hs & Hstable & Ho & Hlen & Hstart) Hfinal Hs'. pose proof (staging_not_final _ _ Hs) as Hne. split; [lia|]. split; [done|].
  assert (regular s' = <[local_path := content]> (delete work (regular (on_disk g)))) as ->.
  { rewrite <- delete_insert_ne by done. destruct Hs' as [-> | ->]; [done|]. rewrite (insert_insert_ne _ local_path work) by done. by rewrite delete_insert_eq. }
  destruct (resume o) eqn:Hr; [by rewrite Hstable|]. f_equal. apply delete_id. destruct Hstart as [[_ Hr']|[-> _]]; [congruence|done].
Qed.

(** Copying the rest, and publishing. *)
Lemma wp_copy_and_commit work offset mtime g1 :
  prepared g1 → start work offset →
  wpf (copying ⇐ DownloadPolicy.copy_to_staging fuel remote_path work (Policy.some (regular (on_disk g1) !! work)) offset (zlen content) o;
    match copying.2 with
    | Err error => DownloadPolicy.discard_staging o work error
    | Ok copied => DownloadPolicy.commit_staging remote_path local_path work mtime (zlen content) o copying.1 copied
    end)%prog download_ends g1.
Proof.
  intros (Hserver & Hreg & Hdirs) Hstart. pose proof Hstart as (Hs & _ & Ho & Hlen & Hw). rewrite wp_bind.
  eapply wp_mono; [apply (wp_copy_to_staging fuel remote_path work content o content_len offset); [done|by rewrite Hserver|]|].
  { rewrite Hreg. destruct Hw as [[Hw _]|Hw]; [by left|by right]. }
  intros [[h [copied|e]]|e] g2 (Hs2 & Hd2 & Hr); cbn [fst snd fmap result_fmap] in *.
  - destruct Hr as [-> Hr]. rewrite Hreg in Hr.
    eapply wp_mono; [apply (wp_commit _ _ work _ _ _ _ _ content); [by rewrite Hr, lookup_insert_eq|by apply staging_not_final]|].
    intros [n|e] g3 [Hs3 H3].
    + destruct H3 as (-> & Hfinal & H3). rewrite Hr in *. rewrite lookup_insert_ne in Hfinal by by apply staging_not_final.
      split; [congruence|]. split; [|done]. eapply transferred_all; [done|done|by right].
    + destruct H3 as [Hab Hocc]. split; [congruence|]. split; [eapply abandoned_interrupted; [done| |done]|].
      { intros p Hp. by rewrite Hr, lookup_insert_ne. }
      intros HC HR. exfalso. eapply occupied_not_ready; [exact Hs| | |exact (Hocc HC)|exact HR].
      * intros p Hp. by rewrite Hr, lookup_insert_ne.
      * rewrite Hd2. done.
  - destruct Hr as [Hpartly Hfuel]. eapply wp_mono; [apply wp_discard|]. intros [n|e'] g3 (Hf & Hs3 & _ & Hr3); [done|].
    split; [congruence|]. split; [by eapply partly_interrupted|]. intros HC (_ & Hlt & _). specialize (Hfuel HC). lia.
  - destruct Hr as [Hpartly Hnc]. split; [congruence|]. split; [by eapply partly_interrupted; [| | |left]|done].
Qed.

(** Publishing a staging file that is complete. *)
Lemma wp_complete work mtime g1 :
  prepared g1 → start work (zlen content) → regular (on_disk g) !! work = Some content →
  wpf (preserve_local_mtime work mtime ;;
    DownloadPolicy.finish_local_atomic work local_path ;;
    emit_progress o Download remote_path (zlen content) (Some (zlen content)) true ;;
    p_ret 0)%prog download_ends g1.
Proof.
  intros Hprep Hstart Hw. pose proof Hprep as (Hserver & Hreg & Hdirs). pose proof Hstart as (Hs & _).
  rewrite wp_bind. eapply wp_mono; [apply (wp_local_mtime _ _ content); by rewrite Hreg|]. intros [[]|e] g2 (Hs2 & Hd2 & Hr2 & Hnc).
  2: { apply fails_unchanged; [congruence..|done]. }
  rewrite wp_bind. eapply wp_mono; [apply (wp_publish work local_path content); [by rewrite Hr2, Hreg|by apply staging_not_final]|].
  intros [[]|e] g3 (Hs3 & _ & H3).
  - destruct H3 as [Hfinal H3]. rewrite wp_bind. eapply wp_mono; [apply wp_emit|]. intros r g4 [-> ->]. rewrite Hr2, Hreg in *.
    split; [congruence|]. split; [|done]. replace 0 with (zlen content - zlen content) by lia. by eapply transferred_all; [| |left].
  - destruct H3 as [H3 Hocc]. rewrite Hr2, Hreg in *. split; [congruence|]. split.
    + apply (abandoned_interrupted _ _ (on_disk g) _ Hstart); [done|]. apply (abandoned_discard _ _ _ _ _ (on_disk g3)); [done|by apply staging_not_final|done|by left].
    + intros HC HR. exfalso. eapply occupied_not_ready; [exact Hs| | |exact (Hocc HC)|exact HR]; [intros p _; by rewrite Hr2|by rewrite Hd2].
Qed.

Lemma remote_source a :
  sees calm (λ a, remote_type a = FtFile) (λ a, remote_type a = FtDir) remote_len remote_path (SOk a) (on_server g) →
  is_symlink a = false ∧ is_regular a = true ∧ remote_len a = zlen content.
Proof.
  intros (Hfile & Hnot & _). destruct (decide (remote_type a = FtFile)) as [Ht|Ht]; [|specialize (Hnot Ht); congruence].
  destruct (Hfile Ht) as (c & Hc & ->). unfold is_symlink, is_regular. rewrite Ht. split_and!; [done..|]. congruence.
Qed.

Lemma wp_destination_absent g1 :
  prepared g1 →
  wpf (DownloadPolicy.ensure_atomic_destination_absent local_path) (λ r g', g' = g1 ∧
    match r with Ok _ => True | Err _ => calm → ¬ ready fuel o local_path content (on_disk g) end) g1.
Proof.
  intros (_ & Hreg & Hdirs). cbn. split; [done|]. intros r g2 [Hsees ->]. destruct r as [m| |e]; cbn; [|done|by split].
  assert (calm → ¬ ready fuel o local_path content (on_disk g)) as Hbad; [|by case_match].
  destruct Hsees as (Hfile & _ & Hcalm). intros HC (Hfree & _). apply Hfree. right. destruct (Hcalm HC) as [Hk|[_ Hin]].
  - left. destruct (Hfile Hk) as (c & Hc & _). rewrite <- Hreg, Hc. by eexists.
  - right. destruct (Hdirs _ Hin) as [?|Hab%above_shorter]; [done|lia].
Qed.

Lemma wp_download_atomic : wpf (DownloadPolicy.download_file_atomic fuel remote_path local_path o) download_ends g.
Proof.
  assert (∀ e g', g' = g → (calm → ¬ ready fuel o local_path content (on_disk g)) → download_ends (Err e) g') as Hsame.
  { intros e g' ->. by apply fails_unchanged. }
  unfold DownloadPolicy.download_file_atomic.
  rewrite wp_bind. eapply wp_mono; [apply wp_check_cancelled|]. intros [_|e] g1 [-> H1]; [|by apply Hsame].
  rewrite wp_bind, wp_context. cbn [wp remote_lstat p_bind ask]. split; [done|]. intros r g1 [Hsees ->].
  destruct r as [a| |e]; cbn [found p_ret p_err wp in_context]; [|by destruct Hsees; congruence|by apply Hsame].
  destruct (remote_source a Hsees) as (-> & -> & Hlen). cbn [negb bail_if p_bind wp].
  rewrite wp_bind. eapply wp_mono; [apply wp_ensure_local_parent|]. intros [[]|e] g2 (Hserver & (Hreg & _ & Hdirs) & Hr).
  2: { apply fails_unchanged; [by rewrite Hserver|done|]. intros HC (Hfree & _). apply Hfree. left. by apply Hr. }
  assert (prepared g2) as Hprep by (split_and!; [by rewrite Hserver|done..]). cbv zeta. rewrite Hlen.
  rewrite wp_bind. eapply wp_mono; [by apply wp_destination_absent|]. intros [[]|e] g3 [-> H3]; [|by apply prepared_fails].
  rewrite wp_bind. eapply wp_mono; [apply wp_work_path|]. intros r g3 (-> & work & -> & Hs & Hstable).
  apply (wp_staged_offset work (λ existing offset,
    if resume o && (offset =? zlen content) && negb (zlen content =? 0) then
      preserve_local_mtime work (fa_mtime a) ;; DownloadPolicy.finish_local_atomic work local_path ;;
      emit_progress o Download remote_path (zlen content) (Some (zlen content)) true ;; p_ret 0
    else
      copying ⇐ DownloadPolicy.copy_to_staging fuel remote_path work existing offset (zlen content) o;
      match copying.2 with
      | Err error => DownloadPolicy.discard_staging o work error
      | Ok copied => DownloadPolicy.commit_staging remote_path local_path work (fa_mtime a) (zlen content) o copying.1 copied
      end)%prog); [done..|].
  intros offset Hstart. destruct (resume o && (offset =? zlen content) && negb (zlen content =? 0)) eqn:Hdone.
  - apply andb_true_iff in Hdone as [[Hres Heq%Z.eqb_eq]%andb_true_iff Hnz%negb_true_iff%Z.eqb_neq]. subst offset.
    apply wp_complete; [done..|]. destruct Hstart as (_ & _ & _ & _ & [[-> _]|[_ Hz]]); [|lia]. by rewrite Nat2Z.id, take_ge.
  - by apply wp_copy_and_commit.
Qed.
End download.
End steps.

(** ** A world to run in *)
Module Model.
Definition with_server (g : files) (s : side) : files := mk_files s (on_disk g).
Definition with_disk (g : files) (s : side) : files := mk_files (on_server g) s.

Definition fresh_handle (s : side) : Z := zlen (map_to_list (handles s)).
Definition open_at (path : str) (create exclusive truncate : bool) (s : side) : result Z * side :=
  let h := fresh_handle s in
  match regular s !! path with
  | Some old => if exclusive then (Err "exists", s) else (Ok h, set_handle h (path, 0) (set_file path (Some (if truncate then [] else old)) s))
  | None => if create || exclusive then (Ok h, set_handle h (path, 0) (set_file path (Some []) s)) else (Err "no such file", s)
  end.
Definition seek_at (h offset : Z) (s : side) : result unit * side :=
  match handles s !! h with Some (path, _) => (Ok tt, set_handle h (path, offset) s) | None => (Err "bad handle", s) end.
(** At most two bytes at a time. *)
Definition read_at (h : Z) (s : side) : result (list Z) * side :=
  match handles s !! h with
  | Some (path, at_) =>
      match regular s !! path with
      | Some c => let bytes := take 2 (drop (Z.to_nat at_) c) in (Ok bytes, set_handle h (path, at_ + zlen bytes) s)
      | None => (Err "gone", s)
      end
  | None => (Err "bad handle", s)
  end.
Definition write_at (h : Z) (bytes : list Z) (s : side) : result unit * side :=
  match handles s !! h with
  | Some (path, at_) =>
      match regular s !! path with
      | Some c => (Ok tt, set_handle h (path, at_ + zlen bytes) (set_file path (Some (splice c at_ bytes)) s))
      | None => (Err "gone", s)
      end
  | None => (Err "bad handle", s)
  end.
Definition link_at (from to : str) (s : side) : creation * side :=
  match regular s !! from, regular s !! to with
  | Some c, None => (Created, set_file to (Some c) s)
  | Some _, Some _ => (AlreadyExists, s)
  | None, _ => (NotCreated "no such file", s)
  end.
Definition rename_at (from to : str) (s : side) : result unit * side :=
  match regular s !! from, regular s !! to with
  | Some c, None => (Ok tt, set_file to (Some c) (set_file from None s))
  | _, _ => (Err "cannot rename", s)
  end.
Definition remove_at (path : str) (s : side) : result unit * side :=
  match regular s !! path with Some _ => (Ok tt, set_file path None s) | None => (Err "no such file", s) end.
Definition lstat_at {A} (file : list Z → A) (directory : A) (path : str) (s : side) : sftp_result A :=
  match regular s !! path with Some c => SOk (file c) | None => if bool_decide (path ∈ dirs s) then SOk directory else NoSuchFile end.

Definition modes : FileModes := {| mode_type := λ m, if m =? 1 then FtFile else if m =? 2 then FtDir else FtOther |}.
Definition attributes (mode : Z) (len : Z) : FileAttributes := mk_file_attributes (Some len) None None None None (Some mode) None (Some 7).

Definition serve (q : req) : files → req_answer q * files :=
  match q with
  | RLstat p => λ g, (lstat_at (λ c, attributes 1 (zlen c)) (attributes 2 0) p (on_server g), g)
  | LLstat p | LStat p => λ g, (lstat_at (λ c, mk_local_meta KRegular (zlen c) None 0) (mk_local_meta KDirectory 0 None 0) p (on_disk g), g)
  | ROpen p f => λ g, let '(r, s) := open_at p (of_create f) (of_exclude f) (of_truncate f) (on_server g) in (r, with_server g s)
  | LOpen p o => λ g, let '(r, s) := open_at p (lo_create o) (lo_create_new o) (lo_truncate o) (on_disk g) in (r, with_disk g s)
  | RSeek h n => λ g, let '(r, s) := seek_at h n (on_server g) in (r, with_server g s)
  | LSeek h n => λ g, let '(r, s) := seek_at h n (on_disk g) in (r, with_disk g s)
  | RRead h _ => λ g, let '(r, s) := read_at h (on_server g) in (r, with_server g s)
  | LRead h _ => λ g, let '(r, s) := read_at h (on_disk g) in (r, with_disk g s)
  | RWrite h b => λ g, let '(r, s) := write_at h b (on_server g) in (r, with_server g s)
  | LWrite h b => λ g, let '(r, s) := write_at h b (on_disk g) in (r, with_disk g s)
  | LHardLink a b => λ g, let '(r, s) := link_at a b (on_disk g) in (r, with_disk g s)
  | LRemoveFile p => λ g, let '(r, s) := remove_at p (on_disk g) in (r, with_disk g s)
  | RRemoveFile p => λ g, let '(r, s) := remove_at p (on_server g) in (r, with_server g s)
  | RRemoveDir p => λ g, (Ok tt, with_server g (mk_side (regular (on_server g)) (dirs (on_server g) ∖ {[ p ]}) (handles (on_server g))))
  | LCreateDir p => λ g, (Created, with_disk g (add_dir p (on_disk g)))
  | RCreateDir p => λ g, (Ok tt, with_server g (add_dir p (on_server g)))
  | RRename a b => λ g, let '(r, s) := rename_at a b (on_server g) in (r, with_server g s)
  | LRename a b => λ g, let '(r, s) := rename_at a b (on_disk g) in (r, with_disk g s)
  | OpenSession | CloseSession | RFlush _ | RShutdown _ | RSetMetadata _ _ _ | LFlush _ | LSyncAll _ | LSetModified _ _ => λ g, (Ok tt, g)
  | IsCancelled => λ g, (false, g)
  | RReadDir _ => λ g, (Ok [], g)
  | LReadDir _ => λ g, (Ok [], g)
  | RTryExists p => λ g, (Ok (bool_decide (is_Some (regular (on_server g) !! p))), g)
  | TrySend _ => λ g, (tt, g)
  | FetchSerial _ | Now | ProcessId => λ g, (0, g)
  end.

Definition source : str := lit "f".
Definition target : str := lit "d/f".
Definition content : list Z := [1; 2; 3; 4; 5].
Definition world (staged : option (list Z)) : files :=
  mk_files (mk_side {[ source := content ]} ∅ ∅)
    (mk_side (match staged with Some c => {[ stable_staging_path target := c ]} | None => ∅ end) ∅ ∅).
Definition options (resume : bool) : TransferOptions := mk_options resume true 4 16 262144 30 true.
Definition download (resume : bool) (staged : option (list Z)) : result Z * files :=
  run (E := io_interface) serve (@DownloadPolicy.download_file modes 10 source target (options resume)) (world staged).

Example fresh_download : regular (on_disk (download false None).2) = {[ target := content ]} ∧ (download false None).1 = Ok 5.
Proof. split; vm_compute; reflexivity. Qed.
Example resumed_download :
  regular (on_disk (download true (Some [1; 2])).2) = {[ target := content ]} ∧ (download true (Some [1; 2])).1 = Ok 3.
Proof. split; vm_compute; reflexivity. Qed.

(** A resumed transfer does not look at what is staged: bytes that are not the
    source's are published with the rest of it, and reported as a success. *)
Lemma resume_trusts_staging :
  regular (on_disk (download true (Some [9; 9])).2) = {[ target := [9; 9; 3; 4; 5] ]} ∧ (download true (Some [9; 9])).1 = Ok 3.
Proof. split; vm_compute; reflexivity. Qed.
End Model.

(** ** Properties *)

(** C2: An atomic download is all or nothing.  Whatever fails and wherever it is
    cancelled, the destination is as it was or, if there was none, holds the whole
    remote file; other files are untouched; a staging file to resume holds a part of
    the remote file, no shorter than before.  On success the destination was free, it
    holds the remote file, the staging file is gone and the count is of the bytes
    copied; and when nothing fails and nothing is in the way, the download succeeds. *)
Theorem download_all_or_nothing `{FileModes} (calm : Prop) fuel remote_path local_path content o g :
  atomic o = true → validated o = Ok tt → zlen content ≤ u64_max →
  regular (on_server g) !! remote_path = Some content → resumable o local_path content (on_disk g) →
  wp (file_world calm) (DownloadPolicy.download_file fuel remote_path local_path o)
    (λ r g', regular (on_server g') = regular (on_server g) ∧
      transferred o local_path content (on_disk g) r (on_disk g') ∧ resumable o local_path content (on_disk g') ∧
      (calm → ready fuel o local_path content (on_disk g) → is_ok r = true)) g.
Proof.
  intros Hatomic Hvalid Hlen Hsource Hstaged. unfold DownloadPolicy.download_file. rewrite Hvalid, Hatomic. cbn [p_bind negb].
  eapply wp_mono; [by apply (wp_download_atomic calm fuel remote_path local_path content o g)|].
  intros r g' (Hs & Ht & Hok). split_and!; [done..| |done]. by eapply transferred_resumable.
Qed.

Lemma download_all_or_nothing_witness :
  let g := Model.world (Some [1; 2]) in
  wp (@file_world Model.modes True) (@DownloadPolicy.download_file Model.modes 10 Model.source Model.target (Model.options true))
    (λ r g', regular (on_server g') = regular (on_server g) ∧
      transferred (Model.options true) Model.target Model.content (on_disk g) r (on_disk g') ∧
      resumable (Model.options true) Model.target Model.content (on_disk g') ∧
      (True → ready 10 (Model.options true) Model.target Model.content (on_disk g) → is_ok r = true)) g ∧
  (Model.download true (Some [1; 2])).1 = Ok 3.
Proof.
  split; [|vm_compute; reflexivity].
  apply (@download_all_or_nothing Model.modes True 10 Model.source Model.target Model.content (Model.options true)).
  - reflexivity.
  - vm_compute. reflexivity.
  - apply (bool_decide_unpack _). by vm_compute.
  - vm_compute. reflexivity.
  - intros _ c Hc. assert (c = [1; 2]) as -> by (vm_compute in Hc; by injection Hc as <-). by exists [3; 4; 5].
Defined.
