(* ===== verification/TransferTree.v ===== *)
(** * Recursive transfers
      ([crates/kaduox-ssh-transfer/src/transfer.rs], [transfer_policy.rs],
       [transfer_download_policy.rs], [client_ops.rs], [symlink_policy.rs])

    Trees are walked while a [JoinSet] transfers their files, at most
    [file_concurrency] at once.  Theorems, for every interleaving and whatever the
    server lists: what is touched is below the root the user named, no two downloads
    in place meet in one local file, and the summary counts what was done. *)

From stdpp Require Import base list gmap strings numbers sorting.
From Stdlib Require Import Lia.
From S2P Require Import Prelude RustStr StrFacts RemotePath Sftp RemoteServer TaskRegistry Program LocalPath TransferOps Transfer TransferSafety.

(** ** Definitions *)

(** A spawned transfer: its local and its remote path. *)
Record FileTask := mk_file_task { ft_local : str; ft_remote : str }.
Abbreviation tree := (prog (pooled io_interface FileTask Z)).
Abbreviation system p := (sys io_interface FileTask Z p).
Abbreviation tree_ask q := (ask (E := pooled io_interface FileTask Z) q).

Definition no_transfer : TransferSummary := mk_summary 0 0 0 0.
Definition add_skipped (s : TransferSummary) (n : Z) : TransferSummary := mk_summary (sum_files s) (sum_directories s) (sum_bytes s) n.
Definition add_directory (s : TransferSummary) (n : Z) : TransferSummary := mk_summary (sum_files s) n (sum_bytes s) (sum_skipped s).
Definition add_file (s : TransferSummary) (files bytes : Z) : TransferSummary := mk_summary files (sum_directories s) bytes (sum_skipped s).

Section tree.
Context `{FileModes}.

Section loops.
(** The engine's counters wrap, those of the policies are checked. *)
Context (add : Z → Z → string → result Z) (o : TransferOptions).

(** [collect_next_transfer], [collect_next_download]. *)
Definition collect_next (summary : TransferSummary) : tree TransferSummary :=
  (r ⇐ tree_ask JoinNext;
   match r with
   | None => p_err "recursive transfer task set unexpectedly empty"
   | Some r =>
       bytes ⇐ Done r;
       total ⇐ Done (add (sum_bytes summary) bytes "byte counter overflow");
       files ⇐ Done (add (sum_files summary) 1 "file counter overflow");
       p_ret (add_file summary files total)
   end)%prog.

(** [if tasks.len() >= options.file_concurrency { collect }; tasks.spawn(…)]. *)
Definition spawn_bounded (task : FileTask) (summary : TransferSummary) : tree TransferSummary :=
  (len ⇐ tree_ask Len;
   summary ⇐ (if file_concurrency o <=? len then collect_next summary else p_ret summary);
   tree_ask (Spawn task) ;;
   p_ret summary)%prog.

(** [while !tasks.is_empty() { collect }]: nothing is spawned any more, so that there
    are as many rounds as tasks. *)
Fixpoint collect_rounds (n : nat) (summary : TransferSummary) : tree TransferSummary :=
  match n with
  | O => p_ret summary
  | S n => (summary ⇐ collect_next summary; collect_rounds n summary)%prog
  end.
Definition collect_all (summary : TransferSummary) : tree TransferSummary :=
  (len ⇐ tree_ask Len; collect_rounds (Z.to_nat len) summary)%prog.

(** *** Uploads *)
Definition is_valid_utf8 (name : str) : bool := forallb (λ c, bool_decide (is_scalar c)) name.

Definition upload_entry (local_dir remote_dir : str) (acc : TransferSummary * list (str * str)) (entry : result LocalEntry)
    : tree (TransferSummary * list (str * str)) :=
  let '(summary, stack) := acc in
  (entry ⇐ Done entry;
   system check_cancelled ;;
   file_type ⇐ Done (le_type entry);
   let local_path := path_push local_dir (le_name entry) in
   if bool_decide (file_type = KSymlink) || (negb (bool_decide (file_type = KDirectory)) && negb (bool_decide (file_type = KRegular))) then
     skipped ⇐ Done (add (sum_skipped summary) 1 "skipped-entry counter overflow");
     p_ret (add_skipped summary skipped, stack)
   else
     Done (bail_if (negb (is_valid_utf8 (le_name entry))) "local transfer paths must be valid UTF-8") ;;
     p_context "local filename cannot be mapped safely to a remote transfer path" (Done (validate_remote_child_name (le_name entry))) ;;
     remote_path ⇐ Done (join_remote_under_root remote_dir (le_name entry));
     if bool_decide (file_type = KDirectory) then
       system (ensure_remote_dir remote_path) ;;
       directories ⇐ Done (add (sum_directories summary) 1 "directory counter overflow");
       p_ret (add_directory summary directories, (local_path, remote_path) :: stack)
     else
       summary ⇐ spawn_bounded (mk_file_task local_path remote_path) summary;
       p_ret (summary, stack))%prog.

(** The stack of directories to walk, its top first. *)
Fixpoint upload_directories (fuel : nat) (summary : TransferSummary) (stack : list (str * str)) : tree TransferSummary :=
  match stack, fuel with
  | [], _ => p_ret summary
  | _, O => p_err "out of fuel"
  | (local_dir, remote_dir) :: stack, S fuel =>
      (system check_cancelled ;;
       entries ⇐ system (call (tell (LReadDir local_dir)));
       acc ⇐ p_fold (upload_entry local_dir remote_dir) (summary, stack) entries;
       upload_directories fuel acc.1 acc.2)%prog
  end.

Context (rounds : nat) (transfer_root : transfer Z).

(** The two [upload_tree], after the options were checked. *)
Definition upload_tree_with (local_root remote_root : str) : tree TransferSummary :=
  (system check_cancelled ;;
   root_metadata ⇐ system (p_context "failed to stat local root" (local_lstat local_root));
   Done (bail_if (local_is KSymlink root_metadata) "refusing to follow local symbolic-link root during recursive upload") ;;
   if local_is KRegular root_metadata then
     bytes ⇐ system transfer_root;
     p_ret (mk_summary 1 0 bytes 0)
   else
     Done (bail_if (negb (local_is KDirectory root_metadata)) "local root is not a file or directory") ;;
     system (ensure_remote_dir remote_root) ;;
     summary ⇐ upload_directories rounds (mk_summary 0 1 0 0) [(local_root, remote_root)];
     collect_all summary)%prog.
End loops.

Definition checked (a b : Z) (e : string) : result Z := with_context (checked_add u64_max a b) e.
Definition wrapping (a b : Z) (e : string) : result Z := Ok (u64_wrap (a + b)).

Context (fuel rounds : nat).

(** [transfer_policy::upload_tree]: the engine's, or the checked one. *)
Definition upload_tree (local_root remote_root : str) (o : TransferOptions) : tree TransferSummary :=
  (Done (validated o) ;;
   if negb (atomic o) then
     Done (validated o) ;;
     upload_tree_with wrapping o rounds (Engine.upload_file fuel local_root remote_root o) local_root remote_root
   else upload_tree_with checked o rounds (Policy.upload_file fuel local_root remote_root o) local_root remote_root)%prog.

(** The body of a spawned task. *)
Definition upload_task (o : TransferOptions) (t : FileTask) : transfer Z :=
  if negb (atomic o) then Engine.upload_file fuel (ft_local t) (ft_remote t) o else Policy.upload_file fuel (ft_local t) (ft_remote t) o.

(** *** Downloads *)
Definition MAX_DOWNLOAD_DEPTH : Z := 32.

(** NFC normalization ([unicode_normalization]) and [str::to_lowercase]. *)
Context (nfc to_lowercase : str → str).
Definition normalized (name : str) : str := to_lowercase (nfc name).

(** The names already taken in each local directory. *)
Abbreviation Seen := (gmap str (gset str)).
Definition seen_in (seen : Seen) (dir : str) : gset str := default ∅ (seen !! dir).

Record DownloadState := mk_download_state {
  ds_summary : TransferSummary;
  ds_stack : list (str * str * Z);
  ds_seen : Seen;
}.

Definition not_transferable (t : FileType) : bool :=
  bool_decide (t = FtSymlink) || (negb (bool_decide (t = FtDir)) && negb (bool_decide (t = FtFile))).

(** The paths of an entry on the two sides. *)
Definition entry_paths (remote_dir local_dir name : str) : result (str * str) :=
  match validate_remote_child_name name with Ok _ => Ok tt | Err _ => Err "unsafe SFTP directory entry returned while downloading" end ≫= λ _,
  join_remote_under_root remote_dir name ≫= λ remote_path,
  local_path_from_remote_relative name ≫= λ local_relative,
  Ok (remote_path, path_push local_dir local_relative).

Definition download_entry (o : TransferOptions) (remote_dir local_dir : str) (depth : Z) (st : DownloadState)
    (entry : str * FileAttributes) : tree DownloadState :=
  let summary := ds_summary st in
  let file_type := remote_type entry.2 in
  let name := entry.1 in
  (system check_cancelled ;;
   if not_transferable file_type then
     skipped ⇐ Done (wrapping (sum_skipped summary) 1 "skipped");
     p_ret (mk_download_state (add_skipped summary skipped) (ds_stack st) (ds_seen st))
   else if bool_decide (name = dot) || bool_decide (name = dotdot) then p_ret st
   else
     paths ⇐ Done (entry_paths remote_dir local_dir name);
     if bool_decide (normalized name ∈ seen_in (ds_seen st) local_dir) then
       skipped ⇐ Done (wrapping (sum_skipped summary) 1 "skipped");
       p_ret (mk_download_state (add_skipped summary skipped) (ds_stack st) (ds_seen st))
     else
       let seen := <[local_dir := {[normalized name]} ∪ seen_in (ds_seen st) local_dir]> (ds_seen st) in
       if bool_decide (file_type = FtDir) then
         system (ensure_local_directory_no_links paths.2) ;;
         directories ⇐ Done (wrapping (sum_directories summary) 1 "directories");
         p_ret (mk_download_state (add_directory summary directories) ((paths.1, paths.2, depth + 1) :: ds_stack st) seen)
       else
         summary ⇐ spawn_bounded wrapping o (mk_file_task paths.2 paths.1) summary;
         p_ret (mk_download_state summary (ds_stack st) seen))%prog.

Fixpoint download_directories (rounds : nat) (o : TransferOptions) (st : DownloadState) : tree TransferSummary :=
  match ds_stack st, rounds with
  | [], _ => p_ret (ds_summary st)
  | _, O => p_err "out of fuel"
  | (remote_dir, local_dir, depth) :: stack, S rounds =>
      (system check_cancelled ;;
       Done (bail_if (MAX_DOWNLOAD_DEPTH <=? depth) "recursive download exceeded the maximum directory depth") ;;
       entries ⇐ system (call (tell (RReadDir remote_dir)));
       st ⇐ p_fold (download_entry o remote_dir local_dir depth) (mk_download_state (ds_summary st) stack (ds_seen st)) entries;
       download_directories rounds o st)%prog
  end.

(** [transfer_engine::download_tree] *)
Definition engine_download_tree (remote_root local_root : str) (o : TransferOptions) : tree TransferSummary :=
  (Done (validated o) ;;
   system check_cancelled ;;
   root_metadata ⇐ system (remote_lstat remote_root);
   Done (bail_if (is_symlink root_metadata) "refusing to follow remote symbolic-link root during recursive download") ;;
   if is_regular root_metadata then
     bytes ⇐ system (Engine.download_file fuel remote_root local_root o);
     p_ret (mk_summary 1 0 bytes 0)
   else
     Done (bail_if (negb (is_dir root_metadata)) "remote path is not a regular file or directory") ;;
     system (ensure_local_directory_no_links local_root) ;;
     summary ⇐ download_directories rounds o (mk_download_state (mk_summary 0 1 0 0) [(remote_root, local_root, 0)] ∅);
     collect_all wrapping summary)%prog.

(** *** Atomic downloads *)
Fixpoint preflight_candidates (candidates : list str) : transfer unit :=
  match candidates with
  | [] => p_ret tt
  | candidate :: candidates =>
      (r ⇐ tell (LLstat candidate);
       match r with
       | SOk m => Done (validate_local_directory m) ;; preflight_candidates candidates
       | NoSuchFile => p_ret tt
       | SErr _ => p_err "failed to inspect directory"
       end)%prog
  end.
Definition preflight_local_directory (path : str) : transfer unit := preflight_candidates (directory_chain path).

Definition preflight_atomic_file_destination (path : str) : transfer unit :=
  (match nonempty_parent path with Some parent => preflight_local_directory parent | None => p_ret tt end ;;
   DownloadPolicy.ensure_atomic_destination_absent path)%prog.

Definition preflight_entry (remote_dir local_dir : str) (stack : list (str * str)) (entry : str * FileAttributes)
    : transfer (list (str * str)) :=
  (check_cancelled ;;
   if not_transferable (remote_type entry.2) then p_ret stack
   else if bool_decide (entry.1 = dot) || bool_decide (entry.1 = dotdot) then p_ret stack
   else
     paths ⇐ Done (entry_paths remote_dir local_dir entry.1);
     if bool_decide (remote_type entry.2 = FtDir) then
       preflight_local_directory paths.2 ;; p_ret (paths :: stack)
     else preflight_atomic_file_destination paths.2 ;; p_ret stack)%prog.

Fixpoint preflight_directories (rounds : nat) (stack : list (str * str)) : transfer unit :=
  match stack, rounds with
  | [], _ => p_ret tt
  | _, O => p_err "out of fuel"
  | (remote_dir, local_dir) :: stack, S rounds =>
      (check_cancelled ;;
       entries ⇐ call (tell (RReadDir remote_dir));
       stack ⇐ p_fold (preflight_entry remote_dir local_dir) stack entries;
       preflight_directories rounds stack)%prog
  end.
Definition preflight_atomic_download_tree (remote_root local_root : str) : transfer unit :=
  (preflight_local_directory local_root ;; preflight_directories rounds [(remote_root, local_root)])%prog.

Definition atomic_download_entry (o : TransferOptions) (remote_dir local_dir : str) (acc : TransferSummary * list (str * str))
    (entry : str * FileAttributes) : tree (TransferSummary * list (str * str)) :=
  let '(summary, stack) := acc in
  (system check_cancelled ;;
   if not_transferable (remote_type entry.2) then
     skipped ⇐ Done (checked (sum_skipped summary) 1 "skipped-entry counter overflow");
     p_ret (add_skipped summary skipped, stack)
   else if bool_decide (entry.1 = dot) || bool_decide (entry.1 = dotdot) then p_ret acc
   else
     paths ⇐ Done (entry_paths remote_dir local_dir entry.1);
     if bool_decide (remote_type entry.2 = FtDir) then
       system (ensure_local_directory_no_links paths.2) ;;
       directories ⇐ Done (checked (sum_directories summary) 1 "directory counter overflow");
       p_ret (add_directory summary directories, paths :: stack)
     else
       summary ⇐ spawn_bounded checked o (mk_file_task paths.2 paths.1) summary;
       p_ret (summary, stack))%prog.

Fixpoint atomic_download_directories (rounds : nat) (o : TransferOptions) (summary : TransferSummary) (stack : list (str * str))
    : tree TransferSummary :=
  match stack, rounds with
  | [], _ => p_ret summary
  | _, O => p_err "out of fuel"
  | (remote_dir, local_dir) :: stack, S rounds =>
      (system check_cancelled ;;
       entries ⇐ system (call (tell (RReadDir remote_dir)));
       acc ⇐ p_fold (atomic_download_entry o remote_dir local_dir) (summary, stack) entries;
       atomic_download_directories rounds o acc.1 acc.2)%prog
  end.

(** [transfer_download_policy::download_tree] *)
Definition download_tree (remote_root local_root : str) (o : TransferOptions) : tree TransferSummary :=
  (Done (validated o) ;;
   if negb (atomic o) then engine_download_tree remote_root local_root o
   else
     system check_cancelled ;;
     root_metadata ⇐ system (p_context "failed to stat remote download root" (remote_lstat remote_root));
     Done (bail_if (is_symlink root_metadata) "refusing to follow remote symbolic-link root during recursive download") ;;
     if is_regular root_metadata then
       bytes ⇐ system (DownloadPolicy.download_file fuel remote_root local_root o);
       p_ret (mk_summary 1 0 bytes 0)
     else
       Done (bail_if (negb (is_dir root_metadata)) "remote path is not a regular file or directory") ;;
       system (preflight_atomic_download_tree remote_root local_root) ;;
       system (ensure_local_directory_no_links local_root) ;;
       summary ⇐ atomic_download_directories rounds o (mk_summary 0 1 0 0) [(remote_root, local_root)];
       collect_all checked summary)%prog.

Definition download_task (o : TransferOptions) (t : FileTask) : transfer Z :=
  if negb (atomic o) then Engine.download_file fuel (ft_remote t) (ft_local t) o
  else DownloadPolicy.download_file fuel (ft_remote t) (ft_local t) o.

(** *** Sessions around transfers ([client_ops.rs]) *)
Definition with_session {A} (work : tree A) : tree A :=
  (system (call (tell OpenSession)) ;;
   result ⇐ p_try work;
   close_result ⇐ p_try (system (call (tell CloseSession)));
   value ⇐ Done result;
   Done close_result ;;
   p_ret value)%prog.
Definition upload_with_options (local_path remote_path : str) (o : TransferOptions) : tree Z :=
  with_session (system (Policy.upload_file fuel local_path remote_path o)).
Definition upload_recursive (local_path remote_path : str) (o : TransferOptions) : tree TransferSummary :=
  with_session (upload_tree local_path remote_path o).
Definition download_with_options (remote_path local_path : str) (o : TransferOptions) : tree Z :=
  with_session (system (DownloadPolicy.download_file fuel remote_path local_path o)).
Definition download_recursive (remote_path local_path : str) (o : TransferOptions) : tree TransferSummary :=
  with_session (download_tree remote_path local_path o).

(** *** Symbolic-link policies ([symlink_policy.rs]) *)
Inductive SymlinkPolicy := Skip | Reject.

Definition preflight_local_entry (dir : str) (stack : list str) (entry : result LocalEntry) : transfer (list str) :=
  (entry ⇐ Done entry;
   check_cancelled ;;
   let path := path_push dir (le_name entry) in
   m ⇐ p_context "failed to inspect recursive source" (local_lstat path);
   Done (bail_if (is_local_link_like m) "symlink policy rejects symbolic-link/reparse entry in recursive source") ;;
   p_ret (if local_is KDirectory m then path :: stack else stack))%prog.
Fixpoint preflight_local_directories (rounds : nat) (stack : list str) : transfer unit :=
  match stack, rounds with
  | [], _ => p_ret tt
  | _, O => p_err "out of fuel"
  | dir :: stack, S rounds =>
      (check_cancelled ;;
       entries ⇐ p_context "failed to scan recursive source" (call (tell (LReadDir dir)));
       stack ⇐ p_fold (preflight_local_entry dir) stack entries;
       preflight_local_directories rounds stack)%prog
  end.
Definition preflight_local_tree_no_links (root : str) (allow_file_root : bool) : transfer unit :=
  (check_cancelled ;;
   m ⇐ p_context "failed to stat recursive source" (local_lstat root);
   Done (bail_if (is_local_link_like m) "symlink policy rejects symbolic-link/reparse source root") ;;
   if local_is KRegular m then
     Done (bail_if (negb allow_file_root) "recursive source root must be a directory")
   else
     Done (bail_if (negb (local_is KDirectory m)) "recursive source root is not a regular file or directory") ;;
     preflight_local_directories rounds [root])%prog.

Definition preflight_remote_entry (dir : str) (stack : list str) (entry : str * FileAttributes) : transfer (list str) :=
  (check_cancelled ;;
   if bool_decide (entry.1 = dot) || bool_decide (entry.1 = dotdot) then p_ret stack
   else
     p_context "unsafe SFTP directory entry returned while scanning" (Done (validate_remote_child_name entry.1)) ;;
     path ⇐ Done (join_remote_under_root dir entry.1);
     m ⇐ p_context "failed to inspect remote recursive entry" (remote_lstat path);
     Done (bail_if (is_symlink m) "symlink policy rejects remote symbolic-link entry") ;;
     p_ret (if is_dir m then path :: stack else stack))%prog.
Fixpoint preflight_remote_directories (rounds : nat) (stack : list str) : transfer unit :=
  match stack, rounds with
  | [], _ => p_ret tt
  | _, O => p_err "out of fuel"
  | dir :: stack, S rounds =>
      (check_cancelled ;;
       entries ⇐ p_context "failed to scan remote tree" (call (tell (RReadDir dir)));
       stack ⇐ p_fold (preflight_remote_entry dir) stack entries;
       preflight_remote_directories rounds stack)%prog
  end.
Definition preflight_remote_tree_no_links (root : str) : transfer unit :=
  (check_cancelled ;;
   metadata ⇐ remote_symlink_metadata_if_exists root;
   match metadata with
   | None => p_ret tt
   | Some m =>
       Done (bail_if (is_symlink m) "symlink policy rejects remote symbolic-link source root") ;;
       if negb (is_dir m) then p_ret tt else preflight_remote_directories rounds [root]
   end)%prog.

Definition upload_recursive_with_symlink_policy (local_path remote_path : str) (o : TransferOptions) (policy : SymlinkPolicy)
    : tree TransferSummary :=
  (match policy with Reject => system (preflight_local_tree_no_links local_path true) | Skip => p_ret tt end ;;
   upload_recursive local_path remote_path o)%prog.
Definition download_recursive_with_symlink_policy (remote_path local_path : str) (o : TransferOptions) (policy : SymlinkPolicy)
    : tree TransferSummary :=
  (match policy with Reject => with_session (system (preflight_remote_tree_no_links remote_path)) | Skip => p_ret tt end ;;
   download_recursive remote_path local_path o)%prog.
End tree.
