(* ===== verification/TransferTreeSafety.v ===== *)
(** * What a recursive transfer does, in every interleaving

    Whatever the server lists and however the transfers interleave, a recursive
    transfer stays below the roots it was given, runs at most [file_concurrency]
    transfers at once, gives two downloads in place different names even on a disk
    that does not tell case or normalization forms apart, and its summary counts what
    its tasks reported. *)

From stdpp Require Import base list gmap strings numbers sorting.
From Stdlib Require Import Lia.
From S2P Require Import Prelude RustStr StrFacts RemotePath Sftp RemoteServer TaskRegistry Program LocalPath TransferOps Transfer TransferSafety TransferExact TransferTree.

(** ** Paths below a root *)
Definition local_below (root : str) (names : list str) : str := foldl path_push root names.
Definition remote_below (root : str) (names : list str) : str := foldl join_remote root names.

Lemma safe_single name : safe_name name → safe_path name.
Proof.
  intros Hs. unfold safe_path. change name with (join_with slash [name]). rewrite split_join; [by constructor|done|].
  constructor; [by destruct Hs|constructor].
Qed.

Lemma entry_paths_ok remote_dir local_dir name paths :
  entry_paths remote_dir local_dir name = Ok paths ↔
  safe_name name ∧ paths = (join_remote remote_dir name, path_push local_dir name).
Proof.
  unfold entry_paths. destruct (validate_remote_child_name name) as [[]|e] eqn:Hv.
  - apply validate_child_safe in Hv. pose proof (safe_single _ Hv) as Hp. rewrite bind_of_ok, join_remote_under_root_safe, bind_of_ok by done.
    rewrite local_path_safe, bind_of_ok by done. split; [intros [= <-]|intros [_ ->]]; done.
  - split; [done|]. intros [Hs _]. apply validate_child_safe in Hs. congruence.
Qed.

Lemma upload_path_ok remote_dir name path :
  validate_remote_child_name name = Ok tt → join_remote_under_root remote_dir name = Ok path →
  safe_name name ∧ path = join_remote remote_dir name.
Proof.
  intros Hv%validate_child_safe. rewrite join_remote_under_root_safe by by apply safe_single. intros [= <-]. done.
Qed.

(** Pushing names onto a root loses nothing of them. *)
Definition push_base (root : str) : str := if bool_decide (root = []) || ends_with root [slash] then root else root ++ [slash].

Lemma push_safe dir name : safe_name name → path_push dir name = push_base dir ++ name.
Proof.
  intros Hname. unfold path_push, push_base. rewrite starts_with_one, bool_decide_eq_false_2.
  - destruct (_ || _); [done|]. by rewrite <- app_assoc.
  - intros Hh. destruct name; [done|]. injection Hh as ->. apply (safe_slash _ Hname). by left.
Qed.

Lemma push_base_safe dir name : safe_name name → push_base (dir ++ name) = (dir ++ name) ++ [slash].
Proof.
  intros Hname. unfold push_base. rewrite ends_with_one, !bool_decide_eq_false_2; [done| |].
  - pose proof (safe_nonempty _ Hname). destruct name as [|c name _] using rev_ind; [done|].
    rewrite app_assoc, last_snoc. intros [= ->]. apply (safe_slash _ Hname), elem_of_app. right. by left.
  - intros [_ Hn]%app_eq_nil. by destruct (safe_nonempty _ Hname).
Qed.

Lemma local_below_join root names :
  Forall safe_name names → names ≠ [] → local_below root names = push_base root ++ join_with slash names.
Proof.
  unfold local_below. intros Hs Hne. destruct names as [|name names]; [done|]. clear Hne.
  apply Forall_cons in Hs as [Hname Hs]. cbn [foldl]. rewrite push_safe by done.
  generalize (push_base root) as base. intros base. revert base name Hname. induction Hs as [|name' names Hname' Hs IH]; intros base name Hname.
  - done.
  - cbn [foldl]. rewrite push_safe, push_base_safe by done. rewrite IH by done. rewrite (join_with_cons slash name) by done.
    rewrite <- !app_assoc. done.
Qed.

Lemma local_below_inj root names names' :
  Forall safe_name names → Forall safe_name names' → names ≠ [] → names' ≠ [] →
  local_below root names = local_below root names' → names = names'.
Proof.
  intros Hs Hs' Hne Hne'. rewrite !local_below_join by done. intros Heq%(inj (app _)).
  assert (∀ ns, Forall safe_name ns → Forall (λ w, slash ∉ w) ns) as Hslash.
  { intros ns Hns. eapply Forall_impl; [exact Hns|]. by intros w []. }
  rewrite <- (split_join slash names), Heq by auto. apply split_join; auto.
Qed.

(** ** Counting *)

(** What a program may assume of a task set, and keeps to: [sys_ok] for its own
    requests, [fresh] for what it spawns beside what it spawned before. *)
Section counting.
Context (add : Z → Z → string → result Z) (agrees : Z → Z → Prop) (o : TransferOptions).
Context (sys_ok : req → Prop) (fresh : FileTask → list FileTask → Prop) (result_ok : result Z → Prop).
Hypothesis agrees_zero : agrees 0 0.
Hypothesis add_agrees : ∀ a b e c x, add a b e = Ok c → agrees a x → agrees c (x + b).

Definition may_spawn (t : FileTask) (h : history FileTask Z) : Prop :=
  fresh t (spawned h) ∧ tasks_left h < file_concurrency o.
Abbreviation M := (pool_monitor io_interface FileTask Z sys_ok may_spawn result_ok).

(** The summary counts the tasks that were joined, which all succeeded. *)
Definition counts (h : history FileTask Z) (s : TransferSummary) : Prop :=
  ∃ bytes, joined h = Ok <$> bytes ∧ Forall (λ b, result_ok (Ok b)) bytes ∧
    agrees (sum_files s) (zlen bytes) ∧ agrees (sum_bytes s) (foldr Z.add 0 bytes).

(** Between two steps of a walk. *)
Definition at_most (h : history FileTask Z) : Prop := 0 ≤ tasks_left h ≤ file_concurrency o.

Lemma foldr_add_snoc l b : foldr Z.add 0 (l ++ [b]) = foldr Z.add 0 l + b.
Proof. induction l as [|x l IH]; cbn in *; lia. Qed.

Lemma wp_collect_next s h :
  at_most h → counts h s →
  wp M (collect_next add s) (λ r h', spawned h' = spawned h ∧ at_most h' ∧
    match r with
    | Ok s' => tasks_left h' = tasks_left h - 1 ∧ counts h' s' ∧ sum_directories s' = sum_directories s ∧ sum_skipped s' = sum_skipped s
    | Err _ => True
    end) h.
Proof.
  intros [Hlow Hhigh] (bytes & Hj & Hok & Hfiles & Hbytes). unfold collect_next. cbn -[tasks_left]. split; [done|].
  intros r h' Hr. change (option (result Z)) in r. destruct r as [r|]; cbn -[tasks_left] in *.
  2: { by destruct Hr as [_ ->]. }
  destruct Hr as (Hpos & Hres & ->).
  assert (tasks_left (mk_history (spawned h) (joined h ++ [r])) = tasks_left h - 1) as Hleft.
  { unfold tasks_left. cbn. rewrite length_app. cbn. lia. }
  assert (at_most (mk_history (spawned h) (joined h ++ [r]))) as Hmost by (unfold at_most; rewrite Hleft; lia).
  destruct r as [b|e]; cbn -[tasks_left]; [|done].
  destruct (add (sum_bytes s) b _) as [total|e] eqn:Hadd; cbn -[tasks_left]; [|done].
  destruct (add (sum_files s) 1 _) as [files|e] eqn:Hadd1; cbn -[tasks_left]; [|done].
  split_and!; try done. exists (bytes ++ [b]). cbn. rewrite Hj, fmap_app. split_and!; [done| | |].
  - apply Forall_app. split; [done|by constructor].
  - rewrite length_app. cbn. replace (Z.of_nat (length bytes + 1)) with (zlen bytes + 1) by lia. by eapply add_agrees.
  - rewrite foldr_add_snoc. by eapply add_agrees.
Qed.

Lemma wp_spawn_bounded t s h :
  0 < file_concurrency o → at_most h → counts h s → fresh t (spawned h) →
  wp M (spawn_bounded add o t s) (λ r h', at_most h' ∧
    match r with Ok s' => spawned h' = spawned h ++ [t] ∧ counts h' s' | Err _ => True end) h.
Proof.
  intros Hfc Hmost Hcounts Hfresh. unfold spawn_bounded. rewrite wp_ask_bind. split; [done|]. intros n h' [-> ->].
  rewrite wp_bind. apply wp_mono with (Q := λ r h', spawned h' = spawned h ∧ at_most h' ∧
    match r with Ok s' => tasks_left h' < file_concurrency o ∧ counts h' s' | Err _ => True end).
  - destruct (Z.leb_spec (file_concurrency o) (tasks_left h)).
    + eapply wp_mono; [by apply wp_collect_next|]. intros [s'|e] h' (Hs & Hm & H'); [|done]. destruct H' as (Hl & Hc & _).
      destruct Hmost. split_and!; try done. lia.
    + split_and!; done.
  - intros [s'|e] h' (Hs & Hm & H'); [|done]. destruct H' as [Hl Hc]. rewrite wp_ask_bind.
    split; [split; [by rewrite Hs|done]|]. intros [] h'' ->. split.
    + destruct Hm. unfold at_most, tasks_left in *. cbn. rewrite length_app. cbn. lia.
    + cbn. by rewrite Hs.
Qed.

Lemma wp_collect_rounds n s h :
  Z.of_nat n = tasks_left h → at_most h → counts h s →
  wp M (collect_rounds add n s) (λ r h', spawned h' = spawned h ∧ match r with Ok s' => tasks_left h' = 0 ∧ counts h' s' | Err _ => True end) h.
Proof.
  revert s h. induction n as [|n IH]; intros s h Hn Hmost Hcounts; cbn [collect_rounds]; [done|].
  rewrite wp_bind. eapply wp_mono; [by apply wp_collect_next|]. intros [s'|e] h' (Hs & Hm & H'); [|done].
  destruct H' as (Hl & Hc & _). rewrite <- Hs. apply IH; [lia|done..].
Qed.

Lemma wp_collect_all s h :
  at_most h → counts h s →
  wp M (collect_all add s) (λ r h', spawned h' = spawned h ∧ match r with Ok s' => tasks_left h' = 0 ∧ counts h' s' | Err _ => True end) h.
Proof.
  intros Hmost Hcounts. unfold collect_all. rewrite wp_ask_bind. split; [done|]. intros n h' [-> ->].
  apply wp_collect_rounds; [|done..]. destruct Hmost. lia.
Qed.
End counting.

(** ** Walking *)
Section walks.
Context `{FileModes} (o : TransferOptions) (fuel rounds : nat) (remote_root local_root : str).

(** The paths of a task are those of one list of names below the two roots. *)
Definition task_below (t : FileTask) (names : list str) : Prop :=
  names ≠ [] ∧ Forall safe_name names ∧ ft_local t = local_below local_root names ∧ ft_remote t = remote_below remote_root names.

(** What the walks ask for themselves. *)
Definition download_walk_request (q : req) : Prop :=
  download_request remote_root local_root (atomic o) q ∨
  ∃ d names, q = LCreateDir d ∧ Forall safe_name names ∧ d ∈ path_ancestors (local_below local_root names).
Definition upload_walk_request (q : req) : Prop :=
  upload_request local_root remote_root (atomic o) q ∨
  ∃ d names, q = RCreateDir d ∧ Forall safe_name names ∧ d ∈ remote_chain (remote_below remote_root names).

Definition any_result_ok (_ : result Z) : Prop := True.
Definition succeeds {A G} (R : A → G → Prop) (r : result A) (g : G) : Prop := match r with Ok a => R a g | Err _ => True end.

Lemma wp_system_bind sys_ok spawn_ok {A B} (p : transfer A) (f : A → tree B) (R : B → history FileTask Z → Prop) h :
  keeps_io sys_ok p → (∀ a, wp (pool_monitor io_interface FileTask Z sys_ok spawn_ok any_result_ok) (f a) (succeeds R) h) →
  wp (pool_monitor io_interface FileTask Z sys_ok spawn_ok any_result_ok) (p_bind (system p) f) (succeeds R) h.
Proof.
  intros Hp Hf. rewrite wp_bind. apply wp_sys. eapply wp_mono; [exact Hp|]. intros [a|e] [] _; [apply Hf|done].
Qed.

(** Equal up to wrapping around; exactly equal. *)
Definition wraps (a b : Z) : Prop := Z.modulo a (u64_max + 1) = Z.modulo b (u64_max + 1).
Lemma wraps_add a b e c x : wrapping a b e = Ok c → wraps a x → wraps c (x + b).
Proof. unfold wraps. intros [= <-] Hx. unfold u64_wrap. rewrite Z.mod_mod by done. rewrite (Z.add_mod a), Hx, <- Z.add_mod by done. done. Qed.
Lemma checked_add_exact a b e c x : checked a b e = Ok c → a = x → c = x + b.
Proof. intros [-> _]%with_context_ok%checked_add_some ->. done. Qed.

Section in_place.
Context (nfc to_lowercase : str → str).
Abbreviation norm := (normalized nfc to_lowercase).
Definition norm_path (names : list str) : list str := norm <$> names.

(** A spawned download has a name of its own, also up to case and normalization. *)
Definition fresh_download (t : FileTask) (before : list FileTask) : Prop :=
  ∃ names, task_below t names ∧
    ∀ t' names', t' ∈ before → task_below t' names' → norm_path names' ≠ norm_path names.

Abbreviation M := (pool_monitor io_interface FileTask Z download_walk_request (may_spawn o fresh_download) any_result_ok).

(** The nodes met so far, files and directories. *)
Record walked (emitted : list (list str)) (st : DownloadState) (h : history FileTask Z) : Prop := {
  wd_safe : Forall (λ x, x ≠ [] ∧ Forall safe_name x) emitted;
  wd_unique : NoDup (norm_path <$> emitted);
  wd_seen : ∀ x n, x ++ [n] ∈ emitted → (x = [] ∨ x ∈ emitted) ∧ norm n ∈ seen_in (ds_seen st) (local_below local_root x);
  wd_stack : Forall (λ '(r, l, depth), ∃ x, (x = [] ∨ x ∈ emitted) ∧ r = remote_below remote_root x ∧ l = local_below local_root x) (ds_stack st);
  wd_tasks : ∀ t, t ∈ spawned h → ∃ x, x ∈ emitted ∧ task_below t x;
}.

Lemma same_node emitted x y :
  NoDup (norm_path <$> emitted) → (x = [] ∨ x ∈ emitted) → (y = [] ∨ y ∈ emitted) → norm_path x = norm_path y → x = y.
Proof.
  intros Hnd Hx Hy Heq. destruct Hx as [-> |Hx].
  { apply (f_equal length) in Heq. unfold norm_path in Heq. rewrite !length_fmap in Heq. symmetry. by apply nil_length_inv. }
  destruct Hy as [-> |Hy].
  { apply (f_equal length) in Heq. unfold norm_path in Heq. rewrite !length_fmap in Heq. by apply nil_length_inv. }
  apply list_elem_of_lookup in Hx as [i Hi]. apply list_elem_of_lookup in Hy as [j Hj].
  assert (i = j) as ->; [|congruence]. eapply (NoDup_lookup _ i j (norm_path x)); [exact Hnd|by rewrite list_lookup_fmap, Hi|].
  by rewrite list_lookup_fmap, Hj, Heq.
Qed.

Lemma fresh_node emitted st h ds n y :
  walked emitted st h → (ds = [] ∨ ds ∈ emitted) → norm n ∉ seen_in (ds_seen st) (local_below local_root ds) →
  y ∈ emitted → norm_path y ≠ norm_path (ds ++ [n]).
Proof.
  intros Hw Hds Hn Hy Heq. destruct y as [|m y _] using rev_ind.
  { unfold norm_path in Heq. rewrite fmap_app in Heq. by destruct (norm <$> ds). }
  unfold norm_path in Heq. rewrite !fmap_app in Heq. apply app_inj_tail in Heq as [Heq Hm].
  destruct (wd_seen _ _ _ Hw y m Hy) as [Hyin Hseen]. assert (y = ds) as -> by (by eapply same_node; [apply (wd_unique _ _ _ Hw)|..]).
  change (norm m = norm n) in Hm. congruence.
Qed.

(** One more node: a directory or a file under its own name. *)
Lemma walked_more emitted st h st' h' ds n :
  walked emitted st h → (ds = [] ∨ ds ∈ emitted) → safe_name n → norm n ∉ seen_in (ds_seen st) (local_below local_root ds) →
  Forall safe_name ds →
  ds_seen st' = <[local_below local_root ds := {[norm n]} ∪ seen_in (ds_seen st) (local_below local_root ds)]> (ds_seen st) →
  (∀ e, e ∈ ds_stack st' → e ∈ ds_stack st ∨ e.1 = (remote_below remote_root (ds ++ [n]), local_below local_root (ds ++ [n]))) →
  (∀ t, t ∈ spawned h' → t ∈ spawned h ∨ task_below t (ds ++ [n])) →
  walked (emitted ++ [ds ++ [n]]) st' h'.
Proof.
  intros Hw Hds Hn Hnew Hsafe Hseen Hstack Htasks.
  assert (∀ s dir, s ∈ seen_in (ds_seen st) dir → s ∈ seen_in (ds_seen st') dir) as Hgrow.
  { intros s dir Hs. rewrite Hseen. unfold seen_in. destruct (decide (dir = local_below local_root ds)) as [-> |Hne].
    - rewrite lookup_insert_eq. cbn. set_solver.
    - by rewrite lookup_insert_ne. }
  split.
  - apply Forall_app. split; [apply (wd_safe _ _ _ Hw)|]. constructor; [|done]. split; [by destruct ds|]. apply Forall_app. split; [done|by constructor].
  - rewrite fmap_app. apply NoDup_app. split; [apply (wd_unique _ _ _ Hw)|]. split; [|apply NoDup_singleton].
    intros x (y & Hxy & Hy)%list_elem_of_fmap Hx%list_elem_of_singleton. subst x. by eapply (fresh_node emitted st h ds n y).
  - intros x m [Hin|Hin]%elem_of_app.
    + destruct (wd_seen _ _ _ Hw x m Hin) as [Hx Hm]. split; [|by apply Hgrow]. destruct Hx; [by left|right]. apply elem_of_app. by left.
    + apply list_elem_of_singleton, app_inj_tail in Hin as [-> ->]. split.
      * destruct Hds; [by left|right]. apply elem_of_app. by left.
      * rewrite Hseen. unfold seen_in. rewrite lookup_insert_eq. cbn. set_solver.
  - apply Forall_forall. intros [[r l] depth] [Hin|Heq]%Hstack.
    + pose proof (wd_stack _ _ _ Hw) as Hst. rewrite Forall_forall in Hst. destruct (Hst _ Hin) as (x & Hx & Hrl). exists x. split; [|done].
      destruct Hx; [by left|right]. apply elem_of_app. by left.
    + injection Heq as -> ->. exists (ds ++ [n]). split; [|done]. right. apply elem_of_app. right. by left.
  - intros t [Hin|Ht]%Htasks.
    + destruct (wd_tasks _ _ _ Hw t Hin) as (x & Hx & Ht). exists x. split; [|done]. apply elem_of_app. by left.
    + exists (ds ++ [n]). split; [|done]. apply elem_of_app. right. by left.
Qed.

(** Between two entries of the directory [ds], with all its promises. *)
Definition walking_in (ds : list str) (st : DownloadState) (h : history FileTask Z) : Prop :=
  at_most o h ∧ counts wraps any_result_ok h (ds_summary st) ∧ ∃ emitted, (ds = [] ∨ ds ∈ emitted) ∧ walked emitted st h.

Lemma walked_safe emitted st h ds : walked emitted st h → (ds = [] ∨ ds ∈ emitted) → Forall safe_name ds.
Proof. intros Hw [-> |Hin]; [constructor|]. pose proof (wd_safe _ _ _ Hw) as Hs. rewrite Forall_forall in Hs. by destruct (Hs _ Hin). Qed.

Lemma walked_same emitted st st' h :
  walked emitted st h → ds_seen st' = ds_seen st → ds_stack st' ⊆ ds_stack st → walked emitted st' h.
Proof.
  intros [H1 H2 H3 H4 H5] Hseen Hstack. split; try done; [by rewrite Hseen|]. rewrite Forall_forall in *. intros e He. by apply H4, Hstack.
Qed.

Lemma keeps_walk_quiet : quiet_ok download_walk_request.
Proof. intros q Hq. left. by apply download_quiet. Qed.

Lemma wp_download_entry ds depth st entry h :
  0 < file_concurrency o → walking_in ds st h →
  wp M (download_entry nfc to_lowercase o (remote_below remote_root ds) (local_below local_root ds) depth st entry)
    (succeeds (walking_in ds)) h.
Proof.
  intros Hfc (Hmost & Hcounts & emitted & Hds & Hw). unfold download_entry.
  apply wp_system_bind; [apply keeps_check_cancelled, keeps_walk_quiet|]. intros _.
  destruct (not_transferable (remote_type entry.2)).
  { split; [done|]. split; [by apply Hcounts|]. exists emitted. split; [done|]. by eapply walked_same. }
  destruct (bool_decide (entry.1 = dot) || bool_decide (entry.1 = dotdot)); [split; [done|]; split; [done|by exists emitted]|].
  rewrite wp_done_bind. destruct (entry_paths _ _ _) as [paths|e] eqn:Hpaths; [|done].
  apply entry_paths_ok in Hpaths as [Hname ->]. case_bool_decide as Hseen.
  { split; [done|]. split; [by apply Hcounts|]. exists emitted. split; [done|]. by eapply walked_same. }
  pose proof (walked_safe _ _ _ _ Hw Hds) as Hsafe. cbv zeta. cbn [fst snd].
  assert (remote_below remote_root (ds ++ [entry.1]) = join_remote (remote_below remote_root ds) entry.1) as Hr
    by (unfold remote_below; by rewrite foldl_app).
  assert (local_below local_root (ds ++ [entry.1]) = path_push (local_below local_root ds) entry.1) as Hl
    by (unfold local_below; by rewrite foldl_app).
  case_bool_decide.
  - apply wp_system_bind.
    { apply keeps_ensure_local; [apply keeps_walk_quiet|]. intros d Hd. right. exists d, (ds ++ [entry.1]).
      split; [done|]. split; [apply Forall_app; split; [done|by constructor]|by rewrite Hl]. }
    intros _. cbn [wp p_bind p_ret wrapping]. split; [done|]. split; [by apply Hcounts|].
    exists (emitted ++ [ds ++ [entry.1]]). split; [destruct Hds; [by left|right; apply elem_of_app; by left]|].
    apply (walked_more emitted st h); try done.
    + cbn. intros e [->|He]%elem_of_cons; [right; cbn; by rewrite Hr, Hl|by left].
    + intros t Ht. by left.
  - rewrite wp_bind. eapply wp_mono; [apply (wp_spawn_bounded wrapping wraps o); [apply wraps_add|done..|]|].
    { exists (ds ++ [entry.1]). split; [split_and!; [by destruct ds|apply Forall_app; split; [done|by constructor]|by rewrite Hl|by rewrite Hr]|].
      intros t' names' Ht' Hbelow. destruct (wd_tasks _ _ _ Hw t' Ht') as (y & Hy & Hty).
      assert (names' = y) as ->.
      { destruct Hbelow as (? & ? & Hn1 & _), Hty as (? & ? & Hn2 & _). eapply local_below_inj; [done..|]. by rewrite <- Hn1, <- Hn2. }
      by eapply fresh_node. }
    intros [s'|e] h' [Hmost' H']; [|done]. destruct H' as [Hsp Hc]. split; [done|]. split; [done|].
    exists (emitted ++ [ds ++ [entry.1]]). split; [destruct Hds; [by left|right; apply elem_of_app; by left]|].
    apply (walked_more emitted st h); try done.
    + intros e He. by left.
    + intros t. rewrite Hsp. intros [Ht|Ht%list_elem_of_singleton]%elem_of_app; [by left|right; subst t].
      split_and!; [by destruct ds|apply Forall_app; split; [done|by constructor]|by rewrite Hl|by rewrite Hr].
Qed.

Lemma wp_download_directories n st h :
  0 < file_concurrency o → at_most o h → counts wraps any_result_ok h (ds_summary st) → (∃ emitted, walked emitted st h) →
  wp M (download_directories nfc to_lowercase n o st) (succeeds (λ s h', at_most o h' ∧ counts wraps any_result_ok h' s)) h.
Proof.
  revert st h. induction n as [|n IH]; intros st h Hfc Hmost Hcounts (emitted & Hw); cbn [download_directories].
  { by destruct (ds_stack st) as [|[[] ?] ?]. }
  pose proof (wd_stack _ _ _ Hw) as Hst. destruct (ds_stack st) as [|[[rd ld] depth] stack] eqn:Hstack; [done|].
  apply Forall_cons in Hst as [(ds & Hds & -> & ->) Hst].
  apply wp_system_bind; [apply keeps_check_cancelled, keeps_walk_quiet|]. intros _.
  rewrite wp_done_bind. destruct (bail_if _ _) as [[]|e]; [|done].
  apply wp_system_bind; [apply keeps_call, keeps_ask; by apply keeps_walk_quiet|]. intros entries.
  rewrite wp_bind. apply (wp_fold _ (walking_in ds)).
  - split; [done|]. split; [done|]. exists emitted. split; [done|]. eapply walked_same; [exact Hw|done|]. rewrite Hstack. cbn. set_solver.
  - intros st' h' (Hmost' & Hcounts' & emitted' & _ & Hw'). apply IH; try done. by exists emitted'.
  - intros st' entry h' _ Hin. eapply wp_mono; [by apply wp_download_entry|]. by intros [].
Qed.

(** How a recursive transfer reports: one file, or what its tasks did. *)
Definition reported (agrees : Z → Z → Prop) (s : TransferSummary) (h : history FileTask Z) : Prop :=
  tasks_left h = 0 ∧ (spawned h = [] ∧ sum_files s = 1 ∨ counts agrees any_result_ok h s).

Lemma at_most_nothing : 0 < file_concurrency o → at_most o (mk_history [] []).
Proof. unfold at_most, tasks_left. cbn. lia. Qed.
Lemma counts_nothing (agrees : Z → Z → Prop) : agrees 0 0 → counts agrees any_result_ok (mk_history [] []) (mk_summary 0 1 0 0).
Proof. intros H0. exists []. split_and!; [done|constructor|done|done]. Qed.

Lemma wp_engine_download_tree :
  0 < file_concurrency o → atomic o = false →
  wp M (engine_download_tree fuel rounds nfc to_lowercase remote_root local_root o) (succeeds (reported wraps)) (mk_history [] []).
Proof.
  intros Hfc Hat. unfold engine_download_tree. rewrite wp_done_bind. destruct (validated o) as [[]|e]; [|done].
  apply wp_system_bind; [apply keeps_check_cancelled, keeps_walk_quiet|]. intros _.
  apply wp_system_bind; [apply keeps_remote_lstat, keeps_walk_quiet|]. intros a.
  rewrite wp_done_bind. destruct (bail_if _ _) as [[]|e]; [|done]. destruct (is_regular a).
  - apply wp_system_bind; [|intros bytes; split; [done|by left]].
    eapply keeps_weaken; [apply (keeps_in_place fuel remote_root local_root false)|]; [done..|]. intros q Hq. left. by rewrite Hat.
  - rewrite wp_done_bind. destruct (bail_if _ _) as [[]|e]; [|done].
    apply wp_system_bind; [apply keeps_ensure_local; [apply keeps_walk_quiet|]|].
    { intros d Hd. right. exists d, []. split_and!; [done|constructor|done]. }
    intros _. rewrite wp_bind. eapply wp_mono; [apply wp_download_directories; [done|by apply at_most_nothing|by apply counts_nothing|]|].
    { exists []. split; [constructor|by apply NoDup_nil|by intros ? ? ?%elem_of_nil| |by intros ? ?%elem_of_nil].
      constructor; [|constructor]. exists []. split_and!; [by left|done|done]. }
    intros [s|e] h; [|done]. intros [Hmost Hc]. eapply wp_mono; [apply (wp_collect_all wrapping wraps o); [apply wraps_add|done|done]|].
    intros [s'|e] h' [_ H']; [|done]. destruct H' as [Hl Hc']. split; [done|]. by right.
Qed.
End in_place.

(** *** Atomic downloads *)
Section atomic_walk.
Definition download_below (t : FileTask) (_ : list FileTask) : Prop := ∃ names, task_below t names.
Abbreviation M := (pool_monitor io_interface FileTask Z download_walk_request (may_spawn o download_below) any_result_ok).
Abbreviation exact := (@eq Z).

Definition stack_below (stack : list (str * str)) : Prop :=
  Forall (λ p, ∃ x, Forall safe_name x ∧ p = (remote_below remote_root x, local_below local_root x)) stack.
Definition atomic_walking (acc : TransferSummary * list (str * str)) (h : history FileTask Z) : Prop :=
  at_most o h ∧ counts exact any_result_ok h acc.1 ∧ stack_below acc.2.

Lemma below_snoc ds name :
  remote_below remote_root (ds ++ [name]) = join_remote (remote_below remote_root ds) name ∧
  local_below local_root (ds ++ [name]) = path_push (local_below local_root ds) name.
Proof. unfold remote_below, local_below. by rewrite !foldl_app. Qed.

Lemma Forall_snoc_safe ds name : Forall safe_name ds → safe_name name → Forall safe_name (ds ++ [name]).
Proof. intros. apply Forall_app. split; [done|by constructor]. Qed.

Lemma wp_atomic_entry ds acc entry h :
  0 < file_concurrency o → Forall safe_name ds → atomic_walking acc h →
  wp M (atomic_download_entry o (remote_below remote_root ds) (local_below local_root ds) acc entry) (succeeds atomic_walking) h.
Proof.
  intros Hfc Hsafe (Hmost & Hcounts & Hstack). destruct acc as [summary stack]. unfold atomic_download_entry.
  apply wp_system_bind; [apply keeps_check_cancelled, keeps_walk_quiet|]. intros _.
  destruct (not_transferable (remote_type entry.2)).
  { rewrite wp_done_bind. destruct (checked _ _ _); [|done]. split_and!; [done..|by apply Hcounts|done]. }
  destruct (bool_decide (entry.1 = dot) || bool_decide (entry.1 = dotdot)); [done|].
  rewrite wp_done_bind. destruct (entry_paths _ _ _) as [paths|e] eqn:Hpaths; [|done].
  apply entry_paths_ok in Hpaths as [Hname ->]. destruct (below_snoc ds entry.1) as [Hr Hl]. cbn [fst snd].
  pose proof (Forall_snoc_safe _ _ Hsafe Hname) as Hsafe'. case_bool_decide.
  - apply wp_system_bind.
    { apply keeps_ensure_local; [apply keeps_walk_quiet|]. intros d Hd. right. exists d, (ds ++ [entry.1]). by rewrite Hl. }
    intros _. rewrite wp_done_bind. destruct (checked _ _ _); [|done]. split_and!; [done..|by apply Hcounts|].
    constructor; [|done]. exists (ds ++ [entry.1]). by rewrite Hr, Hl.
  - rewrite wp_bind. eapply wp_mono; [apply (wp_spawn_bounded checked exact o); [apply checked_add_exact|done..|]|].
    { exists (ds ++ [entry.1]). split_and!; [by destruct ds|done|by rewrite Hl|by rewrite Hr]. }
    intros [s'|e] h' [Hmost' H']; [|done]. destruct H' as [_ Hc]. by split_and!.
Qed.

Lemma wp_atomic_directories n summary stack h :
  0 < file_concurrency o → atomic_walking (summary, stack) h →
  wp M (atomic_download_directories n o summary stack) (succeeds (λ s h', at_most o h' ∧ counts exact any_result_ok h' s)) h.
Proof.
  intros Hfc. revert summary stack h. induction n as [|n IH]; intros summary stack h (Hmost & Hcounts & Hstack); cbn [atomic_download_directories].
  { by destruct stack as [|[] ?]. }
  destruct stack as [|[rd ld] stack]; [done|]. apply Forall_cons in Hstack as [(ds & Hds & [= -> ->]) Hstack].
  apply wp_system_bind; [apply keeps_check_cancelled, keeps_walk_quiet|]. intros _.
  apply wp_system_bind; [apply keeps_call, keeps_ask; by apply keeps_walk_quiet|]. intros entries.
  rewrite wp_bind. apply (wp_fold _ atomic_walking); [done| |].
  - intros [summary' stack'] h' Hw. by apply IH.
  - intros acc entry h' _ Hin. eapply wp_mono; [by apply wp_atomic_entry|]. by intros [].
Qed.

Lemma keeps_preflight_candidates (P : req → Prop) candidates : quiet_ok P → keeps_io P (preflight_candidates candidates).
Proof.
  intros HP. induction candidates as [|c cs IH]; cbn [preflight_candidates]; [apply keeps_done|].
  apply keeps_bind; [apply keeps_ask; by apply HP|]. intros [m| |e]; [|done..]. apply keeps_bind; [done|]. by intros _.
Qed.
Lemma keeps_preflight_tree (P : req → Prop) rd ld : quiet_ok P → keeps_io P (preflight_atomic_download_tree rounds rd ld).
Proof.
  intros HP. unfold preflight_atomic_download_tree. apply keeps_bind; [by apply keeps_preflight_candidates|]. intros _.
  generalize [(rd, ld)] as stack. induction rounds as [|n IH]; intros stack; cbn [preflight_directories].
  { by destruct stack as [|[] ?]. }
  destruct stack as [|[r l] stack]; [done|]. apply keeps_bind; [by apply keeps_check_cancelled|]. intros _.
  apply keeps_bind; [apply keeps_call, keeps_ask; by apply HP|]. intros entries. apply keeps_bind; [|by intros].
  apply keeps_fold. intros st entry _. unfold preflight_entry, preflight_local_directory, preflight_atomic_file_destination.
  apply keeps_bind; [by apply keeps_check_cancelled|]. intros _. destruct (not_transferable _); [done|]. destruct (_ || _); [done|].
  apply keeps_bind; [done|]. intros paths. case_bool_decide; (apply keeps_bind; [|done]); [by apply keeps_preflight_candidates|].
  apply keeps_bind; [|intros _; by apply keeps_dest_absent]. destruct (nonempty_parent _); [by apply keeps_preflight_candidates|done].
Qed.

Lemma wp_atomic_download_tree nfc to_lowercase :
  0 < file_concurrency o → atomic o = true →
  wp M (download_tree fuel rounds nfc to_lowercase remote_root local_root o) (succeeds (reported exact)) (mk_history [] []).
Proof.
  intros Hfc Hat. unfold download_tree. rewrite wp_done_bind. destruct (validated o) as [[]|e]; [|done]. rewrite Hat. cbn [negb].
  apply wp_system_bind; [apply keeps_check_cancelled, keeps_walk_quiet|]. intros _.
  apply wp_system_bind; [apply keeps_context, keeps_remote_lstat, keeps_walk_quiet|]. intros a.
  rewrite wp_done_bind. destruct (bail_if _ _) as [[]|e]; [|done]. destruct (is_regular a).
  - apply wp_system_bind; [|intros bytes; split; [done|by left]]. unfold DownloadPolicy.download_file. rewrite Hat. cbn [negb].
    apply keeps_bind; [done|]. intros _.
    eapply keeps_weaken; [apply (keeps_atomic fuel remote_root local_root true)|]; [done..|]. intros q Hq. left. by rewrite Hat.
  - rewrite wp_done_bind. destruct (bail_if _ _) as [[]|e]; [|done].
    apply wp_system_bind; [apply keeps_preflight_tree, keeps_walk_quiet|]. intros _.
    apply wp_system_bind; [apply keeps_ensure_local; [apply keeps_walk_quiet|]|].
    { intros d Hd. right. exists d, []. split_and!; [done|constructor|done]. }
    intros _. rewrite wp_bind. eapply wp_mono; [apply wp_atomic_directories; [done|]|].
    { split; [by apply at_most_nothing|]. split; [by apply counts_nothing|]. constructor; [|constructor]. exists []. split; [constructor|done]. }
    intros [s|e] h; [|done]. intros [Hmost Hc]. eapply wp_mono; [apply (wp_collect_all checked exact o); [apply checked_add_exact|done|done]|].
    intros [s'|e] h' [_ H']; [|done]. destruct H' as [Hl Hc']. split; [done|]. by right.
Qed.
End atomic_walk.

(** *** Uploads *)
Section upload_walk.
Definition upload_below (t : FileTask) (_ : list FileTask) : Prop := ∃ names, task_below t names.
Abbreviation M := (pool_monitor io_interface FileTask Z upload_walk_request (may_spawn o upload_below) any_result_ok).
Context (add : Z → Z → string → result Z) (agrees : Z → Z → Prop).
Hypothesis agrees_zero : agrees 0 0.
Hypothesis add_agrees : ∀ a b e c x, add a b e = Ok c → agrees a x → agrees c (x + b).

Definition upload_stack_below (stack : list (str * str)) : Prop :=
  Forall (λ p, ∃ x, Forall safe_name x ∧ p = (local_below local_root x, remote_below remote_root x)) stack.
Definition upload_walking (acc : TransferSummary * list (str * str)) (h : history FileTask Z) : Prop :=
  at_most o h ∧ counts agrees any_result_ok h acc.1 ∧ upload_stack_below acc.2.

Lemma keeps_upload_quiet : quiet_ok upload_walk_request.
Proof. intros q Hq. left. by apply upload_quiet. Qed.

Lemma wp_upload_entry ds acc entry h :
  0 < file_concurrency o → Forall safe_name ds → upload_walking acc h →
  wp M (upload_entry add o (local_below local_root ds) (remote_below remote_root ds) acc entry) (succeeds upload_walking) h.
Proof.
  intros Hfc Hsafe (Hmost & Hcounts & Hstack). destruct acc as [summary stack]. unfold upload_entry.
  rewrite wp_done_bind. destruct entry as [entry|e]; [|done].
  apply wp_system_bind; [apply keeps_check_cancelled, keeps_upload_quiet|]. intros _.
  rewrite wp_done_bind. destruct (le_type entry) as [file_type|e]; [|done]. destruct (_ || _).
  { rewrite wp_done_bind. destruct (add _ _ _); [|done]. split_and!; [done..|by apply Hcounts|done]. }
  rewrite wp_done_bind. destruct (bail_if _ _) as [[]|e]; [|done]. rewrite wp_bind, wp_context, wp_done.
  destruct (validate_remote_child_name (le_name entry)) as [[]|e] eqn:Hv; [|done]. cbn [in_context].
  rewrite wp_done_bind. destruct (join_remote_under_root _ _) as [path|e] eqn:Hj; [|done].
  destruct (upload_path_ok _ _ _ Hv Hj) as [Hname ->]. destruct (below_snoc ds (le_name entry)) as [Hr Hl].
  pose proof (Forall_snoc_safe _ _ Hsafe Hname) as Hsafe'. case_bool_decide.
  - apply wp_system_bind.
    { apply keeps_ensure_remote; [apply keeps_upload_quiet|]. intros d Hd. right. exists d, (ds ++ [le_name entry]). by rewrite Hr. }
    intros _. rewrite wp_done_bind. destruct (add _ _ _); [|done]. split_and!; [done..|by apply Hcounts|].
    constructor; [|done]. exists (ds ++ [le_name entry]). by rewrite Hr, Hl.
  - rewrite wp_bind. eapply wp_mono; [apply (wp_spawn_bounded add agrees o); [done..|]|].
    { exists (ds ++ [le_name entry]). split_and!; [by destruct ds|done|by rewrite Hl|by rewrite Hr]. }
    intros [s'|e] h' [Hmost' H']; [|done]. destruct H' as [_ Hc]. by split_and!.
Qed.

Lemma wp_upload_directories n summary stack h :
  0 < file_concurrency o → upload_walking (summary, stack) h →
  wp M (upload_directories add o n summary stack) (succeeds (λ s h', at_most o h' ∧ counts agrees any_result_ok h' s)) h.
Proof.
  intros Hfc. revert summary stack h. induction n as [|n IH]; intros summary stack h (Hmost & Hcounts & Hstack); cbn [upload_directories].
  { by destruct stack as [|[] ?]. }
  destruct stack as [|[ld rd] stack]; [done|]. apply Forall_cons in Hstack as [(ds & Hds & [= -> ->]) Hstack].
  apply wp_system_bind; [apply keeps_check_cancelled, keeps_upload_quiet|]. intros _.
  apply wp_system_bind; [apply keeps_call, keeps_ask; by apply keeps_upload_quiet|]. intros entries.
  rewrite wp_bind. apply (wp_fold _ upload_walking); [done| |].
  - intros [summary' stack'] h' Hw. by apply IH.
  - intros acc entry h' _ Hin. eapply wp_mono; [by apply wp_upload_entry|]. by intros [].
Qed.

Lemma wp_upload_tree_with transfer_root :
  0 < file_concurrency o → keeps_io upload_walk_request transfer_root →
  wp M (upload_tree_with add o rounds transfer_root local_root remote_root) (succeeds (reported agrees)) (mk_history [] []).
Proof.
  intros Hfc Hroot. unfold upload_tree_with.
  apply wp_system_bind; [apply keeps_check_cancelled, keeps_upload_quiet|]. intros _.
  apply wp_system_bind; [apply keeps_context, keeps_local_lstat, keeps_upload_quiet|]. intros m.
  rewrite wp_done_bind. destruct (bail_if _ _) as [[]|e]; [|done]. destruct (local_is KRegular m).
  - apply wp_system_bind; [done|]. intros bytes. split; [done|by left].
  - rewrite wp_done_bind. destruct (bail_if _ _) as [[]|e]; [|done].
    apply wp_system_bind; [apply keeps_ensure_remote; [apply keeps_upload_quiet|]|].
    { intros d Hd. right. exists d, []. split_and!; [done|constructor|done]. }
    intros _. rewrite wp_bind. eapply wp_mono; [apply wp_upload_directories; [done|]|].
    { split; [by apply at_most_nothing|]. split; [by apply counts_nothing|]. constructor; [|constructor]. exists []. split; [constructor|done]. }
    intros [s|e] h; [|done]. intros [Hmost Hc]. eapply wp_mono; [by apply (wp_collect_all add agrees o)|].
    intros [s'|e] h' [_ H']; [|done]. destruct H' as [Hl Hc']. split; [done|]. by right.
Qed.
End upload_walk.

Lemma wp_upload_tree :
  0 < file_concurrency o →
  wp (pool_monitor io_interface FileTask Z upload_walk_request (may_spawn o upload_below) any_result_ok)
    (upload_tree fuel rounds local_root remote_root o) (succeeds (reported (if atomic o then eq else wraps))) (mk_history [] []).
Proof.
  intros Hfc. unfold upload_tree. rewrite wp_done_bind. destruct (validated o) as [[]|e] eqn:Hv; [|done].
  destruct (atomic o) eqn:Hat; cbn [negb].
  - apply wp_upload_tree_with; [done|apply checked_add_exact|done|]. unfold Policy.upload_file. rewrite Hat. cbn [negb].
    apply keeps_bind; [done|]. intros _. apply keeps_bind; [done|]. intros _.
    eapply keeps_weaken; [apply (keeps_upload_atomic fuel local_root remote_root true)|]; [done..|]. intros q Hq. left. by rewrite Hat.
  - rewrite wp_done_bind. apply (wp_upload_tree_with _ wraps); [done|apply wraps_add|done|].
    eapply keeps_weaken; [apply (keeps_upload_in_place fuel local_root remote_root false)|]; [done..|]. intros q Hq. left. by rewrite Hat.
Qed.

(** *** What the tasks keep to *)
Lemma download_task_keeps t : keeps_io (download_request (ft_remote t) (ft_local t) (atomic o)) (download_task fuel o t).
Proof.
  unfold download_task. destruct (atomic o) eqn:Hat; cbn [negb]; [|by apply keeps_in_place].
  unfold DownloadPolicy.download_file. rewrite Hat. apply keeps_bind; [done|]. intros _. by apply keeps_atomic.
Qed.
Lemma upload_task_keeps t : keeps_io (upload_request (ft_local t) (ft_remote t) (atomic o)) (upload_task fuel o t).
Proof.
  unfold upload_task. destruct (atomic o) eqn:Hat; cbn [negb]; [|by apply keeps_upload_in_place].
  unfold Policy.upload_file. rewrite Hat. cbn [negb]. apply keeps_bind; [done|]. intros _. apply keeps_bind; [done|]. intros _. by apply keeps_upload_atomic.
Qed.

Lemma wp_with_session sys_ok spawn_ok {A} (work : tree A) (R : A → history FileTask Z → Prop) h :
  quiet_ok sys_ok → wp (pool_monitor io_interface FileTask Z sys_ok spawn_ok any_result_ok) work (succeeds R) h →
  wp (pool_monitor io_interface FileTask Z sys_ok spawn_ok any_result_ok) (with_session work) (succeeds R) h.
Proof.
  intros HP Hwork. unfold with_session. apply wp_system_bind; [apply keeps_call, keeps_ask; by apply HP|]. intros _.
  rewrite wp_bind, wp_try. eapply wp_mono; [exact Hwork|]. intros r h' Hr.
  rewrite wp_bind, wp_try. apply wp_sys. eapply wp_mono; [apply (keeps_call sys_ok), keeps_ask; by apply HP|].
  intros closed [] _. rewrite wp_done_bind. destruct r as [a|e]; [|done]. rewrite wp_done_bind. by destruct closed.
Qed.
End walks.

(** ** Properties *)
Section properties.
Context `{FileModes} {W : Type} (serves : ∀ q : io_interface, W → answer q → W → Prop) (fuel rounds : nat) (nfc to_lowercase : str → str).

(** A run of a recursive transfer, with all its tasks. *)
Definition download_runs (remote_root local_root : str) (o : TransferOptions) (w : W)
    (tr : list (pool_event io_interface FileTask Z)) (c : pool io_interface FileTask Z TransferSummary * W) : Prop :=
  pool_run io_interface FileTask Z (download_task fuel o) serves
    (mk_pool io_interface FileTask Z TransferSummary (download_recursive fuel rounds nfc to_lowercase remote_root local_root o) [] [], w) tr c.
Definition upload_runs (local_root remote_root : str) (o : TransferOptions) (w : W)
    (tr : list (pool_event io_interface FileTask Z)) (c : pool io_interface FileTask Z TransferSummary * W) : Prop :=
  pool_run io_interface FileTask Z (upload_task fuel o) serves
    (mk_pool io_interface FileTask Z TransferSummary (upload_recursive fuel rounds local_root remote_root o) [] [], w) tr c.

(** What may happen, after [before], in a recursive download and in an upload. *)
Definition download_event (remote_root local_root : str) (o : TransferOptions) (e : pool_event io_interface FileTask Z)
    (before : history FileTask Z) : Prop :=
  match e with
  | MainAsked _ _ _ q => download_walk_request o remote_root local_root q
  | TaskAsked _ _ _ t q => download_request (ft_remote t) (ft_local t) (atomic o) q
  | Spawned _ _ _ t =>
      tasks_left before < file_concurrency o ∧
      if atomic o then ∃ names, task_below remote_root local_root t names
      else fresh_download remote_root local_root nfc to_lowercase t (spawned before)
  | Joined _ _ _ t r => True
  end.
Definition upload_event (local_root remote_root : str) (o : TransferOptions) (e : pool_event io_interface FileTask Z)
    (before : history FileTask Z) : Prop :=
  match e with
  | MainAsked _ _ _ q => upload_walk_request o remote_root local_root q
  | TaskAsked _ _ _ t q => upload_request (ft_local t) (ft_remote t) (atomic o) q
  | Spawned _ _ _ t => tasks_left before < file_concurrency o ∧ ∃ names, task_below remote_root local_root t names
  | Joined _ _ _ t r => True
  end.

Definition spawns_download (remote_root local_root : str) (o : TransferOptions) : FileTask → list FileTask → Prop :=
  if atomic o then download_below remote_root local_root else fresh_download remote_root local_root nfc to_lowercase.
Definition counter (o : TransferOptions) : Z → Z → Prop := if atomic o then eq else wraps.
Abbreviation any_task := (any_result FileTask Z (λ _ _, True)).

Lemma wp_download_recursive remote_root local_root o :
  0 < file_concurrency o →
  wp (pool_monitor io_interface FileTask Z (download_walk_request o remote_root local_root)
      (may_spawn o (spawns_download remote_root local_root o)) any_task)
    (download_recursive fuel rounds nfc to_lowercase remote_root local_root o) (succeeds (reported (counter o))) (mk_history [] []).
Proof.
  intros Hfc. apply (wp_pool_results _ _ _ _ _ any_result_ok); [done|]. apply wp_with_session; [apply keeps_walk_quiet|].
  unfold spawns_download, counter. destruct (atomic o) eqn:Hat; [by apply wp_atomic_download_tree|].
  unfold download_tree. rewrite wp_done_bind. destruct (validated o) as [[]|e]; [|done]. rewrite Hat. by apply wp_engine_download_tree.
Qed.

Lemma wp_upload_recursive local_root remote_root o :
  0 < file_concurrency o →
  wp (pool_monitor io_interface FileTask Z (upload_walk_request o remote_root local_root)
      (may_spawn o (upload_below remote_root local_root)) any_task)
    (upload_recursive fuel rounds local_root remote_root o) (succeeds (reported (counter o))) (mk_history [] []).
Proof.
  intros Hfc. apply (wp_pool_results _ _ _ _ _ any_result_ok); [done|]. apply wp_with_session; [apply keeps_upload_quiet|].
  by apply wp_upload_tree.
Qed.

(** C7: A recursive download stays below its roots in every interleaving.  Whatever
    the server lists and the disk answers, each task transfers one file whose two
    paths are the roots followed by the same safe names; nothing else on the disk is
    touched but directories above such files; at most [file_concurrency] tasks run
    at once; and in place, no two tasks get names that agree up to case and
    normalization.  A summary counts the files and bytes that the tasks reported,
    which have all ended. *)
Theorem recursive_download_confined remote_root local_root o w tr c :
  0 < file_concurrency o → download_runs remote_root local_root o w tr c →
  (∀ before e after, tr = before ++ e :: after → download_event remote_root local_root o e (history_of io_interface FileTask Z before)) ∧
  ∀ s, main io_interface FileTask Z TransferSummary c.1 = Done (Ok s) → reported (counter o) s (history_of io_interface FileTask Z tr).
Proof.
  intros Hfc Hrun.
  destruct (pool_safe io_interface FileTask Z (download_task fuel o) serves _ _ (λ t, download_request (ft_remote t) (ft_local t) (atomic o))
    (λ _ _, True) (λ t h _, download_task_keeps o fuel t) _ _ _ _ _ (wp_download_recursive remote_root local_root o Hfc) Hrun) as [Hev Hmain _ _ _].
  split.
  - intros before e after Heq. specialize (Hev before e after Heq). destruct e as [q|t q|t|t r]; cbn in *; [done|done| |done].
    destruct Hev as [Hf Hl]. split; [done|]. unfold spawns_download in Hf. by destruct (atomic o).
  - intros s Hs. rewrite Hs in Hmain. exact Hmain.
Qed.

(** C12: A recursive upload stays below its roots in every interleaving: each task
    transfers one file whose two paths are the roots followed by the same safe names,
    nothing else on the server is touched but directories above such files, at most
    [file_concurrency] tasks run at once, and a summary counts what the tasks, which
    have all ended, reported. *)
Theorem recursive_upload_confined local_root remote_root o w tr c :
  0 < file_concurrency o → upload_runs local_root remote_root o w tr c →
  (∀ before e after, tr = before ++ e :: after → upload_event local_root remote_root o e (history_of io_interface FileTask Z before)) ∧
  ∀ s, main io_interface FileTask Z TransferSummary c.1 = Done (Ok s) → reported (counter o) s (history_of io_interface FileTask Z tr).
Proof.
  intros Hfc Hrun.
  destruct (pool_safe io_interface FileTask Z (upload_task fuel o) serves _ _ (λ t, upload_request (ft_local t) (ft_remote t) (atomic o))
    (λ _ _, True) (λ t h _, upload_task_keeps o fuel t) _ _ _ _ _ (wp_upload_recursive local_root remote_root o Hfc) Hrun) as [Hev Hmain _ _ _].
  split.
  - intros before e after Heq. specialize (Hev before e after Heq). destruct e as [q|t q|t|t r]; cbn in *; [done|done| |done].
    by destruct Hev.
  - intros s Hs. rewrite Hs in Hmain. exact Hmain.
Qed.
End properties.

(** ** Runs *)
Module Runs.
Definition listing (p : str) (g : files) : list (str * FileAttributes) :=
  if bool_decide (p = lit "r") then [(lit "a", Model.attributes 1 2); (lit "..", Model.attributes 2 0); (lit "b", Model.attributes 1 1)] else [].
Definition entries (p : str) : list (result LocalEntry) :=
  if bool_decide (p = lit "d") then [Ok (mk_local_entry (lit "a") (Ok KRegular)); Ok (mk_local_entry (lit "l") (Ok KSymlink))] else [].
Definition serve (q : req) : files → req_answer q * files :=
  match q with
  | RReadDir p => λ g, (Ok (listing p g), g)
  | LReadDir p => λ g, (Ok (entries p), g)
  | q => Model.serve q
  end.
Definition serves (q : io_interface) (g : files) (r : answer q) (g' : files) : Prop := serve q g = (r, g').

Definition server : side := mk_side {[ lit "r/a" := [1; 2]; lit "r/b" := [3] ]} {[ lit "r" ]} ∅.
Definition disk : side := mk_side ∅ ∅ ∅.
Definition options : TransferOptions := mk_options false true 2 16 262144 30 false.
Definition download : list (pool_event io_interface FileTask Z) * (pool io_interface FileTask Z TransferSummary * files) :=
  play io_interface FileTask Z (@download_task Model.modes 9 options) serve 400 []
    (mk_pool io_interface FileTask Z TransferSummary
       (@download_recursive Model.modes 9 9 id id (lit "r") (lit "d") options) [] [], mk_files server disk).
Definition upload : list (pool_event io_interface FileTask Z) * (pool io_interface FileTask Z TransferSummary * files) :=
  play io_interface FileTask Z (@upload_task Model.modes 9 options) serve 400 []
    (mk_pool io_interface FileTask Z TransferSummary
       (@upload_recursive Model.modes 9 9 (lit "d") (lit "u") options) [] [],
     mk_files (mk_side ∅ ∅ ∅) (mk_side {[ lit "d/a" := [7; 8; 9] ]} {[ lit "d" ]} ∅)).

Definition summary_of (c : pool io_interface FileTask Z TransferSummary * files) : option (result TransferSummary) :=
  match main io_interface FileTask Z TransferSummary c.1 with Done r => Some r | Ask _ _ => None end.

Example download_done :
  summary_of download.2 = Some (Ok (mk_summary 2 1 3 0)) ∧
  regular (on_disk download.2.2) = {[ lit "d/a" := [1; 2]; lit "d/b" := [3] ]}.
Proof. split; vm_compute; reflexivity. Qed.
Example upload_done :
  summary_of upload.2 = Some (Ok (mk_summary 1 1 3 1)) ∧ regular (on_server upload.2.2) = {[ lit "u/a" := [7; 8; 9] ]}.
Proof. split; vm_compute; reflexivity. Qed.

Lemma done_of_summary c s : summary_of c = Some (Ok s) → main io_interface FileTask Z TransferSummary c.1 = Done (Ok s).
Proof. unfold summary_of. destruct (main _ _ _ _ c.1); [by intros [= ->]|done]. Qed.
End Runs.

Lemma recursive_download_confined_witness :
  reported eq (mk_summary 2 1 3 0) (history_of io_interface FileTask Z Runs.download.1).
Proof.
  apply (proj2 (@recursive_download_confined Model.modes files Runs.serves 9 9 id id (lit "r") (lit "d") Runs.options
    (mk_files Runs.server Runs.disk) Runs.download.1 Runs.download.2 eq_refl
    (play_runs io_interface FileTask Z (@download_task Model.modes 9 Runs.options) Runs.serves Runs.serve
      (λ q w, surjective_pairing _) 400 _))).
  apply Runs.done_of_summary. vm_compute. reflexivity.
Defined.

Lemma recursive_upload_confined_witness :
  reported eq (mk_summary 1 1 3 1) (history_of io_interface FileTask Z Runs.upload.1).
Proof.
  apply (proj2 (@recursive_upload_confined Model.modes files Runs.serves 9 9 (lit "d") (lit "u") Runs.options
    _ Runs.upload.1 Runs.upload.2 eq_refl
    (play_runs io_interface FileTask Z (@upload_task Model.modes 9 Runs.options) Runs.serves Runs.serve
      (λ q w, surjective_pairing _) 400 _))).
  apply Runs.done_of_summary. vm_compute. reflexivity.
Defined.
