(* ===== verification/SyncRun.v ===== *)
(** * Running a synchronization
      ([apply_sync_to_remote] of [crates/kaduox-ssh-transfer/src/sync.rs],
       [sync/source_preflight.rs], [sync/preflight.rs])

    The run of a plan as a program: its checks, the deletions and directories in the
    order of the plan, and the uploads of [transfer_policy], at most
    [file_concurrency] of them at once, in a world that other processes change too.
    A theorem says, for every interleaving and whatever is answered, what a run
    changes, what it was told before, and what its summary means. *)

From stdpp Require Import base list gmap strings numbers sorting.
From Stdlib Require Import Lia.
From S2P Require Import Prelude RustStr StrFacts RemotePath Sftp RemoteServer TaskRegistry SyncPlan SyncPreflight Program LocalPath TransferOps Transfer TransferSafety TransferExact TransferTree TransferTreeSafety.

(** ** Definitions *)
Section run.
Context `{FileModes}.

(** *** The local sources ([sync/source_preflight.rs]) *)

(** Shared by the two checks of the root. *)
Definition check_local_root (local_root : str) : transfer unit :=
  (metadata ⇐ p_context "failed to stat the sync source root" (local_lstat local_root);
   Done (bail_if (is_local_link_like metadata) "refusing symbolic-link sync source root") ;;
   Done (bail_if (negb (local_is KDirectory metadata)) "sync source must be a directory"))%prog.

Fixpoint preflight_local_components (current : str) (components : list Component) (expected_len : Z) : transfer unit :=
  match components with
  | [] => p_ret tt
  | Normal component :: components =>
      let current := path_push current component in
      (metadata ⇐ p_context "failed to stat sync upload source" (local_lstat current);
       Done (bail_if (is_local_link_like metadata) "refusing to follow symbolic-link component in sync upload source") ;;
       (if bool_decide (components = []) then
          Done (bail_if (negb (local_is KRegular metadata)) "sync upload source is no longer a regular file") ;;
          Done (bail_if (negb (lm_len metadata =? expected_len)) "sync plan is stale: upload source size changed")
        else
          Done (bail_if (negb (local_is KDirectory metadata)) "sync upload source parent is no longer a directory")) ;;
       preflight_local_components current components expected_len)%prog
  | _ :: _ => p_err "sync upload source contains a non-normal local path component"
  end.

Definition preflight_local_sync_source (local_root relative : str) (expected_len : Z) : transfer unit :=
  let components := path_components relative in
  (Done (bail_if (bool_decide (components = [])) "sync upload source cannot be the synchronization root itself") ;;
   preflight_local_components local_root components expected_len)%prog.

Definition preflight_local_action (local_root : str) (action : SyncAction) : transfer unit :=
  if negb (bool_decide (a_kind action = UploadFile)) then p_ret tt
  else
    (relative ⇐ Done (local_path_from_remote_relative (a_path action));
     preflight_local_sync_source local_root relative (a_bytes action))%prog.
Definition preflight_local_sync_sources (local_root : str) (plan : SyncPlan) : transfer unit :=
  (check_local_root local_root ;; p_for_each (preflight_local_action local_root) (actions plan))%prog.

(** *** The remote destinations of an atomic run ([sync/preflight.rs]) *)
Definition node_kind (a : FileAttributes) : RemoteNodeKind :=
  if is_symlink a then NodeSymlink else if is_dir a then NodeDirectory else NodeOther.

Definition remote_node_kind_if_exists (path : str) : transfer (option RemoteNodeKind) :=
  (r ⇐ tell (RLstat path);
   match r with SOk a => p_ret (Some (node_kind a)) | NoSuchFile => p_ret None | SErr e => p_err e end)%prog.

(** The loop over the components of one upload path; [fresh] is
    [ancestor_will_be_fresh]. *)
Fixpoint preflight_components (root : str) (mutations : gmap str PlannedMutation) (prefix : str) (fresh : bool)
    (components : list str) : transfer unit :=
  match components with
  | [] => p_ret tt
  | component :: components =>
      let prefix := if bool_decide (prefix = []) then component else prefix ++ slash :: component in
      let mutation := mutation_for mutations prefix in
      let final_component := bool_decide (components = []) in
      if fresh then
        if final_component then Done (validate_upload_beneath_fresh_ancestor mutation)
        else (Done (validate_parent_beneath_fresh_ancestor mutation) ;;
              preflight_components root mutations prefix true components)%prog
      else
        (remote_path ⇐ Done (join_remote_under_root root prefix);
         current ⇐ remote_node_kind_if_exists remote_path;
         if final_component then Done (validate_final_upload_destination current mutation)
         else match current with
         | Some NodeDirectory =>
             Done (bail_if (has_delete mutation) "atomic sync plan would delete existing parent directory") ;;
             preflight_components root mutations prefix false components
         | Some (NodeSymlink | NodeOther) =>
             if deletes_file mutation && negb (deletes_directory mutation) && creates_directory mutation
             then preflight_components root mutations prefix true components
             else p_err "refusing atomic sync preflight through non-directory or symbolic-link parent"
         | None =>
             Done (bail_if (has_delete mutation) "atomic sync plan is stale: parent is absent but has a delete mutation") ;;
             preflight_components root mutations prefix true components
         end)%prog
  end.

Definition preflight_atomic_upload_path (root relative : str) (mutations : gmap str PlannedMutation) : transfer unit :=
  (Done (validate_remote_relative_path relative) ;;
   preflight_components root mutations [] false (split slash relative))%prog.

Fixpoint root_exists_loop (current : str) (segments : list str) : transfer bool :=
  match segments with
  | [] => p_ret true
  | segment :: segments =>
      if bool_decide (segment = dot) then root_exists_loop current segments
      else if bool_decide (segment = dotdot) then p_err "remote sync root traversal with '..' is not supported"
      else
        let current := join_remote current segment in
        (kind ⇐ remote_node_kind_if_exists current;
         match kind with
         | Some NodeDirectory => root_exists_loop current segments
         | Some NodeSymlink => p_err "refusing to follow symbolic-link component in remote sync destination root"
         | Some NodeOther => p_err "remote sync destination root component is not a directory"
         | None => p_ret false
         end)%prog
  end.

Definition remote_root_exists_without_symlinks (root : str) : transfer bool :=
  if bool_decide (root = []) || bool_decide (root = dot) || bool_decide (root = [slash]) then p_ret true
  else
    (Done (bail_if (contains_char root 0) "remote sync root cannot contain NUL bytes") ;;
     root_exists_loop (if starts_with root [slash] then [slash] else []) (filter (λ w, w ≠ []) (split slash root)))%prog.

Definition is_removal (a : SyncAction) : bool :=
  bool_decide (a_kind a = DeleteRemoteFile) || bool_decide (a_kind a = DeleteRemoteDirectory).
Definition uploads_of (plan : SyncPlan) : list SyncAction := filter (λ a, a_kind a = UploadFile) (actions plan).

Definition preflight_atomic_sync (root : str) (plan : SyncPlan) : transfer unit :=
  (mutations ⇐ Done (collect_planned_mutations plan);
   root_exists ⇐ remote_root_exists_without_symlinks root;
   if negb root_exists then
     Done (bail_if (existsb is_removal (actions plan)) "atomic sync plan is stale: remote root is absent but the plan still deletes") ;;
     Done (for_each (λ a, validate_upload_beneath_fresh_ancestor (mutation_for mutations (a_path a))) (uploads_of plan))
   else p_for_each (λ a, preflight_atomic_upload_path root (a_path a) mutations) (uploads_of plan))%prog.

(** *** The run ([apply_sync_to_remote]) *)

(** The body of the first loop. *)
Definition apply_action (remote_root : str) (summary : TransferSummary) (action : SyncAction) : transfer TransferSummary :=
  (remote_path ⇐ Done (join_remote_under_root remote_root (a_path action));
   match a_kind action with
   | DeleteRemoteFile => call (tell (RRemoveFile remote_path)) ;; p_ret summary
   | DeleteRemoteDirectory => call (tell (RRemoveDir remote_path)) ;; p_ret summary
   | CreateRemoteDirectory =>
       ensure_remote_dir remote_path ;;
       p_ret (add_directory summary (u64_wrap (sum_directories summary + 1)))
   | UploadFile => p_ret summary
   end)%prog.

(** [collect_next_sync_upload] *)
Definition collect_next_sync_upload (summary : TransferSummary) : tree TransferSummary := collect_next checked summary.

(** The body of the second loop. *)
Definition upload_action (local_root remote_root : str) (o : TransferOptions) (summary : TransferSummary) (action : SyncAction)
    : tree TransferSummary :=
  if negb (bool_decide (a_kind action = UploadFile)) then p_ret summary
  else
    (len ⇐ tree_ask Len;
     summary ⇐ (if file_concurrency o <=? len then collect_next_sync_upload summary else p_ret summary);
     local_relative ⇐ Done (local_path_from_remote_relative (a_path action));
     remote_path ⇐ Done (join_remote_under_root remote_root (a_path action));
     tree_ask (Spawn (mk_file_task (path_push local_root local_relative) remote_path)) ;;
     p_ret summary)%prog.

(** The checks that come before any change. *)
Definition apply_checks (local_root remote_root : str) (plan : SyncPlan) (o : TransferOptions) : transfer unit :=
  (Done (validated o) ;;
   Done (validate_sync_plan plan) ;;
   check_local_root local_root ;;
   preflight_local_sync_sources local_root plan ;;
   call (tell OpenSession) ;;
   if atomic o then preflight_atomic_sync remote_root plan else p_ret tt)%prog.

Definition apply_sync_to_remote (local_root remote_root : str) (plan : SyncPlan) (o : TransferOptions) : tree TransferSummary :=
  (system (apply_checks local_root remote_root plan o) ;;
   system (ensure_remote_dir remote_root) ;;
   summary ⇐ system (p_fold (apply_action remote_root) no_transfer (actions plan));
   summary ⇐ p_fold (upload_action local_root remote_root o) summary (actions plan);
   collect_all checked summary)%prog.

Context (fuel : nat).
(** The body of a spawned task. *)
Definition sync_upload (o : TransferOptions) (t : FileTask) : transfer Z := Policy.upload_file fuel (ft_local t) (ft_remote t) o.
End run.

(** ** What a run may do *)
Abbreviation told := (log io_interface).
(** What was answered to a request. *)
Abbreviation answered l q r := ((existT (P := req_answer) q r : sigT req_answer) ∈ (l : told)).

Section specification.
Context `{FileModes} (local_root remote_root : str) (plan : SyncPlan) (o : TransferOptions).

(** The paths of an action are its names below the two roots. *)
Definition names_of (a : SyncAction) : list str := split slash (a_path a).
Definition source_of (a : SyncAction) : str := local_below local_root (names_of a).
Definition target_of (a : SyncAction) : str := remote_below remote_root (names_of a).
Definition planned_upload (a : SyncAction) : FileTask := mk_file_task (source_of a) (target_of a).
Definition planned (k : SyncActionKind) (names : list str) : Prop := ∃ a, a ∈ actions plan ∧ a_kind a = k ∧ names_of a = names.

(** *** Before a change *)
Definition local_directory (l : told) (p : str) : Prop := ∃ m, answered l (LLstat p) (SOk m) ∧ lm_kind m = KDirectory.
(** A regular file of the planned size, below directories that are no links. *)
Definition source_seen (l : told) (a : SyncAction) : Prop :=
  (∃ m, answered l (LLstat (source_of a)) (SOk m) ∧ lm_kind m = KRegular ∧ lm_len m = a_bytes a) ∧
  ∀ parents rest, names_of a = parents ++ rest → rest ≠ [] → local_directory l (local_below local_root parents).

Definition remote_directory (l : told) (p : str) : Prop := ∃ a, answered l (RLstat p) (SOk a) ∧ remote_type a = FtDir.
Definition remote_absent (l : told) (p : str) : Prop := answered l (RLstat p) NoSuchFile.

(** An entry that the plan deletes as what it is; if something is to be uploaded
    below it, one that is no directory and is replaced by one. *)
Definition replaced (here below : list str) (a : FileAttributes) : Prop :=
  planned (if bool_decide (remote_type a = FtDir) then DeleteRemoteDirectory else DeleteRemoteFile) here ∧
  (below ≠ [] → remote_type a ≠ FtDir ∧ planned CreateRemoteDirectory here).
Definition kept (names : list str) : Prop := ¬ planned DeleteRemoteFile names ∧ ¬ planned DeleteRemoteDirectory names.
(** On the way to an upload are directories that stay, up to the upload or something
    else that is not there or that the plan replaces; below that, nothing is deleted. *)
Definition way_clear (l : told) (a : SyncAction) : Prop :=
  ¬ planned CreateRemoteDirectory (names_of a) ∧
  ∃ here below, names_of a = here ++ below ∧ here ≠ [] ∧
    (∀ above rest, here = above ++ rest → above ≠ [] → rest ≠ [] → remote_directory l (remote_below remote_root above) ∧ kept above) ∧
    (∀ more rest, below = more ++ rest → more ≠ [] → kept (here ++ more)) ∧
    (remote_absent l (remote_below remote_root here) ∧ kept here ∨
      ∃ found, answered l (RLstat (remote_below remote_root here)) (SOk found) ∧ replaced here below found).
(** There is no root yet: nothing can be in the way, and nothing deleted. *)
Definition root_missing (l : told) : Prop :=
  (∃ d, d ∈ remote_chain remote_root ∧ remote_absent l d) ∧ (∀ a, a ∈ actions plan → is_removal a = false) ∧
  ∀ a, a ∈ uploads_of plan → ¬ planned CreateRemoteDirectory (names_of a).

(** No action is planned twice, nothing deleted both as a file and as a directory, and
    deleted only before it is made again. *)
Definition planned_at (n : nat) (k : SyncActionKind) (names : list str) : Prop :=
  ∃ a, actions plan !! n = Some a ∧ a_kind a = k ∧ names_of a = names.
Definition consistent : Prop :=
  (∀ n n' k names, k ≠ UploadFile → planned_at n k names → planned_at n' k names → n = n') ∧
  (∀ names, ¬ (planned DeleteRemoteFile names ∧ planned DeleteRemoteDirectory names)) ∧
  ∀ n n' k names, k = DeleteRemoteFile ∨ k = DeleteRemoteDirectory →
    planned_at n k names → planned_at n' CreateRemoteDirectory names → (n < n')%nat.

Definition prepared (l : told) : Prop :=
  validated o = Ok tt ∧ Forall (λ a, safe_path (a_path a)) (actions plan) ∧ local_directory l local_root ∧
  (∀ a, a ∈ uploads_of plan → source_seen l a) ∧
  (atomic o = true → consistent ∧ (root_missing l ∨ ∀ a, a ∈ uploads_of plan → way_clear l a)).

(** *** The changes so far *)
Definition removal_asked (e : sigT req_answer) : option (SyncActionKind * str) :=
  match projT1 e with RRemoveFile p => Some (DeleteRemoteFile, p) | RRemoveDir p => Some (DeleteRemoteDirectory, p) | _ => None end.
Definition removal_of (a : SyncAction) : option (SyncActionKind * str) := if is_removal a then Some (a_kind a, target_of a) else None.

Definition change_done (e : sigT req_answer) : Prop :=
  match e with
  | existT (RRemoveFile _) r | existT (RRemoveDir _) r | existT (RCreateDir _) r => r = Ok tt
  | _ => True
  end.
(** A directory that was seen or made. *)
Definition there (l : told) (d : str) : Prop := remote_directory l d ∨ answered l (RCreateDir d) (Ok tt).

(** The root and the actions of [acts] are done: every deletion once and in order. *)
Definition carried_out (l : told) (acts : list SyncAction) : Prop :=
  Forall change_done l ∧ omap removal_asked l = omap removal_of acts ∧
  (∀ d, d ∈ remote_chain remote_root → there l d) ∧
  ∀ a d, a ∈ acts → a_kind a = CreateRemoteDirectory → d ∈ remote_chain (target_of a) → there l d.

(** [q] is asked for the next action, of kind [k]. *)
Definition next_action (l : told) (k : SyncActionKind) (q : SyncAction → Prop) : Prop :=
  ∃ before a after, actions plan = before ++ a :: after ∧ a_kind a = k ∧ carried_out l before ∧ q a.

Definition sync_request (q : req) (l : told) : Prop :=
  match q with
  | LLstat p => p = local_root ∨ ∃ a names, a ∈ uploads_of plan ∧ names `prefix_of` names_of a ∧ p = local_below local_root names
  | OpenSession | RLstat _ => True
  | RRemoveFile p => prepared l ∧ next_action l DeleteRemoteFile (λ a, p = target_of a)
  | RRemoveDir p => prepared l ∧ next_action l DeleteRemoteDirectory (λ a, p = target_of a)
  | RCreateDir d =>
      prepared l ∧ Forall change_done l ∧ last l = Some (existT (RLstat d) NoSuchFile) ∧
      (d ∈ remote_chain remote_root ∧ omap removal_asked l = [] ∨
       next_action l CreateRemoteDirectory (λ a, d ∈ remote_chain (target_of a)))
  | _ => False
  end.

(** The uploads start in the order of the plan, each once, when all else is done and
    as long as none has failed. *)
Definition sync_spawn (t : FileTask) (h : history FileTask Z) (l : told) : Prop :=
  prepared l ∧ carried_out l (actions plan) ∧ tasks_left h < file_concurrency o ∧ Forall (λ r, is_ok r = true) (joined h) ∧
  spawned h ++ [t] `prefix_of` planned_upload <$> uploads_of plan.

(** What a summary means. *)
Definition synchronized (s : TransferSummary) (h : history FileTask Z) (l : told) : Prop :=
  prepared l ∧ carried_out l (actions plan) ∧ spawned h = planned_upload <$> uploads_of plan ∧
  ∃ bytes, joined h = Ok <$> bytes ∧ length bytes = length (uploads_of plan) ∧
    s = mk_summary (zlen (uploads_of plan)) (u64_wrap (zlen (filter (λ a, a_kind a = CreateRemoteDirectory) (actions plan))))
          (foldr Z.add 0 bytes) 0.
End specification.

(** ** Logs *)
Section logs.
Context `{FileModes} (local_root remote_root : str) (plan : SyncPlan) (o : TransferOptions).

Lemma answered_more (l l' : told) q r : l `prefix_of` l' → answered l q r → answered l' q r.
Proof. intros [k ->] Hr. apply elem_of_app. by left. Qed.
Lemma local_directory_more l l' p : l `prefix_of` l' → local_directory l p → local_directory l' p.
Proof. intros Hl (m & Hm & Hk). exists m. split; [by eapply answered_more|done]. Qed.
Lemma remote_directory_more l l' p : l `prefix_of` l' → remote_directory l p → remote_directory l' p.
Proof. intros Hl (m & Hm & Hk). exists m. split; [by eapply answered_more|done]. Qed.
Lemma source_seen_more l l' a : l `prefix_of` l' → source_seen local_root l a → source_seen local_root l' a.
Proof.
  intros Hl [(m & Hm & Hk) Hp]. split; [exists m; split; [by eapply answered_more|done]|].
  intros ps rest Heq Hrest. eapply local_directory_more; [done|]. by eapply Hp.
Qed.
Lemma way_clear_more l l' a : l `prefix_of` l' → way_clear remote_root plan l a → way_clear remote_root plan l' a.
Proof.
  intros Hl (Hno & here & below & Heq & Hne & Habove & Hbelow & Hend). split; [done|]. exists here, below. split_and!; [done..| |done|].
  - intros above rest Hh Ha Hr. destruct (Habove above rest Hh Ha Hr) as (Hd & ?). split; [|done].
    by eapply remote_directory_more.
  - destruct Hend as [[Hend ?]|(a' & Hend & Hrep)]; [left; split; [|done]|right; exists a'; split; [|done]]; by eapply answered_more.
Qed.
Lemma prepared_more l l' : l `prefix_of` l' → prepared local_root remote_root plan o l → prepared local_root remote_root plan o l'.
Proof.
  intros Hl (Hv & Hs & Hd & Hsrc & Hat). split_and!; [done..| | |].
  - by eapply local_directory_more.
  - intros a Ha. eapply source_seen_more; [done|]. by apply Hsrc.
  - intros Ho. destruct (Hat Ho) as [Hcon [((d & Hin & Habs) & Hno)|Hway]]; (split; [done|]); [left|right].
    + split; [|done]. exists d. split; [done|]. by eapply answered_more.
    + intros a Ha. eapply way_clear_more; [done|]. by apply Hway.
Qed.
Lemma there_more l l' d : l `prefix_of` l' → there l d → there l' d.
Proof. intros Hl [Hd|Hd]; [left; by eapply remote_directory_more|right; by eapply answered_more]. Qed.

(** More exchanges that change nothing, or only make directories. *)
Lemma carried_out_more l l' acts :
  l `prefix_of` l' → Forall change_done l' → omap removal_asked l' = omap removal_asked l →
  carried_out remote_root l acts → carried_out remote_root l' acts.
Proof.
  intros Hl Hd Hr (_ & Heq & Hroot & Hmade). split_and!; [done|by rewrite Hr| |].
  - intros d Hin. eapply there_more; [done|]. by apply Hroot.
  - intros a d Ha Hk Hin. eapply there_more; [done|]. by eapply Hmade.
Qed.

(** Only looked at so far. *)
Definition looked (l : told) : Prop := Forall (λ e, observes (projT1 e) = true) l.
Lemma looked_done l : looked l → Forall change_done l.
Proof. intros Hl. eapply Forall_impl; [exact Hl|]. intros [q r]. by destruct q. Qed.
Lemma looked_removals l : looked l → omap removal_asked l = [].
Proof.
  induction 1 as [|[q r] l Hq Hl IH]; [done|]. cbn. rewrite IH. by destruct q.
Qed.
End logs.

(** ** Paths *)
Definition remote_base (root : str) : str :=
  if bool_decide (root = []) || bool_decide (root = dot) then [] else if ends_with root [slash] then root else root ++ [slash].

Lemma join_remote_base parent child : join_remote parent child = remote_base parent ++ child.
Proof.
  unfold join_remote, remote_base. destruct (_ || _); [done|]. case_bool_decide as Hs; [by subst parent|].
  destruct (ends_with parent [slash]); [done|]. by rewrite <- app_assoc.
Qed.

Lemma remote_base_safe dir name : safe_name name → remote_base (dir ++ name) = (dir ++ name) ++ [slash].
Proof.
  intros Hname. pose proof (safe_nonempty _ Hname) as Hne. unfold remote_base.
  rewrite !bool_decide_eq_false_2, ends_with_one, bool_decide_eq_false_2; [done| | |].
  - destruct name as [|c name _] using rev_ind; [done|]. rewrite app_assoc, last_snoc. intros [= ->].
    apply (safe_slash _ Hname), elem_of_app. right. by left.
  - intros Hd. destruct dir as [|c dir]; [|by destruct dir, name]. by destruct Hname.
  - by intros [_ ?]%app_eq_nil.
Qed.

Lemma remote_below_join root names :
  Forall safe_name names → names ≠ [] → remote_below root names = remote_base root ++ join_with slash names.
Proof.
  unfold remote_below. intros Hs Hne. destruct names as [|name names]; [done|]. clear Hne.
  apply Forall_cons in Hs as [Hname Hs]. cbn [foldl]. rewrite join_remote_base.
  generalize (remote_base root) as base. intros base. revert base name Hname. induction Hs as [|name' names Hname' Hs IH]; intros base name Hname.
  - done.
  - cbn [foldl]. rewrite join_remote_base, remote_base_safe by done. rewrite IH by done. rewrite (join_with_cons slash name) by done.
    rewrite <- !app_assoc. done.
Qed.

Lemma join_remote_names root names :
  Forall safe_name names → names ≠ [] → join_remote root (join_with slash names) = remote_below root names.
Proof. intros Hs Hne. by rewrite remote_below_join, join_remote_base. Qed.

Lemma join_with_snoc names w :
  join_with slash (names ++ [w]) = if bool_decide (names = []) then w else join_with slash names ++ slash :: w.
Proof.
  induction names as [|n names IH]; [done|]. rewrite (bool_decide_eq_false_2 (n :: names = [])) by done. cbn [app].
  rewrite join_with_cons by by destruct names. rewrite IH. destruct names as [|n' names]; [done|].
  rewrite bool_decide_eq_false_2, (join_with_cons slash n) by done. by rewrite <- app_assoc.
Qed.

Lemma safe_names_path names : Forall safe_name names → names ≠ [] → safe_path (join_with slash names).
Proof.
  intros Hs Hne. unfold safe_path. rewrite split_join; [done..|]. eapply Forall_impl; [exact Hs|]. by intros w [].
Qed.

(** ** Checking *)
Section checking.
Context `{FileModes} (local_root remote_root : str) (plan : SyncPlan) (o : TransferOptions).
Abbreviation ok := (sync_request local_root remote_root plan o).
Abbreviation L := (logging io_interface ok).

Definition looks {A} (R : A → told → Prop) (l : told) (r : result A) (l' : told) : Prop :=
  l `prefix_of` l' ∧ looked l' ∧ succeeds R r l'.

Lemma wp_look_bind {A B} (p : transfer A) (f : A → transfer B) (R : A → told → Prop) (R' : B → told → Prop) l :
  wp L p (looks R l) l → (∀ a l', l `prefix_of` l' → looked l' → R a l' → wp L (f a) (looks R' l') l') →
  wp L (p_bind p f) (looks R' l) l.
Proof.
  intros Hp Hf. rewrite wp_bind. eapply wp_mono; [exact Hp|]. intros [a|e] l' (Hl & Hk & HR); [|done].
  eapply wp_mono; [by apply Hf|]. intros r l'' (Hl' & HR'). split; [by etrans|done].
Qed.
Lemma wp_check_bind {B} (c : result unit) (f : unit → transfer B) (R' : B → told → Prop) l :
  looked l → (c = Ok tt → wp L (f tt) (looks R' l) l) → wp L (p_bind (Done c) f) (looks R' l) l.
Proof. intros Hl Hf. rewrite wp_done_bind. destruct c as [[]|e]; [by apply Hf|done]. Qed.
Lemma wp_checked (c : result unit) (R : Prop) l : looked l → (c = Ok tt → R) → wp L (Done c) (looks (λ _ _, R) l) l.
Proof. intros Hl Hf. split_and!; [done..|]. destruct c as [[]|e]; [by apply Hf|done]. Qed.

Lemma wp_look (q : io_interface) (R : answer q → told → Prop) l :
  observes q = true → ok q l → looked l → (∀ r l', l `prefix_of` l' → answered l' q r → R r l') →
  wp L (tell q) (looks R l) l.
Proof.
  intros Hq Ho Hl HR. split; [done|]. intros r l' ->. split_and!.
  - by exists [existT q r].
  - apply Forall_app. split; [done|]. by constructor.
  - apply HR; [by exists [existT q r]|]. apply elem_of_app. right. by left.
Qed.

Lemma wp_local_look e p l :
  looked l → ok (LLstat p) l → wp L (p_context e (local_lstat p)) (looks (λ m l', answered l' (LLstat p) (SOk m)) l) l.
Proof.
  intros Hl Ho. rewrite wp_context. unfold local_lstat. rewrite wp_bind. eapply wp_mono; [by apply (wp_look (LLstat p) (λ r l', answered l' (LLstat p) r))|].
  intros [r|e'] l' (Hl' & Hk & HR); [|done]. by destruct r.
Qed.

Lemma wp_check_local_root l : looked l → wp L (check_local_root local_root) (looks (λ _ l', local_directory l' local_root) l) l.
Proof.
  intros Hl. unfold check_local_root. eapply wp_look_bind; [apply wp_local_look; [done|by left]|]. intros m l' _ Hl' Hm.
  apply wp_check_bind; [done|]. intros _. split_and!; [done..|]. destruct (local_is KDirectory m) eqn:Hk; [|done].
  apply bool_decide_eq_true in Hk. by exists m.
Qed.

Lemma wp_each {A} (f : A → transfer unit) (R : A → told → Prop) xs l :
  looked l → (∀ x l l', R x l → l `prefix_of` l' → R x l') →
  (∀ x l, x ∈ xs → looked l → wp L (f x) (looks (λ _ l', R x l') l) l) →
  wp L (p_for_each f xs) (looks (λ _ l', ∀ x, x ∈ xs → R x l') l) l.
Proof.
  intros Hl Hmono Hf. revert l Hl. induction xs as [|x xs IH]; intros l Hl.
  { split_and!; [done..|]. by intros x ?%not_elem_of_nil. }
  cbn [p_for_each]. eapply wp_look_bind; [apply Hf; [by left|done]|]. intros [] l' _ Hl' Hx.
  eapply wp_mono; [apply IH; [intros y l1 Hy; apply Hf; by right|done]|]. intros r l'' (Hpre & Hk & HR). split_and!; [done..|].
  destruct r as [[]|e]; [|done]. intros y [-> |Hy]%elem_of_cons; [by eapply Hmono|by apply HR].
Qed.

(** *** Sources *)
Definition components_seen (current : str) (ws : list str) (len : Z) (l : told) : Prop :=
  (∃ m, answered l (LLstat (local_below current ws)) (SOk m) ∧ lm_kind m = KRegular ∧ lm_len m = len) ∧
  ∀ ps rest, ws = ps ++ rest → ps ≠ [] → rest ≠ [] → local_directory l (local_below current ps).

Lemma wp_local_components current ws len l :
  looked l → ws ≠ [] → (∀ ps l, ps `prefix_of` ws → ok (LLstat (local_below current ps)) l) →
  wp L (preflight_local_components current (Normal <$> ws) len) (looks (λ _ l', components_seen current ws len l') l) l.
Proof.
  revert current l. induction ws as [|w ws IH]; intros current l Hl Hne Hok; [done|]. cbn [fmap list_fmap preflight_local_components].
  eapply wp_look_bind; [apply wp_local_look; [done|]|].
  { apply (Hok [w]). by exists ws. }
  intros m l' _ Hl' Hm. apply wp_check_bind; [done|]. intros _.
  destruct (decide (ws = [])) as [-> |Hws].
  - rewrite bool_decide_eq_true_2 by done. rewrite wp_bind, wp_done_bind. destruct (bail_if _ _) as [[]|e] eqn:Hreg; [|done].
    rewrite wp_done. destruct (bail_if (negb (lm_len m =? len)) _) as [[]|e] eqn:Hlen; [|done].
    apply bail_if_ok, negb_false_iff in Hreg, Hlen. apply bool_decide_eq_true in Hreg. apply Z.eqb_eq in Hlen.
    split_and!; [done..|]. split; [by exists m|]. intros ps rest Heq Hps Hrest. destruct ps as [|p ps]; [done|].
    injection Heq as -> Heq. symmetry in Heq. by apply app_nil in Heq as [_ ?].
  - rewrite bool_decide_eq_false_2 by by destruct ws. apply wp_check_bind; [done|]. intros Hdir.
    apply bail_if_ok, negb_false_iff, bool_decide_eq_true in Hdir.
    eapply wp_mono; [apply IH; [done..|]|].
    { intros ps l1 Hps. apply (Hok (w :: ps)). by apply prefix_cons. }
    intros r l'' (Hpre & Hk & HR). split_and!; [done..|]. destruct r as [[]|e]; [|done]. destruct HR as [Hreg Hps].
    split; [exact Hreg|]. intros ps rest Heq Hne' Hrest. destruct ps as [|p ps]; [done|]. injection Heq as <- Heq.
    destruct ps as [|p' ps]; [|by apply (Hps (p' :: ps) rest)].
    exists m. split; [by eapply answered_more|done].
Qed.

Lemma wp_local_sources l :
  looked l → Forall (λ a, safe_path (a_path a)) (actions plan) →
  wp L (preflight_local_sync_sources local_root plan)
    (looks (λ _ l', local_directory l' local_root ∧ ∀ a, a ∈ uploads_of plan → source_seen local_root l' a) l) l.
Proof.
  intros Hl Hsafe. unfold preflight_local_sync_sources. eapply wp_look_bind; [by apply wp_check_local_root|].
  intros [] l' _ Hl' Hroot. eapply wp_mono.
  - apply (wp_each _ (λ a l, a_kind a = UploadFile → components_seen local_root (names_of a) (a_bytes a) l)); [done|..].
    + intros a l1 l2 Hs Hpre Hk. destruct (Hs Hk) as [(m & Hm & Hr) Hps].
      split; [exists m; split; [by eapply answered_more|done]|]. intros ps rest Heq Hne Hrest.
      eapply local_directory_more; [done|]. by eapply Hps.
    + intros a l1 Ha Hl1. unfold preflight_local_action. destruct (decide (a_kind a = UploadFile)) as [Hk|Hk].
      2: { rewrite bool_decide_eq_false_2 by done. by split_and!. }
      rewrite bool_decide_eq_true_2 by done. rewrite Forall_forall in Hsafe. pose proof (Hsafe a Ha) as Hs. cbn [negb].
      rewrite local_path_safe by done. cbn [p_bind]. unfold preflight_local_sync_source. cbv zeta. apply wp_check_bind; [done|].
      intros _. rewrite path_components_safe by done. eapply wp_mono; [apply wp_local_components; [done|apply split_nonempty|]|].
      * intros ps l2 Hps. right. exists a, ps. split_and!; [apply list_elem_of_filter; by split|done..].
      * intros r l2 (? & ? & HR). split_and!; [done..|]. destruct r as [[]|e]; [intros _; exact HR|done].
  - intros r l'' (Hpre & Hk & HR). split_and!; [done..|]. destruct r as [[]|e]; [|done]. split; [by eapply local_directory_more|].
    intros a [Hka Ha]%list_elem_of_filter. destruct (HR a Ha Hka) as [Hreg Hps]. split; [done|].
    intros ps rest Heq Hrest. destruct (decide (ps = [])) as [-> |Hne]; [by eapply local_directory_more|by eapply Hps].
Qed.

(** *** Destinations *)
Lemma collected acts i m m' k p :
  collect_mutations i acts m = Ok m' → k ≠ UploadFile →
  (∀ j, slot k (mutation_for m' p) = Some j ↔ slot k (mutation_for m p) = Some j ∨ at_index i acts k p j) ∧
  (some (slot k (mutation_for m p)) = true → ∀ j, ¬ at_index i acts k p j).
Proof.
  intros Hc Hk. revert i m Hc. induction acts as [|a acts IH]; intros i m; cbn [collect_mutations].
  { intros [= ->]. split; [|by intros _ j (n & b & Hn & _)]. intros j. split; [by left|]. by intros [?|(n & b & Hn & _)]. }
  pose proof (slot_replace k (a_kind a) i (mutation_for m (a_path a))) as Hslot.
  pose proof (SyncPreflight.replaced (a_kind a) i (mutation_for m (a_path a))) as Hold.
  destruct (replace_slot (a_kind a) i (mutation_for m (a_path a))) as [old v]. cbn [fst snd] in *.
  intros ([] & Hfree%bail_if_ok & Hc)%bind_ok. destruct (IH _ _ Hc) as [IH1 IH2]. clear IH. rewrite mutation_for_insert in IH1, IH2.
  setoid_rewrite at_index_cons. destruct (decide (p = a_path a)) as [-> |Hp]; [rewrite Hslot in IH1, IH2; destruct (decide (k = a_kind a ∧ k ≠ UploadFile)) as [[-> _]|Hkk]|].
  - rewrite <- Hold. destruct old; [done|]. split; [|done]. intros j. rewrite IH1. split.
    + intros [[= <-]|?]; [right; left; tauto|tauto].
    + intros [?|[(-> & _)|?]]; [done|by left|by right].
  - split; [intros j; rewrite IH1; split; [tauto|intros [?|[(_ & ? & _)|?]]; [tauto|by destruct Hkk|tauto]]|].
    intros Hs j [(_ & ? & _)|?]; [by destruct Hkk|by eapply IH2].
  - split; [intros j; rewrite IH1; split; [tauto|intros [?|[(_ & _ & ?)|?]]; [tauto|by destruct Hp|tauto]]|].
    intros Hs j [(_ & _ & ?)|?]; [by destruct Hp|by eapply IH2].
Qed.

Lemma at_place_index k names n :
  Forall (λ w, slash ∉ w) names → names ≠ [] →
  planned_at plan n k names ↔ at_index 0 (actions plan) k (join_with slash names) (Z.of_nat n).
Proof.
  intros Hs Hne. unfold planned_at, at_index, names_of. split.
  - intros (a & Ha & Hk & <-). exists n, a. rewrite join_split. split_and!; [done|lia|done..].
  - intros (n' & a & Ha & Hn & Hk & Hp). assert (n = n') as -> by lia. exists a. split_and!; [done..|]. rewrite Hp. by apply split_join.
Qed.
Lemma planned_places k names : planned plan k names ↔ ∃ n, planned_at plan n k names.
Proof.
  unfold planned, planned_at. split.
  - intros (a & [n Ha]%list_elem_of_lookup & ?). by exists n, a.
  - intros (n & a & Ha%list_elem_of_lookup_2 & ?). by exists a.
Qed.

Lemma collected_at mutations k names n :
  collect_planned_mutations plan = Ok mutations → k ≠ UploadFile → Forall (λ w, slash ∉ w) names → names ≠ [] →
  slot k (mutation_for mutations (join_with slash names)) = Some (Z.of_nat n) ↔ planned_at plan n k names.
Proof.
  intros Hc Hk Hs Hne. unfold collect_planned_mutations in Hc. apply bind_ok in Hc as (m & Hm & Hc).
  apply bind_ok in Hc as ([] & _ & [= ->]). destruct (collected _ _ _ _ _ (join_with slash names) Hm Hk) as [Hat _].
  rewrite Hat, at_place_index by done. split; [|by right]. intros [Hno|?]; [|done].
  unfold mutation_for in Hno. rewrite lookup_empty in Hno. by destruct k.
Qed.
Lemma collected_plan mutations k names :
  collect_planned_mutations plan = Ok mutations → k ≠ UploadFile → Forall (λ w, slash ∉ w) names → names ≠ [] →
  some (slot k (mutation_for mutations (join_with slash names))) = true ↔ planned plan k names.
Proof.
  intros Hc Hk Hs Hne. rewrite planned_places. split.
  - intros Hsome. destruct (slot k (mutation_for mutations (join_with slash names))) as [z|] eqn:Hz; [|done].
    assert (∃ n, z = Z.of_nat n) as [n ->]; [|exists n; by apply (collected_at mutations)].
    unfold collect_planned_mutations in Hc. apply bind_ok in Hc as (m & Hm & Hc). apply bind_ok in Hc as ([] & _ & [= ->]).
    apply (collected _ _ _ _ _ (join_with slash names) Hm Hk) in Hz as [Hno|(n & a & _ & -> & _)]; [|by exists n].
    unfold mutation_for in Hno. rewrite lookup_empty in Hno. by destruct k.
  - intros [n Hn]. by rewrite (proj2 (collected_at mutations k names n Hc Hk Hs Hne) Hn).
Qed.

Lemma planned_names n k names : planned_at plan n k names → Forall (λ w, slash ∉ w) names ∧ names ≠ [].
Proof.
  intros (a & _ & _ & <-). split; [|apply split_nonempty]. apply Forall_forall. intros w Hw. by apply (split_pieces slash (a_path a)).
Qed.

(** What the second loop of the collection rules out. *)
Lemma collected_mutation mutations p :
  collect_planned_mutations plan = Ok mutations → check_mutation (mutation_for mutations p) = Ok tt.
Proof.
  intros Hc. unfold collect_planned_mutations in Hc. apply bind_ok in Hc as (m & _ & Hc). apply bind_ok in Hc as ([] & Hall & [= ->]).
  apply for_each_ok in Hall. rewrite Forall_btree_values in Hall. unfold mutation_for.
  destruct (mutations !! p) as [v|] eqn:Hv; [by apply (Hall p v)|done].
Qed.

Lemma collected_consistent mutations : collect_planned_mutations plan = Ok mutations → consistent plan.
Proof.
  intros Hc.
  assert (∀ n k names, k ≠ UploadFile → planned_at plan n k names →
    slot k (mutation_for mutations (join_with slash names)) = Some (Z.of_nat n)) as Hat.
  { intros n k names Hk Hn. destruct (planned_names _ _ _ Hn). by apply collected_at. }
  assert (∀ n n' names, planned_at plan n DeleteRemoteFile names → planned_at plan n' DeleteRemoteDirectory names → False) as Hboth.
  { intros n n' names Hf Hd. apply (Hat n DeleteRemoteFile names ltac:(done)) in Hf.
    apply (Hat n' DeleteRemoteDirectory names ltac:(done)) in Hd. pose proof (collected_mutation _ (join_with slash names) Hc) as Hcheck.
    unfold check_mutation, deletes_file, deletes_directory in Hcheck. cbn [slot] in Hf, Hd. by rewrite Hf, Hd in Hcheck. }
  split_and!.
  - intros n n' k names Hk Hn Hn'. apply (Hat n k names Hk) in Hn. apply (Hat n' k names Hk) in Hn'. rewrite Hn in Hn'. injection Hn' as Hn'. lia.
  - intros names [[n Hf]%planned_places [n' Hd]%planned_places]. by eapply Hboth.
  - intros n n' k names Hk Hn Hcreate. pose proof (Hat n' CreateRemoteDirectory names ltac:(done) Hcreate) as Hcr. cbn [slot] in Hcr.
    pose proof (collected_mutation _ (join_with slash names) Hc) as Hcheck. unfold check_mutation in Hcheck.
    apply bind_ok in Hcheck as ([] & _ & Hcheck). rewrite Hcr in Hcheck.
    assert (option_or (delete_file (mutation_for mutations (join_with slash names))) (delete_directory (mutation_for mutations (join_with slash names))) =
      Some (Z.of_nat n)) as Hor.
    { destruct Hk as [-> | ->].
      - pose proof (Hat n DeleteRemoteFile names ltac:(done) Hn) as Hd. cbn [slot] in Hd. by rewrite Hd.
      - pose proof (Hat n DeleteRemoteDirectory names ltac:(done) Hn) as Hd. cbn [slot] in Hd. rewrite Hd.
        destruct (delete_file (mutation_for mutations (join_with slash names))) as [z|] eqn:Hz; [|done]. exfalso.
        destruct (planned_names _ _ _ Hn). assert (planned plan DeleteRemoteFile names) as [n'' Hf]%planned_places.
        { apply (collected_plan mutations); [done..|]. cbn [slot]. by rewrite Hz. }
        by eapply Hboth. }
    rewrite Hor in Hcheck. apply bail_if_ok, Z.leb_gt in Hcheck. lia.
Qed.

Lemma wp_node_kind p l :
  looked l → wp L (remote_node_kind_if_exists p) (looks (λ k l', match k with
    | None => remote_absent l' p | Some k => ∃ a, answered l' (RLstat p) (SOk a) ∧ k = node_kind a end) l) l.
Proof.
  intros Hl. unfold remote_node_kind_if_exists. rewrite wp_bind.
  eapply wp_mono; [by apply (wp_look (RLstat p) (λ r l', answered l' (RLstat p) r))|].
  intros [r|e'] l' (Hl' & Hk & HR); [|done]. destruct r as [a| |e]; split_and!; try done. by exists a.
Qed.
Lemma node_directory a : node_kind a = NodeDirectory ↔ remote_type a = FtDir.
Proof.
  unfold node_kind, is_symlink, is_dir. repeat case_bool_decide; split; congruence || done.
Qed.

Section mutations.
Context (mutations : gmap str PlannedMutation) (collected_all : collect_planned_mutations plan = Ok mutations).

Lemma mutation_planned k names :
  k ≠ UploadFile → Forall safe_name names → names ≠ [] →
  some (slot k (mutation_for mutations (join_with slash names))) = true ↔ planned plan k names.
Proof.
  intros Hk Hs Hne. apply collected_plan; [done..| |done]. eapply Forall_impl; [exact Hs|]. by intros w [].
Qed.

Lemma prefix_step above w :
  Forall safe_name (above ++ [w]) →
  (if bool_decide (join_with slash above = []) then w else join_with slash above ++ slash :: w) = join_with slash (above ++ [w]).
Proof.
  intros [Hs _]%Forall_app. rewrite join_with_snoc. destruct (decide (above = [])) as [-> |Hab]; [done|].
  rewrite !bool_decide_eq_false_2; [done..|]. intros Hj. pose proof (safe_names_path above Hs Hab) as Hp. rewrite Hj in Hp.
  apply Forall_cons in Hp as [Hp _]. by apply safe_nonempty in Hp.
Qed.
Lemma has_delete_kept names :
  Forall safe_name names → names ≠ [] → has_delete (mutation_for mutations (join_with slash names)) = false → kept plan names.
Proof.
  intros Hs Hne [Hf Hd]%orb_false_iff.
  split; intros Hp; [apply (mutation_planned DeleteRemoteFile names ltac:(done) Hs Hne) in Hp
    |apply (mutation_planned DeleteRemoteDirectory names ltac:(done) Hs Hne) in Hp]; cbn [slot] in Hp; congruence.
Qed.
Lemma creates_planned names :
  Forall safe_name names → names ≠ [] → creates_directory (mutation_for mutations (join_with slash names)) = false →
  ¬ planned plan CreateRemoteDirectory names.
Proof.
  intros Hs Hne Hc Hp. apply (mutation_planned CreateRemoteDirectory names ltac:(done) Hs Hne) in Hp. cbn [slot] in Hp. unfold creates_directory in Hc. congruence.
Qed.

(** Below something that will be new, nothing is deleted. *)
Definition fresh_below (here below : list str) : Prop :=
  (∀ more rest, below = more ++ rest → more ≠ [] → kept plan (here ++ more)) ∧
  (below ≠ [] → ¬ planned plan CreateRemoteDirectory (here ++ below)).

Lemma wp_fresh_components here below l :
  Forall safe_name (here ++ below) → looked l →
  wp L (preflight_components remote_root mutations (join_with slash here) true below) (looks (λ _ _, fresh_below here below) l) l.
Proof.
  revert here. induction below as [|w ws IH]; intros here Hs Hl.
  { split_and!; [done..|]. split; [|done]. intros more rest Heq Hne. symmetry in Heq. by apply app_nil in Heq as [? _]. }
  rewrite cons_middle, app_assoc in Hs. assert (Forall safe_name (here ++ [w])) as Hw by by apply Forall_app in Hs as [? _].
  assert (here ++ [w] ≠ []) as Hne by by destruct here.
  cbn [preflight_components]. cbv zeta. rewrite prefix_step by done. destruct (decide (ws = [])) as [-> |Hws].
  - rewrite bool_decide_eq_true_2 by done. apply wp_checked; [done|]. intros Hv. unfold validate_upload_beneath_fresh_ancestor in Hv.
    apply bind_ok in Hv as ([] & Hdel%bail_if_ok & Hcr%bail_if_ok). split; [|by intros _; apply creates_planned].
    intros more rest Heq Hmore. destruct more as [|x [|y more]]; [done| |by destruct rest]. injection Heq as <- _. by apply has_delete_kept.
  - rewrite bool_decide_eq_false_2 by done. apply wp_check_bind; [done|]. intros Hdel%bail_if_ok.
    eapply wp_mono; [by apply IH|]. intros r l' (? & ? & HR). split_and!; [done..|]. destruct r as [u|e]; [|done].
    destruct HR as [Hkept Hcr]. split; [|intros _; rewrite cons_middle, app_assoc; by apply Hcr].
    intros more rest Heq Hmore. destruct more as [|x more]; [done|]. injection Heq as <- Heq.
    rewrite cons_middle, app_assoc. destruct (decide (more = [])) as [-> |Hmore']; [rewrite app_nil_r; by apply has_delete_kept|by eapply Hkept].
Qed.

Definition clear_above (l : told) (above : list str) : Prop :=
  ∀ ps rest, above = ps ++ rest → ps ≠ [] → remote_directory l (remote_below remote_root ps) ∧ kept plan ps.

Lemma clear_above_more l l' above : l `prefix_of` l' → clear_above l above → clear_above l' above.
Proof.
  intros Hpre Habove ps rest Hps Hne. destruct (Habove ps rest Hps Hne) as [? ?]. split; [|done]. by eapply remote_directory_more.
Qed.

(** The first thing on the way that is no directory that stays. *)
Definition ends_way (l : told) (here below : list str) : Prop :=
  remote_absent l (remote_below remote_root here) ∧ kept plan here ∨
  ∃ found, answered l (RLstat (remote_below remote_root here)) (SOk found) ∧ replaced plan here below found.

Lemma way_clear_at l a above w ws :
  names_of a = above ++ w :: ws → clear_above l above → ends_way l (above ++ [w]) ws →
  fresh_below (above ++ [w]) ws → (ws = [] → ¬ planned plan CreateRemoteDirectory (names_of a)) →
  way_clear remote_root plan l a.
Proof.
  intros Heq Habove Hend [Hbelow Hnew] Hcreate. split.
  { destruct (decide (ws = [])) as [Hws|Hws]; [by apply Hcreate|]. rewrite Heq, cons_middle, app_assoc. by apply Hnew. }
  exists (above ++ [w]), ws. split_and!; [by rewrite <- app_assoc|by destruct above| |done..].
  intros ps rest Hh Hps Hrest. destruct rest as [|x rest _] using rev_ind; [done|]. rewrite app_assoc in Hh.
  apply app_inj_tail in Hh as [Hh _]. by eapply Habove.
Qed.

Lemma nothing_below here : fresh_below here [].
Proof. split; [|done]. intros more rest Heq Hne. symmetry in Heq. by apply app_nil in Heq as [? _]. Qed.

Lemma final_destination a above w current l :
  names_of a = above ++ [w] → Forall safe_name (above ++ [w]) → clear_above l above →
  match current with
  | None => remote_absent l (remote_below remote_root (above ++ [w]))
  | Some k => ∃ found, answered l (RLstat (remote_below remote_root (above ++ [w]))) (SOk found) ∧ k = node_kind found
  end →
  validate_final_upload_destination current (mutation_for mutations (join_with slash (above ++ [w]))) = Ok tt →
  way_clear remote_root plan l a.
Proof.
  intros Heq Hs Habove Hcur Hv. assert (above ++ [w] ≠ []) as Hne by by destruct above.
  unfold validate_final_upload_destination in Hv. apply bind_ok in Hv as ([] & Hcr%bail_if_ok & Hv).
  apply (way_clear_at l a above w []); [done..| |apply nothing_below|intros _; rewrite Heq; by apply creates_planned].
  destruct current as [k|]; [|left; split; [done|]; apply bail_if_ok in Hv; by apply has_delete_kept].
  destruct Hcur as (found & Hf & ->). right. exists found. split; [done|]. split; [|done].
  pose proof (node_directory found) as Hdir.
  destruct (node_kind found); [rewrite bool_decide_eq_true_2 by by apply Hdir|rewrite bool_decide_eq_false_2 by (intros Ht; by apply Hdir in Ht)..].
  all: apply mutation_planned; [done..|]; cbn [slot]; fold (deletes_directory (mutation_for mutations (join_with slash (above ++ [w]))));
    fold (deletes_file (mutation_for mutations (join_with slash (above ++ [w]))));
    destruct (deletes_directory _), (deletes_file _); done.
Qed.

Lemma replaced_end l here below found :
  Forall safe_name here → here ≠ [] → answered l (RLstat (remote_below remote_root here)) (SOk found) → remote_type found ≠ FtDir →
  let m := mutation_for mutations (join_with slash here) in
  deletes_file m && negb (deletes_directory m) && creates_directory m = true → ends_way l here below.
Proof.
  intros Hs Hne Hf Hdir m [[Hdf _]%andb_true_iff Hc]%andb_true_iff. right. exists found. split; [done|]. unfold replaced.
  rewrite bool_decide_eq_false_2 by done. split; [by apply mutation_planned|]. intros _. split; [done|by apply mutation_planned].
Qed.

Lemma ends_way_more l l' here below : l `prefix_of` l' → ends_way l here below → ends_way l' here below.
Proof.
  intros Hpre [[Habs ?]|(found & Hf & ?)]; [left; split; [|done]|right; exists found; split; [|done]]; by eapply answered_more.
Qed.

Lemma wp_clear_components a above ws l :
  names_of a = above ++ ws → ws ≠ [] → safe_path (a_path a) → looked l → clear_above l above →
  wp L (preflight_components remote_root mutations (join_with slash above) false ws)
    (looks (λ _ l', way_clear remote_root plan l' a) l) l.
Proof.
  revert above l. induction ws as [|w ws IH]; intros above l Heq Hne Hsafe Hl Habove; [done|]. clear Hne.
  assert (Forall safe_name ((above ++ [w]) ++ ws)) as Hall.
  { unfold safe_path in Hsafe. fold (names_of a) in Hsafe. by rewrite Heq, cons_middle, app_assoc in Hsafe. }
  assert (Forall safe_name (above ++ [w])) as Hs by by apply Forall_app in Hall as [? _].
  assert (above ++ [w] ≠ []) as Hne by by destruct above. cbn [preflight_components]. cbv zeta. rewrite prefix_step by done.
  rewrite join_remote_under_root_safe, join_remote_names by (done || by apply safe_names_path). cbn [p_bind].
  eapply wp_look_bind; [by apply wp_node_kind|]. intros current l' Hpre Hl' Hcur.
  pose proof (clear_above_more _ _ _ Hpre Habove) as Habove'.
  destruct (decide (ws = [])) as [-> |Hws].
  { rewrite bool_decide_eq_true_2 by done. split_and!; [done..|]. destruct (validate_final_upload_destination _ _) as [[]|e] eqn:Hv; [|done].
    by apply (final_destination a above w current l'). }
  rewrite bool_decide_eq_false_2 by done.
  assert (ends_way l' (above ++ [w]) ws → wp L (preflight_components remote_root mutations (join_with slash (above ++ [w])) true ws)
    (looks (λ _ l', way_clear remote_root plan l' a) l') l') as Hthen.
  { intros Hend. eapply wp_mono; [by apply wp_fresh_components|]. intros r l'' (? & ? & HR). split_and!; [done..|].
    destruct r as [u|e]; [|done]. apply (way_clear_at l'' a above w ws); [done|by eapply clear_above_more|by eapply ends_way_more|done..]. }
  destruct current as [k|].
  - destruct Hcur as (found & Hf & Hk). pose proof (node_directory found) as Hdir. rewrite <- Hk in Hdir. destruct k.
    + apply wp_check_bind; [done|]. intros Hdel%bail_if_ok.
      apply IH; [by rewrite <- app_assoc|done..|]. intros ps rest Hps Hne'.
      destruct rest as [|x rest _] using rev_ind.
      * rewrite app_nil_r in Hps. subst ps. split; [exists found; split; [done|by apply Hdir]|by apply has_delete_kept].
      * rewrite app_assoc in Hps. apply app_inj_tail in Hps as [Hps _]. by eapply Habove'.
    + destruct (deletes_file _ && _ && _) eqn:Hb; [|done]. apply Hthen, (replaced_end l' _ ws found); try done. naive_solver.
    + destruct (deletes_file _ && _ && _) eqn:Hb; [|done]. apply Hthen, (replaced_end l' _ ws found); try done. naive_solver.
  - apply wp_check_bind; [done|]. intros Hdel%bail_if_ok. apply Hthen. left. split; [done|by apply has_delete_kept].
Qed.
End mutations.

Lemma wp_root_exists_loop current ws l :
  looked l →
  wp L (root_exists_loop current ws)
    (looks (λ b l', b = false → ∃ d, d ∈ remote_prefixes current ws ∧ remote_absent l' d) l) l.
Proof.
  revert current l. induction ws as [|w ws IH]; intros current l Hl; cbn [root_exists_loop remote_prefixes]; [by split_and!|].
  case_bool_decide; [by apply IH|]. case_bool_decide; [done|]. cbv zeta.
  eapply wp_look_bind; [by apply wp_node_kind|]. intros kind l' Hpre Hl' Hk. destruct kind as [[]|]; try done.
  - eapply wp_mono; [by apply IH|]. intros r l'' (? & ? & HR). split_and!; [done..|]. destruct r as [b|e]; [|done].
    intros Hb. destruct (HR Hb) as (d & Hd & Habs). exists d. split; [by right|done].
  - split_and!; [done..|]. intros _. exists (join_remote current w). split; [by left|done].
Qed.

Lemma wp_root_exists l :
  looked l →
  wp L (remote_root_exists_without_symlinks remote_root)
    (looks (λ b l', b = false → ∃ d, d ∈ remote_chain remote_root ∧ remote_absent l' d) l) l.
Proof.
  intros Hl. unfold remote_root_exists_without_symlinks. destruct (_ || _ || _); [by split_and!|].
  apply wp_check_bind; [done|]. intros _. by apply wp_root_exists_loop.
Qed.

Lemma wp_preflight_atomic l :
  looked l → Forall (λ a, safe_path (a_path a)) (actions plan) →
  wp L (preflight_atomic_sync remote_root plan)
    (looks (λ _ l', consistent plan ∧ (root_missing remote_root plan l' ∨ ∀ a, a ∈ uploads_of plan → way_clear remote_root plan l' a)) l) l.
Proof.
  intros Hl Hsafe. unfold preflight_atomic_sync. rewrite wp_done_bind. rewrite Forall_forall in Hsafe.
  destruct (collect_planned_mutations plan) as [mutations|e] eqn:Hc; [|done]. pose proof (collected_consistent _ Hc) as Hcon.
  eapply wp_look_bind; [by apply wp_root_exists|]. intros b l' _ Hl' Hb. destruct b; cbn [negb].
  - eapply wp_mono; [apply (wp_each _ (λ a l, way_clear remote_root plan l a))|]; [done|by intros; eapply way_clear_more| |].
    + intros a l1 [Hk Ha]%list_elem_of_filter Hl1. pose proof (Hsafe a Ha) as Hs.
      unfold preflight_atomic_upload_path. apply wp_check_bind; [done|]. intros _.
      apply (wp_clear_components mutations Hc a [] (split slash (a_path a))); [done|apply split_nonempty|done..|].
      intros ps rest Hps Hne. by destruct ps.
    + intros r l'' (? & ? & HR). split_and!; [done..|]. destruct r; [split; [done|by right]|done].
  - apply wp_check_bind; [done|]. intros Hdel%bail_if_ok. split_and!; [done..|]. destruct (for_each _ _) as [[]|e] eqn:Hall; [|done].
    split; [done|]. left. rewrite existsb_false, Forall_forall in Hdel. apply for_each_ok in Hall. rewrite Forall_forall in Hall.
    split_and!; [by apply Hb|intros a Ha; by apply Hdel|]. intros a Ha. pose proof (Hall a Ha) as Hv. cbn in Hv.
    unfold validate_upload_beneath_fresh_ancestor in Hv. apply bind_ok in Hv as ([] & _ & Hcr%bail_if_ok).
    apply list_elem_of_filter in Ha as [_ Ha%Hsafe]. apply (creates_planned mutations Hc); [done|apply split_nonempty|].
    unfold names_of. by rewrite join_split.
Qed.

Lemma validated_paths : validate_sync_plan plan = Ok tt → Forall (λ a, safe_path (a_path a)) (actions plan).
Proof.
  unfold validate_sync_plan. rewrite for_each_ok. intros Hall. eapply Forall_impl; [exact Hall|]. cbn.
  intros a Ha. apply bind_ok in Ha as ([] & Ha & _). by apply validate_relative_safe.
Qed.

Lemma wp_apply_checks :
  wp L (apply_checks local_root remote_root plan o) (looks (λ _ l', prepared local_root remote_root plan o l') []) [].
Proof.
  unfold apply_checks. apply wp_check_bind; [constructor|]. intros Hv. apply wp_check_bind; [constructor|].
  intros Hsafe%validated_paths. eapply wp_look_bind; [apply wp_check_local_root; constructor|]. intros [] l1 _ Hl1 _.
  eapply wp_look_bind; [by apply wp_local_sources|]. intros [] l2 _ Hl2 [Hroot Hsrc].
  eapply wp_look_bind with (R := λ _ _, True).
  { unfold call. rewrite wp_bind. eapply wp_mono; [by apply (wp_look OpenSession (λ _ _, True))|].
    intros [r|e] l' (? & ? & _); [|done]. by destruct r. }
  intros [] l3 Hpre Hl3 _.
  assert (local_directory l3 local_root ∧ ∀ a, a ∈ uploads_of plan → source_seen local_root l3 a) as [Hroot' Hsrc'].
  { split; [by eapply local_directory_more|]. intros a Ha. eapply source_seen_more; [done|]. by apply Hsrc. }
  destruct (atomic o) eqn:Hat.
  - eapply wp_mono; [by apply wp_preflight_atomic|]. intros r l4 (Hpre4 & Hl4 & HR). split_and!; [done..|].
    destruct r as [[]|e]; [|done]. split_and!; [done..| | |by intros _].
    + by eapply local_directory_more.
    + intros a Ha. eapply source_seen_more; [done|]. by apply Hsrc'.
  - split_and!; [done..|]. split_and!; try done. by rewrite Hat.
Qed.
End checking.

(** ** Changing *)
Section changing.
Context `{FileModes} (local_root remote_root : str) (plan : SyncPlan) (o : TransferOptions).
Abbreviation ok := (sync_request local_root remote_root plan o).
Abbreviation L := (logging io_interface ok).

(** More directories, and no deletion. *)
Definition made (ds : list str) (l : told) {A} (r : result A) (l' : told) : Prop :=
  l `prefix_of` l' ∧ omap removal_asked l' = omap removal_asked l ∧
  succeeds (λ _ l', Forall change_done l' ∧ ∀ d, d ∈ ds → there l' d) r l'.

Lemma wp_ensure_segments path current ws l :
  Forall change_done l →
  (∀ l' d, l `prefix_of` l' → Forall change_done l' → omap removal_asked l' = omap removal_asked l → d ∈ remote_prefixes current ws →
    last l' = Some (existT (RLstat d) NoSuchFile) → ok (RCreateDir d) l') →
  wp L (p_fold (ensure_segment path) current ws) (made (remote_prefixes current ws) l) l.
Proof.
  revert current l. induction ws as [|w ws IH]; intros current l Hd Hok; cbn [p_fold remote_prefixes] in *.
  { split_and!; [done..|]. split; [done|]. by intros d ?%not_elem_of_nil. }
  unfold ensure_segment at 1. case_bool_decide; [by apply IH|]. case_bool_decide; [done|]. cbv zeta.
  set (here := join_remote current w) in *.
  assert (∀ l1, l `prefix_of` l1 → Forall change_done l1 → omap removal_asked l1 = omap removal_asked l → there l1 here →
    wp L (p_fold (ensure_segment path) here ws) (made (here :: remote_prefixes here ws) l) l1) as Hrest.
  { intros l1 Hpre Hd1 Hr1 Hhere. eapply wp_mono; [apply IH; [done|]|].
    - intros l2 d Hpre2 Hd2 Hr2 Hin. apply Hok; [by etrans|done|by rewrite Hr2|by right].
    - intros r l2 (Hpre2 & Hr2 & HR). split_and!; [by etrans|by rewrite Hr2|]. destruct r as [c|e]; [|done].
      destruct HR as [? Hall]. split; [done|]. intros d [-> |Hin]%elem_of_cons; [by eapply there_more|by apply Hall]. }
  unfold remote_symlink_metadata_if_exists. cbn [p_bind ask]. split; [done|]. intros r l1 ->.
  assert (l `prefix_of` l ++ [existT (P := req_answer) (RLstat here) r]) as Hpre by by eexists.
  assert (Forall change_done (l ++ [existT (P := req_answer) (RLstat here) r])) as Hd1 by (apply Forall_app; split; [done|by constructor]).
  assert (omap removal_asked (l ++ [existT (P := req_answer) (RLstat here) r]) = omap removal_asked l) as Hr1 by (rewrite omap_app; apply app_nil_r).
  change (sftp_result FileAttributes) in r. destruct r as [a| |e]; cbn [p_bind p_ret p_err]; [|split|by split_and!].
  - destruct (is_symlink a); [by split_and!|]. destruct (is_dir a) eqn:Hdir; cbn [negb p_bind p_ret p_err]; [|by split_and!].
    apply Hrest; [done..|]. left. exists a. split; [apply elem_of_app; right; by left|]. by apply bool_decide_eq_true in Hdir.
  - apply Hok; [done..|by left|by rewrite last_snoc].
  - intros r l2 ->. change (result unit) in r.
    assert (omap removal_asked ((l ++ [existT (P := req_answer) (RLstat here) NoSuchFile]) ++ [existT (P := req_answer) (RCreateDir here) r]) =
      omap removal_asked l) as Hr2 by (rewrite omap_app, Hr1; apply app_nil_r).
    destruct r as [[]|e]; cbn [p_bind p_ret].
    + apply Hrest; [by etrans; [|eexists]| |done|].
      * apply Forall_app. split; [done|]. by constructor.
      * right. apply elem_of_app. right. by left.
    + split_and!; [by etrans; [|eexists]|done..].
Qed.

Lemma wp_ensure path l :
  Forall change_done l →
  (∀ l' d, l `prefix_of` l' → Forall change_done l' → omap removal_asked l' = omap removal_asked l → d ∈ remote_chain path →
    last l' = Some (existT (RLstat d) NoSuchFile) → ok (RCreateDir d) l') →
  wp L (ensure_remote_dir path) (made (remote_chain path) l) l.
Proof.
  intros Hd Hok. unfold ensure_remote_dir. destruct (_ || _ || _) eqn:Hspecial.
  - split_and!; [done..|]. split; [done|]. assert (remote_chain path = []) as ->; [|by intros d ?%not_elem_of_nil].
    rewrite !orb_true_iff, !bool_decide_eq_true in Hspecial. by destruct Hspecial as [[-> | ->] | ->].
  - rewrite wp_bind. eapply wp_mono; [by apply wp_ensure_segments|]. intros r l' HR. by destruct r.
Qed.

Definition creates (acts : list SyncAction) : Z := zlen (filter (λ a, a_kind a = CreateRemoteDirectory) acts).
Definition summary_after (acts : list SyncAction) : TransferSummary := mk_summary 0 (u64_wrap (creates acts)) 0 0.

Lemma carried_out_next l before a l' :
  carried_out remote_root l before → l `prefix_of` l' → Forall change_done l' →
  omap removal_asked l' = omap removal_asked l ++ omap (removal_of remote_root) [a] →
  (a_kind a = CreateRemoteDirectory → ∀ d, d ∈ remote_chain (target_of remote_root a) → there l' d) →
  carried_out remote_root l' (before ++ [a]).
Proof.
  intros (_ & Hr & Hroot & Hmade) Hpre Hd Hr' Ha. split_and!; [done|by rewrite Hr', omap_app, Hr| |].
  - intros d Hin. eapply there_more; [done|]. by apply Hroot.
  - intros b d [Hb| ->%list_elem_of_singleton]%elem_of_app Hk Hin; [|by apply Ha]. eapply there_more; [done|]. by eapply Hmade.
Qed.

Lemma summary_after_snoc before a :
  summary_after (before ++ [a]) = if bool_decide (a_kind a = CreateRemoteDirectory)
    then add_directory (summary_after before) (u64_wrap (sum_directories (summary_after before) + 1)) else summary_after before.
Proof.
  unfold summary_after, creates, add_directory. cbn. rewrite filter_app, length_app, filter_cons. case_bool_decide.
  - rewrite decide_True by done. cbn. f_equal. unfold u64_wrap. rewrite Zplus_mod_idemp_l. by rewrite Nat2Z.inj_add.
  - rewrite decide_False by done. by rewrite Nat.add_0_r.
Qed.

Lemma wp_apply_action before a after l :
  actions plan = before ++ a :: after → safe_path (a_path a) → prepared local_root remote_root plan o l → carried_out remote_root l before →
  wp L (apply_action remote_root (summary_after before) a)
    (succeeds (λ s l', prepared local_root remote_root plan o l' ∧ carried_out remote_root l' (before ++ [a]) ∧ s = summary_after (before ++ [a]))) l.
Proof.
  intros Hplan Hsafe Hprep Hout. unfold apply_action. rewrite join_remote_under_root_safe by done. cbn [p_bind].
  assert (join_remote remote_root (a_path a) = target_of remote_root a) as Ht.
  { unfold target_of, names_of. rewrite <- join_remote_names by (done || apply split_nonempty). by rewrite join_split. }
  assert (Forall change_done l) as Hd by apply Hout.
  destruct (a_kind a) eqn:Hk.
  1,2: unfold call; cbn [p_bind ask p_ret]; split; [split; [done|]; by exists before, a, after|];
    intros r l' ->; change (result unit) in r; destruct r as [[]|e]; [|done].
  1,2: split; [by eapply prepared_more; [eexists|]|]; split; [|by rewrite summary_after_snoc, Hk].
  1,2: eapply carried_out_next; [done|by eexists|apply Forall_app; split; [done|by constructor]| |by rewrite Hk].
  1,2: rewrite omap_app; f_equal; cbn; unfold removal_of, is_removal; by rewrite Hk, Ht.
  - rewrite wp_bind. eapply wp_mono; [apply (wp_ensure _ l Hd)|].
    + intros l' d Hpre Hd' Hr' Hin Hlast. split; [by eapply prepared_more|]. split_and!; [done..|]. right.
      exists before, a, after. rewrite <- Ht. split_and!; [done..| |done]. by eapply carried_out_more.
    + intros [[]|e] l' (Hpre & Hr' & HR); [|done]. destruct HR as [Hd' Hall]. rewrite Ht in Hall.
      split; [by eapply prepared_more|]. split; [|by rewrite summary_after_snoc, Hk].
      eapply carried_out_next; [done..| |done]. rewrite Hr'. cbn. unfold removal_of, is_removal. rewrite Hk. by rewrite app_nil_r.
  - split; [done|]. split; [|by rewrite summary_after_snoc, Hk]. eapply carried_out_next; [done..| |by rewrite Hk].
    cbn. unfold removal_of, is_removal. rewrite Hk. by rewrite app_nil_r.
Qed.

Lemma wp_apply_actions before after l :
  actions plan = before ++ after → Forall (λ a, safe_path (a_path a)) (actions plan) →
  prepared local_root remote_root plan o l → carried_out remote_root l before →
  wp L (p_fold (apply_action remote_root) (summary_after before) after)
    (succeeds (λ s l', prepared local_root remote_root plan o l' ∧ carried_out remote_root l' (actions plan) ∧ s = summary_after (actions plan))) l.
Proof.
  intros Hplan Hsafe. revert before l Hplan. induction after as [|a after IH]; intros before l Hplan Hprep Hout; cbn [p_fold].
  { rewrite app_nil_r in Hplan. by rewrite Hplan. }
  rewrite wp_bind. eapply wp_mono; [eapply (wp_apply_action before a after); [done| |done..]|].
  { rewrite Forall_forall in Hsafe. apply Hsafe. rewrite Hplan. apply elem_of_app. right. by left. }
  intros [s|e] l' HR; [|done]. destruct HR as (Hprep' & Hout' & ->). apply IH; [|done..]. by rewrite <- app_assoc.
Qed.
End changing.

(** ** Uploading *)
Section uploading.
Context `{FileModes} (local_root remote_root : str) (plan : SyncPlan) (o : TransferOptions).
Context (safe : Forall (λ a, safe_path (a_path a)) (actions plan)) (positive : 0 < file_concurrency o).
Abbreviation task := (planned_upload local_root remote_root).

Lemma task_paths a :
  safe_path (a_path a) → mk_file_task (path_push local_root (a_path a)) (join_remote remote_root (a_path a)) = task a.
Proof.
  intros Hs. unfold planned_upload, source_of, target_of, names_of. rewrite <- join_remote_names by (done || apply split_nonempty).
  rewrite local_below_join, join_split by (done || apply split_nonempty). f_equal.
  pose proof (safe_not_absolute _ Hs) as Ha. unfold absolute in Ha. unfold path_push, push_base. rewrite Ha.
  destruct (_ || _); [done|]. by rewrite <- app_assoc.
Qed.

(** Spawning in order, none after a failure. *)
Definition in_order (t : FileTask) (h : history FileTask Z) : Prop :=
  tasks_left h < file_concurrency o ∧ Forall (λ r, is_ok r = true) (joined h) ∧ spawned h ++ [t] `prefix_of` task <$> uploads_of plan.
Abbreviation M := (pool_monitor io_interface FileTask Z (λ _, False) in_order (λ _, True)).
Abbreviation M0 := (pool_monitor io_interface FileTask Z (λ _, False) (may_spawn o (λ _ _, False)) (λ _, True)).

Lemma wp_never_spawns {A} (p : tree A) Q h : wp M0 p Q h → wp M p Q h.
Proof. apply wp_allow. intros [q|t| |] g; cbn; try done. by intros []. Qed.

Lemma counted_ok h s : counts eq (λ _, True) h s → Forall (λ r, is_ok r = true) (joined h).
Proof. intros (bytes & -> & _). apply Forall_fmap, Forall_true. done. Qed.

Definition uploading (before : list SyncAction) (s : TransferSummary) (h : history FileTask Z) : Prop :=
  at_most o h ∧ counts eq (λ _, True) h s ∧ sum_directories s = sum_directories (summary_after (actions plan)) ∧ sum_skipped s = 0 ∧
  spawned h = task <$> filter (λ a, a_kind a = UploadFile) before.

Lemma wp_upload_action before a after s h :
  actions plan = before ++ a :: after → uploading before s h →
  wp M (upload_action local_root remote_root o s a) (succeeds (uploading (before ++ [a]))) h.
Proof.
  intros Hplan (Hmost & Hcounts & Hdirs & Hskip & Hsp). unfold upload_action. destruct (decide (a_kind a = UploadFile)) as [Hk|Hk].
  2: { rewrite bool_decide_eq_false_2 by done. cbn. split_and!; try done. by rewrite filter_app, filter_cons_False, app_nil_r. }
  rewrite bool_decide_eq_true_2 by done. cbn [negb]. rewrite wp_ask_bind. split; [done|]. intros n h' [-> ->].
  rewrite wp_bind. apply wp_mono with (Q := λ r h', spawned h' = spawned h ∧ at_most o h' ∧
    succeeds (λ s' h', tasks_left h' < file_concurrency o ∧ counts eq (λ _, True) h' s' ∧
      sum_directories s' = sum_directories s ∧ sum_skipped s' = sum_skipped s) r h').
  - destruct (Z.leb_spec (file_concurrency o) (tasks_left h)); [|by split_and!].
    apply wp_never_spawns. eapply wp_mono; [by apply (wp_collect_next checked eq o); [apply checked_add_exact|..]|].
    intros [s'|e] h' (Hs & Hm & H'); [|done]. destruct H' as (Hl & Hc & Hd & Hk'). destruct Hmost.
    split_and!; [done..|]. cbn -[tasks_left]. split_and!; [lia|done..].
  - intros [s'|e] h' (Hs & Hm & H'); [|done]. destruct H' as (Hl & Hc & Hd' & Hk').
    assert (safe_path (a_path a)) as Hpath.
    { rewrite Forall_forall in safe. apply safe. rewrite Hplan. apply elem_of_app. right. by left. }
    rewrite local_path_safe, join_remote_under_root_safe by done. cbn [p_bind].
    rewrite task_paths by done. rewrite wp_ask_bind. split; [|intros [] h'' ->; cbn -[tasks_left]].
    + split_and!; [done|by eapply counted_ok|]. rewrite Hs, Hsp. unfold uploads_of. rewrite Hplan, filter_app, filter_cons_True by done.
      rewrite fmap_app. cbn. apply prefix_app, prefix_cons, prefix_nil.
    + split_and!; [unfold at_most, tasks_left in *; cbn; rewrite length_app; cbn; lia|done|congruence|congruence|].
      cbn. rewrite Hs, Hsp, filter_app, filter_cons_True by done. by rewrite fmap_app.
Qed.

Lemma wp_uploads before after s h :
  actions plan = before ++ after → uploading before s h →
  wp M (p_fold (upload_action local_root remote_root o) s after) (succeeds (uploading (actions plan))) h.
Proof.
  revert before s h. induction after as [|a after IH]; intros before s h Hplan Hup; cbn [p_fold].
  { rewrite app_nil_r in Hplan. by rewrite Hplan. }
  rewrite wp_bind. eapply wp_mono; [by eapply (wp_upload_action before a after)|]. intros [s'|e] h' HR; [|done].
  apply (IH (before ++ [a])); [by rewrite <- app_assoc|done].
Qed.

(** What is collected at the end leaves the counts of the first loop alone. *)
Lemma collected_rounds n s h :
  Z.of_nat n = tasks_left h → uploading (actions plan) s h →
  wp M (collect_rounds checked n s) (succeeds (λ s' h', uploading (actions plan) s' h' ∧ tasks_left h' = 0)) h.
Proof.
  revert s h. induction n as [|n IH]; intros s h Hn Hup; cbn [collect_rounds]; [done|].
  destruct Hup as (Hmost & Hcounts & Hdirs & Hskip & Hsp). rewrite wp_bind.
  apply wp_never_spawns, (wp_mono _ _ _ _ _ (wp_collect_next checked eq o _ _ _ checked_add_exact s h Hmost Hcounts)).
  intros [s'|e] h' (Hs & Hm & H'); [|done]. destruct H' as (Hl & Hc & Hd & Hk'). apply IH; [lia|].
  split; [done|]. split; [done|]. split_and!; congruence.
Qed.

(** Everything after the checks of a run that has no task yet. *)
Lemma wp_upload_phase :
  wp M (p_bind (p_fold (upload_action local_root remote_root o) (summary_after (actions plan)) (actions plan)) (collect_all checked))
    (succeeds (λ s h, spawned h = task <$> uploads_of plan ∧ ∃ bytes, joined h = Ok <$> bytes ∧ length bytes = length (uploads_of plan) ∧
      s = mk_summary (zlen (uploads_of plan)) (u64_wrap (creates (actions plan))) (foldr Z.add 0 bytes) 0)) (mk_history [] []).
Proof.
  rewrite wp_bind. eapply wp_mono; [apply (wp_uploads [] (actions plan)); [done|]|].
  - split; [unfold at_most, tasks_left; cbn; lia|]. split; [|done]. exists []. by split_and!.
  - intros [s|e] h Hup; [|done]. unfold collect_all. rewrite wp_ask_bind. split; [done|]. intros n h' [-> ->].
    eapply wp_mono; [apply collected_rounds; [destruct Hup as ([] & _); lia|done]|].
    intros [s'|e] h' H'; [|done]. destruct H' as [(Hmost & (bytes & Hj & _ & Hf & Hb) & Hd & Hk & Hsp) Hleft].
    split; [done|]. exists bytes. fold (uploads_of plan) in Hsp.
    assert (length bytes = length (uploads_of plan)) as Hlen.
    { unfold tasks_left in Hleft. rewrite Hj, Hsp, !length_fmap in Hleft. lia. }
    split_and!; [done..|]. destruct s' as [files dirs total skipped]. cbn in *. rewrite Hlen in Hf. congruence.
Qed.
End uploading.

(** ** One upload puts its file in place once *)
Definition rename_asked (q : req) : option (str * str) := match q with RRename from to => Some (from, to) | _ => None end.
Definition logged_renames (l : told) : list (str * str) := omap (λ e, rename_asked (projT1 e)) l.

Section placing.
Context `{FileModes} (fuel : nat) (local_path remote_path : str) (o : TransferOptions).
Abbreviation T := (logging io_interface (λ q _, upload_request local_path remote_path (atomic o) q)).

(** All that an upload asks beside moving its file. *)
Definition upload_but_rename (q : req) : Prop := upload_request local_path remote_path (atomic o) q ∧ rename_asked q = None.
Lemma but_rename_quiet : quiet_ok upload_but_rename.
Proof. by intros []. Qed.

Lemma wp_no_rename {A} (p : transfer A) l :
  keeps_io upload_but_rename p → wp T p (λ r l', logged_renames l' = logged_renames l) l.
Proof.
  intros Hp. revert l. induction p as [r|q k IH]; intros l; cbn; [done|]. destruct Hp as [[Hq Hr] Hk]. split; [done|].
  intros r l' ->. eapply wp_mono; [apply IH, (Hk r tt); done|]. intros r' l'' ->. unfold logged_renames. rewrite omap_app. cbn.
  by rewrite Hr, app_nil_r.
Qed.
Lemma wp_no_rename_bind {A B} (p : transfer A) (f : A → transfer B) (R : B → told → Prop) l :
  keeps_io upload_but_rename p → (∀ a l', logged_renames l' = logged_renames l → wp T (f a) (succeeds R) l') →
  wp T (p_bind p f) (succeeds R) l.
Proof.
  intros Hp Hf. rewrite wp_bind. eapply wp_mono; [by apply wp_no_rename|]. intros [a|e] l' Hl; [by apply Hf|done].
Qed.

#[local] Hint Resolve keeps_quiet keeps_call keeps_check_cancelled keeps_emit keeps_if_exists keeps_found keeps_remote_lstat keeps_local_lstat
  keeps_reject keeps_dest_absent keeps_remote_absent keeps_local_if_exists keeps_ensure_remote_parent but_rename_quiet : keeps.

Definition placed {A} (_ : A) (l : told) : Prop := ∃ work, staging_of remote_path work ∧ logged_renames l = [(work, remote_path)].

Lemma but_rename_mtime m : keeps_io upload_but_rename (preserve_remote_mtime remote_path m).
Proof. unfold preserve_remote_mtime. touches; by touches_call. Qed.
Lemma but_rename_parent : keeps_io upload_but_rename (ensure_remote_parent remote_path).
Proof. apply keeps_ensure_remote_parent; [apply but_rename_quiet|]. intros d Hd. by split. Qed.

Lemma but_rename_copy work existing offset total :
  atomic o = true → staging_of remote_path work →
  keeps_io upload_but_rename (Policy.copy_to_staging fuel local_path remote_path work existing offset total o).
Proof.
  intros Hat Hs. unfold Policy.copy_to_staging, Policy.copy_with_progress.
  touches; first [apply keeps_copy; [apply but_rename_quiet|intros; touches_call..]|touches_call].
  all: split; [|done]. all: cbn; rewrite ?Hat; try done. by destruct existing.
Qed.

Lemma wp_placed work (f : unit → transfer Z) l :
  atomic o = true → staging_of remote_path work → logged_renames l = [] → (keeps_io upload_but_rename (f tt)) →
  wp T (p_bind (Policy.finish_remote_atomic work remote_path) f) (succeeds placed) l.
Proof.
  intros Hat Hs Hl Hf. rewrite wp_bind. unfold Policy.finish_remote_atomic. rewrite wp_bind.
  eapply wp_mono; [apply wp_no_rename, keeps_remote_absent, but_rename_quiet|]. intros [[]|e] l1 Hl1; [|done].
  unfold call. cbn [p_try p_bind ask]. split; [by rewrite Hat|]. intros r l2 ->. change (result unit) in r.
  destruct r as [[]|e]; cbn [p_try p_bind p_ret].
  - change (wp T (f tt) (succeeds placed) (l1 ++ [existT (P := req_answer) (RRename work remote_path) (Ok tt)])). eapply wp_mono; [by apply wp_no_rename|]. intros [b|e] l3 Hl3; [|done]. unfold succeeds, placed. exists work. split; [done|]. rewrite Hl3.
    unfold logged_renames in *. by rewrite omap_app, Hl1, Hl.
  - rewrite wp_bind. eapply wp_mono; [apply wp_no_rename, keeps_if_exists, but_rename_quiet|]. by intros [[m|]|e'] l3 _.
Qed.

Lemma wp_upload_placed l0 :
  atomic o = true → logged_renames l0 = [] → wp T (Policy.upload_file fuel local_path remote_path o) (succeeds placed) l0.
Proof.
  intros Hat Hl0. unfold Policy.upload_file. rewrite wp_done_bind. destruct (validated o) as [[]|e]; [|done].
  rewrite wp_done_bind. destruct (validate_remote_file_leaf remote_path) as [[]|e]; [|done].
  replace (negb (atomic o)) with false by by rewrite Hat.
  unfold Policy.upload_file_atomic.
  apply wp_no_rename_bind; [auto with keeps|]. intros _ l1 Hl1.
  apply wp_no_rename_bind; [auto with keeps|]. intros m l2 Hl2.
  rewrite wp_done_bind. destruct (bail_if _ _) as [[]|e]; [|done].
  rewrite wp_done_bind. destruct (bail_if _ _) as [[]|e]; [|done].
  apply wp_no_rename_bind; [apply but_rename_parent|]. intros _ l3 Hl3.
  apply wp_no_rename_bind; [auto with keeps|]. intros _ l4 Hl4. cbv zeta.
  rewrite wp_bind. apply wp_mono with (Q := λ r l', logged_renames l' = [] ∧ succeeds (λ work _, staging_of remote_path work) r l').
  { assert (logged_renames l4 = []) as H4 by congruence. destruct (resume o).
    - split; [done|]. apply stable_staging.
    - unfold unique_staging_path, logged_renames in *. cbn [p_bind ask p_ret wp]. do 3 (split; [done|]; intros ? ? ->).
      rewrite !omap_app, H4. split; [done|]. by eexists. }
  intros [work|e] l5 [Hl5 Hwork]; [|done]. cbn in Hwork.
  apply wp_no_rename_bind; [auto with keeps|]. intros metadata l6 Hl6.
  rewrite wp_done_bind. destruct (bail_if _ _) as [[]|e]; [|done].
  rewrite wp_done_bind. destruct (Policy.staged_offset _ _ _) as [offset|e]; [|done].
  assert (∀ b : Z, keeps_io upload_but_rename (p_bind (preserve_remote_mtime remote_path m) (λ _,
    p_bind (emit_progress o Upload remote_path (lm_len m) (Some (lm_len m)) true) (λ _, p_ret b)))) as Hend.
  { intros b. apply keeps_bind; [apply but_rename_mtime|]. intros _. apply keeps_bind; [auto with keeps|]. intros _. apply keeps_done. }
  destruct (_ && _ && _).
  - apply wp_placed; [done..|congruence|apply Hend].
  - apply wp_no_rename_bind; [by apply but_rename_copy|]. intros copied l7 Hl7. apply wp_placed; [done..|congruence|apply Hend].
Qed.
End placing.

(** ** Properties *)
Section properties.
Context `{FileModes} {W : Type} (serves : ∀ q : io_interface, W → answer q → W → Prop) (fuel : nat).

(** A run of a plan, with all its uploads. *)
Definition sync_runs (local_root remote_root : str) (plan : SyncPlan) (o : TransferOptions) (w : W)
    (tr : list (pool_event io_interface FileTask Z)) (c : pool io_interface FileTask Z TransferSummary * W) : Prop :=
  pool_run io_interface FileTask Z (sync_upload fuel o) serves
    (mk_pool io_interface FileTask Z TransferSummary (apply_sync_to_remote local_root remote_root plan o) [] [], w) tr c.

(** What may happen next, after the exchanges [l] of the run itself. *)
Definition sync_event (local_root remote_root : str) (plan : SyncPlan) (o : TransferOptions) (e : pool_event io_interface FileTask Z)
    (before : history FileTask Z) (l : told) : Prop :=
  match e with
  | MainAsked _ _ _ q => sync_request local_root remote_root plan o q l
  | TaskAsked _ _ _ t q => upload_request (ft_local t) (ft_remote t) (atomic o) q
  | Spawned _ _ _ t => sync_spawn local_root remote_root plan o t before l
  | Joined _ _ _ t r => True
  end.

Lemma sync_upload_keeps o t : keeps_io (upload_request (ft_local t) (ft_remote t) (atomic o)) (sync_upload fuel o t).
Proof.
  unfold sync_upload, Policy.upload_file. apply keeps_bind; [done|]. intros _. apply keeps_bind; [done|]. intros _.
  destruct (atomic o) eqn:Hat; cbn [negb]; [by apply keeps_upload_atomic|by apply keeps_upload_in_place].
Qed.

Lemma wp_apply_sync local_root remote_root plan o :
  0 ≤ file_concurrency o →
  wp (logged_monitor io_interface FileTask Z (sync_request local_root remote_root plan o) (sync_spawn local_root remote_root plan o))
    (apply_sync_to_remote local_root remote_root plan o)
    (succeeds (λ s g, synchronized local_root remote_root plan o s g.1 g.2)) (mk_history [] [], []).
Proof.
  intros Hfc. unfold apply_sync_to_remote. rewrite wp_bind. apply wp_sys_logged.
  eapply wp_mono; [apply wp_apply_checks|]. intros [[]|e] l1 (_ & Hl1 & Hprep); [|done]. cbn in Hprep.
  rewrite wp_bind. apply wp_sys_logged.
  eapply wp_mono; [apply (wp_ensure local_root remote_root plan o); [by apply looked_done|]|].
  { intros l2 d Hpre Hd Hr Hin Hlast. split; [by eapply prepared_more|]. split_and!; [done..|]. left. split; [done|].
    rewrite Hr. by apply looked_removals. }
  intros [[]|e] l2 (Hpre & Hr & HR); [|done]. destruct HR as [Hd Hroot]. rewrite wp_bind. apply wp_sys_logged.
  assert (Forall (λ a, safe_path (a_path a)) (actions plan)) as Hsafe by apply Hprep.
  eapply wp_mono; [apply (wp_apply_actions local_root remote_root plan o [] (actions plan)); [done..|by eapply prepared_more|]|].
  { split_and!; [done|rewrite Hr; by apply looked_removals|done|]. by intros a d ?%not_elem_of_nil. }
  intros [s|e] l3 HR; [|done]. destruct HR as (Hprep3 & Hout & ->).
  assert (0 < file_concurrency o) as Hpos.
  { destruct Hprep as (Hv & _). unfold validated in Hv. apply bind_ok in Hv as ([] & Hz%bail_if_ok & _). apply Z.eqb_neq in Hz. lia. }
  eapply wp_mono; [apply (wp_pool_logged io_interface FileTask Z _ _ (in_order local_root remote_root plan o)); [|by apply wp_upload_phase]|].
  - intros t h (Hl & Hok & Hsp). by split_and!.
  - intros [s|e] [h l] [Hl HQ]; [|done]. cbn in Hl. subst l. destruct HQ as [Hsp Hbytes]. by split_and!.
Qed.

(** The requests of one upload, and how it ends. *)
Definition task_monitor (o : TransferOptions) (t : FileTask) : monitor io_interface told :=
  logging io_interface (λ q _, upload_request (ft_local t) (ft_remote t) (atomic o) q).
Definition task_placed (t : FileTask) (r : result Z) (l : told) : Prop := succeeds (placed (ft_remote t)) r l.

Lemma logged_asks o t qs l :
  monitored io_interface (task_monitor o t) [] qs l → logged_renames l = omap rename_asked qs.
Proof.
  induction 1 as [|qs q r g1 g2 _ IH _ ->]; [done|]. unfold logged_renames in *. rewrite !omap_app, IH. cbn.
  by destruct (rename_asked q).
Qed.

Abbreviation events_of local_root remote_root plan o w tr :=
  (logged_events_ok io_interface FileTask Z serves (sync_request local_root remote_root plan o) (sync_spawn local_root remote_root plan o)
    (λ t, upload_request (ft_local t) (ft_remote t) (atomic o)) w tr).

Lemma spawned_in_order local_root remote_root plan o w tr :
  events_of local_root remote_root plan o w tr →
  spawned (history_of io_interface FileTask Z tr) `prefix_of` planned_upload local_root remote_root <$> uploads_of plan ∧
  (spawned (history_of io_interface FileTask Z tr) ≠ [] → Forall (λ a, safe_path (a_path a)) (actions plan)).
Proof.
  induction tr as [|e tr IH] using rev_ind; intros Hev; [split; [apply prefix_nil|done]|].
  destruct (Hev tr e [] eq_refl) as (w' & l & _ & Hok). rewrite history_snoc.
  assert (events_of local_root remote_root plan o w tr) as Htr%IH.
  { intros before e' after ->. apply (Hev before e' (after ++ [e])). by rewrite <- app_assoc. }
  destruct e as [q|t q|t|t r]; cbn in *; [done|done|split; [apply Hok|intros _; apply Hok]|done].
Qed.

Lemma sources_distinct local_root remote_root plan :
  Forall (λ a, safe_path (a_path a)) (actions plan) → NoDup (a_path <$> uploads_of plan) →
  NoDup (ft_local <$> (planned_upload local_root remote_root <$> uploads_of plan)).
Proof.
  intros Hsafe Hnd. replace (ft_local <$> (planned_upload local_root remote_root <$> uploads_of plan))
    with ((λ p, local_below local_root (split slash p)) <$> (a_path <$> uploads_of plan)) by by rewrite <- !list_fmap_compose.
  apply NoDup_fmap_2_strong; [|done]. rewrite Forall_forall in Hsafe.
  assert (∀ p, p ∈ a_path <$> uploads_of plan → safe_path p) as Hs.
  { intros p (a & -> & [_ Ha]%list_elem_of_filter)%list_elem_of_fmap. by apply Hsafe. }
  intros p q Hp%Hs Hq%Hs Heq. apply (split_inj slash). eapply local_below_inj; [done..| | |exact Heq]; apply split_nonempty.
Qed.

Lemma upload_placed local_root remote_root plan o w tr c t b :
  atomic o = true → NoDup (a_path <$> uploads_of plan) → sync_runs local_root remote_root plan o w tr c →
  events_of local_root remote_root plan o w tr → Joined _ _ _ t (Ok b) ∈ tr →
  ∃ work, staging_of (ft_remote t) work ∧
    omap rename_asked (asks_of io_interface FileTask Z ft_local (ft_local t) tr) = [(work, ft_remote t)].
Proof.
  intros Hat Hnd Hrun Hev Hin. destruct (spawned_in_order _ _ _ _ _ _ Hev) as [Hprefix Hsafe].
  assert (follows io_interface FileTask Z ft_local (task_monitor o) (λ _, []) task_placed c tr) as Hfo.
  { eapply pool_follows; [| | |exact Hrun].
    - intros t' q r g _. by eexists.
    - destruct (decide (spawned (history_of io_interface FileTask Z tr) = [])) as [-> |Hne]; [constructor|].
      destruct Hprefix as [rest Hrest]. pose proof (sources_distinct local_root remote_root plan (Hsafe Hne) Hnd) as Hd.
      rewrite Hrest, fmap_app in Hd. by apply NoDup_app in Hd as [? _].
    - intros t' _. by apply wp_upload_placed. }
  destruct Hfo as [_ _ Hjoined _ _ _]. rewrite Forall_forall in Hjoined. specialize (Hjoined (t, Ok b)). cbn in Hjoined.
  destruct Hjoined as (l & Hl & Hend).
  - apply list_elem_of_omap. by exists (Joined _ _ _ t (Ok b)).
  - destruct Hend as (work & Hwork & Hren). exists work. split; [done|]. by rewrite <- (logged_asks _ _ _ _ Hl).
Qed.

(** C1: A synchronization carries out its plan and changes nothing else, for any plan
    (also one that was not generated, or is stale), whatever the server and the disk
    answer and however its uploads interleave.  Nothing is changed before every path
    of the plan was found to stay below the roots, every source was seen as a regular
    file of the planned size below directories that are no links and, in atomic mode,
    the plan was found not to contradict itself and nothing was seen in the way of an
    upload but what it deletes.  Every deletion is asked for once, in the order of the
    plan, and a directory is made only where nothing was seen; after a failure nothing
    else is changed.  The uploads start when all that is done, in order, at most
    [file_concurrency] at once and none after one that failed; each is confined to its
    own two files, and one that succeeds in atomic mode (on paths that differ) has moved
    its staging file to its target exactly once.  A run succeeds only when everything
    was done, and its summary counts it. *)
Theorem synchronization_carries_out_plan local_root remote_root plan o w tr c :
  0 ≤ file_concurrency o → sync_runs local_root remote_root plan o w tr c →
  (∀ before e after, tr = before ++ e :: after →
    ∃ w' l, watched io_interface FileTask Z serves w before w' l ∧
      sync_event local_root remote_root plan o e (history_of io_interface FileTask Z before) l) ∧
  (atomic o = true → NoDup (a_path <$> uploads_of plan) → ∀ t b, Joined _ _ _ t (Ok b) ∈ tr →
    ∃ work, staging_of (ft_remote t) work ∧
      omap rename_asked (asks_of io_interface FileTask Z ft_local (ft_local t) tr) = [(work, ft_remote t)]) ∧
  ∀ s, main io_interface FileTask Z TransferSummary c.1 = Done (Ok s) →
    ∃ l, watched io_interface FileTask Z serves w tr c.2 l ∧
      synchronized local_root remote_root plan o s (history_of io_interface FileTask Z tr) l.
Proof.
  intros Hfc Hrun.
  destruct (pool_logged io_interface FileTask Z (sync_upload fuel o) serves _ _ (λ t, upload_request (ft_local t) (ft_remote t) (atomic o))
    (λ t h l _, sync_upload_keeps o t) _ _ _ _ _ (wp_apply_sync local_root remote_root plan o Hfc) Hrun) as [Hev (l & Hw & Hmain) _ _].
  split_and!.
  - intros before e after Heq. destruct (Hev before e after Heq) as (w' & l' & Hw' & Hok). exists w', l'. split; [done|]. by destruct e.
  - intros Hat Hnd t b Hin. by eapply upload_placed.
  - intros s Hs. rewrite Hs in Hmain. by exists l.
Qed.
End properties.

(** ** Runs *)
Module Examples.
Definition serves (q : io_interface) (g : files) (r : answer q) (g' : files) : Prop := Model.serve q g = (r, g').
Definition options : TransferOptions := TransferOps.mk_options false true 2 16 262144 30 false.

Definition server : side := mk_side {[ lit "u/old" := [1] ]} {[ lit "u"; lit "u/gone" ]} ∅.
Definition disk : side := mk_side {[ lit "d/a" := [7; 8]; lit "d/new/b" := [9] ]} {[ lit "d"; lit "d/new" ]} ∅.
Definition plan : SyncPlan :=
  mk_plan [mk_action DeleteRemoteFile (lit "old") 0; mk_action DeleteRemoteDirectory (lit "gone") 0;
           mk_action CreateRemoteDirectory (lit "new") 0; mk_action UploadFile (lit "a") 2; mk_action UploadFile (lit "new/b") 1] 3 2 2 1.
Definition sync (plan : SyncPlan) : list (pool_event io_interface FileTask Z) * (pool io_interface FileTask Z TransferSummary * files) :=
  play io_interface FileTask Z (@sync_upload Model.modes 9 options) Model.serve 400 []
    (mk_pool io_interface FileTask Z TransferSummary (@apply_sync_to_remote Model.modes (lit "d") (lit "u") plan options) [] [],
     mk_files server disk).

Example synchronized_run :
  Runs.summary_of (sync plan).2 = Some (Ok (mk_summary 2 1 3 0)) ∧
  regular (on_server (sync plan).2.2) = {[ lit "u/a" := [7; 8]; lit "u/new/b" := [9] ]} ∧
  dirs (on_server (sync plan).2.2) = {[ lit "u"; lit "u/new" ]}.
Proof. split_and!; vm_compute; reflexivity. Qed.

(** A plan whose last source has another size now: nothing is deleted, and nothing made. *)
Definition stale : SyncPlan :=
  mk_plan [mk_action DeleteRemoteFile (lit "old") 0; mk_action UploadFile (lit "a") 2; mk_action UploadFile (lit "new/b") 8] 10 2 1 0.
Example stale_plan_changes_nothing :
  Runs.summary_of (sync stale).2 = Some (Err "sync plan is stale: upload source size changed") ∧
  on_server (sync stale).2.2 = server.
Proof. split; vm_compute; reflexivity. Qed.
End Examples.

Lemma synchronization_carries_out_plan_witness :
  (∃ l, watched io_interface FileTask Z Examples.serves (mk_files Examples.server Examples.disk) (Examples.sync Examples.plan).1
      (Examples.sync Examples.plan).2.2 l ∧
    @synchronized Model.modes (lit "d") (lit "u") Examples.plan Examples.options (mk_summary 2 1 3 0)
      (history_of io_interface FileTask Z (Examples.sync Examples.plan).1) l) ∧
  ∃ work, staging_of (lit "u/a") work ∧
    omap rename_asked (asks_of io_interface FileTask Z ft_local (lit "d/a") (Examples.sync Examples.plan).1) = [(work, lit "u/a")].
Proof.
  destruct (@synchronization_carries_out_plan Model.modes files Examples.serves 9 (lit "d") (lit "u") Examples.plan Examples.options
    (mk_files Examples.server Examples.disk) (Examples.sync Examples.plan).1 (Examples.sync Examples.plan).2)
    as (_ & Hplaced & Hdone).
  - vm_compute. discriminate.
  - apply (play_runs io_interface FileTask Z (@sync_upload Model.modes 9 Examples.options) Examples.serves Model.serve
      (λ q w, surjective_pairing _) 400 _).
  - split.
    + apply Hdone, Runs.done_of_summary. vm_compute. reflexivity.
    + apply (Hplaced eq_refl) with (t := mk_file_task (lit "d/a") (lit "u/a")) (b := 2).
      * apply (bool_decide_unpack _). vm_compute. exact I.
      * apply (list_elem_of_lookup_2 _ 37). vm_compute. reflexivity.
Defined.
