(* ===== verification/Authenticate.v ===== *)
(** * Authentication
      ([crates/kaduox-ssh-core/src/auth.rs], [credentials.rs], [credentials_store.rs])

    One attempt to authenticate a session, as a program over requests to the
    server, the agent, the key files and the credential store, whose answers are
    anything.  Theorems: which secret may be sent in answer to what, how often, and
    that the attempt succeeds exactly when the server accepted it. *)

From stdpp Require Import base list gmap strings numbers sorting.
From Stdlib Require Import Lia.
From S2P Require Import Prelude RustStr StrFacts RemotePath Glob IncludeEnv OpenSshInclude HostModel Config ConnectionManager Program.

(** ** Definitions *)
Definition DEFAULT_IDENTITY_NAMES : list str := [lit "id_ed25519"; lit "id_ecdsa"].
Definition MAX_KEYBOARD_INTERACTIVE_ROUNDS : Z := 16.
Definition MAX_KEYBOARD_INTERACTIVE_PROMPTS_PER_ROUND : Z := 32.
Definition MAX_KEYBOARD_INTERACTIVE_TOTAL_PROMPTS : Z := 64.

(** *** Names in the credential store ([credentials.rs]) *)
Definition KEYCHAIN_SERVICE : str := lit "kssh".

Definition endpoint (host : str) (port : Z) : str :=
  if contains_char host (ch ":") && negb (starts_with host (lit "[") && ends_with host (lit "]")) then
    lit "[" ++ host ++ lit "]:" ++ dec_of port
  else host ++ lit ":" ++ dec_of port.

Definition account_name (config : ConnectionConfig) : str :=
  c_username config ++ lit "@" ++ endpoint (c_host config) (c_port config).

(** Outside Windows; [cwd] is [std::env::current_dir]. *)
Definition normalize_key_path (cwd : option os_path) (path : os_path) : str :=
  let absolute :=
    if starts_with path [slash] then path
    else match cwd with Some cwd => path_join cwd path | None => path end in
  to_string_lossy absolute.
Definition key_passphrase_account (cwd : option os_path) (path : os_path) : str :=
  lit "key:" ++ normalize_key_path cwd path.

(** *** What the SSH library deals in *)
Class KeyTypes := {
  secret_key : Type;
  is_rsa : secret_key → bool;
  agent_key : Type;
  agent_certificate : Type;
  rsa_hash : Type;
}.

Inductive MethodKind := MNone | MPassword | MPublicKey | MHostBased | MKeyboardInteractive.
#[export] Instance method_kind_eq_dec : EqDecision MethodKind.
Proof. solve_decision. Defined.

Inductive AuthResult := AuthSuccess | AuthFailure (remaining_methods : list MethodKind).
Record Prompt := mk_prompt { prompt_text : str; prompt_echo : bool }.
Inductive KeyboardInteractiveAuthResponse :=
| KiSuccess
| KiFailure (remaining_methods : list MethodKind)
| KiInfoRequest (prompts : list Prompt).

Inductive AgentIdentity `{KeyTypes} := IdentityKey (k : agent_key) | IdentityCertificate (c : agent_certificate).

Definition success (r : AuthResult) : bool := match r with AuthSuccess => true | AuthFailure _ => false end.

(** *** Requests *)
Inductive auth_request `{KeyTypes} :=
| SPassword (username password : str)
| SKeyboardStart (username : str)
| SKeyboardRespond (responses : list str)
| SPublicKey (username : str) (k : secret_key)
| SBestRsaHash
| SAgentKey (username : str) (k : agent_key) (h : option rsa_hash)
| SAgentCertificate (username : str) (c : agent_certificate) (h : option rsa_hash)
| AgentConnect
| AgentIdentities
| FTryExists (path : os_path)
| FLoadKey (path : os_path) (passphrase : option str)
| KeyringEntry (service account : str)
| KeyringPassword (service account : str).

Definition auth_answer `{KeyTypes} (q : auth_request) : Type :=
  match q with
  | SPassword _ _ | SPublicKey _ _ | SAgentKey _ _ _ | SAgentCertificate _ _ _ => result AuthResult
  | SKeyboardStart _ | SKeyboardRespond _ => result KeyboardInteractiveAuthResponse
  | SBestRsaHash => result (option (option rsa_hash))
  | AgentConnect => result unit
  | AgentIdentities => result (list AgentIdentity)
  | FTryExists _ => result bool
  | FLoadKey _ _ => result secret_key
  | KeyringEntry _ _ => result unit
  | KeyringPassword _ _ => result str
  end.
Definition auth_interface `{KeyTypes} : interface := Interface auth_request auth_answer.
Abbreviation authed A := (prog auth_interface A).

(** [….await?] *)
Definition awaited {E : interface} {A} (p : prog E (result A)) : prog E A := p_bind p Done.

Inductive KeyboardInteractiveOutcome := KiAccepted | KiRejected (remaining_methods : list MethodKind).

Definition validate_keyboard_interactive_request (rounds prompt_count previous_total_prompts : Z) : result Z :=
  bail_if (MAX_KEYBOARD_INTERACTIVE_ROUNDS <? rounds) "keyboard-interactive authentication exceeded the round safety limit" ≫= λ _,
  bail_if (MAX_KEYBOARD_INTERACTIVE_PROMPTS_PER_ROUND <? prompt_count) "too many keyboard-interactive prompts in one round" ≫= λ _,
  with_context (checked_add usize_max previous_total_prompts prompt_count) "keyboard-interactive prompt counter overflow"
  ≫= λ total_prompts,
  bail_if (MAX_KEYBOARD_INTERACTIVE_TOTAL_PROMPTS <? total_prompts)
    "keyboard-interactive authentication exceeded the prompt safety limit" ≫= λ _,
  Ok total_prompts.

Definition response_to (secret : str) (p : Prompt) : str := if bool_decide (prompt_text p = []) then [] else secret.

(** One entry per information request: the request after the last allowed round ends
    the loop. *)
Definition keyboard_fuel : nat := 17.

Definition identity_candidates (home : option os_path) (configured : list os_path) : list os_path :=
  if negb (bool_decide (configured = [])) then configured
  else match home with
       | Some home => path_join (path_join home (lit ".ssh")) <$> DEFAULT_IDENTITY_NAMES
       | None => []
       end.

Section authenticate.
Context `{KeyTypes} (home cwd : option os_path).

Fixpoint keyboard_interactive_loop (fuel : nat) (secret : str) (response : KeyboardInteractiveAuthResponse)
    (rounds total_prompts : Z) : authed KeyboardInteractiveOutcome :=
  match response, fuel with
  | KiSuccess, _ => p_ret KiAccepted
  | KiFailure remaining_methods, _ => p_ret (KiRejected remaining_methods)
  | KiInfoRequest _, O => p_err "out of fuel"
  | KiInfoRequest prompts, S fuel =>
      (total_prompts ⇐ Done (validate_keyboard_interactive_request (rounds + 1) (zlen prompts) total_prompts);
       response ⇐ awaited (ask (E := auth_interface) (SKeyboardRespond (response_to secret <$> prompts)));
       keyboard_interactive_loop fuel secret response (rounds + 1) total_prompts)%prog
  end.

Definition authenticate_keyboard_interactive (username secret : str) : authed KeyboardInteractiveOutcome :=
  (response ⇐ awaited (ask (E := auth_interface) (SKeyboardStart username));
   keyboard_interactive_loop keyboard_fuel secret response 0 0)%prog.

Definition retry_sibling_password_method (username secret : str) (rejected : MethodKind)
    (remaining_methods : list MethodKind) : authed bool :=
  let try_sibling sibling :=
    if bool_decide (rejected ∈ remaining_methods) || negb (bool_decide (sibling ∈ remaining_methods)) then p_ret false
    else
      match sibling with
      | MPassword =>
          (r ⇐ awaited (ask (E := auth_interface) (SPassword username secret)); p_ret (success r))%prog
      | MKeyboardInteractive =>
          (outcome ⇐ authenticate_keyboard_interactive username secret;
           p_ret (match outcome with KiAccepted => true | KiRejected _ => false end))%prog
      | _ => p_ret false
      end in
  match rejected with
  | MPassword => try_sibling MKeyboardInteractive
  | MKeyboardInteractive => try_sibling MPassword
  | _ => p_ret false
  end.

Definition stored_key_passphrase (path : os_path) : authed (option str) :=
  let account := key_passphrase_account cwd path in
  (entry ⇐ ask (E := auth_interface) (KeyringEntry KEYCHAIN_SERVICE account);
   match entry with
   | Err _ => p_ret None
   | Ok _ =>
       password ⇐ ask (E := auth_interface) (KeyringPassword KEYCHAIN_SERVICE account);
       p_ret (match password with Ok password => Some password | Err _ => None end)
   end)%prog.

Definition authenticate_private_key (username : str) (path : os_path) (passphrase : option str) : authed bool :=
  (loaded ⇐ ask (E := auth_interface) (FLoadKey path passphrase);
   key ⇐ match loaded with
         | Ok key => p_ret key
         | Err _ =>
             stored ⇐ match passphrase with None => stored_key_passphrase path | Some _ => p_ret None end;
             match stored with
             | Some stored_passphrase =>
                 p_context "failed to load private key with the stored passphrase"
                   (awaited (ask (E := auth_interface) (FLoadKey path (Some stored_passphrase))))
             | None => p_err "failed to load private key"
             end
         end;
   Done (bail_if (is_rsa key) "direct RSA private-key authentication is disabled") ;;
   r ⇐ awaited (ask (E := auth_interface) (SPublicKey username key));
   p_ret (success r))%prog.

(** The identities in turn, until the server accepts one. *)
Fixpoint offer_identities (username : str) (hash : option rsa_hash) (identities : list AgentIdentity) : authed bool :=
  match identities with
  | [] => p_ret false
  | identity :: identities =>
      (r ⇐ match identity with
           | IdentityKey key => awaited (ask (E := auth_interface) (SAgentKey username key hash))
           | IdentityCertificate certificate => awaited (ask (E := auth_interface) (SAgentCertificate username certificate hash))
           end;
       if success r then p_ret true else offer_identities username hash identities)%prog
  end.

Definition authenticate_with_agent (username : str) : authed bool :=
  (p_context "failed to connect to SSH agent from SSH_AUTH_SOCK" (awaited (ask (E := auth_interface) AgentConnect)) ;;
   identities ⇐ awaited (ask (E := auth_interface) AgentIdentities);
   if bool_decide (length identities = 0%nat) then p_ret false
   else
     hash ⇐ awaited (ask (E := auth_interface) SBestRsaHash);
     offer_identities username (mjoin hash) identities)%prog.

(** The identity files in turn; [first_error] is [first_identity_error]. *)
Fixpoint try_identity_files (username : str) (passphrase : option str) (first_error : option string) (paths : list os_path)
    : authed bool :=
  match paths with
  | [] =>
      match first_error with
      | Some _ => p_err "automatic SSH authentication exhausted all available identity files"
      | None => p_ret false
      end
  | path :: paths =>
      (exists_ ⇐ ask (E := auth_interface) (FTryExists path);
       match exists_ with
       | Ok false => try_identity_files username passphrase first_error paths
       | Err _ => try_identity_files username passphrase (Some (default "failed to inspect SSH identity" first_error)) paths
       | Ok true =>
           accepted ⇐ p_try (authenticate_private_key username path passphrase);
           match accepted with
           | Ok true => p_ret true
           | Ok false => try_identity_files username passphrase first_error paths
           | Err error => try_identity_files username passphrase (Some (default error first_error)) paths
           end
       end)%prog
  end.

Definition authenticate (username : str) (authentication : Authentication) : authed bool :=
  match authentication with
  | AuthPassword password =>
      (r ⇐ awaited (ask (E := auth_interface) (SPassword username password));
       match r with
       | AuthSuccess => p_ret true
       | AuthFailure remaining_methods => retry_sibling_password_method username password MPassword remaining_methods
       end)%prog
  | AuthKeyboardInteractive secret =>
      (outcome ⇐ authenticate_keyboard_interactive username secret;
       match outcome with
       | KiAccepted => p_ret true
       | KiRejected remaining_methods =>
           retry_sibling_password_method username secret MKeyboardInteractive remaining_methods
       end)%prog
  | AuthPrivateKey path passphrase => authenticate_private_key username path passphrase
  | AuthAgent => authenticate_with_agent username
  | AuthAuto identity_files passphrase =>
      (agent ⇐ p_try (authenticate_with_agent username);
       match agent with
       | Ok true => p_ret true
       | _ => try_identity_files username passphrase None (identity_candidates home identity_files)
       end)%prog
  end.
End authenticate.

(** ** What an attempt may do *)
Record auth_watch `{KeyTypes} := mk_watch {
  w_passwords : nat;                                    (* passwords sent *)
  w_starts : nat;                                       (* keyboard-interactive exchanges begun *)
  w_prompts : list Prompt;                              (* the prompts to answer *)
  w_rounds : Z;
  w_total : Z;                                          (* prompts asked so far *)
  w_refused : option (MethodKind * list MethodKind);    (* the last refusal of a password method *)
  w_unloaded : list os_path;                            (* keys that need a passphrase *)
  w_stored : list (str * str);                          (* what the credential store gave *)
  w_keys : list secret_key;                             (* keys loaded from files *)
  w_accepted : bool;                                    (* the server accepted *)
}.

Arguments mk_watch {_} _ _ _ _ _ _ _ _ _ _.

(** The secret the caller supplied, and the method it is for. *)
Definition supplied_secret (a : Authentication) : option (MethodKind * str) :=
  match a with
  | AuthPassword password => Some (MPassword, password)
  | AuthKeyboardInteractive secret => Some (MKeyboardInteractive, secret)
  | _ => None
  end.
Definition explicit_passphrase (a : Authentication) : option str :=
  match a with AuthPrivateKey _ passphrase | AuthAuto _ passphrase => passphrase | _ => None end.
Definition agent_allowed (a : Authentication) : Prop := match a with AuthAgent | AuthAuto _ _ => True | _ => False end.

Section watch.
Context `{KeyTypes} (home cwd : option os_path) (user : str) (a : Authentication).

Definition named_identities : list os_path :=
  match a with
  | AuthPrivateKey path _ => [path]
  | AuthAuto identity_files _ => identity_candidates home identity_files
  | _ => []
  end.

(** The secret may be tried with [m]: as asked for, or because the server refused
    the other password method as a method, and still accepts [m]. *)
Definition entitled (m : MethodKind) (secret : str) (g : auth_watch) : Prop :=
  supplied_secret a = Some (m, secret) ∧ w_passwords g = 0%nat ∧ w_starts g = 0%nat ∨
  ∃ other remaining, supplied_secret a = Some (other, secret) ∧ other ≠ m ∧
    w_refused g = Some (other, remaining) ∧ other ∉ remaining ∧ m ∈ remaining.

Definition answers_prompts (responses : list str) (prompts : list Prompt) : Prop :=
  Forall2 (λ r p, r = [] ∨ (prompt_text p ≠ [] ∧ ∃ m, supplied_secret a = Some (m, r))) responses prompts.

Definition auth_allowed (q : auth_request) (g : auth_watch) : Prop :=
  w_accepted g = false ∧
  match q with
  | SPassword u password => u = user ∧ w_passwords g = 0%nat ∧ entitled MPassword password g
  | SKeyboardStart u => u = user ∧ w_starts g = 0%nat ∧ ∃ secret, entitled MKeyboardInteractive secret g
  | SKeyboardRespond responses =>
      answers_prompts responses (w_prompts g) ∧ w_rounds g ≤ 16 ∧ zlen responses ≤ 32 ∧ w_total g ≤ 64
  | SPublicKey u k => u = user ∧ k ∈ w_keys g ∧ is_rsa k = false
  | SAgentKey u _ _ | SAgentCertificate u _ _ => u = user ∧ agent_allowed a
  | SBestRsaHash | AgentConnect | AgentIdentities => agent_allowed a
  | FTryExists path => path ∈ named_identities
  | FLoadKey path passphrase =>
      path ∈ named_identities ∧
      (passphrase = explicit_passphrase a ∨
       explicit_passphrase a = None ∧ path ∈ w_unloaded g ∧
       ∃ stored, passphrase = Some stored ∧ (key_passphrase_account cwd path, stored) ∈ w_stored g)
  | KeyringEntry service account | KeyringPassword service account =>
      service = KEYCHAIN_SERVICE ∧ explicit_passphrase a = None ∧
      ∃ path, path ∈ named_identities ∧ path ∈ w_unloaded g ∧ account = key_passphrase_account cwd path
  end.

Definition set_accepted (b : bool) (g : auth_watch) : auth_watch :=
  mk_watch (w_passwords g) (w_starts g) (w_prompts g) (w_rounds g) (w_total g) (w_refused g) (w_unloaded g) (w_stored g)
    (w_keys g) b.
Definition set_refused (m : MethodKind) (remaining : list MethodKind) (g : auth_watch) : auth_watch :=
  mk_watch (w_passwords g) (w_starts g) (w_prompts g) (w_rounds g) (w_total g) (Some (m, remaining)) (w_unloaded g)
    (w_stored g) (w_keys g) (w_accepted g).

Definition watch_auth (r : result AuthResult) (g : auth_watch) : auth_watch :=
  match r with Ok AuthSuccess => set_accepted true g | _ => g end.
Definition watch_keyboard (r : result KeyboardInteractiveAuthResponse) (g : auth_watch) : auth_watch :=
  match r with
  | Ok KiSuccess => set_accepted true g
  | Ok (KiFailure remaining) => set_refused MKeyboardInteractive remaining g
  | Ok (KiInfoRequest prompts) =>
      mk_watch (w_passwords g) (w_starts g) prompts (w_rounds g + 1) (w_total g + zlen prompts) (w_refused g)
        (w_unloaded g) (w_stored g) (w_keys g) (w_accepted g)
  | Err _ => g
  end.

Definition watch_step (q : auth_request) : auth_answer q → auth_watch → auth_watch :=
  match q with
  | SPassword _ _ => λ r g,
      let g := mk_watch (S (w_passwords g)) (w_starts g) (w_prompts g) (w_rounds g) (w_total g) (w_refused g)
                 (w_unloaded g) (w_stored g) (w_keys g) (w_accepted g) in
      match r with Ok (AuthFailure remaining) => set_refused MPassword remaining g | r => watch_auth r g end
  | SKeyboardStart _ => λ r g,
      watch_keyboard r (mk_watch (w_passwords g) (S (w_starts g)) (w_prompts g) (w_rounds g) (w_total g) (w_refused g)
                          (w_unloaded g) (w_stored g) (w_keys g) (w_accepted g))
  | SKeyboardRespond _ => watch_keyboard
  | SPublicKey _ _ | SAgentKey _ _ _ | SAgentCertificate _ _ _ => watch_auth
  | FLoadKey path passphrase => λ r g,
      match r, passphrase with
      | Ok k, _ => mk_watch (w_passwords g) (w_starts g) (w_prompts g) (w_rounds g) (w_total g) (w_refused g)
                     (w_unloaded g) (w_stored g) (k :: w_keys g) (w_accepted g)
      | Err _, None => mk_watch (w_passwords g) (w_starts g) (w_prompts g) (w_rounds g) (w_total g) (w_refused g)
                         (path :: w_unloaded g) (w_stored g) (w_keys g) (w_accepted g)
      | Err _, Some _ => g
      end
  | KeyringPassword _ account => λ r g,
      match r with
      | Ok p => mk_watch (w_passwords g) (w_starts g) (w_prompts g) (w_rounds g) (w_total g) (w_refused g) (w_unloaded g)
                  ((account, p) :: w_stored g) (w_keys g) (w_accepted g)
      | Err _ => g
      end
  | _ => λ _ g, g
  end.

Definition auth_monitor : monitor auth_interface auth_watch :=
  Monitor (E := auth_interface) auth_allowed (λ q r g g', g' = watch_step q r g).
Definition unwatched : auth_watch := mk_watch 0 0 [] 0 0 None [] [] [] false.

(** *** Lemmas *)
Definition decided (r : result bool) (g : auth_watch) : Prop := r = Ok true ↔ w_accepted g = true.

Lemma decided_false g : w_accepted g = false → decided (Ok false) g.
Proof. unfold decided. intros ->. done. Qed.
Lemma decided_err e g : w_accepted g = false → decided (Err e) g.
Proof. unfold decided. intros ->. done. Qed.
Hint Resolve decided_false decided_err : core.

Definition keyboard_head (response : KeyboardInteractiveAuthResponse) (rounds total : Z) (g : auth_watch) : Prop :=
  match response with
  | KiSuccess => w_accepted g = true
  | KiFailure remaining => w_accepted g = false ∧ w_refused g = Some (MKeyboardInteractive, remaining)
  | KiInfoRequest prompts =>
      w_accepted g = false ∧ w_prompts g = prompts ∧ w_rounds g = rounds + 1 ∧ w_total g = total + zlen prompts
  end.

Definition keyboard_outcome (passwords : nat) (r : result KeyboardInteractiveOutcome) (g : auth_watch) : Prop :=
  match r with
  | Ok KiAccepted => w_accepted g = true
  | Ok (KiRejected remaining) =>
      w_accepted g = false ∧ w_refused g = Some (MKeyboardInteractive, remaining) ∧ w_passwords g = passwords
  | Err _ => w_accepted g = false
  end.

Lemma answers_responses m secret prompts :
  supplied_secret a = Some (m, secret) → answers_prompts (response_to secret <$> prompts) prompts.
Proof.
  intros Ha. induction prompts as [|p prompts IH]; cbn; constructor; [|done].
  unfold response_to. case_bool_decide; [by left|]. right. split; [done|]. by exists m.
Qed.

Lemma keyboard_loop_wp fuel m secret response rounds total g :
  supplied_secret a = Some (m, secret) → keyboard_head response rounds total g →
  wp auth_monitor (keyboard_interactive_loop fuel secret response rounds total) (keyboard_outcome (w_passwords g)) g.
Proof.
  intros Ha. revert response rounds total g. induction fuel as [|fuel IH]; intros [|remaining|prompts] rounds total g Hhead;
    cbn [keyboard_interactive_loop]; cbn in Hhead; try (by apply Hhead); try (by destruct Hhead).
  destruct Hhead as (Hno & Hp & Hr & Ht). rewrite wp_done_bind.
  destruct (validate_keyboard_interactive_request _ _ _) as [total'|e] eqn:Hv; [|done].
  unfold validate_keyboard_interactive_request, checked_add, try_from in Hv.
  unfold MAX_KEYBOARD_INTERACTIVE_ROUNDS, MAX_KEYBOARD_INTERACTIVE_PROMPTS_PER_ROUND, MAX_KEYBOARD_INTERACTIVE_TOTAL_PROMPTS in Hv.
  invert_ok. to_prop. case_match; simplify_eq.
  cbn -[watch_step keyboard_interactive_loop]. split.
  - split; [done|]. split_and!; [by eapply answers_responses|lia| |lia]. rewrite length_fmap. lia.
  - intros [response|e] g' ->; [|done]. cbn -[keyboard_interactive_loop].
    destruct response as [|remaining'|prompts'];
      (eapply wp_mono; [apply IH; cbn|intros ? ?; cbn; exact id]); try done.
    split_and!; [done|done|lia|lia].
Qed.

Lemma keyboard_wp secret g :
  w_accepted g = false → w_starts g = 0%nat → w_rounds g = 0 → w_total g = 0 → entitled MKeyboardInteractive secret g →
  wp auth_monitor (authenticate_keyboard_interactive user secret) (keyboard_outcome (w_passwords g)) g.
Proof.
  intros Hno Hs Hr Ht He. cbn -[watch_step keyboard_interactive_loop]. split; [split; [done|]; split_and!; [done..|by eexists]|].
  assert (∃ m, supplied_secret a = Some (m, secret)) as [m Ha]
    by (destruct He as [(? & _)|(? & ? & ? & _)]; by eexists).
  intros [response|e] g' ->; [|done]. cbn -[keyboard_interactive_loop].
  destruct response as [|remaining|prompts]; (eapply wp_mono; [apply (keyboard_loop_wp _ m); cbn|intros ? ?; cbn; exact id]); try done.
  split_and!; [done|done|lia|lia].
Qed.

Lemma sibling_wp m secret remaining g :
  w_accepted g = false → supplied_secret a = Some (m, secret) → w_refused g = Some (m, remaining) →
  w_rounds g = 0 ∨ m = MKeyboardInteractive → w_total g = 0 ∨ m = MKeyboardInteractive →
  (m = MPassword → w_starts g = 0%nat) → (m = MKeyboardInteractive → w_passwords g = 0%nat) →
  wp auth_monitor (retry_sibling_password_method user secret m remaining) decided g.
Proof.
  intros Hno Ha Href Hr Ht Hstart Hpass. unfold retry_sibling_password_method.
  destruct m; try (by apply decided_false); case_bool_decide as Hin; cbn [orb]; try (by apply decided_false);
    (case_bool_decide as Hsib; cbn [negb]; [|by apply decided_false]).
  - destruct Hr as [Hr|[=]], Ht as [Ht|[=]]. rewrite wp_bind. eapply wp_mono.
    { apply keyboard_wp; auto. right. by exists MPassword, remaining. }
    intros [[|remaining']|e] g' Hk; cbn in *; unfold decided; [by rewrite Hk| |by rewrite Hk]. destruct Hk as (-> & _). done.
  - cbn -[watch_step]. split.
    { split; [done|]. split_and!; [done|by apply Hpass|]. right. by exists MKeyboardInteractive, remaining. }
    intros [[|remaining']|e] g' ->; cbn; unfold decided; cbn; rewrite ?Hno; done.
Qed.

Lemma key_loaded_wp k g :
  w_accepted g = false → k ∈ w_keys g →
  wp auth_monitor (Done (bail_if (is_rsa k) "direct RSA private-key authentication is disabled") ;;
                   r ⇐ awaited (ask (E := auth_interface) (SPublicKey user k)); p_ret (success r))%prog decided g.
Proof.
  intros Hno Hk. rewrite wp_done_bind. unfold bail_if. destruct (is_rsa k) eqn:Hrsa; [by apply decided_err|].
  cbn -[watch_step]. split; [by split|]. intros [[|remaining]|e] g' ->; cbn; unfold decided; cbn; rewrite ?Hno; done.
Qed.

Lemma private_key_wp path g :
  w_accepted g = false → path ∈ named_identities →
  wp auth_monitor (authenticate_private_key cwd user path (explicit_passphrase a)) decided g.
Proof.
  intros Hno Hpath. unfold authenticate_private_key. rewrite wp_ask_bind. split; [cbn; split_and!; by auto|].
  intros [k|e] g' ->; rewrite wp_bind.
  { cbn -[bail_if]. apply key_loaded_wp; [done|by left]. }
  destruct (explicit_passphrase a) as [passphrase|] eqn:Hexp; [by apply decided_err|].
  cbn -[bail_if KEYCHAIN_SERVICE key_passphrase_account]. split.
  { split; [done|]. split_and!; [done|done|]. exists path. split_and!; [done|by left|done]. }
  intros [[]|e'] g' ->; cbn -[bail_if KEYCHAIN_SERVICE key_passphrase_account]; [|by apply decided_err].
  split. { split; [done|]. split_and!; [done|done|]. exists path. split_and!; [done|by left|done]. }
  intros [stored|e'] g' ->; cbn -[bail_if KEYCHAIN_SERVICE key_passphrase_account]; [|by apply decided_err].
  split. { split; [done|]. split; [done|]. right. rewrite Hexp. split_and!; [done|by left|]. exists stored. split; [done|by left]. }
  intros [k|e'] g' ->; cbn -[bail_if]; [|by apply decided_err]. apply key_loaded_wp; [done|by left].
Qed.

Lemma offer_identities_wp hash identities g :
  w_accepted g = false → agent_allowed a → wp auth_monitor (offer_identities user hash identities) decided g.
Proof.
  intros Hno Ha. revert g Hno. induction identities as [|identity identities IH]; intros g Hno; cbn [offer_identities]; [by apply decided_false|].
  destruct identity; cbn -[watch_step offer_identities]; (split; [by split|]);
    intros [[|remaining]|e] g' ->; cbn -[offer_identities]; try (by apply IH); try (by apply decided_err); done.
Qed.

Lemma agent_wp g :
  w_accepted g = false → agent_allowed a → wp auth_monitor (authenticate_with_agent user) decided g.
Proof.
  intros Hno Ha. cbn -[watch_step offer_identities]. split; [by split|].
  intros [[]|e] g' ->; cbn -[watch_step offer_identities]; [|by apply decided_err]. split; [by split|].
  intros [identities|e] g' ->; cbn -[watch_step offer_identities]; [|by apply decided_err].
  case_bool_decide; [by apply decided_false|]. cbn -[watch_step offer_identities]. split; [by split|].
  intros [hash|e] g' ->; cbn -[offer_identities]; [by apply offer_identities_wp|by apply decided_err].
Qed.

Lemma identity_files_wp first_error paths g :
  w_accepted g = false → (∀ path, path ∈ paths → path ∈ named_identities) →
  wp auth_monitor (try_identity_files cwd user (explicit_passphrase a) first_error paths) decided g.
Proof.
  intros Hno. revert first_error g Hno. induction paths as [|path paths IH]; intros first_error g Hno Hpaths; cbn [try_identity_files].
  { destruct first_error; [by apply decided_err|by apply decided_false]. }
  rewrite wp_ask_bind. split; [split; [done|]; apply Hpaths; by left|].
  assert (∀ q, q ∈ paths → q ∈ named_identities) as Hrest by (intros q Hq; apply Hpaths; by right).
  intros [[]|e] g' ->; cbn [watch_step]; try (by apply IH). rewrite wp_bind, wp_try.
  eapply wp_mono; [apply private_key_wp; [done|apply Hpaths; by left]|].
  intros [[]|e] g' Hd; unfold decided in *; cbn; [exact Hd|..]; (apply IH; [|done]);
    (destruct (w_accepted g'); [|done]); by destruct Hd as [_ Hd]; specialize (Hd eq_refl).
Qed.

End watch.

(** ** Theorems *)

(** C5: whatever the server, the agent, the key files and the credential store answer, an
    authentication attempt sends the supplied secret only for the user it is for, at most once as
    a password and in one keyboard-interactive exchange, with the other method only after the
    server refused the first as a method and still accepts the other; it answers each prompt with
    the secret or nothing, within 16 rounds, 32 prompts a round and 64 in all; it reads only the
    keys named, opens them with the caller's passphrase or, when there is none and the key needs
    one, with the one stored for that very key; never signs with an RSA key; stops at the first
    success; and it reports success exactly when the server accepted. *)
Theorem credentials_disciplined `{KeyTypes} home cwd user a :
  wp (auth_monitor home cwd user a) (authenticate home cwd user a) decided unwatched.
Proof.
  destruct a as [password|secret|path passphrase| |identity_files passphrase].
  - cbn -[watch_step retry_sibling_password_method]. split; [split; [done|]; split_and!; [done..|by left]|].
    intros [[|remaining]|e] g' ->; cbn -[retry_sibling_password_method]; [done| |by apply decided_err].
    by apply sibling_wp; auto.
  - cbn -[authenticate_keyboard_interactive retry_sibling_password_method]. rewrite wp_bind. eapply wp_mono.
    { apply keyboard_wp; try done. by left. }
    intros [[|remaining]|e] g' Hk; cbn -[retry_sibling_password_method] in *; [done| |by apply decided_err].
    destruct Hk as (Hno & Href & Hp). apply sibling_wp; auto; done.
  - apply (private_key_wp home cwd user (AuthPrivateKey path passphrase)); [done|]. by left.
  - by apply agent_wp.
  - cbn -[authenticate_with_agent try_identity_files]. rewrite wp_bind, wp_try.
    eapply wp_mono; [by apply agent_wp|]. intros [[]|e] g' Hd; cbn; [exact Hd|..];
      (apply (identity_files_wp home cwd user (AuthAuto identity_files passphrase)); [|done]);
      (destruct (w_accepted g') eqn:Hacc; [|done]); destruct Hd as [_ Hd]; by specialize (Hd Hacc).
Qed.

Lemma keyboard_loop_enough `{KeyTypes} {W} (serve : ∀ q : auth_interface, W → answer q * W) fuel extra secret response rounds total w :
  0 ≤ rounds → (0 < fuel)%nat → MAX_KEYBOARD_INTERACTIVE_ROUNDS < Z.of_nat fuel + rounds →
  run serve (keyboard_interactive_loop (fuel + extra) secret response rounds total) w =
  run serve (keyboard_interactive_loop fuel secret response rounds total) w.
Proof.
  unfold MAX_KEYBOARD_INTERACTIVE_ROUNDS. revert response rounds total w.
  induction fuel as [|fuel IH]; intros response rounds total w H0 Hpos Hlt; [lia|].
  destruct response as [| |prompts]; [done..|]. cbn [Nat.add keyboard_interactive_loop]. rewrite !run_bind. cbn [run].
  destruct (validate_keyboard_interactive_request _ _ _) as [total'|e] eqn:Hv; [|done].
  assert (rounds + 1 ≤ 16).
  { unfold validate_keyboard_interactive_request, MAX_KEYBOARD_INTERACTIVE_ROUNDS in Hv. invert_ok. to_prop. lia. }
  rewrite !run_bind. cbn -[keyboard_interactive_loop Nat.add]. destruct (serve _ w) as [[response'|e] w']; cbn -[keyboard_interactive_loop Nat.add]; [|done].
  apply IH; lia.
Qed.

(** The keyboard-interactive exchange ends by itself: whatever the server sends, seventeen
    information requests are as many as it looks at, so that no more fuel changes what it does. *)
Theorem keyboard_exchange_ends `{KeyTypes} {W} (serve : ∀ q : auth_interface, W → answer q * W) extra secret response w :
  run serve (keyboard_interactive_loop (keyboard_fuel + extra) secret response 0 0) w =
  run serve (keyboard_interactive_loop keyboard_fuel secret response 0 0) w.
Proof. apply keyboard_loop_enough; unfold keyboard_fuel, MAX_KEYBOARD_INTERACTIVE_ROUNDS; lia. Qed.

(** A host's password and a key's passphrase are stored under different names, as long as the
    user name of the host does not itself start with [key:]. *)
Theorem credential_accounts_isolated config cwd path :
  starts_with (c_username config) (lit "key:") = false → account_name config ≠ key_passphrase_account cwd path.
Proof.
  unfold account_name, key_passphrase_account, starts_with. cbn [lit].
  set (rest := endpoint _ _). set (tail := normalize_key_path cwd path). clearbody rest tail.
  generalize (c_username config) as u. intros [|c0 [|c1 [|c2 [|c3 u]]]] Hu; cbn; intros [=]; subst; done.
Qed.

(** Otherwise the names can meet: the host [server] of the user [key:/keys/a] and the key
    [/keys/a@server:22] share one. *)
Lemma credential_accounts_can_collide :
  account_name (config_new (lit "server") (lit "key:/keys/a")) = key_passphrase_account None (lit "/keys/a@server:22").
Proof. reflexivity. Qed.

(** ** A server to run against: it wants keyboard-interactive, and the password [pw] *)
Module AuthModel.
#[export] Instance model_keys : KeyTypes :=
  {| secret_key := bool; is_rsa := id; agent_key := Z; agent_certificate := Z; rsa_hash := unit |}.

Definition serve (q : auth_interface) (log : list auth_request) : answer q * list auth_request :=
  (match q return auth_answer q with
   | SPassword _ _ => Ok (AuthFailure [MPublicKey; MKeyboardInteractive])
   | SKeyboardStart _ => Ok (KiInfoRequest [mk_prompt (lit "Password:") false; mk_prompt [] true])
   | SKeyboardRespond responses =>
       Ok (if bool_decide (responses = [lit "pw"; []]) then KiSuccess else KiFailure [MKeyboardInteractive])
   | SPublicKey _ _ => Ok (AuthFailure [MKeyboardInteractive])
   | SBestRsaHash => Ok None
   | SAgentKey _ k _ => Ok (if bool_decide (k = 7) then AuthSuccess else AuthFailure [MPublicKey])
   | SAgentCertificate _ _ _ => Ok (AuthFailure [MPublicKey])
   | AgentConnect => Ok tt
   | AgentIdentities => Ok [IdentityCertificate 7; IdentityKey 7; IdentityKey 8]
   | FTryExists path => Ok (ends_with path (lit "ed25519"))
   | FLoadKey path passphrase => if bool_decide (passphrase = Some (lit "phrase")) then Ok false else Err "encrypted"
   | KeyringEntry _ _ => Ok tt
   | KeyringPassword _ account => if bool_decide (account = lit "key:/k/id_ed25519") then Ok (lit "phrase") else Err "no entry"
   end, log ++ [q]).

Definition attempt (a : Authentication) := run serve (authenticate (Some (lit "/home/u")) None (lit "deploy") a) [].

Example sibling_method_is_tried :
  attempt (AuthPassword (lit "pw")) =
  (Ok true, [SPassword (lit "deploy") (lit "pw"); SKeyboardStart (lit "deploy"); SKeyboardRespond [lit "pw"; []]]).
Proof. vm_compute. reflexivity. Qed.
Example wrong_secret_is_tried_once :
  attempt (AuthKeyboardInteractive (lit "guess")) =
  (Ok false, [SKeyboardStart (lit "deploy"); SKeyboardRespond [lit "guess"; []]]).
Proof. vm_compute. reflexivity. Qed.
Example stored_passphrase_opens_the_key :
  attempt (AuthPrivateKey (lit "/k/id_ed25519") None) =
  (Ok false, [FLoadKey (lit "/k/id_ed25519") None; KeyringEntry (lit "kssh") (lit "key:/k/id_ed25519");
              KeyringPassword (lit "kssh") (lit "key:/k/id_ed25519"); FLoadKey (lit "/k/id_ed25519") (Some (lit "phrase"));
              SPublicKey (lit "deploy") false]).
Proof. vm_compute. reflexivity. Qed.
Example automatic_uses_the_agent : (attempt (AuthAuto [] None)).1 = Ok true.
Proof. vm_compute. reflexivity. Qed.
End AuthModel.
