(* ===== verification/Connect.v ===== *)
(** * Connecting
      ([crates/kaduox-ssh-core/src/client.rs]: [connect_with_jump_auth],
       [connect_via_jumps]; [connect.rs])

    A connection, through a chain of jump hosts or a ProxyCommand or directly, as a
    program over requests to the network and the frontend.  Theorems: each session
    is opened through the previous one, with the trust settings of its own host, and
    is offered that host's credentials only; what the caller gets back is the
    authenticated chain; and reporting progress changes nothing. *)

From stdpp Require Import base list gmap strings numbers sorting.
From Stdlib Require Import Lia.
From S2P Require Import Prelude RustStr StrFacts RemotePath Glob IncludeEnv OpenSshInclude Config RemoteCommand ProxyCommand HostTrust ConnectionManager Program Authenticate.

(** ** Definitions *)

(** *** The frontend's side ([connect.rs]) *)
Definition MAX_JUMP_AUTH_ATTEMPTS : nat := 5.

Inductive AuthenticationKind := KindPassword | KindKeyboardInteractive | KindPrivateKey | KindAgent | KindAuto.

Definition kind_as_str (k : AuthenticationKind) : str :=
  match k with
  | KindPassword => lit "password"
  | KindKeyboardInteractive => lit "keyboard-interactive"
  | KindPrivateKey => lit "private-key"
  | KindAgent => lit "agent"
  | KindAuto => lit "auto"
  end.

Definition authentication_kind (a : Authentication) : AuthenticationKind :=
  match a with
  | AuthPassword _ => KindPassword
  | AuthKeyboardInteractive _ => KindKeyboardInteractive
  | AuthPrivateKey _ _ => KindPrivateKey
  | AuthAgent => KindAgent
  | AuthAuto _ _ => KindAuto
  end.

Record JumpAuthRequest := mk_jump_auth {
  ja_index : nat; ja_total : nat; ja_attempt : nat; ja_jump : JumpHost; ja_previous_failed : bool }.

(** [AutoJumpAuthProvider]. *)
Definition auto_jump_auth (request : JumpAuthRequest) : result (option Authentication) :=
  if bool_decide (1 < ja_attempt request)%nat then Ok None
  else Ok (Some (AuthAuto (jh_identity_files (ja_jump request)) None)).

Inductive ConnectionProgress :=
| JumpConnecting (index total : nat) (alias host : str) (port : Z)
| JumpConnected (index total : nat) (alias : str)
| JumpAuthenticating (index total : nat) (alias : str) (attempt : nat) (method : AuthenticationKind)
| JumpAuthenticationFailed (index total : nat) (alias : str) (attempt : nat)
| JumpAuthenticated (index total : nat) (alias : str) (method : AuthenticationKind)
| FinalConnecting (alias host : str) (port : Z)
| FinalAuthenticating (alias user : str) (method : AuthenticationKind)
| Connected (alias : str).

(** *** What the SSH library is given *)

(** The host key algorithms a client offers; the other preferences are the
    library's own. *)
Record Preferred := mk_preferred { pref_key : list str; pref_host_key_certificates : list str }.
Record ClientConfig := mk_client_config {
  inactivity_timeout : option Z; keepalive_interval : option Z; keepalive_max : Z; nodelay : bool; preferred : Preferred }.
(** The settings that [check_server_key] decides by, and the agent forwarding of the
    handler's state. *)
Record ClientHandler := mk_handler {
  h_host : str; h_port : Z; h_host_key_policy : HostKeyPolicy; h_known_hosts_file : option os_path; h_agent_forwarding : bool }.

Inductive stream := Tunnel (channel : nat) | ProxyChild (child : nat).

(** *** Requests: a deadline that passes answers [None] *)
Inductive net_request `{KeyTypes} :=
| NProgress (event : ConnectionProgress)
| NReadKnownHosts (path : str)
| NConnect (c : ClientConfig) (host : str) (port : Z) (h : ClientHandler) (deadline : Z)
| NConnectStream (c : ClientConfig) (s : stream) (h : ClientHandler) (deadline : Z)
| NOpenTunnel (session : nat) (host : str) (port : Z) (originator : str) (originator_port : Z) (deadline : Z)
| NSpawnShell (command : str)
| NJumpAuth (request : JumpAuthRequest)
| NAuth (session : nat) (deadline : Z) (q : auth_request).

Definition net_answer `{KeyTypes} (q : net_request) : Type :=
  match q with
  | NProgress _ => unit
  | NReadKnownHosts _ => io_result (list Z)
  | NConnect _ _ _ _ _ | NConnectStream _ _ _ _ | NOpenTunnel _ _ _ _ _ _ => option (result nat)
  | NSpawnShell _ => result nat
  | NJumpAuth _ => result (option Authentication)
  | NAuth _ _ q => option (auth_answer q)
  end.
Definition net_interface `{KeyTypes} : interface := Interface net_request net_answer.
Abbreviation netted A := (prog net_interface A).

(** [timeout(…).await.with_context(timed_out)?.with_context(failed)?] *)
Definition within `{KeyTypes} {A} (timed_out failed : string) (p : netted (option (result A))) : netted A :=
  p_bind p (λ answer, Done (
    match answer with
    | None => Err timed_out
    | Some (Err _) => Err failed
    | Some (Ok a) => Ok a
    end)).

(** An authentication attempt on a session, cut short by the deadline. *)
Fixpoint timed `{KeyTypes} {A} (session : nat) (deadline : Z) (p : authed A) : netted (option (result A)) :=
  match p with
  | Done r => p_ret (Some r)
  | Ask q k => Ask (E := net_interface) (NAuth session deadline q) (λ answer,
      match answer with Some r => timed session deadline (k r) | None => p_ret None end)
  end.

Record SshClient := mk_client {
  cl_session : nat;
  cl_jump_sessions : list nat;
  cl_agent_forwarding : bool;
  cl_config : ConnectionConfig;
}.

Definition jump_handler (jump : JumpHost) : ClientHandler :=
  mk_handler (jh_host jump) (jh_port jump) (jh_host_key_policy jump) (jh_known_hosts_file jump) false.
Definition handler_for (config : ConnectionConfig) : ClientHandler :=
  mk_handler (c_host config) (c_port config) (c_host_key_policy config) (c_known_hosts_file config) (c_agent_forwarding config).

Definition hardened_preferred (default_preferred : Preferred) : Preferred :=
  mk_preferred (filter (λ algorithm, contains algorithm (lit "rsa") = false) (pref_key default_preferred))
    (pref_host_key_certificates default_preferred).

Section connect.
Context `{KeyTypes} (home cwd : option os_path).
(** The library's defaults and its parsers of keys and host patterns. *)
Context (default_preferred : Preferred).
Context {key : Type} `{EqDecision key} (from_openssh_key : str → option key) (ed25519_or_ecdsa : key → bool).
Context (parse_patterns : str → option HostPatterns) (hmac : list Z → option (list Z → list Z → bool)).
(** Whether the caller listens. *)
Context (progress : bool).

Definition emit_progress (event : ConnectionProgress) : netted unit :=
  if progress then ask (E := net_interface) (NProgress event) else p_ret tt.

(** [HostTrustPolicy::load] *)
Definition load_trust_policy (host : str) (port : Z) (known_hosts_file : option os_path) : netted (HostTrustPolicy key) :=
  (path ⇐ Done (match known_hosts_file with Some path => Ok path | None => default_known_hosts_path home end);
   file ⇐ ask (E := net_interface) (NReadKnownHosts path);
   Done (load_path from_openssh_key parse_patterns hmac host port file))%prog.

Definition preferred_for_target (host : str) (port : Z) (host_key_policy : HostKeyPolicy) (known_hosts_file : option os_path)
    : netted Preferred :=
  let preferred := hardened_preferred default_preferred in
  if bool_decide (host_key_policy = Insecure) then p_ret preferred
  else
    (trust ⇐ p_context "failed to load host certificate authorities" (load_trust_policy host port known_hosts_file);
     p_ret (if has_certificate_authority ed25519_or_ecdsa trust then mk_preferred (pref_key preferred) (pref_key preferred) else preferred))%prog.

Definition ssh_config (config : ConnectionConfig) : netted ClientConfig :=
  (preferred ⇐ preferred_for_target (c_host config) (c_port config) (c_host_key_policy config) (c_known_hosts_file config);
   p_ret (mk_client_config (c_inactivity_timeout config) (c_keepalive_interval config) 3 true preferred))%prog.

Definition jump_ssh_config (config : ConnectionConfig) (jump : JumpHost) : netted ClientConfig :=
  (preferred ⇐ preferred_for_target (jh_host jump) (jh_port jump) (jh_host_key_policy jump) (jh_known_hosts_file jump);
   p_ret (mk_client_config (c_inactivity_timeout config) (c_keepalive_interval config) 3 true preferred))%prog.

(** [for attempt in 1..=MAX_JUMP_AUTH_ATTEMPTS], with [todo] attempts left. *)
Fixpoint authenticate_jump (config : ConnectionConfig) (jump : JumpHost) (index total session : nat) (todo attempt : nat)
    (previous_failed : bool) : netted unit :=
  match todo with
  | O => p_err "jump: authentication failed after 5 attempts"
  | S todo =>
      (supplied ⇐ awaited (ask (E := net_interface) (NJumpAuth (mk_jump_auth index total attempt jump previous_failed)));
       match supplied with
       | None =>
           if previous_failed then p_err "jump: authentication failed; credential provider declined retry"
           else p_err "jump: authentication cancelled before the attempt"
       | Some authentication =>
           let method := authentication_kind authentication in
           emit_progress (JumpAuthenticating index total (jh_alias jump) attempt method) ;;
           timed_accepted ⇐ timed session (c_authentication_timeout config)
             (authenticate home cwd (jh_username jump) authentication);
           accepted ⇐ Done (match timed_accepted with
                            | None => Err "jump: authentication attempt timed out"
                            | Some accepted => accepted
                            end);
           if (accepted : bool) then emit_progress (JumpAuthenticated index total (jh_alias jump) method)
           else
             emit_progress (JumpAuthenticationFailed index total (jh_alias jump) attempt) ;;
             authenticate_jump config jump index total session todo (S attempt) true
       end)%prog
  end.

(** One turn of the loop over the hops; [(current, keepalive)] is its state. *)
Definition connect_jump (config : ConnectionConfig) (state : option nat * list nat) (hop : nat * JumpHost)
    : netted (option nat * list nat) :=
  let '(current, keepalive) := state in
  let '(index, jump) := hop in
  let total := length (c_jump_hosts config) in
  (emit_progress (JumpConnecting index total (jh_alias jump) (jh_host jump) (jh_port jump)) ;;
   jump_config ⇐ jump_ssh_config config jump;
   next ⇐
     match current with
     | Some previous =>
         channel ⇐ within "jump: tunnel open timed out" "jump: failed to open tunnel"
           (ask (E := net_interface)
              (NOpenTunnel previous (jh_host jump) (jh_port jump) (lit "127.0.0.1") 0 (c_channel_open_timeout config)));
         next ⇐ within "jump: SSH handshake timed out" "jump: SSH handshake failed"
           (ask (E := net_interface)
              (NConnectStream jump_config (Tunnel channel) (jump_handler jump) (c_connect_timeout config)));
         p_ret (next, keepalive ++ [previous])
     | None =>
         next ⇐ within "jump: connection timed out" "jump: connection failed"
           (ask (E := net_interface)
              (NConnect jump_config (jh_host jump) (jh_port jump) (jump_handler jump) (c_connect_timeout config)));
         p_ret (next, keepalive)
     end;
   emit_progress (JumpConnected index total (jh_alias jump)) ;;
   authenticate_jump config jump index total next.1 MAX_JUMP_AUTH_ATTEMPTS 1 false ;;
   p_ret (Some next.1, next.2))%prog.

Definition connect_via_jumps (config : ConnectionConfig) (final_ssh_config : ClientConfig) : netted (nat * list nat) :=
  (state ⇐ p_fold (connect_jump config) (None, []) (imap pair (c_jump_hosts config));
   last ⇐ Done (with_context state.1 "ProxyJump chain is empty");
   emit_progress (FinalConnecting (c_alias config) (c_host config) (c_port config)) ;;
   channel ⇐ within "final ProxyJump tunnel timed out" "failed to open final ProxyJump tunnel"
     (ask (E := net_interface)
        (NOpenTunnel last (c_host config) (c_port config) (lit "127.0.0.1") 0 (c_channel_open_timeout config)));
   final_session ⇐ within "final SSH handshake through ProxyJump timed out" "final SSH handshake through ProxyJump failed"
     (ask (E := net_interface)
        (NConnectStream final_ssh_config (Tunnel channel) (handler_for config) (c_connect_timeout config)));
   p_ret (final_session, state.2 ++ [last]))%prog.

(** [ProxyCommandStream::spawn] *)
Definition spawn_proxy_command (template : str) (config : ConnectionConfig) : netted nat :=
  (Done (bail_if (eq_ignore_ascii_case template (lit "none")) "ProxyCommand is disabled by configuration") ;;
   expanded ⇐ Done (expand_proxy_command template config);
   p_context "failed to start ProxyCommand" (awaited (ask (E := net_interface) (NSpawnShell expanded))))%prog.

Definition connect_with_jump_auth (config : ConnectionConfig) (authentication : Authentication) : netted SshClient :=
  (Done (validate_timeouts config) ;;
   ssh_config ⇐ ssh_config config;
   sessions ⇐
     match c_jump_hosts config, c_proxy_command config with
     | _ :: _, _ => connect_via_jumps config ssh_config
     | [], Some proxy_command =>
         emit_progress (FinalConnecting (c_alias config) (c_host config) (c_port config)) ;;
         child ⇐ spawn_proxy_command proxy_command config;
         session ⇐ within "SSH handshake through ProxyCommand timed out" "SSH handshake through ProxyCommand failed"
           (ask (E := net_interface) (NConnectStream ssh_config (ProxyChild child) (handler_for config) (c_connect_timeout config)));
         p_ret (session, [])
     | [], None =>
         emit_progress (FinalConnecting (c_alias config) (c_host config) (c_port config)) ;;
         session ⇐ within "SSH connection timed out" "failed to connect"
           (ask (E := net_interface)
              (NConnect ssh_config (c_host config) (c_port config) (handler_for config) (c_connect_timeout config)));
         p_ret (session, [])
     end;
   emit_progress (FinalAuthenticating (c_alias config) (c_username config) (authentication_kind authentication)) ;;
   timed_accepted ⇐ timed sessions.1 (c_authentication_timeout config)
     (authenticate home cwd (c_username config) authentication);
   authenticated ⇐ Done (match timed_accepted with None => Err "SSH authentication timed out" | Some r => r end);
   Done (bail_if (negb authenticated) "SSH authentication failed") ;;
   emit_progress (Connected (c_alias config)) ;;
   p_ret (mk_client sessions.1 sessions.2 (c_agent_forwarding config) config))%prog.
End connect.

(** ** What connecting may do *)

(** A host of the route: the hops, and then the host asked for; the agent is for the
    last one only. *)
Record Target := mk_target { t_host : str; t_port : Z; t_user : str; t_handler : ClientHandler; t_jump : option JumpHost }.
Definition jump_target (jump : JumpHost) : Target :=
  mk_target (jh_host jump) (jh_port jump) (jh_username jump)
    (mk_handler (jh_host jump) (jh_port jump) (jh_host_key_policy jump) (jh_known_hosts_file jump) false) (Some jump).
Definition final_target (config : ConnectionConfig) : Target :=
  mk_target (c_host config) (c_port config) (c_username config)
    (mk_handler (c_host config) (c_port config) (c_host_key_policy config) (c_known_hosts_file config) (c_agent_forwarding config)) None.
Definition route (config : ConnectionConfig) : list Target :=
  (jump_target <$> c_jump_hosts config) ++ [final_target config].

Record net_watch `{KeyTypes} := mk_net {
  n_chain : list nat;                   (* the authenticated sessions, from the first hop on *)
  n_stream : option stream;             (* a way to the next host, through the last of them *)
  n_open : option nat;                  (* the session with the next host, not authenticated yet *)
  n_offers : nat;                       (* the credentials the frontend gave for it *)
  n_offer : option Authentication;      (* the one being tried *)
  n_auth : auth_watch;                  (* what was done with that one *)
}.
Arguments mk_net {_} _ _ _ _ _ _.

Section watch.
Context `{KeyTypes} (home cwd : option os_path) (config : ConnectionConfig) (authentication : Authentication).

Definition next_target (g : net_watch) : option Target := route config !! length (n_chain g).

(** The files that say which keys are trusted. *)
Definition trust_files : list (option os_path) := (λ t, h_known_hosts_file (t_handler t)) <$> route config.

Definition net_allowed (q : net_request) (g : net_watch) : Prop :=
  match q with
  | NProgress _ => True
  | NReadKnownHosts path =>
      Some path ∈ trust_files ∨ None ∈ trust_files ∧ default_known_hosts_path home = Ok path
  | NConnect _ host port h deadline =>
      (* only to the first host, and only when there is no ProxyCommand to go through *)
      n_chain g = [] ∧ n_stream g = None ∧ n_open g = None ∧ (c_jump_hosts config = [] → c_proxy_command config = None) ∧
      deadline = c_connect_timeout config ∧ ∃ t, next_target g = Some t ∧ host = t_host t ∧ port = t_port t ∧ h = t_handler t
  | NOpenTunnel session host port _ _ deadline =>
      (* from the host that was authenticated last to the next one *)
      last (n_chain g) = Some session ∧ n_stream g = None ∧ n_open g = None ∧
      deadline = c_channel_open_timeout config ∧ ∃ t, next_target g = Some t ∧ host = t_host t ∧ port = t_port t
  | NSpawnShell command =>
      n_chain g = [] ∧ n_stream g = None ∧ n_open g = None ∧ c_jump_hosts config = [] ∧
      ∃ template, c_proxy_command config = Some template ∧ expand_proxy_command template config = Ok command
  | NConnectStream _ s h deadline =>
      n_stream g = Some s ∧ n_open g = None ∧ deadline = c_connect_timeout config ∧
      ∃ t, next_target g = Some t ∧ h = t_handler t
  | NJumpAuth request =>
      is_Some (n_open g) ∧ (n_offers g < MAX_JUMP_AUTH_ATTEMPTS)%nat ∧ w_accepted (n_auth g) = false ∧
      ∃ jump, c_jump_hosts config !! length (n_chain g) = Some jump ∧
      request = mk_jump_auth (length (n_chain g)) (length (c_jump_hosts config)) (S (n_offers g)) jump
                  (bool_decide (n_offers g ≠ 0%nat))
  | NAuth session deadline q =>
      n_open g = Some session ∧ deadline = c_authentication_timeout config ∧
      ∃ t a, next_target g = Some t ∧ n_offer g = Some a ∧ auth_allowed home cwd (t_user t) a q (n_auth g)
  end.

(** A session with the next host: the host asked for is offered the caller's
    credential, a hop what the frontend gives for it. *)
Definition opened (session : nat) (g : net_watch) : net_watch :=
  mk_net (n_chain g) None (Some session) 0
    (if bool_decide (length (n_chain g) = length (c_jump_hosts config)) then Some authentication else None) unwatched.

Definition net_step (q : net_request) : net_answer q → net_watch → net_watch :=
  match q with
  | NConnect _ _ _ _ _ | NConnectStream _ _ _ _ => λ r g,
      match r with Some (Ok session) => opened session g | _ => g end
  | NOpenTunnel _ _ _ _ _ _ => λ r g,
      match r with
      | Some (Ok channel) => mk_net (n_chain g) (Some (Tunnel channel)) (n_open g) (n_offers g) (n_offer g) (n_auth g)
      | _ => g
      end
  | NSpawnShell _ => λ r g,
      match r with
      | Ok child => mk_net (n_chain g) (Some (ProxyChild child)) (n_open g) (n_offers g) (n_offer g) (n_auth g)
      | Err _ => g
      end
  | NJumpAuth _ => λ r g,
      match r with
      | Ok (Some a) => mk_net (n_chain g) (n_stream g) (n_open g) (S (n_offers g)) (Some a) unwatched
      | _ => g
      end
  | NAuth session _ q => λ r g,
      match r with
      | Some r =>
          let w := watch_step q r (n_auth g) in
          if w_accepted w then mk_net (n_chain g ++ [session]) None None 0 None unwatched
          else mk_net (n_chain g) (n_stream g) (n_open g) (n_offers g) (n_offer g) w
      | None => g
      end
  | _ => λ _ g, g
  end.

Definition net_monitor : monitor net_interface net_watch :=
  Monitor (E := net_interface) net_allowed (λ q r g g', g' = net_step q r g).

Definition disconnected : net_watch := mk_net [] None None 0 None unwatched.

(** All hosts of the route were authenticated, and these are their sessions. *)
Definition connected_as (r : result SshClient) (g : net_watch) : Prop :=
  match r with
  | Ok client =>
      n_chain g = cl_jump_sessions client ++ [cl_session client] ∧
      length (cl_jump_sessions client) = length (c_jump_hosts config) ∧
      cl_agent_forwarding client = c_agent_forwarding config ∧ cl_config client = config
  | Err _ => (length (n_chain g) ≤ length (c_jump_hosts config))%nat
  end.
End watch.

(** *** Lemmas *)
Section connected.
Context `{KeyTypes} (home cwd : option os_path) (default_preferred : Preferred).
Context {key : Type} `{EqDecision key} (from_openssh_key : str → option key) (ed25519_or_ecdsa : key → bool).
Context (parse_patterns : str → option HostPatterns) (hmac : list Z → option (list Z → list Z → bool)) (progress : bool).
Context (config : ConnectionConfig) (authentication : Authentication).
Local Abbreviation m := (net_monitor home cwd config authentication).

Lemma emit_wp {A} event (f : unit → netted A) Q g : wp m (f tt) Q g → wp m (p_bind (emit_progress progress event) f) Q g.
Proof. unfold emit_progress. intros Hf. destruct progress; cbn; [|done]. split; [done|]. intros [] g' ->. exact Hf. Qed.

Lemma emit_end_wp event Q g : Q (Ok tt) g → wp m (emit_progress progress event) Q g.
Proof. unfold emit_progress. intros Hf. destruct progress; cbn; [|done]. split; [done|]. intros [] g' ->. exact Hf. Qed.

Lemma preferred_wp {A} host port policy file (f : Preferred → netted A) Q g :
  file ∈ trust_files config → (∀ p, wp m (f p) Q g) → (∀ e, Q (Err e) g) →
  wp m (p_bind (preferred_for_target home default_preferred from_openssh_key ed25519_or_ecdsa parse_patterns hmac
                  host port policy file) f) Q g.
Proof.
  intros Hfile Hf HQ. unfold preferred_for_target. case_bool_decide; [apply Hf|].
  rewrite !wp_bind, wp_context. unfold load_trust_policy.
  assert (∀ path, (match file with Some p => Ok p | None => default_known_hosts_path home end) = Ok path →
    Some path ∈ trust_files config ∨ None ∈ trust_files config ∧ default_known_hosts_path home = Ok path) as Hpath.
  { destruct file; intros path; [intros [= ->]; by left|by right]. }
  rewrite wp_done_bind. destruct (match file with Some p => Ok p | None => _ end) as [path|e]; [|apply HQ].
  cbn -[load_path has_certificate_authority]. split; [by apply Hpath|]. intros contents g' ->.
  cbn -[load_path has_certificate_authority]. destruct (load_path _ _ _ _ _ _) as [trust|e]; cbn [in_context]; [|apply HQ].
  apply Hf.
Qed.

Lemma target_trust_file t : t ∈ route config → h_known_hosts_file (t_handler t) ∈ trust_files config.
Proof. intros Ht. unfold trust_files. apply list_elem_of_fmap. by exists t. Qed.

Lemma route_jump i jump : c_jump_hosts config !! i = Some jump → route config !! i = Some (jump_target jump).
Proof. intros Hi. unfold route. apply lookup_app_l_Some. by rewrite list_lookup_fmap, Hi. Qed.
Lemma route_final : route config !! length (c_jump_hosts config) = Some (final_target config).
Proof. unfold route. rewrite lookup_app_r; rewrite length_fmap; [|done]. by rewrite Nat.sub_diag. Qed.

(** An attempt on the open session, with the credential it is offered. *)
Lemma timed_wp (p : authed bool) t a session chain offers w Q :
  let at_ w := mk_net chain None (Some session) offers (Some a) w in
  route config !! length chain = Some t → wp (auth_monitor home cwd (t_user t) a) p decided w →
  w_accepted w = false →
  Q (Ok (Some (Ok true))) (mk_net (chain ++ [session]) None None 0 None unwatched) →
  (∀ r w', r ≠ Some (Ok true) → w_accepted w' = false → Q (Ok r) (at_ w')) →
  wp m (timed session (c_authentication_timeout config) p) Q (at_ w).
Proof.
  intros at_ Ht Hp Hno Hyes Hrest. revert w Hp Hno. induction p as [r|q k IH]; intros w Hp Hno; cbn in Hp |- *.
  - apply Hrest; [|done]. unfold decided in Hp. intros [= ->]. rewrite Hno in Hp. by destruct Hp as [Hp _]; specialize (Hp eq_refl).
  - destruct Hp as [Ha Hk]. split; [split_and!; [done|done|]; by exists t, a|]. intros [r|] g' ->; [|by apply Hrest].
    cbn. specialize (Hk r _ eq_refl). destruct (w_accepted (watch_step q r w)) eqn:Hacc; [|by apply IH].
    destruct (k r) as [r'|q' k'] eqn:Hkr; cbn in Hk |- *.
    + unfold decided in Hk. rewrite Hacc in Hk. destruct Hk as [_ ->]; done.
    + destruct Hk as [[Ha' _] _]. congruence.
Qed.

Lemma authenticate_jump_wp jump total session chain todo offers offer w Q :
  c_jump_hosts config !! length chain = Some jump → total = length (c_jump_hosts config) →
  (offers + todo = MAX_JUMP_AUTH_ATTEMPTS)%nat → w_accepted w = false →
  Q (Ok tt) (mk_net (chain ++ [session]) None None 0 None unwatched) →
  (∀ e g, n_chain g = chain → Q (Err e) g) →
  wp m (authenticate_jump home cwd progress config jump (length chain) total session todo (S offers)
          (bool_decide (offers ≠ 0%nat))) Q (mk_net chain None (Some session) offers offer w).
Proof.
  intros Hjump Htotal Hsum Hno Hyes Herr. subst total. revert offers offer w Hsum Hno.
  induction todo as [|todo IH]; intros offers offer w Hsum Hno; cbn [authenticate_jump]; [by apply Herr|].
  cbn -[authenticate_jump authenticate timed route next_target net_step]. split.
  { split_and!; [done|cbn; lia|done|]. exists jump. by split. }
  intros [[a|]|e] g' ->; cbn -[authenticate_jump authenticate timed]; [|by case_bool_decide; apply Herr|by apply Herr].
  apply emit_wp. rewrite wp_bind. apply (timed_wp _ (jump_target jump) a); [by apply route_jump|apply credentials_disciplined|done| |].
  - cbn -[authenticate_jump]. by apply emit_end_wp.
  - intros [[[]|e]|] w' Hr Hno'; cbn -[authenticate_jump]; try (by apply Herr); [done|].
    apply emit_wp. apply IH; [lia|done].
Qed.

(** The state of the loop over the hops. *)
Definition at_hop (state : option nat * list nat) (g : net_watch) : Prop :=
  g = mk_net (state.2 ++ option_list state.1) None None 0 None unwatched ∧ (state.1 = None → state.2 = []).

Lemma connect_jump_wp state index jump Q g :
  at_hop state g → length (n_chain g) = index → c_jump_hosts config !! index = Some jump →
  (∀ state' g', at_hop state' g' → length (n_chain g') = S index → is_Some state'.1 → Q (Ok state') g') →
  (∀ e g', length (n_chain g') = index → Q (Err e) g') →
  wp m (connect_jump home cwd default_preferred from_openssh_key ed25519_or_ecdsa parse_patterns hmac progress config state
          (index, jump)) Q g.
Proof.
  destruct state as [current keepalive]. intros [-> Hstart] Hlen Hjump Hyes Herr. cbn in Hstart, Hlen.
  assert (route config !! index = Some (jump_target jump)) as Ht by by apply route_jump.
  assert (index ≠ length (c_jump_hosts config)) as Hhop by (apply lookup_lt_Some in Hjump; lia).
  unfold connect_jump, jump_ssh_config. apply emit_wp. rewrite wp_bind. apply preferred_wp; cbn -[within].
  { apply (target_trust_file (jump_target jump)). by eapply list_elem_of_lookup_2. }
  2:{ intros e. by apply Herr. }
  intros p. rewrite wp_bind.
  assert (∀ session keepalive', keepalive' ++ [session] = keepalive ++ option_list current ++ [session] →
    wp m (emit_progress progress (JumpConnected index (length (c_jump_hosts config)) (jh_alias jump)) ;;
          authenticate_jump home cwd progress config jump index (length (c_jump_hosts config)) session MAX_JUMP_AUTH_ATTEMPTS 1 false ;;
          p_ret (Some session, keepalive'))%prog Q (opened config authentication session (mk_net (keepalive ++ option_list current) None None 0 None unwatched)))
    as Hauth.
  { intros session keepalive' Hchain. apply emit_wp. rewrite wp_bind. unfold opened. cbn [n_chain].
    rewrite (bool_decide_eq_false_2 _ (λ H, Hhop (eq_trans (eq_sym Hlen) H))). rewrite <- Hlen.
    apply (authenticate_jump_wp _ _ _ _ _ 0); [by rewrite Hlen|done|done|done| |].
    - cbn. apply Hyes; [|cbn; rewrite length_app, Hlen; cbn; lia|done].
      split; [|done]. cbn. by rewrite Hchain, app_assoc.
    - intros e g Hg. cbn. apply Herr. by rewrite Hg. }
  destruct current as [previous|]; cbn -[emit_progress authenticate_jump opened MAX_JUMP_AUTH_ATTEMPTS route].
  - split.
    { split_and!; [by rewrite last_snoc|done..|]. exists (jump_target jump). unfold next_target. cbn in *. by rewrite Hlen. }
    intros [[channel|e]|] g' ->; cbn -[emit_progress authenticate_jump opened MAX_JUMP_AUTH_ATTEMPTS route]; [|by apply Herr..].
    split.
    { split_and!; [done..|]. exists (jump_target jump). unfold next_target. cbn in *. by rewrite Hlen. }
    intros [[next|e]|] g' ->; cbn -[emit_progress authenticate_jump opened MAX_JUMP_AUTH_ATTEMPTS route]; [|by apply Herr..].
    apply Hauth. cbn. by rewrite <- app_assoc.
  - specialize (Hstart eq_refl) as ->. cbn in Hlen. subst index. split.
    { split_and!; [done..| |done|].
      - intros Hnil. by rewrite Hnil in Hjump.
      - by exists (jump_target jump). }
    intros [[next|e]|] g' ->; cbn -[emit_progress authenticate_jump opened MAX_JUMP_AUTH_ATTEMPTS route]; [|by apply Herr..].
    by apply Hauth.
Qed.

Lemma connect_jumps_wp hops state Q g n :
  at_hop state g → length (n_chain g) = n → drop n (c_jump_hosts config) = hops → (n ≠ 0%nat → is_Some state.1) →
  (∀ state' g', at_hop state' g' → length (n_chain g') = length (c_jump_hosts config) →
     (c_jump_hosts config ≠ [] → is_Some state'.1) → Q (Ok state') g') →
  (∀ e g', (length (n_chain g') ≤ length (c_jump_hosts config))%nat → Q (Err e) g') →
  (n ≤ length (c_jump_hosts config))%nat →
  wp m (p_fold (connect_jump home cwd default_preferred from_openssh_key ed25519_or_ecdsa parse_patterns hmac progress config)
          state (imap (λ i hop, (n + i, hop)%nat) hops)) Q g.
Proof.
  revert state g n. induction hops as [|jump hops IH]; intros state g n Hat Hlen Hhops Hsome Hyes Herr Hle; cbn [imap p_fold].
  { assert (n = length (c_jump_hosts config)) as ->.
    { apply (f_equal length) in Hhops. rewrite length_drop in Hhops. cbn in Hhops. lia. }
    apply Hyes; [done..|]. intros Hne. apply Hsome. by destruct (c_jump_hosts config). }
  assert (c_jump_hosts config !! n = Some jump) as Hjump.
  { by rewrite <- (Nat.add_0_r n), <- lookup_drop, Hhops. }
  rewrite wp_bind, Nat.add_0_r. apply connect_jump_wp; [done..| |].
  - intros state' g' Hat' Hlen' Hsome'. cbn.
    replace (imap _ hops) with (imap (λ i hop, (S n + i, hop)%nat) hops)
      by (apply imap_ext; intros i x _; cbn; by rewrite Nat.add_succ_r).
    apply IH; [done..| |done|done|done|apply lookup_lt_Some in Hjump; lia].
    replace (S n) with (n + 1)%nat by lia. by rewrite <- drop_drop, Hhops.
  - intros e g' Hlen'. apply Herr. rewrite Hlen'. lia.
Qed.

(** A session with the host asked for, through the authenticated hops. *)
Definition reached (r : nat * list nat) (g : net_watch) : Prop :=
  length r.2 = length (c_jump_hosts config) ∧
  g = mk_net r.2 None (Some r.1) 0 (Some authentication) unwatched.

Lemma opened_final session chain s o offers offer w :
  length chain = length (c_jump_hosts config) → reached (session, chain) (opened config authentication session (mk_net chain s o offers offer w)).
Proof. intros Hlen. split; [done|]. unfold opened. cbn. by rewrite bool_decide_eq_true_2. Qed.

Lemma connect_via_jumps_wp c :
  c_jump_hosts config ≠ [] →
  wp m (connect_via_jumps home cwd default_preferred from_openssh_key ed25519_or_ecdsa parse_patterns hmac progress config c)
    (λ r g, match r with Ok r => reached r g | Err _ => (length (n_chain g) ≤ length (c_jump_hosts config))%nat end) disconnected.
Proof.
  intros Hne. unfold connect_via_jumps. rewrite wp_bind.
  eapply (connect_jumps_wp (c_jump_hosts config) (None, []) _ _ 0); [done|done|done|done| |done|lia].
  intros [[last_hop|] keepalive] g [-> _] Hlen Hsome; cbn in *; [|by destruct (Hsome Hne)].
  apply emit_wp. cbn -[opened route]. split.
  { split_and!; [by rewrite last_snoc|done..|]. exists (final_target config). unfold next_target. cbn. by rewrite Hlen, route_final. }
  intros [[channel|e]|] g' ->; cbn -[opened route]; rewrite ?Hlen; try lia. split.
  { split_and!; [done..|]. exists (final_target config). unfold next_target. cbn. by rewrite ?Hlen, route_final. }
  intros [[session|e]|] g' ->; cbn -[opened]; rewrite ?Hlen; try lia. by apply opened_final.
Qed.
End connected.

(** ** Theorems *)

(** C4: whatever the network, the servers and the frontend answer, a connection follows its
    route: each hop is connected to from the hop before it, once that one was authenticated, and
    the first directly, or, without hops, through the expanded ProxyCommand; every session is
    opened with the trust settings of its own host; a credential that the frontend gives for a hop
    is tried on that hop's session only, for its user, in at most five numbered attempts, and the
    caller's on the host asked for only, every attempt within the discipline of
    [credentials_disciplined]; and the client that is returned holds the authenticated sessions of
    all the hosts of the route, in order, while an error means that the host asked for was not
    authenticated. *)
Theorem connection_follows_route `{KeyTypes} home cwd default_preferred {key} `{EqDecision key} from_openssh_key
    ed25519_or_ecdsa parse_patterns hmac progress config authentication :
  wp (net_monitor home cwd config authentication)
    (connect_with_jump_auth home cwd default_preferred (key := key) from_openssh_key ed25519_or_ecdsa parse_patterns hmac progress
       config authentication) (connected_as config) disconnected.
Proof.
  unfold connect_with_jump_auth, ssh_config. rewrite wp_done_bind. destruct (validate_timeouts config) as [[]|e]; [|cbn; lia].
  rewrite wp_bind. apply preferred_wp; cbn -[connect_via_jumps within].
  { apply (target_trust_file _ (final_target config)). apply list_elem_of_In, in_app_iff. right. by left. }
  2:{ intros; cbn; lia. }
  intros p. rewrite wp_bind.
  eapply (wp_mono _ _ (λ r g, match r with
    | Ok r => reached config authentication r g
    | Err _ => (length (n_chain g) ≤ length (c_jump_hosts config))%nat end)).
  - destruct (c_jump_hosts config) as [|jump jumps] eqn:Hjumps; [|rewrite <- Hjumps; apply connect_via_jumps_wp; by rewrite Hjumps].
    assert (route config = [final_target config]) as Hroute by (unfold route; by rewrite Hjumps).
    destruct (c_proxy_command config) as [template|] eqn:Hproxy; apply emit_wp.
    + unfold spawn_proxy_command. cbn -[opened within expand_proxy_command]. unfold bail_if.
      destruct (eq_ignore_ascii_case _ _); [cbn; lia|]. cbn -[opened within expand_proxy_command].
      destruct (expand_proxy_command template config) as [command|e] eqn:Hexp; [|cbn; lia]. cbn -[opened].
      split; [split_and!; [done..|]; by exists template|]. intros [child|e] g ->; cbn -[opened]; [|lia].
      split; [split_and!; [done..|]; exists (final_target config); unfold next_target; by rewrite Hroute|].
      intros [[session|e]|] g ->; cbn -[opened]; [|lia..]. apply opened_final. by rewrite Hjumps.
    + cbn -[opened]. split.
      { split_and!; [done..|]. exists (final_target config). unfold next_target. by rewrite Hroute. }
      intros [[session|e]|] g ->; cbn -[opened]; [|lia..]. apply opened_final. by rewrite Hjumps.
  - intros [[session chain]|e] g; [|done]. intros [Hlen ->]. cbn in Hlen. apply emit_wp. rewrite wp_bind.
    apply (timed_wp _ _ _ _ _ (final_target config) authentication); [cbn; by rewrite Hlen, route_final| |done| |].
    + apply credentials_disciplined.
    + cbn. apply emit_wp. by split_and!.
    + intros [[[]|e]|] w Hr Hno; [done|..]; cbn; by rewrite Hlen.
Qed.

Section observational.
Context `{KeyTypes} (home cwd : option os_path) (default_preferred : Preferred).
Context {key : Type} `{EqDecision key} (from_openssh_key : str → option key) (ed25519_or_ecdsa : key → bool).
Context (parse_patterns : str → option HostPatterns) (hmac : list Z → option (list Z → list Z → bool)).
Context {W : Type} (serve : ∀ q : net_interface, W → answer q * W).
Context (silent : ∀ event w, serve (NProgress event) w = (tt, w)).

Lemma run_emit progress event w : run serve (emit_progress progress event) w = (Ok tt, w).
Proof. destruct progress; cbn; [by rewrite silent|done]. Qed.
Lemma run_emit_bind {A} progress event (f : unit → netted A) w :
  run serve (p_bind (emit_progress progress event) f) w = run serve (f tt) w.
Proof. by rewrite run_bind, run_emit. Qed.

Lemma run_bind_ext {A B} (p p' : netted A) (f f' : A → netted B) w :
  run serve p w = run serve p' w → (∀ a w, run serve (f a) w = run serve (f' a) w) →
  run serve (p_bind p f) w = run serve (p_bind p' f') w.
Proof. intros Hp Hf. rewrite !run_bind, Hp. destruct (run serve p' w) as [[a|e] w']; [apply Hf|done]. Qed.

Lemma run_fold_ext {A B} (f f' : B → A → netted B) acc l w :
  (∀ acc x w, run serve (f acc x) w = run serve (f' acc x) w) → run serve (p_fold f acc l) w = run serve (p_fold f' acc l) w.
Proof.
  intros Hf. revert acc w. induction l as [|x l IH]; intros acc w; cbn [p_fold]; [done|]. by apply run_bind_ext.
Qed.

Lemma authenticate_jump_observed config jump index total session todo attempt failed w :
  run serve (authenticate_jump home cwd true config jump index total session todo attempt failed) w =
  run serve (authenticate_jump home cwd false config jump index total session todo attempt failed) w.
Proof.
  revert attempt failed w. induction todo as [|todo IH]; intros attempt failed w; cbn [authenticate_jump]; [done|].
  apply run_bind_ext; [done|]. intros [a|] w'; [|done]. rewrite !run_emit_bind. apply run_bind_ext; [done|].
  intros o w''. apply run_bind_ext; [done|]. intros [] w3; [by rewrite !run_emit|]. rewrite !run_emit_bind. apply IH.
Qed.

Lemma connect_jump_observed config state hop w :
  run serve (connect_jump home cwd default_preferred from_openssh_key ed25519_or_ecdsa parse_patterns hmac true config state hop) w =
  run serve (connect_jump home cwd default_preferred from_openssh_key ed25519_or_ecdsa parse_patterns hmac false config state hop) w.
Proof.
  unfold connect_jump. destruct state as [current keepalive], hop as [index jump]. rewrite !run_emit_bind.
  apply run_bind_ext; [done|]. intros c w'. apply run_bind_ext; [done|]. intros next w''. rewrite !run_emit_bind.
  apply run_bind_ext; [apply authenticate_jump_observed|done].
Qed.
End observational.

(** Reporting progress changes nothing: as long as hearing of an event has no effect on the
    world, connecting with a listener and without one do the same, and end the same. *)
Theorem progress_is_observational `{KeyTypes} home cwd default_preferred {key} `{EqDecision key} from_openssh_key
    ed25519_or_ecdsa parse_patterns hmac config authentication {W} (serve : ∀ q : net_interface, W → answer q * W) w :
  (∀ event w, serve (NProgress event) w = (tt, w)) →
  run serve (connect_with_jump_auth home cwd default_preferred (key := key) from_openssh_key ed25519_or_ecdsa parse_patterns hmac
    true config authentication) w =
  run serve (connect_with_jump_auth home cwd default_preferred (key := key) from_openssh_key ed25519_or_ecdsa parse_patterns hmac
    false config authentication) w.
Proof.
  intros Hsilent. unfold connect_with_jump_auth, connect_via_jumps. apply run_bind_ext; [done|]. intros [] w1.
  apply run_bind_ext; [done|]. intros c w2. apply run_bind_ext.
  - destruct (c_jump_hosts config) as [|jump jumps], (c_proxy_command config); rewrite ?run_emit_bind by done; try done;
      (apply run_bind_ext; [apply run_fold_ext; intros; by apply connect_jump_observed|]);
      intros state w3; apply run_bind_ext; try done; intros last w4; by rewrite !run_emit_bind.
  - intros sessions w3. rewrite !run_emit_bind by done. apply run_bind_ext; [done|]. intros o w4.
    apply run_bind_ext; [done|]. intros authenticated w5. apply run_bind_ext; [done|]. intros [] w6. by rewrite !run_emit_bind.
Qed.

(** The key algorithms that are offered contain no RSA, certificates included. *)
Theorem no_rsa_offered `{KeyTypes} home default_preferred {key} `{EqDecision key} from_openssh_key ed25519_or_ecdsa parse_patterns
    hmac host port policy file :
  pref_host_key_certificates default_preferred = [] →
  wp (only (λ _, True)) (preferred_for_target home default_preferred (key := key) from_openssh_key ed25519_or_ecdsa parse_patterns hmac
    host port policy file)
    (λ r _, match r with
            | Ok p => Forall (λ a, a ∈ pref_key default_preferred ∧ contains a (lit "rsa") = false)
                        (pref_key p ++ pref_host_key_certificates p)
            | Err _ => True
            end) tt.
Proof.
  intros Hdef. unfold preferred_for_target, hardened_preferred. rewrite Hdef.
  set (keys := filter _ _).
  assert (Forall (λ a, a ∈ pref_key default_preferred ∧ contains a (lit "rsa") = false) keys) as Hkeys.
  { apply Forall_forall. intros a Ha. by apply list_elem_of_filter in Ha as [? ?]. }
  case_bool_decide; [cbn; by rewrite app_nil_r|]. rewrite !wp_bind, wp_context. unfold load_trust_policy.
  rewrite wp_done_bind. destruct (match file with Some p => Ok p | None => _ end) as [path|e]; [|done].
  cbn -[load_path has_certificate_authority]. split; [done|]. intros contents [] _.
  destruct (load_path _ _ _ _ _ _) as [trust|e]; cbn -[has_certificate_authority]; [|done].
  destruct (has_certificate_authority _ _); cbn; [by apply Forall_app|by rewrite app_nil_r].
Qed.

(** ** A network to run against *)
Module ConnectModel.
Import AuthModel.

Record world := mk_world { next_handle : nat; asked : list net_request }.
Definition note (q : net_request) (w : world) : world := mk_world (next_handle w) (asked w ++ [q]).
Definition handle (q : net_request) (w : world) : option (result nat) * world :=
  (Some (Ok (next_handle w)), mk_world (S (next_handle w)) (asked w ++ [q])).

(** Hosts that take the password [pw] alone; the frontend gives the right one for the
    hops when it is asked again. *)
Definition serve_auth (q : auth_request) : auth_answer q :=
  match q return auth_answer q with
  | SPassword _ password => Ok (if bool_decide (password = lit "pw") then AuthSuccess else AuthFailure [MPassword])
  | q => (AuthModel.serve q []).1
  end.

Definition serve (q : net_interface) (w : world) : answer q * world :=
  match q return answer (i := net_interface) q * world with
  | NProgress _ => (tt, w)
  | NReadKnownHosts _ => (NotFound, w)
  | NConnect c host port h deadline => handle (NConnect c host port h deadline) w
  | NConnectStream c s h deadline => handle (NConnectStream c s h deadline) w
  | NOpenTunnel session host port o op deadline => handle (NOpenTunnel session host port o op deadline) w
  | NSpawnShell command => (Err "no shell", w)
  | NJumpAuth request =>
      (Ok (Some (AuthPassword (if bool_decide (ja_attempt request = 1%nat) then lit "guess" else lit "pw"))),
       note (NJumpAuth request) w)
  | NAuth session deadline q => (Some (serve_auth q), note (NAuth session deadline q) w)
  end.

Definition hop (name : str) : JumpHost := mk_jump name name 22 (lit "jump") [] Strict (Some (lit "/k")) .
Definition two_hops : ConnectionConfig := set_route (config_new (lit "db") (lit "deploy")) None [hop (lit "a"); hop (lit "b")].

Definition connect progress config password :=
  run serve (connect_with_jump_auth (Some (lit "/home/u")) None (mk_preferred [lit "ssh-ed25519"; lit "rsa-sha2-256"] [])
    (key := Z) (λ _, None) (λ _, true) (λ _, None) (λ _, None) progress config (AuthPassword password)) (mk_world 0 []).

Definition is_attempt (q : net_request) : option (nat * str) :=
  match q with NAuth session _ (SPassword _ password) => Some (session, password) | _ => None end.

Example two_hops_connect :
  (connect true two_hops (lit "pw")).1 = Ok (mk_client 4 [0; 2]%nat false two_hops) ∧
  omap is_attempt (asked (connect true two_hops (lit "pw")).2) =
    [(0%nat, lit "guess"); (0%nat, lit "pw"); (2%nat, lit "guess"); (2%nat, lit "pw"); (4%nat, lit "pw")].
Proof. split; vm_compute; reflexivity. Qed.

Example wrong_password : (connect true two_hops (lit "nope")).1 = Err "SSH authentication failed".
Proof. vm_compute. reflexivity. Qed.

Lemma progress_is_observational_witness : connect true two_hops (lit "pw") = connect false two_hops (lit "pw").
Proof. apply (progress_is_observational _ _ _ _ _ _ _ _ _ serve). intros event w. reflexivity. Defined.
End ConnectModel.
