(* ===== verification/Exec.v ===== *)
(** * Sessions on a connection ([crates/kaduox-ssh-core/src/client.rs])

    Commands, shells and SFTP sessions over the channels of a connection, and the
    detection of the server's platform, as programs over requests to the channels
    and the caller's streams.  Theorems: every channel is closed, whatever fails; a
    command's output and status are exactly what the server sent; a shell forwards
    both directions in order; the platform is what the probes say. *)

From stdpp Require Import base list gmap strings numbers sorting.
From Stdlib Require Import Lia.
From S2P Require Import Prelude RustStr StrFacts Config HostModel RemoteCommand RemoteFs TransferOps Program Authenticate.

(** ** Definitions *)
Record TerminalSpec := mk_terminal { term : str; columns : Z; rows : Z }.
Definition default_terminal : TerminalSpec := mk_terminal (lit "xterm-256color") 80 24.
Record TerminalSize := mk_size { size_columns : Z; size_rows : Z }.

Record CommandOutput := mk_output { stdout : list Z; stderr : list Z; exit_status : option Z }.

Inductive ChannelMsg :=
| MsgData (data : list Z)
| MsgExtendedData (data : list Z)
| MsgExitStatus (status : Z)
| MsgOther.

Record SftpConfig := mk_sftp_config { max_packet_len : Z; max_concurrent_writes : Z; request_timeout_secs : Z }.

(** The caller's streams. *)
Inductive sink := Out | ErrOut.
#[export] Instance sink_eq_dec : EqDecision sink.
Proof. solve_decision. Defined.

(** The [OnceCell]s of a client: the platform the caller set, and the one probed for. *)
Inductive platform_cell := PlatformManual | PlatformDetected.

(** What [select!] woke up for. *)
Inductive shell_event := EvInput (read : result (list Z)) | EvResize (size : TerminalSize) | EvMessage (m : option ChannelMsg).

(** *** Requests: a deadline that passes answers [None] *)
Inductive exec_request :=
| XCellGet (cell : platform_cell)
| XCellSet (cell : platform_cell) (platform : RemotePlatform)
| XOpenSession (deadline : Z)
| XAgentForward (channel : nat) (deadline : Z)
| XExec (channel : nat) (command : str) (deadline : Z)
| XRequestPty (channel : nat) (terminal : TerminalSpec)
| XRequestShell (channel : nat) (deadline : Z)
| XSubsystem (channel : nat) (name : str) (deadline : Z)
| XSftpInit (channel : nat) (config : SftpConfig) (deadline : Z)
| XSftpClose (sftp : nat)
| XData (channel : nat) (data : list Z)
| XEof (channel : nat)
| XWindowChange (channel : nat) (size : TerminalSize)
| XWait (channel : nat)
| XSelect (channel : nat) (input_open resizing : bool)
| XWrite (s : sink) (data : list Z)
| XFlush (s : sink)
| XClose (channel : nat).

Definition exec_answer (q : exec_request) : Type :=
  match q with
  | XCellGet _ => option RemotePlatform
  | XCellSet _ _ => unit
  | XOpenSession _ | XSftpInit _ _ _ => option (result nat)
  | XAgentForward _ _ | XExec _ _ _ | XRequestShell _ _ | XSubsystem _ _ _ => option (result unit)
  | XRequestPty _ _ | XSftpClose _ | XData _ _ | XEof _ | XWindowChange _ _ | XWrite _ _ | XFlush _ => result unit
  | XWait _ => option ChannelMsg
  | XSelect _ _ _ => shell_event
  | XClose _ => unit
  end.
Definition exec_interface : interface := Interface exec_request exec_answer.
Abbreviation exec A := (prog exec_interface A).
Definition x (q : exec_interface) : exec (answer q) := ask q.

(** [timeout(…).await.context(timed_out)??] *)
Definition in_time {A} (timed_out : string) (p : exec (option (result A))) : exec A :=
  p_bind p (λ answer, Done (match answer with None => Err timed_out | Some r => r end)).

(** [ShellChannel]: whatever happens, the channel is closed when it goes out of scope. *)
Definition with_channel {A} (channel : nat) (p : exec A) : exec A :=
  (r ⇐ p_try p; x (XClose channel) ;; Done r)%prog.

(** [BufferWriter] for both streams: writing to memory cannot fail. *)
Fixpoint buffered {A} (p : exec A) (out err : list Z) : exec (result A * (list Z * list Z)) :=
  match p with
  | Done r => p_ret (r, (out, err))
  | Ask q k =>
      match q return (exec_answer q → exec A) → (exec_answer q → exec (result A * (list Z * list Z))) →
                     exec (result A * (list Z * list Z)) with
      | XWrite Out data => λ k _, buffered (k (Ok tt)) (out ++ data) err
      | XWrite ErrOut data => λ k _, buffered (k (Ok tt)) out (err ++ data)
      | XFlush _ => λ k _, buffered (k (Ok tt)) out err
      | q => λ _ k, Ask (E := exec_interface) q k
      end k (λ r, buffered (k r) out err)
  end.

(** [set] does nothing when the cell is already set. *)
Definition set_remote_platform (platform : RemotePlatform) : exec unit := x (XCellSet PlatformManual platform).

Section exec.
Context (config : ConnectionConfig) (to_lowercase : str → str) (fuel : nat).

(** The messages of a command, until its channel is closed; [fuel] is more than their
    number. *)
Fixpoint pump (fuel : nat) (channel : nat) (status : option Z) : exec (option Z) :=
  match fuel with
  | O => p_err "out of fuel"
  | S fuel =>
      (message ⇐ x (XWait channel);
       match message with
       | None => p_ret status
       | Some (MsgData data) => awaited (x (XWrite Out data)) ;; pump fuel channel status
       | Some (MsgExtendedData data) => awaited (x (XWrite ErrOut data)) ;; pump fuel channel status
       | Some (MsgExitStatus status) => pump fuel channel (Some status)
       | Some MsgOther => pump fuel channel status
       end)%prog
  end.

(** The command on its channel. *)
Definition run_command (channel : nat) (command : str) (stdin : option (list Z)) : exec (option Z) :=
  ((if c_agent_forwarding config then
      in_time "SSH agent-forward request timed out" (x (XAgentForward channel (c_channel_request_timeout config)))
    else p_ret tt) ;;
   in_time "SSH exec request timed out" (x (XExec channel command (c_channel_request_timeout config))) ;;
   match stdin with
   | Some stdin => awaited (x (XData channel stdin)) ;; awaited (x (XEof channel))
   | None => p_ret tt
   end ;;
   status ⇐ pump fuel channel None;
   awaited (x (XFlush Out)) ;;
   awaited (x (XFlush ErrOut)) ;;
   p_ret status)%prog.

Definition exec_stream_raw_inner (command : str) (stdin : option (list Z)) : exec (option Z) :=
  (channel ⇐ in_time "SSH exec session channel-open timed out" (x (XOpenSession (c_channel_open_timeout config)));
   with_channel channel (run_command channel command stdin))%prog.

Definition exec_stream_raw (command : str) : exec (option Z) := exec_stream_raw_inner command None.

(** *** The platform of the server *)
Definition PROBE_UNAME : str := lit "uname -s".
Definition PROBE_VER : str := lit "ver".
Definition PROBE_POWERSHELL : str :=
  lit "powershell -NoProfile -Command " ++ [dquote] ++ lit "Write-Output $env:OS" ++ [dquote].

Definition probe (command : str) : exec (option (option Z * str)) :=
  (r ⇐ buffered (exec_stream_raw command) [] [];
   p_ret (match r.1 with
          | Ok status => Some (status, to_lowercase (to_string_lossy r.2.1))
          | Err _ => None
          end))%prog.

Definition windows_like (text : str) : bool :=
  contains text (lit "windows") || contains text (lit "msys") || contains text (lit "mingw") || contains text (lit "cygwin").

Definition detect_remote_platform : exec RemotePlatform :=
  (uname ⇐ probe PROBE_UNAME;
   let after_uname :=
     ver ⇐ probe PROBE_VER;
     let after_ver :=
       powershell ⇐ probe PROBE_POWERSHELL;
       match powershell with
       | Some (status, text) =>
           if bool_decide (status = Some 0) && contains text (lit "windows_nt") then p_ret Windows else p_ret Unix
       | None => p_ret Unix
       end in
     match ver with
     | Some (status, text) =>
         if bool_decide (status = Some 0) || contains text (lit "windows") then p_ret Windows else after_ver
     | None => after_ver
     end in
   match uname with
   | Some (status, text) =>
       if windows_like text then p_ret Windows
       else if bool_decide (status = Some 0) then p_ret Unix
       else after_uname
   | None => after_uname
   end)%prog.

(** [get_or_init]; no two callers run the probes at once. *)
Definition remote_platform : exec RemotePlatform :=
  (manual ⇐ x (XCellGet PlatformManual);
   match manual with
   | Some platform => p_ret platform
   | None =>
       detected ⇐ x (XCellGet PlatformDetected);
       match detected with
       | Some platform => p_ret platform
       | None =>
           platform ⇐ detect_remote_platform;
           x (XCellSet PlatformDetected platform) ;;
           p_ret platform
       end
   end)%prog.

Definition PWSH_PROBE_MARKER : str := lit "KADUOX_PWSH_OK".
Definition PWSH_PROBE : str := lit "cmd /c where pwsh >nul 2>&1 && echo KADUOX_PWSH_OK".

Definition windows_shell_command : exec str :=
  (r ⇐ buffered (exec_stream_raw PWSH_PROBE) [] [];
   match r with
   | (Ok (Some 0), (out, _)) =>
       p_ret (if contains (to_string_lossy out) PWSH_PROBE_MARKER then lit "pwsh.exe -NoLogo" else lit "cmd.exe")
   | _ => p_ret (lit "cmd.exe")
   end)%prog.

(** *** Commands *)
Definition exec_stream (command : str) (remote_user : RemoteUser) : exec (option Z) :=
  (platform ⇐ remote_platform;
   command ⇐ Done (command_for_user command remote_user platform);
   status ⇐ exec_stream_raw command;
   p_ret status)%prog.

Definition exec_stream_with_stdin (command : str) (stdin : list Z) (remote_user : RemoteUser)
    : exec (option Z) :=
  (platform ⇐ remote_platform;
   command ⇐ Done (command_for_user command remote_user platform);
   status ⇐ exec_stream_raw_inner command (Some stdin);
   p_ret status)%prog.

Definition exec_command (command : str) (remote_user : RemoteUser) : exec CommandOutput :=
  (r ⇐ buffered (exec_stream command remote_user) [] [];
   status ⇐ Done r.1;
   p_ret (mk_output r.2.1 r.2.2 status))%prog.

(** *** Shells *)
Record ShellLoop := mk_shell { input_closed : bool; shell_status : option Z }.

(** One turn of [select!]: [inl] goes on, [inr] ends the loop. *)
Definition shell_turn (channel : nat) (resizing : bool) (s : ShellLoop) : exec (ShellLoop + option Z) :=
  (event ⇐ x (XSelect channel (negb (input_closed s)) resizing);
   match event with
   | EvInput (Err e) => p_err e
   | EvInput (Ok []) => awaited (x (XEof channel)) ;; p_ret (inl (mk_shell true (shell_status s)))
   | EvInput (Ok data) => awaited (x (XData channel data)) ;; p_ret (inl s)
   | EvResize size => awaited (x (XWindowChange channel size)) ;; p_ret (inl s)
   | EvMessage None => p_ret (inr (shell_status s))
   | EvMessage (Some (MsgData data | MsgExtendedData data)) =>
       awaited (x (XWrite Out data)) ;; awaited (x (XFlush Out)) ;; p_ret (inl s)
   | EvMessage (Some (MsgExitStatus status)) => p_ret (inl (mk_shell (input_closed s) (Some status)))
   | EvMessage (Some MsgOther) => p_ret (inl s)
   end)%prog.

Fixpoint shell_loop (fuel : nat) (channel : nat) (resizing : bool) (s : ShellLoop) : exec (option Z) :=
  match fuel with
  | O => p_err "out of fuel"
  | S fuel =>
      (turn ⇐ shell_turn channel resizing s;
       match turn with inl s => shell_loop fuel channel resizing s | inr status => p_ret status end)%prog
  end.

Definition interactive_shell (terminal : TerminalSpec) (remote_user : RemoteUser) (resizing : bool)
    : exec (option Z) :=
  let deadline := c_channel_request_timeout config in
  (channel ⇐ in_time "SSH shell session channel-open timed out" (x (XOpenSession (c_channel_open_timeout config)));
   with_channel channel (
     awaited (x (XRequestPty channel terminal)) ;;
     (if c_agent_forwarding config then
        in_time "SSH shell agent-forward request timed out" (x (XAgentForward channel deadline))
      else p_ret tt) ;;
     platform ⇐ remote_platform;
     match remote_user, platform with
     | Current, Windows =>
         shell ⇐ windows_shell_command;
         in_time "SSH Windows shell exec request timed out" (x (XExec channel shell deadline))
     | Current, Unix => in_time "SSH shell request timed out" (x (XRequestShell channel deadline))
     | Sudo user, Windows => p_err "Windows targets do not support sudo privilege switching"
     | Sudo user, Unix => in_time "SSH sudo shell exec request timed out" (x (XExec channel (sudo_login_shell user) deadline))
     end ;;
     status ⇐ shell_loop fuel channel resizing (mk_shell false None);
     p_ret status))%prog.

(** *** SFTP sessions *)
Definition open_sftp_for_transfer (o : TransferOptions) : exec nat :=
  (Done (validated o) ;;
   channel ⇐ in_time "SFTP session channel-open timed out" (x (XOpenSession (c_channel_open_timeout config)));
   in_time "SFTP subsystem request timed out" (x (XSubsystem channel (lit "sftp") (c_channel_request_timeout config))) ;;
   in_time "SFTP protocol initialization timed out"
     (x (XSftpInit channel (mk_sftp_config (sftp_packet_size o) (sftp_write_concurrency o) (TransferOps.request_timeout_secs o))
        (TransferOps.request_timeout_secs o))))%prog.

Definition open_sftp_for_inspection : exec nat := open_sftp_for_transfer default_options.

(** What an inspection does with its session, which is closed after it. *)
Definition inspecting {A} (inspect : nat → exec A) : exec A :=
  (sftp ⇐ open_sftp_for_inspection;
   r ⇐ p_try (inspect sftp);
   close_result ⇐ x (XSftpClose sftp);
   v ⇐ Done r;
   Done close_result ;;
   p_ret v)%prog.

Definition du_command (path : str) : str := lit "du -sb -- " ++ quote_posix path.

Definition remote_directory_size_via_du (path : str) : exec Z :=
  (output ⇐ exec_command (du_command path) Current;
   Done (bail_if (negb (bool_decide (exit_status output = Some 0))) "du did not exit with status 0") ;;
   size ⇐ Done (with_context (parse_du_bytes (stdout output)) "unparsable du output");
   p_ret size)%prog.

(** [walk] is the breadth-first walk of [remote_fs.rs] over the session. *)
Definition remote_directory_size (walk : nat → exec Z) (path : str) : exec Z :=
  (by_du ⇐ p_try (remote_directory_size_via_du path);
   match by_du with
   | Ok size => p_ret size
   | Err _ => inspecting walk
   end)%prog.
End exec.

(** ** Channels are closed *)
Section channels.
Context (config : ConnectionConfig) (to_lowercase : str → str) (command_ok : str → Prop).

(** [open] are the channels of the program, the last one first. *)
Definition channel_allowed (q : exec_request) (open : list nat) : Prop :=
  match q with
  | XAgentForward channel _ => head open = Some channel ∧ c_agent_forwarding config = true
  | XExec channel command _ => head open = Some channel ∧ command_ok command
  | XRequestPty channel _ | XRequestShell channel _ | XData channel _ | XEof channel | XWindowChange channel _ | XWait channel
  | XSelect channel _ _ | XClose channel => head open = Some channel
  | _ => True
  end.
Definition channel_step (q : exec_request) : exec_answer q → list nat → list nat :=
  match q with
  | XOpenSession _ => λ r open, match r with Some (Ok channel) => channel :: open | _ => open end
  | XClose _ => λ _ open, tail open
  | _ => λ _ open, open
  end.
Definition channel_monitor : monitor exec_interface (list nat) :=
  Monitor (E := exec_interface) channel_allowed (λ q r g g', g' = channel_step q r g).

(** Starting with these channels, the program ends with them, however it ends. *)
Definition balanced {A} (open : list nat) (p : exec A) : Prop := wp channel_monitor p (λ _ open', open' = open) open.

Lemma balanced_done {A} open (r : result A) : balanced open (Done r).
Proof. done. Qed.
Lemma balanced_bind {A B} open (p : exec A) (f : A → exec B) :
  balanced open p → (∀ a, balanced open (f a)) → balanced open (p_bind p f).
Proof.
  intros Hp Hf. unfold balanced. rewrite wp_bind. eapply wp_mono; [exact Hp|]. intros [a|e] g ->; [apply Hf|done].
Qed.
Lemma balanced_ask open (q : exec_interface) :
  channel_allowed q open → (∀ r, channel_step q r open = open) → balanced open (x q).
Proof. intros Ha Hs. unfold balanced. cbn. split; [done|]. intros r g' ->. apply Hs. Qed.
Lemma balanced_try {A} open (p : exec A) : balanced open p → balanced open (p_try p).
Proof. intros Hp. unfold balanced. rewrite wp_try. exact Hp. Qed.
Lemma balanced_awaited {A} open (p : exec (result A)) : balanced open p → balanced open (awaited p).
Proof. intros Hp. apply balanced_bind; [done|intros; apply balanced_done]. Qed.
Lemma balanced_in_time {A} open e (p : exec (option (result A))) : balanced open p → balanced open (in_time e p).
Proof. intros Hp. apply balanced_bind; [done|intros; apply balanced_done]. Qed.

Lemma balanced_buffered {A} open (p : exec A) out err : balanced open p → balanced open (buffered p out err).
Proof.
  unfold balanced.
  assert (∀ g out err, wp channel_monitor p (λ _ g', g' = open) g →
    wp channel_monitor (buffered p out err) (λ _ g', g' = open) g) as Hgen; [|apply Hgen].
  clear out err. induction p as [r|q k IH]; intros g out err Hp; [exact Hp|]. destruct Hp as [Ha Hk].
  destruct q; try (cbn; split; [exact Ha|]; intros r g' Hg; apply IH; by apply Hk).
  all: match goal with s : sink |- _ => destruct s end; cbn; apply IH; by apply Hk.
Qed.

(** A channel is opened, used and closed. *)
Lemma balanced_channel {A} open e deadline (p : nat → exec A) :
  (∀ channel, balanced (channel :: open) (p channel)) →
  balanced open (channel ⇐ in_time e (x (XOpenSession deadline)); with_channel channel (p channel))%prog.
Proof.
  intros Hp. unfold balanced, in_time. cbn -[with_channel]. split; [done|].
  intros [[channel|e']|] g ->; cbn -[with_channel]; try done.
  unfold with_channel. rewrite wp_bind, wp_try. eapply wp_mono; [apply Hp|]. intros r g ->. cbn. split; [done|]. by intros [] g ->.
Qed.

Ltac balanced_step :=
  match goal with
  | |- ∀ _, _ => intros ?
  | |- balanced _ (Done _) => apply balanced_done
  | |- balanced _ (p_ret _) => apply balanced_done
  | |- balanced _ (p_err _) => apply balanced_done
  | |- balanced _ (p_bind (in_time _ (x (XOpenSession _))) _) => apply balanced_channel
  | |- balanced _ (x _) => apply balanced_ask; [by cbn; auto|by intros]
  | |- balanced _ (awaited _) => apply balanced_awaited
  | |- balanced _ (in_time _ _) => apply balanced_in_time
  | |- balanced _ (p_try _) => apply balanced_try
  | |- balanced _ (buffered _ _ _) => apply balanced_buffered
  | |- balanced _ (p_bind _ _) => apply balanced_bind
  | |- balanced _ (match ?a with _ => _ end) => destruct a eqn:?
  | |- balanced _ _ => solve [eauto]
  end.
Ltac balanced := repeat (cbv zeta; balanced_step).

Lemma balanced_pump open fuel channel status : balanced (channel :: open) (pump fuel channel status).
Proof. revert status. induction fuel as [|fuel IH]; intros status; cbn [pump]; balanced. Qed.
Hint Resolve balanced_pump : core.

Lemma balanced_raw open fuel command stdin : command_ok command → balanced open (exec_stream_raw_inner config fuel command stdin).
Proof. intros Hc. unfold exec_stream_raw_inner, run_command. balanced. Qed.

Definition probes_ok : Prop := command_ok PROBE_UNAME ∧ command_ok PROBE_VER ∧ command_ok PROBE_POWERSHELL.

Lemma balanced_probe open fuel command : command_ok command → balanced open (probe config to_lowercase fuel command).
Proof. intros Hc. unfold probe, exec_stream_raw. balanced. by apply balanced_raw. Qed.

Lemma balanced_platform open fuel : probes_ok → balanced open (remote_platform config to_lowercase fuel).
Proof.
  intros (H1 & H2 & H3). unfold remote_platform, detect_remote_platform. balanced; (by apply balanced_probe) || (by case_match; apply balanced_done).
Qed.

Lemma balanced_shell_loop open fuel channel resizing s : balanced (channel :: open) (shell_loop fuel channel resizing s).
Proof.
  revert s. induction fuel as [|fuel IH]; intros s; cbn [shell_loop]; [apply balanced_done|].
  apply balanced_bind; [|intros [s'|status]; [apply IH|apply balanced_done]]. unfold shell_turn. balanced.
Qed.

Lemma balanced_shell_command open fuel : command_ok PWSH_PROBE → balanced open (windows_shell_command config fuel).
Proof. intros Hc. unfold windows_shell_command, exec_stream_raw. balanced; by apply balanced_raw. Qed.

Lemma balanced_exec_stream open fuel command user :
  probes_ok → (∀ platform c, command_for_user command user platform = Ok c → command_ok c) →
  balanced open (exec_stream config to_lowercase fuel command user).
Proof.
  intros Hp Hc. unfold exec_stream. apply balanced_bind; [by apply balanced_platform|]. intros platform.
  destruct (command_for_user command user platform) as [c|e] eqn:He; [|apply balanced_done]. cbn -[exec_stream_raw].
  apply balanced_bind; [|intros; apply balanced_done]. apply balanced_raw. by eapply Hc.
Qed.

Lemma balanced_with_stdin open fuel command stdin user :
  probes_ok → (∀ platform c, command_for_user command user platform = Ok c → command_ok c) →
  balanced open (exec_stream_with_stdin config to_lowercase fuel command stdin user).
Proof.
  intros Hp Hc. unfold exec_stream_with_stdin. apply balanced_bind; [by apply balanced_platform|]. intros platform.
  destruct (command_for_user command user platform) as [c|e] eqn:He; [|apply balanced_done]. cbn -[exec_stream_raw_inner].
  apply balanced_bind; [|intros; apply balanced_done]. apply balanced_raw. by eapply Hc.
Qed.

Lemma balanced_shell open fuel terminal user resizing :
  probes_ok → command_ok PWSH_PROBE → command_ok (lit "pwsh.exe -NoLogo") → command_ok (lit "cmd.exe") →
  (∀ u, user = Sudo u → command_ok (sudo_login_shell u)) →
  balanced open (interactive_shell config to_lowercase fuel terminal user resizing).
Proof.
  intros Hp Hw Hpwsh Hcmd Hsudo. unfold interactive_shell. cbv zeta. apply balanced_channel. intros channel.
  apply balanced_bind; [balanced|]. intros _. apply balanced_bind; [balanced|]. intros _.
  apply balanced_bind; [by apply balanced_platform|]. intros platform. apply balanced_bind.
  2:{ intros _. apply balanced_bind; [apply balanced_shell_loop|intros; apply balanced_done]. }
  destruct user as [|u], platform; [balanced| | |balanced].
  2:{ apply balanced_in_time, balanced_ask; [split; [done|by apply Hsudo]|done]. }
  unfold windows_shell_command, exec_stream_raw. repeat (rewrite ?wp_bind).
  assert (∀ (p : exec str), balanced (channel :: open) p → wp channel_monitor p (λ r open', open' = channel :: open ∧
    match r with Ok s => command_ok s | Err _ => True end) (channel :: open) →
    balanced (channel :: open) (shell ⇐ p; in_time "SSH Windows shell exec request timed out"
      (x (XExec channel shell (c_channel_request_timeout config))))%prog) as Hshell.
  { intros p _ Hwp. unfold balanced. rewrite wp_bind. eapply wp_mono; [exact Hwp|]. intros [s|e] g [-> Hs]; [|done].
    apply balanced_in_time. by apply balanced_ask. }
  apply Hshell; [by apply balanced_shell_command|]. rewrite wp_bind.
  eapply wp_mono; [apply (balanced_buffered _ _ [] []), (balanced_raw _ _ PWSH_PROBE None Hw)|].
  intros [[[[[| |]|]|e] [out err]]|e] g ->; cbn; try done. by case_match.
Qed.
End channels.

(** The commands a session may run: the probes, the shells, and what was asked for. *)
Definition session_command (command : str) (user : RemoteUser) (c : str) : Prop :=
  c ∈ [PROBE_UNAME; PROBE_VER; PROBE_POWERSHELL; PWSH_PROBE; lit "pwsh.exe -NoLogo"; lit "cmd.exe"] ∨
  (∃ platform, command_for_user command user platform = Ok c) ∨ ∃ u, user = Sudo u ∧ c = sudo_login_shell u.

(** C23: every channel that a command or a shell opens is closed again, the probes' own included,
    whatever the server answers, whichever deadline passes and however it ends; channels are used
    while they are open only, run nothing but the command asked for, the probes and the shells,
    and forward the agent only when the configuration says so. *)
Theorem channels_are_closed config to_lowercase fuel command user open :
  let closes {A} (p : exec A) := balanced config (session_command command user) open p in
  closes (exec_stream config to_lowercase fuel command user) ∧
  (∀ stdin, closes (exec_stream_with_stdin config to_lowercase fuel command stdin user)) ∧
  closes (exec_command config to_lowercase fuel command user) ∧
  (∀ terminal resizing, closes (interactive_shell config to_lowercase fuel terminal user resizing)).
Proof.
  intros closes. unfold closes.
  assert (probes_ok (session_command command user)) as Hp by (split_and!; left; set_solver).
  assert (∀ platform c, command_for_user command user platform = Ok c → session_command command user c) as Hc
    by (intros platform c He; right; left; by exists platform).
  split_and!; [by apply balanced_exec_stream|intros; by apply balanced_with_stdin| |].
  - unfold exec_command. apply balanced_bind; [by apply balanced_buffered, balanced_exec_stream|].
    intros [r out]. apply balanced_bind; intros; apply balanced_done.
  - intros terminal resizing. apply balanced_shell; [done|left; set_solver..|]. intros u ->. right. right. by exists u.
Qed.

(** ** What a command returns *)

(** A server that answers commands by messages, or refuses them. *)
Section server.
Context (config : ConnectionConfig) (to_lowercase : str → str) (fuel : nat) (behave : str → option (list ChannelMsg)).
Context (fuel_enough : ∀ command ms, behave command = Some ms → (length ms < fuel)%nat).

Record world := mk_world {
  manual : option RemotePlatform; detected : option RemotePlatform; next_channel : nat; pending : gmap nat (list ChannelMsg) }.

Definition set_pending (p : gmap nat (list ChannelMsg)) (w : world) : world :=
  mk_world (manual w) (detected w) (next_channel w) p.

Definition serve (q : exec_interface) (w : world) : answer q * world :=
  match q return answer (i := exec_interface) q * world with
  | XCellGet PlatformManual => (manual w, w)
  | XCellGet PlatformDetected => (detected w, w)
  | XCellSet PlatformManual p => (tt, mk_world (Some (default p (manual w))) (detected w) (next_channel w) (pending w))
  | XCellSet PlatformDetected p => (tt, mk_world (manual w) (Some (default p (detected w))) (next_channel w) (pending w))
  | XOpenSession _ => (Some (Ok (next_channel w)), mk_world (manual w) (detected w) (S (next_channel w)) (pending w))
  | XExec channel command _ =>
      match behave command with
      | Some ms => (Some (Ok tt), set_pending (<[channel := ms]> (pending w)) w)
      | None => (Some (Err "refused"), w)
      end
  | XWait channel =>
      match pending w !! channel with
      | Some (m :: ms) => (Some m, set_pending (<[channel := ms]> (pending w)) w)
      | _ => (None, w)
      end
  | XClose channel => (tt, set_pending (delete channel (pending w)) w)
  | XSftpInit _ _ _ => (None, w)
  | XSelect _ _ _ => (EvMessage None, w)
  | XAgentForward _ _ | XRequestShell _ _ | XSubsystem _ _ _ => (Some (Ok tt), w)
  | XRequestPty _ _ | XSftpClose _ | XData _ _ | XEof _ | XWindowChange _ _ | XWrite _ _ | XFlush _ => (Ok tt, w)
  end.

(** The server's messages, read as a whole. *)
Definition data_of (ms : list ChannelMsg) : list Z := concat (omap (λ m, match m with MsgData d => Some d | _ => None end) ms).
Definition extended_of (ms : list ChannelMsg) : list Z :=
  concat (omap (λ m, match m with MsgExtendedData d => Some d | _ => None end) ms).
Definition status_of (ms : list ChannelMsg) : option Z := last (omap (λ m, match m with MsgExitStatus s => Some s | _ => None end) ms).

Definition output_of (ms : list ChannelMsg) : CommandOutput := mk_output (data_of ms) (extended_of ms) (status_of ms).

(** The platform, from what the three probes print and return. *)
Definition says (p : option Z → str → bool) (command : str) : bool :=
  match behave command with Some ms => p (status_of ms) (to_lowercase (to_string_lossy (data_of ms))) | None => false end.
Definition exits_well (status : option Z) (_ : str) : bool := bool_decide (status = Some 0).
Definition server_platform : RemotePlatform :=
  if says (λ _, windows_like) PROBE_UNAME ||
     negb (says exits_well PROBE_UNAME) &&
     (says exits_well PROBE_VER || says (λ _ text, contains text (lit "windows")) PROBE_VER ||
      says (λ status text, exits_well status text && contains text (lit "windows_nt")) PROBE_POWERSHELL)
  then Windows else Unix.

Definition known_platform (w : world) : RemotePlatform := default (default server_platform (detected w)) (manual w).

(** *** Lemmas *)
Lemma run_buffered_bind {A B} (p : exec A) (f : A → exec B) o e w :
  run serve (buffered (p_bind p f) o e) w =
  match run serve (buffered p o e) w with
  | (Ok (Ok a, (o, e)), w) => run serve (buffered (f a) o e) w
  | (Ok (Err x, oe), w) => (Ok (Err x, oe), w)
  | (Err x, w) => (Err x, w)
  end.
Proof.
  revert o e w. induction p as [[a|x]|q k IH]; intros o e w; [done..|].
  destruct q; cbn [p_bind buffered run]; try (destruct (serve _ _) as [r w']; apply IH).
  all: match goal with s : sink |- _ => destruct s end; cbn [buffered run]; apply IH.
Qed.

Lemma run_wait channel o e w :
  run serve (buffered (x (XWait channel)) o e) w =
  match pending w !! channel with
  | Some (m :: ms) => (Ok (Ok (Some m), (o, e)), set_pending (<[channel := ms]> (pending w)) w)
  | _ => (Ok (Ok None, (o, e)), w)
  end.
Proof. cbn. by destruct (pending w !! channel) as [[|m ms]|]. Qed.

Lemma last_or {A} (x : A) l : last (x :: l) = Some (default x (last l)).
Proof. by rewrite last_cons; destruct (last l). Qed.

Lemma run_pump fuel' channel ms status o e w :
  (length ms < fuel')%nat → pending w !! channel = Some ms →
  run serve (buffered (pump fuel' channel status) o e) w =
  (Ok (Ok (match status_of ms with Some s => Some s | None => status end), (o ++ data_of ms, e ++ extended_of ms)),
   set_pending (<[channel := []]> (pending w)) w).
Proof.
  revert fuel' status o e w. induction ms as [|m ms IH]; intros [|fuel'] status o e w Hlt Hp; cbn in Hlt; try lia;
    cbn [pump]; rewrite run_buffered_bind, run_wait; rewrite Hp.
  - cbn. rewrite !app_nil_r. unfold set_pending. rewrite insert_id by done. by destruct w.
  - assert (Hgo : ∀ status o e, run serve (buffered (pump fuel' channel status) o e) (set_pending (<[channel:=ms]> (pending w)) w) =
      (Ok (Ok (match status_of ms with Some s => Some s | None => status end), (o ++ data_of ms, e ++ extended_of ms)),
       set_pending (<[channel:=[]]> (pending w)) w)).
    { intros status' o' e'. rewrite (IH fuel') by (cbn; try lia; apply lookup_insert_eq).
      unfold set_pending. cbn. by rewrite insert_insert_eq. }
    destruct m as [d|d|s|]; cbn [awaited x ask p_bind buffered].
    + rewrite Hgo. unfold data_of. cbn. by rewrite app_assoc.
    + rewrite Hgo. unfold extended_of. cbn. by rewrite app_assoc.
    + rewrite Hgo. unfold status_of. cbn. rewrite last_or. by destruct (last _).
    + rewrite Hgo. done.
Qed.

Lemma run_buffered_try {A} (p : exec A) o e w :
  run serve (buffered (p_try p) o e) w =
  match run serve (buffered p o e) w with (Ok (r, oe), w) => (Ok (Ok r, oe), w) | (Err x, w) => (Err x, w) end.
Proof.
  revert o e w. induction p as [r|q k IH]; intros o e w; [done|].
  destruct q; cbn [p_try buffered run]; try (destruct (serve _ _) as [r w']; apply IH).
  all: match goal with s : sink |- _ => destruct s end; cbn [buffered run]; apply IH.
Qed.

Definition same_cells (w w' : world) : Prop := manual w' = manual w ∧ detected w' = detected w.

Definition run_result (command : str) (o e : list Z) : result (option Z) * (list Z * list Z) :=
  match behave command with
  | Some ms => (Ok (status_of ms), (o ++ data_of ms, e ++ extended_of ms))
  | None => (Err "refused", (o, e))
  end.

(** A run that gives [v] and leaves the cells alone. *)
Definition gives {A} (r : result A * world) (v : A) (w : world) : Prop := r.1 = Ok v ∧ same_cells w r.2.

Lemma gives_inv {A} (r : result A * world) v w : gives r v w → ∃ w', r = (Ok v, w') ∧ same_cells w w'.
Proof. destruct r as [r w']. intros [Hr Hw]. cbn in *. subst. by exists w'. Qed.

Lemma run_body channel command stdin o e w :
  gives (run serve (buffered (run_command config fuel channel command stdin) o e) w) (run_result command o e) w.
Proof.
  unfold run_command, run_result. rewrite run_buffered_bind.
  assert (∀ p, p = (if c_agent_forwarding config then
      in_time "SSH agent-forward request timed out" (x (XAgentForward channel (c_channel_request_timeout config)))
    else p_ret tt) → run serve (buffered p o e) w = (Ok (Ok tt, (o, e)), w)) as Hagent
    by (intros p ->; by destruct (c_agent_forwarding config)).
  rewrite (Hagent _ eq_refl), run_buffered_bind. unfold in_time. cbn -[pump buffered serve].
  cbn [buffered run]. cbn [serve]. destruct (behave command) as [ms|] eqn:Hb; cbn [p_bind buffered run p_ret]; [|by split].
  set (w3 := set_pending _ w).
  destruct stdin; cbn [p_bind buffered run p_ret serve]; rewrite run_buffered_bind, (run_pump _ _ ms);
    try (by eapply fuel_enough); try apply lookup_insert_eq; cbn; (split; [by destruct (status_of ms)|done]).
Qed.

Lemma run_raw command stdin o e w :
  gives (run serve (buffered (exec_stream_raw_inner config fuel command stdin) o e) w) (run_result command o e) w.
Proof.
  unfold exec_stream_raw_inner, in_time. rewrite run_buffered_bind. cbn -[with_channel buffered].
  cbn [buffered run serve p_bind p_ret]. unfold with_channel. rewrite run_buffered_bind, run_buffered_try.
  set (w1 := mk_world _ _ _ _). destruct (gives_inv _ _ _ (run_body (next_channel w) command stdin o e w1)) as (w2 & -> & Hw2).
  destruct (run_result command o e) as [[st|er] [o' e']]; by split.
Qed.

Lemma run_probe command w :
  gives (run serve (probe config to_lowercase fuel command) w)
    ((λ ms, (status_of ms, to_lowercase (to_string_lossy (data_of ms)))) <$> behave command) w.
Proof.
  unfold probe, exec_stream_raw. rewrite run_bind. destruct (gives_inv _ _ _ (run_raw command None [] [] w)) as (w' & -> & Hw').
  unfold run_result. by destruct (behave command).
Qed.

Lemma run_detect w : gives (run serve (detect_remote_platform config to_lowercase fuel) w) server_platform w.
Proof.
  unfold detect_remote_platform, server_platform, says. rewrite run_bind.
  destruct (gives_inv _ _ _ (run_probe PROBE_UNAME w)) as (w1 & -> & Hw1).
  assert (Hstep : ∀ {A} (r : result A * world) v, gives r v w1 → gives r v w).
  { intros A r v [? [? ?]]. split; [done|]. destruct Hw1. split; congruence. }
  set (ver := p_bind (probe _ _ _ PROBE_VER) _).
  assert (gives (run serve ver w1) (if
      match behave PROBE_VER with Some ms => exits_well (status_of ms) [] | None => false end ||
      match behave PROBE_VER with Some ms => contains (to_lowercase (to_string_lossy (data_of ms))) (lit "windows") | None => false end ||
      match behave PROBE_POWERSHELL with
      | Some ms => exits_well (status_of ms) [] && contains (to_lowercase (to_string_lossy (data_of ms))) (lit "windows_nt")
      | None => false end then Windows else Unix) w1) as Hver.
  { unfold ver. rewrite run_bind. destruct (gives_inv _ _ _ (run_probe PROBE_VER w1)) as (w2 & -> & Hw2).
    set (ps := p_bind (probe _ _ _ PROBE_POWERSHELL) _).
    assert (gives (run serve ps w2) (if match behave PROBE_POWERSHELL with
      | Some ms => exits_well (status_of ms) [] && contains (to_lowercase (to_string_lossy (data_of ms))) (lit "windows_nt")
      | None => false end then Windows else Unix) w1) as Hps.
    { unfold ps. rewrite run_bind. destruct (gives_inv _ _ _ (run_probe PROBE_POWERSHELL w2)) as (w3 & -> & Hw3).
      assert (same_cells w1 w3) by (destruct Hw2, Hw3; split; congruence).
      destruct (behave PROBE_POWERSHELL) as [ms|]; cbn; [|by split]. unfold exits_well. by destruct (_ && _). }
    destruct (behave PROBE_VER) as [ms|]; cbn [fmap option_fmap option_map]; [|done].
    unfold exits_well at 1. destruct (bool_decide _ || _); cbn [orb]; [by split|done]. }
  destruct (behave PROBE_UNAME) as [ms|]; cbn [fmap option_fmap option_map]; [|cbn; by apply Hstep].
  destruct (windows_like _); cbn [orb]; [by split|]. unfold exits_well at 1. destruct (bool_decide _); cbn; [by split|by apply Hstep].
Qed.

Lemma run_platform w :
  (run serve (remote_platform config to_lowercase fuel) w).1 = Ok (known_platform w).
Proof.
  unfold remote_platform, known_platform. cbn -[detect_remote_platform]. destruct (manual w) as [p|]; cbn -[detect_remote_platform]; [done|].
  destruct (detected w) as [p|]; cbn -[detect_remote_platform]; [done|]. rewrite run_bind.
  by destruct (gives_inv _ _ _ (run_detect w)) as (w1 & -> & _).
Qed.

(** Programs that do not write to the caller's streams. *)
Definition silent (q : exec_request) : Prop := match q with XWrite _ _ | XFlush _ => False | _ => True end.

Lemma buffered_silent {A} (p : exec A) o e : keeps (E := exec_interface) silent (buffered p o e).
Proof.
  unfold keeps. revert o e. induction p as [r|q k IH]; intros o e; [done|].
  destruct q; try (cbn; split; [done|]; intros r [] _; apply IH).
  all: match goal with s : sink |- _ => destruct s end; cbn; apply IH.
Qed.

Lemma run_silent {A} (p : exec A) o e w :
  keeps (E := exec_interface) silent p →
  run serve (buffered p o e) w = let '(r, w') := run serve p w in (Ok (r, (o, e)), w').
Proof.
  unfold keeps. revert w. induction p as [r|q k IH]; intros w Hp; [done|]. destruct Hp as [Ha Hk].
  destruct q; try (cbn [buffered run]; destruct (serve _ _) as [r w']; apply IH; by apply (Hk r tt)); done.
Qed.

Lemma probe_silent command : keeps (E := exec_interface) silent (probe config to_lowercase fuel command).
Proof. unfold probe. apply keeps_bind; [apply buffered_silent|intros; apply keeps_done]. Qed.
Hint Resolve probe_silent : keeps.

Lemma platform_silent : keeps (E := exec_interface) silent (remote_platform config to_lowercase fuel).
Proof. unfold remote_platform, detect_remote_platform, x. keeps; by repeat case_match. Qed.

Lemma run_exec_command command user w :
  (run serve (exec_command config to_lowercase fuel command user) w).1 =
  match command_for_user command user (known_platform w) with
  | Err e => Err e
  | Ok c => match behave c with None => Err "refused" | Some ms => Ok (output_of ms) end
  end.
Proof.
  unfold exec_command, exec_stream. rewrite run_bind, run_buffered_bind, run_silent by apply platform_silent.
  pose proof (run_platform w) as Hp. destruct (run serve (remote_platform _ _ _) w) as [r w']. cbn in Hp. subst r.
  rewrite run_buffered_bind. destruct (command_for_user command user (known_platform w)) as [c|e]; [|done].
  cbn [buffered run p_ret]. rewrite run_buffered_bind. destruct (gives_inv _ _ _ (run_raw c None [] [] w')) as (w2 & Hr & _).
  unfold exec_stream_raw. rewrite Hr. unfold run_result. by destruct (behave c).
Qed.
End server.
Arguments mk_world _ _ _ _.

(** C22: a command run for its output returns exactly what the server sent, however it cut and mixed
    the two streams: all the standard output and all the error output, each in order, and the last
    exit status, or none; the command that is run is the one asked for, or its sudo form, for the
    platform the caller set, the one already detected, or else the one that the three probes tell;
    and sudo towards Windows, or a command that is refused, is an error. *)
Theorem command_output_exact config to_lowercase fuel behave command user w :
  (∀ command ms, behave command = Some ms → (length ms < fuel)%nat) →
  (run (serve behave) (exec_command config to_lowercase fuel command user) w).1 =
  match command_for_user command user (known_platform to_lowercase behave w) with
  | Err e => Err e
  | Ok c => match behave c with None => Err "refused" | Some ms => Ok (output_of ms) end
  end.
Proof. intros Hf. by apply run_exec_command. Qed.

(** Detection asks at most three times and says what the probes say. *)
Theorem detection_exact config to_lowercase fuel behave w :
  (∀ command ms, behave command = Some ms → (length ms < fuel)%nat) →
  (run (serve behave) (detect_remote_platform config to_lowercase fuel) w).1 = Ok (server_platform to_lowercase behave).
Proof. intros Hf. by destruct (gives_inv _ _ _ (run_detect config to_lowercase fuel behave Hf w)) as (w' & -> & _). Qed.

(** A server with PowerShell as its shell. *)
Definition powershell_server (command : str) : option (list ChannelMsg) :=
  if bool_decide (command = PROBE_POWERSHELL) then Some [MsgData (lit "Windows"); MsgData (lit "_NT"); MsgExitStatus 0]
  else if bool_decide (command = lit "hostname") then Some [MsgData (lit "W"); MsgExtendedData (lit "note"); MsgOther; MsgData (lit "1"); MsgExitStatus 0]
  else Some [MsgExtendedData (lit "not recognized"); MsgExitStatus 1].

Lemma powershell_server_short command ms : powershell_server command = Some ms → (length ms < 6)%nat.
Proof. unfold powershell_server. repeat case_bool_decide; intros [= <-]; cbn; lia. Qed.

Lemma command_output_exact_witness :
  (run (serve powershell_server) (exec_command (config_new (lit "h") (lit "u")) to_ascii_lowercase 6 (lit "hostname") Current)
     (mk_world None None 0 ∅)).1 = Ok (mk_output (lit "W1") (lit "note") (Some 0)) ∧
  (run (serve powershell_server) (exec_command (config_new (lit "h") (lit "u")) to_ascii_lowercase 6 (lit "hostname") (Sudo (lit "root")))
     (mk_world None None 0 ∅)).1 = Err "Windows targets do not support sudo privilege switching".
Proof.
  split; (etransitivity; [apply command_output_exact; apply powershell_server_short|vm_compute; reflexivity]).
Defined.

(** ** What a shell forwards *)
Section shell.
Context (channel : nat) (resizing : bool).

(** The requests owed for the last event, and what was seen so far. *)
Record ShellWatch := mk_shell_watch {
  sw_owed : list exec_request; sw_eof : bool; sw_status : option Z; sw_ended : bool; sw_failed : bool }.

Definition owed_for (event : shell_event) : list exec_request :=
  match event with
  | EvInput (Ok []) => [XEof channel]
  | EvInput (Ok data) => [XData channel data]
  | EvResize size => [XWindowChange channel size]
  | EvMessage (Some (MsgData data | MsgExtendedData data)) => [XWrite Out data; XFlush Out]
  | _ => []
  end.

(** What is owed is done at once, in order; otherwise the shell waits, for input only
    as long as its end was not seen. *)
Definition shell_allowed (q : exec_request) (g : ShellWatch) : Prop :=
  sw_failed g = false ∧ sw_ended g = false ∧
  match sw_owed g with owed :: _ => q = owed | [] => q = XSelect channel (negb (sw_eof g)) resizing end.

Definition paid (r : result unit) (g : ShellWatch) : ShellWatch :=
  match r with
  | Ok _ => mk_shell_watch (tail (sw_owed g)) (sw_eof g) (sw_status g) (sw_ended g) (sw_failed g)
  | Err _ => mk_shell_watch (sw_owed g) (sw_eof g) (sw_status g) (sw_ended g) true
  end.
Definition woken (event : shell_event) (g : ShellWatch) : ShellWatch :=
  mk_shell_watch (owed_for event)
    (match event with EvInput (Ok []) => true | _ => sw_eof g end)
    (match event with EvMessage (Some (MsgExitStatus s)) => Some s | _ => sw_status g end)
    (match event with EvMessage None => true | _ => false end)
    (match event with EvInput (Err _) => true | _ => false end).

Definition shell_step (q : exec_request) : exec_answer q → ShellWatch → ShellWatch → Prop :=
  match q with
  | XSelect _ _ _ => λ event g g', g' = woken event g
  | XData _ _ | XEof _ | XWindowChange _ _ | XWrite _ _ | XFlush _ => λ r g g', g' = paid r g
  | _ => λ _ g g', g' = g
  end.
Definition shell_monitor : monitor exec_interface ShellWatch := Monitor (E := exec_interface) shell_allowed shell_step.

Definition shell_result (r : result (option Z)) (g : ShellWatch) : Prop :=
  match r with
  | Ok status => sw_ended g = true ∧ sw_owed g = [] ∧ sw_failed g = false ∧ status = sw_status g
  | Err e => sw_failed g = true ∨ e = "out of fuel"%string
  end.

Lemma shell_loop_wp fuel eof status :
  wp shell_monitor (shell_loop fuel channel resizing (mk_shell eof status)) shell_result (mk_shell_watch [] eof status false false).
Proof.
  revert eof status. induction fuel as [|fuel IH]; intros eof status; cbn [shell_loop]; [by right|].
  unfold shell_turn, x. cbn -[shell_loop]. split; [done|].
  intros [[[|b data]|e]|size|[[data|data|st|]|]] g ->; cbn -[shell_loop]; try apply IH; try (by left); try done;
    (split; [done|]); intros [[]|e] g ->; cbn -[shell_loop]; try apply IH; try (by left);
    (split; [done|]); intros [[]|e'] g ->; cbn -[shell_loop]; try apply IH; by left.
Qed.

(** The events of a shell that ends, and the status it ends with. *)
Definition event_status (status : option Z) (event : shell_event) : option Z :=
  match event with EvMessage (Some (MsgExitStatus s)) => Some s | _ => status end.
Definition goes_on (event : shell_event) : Prop := match event with EvMessage None | EvInput (Err _) => False | _ => True end.

Definition serve_events (q : exec_interface) (w : list shell_event * list exec_request)
    : answer q * (list shell_event * list exec_request) :=
  match q return answer (i := exec_interface) q * (list shell_event * list exec_request) with
  | XSelect _ _ _ => match w.1 with event :: events => (event, (events, w.2)) | [] => (EvMessage None, w) end
  | XData c d => (Ok tt, (w.1, w.2 ++ [XData c d]))
  | XEof c => (Ok tt, (w.1, w.2 ++ [XEof c]))
  | XWindowChange c size => (Ok tt, (w.1, w.2 ++ [XWindowChange c size]))
  | XWrite s d => (Ok tt, (w.1, w.2 ++ [XWrite s d]))
  | XFlush s => (Ok tt, (w.1, w.2 ++ [XFlush s]))
  | XCellGet _ => (None, w)
  | XCellSet _ _ | XClose _ => (tt, w)
  | XWait _ => (None, w)
  | XOpenSession _ | XSftpInit _ _ _ | XAgentForward _ _ | XExec _ _ _ | XRequestShell _ _ | XSubsystem _ _ _ => (None, w)
  | XRequestPty _ _ | XSftpClose _ => (Ok tt, w)
  end.

Lemma run_shell_loop fuel events eof status log :
  (length events < fuel)%nat → Forall goes_on events →
  run serve_events (shell_loop fuel channel resizing (mk_shell eof status)) (events, log) =
  (Ok (foldl event_status status events), ([], log ++ concat (owed_for <$> events))).
Proof.
  revert fuel eof status log. induction events as [|event events IH]; intros [|fuel] eof status log Hlt Hgo; cbn in Hlt; try lia.
  - cbn. by rewrite app_nil_r.
  - inversion_clear Hgo as [|? ? Hev Hgo']. cbn [shell_loop]. unfold shell_turn, x.
    destruct event as [[[|b data]|e]|size|[[data|data|st|]|]]; try done; cbn -[shell_loop];
      (rewrite IH by (done || lia); cbn [event_status]; by rewrite <- ?app_assoc).
Qed.
End shell.

(** C24: a shell forwards both directions in order and loses nothing: each piece of input goes to
    the channel before anything else is waited for, its end exactly once, after which no input is
    read any more; each piece of output is written and flushed at once; each change of size is
    passed on; a failure of either side ends the shell at once; and when the channel is closed the
    result is the last exit status. *)
Theorem shell_forwards fuel channel resizing :
  wp (shell_monitor channel resizing) (shell_loop fuel channel resizing (mk_shell false None)) shell_result
    (mk_shell_watch [] false None false false) ∧
  ∀ events, Forall goes_on events → (length events < fuel)%nat →
    run (serve_events) (shell_loop fuel channel resizing (mk_shell false None)) (events, []) =
    (Ok (foldl event_status None events), ([], concat (owed_for channel <$> events))).
Proof. split; [apply shell_loop_wp|]. intros events Hgo Hlt. by rewrite run_shell_loop. Qed.

Example shell_run :
  run serve_events (shell_loop 9 3 true (mk_shell false None))
    ([EvInput (Ok [108; 115]); EvMessage (Some (MsgData [97])); EvInput (Ok []); EvMessage (Some (MsgExitStatus 2)); EvMessage None], []) =
  (Ok (Some 2), ([], [XData 3 [108; 115]; XWrite Out [97]; XFlush Out; XEof 3])).
Proof. vm_compute. reflexivity. Qed.

(** A refused subsystem leaves the channel open: there is no guard on it. *)
Lemma sftp_failure_leaves_channel_open config o channel :
  validated o = Ok tt →
  run (λ (q : exec_interface) (open : list nat),
         match q return answer (i := exec_interface) q * list nat with
         | XOpenSession _ => (Some (Ok channel), channel :: open)
         | XClose c => (tt, filter (λ c', c' ≠ c) open)
         | XSubsystem _ _ _ => (Some (Err "refused"), open)
         | q => ((serve (λ _, None) q (mk_world None None 0 ∅)).1, open)
         end) (open_sftp_for_transfer config o) [] = (Err "refused", [channel]).
Proof. intros Ho. unfold open_sftp_for_transfer. rewrite Ho. done. Qed.

Lemma shell_forwards_witness :
  run serve_events (shell_loop 3 7 false (mk_shell false None)) ([EvInput (Ok [1]); EvMessage (Some (MsgData [2]))], []) =
  (Ok None, ([], [XData 7 [1]; XWrite Out [2]; XFlush Out])).
Proof. apply (proj2 (shell_forwards 3 7 false)); [by repeat constructor|cbn; lia]. Defined.
