(* ===== verification/Socks.v ===== *)
(** * The SOCKS5 side of a dynamic forward ([crates/kaduox-ssh-core/src/forward.rs])

    The handshake with a local client and the opening of its channel, as a program
    over requests to the client's stream and the SSH session.  Theorems: the
    handshake accepts exactly the CONNECT requests of its grammar and consumes not a
    byte more; every outcome sends exactly its reply; a client is told of success
    only when its channel is open. *)

From stdpp Require Import base list gmap strings numbers sorting.
From Stdlib Require Import Lia.
From S2P Require Import Prelude RustStr StrFacts TransferOps Program.

(** ** Definitions *)

(** *** Addresses as text *)
Definition join_text (sep : str) (l : list str) : str :=
  match l with [] => [] | x :: l => x ++ concat ((λ y, sep ++ y) <$> l) end.

(** [Ipv4Addr::to_string] *)
Definition ipv4_to_string (octets : list Z) : str := join_text (lit ".") (dec_of <$> octets).

Fixpoint segments_of (octets : list Z) : list Z :=
  match octets with hi :: lo :: octets => (hi * 256 + lo) :: segments_of octets | _ => [] end.

(** The first longest run of zero segments, as its start and length; [at_] is the index
    of the head, [cur] the run that ends before it. *)
Fixpoint longest_zeros (l : list Z) (at_ : nat) (cur best : nat * nat) : nat * nat :=
  match l with
  | [] => best
  | s :: l =>
      if s =? 0 then
        let cur := if bool_decide (cur.2 = 0%nat) then (at_, 1%nat) else (cur.1, S cur.2) in
        longest_zeros l (S at_) cur (if bool_decide (best.2 < cur.2)%nat then cur else best)
      else longest_zeros l (S at_) (0%nat, 0%nat) best
  end.

Definition hex_segments (l : list Z) : str := join_text (lit ":") (hex_of <$> l).

(** [Ipv6Addr::to_string]: an IPv4-mapped address shows the IPv4 one; otherwise the
    longest run of more than one zero is left out. *)
Definition ipv6_to_string (octets : list Z) : str :=
  let segments := segments_of octets in
  if bool_decide (take 6 segments = [0; 0; 0; 0; 0; 65535]) then lit "::ffff:" ++ ipv4_to_string (drop 12 octets)
  else
    let '(start, len) := longest_zeros segments 0 (0%nat, 0%nat) (0%nat, 0%nat) in
    if bool_decide (1 < len)%nat then
      hex_segments (take start segments) ++ lit "::" ++ hex_segments (drop (start + len) segments)
    else hex_segments segments.

Record SocksTarget := mk_socks_target { socks_host : str; socks_port : Z }.
#[export] Instance socks_target_eq_dec : EqDecision SocksTarget.
Proof. solve_decision. Defined.

(** *** Requests *)
Inductive socks_request :=
| SkRead (n : nat)                      (* [read_exact], under the handshake's deadline *)
| SkWrite (bytes : list Z)              (* [write_all], under it *)
| SkReply (bytes : list Z)              (* [write_all] after the handshake *)
| SkOpen (host : str) (port : Z)        (* open the channel, under its own deadline *)
| SkCopy (channel : nat).               (* [copy_bidirectional] *)
Definition socks_answer (q : socks_request) : Type :=
  match q with
  | SkRead _ => option (result (list Z))
  | SkWrite _ => option (result unit)
  | SkReply _ | SkCopy _ => result unit
  | SkOpen _ _ => option (result nat)
  end.
Definition socks_interface : interface := Interface socks_request socks_answer.
Abbreviation socks A := (prog socks_interface A).
Definition sk (q : socks_interface) : socks (answer q) := ask q.

(** The deadline cuts the handshake off wherever it waits. *)
Definition before_deadline {A} (p : socks (option (result A))) : socks A :=
  p_bind p (λ answer, Done (match answer with None => Err "SOCKS5 handshake timed out" | Some r => r end)).
Definition read_exact (n : nat) : socks (list Z) := before_deadline (sk (SkRead n)).
Definition write_all (bytes : list Z) : socks unit := before_deadline (sk (SkWrite bytes)).
Definition read_u8 : socks Z := (bytes ⇐ read_exact 1; p_ret (nth 0 bytes 0))%prog.
Definition read_u16 : socks Z := (bytes ⇐ read_exact 2; p_ret (nth 0 bytes 0 * 256 + nth 1 bytes 0))%prog.

Definition socks_reply (code : Z) : list Z := [5; code; 0; 1; 0; 0; 0; 0; 0; 0].

(** [negotiate_socks5_with_timeout] *)
Definition negotiate_socks5 : socks SocksTarget :=
  (version ⇐ read_u8;
   Done (bail_if (negb (version =? 5)) "unsupported SOCKS version") ;;
   method_count ⇐ read_u8;
   Done (bail_if (32 <? method_count) "too many SOCKS auth methods") ;;
   methods ⇐ read_exact (Z.to_nat method_count);
   (if negb (bool_decide (0 ∈ methods)) then
      write_all [5; 255] ;; p_err "SOCKS client does not support no-auth mode"
    else p_ret tt) ;;
   write_all [5; 0] ;;
   request_version ⇐ read_u8;
   Done (bail_if (negb (request_version =? 5)) "invalid SOCKS request version") ;;
   command ⇐ read_u8;
   reserved ⇐ read_u8;
   Done (bail_if (negb (reserved =? 0)) "invalid SOCKS reserved byte") ;;
   (if negb (command =? 1) then write_all (socks_reply 7) ;; p_err "only SOCKS CONNECT is supported" else p_ret tt) ;;
   address_type ⇐ read_u8;
   host ⇐
     (if address_type =? 1 then octets ⇐ read_exact 4; p_ret (ipv4_to_string octets)
      else if address_type =? 3 then
        len ⇐ read_u8;
        Done (bail_if (len =? 0) "empty SOCKS domain") ;;
        bytes ⇐ read_exact (Z.to_nat len);
        Done (with_context (from_utf8 bytes) "SOCKS domain is not UTF-8")
      else if address_type =? 4 then octets ⇐ read_exact 16; p_ret (ipv6_to_string octets)
      else write_all (socks_reply 8) ;; p_err "unsupported SOCKS address type");
   port ⇐ read_u16;
   p_ret (mk_socks_target host port))%prog.

Definition handle_socks5 : socks unit :=
  (target ⇐ negotiate_socks5;
   channel ⇐ sk (SkOpen (socks_host target) (socks_port target));
   match channel with
   | Some (Ok channel) =>
       p_bind (sk (SkReply (socks_reply 0))) Done ;;
       p_bind (sk (SkCopy channel)) Done
   | Some (Err error) => sk (SkReply (socks_reply 5)) ;; p_err error
   | None => sk (SkReply (socks_reply 1)) ;; p_err "SOCKS SSH channel-open request timed out"
   end)%prog.

(** ** The grammar of the handshake *)
Inductive SocksAddress := SocksV4 (octets : list Z) | SocksDomain (name : str) | SocksV6 (octets : list Z).

Definition address_bytes (a : SocksAddress) : list Z :=
  match a with
  | SocksV4 octets => 1 :: octets
  | SocksDomain name => 3 :: str_len name :: utf8 name
  | SocksV6 octets => 4 :: octets
  end.
Definition address_text (a : SocksAddress) : str :=
  match a with SocksV4 octets => ipv4_to_string octets | SocksDomain name => name | SocksV6 octets => ipv6_to_string octets end.
Definition address_ok (a : SocksAddress) : Prop :=
  match a with
  | SocksV4 octets => length octets = 4%nat
  | SocksDomain name => valid_str name ∧ 1 ≤ str_len name ≤ 255
  | SocksV6 octets => length octets = 16%nat
  end.

Definition handshake_bytes (methods : list Z) (a : SocksAddress) (port : Z) : list Z :=
  [5; zlen methods] ++ methods ++ [5; 1; 0] ++ address_bytes a ++ [port / 256; port mod 256].
Definition handshake_ok (methods : list Z) (a : SocksAddress) (port : Z) : Prop :=
  0 ∈ methods ∧ zlen methods ≤ 32 ∧ address_ok a ∧ is_u16 port.

(** *** A client's stream: what it sends, then its end; and what it was sent *)
Record client := mk_sk_client { incoming : list Z; outgoing : list Z }.
Definition serve_client (open : str → Z → option (result nat)) (q : socks_interface) (c : client) : answer q * client :=
  match q return answer (i := socks_interface) q * client with
  | SkRead n =>
      if bool_decide (n ≤ length (incoming c))%nat then (Some (Ok (take n (incoming c))), mk_sk_client (drop n (incoming c)) (outgoing c))
      else (Some (Err "early eof"), mk_sk_client [] (outgoing c))
  | SkWrite bytes => (Some (Ok tt), mk_sk_client (incoming c) (outgoing c ++ bytes))
  | SkReply bytes => (Ok tt, mk_sk_client (incoming c) (outgoing c ++ bytes))
  | SkOpen host port => (open host port, c)
  | SkCopy _ => (Ok tt, c)
  end.

(** ** Lemmas *)
Section client.
Context (open : str → Z → option (result nat)).
Local Abbreviation go p c := (run (serve_client open) p c).

Lemma run_read {A} n (f : list Z → socks A) a b out :
  length a = n → go (p_bind (read_exact n) f) (mk_sk_client (a ++ b) out) = go (f a) (mk_sk_client b out).
Proof.
  intros Hn. cbn -[take drop]. rewrite bool_decide_eq_true_2 by (cbn; rewrite length_app; lia).
  cbn -[take drop]. by rewrite take_app_length', drop_app_length'.
Qed.

Lemma run_read_inv {A} n (f : list Z → socks A) inp out t c :
  go (p_bind (read_exact n) f) (mk_sk_client inp out) = (Ok t, c) →
  ∃ a b, inp = a ++ b ∧ length a = n ∧ go (f a) (mk_sk_client b out) = (Ok t, c).
Proof.
  cbn -[take drop]. case_bool_decide as Hn; cbn -[take drop]; [|done]. intros Hgo. exists (take n inp), (drop n inp).
  rewrite take_drop, length_take. split_and!; [done|lia|done].
Qed.

Lemma run_u8 {A} (f : Z → socks A) z b out : go (p_bind read_u8 f) (mk_sk_client (z :: b) out) = go (f z) (mk_sk_client b out).
Proof. done. Qed.
Lemma run_u8_inv {A} (f : Z → socks A) inp out t c :
  go (p_bind read_u8 f) (mk_sk_client inp out) = (Ok t, c) → ∃ z b, inp = z :: b ∧ go (f z) (mk_sk_client b out) = (Ok t, c).
Proof. destruct inp as [|z b]; [done|]. rewrite run_u8. by exists z, b. Qed.

Lemma run_u16 {A} (f : Z → socks A) hi lo b out :
  go (p_bind read_u16 f) (mk_sk_client (hi :: lo :: b) out) = go (f (hi * 256 + lo)) (mk_sk_client b out).
Proof. done. Qed.
Lemma run_u16_inv {A} (f : Z → socks A) inp out t c :
  go (p_bind read_u16 f) (mk_sk_client inp out) = (Ok t, c) →
  ∃ hi lo b, inp = hi :: lo :: b ∧ go (f (hi * 256 + lo)) (mk_sk_client b out) = (Ok t, c).
Proof. destruct inp as [|hi [|lo b]]; [done..|]. rewrite run_u16. by exists hi, lo, b. Qed.

Lemma run_write {A} bytes (f : unit → socks A) inp out :
  go (p_bind (write_all bytes) f) (mk_sk_client inp out) = go (f tt) (mk_sk_client inp (out ++ bytes)).
Proof. done. Qed.

Lemma run_bail_inv {A} b e (f : unit → socks A) c t c' :
  go (p_bind (Done (bail_if b e)) f) c = (Ok t, c') → b = false ∧ go (f tt) c = (Ok t, c').
Proof. by destruct b. Qed.

(** *** The grammar and the handshake agree *)
Definition parsed (methods : list Z) (a : SocksAddress) (port : Z) (rest : list Z) (t : SocksTarget) (c : client) : Prop :=
  handshake_ok methods a port ∧ t = mk_socks_target (address_text a) port ∧ c = mk_sk_client rest [5; 0].

Lemma negotiate_complete methods a port rest :
  handshake_ok methods a port →
  go negotiate_socks5 (mk_sk_client (handshake_bytes methods a port ++ rest) []) =
  (Ok (mk_socks_target (address_text a) port), mk_sk_client rest [5; 0]).
Proof.
  intros (Hin & Hlen & Ha & Hport). unfold is_u16, u16_max in Hport. unfold negotiate_socks5, handshake_bytes. rewrite <- !app_assoc. cbn [app].
  rewrite run_u8. change (negb (5 =? 5)) with false. cbn [bail_if p_bind]. rewrite run_u8.
  rewrite (proj2 (Z.ltb_ge 32 (zlen methods))) by lia. cbn [bail_if p_bind].
  rewrite run_read by lia. rewrite bool_decide_eq_true_2 by done. cbn [negb p_bind p_ret].
  rewrite run_write, run_u8. cbn [negb Z.eqb Pos.eqb p_bind p_ret bail_if app].
  rewrite !run_u8. cbn [negb Z.eqb Pos.eqb p_bind p_ret bail_if].
  assert (∀ b, go (port ⇐ read_u16; p_ret (mk_socks_target b port))%prog (mk_sk_client (port / 256 :: port mod 256 :: rest) [5; 0]) =
    (Ok (mk_socks_target b port), mk_sk_client rest [5; 0])) as Hend.
  { intros b. rewrite run_u16. cbn [p_ret run]. do 3 f_equal. pose proof (Z_div_mod_eq_full port 256). lia. }
  destruct a as [octets|name|octets]; cbn [address_bytes app address_text] in *; rewrite run_u8;
    cbn [Z.eqb Pos.eqb]; rewrite run_bind.
  - rewrite run_read by done. cbn [run p_ret]. apply Hend.
  - destruct Ha as [Hv Hn]. cbn [Pos.eqb]. rewrite run_u8, (proj2 (Z.eqb_neq _ 0)) by lia. cbn [bail_if p_bind].
    rewrite run_read by (rewrite <- length_utf8; lia). rewrite from_utf8_utf8 by done. cbn [run with_context]. apply Hend.
  - rewrite run_read by done. cbn [run p_ret]. apply Hend.
Qed.

Lemma u16_bytes hi lo : is_u8 hi → is_u8 lo → let port := hi * 256 + lo in is_u16 port ∧ [port / 256; port mod 256] = [hi; lo].
Proof.
  intros H1 H2 port. unfold is_u8, is_u16, u8_max, u16_max in *. split; [lia|].
  assert (port / 256 = hi) as -> by (symmetry; apply (Z.div_unique _ _ _ lo); lia).
  assert (port mod 256 = lo) as -> by (symmetry; apply (Z.mod_unique _ _ hi); lia). done.
Qed.

Lemma negotiate_sound inp t c :
  Forall is_u8 inp → go negotiate_socks5 (mk_sk_client inp []) = (Ok t, c) →
  ∃ methods a port rest, inp = handshake_bytes methods a port ++ rest ∧ parsed methods a port rest t c.
Proof.
  intros Hu8 Hgo. unfold negotiate_socks5 in Hgo.
  apply run_u8_inv in Hgo as (v & b & -> & Hgo). apply run_bail_inv in Hgo as [Hv Hgo].
  apply run_u8_inv in Hgo as (n & b' & -> & Hgo). apply run_bail_inv in Hgo as [Hn Hgo].
  apply run_read_inv in Hgo as (methods & b & -> & Hmethods & Hgo).
  case_bool_decide as Hin; cbn [negb] in Hgo; [|done]. cbn [p_bind p_ret] in Hgo. rewrite run_write in Hgo.
  apply run_u8_inv in Hgo as (v' & b' & -> & Hgo). apply run_bail_inv in Hgo as [Hv' Hgo].
  apply run_u8_inv in Hgo as (command & b & -> & Hgo). apply run_u8_inv in Hgo as (reserved & b' & -> & Hgo).
  apply run_bail_inv in Hgo as [Hres Hgo]. destruct (command =? 1) eqn:Hcmd; cbn [negb p_bind p_ret] in Hgo; [|done].
  apply run_u8_inv in Hgo as (kind & b & -> & Hgo).
  to_prop. subst v v' command reserved.
  repeat (rewrite ?Forall_cons, ?Forall_app in Hu8). destruct Hu8 as (_ & Hn8 & Hm8 & _ & _ & _ & Hk8 & Hb8).
  assert (n = zlen methods) as -> by (unfold is_u8 in Hn8; lia).
  assert (∀ host b, go (port ⇐ read_u16; p_ret (mk_socks_target host port))%prog (mk_sk_client b ([] ++ [5; 0])) = (Ok t, c) →
    Forall is_u8 b → ∃ port rest, is_u16 port ∧ b = [port / 256; port mod 256] ++ rest ∧ t = mk_socks_target host port ∧ c = mk_sk_client rest [5; 0])
    as Hend.
  { intros host b0 H Hb0. apply run_u16_inv in H as (hi & lo & rest & -> & [= <- <-]).
    rewrite !Forall_cons in Hb0. destruct Hb0 as (H1 & H2 & _). destruct (u16_bytes hi lo H1 H2) as [Hp Heq].
    exists (hi * 256 + lo), rest. split_and!; [done| |done|done]. by rewrite Heq. }
  rewrite run_bind in Hgo.
  destruct (kind =? 1) eqn:Hk1; [|destruct (kind =? 3) eqn:Hk3; [|destruct (kind =? 4) eqn:Hk4; [|done]]].
  - apply Z.eqb_eq in Hk1 as ->. destruct (go _ _) as [[host|e] c0] eqn:Hhost in Hgo; [|done].
    apply run_read_inv in Hhost as (octets & b' & -> & Ho & [= <- <-]). apply Forall_app in Hb8 as [Ho8 Hb8].
    destruct (Hend _ _ Hgo Hb8) as (port & rest & Hp & -> & -> & ->). exists methods, (SocksV4 octets), port, rest.
    split; [|by split_and!]. unfold handshake_bytes. by rewrite <- !app_assoc.
  - apply Z.eqb_eq in Hk3 as ->. destruct (go _ _) as [[host|e] c0] eqn:Hhost in Hgo; [|done].
    apply run_u8_inv in Hhost as (len & b' & -> & Hhost). apply run_bail_inv in Hhost as [Hlen Hhost].
    apply run_read_inv in Hhost as (name & b & -> & Hname & Hhost). apply Z.eqb_neq in Hlen.
    apply Forall_cons in Hb8 as [Hl8 [_ Hb8]%Forall_app]. unfold is_u8, u8_max in Hl8.
    destruct (from_utf8 name) as [s|] eqn:Hs; cbn in Hhost; [|done]. injection Hhost as <- <-.
    destruct (utf8_from_utf8 _ _ Hs) as [<- Hvalid].
    destruct (Hend _ _ Hgo Hb8) as (port & rest & Hp & -> & -> & ->). exists methods, (SocksDomain s), port, rest.
    assert (len = str_len s) as -> by (rewrite <- length_utf8; lia).
    split; [unfold handshake_bytes; by rewrite <- !app_assoc|]. split; [|by split].
    unfold handshake_ok, address_ok. split_and!; try done; lia.
  - apply Z.eqb_eq in Hk4 as ->. destruct (go _ _) as [[host|e] c0] eqn:Hhost in Hgo; [|done].
    apply run_read_inv in Hhost as (octets & b' & -> & Ho & [= <- <-]). apply Forall_app in Hb8 as [Ho8 Hb8].
    destruct (Hend _ _ Hgo Hb8) as (port & rest & Hp & -> & -> & ->). exists methods, (SocksV6 octets), port, rest.
    split; [|by split_and!]. unfold handshake_bytes. by rewrite <- !app_assoc.
Qed.
End client.

(** ** What a client is told *)
Record SocksWatch := mk_socks_watch { sw_sent : list (list Z); sw_open : option (option (result nat)) }.

(** The reply that an attempt to open the channel calls for. *)
Definition reply_for (outcome : option (result nat)) : list Z :=
  match outcome with Some (Ok _) => socks_reply 0 | Some (Err _) => socks_reply 5 | None => socks_reply 1 end.

Definition socks_allowed (q : socks_request) (g : SocksWatch) : Prop :=
  match q with
  | SkRead n => (n ≤ 255)%nat ∧ sw_open g = None ∧ (sw_sent g = [] ∨ sw_sent g = [[5; 0]])
  | SkWrite bytes =>
      sw_open g = None ∧
      (sw_sent g = [] ∧ bytes ∈ [[5; 0]; [5; 255]] ∨ sw_sent g = [[5; 0]] ∧ bytes ∈ [socks_reply 7; socks_reply 8])
  | SkOpen _ _ => sw_open g = None ∧ sw_sent g = [[5; 0]]
  | SkReply bytes => sw_sent g = [[5; 0]] ∧ ∃ outcome, sw_open g = Some outcome ∧ bytes = reply_for outcome
  | SkCopy channel => sw_open g = Some (Some (Ok channel)) ∧ sw_sent g = [[5; 0]; socks_reply 0]
  end.
Definition socks_step (q : socks_request) : socks_answer q → SocksWatch → SocksWatch → Prop :=
  match q with
  | SkRead n => λ r g g', g' = g ∧ match r with Some (Ok bytes) => length bytes = n ∧ Forall is_u8 bytes | _ => True end
  | SkWrite bytes => λ _ g g', g' = mk_socks_watch (sw_sent g ++ [bytes]) (sw_open g)
  | SkReply bytes => λ _ g g', g' = mk_socks_watch (sw_sent g ++ [bytes]) (sw_open g)
  | SkOpen _ _ => λ r g g', g' = mk_socks_watch (sw_sent g) (Some r)
  | SkCopy _ => λ _ g g', g' = g
  end.
Definition socks_monitor : monitor socks_interface SocksWatch := Monitor (E := socks_interface) socks_allowed socks_step.

Lemma wp_read {A} n (f : list Z → socks A) (Q : result A → SocksWatch → Prop) g :
  socks_allowed (SkRead n) g → (∀ e, Q (Err e) g) →
  (∀ bytes, length bytes = n → Forall is_u8 bytes → wp socks_monitor (f bytes) Q g) →
  wp socks_monitor (p_bind (read_exact n) f) Q g.
Proof. intros Ha He Hf. cbn. split; [done|]. intros [[bytes|e]|] g' [-> Hb]; cbn; [|by apply He..]. destruct Hb. by apply Hf. Qed.

Lemma wp_u8 {A} (f : Z → socks A) (Q : result A → SocksWatch → Prop) g :
  socks_allowed (SkRead 1) g → (∀ e, Q (Err e) g) → (∀ z, is_u8 z → wp socks_monitor (f z) Q g) →
  wp socks_monitor (p_bind read_u8 f) Q g.
Proof.
  intros Ha He Hf. unfold read_u8. rewrite wp_bind. apply wp_read; [done..|]. intros [|z [|]] [=] [Hz _]%Forall_cons. by apply Hf.
Qed.

Lemma wp_write {A} bytes (f : unit → socks A) (Q : result A → SocksWatch → Prop) g :
  let g' := mk_socks_watch (sw_sent g ++ [bytes]) (sw_open g) in
  socks_allowed (SkWrite bytes) g → (∀ e, Q (Err e) g') → wp socks_monitor (f tt) Q g' →
  wp socks_monitor (p_bind (write_all bytes) f) Q g.
Proof. intros g' Ha He Hf. cbn. split; [done|]. intros [[[]|e]|] g'' ->; cbn; [exact Hf|apply He..]. Qed.

Definition told (r : result unit) (g : SocksWatch) : Prop :=
  (r = Ok tt → ∃ channel, sw_open g = Some (Some (Ok channel)) ∧ sw_sent g = [[5; 0]; socks_reply 0]) ∧
  (∀ outcome, sw_open g = Some outcome → sw_sent g = [[5; 0]; reply_for outcome]).

Lemma negotiate_told :
  wp socks_monitor negotiate_socks5
    (λ r g, sw_open g = None ∧ match r with Ok _ => sw_sent g = [[5; 0]] | Err _ => True end) (mk_socks_watch [] None).
Proof.
  unfold negotiate_socks5. apply wp_u8; [by cbn; auto with lia|done|]. intros v _. rewrite ?wp_done_bind.
  destruct (negb (v =? 5)); [done|]. cbn [bail_if]. apply wp_u8; [by cbn; auto with lia|done|]. intros n _. rewrite ?wp_done_bind.
  destruct (32 <? n) eqn:Hn; [done|]. cbn [bail_if]. to_prop. apply wp_read; [by cbn; auto with lia|done|]. intros methods _ _.
  case_bool_decide; cbn [negb p_bind p_ret].
  2:{ rewrite wp_bind. apply wp_write; [|done|done]. split; [done|]. left. split; [done|set_solver]. }
  apply wp_write; [split; [done|]; left; split; [done|set_solver]|done|]. cbn [sw_sent sw_open app].
  set (g := mk_socks_watch [[5; 0]] None).
  assert (∀ n, (n ≤ 255)%nat → socks_allowed (SkRead n) g) as Hread by (intros; cbn; auto).
  apply wp_u8; [apply Hread; lia|done|]. intros v' _. rewrite ?wp_done_bind. destruct (negb (v' =? 5)); [done|]. cbn [bail_if].
  apply wp_u8; [apply Hread; lia|done|]. intros command _. apply wp_u8; [apply Hread; lia|done|]. intros reserved _.
  rewrite ?wp_done_bind. destruct (negb (reserved =? 0)); [done|]. cbn [bail_if].
  destruct (negb (command =? 1)).
  { rewrite wp_bind. apply wp_write; [|done|done]. split; [done|]. right. split; [done|set_solver]. }
  cbn [p_bind p_ret]. apply wp_u8; [apply Hread; lia|done|]. intros kind _. rewrite wp_bind.
  assert (∀ host, wp socks_monitor (port ⇐ read_u16; p_ret (mk_socks_target host port))%prog
    (λ r g, sw_open g = None ∧ match r with Ok _ => sw_sent g = [[5; 0]] | Err _ => True end) g) as Hport.
  { intros host. unfold read_u16. rewrite wp_bind. apply wp_read; [apply Hread; lia|done|]. done. }
  destruct (kind =? 1); [apply wp_read; [apply Hread; lia|done|]; intros; apply Hport|].
  destruct (kind =? 3).
  { apply wp_u8; [apply Hread; lia|done|]. intros len Hlen. rewrite ?wp_done_bind. destruct (len =? 0); [done|]. cbn [bail_if].
    unfold is_u8, u8_max in Hlen. apply wp_read; [apply Hread; lia|done|]. intros bytes _ _.
    destruct (from_utf8 bytes); cbn [with_context]; [apply Hport|done]. }
  destruct (kind =? 4); [apply wp_read; [apply Hread; lia|done|]; intros; apply Hport|].
  apply wp_write; [|done|done]. split; [done|]. right. split; [done|set_solver].
Qed.

(** ** Theorems *)

(** The handshake of the SOCKS5 listener accepts exactly the requests of its grammar: a greeting
    that offers to go without authentication among at most 32 methods, and a CONNECT to an IPv4
    address, an IPv6 address or a non-empty UTF-8 name; it returns that address as text and that
    port, answers with the two bytes of the chosen method, and consumes the request to its last byte
    and nothing of what follows it. *)
Theorem socks_handshake_exact open inp t c :
  Forall is_u8 inp →
  run (serve_client open) negotiate_socks5 (mk_sk_client inp []) = (Ok t, c) ↔
  ∃ methods a port rest, inp = handshake_bytes methods a port ++ rest ∧ handshake_ok methods a port ∧
    t = mk_socks_target (address_text a) port ∧ c = mk_sk_client rest [5; 0].
Proof.
  intros Hu8. split.
  - intros Hgo. by apply (negotiate_sound open).
  - intros (methods & a & port & rest & -> & Hok & -> & ->). by apply negotiate_complete.
Qed.

Lemma socks_handshake_exact_witness :
  run (serve_client (λ _ _, None)) negotiate_socks5
    (mk_sk_client ([5; 2; 2; 0; 5; 1; 0; 3; 11] ++ utf8 (lit "example.com") ++ [0; 80; 71]) []) =
  (Ok (mk_socks_target (lit "example.com") 80), mk_sk_client [71] [5; 0]).
Proof.
  apply socks_handshake_exact; [decide_now|]. exists [2; 0], (SocksDomain (lit "example.com")), 80, [71].
  split_and!; [reflexivity| |reflexivity..]. unfold handshake_ok, address_ok, is_u16, u16_max.
  split_and!; [set_solver|cbn; lia|decide_now|vm_compute; congruence..].
Defined.

(** A SOCKS client is told what happened, once: whatever it sends and whatever the server
    answers, it gets the method reply first, then at most one more: the refusal that its request
    calls for, or, when a channel was asked for, the reply for that channel's outcome; success only
    after the channel is open, and data only after that; and the reads are for 255 bytes at most. *)
Theorem socks_client_is_told : wp socks_monitor handle_socks5 told (mk_socks_watch [] None).
Proof.
  unfold handle_socks5. rewrite wp_bind. eapply wp_mono; [apply negotiate_told|].
  intros [target|e] [sent o]; cbn [sw_open sw_sent]; intros [-> Hsent]; [|by split]. subst sent.
  cbn. split; [done|]. intros [[channel|e]|] g ->; cbn; (split; [split; [done|by eexists]|]);
    intros [[]|e'] g ->; cbn; try (split; [done|by intros ? [= <-]]).
  split; [done|]. intros [[]|e'] g ->; (split; [|by intros ? [= <-]]); [intros _; by exists channel|done].
Qed.

Example ipv6_text :
  ipv6_to_string [32; 1; 13; 184; 0; 0; 0; 0; 0; 0; 0; 0; 0; 0; 0; 1] = lit "2001:db8::1" ∧
  ipv6_to_string [0; 0; 0; 0; 0; 0; 0; 0; 0; 0; 255; 255; 127; 0; 0; 1] = lit "::ffff:127.0.0.1" ∧
  ipv6_to_string [0; 1; 0; 0; 0; 2; 0; 3; 0; 4; 0; 5; 0; 6; 0; 7] = lit "1:0:2:3:4:5:6:7" ∧
  ipv6_to_string (replicate 16 0) = lit "::" ∧
  ipv6_to_string [0; 1; 0; 0; 0; 0; 0; 2; 0; 0; 0; 0; 0; 3; 0; 4] = lit "1::2:0:0:3:4".
Proof. repeat split. Qed.
