(* ===== verification/Forward.v ===== *)
(** * Port forwarding
      ([crates/kaduox-ssh-core/src/forward.rs], and the channels that a server opens,
       [handler.rs])

    The routes of remote forwards, the channels that the server opens towards them or
    towards the agent, with their slots; the accept loops of local and dynamic
    listeners; and the handle of a remote forward.  Theorems: a channel is routed only
    where a registration says; slots bound the work in every interleaving and every
    channel is answered once; a listener survives all but ten failures in a row; and a
    route is gone before its cancellation is asked for. *)

From stdpp Require Import base list gmap strings numbers sorting fin_maps.
From Stdlib Require Import Lia.
From S2P Require Import Prelude RustStr Program.

(** ** Definitions *)
Definition MAX_SERVER_INITIATED_FORWARD_CHANNELS : nat := 128.
Definition MAX_ACTIVE_FORWARD_CONNECTIONS : nat := 256.

Record ForwardTarget := mk_forward_target { ft_host : str; ft_port : Z }.
#[export] Instance forward_target_eq_dec : EqDecision ForwardTarget.
Proof. solve_decision. Defined.

Abbreviation Routes := (gmap (str * Z) ForwardTarget).

Definition register_route (bind_address : str) (bind_port : Z) (target : ForwardTarget) (routes : Routes) : Routes :=
  <[(bind_address, bind_port) := target]> routes.
Definition unregister_route (bind_address : str) (bind_port : Z) (routes : Routes) : Routes :=
  delete (bind_address, bind_port) routes.

Definition is_wildcard_bind (address : str) : bool := bool_decide (address = []) || bool_decide (address = lit "*").

(** [order] is the order in which the hash map is iterated. *)
Definition remote_forward (order : list (str * Z * ForwardTarget)) (routes : Routes) (address : str) (port : Z)
    : option ForwardTarget :=
  match routes !! (address, port) with
  | Some target => Some target
  | None =>
      '(_, e) ← list_find (λ e : str * Z * ForwardTarget, (e.1.2 =? port) && is_wildcard_bind e.1.1 = true) order; Some e.2
  end.

(** *** Channels that the server opens *)
Inductive channel_reply := Accepted | Prohibited | ResourceShortage | ConnectFailed.
#[export] Instance channel_reply_eq_dec : EqDecision channel_reply.
Proof. solve_decision. Defined.

Inductive channel_task := ConnectingTo (target : ForwardTarget) | ConnectingToAgent | Streaming.
Definition connecting (t : channel_task) : bool := match t with Streaming => false | _ => true end.

Record HandlerState := mk_handler_state {
  hs_routes : Routes;
  hs_agent_forwarding : bool;
  hs_slots : nat;                              (* free permits of [server_forward_slots] *)
  hs_tasks : gmap nat channel_task;            (* spawned tasks, each with its permit *)
  hs_replies : list (nat * channel_reply);
  hs_next : nat;
}.

Definition with_agent_forwarding (agent_forwarding : bool) : HandlerState :=
  mk_handler_state ∅ agent_forwarding MAX_SERVER_INITIATED_FORWARD_CHANNELS ∅ [] 0.

Definition set_routes (routes : Routes) (s : HandlerState) : HandlerState :=
  mk_handler_state routes (hs_agent_forwarding s) (hs_slots s) (hs_tasks s) (hs_replies s) (hs_next s).

Definition reply_now (reply : channel_reply) (s : HandlerState) : HandlerState :=
  mk_handler_state (hs_routes s) (hs_agent_forwarding s) (hs_slots s) (hs_tasks s) (hs_replies s ++ [(hs_next s, reply)])
    (S (hs_next s)).

(** [try_acquire_server_forward_slot], and the task that keeps the permit. *)
Definition spawn_with_slot (t : channel_task) (s : HandlerState) : HandlerState :=
  match hs_slots s with
  | O => reply_now ResourceShortage s
  | S slots =>
      mk_handler_state (hs_routes s) (hs_agent_forwarding s) slots (<[hs_next s := t]> (hs_tasks s)) (hs_replies s) (S (hs_next s))
  end.

Definition server_channel_open_forwarded_tcpip (order : list (str * Z * ForwardTarget)) (address : str) (port : Z)
    (s : HandlerState) : HandlerState :=
  match remote_forward order (hs_routes s) address port with
  | None => reply_now Prohibited s
  | Some target => spawn_with_slot (ConnectingTo target) s
  end.

(** [socket] says whether [SSH_AUTH_SOCK] is set; the slot is returned when it is not. *)
Definition server_channel_open_agent_forward (socket : bool) (s : HandlerState) : HandlerState :=
  if negb (hs_agent_forwarding s) then reply_now Prohibited s
  else if negb socket && bool_decide (hs_slots s ≠ 0%nat) then reply_now ConnectFailed s
  else spawn_with_slot ConnectingToAgent s.

(** The local side is connected, or is not in time. *)
Definition local_connected (channel : nat) (ok : bool) (s : HandlerState) : option HandlerState :=
  match hs_tasks s !! channel with
  | Some t =>
      if negb (connecting t) then None
      else if ok then
        Some (mk_handler_state (hs_routes s) (hs_agent_forwarding s) (hs_slots s) (<[channel := Streaming]> (hs_tasks s))
                (hs_replies s ++ [(channel, Accepted)]) (hs_next s))
      else
        Some (mk_handler_state (hs_routes s) (hs_agent_forwarding s) (S (hs_slots s)) (delete channel (hs_tasks s))
                (hs_replies s ++ [(channel, ConnectFailed)]) (hs_next s))
  | None => None
  end.

Definition stream_ended (channel : nat) (s : HandlerState) : option HandlerState :=
  match hs_tasks s !! channel with
  | Some Streaming =>
      Some (mk_handler_state (hs_routes s) (hs_agent_forwarding s) (S (hs_slots s)) (delete channel (hs_tasks s))
              (hs_replies s) (hs_next s))
  | _ => None
  end.

Inductive forward_label :=
| RegisterRoute (address : str) (port : Z) (target : ForwardTarget)
| UnregisterRoute (address : str) (port : Z)
| OpenForwarded (order : list (str * Z * ForwardTarget)) (address : str) (port : Z)
| OpenAgent (socket : bool)
| LocalConnected (channel : nat) (ok : bool)
| StreamEnded (channel : nat).

Definition forward_step (l : forward_label) (s : HandlerState) : option HandlerState :=
  match l with
  | RegisterRoute address port target => Some (set_routes (register_route address port target (hs_routes s)) s)
  | UnregisterRoute address port => Some (set_routes (unregister_route address port (hs_routes s)) s)
  | OpenForwarded order address port => Some (server_channel_open_forwarded_tcpip order address port s)
  | OpenAgent socket => Some (server_channel_open_agent_forward socket s)
  | LocalConnected channel ok => local_connected channel ok s
  | StreamEnded channel => stream_ended channel s
  end.
Fixpoint forward_run (ls : list forward_label) (s : HandlerState) : option HandlerState :=
  match ls with [] => Some s | l :: ls => forward_step l s ≫= forward_run ls end.

(** *** Local listeners, plain and SOCKS5 *)
Definition MAX_ACCEPT_ERRORS : nat := 10.
Record Listener := mk_listener { ln_errors : nat; ln_slots : nat; ln_active : nat; ln_running : bool }.
Definition listener_new : Listener := mk_listener 0 MAX_ACTIVE_FORWARD_CONNECTIONS 0 true.

Inductive listener_event := AcceptOk | AcceptFailed | ConnectionEnded | ListenerClosed.
#[export] Instance listener_event_eq_dec : EqDecision listener_event.
Proof. solve_decision. Defined.

(** One turn of the loop, the end of a stream, or the abort of the task: the streams
    that were accepted are tasks of their own. *)
Definition listener_step (l : Listener) (e : listener_event) : Listener :=
  match e with
  | ConnectionEnded =>
      match ln_active l with
      | O => l
      | S active => mk_listener (ln_errors l) (S (ln_slots l)) active (ln_running l)
      end
  | ListenerClosed => mk_listener (ln_errors l) (ln_slots l) (ln_active l) false
  | AcceptOk =>
      if negb (ln_running l) then l
      else match ln_slots l with
           | O => mk_listener 0 0 (ln_active l) true
           | S slots => mk_listener 0 slots (S (ln_active l)) true
           end
  | AcceptFailed =>
      if negb (ln_running l) then l
      else mk_listener (S (ln_errors l)) (ln_slots l) (ln_active l) (bool_decide (S (ln_errors l) < MAX_ACCEPT_ERRORS)%nat)
  end.

(** *** The registration of a remote forward *)
Record RemoteForward := mk_remote_forward { rw_bind_address : str; rw_bind_port : Z; rw_target : ForwardTarget }.
Record RemoteForwardHandle := mk_forward_handle { fh_bind_address : str; fh_bind_port : Z; fh_active : bool }.

Inductive route_request :=
| RtRequest (bind_address : str) (bind_port : Z)      (* [tcpip_forward], under a deadline *)
| RtCancel (bind_address : str) (bind_port : Z)       (* [cancel_tcpip_forward], under a deadline *)
| RtInsert (bind_address : str) (bind_port : Z) (target : ForwardTarget)
| RtRemove (bind_address : str) (bind_port : Z)
| RtRuntime.                                          (* whether a runtime can run a task *)
Definition route_answer (q : route_request) : Type :=
  match q with
  | RtRequest _ _ => option (result Z)
  | RtCancel _ _ => option (result unit)
  | RtInsert _ _ _ | RtRemove _ _ => unit
  | RtRuntime => bool
  end.
Definition route_interface : interface := Interface route_request route_answer.
Abbreviation routing A := (prog route_interface A).
Definition rt (q : route_interface) : routing (answer q) := ask q.

Definition register_remote_forward (spec : RemoteForward) : routing (str * Z) :=
  (answer ⇐ rt (RtRequest (rw_bind_address spec) (rw_bind_port spec));
   allocated ⇐ Done (match answer with None => Err "remote forwarding request timed out" | Some r => r end);
   actual_port ⇐ Done (if rw_bind_port spec =? 0 then
                         with_context (try_from u16_max allocated) "server allocated an invalid remote port"
                       else Ok (rw_bind_port spec));
   rt (RtInsert (rw_bind_address spec) actual_port (rw_target spec)) ;;
   p_ret (rw_bind_address spec, actual_port))%prog.

Definition start_remote_forward (spec : RemoteForward) : routing Z :=
  (bound ⇐ register_remote_forward spec; p_ret bound.2)%prog.

Definition start_remote_forward_managed (spec : RemoteForward) : routing RemoteForwardHandle :=
  (bound ⇐ register_remote_forward spec; p_ret (mk_forward_handle bound.1 bound.2 true))%prog.

Definition cancel_remote_forward_registration (bind_address : str) (bind_port : Z) : routing unit :=
  (rt (RtRemove bind_address bind_port) ;;
   answer ⇐ rt (RtCancel bind_address bind_port);
   Done (match answer with None => Err "remote forwarding cancellation request timed out" | Some r => r end))%prog.

(** [close] takes the handle, and drops what is left of it. *)
Definition drop_handle (h : RemoteForwardHandle) : routing unit :=
  if negb (fh_active h) then p_ret tt
  else
    (runtime ⇐ rt RtRuntime;
     if (runtime : bool) then p_try (cancel_remote_forward_registration (fh_bind_address h) (fh_bind_port h)) ;; p_ret tt
     else p_ret tt)%prog.
Definition close_handle (h : RemoteForwardHandle) : routing unit :=
  let h := mk_forward_handle (fh_bind_address h) (fh_bind_port h) false in
  (r ⇐ p_try (cancel_remote_forward_registration (fh_bind_address h) (fh_bind_port h));
   drop_handle h ;;
   Done r)%prog.

(** ** Lemmas *)
Lemma wildcard_spec address : is_wildcard_bind address = true ↔ address = [] ∨ address = lit "*".
Proof. unfold is_wildcard_bind. by rewrite orb_true_iff, !bool_decide_eq_true. Qed.

(** What a channel for [address] and [port] may be routed to. *)
Definition routed (routes : Routes) (address : str) (port : Z) (target : ForwardTarget) : Prop :=
  routes !! (address, port) = Some target ∨
  routes !! (address, port) = None ∧ ∃ wildcard, (wildcard = [] ∨ wildcard = lit "*") ∧ routes !! (wildcard, port) = Some target.

Lemma remote_forward_some order routes address port target :
  order ≡ₚ map_to_list routes → remote_forward order routes address port = Some target → routed routes address port target.
Proof.
  intros Horder. unfold remote_forward. destruct (routes !! (address, port)) as [t|] eqn:Hr; [intros [= ->]; by left|].
  destruct (list_find _ order) as [[i [[a p] t]]|] eqn:Hf; cbn; [|done]. intros [= ->].
  apply list_find_Some in Hf as (Hi & Hw & _). cbn in Hw. apply andb_true_iff in Hw as [Hp%Z.eqb_eq Hw%wildcard_spec]. subst p.
  right. split; [done|]. exists a. split; [done|]. apply elem_of_map_to_list. rewrite <- Horder. by eapply list_elem_of_lookup_2.
Qed.

Lemma remote_forward_none order routes address port :
  order ≡ₚ map_to_list routes → remote_forward order routes address port = None → ∀ target, ¬ routed routes address port target.
Proof.
  intros Horder. unfold remote_forward. destruct (routes !! (address, port)) as [t|] eqn:Hr; [done|].
  destruct (list_find _ order) as [[i e]|] eqn:Hf; cbn; [done|]. intros _ target [Ht|(_ & w & Hw & Ht)]; [congruence|].
  apply list_find_None in Hf. rewrite Forall_forall in Hf.
  apply (Hf (w, port, target)); [rewrite Horder; by apply elem_of_map_to_list|]. cbn.
  rewrite Z.eqb_refl. by apply wildcard_spec.
Qed.

(** *** Slots and replies *)
Definition replied (s : HandlerState) : list nat := (hs_replies s).*1.
Definition waiting (s : HandlerState) (channel : nat) : Prop :=
  ∃ t, hs_tasks s !! channel = Some t ∧ connecting t = true.

Record handler_ok (s : HandlerState) : Prop := {
  ho_slots : (hs_slots s + size (hs_tasks s) = MAX_SERVER_INITIATED_FORWARD_CHANNELS)%nat;
  ho_nodup : NoDup (replied s);
  ho_fresh : ∀ channel, is_Some (hs_tasks s !! channel) ∨ channel ∈ replied s → (channel < hs_next s)%nat;
  ho_waiting : ∀ channel, waiting s channel → channel ∉ replied s;
  ho_answered : ∀ channel, (channel < hs_next s)%nat → channel ∈ replied s ∨ waiting s channel;
  ho_streaming : ∀ channel, hs_tasks s !! channel = Some Streaming → (channel, Accepted) ∈ hs_replies s;
}.

Lemma handler_new_ok agent : handler_ok (with_agent_forwarding agent).
Proof.
  assert (∀ (channel : nat) (t : channel_task), ¬ (∅ : gmap nat channel_task) !! channel = Some t) as Hempty
    by (intros channel t; by rewrite lookup_empty).
  split; [done|constructor|..]; unfold replied, waiting; cbn [hs_tasks hs_replies hs_next with_agent_forwarding fmap list_fmap].
  - intros channel [[t Ht]|Hin]; [by destruct (Hempty _ _ Ht)|by apply elem_of_nil in Hin].
  - intros channel (t & Ht & _). by destruct (Hempty _ _ Ht).
  - intros channel. lia.
  - intros channel Ht. by destruct (Hempty _ _ Ht).
Qed.

Lemma set_routes_ok routes s : handler_ok s → handler_ok (set_routes routes s).
Proof. by intros []. Qed.

Lemma replied_snoc s channel reply : (hs_replies s ++ [(channel, reply)]).*1 = replied s ++ [channel].
Proof. unfold replied. by rewrite fmap_app. Qed.

Lemma next_fresh s : handler_ok s → hs_tasks s !! hs_next s = None ∧ hs_next s ∉ replied s.
Proof.
  intros Hok. split.
  - destruct (hs_tasks s !! hs_next s) eqn:Ht; [|done]. exfalso. pose proof (ho_fresh s Hok (hs_next s)).
    assert (hs_next s < hs_next s)%nat by (apply H; left; by eexists). lia.
  - intros Hin. pose proof (ho_fresh s Hok (hs_next s) (or_intror Hin)). lia.
Qed.

Lemma reply_now_ok reply s : handler_ok s → handler_ok (reply_now reply s).
Proof.
  intros Hok. destruct (next_fresh s Hok) as [Hnone Hnew]. destruct Hok as [Hs Hn Hf Hw Ha Hst].
  split; unfold replied, waiting in *; cbn; rewrite ?replied_snoc; unfold replied in *; [done|..].
  - apply NoDup_app. split_and!; [done| |apply NoDup_singleton]. intros x Hx Hx'%list_elem_of_singleton. by subst.
  - intros channel [Ht|[Hin|Hin%list_elem_of_singleton]%elem_of_app]; [| |lia];
      (assert (channel < hs_next s)%nat; [|lia]); apply Hf; auto.
  - intros channel Ht [Hin|Hin%list_elem_of_singleton]%elem_of_app; [by apply (Hw channel)|].
    subst. destruct Ht as (t & Ht & _). congruence.
  - intros channel Hlt. destruct (decide (channel = hs_next s)) as [->|Hne]; [left; set_solver|].
    destruct (Ha channel) as [Hin|Ht]; [lia| |by right]. left. set_solver.
  - intros channel Ht. apply elem_of_app. left. by apply Hst.
Qed.

Lemma spawn_ok t s : handler_ok s → connecting t = true → handler_ok (spawn_with_slot t s).
Proof.
  intros Hok Hct. unfold spawn_with_slot. destruct (hs_slots s) as [|slots] eqn:Hslots; [by apply reply_now_ok|].
  destruct (next_fresh s Hok) as [Hnone Hnew]. destruct Hok as [Hs Hn Hf Hw Ha Hst].
  split; unfold replied, waiting in *; cbn; [|done|..].
  - rewrite map_size_insert_None by done. lia.
  - intros channel [[t' Ht]|Hin].
    + destruct (decide (channel = hs_next s)) as [->|Hne]; [lia|]. rewrite lookup_insert_ne in Ht by done.
      assert (channel < hs_next s)%nat; [|lia]. apply Hf. left. by eexists.
    + assert (channel < hs_next s)%nat; [|lia]. apply Hf. auto.
  - intros channel (t' & Ht & Hc). destruct (decide (channel = hs_next s)) as [->|Hne]; [done|].
    rewrite lookup_insert_ne in Ht by done. apply Hw. by exists t'.
  - intros channel Hlt. destruct (decide (channel = hs_next s)) as [->|Hne].
    + right. exists t. by rewrite lookup_insert_eq.
    + destruct (Ha channel) as [Hin|(t' & Ht & Hc)]; [lia|by left|]. right. exists t'. by rewrite lookup_insert_ne.
  - intros channel Ht. destruct (decide (channel = hs_next s)) as [->|Hne].
    + rewrite lookup_insert_eq in Ht. injection Ht as ->. done.
    + rewrite lookup_insert_ne in Ht by done. by apply Hst.
Qed.

Lemma local_connected_ok channel ok s s' : handler_ok s → local_connected channel ok s = Some s' → handler_ok s'.
Proof.
  intros Hok. unfold local_connected. destruct (hs_tasks s !! channel) as [t|] eqn:Ht; [|done].
  destruct (connecting t) eqn:Hct; cbn [negb]; [|done]. destruct Hok as [Hs Hn Hf Hw Ha Hst].
  assert (channel ∉ replied s) as Hnew by (apply Hw; by exists t).
  assert (channel < hs_next s)%nat as Hlt by (apply Hf; left; by eexists).
  assert (NoDup (replied s ++ [channel])) as Hnodup.
  { apply NoDup_app. split_and!; [done| |apply NoDup_singleton]. intros x Hx Hx'%list_elem_of_singleton. by subst. }
  destruct ok; intros [= <-]; split; unfold replied, waiting in *; cbn; rewrite ?replied_snoc; unfold replied in *; try done.
  - rewrite map_size_insert_Some by (by eexists). done.
  - intros x [[t' Ht']|[Hin|Hin%list_elem_of_singleton]%elem_of_app]; [| |by subst].
    + destruct (decide (x = channel)) as [->|Hne]; [done|]. rewrite lookup_insert_ne in Ht' by done. apply Hf. left. by eexists.
    + apply Hf. auto.
  - intros x (t' & Ht' & Hc'). destruct (decide (x = channel)) as [->|Hne].
    + rewrite lookup_insert_eq in Ht'. by injection Ht' as <-.
    + rewrite lookup_insert_ne in Ht' by done. intros [Hin|Hin%list_elem_of_singleton]%elem_of_app; [|done]. apply (Hw x); [by exists t'|done].
  - intros x Hx. destruct (decide (x = channel)) as [->|Hne]; [left; set_solver|].
    destruct (Ha x Hx) as [Hin|(t' & Ht' & Hc')]; [left; set_solver|]. right. exists t'. by rewrite lookup_insert_ne.
  - intros x Ht'. apply elem_of_app. destruct (decide (x = channel)) as [->|Hne]; [right; set_solver|].
    rewrite lookup_insert_ne in Ht' by done. left. by apply Hst.
  - rewrite map_size_delete_Some by (by eexists).
    assert (size (hs_tasks s) ≠ 0%nat); [|lia]. intros H0%map_size_empty_iff. by rewrite H0, lookup_empty in Ht.
  - intros x [[t' Ht']|[Hin|Hin%list_elem_of_singleton]%elem_of_app]; [| |by subst].
    + apply lookup_delete_Some in Ht' as [_ Ht']. apply Hf. left. by eexists.
    + apply Hf. auto.
  - intros x (t' & [Hne Ht']%lookup_delete_Some & Hc') [Hin|Hin%list_elem_of_singleton]%elem_of_app; [|done].
    apply (Hw x); [by exists t'|done].
  - intros x Hx. destruct (decide (x = channel)) as [->|Hne]; [left; set_solver|].
    destruct (Ha x Hx) as [Hin|(t' & Ht' & Hc')]; [left; set_solver|]. right. exists t'. by rewrite lookup_delete_ne.
  - intros x [_ Ht']%lookup_delete_Some. apply elem_of_app. left. by apply Hst.
Qed.

Lemma stream_ended_ok channel s s' : handler_ok s → stream_ended channel s = Some s' → handler_ok s'.
Proof.
  intros Hok. unfold stream_ended. destruct (hs_tasks s !! channel) as [[| |]|] eqn:Ht; try done. intros [= <-].
  destruct Hok as [Hs Hn Hf Hw Ha Hst]. split; unfold replied, waiting in *; cbn; try done.
  - rewrite map_size_delete_Some by (by eexists).
    assert (size (hs_tasks s) ≠ 0%nat); [|lia]. intros H0%map_size_empty_iff. by rewrite H0, lookup_empty in Ht.
  - intros x [[t' [_ Ht']%lookup_delete_Some]|Hin]; apply Hf; [left; by eexists|by right].
  - intros x (t' & [_ Ht']%lookup_delete_Some & Hc'). apply Hw. by exists t'.
  - intros x Hx. destruct (Ha x Hx) as [Hin|(t' & Ht' & Hc')]; [by left|].
    destruct (decide (x = channel)) as [->|Hne]; [by rewrite Ht in Ht'; injection Ht' as <-|]. right. exists t'. by rewrite lookup_delete_ne.
  - intros x [_ Ht']%lookup_delete_Some. by apply Hst.
Qed.

Lemma forward_step_ok l s s' : handler_ok s → forward_step l s = Some s' → handler_ok s'.
Proof.
  intros Hok. destruct l; cbn; [intros [= <-]..| |].
  - by apply set_routes_ok.
  - by apply set_routes_ok.
  - unfold server_channel_open_forwarded_tcpip. destruct (remote_forward _ _ _ _); [by apply spawn_ok|by apply reply_now_ok].
  - unfold server_channel_open_agent_forward. destruct (negb _); [by apply reply_now_ok|].
    destruct (_ && _); [by apply reply_now_ok|by apply spawn_ok].
  - by apply local_connected_ok.
  - by apply stream_ended_ok.
Qed.

Lemma forward_run_ok ls s s' : handler_ok s → forward_run ls s = Some s' → handler_ok s'.
Proof.
  revert s. induction ls as [|l ls IH]; intros s Hok; cbn; [by intros [= <-]|].
  destruct (forward_step l s) as [s1|] eqn:Hs; cbn; [|done]. apply IH. by eapply forward_step_ok.
Qed.

(** *** Listeners *)
Definition accepts (es : list listener_event) : list listener_event := filter (λ e, e = AcceptOk ∨ e = AcceptFailed) es.
Definition listener_run (es : list listener_event) : Listener := foldl listener_step listener_new es.
(** The loop saw ten failures in a row. *)
Definition ten_failures (es : list listener_event) : Prop :=
  ∃ before after, accepts es = before ++ replicate MAX_ACCEPT_ERRORS AcceptFailed ++ after.

Lemma accepts_snoc es e : accepts (es ++ [e]) = accepts es ++ accepts [e].
Proof. apply filter_app. Qed.

Lemma ten_failures_snoc es e : ten_failures es → ten_failures (es ++ [e]).
Proof. intros (a & b & Heq). exists a, (b ++ accepts [e]). by rewrite accepts_snoc, Heq, <- !app_assoc. Qed.

Lemma trailing_bound {A} (x : A) a a' e n : a ++ replicate e x = a' ++ replicate n x → last a ≠ Some x → (n ≤ e)%nat.
Proof.
  revert n. induction e as [|e IH]; intros n Heq Hlast.
  - cbn in Heq. rewrite app_nil_r in Heq. destruct n as [|n]; [lia|].
    rewrite replicate_S_end, app_assoc in Heq. subst a. by rewrite last_snoc in Hlast.
  - destruct n as [|n]; [lia|]. rewrite !replicate_S_end, !app_assoc in Heq. apply app_inj_tail in Heq as [Heq _].
    specialize (IH n Heq Hlast). lia.
Qed.

Lemma ten_failures_snoc_inv es e :
  ten_failures (es ++ [e]) → ten_failures es ∨ e = AcceptFailed ∧ ∃ a, accepts es = a ++ replicate 9 AcceptFailed.
Proof.
  intros (a & b & Heq). rewrite accepts_snoc in Heq.
  assert (∀ x, accepts [e] = [x] → ten_failures es ∨ x = AcceptFailed ∧ ∃ a, accepts es = a ++ replicate 9 AcceptFailed) as Hone.
  { intros x Hx. rewrite Hx in Heq. destruct b as [|y b _] using rev_ind.
    - right. rewrite app_nil_r in Heq. unfold MAX_ACCEPT_ERRORS in Heq. rewrite (replicate_S_end 9 AcceptFailed), app_assoc in Heq.
      apply app_inj_tail in Heq as [Heq ->]. split; [done|by exists a].
    - left. rewrite (app_assoc _ b), (app_assoc a) in Heq. apply app_inj_tail in Heq as [Heq _]. by exists a, b. }
  destruct e; [destruct (Hone AcceptOk eq_refl) as [?|[[=] _]]; by left|destruct (Hone AcceptFailed eq_refl) as [?|[_ ?]]; [by left|by right]|..];
    left; exists a, b; by rewrite <- Heq, app_nil_r.
Qed.

Record listener_ok (es : list listener_event) (l : Listener) : Prop := {
  lo_slots : (ln_slots l + ln_active l = MAX_ACTIVE_FORWARD_CONNECTIONS)%nat;
  lo_running : ln_running l = true → ListenerClosed ∉ es ∧ ¬ ten_failures es ∧ (ln_errors l < MAX_ACCEPT_ERRORS)%nat ∧
    ∃ a, accepts es = a ++ replicate (ln_errors l) AcceptFailed ∧ last a ≠ Some AcceptFailed;
  lo_stopped : ln_running l = false → ListenerClosed ∈ es ∨ ten_failures es;
}.

Lemma listener_run_ok es : listener_ok es (listener_run es).
Proof.
  unfold listener_run. induction es as [|e es IH] using rev_ind.
  { split; cbn; [done| |done]. intros _. split_and!; [by apply not_elem_of_nil| |unfold MAX_ACCEPT_ERRORS; lia|by exists []].
    intros (a & b & Heq). symmetry in Heq. apply app_nil in Heq as [_ Heq]. by apply app_nil in Heq as [Heq _]. }
  rewrite foldl_snoc. destruct (foldl listener_step listener_new es) as [errors slots active running].
  destruct IH as [Hslots Hrun Hstop]. cbn in Hslots, Hrun, Hstop.
  assert (∀ errors' slots' active', (slots' + active' = MAX_ACTIVE_FORWARD_CONNECTIONS)%nat →
    running = false → listener_ok (es ++ [e]) (mk_listener errors' slots' active' false)) as Hdead.
  { intros errors' slots' active' Hs' Hr. split; cbn; [done|done|]. intros _. destruct (Hstop Hr) as [Hc|Ht]; [left; set_solver|].
    right. by apply ten_failures_snoc. }
  destruct e; cbn.
  - destruct running; cbn; [|by apply Hdead]. destruct (Hrun eq_refl) as (Hc & Ht & He & a & Ha & Hl).
    assert (∀ slots' active', (slots' + active' = MAX_ACTIVE_FORWARD_CONNECTIONS)%nat →
      listener_ok (es ++ [AcceptOk]) (mk_listener 0 slots' active' true)) as Hok.
    { intros slots' active' Hs'. split; cbn; [done| |done]. intros _. split_and!; [set_solver| |unfold MAX_ACCEPT_ERRORS; lia|].
      - by intros [?|[[=] _]]%ten_failures_snoc_inv.
      - exists (accepts es ++ [AcceptOk]). rewrite accepts_snoc, app_nil_r, last_snoc. split; [done|by intros [=]]. }
    destruct slots as [|slots]; apply Hok; lia.
  - destruct running; cbn; [|by apply Hdead]. destruct (Hrun eq_refl) as (Hc & Ht & He & a & Ha & Hl).
    assert (accepts (es ++ [AcceptFailed]) = a ++ replicate (S errors) AcceptFailed) as Hacc
      by (by rewrite accepts_snoc, Ha, replicate_S_end, <- app_assoc).
    split; cbn; [done|..]; rewrite ?bool_decide_eq_true, ?bool_decide_eq_false.
    + intros Hlt. split_and!; [set_solver| |done|by exists a].
      intros [?|[_ [a' Ha']]]%ten_failures_snoc_inv; [done|]. rewrite Ha in Ha'. apply trailing_bound in Ha'; [|done].
      unfold MAX_ACCEPT_ERRORS in *. lia.
    + intros Hge. right. exists a, []. rewrite Hacc, app_nil_r. do 2 f_equal. unfold MAX_ACCEPT_ERRORS in *. lia.
  - assert (accepts (es ++ [ConnectionEnded]) = accepts es) as Hacc by (by rewrite accepts_snoc, app_nil_r).
    assert (∀ slots' active', (slots' + active' = MAX_ACTIVE_FORWARD_CONNECTIONS)%nat →
      listener_ok (es ++ [ConnectionEnded]) (mk_listener errors slots' active' running)) as Hok.
    { intros slots' active' Hs'. destruct running; [|by apply Hdead]. destruct (Hrun eq_refl) as (Hc & Ht & He & a & Ha & Hl).
      split; cbn; [done| |done]. intros _. split_and!; [set_solver| |done|by exists a; rewrite Hacc].
      by intros [?|[[=] _]]%ten_failures_snoc_inv. }
    destruct active as [|active]; apply Hok; lia.
  - split; cbn; [done|done|]. intros _. left. set_solver.
Qed.

(** ** Theorems *)

(** C27: the channels that a server opens are bounded, answered once, and routed only where a
    registration says, in every interleaving of registrations, channels, local connections and ends
    of streams: the free slots and the spawned tasks are 128 together; no channel is answered twice,
    and one that is not answered yet is waiting for its local side; a channel is connected only to
    the target registered for exactly its address and port or, when there is none, for a wildcard
    address with its port, and is prohibited at once when there is neither, as after its route was
    removed. *)
Theorem server_channels_bounded ls agent s :
  forward_run ls (with_agent_forwarding agent) = Some s →
  (hs_slots s + size (hs_tasks s) = MAX_SERVER_INITIATED_FORWARD_CHANNELS)%nat ∧
  NoDup (replied s) ∧
  (∀ channel, (channel < hs_next s)%nat → channel ∈ replied s ↔ ¬ waiting s channel) ∧
  ∀ order address port, order ≡ₚ map_to_list (hs_routes s) →
    ((∀ target, ¬ routed (hs_routes s) address port target) →
       server_channel_open_forwarded_tcpip order address port s = reply_now Prohibited s) ∧
    (∀ target, hs_tasks (server_channel_open_forwarded_tcpip order address port s) !! hs_next s = Some (ConnectingTo target) →
       routed (hs_routes s) address port target).
Proof.
  intros Hrun. assert (handler_ok s) as Hok by (eapply forward_run_ok; [apply handler_new_ok|done]).
  split_and!; [apply Hok..| |].
  - intros channel Hlt. split; [intros Hin Hw; by apply (ho_waiting s Hok channel)|]. intros Hw.
    by destruct (ho_answered s Hok channel Hlt).
  - intros order address port Horder. unfold server_channel_open_forwarded_tcpip.
    destruct (remote_forward order (hs_routes s) address port) as [t|] eqn:Hr.
    + apply remote_forward_some in Hr; [|done]. split; [by intros Hno; destruct (Hno t)|]. intros target.
      unfold spawn_with_slot. destruct (next_fresh s Hok) as [Hnone _]. destruct (hs_slots s); cbn; [by rewrite Hnone|].
      rewrite lookup_insert_eq. by intros [= <-].
    + split; [done|]. intros target. cbn. destruct (next_fresh s Hok) as [Hnone _]. by rewrite Hnone.
Qed.

Definition demo_routes : list forward_label :=
  [RegisterRoute (lit "*") 2200 (mk_forward_target (lit "db") 5432); OpenForwarded [(lit "*", 2200, mk_forward_target (lit "db") 5432)] (lit "192.0.2.1") 2200;
   OpenAgent true; LocalConnected 0 true; UnregisterRoute (lit "*") 2200; OpenForwarded [] (lit "192.0.2.1") 2200; StreamEnded 0].
Definition after_demo : HandlerState := default (with_agent_forwarding false) (forward_run demo_routes (with_agent_forwarding false)).

Lemma server_channels_bounded_witness :
  hs_replies after_demo = [(1%nat, Prohibited); (0%nat, Accepted); (2%nat, Prohibited)] ∧
  (hs_slots after_demo + size (hs_tasks after_demo) = 128)%nat.
Proof. split; [vm_compute; reflexivity|]. apply (server_channels_bounded demo_routes false after_demo). vm_compute. reflexivity. Defined.

(** With both wildcards registered for one port, the iteration order of the hash map
    decides where a channel goes. *)
Lemma two_wildcards_depend_on_order :
  let a := mk_forward_target (lit "a") 1 in let b := mk_forward_target (lit "b") 2 in
  let routes : Routes := <[([], 80) := a]> (<[(lit "*", 80) := b]> ∅) in
  remote_forward [([], 80, a); (lit "*", 80, b)] routes (lit "h") 80 = Some a ∧
  remote_forward [(lit "*", 80, b); ([], 80, a)] routes (lit "h") 80 = Some b.
Proof. split; vm_compute; reflexivity. Qed.

(** A listener keeps accepting until it is closed or has failed ten times in a row, a success
    resetting the count; and at every moment the free slots and the connections being served are 256
    together, so that no more are ever served at once, closed listeners' connections included. *)
Theorem listener_survives es :
  (ln_running (listener_run es) = false ↔ ListenerClosed ∈ es ∨ ten_failures es) ∧
  (ln_slots (listener_run es) + ln_active (listener_run es) = MAX_ACTIVE_FORWARD_CONNECTIONS)%nat.
Proof.
  destruct (listener_run_ok es) as [Hs Hr Hst]. split; [|done]. split; [done|]. intros Hend.
  destruct (ln_running (listener_run es)); [|done]. destruct (Hr eq_refl) as (Hc & Ht & _). by destruct Hend.
Qed.

(** *** Registrations *)

(** The routes, and the cancellations asked for. *)
Record RouteWatch := mk_route_watch { rw_routes : Routes; rw_granted : list (str * Z); rw_cancelled : list (str * Z) }.

Definition route_allowed (spec : option RemoteForward) (q : route_request) (g : RouteWatch) : Prop :=
  match q with
  | RtRequest address port => ∃ s, spec = Some s ∧ address = rw_bind_address s ∧ port = rw_bind_port s
  | RtInsert address port target =>
      ∃ s, spec = Some s ∧ target = rw_target s ∧ address = rw_bind_address s ∧ (address, port) ∈ rw_granted g ∧ is_u16 port
  | RtCancel address port => rw_routes g !! (address, port) = None
  | _ => True
  end.
(** What the server grants: the port asked for, or the one it allocates for 0. *)
Definition route_step (q : route_request) : route_answer q → RouteWatch → RouteWatch → Prop :=
  match q with
  | RtRequest address port => λ r g g',
      match r with
      | Some (Ok allocated) => 0 ≤ allocated ∧
          g' = mk_route_watch (rw_routes g) ((address, if port =? 0 then allocated else port) :: rw_granted g) (rw_cancelled g)
      | _ => g' = g
      end
  | RtInsert address port target => λ _ g g',
      g' = mk_route_watch (register_route address port target (rw_routes g)) (rw_granted g) (rw_cancelled g)
  | RtRemove address port => λ _ g g',
      g' = mk_route_watch (unregister_route address port (rw_routes g)) (rw_granted g) (rw_cancelled g)
  | RtCancel address port => λ _ g g', g' = mk_route_watch (rw_routes g) (rw_granted g) (rw_cancelled g ++ [(address, port)])
  | RtRuntime => λ _ g g', g' = g
  end.
Definition route_monitor (spec : option RemoteForward) : monitor route_interface RouteWatch :=
  Monitor (E := route_interface) (route_allowed spec) route_step.

(** A remote forward is routed only after the server granted it, for the address and the port it
    granted, a port of 16 bits, and a failed registration leaves the routes as they were; closing its
    handle, or dropping it where a runtime can do the work, removes the route before the one
    cancellation is asked for, however that ends, so that a late channel finds no route; a handle
    that was closed does nothing when it is dropped. *)
Theorem remote_forward_handle_sound spec h g :
  is_u16 (rw_bind_port spec) →
  wp (route_monitor (Some spec)) (start_remote_forward_managed spec)
    (λ r g', match r with
             | Ok h => fh_active h = true ∧ fh_bind_address h = rw_bind_address spec ∧
                 (rw_bind_port spec ≠ 0 → fh_bind_port h = rw_bind_port spec) ∧
                 rw_routes g' = <[(fh_bind_address h, fh_bind_port h) := rw_target spec]> (rw_routes g)
             | Err _ => rw_routes g' = rw_routes g
             end) g ∧
  (let key := (fh_bind_address h, fh_bind_port h) in
   let cancelled g' := rw_routes g' = delete key (rw_routes g) ∧ rw_cancelled g' = rw_cancelled g ++ [key] in
   wp (route_monitor None) (close_handle h) (λ _ g', cancelled g') g ∧
   wp (route_monitor None) (drop_handle h) (λ r g', r = Ok tt ∧ (g' = g ∨ fh_active h = true ∧ cancelled g')) g ∧
   (fh_active h = false → wp (route_monitor None) (drop_handle h) (λ _ g', g' = g) g)).
Proof.
  intros Hport. split.
  - cbn -[try_from]. split; [by exists spec|]. intros [[allocated|e]|] g1; cbn -[try_from]; [|by intros ->..].
    intros [Hge ->]. destruct (rw_bind_port spec =? 0) eqn:H0; to_prop.
    + unfold try_from, with_context. destruct (allocated <=? u16_max) eqn:Hmax; cbn; [|done]. to_prop.
      split; [exists spec; split_and!; first [done|apply list_elem_of_here|apply Hport|lia]|]. intros [] g2 ->. cbn. split_and!; try done.
    + cbn. split; [exists spec; split_and!; first [done|apply list_elem_of_here|apply Hport|lia]|]. intros [] g2 ->. cbn. by split_and!.
  - assert (∀ h, rw_routes (mk_route_watch (unregister_route (fh_bind_address h) (fh_bind_port h) (rw_routes g)) (rw_granted g) (rw_cancelled g))
      !! (fh_bind_address h, fh_bind_port h) = None) as Hgone by (intros h'; apply lookup_delete_eq).
    split_and!.
    + cbn. split; [done|]. intros [] g1 ->. split; [apply (Hgone h)|]. intros [[[]|e]|] g2 ->; by cbn.
    + unfold drop_handle. destruct (fh_active h); cbn; [|by split; [|left]]. split; [done|]. intros [] g1 ->; cbn; [|by split; [|left]].
      split; [done|]. intros [] g1 ->. split; [apply (Hgone h)|]. intros [[[]|e]|] g2 ->; cbn; (split; [done|]); by right.
    + unfold drop_handle. by intros ->.
Qed.

Lemma remote_forward_handle_sound_witness :
  wp (route_monitor (Some (mk_remote_forward (lit "*") 0 (mk_forward_target (lit "db") 5432))))
    (start_remote_forward_managed (mk_remote_forward (lit "*") 0 (mk_forward_target (lit "db") 5432)))
    (λ r g', match r with
             | Ok h => fh_active h = true ∧ fh_bind_address h = lit "*" ∧ (0 ≠ 0 → fh_bind_port h = 0) ∧
                 rw_routes g' = <[(fh_bind_address h, fh_bind_port h) := mk_forward_target (lit "db") 5432]> ∅
             | Err _ => rw_routes g' = ∅
             end) (mk_route_watch ∅ [] []).
Proof.
  apply (remote_forward_handle_sound (mk_remote_forward (lit "*") 0 (mk_forward_target (lit "db") 5432)) (mk_forward_handle [] 0 false)
    (mk_route_watch ∅ [] [])).
  split; vm_compute; congruence.
Defined.
