(* ===== verification/Privileged.v ===== *)
(** * Files installed as another user ([crates/kaduox-ssh-core/src/privileged.rs])

    An upload is staged below [/tmp] as the login user and installed by a command that
    runs under [sudo].  The commands are texts for a shell; the uploads are programs
    over requests to the SFTP side and to [Exec].  Theorems: a shell reads the commands
    as their fixed scripts with every path as one word; whatever the answers, nothing is
    installed before it is staged as a new file, the staged files are removed, and
    success needs the command's own success. *)

From stdpp Require Import base list gmap strings numbers sorting.
From Stdlib Require Import Lia.
From S2P Require Import Prelude RustStr StrFacts ShellWords RemotePath LocalPath RemoteCommand TransferOps TaskRegistry Program Authenticate Exec.

(** ** Definitions *)

(** [{:o}] *)
Fixpoint oct_digits (fuel : nat) (n : Z) (acc : str) : str :=
  match fuel with
  | O => acc
  | S fuel => let acc := (48 + n mod 8) :: acc in if n <? 8 then acc else oct_digits fuel (n / 8) acc
  end.
Definition oct_of (n : Z) : str := oct_digits (S (Z.to_nat (Z.log2 n))) n [].

Definition validate_mode (mode : Z) : result unit := bail_if (4095 <? mode) "invalid file mode; expected <= 0o7777".

Definition validate_recursive_destination (path : str) : result unit :=
  bail_if (bool_decide (path = []) || bool_decide (path = lit "/"))
    "privileged recursive destination must not be empty or the filesystem root" ≫= λ _,
  bail_if (existsb (λ component, bool_decide (component = lit ".") || bool_decide (component = lit "..")) (split slash path))
    "privileged recursive destination must not contain '.' or '..' path components".

Definition ensure_privileged_install_success (output : CommandOutput) : result unit :=
  match exit_status output with
  | Some status => bail_if (negb (status =? 0)) "privileged install failed with status"
  | None => Err "privileged install failed: remote command did not report an exit status"
  end.

(** [Path::file_name] of a path in UTF-8. *)
Definition path_file_name (path : str) : option str :=
  match path_body path with name :: _ => if bool_decide (name = lit "..") then None else Some name | [] => None end.

Definition staging_name_char (c : char) : char :=
  if is_ascii_alphanumeric c || existsb (Z.eqb c) (lit ".-_") then c else 95.
(** [unique_staging_path] of the transfer crate; [stamp] counts nanoseconds. *)
Definition tmp_staging_path (stamp : Z) (file_name : str) : str :=
  lit "/tmp/.kaduox-" ++ dec_of stamp ++ lit "-" ++ (staging_name_char <$> file_name).

Definition privileged_work_path (remote_path : str) : str := remote_path ++ lit ".kaduox.privileged.part".

Definition install_command (mode : Z) (staging_path work_path remote_path : str) : str :=
  lit "install -m " ++ oct_of mode ++ lit " -- " ++ quote_posix staging_path ++ lit " " ++ quote_posix work_path ++
  lit " && mv -f -- " ++ quote_posix work_path ++ lit " " ++ quote_posix remote_path.

Definition privileged_tree_install_command (staging_path remote_path work_path : str) (file_mode directory_mode : Z) : str :=
  let staging := quote_posix staging_path in
  let target := quote_posix remote_path in
  let work := quote_posix work_path in
  lit "set -e; rm -rf -- " ++ work ++ lit "; install -d -m " ++ oct_of directory_mode ++ lit " -- " ++ work ++
  lit "; cp -R -- " ++ staging ++ lit "/. " ++ work ++
  lit "/; find " ++ work ++ lit " -type d -exec chmod " ++ oct_of directory_mode ++
  lit " -- {} +; find " ++ work ++ lit " -type f -exec chmod " ++ oct_of file_mode ++
  lit " -- {} +; if [ -e " ++ target ++ lit " ] || [ -L " ++ target ++ lit " ]; then rm -rf -- " ++ target ++
  lit "; fi; mv -- " ++ work ++ lit " " ++ target.

Definition cleanup_command (path : str) : str := lit "rm -f -- " ++ quote_posix path.
Definition tree_cleanup_command (path : str) : str := lit "rm -rf -- " ++ quote_posix path.

(** *** Requests *)
Inductive entry_type := TypeDir | TypeSymlink | TypeOther.
Inductive privileged_request :=
| PLocalLstat (path : str)
| PStamp
| POpenSftp (o : TransferOptions)
| PLstat (path : str)
| PCreateDir (path : str)
| PCloseSftp
| PUpload (local_path remote_path : str) (o : TransferOptions)
| PUploadTree (local_path remote_path : str) (o : TransferOptions)
| PExec (command : str) (remote_user : RemoteUser).
Definition privileged_answer (q : privileged_request) : Type :=
  match q with
  | PLocalLstat _ | PLstat _ => result entry_type
  | PStamp => Z
  | POpenSftp _ | PCreateDir _ | PCloseSftp => result unit
  | PUpload _ _ _ => result Z
  | PUploadTree _ _ _ => result TransferSummary
  | PExec _ _ => result CommandOutput
  end.
Definition privileged_interface : interface := Interface privileged_request privileged_answer.
Abbreviation privileged A := (prog privileged_interface A).
Definition pv (q : privileged_interface) : privileged (answer q) := ask q.

Definition staging_options (o : TransferOptions) : TransferOptions :=
  mk_options false true (file_concurrency o) (sftp_write_concurrency o) (sftp_packet_size o) (TransferOps.request_timeout_secs o) (progress o).

Definition create_privileged_staging_directory (staging_path : str) (o : TransferOptions) : privileged unit :=
  (awaited (pv (POpenSftp o)) ;;
   r ⇐ p_try
     (parent ⇐ p_context "failed to inspect privileged staging parent /tmp" (awaited (pv (PLstat (lit "/tmp"))));
      match parent with
      | TypeSymlink => p_err "refusing privileged staging through symbolic-link /tmp"
      | TypeOther => p_err "privileged staging parent /tmp is not a directory"
      | TypeDir =>
          p_context "failed to exclusively create privileged staging directory" (awaited (pv (PCreateDir staging_path)))
      end);
   close_result ⇐ pv PCloseSftp;
   Done r ;;
   Done close_result)%prog.

Definition upload_privileged (local_path remote_path as_user : str) (mode : Z) (o : TransferOptions) : privileged Z :=
  (Done (validate_mode mode) ;;
   Done (bail_if (bool_decide (remote_path = [])) "remote path cannot be empty") ;;
   let file_name := default (lit "upload") (path_file_name local_path) in
   stamp ⇐ pv PStamp;
   let staging_path := tmp_staging_path stamp file_name in
   let work_path := privileged_work_path remote_path in
   bytes ⇐ p_context "failed to stage upload" (awaited (pv (PUpload local_path staging_path (staging_options o))));
   result ⇐ pv (PExec (install_command mode staging_path work_path remote_path) (Sudo as_user));
   pv (PExec (cleanup_command staging_path) Current) ;;
   output ⇐ Done result;
   Done (ensure_privileged_install_success output) ;;
   p_ret bytes)%prog.

Definition upload_privileged_recursive (local_path remote_path as_user : str) (file_mode directory_mode : Z) (o : TransferOptions)
    : privileged TransferSummary :=
  (Done (validate_mode file_mode) ;;
   Done (validate_mode directory_mode) ;;
   Done (validate_recursive_destination remote_path) ;;
   metadata ⇐ p_context "failed to stat" (awaited (pv (PLocalLstat local_path)));
   match metadata with
   | TypeSymlink | TypeOther => p_err "privileged recursive upload source must be a directory and cannot be a symbolic link"
   | TypeDir =>
       let file_name := default (lit "tree") (path_file_name local_path) in
       stamp ⇐ pv PStamp;
       let staging_path := tmp_staging_path stamp file_name in
       let work_path := privileged_work_path remote_path in
       create_privileged_staging_directory staging_path (staging_options o) ;;
       staged ⇐ p_try (p_context "failed to stage recursive upload"
                         (awaited (pv (PUploadTree local_path staging_path (staging_options o)))));
       match staged with
       | Err error =>
           pv (PExec (tree_cleanup_command staging_path) Current) ;;
           p_err error
       | Ok summary =>
           result ⇐ pv (PExec (privileged_tree_install_command staging_path remote_path work_path file_mode directory_mode)
                          (Sudo as_user));
           pv (PExec (tree_cleanup_command staging_path) Current) ;;
           pv (PExec (tree_cleanup_command work_path) (Sudo as_user)) ;;
           output ⇐ Done result;
           Done (ensure_privileged_install_success output) ;;
           p_ret summary
       end
   end)%prog.

(** ** How a shell reads a script

    The control operators of [ShellWords] and two more; braces and brackets stand for
    themselves as the words they are here. *)
Inductive script_token := Token (w : word) | Operator (op : str).

Record script_state := mk_script {
  ss_tokens : list script_token;               (* the last one first *)
  ss_quoting : quoting; ss_word : option word;
  ss_pending : option char;                    (* the first half of [&&] or [||] *)
}.
Definition script_start : script_state := mk_script [] Unquoted None None.

Definition flush_token (s : script_state) : list script_token :=
  match ss_word s with Some w => Token w :: ss_tokens s | None => ss_tokens s end.
(** An operator needs a command before it. *)
Definition push_operator (op : str) (s : script_state) : option script_state :=
  match flush_token s with
  | (Token _ :: _) as tokens => Some (mk_script (Operator op :: tokens) Unquoted None None)
  | _ => None
  end.
Definition push_script_char (q : quoting) (is_quoted : bool) (c : char) (s : script_state) : script_state :=
  mk_script (ss_tokens s) q (push_word_char (ss_word s) is_quoted c) None.
Definition enter (q : quoting) (s : script_state) : script_state :=
  mk_script (ss_tokens s) q (Some (default [] (ss_word s))) None.

Definition script_step (s : script_state) (c : char) : option script_state :=
  match ss_quoting s with
  | Single => if c =? single_quote then Some (enter Unquoted s) else Some (push_script_char Single true c s)
  | Double =>
      if c =? dquote then Some (enter Unquoted s)
      else if existsb (Z.eqb c) (lit "$`\") then None
      else Some (push_script_char Double true c s)
  | Unquoted =>
      match ss_pending s with
      | Some d => if c =? d then push_operator [d; d] (mk_script (ss_tokens s) Unquoted (ss_word s) None) else None
      | None =>
          if c =? single_quote then Some (enter Single s)
          else if c =? dquote then Some (enter Double s)
          else if blank c then Some (mk_script (flush_token s) Unquoted None None)
          else if c =? ch ";" then push_operator [c] s
          else if (c =? ampersand) || (c =? ch "|") then Some (mk_script (ss_tokens s) Unquoted (ss_word s) (Some c))
          else if shell_special c && negb (existsb (Z.eqb c) (lit "{}[")) then None
          else Some (push_script_char Unquoted false c s)
      end
  end.

Definition grouping (c : bool * char) : bool := negb c.1 && existsb (Z.eqb c.2) (lit "{}[").
(** A word with a brace or a bracket is [[] or [{}]. *)
Definition plain_token (t : script_token) : bool :=
  match t with
  | Token w => negb (existsb grouping w) || bool_decide (w = unquoted (lit "[")) || bool_decide (w = unquoted (lit "{}"))
  | Operator _ => true
  end.

Definition script_end (s : script_state) : option (list script_token) :=
  match ss_quoting s, ss_pending s with
  | Unquoted, None => let tokens := reverse (flush_token s) in if forallb plain_token tokens then Some tokens else None
  | _, _ => None
  end.
Definition script_run (s : script_state) (text : str) : option script_state := foldl (λ s c, s ≫= λ s, script_step s c) (Some s) text.
Definition script_read (text : str) : option (list script_token) := script_run script_start text ≫= script_end.

(** *** The tokens a text stands for *)
Definition raw (s : string) : script_token := Token (unquoted (lit s)).
Definition value (v : str) : script_token := Token (word_of v).
Definition operator (s : string) : script_token := Operator (lit s).
Definition value_then (v : str) (s : string) : script_token := Token (foldl (λ w c, w ++ [(false, c)]) (word_of v) (lit s)).
Definition octal (n : Z) : script_token := Token (unquoted (oct_of n)).

(** ** Lemmas *)
Lemma script_run_app s p q : script_run s (p ++ q) = script_run s p ≫= λ s, script_run s q.
Proof.
  unfold script_run. rewrite foldl_app.
  match goal with |- foldl _ ?o q = _ => destruct o as [s'|] end; [done|]. cbn. by induction q.
Qed.

(** Between two words, inside a word. *)
Definition at_word (tokens : list script_token) (cur : option word) : script_state := mk_script tokens Unquoted cur None.

Lemma script_inert_char tokens cur c :
  shell_special c = false → script_step (at_word tokens cur) c = Some (at_word tokens (push_word_char cur false c)).
Proof.
  intros Hc. unfold script_step, at_word. cbn [ss_quoting ss_pending]. rewrite Hc. cbn [andb].
  unfold shell_special in Hc. apply orb_false_iff in Hc as [Hc ->].
  assert (∀ d, existsb (Z.eqb d) (lit "|&;<>()$`\'*?[#~{}!" ++ [dquote; LF; 0]) = true → (c =? d) = false) as Hd.
  { intros d Hd. apply Z.eqb_neq. intros ->. congruence. }
  by rewrite !Hd.
Qed.

Lemma script_inert tokens cur p :
  Forall (λ c, shell_special c = false) p → p ≠ [] →
  script_run (at_word tokens cur) p = Some (at_word tokens (Some (default [] cur ++ unquoted p))).
Proof.
  intros Hp. revert cur. induction Hp as [|c p Hc _ IH]; intros cur Hne; [done|].
  unfold script_run. cbn [foldl mbind option_bind]. rewrite script_inert_char by done. destruct p as [|d p]; [done|].
  fold (script_run (at_word tokens (push_word_char cur false c)) (d :: p)). rewrite IH by done.
  unfold push_word_char, unquoted. cbn [from_option fmap list_fmap]. unfold id. by rewrite <- app_assoc.
Qed.

Lemma script_single tokens w v :
  script_run (mk_script tokens Single (Some w) None)
    (concat ((λ c, if c =? single_quote then [single_quote; dquote; single_quote; dquote; single_quote] else [c]) <$> v) ++ [single_quote]) =
  Some (at_word tokens (Some (w ++ quoted v))).
Proof.
  revert w. induction v as [|c v IH]; intros w; [by rewrite app_nil_r|]. cbn [fmap list_fmap concat]. rewrite <- app_assoc.
  assert (Hnext : (w ++ [(true, c)]) ++ quoted v = w ++ quoted (c :: v)) by by rewrite <- app_assoc.
  rewrite <- Hnext, <- IH, script_run_app. destruct (Z.eqb_spec c single_quote) as [->|Hc]; [done|].
  assert (script_run (mk_script tokens Single (Some w) None) [c] = Some (mk_script tokens Single (Some (w ++ [(true, c)])) None)) as ->; [|done].
  cbn -[Z.eqb]. by rewrite (proj2 (Z.eqb_neq c single_quote) Hc).
Qed.

(** A quoted value goes on with the word before it. *)
Lemma script_quote tokens cur v :
  script_run (at_word tokens cur) (quote_posix v) = Some (at_word tokens (Some (default [] cur ++ word_of v))).
Proof.
  unfold quote_posix, word_of. case_bool_decide as Hne; [subst; cbn; by rewrite app_nil_r|].
  match goal with |- context [forallb ?p (utf8 v)] => destruct (forallb p (utf8 v)) eqn:Hsafe end.
  - assert (needs_no_quotes v = true) as Hn by (unfold needs_no_quotes; by rewrite bool_decide_eq_false_2, Hsafe).
    rewrite Hn. apply safe_value_inert in Hn as [_ Hall]. by apply script_inert.
  - assert (needs_no_quotes v = false) as -> by (unfold needs_no_quotes; by rewrite Hsafe, andb_false_r).
    rewrite (app_assoc [single_quote]), <- app_assoc. apply (script_single tokens (default [] cur)).
Qed.

(** Digits stand for themselves. *)
Lemma oct_digits_inert fuel n acc :
  0 ≤ n → Forall (λ c, 48 ≤ c ≤ 55) acc → Forall (λ c, 48 ≤ c ≤ 55) (oct_digits fuel n acc) ∧ (fuel ≠ O → oct_digits fuel n acc ≠ []).
Proof.
  revert n acc. induction fuel as [|fuel IH]; intros n acc Hn Hacc; cbn -[Z.modulo Z.div]; [done|].
  assert (Forall (λ c, 48 ≤ c ≤ 55) ((48 + n mod 8) :: acc)) as Hcons by (constructor; [pose proof (Z.mod_pos_bound n 8); lia|done]).
  destruct (n <? 8); [by split|]. destruct (IH (n / 8) _ ltac:(apply Z.div_pos; lia) Hcons) as [Hall Hne]. split; [done|]. intros _.
  destruct fuel; [done|]. by apply Hne.
Qed.

Lemma oct_of_inert n : 0 ≤ n → Forall (λ c, shell_special c = false) (oct_of n) ∧ oct_of n ≠ [] ∧ existsb grouping (unquoted (oct_of n)) = false.
Proof.
  intros Hn. destruct (oct_digits_inert (S (Z.to_nat (Z.log2 n))) n [] Hn (Forall_nil_2 _)) as [Hall Hne]. fold (oct_of n) in Hall, Hne.
  assert (∀ c, 48 ≤ c ≤ 55 → shell_special c = false ∧ existsb (Z.eqb c) (lit "{}[") = false) as Hdigit.
  { intros c Hc. assert (c ∈ [48; 49; 50; 51; 52; 53; 54; 55]) as Hin by (rewrite !elem_of_cons; lia).
    clear Hc. revert c Hin. apply Forall_forall. decide_now. }
  split_and!; [apply (Forall_impl _ _ _ Hall); apply Hdigit|by apply Hne|]. clear Hne. induction Hall as [|c cs Hc _ IH]; [done|].
  cbn [unquoted fmap list_fmap existsb]. unfold grouping at 1. cbn [fst snd negb andb]. destruct (Hdigit c Hc) as [_ ->]. apply IH.
Qed.

Lemma script_octal tokens n : 0 ≤ n → script_run (at_word tokens None) (oct_of n) = Some (at_word tokens (Some (unquoted (oct_of n)))).
Proof. intros Hn. destruct (oct_of_inert n Hn) as (Hall & Hne & _). by apply script_inert. Qed.

Lemma plain_octal n : 0 ≤ n → plain_token (octal n) = true.
Proof. intros Hn. unfold plain_token, octal. by rewrite (proj2 (proj2 (oct_of_inert n Hn))). Qed.

Lemma plain_word_of v : existsb grouping (word_of v) = false.
Proof.
  unfold word_of. destruct (needs_no_quotes v) eqn:Hn; [|unfold quoted; clear Hn; induction v as [|c v IH]; [done|exact IH]].
  unfold needs_no_quotes in Hn. apply andb_true_iff in Hn as [_ Hn].
  apply safe_utf8 in Hn; [|intros b Hb; by apply safe_byte_inert]. unfold unquoted. induction Hn as [|c v [Hc _] _ IH]; [done|].
  cbn [fmap list_fmap existsb]. unfold grouping at 1. cbn [fst snd negb andb]. rewrite IH, orb_false_r.
  apply not_true_iff_false. intros (d & Hd & Heq%Z.eqb_eq)%existsb_exists. subst d.
  destruct Hd as [<-|[<-|[<-|[]]]]; discriminate Hc.
Qed.

Lemma plain_value v : plain_token (value v) = true.
Proof. unfold plain_token, value. by rewrite plain_word_of. Qed.

Lemma plain_value_then v s :
  forallb (λ c, negb (grouping (false, c))) (lit s) = true → plain_token (value_then v s) = true.
Proof.
  intros Hs. unfold plain_token, value_then. assert (existsb grouping (foldl (λ w c, w ++ [(false, c)]) (word_of v) (lit s)) = false) as ->; [|done].
  generalize (plain_word_of v). generalize (word_of v). revert Hs. induction (lit s) as [|c cs IH]; [done|]. cbn [forallb foldl].
  rewrite andb_true_iff, negb_true_iff. intros [Hc Hs] w Hw. apply IH; [done|]. rewrite existsb_app, Hw. cbn [existsb orb]. by rewrite Hc.
Qed.

Lemma script_read_run text tokens cur read :
  script_run (at_word [] None) text = Some (at_word tokens cur) → reverse (flush_token (at_word tokens cur)) = read →
  forallb plain_token read = true → script_read text = Some read.
Proof.
  unfold script_read. change script_start with (at_word [] None). intros -> <- Hplain. cbn [mbind option_bind].
  unfold script_end. cbn [ss_quoting ss_pending at_word]. by rewrite Hplain.
Qed.

(** A literal part of a script, computed for every word it goes on with. *)
Ltac script_literal :=
  match goal with
  | |- context [script_run (at_word ?tokens ?cur) (lit ?s)] =>
      match cur with
      | None => let r := eval vm_compute in (λ before, script_run (at_word before None) (lit s)) in
          change (script_run (at_word tokens cur) (lit s)) with (r tokens)
      | Some ?w => let r := eval vm_compute in (λ before part, script_run (at_word before (Some part)) (lit s)) in
          change (script_run (at_word tokens cur) (lit s)) with (r tokens w)
      end; cbv beta;
      repeat match goal with |- context [mk_script ?t Unquoted ?c None] => change (mk_script t Unquoted c None) with (at_word t c) end
  end.
Ltac script_part :=
  first [rewrite script_run_app | script_literal | rewrite script_quote | rewrite script_octal by lia]; cbn [mbind option_bind from_option app]; unfold id.
Ltac script_reads := eapply script_read_run; [repeat script_part; reflexivity|reflexivity|cbn [forallb]];
  repeat first [reflexivity | apply andb_true_iff; split | apply plain_value | apply plain_octal; lia | apply plain_value_then; reflexivity].

Lemma install_command_reads mode staging work target :
  0 ≤ mode →
  script_read (install_command mode staging work target) =
  Some [raw "install"; raw "-m"; octal mode; raw "--"; value staging; value work; operator "&&";
        raw "mv"; raw "-f"; raw "--"; value work; value target].
Proof.
  intros Hmode. unfold install_command.
  script_reads.
Qed.

Lemma tree_install_command_reads staging target work file_mode directory_mode :
  0 ≤ file_mode → 0 ≤ directory_mode →
  script_read (privileged_tree_install_command staging target work file_mode directory_mode) =
  Some [raw "set"; raw "-e"; operator ";";
        raw "rm"; raw "-rf"; raw "--"; value work; operator ";";
        raw "install"; raw "-d"; raw "-m"; octal directory_mode; raw "--"; value work; operator ";";
        raw "cp"; raw "-R"; raw "--"; value_then staging "/."; value_then work "/"; operator ";";
        raw "find"; value work; raw "-type"; raw "d"; raw "-exec"; raw "chmod"; octal directory_mode; raw "--"; raw "{}"; raw "+"; operator ";";
        raw "find"; value work; raw "-type"; raw "f"; raw "-exec"; raw "chmod"; octal file_mode; raw "--"; raw "{}"; raw "+"; operator ";";
        raw "if"; raw "["; raw "-e"; value target; raw "]"; operator "||"; raw "["; raw "-L"; value target; raw "]"; operator ";";
        raw "then"; raw "rm"; raw "-rf"; raw "--"; value target; operator ";"; raw "fi"; operator ";";
        raw "mv"; raw "--"; value work; value target].
Proof.
  intros Hfile Hdir. unfold privileged_tree_install_command. cbv zeta.
  script_reads.
Qed.

Lemma cleanup_reads path :
  script_read (cleanup_command path) = Some [raw "rm"; raw "-f"; raw "--"; value path] ∧
  script_read (tree_cleanup_command path) = Some [raw "rm"; raw "-rf"; raw "--"; value path].
Proof.
  unfold cleanup_command, tree_cleanup_command.
  split; script_reads.
Qed.

(** The number that a text of octal digits stands for. *)
Definition oct_value (s : str) : Z := foldl (λ n c, 8 * n + (c - 48)) 0 s.

Lemma oct_digits_value fuel n acc :
  0 ≤ n < 8 ^ Z.of_nat fuel → foldl (λ n c, 8 * n + (c - 48)) 0 (oct_digits fuel n acc) = foldl (λ n c, 8 * n + (c - 48)) n acc.
Proof.
  revert n acc. induction fuel as [|fuel IH]; intros n acc Hn; [cbn in *; by replace n with 0 by lia|].
  cbn -[Z.modulo Z.div Z.mul]. pose proof (Z_div_mod_eq_full n 8). pose proof (Z.mod_pos_bound n 8).
  destruct (Z.ltb_spec n 8).
  - cbn [foldl]. f_equal. rewrite Z.mod_small by lia. lia.
  - rewrite IH; [cbn [foldl]; f_equal; lia|]. rewrite Nat2Z.inj_succ, Z.pow_succ_r in Hn by lia.
    split; [apply Z.div_pos; lia|apply Z.div_lt_upper_bound; lia].
Qed.

Lemma oct_of_value n : 0 ≤ n → oct_value (oct_of n) = n.
Proof.
  intros Hn. unfold oct_value, oct_of. rewrite oct_digits_value; [done|]. split; [done|].
  destruct (decide (n = 0)) as [->|Hne]; [done|]. rewrite Nat2Z.inj_succ, Z2Nat.id by apply Z.log2_nonneg.
  destruct (Z.log2_spec n) as [_ Hlt]; [lia|]. eapply Z.lt_le_trans; [exact Hlt|]. apply Z.pow_le_mono_l. lia.
Qed.

(** *** Discipline *)
Record PrivilegedWatch := mk_watch {
  pw_stamp : option Z;
  pw_parent : option (result entry_type);      (* what /tmp turned out to be *)
  pw_created : bool;                           (* the staging directory, exclusively *)
  pw_staged : option (result (Z + TransferSummary));
  pw_installed : option (result CommandOutput);
  pw_commands : list (str * RemoteUser);
}.
Definition not_begun : PrivilegedWatch := mk_watch None None false None None [].

(** What one installation does, for a file or a tree. *)
Record installation := mk_installation {
  in_tree : bool; in_name : str; in_user : str; in_remote : str; in_command : str → str;
}.

Section discipline.
Context (i : installation).

Definition staged_at (g : PrivilegedWatch) (path : str) : Prop := ∃ stamp, pw_stamp g = Some stamp ∧ path = tmp_staging_path stamp (in_name i).
Definition is_staged (g : PrivilegedWatch) : Prop := ∃ v, pw_staged g = Some (Ok v).
Definition removal (path : str) : str := lit (if in_tree i then "rm -rf -- " else "rm -f -- ") ++ quote_posix path.

Definition privileged_allowed (q : privileged_request) (g : PrivilegedWatch) : Prop :=
  match q with
  | PUpload _ path o => in_tree i = false ∧ staged_at g path ∧ resume o = false ∧ atomic o = true
  | PUploadTree _ path o => in_tree i = true ∧ staged_at g path ∧ pw_created g = true ∧ resume o = false ∧ atomic o = true
  | PCreateDir path => staged_at g path ∧ pw_parent g = Some (Ok TypeDir)
  | PExec command (Sudo user) =>
      user = in_user i ∧
      ((∃ path, staged_at g path ∧ command = in_command i path) ∧ is_staged g ∧ pw_installed g = None ∨
       command = removal (in_remote i ++ lit ".kaduox.privileged.part") ∧ is_Some (pw_installed g))
  | PExec command Current => ∃ path, staged_at g path ∧ command = removal path ∧ (pw_created g = true ∨ is_staged g)
  | _ => True
  end.
Definition privileged_step (q : privileged_request) : privileged_answer q → PrivilegedWatch → PrivilegedWatch → Prop :=
  match q with
  | PStamp => λ stamp g g', g' = mk_watch (Some stamp) (pw_parent g) (pw_created g) (pw_staged g) (pw_installed g) (pw_commands g)
  | PLstat path => λ r g g', g' = mk_watch (pw_stamp g) (Some r) (pw_created g) (pw_staged g) (pw_installed g) (pw_commands g)
  | PCreateDir _ => λ r g g', g' = mk_watch (pw_stamp g) (pw_parent g) (is_ok r) (pw_staged g) (pw_installed g) (pw_commands g)
  | PUpload _ _ _ => λ r g g', g' = mk_watch (pw_stamp g) (pw_parent g) (pw_created g)
      (Some (inl <$> r)) (pw_installed g) (pw_commands g)
  | PUploadTree _ _ _ => λ r g g', g' = mk_watch (pw_stamp g) (pw_parent g) (pw_created g)
      (Some (inr <$> r)) (pw_installed g) (pw_commands g)
  | PExec command user => λ r g g', g' = mk_watch (pw_stamp g) (pw_parent g) (pw_created g) (pw_staged g)
      (match pw_installed g, user with None, Sudo _ => Some r | o, _ => o end) (pw_commands g ++ [(command, user)])
  | _ => λ _ g g', g' = g
  end.
Definition privileged_monitor : monitor privileged_interface PrivilegedWatch :=
  Monitor (E := privileged_interface) privileged_allowed privileged_step.

(** The command ran and said that it succeeded. *)
Definition installed_well (g : PrivilegedWatch) : Prop := ∃ output, pw_installed g = Some (Ok output) ∧ exit_status output = Some 0.
(** The staged files were removed, as the login user. *)
Definition staging_removed (g : PrivilegedWatch) : Prop := ∃ path, staged_at g path ∧ (removal path, Current) ∈ pw_commands g.
End discipline.

Lemma install_success output : ensure_privileged_install_success output = Ok tt ↔ exit_status output = Some 0.
Proof.
  unfold ensure_privileged_install_success. destruct (exit_status output) as [status|]; [|done]. rewrite bail_if_ok, negb_false_iff, Z.eqb_eq.
  split; [by intros ->|by intros [= ->]].
Qed.

(** ** Theorems *)

Definition file_installation (local_path remote_path as_user : str) (mode : Z) : installation :=
  mk_installation false (default (lit "upload") (path_file_name local_path)) as_user remote_path
    (λ staging, install_command mode staging (remote_path ++ lit ".kaduox.privileged.part") remote_path).
Definition tree_installation (local_path remote_path as_user : str) (file_mode directory_mode : Z) : installation :=
  mk_installation true (default (lit "tree") (path_file_name local_path)) as_user remote_path
    (λ staging, privileged_tree_install_command staging remote_path (remote_path ++ lit ".kaduox.privileged.part") file_mode directory_mode).

(** One request further. *)
Ltac privileged_simpl :=
  cbn [wp p_bind p_try p_context p_ret p_err ask in_context bail_if allowed step privileged_monitor privileged_step pw_stamp pw_parent
       pw_created pw_staged pw_installed pw_commands fmap result_fmap app mbind result_bind].
Ltac privileged_ask := unfold pv, awaited; privileged_simpl; split; [|intros ? ? ->; privileged_simpl].

(** The end of an installation. *)
Lemma install_result {A} i (v : A) (inject : A → Z + TransferSummary) result g (Q : PrivilegedWatch → Prop) :
  (∀ v v', inject v = inject v' → v = v') → pw_staged g = Some (Ok (inject v)) → pw_installed g = Some result → Q g →
  wp (privileged_monitor i) (output ⇐ Done result; Done (ensure_privileged_install_success output) ;; p_ret v)%prog
    (λ r g, (∀ v, r = Ok v ↔ pw_staged g = Some (Ok (inject v)) ∧ installed_well g) ∧ Q g) g.
Proof.
  intros Hinj Hs Hi HQ. rewrite wp_done_bind. unfold installed_well. destruct result as [output|e].
  - rewrite wp_done_bind. pose proof (install_success output) as Hok.
    destruct (ensure_privileged_install_success output) as [[]|e]; cbn; (split; [|done]); intros v'; rewrite Hs, Hi.
    + split; [intros [= ->]|intros [[= H] _]; by rewrite (Hinj _ _ H)]. split; [done|]. exists output. split; [done|by apply Hok].
    + split; [done|]. intros [_ (o & [= <-] & Ho)]. by apply Hok in Ho.
  - cbn. split; [|done]. intros v'. rewrite Hs, Hi. split; [done|]. by intros [_ (o & [=] & _)].
Qed.

Lemma file_install_disciplined local_path remote_path as_user mode o :
  let i := file_installation local_path remote_path as_user mode in
  wp (privileged_monitor i) (upload_privileged local_path remote_path as_user mode o)
    (λ r g, (∀ bytes, r = Ok bytes ↔ pw_staged g = Some (Ok (inl bytes)) ∧ installed_well g) ∧
            (is_staged g → staging_removed i g) ∧ (g = not_begun ∨ mode ≤ 4095 ∧ remote_path ≠ [])) not_begun.
Proof.
  intros i. unfold upload_privileged, validate_mode.
  assert (∀ e : string, (∀ bytes, Err e = Ok bytes ↔ pw_staged not_begun = Some (Ok (inl bytes)) ∧ installed_well not_begun) ∧
    (is_staged not_begun → staging_removed i not_begun) ∧ (not_begun = not_begun ∨ mode ≤ 4095 ∧ remote_path ≠ [])) as Hnone.
  { intros e. split_and!; [|by intros [v [=]]|by left]. intros bytes. by split; [|intros [[=] _]]. }
  rewrite wp_done_bind. destruct (4095 <? mode) eqn:Hmode; cbn [bail_if]; [apply Hnone|].
  rewrite wp_done_bind. case_bool_decide as Hr; cbn [bail_if]; [apply Hnone|]. to_prop. cbv zeta. clear Hnone.
  privileged_ask; [done|]. rename r into stamp.
  privileged_ask; [split_and!; [done|by exists stamp|done..]|]. change (result Z) in r. destruct r as [bytes|e]; privileged_simpl.
  2:{ split_and!; [|by intros [v [=]]|by right]. intros bytes. by split; [|intros [[=] _]]. }
  privileged_ask.
  { split; [done|]. left. split_and!; [eexists; split; [by exists stamp|done]|by eexists|done]. }
  change (result CommandOutput) in r.
  privileged_ask. { eexists. split_and!; [by exists stamp|done|right; by eexists]. }
  apply (install_result i bytes inl r _ (λ g, (is_staged g → staging_removed i g) ∧ (g = not_begun ∨ mode ≤ 4095 ∧ remote_path ≠ [])));
    [by intros ?? [=]|done..|]. split; [|by right]. intros _. eexists. split; [by exists stamp|]. by right; left.
Qed.

Ltac fails_with H :=
  match goal with
  | |- context [installed_well ?g] => solve [apply (H _ g); first [done | by left | by right]]
  | |- wp _ _ _ ?g => solve [apply (H _ g); first [done | by left | by right]]
  end.

Lemma tree_install_disciplined local_path remote_path as_user file_mode directory_mode o :
  let i := tree_installation local_path remote_path as_user file_mode directory_mode in
  wp (privileged_monitor i) (upload_privileged_recursive local_path remote_path as_user file_mode directory_mode o)
    (λ r g, (∀ summary, r = Ok summary ↔ pw_staged g = Some (Ok (inr summary)) ∧ installed_well g) ∧
            (is_Some (pw_staged g) → staging_removed i g) ∧
            (is_Some (pw_installed g) → (removal i (remote_path ++ lit ".kaduox.privileged.part"), Sudo as_user) ∈ pw_commands g) ∧
            (g = not_begun ∨ file_mode ≤ 4095 ∧ directory_mode ≤ 4095 ∧ validate_recursive_destination remote_path = Ok tt)) not_begun.
Proof.
  intros i. set (valid := file_mode ≤ 4095 ∧ directory_mode ≤ 4095 ∧ validate_recursive_destination remote_path = Ok tt).
  assert (∀ (e : string) g, pw_staged g = None → pw_installed g = None → (g = not_begun ∨ valid) →
    (∀ summary, Err e = Ok summary ↔ pw_staged g = Some (Ok (inr summary)) ∧ installed_well g) ∧
    (is_Some (pw_staged g) → staging_removed i g) ∧
    (is_Some (pw_installed g) → (removal i (remote_path ++ lit ".kaduox.privileged.part"), Sudo as_user) ∈ pw_commands g) ∧
    (g = not_begun ∨ valid)) as Hnone.
  { intros e g Hs Hi Hv. rewrite Hs, Hi. split_and!; [|by intros [? [=]]..|done]. intros ?. by split; [|intros [[=] _]]. }
  unfold upload_privileged_recursive, validate_mode.
  rewrite wp_done_bind. destruct (4095 <? file_mode) eqn:Hfile; cbn [bail_if]; [fails_with Hnone|].
  rewrite wp_done_bind. destruct (4095 <? directory_mode) eqn:Hdir; cbn [bail_if]; [fails_with Hnone|].
  rewrite wp_done_bind. destruct (validate_recursive_destination remote_path) as [[]|e] eqn:Hdest; [|fails_with Hnone].
  to_prop. assert valid as Hvalid by by split_and!. clearbody valid. cbv zeta.
  privileged_ask; [done|]. change (result entry_type) in r. destruct r as [kind|e]; privileged_simpl; [|fails_with Hnone].
  destruct kind; privileged_simpl; [|fails_with Hnone..].
  privileged_ask; [done|]. rename r into stamp. unfold create_privileged_staging_directory.
  privileged_ask; [done|]. change (result unit) in r. destruct r as [[]|e]; privileged_simpl; [|fails_with Hnone].
  privileged_ask; [done|]. change (result entry_type) in r. destruct r as [kind|e]; privileged_simpl.
  2:{ privileged_ask; [done|]. fails_with Hnone. }
  destruct kind; privileged_simpl; [|privileged_ask; [done|]; fails_with Hnone..].
  privileged_ask; [split; [by exists stamp|done]|]. change (result unit) in r. destruct r as [[]|e]; privileged_simpl;
    [|privileged_ask; [done|]; fails_with Hnone].
  privileged_ask; [done|]. change (result unit) in r. destruct r as [[]|e]; privileged_simpl; [|fails_with Hnone].
  privileged_ask; [split_and!; [done|by exists stamp|done..]|]. change (result TransferSummary) in r. destruct r as [summary|e]; privileged_simpl.
  2:{ privileged_ask; [eexists; split_and!; [by exists stamp|done|by left]|].
      split_and!; [|intros _; eexists; split; [by exists stamp|by left]|by intros [? [=]]|by right].
      intros summary. by split; [|intros [[=] _]]. }
  privileged_ask; [split; [done|]; left; split_and!; [eexists; split; [by exists stamp|done]|by eexists|done]|].
  change (result CommandOutput) in r.
  privileged_ask; [eexists; split_and!; [by exists stamp|done|by left]|].
  privileged_ask; [split; [done|]; right; split; [done|by eexists]|].
  apply (install_result i summary inr r _ (λ g, (is_Some (pw_staged g) → staging_removed i g) ∧
    (is_Some (pw_installed g) → (removal i (remote_path ++ lit ".kaduox.privileged.part"), Sudo as_user) ∈ pw_commands g) ∧
    (g = not_begun ∨ valid))); [by intros ?? [=]|done..|].
  split_and!; [intros _; eexists; split; [by exists stamp|by right; left]|intros _; by do 2 right; left|by right].
Qed.

(** No path and no user name can make a privileged command do anything else.  A shell reads the
    command that installs a file, the one that installs a tree and the clean-ups as the fixed
    scripts below, in which every path is one word (with a fixed suffix where the script has one)
    that stands for exactly that path; the modes are the given numbers in octal; and the login shell
    passes the whole script to [sudo]'s shell as one argument. *)
Theorem privileged_commands_read user staging target work mode file_mode directory_mode :
  0 ≤ mode → 0 ≤ file_mode → 0 ≤ directory_mode →
  let install := install_command mode staging work target in
  let tree := privileged_tree_install_command staging target work file_mode directory_mode in
  script_read install =
    Some [raw "install"; raw "-m"; octal mode; raw "--"; value staging; value work; operator "&&";
          raw "mv"; raw "-f"; raw "--"; value work; value target] ∧
  script_read tree =
    Some [raw "set"; raw "-e"; operator ";";
          raw "rm"; raw "-rf"; raw "--"; value work; operator ";";
          raw "install"; raw "-d"; raw "-m"; octal directory_mode; raw "--"; value work; operator ";";
          raw "cp"; raw "-R"; raw "--"; value_then staging "/."; value_then work "/"; operator ";";
          raw "find"; value work; raw "-type"; raw "d"; raw "-exec"; raw "chmod"; octal directory_mode; raw "--"; raw "{}"; raw "+"; operator ";";
          raw "find"; value work; raw "-type"; raw "f"; raw "-exec"; raw "chmod"; octal file_mode; raw "--"; raw "{}"; raw "+"; operator ";";
          raw "if"; raw "["; raw "-e"; value target; raw "]"; operator "||"; raw "["; raw "-L"; value target; raw "]"; operator ";";
          raw "then"; raw "rm"; raw "-rf"; raw "--"; value target; operator ";"; raw "fi"; operator ";";
          raw "mv"; raw "--"; value work; value target] ∧
  script_read (cleanup_command staging) = Some [raw "rm"; raw "-f"; raw "--"; value staging] ∧
  script_read (tree_cleanup_command staging) = Some [raw "rm"; raw "-rf"; raw "--"; value staging] ∧
  (∀ path, text_of_word (word_of path) = path) ∧ oct_value (oct_of mode) = mode ∧
  ∀ command text, command ∈ [install; tree; tree_cleanup_command work] → command_for_user command (Sudo user) Unix = Ok text →
    sh_read text = Some [mk_command [] [lit "sudo"; lit "-n"; lit "-u"; user; lit "--"; lit "sh"; lit "-lc"; command]].
Proof.
  intros Hmode Hfile Hdir install tree. split_and!.
  - by apply install_command_reads.
  - by apply tree_install_command_reads.
  - apply cleanup_reads.
  - apply cleanup_reads.
  - apply text_word_of.
  - by apply oct_of_value.
  - intros command text _ Htext. cbn [command_for_user bool_decide] in Htext. apply bind_ok in Htext as ([] & _ & Htext%Ok_inj). subst text.
    apply sudo_reads.
Qed.

Lemma privileged_commands_read_witness :
  script_read (install_command 420 (lit "/tmp/.kaduox-7-a_b") (lit "/srv/a b; rm -rf $HOME.kaduox.privileged.part") (lit "/srv/a b; rm -rf $HOME")) =
  Some [raw "install"; raw "-m"; raw "644"; raw "--"; raw "/tmp/.kaduox-7-a_b";
        Token (quoted (lit "/srv/a b; rm -rf $HOME.kaduox.privileged.part")); operator "&&";
        raw "mv"; raw "-f"; raw "--"; Token (quoted (lit "/srv/a b; rm -rf $HOME.kaduox.privileged.part"));
        Token (quoted (lit "/srv/a b; rm -rf $HOME"))].
Proof.
  etransitivity; [apply (privileged_commands_read [] (lit "/tmp/.kaduox-7-a_b") (lit "/srv/a b; rm -rf $HOME")
    (lit "/srv/a b; rm -rf $HOME.kaduox.privileged.part") 420 0 0); lia|reflexivity].
Defined.

(** C28: an installation as another user is disciplined, whatever the answers.  Nothing is asked of
    the server for a mode above 0o7777 or a refused destination; a file is staged, and a tree only
    into a directory that was exclusively created below a real [/tmp], as new files under the name
    drawn for this installation; the install command runs once, as the given user, after the staging
    succeeded; then, and when staging a tree failed, the staged files are removed as the login user,
    and a tree's work directory as the given user; and the installation succeeds, with the staging's
    count, exactly when the command reported the status 0. *)
Theorem privileged_install_disciplined local_path remote_path as_user file_mode directory_mode o :
  (let i := file_installation local_path remote_path as_user file_mode in
   wp (privileged_monitor i) (upload_privileged local_path remote_path as_user file_mode o)
     (λ r g, (∀ bytes, r = Ok bytes ↔ pw_staged g = Some (Ok (inl bytes)) ∧ installed_well g) ∧
             (is_staged g → staging_removed i g) ∧ (g = not_begun ∨ file_mode ≤ 4095 ∧ remote_path ≠ [])) not_begun) ∧
  (let i := tree_installation local_path remote_path as_user file_mode directory_mode in
   wp (privileged_monitor i) (upload_privileged_recursive local_path remote_path as_user file_mode directory_mode o)
     (λ r g, (∀ summary, r = Ok summary ↔ pw_staged g = Some (Ok (inr summary)) ∧ installed_well g) ∧
             (is_Some (pw_staged g) → staging_removed i g) ∧
             (is_Some (pw_installed g) → (removal i (remote_path ++ lit ".kaduox.privileged.part"), Sudo as_user) ∈ pw_commands g) ∧
             (g = not_begun ∨ file_mode ≤ 4095 ∧ directory_mode ≤ 4095 ∧ validate_recursive_destination remote_path = Ok tt)) not_begun).
Proof. split; [apply file_install_disciplined|apply tree_install_disciplined]. Qed.

(** The root can be named with two slashes; and behind a slash at the end of the
    destination, the work path is inside the tree that the script removes before it
    moves the work path there. *)
Lemma recursive_destination_gaps :
  validate_recursive_destination (lit "/") ≠ Ok tt ∧ validate_recursive_destination (lit "//") = Ok tt ∧
  validate_recursive_destination (lit "/srv/app/") = Ok tt ∧
  privileged_work_path (lit "/srv/app/") = lit "/srv/app/" ++ lit ".kaduox.privileged.part".
Proof. split_and!; [by intros [=]|reflexivity..]. Qed.

(** A server whose answers are all good but for the end of the SFTP session. *)
Definition closing_fails (q : privileged_interface) (log : list str) : answer q * list str :=
  match q return answer (i := privileged_interface) q * list str with
  | PLocalLstat _ | PLstat _ => (Ok TypeDir, log)
  | PStamp => (7, log)
  | POpenSftp _ => (Ok tt, log)
  | PCreateDir path => (Ok tt, log ++ [path])
  | PCloseSftp => (Err "connection lost", log)
  | PUpload _ _ _ => (Ok 0, log)
  | PUploadTree _ _ _ => (Ok (mk_summary 0 0 0 0), log)
  | PExec command _ => (Ok (mk_output [] [] (Some 0)), log ++ [command])
  end.
(** The created staging directory is left behind. *)
Lemma failed_close_leaves_staging :
  run closing_fails (upload_privileged_recursive (lit "/home/u/site") (lit "/srv/app") (lit "www") 420 493 default_options) [] =
  (Err "connection lost", [lit "/tmp/.kaduox-7-site"]).
Proof. reflexivity. Qed.

Example install_texts :
  install_command 420 (lit "/tmp/.kaduox-7-a") (lit "/srv/x y.kaduox.privileged.part") (lit "/srv/x y") =
    lit "install -m 644 -- /tmp/.kaduox-7-a '/srv/x y.kaduox.privileged.part' && mv -f -- '/srv/x y.kaduox.privileged.part' '/srv/x y'" ∧
  tmp_staging_path 7 (lit "a b") = lit "/tmp/.kaduox-7-a_b" ∧
  path_file_name (lit "/home/u/a b") = Some (lit "a b") ∧ path_file_name (lit "..") = None.
Proof. repeat split. Qed.
