(* ===== verification/Fleet.v ===== *)
(** * Fleet commands ([crates/kaduox-ssh-cli/src/fleet_main.rs])

    One command on many hosts: the checks before anything is asked or connected, the
    plan, the bounded set of workers, what a worker does with its host, and what is
    printed.  Theorems: every target is run once, in order, within the limits, and the
    exit tells whether all succeeded; a worker's result says exactly what happened on
    its host; output is bounded and inert for the terminal; and a plan shows no secret. *)

From stdpp Require Import base list gmap strings numbers sorting.
From Stdlib Require Import Lia.
From S2P Require Import Prelude RustStr StrFacts HostModel IncludeEnv OpenSshInclude Config Targets ConnectionManager HostTrust RemoteCommand TransferOps Program Authenticate Exec IncludeScope.

(** ** Definitions *)
Definition DEFAULT_JOBS : Z := 8.
Definition MAX_JOBS : Z := 64.
Definition DEFAULT_OUTPUT_LIMIT : Z := 1024 * 1024.
Definition MAX_OUTPUT_LIMIT : Z := 16 * 1024 * 1024.
Definition MAX_OUTPUT_WINDOW : Z := 512 * 1024 * 1024.
Definition MAX_TARGETS : Z := 1024.

Record Cli := mk_cli {
  cli_plan : bool; cli_jobs : Z; cli_output_limit : Z; cli_raw_output : bool;
  cli_port : option Z; cli_user : option str; cli_identity : option os_path; cli_ask_key_passphrase : bool;
  cli_password : bool; cli_keyboard_interactive : bool; cli_agent : bool; cli_host_key : option HostKeyPolicy;
  cli_jump : option str; cli_proxy_command : option str; cli_forward_agent : bool;
  cli_as_user : option str; cli_cwd : option str; cli_environment : list str; cli_command : list str;
}.

Inductive AuthTemplate :=
| TemplatePassword (secret : str)
| TemplateKeyboardInteractive (secret : str)
| TemplatePrivateKey (path : os_path) (passphrase : option str)
| TemplateAgent
| TemplateAuto.

Definition for_config (t : AuthTemplate) (config : ConnectionConfig) : Authentication :=
  match t with
  | TemplatePassword secret => AuthPassword secret
  | TemplateKeyboardInteractive secret => AuthKeyboardInteractive secret
  | TemplatePrivateKey path passphrase => AuthPrivateKey path passphrase
  | TemplateAgent => AuthAgent
  | TemplateAuto => AuthAuto (c_identity_files config) None
  end.

Record PreparedTarget := mk_prepared { pt_ordinal : nat; pt_label : str; pt_config : ConnectionConfig }.

(** *** Output that keeps a bounded prefix *)
Record CappedBuffer := mk_capped { cb_bytes : list Z; cb_limit : Z; cb_truncated : bool }.
Definition capped_new (limit : Z) : CappedBuffer := mk_capped [] limit false.
(** [poll_write]: everything is consumed. *)
Definition capped_write (b : CappedBuffer) (buf : list Z) : CappedBuffer :=
  let remaining := Z.max 0 (cb_limit b - zlen (cb_bytes b)) in
  let retain := Z.min remaining (zlen buf) in
  mk_capped (if negb (retain =? 0) then cb_bytes b ++ take (Z.to_nat retain) buf else cb_bytes b) (cb_limit b)
    (if retain <? zlen buf then true else cb_truncated b).

(** *** Terminal output *)
Definition safe_char (c : char) : str :=
  if c =? LF then [LF]
  else if c =? TAB then [TAB]
  else if c =? CR then lit "\r"
  else if c =? 27 then lit "\x1b"
  else if is_control c then lit "\u{" ++ hex_of c ++ lit "}"
  else [c].
Definition terminal_safe (value : str) : str := concat (safe_char <$> value).

Definition format_endpoint (host : str) (port : Z) : str :=
  if contains_char host colon && negb (starts_with host [open_bracket] && ends_with host [close_bracket])
  then lit "[" ++ host ++ lit "]:" ++ dec_of port
  else host ++ lit ":" ++ dec_of port.

Record FleetResult := mk_fleet_result {
  fr_ordinal : nat; fr_label : str; fr_endpoint : str; fr_host_key : option str; fr_exit_status : option Z;
  fr_stdout : CappedBuffer; fr_stderr : CappedBuffer; fr_error : option str;
}.
Definition succeeded (r : FleetResult) : bool :=
  bool_decide (fr_error r = None) && bool_decide (fr_exit_status r = Some 0).

(** *** Checks *)
Definition checked_mul (a b : Z) : option Z := if a * b <=? usize_max then Some (a * b) else None.
Definition validate_limits (cli : Cli) (target_count : Z) : result unit :=
  bail_if (target_count =? 0) "fleet requires at least one --host or --group target" ≫= λ _,
  bail_if (MAX_TARGETS <? target_count) "fleet target count cannot exceed its limit" ≫= λ _,
  bail_if ((cli_jobs cli =? 0) || (MAX_JOBS <? cli_jobs cli)) "--jobs is out of range" ≫= λ _,
  bail_if ((cli_output_limit cli =? 0) || (MAX_OUTPUT_LIMIT <? cli_output_limit cli)) "--output-limit is out of range" ≫= λ _,
  with_context (value ← checked_mul (cli_jobs cli) (cli_output_limit cli); checked_mul value 2) "fleet output window overflow" ≫= λ window,
  bail_if (MAX_OUTPUT_WINDOW <? window) "jobs × output-limit × 2 is above its limit".

Definition parse_environment (value : str) : result (str * str) := with_context (split_once 61 value) "--env must be NAME=VALUE".

Definition build_command_spec (cli : Cli) : result (option RemoteCommandSpec) :=
  match cli_command cli with
  | [] =>
      bail_if (bool_decide (is_Some (cli_cwd cli)) || negb (bool_decide (cli_environment cli = [])) || bool_decide (is_Some (cli_as_user cli)))
        "--cwd, --env, and --as-user require a remote command after `--`" ≫= λ _,
      Ok None
  | program :: arguments =>
      try_fold (λ environment entry, parse_environment entry ≫= λ e, Ok (environment ++ [e])) [] (cli_environment cli) ≫= λ environment,
      let command := mk_spec program arguments environment (cli_cwd cli) in
      RemoteCommand.validated command ≫= λ _,
      Ok (Some command)
  end.

Definition with_policy (policy : HostKeyPolicy) (jump : JumpHost) : JumpHost :=
  mk_jump (jh_alias jump) (jh_host jump) (jh_port jump) (jh_username jump) (jh_identity_files jump) policy (jh_known_hosts_file jump).

Definition planned_auth_name (cli : Cli) : str :=
  if cli_password cli then lit "password-prompt-on-execute"
  else if cli_keyboard_interactive cli then lit "keyboard-interactive-prompt-on-execute"
  else if cli_agent cli then lit "agent"
  else if bool_decide (is_Some (cli_identity cli)) then
    if cli_ask_key_passphrase cli then lit "private-key-passphrase-prompt-on-execute" else lit "private-key"
  else lit "auto-agent-configured-identities".

Definition route_name (route : ConnectionRouteSnapshot) : str :=
  match route with
  | Direct => lit "direct"
  | ProxyCommand => lit "proxy-command(redacted)"
  | ProxyJump hops => lit "proxy-jump:" ++ dec_of (zlen hops)
  end.

Definition host_key_policy_name (policy : HostKeyPolicy) : str :=
  match policy with Strict => lit "strict" | AcceptNew => lit "accept-new" | Insecure => lit "insecure" end.

Definition remote_user_name (user : RemoteUser) : str :=
  match user with Current => lit "current" | Sudo user => lit "sudo:" ++ terminal_safe user end.

Definition comma_joined (l : list str) : str := match l with [] => [] | x :: l => x ++ concat ((λ y, lit "," ++ y) <$> l) end.
Definition bool_text (b : bool) : str := if b then lit "true" else lit "false".

(** The line of a target in the plan. *)
Definition plan_line (ordinal : nat) (label : str) (s : ConnectionConfigSnapshot) : str :=
  lit "[" ++ dec_of (Z.of_nat ordinal + 1) ++ lit "] target=" ++ terminal_safe label ++
  lit " endpoint=" ++ terminal_safe (format_endpoint (s_host s) (s_port s)) ++ lit " user=" ++ terminal_safe (s_username s) ++
  lit " route=" ++ route_name (s_route s) ++ lit " host-key=" ++ host_key_policy_name (s_host_key_policy s) ++
  lit " identities=" ++ dec_of (zlen (s_identity_files s)) ++ lit " agent-forwarding=" ++ bool_text (s_agent_forwarding s) ++ [LF].

(** What [print_plan] writes. *)
Definition plan_text (cli : Cli) (targets : list PreparedTarget) (command : option RemoteCommandSpec) (remote_user : RemoteUser) : str :=
  lit "fleet-plan targets=" ++ dec_of (zlen targets) ++ lit " jobs=" ++ dec_of (cli_jobs cli) ++
  lit " auth=" ++ planned_auth_name cli ++ lit " command=" ++ (if bool_decide (is_Some command) then lit "validated" else lit "none") ++ [LF] ++
  match command with
  | Some command =>
      lit "command program=" ++ terminal_safe (program command) ++ lit " args=" ++ dec_of (zlen (arguments command)) ++
      lit " env-names=" ++ terminal_safe (comma_joined (environment command).*1) ++
      lit " cwd=" ++ (if bool_decide (is_Some (working_directory command)) then lit "set" else lit "unset") ++
      lit " remote-user=" ++ remote_user_name remote_user ++ [LF]
  | None => []
  end ++
  concat ((λ target, plan_line (pt_ordinal target) (pt_label target) (snapshot (pt_config target))) <$> targets).

(** [write_remote_output] *)
Definition remote_output (raw : bool) (bytes : list Z) : list Z :=
  if raw then bytes ++ (if bool_decide (last bytes = Some LF) then [] else [LF])
  else utf8 (terminal_safe (to_string_lossy bytes)) ++ [LF].

Definition output_section (name : string) (raw : bool) (b : CappedBuffer) : list Z :=
  match cb_bytes b with
  | [] => []
  | bytes => utf8 (lit "--- " ++ lit name ++ (if cb_truncated b then lit " (truncated)" else []) ++ lit " ---" ++ [LF]) ++ remote_output raw bytes
  end.

(** What [print_result] writes. *)
Definition result_bytes (r : FleetResult) (completed total : nat) (raw : bool) : list Z :=
  utf8 (lit "=== [" ++ dec_of (Z.of_nat completed) ++ lit "/" ++ dec_of (Z.of_nat total) ++ lit "] target=" ++ terminal_safe (fr_label r) ++
        lit " endpoint=" ++ terminal_safe (fr_endpoint r) ++ lit " ordinal=" ++ dec_of (Z.of_nat (fr_ordinal r) + 1) ++
        lit " exit=" ++ match fr_exit_status r with Some status => dec_of status | None => lit "none" end ++
        match fr_host_key r with Some key => lit " host-key=" ++ terminal_safe key | None => [] end ++ lit " ===" ++ [LF]) ++
  output_section "stdout" raw (fr_stdout r) ++ output_section "stderr" raw (fr_stderr r) ++
  match fr_error r with Some error => utf8 (lit "--- error ---" ++ [LF] ++ terminal_safe error ++ [LF]) | None => [] end ++ [LF].

(** *** Requests *)
Inductive fleet_request :=
| FPrompt (message : str)
| FPrint (bytes : list Z)
| FWarn (text : str)
| FConnect (config : ConnectionConfig) (authentication : Authentication)
| FServerHostKey (client : nat)
| FExec (client : nat) (command : str) (remote_user : RemoteUser)
| FClose (client : nat).
Definition fleet_answer (q : fleet_request) : Type :=
  match q with
  | FPrompt _ => result str
  | FPrint _ | FClose _ => result unit
  | FWarn _ => unit
  | FConnect _ _ => result nat
  | FServerHostKey _ => option ServerHostKeyInfo
  | FExec _ _ _ => list (sink * list Z) * result (option Z)     (* what was written, then how it ended *)
  end.
Definition fleet_interface : interface := Interface fleet_request fleet_answer.
Abbreviation fleet A := (prog fleet_interface A).
Definition fl (q : fleet_interface) : fleet (answer q) := ask q.

Definition resolve_auth_template (cli : Cli) : fleet AuthTemplate :=
  (if cli_password cli then secret ⇐ awaited (fl (FPrompt (lit "Fleet SSH password: "))); p_ret (TemplatePassword secret)
   else if cli_keyboard_interactive cli then
     secret ⇐ awaited (fl (FPrompt (lit "Fleet keyboard-interactive response: "))); p_ret (TemplateKeyboardInteractive secret)
   else if cli_agent cli then p_ret TemplateAgent
   else match cli_identity cli with
        | Some path =>
            passphrase ⇐ (if cli_ask_key_passphrase cli then
                            secret ⇐ awaited (fl (FPrompt (lit "Fleet private key passphrase: "))); p_ret (Some secret)
                          else p_ret None);
            p_ret (TemplatePrivateKey path passphrase)
        | None => p_ret TemplateAuto
        end)%prog.

(** *** A worker *)
Record Job := mk_job {
  job_target : PreparedTarget; job_authentication : AuthTemplate; job_command : str; job_user : RemoteUser; job_limit : Z;
}.

Definition written (s : sink) (ws : list (sink * list Z)) : list (list Z) := (filter (λ w, w.1 = s) ws).*2.
Definition capture (limit : Z) (s : sink) (ws : list (sink * list Z)) : CappedBuffer := foldl capped_write (capped_new limit) (written s ws).

Definition key_text (info : ServerHostKeyInfo) : str := ki_algorithm info ++ lit " " ++ ki_fingerprint info.

Definition run_target (j : Job) : fleet FleetResult :=
  (let target := job_target j in
   let config := pt_config target in
   let endpoint := format_endpoint (c_host config) (c_port config) in
   connected ⇐ fl (FConnect config (for_config (job_authentication j) config));
   match connected with
   | Err error =>
       p_ret (mk_fleet_result (pt_ordinal target) (pt_label target) endpoint None None (capped_new (job_limit j)) (capped_new (job_limit j))
                (Some (lit "connect/authentication failed: " ++ lit error)))
   | Ok ssh =>
       host_key ⇐ fl (FServerHostKey ssh);
       execution ⇐ fl (FExec ssh (job_command j) (job_user j));
       close_result ⇐ fl (FClose ssh);
       let '(exit_status, error) :=
         match execution.2, close_result with
         | Ok status, Ok _ => (status, None)
         | Ok status, Err error => (status, Some (lit "command completed but SSH disconnect failed: " ++ lit error))
         | Err error, Ok _ => (None, Some (lit "remote command failed: " ++ lit error))
         | Err exec_error, Err close_error =>
             (None, Some (lit "remote command failed: " ++ lit exec_error ++ lit "; SSH disconnect also failed: " ++ lit close_error))
         end in
       p_ret (mk_fleet_result (pt_ordinal target) (pt_label target) endpoint (key_text <$> host_key) exit_status
                (capture (job_limit j) Out execution.1) (capture (job_limit j) ErrOut execution.1) error)
   end)%prog.

(** *** The set of workers *)
Definition fleet_set : interface := pooled fleet_interface Job FleetResult.
Abbreviation fleeted A := (prog fleet_set A).
Definition main_asks {A} (p : fleet A) : fleeted A := sys fleet_interface Job FleetResult p.
Definition spawn_target (j : Job) : fleeted unit := ask (E := fleet_set) (Spawn j).
Definition join_next : fleeted (option (result FleetResult)) := ask (E := fleet_set) JoinNext.

Section main.
Context (sys : System) (home_var : option str) (metadata : str → io_result unit).
Context (russh_parse : str → str → result RusshConfig) (russh_default : str → RusshConfig).

Definition build_connection_config (cli : Cli) (label : str) : result ConnectionConfig :=
  target_parse label ≫= λ target,
  let target_user := match cli_user cli with Some user => Some user | None => t_username target end in
  from_openssh sys home_var metadata russh_parse russh_default (t_host target) target_user (cli_port cli) ≫= λ config,
  match cli_jump cli with
  | Some jump => Some <$> resolve_jump_hosts sys home_var metadata russh_parse russh_default jump
  | None => Ok None
  end ≫= λ jump_hosts,
  let proxy := if bool_decide (is_Some jump_hosts) then None else c_proxy_command config in
  let jumps := default (c_jump_hosts config) jump_hosts in
  let '(proxy, jumps) := match cli_proxy_command cli with Some proxy_command => (Some proxy_command, []) | None => (proxy, jumps) end in
  let jumps := match cli_host_key cli with Some policy => with_policy policy <$> jumps | None => jumps end in
  Ok (mk_config (c_alias config) (c_host config) (default (c_port config) (cli_port cli)) (default (c_username config) (cli_user cli))
        (c_identity_files config) (default (c_host_key_policy config) (cli_host_key cli)) (c_known_hosts_file config)
        (c_keepalive_interval config) (c_inactivity_timeout config) (c_connect_timeout config) (c_channel_open_timeout config)
        (c_channel_request_timeout config) (c_authentication_timeout config) proxy jumps (cli_forward_agent cli)).

(** Every target, before anything else happens. *)
Fixpoint prepare (cli : Cli) (ordinal : nat) (labels : list str) : result (list PreparedTarget) :=
  match labels with
  | [] => Ok []
  | label :: labels =>
      build_connection_config cli label ≫= λ config,
      prepare cli (S ordinal) labels ≫= λ targets, Ok (mk_prepared ordinal label config :: targets)
  end.

Section workers.
Context (raw : bool) (total : nat) (job : PreparedTarget → Job).

(** One result, and the next target; [None] when the fuel ran out, which never happens. *)
Fixpoint collect_results (fuel : nat) (pending : list PreparedTarget) (completed failed : nat) : fleeted (option nat) :=
  match fuel with
  | O => p_ret None
  | S fuel =>
      (joined ⇐ join_next;
       match joined with
       | None => p_ret (Some failed)
       | Some joined =>
           let completed := S completed in
           failed ⇐ match joined with
                    | Ok result =>
                        awaited (main_asks (fl (FPrint (result_bytes result completed total raw)))) ;;
                        p_ret (if negb (succeeded result) then S failed else failed)
                    | Err error =>
                        main_asks (fl (FWarn (lit "=== fleet worker failure [" ++ dec_of (Z.of_nat completed) ++ lit "/" ++
                                             dec_of (Z.of_nat total) ++ lit "] ===" ++ [LF] ++ lit error))) ;;
                        p_ret (S failed)
                    end;
           match pending with
           | [] => collect_results fuel [] completed failed
           | target :: pending => spawn_target (job target) ;; collect_results fuel pending completed failed
           end
       end)%prog
  end.
End workers.

Definition fleet_main (cli : Cli) (labels : result (list str)) : fleeted unit :=
  (labels ⇐ Done labels;
   Done (validate_limits cli (zlen labels)) ;;
   command ⇐ Done (build_command_spec cli);
   Done (bail_if (negb (cli_plan cli) && negb (bool_decide (is_Some command)))
           "remote command cannot be empty; place the command after `--`") ;;
   let remote_user := match cli_as_user cli with Some user => Sudo user | None => Current end in
   pending ⇐ Done (prepare cli 0 labels);
   if cli_plan cli then awaited (main_asks (fl (FPrint (utf8 (plan_text cli pending command remote_user)))))
   else
     auth_template ⇐ main_asks (resolve_auth_template cli);
     rendered ⇐ Done (with_context command "validated execution command unexpectedly missing" ≫= render_posix);
     let total := length pending in
     let job target := mk_job target auth_template rendered remote_user (cli_output_limit cli) in
     let first := Nat.min (Z.to_nat (cli_jobs cli)) total in
     p_for_each (λ target, spawn_target (job target)) (take first pending) ;;
     failed ⇐ collect_results (cli_raw_output cli) total job (S total) (drop first pending) 0 0;
     Done (bail_if (negb (bool_decide (failed = Some 0%nat))) "fleet command failed on some targets"))%prog.
End main.

(** ** Lemmas *)

(** *** Bounded output *)
Lemma capped_write_prefix limit written buf :
  0 ≤ limit →
  capped_write (mk_capped (take (Z.to_nat limit) written) limit (limit <? zlen written)) buf =
  mk_capped (take (Z.to_nat limit) (written ++ buf)) limit (limit <? zlen (written ++ buf)).
Proof.
  intros Hlimit. unfold capped_write. cbn [cb_bytes cb_limit cb_truncated].
  rewrite take_app, length_take, length_app, Nat2Z.inj_add.
  destruct (Z.le_gt_cases limit (zlen written)) as [Hfull|Hroom].
  - rewrite (Nat.min_l _ (length written)) by lia. rewrite Z2Nat.id by lia. replace (Z.max 0 (limit - limit)) with 0 by lia.
    replace (Z.min 0 (zlen buf)) with 0 by lia. cbn [Z.eqb negb]. replace (Z.to_nat limit - length written)%nat with 0%nat by lia.
    rewrite take_0, app_nil_r. f_equal. destruct (Z.ltb_spec 0 (zlen buf)), (Z.ltb_spec limit (zlen written + zlen buf)); try done; try lia.
    all: destruct (Z.ltb_spec limit (zlen written)); [done|lia].
  - rewrite (Nat.min_r _ (length written)) by lia. rewrite (Z.max_r 0) by lia. replace (limit <? zlen written) with false by (symmetry; apply Z.ltb_ge; lia).
    f_equal.
    + destruct (Z.eqb_spec (Z.min (limit - zlen written) (zlen buf)) 0) as [Hz|Hnz]; cbn [negb].
      * assert (buf = []) as -> by (apply length_zero_iff_nil; lia). by rewrite take_nil, app_nil_r.
      * destruct (Z.le_gt_cases (limit - zlen written) (zlen buf)).
        -- rewrite Z.min_l by lia. do 2 f_equal. lia.
        -- rewrite Z.min_r by lia. rewrite !take_ge by lia. done.
    + destruct (Z.ltb_spec (Z.min (limit - zlen written) (zlen buf)) (zlen buf)), (Z.ltb_spec limit (zlen written + zlen buf)); try done; lia.
Qed.

Lemma capture_prefix limit s ws :
  0 ≤ limit →
  capture limit s ws = mk_capped (take (Z.to_nat limit) (concat (written s ws))) limit (limit <? zlen (concat (written s ws))).
Proof.
  intros Hlimit. unfold capture. generalize (written s ws) as bufs. intros bufs. induction bufs as [|buf bufs IH] using rev_ind.
  - cbn. rewrite take_nil. unfold capped_new. f_equal. symmetry. apply Z.ltb_ge. lia.
  - rewrite foldl_snoc, IH, capped_write_prefix by done. by rewrite concat_app, (concat_cons buf), app_nil_r.
Qed.

(** *** Nothing that controls the terminal *)
Definition inert_char (c : char) : Prop := is_control c = false ∨ c = LF ∨ c = TAB.
Abbreviation inert := (Forall inert_char).

Lemma ascii_inert c : 32 ≤ c < 127 → inert_char c.
Proof. intros Hc. left. unfold is_control. zdecide. done. Qed.

Lemma inert_cons c s : 32 ≤ c < 127 → inert s → inert (c :: s).
Proof. intros Hc Hs. constructor; [by apply ascii_inert|done]. Qed.
Lemma inert_one c : inert_char c → inert [c].
Proof. intros Hc. by constructor. Qed.

Lemma dec_of_inert n : inert (dec_of n).
Proof.
  assert (∀ fuel n acc, inert acc → inert (dec_digits fuel n acc)) as H; [|by apply H].
  induction fuel as [|fuel IH]; intros m acc Hacc; [done|]. cbn -[Z.modulo Z.div].
  assert (inert ((48 + m mod 10) :: acc)) by (apply inert_cons; [pose proof (Z.mod_pos_bound m 10); lia|done]).
  destruct (m / 10 =? 0); [done|by apply IH].
Qed.

Lemma hex_of_inert n : inert (hex_of n).
Proof.
  assert (∀ fuel n acc, inert acc → inert (hex_digits fuel n acc)) as H; [|by apply H].
  induction fuel as [|fuel IH]; intros m acc Hacc; [done|]. cbn -[Z.modulo Z.div].
  assert (inert (hex_digit (m mod 16) :: acc)).
  { apply inert_cons; [|done]. unfold hex_digit. pose proof (Z.mod_pos_bound m 16). destruct (Z.ltb_spec (m mod 16) 10); lia. }
  destruct (m <? 16); [done|by apply IH].
Qed.

Lemma lit_inert s : forallb (λ c, (32 <=? c) && (c <? 127)) (lit s) = true → inert (lit s).
Proof. rewrite forallb_Forall. intros H. apply (Forall_impl _ _ _ H). intros c. rewrite andb_true_iff, Z.leb_le, Z.ltb_lt. apply ascii_inert. Qed.

Lemma inert_app s t : inert s → inert t → inert (s ++ t).
Proof. intros ??. by apply Forall_app. Qed.
Lemma inert_line : inert [LF].
Proof. apply inert_one. by right; left. Qed.

Lemma terminal_safe_inert s : inert (terminal_safe s).
Proof.
  unfold terminal_safe. induction s as [|c s IH]; [by constructor|]. cbn [fmap list_fmap concat]. apply inert_app; [|done].
  unfold safe_char. destruct (Z.eqb_spec c LF); [apply inert_line|]. destruct (Z.eqb_spec c TAB); [apply inert_one; by right; right|].
  destruct (c =? CR); [by apply lit_inert|]. destruct (c =? 27); [by apply lit_inert|].
  destruct (is_control c) eqn:Hctl; [|apply inert_one; by left].
  apply inert_app; [by apply lit_inert|]. apply inert_app; [apply hex_of_inert|by apply lit_inert].
Qed.

(** A text printed safely. *)
Definition printed_safely (bytes : list Z) : Prop := ∃ text, bytes = utf8 text ∧ inert text.

Lemma printed_app a b : printed_safely a → printed_safely b → printed_safely (a ++ b).
Proof. intros (s & -> & Hs) (t & -> & Ht). exists (s ++ t). rewrite utf8_app. split; [done|]. by apply Forall_app. Qed.
Lemma printed_text s : inert s → printed_safely (utf8 s).
Proof. intros Hs. by exists s. Qed.
Lemma printed_line : printed_safely [LF].
Proof. exists [LF]. split; [done|apply inert_line]. Qed.
Lemma printed_nil : printed_safely [].
Proof. by exists []. Qed.

Create HintDb inert.
#[export] Hint Resolve inert_app inert_line dec_of_inert terminal_safe_inert printed_app printed_text printed_line printed_nil Forall_nil_2 : inert.
#[export] Hint Extern 1 (inert (lit _)) => (apply lit_inert; reflexivity) : inert.

Lemma remote_output_safe bytes : printed_safely (remote_output false bytes).
Proof. unfold remote_output. auto with inert. Qed.

Lemma output_section_safe name b :
  forallb (λ c, (32 <=? c) && (c <? 127)) (lit name) = true → printed_safely (output_section name false b).
Proof.
  intros Hname%lit_inert. unfold output_section. destruct (cb_bytes b) as [|byte bytes]; [apply printed_nil|].
  apply printed_app; [|apply remote_output_safe]. apply printed_text. destruct (cb_truncated b); auto 10 with inert.
Qed.

Lemma result_safe r completed total : printed_safely (result_bytes r completed total false).
Proof.
  unfold result_bytes. apply printed_app; [|apply printed_app; [|apply printed_app; [|apply printed_app; [|apply printed_line]]]].
  - apply printed_text. destruct (fr_exit_status r), (fr_host_key r); auto 40 with inert.
  - by apply output_section_safe.
  - by apply output_section_safe.
  - destruct (fr_error r); auto 10 with inert.
Qed.

Lemma plan_text_inert cli targets command user : inert (plan_text cli targets command user).
Proof.
  unfold plan_text. assert (inert (planned_auth_name cli)) by (unfold planned_auth_name; repeat case_match; auto with inert).
  assert (inert (remote_user_name user)) by (unfold remote_user_name; destruct user; auto with inert).
  repeat apply inert_app; auto with inert; [by destruct (bool_decide _); auto with inert|..].
  { destruct command as [command|]; [|constructor]. repeat apply inert_app; auto with inert. destruct (bool_decide _); auto with inert. }
  induction targets as [|t targets IH]; [constructor|]. cbn [fmap list_fmap concat]. apply inert_app; [|exact IH]. unfold plan_line.
  repeat apply inert_app; auto with inert.
  - unfold route_name. destruct (s_route _); auto with inert.
  - unfold host_key_policy_name. destruct (s_host_key_policy _); auto with inert.
  - unfold bool_text. destruct (s_agent_forwarding _); auto with inert.
Qed.

(** *** A worker and its host *)
Record TargetWatch := mk_target_watch {
  tw_connected : option (result nat);
  tw_host_key : option ServerHostKeyInfo;
  tw_executed : option (list (sink * list Z) * result (option Z));
  tw_closed : option (result unit);
}.
Definition untouched : TargetWatch := mk_target_watch None None None None.

Section target.
Context (j : Job).
Definition target_allowed (q : fleet_request) (g : TargetWatch) : Prop :=
  match q with
  | FConnect config authentication =>
      g = untouched ∧ config = pt_config (job_target j) ∧ authentication = for_config (job_authentication j) config
  | FServerHostKey ssh => tw_connected g = Some (Ok ssh)
  | FExec ssh command user =>
      tw_connected g = Some (Ok ssh) ∧ command = job_command j ∧ user = job_user j ∧ tw_executed g = None ∧ tw_closed g = None
  | FClose ssh => tw_connected g = Some (Ok ssh) ∧ tw_closed g = None
  | _ => False
  end.
Definition target_step (q : fleet_request) : fleet_answer q → TargetWatch → TargetWatch → Prop :=
  match q with
  | FConnect _ _ => λ r g g', g' = mk_target_watch (Some r) (tw_host_key g) (tw_executed g) (tw_closed g)
  | FServerHostKey _ => λ r g g', g' = mk_target_watch (tw_connected g) r (tw_executed g) (tw_closed g)
  | FExec _ _ _ => λ r g g', g' = mk_target_watch (tw_connected g) (tw_host_key g) (Some r) (tw_closed g)
  | FClose _ => λ r g g', g' = mk_target_watch (tw_connected g) (tw_host_key g) (tw_executed g) (Some r)
  | _ => λ _ g g', g' = g
  end.
Definition target_monitor : monitor fleet_interface TargetWatch := Monitor (E := fleet_interface) target_allowed target_step.

(** A buffer holds what a stream was sent, up to the limit. *)
Definition holds (b : CappedBuffer) (bytes : list Z) : Prop :=
  cb_bytes b = take (Z.to_nat (job_limit j)) bytes ∧ (cb_truncated b = true ↔ job_limit j < zlen bytes).

(** What the result says of the host. *)
Definition reported_truly (r : FleetResult) (g : TargetWatch) : Prop :=
  fr_ordinal r = pt_ordinal (job_target j) ∧ fr_label r = pt_label (job_target j) ∧
  match tw_connected g with
  | Some (Ok _) =>
      fr_host_key r = (λ info, ki_algorithm info ++ lit " " ++ ki_fingerprint info) <$> tw_host_key g ∧
      ∃ ws ended closed, tw_executed g = Some (ws, ended) ∧ tw_closed g = Some closed ∧
        holds (fr_stdout r) (concat (written Out ws)) ∧ holds (fr_stderr r) (concat (written ErrOut ws)) ∧
        (fr_exit_status r = match ended with Ok status => status | Err _ => None end) ∧
        (fr_error r = None ↔ is_ok ended = true ∧ closed = Ok tt)
  | _ => fr_error r ≠ None ∧ fr_exit_status r = None ∧ cb_bytes (fr_stdout r) = [] ∧ cb_bytes (fr_stderr r) = []
  end.

Lemma capture_holds s ws : 0 ≤ job_limit j → holds (capture (job_limit j) s ws) (concat (written s ws)).
Proof. intros Hlimit. rewrite capture_prefix by done. split; [done|]. cbn. apply Z.ltb_lt. Qed.

Lemma run_target_exact :
  0 ≤ job_limit j → wp target_monitor (run_target j) (λ r g, ∃ res, r = Ok res ∧ reported_truly res g) untouched.
Proof.
  intros Hlimit. unfold run_target, fl. cbn -[capture for_config key_text lit app]. split; [done|]. intros connected g ->.
  change (result nat) in connected. destruct connected as [ssh|e]; cbn -[capture for_config key_text lit app].
  2:{ eexists. split; [done|]. unfold reported_truly. cbn -[lit app]. split_and!; done. }
  split; [done|]. intros key g ->. cbn -[capture for_config key_text lit app]. split; [done|]. intros [ws ended] g ->.
  cbn -[capture for_config key_text lit app]. split; [done|]. intros closed g ->. change (result unit) in closed.
  cbn -[capture for_config key_text lit app].
  destruct ended as [status|e], closed as [[]|e']; (eexists; split; [reflexivity|]); unfold reported_truly;
    cbn -[capture lit app]; (split_and!; [done|done|done|]); eexists _, _, _; (split_and!; [done|done|by apply capture_holds|by apply capture_holds|done|]);
    cbn; by split; [|intros []].
Qed.
End target.

(** *** The set of workers *)
Lemma wp_weaken {E : interface} {G A} (m m' : monitor E G) (p : prog E A) Q g :
  (∀ q g, allowed m q g → allowed m' q g) → (∀ q r g g', step m' q r g g' → step m q r g g') → wp m p Q g → wp m' p Q g.
Proof.
  intros Ha Hs. revert g. induction p as [r|q k IH]; cbn; intros g; [done|]. intros [Hq Hk]. split; [by apply Ha|].
  intros r g' Hr. by apply IH, Hk, Hs.
Qed.

Definition good (r : result FleetResult) : Prop := match r with Ok res => succeeded res = true | Err _ => False end.
#[export] Instance good_dec r : Decision (good r).
Proof. destruct r; cbn; apply _. Defined.

Lemma prepare_spec sys home_var metadata russh_parse russh_default cli n labels targets :
  prepare sys home_var metadata russh_parse russh_default cli n labels = Ok targets →
  length targets = length labels ∧
  ∀ i t, targets !! i = Some t → pt_ordinal t = (n + i)%nat ∧ labels !! i = Some (pt_label t) ∧
    build_connection_config sys home_var metadata russh_parse russh_default cli (pt_label t) = Ok (pt_config t).
Proof.
  revert n targets. induction labels as [|label labels IH]; intros n targets; cbn [prepare].
  { intros [= <-]. split; [done|]. by intros [|i] t. }
  intros (config & Hc & (rest & Hrest & [= <-])%bind_ok)%bind_ok. destruct (IH _ _ Hrest) as [Hlen Hall]. cbn [length]. split; [by rewrite Hlen|].
  intros [|i] t; cbn; [intros [= <-]; cbn; split_and!; [lia|done..]|]. intros Ht. destruct (Hall i t Ht) as (? & ? & ?). split_and!; [lia|done..].
Qed.

Record within_limits (cli : Cli) (count : Z) : Prop := {
  wl_count : 1 ≤ count ≤ MAX_TARGETS;
  wl_jobs : 1 ≤ cli_jobs cli ≤ MAX_JOBS;
  wl_limit : 1 ≤ cli_output_limit cli ≤ MAX_OUTPUT_LIMIT;
  wl_window : cli_jobs cli * cli_output_limit cli * 2 ≤ MAX_OUTPUT_WINDOW;
}.

Lemma limits_ok cli count :
  0 ≤ count → 0 ≤ cli_jobs cli → 0 ≤ cli_output_limit cli → validate_limits cli count = Ok tt ↔ within_limits cli count.
Proof.
  intros Hc Hj Ho. unfold validate_limits, checked_mul. rewrite !then_ok. rewrite !bail_if_ok, !orb_false_iff, !Z.eqb_neq, !Z.ltb_ge.
  split.
  - intros (H1 & H2 & [H3 H4] & [H5 H6] & (w & Hw%with_context_ok & Hwin%bail_if_ok')%bind_ok).
    destruct (cli_jobs cli * cli_output_limit cli <=? usize_max); [|done]. cbn in Hw.
    destruct (cli_jobs cli * cli_output_limit cli * 2 <=? usize_max); [|done]. injection Hw as <-. rewrite Z.ltb_ge in Hwin. split; lia.
  - intros [[? ?] [? ?] [? ?] Hw]. split_and!; try lia. apply bind_ok. exists (cli_jobs cli * cli_output_limit cli * 2).
    rewrite with_context_ok, bail_if_ok', Z.ltb_ge. split; [|done]. unfold MAX_OUTPUT_WINDOW, usize_max, u64_max in *.
    rewrite (proj2 (Z.leb_le _ _)) by lia. cbn. by rewrite (proj2 (Z.leb_le _ _)) by lia.
Qed.

Abbreviation jobs_history := (history Job FleetResult).

(** What the main program may ask of the terminal. *)
Definition terminal_request (cli : Cli) (q : fleet_request) : Prop :=
  match q with
  | FPrompt _ => cli_plan cli = false
  | FPrint bytes => cli_raw_output cli = false → printed_safely bytes
  | FWarn _ => True
  | _ => False
  end.
(** Whether what is printed arrives. *)
Definition print_answer (printing : Prop) (q : pool_request fleet_interface Job) : answer (i := fleet_set) q → Prop :=
  match q with Sys (FPrint _) => λ r, printing → r = Ok tt | _ => λ _, True end.
Definition any_job (r : result FleetResult) : Prop := True.

Definition fleet_monitor (cli : Cli) (may_spawn : Job → jobs_history → Prop) (printing : Prop) : monitor fleet_set jobs_history :=
  Monitor (E := fleet_set) (pool_allowed fleet_interface Job FleetResult (terminal_request cli) may_spawn)
    (λ q r h h', pool_answers fleet_interface Job FleetResult any_job q r h h' ∧ print_answer printing q r).

Section collection.
Context (cli : Cli) (may_spawn : Job → jobs_history → Prop) (printing : Prop) (targets : list PreparedTarget) (job : PreparedTarget → Job).
Context (may_spawn_next : ∀ h t, tasks_left h < cli_jobs cli → targets !! length (spawned h) = Some t → may_spawn (job t) h).
Local Abbreviation m := (fleet_monitor cli may_spawn printing).

Definition failures (h : jobs_history) : nat := length (filter (λ r, ¬ good r) (joined h)).
Record in_progress (pending : list PreparedTarget) (h : jobs_history) : Prop := {
  co_pending : pending = drop (length (spawned h)) targets;
  co_spawned : (length (spawned h) ≤ length targets)%nat;
  co_bound : 0 ≤ tasks_left h ≤ cli_jobs cli;
  co_busy : pending ≠ [] → tasks_left h = cli_jobs cli;
}.

(** How a collection ends. *)
Definition collected (r : result (option nat)) (h : jobs_history) : Prop :=
  match r with
  | Ok (Some failed) => length (spawned h) = length targets ∧ length (joined h) = length targets ∧ failed = failures h
  | Ok None => False
  | Err _ => ¬ printing
  end.

Lemma wp_spawn {A} (t : Job) (p : fleeted A) Q (h : jobs_history) :
  may_spawn t h → wp m p Q (mk_history (spawned h ++ [t]) (joined h)) → wp m (spawn_target t ;; p)%prog Q h.
Proof. intros Hs Hp. split; [exact Hs|]. by intros [] h' [-> _]. Qed.

Lemma wp_main_asks {A B} (p : fleet A) (f : A → fleeted B) (Q : result B → jobs_history → Prop) (h : jobs_history) :
  wp (only (E := fleet_interface) (terminal_request cli)) p (λ r _, match r with Ok a => wp m (f a) Q h | Err e => Q (Err e) h end) tt →
  wp m (p_bind (main_asks p) f) Q h.
Proof.
  induction p as [[a|e]|q k IH]; cbn; [done..|]. intros [Ha Hk]. split; [exact Ha|]. intros r h' [-> _]. apply IH, (Hk r tt). done.
Qed.

Lemma failures_snoc h r : length (filter (λ r, ¬ good r) (joined h ++ [r])) = (failures h + if decide (good r) then 0 else 1)%nat.
Proof. unfold failures. rewrite filter_app, length_app. f_equal. cbn. by repeat case_decide. Qed.

Lemma wp_collect fuel pending (h : jobs_history) :
  1 ≤ cli_jobs cli → in_progress pending h → tasks_left h + zlen pending < Z.of_nat fuel →
  wp m (collect_results (cli_raw_output cli) (length targets) job fuel pending (length (joined h)) (failures h)) collected h.
Proof.
  intros Hj. revert pending h. induction fuel as [|fuel IH]; intros pending h [Hp Hs Hb Hbusy] Hf; [lia|]. cbn [collect_results].
  split; [done|]. intros joined' h1 [Hr _]. change (option (result FleetResult)) in joined'. destruct joined' as [r|]; cbn in Hr.
  2:{ destruct Hr as [Hz ->]. destruct pending as [|t pending]; [|rewrite Hbusy in Hz by done; lia].
      cbn. assert (length (spawned h) = length targets) as Hall.
      { apply (f_equal length) in Hp. rewrite length_drop in Hp. cbn in Hp. lia. }
      split_and!; [done| |done]. unfold tasks_left in Hz. lia. }
  destruct Hr as (Hpos & _ & ->). set (h1 := mk_history (spawned h) (joined h ++ [r])).
  assert (wp m (match pending with
    | [] => collect_results (cli_raw_output cli) (length targets) job fuel [] (length (joined h1)) (failures h1)
    | t :: pending => spawn_target (job t) ;; collect_results (cli_raw_output cli) (length targets) job fuel pending (length (joined h1)) (failures h1)
    end)%prog collected h1) as Hnext.
  { assert (tasks_left h1 = tasks_left h - 1) as Hleft by (unfold tasks_left; cbn; rewrite length_app; cbn; lia).
    destruct pending as [|t pending].
    - apply IH; [split; cbn; [done|done|lia|done]|]. cbn in *. lia.
    - assert (tasks_left h = cli_jobs cli) as Heq by (by apply Hbusy). assert (targets !! length (spawned h) = Some t) as Ht.
      { rewrite <- (Nat.add_0_r (length (spawned h))), <- lookup_drop, <- Hp. done. }
      apply wp_spawn; [apply may_spawn_next; [lia|done]|].
      set (h2 := mk_history (spawned h1 ++ [job t]) (joined h1)). change (joined h1) with (joined h2). change (failures h1) with (failures h2).
      assert (tasks_left h2 = tasks_left h1 + 1) as Hleft2 by (unfold tasks_left; cbn; rewrite length_app; cbn; lia).
      assert (length (spawned h2) = S (length (spawned h))) as Hlen by (cbn; rewrite length_app; cbn; lia).
      apply IH; [split|cbn [length] in Hf; lia]; [|rewrite Hlen; apply lookup_lt_Some in Ht; lia|lia|intros _; lia].
      rewrite Hlen. rewrite (drop_S _ _ _ Ht) in Hp. by injection Hp. }
  assert (length (joined h1) = S (length (joined h))) as Hlen by (cbn; rewrite length_app; cbn; lia).
  assert (failures h1 = (failures h + if decide (good r) then 0 else 1)%nat) as Hfail by apply failures_snoc.
  rewrite Hlen, Hfail in Hnext. destruct r as [res|e].
  - unfold awaited, fl. cbn -[result_bytes]. split; [intros Hraw; rewrite Hraw; apply result_safe|]. intros printed h' [-> Hpr].
    change (result unit) in printed. destruct printed as [[]|e]; cbn [p_bind].
    + destruct (decide (good (Ok res))) as [Hg|Hg]; unfold good in Hg; rewrite ?Nat.add_0_r, ?Nat.add_1_r in Hnext.
      * rewrite Hg. exact Hnext.
      * apply not_true_is_false in Hg. rewrite Hg. exact Hnext.
    + cbn. intros Hprinting. by specialize (Hpr Hprinting).
  - cbn. split; [done|]. intros [] h' [-> _]. destruct (decide (good (Err e))) as [[]|]; rewrite Nat.add_1_r in Hnext. exact Hnext.
Qed.
End collection.

Section start.
Context (cli : Cli) (may_spawn : Job → jobs_history → Prop) (printing : Prop) (targets : list PreparedTarget) (job : PreparedTarget → Job).
Context (may_spawn_next : ∀ h t, tasks_left h < cli_jobs cli → targets !! length (spawned h) = Some t → may_spawn (job t) h).

Lemma wp_first {A} l (p : fleeted A) Q (h : jobs_history) :
  joined h = [] → (∀ i t, l !! i = Some t → targets !! (length (spawned h) + i)%nat = Some t) →
  zlen (spawned h) + zlen l ≤ cli_jobs cli →
  wp (fleet_monitor cli may_spawn printing) p Q (mk_history (spawned h ++ (job <$> l)) []) →
  wp (fleet_monitor cli may_spawn printing) (p_for_each (λ target, spawn_target (job target)) l ;; p)%prog Q h.
Proof.
  revert h. induction l as [|t l IH]; intros h Hj Hl Hlen Hp.
  { cbn in *. rewrite app_nil_r, <- Hj in Hp. by destruct h. }
  cbn [p_for_each]. split.
  - apply may_spawn_next; [unfold tasks_left; rewrite Hj; cbn [length] in *; lia|]. by rewrite <- (Hl 0%nat t eq_refl), Nat.add_0_r.
  - intros [] h' [-> _]. apply IH; cbn; [done|..].
    + intros i t' Hi. rewrite length_app. cbn. rewrite <- (Hl (S i) t' Hi). f_equal. lia.
    + rewrite length_app. cbn [length] in *. lia.
    + rewrite <- app_assoc. exact Hp.
Qed.
End start.

(** The authentication that the options ask for. *)
Definition chosen_template (cli : Cli) (t : AuthTemplate) : Prop :=
  if cli_password cli then ∃ secret, t = TemplatePassword secret
  else if cli_keyboard_interactive cli then ∃ secret, t = TemplateKeyboardInteractive secret
  else if cli_agent cli then t = TemplateAgent
  else match cli_identity cli with
       | Some path => ∃ passphrase, t = TemplatePrivateKey path passphrase ∧ (is_Some passphrase ↔ cli_ask_key_passphrase cli = true)
       | None => t = TemplateAuto
       end.

Lemma wp_template cli :
  cli_plan cli = false →
  wp (only (E := fleet_interface) (terminal_request cli)) (resolve_auth_template cli)
    (λ r _, match r with Ok t => chosen_template cli t | Err _ => True end) tt.
Proof.
  intros Hplan. unfold resolve_auth_template, chosen_template. destruct (cli_password cli).
  { cbn. split; [done|]. intros [secret|e] [] _; cbn; [by eexists|done]. }
  destruct (cli_keyboard_interactive cli).
  { cbn. split; [done|]. intros [secret|e] [] _; cbn; [by eexists|done]. }
  destruct (cli_agent cli); [done|]. destruct (cli_identity cli) as [path|]; [|done]. destruct (cli_ask_key_passphrase cli); cbn.
  - split; [done|]. intros [secret|e] [] _; cbn; [|done]. eexists. split; [done|]. by split; [|intros _; eexists].
  - exists None. split; [done|]. by split; [intros [? [=]]|].
Qed.

(** *** The whole command *)
Section fleet.
Context (sys : System) (home_var : option str) (metadata : str → io_result unit).
Context (russh_parse : str → str → result RusshConfig) (russh_default : str → RusshConfig).
Context (cli : Cli) (labels : list str).
Local Abbreviation config_of := (build_connection_config sys home_var metadata russh_parse russh_default cli).

(** A worker may start: everything was checked and every target resolved, fewer than
    [--jobs] workers are left, and it is the turn of its target. *)
Record may_start (t : Job) (h : jobs_history) : Prop := {
  ms_bound : tasks_left h < cli_jobs cli;
  ms_execution : cli_plan cli = false;
  ms_limits : within_limits cli (zlen labels);
  ms_resolved : Forall (λ label, is_ok (config_of label) = true) labels;
  ms_ordinal : pt_ordinal (job_target t) = length (spawned h);
  ms_label : labels !! length (spawned h) = Some (pt_label (job_target t));
  ms_config : config_of (pt_label (job_target t)) = Ok (pt_config (job_target t));
  ms_command : ∃ command, build_command_spec cli = Ok (Some command) ∧ render_posix command = Ok (job_command t);
  ms_user : job_user t = match cli_as_user cli with Some user => Sudo user | None => Current end;
  ms_authentication : chosen_template cli (job_authentication t);
  ms_limit : job_limit t = cli_output_limit cli;
}.

(** How the command ends. *)
Definition fleet_outcome (printing : Prop) (r : result unit) (h : jobs_history) : Prop :=
  (r = Ok tt → if cli_plan cli then spawned h = [] else length (joined h) = length labels ∧ Forall good (joined h)) ∧
  (printing → spawned h ≠ [] →
     length (spawned h) = length labels ∧ length (joined h) = length labels ∧ (r = Ok tt ↔ Forall good (joined h))).

Lemma failures_zero (h : jobs_history) : failures h = 0%nat ↔ Forall good (joined h).
Proof.
  unfold failures. rewrite length_zero_iff_nil. induction (joined h) as [|r rs IH]; [done|]. rewrite filter_cons, Forall_cons.
  destruct (decide (¬ good r)) as [Hr|Hr]; [by split; [|intros []]|]. rewrite IH. apply dec_stable in Hr. naive_solver.
Qed.

Lemma nothing_started printing (e : string) : fleet_outcome printing (Err e) (mk_history [] []).
Proof. by split. Qed.

Lemma wp_fleet_main printing :
  0 ≤ cli_jobs cli → 0 ≤ cli_output_limit cli →
  wp (fleet_monitor cli may_start printing) (fleet_main sys home_var metadata russh_parse russh_default cli (Ok labels))
    (fleet_outcome printing) (mk_history [] []).
Proof.
  intros Hj Ho. unfold fleet_main. rewrite wp_done_bind. rewrite wp_done_bind.
  destruct (validate_limits cli (zlen labels)) as [[]|e] eqn:Hlimits; [|apply nothing_started]. apply limits_ok in Hlimits; [|lia..].
  rewrite wp_done_bind. destruct (build_command_spec cli) as [command|e] eqn:Hcommand; [|apply nothing_started].
  rewrite wp_done_bind. destruct (negb (cli_plan cli) && _) eqn:Hmissing; cbn [bail_if]; [apply nothing_started|].
  rewrite wp_done_bind. destruct (prepare _ _ _ _ _ _ _ _) as [targets|e] eqn:Hprepare; [|apply nothing_started].
  destruct (prepare_spec _ _ _ _ _ _ _ _ _ Hprepare) as [Hcount Htargets].
  destruct (cli_plan cli) eqn:Hplan.
  { unfold awaited. apply wp_main_asks. cbn -[plan_text]. split; [intros _; apply printed_text, plan_text_inert|]. intros [[]|e] [] _; cbn; [|apply nothing_started].
    unfold fleet_outcome. cbn. by rewrite Hplan. }
  apply wp_main_asks. eapply wp_mono; [by apply wp_template|]. intros [template|e] [] Htemplate; [|apply nothing_started].
  rewrite wp_done_bind. destruct (with_context command _ ≫= render_posix) as [rendered|e] eqn:Hrendered; [|apply nothing_started].
  apply bind_ok in Hrendered as (spec & ->%with_context_ok & Hrendered).
  set (job := λ target, mk_job target template rendered (match cli_as_user cli with Some user => Sudo user | None => Current end) (cli_output_limit cli)).
  assert (∀ (h : jobs_history) t, tasks_left h < cli_jobs cli → targets !! length (spawned h) = Some t → may_start (job t) h) as Hnext.
  { intros h t Hleft Ht. destruct (Htargets _ _ Ht) as (Hord & Hlabel & Hconfig). split; try done; [|by exists spec].
    apply Forall_lookup. intros i label Hi. assert (i < length targets)%nat as [t' Ht']%lookup_lt_is_Some_2 by (rewrite Hcount; by eapply lookup_lt_Some).
    destruct (Htargets _ _ Ht') as (_ & Hl' & Hc'). rewrite Hi in Hl'. injection Hl' as ->. by rewrite Hc'. }
  set (first := Nat.min (Z.to_nat (cli_jobs cli)) (length targets)).
  destruct Hlimits as [[? ?] [? ?] ? ?].
  apply (wp_first cli may_start printing targets job Hnext); [done|..].
  { intros i t Hi. by apply lookup_take_Some in Hi as [Hi _]. }
  { cbn. rewrite length_take. lia. }
  set (h := mk_history _ []). rewrite wp_bind.
  assert (length (spawned h) = first) as Hfirst by (cbn; rewrite length_fmap, length_take; lia).
  assert (tasks_left h = Z.of_nat first) as Hleft by (unfold tasks_left; cbn [joined length h]; lia).
  eapply wp_mono; [apply (wp_collect cli may_start printing targets job Hnext (S (length targets)) (drop first targets) h); [done|split|]|].
  - by rewrite Hfirst.
  - lia.
  - lia.
  - intros Hne. assert (first < length targets)%nat; [|lia]. destruct (decide (first < length targets)%nat); [done|].
    by destruct Hne; apply drop_ge; lia.
  - rewrite length_drop. lia.
  - intros [[failed|]|e] h'; cbn [collected]; [|done|].
    2:{ intros Hp. split; [done|]. intros Hprinting. by destruct Hp. }
    intros (Hs & Hjoined & ->). rewrite wp_done. rewrite Hcount in Hs, Hjoined.
    destruct (bool_decide_reflect (Some (failures h') = Some 0%nat)) as [[= Hz]|Hnz]; cbn [negb bail_if].
    + apply failures_zero in Hz. split; [by rewrite Hplan|]. intros _ _. by split_and!.
    + split; [done|]. intros _ _. split_and!; [done..|]. split; [done|]. intros Hgood%failures_zero. by rewrite Hgood in Hnz.
Qed.
End fleet.

(** What a worker may ask, and what it reports. *)
Definition worker_request (t : Job) (q : fleet_request) : Prop :=
  match q with
  | FConnect config authentication => config = pt_config (job_target t) ∧ authentication = for_config (job_authentication t) config
  | FExec _ command user => command = job_command t ∧ user = job_user t
  | FServerHostKey _ | FClose _ => True
  | _ => False
  end.
Definition worker_result (cli : Cli) (t : Job) (r : result FleetResult) : Prop :=
  ∃ res, r = Ok res ∧ fr_ordinal res = pt_ordinal (job_target t) ∧ fr_label res = pt_label (job_target t) ∧
    zlen (cb_bytes (fr_stdout res)) ≤ cli_output_limit cli ∧ zlen (cb_bytes (fr_stderr res)) ≤ cli_output_limit cli.

Lemma capture_bounded limit s ws : 0 ≤ limit → zlen (cb_bytes (capture limit s ws)) ≤ limit.
Proof. intros Hl. rewrite capture_prefix by done. cbn. rewrite length_take. lia. Qed.

Lemma worker_keeps cli t :
  0 ≤ cli_output_limit cli → job_limit t = cli_output_limit cli →
  wp (only (E := fleet_interface) (worker_request t)) (run_target t) (λ r _, worker_result cli t r) tt.
Proof.
  intros Ho Hl. unfold run_target, fl. cbn -[capture for_config key_text lit app]. split; [done|]. intros connected [] _.
  change (result nat) in connected. destruct connected as [ssh|e]; cbn -[capture for_config key_text lit app].
  2:{ eexists. split; [done|]. cbn. by split_and!. }
  split; [done|]. intros key [] _. cbn -[capture for_config key_text lit app]. split; [done|]. intros [ws ended] [] _.
  cbn -[capture for_config key_text lit app]. split; [done|]. intros closed [] _. change (result unit) in closed.
  cbn -[capture for_config key_text lit app]. rewrite Hl.
  destruct ended as [status|e], closed as [[]|e']; (eexists; split; [reflexivity|]); cbn -[capture]; split_and!; try done; by apply capture_bounded.
Qed.

(** What may happen after [before]. *)
Definition fleet_event sys home_var metadata russh_parse russh_default (cli : Cli) (labels : list str)
    (e : pool_event fleet_interface Job FleetResult) (before : jobs_history) : Prop :=
  match e with
  | MainAsked _ _ _ q => terminal_request cli q
  | TaskAsked _ _ _ t q => worker_request t q
  | Spawned _ _ _ t => may_start sys home_var metadata russh_parse russh_default cli labels t before
  | Joined _ _ _ t r => worker_result cli t r
  end.

(** *** Once on every host *)
Definition ordinal_of (t : Job) : nat := pt_ordinal (job_target t).
Definition is_connecting (q : fleet_request) : bool := match q with FConnect _ _ => true | _ => false end.
Definition is_running (q : fleet_request) : bool := match q with FExec _ _ _ => true | _ => false end.
Definition count_of (which : fleet_request → bool) (qs : list fleet_request) : nat := length (List.filter which qs).
Lemma count_of_snoc which qs q : count_of which (qs ++ [q]) = (count_of which qs + if which q then 1 else 0)%nat.
Proof. unfold count_of. rewrite List.filter_app, length_app. cbn. by destruct (which q). Qed.
(** How often the worker of a target has asked for something. *)
Definition times_asked (which : fleet_request → bool) (i : nat) (tr : list (pool_event fleet_interface Job FleetResult)) : nat :=
  count_of which (asks_of fleet_interface Job FleetResult ordinal_of i tr).

Lemma monitored_once t qs g :
  monitored fleet_interface (target_monitor t) untouched qs g →
  count_of is_connecting qs = (if tw_connected g then 1 else 0)%nat ∧
  count_of is_running qs = (if tw_executed g then 1 else 0)%nat.
Proof.
  induction 1 as [|qs q r g1 g2 _ [IH1 IH2] Ha Hs]; [done|]. cbn in q, qs. rewrite !count_of_snoc, IH1, IH2.
  destruct q; try done; cbn in Ha, Hs; subst g2.
  - destruct Ha as (-> & _). done.
  - cbn. by rewrite Ha, !Nat.add_0_r.
  - destruct Ha as (-> & _ & _ & -> & _). done.
  - destruct Ha as (-> & _). cbn. by rewrite !Nat.add_0_r.
Qed.

Lemma target_answered t q r g : allowed (target_monitor t) q g → ∃ g', step (target_monitor t) q r g g'.
Proof. intros _. destruct q; cbn; by eexists. Qed.

(** A host that succeeded has run the command. *)
Lemma succeeded_ran t res g : reported_truly t res g → succeeded res = true → is_Some (tw_executed g).
Proof.
  intros (_ & _ & Hr) [He _]%andb_true_iff. apply bool_decide_eq_true in He.
  destruct (tw_connected g) as [[c|e]|]; [|by destruct Hr..]. destruct Hr as (_ & ws & ended & closed & -> & _). by eexists.
Qed.

Section once.
Context (sys : System) (home_var : option str) (metadata : str → io_result unit).
Context (russh_parse : str → str → result RusshConfig) (russh_default : str → RusshConfig) (cli : Cli) (labels : list str).
Context {W : Type} (serves : ∀ q : fleet_interface, W → answer q → W → Prop).
Local Abbreviation starts := (may_start sys home_var metadata russh_parse russh_default cli labels).
Local Abbreviation event := (fleet_event sys home_var metadata russh_parse russh_default cli labels).
Local Abbreviation events tr := (∀ before e after, tr = before ++ e :: after → event e (history_of fleet_interface Job FleetResult before)).

(** The workers are started in the order of the targets. *)
Lemma started_in_order tr :
  events tr → let h := history_of fleet_interface Job FleetResult tr in
  ordinal_of <$> spawned h = seq 0 (length (spawned h)) ∧ (length (spawned h) ≤ length labels)%nat ∧
  ∀ t, t ∈ spawned h → job_limit t = cli_output_limit cli.
Proof.
  cbn. induction tr as [|e tr IH] using rev_ind; intros Hev.
  { cbn. split_and!; [done|lia|]. by intros t ?%not_elem_of_nil. }
  destruct IH as (IH1 & IH2 & IH3).
  { intros before e' after ->. apply (Hev before e' (after ++ [e])). by rewrite <-app_assoc. }
  specialize (Hev tr e [] eq_refl). rewrite history_snoc. destruct e as [q|t q|t|t r]; cbn; try done.
  cbn in Hev. rewrite length_app. cbn [length]. split_and!.
  - rewrite fmap_app, IH1, seq_app. cbn. f_equal. f_equal. exact (ms_ordinal _ _ _ _ _ _ _ _ _ Hev).
  - pose proof (lookup_lt_Some _ _ _ (ms_label _ _ _ _ _ _ _ _ _ Hev)). lia.
  - intros t' [?|Ht%list_elem_of_singleton]%elem_of_app; [by apply IH3|]. rewrite Ht. apply Hev.
Qed.

Lemma fleet_follows {A} (p : fleeted A) w tr c :
  0 ≤ cli_output_limit cli →
  pool_run fleet_interface Job FleetResult run_target serves (mk_pool fleet_interface Job FleetResult A p [] [], w) tr c → events tr →
  follows fleet_interface Job FleetResult ordinal_of target_monitor (λ _, untouched) (λ t r g, ∃ res, r = Ok res ∧ reported_truly t res g) c tr.
Proof.
  intros Ho Hrun Hev. destruct (started_in_order tr Hev) as (Hord & _ & Hlimit). eapply pool_follows; [apply target_answered| | |exact Hrun].
  - rewrite Hord. apply NoDup_seq.
  - intros t Ht. apply run_target_exact. by rewrite Hlimit.
Qed.

Lemma asked_once {A} c tr which i :
  which = is_connecting ∨ which = is_running →
  follows fleet_interface Job FleetResult ordinal_of target_monitor (λ _, untouched) (λ t r g, ∃ res, r = Ok res ∧ reported_truly t res g)
    (c : pool fleet_interface Job FleetResult A * W) tr →
  (times_asked which i tr ≤ 1)%nat.
Proof.
  intros Hw [Hr Hf Hj Hk Ha _]. unfold times_asked.
  assert (∀ t p, ordinal_of t = i → has_asked fleet_interface Job FleetResult ordinal_of target_monitor (λ _, untouched)
    (λ t r g, ∃ res, r = Ok res ∧ reported_truly t res g) tr t p →
    (count_of which (asks_of fleet_interface Job FleetResult ordinal_of i tr) ≤ 1)%nat) as Hone.
  { intros t p <- (g & Hg & _). destruct (monitored_once _ _ _ Hg) as [H1 H2].
    destruct Hw as [-> | ->]; [rewrite H1; destruct (tw_connected g)|rewrite H2; destruct (tw_executed g)]; lia. }
  destruct (decide (i ∈ ordinal_of <$> spawned (history_of fleet_interface Job FleetResult tr))) as [Hi|Hi].
  - rewrite <-Hk in Hi. apply list_elem_of_fmap in Hi as (t & -> & Ht). rewrite !elem_of_app in Ht. rewrite !Forall_forall in *.
    destruct Ht as [Ht|[Ht|Ht]]; apply list_elem_of_fmap in Ht as ([t' p] & -> & Ht).
    + by apply (Hone t' p), (Hr _ Ht).
    + by apply (Hone t' (Done p)), (Hf _ Ht).
    + by apply (Hone t' (Done p)), (Hj _ Ht).
  - rewrite asks_none; [cbn; lia|]. intros t q Hq Heq. apply Hi. rewrite <-Heq. by eapply Ha.
Qed.

(** When every worker has ended well, every target has run the command. *)
Lemma all_ran {A} c tr i :
  follows fleet_interface Job FleetResult ordinal_of target_monitor (λ _, untouched) (λ t r g, ∃ res, r = Ok res ∧ reported_truly t res g)
    (c : pool fleet_interface Job FleetResult A * W) tr →
  events tr → let h := history_of fleet_interface Job FleetResult tr in
  length (joined h) = length labels → Forall good (joined h) → (i < length labels)%nat → times_asked is_running i tr = 1%nat.
Proof.
  cbn. intros [_ _ Hj Hk _ Hres] Hev Hlen Hgood Hi. destruct (started_in_order tr Hev) as (Hord & Hle & _). rewrite Hord in Hk.
  pose proof (Permutation_length Hk) as Hcount. rewrite length_fmap, !length_app, length_seq in Hcount.
  rewrite <-Hres in Hlen, Hgood. rewrite length_fmap in Hlen. rewrite !length_fmap in Hcount.
  assert (running _ _ _ _ c.1 = []) as Hr0 by (apply nil_length_inv; lia).
  assert (finished _ _ _ _ c.1 = []) as Hf0 by (apply nil_length_inv; lia).
  rewrite Hr0, Hf0 in Hk. cbn in Hk. assert (i ∈ seq 0 (length (spawned (history_of fleet_interface Job FleetResult tr)))) as Hin.
  { apply elem_of_seq. rewrite Hr0, Hf0 in Hcount. cbn in Hcount. lia. }
  rewrite <-Hk in Hin. apply list_elem_of_fmap in Hin as (t & -> & ([t' r] & -> & Ht)%list_elem_of_fmap). cbn.
  rewrite !Forall_forall in *. destruct (Hj _ Ht) as (g & Hg & res & -> & Htruly).
  assert (succeeded res = true) as Hs by (apply (Hgood (Ok res)); by apply (list_elem_of_fmap_2 snd _ _ Ht)).
  destruct (succeeded_ran _ _ _ Htruly Hs) as (x & Hx). destruct (monitored_once _ _ _ Hg) as [_ H2]. unfold times_asked. by rewrite H2, Hx.
Qed.
End once.

(** ** Theorems *)

(** C29: a fleet command runs every target once, in every interleaving of its workers.  A worker
    starts only when the limits were checked (between 1 and 1024 targets, 1 and 64 workers, at most
    512 MiB of output kept at once), every target was resolved and the command validated; workers
    start in the order of the targets, one for each, never more than [--jobs] at a time, with the
    authentication the options ask for; a worker connects to its own target only and at most once,
    runs exactly the rendered command there and at most once, and keeps at most [--output-limit]
    bytes of each stream; a plan starts
    none and asks for no secret.  The command succeeds only when every target's worker has ended and
    succeeded, having run the command exactly once, and when the terminal takes what is printed,
    exactly then. *)
Theorem fleet_runs_every_target sys home_var metadata russh_parse russh_default cli labels {W : Type} serves (w : W) tr c :
  0 ≤ cli_jobs cli → 0 ≤ cli_output_limit cli →
  let main_program := fleet_main sys home_var metadata russh_parse russh_default cli (Ok labels) in
  pool_run fleet_interface Job FleetResult run_target serves (mk_pool fleet_interface Job FleetResult unit main_program [] [], w) tr c →
  (∀ before e after, tr = before ++ e :: after →
     fleet_event sys home_var metadata russh_parse russh_default cli labels e (history_of fleet_interface Job FleetResult before)) ∧
  (∀ r, main fleet_interface Job FleetResult unit c.1 = Done r →
     fleet_outcome cli labels False r (history_of fleet_interface Job FleetResult tr)) ∧
  (∀ i, times_asked is_connecting i tr ≤ 1 ∧ times_asked is_running i tr ≤ 1)%nat ∧
  (main fleet_interface Job FleetResult unit c.1 = Done (Ok tt) → cli_plan cli = false →
     ∀ i, (i < length labels)%nat → times_asked is_running i tr = 1%nat) ∧
  wp (fleet_monitor cli (may_start sys home_var metadata russh_parse russh_default cli labels) True) main_program
    (fleet_outcome cli labels True) (mk_history [] []).
Proof.
  intros Hj Ho main_program Hrun.
  assert (∀ printing, wp (fleet_monitor cli (may_start sys home_var metadata russh_parse russh_default cli labels) printing) main_program
    (fleet_outcome cli labels printing) (mk_history [] [])) as Hwp by (intros printing; by apply wp_fleet_main).
  destruct (pool_safe fleet_interface Job FleetResult run_target serves (terminal_request cli)
    (may_start sys home_var metadata russh_parse russh_default cli labels) worker_request (worker_result cli)
    (λ t h Hstart, worker_keeps cli t Ho (ms_limit _ _ _ _ _ _ _ _ _ Hstart)) main_program (fleet_outcome cli labels False) w tr c) as [Hev Hmain _ _ _];
    [|exact Hrun|].
  - eapply wp_weaken; [| |apply (Hwp False)]; [done|]. intros q r g g' Hstep. split.
    + destruct q as [q|t| |]; [exact Hstep..|]. change (option (result FleetResult)) in r. destruct r as [r|]; cbn in *; [|done].
      destruct Hstep as (? & _ & ?). by split_and!.
    + destruct q as [[]| | |]; cbn; first [done|by intros []].
  - assert (∀ before e after, tr = before ++ e :: after →
      fleet_event sys home_var metadata russh_parse russh_default cli labels e (history_of fleet_interface Job FleetResult before)) as Hevents.
    { intros before e after Heq. specialize (Hev before e after Heq). by destruct e. }
    assert (∀ r, main fleet_interface Job FleetResult unit c.1 = Done r →
      fleet_outcome cli labels False r (history_of fleet_interface Job FleetResult tr)) as Hout by (by intros r Hr; rewrite Hr in Hmain).
    pose proof (fleet_follows _ _ _ _ _ _ _ _ _ _ _ _ Ho Hrun Hevents) as Hfo.
    split_and!; [exact Hevents|exact Hout| | |apply Hwp].
    + intros i. split; (eapply asked_once; [|exact Hfo]); auto.
    + intros Hdone Hplan i Hi. destruct (Hout _ Hdone) as [Hall _]. specialize (Hall eq_refl). rewrite Hplan in Hall. destruct Hall.
      by eapply all_ran.
Qed.

(** What a fleet reports of a host is what happened there, whatever the host answers: the worker
    connects once, runs the command at most once and only on that connection, and closes it exactly
    once; its result names the target, holds the streams' output up to the limit, marks what was cut
    off, and the exit status; and there is no error exactly when the command ran to its end and the
    connection was closed well. *)
Theorem fleet_target_exact (j : Job) :
  0 ≤ job_limit j → wp (target_monitor j) (run_target j) (λ r g, ∃ res, r = Ok res ∧ reported_truly j res g) untouched.
Proof. apply run_target_exact. Qed.

(** C30: nothing that a host sends controls the terminal: unless [--raw-output] is given, the plan and
    every result are printed as UTF-8 text without control characters but line feeds and tabs. *)
Theorem fleet_output_inert cli targets command user r completed total :
  inert (plan_text cli targets command user) ∧ ∃ text, result_bytes r completed total false = utf8 text ∧ inert text.
Proof. split; [apply plan_text_inert|apply result_safe]. Qed.

(** A plan does not depend on what is secret: the arguments, the values of the
    environment, the directory, the text of the proxy command. *)
Lemma plan_shows_no_secret cli targets targets' command command' user :
  (snapshot ∘ pt_config <$> targets) = (snapshot ∘ pt_config <$> targets') → (pt_label <$> targets) = (pt_label <$> targets') →
  (pt_ordinal <$> targets) = (pt_ordinal <$> targets') →
  program command = program command' → length (arguments command) = length (arguments command') →
  (environment command).*1 = (environment command').*1 →
  (is_Some (working_directory command) ↔ is_Some (working_directory command')) →
  plan_text cli targets (Some command) user = plan_text cli targets' (Some command') user.
Proof.
  intros Hs Hl Ho Hp Ha He Hw. unfold plan_text. rewrite Hp, Ha, He, (bool_decide_ext _ _ Hw).
  assert (length targets = length targets') as -> by (apply (f_equal length) in Hl; by rewrite !length_fmap in Hl).
  assert (∀ f : nat → str → ConnectionConfigSnapshot → str,
    (λ t, f (pt_ordinal t) (pt_label t) (snapshot (pt_config t))) <$> targets =
    (λ t, f (pt_ordinal t) (pt_label t) (snapshot (pt_config t))) <$> targets') as Hf; [|by rewrite (Hf plan_line)].
  intros f. revert targets' Hs Hl Ho. induction targets as [|t targets IH]; intros [|t' targets'] Hs Hl Ho; try done.
  pose proof (f_equal (λ l, default (snapshot (pt_config t)) (head l)) Hs) as Ht. apply (f_equal tail) in Hs.
  injection Hl as Hlt Hl. injection Ho as Hot Ho. change (snapshot (pt_config t) = snapshot (pt_config t')) in Ht.
  cbn [fmap list_fmap]. rewrite Ht, Hlt, Hot. f_equal. by apply IH.
Qed.

Module Examples.
Definition two_hosts : Cli :=
  mk_cli false 1 10 false None None None false false false true None None None false None None [] [lit "id"].
Definition default_of (alias : str) : RusshConfig := mk_russh alias (lit "root") 22 None None None None None.
Definition no_config : str → str → result RusshConfig := λ _ _, Err "unused".
Definition two_labels : list str := [lit "web1"; lit "db1"].
Definition two_main : fleeted unit :=
  fleet_main IncludeScope.Examples.system0 None (λ _, NotFound) no_config default_of two_hosts (Ok two_labels).
Definition no_world : ∀ q : fleet_interface, unit → answer q → unit → Prop := λ _ _ _ _, True.

Lemma fleet_runs_every_target_witness :
  ∃ t c, pool_run fleet_interface Job FleetResult run_target no_world
           (mk_pool fleet_interface Job FleetResult unit two_main [] [], tt) [Spawned fleet_interface Job FleetResult t] c ∧
    may_start IncludeScope.Examples.system0 None (λ _, NotFound) no_config default_of two_hosts two_labels t (mk_history [] []).
Proof.
  assert (∃ t c, pool_run fleet_interface Job FleetResult run_target no_world
    (mk_pool fleet_interface Job FleetResult unit two_main [] [], tt) [Spawned fleet_interface Job FleetResult t] c) as (t & c & Hrun).
  { eexists _, _. eapply (run_more _ _ _ _ _ _ [] _ (Some _)); [apply run_none|]. eapply main_spawns. }
  exists t, c. split; [exact Hrun|].
  destruct (fleet_runs_every_target IncludeScope.Examples.system0 None (λ _, NotFound) no_config default_of two_hosts two_labels no_world tt
    [Spawned fleet_interface Job FleetResult t] c ltac:(vm_compute; discriminate) ltac:(vm_compute; discriminate) Hrun) as [Hev _].
  exact (Hev [] _ [] eq_refl).
Defined.

Definition web_job : Job :=
  mk_job (mk_prepared 0 (lit "web1") (config_new (lit "web1") (lit "root"))) TemplateAgent (lit "id") Current 5.
Lemma fleet_target_exact_witness :
  wp (target_monitor web_job) (run_target web_job) (λ r g, ∃ res, r = Ok res ∧ reported_truly web_job res g) untouched.
Proof. apply (fleet_target_exact web_job). vm_compute. discriminate. Defined.

Example hostile_output :
  terminal_safe ([27] ++ lit "[31mred" ++ [CR; LF; 155]) = lit "\x1b[31mred\r" ++ [LF] ++ lit "\u{9b}" ∧
  capture 5 Out [(Out, lit "hello "); (ErrOut, lit "x"); (Out, lit "world")] = mk_capped (lit "hello") 5 true ∧
  format_endpoint (lit "::1") 22 = lit "[::1]:22".
Proof. repeat split. Qed.
End Examples.
