(* ===== verification/DaemonServer.v ===== *)
(** * The daemon's side of a conversation ([crates/kaduox-ssh-daemon/src/server.rs])

    One client of the daemon: the first frame, the shared connection it gets, commands
    and shells over it.  The socket, the connection manager, the host library's file and
    the SSH sessions are requests; frames are those of [Protocol].  Theorems: a command
    or a shell runs only on a connection whose configuration is what the alias resolves
    to now; what is sent is the conversation the client expects, with exactly the output
    of the session; and a shell gets exactly the input that was sent. *)

From stdpp Require Import base list gmap strings numbers sorting.
From Stdlib Require Import Lia.
From S2P Require Import Prelude RustStr HostModel HostStore OpenSshInclude Config Resolver ConnectionManager RemoteCommand Program Authenticate Connect Exec Protocol IncludeScope.

(** ** Definitions *)
Definition into_authentication (auth : AuthRequest) (configured_identities : list os_path) : Authentication :=
  match auth with
  | Protocol.AuthAuto => ConnectionManager.AuthAuto configured_identities None
  | Protocol.AuthAgent => ConnectionManager.AuthAgent
  | Protocol.AuthPassword secret => ConnectionManager.AuthPassword secret
  | Protocol.AuthKeyboardInteractive secret => ConnectionManager.AuthKeyboardInteractive secret
  | Protocol.AuthPrivateKey path passphrase => ConnectionManager.AuthPrivateKey path passphrase
  end.

Definition stored_auth_method (auth : AuthRequest) : StoredAuthMethod :=
  match auth with
  | Protocol.AuthAuto => MethodAuto
  | Protocol.AuthAgent => MethodAgent
  | Protocol.AuthPassword _ => MethodPassword
  | Protocol.AuthKeyboardInteractive _ => MethodKeyboardInteractive
  | Protocol.AuthPrivateKey _ _ => MethodPrivateKey
  end.

(** What a manager's [connect_with_jump_auth] does next, and what a session does. *)
Inductive connect_event := JumpAsks (request : JumpAuthRequest) | ConnectEnded (r : result nat).
Inductive exec_event := ExOut (s : sink) (bytes : list Z) | ExEnded (r : result (option Z)).
Inductive served_event :=
| SvOut (bytes : list Z)
| SvFrame (r : result (option ClientFrame))
| SvEnded (r : result (result (option Z))).       (* the task, and the shell *)

Inductive daemon_request :=
| DRead
| DSend (f : ServerFrame)
| DOpenStore
| DSaveStore (s : HostStore)
| DNow
| DGet (alias : str)
| DConnect (alias : str) (config : ConnectionConfig) (authentication : Authentication)
| DJumpAnswer (answer : result (option Authentication))
| DRemove (alias : str)
| DSnapshot
| DShutdown
| DExec (client : nat) (command : str) (remote_user : RemoteUser)
| DExecNext
| DShell (client : nat) (terminal : TerminalSpec) (remote_user : RemoteUser)
| DSelect
| DDrain
| DInput (bytes : list Z)
| DInputEof
| DResize (columns rows : Z)
| DAbort.
Definition daemon_answer (q : daemon_request) : Type :=
  match q with
  | DRead => result (option ClientFrame)
  | DSend _ | DSaveStore _ | DInput _ | DInputEof => result unit
  | DOpenStore => result HostStore
  | DNow => result Z
  | DGet _ => option (nat * ConnectionConfig)
  | DConnect _ _ _ | DJumpAnswer _ => connect_event
  | DRemove _ => result bool
  | DSnapshot => ConnectionManagerSnapshot
  | DShutdown | DExec _ _ _ | DShell _ _ _ | DResize _ _ | DAbort => unit
  | DExecNext => exec_event
  | DSelect => served_event
  | DDrain => option (list Z)
  end.
Definition daemon_interface : interface := Interface daemon_request daemon_answer.
Abbreviation served A := (prog daemon_interface A).
Definition dm (q : daemon_interface) : served (answer q) := ask q.
Definition send_frame (f : ServerFrame) : served unit := awaited (dm (DSend f)).

(** [IpcJumpAuthProvider::authentication] *)
Definition ipc_jump_auth (request : JumpAuthRequest) : served (option Authentication) :=
  let jump := ja_jump request in
  (if bool_decide (ja_attempt request = 1%nat) then p_ret (Some (ConnectionManager.AuthAuto (jh_identity_files jump) None))
   else
     send_frame (SJumpAuthChallenge (Z.of_nat (ja_index request)) (Z.of_nat (ja_total request)) (Z.of_nat (ja_attempt request))
                   (jh_alias jump) (jh_host jump) (jh_port jump) (ja_previous_failed request)) ;;
     frame ⇐ awaited (dm DRead);
     match frame with
     | None => p_ret None
     | Some (CJumpAuthResponse auth) => p_ret ((λ auth, into_authentication auth (jh_identity_files jump)) <$> auth)
     | Some _ => p_err "expected JumpAuthResponse while authenticating jump host"
     end)%prog.

(** A statistics update that fails is reported to the console only. *)
Definition record_store_use (store : HostStore) (alias : str) (new_method : option StoredAuthMethod) : served unit :=
  (match store_host store alias with
   | None => p_ret tt
   | Some host =>
       let method := default MethodAuto (match new_method with Some method => Some method | None => last_auth_method (hr_stats host) end) in
       now ⇐ dm DNow;
       let '(r, store) := record_success now alias method store in
       match r with
       | Ok _ => dm (DSaveStore store) ;; p_ret tt
       | Err _ => p_ret tt
       end
   end)%prog.

Section daemon.
Context (sys : System) (home_var : option str) (metadata : str → io_result unit).
Context (russh_parse : str → str → result RusshConfig) (russh_default : str → RusshConfig).
Context {unicode : UnicodeTables} (fuel : nat).

(** The manager asks for a jump host's authentication as often as it needs to. *)
Fixpoint connecting_loop (fuel : nat) (event : connect_event) : served nat :=
  match event with
  | ConnectEnded r => Done r
  | JumpAsks request =>
      match fuel with
      | O => p_err "out of fuel"
      | S fuel =>
          (answer ⇐ p_try (ipc_jump_auth request);
           event ⇐ dm (DJumpAnswer answer);
           connecting_loop fuel event)%prog
      end
  end.

Definition acquire_client (alias : str) (auth : option AuthRequest) : served (option (nat * bool)) :=
  (store ⇐ awaited (dm DOpenStore);
   resolved ⇐ Done (resolve_host sys home_var metadata russh_parse russh_default (store_db store) alias None None);
   existing ⇐ dm (DGet alias);
   match existing with
   | Some (existing, config) =>
       Done (bail_if (negb (bool_decide (config = rh_config resolved))) "cached connection no longer matches the current configuration") ;;
       record_store_use store alias None ;;
       p_ret (Some (existing, true))
   | None =>
       match auth with
       | None => p_ret None
       | Some auth =>
           event ⇐ dm (DConnect alias (rh_config resolved) (into_authentication auth (c_identity_files (rh_config resolved))));
           client ⇐ p_context "daemon failed to establish SSH connection" (connecting_loop fuel event);
           record_store_use store alias (Some (stored_auth_method auth)) ;;
           p_ret (Some (client, false))
       end
   end)%prog.

Definition user_of (as_user : option str) : RemoteUser := match as_user with Some user => Sudo user | None => Current end.
Definition output_frame (s : sink) (bytes : list Z) : ServerFrame := match s with Out => SStdout bytes | ErrOut => SStderr bytes end.

(** Both [forward_output] tasks; each ends at its first failure. *)
Fixpoint exec_pump (fuel : nat) (out err : result unit) : served (result unit * result unit * result (option Z)) :=
  match fuel with
  | O => p_err "out of fuel"
  | S fuel =>
      (event ⇐ dm DExecNext;
       match event with
       | ExEnded r => p_ret (out, err, r)
       | ExOut s bytes =>
           match s, out, err with
           | Out, Err _, _ | ErrOut, _, Err _ => exec_pump fuel out err
           | _, _, _ =>
               sent ⇐ dm (DSend (output_frame s bytes));
               match s with Out => exec_pump fuel sent err | ErrOut => exec_pump fuel out sent end
           end
       end)%prog
  end.

Definition handle_exec (alias : str) (auth : option AuthRequest) (command : str) (as_user : option str) : served unit :=
  (acquired ⇐ acquire_client alias auth;
   match acquired with
   | None => send_frame SAuthRequired
   | Some (client, reused) =>
       send_frame (SCache reused) ;;
       dm (DExec client command (user_of as_user)) ;;
       pumped ⇐ exec_pump fuel (Ok tt) (Ok tt);
       Done pumped.1.1 ;;
       Done pumped.1.2 ;;
       match pumped.2 with
       | Ok status => send_frame (SExit status)
       | Err error => send_frame (SError (lit error))
       end
   end)%prog.

(** The output that is left after the shell ended. *)
Fixpoint shell_drain (fuel : nat) (out : result unit) : served unit :=
  match fuel with
  | O => p_err "out of fuel"
  | S fuel =>
      (chunk ⇐ dm DDrain;
       match chunk with
       | None => Done out
       | Some bytes =>
           match out with
           | Err _ => shell_drain fuel out
           | Ok _ => sent ⇐ dm (DSend (SStdout bytes)); shell_drain fuel sent
           end
       end)%prog
  end.

(** The loop over the shell's end and the client's frames, with the task that sends
    the output beside it. *)
Fixpoint shell_serve (fuel : nat) (out : result unit) : served unit :=
  match fuel with
  | O => p_err "out of fuel"
  | S fuel =>
      (event ⇐ dm DSelect;
       match event with
       | SvOut bytes =>
           match out with
           | Err _ => shell_serve fuel out
           | Ok _ => sent ⇐ dm (DSend (SStdout bytes)); shell_serve fuel sent
           end
       | SvEnded ended =>
           shell_result ⇐ Done (in_context "daemon shell task failed" ended);
           shell_drain fuel out ;;
           match shell_result with
           | Ok status => send_frame (SExit status)
           | Err error => send_frame (SError (lit error))
           end
       | SvFrame frame =>
           frame ⇐ Done frame;
           match frame with
           | None => dm DAbort ;; p_ret tt
           | Some (CInput bytes) => awaited (dm (DInput bytes)) ;; shell_serve fuel out
           | Some (CResize columns rows) => dm (DResize columns rows) ;; shell_serve fuel out
           | Some CEof => awaited (dm DInputEof) ;; shell_serve fuel out
           | Some _ => dm DAbort ;; send_frame (SError (lit "invalid control frame during daemon shell"))
           end
       end)%prog
  end.

Definition handle_shell (alias : str) (auth : option AuthRequest) (terminal : TerminalSpec) (as_user : option str) : served unit :=
  (acquired ⇐ acquire_client alias auth;
   match acquired with
   | None => send_frame SAuthRequired
   | Some (client, reused) =>
       send_frame (SCache reused) ;;
       dm (DShell client terminal (user_of as_user)) ;;
       shell_serve fuel (Ok tt)
   end)%prog.

Definition handle_connection : served unit :=
  (frame ⇐ awaited (dm DRead);
   match frame with
   | None => p_ret tt
   | Some CPing => send_frame SOk
   | Some CStatus =>
       s ⇐ dm DSnapshot;
       send_frame (SStatus (Z.of_nat (ms_total_connections s)) (Z.of_nat (ms_in_use_connections s)) (Z.of_nat (ms_active_leases s))
                     (Z.of_nat (ms_max_connections s)) (Z.of_nat (ms_available_capacity s)))
   | Some (CDisconnect alias) =>
       removed ⇐ awaited (dm (DRemove alias));
       if (removed : bool) then send_frame SOk else send_frame (SError (lit "no cached connection named"))
   | Some (CExec alias auth command as_user) => handle_exec alias auth command as_user
   | Some (CShell alias auth term columns rows as_user) => handle_shell alias auth (mk_terminal term columns rows) as_user
   | Some CShutdown => dm DShutdown ;; send_frame SOk
   | Some (CInput _ | CResize _ _ | CEof | CJumpAuthResponse _) =>
       send_frame (SError (lit "stream/control frame received before an operation"))
   end)%prog.
End daemon.

(** *** The accept loop *)
Definition CONNECTION_SLOTS : nat := 64.
Record Serving := mk_serving { sg_slots : nat; sg_handling : nat; sg_running : bool; sg_prunes : nat; sg_closed_all : bool }.
Definition serving_new : Serving := mk_serving CONNECTION_SLOTS 0 true 0 false.
Inductive serving_event := Accepted | AcceptFailed | HandlerEnded | ShutdownRequested | PruneTick.
Definition serving_step (s : Serving) (e : serving_event) : Serving :=
  match e with
  | HandlerEnded =>
      match sg_handling s with
      | O => s
      | S handling => mk_serving (S (sg_slots s)) handling (sg_running s) (sg_prunes s) (sg_closed_all s)
      end
  | _ =>
      if negb (sg_running s) then s
      else match e with
           | Accepted =>
               match sg_slots s with
               | O => s
               | S slots => mk_serving slots (S (sg_handling s)) true (sg_prunes s) false
               end
           | AcceptFailed => mk_serving (sg_slots s) (sg_handling s) false (sg_prunes s) false
           | ShutdownRequested => mk_serving (sg_slots s) (sg_handling s) false (sg_prunes s) true
           | _ => mk_serving (sg_slots s) (sg_handling s) true (S (sg_prunes s)) false
           end
  end.

(** ** What a conversation is *)
Inductive phase := Opening | Streaming | Closed.
Definition next_phase (p : phase) (f : ServerFrame) : option phase :=
  match p, f with
  | Opening, SJumpAuthChallenge _ _ _ _ _ _ _ => Some Opening
  | Opening, SCache _ => Some Streaming
  | Opening, (SOk | SError _ | SAuthRequired | SStatus _ _ _ _ _) => Some Closed
  | Streaming, (SStdout _ | SStderr _) => Some Streaming
  | Streaming, (SExit _ | SError _) => Some Closed
  | _, _ => None
  end.
Definition phase_of (sent : list ServerFrame) : option phase := foldl (λ p f, p ≫= λ p, next_phase p f) (Some Opening) sent.

Definition out_of (f : ServerFrame) : list Z := match f with SStdout bytes => bytes | _ => [] end.
Definition err_of (f : ServerFrame) : list Z := match f with SStderr bytes => bytes | _ => [] end.
Definition sent_out (sent : list ServerFrame) : list Z := concat (out_of <$> sent).
Definition sent_err (sent : list ServerFrame) : list Z := concat (err_of <$> sent).

Record DaemonWatch := mk_daemon_watch {
  dw_request : option ClientFrame;
  dw_sent : list ServerFrame;
  dw_store : option HostStore;
  dw_pending : option ConnectionConfig;
  dw_clients : list (nat * ConnectionConfig);      (* what the manager handed out *)
  dw_started : bool;
  dw_out : list Z; dw_err : list Z;                (* what the session wrote *)
  dw_ended : option (result (option Z));
  dw_received : list Z; dw_given : list Z;         (* input from the client, and to the shell *)
  dw_aborted : bool;
}.
Definition unconnected : DaemonWatch := mk_daemon_watch None [] None None [] false [] [] None [] [] false.

Definition set_request (f : ClientFrame) (g : DaemonWatch) := mk_daemon_watch (match dw_request g with None => Some f | r => r end) (dw_sent g)
  (dw_store g) (dw_pending g) (dw_clients g) (dw_started g) (dw_out g) (dw_err g) (dw_ended g) (dw_received g) (dw_given g) (dw_aborted g).
Definition add_sent (f : ServerFrame) (g : DaemonWatch) := mk_daemon_watch (dw_request g) (dw_sent g ++ [f])
  (dw_store g) (dw_pending g) (dw_clients g) (dw_started g) (dw_out g) (dw_err g) (dw_ended g) (dw_received g) (dw_given g) (dw_aborted g).
Definition set_store (s : HostStore) (g : DaemonWatch) := mk_daemon_watch (dw_request g) (dw_sent g)
  (Some s) (dw_pending g) (dw_clients g) (dw_started g) (dw_out g) (dw_err g) (dw_ended g) (dw_received g) (dw_given g) (dw_aborted g).
Definition set_clients (pending : option ConnectionConfig) (clients : list (nat * ConnectionConfig)) (g : DaemonWatch) :=
  mk_daemon_watch (dw_request g) (dw_sent g)
  (dw_store g) pending clients (dw_started g) (dw_out g) (dw_err g) (dw_ended g) (dw_received g) (dw_given g) (dw_aborted g).
Definition set_started (g : DaemonWatch) := mk_daemon_watch (dw_request g) (dw_sent g)
  (dw_store g) (dw_pending g) (dw_clients g) true (dw_out g) (dw_err g) (dw_ended g) (dw_received g) (dw_given g) (dw_aborted g).
Definition add_output (s : sink) (bytes : list Z) (g : DaemonWatch) := mk_daemon_watch (dw_request g) (dw_sent g)
  (dw_store g) (dw_pending g) (dw_clients g) (dw_started g)
  (match s with Out => dw_out g ++ bytes | ErrOut => dw_out g end) (match s with Out => dw_err g | ErrOut => dw_err g ++ bytes end)
  (dw_ended g) (dw_received g) (dw_given g) (dw_aborted g).
Definition set_ended (r : result (option Z)) (g : DaemonWatch) := mk_daemon_watch (dw_request g) (dw_sent g)
  (dw_store g) (dw_pending g) (dw_clients g) (dw_started g) (dw_out g) (dw_err g) (Some r) (dw_received g) (dw_given g) (dw_aborted g).
Definition add_input (received given : list Z) (g : DaemonWatch) := mk_daemon_watch (dw_request g) (dw_sent g)
  (dw_store g) (dw_pending g) (dw_clients g) (dw_started g) (dw_out g) (dw_err g) (dw_ended g) (dw_received g ++ received) (dw_given g ++ given) (dw_aborted g).
Definition set_aborted (g : DaemonWatch) := mk_daemon_watch (dw_request g) (dw_sent g)
  (dw_store g) (dw_pending g) (dw_clients g) (dw_started g) (dw_out g) (dw_err g) (dw_ended g) (dw_received g) (dw_given g) true.

Section discipline.
Context (sys : System) (home_var : option str) (metadata : str → io_result unit).
Context (russh_parse : str → str → result RusshConfig) (russh_default : str → RusshConfig).
Context {unicode : UnicodeTables}.
Local Abbreviation resolved_by store alias := (resolve_host sys home_var metadata russh_parse russh_default (store_db store) alias None None).

(** A client that the manager handed out for what the alias resolves to now. *)
Definition authorized (alias : str) (client : nat) (g : DaemonWatch) : Prop :=
  ∃ store r, dw_store g = Some store ∧ resolved_by store alias = Ok r ∧ (client, rh_config r) ∈ dw_clients g.

Definition daemon_allowed (q : daemon_request) (g : DaemonWatch) : Prop :=
  match q with
  | DSend f => is_Some (phase_of (dw_sent g ++ [f]))
  | DConnect alias config authentication =>
      ∃ auth store r, dw_store g = Some store ∧ resolved_by store alias = Ok r ∧ config = rh_config r ∧
        authentication = into_authentication auth (c_identity_files config) ∧
        ((∃ command user, dw_request g = Some (CExec alias (Some auth) command user)) ∨
         (∃ term columns rows user, dw_request g = Some (CShell alias (Some auth) term columns rows user)))
  | DExec client command user =>
      ∃ alias auth as_user, dw_request g = Some (CExec alias auth command as_user) ∧ user = user_of as_user ∧
        authorized alias client g ∧ phase_of (dw_sent g) = Some Streaming ∧ dw_started g = false
  | DShell client terminal user =>
      ∃ alias auth as_user, dw_request g = Some (CShell alias auth (term terminal) (columns terminal) (rows terminal) as_user) ∧
        user = user_of as_user ∧ authorized alias client g ∧ phase_of (dw_sent g) = Some Streaming ∧ dw_started g = false
  | DInput bytes => dw_started g = true ∧ dw_received g = dw_given g ++ bytes
  | DExecNext | DSelect | DDrain | DInputEof | DResize _ _ | DAbort => dw_started g = true
  | DShutdown => dw_request g = Some CShutdown
  | DRemove alias => dw_request g = Some (CDisconnect alias)
  | _ => True
  end.

Definition after_connect (config : option ConnectionConfig) (event : connect_event) (g g' : DaemonWatch) : Prop :=
  match event, config with
  | ConnectEnded (Ok client), Some config => g' = set_clients (Some config) (dw_clients g ++ [(client, config)]) g
  | _, _ => g' = set_clients config (dw_clients g) g
  end.
Definition daemon_step (q : daemon_request) : daemon_answer q → DaemonWatch → DaemonWatch → Prop :=
  match q with
  | DRead => λ r g g', match r with Ok (Some f) => g' = set_request f g | _ => g' = g end
  | DSend f => λ r g g', match r with Ok _ => g' = add_sent f g | Err _ => g' = g end
  | DOpenStore => λ r g g', match r with Ok s => g' = set_store s g | Err _ => g' = g end
  | DGet alias => λ r g g', match r with Some client => g' = set_clients None (dw_clients g ++ [client]) g | None => g' = g end
  | DConnect _ config _ => λ event g g', after_connect (Some config) event g g'
  | DJumpAnswer _ => λ event g g', after_connect (dw_pending g) event g g'
  | DExec _ _ _ | DShell _ _ _ => λ _ g g', g' = set_started g
  | DExecNext => λ event g g',
      match event with
      | ExOut s bytes => bytes ≠ [] ∧ zlen bytes ≤ OUTPUT_CHUNK_BYTES ∧ g' = add_output s bytes g
      | ExEnded r => g' = set_ended r g
      end
  | DSelect => λ event g g',
      match event with
      | SvOut bytes => bytes ≠ [] ∧ zlen bytes ≤ OUTPUT_CHUNK_BYTES ∧ g' = add_output Out bytes g
      | SvEnded (Ok r) => g' = set_ended r g
      | SvFrame (Ok (Some (CInput bytes))) => g' = add_input bytes [] g
      | _ => g' = g
      end
  | DDrain => λ chunk g g', match chunk with
      | Some bytes => bytes ≠ [] ∧ zlen bytes ≤ OUTPUT_CHUNK_BYTES ∧ g' = add_output Out bytes g
      | None => g' = g
      end
  | DInput bytes => λ r g g', match r with Ok _ => g' = add_input [] bytes g | Err _ => g' = g end
  | DAbort => λ _ g g', g' = set_aborted g
  | _ => λ _ g g', g' = g
  end.
Definition daemon_monitor : monitor daemon_interface DaemonWatch := Monitor (E := daemon_interface) daemon_allowed daemon_step.
End discipline.

(** How a conversation ends well. *)
Definition answered (r : result unit) (g : DaemonWatch) : Prop :=
  (dw_aborted g = true → dw_started g = true) ∧
  (r = Ok tt → dw_request g ≠ None → dw_aborted g = false →
     phase_of (dw_sent g) = Some Closed ∧ sent_out (dw_sent g) = dw_out g ∧ sent_err (dw_sent g) = dw_err g ∧ dw_received g = dw_given g ∧
     if dw_started g then
       match dw_ended g with
       | Some (Ok status) => last (dw_sent g) = Some (SExit status)
       | Some (Err e) => last (dw_sent g) = Some (SError (lit e))
       | None => False
       end
     else match dw_request g with
          | Some (CExec _ _ _ _ | CShell _ _ _ _ _ _) => last (dw_sent g) = Some SAuthRequired
          | _ => True
          end).

(** ** Lemmas *)
Section proofs.
Context (sys : System) (home_var : option str) (metadata : str → io_result unit).
Context (russh_parse : str → str → result RusshConfig) (russh_default : str → RusshConfig).
Context {unicode : UnicodeTables}.
Local Abbreviation M := (daemon_monitor sys home_var metadata russh_parse russh_default).
Local Abbreviation resolved_by store alias := (resolve_host sys home_var metadata russh_parse russh_default (store_db store) alias None None).
Local Abbreviation authorized' := (authorized sys home_var metadata russh_parse russh_default).

Lemma phase_snoc sent f : phase_of (sent ++ [f]) = phase_of sent ≫= λ p, next_phase p f.
Proof. unfold phase_of. by rewrite foldl_snoc. Qed.
Lemma sent_out_snoc sent f : sent_out (sent ++ [f]) = sent_out sent ++ out_of f.
Proof. unfold sent_out. rewrite fmap_app, concat_app. cbn. by rewrite app_nil_r. Qed.
Lemma sent_err_snoc sent f : sent_err (sent ++ [f]) = sent_err sent ++ err_of f.
Proof. unfold sent_err. rewrite fmap_app, concat_app. cbn. by rewrite app_nil_r. Qed.

(** Before a session. *)
Record quiet (g : DaemonWatch) : Prop := {
  qu_phase : phase_of (dw_sent g) = Some Opening;
  qu_started : dw_started g = false;
  qu_aborted : dw_aborted g = false;
  qu_out : dw_out g = []; qu_err : dw_err g = [];
  qu_ended : dw_ended g = None;
  qu_input : dw_received g = []; qu_given : dw_given g = [];
  qu_sent_out : sent_out (dw_sent g) = []; qu_sent_err : sent_err (dw_sent g) = [];
}.

Lemma quiet_clients pending clients g : quiet g → quiet (set_clients pending clients g).
Proof. by intros []. Qed.
Lemma quiet_challenge f g : quiet g → next_phase Opening f = Some Opening → quiet (add_sent f g).
Proof.
  intros [Hp ??????? Ho He] Hf. split; try done; cbn [dw_sent add_sent]; [by rewrite phase_snoc, Hp|..].
  - rewrite sent_out_snoc, Ho. by destruct f.
  - rewrite sent_err_snoc, He. by destruct f.
Qed.

(** Where an acquisition stands: the manager was asked for [config]. *)
Record acquiring (g0 : DaemonWatch) (config : ConnectionConfig) (g : DaemonWatch) : Prop := {
  aq_quiet : quiet g;
  aq_request : dw_request g = dw_request g0;
  aq_store : dw_store g = dw_store g0;
  aq_pending : dw_pending g = Some config;
}.
Definition handed_out (config : ConnectionConfig) (event : connect_event) (g : DaemonWatch) : Prop :=
  match event with ConnectEnded (Ok client) => (client, config) ∈ dw_clients g | _ => True end.

Lemma wp_jump_auth g0 config request g :
  is_Some (dw_request g0) → acquiring g0 config g → wp M (ipc_jump_auth request) (λ _ g', acquiring g0 config g') g.
Proof.
  intros [first Hfirst] Hacq. unfold ipc_jump_auth. case_bool_decide; [exact Hacq|]. unfold send_frame, dm, awaited.
  cbn [wp p_bind ask daemon_monitor allowed step daemon_allowed daemon_step]. split.
  { rewrite phase_snoc, (qu_phase g (aq_quiet _ _ _ Hacq)). by eexists. }
  intros [[]|e] g' Hg'; cbn [daemon_step] in Hg'; subst g'; cbn [p_bind wp]; [|exact Hacq].
  set (g1 := add_sent _ g). assert (acquiring g0 config g1) as Hacq1.
  { destruct Hacq as [Hq ???]. split; try done. by apply quiet_challenge. }
  clearbody g1. clear Hacq. split; [done|]. intros r g2 Hg2.
  assert (acquiring g0 config g2) as Hacq2.
  { change (result (option ClientFrame)) in r. destruct r as [[f|]|e]; cbn in Hg2; subst g2; try done. destruct Hacq1 as [Hq Hr ??]. split; try done.
    - by destruct Hq.
    - cbn. rewrite Hr, Hfirst. done. }
  change (result (option ClientFrame)) in r. destruct r as [[f|]|e]; cbn [p_bind wp p_ret]; [|done..]. by destruct f.
Qed.

Lemma wp_connecting g0 config fuel event g :
  is_Some (dw_request g0) → acquiring g0 config g → handed_out config event g →
  wp M (connecting_loop fuel event)
    (λ r g', acquiring g0 config g' ∧ match r with Ok client => (client, config) ∈ dw_clients g' | Err _ => True end) g.
Proof.
  intros Hfirst. revert event g. induction fuel as [|fuel IH]; intros [request|r] g Hacq Hh; cbn [connecting_loop];
    try (split; [done|by destruct r]); [by split|].
  rewrite wp_bind, wp_try. eapply wp_mono; [by apply (wp_jump_auth g0)|]. cbn. intros answer g1 Hacq1. split; [done|].
  intros event g2 Hstep. cbn [step daemon_monitor daemon_step] in Hstep. rewrite (aq_pending _ _ _ Hacq1) in Hstep.
  destruct event as [request'|[client|e]]; cbn in Hstep; subst g2.
  1,3: apply IH; [|done]; destruct Hacq1; split; try done; by apply quiet_clients.
  apply IH; [destruct Hacq1; split; try done; by apply quiet_clients|]. cbn. rewrite elem_of_app, list_elem_of_singleton. by right.
Qed.

Lemma wp_record store alias method g : wp M (record_store_use store alias method) (λ r g', r = Ok tt ∧ g' = g) g.
Proof.
  unfold record_store_use, dm. destruct (store_host store alias) as [host|]; [|done]. cbn -[record_success]. split; [done|]. intros now g' ->.
  match goal with |- context [record_success ?n alias ?m store] => destruct (record_success n alias m store) as [[[]|e] store'] end; [|done].
  cbn. split; [done|]. by intros r g' ->.
Qed.

(** What an acquisition may be for. *)
Definition requested (alias : str) (auth : option AuthRequest) (g : DaemonWatch) : Prop :=
  (∃ command user, dw_request g = Some (CExec alias auth command user)) ∨
  (∃ term columns rows user, dw_request g = Some (CShell alias auth term columns rows user)).

Lemma wp_acquire fuel alias auth g :
  quiet g → requested alias auth g →
  wp M (acquire_client sys home_var metadata russh_parse russh_default fuel alias auth)
    (λ r g', quiet g' ∧ dw_request g' = dw_request g ∧
             match r with Ok (Some (client, _)) => authorized' alias client g' | _ => True end) g.
Proof.
  intros Hq Hreq. assert (is_Some (dw_request g)) as Hfirst by (destruct Hreq as [(?&?&->)|(?&?&?&?&->)]; by eexists).
  unfold acquire_client, dm, awaited. cbn -[resolve_host]. split; [done|]. intros [store|e] g1 Hg1; cbn -[resolve_host] in *; subst g1; [|done].
  set (g1 := set_store store g). assert (quiet g1) as Hq1 by by destruct Hq.
  destruct (resolved_by store alias) as [resolved|e] eqn:Hres; [|done]. cbn -[resolve_host record_store_use connecting_loop]. split; [done|].
  intros [[existing config]|] g2 ->; cbn -[record_store_use connecting_loop].
  - case_bool_decide as Hc; cbn -[record_store_use]; [|by split; [apply quiet_clients|]].
    rewrite wp_bind. eapply wp_mono; [apply wp_record|]. intros r g3 [-> ->]. cbn. split_and!; [by apply quiet_clients|done|].
    exists store, resolved. split_and!; [done|done|]. cbn. rewrite <- Hc, elem_of_app, list_elem_of_singleton. by right.
  - destruct auth as [auth|]; [|done]. cbn -[resolve_host record_store_use connecting_loop into_authentication]. split.
    { exists auth, store, resolved. by split_and!. }
    intros event g2 Hstep. rewrite wp_bind, wp_context.
    assert (acquiring g1 (rh_config resolved) g2 ∧ handed_out (rh_config resolved) event g2) as [Hacq Hh].
    { destruct event as [request|[client|e]]; cbn in Hstep; subst g2; (split; [split; try done; by apply quiet_clients|]); try done.
      cbn. rewrite elem_of_app, list_elem_of_singleton. by right. }
    eapply wp_mono; [by apply (wp_connecting g1)|]. intros [client|e] g3 [[Hq3 Hr3 Hs3 _] Hin]; cbn; [|done].
    rewrite wp_bind. eapply wp_mono; [apply wp_record|]. intros r g4 [-> ->]. cbn. split_and!; [done..|].
    exists store, resolved. by split_and!.
Qed.

(** *** A session *)

(** In a session whose forwarding tasks stand at [out] and [err]. *)
Record in_session (first : ClientFrame) (out err : result unit) (g : DaemonWatch) : Prop := {
  se_request : dw_request g = Some first;
  se_phase : phase_of (dw_sent g) = Some Streaming;
  se_started : dw_started g = true;
  se_aborted : dw_aborted g = false;
  se_out : out = Ok tt → sent_out (dw_sent g) = dw_out g;
  se_err : err = Ok tt → sent_err (dw_sent g) = dw_err g;
  se_given : dw_received g = dw_given g;
}.

Lemma session_out first err bytes g :
  in_session first (Ok tt) err g → in_session first (Ok tt) err (add_sent (SStdout bytes) (add_output Out bytes g)).
Proof.
  intros [Hr Hp Hs Ha Ho He Hg]. split; try done; cbn [dw_sent dw_out dw_err add_sent add_output].
  - by rewrite phase_snoc, Hp.
  - intros _. by rewrite sent_out_snoc, Ho.
  - intros Hok. by rewrite sent_err_snoc, (He Hok), app_nil_r.
Qed.
Lemma session_err first out bytes g :
  in_session first out (Ok tt) g → in_session first out (Ok tt) (add_sent (SStderr bytes) (add_output ErrOut bytes g)).
Proof.
  intros [Hr Hp Hs Ha Ho He Hg]. split; try done; cbn [dw_sent dw_out dw_err add_sent add_output].
  - by rewrite phase_snoc, Hp.
  - intros Hok. by rewrite sent_out_snoc, (Ho Hok), app_nil_r.
  - intros _. by rewrite sent_err_snoc, He.
Qed.
Lemma session_lost first out err e s bytes g :
  in_session first out err g →
  in_session first (match s with Out => Err e | ErrOut => out end) (match s with Out => err | ErrOut => Err e end) (add_output s bytes g).
Proof. intros []. by destruct s; split. Qed.
Lemma session_ended first out err r g : in_session first out err g → in_session first out err (set_ended r g).
Proof. by intros []. Qed.

Lemma session_start first g : quiet g → dw_request g = Some first → ∀ reused, in_session first (Ok tt) (Ok tt) (set_started (add_sent (SCache reused) g)).
Proof.
  intros [Hp Hs Ha Ho He Hend Hrec Hgiv Hso Hse] Hr reused. split; try done; cbn [dw_sent dw_out dw_err dw_received dw_given set_started add_sent].
  - by rewrite phase_snoc, Hp.
  - intros _. by rewrite sent_out_snoc, Hso, Ho.
  - intros _. by rewrite sent_err_snoc, Hse, He.
  - by rewrite Hrec, Hgiv.
Qed.

Lemma session_may_send first out err f g :
  in_session first out err g → is_Some (next_phase Streaming f) → is_Some (phase_of (dw_sent g ++ [f])).
Proof. intros Hin Hf. rewrite phase_snoc, (se_phase _ _ _ _ Hin). exact Hf. Qed.

Lemma wp_exec_pump first fuel out err g :
  in_session first out err g →
  wp M (exec_pump fuel out err)
    (λ r g', match r with
             | Ok (out', err', ended) => in_session first out' err' g' ∧ dw_ended g' = Some ended
             | Err _ => dw_started g' = true
             end) g.
Proof.
  revert out err g. induction fuel as [|fuel IH]; intros out err g Hin; [by apply Hin|]. cbn [exec_pump]. unfold dm.
  split; [apply Hin|]. intros event g1 Hg1. cbn [step daemon_monitor daemon_step] in Hg1. change exec_event in event.
  destruct event as [s bytes|r]; cbn [p_bind].
  2:{ subst g1. cbn. split; [by apply session_ended|done]. }
  destruct Hg1 as (_ & _ & ->).
  destruct s, out as [[]|eo], err as [[]|ee]; cbn [output_frame];
    try (apply IH; first [exact (session_lost first _ _ eo Out bytes g Hin) | exact (session_lost first _ _ ee ErrOut bytes g Hin)]).
  all: (split; [first [eapply session_may_send; [exact (session_lost first _ _ EmptyString Out bytes g Hin)|by eexists] | eapply session_may_send; [exact (session_lost first _ _ EmptyString ErrOut bytes g Hin)|by eexists]]|]); intros sent g2 Hg2;
    cbn [step daemon_monitor daemon_step] in Hg2; change (result unit) in sent; destruct sent as [[]|e]; subst g2; cbn [p_bind];
    apply IH; first [by apply session_out | by apply session_err | exact (session_lost first _ _ e Out bytes g Hin) | exact (session_lost first _ _ e ErrOut bytes g Hin)].
Qed.

(** The last frame of a session. *)
Lemma wp_session_end first out err ended g :
  in_session first out err g → dw_ended g = Some ended → out = Ok tt → err = Ok tt →
  wp M (match ended with Ok status => send_frame (SExit status) | Err error => send_frame (SError (lit error)) end) answered g.
Proof.
  intros Hin Hended -> ->. set (f := match ended with Ok status => SExit status | Err error => SError (lit error) end).
  assert (wp M (send_frame f) answered g) as H; [|by destruct ended].
  unfold send_frame, dm, awaited. split; [eapply session_may_send; [exact Hin|]; by destruct ended; eexists|].
  destruct Hin as [Hr Hp Hs Ha Ho He Hg].
  intros [[]|e] g1 Hg1; cbn [step daemon_monitor daemon_step] in Hg1; subst g1; cbn [p_bind wp].
  - split; [done|]. intros _ _ _. cbn [dw_sent dw_out dw_err dw_received dw_given dw_ended add_sent].
    rewrite phase_snoc, sent_out_snoc, sent_err_snoc, last_snoc, Hp, Ho, He, Hended by done. cbn [dw_started add_sent]. rewrite Hs.
    subst f. split_and!; destruct ended; cbn; try done; by rewrite app_nil_r.
  - by split; [rewrite Ha|].
Qed.

Lemma not_done_started r g : r ≠ Ok tt → dw_started g = true → answered r g.
Proof. intros Hr Hs. by split. Qed.
Lemma not_done_quiet r g : r ≠ Ok tt → quiet g → answered r g.
Proof. intros Hr Hq. split; [by rewrite (qu_aborted _ Hq)|done]. Qed.

Lemma wp_auth_required g : quiet g → wp M (send_frame SAuthRequired) answered g.
Proof.
  intros Hq. destruct Hq as [Hp Hs Ha Ho He Hend Hrec Hgiv Hso Hse]. unfold send_frame, dm, awaited.
  split; [cbn; rewrite phase_snoc, Hp; by eexists|]. intros [[]|e] g1 Hg1; cbn [step daemon_monitor daemon_step] in Hg1; subst g1; cbn [p_bind wp].
  - split; cbn [dw_sent dw_out dw_err dw_received dw_given dw_ended dw_started dw_aborted add_sent]; [by rewrite Ha|]. intros _ _ _.
    rewrite phase_snoc, sent_out_snoc, sent_err_snoc, last_snoc, Hp, Hso, Hse, Hs, Ho, He, Hrec, Hgiv. split_and!; try done. by repeat case_match.
  - by split; [rewrite Ha|].
Qed.

Lemma wp_handle_exec fuel alias auth command as_user g :
  quiet g → dw_request g = Some (CExec alias auth command as_user) →
  wp M (handle_exec sys home_var metadata russh_parse russh_default fuel alias auth command as_user) answered g.
Proof.
  intros Hq Hreq. unfold handle_exec. rewrite wp_bind.
  eapply wp_mono; [apply wp_acquire; [exact Hq|left; by eexists _, _]|]. cbv beta. intros r g1 (Hq1 & Hr1 & Hauth). rewrite Hreq in Hr1.
  destruct r as [[[client reused]|]|e]; [|by apply wp_auth_required|by apply not_done_quiet].
  unfold send_frame, dm, awaited. cbn -[exec_pump]. split; [rewrite phase_snoc, (qu_phase _ Hq1); by eexists|].
  intros [[]|e] g2 Hg2; cbn -[exec_pump] in *; subst g2; [|by apply not_done_quiet].
  split.
  { exists alias, auth, as_user. cbn [dw_request add_sent dw_sent dw_started]. rewrite phase_snoc, (qu_phase _ Hq1).
    split_and!; [done|done|exact Hauth|done|apply Hq1]. }
  intros _ g2 ->. rewrite wp_bind. eapply wp_mono; [by apply wp_exec_pump, (session_start _ _ Hq1 Hr1)|].
  intros [[[out err] ended]|e] g2; [|by apply not_done_started]. intros [Hin Hended]. cbn [fst snd].
  destruct out as [[]|e]; [|by apply not_done_started; [|apply Hin]].
  destruct err as [[]|e]; [|by apply not_done_started; [|apply Hin]].
  by eapply wp_session_end.
Qed.

Lemma wp_shell_drain {A} first fuel out g (f : unit → served A) Q :
  in_session first out (Ok tt) g →
  (∀ g', in_session first (Ok tt) (Ok tt) g' → dw_ended g' = dw_ended g → wp M (f tt) Q g') →
  (∀ e g', dw_started g' = true → Q (Err e) g') →
  wp M (p_bind (shell_drain fuel out) f) Q g.
Proof.
  revert out g. induction fuel as [|fuel IH]; intros out g Hin Hf Hfail; [by apply Hfail, Hin|]. cbn [shell_drain]. unfold dm.
  split; [apply Hin|]. intros [bytes|] g1 Hg1; cbn [step daemon_monitor daemon_step] in Hg1.
  2:{ subst g1. cbn [p_bind]. destruct out as [[]|e]; cbn [p_bind]; [by apply Hf|]. apply Hfail, Hin. }
  destruct Hg1 as (_ & _ & ->). cbn [p_bind]. destruct out as [[]|e].
  - split; [eapply session_may_send; [exact (session_lost first _ _ EmptyString Out bytes g Hin)|by eexists]|].
    intros [[]|e] g2 Hg2; cbn [step daemon_monitor daemon_step] in Hg2; subst g2; cbn [p_bind].
    + apply IH; [by apply session_out|done|done].
    + apply IH; [exact (session_lost first _ _ e Out bytes g Hin)|done|done].
  - apply IH; [exact (session_lost first _ _ e Out bytes g Hin)|done|done].
Qed.

Lemma wp_shell_serve first fuel out g : in_session first out (Ok tt) g → wp M (shell_serve fuel out) answered g.
Proof.
  revert out g. induction fuel as [|fuel IH]; intros out g Hin; [by apply not_done_started; [|apply Hin]|]. cbn [shell_serve]. unfold dm.
  split; [apply Hin|]. intros event g1 Hg1. cbn [step daemon_monitor daemon_step] in Hg1. change served_event in event.
  destruct event as [bytes|r|r]; cbn [p_bind].
  - destruct Hg1 as (_ & _ & ->). destruct out as [[]|e].
    + split; [eapply session_may_send; [exact (session_lost first _ _ EmptyString Out bytes g Hin)|by eexists]|].
      intros [[]|e] g2 Hg2; cbn [step daemon_monitor daemon_step] in Hg2; subst g2; cbn [p_bind]; apply IH.
      * by apply session_out.
      * exact (session_lost first _ _ e Out bytes g Hin).
    + apply IH. exact (session_lost first _ _ e Out bytes g Hin).
  - destruct r as [[f|]|e]; cbn [p_bind].
    + destruct f; try subst g1; cbn [p_bind ask];
        try (split; [apply Hin|]; intros ? g2 Hg2; cbn [step daemon_monitor daemon_step] in Hg2; subst g2; cbn [p_bind];
             unfold send_frame, dm, awaited; (split; [cbn; rewrite phase_snoc, (se_phase _ _ _ _ Hin); by eexists|]);
             intros [[]|e] g3 Hg3; cbn [step daemon_monitor daemon_step] in Hg3; subst g3; cbn [p_bind wp];
             (split; [intros _; exact (se_started _ _ _ _ Hin)|cbn [dw_aborted add_sent set_aborted]; first [by intros _ _ [=] | by intros [=]]])).
      * unfold awaited. split; [split; [exact (se_started _ _ _ _ Hin)|by cbn; rewrite (se_given _ _ _ _ Hin), app_nil_r]|].
        intros [[]|e] g2 Hg2; cbn [step daemon_monitor daemon_step] in Hg2; subst g2; cbn [p_bind]; [|by apply not_done_started; [|apply Hin]].
        apply IH. destruct Hin as [?????? Hg]. split; try done. cbn. by rewrite Hg, !app_nil_r.
      * split; [apply Hin|]. intros ? g2 ->. cbn [p_bind]. by apply IH.
      * unfold awaited. split; [apply Hin|]. intros [[]|e] g2 ->; cbn [p_bind]; [by apply IH|by apply not_done_started; [|apply Hin]].
    + subst g1. split; [apply Hin|]. intros ? g2 ->. cbn. split; [by intros _; apply Hin|done].
    + subst g1. by apply not_done_started; [|apply Hin].
  - destruct r as [ended|e]; cbn [in_context p_bind]; subst g1; [|by apply not_done_started; [|apply Hin]].
    eapply wp_shell_drain; [by apply session_ended| |].
    + intros g2 Hin2 Hended. by eapply wp_session_end.
    + intros e g2 Hs. by apply not_done_started.
Qed.

Lemma wp_handle_shell fuel alias auth terminal as_user g :
  quiet g → dw_request g = Some (CShell alias auth (term terminal) (columns terminal) (rows terminal) as_user) →
  wp M (handle_shell sys home_var metadata russh_parse russh_default fuel alias auth terminal as_user) answered g.
Proof.
  intros Hq Hreq. unfold handle_shell. rewrite wp_bind.
  eapply wp_mono; [apply wp_acquire; [exact Hq|right; by eexists _, _, _, _]|]. cbv beta. intros r g1 (Hq1 & Hr1 & Hauth). rewrite Hreq in Hr1.
  destruct r as [[[client reused]|]|e]; [|by apply wp_auth_required|by apply not_done_quiet].
  unfold send_frame, dm, awaited. cbn -[shell_serve]. split; [rewrite phase_snoc, (qu_phase _ Hq1); by eexists|].
  intros [[]|e] g2 Hg2; cbn -[shell_serve] in *; subst g2; [|by apply not_done_quiet].
  split.
  { exists alias, auth, as_user. cbn [dw_request add_sent dw_sent dw_started]. rewrite phase_snoc, (qu_phase _ Hq1).
    split_and!; [done|done|exact Hauth|done|apply Hq1]. }
  intros _ g2 ->. eapply wp_shell_serve. by apply session_start.
Qed.

(** A request that one frame answers. *)
Lemma wp_single f first g :
  quiet g → dw_request g = Some first → match first with CExec _ _ _ _ | CShell _ _ _ _ _ _ => False | _ => True end →
  next_phase Opening f = Some Closed → wp M (send_frame f) answered g.
Proof.
  intros [Hp Hs Ha Ho He Hend Hrec Hgiv Hso Hse] Hfirst Hsimple Hf. unfold send_frame, dm, awaited.
  split; [change (is_Some (phase_of (dw_sent g ++ [f]))); rewrite phase_snoc, Hp; by exists Closed|].
  intros [[]|e] g1 Hg1; cbn [step daemon_monitor daemon_step] in Hg1; subst g1; cbn [p_bind wp].
  - split; cbn [dw_sent dw_out dw_err dw_received dw_given dw_ended dw_started dw_aborted dw_request add_sent]; [by rewrite Ha|]. intros _ _ _.
    rewrite phase_snoc, sent_out_snoc, sent_err_snoc, Hp, Hso, Hse, Hs, Ho, He, Hrec, Hgiv, Hfirst.
    destruct f; try done; split_and!; try done; by destruct first.
  - by split; [rewrite Ha|].
Qed.
End proofs.

Lemma quiet_unconnected f : quiet (set_request f unconnected).
Proof. by split. Qed.

(** ** Theorems *)

(** C25: the daemon keeps to its conversation, whatever the client sends and the manager, the file of
    hosts and the sessions answer.  A command or shell is started only on a connection that the
    manager handed out for exactly the configuration that the alias resolves to in the store as it
    was just read, and the manager is given no authentication but the client's own; frames go out
    only as challenges, then the cache's state, then output, then one end; only the client's shutdown
    and disconnect requests reach the manager as such; the input given to a shell is what the client
    sent, in order.  A connection that ends well was answered to its end: everything the session
    wrote was sent, on its stream and in order, then its status or its error, or the request for
    authentication when no session was started. *)
Theorem daemon_conversation sys home_var metadata russh_parse russh_default {unicode : UnicodeTables} fuel :
  wp (daemon_monitor sys home_var metadata russh_parse russh_default)
    (handle_connection sys home_var metadata russh_parse russh_default fuel) answered unconnected.
Proof.
  unfold handle_connection. unfold dm at 1. split; [done|]. intros r g Hg. cbn [step daemon_monitor daemon_step] in Hg.
  change (result (option ClientFrame)) in r. destruct r as [[f|]|e]; [|subst g; by split..]. cbn [p_bind].
  assert (quiet g ∧ dw_request g = Some f) as [Hq Hr] by (subst g; split; [apply quiet_unconnected|done]).
  destruct f; try (by eapply wp_single).
  - unfold dm. split; [done|]. intros s g1 ->. by eapply wp_single.
  - unfold dm, awaited. split; [exact Hr|]. intros [removed|e] g1 ->; cbn [p_bind]; [|by apply not_done_quiet].
    destruct removed; by eapply wp_single.
  - by apply wp_handle_exec.
  - by apply wp_handle_shell.
  - unfold dm. split; [exact Hr|]. intros s g1 ->. by eapply wp_single.
Qed.

(** The daemon serves at most 64 clients at once, closed or not; it goes on until it is asked to
    shut down, after which it closes every connection, or until an accept fails. *)
Theorem daemon_serves_boundedly es :
  let s := foldl serving_step serving_new es in
  (sg_slots s + sg_handling s = 64)%nat ∧
  (sg_running s = false ↔ AcceptFailed ∈ es ∨ ShutdownRequested ∈ es) ∧
  (sg_closed_all s = true → ShutdownRequested ∈ es) ∧ (sg_running s = false → sg_closed_all s = false → AcceptFailed ∈ es).
Proof.
  cbv zeta. induction es as [|e es (Hs & Hr & Hc & Hf)] using rev_ind; [cbn; split_and!; [done|set_solver|done|done]|].
  rewrite foldl_snoc. destruct (foldl serving_step serving_new es) as [slots handling running prunes closed]. cbn in Hs, Hr, Hc, Hf.
  rewrite !elem_of_app, !list_elem_of_singleton.
  destruct e, running; cbn; try (destruct slots; cbn); try (destruct handling; cbn); (split_and!; [lia|..]); intuition congruence.
Qed.

Module Examples.
Definition default_of (alias : str) : RusshConfig := mk_russh alias (lit "root") 22 None None None None None.
Definition no_config : str → str → result RusshConfig := λ _ _, Err "unused".
Definition empty_store : HostStore := mk_store [] default_db.
Definition demo_system : System := IncludeScope.Examples.system0.
Definition web : ConnectionConfig :=
  match resolve_host (unicode := ascii_tables) demo_system None (λ _, NotFound) no_config default_of (store_db empty_store) (lit "web") None None with
  | Ok r => rh_config r
  | Err _ => config_new [] []
  end.

(** A client of a cached connection: its frame, what happens then; what was sent, and
    whether the shell was aborted. *)
Record demo := mk_demo { dd_first : ClientFrame; dd_events : list served_event; dd_input_ok : bool; dd_sent : list ServerFrame; dd_aborted : bool }.
Definition demo_serve (q : daemon_interface) (w : demo) : answer q * demo :=
  match q return answer (i := daemon_interface) q * demo with
  | DRead => (Ok (Some (dd_first w)), w)
  | DSend f => (Ok tt, mk_demo (dd_first w) (dd_events w) (dd_input_ok w) (dd_sent w ++ [f]) (dd_aborted w))
  | DSaveStore _ => (Ok tt, w)
  | DOpenStore => (Ok empty_store, w)
  | DNow => (Ok 0, w)
  | DGet _ => (Some (0%nat, web), w)
  | DConnect _ _ _ | DJumpAnswer _ => (ConnectEnded (Err "unused"), w)
  | DRemove _ => (Ok false, w)
  | DSnapshot => (mk_manager_snapshot 0 0 0 0 0, w)
  | DShutdown | DExec _ _ _ | DShell _ _ _ | DResize _ _ => (tt, w)
  | DAbort => (tt, mk_demo (dd_first w) (dd_events w) (dd_input_ok w) (dd_sent w) true)
  | DExecNext => (ExEnded (Ok (Some 0)), w)
  | DSelect =>
      (match dd_events w with e :: _ => e | [] => SvEnded (Ok (Ok (Some 0))) end,
       mk_demo (dd_first w) (tail (dd_events w)) (dd_input_ok w) (dd_sent w) (dd_aborted w))
  | DDrain => (None, w)
  | DInput _ | DInputEof => (if dd_input_ok w then Ok tt else Err "broken pipe", w)
  end.
Definition demo_run (events : list served_event) (input_ok : bool) : result unit * demo :=
  run demo_serve (handle_connection (unicode := ascii_tables) demo_system None (λ _, NotFound) no_config default_of 20)
    (mk_demo (CShell (lit "web") None (lit "xterm") 80 24 None) events input_ok [] false).

Example shell_session :
  let r := demo_run [SvOut (lit "$ "); SvFrame (Ok (Some (CInput (lit "ls"))))] true in
  r.1 = Ok tt ∧ dd_sent r.2 = [SCache true; SStdout (lit "$ "); SExit (Some 0)].
Proof. split; vm_compute; reflexivity. Qed.

(** A client that goes away ends its shell; one whose frame is malformed does not. *)
Lemma malformed_frame_leaves_shell :
  (let r := demo_run [SvFrame (Ok None)] true in r.1 = Ok tt ∧ dd_aborted r.2 = true) ∧
  (let r := demo_run [SvFrame (Err "invalid frame")] true in r.1 = Err "invalid frame" ∧ dd_aborted r.2 = false).
Proof. split; split; vm_compute; reflexivity. Qed.

(** Input that arrives when the shell has just ended loses the exit status. *)
Lemma late_input_loses_status :
  let r := demo_run [SvFrame (Ok (Some (CInput (lit "x"))))] false in r.1 = Err "broken pipe" ∧ dd_sent r.2 = [SCache true].
Proof. split; vm_compute; reflexivity. Qed.

(** One failed accept ends the daemon, and leaves the connections open. *)
Lemma failed_accept_ends_daemon :
  let s := foldl serving_step serving_new [Accepted; AcceptFailed; ShutdownRequested] in sg_running s = false ∧ sg_closed_all s = false.
Proof. done. Qed.
End Examples.
