(* ===== verification/DaemonClient.v ===== *)
(** * The client's side of a conversation with the daemon
      ([crates/kaduox-ssh-daemon/src/client.rs])

    The requests of a command line to the daemon, as programs over the socket's frames
    and the caller's streams.  Theorems: what a session wrote on the daemon's side
    arrives at the caller, byte for byte and with the exit status, through the socket's
    bytes; a shell sends its input in order and ends it once; and a daemon's challenge is
    answered only with what the caller's provider gives for it. *)

From stdpp Require Import base list gmap strings numbers sorting.
From Stdlib Require Import Lia.
From S2P Require Import Prelude RustStr StrFacts RemoteCommand Program Authenticate Exec Protocol DaemonServer.

(** ** Definitions *)
Record DaemonStatus := mk_daemon_status {
  ds_total_connections : Z; ds_in_use_connections : Z; ds_active_leases : Z; ds_max_connections : Z; ds_available_capacity : Z;
}.
Inductive DaemonOutcome := OutcomeAuthRequired | Completed (exit_status : option Z) (reused : bool).
Record DaemonJumpAuthChallenge := mk_challenge {
  dc_index : Z; dc_total : Z; dc_attempt : Z; dc_alias : str; dc_host : str; dc_port : Z; dc_previous_failed : bool;
}.

(** What [select!] woke up for in a shell. *)
Inductive client_event := KeInput (r : result (list Z)) | KeResize (columns rows : Z) | KeFrame (r : result (option ServerFrame)).

Inductive client_request :=
| KConnect
| KSend (f : ClientFrame)
| KRecv
| KAsk (challenge : DaemonJumpAuthChallenge)
| KWrite (s : sink) (bytes : list Z)
| KFlush (s : sink)
| KSelect (input_open resizing : bool).
Definition client_answer (q : client_request) : Type :=
  match q with
  | KConnect | KSend _ | KWrite _ _ | KFlush _ => result unit
  | KRecv => result (option ServerFrame)
  | KAsk _ => result (option AuthRequest)
  | KSelect _ _ => client_event
  end.
Definition client_interface : interface := Interface client_request client_answer.
Abbreviation clients A := (prog client_interface A).
Definition ck {A} (q : client_interface) (f : answer q → clients A) : clients A := Ask q f.
Definition kc (q : client_interface) : clients (answer q) := ask q.

(** One request, one answer. *)
Definition ask_daemon {A} (request : ClientFrame) (accept : ServerFrame → option A) : clients A :=
  (awaited (kc KConnect) ;;
   awaited (kc (KSend request)) ;;
   answer ⇐ awaited (kc KRecv);
   match answer with
   | Some (SError _) => p_err "daemon request failed"
   | Some f => match accept f with Some a => p_ret a | None => p_err "unexpected daemon response" end
   | None => p_err "unexpected daemon response"
   end)%prog.
Definition accept_ok (f : ServerFrame) : option unit := match f with SOk => Some tt | _ => None end.
Definition ping : clients unit := ask_daemon CPing accept_ok.
Definition status : clients DaemonStatus :=
  ask_daemon CStatus (λ f, match f with
    | SStatus total in_use leases max capacity => Some (mk_daemon_status total in_use leases max capacity)
    | _ => None
    end).
Definition disconnect (alias : str) : clients unit := ask_daemon (CDisconnect alias) accept_ok.
Definition shutdown : clients unit := ask_daemon CShutdown accept_ok.

(** A challenge goes to the caller's provider, when there is one. *)
Definition answer_challenge (jump_auth : bool) (challenge : DaemonJumpAuthChallenge) : clients unit :=
  (response ⇐ (if jump_auth then awaited (kc (KAsk challenge)) else p_ret None);
   awaited (kc (KSend (CJumpAuthResponse response))))%prog.

Fixpoint exec_loop (jump_auth : bool) (fuel : nat) (reused : bool) : clients DaemonOutcome :=
  match fuel with
  | O => p_err "out of fuel"
  | S fuel =>
      (frame ⇐ awaited (kc KRecv);
       match frame with
       | Some SAuthRequired => p_ret OutcomeAuthRequired
       | Some (SCache value) => exec_loop jump_auth fuel value
       | Some (SJumpAuthChallenge index total attempt alias host port previous_failed) =>
           answer_challenge jump_auth (mk_challenge index total attempt alias host port previous_failed) ;;
           exec_loop jump_auth fuel reused
       | Some (SStdout bytes) => awaited (kc (KWrite Out bytes)) ;; exec_loop jump_auth fuel reused
       | Some (SStderr bytes) => awaited (kc (KWrite ErrOut bytes)) ;; exec_loop jump_auth fuel reused
       | Some (SExit exit_status) =>
           awaited (kc (KFlush Out)) ;;
           awaited (kc (KFlush ErrOut)) ;;
           p_ret (Completed exit_status reused)
       | Some (SError _) => p_err "daemon exec failed"
       | Some SOk => exec_loop jump_auth fuel reused
       | Some (SStatus _ _ _ _ _) => p_err "unexpected daemon status frame during exec"
       | None => p_err "daemon closed IPC before exec completed"
       end)%prog
  end.

Definition exec_with_jump_auth (fuel : nat) (alias : str) (auth : option AuthRequest) (command : str) (as_user : option str)
    (jump_auth : bool) : clients DaemonOutcome :=
  (awaited (kc KConnect) ;;
   awaited (kc (KSend (CExec alias auth command as_user))) ;;
   exec_loop jump_auth fuel false)%prog.

(** *** Shells *)
Fixpoint shell_setup (jump_auth : bool) (fuel : nat) : clients (option bool) :=
  match fuel with
  | O => p_err "out of fuel"
  | S fuel =>
      (frame ⇐ awaited (kc KRecv);
       match frame with
       | Some SAuthRequired => p_ret None
       | Some (SCache value) => p_ret (Some value)
       | Some (SJumpAuthChallenge index total attempt alias host port previous_failed) =>
           answer_challenge jump_auth (mk_challenge index total attempt alias host port previous_failed) ;;
           shell_setup jump_auth fuel
       | Some (SError _) => p_err "daemon shell failed"
       | Some SOk => shell_setup jump_auth fuel
       | Some _ => p_err "unexpected daemon shell setup response"
       | None => p_err "daemon closed IPC before shell started"
       end)%prog
  end.

Fixpoint shell_stream (resizing : bool) (fuel : nat) (input_closed reused : bool) : clients DaemonOutcome :=
  match fuel with
  | O => p_err "out of fuel"
  | S fuel =>
      (event ⇐ kc (KSelect (negb input_closed) resizing);
       match event with
       | KeInput read =>
           bytes ⇐ Done read;
           match bytes with
           | [] => awaited (kc (KSend CEof)) ;; shell_stream resizing fuel true reused
           | _ => awaited (kc (KSend (CInput bytes))) ;; shell_stream resizing fuel input_closed reused
           end
       | KeResize columns rows => awaited (kc (KSend (CResize columns rows))) ;; shell_stream resizing fuel input_closed reused
       | KeFrame frame =>
           frame ⇐ Done frame;
           match frame with
           | Some (SStdout bytes | SStderr bytes) =>
               awaited (kc (KWrite Out bytes)) ;; awaited (kc (KFlush Out)) ;; shell_stream resizing fuel input_closed reused
           | Some (SExit exit_status) => p_ret (Completed exit_status reused)
           | Some (SError _) => p_err "daemon shell failed"
           | Some (SCache value) => shell_stream resizing fuel input_closed value
           | Some SOk => shell_stream resizing fuel input_closed reused
           | Some SAuthRequired => p_err "daemon requested authentication after shell streaming started"
           | Some (SJumpAuthChallenge _ _ _ _ _ _ _) => p_err "daemon requested jump authentication after shell streaming started"
           | Some (SStatus _ _ _ _ _) => p_err "unexpected daemon status frame during shell"
           | None => p_err "daemon closed IPC before shell completed"
           end
       end)%prog
  end.

Definition shell_with_jump_auth (fuel : nat) (alias : str) (auth : option AuthRequest) (terminal : TerminalSpec) (as_user : option str)
    (resizing jump_auth : bool) : clients DaemonOutcome :=
  (awaited (kc KConnect) ;;
   awaited (kc (KSend (CShell alias auth (term terminal) (columns terminal) (rows terminal) as_user))) ;;
   reused ⇐ shell_setup jump_auth fuel;
   match reused with
   | None => p_ret OutcomeAuthRequired
   | Some reused => shell_stream resizing fuel false reused
   end)%prog.

(** ** The socket: its bytes are read as frames *)
Record socket := mk_socket {
  sk_incoming : list Z;                         (* what the daemon sent *)
  sk_outgoing : list ClientFrame;
  sk_stdout : list Z; sk_stderr : list Z;
}.
Definition write_stream (s : sink) (bytes : list Z) (w : socket) : socket :=
  match s with
  | Out => mk_socket (sk_incoming w) (sk_outgoing w) (sk_stdout w ++ bytes) (sk_stderr w)
  | ErrOut => mk_socket (sk_incoming w) (sk_outgoing w) (sk_stdout w) (sk_stderr w ++ bytes)
  end.
Definition serve_socket (provider : DaemonJumpAuthChallenge → option AuthRequest) (q : client_interface) (w : socket) : answer q * socket :=
  match q return answer (i := client_interface) q * socket with
  | KConnect | KFlush _ => (Ok tt, w)
  | KSend f => (Ok tt, mk_socket (sk_incoming w) (sk_outgoing w ++ [f]) (sk_stdout w) (sk_stderr w))
  | KRecv =>
      match read_server_frame (sk_incoming w) with
      | Ok (frame, rest) => (Ok frame, mk_socket rest (sk_outgoing w) (sk_stdout w) (sk_stderr w))
      | Err e => (Err e, w)
      end
  | KAsk challenge => (Ok (provider challenge), w)
  | KWrite s bytes => (Ok tt, write_stream s bytes w)
  | KSelect _ _ => (KeFrame (Err "unused"), w)
  end.

(** The bytes of frames. *)
Definition frames_on_wire (fs : list ServerFrame) : result (list Z) := try_fold write_server_frame [] fs.

(** *** What a conversation brings *)
Definition challenge_of (f : ServerFrame) : option DaemonJumpAuthChallenge :=
  match f with
  | SJumpAuthChallenge index total attempt alias host port previous_failed => Some (mk_challenge index total attempt alias host port previous_failed)
  | _ => None
  end.
Definition responses (jump_auth : bool) (provider : DaemonJumpAuthChallenge → option AuthRequest) (fs : list ServerFrame) : list ClientFrame :=
  (λ c, CJumpAuthResponse (if jump_auth then provider c else None)) <$> omap challenge_of fs.
Definition outcome_of (reused : bool) (fs : list ServerFrame) : result DaemonOutcome :=
  match last fs with
  | Some SAuthRequired => Ok OutcomeAuthRequired
  | Some (SExit exit_status) => Ok (Completed exit_status (foldl (λ reused f, match f with SCache value => value | _ => reused end) reused fs))
  | _ => Err "daemon exec failed"
  end.
(** A whole conversation about a command. *)
Definition exec_end (f : ServerFrame) : bool := match f with SAuthRequired | SExit _ | SError _ => true | _ => false end.
Definition phase_after (p : phase) (fs : list ServerFrame) : option phase := foldl (λ p f, p ≫= λ p, next_phase p f) (Some p) fs.
Definition exec_conversation (p : phase) (fs : list ServerFrame) : Prop :=
  phase_after p fs = Some Closed ∧ ∃ f, last fs = Some f ∧ exec_end f = true.

(** The frames that bytes hold, one after the other. *)
Fixpoint reads (fs : list ServerFrame) (wire : list Z) : Prop :=
  match fs with
  | [] => wire = []
  | f :: fs => ∃ w wire', wire = w ++ wire' ∧ (∀ rest, read_server_frame (w ++ rest) = Ok (Some f, rest)) ∧ reads fs wire'
  end.

(** ** Lemmas *)
Lemma read_server_frame_write out f out' :
  write_server_frame out f = Ok out' → valid_server f →
  ∃ w, out' = out ++ w ∧ ∀ rest, read_server_frame (w ++ rest) = Ok (Some f, rest).
Proof.
  intros (p & He & [-> Hlen]%write_payload_ok)%bind_ok Hv. eexists. split; [done|]. intros rest.
  unfold read_server_frame. rewrite <- app_assoc, read_payload_write by done. step_bind.
  by rewrite (decode_encode_server _ _ He Hv).
Qed.

Lemma frames_read fs out out' :
  Forall valid_server fs → try_fold write_server_frame out fs = Ok out' → ∃ wire, out' = out ++ wire ∧ reads fs wire.
Proof.
  revert out. induction fs as [|f fs IH]; intros out Hv; cbn [try_fold].
  { intros [= <-]. exists []. by rewrite app_nil_r. }
  apply Forall_cons in Hv as [Hf Hv]. intros (out1 & Hout1 & Hfs)%bind_ok.
  destruct (read_server_frame_write _ _ _ Hout1 Hf) as (w & -> & Hw). destruct (IH _ Hv Hfs) as (wire & -> & Hwire).
  exists (w ++ wire). rewrite app_assoc. split; [done|]. by exists w, wire.
Qed.

Lemma phase_closed fs : phase_after Closed fs = Some Closed → fs = [].
Proof.
  destruct fs as [|f fs]; [done|]. unfold phase_after. cbn. intros H. exfalso. revert H. induction fs as [|g fs IH]; cbn; [done|exact IH].
Qed.

Lemma phase_never fs : foldl (λ p f, p ≫= λ p, next_phase p f) None fs = None.
Proof. by induction fs. Qed.

(** One frame, and the rest of the conversation. *)
Lemma conversation_cons p f fs :
  exec_conversation p (f :: fs) →
  (fs = [] ∧ exec_end f = true ∧ next_phase p f = Some Closed) ∨
  (∃ p', p' ≠ Closed ∧ next_phase p f = Some p' ∧ fs ≠ [] ∧ exec_conversation p' fs).
Proof.
  intros [Hp (g & Hlast & Hg)]. unfold phase_after in Hp. cbn in Hp.
  destruct (next_phase p f) as [p'|] eqn:Hn; [|by rewrite phase_never in Hp].
  destruct (decide (fs = [])) as [->|Hne].
  - left. cbn in Hlast, Hp. by simplify_eq.
  - right. exists p'. destruct fs as [|f' fs]; [done|]. split_and!; [|done..|].
    + intros ->. by apply phase_closed in Hp.
    + split; [exact Hp|]. by exists g.
Qed.

Section client_runs.
Context (provider : DaemonJumpAuthChallenge → option AuthRequest) (jump_auth : bool).

Lemma run_receive {A} (f : option ServerFrame → clients A) frame w rest out so se :
  (∀ rest, read_server_frame (w ++ rest) = Ok (Some frame, rest)) →
  run (serve_socket provider) (p_bind (awaited (kc KRecv)) f) (mk_socket (w ++ rest) out so se) = run (serve_socket provider) (f (Some frame)) (mk_socket rest out so se).
Proof. intros Hw. rewrite run_bind. cbn. by rewrite Hw. Qed.

Lemma run_answer {A} (f : unit → clients A) c inc out so se :
  run (serve_socket provider) (p_bind (answer_challenge jump_auth c) f) (mk_socket inc out so se) =
    run (serve_socket provider) (f tt) (mk_socket inc (out ++ [CJumpAuthResponse (if jump_auth then provider c else None)]) so se).
Proof. rewrite run_bind. by destruct jump_auth. Qed.

(** The client follows a conversation to its end, whatever follows on the socket. *)
Lemma exec_loop_follows fs : ∀ p fuel reused wire rest out so se,
  exec_conversation p fs → p ≠ Closed → reads fs wire → (length fs ≤ fuel)%nat →
  run (serve_socket provider) (exec_loop jump_auth fuel reused) (mk_socket (wire ++ rest) out so se) =
    (outcome_of reused fs, mk_socket rest (out ++ responses jump_auth provider fs) (so ++ sent_out fs) (se ++ sent_err fs)).
Proof.
  induction fs as [|f fs IH]; intros p fuel reused wire rest out so se Hc Hp Hw Hfuel; [by destruct Hc as [_ (f & [=] & _)]|].
  destruct fuel as [|fuel]; [cbn in Hfuel; lia|]. destruct Hw as (w & wire' & -> & Hread & Hw). cbn [exec_loop]. rewrite <- app_assoc, (run_receive _ f w) by exact Hread.
  destruct (conversation_cons _ _ _ Hc) as [(-> & Hend & Hnext)|(p' & Hp' & Hnext & Hne & Hc')].
  - cbn in Hw. subst wire'. unfold responses, sent_out, sent_err. cbn. destruct f; try done; cbn; by rewrite ?app_nil_r.
  - assert (outcome_of (match f with SCache value => value | _ => reused end) fs = outcome_of reused (f :: fs)) as Ho.
    { unfold outcome_of. destruct fs; [done|]. cbn [foldl]. done. }
    assert (∀ q reused' wire' out' so' se', next_phase p f = Some q → reads fs wire' →
      run (serve_socket provider) (exec_loop jump_auth fuel reused') (mk_socket (wire' ++ rest) out' so' se') =
      (outcome_of reused' fs, mk_socket rest (out' ++ responses jump_auth provider fs) (so' ++ sent_out fs) (se' ++ sent_err fs))) as Hstep.
    { intros q reused' w' out' so' se' Hq Hw'. eapply IH; [exact Hc'|done|done|cbn in Hfuel; lia]. }
    rewrite <- Ho. destruct p; try done; destruct f; try done; cbn [next_phase] in Hnext; simplify_eq; try done; rewrite ?run_answer.
    + by rewrite (Hstep _ _ _ _ _ _ eq_refl Hw).
    + rewrite (Hstep _ _ _ _ _ _ eq_refl Hw). unfold responses. cbn. by rewrite <- app_assoc.
    + rewrite run_bind. cbn. rewrite (Hstep _ _ _ _ _ _ eq_refl Hw). unfold sent_out, sent_err. cbn. by rewrite <- app_assoc.
    + rewrite run_bind. cbn. rewrite (Hstep _ _ _ _ _ _ eq_refl Hw). unfold sent_out, sent_err. cbn. by rewrite <- app_assoc.
Qed.
End client_runs.

(** *** What a shell may do *)
Record ShellWatch := mk_shell_watch {
  hw_sent : list ClientFrame;
  hw_got : list ServerFrame;
  hw_read : list Z; hw_ended : bool;             (* what the caller typed, and whether its input ended *)
  hw_sizes : list (Z * Z);
  hw_given : list (option AuthRequest);          (* what the provider gave *)
  hw_written : list Z;
}.
Definition input_of (f : ClientFrame) : list Z := match f with CInput bytes => bytes | _ => [] end.
Definition size_of (f : ClientFrame) : list (Z * Z) := match f with CResize columns rows => [(columns, rows)] | _ => [] end.
Definition response_of (f : ClientFrame) : list (option AuthRequest) := match f with CJumpAuthResponse auth => [auth] | _ => [] end.
Definition eof_of (f : ClientFrame) : list unit := match f with CEof => [tt] | _ => [] end.
Definition shown_of (f : ServerFrame) : list Z := match f with SStdout bytes | SStderr bytes => bytes | _ => [] end.
Definition all_of {A B} (f : A → list B) (l : list A) : list B := concat (f <$> l).
Definition last_cache (fs : list ServerFrame) : bool := foldl (λ reused f, match f with SCache value => value | _ => reused end) false fs.

Definition shell_sent f g := mk_shell_watch (hw_sent g ++ [f]) (hw_got g) (hw_read g) (hw_ended g) (hw_sizes g) (hw_given g) (hw_written g).
Definition shell_got f given g := mk_shell_watch (hw_sent g) (hw_got g ++ [f]) (hw_read g) (hw_ended g) (hw_sizes g) (hw_given g ++ given) (hw_written g).
Definition shell_given r g := mk_shell_watch (hw_sent g) (hw_got g) (hw_read g) (hw_ended g) (hw_sizes g) (hw_given g ++ [r]) (hw_written g).
Definition shell_read bytes g :=
  mk_shell_watch (hw_sent g) (hw_got g) (hw_read g ++ bytes) (match bytes with [] => true | _ => hw_ended g end) (hw_sizes g) (hw_given g) (hw_written g).
Definition shell_sized size g := mk_shell_watch (hw_sent g) (hw_got g) (hw_read g) (hw_ended g) (hw_sizes g ++ [size]) (hw_given g) (hw_written g).
Definition shell_wrote bytes g := mk_shell_watch (hw_sent g) (hw_got g) (hw_read g) (hw_ended g) (hw_sizes g) (hw_given g) (hw_written g ++ bytes).

Section shell_discipline.
Context (first : ClientFrame) (jump_auth : bool).
Definition shell_client_allowed (q : client_request) (g : ShellWatch) : Prop :=
  match q with
  | KConnect => hw_sent g = []
  | KSend f =>
      match f with
      | CInput bytes => bytes ≠ [] ∧ CEof ∉ hw_sent g ∧ all_of input_of (hw_sent g) ++ bytes = hw_read g
      | CEof => hw_ended g = true ∧ CEof ∉ hw_sent g ∧ all_of input_of (hw_sent g) = hw_read g
      | CResize columns rows => all_of size_of (hw_sent g) ++ [(columns, rows)] = hw_sizes g
      | CJumpAuthResponse auth => all_of response_of (hw_sent g) ++ [auth] = hw_given g
      | _ => hw_sent g = [] ∧ f = first
      end
  | KAsk challenge => jump_auth = true ∧ last (hw_got g) ≫= challenge_of = Some challenge
  | KWrite s bytes => s = Out ∧ hw_written g ++ bytes = all_of shown_of (hw_got g)
  | KFlush _ => hw_written g = all_of shown_of (hw_got g)
  | KSelect input_open _ => input_open = negb (hw_ended g)
  | KRecv => True
  end.
Definition shell_client_step (q : client_request) : client_answer q → ShellWatch → ShellWatch → Prop :=
  (* without a provider a challenge gets no authentication *)
  let got f g := shell_got f (match challenge_of f with Some _ => if jump_auth then [] else [None] | None => [] end) g in
  match q with
  | KSend f => λ r g g', match r with Ok _ => g' = shell_sent f g | Err _ => g' = g end
  | KRecv => λ r g g', match r with Ok (Some f) => g' = got f g | _ => g' = g end
  | KAsk _ => λ r g g', match r with Ok auth => g' = shell_given auth g | Err _ => g' = g end
  | KWrite _ bytes => λ r g g', match r with Ok _ => g' = shell_wrote bytes g | Err _ => g' = g end
  | KSelect input_open resizing => λ event g g',
      match event with
      | KeInput (Ok bytes) => input_open = true ∧ g' = shell_read bytes g
      | KeInput (Err _) => g' = g
      | KeResize columns rows => resizing = true ∧ g' = shell_sized (columns, rows) g
      | KeFrame (Ok (Some f)) => g' = got f g
      | KeFrame _ => g' = g
      end
  | _ => λ _ g g', g' = g
  end.
Definition shell_client_monitor : monitor client_interface ShellWatch := Monitor (E := client_interface) shell_client_allowed shell_client_step.
End shell_discipline.

(** How a shell ends. *)
Definition shell_outcome (r : result DaemonOutcome) (g : ShellWatch) : Prop :=
  match r with
  | Ok (Completed exit_status reused) =>
      last (hw_got g) = Some (SExit exit_status) ∧ reused = last_cache (hw_got g) ∧
      hw_written g = all_of shown_of (hw_got g) ∧ all_of input_of (hw_sent g) = hw_read g ∧ all_of size_of (hw_sent g) = hw_sizes g ∧
      length (all_of eof_of (hw_sent g)) = (if hw_ended g then 1 else 0)%nat
  | Ok OutcomeAuthRequired => last (hw_got g) = Some SAuthRequired ∧ hw_read g = [] ∧ hw_written g = []
  | Err _ => True
  end.

(** While a shell goes on. *)
Record shell_going (reused : bool) (g : ShellWatch) : Prop := {
  sg_started : hw_sent g ≠ [];
  sg_input : all_of input_of (hw_sent g) = hw_read g;
  sg_size : all_of size_of (hw_sent g) = hw_sizes g;
  sg_response : all_of response_of (hw_sent g) = hw_given g;
  sg_eof : all_of eof_of (hw_sent g) = if hw_ended g then [tt] else [];
  sg_shown : hw_written g = all_of shown_of (hw_got g);
  sg_cache : last_cache (hw_got g) = reused;
}.

#[local] Arguments all_of : simpl never.
#[local] Arguments last_cache : simpl never.

Lemma all_of_snoc {A B} (f : A → list B) l x : all_of f (l ++ [x]) = all_of f l ++ f x.
Proof. unfold all_of. rewrite fmap_app, concat_app. cbn. by rewrite app_nil_r. Qed.
Lemma last_cache_snoc fs f : last_cache (fs ++ [f]) = match f with SCache value => value | _ => last_cache fs end.
Proof. unfold last_cache. by rewrite foldl_snoc. Qed.

Lemma no_eof sent : all_of eof_of sent = [] → CEof ∉ sent.
Proof.
  induction sent as [|f sent IH]; [set_solver|]. unfold all_of. cbn [fmap list_fmap concat]. intros [H Hs]%app_eq_nil [<-|Hin]%elem_of_cons; [done|]. by apply IH.
Qed.

Section shell_runs.
Context (alias : str) (auth : option AuthRequest) (terminal : TerminalSpec) (as_user : option str) (resizing jump_auth : bool).
Local Abbreviation first := (CShell alias auth (term terminal) (columns terminal) (rows terminal) as_user).
Local Abbreviation M := (shell_client_monitor first jump_auth).

Lemma wp_stream fuel input_closed reused g :
  shell_going reused g → hw_ended g = input_closed → wp M (shell_stream resizing fuel input_closed reused) shell_outcome g.
Proof.
  revert input_closed reused g. induction fuel as [|fuel IH]; intros input_closed reused g Hg Hend; [done|]. cbn [shell_stream].
  unfold kc. split; [cbn; by rewrite Hend|]. intros event g1 Hg1. cbn [step shell_client_monitor shell_client_step] in Hg1.
  destruct Hg as [Hst Hin Hsz Hre Heof Hsh Hca].
  change client_event in event. destruct event as [[bytes|e]|columns rows|[[f|]|e]]; cbn [p_bind]; try by subst g1.
  - destruct Hg1 as [Hopen ->]. rewrite <- Hend in Hopen. destruct (hw_ended g) eqn:Hended; [done|].
    destruct bytes as [|b bytes]; unfold awaited; cbn [p_bind].
    + split; [split_and!; [done|by apply no_eof|by cbn; rewrite app_nil_r]|].
      intros [[]|e] g2 Hg2; cbn [step shell_client_monitor shell_client_step] in Hg2; subst g2; [|done]. apply IH; [|done].
      split; cbn; rewrite ?all_of_snoc, ?Heof, ?app_nil_r; try done. by destruct (hw_sent g).
    + split; [split_and!; [done|by apply no_eof|by cbn; rewrite Hin]|].
      intros [[]|e] g2 Hg2; cbn [step shell_client_monitor shell_client_step] in Hg2; subst g2; [|done]. apply IH; [|by cbn; rewrite Hended].
      split; cbn; rewrite ?all_of_snoc, ?Heof, ?app_nil_r; try done; [by destruct (hw_sent g)|by rewrite Hin|by rewrite Hended].
  - destruct Hg1 as [_ ->]. unfold awaited. split; [cbn; by rewrite Hsz|].
    intros [[]|e] g2 Hg2; cbn [step shell_client_monitor shell_client_step] in Hg2; subst g2; [|done]. apply IH; [|done].
    split; cbn; rewrite ?all_of_snoc, ?Heof, ?app_nil_r; try done; [by destruct (hw_sent g)|by rewrite Hsz].
  - assert (shell_going (match f with SCache value => value | _ => reused end) (shell_got f [] g) ∨ shown_of f ≠ [] ∨ challenge_of f ≠ None) as Hgot.
    { destruct (decide (shown_of f = [])) as [Hf|]; [|by right; left]. destruct (challenge_of f) eqn:?; [by right; right|]. left.
      split; cbn; rewrite ?app_nil_r, ?all_of_snoc, ?last_cache_snoc, ?Hf, ?app_nil_r; try done. by rewrite Hca. }
    assert (∀ bytes, shown_of f = bytes → challenge_of f = None → (∀ value, f ≠ SCache value) → g1 = shell_got f [] g →
      wp M (p_bind (awaited (kc (KWrite Out bytes))) (λ _, p_bind (awaited (kc (KFlush Out))) (λ _, shell_stream resizing fuel input_closed reused))) shell_outcome g1) as Hout.
    { intros bytes Hf _ Hcf ->. unfold awaited, kc. cbn [p_bind]. split; [cbn; by rewrite all_of_snoc, Hsh, Hf|].
      intros [[]|e] g2 Hg2; cbn [step shell_client_monitor shell_client_step] in Hg2; subst g2; cbn [p_bind]; [|done].
      split; [cbn; by rewrite all_of_snoc, Hsh, Hf|].
      intros [[]|e] g2 Hg2; cbn [step shell_client_monitor shell_client_step] in Hg2; subst g2; cbn [p_bind]; [|done]. apply IH; [|done].
      split; cbn; rewrite ?app_nil_r; try done; rewrite ?all_of_snoc, ?last_cache_snoc, ?Hsh, ?Hf; try done. rewrite Hca. destruct f; try done. by destruct (Hcf reused0). }
    destruct f; cbn [challenge_of] in Hg1; subst g1; cbn [p_bind]; try done;
      try (by apply Hout); try (destruct Hgot as [Hgot|[Hgot|Hgot]]; [|done|done]); try (by apply IH).
    destruct Hgot as [_ Hin' Hsz' _ Heof' Hsh' Hca']. cbn. split_and!; try done; [by rewrite last_snoc|].
    cbn in Heof'. rewrite Heof'. by destruct (hw_ended g).
Qed.
(** Before the cache's state. *)
Definition shell_opening (g : ShellWatch) : Prop := shell_going false g ∧ hw_read g = [] ∧ hw_written g = [] ∧ hw_ended g = false.

Lemma opening_got f g :
  shell_opening g → shown_of f = [] → (∀ value, f ≠ SCache value) → shell_opening (shell_got f [] g).
Proof.
  intros ([Hst Hin Hsz Hre Heof Hsh Hca] & Hr & Hw & He) Hf Hc. split; [|done].
  split; cbn; rewrite ?all_of_snoc, ?last_cache_snoc, ?Hf, ?app_nil_r; try done. rewrite Hca. destruct f; try done. by destruct (Hc reused).
Qed.

Lemma opening_sent c given_auth given g g' :
  shell_opening g → challenge_of c ≠ None → g' = shell_got c [] g → given = hw_given g ++ [given_auth] →
  shell_opening (shell_sent (CJumpAuthResponse given_auth) (mk_shell_watch (hw_sent g') (hw_got g') (hw_read g') (hw_ended g') (hw_sizes g') given (hw_written g'))).
Proof.
  intros ([Hst Hin Hsz Hre Heof Hsh Hca] & Hr & Hw & He) Hc -> ->. split; [|done]. destruct c; try done.
  split; cbn; rewrite ?all_of_snoc, ?last_cache_snoc, ?Hre, ?app_nil_r; try done. by destruct (hw_sent g).
Qed.

Lemma wp_answer {A} c (f : unit → clients A) g challenge Q :
  shell_opening g → challenge_of c = Some challenge →
  (∀ g', shell_opening g' → wp M (f tt) Q g') → (∀ e g', Q (Err e) g') →
  wp M (p_bind (answer_challenge jump_auth challenge) f) Q (shell_got c (if jump_auth then [] else [None]) g).
Proof.
  intros Hg Hc Hf Hfail. assert (challenge_of c ≠ None) as Hne by congruence. pose proof (proj1 Hg) as [_ _ _ Hre _ _ _].
  unfold answer_challenge, kc, awaited. destruct jump_auth; cbn [p_bind].
  - split; [cbn; by rewrite last_snoc|]. intros [auth'|e] g1 Hg1; cbn [step shell_client_monitor shell_client_step] in Hg1; subst g1; cbn [p_bind]; [|apply Hfail].
    split; [cbn; by rewrite Hre, app_nil_r|].
    intros [[]|e] g1 Hg1; cbn [step shell_client_monitor shell_client_step] in Hg1; subst g1; cbn [p_bind]; [|apply Hfail]. apply Hf.
    eapply (opening_sent c auth'); [exact Hg|done..|cbn; by rewrite app_nil_r].
  - split; [cbn; by rewrite Hre|].
    intros [[]|e] g1 Hg1; cbn [step shell_client_monitor shell_client_step] in Hg1; subst g1; cbn [p_bind]; [|apply Hfail]. apply Hf.
    exact (opening_sent c None _ g (shell_got c [] g) Hg Hne eq_refl eq_refl).
Qed.

Lemma wp_setup fuel g :
  shell_opening g →
  wp M (shell_setup jump_auth fuel) (λ r g', match r with
    | Ok None => last (hw_got g') = Some SAuthRequired ∧ hw_read g' = [] ∧ hw_written g' = []
    | Ok (Some reused) => shell_going reused g' ∧ hw_ended g' = false
    | Err _ => True
    end) g.
Proof.
  revert g. induction fuel as [|fuel IH]; intros g Hg; [done|]. cbn [shell_setup]. unfold kc, awaited at 1. split; [done|].
  intros [[f|]|e] g1 Hg1; cbn [step shell_client_monitor shell_client_step] in Hg1; subst g1; cbn [p_bind]; try done.
  destruct f; cbn [challenge_of]; try done.
  - by apply IH, opening_got.
  - cbn. destruct (opening_got SAuthRequired g) as (_ & Hr & Hw & _); [done..|]. by rewrite last_snoc.
  - destruct Hg as ([Hst Hin Hsz Hre Heof Hsh Hca] & Hr & Hw & He). split; [|done].
    split; cbn; rewrite ?all_of_snoc, ?last_cache_snoc, ?app_nil_r; done.
  - eapply (wp_answer (SJumpAuthChallenge _ _ _ _ _ _ _)); [exact Hg|done|exact IH|done].
Qed.
End shell_runs.

(** ** Theorems *)

(** C26: what a command wrote on the daemon's side arrives at the caller.  When the daemon has
    answered a command to its end, over whatever connections and sessions, a client that reads the
    bytes of what was sent writes exactly the session's standard output and standard error, and
    reports its exit status and whether
    the connection was reused, or a failure when the session failed, or that authentication is needed
    when no session was started; it answers each of the daemon's challenges with what its provider
    gives, or with nothing, and leaves whatever follows on the socket untouched. *)
Theorem exec_reaches_client g alias auth command as_user provider jump_auth wire rest fuel :
  answered (Ok tt) g → dw_request g = Some (CExec alias auth command as_user) → dw_aborted g = false →
  Forall valid_server (dw_sent g) → frames_on_wire (dw_sent g) = Ok wire → (length (dw_sent g) ≤ fuel)%nat →
  run (serve_socket provider) (exec_with_jump_auth fuel alias auth command as_user jump_auth) (mk_socket (wire ++ rest) [] [] []) =
      (if dw_started g
       then match dw_ended g with Some (Ok status) => Ok (Completed status (last_cache (dw_sent g))) | _ => Err "daemon exec failed" end
       else Ok OutcomeAuthRequired,
       mk_socket rest (CExec alias auth command as_user :: responses jump_auth provider (dw_sent g)) (dw_out g) (dw_err g)).
Proof.
  intros [_ Hans] Hreq Habort Hvalid Hwire Hfuel. destruct Hans as (Hphase & Hout & Herr & _ & Hend); [done|by rewrite Hreq|done|].
  destruct (frames_read _ _ _ Hvalid Hwire) as (w & -> & Hw). cbn [app].
  assert (exec_conversation Opening (dw_sent g)) as Hc.
  { split; [exact Hphase|]. rewrite Hreq in Hend. destruct (dw_started g); [destruct (dw_ended g) as [[]|]; [..|done]|]; by eexists. }
  unfold exec_with_jump_auth. rewrite !run_bind. cbn [run awaited kc ask p_bind serve_socket]. cbn.
  rewrite (exec_loop_follows _ _ _ _ _ _ _ _ _ _ _ Hc) by done. rewrite Hout, Herr.
  f_equal. unfold outcome_of, last_cache. rewrite Hreq in Hend.
  destruct (dw_started g); [destruct (dw_ended g) as [[]|]; [..|done]|]; by rewrite Hend.
Qed.

(** A shell's client, whatever its caller types and the daemon sends: it asks for the shell once;
    every byte that was typed is sent, in order, then one end of input and no input after it; window
    sizes are sent as they come; output is written as it came, and only when it came; a challenge is
    answered only with what the provider gave for it; and it ends with the status that the daemon
    sent when everything the daemon had sent was written and everything that was typed was sent. *)
Theorem shell_client_exact fuel alias auth terminal as_user resizing jump_auth :
  wp (shell_client_monitor (CShell alias auth (term terminal) (columns terminal) (rows terminal) as_user) jump_auth)
    (shell_with_jump_auth fuel alias auth terminal as_user resizing jump_auth) shell_outcome (mk_shell_watch [] [] [] false [] [] []).
Proof.
  unfold shell_with_jump_auth, awaited, kc. split; [done|].
  intros [[]|e] g Hg; cbn [step shell_client_monitor shell_client_step] in Hg; subst g; cbn [p_bind]; [|done]. split; [done|].
  intros [[]|e] g Hg; cbn [step shell_client_monitor shell_client_step] in Hg; subst g; cbn [p_bind]; [|done].
  rewrite wp_bind. eapply wp_mono; [apply wp_setup; by repeat split|]. intros [[reused|]|e] g; [|done..].
  intros [Hg He]. by apply wp_stream.
Qed.

Module Examples.
Definition answers : list ServerFrame :=
  [SJumpAuthChallenge 1 2 2 (lit "bastion") (lit "b.example") 22 true; SCache false; SStdout (lit "hi"); SStderr (lit "warn"); SExit (Some 3)].
Definition over : DaemonWatch :=
  mk_daemon_watch (Some (CExec (lit "web") None (lit "uptime") None)) answers None None [] true (lit "hi") (lit "warn") (Some (Ok (Some 3))) [] [] false.
Definition wire : list Z := match frames_on_wire answers with Ok wire => wire | Err _ => [] end.

Lemma exec_reaches_client_witness :
  answered (Ok tt) over ∧
  run (serve_socket (λ _, Some Protocol.AuthAgent)) (exec_with_jump_auth 5 (lit "web") None (lit "uptime") None true) (mk_socket (wire ++ [7]) [] [] []) =
    (Ok (Completed (Some 3) false),
     mk_socket [7] [CExec (lit "web") None (lit "uptime") None; CJumpAuthResponse (Some Protocol.AuthAgent)] (lit "hi") (lit "warn")).
Proof.
  assert (answered (Ok tt) over) as Hans by (split; [done|intros _ _ _; split_and!; reflexivity]). split; [exact Hans|].
  apply (exec_reaches_client over (lit "web") None (lit "uptime") None (λ _, Some Protocol.AuthAgent) true wire [7] 5); try done.
  - change (Forall valid_server answers). unfold answers. repeat (apply Forall_cons; split); cbn [valid_server]; try done;
      repeat split; try done; try (by apply (bool_decide_unpack _); vm_compute).
Defined.

(** A shell whose [select!] drops a frame that has arrived in part loses the bytes it read: what the
    session printed is then taken for the daemon's frames. *)
Lemma dropped_read_forges_exit :
  let printed := [0; 0; 0; 6; 69; 1; 0; 0; 0; 0] in
  ∃ wire k, frames_on_wire [SStdout printed] = Ok wire ∧ read_server_frame wire = Ok (Some (SStdout printed), []) ∧
    read_server_frame (drop k wire) = Ok (Some (SExit (Some 0)), []).
Proof. eexists _, 9%nat. split; [vm_compute; reflexivity|]. split; vm_compute; reflexivity. Qed.
End Examples.
