(* ===== verification/Screen.v ===== *)
(** * What the terminal interface draws ([crates/kaduox-ssh-cli/src/tui_app.rs])

    The remote browser's state as far as it is drawn, the text of its lines, and one
    frame as the commands queued for the terminal.  Theorem: a frame fits the terminal,
    line by line, contains no control character whatever the server names its files,
    and shows the selected entry, highlighted. *)

From stdpp Require Import base list gmap strings numbers sorting.
From Stdlib Require Import Lia.
From S2P Require Import Prelude RustStr StrFacts RemotePath Targets Config HostTrust RemoteFs TransferOps TaskRegistry Privileged.

(** ** Definitions *)
Definition tui_safe_char (c : char) : str :=
  if c =? LF then lit "\n"
  else if c =? CR then lit "\r"
  else if c =? TAB then lit "\t"
  else if c =? 27 then lit "\x1b"
  else if is_control c then lit "\u{" ++ hex_of c ++ lit "}"
  else [c].
Definition tui_safe (value : str) : str := concat (tui_safe_char <$> value).

Definition char_cells (c : char) : Z := if c <? 128 then 1 else 2.
Definition display_cells (value : str) : Z := foldr (λ c n, char_cells c + n) 0 value.

(** The characters that fit, up to the first that does not. *)
Fixpoint within_cells (budget used : Z) (value : str) : str :=
  match value with
  | [] => []
  | c :: value => if budget <? used + char_cells c then [] else c :: within_cells budget (used + char_cells c) value
  end.
Definition truncate_cells (value : str) (max_cells : Z) : str :=
  if max_cells =? 0 then []
  else if display_cells value <=? max_cells then value
  else if max_cells <=? 3 then replicate (Z.to_nat max_cells) (ch ".")
  else within_cells (max_cells - 3) 0 value ++ lit "...".

Definition pad_left (width : nat) (c : char) (s : str) : str := replicate (width - length s) c ++ s.

Definition verification_name (v : HostKeyVerification) : str :=
  match v with
  | Known => lit "known-hosts"
  | Learned => lit "accept-new-learned"
  | InsecureKey => lit "insecure-unverified"
  end.
Definition file_type_marker (t : RemoteFileType) : char :=
  match t with RDirectory => ch "d" | RFile => ch "-" | RSymlink => ch "l" | ROther => ch "?" end.
Definition file_type_name (t : RemoteFileType) : str :=
  match t with RDirectory => lit "directory" | RFile => lit "file" | RSymlink => lit "symlink" | ROther => lit "other" end.
Definition format_permissions (mode : option Z) : str :=
  match mode with Some mode => pad_left 4 (ch "0") (oct_of (Z.land mode 4095)) | None => lit "----" end.
Definition format_optional (value : option Z) : str := match value with Some value => dec_of value | None => lit "-" end.

Definition tui_endpoint (host : str) (port : Z) : str :=
  let host := tui_safe host in
  if contains_char host colon && negb (starts_with host [open_bracket] && ends_with host [close_bracket])
  then lit "[" ++ host ++ lit "]:" ++ dec_of port
  else host ++ lit ":" ++ dec_of port.

Definition host_line (config : ConnectionConfig) (host_key : option ServerHostKeyInfo) : str :=
  let route :=
    if negb (bool_decide (c_jump_hosts config = [])) then lit "proxy-jump:" ++ dec_of (zlen (c_jump_hosts config))
    else match c_proxy_command config with Some _ => lit "proxy-command" | None => lit "direct" end in
  let key := match host_key with
    | Some info => tui_safe (ki_algorithm info) ++ lit " " ++ tui_safe (ki_fingerprint info) ++ lit " " ++ verification_name (ki_verification info)
    | None => lit "host-key unavailable"
    end in
  tui_safe (c_username config) ++ lit "@" ++ tui_endpoint (c_host config) (c_port config) ++ lit " | " ++ route ++ lit " | " ++ key.

Definition entry_line (entry : RemoteDirEntry) : str :=
  lit " " ++ [file_type_marker (rm_file_type (re_metadata entry))] ++ lit " " ++ format_permissions (rm_permissions (re_metadata entry)) ++
  lit " " ++ pad_left 12 32 (format_optional (rm_size (re_metadata entry))) ++ lit " " ++ tui_safe (re_name entry).

Definition owner_text (name : option str) (id : option Z) : str :=
  match name, id with Some name, _ => tui_safe name | None, Some id => dec_of id | None, None => lit "-" end.
Definition selected_line (name : str) (m : RemoteFileMetadata) : str :=
  lit "selected: " ++ tui_safe name ++ lit " | type=" ++ file_type_name (rm_file_type m) ++ lit " mode=" ++ format_permissions (rm_permissions m) ++
  lit " owner=" ++ owner_text (rm_user m) (rm_uid m) ++ lit " group=" ++ owner_text (rm_group m) (rm_gid m) ++
  lit " size=" ++ format_optional (rm_size m) ++ lit " mtime=" ++ format_optional (rm_modified_at m).

(** ** The browser's state *)
Record BrowserState := mk_browser {
  bs_path : str;
  bs_entries : list RemoteDirEntry;
  bs_selected : nat;
  bs_status : str;
}.
Definition browser_new (initial_path : str) : BrowserState :=
  mk_browser (if bool_decide (initial_path = []) then lit "." else initial_path) [] 0 (lit "loading remote directory...").
Definition set_status (status : str) (s : BrowserState) : BrowserState := mk_browser (bs_path s) (bs_entries s) (bs_selected s) status.
Definition set_selected (selected : nat) (s : BrowserState) : BrowserState := mk_browser (bs_path s) (bs_entries s) selected (bs_status s).

Definition selected_entry (s : BrowserState) : option RemoteDirEntry := bs_entries s !! bs_selected s.
Definition move_up (s : BrowserState) : BrowserState := set_selected (bs_selected s - 1) s.
Definition move_down (s : BrowserState) : BrowserState :=
  if bool_decide (bs_selected s + 1 < length (bs_entries s))%nat then set_selected (bs_selected s + 1) s else s.
Definition select_first (s : BrowserState) : BrowserState := set_selected 0 s.
Definition select_last (s : BrowserState) : BrowserState := set_selected (length (bs_entries s) - 1) s.
Definition page_up (amount : nat) (s : BrowserState) : BrowserState := set_selected (bs_selected s - amount) s.
Definition page_down (amount : nat) (s : BrowserState) : BrowserState :=
  if bool_decide (bs_entries s = []) then set_selected 0 s
  else set_selected (Nat.min (bs_selected s + amount) (length (bs_entries s) - 1)) s.
Definition clamp_selection (s : BrowserState) : BrowserState :=
  if bool_decide (bs_entries s = []) then set_selected 0 s else set_selected (Nat.min (bs_selected s) (length (bs_entries s) - 1)) s.

(** ** One frame *)
Inductive draw := DMove (column row : Z) | DClear | DBold | DReverse | DReset | DPrint (text : str).

Definition KEYS : str :=
  lit "keys: j/k nav | Enter open/stat | " ++ [8592] ++ lit " parent | p path | m mkdir | R rename | x remove | X delete tree | t tasks | i info | r refresh | s/S shell | d/D download | u/U upload | q quit".

Definition window_start (selected : nat) (height : nat) : nat :=
  if bool_decide (height = 0%nat) || bool_decide (selected < height)%nat then 0 else selected + 1 - height.

Fixpoint body_rows {A} (line : A → str) (width : Z) (selected : nat) (row index : nat) (entries : list A) (height : nat) {struct height} : list draw :=
  match height, entries with
  | S height, entry :: entries =>
      [DMove 0 (4 + Z.of_nat row)] ++ (if bool_decide (index = selected) then [DReverse] else []) ++
      [DPrint (truncate_cells (line entry) width)] ++ (if bool_decide (index = selected) then [DReset] else []) ++
      body_rows line width selected (S row) (S index) entries height
  | _, _ => []
  end.

Definition frame (columns rows : Z) (config : ConnectionConfig) (host_key : option ServerHostKeyInfo) (s : BrowserState) : list draw :=
  [DMove 0 0; DClear] ++
  if (columns <? 40) || (rows <? 8) then [DPrint (lit "kssh-tui: terminal too small (minimum 40x8)")]
  else
    let cut text := DPrint (truncate_cells text columns) in
    let height := Z.to_nat (rows - 7) in
    let start := window_start (bs_selected s) height in
    [DBold; cut (lit "Kaduox-SSH TUI | remote workspace"); DReset;
     DMove 0 1; cut (host_line config host_key);
     DMove 0 2; cut (lit "path: " ++ tui_safe (bs_path s));
     DMove 0 3; DPrint (replicate (Z.to_nat columns) (ch "-"))] ++
    body_rows entry_line columns (bs_selected s) 0 start (drop start (bs_entries s)) height ++
    [DMove 0 (rows - 3);
     cut (match selected_entry s with Some entry => selected_line (re_name entry) (re_metadata entry) | None => lit "selected: -" end);
     DMove 0 (rows - 2); cut (lit "status: " ++ tui_safe (bs_status s));
     DMove 0 (rows - 1); DBold; cut KEYS; DReset].

(** ** What a terminal shows: each text with its row, and whether it is reversed *)
Fixpoint shown (row : Z) (reversed : bool) (ops : list draw) : list (Z * bool * str) :=
  match ops with
  | [] => []
  | DMove _ row :: ops => shown row reversed ops
  | DReverse :: ops => shown row true ops
  | DReset :: ops => shown row false ops
  | DPrint text :: ops => (row, reversed, text) :: shown row reversed ops
  | (DClear | DBold) :: ops => shown row reversed ops
  end.
Definition plain (text : str) : Prop := Forall (λ c, is_control c = false) text.
Definition selection_ok (s : BrowserState) : Prop := bs_selected s = 0%nat ∨ (bs_selected s < length (bs_entries s))%nat.

(** ** Lemmas *)
Lemma plain_app s t : plain s → plain t → plain (s ++ t).
Proof. intros ??. by apply Forall_app. Qed.
Lemma plain_lit s : forallb (λ c, negb (is_control c)) (lit s) = true → plain (lit s).
Proof. rewrite forallb_Forall. intros H. apply (Forall_impl _ _ _ H). intros c. cbn. by destruct (is_control c). Qed.
Lemma plain_printable c s : 32 ≤ c < 127 → plain s → plain (c :: s).
Proof. intros Hc Hs. constructor; [|done]. unfold is_control. zdecide. done. Qed.
Lemma plain_replicate n c : is_control c = false → plain (replicate n c).
Proof. intros Hc. by apply Forall_replicate. Qed.
Lemma plain_pad n c s : is_control c = false → plain s → plain (pad_left n c s).
Proof. intros Hc Hs. by apply plain_app; [apply plain_replicate|]. Qed.

Lemma plain_dec n : plain (dec_of n).
Proof.
  assert (∀ fuel n acc, plain acc → plain (dec_digits fuel n acc)) as H; [|by apply H; constructor].
  induction fuel as [|fuel IH]; intros m acc Hacc; [done|]. cbn -[Z.modulo Z.div].
  assert (plain ((48 + m mod 10) :: acc)) by (apply plain_printable; [pose proof (Z.mod_pos_bound m 10); lia|done]).
  destruct (m / 10 =? 0); [done|by apply IH].
Qed.
Lemma plain_hex n : plain (hex_of n).
Proof.
  assert (∀ fuel n acc, plain acc → plain (hex_digits fuel n acc)) as H; [|by apply H; constructor].
  induction fuel as [|fuel IH]; intros m acc Hacc; [done|]. cbn -[Z.modulo Z.div].
  assert (plain (hex_digit (m mod 16) :: acc)).
  { apply plain_printable; [|done]. unfold hex_digit. pose proof (Z.mod_pos_bound m 16). destruct (Z.ltb_spec (m mod 16) 10); lia. }
  destruct (m <? 16); [done|by apply IH].
Qed.
Lemma plain_oct n : plain (oct_of n).
Proof.
  assert (∀ fuel n acc, plain acc → plain (oct_digits fuel n acc)) as H; [|by apply H; constructor].
  induction fuel as [|fuel IH]; intros m acc Hacc; [done|]. cbn -[Z.modulo Z.div].
  assert (plain ((48 + m mod 8) :: acc)) by (apply plain_printable; [pose proof (Z.mod_pos_bound m 8); lia|done]).
  destruct (m <? 8); [done|by apply IH].
Qed.

Lemma plain_nil : plain [].
Proof. constructor. Qed.

Create HintDb plain.
#[export] Hint Resolve plain_app plain_dec plain_hex plain_oct plain_pad plain_replicate plain_nil : plain.
#[export] Hint Extern 1 (plain (lit _)) => (apply plain_lit; reflexivity) : plain.
#[export] Hint Extern 1 (is_control _ = false) => reflexivity : plain.

Lemma plain_safe value : plain (tui_safe value).
Proof.
  unfold tui_safe. induction value as [|c value IH]; [by constructor|]. cbn [fmap list_fmap concat]. apply plain_app; [|done].
  unfold tui_safe_char. repeat case_match; auto 6 with plain. by constructor.
Qed.
#[export] Hint Resolve plain_safe : plain.

Lemma plain_endpoint host port : plain (tui_endpoint host port).
Proof. unfold tui_endpoint. cbv zeta. case_match; auto 8 with plain. Qed.
Lemma plain_optional value : plain (format_optional value).
Proof. destruct value; cbn [format_optional]; auto with plain. Qed.
Lemma plain_permissions mode : plain (format_permissions mode).
Proof. destruct mode; cbn [format_permissions]; auto with plain. Qed.
Lemma plain_type t : plain (file_type_name t).
Proof. destruct t; cbn [file_type_name]; auto with plain. Qed.
Lemma plain_owner name id : plain (owner_text name id).
Proof. destruct name, id; cbn [owner_text]; auto with plain. Qed.
#[export] Hint Resolve plain_endpoint plain_optional plain_permissions plain_type plain_owner : plain.

Lemma plain_connection config host_key : plain (host_line config host_key).
Proof.
  unfold host_line. cbv zeta. apply plain_app; [auto with plain|]. apply plain_app; [auto with plain|]. apply plain_app; [auto with plain|].
  apply plain_app; [auto with plain|]. apply plain_app; [repeat case_match; auto with plain|]. apply plain_app; [auto with plain|].
  destruct host_key as [[a f []]|]; cbn [verification_name ki_algorithm ki_fingerprint ki_verification]; auto 10 with plain.
Qed.
Lemma plain_entry entry : plain (entry_line entry).
Proof.
  unfold entry_line. apply plain_app; [auto with plain|]. apply plain_app; [by destruct rm_file_type; repeat constructor|]. auto 12 with plain.
Qed.
Lemma plain_selected name m : plain (selected_line name m).
Proof. unfold selected_line. repeat first [apply plain_owner|apply plain_app]; auto with plain. Qed.

Lemma display_cons c s : display_cells (c :: s) = char_cells c + display_cells s.
Proof. done. Qed.
Lemma display_app s t : display_cells (s ++ t) = display_cells s + display_cells t.
Proof. induction s as [|c s IH]; [done|]. rewrite <- app_comm_cons, !display_cons, IH. lia. Qed.
Lemma char_cells_pos c : 1 ≤ char_cells c ≤ 2.
Proof. unfold char_cells. case_match; lia. Qed.
Lemma within_cells_fits budget used value : used ≤ budget → used + display_cells (within_cells budget used value) ≤ budget.
Proof.
  revert used. induction value as [|c value IH]; intros used Hu; cbn [within_cells]; [cbn; lia|].
  destruct (Z.ltb_spec budget (used + char_cells c)); [cbn; lia|]. rewrite display_cons. specialize (IH (used + char_cells c)). lia.
Qed.
Lemma within_cells_prefix budget used value : ∃ rest, value = within_cells budget used value ++ rest.
Proof.
  revert used. induction value as [|c value IH]; intros used; cbn -[char_cells]; [by exists []|].
  destruct (budget <? used + char_cells c); [by eexists|]. destruct (IH (used + char_cells c)) as [rest Hr]. exists rest. cbn. by rewrite <- Hr.
Qed.
Lemma display_replicate n c : c < 128 → display_cells (replicate n c) = Z.of_nat n.
Proof.
  intros Hc. induction n as [|n IH]; [done|]. cbn [replicate]. rewrite display_cons, IH. unfold char_cells. rewrite (proj2 (Z.ltb_lt c 128)) by done. lia.
Qed.

(** A truncated text fits, and is the text itself when that does. *)
Lemma truncate_fits value max : 0 ≤ max → display_cells (truncate_cells value max) ≤ max.
Proof.
  intros Hmax. unfold truncate_cells. destruct (Z.eqb_spec max 0); [cbn; lia|]. destruct (Z.leb_spec (display_cells value) max); [done|].
  destruct (Z.leb_spec max 3); [rewrite display_replicate by done; lia|]. rewrite display_app. change (display_cells (lit "...")) with 3.
  pose proof (within_cells_fits (max - 3) 0 value). lia.
Qed.
Lemma plain_truncate value max : plain value → plain (truncate_cells value max).
Proof.
  intros Hv. unfold truncate_cells. destruct (max =? 0); [apply plain_nil|]. destruct (_ <=? max); [done|].
  destruct (max <=? 3); [auto with plain|]. apply plain_app; [|auto with plain]. destruct (within_cells_prefix (max - 3) 0 value) as [rest Hr]. rewrite Hr in Hv. by apply Forall_app in Hv as [? _].
Qed.

(** *** Rows *)
Lemma shown_app row reversed a b :
  ∃ row' reversed', shown row reversed (a ++ b) = shown row reversed a ++ shown row' reversed' b.
Proof.
  revert row reversed. induction a as [|op a IH]; intros row reversed; [by exists row, reversed|].
  destruct op; cbn [shown app]; try apply IH. destruct (IH row reversed) as (r & v & ->). by exists r, v.
Qed.

(** A list of entries as its rows, from a row and an index on. *)
Definition row_of {A} (line : A → str) (width : Z) (selected start : nat) (k : nat) (entry : A) : Z * bool * str :=
  (4 + Z.of_nat k, bool_decide (start + k = selected)%nat, truncate_cells (line entry) width).

Lemma shown_body {A} (line : A → str) width selected height : ∀ row index entries rest r,
  ∃ r', shown r false (body_rows line width selected row index entries height ++ rest) =
    imap (λ k entry, (4 + Z.of_nat (row + k), bool_decide (index + k = selected)%nat, truncate_cells (line entry) width)) (take height entries) ++
    shown r' false rest.
Proof.
  induction height as [|height IH]; intros row index entries rest r; [by exists r|]. destruct entries as [|entry entries]; [by exists r|].
  cbn [body_rows take imap]. destruct (IH (S row) (S index) entries rest (4 + Z.of_nat row)) as [r' Hr]. exists r'.
  rewrite !Nat.add_0_r.
  assert (imap ((λ k entry, (4 + Z.of_nat (row + k), bool_decide (index + k = selected)%nat, truncate_cells (line entry) width)) ∘ S) (take height entries) =
    imap (λ k entry, (4 + Z.of_nat (S row + k), bool_decide (S index + k = selected)%nat, truncate_cells (line entry) width)) (take height entries)) as ->.
  { apply imap_ext. intros k entry' _. cbn [compose]. f_equal. f_equal; [lia|]. apply bool_decide_ext. lia. }
  destruct (bool_decide (index = selected)) eqn:Hs; cbn [app shown]; rewrite <- ?app_assoc; cbn [app shown]; by rewrite Hr.
Qed.

Lemma window_shows selected height n :
  (0 < height)%nat → (selected < n)%nat → (window_start selected height ≤ selected < window_start selected height + height)%nat.
Proof. intros Hh Hn. unfold window_start. case_bool_decide; [lia|]. case_bool_decide; cbn [orb]; lia. Qed.

Lemma frame_lines columns rows config host_key s :
  40 ≤ columns → 8 ≤ rows →
  let cut text := truncate_cells text columns in
  let height := Z.to_nat (rows - 7) in
  let start := window_start (bs_selected s) height in
  shown 0 false (frame columns rows config host_key s) =
    [(0, false, cut (lit "Kaduox-SSH TUI | remote workspace")); (1, false, cut (host_line config host_key));
     (2, false, cut (lit "path: " ++ tui_safe (bs_path s))); (3, false, replicate (Z.to_nat columns) (ch "-"))] ++
    imap (row_of entry_line columns (bs_selected s) start) (take height (drop start (bs_entries s))) ++
    [(rows - 3, false, cut (match selected_entry s with Some entry => selected_line (re_name entry) (re_metadata entry) | None => lit "selected: -" end));
     (rows - 2, false, cut (lit "status: " ++ tui_safe (bs_status s))); (rows - 1, false, cut KEYS)].
Proof.
  intros Hc Hr. cbv zeta. unfold frame. rewrite (proj2 (Z.ltb_ge columns 40)), (proj2 (Z.ltb_ge rows 8)) by done. cbn [orb]. cbv zeta.
  rewrite <- !app_comm_cons. cbn [shown app]. do 4 f_equal.
  match goal with |- context [body_rows ?l ?w ?sel ?row ?index ?es ?h ++ ?rest] => destruct (shown_body l w sel h row index es rest 3) as [r' ->] end.
  f_equal.
Qed.

Lemma filter_imap_one {A B} (P : B → Prop) `{∀ x, Decision (P x)} (l : list A) : ∀ (f : nat → A → B) i y,
  (∀ k x, P (f k x) ↔ k = i) → l !! i = Some y → filter P (imap f l) = [f i y].
Proof.
  induction l as [|x l IH]; intros f i y HP Hi; [done|]. cbn [imap]. rewrite filter_cons. destruct i as [|i].
  - cbn in Hi. injection Hi as ->. rewrite decide_True by (by apply HP). f_equal.
    assert (∀ (l : list A) (g : nat → A → B), (∀ k x, ¬ P (g k x)) → filter P (imap g l) = []) as Hnone.
    { clear. induction l as [|x l IH]; intros g Hg; [done|]. cbn [imap]. rewrite filter_cons, decide_False by done. apply IH. intros k z. apply Hg. }
    apply Hnone. intros k z. cbn [compose]. rewrite HP. lia.
  - rewrite decide_False by (rewrite HP; lia). rewrite (IH (f ∘ S) i y); [done| |done]. intros k z. cbn [compose]. rewrite HP. lia.
Qed.

Lemma rows_sorted {A} (line : A → str) width selected start entries : StronglySorted Z.lt (imap (row_of line width selected start) entries).*1.*1.
Proof.
  induction entries as [|entry entries IH] using rev_ind; [constructor|]. rewrite imap_app, !fmap_app. apply StronglySorted_app_2; [|done|repeat constructor].
  cbn. intros x1 x2 H1 ->%list_elem_of_singleton. apply list_elem_of_fmap in H1 as ([a b] & -> & H1). apply list_elem_of_fmap in H1 as ([[a' b'] t] & [= -> ->] & H1).
  apply elem_of_lookup_imap_1 in H1 as (k & e & Heq & Hk). injection Heq as -> _ _. apply lookup_lt_Some in Hk. cbn. lia.
Qed.

(** A frame of a header, a window of rows and a footer below it. *)
Definition line_ok (columns rows : Z) (l : Z * bool * str) : Prop := 0 ≤ l.1.1 < rows ∧ display_cells l.2 ≤ columns ∧ plain l.2.
Lemma framed_fits {A} (line : A → str) columns rows header footer selected start height entries :
  0 ≤ columns → 4 + Z.of_nat height ≤ rows → (∀ entry, plain (line entry)) →
  header.*1.*1 = [0; 1; 2; 3] → StronglySorted Z.lt footer.*1.*1 → Forall (λ l, 4 + Z.of_nat height ≤ l.1.1) footer →
  Forall (line_ok columns rows) (header ++ footer) → Forall (λ l, l.1.2 = false) (header ++ footer) →
  let lines := header ++ imap (row_of line columns selected start) (take height (drop start entries)) ++ footer in
  Forall (line_ok columns rows) lines ∧ StronglySorted Z.lt lines.*1.*1 ∧
  (∀ entry, (start ≤ selected < start + height)%nat → entries !! selected = Some entry →
     ∃ row, filter (λ l, l.1.2 = true) lines = [(row, true, truncate_cells (line entry) columns)]).
Proof.
  intros Hc Hr Hline Hhead Hfoot Hbelow Hok Hrev. cbv zeta. apply Forall_app in Hok as [Hokh Hokf], Hrev as [Hrevh Hrevf].
  assert (∀ l, l ∈ imap (row_of line columns selected start) (take height (drop start entries)) →
    ∃ k entry, l = row_of line columns selected start k entry ∧ (k < height)%nat) as Hrows.
  { intros l (k & entry & -> & Hk)%elem_of_lookup_imap_1. exists k, entry. split; [done|]. apply lookup_lt_Some in Hk. rewrite length_take in Hk. lia. }
  assert (∀ x, x ∈ (imap (row_of line columns selected start) (take height (drop start entries))).*1.*1 → 4 ≤ x < 4 + Z.of_nat height) as Hbody.
  { intros x ([a b] & -> & H1)%list_elem_of_fmap. apply list_elem_of_fmap in H1 as (l & Hl & H1). destruct (Hrows l H1) as (k & entry & -> & Hk).
    cbn in Hl. injection Hl as -> _. cbn. lia. }
  assert (∀ x, x ∈ footer.*1.*1 → 4 + Z.of_nat height ≤ x) as Hfooter.
  { intros x ([a b] & -> & H1)%list_elem_of_fmap. apply list_elem_of_fmap in H1 as (l & Hl & H1). rewrite Forall_forall in Hbelow. specialize (Hbelow l H1). by rewrite <- Hl in Hbelow. }
  split_and!.
  - apply Forall_app; split; [done|]. apply Forall_app; split; [|done]. apply Forall_forall. intros l (k & entry & -> & Hk)%Hrows. split; [cbn; lia|].
    split; [by apply truncate_fits|by apply plain_truncate].
  - rewrite !fmap_app. apply StronglySorted_app_2; [|rewrite Hhead; by repeat constructor|apply StronglySorted_app_2; [|apply rows_sorted|done]].
    + intros x1 x2 H1 [H2%Hbody|H2%Hfooter]%elem_of_app; rewrite Hhead in H1; set_unfold; lia.
    + intros x1 x2 H1%Hbody H2%Hfooter. lia.
  - intros entry Hw Hentry. rewrite !filter_app.
    assert (∀ ls : list (Z * bool * str), Forall (λ l, l.1.2 = false) ls → filter (λ l, l.1.2 = true) ls = []) as Hnone.
    { induction 1 as [|l ls Hl _ IH]; [done|]. rewrite filter_cons, decide_False; [exact IH|by rewrite Hl]. }
    rewrite (Hnone header), (Hnone footer) by done. rewrite app_nil_r. cbn [app]. eexists.
    erewrite (filter_imap_one _ _ _ (selected - start) entry).
    + unfold row_of. by rewrite bool_decide_eq_true_2 by lia.
    + intros k x. cbn. rewrite bool_decide_eq_true. lia.
    + rewrite lookup_take_lt by lia. rewrite lookup_drop. rewrite <- Hentry. f_equal. lia.
Qed.

(** ** Theorems *)

(** C31: whatever the server names its files, whoever owns them and whatever a status quotes, a frame
    of the remote browser fits its terminal: its rows are below one another, every line is at most as
    wide as the terminal, and no line holds a control character; and when an entry is selected, its
    line, and only that, is shown reversed, however long the listing is. *)
Theorem browser_frame_fits columns rows config host_key s :
  40 ≤ columns ≤ u16_max → 8 ≤ rows ≤ u16_max →
  let lines := shown 0 false (frame columns rows config host_key s) in
  Forall (line_ok columns rows) lines ∧
  StronglySorted Z.lt (lines.*1.*1) ∧
  (∀ entry, selected_entry s = Some entry → ∃ row, filter (λ l, l.1.2 = true) lines = [(row, true, truncate_cells (entry_line entry) columns)]).
Proof.
  intros Hc Hr. cbv zeta. rewrite frame_lines by lia. set (height := Z.to_nat (rows - 7)). set (start := window_start (bs_selected s) height).
  assert (∀ row text, 0 ≤ row < rows → plain text → line_ok columns rows (row, false, truncate_cells text columns)) as Hcut.
  { intros row text Hrow Ht. split; [done|]. split; [apply truncate_fits; lia|by apply plain_truncate]. }
  edestruct (framed_fits entry_line columns rows) as (H1 & H2 & H3); cycle -1; [split_and!; [exact H1|exact H2|]|..]; try done; try lia.
  - intros entry Hentry. apply H3; [|exact Hentry]. apply (window_shows _ _ (length (bs_entries s))); [lia|]. by apply lookup_lt_Some in Hentry.
  - apply plain_entry.
  - repeat constructor; cbn; lia.
  - repeat (constructor; [cbn; lia|]). constructor.
  - apply Forall_app; split; repeat (apply Forall_cons; split); try done.
    + apply Hcut; [lia|auto with plain].
    + apply Hcut; [lia|apply plain_connection].
    + apply Hcut; [lia|auto with plain].
    + split; [cbn; lia|]. change (display_cells (replicate (Z.to_nat columns) (ch "-")) ≤ columns ∧ plain (replicate (Z.to_nat columns) (ch "-"))).
      rewrite display_replicate by done. split; [lia|auto with plain].
    + apply Hcut; [lia|]. destruct (selected_entry s); [apply plain_selected|auto with plain].
    + apply Hcut; [lia|auto with plain].
    + apply Hcut; [lia|]. unfold KEYS. apply plain_app; [auto with plain|]. apply plain_app; [by repeat constructor|auto with plain].
  - apply Forall_app; split; by repeat constructor.
Qed.

Module Examples.
Definition listing (names : list str) : list RemoteDirEntry :=
  (λ name, mk_dir_entry name (lit "/srv/" ++ name) (mk_remote_metadata RFile (Some 5) None None None None (Some 33188) None None)) <$> names.
Definition browsing : BrowserState := mk_browser (lit "/srv") (listing [lit "a"; [27] ++ lit "[2J"; lit "c"]) 1 (lit "ready").
Definition host : ConnectionConfig := config_new (lit "web.example") (lit "root").

Lemma browser_frame_fits_witness :
  selected_entry browsing = nth_error (bs_entries browsing) 1 ∧
  Forall (line_ok 80 24) (shown 0 false (frame 80 24 host None browsing)).
Proof. split; [reflexivity|]. apply (browser_frame_fits 80 24 host None browsing); unfold u16_max; lia. Defined.

Example escaped_line :
  nth_error (shown 0 false (frame 80 24 host None browsing)) 5 = Some (5, true, lit " - 0644            5 \x1b[2J").
Proof. vm_compute. reflexivity. Qed.
End Examples.
