(* ===== verification/Browser.v ===== *)
(** * The remote browser ([crates/kaduox-ssh-cli/src/tui_app.rs], [tui_actions.rs],
      [tui_task_panel.rs], [tui_transfer_control.rs])

    The event loop of the terminal interface and every action of a key, as programs over
    the terminal, the connection and the transfers.  Theorems: whatever is typed, drawn
    or answered, a file is removed, moved or transferred only as it was asked for and
    confirmed; the terminal is read by one reader at a time and left as it was found. *)

From stdpp Require Import base list gmap strings numbers sorting.
From Stdlib Require Import Lia.
From S2P Require Import Prelude RustStr StrFacts OpenSshInclude RemotePath LocalPath Targets Config HostTrust Sftp RemoteFs RemoteMutation RemoteCommand TransferOps TaskRegistry Program Authenticate Exec TransferTree Privileged Screen.

(** ** Definitions *)

(** *** Keys *)
Inductive KeyCode := KUp | KDown | KHome | KEnd | KPageUp | KPageDown | KEnter | KLeft | KRight | KBackspace | KDelete | KEsc | KChar (c : char) | KOther.
Inductive KeyKind := KPress | KRepeat | KRelease.
Record KeyEvent := mk_key { key_code : KeyCode; key_control : bool; key_kind : KeyKind }.
#[export] Instance key_code_eq_dec : EqDecision KeyCode.
Proof. solve_decision. Defined.
#[export] Instance key_kind_eq_dec : EqDecision KeyKind.
Proof. solve_decision. Defined.

Definition should_quit (k : KeyEvent) : bool :=
  bool_decide (key_code k = KEsc) || bool_decide (key_code k = KChar (ch "q")) || (bool_decide (key_code k = KChar (ch "c")) && key_control k).
Definition is_transfer_cancel_key (k : KeyEvent) : bool :=
  negb (bool_decide (key_kind k = KRelease)) && (bool_decide (key_code k = KEsc) || (bool_decide (key_code k = KChar (ch "c")) && key_control k)).

(** *** Names *)
Definition reserved_punctuation : str := lit "/\:*?" ++ [dquote] ++ lit "<>|".
Definition safe_local_char (c : char) : char := if is_control c || existsb (Z.eqb c) reserved_punctuation then ch "_" else c.

(** One trailing space or dot is replaced, after which none is left. *)
Definition replace_last (s : str) : str :=
  match reverse s with c :: rest => if (c =? 32) || (c =? ch ".") then reverse rest ++ [ch "_"] else s | [] => s end.
Definition device_names : list str :=
  lit <$> ["CON"; "PRN"; "AUX"; "NUL"; "COM1"; "COM2"; "COM3"; "COM4"; "COM5"; "COM6"; "COM7"; "COM8"; "COM9";
           "LPT1"; "LPT2"; "LPT3"; "LPT4"; "LPT5"; "LPT6"; "LPT7"; "LPT8"; "LPT9"]%string.
Definition safe_local_filename (remote_name : str) : str :=
  let output := replace_last (safe_local_char <$> remote_name) in
  let output := if bool_decide (output = []) || bool_decide (output = lit ".") || bool_decide (output = lit "..") then lit "download.bin" else output in
  let stem := to_ascii_uppercase (trim (default [] (head (split (ch ".") output)))) in
  if bool_decide (stem ∈ device_names) then ch "_" :: output else output.

Definition validate_local_leaf (name : str) : result unit :=
  bail_if (bool_decide (name = []) || negb (bool_decide (safe_local_filename name = name))) "local download name must be a portable leaf name".

Definition validate_remote_leaf (name : str) : result unit :=
  bail_if (bool_decide (name = []) || bool_decide (name = lit ".") || bool_decide (name = lit "..")) "remote upload name must be a non-empty leaf name" ≫= λ _,
  bail_if (contains_char name slash || contains_char name 0) "remote upload name cannot contain '/' or NUL" ≫= λ _,
  bail_if (existsb is_control name) "remote upload name cannot contain terminal/control characters".

(** *** Requests *)
Inductive LocalPickKind := PickFile | PickDirectory.
Inductive TaskPanelAction := PanelReturn | PanelRetry (id : Z) | PanelCleared (count : Z).
Inductive tui_transfer :=
| RetryTask (id : Z)
| DownloadFileTo (remote local : str) | DownloadDirectoryTo (remote local : str)
| UploadFileTo (local remote : str) | UploadDirectoryTo (local remote : str).
Inductive transfer_next := TransferProgressed (event : option TransferEvent) | TransferEnded (r : result TransferSummary).

Inductive tui_request :=
| TEnableRaw | TDisableRaw | TEnterAlt | TLeaveAlt
| TActive | TSetActive (active : bool)                (* the session's own field *)
| TSize | TDraw (ops : list draw) | TEvent
| TReadLine (prompt : str)                            (* the prompt is written, a line read *)
| TWrite (text : str)
| TCurrentDir | TPick (start : str) (kind : LocalPickKind)
| TGetPickerCancelled | TSwapPickerCancelled (value : bool)
| TShell (user : RemoteUser)
| TRecent (limit : nat) | TClearFinished | TTaskKind (id : Z)
| THostKey
| TList (path : str) | TStat (path : str) | TMkdir (path : str) | TRename (source destination : str) | TRemove (path : str)
| TPlan (path : str) (max_entries : Z) | TRemoveTree (plan : RemoteDeletePlan) (max_entries : Z)
| TLocalMeta (path : str) | TReadDir (path : str)
| TListen | TCancelled | TStopListening
| TTransfer (t : tui_transfer) | TNext (progress_open : bool) | TAwait.
Definition tui_answer (q : tui_request) : Type :=
  match q with
  | TEnableRaw | TDisableRaw | TEnterAlt | TLeaveAlt | TDraw _ | TMkdir _ | TStopListening | TWrite _ => result unit
  | TActive | TGetPickerCancelled | TSwapPickerCancelled _ | TCancelled => bool
  | TSetActive _ | TListen | TTransfer _ => unit
  | TSize => result (Z * Z)
  | TEvent => result (option KeyEvent)
  | TReadLine _ | TCurrentDir => result str
  | TPick _ _ => result (option str)
  | TShell _ => result (option Z)
  | TRecent _ => result (list TransferTaskSnapshot)
  | TClearFinished => result Z
  | TTaskKind _ => result (option TransferTaskKind)
  | THostKey => option ServerHostKeyInfo
  | TList _ => result (list RemoteDirEntry)
  | TStat _ => result RemoteFileStat
  | TRename _ _ | TRemove _ => result RemoteFileType
  | TPlan _ _ => result RemoteDeletePlan
  | TRemoveTree _ _ => result RemoteDeleteSummary
  | TLocalMeta _ => result LocalMeta
  | TReadDir _ => result (list (result str))
  | TNext _ => transfer_next
  | TAwait => result Z
  end.
Definition tui_interface : interface := Interface tui_request tui_answer.
Abbreviation tui A := (prog tui_interface A).
Definition tu (q : tui_interface) : tui (answer q) := ask q.

(** *** The terminal session *)
Definition session_enter : tui unit :=
  (awaited (tu TEnableRaw) ;;
   r ⇐ tu TEnterAlt;
   match r with
   | Ok _ => tu (TSetActive true) ;; p_ret tt
   | Err _ => tu TDisableRaw ;; p_err "failed to enter alternate terminal screen"
   end)%prog.
Definition session_suspend : tui unit :=
  (active ⇐ tu TActive;
   if negb active then p_ret tt
   else awaited (tu TLeaveAlt) ;; awaited (tu TDisableRaw) ;; tu (TSetActive false) ;; p_ret tt)%prog.
Definition session_resume : tui unit :=
  (active ⇐ tu TActive;
   if (active : bool) then p_ret tt
   else
     awaited (tu TEnableRaw) ;;
     r ⇐ tu TEnterAlt;
     match r with
     | Ok _ => tu (TSetActive true) ;; p_ret tt
     | Err _ => tu TDisableRaw ;; p_err "failed to resume TUI alternate screen"
     end)%prog.
Definition session_drop : tui unit :=
  (active ⇐ tu TActive;
   if (active : bool) then tu TLeaveAlt ;; tu TDisableRaw ;; p_ret tt else p_ret tt)%prog.

(** What a suspended session is used for: the session is resumed whatever came of it. *)
Definition suspended {A} (p : tui A) : tui A :=
  (session_suspend ;;
   r ⇐ p_try p;
   resumed ⇐ p_try session_resume;
   value ⇐ Done r;
   Done resumed ;;
   p_ret value)%prog.

Section browser.
Context (config : ConnectionConfig) (host_key : option ServerHostKeyInfo) (fuel : nat).

Definition render_browser (s : BrowserState) : tui unit :=
  (size ⇐ awaited (tu TSize);
   awaited (tu (TDraw (frame size.1 size.2 config host_key s))))%prog.

(** *** Prompts *)
Definition LOCAL_FILE_UPLOAD_PROMPT : str := lit "local file to upload (empty cancels): ".
Definition LOCAL_DIRECTORY_UPLOAD_PROMPT : str := lit "local directory to upload recursively (empty cancels): ".
Definition RECURSIVE_DOWNLOAD_PREFIX : str := lit "recursively download ".
Definition RECURSIVE_DOWNLOAD_DESTINATION_MARKER : str := lit " to local directory [".
Definition RECURSIVE_DOWNLOAD_DESTINATION_SUFFIX : str := lit "]: ".
Definition RECURSIVE_DOWNLOAD_CONFIRM_PREFIX : str := lit "recursive download to ".
Definition RECURSIVE_DOWNLOAD_CONFIRM_SUFFIX : str := lit " uses bounded concurrency and skips symlinks; type YES to continue: ".

(** [str::rsplit_once] of a string *)
Fixpoint rsplit_once_str (pattern s : str) : option (str * str) :=
  match match s with [] => None | c :: s => (λ ab, (c :: ab.1, ab.2)) <$> rsplit_once_str pattern s end with
  | Some ab => Some ab
  | None => (λ rest, ([], rest)) <$> strip_prefix pattern s
  end.

Definition recursive_download_default_name (prompt : str) : option str :=
  remainder ← strip_prefix RECURSIVE_DOWNLOAD_PREFIX prompt;
  '(_, default_name) ← rsplit_once_str RECURSIVE_DOWNLOAD_DESTINATION_MARKER remainder;
  strip_suffix RECURSIVE_DOWNLOAD_DESTINATION_SUFFIX default_name.
Definition is_recursive_download_confirmation_prompt (prompt : str) : bool :=
  starts_with prompt RECURSIVE_DOWNLOAD_CONFIRM_PREFIX && ends_with prompt RECURSIVE_DOWNLOAD_CONFIRM_SUFFIX.
Definition local_picker_kind (prompt : str) : option LocalPickKind :=
  if bool_decide (prompt = LOCAL_FILE_UPLOAD_PROMPT) then Some PickFile
  else if bool_decide (prompt = LOCAL_DIRECTORY_UPLOAD_PROMPT) then Some PickDirectory else None.

Definition typed_text (line : str) : str := reverse (drop_while (λ c, (c =? LF) || (c =? CR)) (reverse line)).
Definition read_prompt_line (prompt : str) : tui str := (line ⇐ awaited (tu (TReadLine prompt)); p_ret (typed_text line))%prog.

Fixpoint prompt_local_download_leaf (fuel : nat) (default_name : str) : tui (option str) :=
  match fuel with
  | O => p_err "out of fuel"
  | S fuel =>
      (input ⇐ read_prompt_line (lit "local download directory name [" ++ default_name ++ lit "] (empty uses default; CANCEL cancels): ");
       let input := trim input in
       if bool_decide (input = lit "CANCEL") then p_ret None
       else
         let candidate := if bool_decide (input = []) then default_name else input in
         match validate_local_leaf candidate with
         | Ok _ => p_ret (Some candidate)
         | Err error => awaited (tu (TWrite (lit "invalid local download directory name: " ++ lit error))) ;; prompt_local_download_leaf fuel default_name
         end)%prog
  end.

Definition path_to_tracked_string (path : str) (e : string) : result str := if is_valid_utf8 path then Ok path else Err e.

Definition pick_download_destination (default_name : str) : tui str :=
  (start ⇐ awaited (tu TCurrentDir);
   parent ⇐ awaited (tu (TPick start PickDirectory));
   match parent with
   | None => tu (TSwapPickerCancelled true) ;; p_ret []
   | Some parent =>
       name ⇐ prompt_local_download_leaf fuel default_name;
       match name with
       | None => tu (TSwapPickerCancelled true) ;; p_ret []
       | Some name => tu (TSwapPickerCancelled false) ;; Done (path_to_tracked_string (path_join parent name) "selected local recursive-download destination is not valid UTF-8")
       end
   end)%prog.

Definition prompt_line (prompt : str) : tui str :=
  (cancelled ⇐ (if is_recursive_download_confirmation_prompt prompt then tu (TSwapPickerCancelled false) else p_ret false);
   if (cancelled : bool) then p_ret []
   else
     match recursive_download_default_name prompt with
     | Some default_name => pick_download_destination default_name
     | None =>
         match local_picker_kind prompt with
         | Some kind =>
             start ⇐ awaited (tu TCurrentDir);
             path ⇐ awaited (tu (TPick start kind));
             match path with
            | None => p_ret []
            | Some path => Done (path_to_tracked_string path "selected local upload path is not valid UTF-8")
            end
         | None => read_prompt_line prompt
         end
     end)%prog.

Definition prompt_with_terminal (prompt : str) : tui str := suspended (prompt_line prompt).

(** *** Listings *)
Definition loaded (entries : list RemoteDirEntry) : str := lit "loaded " ++ dec_of (zlen entries) ++ lit " entries".
Definition set_entries (entries : list RemoteDirEntry) (s : BrowserState) : BrowserState := mk_browser (bs_path s) entries (bs_selected s) (bs_status s).

Definition reload (s : BrowserState) : tui BrowserState :=
  (r ⇐ tu (TList (bs_path s));
   p_ret (match r with
          | Ok entries => set_status (loaded entries) (clamp_selection (set_entries entries s))
          | Err error => set_status (lit "list failed: " ++ lit error) s
          end))%prog.

Definition position (name : str) (entries : list RemoteDirEntry) : option nat := fst <$> list_find (λ e, re_name e = name) entries.
Definition reload_preserving_name (name : str) (s : BrowserState) : tui BrowserState :=
  (r ⇐ tu (TList (bs_path s));
   p_ret (match r with
          | Ok entries =>
              mk_browser (bs_path s) entries (default (Nat.min (bs_selected s) (length entries - 1)) (position name entries)) (loaded entries)
          | Err error => set_status (lit "refresh after transfer failed: " ++ lit error) s
          end))%prog.

Definition change_path (path : str) (s : BrowserState) : tui BrowserState :=
  (r ⇐ tu (TList path);
   p_ret (match r with
          | Ok entries => mk_browser path entries 0 (loaded entries)
          | Err error => set_status (lit "open directory failed: " ++ lit error) s
          end))%prog.

Definition stat_text (stat : RemoteFileStat) : str :=
  let m := rf_metadata stat in
  file_type_name (rm_file_type m) ++ lit " mode=" ++ format_permissions (rm_permissions m) ++ lit " size=" ++ format_optional (rm_size m) ++
  lit " uid=" ++ format_optional (rm_uid m) ++ lit " gid=" ++ format_optional (rm_gid m) ++
  match rf_symlink_target stat with Some target => lit " -> " ++ target | None => [] end.
Definition inspect_path (path : str) (s : BrowserState) : tui BrowserState :=
  (r ⇐ tu (TStat path);
   p_ret (set_status (match r with Ok stat => stat_text stat | Err error => lit "stat failed: " ++ lit error end) s))%prog.

Definition empty_directory (s : BrowserState) : tui BrowserState := p_ret (set_status (lit "directory is empty") s).
Definition activate_selected (s : BrowserState) : tui BrowserState :=
  match selected_entry s with
  | None => empty_directory s
  | Some entry =>
      if bool_decide (rm_file_type (re_metadata entry) = RDirectory) then change_path (re_path entry) s else inspect_path (re_path entry) s
  end.
Definition inspect_selected (s : BrowserState) : tui BrowserState :=
  match selected_entry s with None => empty_directory s | Some entry => inspect_path (re_path entry) s end.

Definition browser_parent (path : str) : str :=
  if bool_decide (path = lit "/") || bool_decide (path = lit ".") || bool_decide (path = []) then path
  else
    let trimmed := reverse (drop_while (Z.eqb slash) (reverse path)) in
    if bool_decide (trimmed = []) then lit "/"
    else match rsplit_once slash trimmed with
         | Some ([], _) => lit "/"
         | Some (parent, _) => parent
         | None => lit "."
         end.
Definition go_parent (s : BrowserState) : tui BrowserState :=
  let parent := browser_parent (bs_path s) in
  if bool_decide (parent = bs_path s) then p_ret (set_status (lit "already at remote root") s) else change_path parent s.

(** *** Changing the remote side *)
Definition jump_to_path (s : BrowserState) : tui BrowserState :=
  (input ⇐ prompt_with_terminal (lit "remote directory path [" ++ tui_safe (bs_path s) ++ lit "] (empty cancels): ");
   let path := trim input in
   if bool_decide (path = []) then p_ret (set_status (lit "remote path jump cancelled") s) else change_path path s)%prog.

Definition create_directory_in_current (s : BrowserState) : tui BrowserState :=
  (name ⇐ prompt_with_terminal (lit "new remote directory name (empty cancels): ");
   if bool_decide (name = []) then p_ret (set_status (lit "remote mkdir cancelled") s)
   else match validate_remote_leaf name with
        | Err error => p_ret (set_status (lit "invalid remote directory name: " ++ lit error) s)
        | Ok _ =>
            let path := join_remote_child (bs_path s) name in
            r ⇐ tu (TMkdir path);
            match r with
            | Ok _ => s ⇐ reload_preserving_name name s; p_ret (set_status (lit "created remote directory " ++ path) s)
            | Err error => p_ret (set_status (lit "remote mkdir failed: " ++ lit error) s)
            end
        end)%prog.

Definition rename_prompt (entry : RemoteDirEntry) : str := lit "rename " ++ tui_safe (re_name entry) ++ lit " to new leaf name (empty cancels): ".
Definition rename_selected (s : BrowserState) : tui BrowserState :=
  match selected_entry s with
  | None => empty_directory s
  | Some entry =>
      (name ⇐ prompt_with_terminal (rename_prompt entry);
       if bool_decide (name = []) then p_ret (set_status (lit "remote rename cancelled") s)
       else if bool_decide (name = re_name entry) then p_ret (set_status (lit "remote rename cancelled: name is unchanged") s)
       else match validate_remote_leaf name with
            | Err error => p_ret (set_status (lit "invalid remote rename target: " ++ lit error) s)
            | Ok _ =>
                let destination := join_remote_child (bs_path s) name in
                r ⇐ tu (TRename (re_path entry) destination);
                match r with
                | Ok file_type =>
                    s ⇐ reload_preserving_name name s;
                    p_ret (set_status (lit "renamed remote " ++ file_type_name file_type ++ lit " " ++ re_path entry ++ lit " -> " ++ destination) s)
                | Err error => p_ret (set_status (lit "remote rename failed: " ++ lit error) s)
                end
            end)%prog
  end.

Definition is_delete_confirmed (value : str) : bool := bool_decide (trim value = lit "DELETE").
Definition is_tree_delete_confirmed (value : str) : bool := bool_decide (trim value = lit "DELETE TREE").
Definition is_confirmed (value : str) : bool := bool_decide (trim value = lit "YES").

Definition removal_detail (t : RemoteFileType) : str :=
  match t with
  | RDirectory => lit "empty directory only; use X for a planned recursive delete"
  | RSymlink => lit "the symlink itself, not its target"
  | RFile | ROther => lit "one regular file"
  end.
Definition removal_prompt (entry : RemoteDirEntry) : str :=
  lit "delete " ++ tui_safe (re_path entry) ++ lit " (" ++ removal_detail (rm_file_type (re_metadata entry)) ++ lit "); type DELETE to continue: ".
Definition remove_selected (s : BrowserState) : tui BrowserState :=
  match selected_entry s with
  | None => empty_directory s
  | Some entry =>
      if bool_decide (rm_file_type (re_metadata entry) = ROther) then p_ret (set_status (lit "refusing to remove unsupported remote file type") s)
      else
        (confirmation ⇐ prompt_with_terminal (removal_prompt entry);
         if negb (is_delete_confirmed confirmation) then p_ret (set_status (lit "remote delete cancelled") s)
         else
           r ⇐ tu (TRemove (re_path entry));
           match r with
           | Ok file_type =>
               s ⇐ reload s;
               p_ret (set_status (lit "removed remote " ++ file_type_name file_type ++ lit " " ++ re_path entry) s)
           | Err error => p_ret (set_status (lit "remote delete failed: " ++ lit error) s)
           end)%prog
  end.

Definition DEFAULT_REMOTE_DELETE_MAX_ENTRIES : Z := 10000.
Definition tree_removal_prompt (plan : RemoteDeletePlan) : str :=
  lit "recursive delete " ++ tui_safe (dp_root plan) ++ lit ": " ++ dec_of (dp_files plan) ++ lit " files, " ++ dec_of (dp_directories plan) ++
  lit " directories, " ++ dec_of (dp_symlinks plan) ++ lit " symlinks, " ++ dec_of (total_entries plan) ++
  lit " total entries. The tree is re-scanned before the first write; deletion is non-transactional after mutation starts and cannot be user-cancelled. Type DELETE TREE to continue: ".
Definition remove_selected_tree (s : BrowserState) : tui BrowserState :=
  match selected_entry s with
  | None => empty_directory s
  | Some entry =>
      if negb (bool_decide (rm_file_type (re_metadata entry) = RDirectory)) then
        p_ret (set_status (lit "recursive remote deletion requires a selected directory") s)
      else
        (let s := set_status (lit "planning recursive deletion for " ++ re_path entry ++ lit " ...") s in
         render_browser s ;;
         plan ⇐ tu (TPlan (re_path entry) DEFAULT_REMOTE_DELETE_MAX_ENTRIES);
         match plan with
         | Err error => p_ret (set_status (lit "recursive delete planning failed: " ++ lit error) s)
         | Ok plan =>
             confirmation ⇐ prompt_with_terminal (tree_removal_prompt plan);
             if negb (is_tree_delete_confirmed confirmation) then p_ret (set_status (lit "recursive remote delete cancelled before mutation") s)
             else
               let s := set_status (lit "revalidating and recursively deleting " ++ dp_root plan ++ lit " (" ++ dec_of (total_entries plan) ++ lit " entries) ...") s in
               render_browser s ;;
               r ⇐ tu (TRemoveTree plan DEFAULT_REMOTE_DELETE_MAX_ENTRIES);
               match r with
               | Ok summary =>
                   s ⇐ reload s;
                   p_ret (set_status (lit "recursive delete complete: " ++ dec_of (ds_files summary) ++ lit " files, " ++ dec_of (ds_directories summary) ++
                            lit " directories, " ++ dec_of (ds_symlinks summary) ++ lit " symlinks removed from " ++ dp_root plan) s)
               | Err error =>
                   p_ret (set_status (lit "recursive delete failed: " ++ lit error ++ lit "; if mutation had already started, re-list before retrying") s)
               end
         end)%prog
  end.

Definition run_shell_action (user : RemoteUser) (s : BrowserState) : tui BrowserState :=
  (status ⇐ suspended (awaited (tu (TShell user)));
   p_ret (set_status (match status with
     | Some 0 => lit "interactive shell exited successfully"
     | Some code => lit "interactive shell exited with status " ++ dec_of code
     | None => lit "interactive shell closed without an SSH exit status"
     end) s))%prog.
Definition sudo_shell (s : BrowserState) : tui BrowserState :=
  (user ⇐ prompt_with_terminal (lit "sudo shell user (empty cancels): ");
   if bool_decide (user = []) then p_ret (set_status (lit "sudo shell cancelled") s) else run_shell_action (Sudo user) s)%prog.

(** *** Transfers *)
Definition outcome_status {A} (r : result A) (cancelled : bool) (stopped : result unit) (late finished : A → str) (cut : str) (failed : str → str) : str :=
  match stopped, r, cancelled with
  | Err error, _, _ => lit "transfer input listener failed: " ++ lit error
  | Ok _, Ok a, true => late a
  | Ok _, Ok a, false => finished a
  | Ok _, Err _, true => cut
  | Ok _, Err error, false => failed (lit error)
  end.
Definition transfer_done {A} (r : result A) (stopped : result unit) : bool := match stopped, r with Ok _, Ok _ => true | _, _ => false end.

Definition format_transfer_event (action : str) (event : TransferEvent) : str :=
  let progress := match ev_total event with
    | Some total => if negb (total =? 0) then dec_of (ev_bytes event) ++ lit "/" ++ dec_of total ++ lit " bytes" else lit "0/0 bytes"
    | None => dec_of (ev_bytes event) ++ lit " bytes"
    end in
  action ++ lit ": " ++ ev_path event ++ lit " | " ++ progress ++ (if ev_completed event then lit " complete" else []).

(** The transfer beside its progress. *)
Fixpoint watch_transfer (fuel : nat) (label : TransferEvent → str) (progress_open : bool) (s : BrowserState) : tui (result TransferSummary * BrowserState) :=
  match fuel with
  | O => p_err "out of fuel"
  | S fuel =>
      (next ⇐ tu (TNext progress_open);
       match next with
       | TransferEnded r => p_ret (r, s)
       | TransferProgressed (Some event) =>
           let s := set_status (label event ++ lit " | Esc/Ctrl-C cancels transfer") s in
           render_browser s ;; watch_transfer fuel label progress_open s
       | TransferProgressed None => watch_transfer fuel label false s
       end)%prog
  end.

(** A transfer and its listener: what came of it, whether it was cancelled, and how the listener stopped. *)
Definition summarized (t : tui_transfer) (starting : str) (label : TransferEvent → str) (s : BrowserState) :
    tui (result TransferSummary * bool * result unit * BrowserState) :=
  (tu TListen ;;
   let s := set_status starting s in
   render_browser s ;;
   tu (TTransfer t) ;;
   ended ⇐ watch_transfer fuel label true s;
   cancelled ⇐ tu TCancelled;
   stopped ⇐ tu TStopListening;
   p_ret (ended.1, cancelled, stopped, ended.2))%prog.
Definition counted_transfer (starting : str) (transfer : tui Z) (s : BrowserState) : tui (result Z * bool * result unit * BrowserState) :=
  (tu TListen ;;
   let s := set_status starting s in
   render_browser s ;;
   r ⇐ p_try transfer;
   cancelled ⇐ tu TCancelled;
   stopped ⇐ tu TStopListening;
   p_ret (r, cancelled, stopped, s))%prog.

Definition summary_text (skipped : string) (m : TransferSummary) : str :=
  dec_of (sum_files m) ++ lit " files, " ++ dec_of (sum_directories m) ++ lit " directories, " ++ dec_of (sum_bytes m) ++ lit " bytes, " ++
  dec_of (sum_skipped m) ++ lit skipped.

Definition download_regular_file_with_options (remote local : str) : tui Z := (tu (TTransfer (DownloadFileTo remote local)) ;; awaited (tu TAwait))%prog.
Definition upload_regular_file_with_options (local remote : str) : tui Z :=
  (metadata ⇐ awaited (tu (TLocalMeta local));
   if local_is KSymlink metadata then p_err "TUI upload source is a symbolic link; explicit symlink upload is not supported"
   else if negb (local_is KRegular metadata) then p_err "TUI upload source must be a regular file"
   else tu (TTransfer (UploadFileTo local remote)) ;; awaited (tu TAwait))%prog.

Definition download_prompt (entry : RemoteDirEntry) : str :=
  lit "download " ++ tui_safe (re_path entry) ++ lit " to local path [" ++ tui_safe (safe_local_filename (re_name entry)) ++ lit "]: ".
Definition download_selected (s : BrowserState) : tui BrowserState :=
  match selected_entry s with
  | None => empty_directory s
  | Some entry =>
      if negb (bool_decide (rm_file_type (re_metadata entry) = RFile)) then
        p_ret (set_status (lit "TUI download currently accepts regular files only; use D for directories") s)
      else
        (input ⇐ prompt_with_terminal (download_prompt entry);
         let local := if bool_decide (input = []) then safe_local_filename (re_name entry) else input in
         ended ⇐ counted_transfer (lit "downloading " ++ re_path entry ++ lit " ... Esc/Ctrl-C cancels transfer")
                   (download_regular_file_with_options (re_path entry) local) s;
         let '(r, cancelled, stopped, s) := ended in
         p_ret (set_status (outcome_status r cancelled stopped
           (λ bytes, lit "download completed before cancellation took effect: " ++ dec_of bytes ++ lit " bytes to " ++ local)
           (λ bytes, lit "downloaded " ++ dec_of bytes ++ lit " bytes to " ++ local)
           (lit "download cancelled; partial staging may remain at " ++ local ++ lit "; press t to resume")
           (λ error, lit "download failed: " ++ error ++ lit "; press t to inspect/retry task")) s))%prog
  end.

Definition directory_download_prompt (entry : RemoteDirEntry) : str :=
  RECURSIVE_DOWNLOAD_PREFIX ++ tui_safe (re_path entry) ++ RECURSIVE_DOWNLOAD_DESTINATION_MARKER ++
  tui_safe (safe_local_filename (re_name entry)) ++ RECURSIVE_DOWNLOAD_DESTINATION_SUFFIX.
Definition download_confirmation (local : str) : str := RECURSIVE_DOWNLOAD_CONFIRM_PREFIX ++ tui_safe local ++ RECURSIVE_DOWNLOAD_CONFIRM_SUFFIX.
Definition download_selected_directory (s : BrowserState) : tui BrowserState :=
  match selected_entry s with
  | None => empty_directory s
  | Some entry =>
      if negb (bool_decide (rm_file_type (re_metadata entry) = RDirectory)) then
        p_ret (set_status (lit "recursive download requires a selected remote directory") s)
      else
        (input ⇐ prompt_with_terminal (directory_download_prompt entry);
         let local := if bool_decide (trim input = []) then safe_local_filename (re_name entry) else trim input in
         confirmation ⇐ prompt_with_terminal (download_confirmation local);
         if negb (is_confirmed confirmation) then p_ret (set_status (lit "recursive download cancelled") s)
         else
           ended ⇐ summarized (DownloadDirectoryTo (re_path entry) local)
                     (lit "recursively downloading " ++ re_path entry ++ lit " ... Esc/Ctrl-C cancels transfer")
                     (format_transfer_event (lit "download")) s;
           let '(r, cancelled, stopped, s) := ended in
           p_ret (set_status (outcome_status r cancelled stopped
             (λ m, lit "recursive download completed before cancellation took effect: " ++ summary_text " skipped -> " m ++ local)
             (λ m, lit "recursive download complete: " ++ summary_text " symlinks/entries skipped -> " m ++ local)
             (lit "recursive download cancelled; completed files and atomic staging may remain under " ++ local ++ lit "; press t to resume")
             (λ error, lit "recursive download failed: " ++ error ++ lit "; press t to inspect/retry task")) s))%prog
  end.

Definition remote_name_prompt (default_name : str) : str := lit "remote file name [" ++ tui_safe default_name ++ lit "]: ".
Definition upload_to_current (s : BrowserState) : tui BrowserState :=
  (picked ⇐ suspended
     (local ⇐ prompt_line LOCAL_FILE_UPLOAD_PROMPT;
      match (if bool_decide (local = []) then None else path_file_name local) with
      | Some default_name =>
          remote_result ⇐ p_try (prompt_line (remote_name_prompt default_name));
          p_ret (local, Some (default_name, remote_result))
      | None => p_ret (local, None)
      end);
   let '(local, named) := picked in
   if bool_decide (local = []) then p_ret (set_status (lit "upload cancelled") s)
   else match named with
        | None => p_ret (set_status (lit "local upload filename must be valid UTF-8") s)
        | Some (default_name, remote_result) =>
            remote_input ⇐ Done remote_result;
            let remote_name := if bool_decide (remote_input = []) then default_name else remote_input in
            match validate_remote_leaf remote_name with
            | Err error => p_ret (set_status (lit "invalid remote upload name: " ++ lit error) s)
            | Ok _ =>
                let remote_path := join_remote_child (bs_path s) remote_name in
                ended ⇐ counted_transfer (lit "uploading " ++ local ++ lit " -> " ++ remote_path ++ lit " ... Esc/Ctrl-C cancels transfer")
                          (upload_regular_file_with_options local remote_path) s;
                let '(r, cancelled, stopped, s) := ended in
                let s := set_status (outcome_status r cancelled stopped
                  (λ bytes, lit "upload completed before cancellation took effect: " ++ dec_of bytes ++ lit " bytes to " ++ remote_path)
                  (λ bytes, lit "uploaded " ++ dec_of bytes ++ lit " bytes to " ++ remote_path)
                  (lit "upload cancelled; remote atomic staging may remain for " ++ remote_path ++ lit "; press t to resume")
                  (λ error, lit "upload failed: " ++ error ++ lit "; press t to inspect/retry task")) s in
                if transfer_done r stopped then reload_preserving_name remote_name s else p_ret s
            end
        end)%prog.

Definition upload_confirmation (local remote_path : str) : str :=
  lit "recursively upload " ++ tui_safe local ++ lit " -> " ++ tui_safe remote_path ++
  lit " using bounded concurrency; symlinks are skipped and atomic file policy remains enabled; type YES to continue: ".
Definition remote_directory_prompt (default_name : str) : str := lit "remote directory name [" ++ tui_safe default_name ++ lit "]: ".
Definition upload_directory_to_current (s : BrowserState) : tui BrowserState :=
  (input ⇐ prompt_with_terminal LOCAL_DIRECTORY_UPLOAD_PROMPT;
   let local := trim input in
   if bool_decide (local = []) then p_ret (set_status (lit "recursive upload cancelled") s)
   else
     metadata ⇐ tu (TLocalMeta local);
     match metadata with
     | Err error => p_ret (set_status (lit "failed to stat local directory " ++ local ++ lit ": " ++ lit error) s)
     | Ok metadata =>
         if local_is KSymlink metadata || negb (local_is KDirectory metadata) then
           p_ret (set_status (lit "recursive upload source must be a real local directory, not a symlink") s)
         else match path_file_name local with
              | None => p_ret (set_status (lit "local upload directory name must be valid UTF-8") s)
              | Some default_name =>
                  remote_input ⇐ prompt_with_terminal (remote_directory_prompt default_name);
                  let remote_name := if bool_decide (trim remote_input = []) then default_name else trim remote_input in
                  match validate_remote_leaf remote_name with
                  | Err error => p_ret (set_status (lit "invalid remote directory name: " ++ lit error) s)
                  | Ok _ =>
                      let remote_path := join_remote_child (bs_path s) remote_name in
                      confirmation ⇐ prompt_with_terminal (upload_confirmation local remote_path);
                      if negb (is_confirmed confirmation) then p_ret (set_status (lit "recursive upload cancelled") s)
                      else
                        ended ⇐ summarized (UploadDirectoryTo local remote_path)
                                  (lit "recursively uploading " ++ local ++ lit " -> " ++ remote_path ++ lit " ... Esc/Ctrl-C cancels transfer")
                                  (format_transfer_event (lit "upload")) s;
                        let '(r, cancelled, stopped, s) := ended in
                        let s := set_status (outcome_status r cancelled stopped
                          (λ m, lit "recursive upload completed before cancellation took effect: " ++ summary_text " skipped -> " m ++ remote_path)
                          (λ m, lit "recursive upload complete: " ++ summary_text " symlinks/entries skipped -> " m ++ remote_path)
                          (lit "recursive upload cancelled; completed files/directories and atomic staging may remain under " ++ remote_path ++ lit "; press t to resume")
                          (λ error, lit "recursive upload failed: " ++ error ++ lit "; press t to inspect/retry task")) s in
                        if transfer_done r stopped then reload_preserving_name remote_name s else p_ret s
                  end
              end
     end)%prog.

(** *** The task panel *)
Definition DISPLAY_TASK_LIMIT : nat := 20.
Definition pad_right (width : nat) (s : str) : str := s ++ replicate (width - length s) 32.
Definition state_name (state : TransferTaskState) : str :=
  match state with
  | Queued => lit "queued" | Running => lit "running" | Completed => lit "completed" | Cancelled => lit "cancelled" | Failed => lit "failed"
  end.
(** [{:?}] *)
Definition state_debug (state : TransferTaskState) : str :=
  match state with
  | Queued => lit "Queued" | Running => lit "Running" | Completed => lit "Completed" | Cancelled => lit "Cancelled" | Failed => lit "Failed"
  end.
Definition kind_name (kind : TransferTaskKind) : str :=
  match kind with
  | UploadFile => lit "upload-file" | UploadDirectory => lit "upload-dir" | DownloadFile => lit "download-file" | DownloadDirectory => lit "download-dir"
  end.
Definition format_task (task : TransferTaskSnapshot) : str :=
  lit "#" ++ pad_right 4 (dec_of (ts_id task)) ++ lit " " ++ pad_right 9 (state_name (ts_state task)) ++ lit " " ++
  pad_right 13 (kind_name (ts_kind task)) ++ lit " " ++ tui_safe (ts_source task) ++ lit " -> " ++ tui_safe (ts_destination task) ++
  match ts_progress task with
  | Some p => lit " " ++ dec_of (pr_bytes p) ++ match pr_total p with Some total => lit "/" ++ dec_of total ++ lit "B" | None => lit "B" end
  | None => []
  end ++
  match ts_retry_of task with Some id => lit " retry-of=" ++ dec_of id | None => [] end ++
  match ts_error task with Some error => lit " error=" ++ tui_safe error | None => [] end.

Definition panel_text (tasks : list TransferTaskSnapshot) : str :=
  [LF] ++ lit "Kaduox-SSH transfer tasks (newest first)" ++ [LF] ++ lit "----------------------------------------" ++ [LF] ++
  (if bool_decide (tasks = []) then lit "No retained transfer tasks for this SSH session." ++ [LF]
   else concat ((λ task, format_task task ++ [LF]) <$> tasks)) ++ [LF] ++
  lit "Enter a failed/cancelled task ID to resume, 'clear' to remove finished history, or Enter to return." ++ [LF].
Definition resume_prompt (id : Z) : str :=
  lit "Resume task " ++ dec_of id ++ lit " with existing staging/part checkpoint when available; type RESUME to continue: ".
Definition can_resume (task : TransferTaskSnapshot) : bool :=
  match ts_state task with Cancelled | Failed => true | _ => false end.

Definition choose_action : tui TaskPanelAction :=
  (tasks ⇐ awaited (tu (TRecent DISPLAY_TASK_LIMIT));
   awaited (tu (TWrite (panel_text tasks))) ;;
   input ⇐ awaited (tu (TReadLine (lit "tasks> ")));
   let input := trim input in
   if bool_decide (input = []) then p_ret PanelReturn
   else if eq_ignore_ascii_case input (lit "clear") then count ⇐ awaited (tu TClearFinished); p_ret (PanelCleared count)
   else match parse_uint u64_max input with
        | None => awaited (tu (TWrite (lit "Invalid task ID." ++ [LF]))) ;; p_ret PanelReturn
        | Some raw_id =>
            match snd <$> list_find (λ task, ts_id task = raw_id) tasks with
            | None => awaited (tu (TWrite (lit "Task " ++ dec_of raw_id ++ lit " is not in the retained recent-task view." ++ [LF]))) ;; p_ret PanelReturn
            | Some task =>
                if negb (can_resume task) then
                  awaited (tu (TWrite (lit "Task " ++ dec_of raw_id ++ lit " is " ++ state_debug (ts_state task) ++ lit "; only failed or cancelled tasks can be resumed." ++ [LF]))) ;; p_ret PanelReturn
                else
                  confirmation ⇐ awaited (tu (TReadLine (resume_prompt raw_id)));
                  p_ret (if bool_decide (trim confirmation = lit "RESUME") then PanelRetry (ts_id task) else PanelReturn)
            end
        end)%prog.

Definition retry_transfer_task (id : Z) (s : BrowserState) : tui BrowserState :=
  (previous ⇐ awaited (tu (TTaskKind id));
   match previous with
   | None => p_ret (set_status (lit "transfer task " ++ dec_of id ++ lit " is no longer retained") s)
   | Some kind =>
       ended ⇐ summarized (RetryTask id)
                 (lit "resuming transfer task " ++ dec_of id ++ lit " with checkpoint policy ... Esc/Ctrl-C cancels transfer")
                 (λ event, lit "task " ++ dec_of id ++ lit " resume | " ++ format_transfer_event (lit "transfer") event) s;
       let '(r, cancelled, stopped, s) := ended in
       s ⇐ (if transfer_done r stopped && match kind with UploadFile | UploadDirectory => true | _ => false end then reload s else p_ret s);
       p_ret (set_status (outcome_status r cancelled stopped
         (λ m, lit "task " ++ dec_of id ++ lit " resume completed before cancellation took effect: " ++ summary_text " skipped" m)
         (λ m, lit "task " ++ dec_of id ++ lit " resumed successfully: " ++ summary_text " skipped" m)
         (lit "task " ++ dec_of id ++ lit " resume cancelled; completed files or staging/part checkpoints may remain")
         (λ error, lit "task " ++ dec_of id ++ lit " resume failed: " ++ error)) s)
   end)%prog.

Definition open_transfer_tasks (s : BrowserState) : tui BrowserState :=
  (action ⇐ suspended choose_action;
   match action with
   | PanelReturn => p_ret (set_status (lit "transfer task panel closed") s)
   | PanelCleared count => p_ret (set_status (lit "cleared " ++ dec_of count ++ lit " finished transfer task records") s)
   | PanelRetry id => retry_transfer_task id s
   end)%prog.

(** *** The event loop *)
Definition press (k : KeyEvent) (s : BrowserState) : tui BrowserState :=
  match key_code k with
  | KUp => p_ret (move_up s)
  | KDown => p_ret (move_down s)
  | KHome => p_ret (select_first s)
  | KEnd => p_ret (select_last s)
  | KPageUp => p_ret (page_up 10 s)
  | KPageDown => p_ret (page_down 10 s)
  | KEnter | KRight => activate_selected s
  | KBackspace | KLeft => go_parent s
  | KDelete => remove_selected s
  | KChar c =>
      if c =? ch "k" then p_ret (move_up s)
      else if c =? ch "j" then p_ret (move_down s)
      else if c =? ch "r" then reload s
      else if c =? ch "i" then inspect_selected s
      else if c =? ch "p" then jump_to_path s
      else if c =? ch "m" then create_directory_in_current s
      else if c =? ch "R" then rename_selected s
      else if c =? ch "x" then remove_selected s
      else if c =? ch "X" then remove_selected_tree s
      else if c =? ch "t" then open_transfer_tasks s
      else if c =? ch "s" then run_shell_action Current s
      else if c =? ch "S" then sudo_shell s
      else if c =? ch "d" then download_selected s
      else if c =? ch "D" then download_selected_directory s
      else if c =? ch "u" then upload_to_current s
      else if c =? ch "U" then upload_directory_to_current s
      else p_ret s
  | KEsc | KOther => p_ret s
  end.

Fixpoint browse (rounds : nat) (s : BrowserState) : tui unit :=
  match rounds with
  | O => p_err "out of fuel"
  | S rounds =>
      (render_browser s ;;
       event ⇐ awaited (tu TEvent);
       match event with
       | Some key =>
           if bool_decide (key_kind key = KRelease) then browse rounds s
           else if should_quit key then p_ret tt
           else s ⇐ press key s; browse rounds s
       | None => browse rounds s
       end)%prog
  end.
End browser.

(** [tui_app::run]; the session is dropped on every way out. *)
Definition browser_run (config : ConnectionConfig) (fuel rounds : nat) (initial_path : str) : tui unit :=
  (session_enter ;;
   r ⇐ p_try (host_key ⇐ tu THostKey;
              s ⇐ reload (browser_new initial_path);
              browse config host_key fuel rounds s);
   session_drop ;;
   Done r)%prog.
