(* ===== verification/BrowserSafety.v ===== *)
(** * What the remote browser may do

    The discipline of the browser's requests, and that every action keeps to it. *)

From stdpp Require Import base list gmap strings numbers sorting.
From Stdlib Require Import Lia.
From S2P Require Import Prelude RustStr StrFacts OpenSshInclude RemotePath LocalPath Targets Config HostTrust Sftp RemoteFs RemoteMutation RemoteCommand TransferOps TaskRegistry Program Authenticate Exec TransferTree Privileged Screen Browser.

(** ** What is watched *)
Record Term := mk_term { tw_active : bool; tw_raw : bool; tw_alt : bool; tw_trouble : bool }.
Record Seen := mk_seen {
  se_path : str; se_entries : list RemoteDirEntry;      (* the directory that was listed last *)
  se_line : option (str * str);                         (* the last prompt, and what was typed *)
  se_picked : option (LocalPickKind * str);
  se_local : option (str * LocalMeta);
  se_plan : option (str * RemoteDeletePlan);
  se_tasks : list TransferTaskSnapshot;
  se_size : Z * Z;
}.
Record TuiWatch := mk_tui_watch { tu_term : Term; tu_listening : bool; tu_undrawn : bool; tu_seen : Seen }.

Definition seen_list path entries k := mk_seen path entries (se_line k) (se_picked k) (se_local k) (se_plan k) (se_tasks k) (se_size k).
Definition seen_line prompt line k := mk_seen (se_path k) (se_entries k) (Some (prompt, line)) (se_picked k) (se_local k) (se_plan k) (se_tasks k) (se_size k).
Definition seen_pick kind path k := mk_seen (se_path k) (se_entries k) (se_line k) (Some (kind, path)) (se_local k) (se_plan k) (se_tasks k) (se_size k).
Definition seen_local path m k := mk_seen (se_path k) (se_entries k) (se_line k) (se_picked k) (Some (path, m)) (se_plan k) (se_tasks k) (se_size k).
Definition seen_plan path plan k := mk_seen (se_path k) (se_entries k) (se_line k) (se_picked k) (se_local k) (Some (path, plan)) (se_tasks k) (se_size k).
Definition seen_tasks tasks k := mk_seen (se_path k) (se_entries k) (se_line k) (se_picked k) (se_local k) (se_plan k) tasks (se_size k).
Definition seen_size size k := mk_seen (se_path k) (se_entries k) (se_line k) (se_picked k) (se_local k) (se_plan k) (se_tasks k) size.

Definition with_term t g := mk_tui_watch t (tu_listening g) (tu_undrawn g) (tu_seen g).
Definition with_seen (f : Seen → Seen) g := mk_tui_watch (tu_term g) (tu_listening g) (tu_undrawn g) (f (tu_seen g)).
Definition with_listening b g := mk_tui_watch (tu_term g) b (tu_undrawn g) (tu_seen g).
Definition with_undrawn g := mk_tui_watch (tu_term g) (tu_listening g) true (tu_seen g).
Definition trouble t := mk_term (tw_active t) (tw_raw t) (tw_alt t) true.

Definition is_leaf (name : str) : Prop := validate_remote_leaf name = Ok tt.
Definition child_of (dir path : str) : Prop := ∃ name, is_leaf name ∧ path = join_remote_child dir name.
Definition real (kind : FileKind) (m : LocalMeta) : Prop := lm_kind m = kind.

Section discipline.
Context (config : ConnectionConfig).

(** The transfers that were asked for. *)
Definition transfer_asked (t : tui_transfer) (k : Seen) : Prop :=
  match t with
  | RetryTask id => ∃ task line, task ∈ se_tasks k ∧ ts_id task = id ∧ can_resume task = true ∧
      se_line k = Some (resume_prompt id, line) ∧ trim line = lit "RESUME"
  | DownloadFileTo remote local => ∃ entry line, entry ∈ se_entries k ∧ remote = re_path entry ∧ rm_file_type (re_metadata entry) = RFile ∧
      se_line k = Some (download_prompt entry, line) ∧ (typed_text line = [] ∧ local = safe_local_filename (re_name entry) ∨ local = typed_text line)
  | DownloadDirectoryTo remote local => ∃ entry line, entry ∈ se_entries k ∧ remote = re_path entry ∧ rm_file_type (re_metadata entry) = RDirectory ∧
      se_line k = Some (download_confirmation local, line) ∧ is_confirmed (typed_text line) = true
  | UploadFileTo local remote => ∃ m, se_picked k = Some (PickFile, local) ∧ se_local k = Some (local, m) ∧ real KRegular m ∧ child_of (se_path k) remote
  | UploadDirectoryTo local remote => ∃ m line, se_local k = Some (local, m) ∧ real KDirectory m ∧ child_of (se_path k) remote ∧
      se_line k = Some (upload_confirmation local remote, line) ∧ is_confirmed (typed_text line) = true
  end.

Definition put_aside (g : TuiWatch) : Prop := tw_raw (tu_term g) = false ∧ tw_alt (tu_term g) = false ∧ tu_listening g = false.
Definition on_screen (g : TuiWatch) : Prop := tw_raw (tu_term g) = true ∧ tw_alt (tu_term g) = true.

Definition tui_allowed (q : tui_request) (g : TuiWatch) : Prop :=
  let k := tu_seen g in
  match q with
  | TDraw ops => on_screen g ∧ ∃ host_key s, ops = frame (se_size k).1 (se_size k).2 config host_key s ∧ selection_ok s ∧
      bs_path s = se_path k ∧ bs_entries s = se_entries k
  | TEvent => on_screen g ∧ tu_listening g = false
  | TReadLine prompt => put_aside g ∧ plain prompt
  | TPick _ _ => put_aside g
  | TShell user => put_aside g ∧
      match user with
      | Sudo user => user ≠ [] ∧ ∃ line, se_line k = Some (lit "sudo shell user (empty cancels): ", line) ∧ user = typed_text line
      | Current => True
      end
  | TMkdir path => ∃ line, se_line k = Some (lit "new remote directory name (empty cancels): ", line) ∧ is_leaf (typed_text line) ∧
      path = join_remote_child (se_path k) (typed_text line)
  | TRename source destination => ∃ entry line, entry ∈ se_entries k ∧ source = re_path entry ∧ se_line k = Some (rename_prompt entry, line) ∧
      is_leaf (typed_text line) ∧ typed_text line ≠ re_name entry ∧ destination = join_remote_child (se_path k) (typed_text line)
  | TRemove path => ∃ entry line, entry ∈ se_entries k ∧ path = re_path entry ∧ rm_file_type (re_metadata entry) ≠ ROther ∧
      se_line k = Some (removal_prompt entry, line) ∧ is_delete_confirmed (typed_text line) = true
  | TPlan path max_entries => max_entries = DEFAULT_REMOTE_DELETE_MAX_ENTRIES ∧
      ∃ entry, entry ∈ se_entries k ∧ path = re_path entry ∧ rm_file_type (re_metadata entry) = RDirectory
  | TRemoveTree plan max_entries => max_entries = DEFAULT_REMOTE_DELETE_MAX_ENTRIES ∧
      ∃ entry line, entry ∈ se_entries k ∧ rm_file_type (re_metadata entry) = RDirectory ∧ se_plan k = Some (re_path entry, plan) ∧
        se_line k = Some (tree_removal_prompt plan, line) ∧ is_tree_delete_confirmed (typed_text line) = true
  | TTransfer t => tu_listening g = true ∧ transfer_asked t k
  | TListen => tu_listening g = false
  | TStopListening => tu_listening g = true
  | _ => True
  end.

Definition tui_step (q : tui_request) : tui_answer q → TuiWatch → TuiWatch → Prop :=
  let on_ok {A} (f : A → TuiWatch → TuiWatch) (failed : TuiWatch → TuiWatch) (r : result A) g g' :=
    g' = match r with Ok a => f a g | Err _ => failed g end in
  let same g := g in
  let seen {A} (f : A → Seen → Seen) := on_ok (λ a, with_seen (f a)) same in
  let term {A} (f : Term → Term) := on_ok (λ _ : A, λ g, with_term (f (tu_term g)) g) (λ g, with_term (trouble (tu_term g)) g) in
  match q with
  | TEnableRaw => term (λ t, mk_term (tw_active t) true (tw_alt t) (tw_trouble t))
  | TDisableRaw => term (λ t, mk_term (tw_active t) false (tw_alt t) (tw_trouble t))
  | TEnterAlt => term (λ t, mk_term (tw_active t) (tw_raw t) true (tw_trouble t))
  | TLeaveAlt => term (λ t, mk_term (tw_active t) (tw_raw t) false (tw_trouble t))
  | TActive => λ r g g', r = tw_active (tu_term g) ∧ g' = g
  | TSetActive active => λ _ g g', g' = with_term (mk_term active (tw_raw (tu_term g)) (tw_alt (tu_term g)) (tw_trouble (tu_term g))) g
  | TSize => on_ok (λ size, with_seen (seen_size size)) with_undrawn
  | TDraw _ => on_ok (λ _, same) with_undrawn
  | TReadLine prompt => seen (seen_line prompt)
  | TPick _ kind => λ r g g', g' = match r with Ok (Some path) => with_seen (seen_pick kind path) g | _ => g end
  | TList path => seen (seen_list path)
  | TLocalMeta path => seen (seen_local path)
  | TPlan path _ => seen (seen_plan path)
  | TRecent _ => seen seen_tasks
  | TListen => λ _ g g', g' = with_listening true g
  | TStopListening => λ _ g g', g' = with_listening false g
  | _ => λ _ g g', g' = g
  end.
Definition tui_monitor : monitor tui_interface TuiWatch := Monitor (E := tui_interface) tui_allowed tui_step.
End discipline.

(** The session as it is between actions, and while it is put aside. *)
Definition at_rest (k : Seen) : TuiWatch := mk_tui_watch (mk_term true true true false) false false k.
Definition aside (k : Seen) : TuiWatch := mk_tui_watch (mk_term false false false false) false false k.
(** What is left to be done is done by dropping the session. *)
Definition calm (e : string) (g : TuiWatch) : Prop :=
  let t := tu_term g in
  (tw_trouble t = true ∨ (tw_raw t = tw_active t ∧ tw_alt t = tw_active t)) ∧
  (tu_listening g = true → tu_undrawn g = true ∨ e = "out of fuel"%string).
Definition same_place (k k' : Seen) : Prop := se_path k' = se_path k ∧ se_entries k' = se_entries k.
Definition follows (k : Seen) (s : BrowserState) : Prop := selection_ok s ∧ bs_path s = se_path k ∧ bs_entries s = se_entries k.
Definition went (r : result BrowserState) (g : TuiWatch) : Prop :=
  match r with Ok s => ∃ k, g = at_rest k ∧ follows k s | Err e => calm e g end.

Lemma calm_rest e k : calm e (at_rest k).
Proof. split; [by right|done]. Qed.
Lemma calm_aside e k : calm e (aside k).
Proof. split; [by right|done]. Qed.

(** What only the terminal is asked for. *)
Definition terminal_request (q : tui_request) : Prop :=
  match q with TEnableRaw | TDisableRaw | TEnterAlt | TLeaveAlt | TActive | TSetActive _ => True | _ => False end.

Lemma wp_suspended_under (allowed : tui_request → TuiWatch → Prop) {A} (p : tui A) (Q : result A → TuiWatch → Prop) k :
  let M : monitor tui_interface TuiWatch := Monitor (E := tui_interface) allowed tui_step in
  (∀ q g, terminal_request q → allowed q g) →
  wp M p (λ r g', ∃ k', g' = aside k' ∧ match r with Ok a => Q (Ok a) (at_rest k') | Err _ => True end) (aside k) →
  (∀ e g', calm e g' → Q (Err e) g') → wp M (suspended p) Q (at_rest k).
Proof.
  cbv zeta. intros Hfree Hp Hfail. unfold suspended, session_suspend, tu, awaited. cbn [p_bind ask].
  split; [by apply Hfree|]. intros active g Hg. cbn [step tui_step] in Hg. destruct Hg as [-> ->]. cbn [tw_active tu_term at_rest negb p_bind].
  split; [by apply Hfree|]. intros [[]|e] g Hg; cbn [step tui_step] in Hg; subst g; cbn [p_bind]; [|apply Hfail; split; [by left|done]].
  split; [by apply Hfree|]. intros [[]|e] g Hg; cbn [step tui_step] in Hg; subst g; cbn [p_bind]; [|apply Hfail; split; [by left|done]].
  split; [by apply Hfree|]. intros [] g Hg; cbn [step tui_step] in Hg; subst g; cbn [p_bind].
  change (wp (Monitor (E := tui_interface) allowed tui_step) (p_bind (p_try p) (λ r, p_bind (p_try session_resume) (λ resumed, p_bind (Done r) (λ value, p_bind (Done resumed) (λ _, p_ret value))))) Q (aside k)).
  rewrite wp_bind, wp_try. eapply wp_mono; [exact Hp|]. cbv beta. intros r g (k' & -> & Hr).
  unfold session_resume, tu, awaited. cbn [p_bind p_try ask].
  split; [by apply Hfree|]. intros active g Hg. cbn [step tui_step] in Hg. destruct Hg as [-> ->]. cbn [tw_active tu_term aside p_bind p_try].
  split; [by apply Hfree|]. intros [[]|e] g Hg; cbn [step tui_step] in Hg; subst g; cbn [p_bind p_try].
  2:{ destruct r as [a|e']; cbn; apply Hfail; (split; [by left|done]). }
  split; [by apply Hfree|]. intros [[]|e] g Hg; cbn [step tui_step] in Hg; subst g; cbn [p_bind p_try].
  - split; [by apply Hfree|]. intros [] g Hg; cbn [step tui_step] in Hg; subst g; cbn [p_bind p_try].
    destruct r as [a|e']; cbn; [exact Hr|]. apply Hfail, calm_rest.
  - split; [by apply Hfree|]. intros [[]|e'] g Hg; cbn [step tui_step] in Hg; subst g; cbn [p_bind p_try];
      destruct r as [a|e'']; cbn; apply Hfail; (split; [by left|done]).
Qed.

Section steps.
Context (config : ConnectionConfig).
Local Abbreviation M := (tui_monitor config).

Lemma wp_suspended {A} (p : tui A) (Q : result A → TuiWatch → Prop) k :
  wp M p (λ r g', ∃ k', g' = aside k' ∧ match r with Ok a => Q (Ok a) (at_rest k') | Err _ => True end) (aside k) →
  (∀ e g', calm e g' → Q (Err e) g') → wp M (suspended p) Q (at_rest k).
Proof. apply (wp_suspended_under (tui_allowed config)). by intros []. Qed.

(** *** Prompts *)
Definition ordinary (prompt : str) : Prop :=
  is_recursive_download_confirmation_prompt prompt = false ∧ recursive_download_default_name prompt = None ∧ local_picker_kind prompt = None.
(** What a prompt leaves behind, with the session put aside. *)
Definition prompted {A} (R : A → Seen → Prop) (r : result A) (g : TuiWatch) : Prop :=
  ∃ k, g = aside k ∧ match r with Ok a => R a k | Err _ => True end.

Lemma prompted_err {A} (R : A → Seen → Prop) e k : prompted R (Err e) (aside k).
Proof. by exists k. Qed.

Lemma wp_read_line {A} prompt (f : str → tui A) Q k :
  plain prompt → (∀ line, wp M (f (typed_text line)) Q (aside (seen_line prompt line k))) → (∀ e, Q (Err e) (aside k)) →
  wp M (p_bind (read_prompt_line prompt) f) Q (aside k).
Proof.
  intros Hp Hf Hfail. unfold read_prompt_line, tu, awaited. cbn [p_bind ask]. split; [by repeat split|].
  intros [line|e] g Hg; cbn [step tui_monitor tui_step] in Hg; subst g; cbn [p_bind]; [apply Hf|apply Hfail].
Qed.

Lemma wp_line fuel prompt k :
  ordinary prompt → plain prompt → wp M (prompt_line fuel prompt) (prompted (λ v k', ∃ line, v = typed_text line ∧ k' = seen_line prompt line k)) (aside k).
Proof.
  intros (Hc & Hd & Hk) Hp. unfold prompt_line. rewrite Hc, Hd, Hk. cbn [p_bind p_ret ask].
  change (wp M (read_prompt_line prompt) (prompted (λ v k', ∃ line, v = typed_text line ∧ k' = seen_line prompt line k)) (aside k)).
  unfold read_prompt_line, tu, awaited. cbn [p_bind ask]. split; [by repeat split|].
  intros [line|e] g Hg; cbn [step tui_monitor tui_step] in Hg; subst g; cbn [p_bind]; [|by apply prompted_err].
  eexists. split; [reflexivity|]. by exists line.
Qed.

(** The confirmation of a recursive download may be answered by a cancelled picker. *)
Lemma wp_confirmation_line fuel local k :
  wp M (prompt_line fuel (download_confirmation local))
    (prompted (λ v k', (v = [] ∧ k' = k) ∨ ∃ line, v = typed_text line ∧ k' = seen_line (download_confirmation local) line k)) (aside k).
Proof.
  unfold prompt_line. set (prompt := download_confirmation local).
  assert (recursive_download_default_name prompt = None) as -> by reflexivity. assert (local_picker_kind prompt = None) as -> by reflexivity.
  assert (wp M (read_prompt_line prompt) (prompted (λ v k', (v = [] ∧ k' = k) ∨ ∃ line, v = typed_text line ∧ k' = seen_line prompt line k)) (aside k)) as Hread.
  { unfold read_prompt_line, tu, awaited. cbn [p_bind ask]. split.
    - split; [by repeat split|]. unfold prompt, download_confirmation, RECURSIVE_DOWNLOAD_CONFIRM_PREFIX, RECURSIVE_DOWNLOAD_CONFIRM_SUFFIX. auto 8 with plain.
    - intros [line|e] g Hg; cbn [step tui_monitor tui_step] in Hg; subst g; cbn [p_bind]; [|by apply prompted_err].
      eexists. split; [reflexivity|]. right. by exists line. }
  destruct (is_recursive_download_confirmation_prompt prompt); cbn [p_bind p_ret]; [|exact Hread].
  unfold tu. cbn [p_bind ask]. split; [done|]. intros cancelled g ->. cbn [p_bind]. destruct cancelled; [|exact Hread].
  exists k. split; [done|]. by left.
Qed.

(** A picker. *)
Lemma wp_picked_line fuel prompt kind k :
  is_recursive_download_confirmation_prompt prompt = false → recursive_download_default_name prompt = None → local_picker_kind prompt = Some kind →
  wp M (prompt_line fuel prompt) (prompted (λ v k', (v = [] ∧ k' = k) ∨ k' = seen_pick kind v k)) (aside k).
Proof.
  intros Hc Hd Hk. unfold prompt_line, tu, awaited. rewrite Hc, Hd, Hk. cbn [p_bind p_ret ask].
  split; [done|]. intros [start|e] g ->; cbn [p_bind]; [|by apply prompted_err].
  split; [by repeat split|]. intros [[path|]|e] g Hg; cbn [step tui_monitor tui_step] in Hg; subst g; cbn [p_bind]; [..|by apply prompted_err].
  - unfold path_to_tracked_string. destruct (is_valid_utf8 path); cbn [wp]; [|by apply prompted_err]. eexists. split; [reflexivity|]. by right.
  - exists k. split; [done|]. by left.
Qed.

Lemma rsplit_once_str_app p s a b : rsplit_once_str p s = Some (a, b) → s = a ++ p ++ b.
Proof.
  revert a b. induction s as [|c s IH]; intros a b; cbn [rsplit_once_str].
  - destruct (strip_prefix p []) as [r|] eqn:Hs; intros [= <- <-]. by apply strip_prefix_some in Hs.
  - destruct (rsplit_once_str p s) as [[a' b']|]; cbn.
    + intros [= <- <-]. by rewrite (IH _ _ eq_refl).
    + destruct (strip_prefix p (c :: s)) as [r|] eqn:Hs; intros [= <- <-]. by apply strip_prefix_some in Hs.
Qed.
Lemma default_name_plain prompt name : plain prompt → recursive_download_default_name prompt = Some name → plain name.
Proof.
  unfold recursive_download_default_name. intros Hp. destruct (strip_prefix _ prompt) as [r|] eqn:Hr; [|done]. cbn -[strip_suffix rsplit_once_str].
  destruct (rsplit_once_str _ r) as [[a b]|] eqn:Hs; [|done]. cbn -[strip_suffix]. intros Hn.
  apply strip_prefix_some in Hr. apply rsplit_once_str_app in Hs. subst prompt r. apply Forall_app in Hp as [_ Hp]. apply Forall_app in Hp as [_ Hp].
  apply Forall_app in Hp as [_ Hp]. unfold strip_suffix in Hn. apply fmap_Some in Hn as (x & Hb & ->).
  apply strip_prefix_some in Hb. apply (f_equal reverse) in Hb. rewrite reverse_involutive, reverse_app in Hb. subst b. by apply Forall_app in Hp as [? _].
Qed.

Lemma wp_leaf_name n default_name k k0 :
  plain default_name → same_place k0 k → wp M (prompt_local_download_leaf n default_name) (prompted (λ _, same_place k0)) (aside k).
Proof.
  intros Hp. revert k. induction n as [|n IH]; intros k Hk; [by apply prompted_err|]. cbn [prompt_local_download_leaf].
  apply wp_read_line; [auto 8 with plain| |intros e; apply prompted_err].
  intros line. cbv zeta. case_bool_decide; [by eexists; split; [reflexivity|]|]. case_match.
  - by eexists; split; [reflexivity|].
  - unfold tu, awaited. cbn [p_bind ask]. split; [done|]. intros [[]|e'] g ->; cbn [p_bind]; [by apply IH|by apply prompted_err].
Qed.

(** Any prompt keeps the place. *)
Lemma wp_any_line fuel prompt k : plain prompt → wp M (prompt_line fuel prompt) (prompted (λ _, same_place k)) (aside k).
Proof.
  intros Hp. unfold prompt_line.
  assert (wp M (match recursive_download_default_name prompt with
    | Some default_name => pick_download_destination fuel default_name
    | None => match local_picker_kind prompt with
      | Some kind => p_bind (awaited (tu TCurrentDir)) (λ start, p_bind (awaited (tu (TPick start kind))) (λ path, match path with
          | None => p_ret [] | Some path => Done (path_to_tracked_string path "selected local upload path is not valid UTF-8") end))
      | None => read_prompt_line prompt
      end
    end) (prompted (λ _, same_place k)) (aside k)) as Hrest.
  { destruct (recursive_download_default_name prompt) as [name|] eqn:Hd.
    - unfold pick_download_destination, tu, awaited. cbn [p_bind ask]. split; [done|]. intros [start|e] g ->; cbn [p_bind]; [|by apply prompted_err].
      split; [by repeat split|]. intros [[parent|]|e] g Hg; cbn [step tui_monitor tui_step] in Hg; subst g; cbn [p_bind]; [..|by apply prompted_err].
      + rewrite wp_bind. eapply wp_mono; [apply (wp_leaf_name _ _ _ k); [by eapply default_name_plain|done]|]. cbv beta.
        intros [[leaf|]|e] g (k' & -> & Hk'); [..|by apply prompted_err]; cbn [p_bind ask]; (split; [done|]); intros ? g ->; cbn [p_bind].
        * unfold path_to_tracked_string. destruct (is_valid_utf8 _); cbn [wp]; [|by apply prompted_err]. by exists k'.
        * by exists k'.
      + split; [done|]. intros ? g ->. by exists k.
    - destruct (local_picker_kind prompt) as [kind|].
      + unfold tu, awaited. cbn [p_bind ask]. split; [done|]. intros [start|e] g ->; cbn [p_bind]; [|by apply prompted_err].
        split; [by repeat split|]. intros [[path|]|e] g Hg; cbn [step tui_monitor tui_step] in Hg; subst g; cbn [p_bind]; [..|by apply prompted_err].
        * unfold path_to_tracked_string. destruct (is_valid_utf8 path); cbn [wp]; [|by apply prompted_err]. by eexists.
        * by exists k.
      + unfold read_prompt_line, tu, awaited. cbn [p_bind ask]. split; [by repeat split|].
        intros [line|e] g Hg; cbn [step tui_monitor tui_step] in Hg; subst g; cbn [p_bind]; [|by apply prompted_err]. by eexists. }
  destruct (is_recursive_download_confirmation_prompt prompt); cbn [p_bind p_ret]; [|exact Hrest].
  unfold tu at 1. cbn [p_bind ask]. split; [done|]. intros cancelled g ->. cbn [p_bind]. destruct cancelled; [|exact Hrest]. by exists k.
Qed.

(** *** Steps of an action *)
Definition working (listening : bool) (k : Seen) : TuiWatch := mk_tui_watch (mk_term true true true false) listening false k.
Definition breaks {A} (Q : result A → TuiWatch → Prop) : Prop := ∀ e g, calm e g → Q (Err e) g.

Lemma follows_status status k s : follows k s → follows k (set_status status s).
Proof. done. Qed.
Lemma follows_seen k k' s : follows k s → same_place k k' → follows k' s.
Proof. intros (Hs & Hp & He) [Hp' He']. split_and!; [done|by rewrite Hp'|by rewrite He']. Qed.
Lemma follows_entry k s entry : follows k s → selected_entry s = Some entry → entry ∈ se_entries k.
Proof. intros (_ & _ & <-) He. by apply list_elem_of_lookup_2 in He. Qed.
Lemma went_rest k s : follows k s → went (Ok s) (at_rest k).
Proof. by exists k. Qed.

Lemma wp_render {A} host_key s (f : unit → tui A) Q l k :
  follows k s → breaks Q → (∀ k', same_place k k' → se_line k' = se_line k → se_picked k' = se_picked k → se_local k' = se_local k →
    se_plan k' = se_plan k → se_tasks k' = se_tasks k → wp M (f tt) Q (working l k')) →
  wp M (p_bind (render_browser config host_key s) f) Q (working l k).
Proof.
  intros (Hs & Hp & He) Hfail Hf. unfold render_browser, tu, awaited. cbn [p_bind ask].
  split; [done|]. intros [size|e] g Hg; cbn [step tui_monitor tui_step] in Hg; subst g; cbn [p_bind]; [|apply Hfail; split; [by right|by auto]].
  split; [split; [done|]; by exists host_key, s|].
  intros [[]|e] g Hg; cbn [step tui_monitor tui_step] in Hg; subst g; cbn [p_bind]; [by apply Hf|apply Hfail; split; [by right|by auto]].
Qed.

Lemma wp_prompt_with {A} fuel prompt R (f : str → tui A) Q k :
  wp M (prompt_line fuel prompt) (prompted R) (aside k) → breaks Q → (∀ v k', R v k' → wp M (f v) Q (at_rest k')) →
  wp M (p_bind (prompt_with_terminal fuel prompt) f) Q (at_rest k).
Proof.
  intros Hp Hfail Hf. rewrite wp_bind. apply wp_suspended; [|exact Hfail]. eapply wp_mono; [exact Hp|]. cbv beta.
  intros [v|e] g (k' & -> & Hv); exists k'; (split; [done|]); [by apply Hf|done].
Qed.

Lemma wp_prompt {A} fuel prompt (f : str → tui A) Q k :
  ordinary prompt → plain prompt → breaks Q → (∀ line, wp M (f (typed_text line)) Q (at_rest (seen_line prompt line k))) →
  wp M (p_bind (prompt_with_terminal fuel prompt) f) Q (at_rest k).
Proof. intros Ho Hp Hfail Hf. eapply wp_prompt_with; [by apply wp_line|done|]. intros v k' (line & -> & ->). apply Hf. Qed.

(** A listing of a directory. *)
Lemma wp_listing {A} path (h : result (list RemoteDirEntry) → BrowserState) (f : BrowserState → tui A) Q k :
  (∀ entries, follows (seen_list path entries k) (h (Ok entries))) → (∀ e, follows k (h (Err e))) →
  (∀ s k', follows k' s → wp M (f s) Q (at_rest k')) → wp M (p_bind (p_bind (tu (TList path)) (λ r, p_ret (h r))) f) Q (at_rest k).
Proof.
  intros Hok Herr Hf. unfold tu. cbn [p_bind ask]. split; [done|].
  intros [entries|e] g Hg; cbn [step tui_monitor tui_step] in Hg; subst g; cbn [p_bind p_ret]; by apply Hf.
Qed.

Lemma clamped s : selection_ok (clamp_selection s).
Proof.
  unfold selection_ok, clamp_selection. case_bool_decide; [by left|]. destruct (bs_entries s) eqn:He; [done|]. right. cbn. rewrite He. cbn. lia.
Qed.
Lemma positioned name entries selected :
  let i := default (Nat.min selected (length entries - 1)) (position name entries) in i = 0%nat ∨ (i < length entries)%nat.
Proof.
  cbv zeta. unfold position. destruct (list_find _ entries) as [[i e]|] eqn:Hf; cbn.
  - right. apply list_find_Some in Hf as (Hl & _). by apply lookup_lt_Some in Hl.
  - destruct entries; cbn; lia.
Qed.

Lemma wp_reload {A} s (f : BrowserState → tui A) Q k :
  follows k s → (∀ s' k', follows k' s' → wp M (f s') Q (at_rest k')) → wp M (p_bind (reload s) f) Q (at_rest k).
Proof.
  intros Hs Hf. unfold reload. apply wp_listing; [|done|exact Hf]. intros entries.
  split; [apply (clamped (set_entries entries s))|]. destruct Hs as (_ & Hp & _). unfold clamp_selection. by case_bool_decide.
Qed.
Lemma wp_reload_named {A} name s (f : BrowserState → tui A) Q k :
  follows k s → (∀ s' k', follows k' s' → wp M (f s') Q (at_rest k')) → wp M (p_bind (reload_preserving_name name s) f) Q (at_rest k).
Proof.
  intros Hs Hf. unfold reload_preserving_name. destruct Hs as (Hsel & Hp & He).
  apply (wp_listing (bs_path s) (λ r, match r with
    | Ok entries => mk_browser (bs_path s) entries (default (Nat.min (bs_selected s) (length entries - 1)) (position name entries)) (loaded entries)
    | Err error => set_status (lit "refresh after transfer failed: " ++ lit error) s end)); [|done|exact Hf].
  intros entries. split; [apply positioned|done].
Qed.
Lemma wp_change {A} path s (f : BrowserState → tui A) Q k :
  follows k s → (∀ s' k', follows k' s' → wp M (f s') Q (at_rest k')) → wp M (p_bind (change_path path s) f) Q (at_rest k).
Proof.
  intros Hs Hf. unfold change_path. apply (wp_listing path (λ r, match r with
    | Ok entries => mk_browser path entries 0 (loaded entries) | Err error => set_status (lit "open directory failed: " ++ lit error) s end)); [|done|exact Hf].
  intros entries. split; [by left|done].
Qed.

Lemma wp_last {A} (p : tui A) Q g : wp M (p_bind p p_ret) Q g → wp M p Q g.
Proof. rewrite wp_bind. intros H. eapply wp_mono; [exact H|]. by intros [a|e] g'. Qed.

(** *** Transfers *)
Record same_asked (k k' : Seen) : Prop := {
  sa_place : same_place k k';
  sa_line : se_line k' = se_line k; sa_picked : se_picked k' = se_picked k; sa_local : se_local k' = se_local k; sa_tasks : se_tasks k' = se_tasks k;
}.
Lemma transfer_still_asked t k k' : same_asked k k' → transfer_asked t k → transfer_asked t k'.
Proof. intros [[Hp He] Hl Hpi Hlo Ht]. destruct t; cbn; by rewrite ?Hp, ?He, ?Hl, ?Hpi, ?Hlo, ?Ht. Qed.

Lemma wp_watch host_key fuel label progress_open s k :
  follows k s → wp M (watch_transfer config host_key fuel label progress_open s)
    (λ r g', match r with Ok rs => ∃ k', g' = working true k' ∧ follows k' rs.2 | Err e => calm e g' end) (working true k).
Proof.
  revert progress_open s k. induction fuel as [|fuel IH]; intros progress_open s k Hs; [split; [by right|by right]|]. cbn [watch_transfer].
  unfold tu at 1. cbn [p_bind ask]. split; [done|]. intros next g ->. change transfer_next in next. destruct next as [[event|]|r]; cbn [p_bind].
  - apply wp_render; [done|by intros e g|]. intros k' Hk' _ _ _ _ _. apply IH. by eapply follows_seen.
  - by apply IH.
  - by exists k.
Qed.

Lemma wp_listened {A B C} host_key starting (p : BrowserState → tui B) (h : B → bool → result unit → C) (f : C → tui A) s k (R : B → Seen → Prop) Q :
  follows k s → breaks Q →
  (∀ k', same_asked k k' → wp M (p (set_status starting s)) (λ r g', match r with Ok b => ∃ k'', g' = working true k'' ∧ R b k'' | Err e => calm e g' end) (working true k')) →
  (∀ b cancelled stopped k', R b k' → wp M (f (h b cancelled stopped)) Q (at_rest k')) →
  wp M (p_bind (p_bind (tu TListen) (λ _, p_bind (render_browser config host_key (set_status starting s)) (λ _, p_bind (p (set_status starting s)) (λ b,
    p_bind (tu TCancelled) (λ cancelled, p_bind (tu TStopListening) (λ stopped, p_ret (h b cancelled stopped))))))) f) Q (at_rest k).
Proof.
  intros Hs Hfail Hp Hf. unfold tu at 1. cbn [p_bind ask]. split; [done|]. intros [] g Hg; cbn [step tui_monitor tui_step] in Hg; subst g. cbn [p_bind].
  rewrite wp_bind. change (with_listening true (at_rest k)) with (working true k).
  apply wp_render; [done|intros e g Hg; by apply Hfail|]. intros k' Hk' H1 H2 H3 _ H5. rewrite wp_bind. eapply wp_mono; [by apply Hp|]. cbv beta.
  intros [b|e] g; [|apply Hfail]. intros (k'' & -> & Hb). unfold tu. cbn [p_bind ask].
  split; [done|]. intros cancelled g ->. cbn [p_bind]. split; [done|]. intros stopped g Hg; cbn [step tui_monitor tui_step] in Hg; subst g. cbn [p_bind p_ret].
  by apply Hf.
Qed.

Lemma wp_summarized {A} host_key fuel t starting label s (f : _ → tui A) k Q :
  follows k s → transfer_asked t k → breaks Q →
  (∀ r cancelled stopped s' k', follows k' s' → wp M (f (r, cancelled, stopped, s')) Q (at_rest k')) →
  wp M (p_bind (summarized config host_key fuel t starting label s) f) Q (at_rest k).
Proof.
  intros Hs Ht Hfail Hf.
  apply (wp_listened host_key starting (λ s, p_bind (tu (TTransfer t)) (λ _, watch_transfer config host_key fuel label true s))
    (λ ended cancelled stopped, (ended.1, cancelled, stopped, ended.2)) f s k (λ ended k', follows k' ended.2) Q); [done|done| |].
  - intros k' Hk'. unfold tu at 1. cbn [p_bind ask]. split; [split; [done|by eapply transfer_still_asked]|]. intros [] g Hg; cbn [step tui_monitor tui_step] in Hg; subst g.
    apply wp_watch. eapply follows_seen; [by apply follows_status|apply Hk'].
  - intros [r s'] cancelled stopped k' Hk'. by apply Hf.
Qed.

Lemma wp_counted {A} host_key transfer starting s (f : _ → tui A) k Q :
  follows k s → breaks Q →
  (∀ k', same_asked k k' → wp M transfer (λ _ g', ∃ k'', g' = working true k'' ∧ same_place k' k'') (working true k')) →
  (∀ r cancelled stopped s' k', follows k' s' → bs_path s' = bs_path s → wp M (f (r, cancelled, stopped, s')) Q (at_rest k')) →
  wp M (p_bind (counted_transfer config host_key starting transfer s) f) Q (at_rest k).
Proof.
  intros Hs Hfail Ht Hf.
  apply (wp_listened host_key starting (λ s, p_try transfer) (λ r cancelled stopped, (r, cancelled, stopped, set_status starting s)) f s k (λ _ k', follows k' (set_status starting s)) Q);
    [done|done| |].
  - intros k' Hk'. apply wp_try. eapply wp_mono; [by apply Ht|]. cbv beta. intros r g (k'' & -> & Hk''). exists k''. split; [done|].
    eapply follows_seen; [|exact Hk'']. eapply follows_seen; [by apply follows_status|apply Hk'].
  - intros r cancelled stopped k' Hk'. by apply Hf.
Qed.

Lemma wp_download remote local k : transfer_asked (DownloadFileTo remote local) k →
  wp M (download_regular_file_with_options remote local) (λ _ g', ∃ k', g' = working true k' ∧ same_place k k') (working true k).
Proof.
  intros Ht. unfold download_regular_file_with_options, tu, awaited. cbn [p_bind ask]. split; [by split|]. intros [] g ->. cbn [p_bind].
  split; [done|]. intros [bytes|e] g ->; by exists k.
Qed.
Lemma wp_upload local remote k : se_picked k = Some (PickFile, local) → child_of (se_path k) remote →
  wp M (upload_regular_file_with_options local remote) (λ _ g', ∃ k', g' = working true k' ∧ same_place k k') (working true k).
Proof.
  intros Hp Hc. unfold upload_regular_file_with_options, tu, awaited. cbn [p_bind ask]. split; [done|].
  intros [m|e] g Hg; cbn [step tui_monitor tui_step] in Hg; subst g; cbn [p_bind]; [|by exists k].
  destruct (local_is KSymlink m); [by exists (seen_local local m k)|]. unfold local_is. case_bool_decide as Hk; cbn [negb]; [|by exists (seen_local local m k)].
  cbn [p_bind ask]. split; [split; [done|]; by exists m|]. intros [] g ->. cbn [p_bind]. split; [done|]. intros [bytes|e] g ->; by exists (seen_local local m k).
Qed.

(** *** Actions *)
Lemma went_breaks : breaks went.
Proof. by intros e g. Qed.
Hint Resolve went_breaks : core.

Section actions.
Context (host_key : option ServerHostKeyInfo) (fuel : nat).
Implicit Types (k : Seen) (s : BrowserState).
Local Abbreviation acts p := (∀ k s, follows k s → wp M (p s) went (at_rest k)).

Lemma acts_status status k s : follows k s → wp M (p_ret (set_status status s)) went (at_rest k).
Proof. intros Hs. by apply went_rest. Qed.
Hint Resolve acts_status : core.

Lemma acts_inspect path k s : follows k s → wp M (inspect_path path s) went (at_rest k).
Proof. intros Hs. unfold inspect_path, tu. cbn [p_bind ask]. split; [done|]. intros r g ->. by apply went_rest. Qed.

Lemma acts_change path k s : follows k s → wp M (change_path path s) went (at_rest k).
Proof. intros Hs. apply wp_last, wp_change; [done|]. intros s' k' Hs'. by apply went_rest. Qed.

Lemma acts_activate : acts activate_selected.
Proof.
  intros k s Hs. unfold activate_selected. destruct (selected_entry s); [|by apply acts_status]. case_bool_decide; [by apply acts_change|by apply acts_inspect].
Qed.
Lemma acts_inspect_selected : acts inspect_selected.
Proof. intros k s Hs. unfold inspect_selected. destruct (selected_entry s); [by apply acts_inspect|by apply acts_status]. Qed.
Lemma acts_parent : acts go_parent.
Proof. intros k s Hs. unfold go_parent. cbv zeta. case_bool_decide; [by apply acts_status|by apply acts_change]. Qed.
Lemma acts_reload : acts reload.
Proof. intros k s Hs. apply wp_last, wp_reload; [done|]. intros s' k' Hs'. by apply went_rest. Qed.

Lemma acts_jump : acts (jump_to_path fuel).
Proof.
  intros k s Hs. unfold jump_to_path. eapply wp_prompt; [split_and!; reflexivity|auto 8 with plain|done|].
  intros line. cbv zeta. case_bool_decide; [by apply acts_status|by apply acts_change].
Qed.

Lemma acts_mkdir : acts (create_directory_in_current fuel).
Proof.
  intros k s Hs. unfold create_directory_in_current. eapply wp_prompt; [split_and!; reflexivity|auto 8 with plain|done|]. intros line.
  case_bool_decide; [by apply acts_status|]. destruct (validate_remote_leaf (typed_text line)) as [[]|e] eqn:Hleaf; [|by apply acts_status]. cbv zeta.
  unfold tu at 1. cbn [p_bind ask]. split; [exists line; split_and!; [done|done|]; by destruct Hs as (_ & -> & _)|]. intros [[]|e] g ->; cbn [p_bind]; [|by apply acts_status].
  apply wp_reload_named; [done|]. intros s' k' Hs'. by apply acts_status.
Qed.

Lemma acts_rename : acts (rename_selected fuel).
Proof.
  intros k s Hs. unfold rename_selected. destruct (selected_entry s) as [entry|] eqn:He; [|by apply acts_status].
  eapply wp_prompt; [split_and!; reflexivity|unfold rename_prompt; auto 8 with plain|done|]. intros line.
  case_bool_decide; [by apply acts_status|]. case_bool_decide; [by apply acts_status|].
  destruct (validate_remote_leaf (typed_text line)) as [[]|e] eqn:Hleaf; [|by apply acts_status]. cbv zeta.
  unfold tu at 1. cbn [p_bind ask]. split.
  { exists entry, line. split_and!; try done; [by eapply follows_entry|]. by destruct Hs as (_ & -> & _). }
  intros [t|e] g ->; cbn [p_bind]; [|by apply acts_status]. apply wp_reload_named; [done|]. intros s' k' Hs'. by apply acts_status.
Qed.

Lemma acts_remove : acts (remove_selected fuel).
Proof.
  intros k s Hs. unfold remove_selected. destruct (selected_entry s) as [entry|] eqn:He; [|by apply acts_status]. case_bool_decide; [by apply acts_status|].
  eapply wp_prompt; [split_and!; reflexivity|unfold removal_prompt; destruct (rm_file_type (re_metadata entry)); cbn [removal_detail]; auto 10 with plain|done|]. intros line.
  destruct (is_delete_confirmed (typed_text line)) eqn:Hc; cbn [negb]; [|by apply acts_status].
  unfold tu at 1. cbn [p_bind ask]. split; [exists entry, line; split_and!; try done; by eapply follows_entry|].
  intros [t|e] g ->; cbn [p_bind]; [|by apply acts_status]. apply wp_reload; [done|]. intros s' k' Hs'. by apply acts_status.
Qed.

Lemma plain_tree_prompt plan : plain (tree_removal_prompt plan).
Proof. unfold tree_removal_prompt. repeat apply plain_app; auto with plain. Qed.

Lemma acts_remove_tree : acts (remove_selected_tree config host_key fuel).
Proof.
  intros k s Hs. unfold remove_selected_tree. destruct (selected_entry s) as [entry|] eqn:He; [|by apply acts_status].
  case_bool_decide as Hd; cbn [negb]; [|by apply acts_status]. cbv zeta. pose proof (follows_entry _ _ _ Hs He) as Hin.
  apply wp_render; [done|done|]. intros k1 Hk1 _ _ _ _ _. unfold tu at 1. cbn [p_bind ask].
  pose proof Hk1 as [_ He1]. split; [split; [done|]; exists entry; by rewrite <- He1 in Hin|].
  intros [plan|e] g Hg; cbn [step tui_monitor tui_step] in Hg; subst g; cbn [p_bind]; [|apply acts_status; by eapply follows_seen].
  eapply (wp_prompt _ _ _ _ (seen_plan (re_path entry) plan k1)); [split_and!; reflexivity|apply plain_tree_prompt|done|]. intros line.
  destruct (is_tree_delete_confirmed (typed_text line)) eqn:Hc; cbn [negb]; [|apply acts_status; by eapply follows_seen].
  apply wp_render; [by eapply follows_seen|done|]. intros k2 Hk2 Hl _ _ Hpl _. unfold tu at 1. cbn [p_bind ask]. split.
  { split; [done|]. exists entry, line. destruct Hk2 as [_ He2]. cbn [tu_seen working]. rewrite Hl, Hpl, He2. cbn. split_and!; try done. by rewrite He1. }
  assert (follows k2 s) as Hs2 by (eapply follows_seen; [|exact Hk2]; by eapply follows_seen).
  intros [summary|e] g ->; cbn [p_bind]; [|by apply acts_status]. apply wp_reload; [done|]. intros s' k' Hs'. by apply acts_status.
Qed.

Lemma acts_shell user k s :
  follows k s → match user with
    | Sudo user => user ≠ [] ∧ ∃ line, se_line k = Some (lit "sudo shell user (empty cancels): ", line) ∧ user = typed_text line
    | Current => True end →
  wp M (run_shell_action user s) went (at_rest k).
Proof.
  intros Hs Hu. unfold run_shell_action. rewrite wp_bind. apply wp_suspended; [|intros e g Hg; exact Hg].
  unfold tu, awaited. cbn [p_bind ask]. split; [split; [by repeat split|exact Hu]|]. intros [status|e] g ->; cbn [p_bind wp].
  - exists k. split; [done|]. by apply went_rest.
  - by exists k.
Qed.
Lemma acts_sudo : acts (sudo_shell fuel).
Proof.
  intros k s Hs. unfold sudo_shell. eapply wp_prompt; [split_and!; reflexivity|auto 8 with plain|done|]. intros line.
  case_bool_decide; [by apply acts_status|]. apply acts_shell; [done|]. split; [done|]. by exists line.
Qed.

Lemma acts_download : acts (download_selected config host_key fuel).
Proof.
  intros k s Hs. unfold download_selected. destruct (selected_entry s) as [entry|] eqn:He; [|by apply acts_status].
  case_bool_decide as Hf; cbn [negb]; [|by apply acts_status].
  eapply wp_prompt; [split_and!; reflexivity|unfold download_prompt; auto 8 with plain|done|]. intros line. cbv zeta.
  apply wp_counted; [done|done| |].
  - intros k' Hk'. eapply wp_mono; [apply wp_download|cbv beta; eauto]. eapply transfer_still_asked; [exact Hk'|]. exists entry, line.
    split_and!; try done; [by eapply follows_entry|]. case_bool_decide; [by left|by right].
  - intros r cancelled stopped s' k' Hs' _. by apply acts_status.
Qed.

Lemma plain_directory_prompt entry : plain (directory_download_prompt entry).
Proof.
  unfold directory_download_prompt, RECURSIVE_DOWNLOAD_PREFIX, RECURSIVE_DOWNLOAD_DESTINATION_MARKER, RECURSIVE_DOWNLOAD_DESTINATION_SUFFIX.
  repeat apply plain_app; auto with plain.
Qed.

Lemma acts_download_directory : acts (download_selected_directory config host_key fuel).
Proof.
  intros k s Hs. unfold download_selected_directory. destruct (selected_entry s) as [entry|] eqn:He; [|by apply acts_status].
  case_bool_decide as Hf; cbn [negb]; [|by apply acts_status]. pose proof (follows_entry _ _ _ Hs He) as Hin.
  eapply wp_prompt_with; [apply wp_any_line, plain_directory_prompt|done|]. intros input k1 Hk1. cbv zeta.
  eapply wp_prompt_with; [apply wp_confirmation_line|done|]. intros v k2 Hv.
  destruct (is_confirmed v) eqn:Hc; cbn [negb].
  - destruct Hv as [[-> ->]|(line & -> & ->)]; [done|]. apply wp_summarized; [by eapply follows_seen| |done|].
    + exists entry, line. split_and!; try done. cbn. by rewrite (proj2 Hk1).
    + intros r cancelled stopped s' k' Hs'. by apply acts_status.
  - apply acts_status. apply (follows_seen k1); [by eapply follows_seen|]. by destruct Hv as [[-> ->]|(line & -> & ->)].
Qed.

Lemma child_child name k s : follows k s → validate_remote_leaf name = Ok tt → child_of (se_path k) (join_remote_child (bs_path s) name).
Proof. intros (_ & -> & _) Hn. by exists name. Qed.

Lemma acts_upload : acts (upload_to_current config host_key fuel).
Proof.
  intros k s Hs. unfold upload_to_current. rewrite wp_bind. apply wp_suspended; [|intros e g Hg; exact Hg].
  rewrite wp_bind. eapply wp_mono; [apply (wp_picked_line _ _ PickFile); reflexivity|]. cbv beta. intros [local|e] g (k1 & -> & H1); [|by exists k1].
  assert (same_place k k1 ∧ (local ≠ [] → se_picked k1 = Some (PickFile, local))) as [Hk1 Hpick].
  { destruct H1 as [[-> ->]| ->]; [|done]. split; [done|]. by intros []. }
  clear H1.
  case_bool_decide as Hlocal; [exists k1; split; [done|]; cbn; rewrite (bool_decide_eq_true_2 (local = [])) by done; apply acts_status; by eapply follows_seen|].
  destruct (path_file_name local) as [default_name|].
  2:{ exists k1. split; [done|]. cbn. rewrite (bool_decide_eq_false_2 (local = [])) by done. apply acts_status. by eapply follows_seen. }
  rewrite wp_bind, wp_try. eapply wp_mono; [apply wp_line; [split_and!; reflexivity|unfold remote_name_prompt; auto 8 with plain]|]. cbv beta.
  intros r g (k2 & -> & H2). cbn [wp p_ret p_bind]. exists k2. split; [done|]. rewrite (bool_decide_eq_false_2 (local = [])) by done.
  destruct r as [v|e]; [|by apply went_breaks, calm_rest]. destruct H2 as (line & -> & ->). cbn [p_bind]. cbv zeta.
  match goal with |- context [validate_remote_leaf ?n] => set (name := n) end.
  assert (follows (seen_line (remote_name_prompt default_name) line k1) s) as Hs2 by (apply (follows_seen k1); [by eapply follows_seen|done]).
  destruct (validate_remote_leaf name) as [[]|e] eqn:Hleaf; [|by apply acts_status].
  apply wp_counted; [done|done| |].
  - intros k' Hk'. apply wp_upload; [rewrite (sa_picked _ _ Hk'); by apply Hpick|]. rewrite (proj1 (sa_place _ _ Hk')). by eapply child_child.
  - intros r cancelled stopped s' k' Hs' _. destruct (transfer_done r stopped); [|by apply went_rest].
    apply wp_last, wp_reload_named; [done|]. intros s'' k'' Hs''. by apply went_rest.
Qed.

Lemma acts_upload_directory : acts (upload_directory_to_current config host_key fuel).
Proof.
  intros k s Hs. unfold upload_directory_to_current.
  eapply wp_prompt_with; [apply (wp_picked_line _ _ PickDirectory); reflexivity|done|]. intros input k1 Hk1. cbv zeta.
  assert (follows k1 s) as Hs1 by (eapply follows_seen; [exact Hs|]; by destruct Hk1 as [[-> ->]| ->]). clear Hk1.
  case_bool_decide; [by apply acts_status|]. unfold tu at 1. cbn [p_bind ask]. split; [done|].
  intros [m|e] g Hg; cbn [step tui_monitor tui_step] in Hg; subst g; cbn [p_bind]; [|by apply acts_status].
  set (k2 := seen_local (trim input) m k1). assert (follows k2 s) as Hs2 by done. match goal with |- wp _ _ _ ?g => change g with (at_rest k2) end.
  destruct (local_is KSymlink m); cbn [orb]; [by apply acts_status|]. unfold local_is. case_bool_decide as Hdir; cbn [negb]; [|by apply acts_status].
  destruct (path_file_name (trim input)) as [default_name|]; [|by apply acts_status]. cbv beta.
  eapply wp_prompt; [split_and!; reflexivity|unfold remote_directory_prompt; auto 8 with plain|done|]. intros line1.
  match goal with |- context [validate_remote_leaf ?n] => set (name := n) end.
  destruct (validate_remote_leaf name) as [[]|e] eqn:Hleaf; [|by apply acts_status].
  eapply wp_prompt; [split_and!; reflexivity|unfold upload_confirmation; repeat apply plain_app; auto with plain|done|]. intros line2.
  destruct (is_confirmed (typed_text line2)) eqn:Hc; cbn [negb]; [|by apply acts_status].
  apply wp_summarized; [done| |done|].
  - exists m, line2. split_and!; try done. apply (child_child name k2 s); done.
  - intros r cancelled stopped s' k' Hs'. destruct (transfer_done r stopped); [|by apply went_rest].
    apply wp_last, wp_reload_named; [done|]. intros s'' k'' Hs''. by apply went_rest.
Qed.

(** The task panel, with the session put aside. *)
Lemma wp_panel k :
  wp M choose_action (prompted (λ action k', same_place k k' ∧ match action with PanelRetry id => transfer_asked (RetryTask id) k' | _ => True end)) (aside k).
Proof.
  unfold choose_action, tu at 1, awaited at 1. cbn [p_bind ask]. split; [done|].
  intros [tasks|e] g Hg; cbn [step tui_monitor tui_step] in Hg; subst g; cbn [p_bind]; [|by apply prompted_err].
  set (k1 := seen_tasks tasks k). match goal with |- wp _ _ _ ?g => change g with (aside k1) end.
  assert (∀ text line, wp M (p_bind (awaited (tu (TWrite text))) (λ _, p_ret PanelReturn))
    (prompted (λ action k', same_place k k' ∧ match action with PanelRetry id => transfer_asked (RetryTask id) k' | _ => True end))
    (aside (seen_line (lit "tasks> ") line k1))) as Hsay.
  { intros text line. unfold tu, awaited. cbn [p_bind ask]. split; [done|]. intros [[]|e] g ->; by eexists. }
  unfold tu at 1, awaited at 1. cbn [p_bind ask]. split; [done|]. intros [[]|e] g ->; cbn [p_bind]; [|by apply prompted_err].
  unfold tu at 1, awaited at 1. cbn [p_bind ask]. split; [split; [by repeat split|auto with plain]|].
  intros [input|e] g Hg; cbn [step tui_monitor tui_step] in Hg; subst g; cbn [p_bind]; [|by apply prompted_err]. cbv zeta.
  case_bool_decide; [by eexists|]. destruct (eq_ignore_ascii_case (trim input) (lit "clear")).
  { unfold tu, awaited. cbn [p_bind ask]. split; [done|]. intros [count|e] g ->; by eexists. }
  destruct (parse_uint u64_max (trim input)) as [raw_id|]; [|apply Hsay].
  destruct (list_find _ tasks) as [[i task]|] eqn:Hfind; cbn [fmap option_fmap option_map snd]; [|apply Hsay].
  apply list_find_Some in Hfind as (Hi & Hid & _). apply list_elem_of_lookup_2 in Hi.
  destruct (can_resume task) eqn:Hres; cbn [negb]; [|apply Hsay].
  unfold tu, awaited. cbn [p_bind ask]. split; [split; [by repeat split|unfold resume_prompt; auto 8 with plain]|].
  intros [line|e] g Hg; cbn [step tui_monitor tui_step] in Hg; subst g; cbn [p_bind p_ret wp]; [|by eexists].
  eexists. split; [reflexivity|]. split; [done|]. case_bool_decide as Hc; [|done]. exists task, line. subst raw_id. by split_and!.
Qed.

Lemma acts_tasks : acts (open_transfer_tasks config host_key fuel).
Proof.
  intros k s Hs. unfold open_transfer_tasks. rewrite wp_bind. apply wp_suspended; [|intros e g Hg; exact Hg].
  eapply wp_mono; [apply wp_panel|]. cbv beta. intros [action|e] g (k1 & -> & H1); (exists k1; split; [done|]); [|done].
  destruct H1 as [Hk1 Hasked]. assert (follows k1 s) as Hs1 by by eapply follows_seen.
  destruct action as [|id|count]; [by apply acts_status| |by apply acts_status].
  unfold retry_transfer_task, tu at 1, awaited at 1. cbn [p_bind ask]. split; [done|]. intros [[kind|]|e] g ->; cbn [p_bind]; [|by apply acts_status|by apply calm_rest].
  apply wp_summarized; [done|exact Hasked|done|]. intros r cancelled stopped s' k' Hs'.
  destruct (transfer_done r stopped && _); [|by apply acts_status]. apply wp_reload; [done|]. intros s'' k'' Hs''. by apply acts_status.
Qed.

Lemma acts_moved (f : BrowserState → BrowserState) k s :
  (∀ s, selection_ok s → selection_ok (f s)) → bs_path (f s) = bs_path s → bs_entries (f s) = bs_entries s → follows k s → wp M (p_ret (f s)) went (at_rest k).
Proof. intros Hf Hp He (Hs & Hsp & Hse). apply went_rest. split_and!; [by apply Hf|by rewrite Hp|by rewrite He]. Qed.

Lemma acts_press key : acts (press config host_key fuel key).
Proof.
  intros k s Hs. unfold press.
  assert (wp M (p_ret (move_up s)) went (at_rest k)) by (apply acts_moved; [intros s'; unfold selection_ok; cbn; lia|done..]).
  assert (wp M (p_ret (move_down s)) went (at_rest k)).
  { apply acts_moved; [intros s'; unfold selection_ok, move_down; case_bool_decide; cbn; lia|unfold move_down; by case_bool_decide..|done]. }
  assert (wp M (p_ret (select_first s)) went (at_rest k)) by (apply acts_moved; [by left|done..]).
  assert (wp M (p_ret (select_last s)) went (at_rest k)) by (apply acts_moved; [intros s'; unfold selection_ok; cbn; destruct (bs_entries s'); cbn; lia|done..]).
  assert (wp M (p_ret (page_up 10 s)) went (at_rest k)) by (apply acts_moved; [intros s'; unfold selection_ok; cbn; lia|done..]).
  assert (wp M (p_ret (page_down 10 s)) went (at_rest k)).
  { apply acts_moved; [intros s'; unfold selection_ok, page_down; case_bool_decide; cbn; [by left|]; destruct (bs_entries s'); cbn; [done|lia]
      |unfold page_down; by case_bool_decide..|done]. }
  destruct (key_code key); try done; try (by apply went_rest).
  - by apply acts_activate.
  - by apply acts_parent.
  - by apply acts_activate.
  - by apply acts_parent.
  - by apply acts_remove.
  - destruct (c =? _); [assumption|].
    destruct (c =? _); [assumption|].
    destruct (c =? _); [by apply acts_reload|].
    destruct (c =? _); [by apply acts_inspect_selected|].
    destruct (c =? _); [by apply acts_jump|].
    destruct (c =? _); [by apply acts_mkdir|].
    destruct (c =? _); [by apply acts_rename|].
    destruct (c =? _); [by apply acts_remove|].
    destruct (c =? _); [by apply acts_remove_tree|].
    destruct (c =? _); [by apply acts_tasks|].
    destruct (c =? _); [by apply acts_shell|].
    destruct (c =? _); [by apply acts_sudo|].
    destruct (c =? _); [by apply acts_download|].
    destruct (c =? _); [by apply acts_download_directory|].
    destruct (c =? _); [by apply acts_upload|].
    destruct (c =? _); [by apply acts_upload_directory|].
    by apply went_rest.
Qed.

Lemma wp_browse rounds k s : follows k s → wp M (browse config host_key fuel rounds s) (λ r g, match r with Ok _ => ∃ k', g = at_rest k' | Err e => calm e g end) (at_rest k).
Proof.
  revert k s. induction rounds as [|rounds IH]; intros k s Hs; [by apply calm_rest|]. cbn [browse].
  apply wp_render; [done|by intros e g|]. intros k1 Hk1 _ _ _ _ _. assert (follows k1 s) as Hs1 by by eapply follows_seen.
  unfold tu at 1, awaited at 1. cbn [p_bind ask]. split; [by repeat split|]. intros [[key|]|e] g ->; cbn [p_bind]; [|by apply IH|by apply calm_rest].
  case_bool_decide; [by apply IH|]. destruct (should_quit key); [by exists k1|]. rewrite wp_bind. eapply wp_mono; [by apply acts_press|].
  cbv beta. intros [s'|e] g; [|done]. intros (k' & -> & Hs'). by apply IH.
Qed.
End actions.
End steps.

(** *** Local names *)
Definition portable_char (c : char) : Prop := is_control c = false ∧ c ∉ reserved_punctuation.
Definition ends_well (s : str) : Prop := ∀ c : char, last s = Some c → c ≠ 32 ∧ c ≠ ch ".".

Lemma safe_char_portable c : portable_char (safe_local_char c).
Proof.
  unfold safe_local_char, portable_char. destruct (is_control c) eqn:Hc; cbn [orb].
  - split; [done|]. vm_compute. set_solver.
  - destruct (existsb (Z.eqb c) reserved_punctuation) eqn:He.
    + split; [done|]. apply (bool_decide_unpack _). vm_compute. done.
    + split; [done|]. intros Hin. assert (existsb (Z.eqb c) reserved_punctuation = true) as Ht; [|congruence].
      apply existsb_exists. exists c. split; [by apply list_elem_of_In|apply Z.eqb_refl].
Qed.
Lemma safe_char_fixed c : portable_char c → safe_local_char c = c.
Proof.
  intros [Hc Hr]. unfold safe_local_char. rewrite Hc. cbn [orb]. destruct (existsb (Z.eqb c) reserved_punctuation) eqn:He; [|done].
  apply existsb_exists in He as (d & Hd & ->%Z.eqb_eq). by apply list_elem_of_In in Hd.
Qed.
Lemma replace_last_spec (s : str) : Forall portable_char s → Forall portable_char (replace_last s) ∧ ends_well (replace_last s).
Proof.
  intros Hs. unfold replace_last. destruct (reverse s) as [|c rest] eqn:Hr.
  - split; [done|]. apply (f_equal reverse) in Hr. rewrite reverse_involutive in Hr. by subst s.
  - assert (s = reverse rest ++ [c]) as -> by (by rewrite <- (reverse_involutive s), Hr, reverse_cons).
    apply Forall_app in Hs as [Hrest Hc]. destruct (Z.eqb_spec c 32) as [->|H32]; [|destruct (Z.eqb_spec c (ch ".")) as [->|Hdot]]; cbn [orb].
    1,2: split; [apply Forall_app; split; [done|]; constructor; [|done]; apply (safe_char_portable (ch "/"))|intros x; rewrite last_snoc; by intros [= <-]].
    split; [by apply Forall_app|]. intros x. rewrite last_snoc. by intros [= <-].
Qed.
Lemma replace_last_fixed (s : str) : ends_well s → replace_last s = s.
Proof.
  intros Hs. unfold replace_last. destruct (reverse s) as [|c rest] eqn:Hr; [done|].
  apply (f_equal reverse) in Hr. rewrite reverse_involutive, reverse_cons in Hr. subst s.
  destruct (Hs c) as [H1 H2]; [apply last_snoc|]. by rewrite (proj2 (Z.eqb_neq c 32)), (proj2 (Z.eqb_neq c (ch "."))).
Qed.

Definition leaf_stem (s : str) : str := to_ascii_uppercase (trim (default [] (head (split (ch ".") s)))).
Lemma underscored_leaf s : leaf_stem (ch "_" :: s) ∉ device_names.
Proof.
  assert (∃ t, leaf_stem (ch "_" :: s) = ch "_" :: t) as [t ->].
  { unfold leaf_stem. assert (∃ u, head (split (ch ".") (ch "_" :: s)) = Some (ch "_" :: u)) as [u ->].
    { unfold split. cbn [split_on]. change (ch "." =? ch "_") with false. cbv iota. destruct (split_on (Z.eqb (ch ".")) s) as [|x l]; by eexists. }
    assert (∀ l, ∃ v, drop_while is_whitespace (l ++ [ch "_"]) = v ++ [ch "_"]) as Hd.
    { induction l as [|x l IH]; [by exists []|]. cbn [drop_while app]. destruct (is_whitespace x); [exact IH|]. by exists (x :: l). }
    assert (trim (ch "_" :: u) = reverse (drop_while is_whitespace (reverse u ++ [ch "_"]))) as Htrim by (by rewrite <- (reverse_cons (A := Z))).
    cbn [from_option id]. destruct (Hd (reverse u)) as [v Hv]. rewrite Hv in Htrim. rewrite (reverse_app (A := Z)) in Htrim.
    exists (to_ascii_uppercase (reverse v)). change (to_ascii_uppercase (trim (ch "_" :: u)) = ch "_" :: to_ascii_uppercase (reverse v)). by rewrite Htrim. }
  intros Hin. apply list_elem_of_fmap in Hin as (d & Hd & Hin). revert Hd.
  repeat (apply elem_of_cons in Hin as [->|Hin]; [done|]). by apply not_elem_of_nil in Hin.
Qed.


(** ** Theorems *)

(** Before the browser starts: a terminal as a shell leaves it. *)
Definition unopened (initial_path : str) : TuiWatch :=
  mk_tui_watch (mk_term false false false false) false false
    (mk_seen (bs_path (browser_new initial_path)) [] None None None None [] (0, 0)).

(** C17: the remote browser, whatever is typed, drawn, listed or answered, and wherever it fails.
    A file is removed only when it was selected in the listing and DELETE was typed to the question
    that names it, and a tree only when DELETE TREE was typed to the question that describes exactly
    the plan that is carried out; directories are made and files renamed or uploaded only as children
    of the directory that is shown, by a name that is a leaf; a transfer starts only for the selected
    entry or the picked local path, of the right kind, after the YES that its question asks for, or to
    resume a failed task that was named and confirmed; a shell becomes another user only by a name that
    was typed.  Prompts, pickers and shells have the terminal to themselves, no transfer's listener
    reading beside them; frames are drawn only on the browser's own screen, of the directory that was
    listed last and with a valid selection; questions hold no control character.  And when the browser
    is left, by whatever way, the terminal is as it was, unless a terminal request itself failed. *)
Theorem browser_acts_only_as_told config fuel rounds initial_path :
  wp (tui_monitor config) (browser_run config fuel rounds initial_path)
    (λ r g, tw_trouble (tu_term g) = false →
       tw_raw (tu_term g) = false ∧ tw_alt (tu_term g) = false ∧
       (tu_listening g = true → tu_undrawn g = true ∨ r = Err "out of fuel"))
    (unopened initial_path).
Proof.
  unfold browser_run, session_enter, tu, awaited. cbn [p_bind ask]. split; [done|].
  intros [[]|e] g Hg; cbn [step tui_monitor tui_step] in Hg; subst g; cbn [p_bind]; [|done]. split; [done|].
  intros [[]|e] g Hg; cbn [step tui_monitor tui_step] in Hg; subst g; cbn [p_bind ask].
  2:{ split; [done|]. by intros [[]|e'] g Hg; cbn [step tui_monitor tui_step] in Hg; subst g. }
  split; [done|]. intros [] g Hg; cbn [step tui_monitor tui_step] in Hg; subst g. cbn [p_bind p_try].
  split; [done|]. intros host_key g ->. cbn [p_bind].
  set (k := mk_seen (bs_path (browser_new initial_path)) [] None None None None [] (0, 0)).
  match goal with |- wp _ _ _ ?g => change g with (at_rest k) end. rewrite wp_bind, wp_try.
  eapply wp_mono; [apply wp_reload; [split; [by left|done]|]; intros s k' Hs; by apply wp_browse|]. cbv beta.
  intros r g Hr. assert (calm (match r with Ok _ => EmptyString | Err e => e end) g) as [Hcalm Hlis].
  { destruct r; [|exact Hr]. destruct Hr as [k' ->]. apply calm_rest. }
  assert (∀ g', tu_listening g' = tu_listening g → tu_undrawn g' = tu_undrawn g → tu_listening g' = true → tu_undrawn g' = true ∨ r = Err "out of fuel"%string) as Hlis'.
  { intros g' -> -> H. destruct (Hlis H) as [|He]; [by left|right]. destruct r; [done|by rewrite He]. }
  unfold session_drop, tu. cbn [p_bind ask]. split; [done|]. intros active g1 Hg1; cbn [step tui_monitor tui_step] in Hg1. destruct Hg1 as [-> ->]. cbn [p_bind].
  destruct (tw_active (tu_term g)) eqn:Hact; cbn [p_bind ask].
  - split; [done|]. intros left g1 Hg1; cbn [step tui_monitor tui_step] in Hg1; subst g1. cbn [p_bind]. split; [done|].
    intros disabled g1 Hg1; cbn [step tui_monitor tui_step] in Hg1; subst g1. cbn [p_bind wp].
    destruct left as [[]|e], disabled as [[]|e']; cbn; try done. intros _. split_and!; [done..|by apply Hlis'].
  - cbn [wp]. intros Ht. destruct Hcalm as [Hc|[-> ->]]; [congruence|]. split_and!; [done..|by apply Hlis'].
Qed.

(** The local name made of any remote name is a portable leaf: not empty, without control or reserved
    characters, not ending in a space or a dot, not the name of a device; and a name that is such is
    kept as it is, so that the name is accepted where a local leaf is checked. *)
Theorem local_names_portable remote_name :
  let name := safe_local_filename remote_name in
  name ≠ [] ∧ Forall portable_char name ∧ ends_well name ∧ leaf_stem name ∉ device_names ∧ validate_local_leaf name = Ok tt.
Proof.
  set (output := replace_last (safe_local_char <$> remote_name)).
  assert (Forall portable_char output ∧ ends_well output) as [Hp He].
  { apply replace_last_spec, Forall_fmap, Forall_true. intros c. apply safe_char_portable. }
  set (kept := if bool_decide (output = []) || bool_decide (output = lit ".") || bool_decide (output = lit "..") then lit "download.bin" else output).
  assert (kept ≠ [] ∧ kept ≠ lit "." ∧ kept ≠ lit ".." ∧ Forall portable_char kept ∧ ends_well kept) as (Hne & Hd1 & Hd2 & Hkp & Hke).
  { unfold kept. repeat (case_bool_decide; cbn [orb]; [split_and!; try done;
      [by apply (bool_decide_unpack _); vm_compute|by intros c [= <-]]|]). by split_and!. }
  assert (∀ s : str, Forall portable_char s → ends_well s → s ≠ [] → s ≠ lit "." → s ≠ lit ".." → leaf_stem s ∉ device_names → safe_local_filename s = s) as Hfix.
  { intros s Hs Hse H1 H2 H3 Hst. unfold safe_local_filename. cbv zeta.
    assert (safe_local_char <$> s = s) as ->.
    { clear -Hs. induction Hs as [|c s Hc Hs IH]; [done|]. cbn [fmap list_fmap]. rewrite safe_char_fixed by done. f_equal. exact IH. }
    rewrite (replace_last_fixed s Hse), !(bool_decide_eq_false_2 (s = _)) by done. cbn [orb]. by rewrite bool_decide_eq_false_2. }
  assert (safe_local_filename remote_name = if bool_decide (leaf_stem kept ∈ device_names) then ch "_" :: kept else kept) as Hname by done.
  cbv zeta. rewrite Hname.
  assert (∀ s : str, Forall portable_char s → ends_well s → s ≠ [] → s ≠ lit "." → s ≠ lit ".." → leaf_stem s ∉ device_names →
    s ≠ [] ∧ Forall portable_char s ∧ ends_well s ∧ leaf_stem s ∉ device_names ∧ validate_local_leaf s = Ok tt) as Hgood.
  { intros s Hs Hse H1 H2 H3 Hst. split_and!; try done. unfold validate_local_leaf. rewrite bool_decide_eq_false_2 by done.
    by rewrite bool_decide_eq_true_2 by by apply Hfix. }
  case_bool_decide as Hst; [|by apply Hgood]. apply Hgood.
  - constructor; [apply (safe_char_portable (ch "/"))|done].
  - intros c. destruct kept as [|x kept]; [done|]. rewrite last_cons_cons. apply Hke.
  - done.
  - by intros [=].
  - by intros [=].
  - apply underscored_leaf.
Qed.

(** A reload replaces the status, whatever it was: the result of an upload is never shown. *)
Lemma reload_forgets_status name status s : reload_preserving_name name (set_status status s) = reload_preserving_name name s.
Proof. reflexivity. Qed.

Module Examples.
Record screen := mk_screen {
  sc_keys : list KeyCode; sc_lines : list str; sc_entries : list RemoteDirEntry; sc_draws : bool;
  sc_removed : list str; sc_listening : bool; sc_raw : bool;
}.
Definition serve_screen (q : tui_interface) (w : screen) : answer q * screen :=
  let next := mk_screen (tail (sc_keys w)) (sc_lines w) (sc_entries w) (sc_draws w) (sc_removed w) (sc_listening w) (sc_raw w) in
  let read := mk_screen (sc_keys w) (tail (sc_lines w)) (sc_entries w) (sc_draws w) (sc_removed w) (sc_listening w) (sc_raw w) in
  let raw b := mk_screen (sc_keys w) (sc_lines w) (sc_entries w) (sc_draws w) (sc_removed w) (sc_listening w) b in
  let listening b := mk_screen (sc_keys w) (sc_lines w) (sc_entries w) (sc_draws w) (sc_removed w) b (sc_raw w) in
  match q return answer (i := tui_interface) q * screen with
  | TEnableRaw => (Ok tt, raw true)
  | TDisableRaw => (Ok tt, raw false)
  | TEnterAlt | TLeaveAlt | TMkdir _ | TWrite _ => (Ok tt, w)
  | TStopListening => (Ok tt, listening false)
  | TDraw _ => (if sc_draws w then Ok tt else Err "broken pipe", w)
  | TActive => (sc_raw w, w)
  | TGetPickerCancelled | TSwapPickerCancelled _ | TCancelled => (false, w)
  | TSetActive _ | TTransfer _ => (tt, w)
  | TListen => (tt, listening true)
  | TSize => (Ok (80, 24), w)
  | TEvent => (Ok (Some (mk_key (default (KChar (ch "q")) (head (sc_keys w))) false KPress)), next)
  | TReadLine _ => (Ok (default [] (head (sc_lines w)) ++ [LF]), read)
  | TCurrentDir => (Ok (lit "/home"), w)
  | TPick _ _ => (Ok None, w)
  | TShell _ => (Ok (Some 0), w)
  | TRecent _ => (Ok [], w)
  | TClearFinished | TAwait => (Ok 0, w)
  | TTaskKind _ => (Ok None, w)
  | THostKey => (None, w)
  | TList _ => (Ok (sc_entries w), w)
  | TStat _ => (Err "unused", w)
  | TRename _ _ => (Err "unused", w)
  | TRemove path => (Ok RFile, mk_screen (sc_keys w) (sc_lines w) [] (sc_draws w) (sc_removed w ++ [path]) (sc_listening w) (sc_raw w))
  | TPlan _ _ => (Err "unused", w)
  | TRemoveTree _ _ => (Err "unused", w)
  | TLocalMeta _ => (Err "unused", w)
  | TReadDir _ => (Ok [], w)
  | TNext _ => (TransferEnded (Err "unused"), w)
  end.
Definition a_file : RemoteDirEntry := mk_dir_entry (lit "a") (lit "/srv/a") (mk_remote_metadata RFile None None None None None None None None).
Definition host : ConnectionConfig := config_new (lit "web.example") (lit "root").
Definition session (keys : list KeyCode) (lines : list str) : result unit * screen :=
  run serve_screen (browser_run host 10 10 (lit "/srv")) (mk_screen keys lines [a_file] true [] false false).

(** Only the exact word removes the file. *)
Example removal_session :
  (let r := session [KChar (ch "x")] [lit " DELETE "] in r.1 = Ok tt ∧ sc_removed r.2 = [lit "/srv/a"] ∧ sc_raw r.2 = false) ∧
  (let r := session [KChar (ch "x")] [lit "delete"] in r.1 = Ok tt ∧ sc_removed r.2 = []).
Proof. vm_compute. repeat split. Qed.

(** A frame that cannot be drawn before a transfer leaves the transfer's listener reading the terminal. *)
Lemma undrawn_frame_leaves_listener :
  let r := run serve_screen (counted_transfer host None (lit "downloading") (p_ret 0) (browser_new [])) (mk_screen [] [] [] false [] false true) in
  r.1 = Err "broken pipe" ∧ sc_listening r.2 = true.
Proof. split; reflexivity. Qed.

(** The picker's default name is cut where the name of the directory quotes the prompt. *)
Lemma default_name_cut :
  let entry := mk_dir_entry (lit "a to local directory [b") (lit "/srv/x") (mk_remote_metadata RDirectory None None None None None None None None) in
  safe_local_filename (re_name entry) = re_name entry ∧ recursive_download_default_name (directory_download_prompt entry) = Some (lit "b").
Proof. split; vm_compute; reflexivity. Qed.
End Examples.
