(* ===== verification/LocalPicker.v ===== *)
(** * The local picker ([crates/kaduox-ssh-cli/src/tui_local_picker.rs])

    Browsing the local file system for a file or directory to transfer, over the requests
    of the terminal.  Theorem: what is picked is of the kind that was asked for and is not
    a link, no link is ever opened, and the terminal is left as it was found. *)

From stdpp Require Import base list gmap strings numbers sorting.
From Stdlib Require Import Lia.
From S2P Require Import Prelude RustStr StrFacts OpenSshInclude RemotePath LocalPath Targets Config Sftp RemoteFs TransferOps TaskRegistry Program Authenticate Exec TransferTree Privileged Screen Browser BrowserSafety.

(** ** Definitions *)
Definition MAX_LOCAL_PICKER_ENTRIES : nat := 4096.
Inductive LocalEntryKind := EntryDirectory | EntryFile | EntryLinkLike | EntryOther.
#[export] Instance local_entry_kind_eq_dec : EqDecision LocalEntryKind.
Proof. solve_decision. Defined.
Record PickerEntry := mk_picker_entry { pe_path : str; pe_kind : LocalEntryKind }.

Definition picker_title (kind : LocalPickKind) : str :=
  match kind with PickFile => lit "Kaduox-SSH | select local file" | PickDirectory => lit "Kaduox-SSH | select local directory" end.
Definition picker_hint (kind : LocalPickKind) : str :=
  match kind with
  | PickFile => lit "Enter selects a real file or opens a directory"
  | PickDirectory => lit "Enter opens a directory; s selects the current directory"
  end.
Definition entry_marker (kind : LocalEntryKind) : str :=
  match kind with EntryDirectory => lit "[D]" | EntryFile => lit "[F]" | EntryLinkLike => lit "[L]" | EntryOther => lit "[?]" end.
(** [{:?}] *)
Definition entry_kind_debug (kind : LocalEntryKind) : str :=
  match kind with EntryDirectory => lit "Directory" | EntryFile => lit "File" | EntryLinkLike => lit "LinkLike" | EntryOther => lit "Other" end.

(** The derived order of the kinds, then the names in byte order. *)
Definition kind_rank (kind : LocalEntryKind) : Z := match kind with EntryDirectory => 0 | EntryFile => 1 | EntryLinkLike => 2 | EntryOther => 3 end.
Definition entry_file_name (e : PickerEntry) : str := default [] (path_file_name (pe_path e)).
Definition picker_le (x y : PickerEntry) : Prop :=
  kind_rank (pe_kind x) < kind_rank (pe_kind y) ∨ (pe_kind x = pe_kind y ∧ str_le (entry_file_name x) (entry_file_name y)).
#[export] Instance picker_le_dec x y : Decision (picker_le x y).
Proof. unfold picker_le, str_le. apply _. Defined.

Definition kind_of (m : LocalMeta) : LocalEntryKind :=
  if local_is KSymlink m then EntryLinkLike
  else if local_is KDirectory m then EntryDirectory else if local_is KRegular m then EntryFile else EntryOther.
Definition classify_path (path : str) : tui LocalEntryKind := (m ⇐ awaited (tu (TLocalMeta path)); p_ret (kind_of m))%prog.

Fixpoint gather_entries (path : str) (seen : nat) (names : list (result str)) (entries : list PickerEntry) : tui (list PickerEntry) :=
  match names with
  | [] => p_ret entries
  | name :: names =>
      (name ⇐ Done name;
       let seen := S seen in
       if bool_decide (MAX_LOCAL_PICKER_ENTRIES < seen)%nat then p_err "local directory exceeds the picker limit"
       else
         let entry_path := path_join path name in
         kind ⇐ p_context "failed to inspect local entry" (classify_path entry_path);
         gather_entries path seen names (entries ++ [mk_picker_entry entry_path kind]))%prog
  end.
Definition load_entries (path : str) : tui (list PickerEntry) :=
  (kind ⇐ classify_path path;
   match kind with
   | EntryDirectory =>
       names ⇐ awaited (tu (TReadDir path));
       entries ⇐ gather_entries path 0 names [];
       p_ret (merge_sort picker_le entries)
   | EntryLinkLike => p_err "refusing to browse link/reparse-point directory"
   | _ => p_err "local path is not a directory"
   end)%prog.

Definition normalize_start (start : str) : tui str :=
  (path ⇐ (if bool_decide (start = []) then awaited (tu TCurrentDir) else p_ret start);
   kind ⇐ classify_path path;
   match kind with
   | EntryDirectory => p_ret path
   | EntryLinkLike => p_err "local picker start path is a link/reparse point"
   | _ => p_err "local picker start path is not a real directory"
   end)%prog.

(** *** One frame *)
Record Picker := mk_picker { pk_current : str; pk_entries : list PickerEntry; pk_selected : nat; pk_status : str }.
Definition says (status : str) (p : Picker) : Picker := mk_picker (pk_current p) (pk_entries p) (pk_selected p) status.
Definition selects (selected : nat) (p : Picker) : Picker := mk_picker (pk_current p) (pk_entries p) selected (pk_status p).

Section picker.
Context (kind : LocalPickKind) (lossy : str → str).            (* [to_string_lossy] and [display] *)

Definition picker_line (e : PickerEntry) : str :=
  entry_marker (pe_kind e) ++ lit " " ++ tui_safe (lossy (default (pe_path e) (path_file_name (pe_path e)))).
Definition picker_keys : str :=
  match kind with
  | PickFile => lit "keys: j/k select | Enter open/select file | " ++ [8592] ++ lit " parent | p path | r refresh | q/Esc cancel"
  | PickDirectory => lit "keys: j/k select | Enter open dir | s select current | " ++ [8592] ++ lit " parent | p path | r refresh | q/Esc cancel"
  end.
Definition picker_frame (columns rows : Z) (p : Picker) : list draw :=
  [DMove 0 0; DClear] ++
  if (columns <? 48) || (rows <? 8) then [DPrint (lit "kssh-tui local picker: terminal too small (minimum 48x8)")]
  else
    let cut text := DPrint (truncate_cells text columns) in
    let height := Z.to_nat (rows - 5) in
    let start := window_start (pk_selected p) height in
    [DBold; cut (picker_title kind); DReset;
     DMove 0 1; cut (lit "local: " ++ tui_safe (lossy (pk_current p)));
     DMove 0 2; cut (tui_safe (pk_status p));
     DMove 0 3; DPrint (replicate (Z.to_nat columns) (ch "-"))] ++
    body_rows picker_line columns (pk_selected p) 0 start (drop start (pk_entries p)) height ++
    [DMove 0 (rows - 1); DBold; cut picker_keys; DReset].
Definition render_picker (p : Picker) : tui unit :=
  (size ⇐ awaited (tu TSize); awaited (tu (TDraw (picker_frame size.1 size.2 p))))%prog.

(** *** The event loop *)
Definition picker_opened (current : str) (entries : list PickerEntry) : Picker :=
  mk_picker current entries 0 (dec_of (zlen entries) ++ lit " entries | " ++ picker_hint kind).
(** [load_entries], and the directory it is for. *)
Definition open_or (path : str) (failed : string) (p : Picker) : tui (Picker + str) :=
  (r ⇐ p_try (load_entries path);
   p_ret (inl (match r with Ok next => picker_opened path next | Err error => says (lit failed ++ lit error) p end)))%prog.
Definition stays (status : str) (p : Picker) : tui (Picker + str) := p_ret (inl (says status p)).

Definition prompt_jump_path (current : str) : tui (option str) :=
  (input ⇐ suspended (p_context "failed to read local picker path jump"
     (read_prompt_line (lit "local path [" ++ tui_safe (lossy current) ++ lit "] (empty cancels jump): ")));
   let input := trim input in
   p_ret (if bool_decide (input = []) then None
          else Some (if starts_with input [slash] then input else path_join current input)))%prog.

Definition picker_jump (p : Picker) : tui (Picker + str) :=
  (jump ⇐ prompt_jump_path (pk_current p);
   match jump with
   | None => stays (lit "local path jump cancelled") p
   | Some candidate =>
       r ⇐ p_try (classify_path candidate);
       match r with
       | Ok EntryDirectory => open_or candidate "cannot open local path: " p
       | Ok EntryFile =>
           match kind with
           | PickFile => p_ret (inr candidate)
           | PickDirectory => stays (lit "directory picker does not select regular files") p
           end
       | Ok EntryLinkLike => stays (lit "link/reparse-point paths are never followed by the picker") p
       | Ok EntryOther => stays (lit "unsupported local file type cannot be selected") p
       | Err error => stays (lit "cannot inspect local path: " ++ lit error) p
       end
   end)%prog.

(** The path is looked at again before it is picked. *)
Definition picker_take (path : str) (wanted : LocalEntryKind) (changed failed : string) (p : Picker) : tui (Picker + str) :=
  (r ⇐ p_try (classify_path path);
   match r with
   | Ok now => if bool_decide (now = wanted) then p_ret (inr path) else stays (lit changed ++ entry_kind_debug now ++ lit "; refusing") p
   | Err error => stays (lit failed ++ lit error) p
   end)%prog.

Definition picker_enter (p : Picker) : tui (Picker + str) :=
  match pk_entries p !! pk_selected p with
  | None => stays (lit "local directory is empty") p
  | Some entry =>
      match pe_kind entry, kind with
      | EntryDirectory, _ => open_or (pe_path entry) "cannot open local directory: " p
      | EntryFile, PickFile =>
          picker_take (pe_path entry) EntryFile "selected local path changed type to " "cannot revalidate local file: " p
      | EntryFile, PickDirectory => stays (lit "directory picker does not select regular files") p
      | EntryLinkLike, _ => stays (lit "link/reparse-point entries are display-only and are never followed") p
      | EntryOther, _ => stays (lit "unsupported local file type cannot be selected") p
      end
  end.

Definition picker_parent (p : Picker) : tui (Picker + str) :=
  match path_parent (pk_current p) with
  | None => stays (lit "already at local filesystem root; press p to jump to another path") p
  | Some parent => open_or parent "cannot open parent directory: " p
  end.
Definition picker_refresh (p : Picker) : tui (Picker + str) :=
  (r ⇐ p_try (load_entries (pk_current p));
   p_ret (inl (match r with
     | Ok next => mk_picker (pk_current p) next (Nat.min (pk_selected p) (length next - 1)) (lit "refreshed " ++ dec_of (zlen next) ++ lit " entries | " ++ picker_hint kind)
     | Err error => says (lit "local refresh failed: " ++ lit error) p
     end)))%prog.

Definition picker_press (k : KeyEvent) (p : Picker) : tui (Picker + str) :=
  let stay p := p_ret (inl p) in
  match key_code k with
  | KUp => stay (selects (pk_selected p - 1) p)
  | KDown => stay (if bool_decide (pk_selected p + 1 < length (pk_entries p))%nat then selects (pk_selected p + 1) p else p)
  | KHome => stay (selects 0 p)
  | KEnd => stay (selects (length (pk_entries p) - 1) p)
  | KPageUp => stay (selects (pk_selected p - 10) p)
  | KPageDown => stay (selects (Nat.min (pk_selected p + 10) (length (pk_entries p) - 1)) p)
  | KBackspace | KLeft => picker_parent p
  | KEnter | KRight => picker_enter p
  | KChar c =>
      if c =? ch "k" then stay (selects (pk_selected p - 1) p)
      else if c =? ch "j" then stay (if bool_decide (pk_selected p + 1 < length (pk_entries p))%nat then selects (pk_selected p + 1) p else p)
      else if c =? ch "r" then picker_refresh p
      else if c =? ch "p" then picker_jump p
      else if (c =? ch "s") && match kind with PickDirectory => true | PickFile => false end then
        picker_take (pk_current p) EntryDirectory "current local path changed type to " "cannot revalidate current directory: " p
      else stay p
  | KDelete | KEsc | KOther => stay p
  end.

Fixpoint pick_loop (rounds : nat) (p : Picker) : tui (option str) :=
  match rounds with
  | O => p_err "out of fuel"
  | S rounds =>
      (render_picker p ;;
       event ⇐ awaited (tu TEvent);
       match event with
       | None => pick_loop rounds p
       | Some key =>
           if bool_decide (key_kind key = KRelease) then pick_loop rounds p
           else if should_quit key then p_ret None
           else
             next ⇐ picker_press key p;
             match next with
             | inl p => pick_loop rounds p
             | inr path => p_ret (Some path)
             end
       end)%prog
  end.

Definition pick_local_path (rounds : nat) (start : str) : tui (option str) :=
  (current ⇐ normalize_start start;
   entries ⇐ load_entries current;
   session_enter ;;
   r ⇐ p_try (pick_loop rounds (picker_opened current entries));
   session_drop ;;
   Done r)%prog.
End picker.

(** ** What the picker may do *)
Definition wanted (kind : LocalPickKind) : FileKind := match kind with PickFile => KRegular | PickDirectory => KDirectory end.
Definition picker_valid (p : Picker) : Prop := pk_selected p = 0%nat ∨ (pk_selected p < length (pk_entries p))%nat.

Section discipline.
Context (kind : LocalPickKind) (lossy : str → str).

Definition picker_allowed (q : tui_request) (g : TuiWatch) : Prop :=
  match q with
  | TEnableRaw | TDisableRaw | TEnterAlt | TLeaveAlt | TActive | TSetActive _ | TSize | TCurrentDir | TLocalMeta _ => True
  | TDraw ops => on_screen g ∧ ∃ p, ops = picker_frame kind lossy (se_size (tu_seen g)).1 (se_size (tu_seen g)).2 p ∧ picker_valid p
  | TEvent => on_screen g
  | TReadLine prompt => put_aside g ∧ plain prompt
  | TReadDir path => ∃ m, se_local (tu_seen g) = Some (path, m) ∧ real KDirectory m
  | _ => False
  end.
Definition picker_monitor : monitor tui_interface TuiWatch := Monitor (E := tui_interface) picker_allowed tui_step.
Local Abbreviation M := picker_monitor.

(** ** Lemmas *)
Definition looked (path : str) (k : LocalEntryKind) (g : TuiWatch) : Prop := ∃ m, se_local (tu_seen g) = Some (path, m) ∧ kind_of m = k.
(** Only what was seen has changed. *)
Definition only_seen (g g' : TuiWatch) : Prop := ∃ k, g' = with_seen (λ _, k) g.
Lemma only_seen_refl g : only_seen g g.
Proof. exists (tu_seen g). by destruct g. Qed.
Lemma only_seen_trans g g' g'' : only_seen g g' → only_seen g' g'' → only_seen g g''.
Proof. intros [k ->] [k' ->]. by exists k'. Qed.

Lemma kind_of_real m : match kind_of m with EntryDirectory => real KDirectory m | EntryFile => real KRegular m | _ => True end.
Proof. unfold kind_of, local_is, real. by repeat (case_bool_decide; try done). Qed.

Lemma wp_classify path g : wp M (classify_path path) (λ r g', only_seen g g' ∧ match r with Ok k => looked path k g' | Err _ => True end) g.
Proof.
  unfold classify_path, tu, awaited. cbn [p_bind ask]. split; [done|].
  intros [m|e] g1 Hg; cbn [step picker_monitor tui_step] in Hg; subst g1; cbn [p_bind p_ret wp].
  - split; [by exists (seen_local path m (tu_seen g))|]. by exists m.
  - split; [apply only_seen_refl|done].
Qed.

Lemma wp_gather path names : ∀ seen entries g, wp M (gather_entries path seen names entries) (λ _ g', only_seen g g') g.
Proof.
  induction names as [|[name|e] names IH]; intros seen entries g; cbn [gather_entries p_bind]; [apply only_seen_refl| |apply only_seen_refl].
  case_bool_decide; [apply only_seen_refl|]. rewrite wp_bind, wp_context. eapply wp_mono; [apply wp_classify|]. cbv beta.
  intros [k|e] g1 [Hg1 _]; [|done]. eapply wp_mono; [apply IH|]. cbv beta. intros _ g2 Hg2. by eapply only_seen_trans.
Qed.

Lemma wp_load path g : wp M (load_entries path) (λ _ g', only_seen g g') g.
Proof.
  unfold load_entries. rewrite wp_bind. eapply wp_mono; [apply wp_classify|]. cbv beta. intros [k|e] g1 [Hg1 Hk]; [|done].
  destruct k; try done. destruct Hk as (m & Hm & Hkind). pose proof (kind_of_real m) as Hreal. rewrite Hkind in Hreal.
  unfold tu, awaited. cbn [p_bind ask]. split; [by exists m|]. intros [names|e] g2 ->; cbn [p_bind]; [|done].
  rewrite wp_bind. eapply wp_mono; [apply wp_gather|]. cbv beta. intros [entries|e] g2 Hg2; by eapply only_seen_trans.
Qed.

(** After a key: still picking, or picked what was asked for. *)
Definition stepped (r : result (Picker + str)) (g : TuiWatch) : Prop :=
  match r with
  | Ok next => ∃ k, g = at_rest k ∧ match next with inl p => picker_valid p | inr path => ∃ m, se_local k = Some (path, m) ∧ real (wanted kind) m end
  | Err e => calm e g
  end.
Lemma only_seen_rest k g : only_seen (at_rest k) g → ∃ k', g = at_rest k'.
Proof. intros [k' ->]. by exists k'. Qed.

Lemma wp_stays status p k : picker_valid p → wp M (stays status p) stepped (at_rest k).
Proof. intros Hp. by exists k. Qed.
Lemma wp_open path failed p k : picker_valid p → wp M (open_or kind path failed p) stepped (at_rest k).
Proof.
  intros Hp. unfold open_or. rewrite wp_bind, wp_try. eapply wp_mono; [apply wp_load|]. cbv beta.
  intros r g (k' & ->)%only_seen_rest. exists k'. split; [done|]. destruct r; [by left|done].
Qed.
Lemma wp_take path changed failed p k :
  picker_valid p → wp M (picker_take path (match kind with PickFile => EntryFile | PickDirectory => EntryDirectory end) changed failed p) stepped (at_rest k).
Proof.
  intros Hp. unfold picker_take. rewrite wp_bind, wp_try. eapply wp_mono; [apply wp_classify|]. cbv beta.
  intros [now|e] g [(k' & ->)%only_seen_rest Hnow]; [|by apply wp_stays]. case_bool_decide as Heq; [|by apply wp_stays].
  destruct Hnow as (m & Hm & Hk). exists k'. split; [done|]. exists m. split; [exact Hm|].
  pose proof (kind_of_real m) as Hreal. rewrite Hk, Heq in Hreal. by destruct kind.
Qed.

Lemma wp_jump p k : picker_valid p → wp M (picker_jump kind lossy p) stepped (at_rest k).
Proof.
  intros Hp. unfold picker_jump, prompt_jump_path. rewrite !wp_bind. apply (wp_suspended_under picker_allowed); [by intros []| |intros e g Hg; exact Hg].
  rewrite wp_context. unfold read_prompt_line, tu, awaited. cbn [p_bind ask]. split; [split; [by repeat split|auto 8 with plain]|].
  intros [line|e] g Hg; cbn [step tui_step] in Hg; subst g; cbn [p_bind p_ret in_context wp]; [|by eexists].
  eexists. split; [reflexivity|]. case_bool_decide; [by apply wp_stays|].
  match goal with |- context [classify_path ?c] => set (candidate := c) end.
  rewrite wp_bind, wp_try. eapply wp_mono; [apply wp_classify|]. cbv beta. intros [now|e] g [(k' & ->)%only_seen_rest Hnow]; [|by apply wp_stays].
  destruct now; [by apply wp_open| |by apply wp_stays..].
  assert (∃ m, se_local k' = Some (candidate, m) ∧ real KRegular m) as Hreal.
  { destruct Hnow as (m & Hm & Hk). exists m. split; [exact Hm|]. pose proof (kind_of_real m) as Hreal. by rewrite Hk in Hreal. }
  assert (∀ kd, kind = kd → wp M match kd with PickFile => p_ret (inr candidate)
    | PickDirectory => stays (lit "directory picker does not select regular files") p end stepped (at_rest k')) as H'; [|by apply H'].
  intros [] Hkind; [|by apply wp_stays]. exists k'. split; [done|]. by rewrite Hkind.
Qed.

Lemma wp_selects n p k : (n = 0 ∨ n < length (pk_entries p))%nat → wp M (p_ret (inl (selects n p))) stepped (at_rest k).
Proof. intros Hn. by exists k. Qed.

Lemma wp_picker_press key p k : picker_valid p → wp M (picker_press kind lossy key p) stepped (at_rest k).
Proof.
  intros Hp. assert (wp M (p_ret (inl p)) stepped (at_rest k)) as Hstay by by exists k.
  assert (wp M (p_ret (inl (selects (pk_selected p - 1) p))) stepped (at_rest k)) as Hup by (apply wp_selects; unfold picker_valid in Hp; lia).
  assert (wp M (p_ret (inl (if bool_decide (pk_selected p + 1 < length (pk_entries p))%nat then selects (pk_selected p + 1) p else p))) stepped (at_rest k)) as Hdown.
  { case_bool_decide; [apply wp_selects; lia|exact Hstay]. }
  assert (wp M (picker_parent kind p) stepped (at_rest k)) as Hparent.
  { unfold picker_parent. destruct (path_parent (pk_current p)); [by apply wp_open|by apply wp_stays]. }
  assert (wp M (picker_enter kind p) stepped (at_rest k)) as Henter.
  { unfold picker_enter. destruct (pk_entries p !! pk_selected p) as [e|]; [|by apply wp_stays].
    destruct (pe_kind e); [by apply wp_open| |by apply wp_stays..].
    assert (∀ kd, kind = kd → wp M match kd with
      | PickFile => picker_take (pe_path e) EntryFile "selected local path changed type to " "cannot revalidate local file: " p
      | PickDirectory => stays (lit "directory picker does not select regular files") p end stepped (at_rest k)) as H'; [|by apply H'].
    intros [] Hkind; [|by apply wp_stays]. pose proof (wp_take (pe_path e) "selected local path changed type to " "cannot revalidate local file: " p k Hp) as Ht.
    by rewrite Hkind in Ht. }
  unfold picker_press. cbv zeta. destruct (key_code key); try done.
  - by apply wp_selects; left.
  - apply wp_selects. destruct (pk_entries p); cbn; lia.
  - apply wp_selects. unfold picker_valid in Hp. lia.
  - apply wp_selects. destruct (pk_entries p); cbn; lia.
  - destruct (c =? ch "k"); [done|]. destruct (c =? ch "j"); [done|]. destruct (c =? ch "r").
    { unfold picker_refresh. rewrite wp_bind, wp_try. eapply wp_mono; [apply wp_load|]. cbv beta. intros r g (k' & ->)%only_seen_rest.
      exists k'. split; [done|]. destruct r as [next|e]; [|done]. unfold picker_valid. cbn. destruct next; cbn; lia. }
    destruct (c =? ch "p"); [by apply wp_jump|]. destruct (c =? ch "s"); cbn [andb]; [|done].
    assert (∀ kd, kind = kd → wp M (if match kd with PickDirectory => true | PickFile => false end
      then picker_take (pk_current p) EntryDirectory "current local path changed type to " "cannot revalidate current directory: " p else p_ret (inl p))
      stepped (at_rest k)) as H'; [|by apply H'].
    intros [] Hkind; [done|]. pose proof (wp_take (pk_current p) "current local path changed type to " "cannot revalidate current directory: " p k Hp) as Ht.
    by rewrite Hkind in Ht.
Qed.

Definition picked (r : result (option str)) (g : TuiWatch) : Prop :=
  match r with
  | Ok (Some path) => ∃ k, g = at_rest k ∧ ∃ m, se_local k = Some (path, m) ∧ real (wanted kind) m
  | Ok None => ∃ k, g = at_rest k
  | Err e => calm e g
  end.
Lemma wp_pick_loop rounds : ∀ p k, picker_valid p → wp M (pick_loop kind lossy rounds p) picked (at_rest k).
Proof.
  induction rounds as [|rounds IH]; intros p k Hp; [by apply calm_rest|]. cbn [pick_loop]. unfold render_picker, tu, awaited. cbn [p_bind ask].
  split; [done|]. intros [size|e] g Hg; cbn [step picker_monitor tui_step] in Hg; subst g; cbn [p_bind]; [|split; [by right|done]].
  split; [split; [done|]; by exists p|]. intros [[]|e] g Hg; cbn [step picker_monitor tui_step] in Hg; subst g; cbn [p_bind]; [|split; [by right|done]].
  set (k1 := seen_size size k). match goal with |- wp _ _ _ ?g => change g with (at_rest k1) end.
  split; [done|]. intros [[key|]|e] g ->; cbn [p_bind]; [|by apply IH|by apply calm_rest].
  case_bool_decide; [by apply IH|]. destruct (should_quit key); [by exists k1|]. rewrite wp_bind. eapply wp_mono; [by apply wp_picker_press|]. cbv beta.
  intros [[p'|path]|e] g; [..|done]; intros (k' & -> & Hn); [by apply IH|]. by exists k'.
Qed.
End discipline.

(** The picker's frames fit the terminal as the browser's do. *)
Lemma plain_picker_line lossy e : plain (picker_line lossy e).
Proof. unfold picker_line. destruct (pe_kind e); cbn [entry_marker]; auto with plain. Qed.
Lemma picker_frame_lines kind lossy columns rows p :
  48 ≤ columns → 8 ≤ rows →
  let cut text := truncate_cells text columns in
  let height := Z.to_nat (rows - 5) in
  let start := window_start (pk_selected p) height in
  shown 0 false (picker_frame kind lossy columns rows p) =
    [(0, false, cut (picker_title kind)); (1, false, cut (lit "local: " ++ tui_safe (lossy (pk_current p))));
     (2, false, cut (tui_safe (pk_status p))); (3, false, replicate (Z.to_nat columns) (ch "-"))] ++
    imap (row_of (picker_line lossy) columns (pk_selected p) start) (take height (drop start (pk_entries p))) ++
    [(rows - 1, false, cut (picker_keys kind))].
Proof.
  intros Hc Hr. cbv zeta. unfold picker_frame. rewrite (proj2 (Z.ltb_ge columns 48)), (proj2 (Z.ltb_ge rows 8)) by done. cbn [orb]. cbv zeta.
  rewrite <- !app_comm_cons. cbn [shown app]. do 4 f_equal.
  match goal with |- context [body_rows ?l ?w ?sel ?row ?index ?es ?h ++ ?rest] => destruct (shown_body l w sel h row index es rest 3) as [r' ->] end.
  f_equal.
Qed.
Lemma picker_frame_fits kind lossy columns rows p :
  48 ≤ columns → 8 ≤ rows →
  let lines := shown 0 false (picker_frame kind lossy columns rows p) in
  Forall (line_ok columns rows) lines ∧ StronglySorted Z.lt lines.*1.*1 ∧
  (∀ entry, pk_entries p !! pk_selected p = Some entry →
     ∃ row, filter (λ l, l.1.2 = true) lines = [(row, true, truncate_cells (picker_line lossy entry) columns)]).
Proof.
  intros Hc Hr. cbv zeta. rewrite picker_frame_lines by done. set (height := Z.to_nat (rows - 5)). set (start := window_start (pk_selected p) height).
  assert (∀ row text, 0 ≤ row < rows → plain text → line_ok columns rows (row, false, truncate_cells text columns)) as Hcut.
  { intros row text Hrow Ht. split; [done|]. split; [apply truncate_fits; lia|by apply plain_truncate]. }
  edestruct (framed_fits (picker_line lossy) columns rows) as (H1 & H2 & H3); cycle -1; [split_and!; [exact H1|exact H2|]|..]; try done; try lia.
  - intros entry Hentry. apply H3; [|exact Hentry]. apply (window_shows _ _ (length (pk_entries p))); [lia|]. by apply lookup_lt_Some in Hentry.
  - apply plain_picker_line.
  - repeat constructor; cbn; lia.
  - repeat (constructor; [cbn; lia|]). constructor.
  - apply Forall_app; split; repeat (apply Forall_cons; split); try done.
    + apply Hcut; [lia|]. destruct kind; cbn [picker_title]; auto with plain.
    + apply Hcut; [lia|auto with plain].
    + apply Hcut; [lia|auto with plain].
    + split; [cbn; lia|]. change (display_cells (replicate (Z.to_nat columns) (ch "-")) ≤ columns ∧ plain (replicate (Z.to_nat columns) (ch "-"))).
      rewrite display_replicate by done. split; [lia|auto with plain].
    + apply Hcut; [lia|]. destruct kind; cbn [picker_keys]; (apply plain_app; [auto with plain|]; apply plain_app; [by repeat constructor|auto with plain]).
  - apply Forall_app; split; by repeat constructor.
Qed.

(** ** Theorems *)

(** The local picker, whatever is typed, listed or found on the disk: what it returns is of the kind
    that was asked for, a regular file or a directory and never a link, by the last look that was taken
    at that very path; a directory is read only just after it was found to be a directory and not a
    link; nothing else is asked for; questions hold no control character and are asked beside its
    screen; its frames are drawn with a valid selection; and the terminal is left as it was. *)
Theorem picker_picks_real_files kind lossy rounds start k :
  wp (picker_monitor kind lossy) (pick_local_path kind lossy rounds start)
    (λ r g, (∀ path, r = Ok (Some path) → ∃ m, se_local (tu_seen g) = Some (path, m) ∧ real (wanted kind) m) ∧
       (tw_trouble (tu_term g) = false → tw_raw (tu_term g) = false ∧ tw_alt (tu_term g) = false))
    (aside k).
Proof.
  set (Q := λ (r : result (option str)) (g : TuiWatch), _ ∧ _).
  assert (∀ e k, Q (Err e) (aside k)) as Hfail by done.
  assert (∀ k g, only_seen (aside k) g → ∃ k', g = aside k') as Hseen by (intros k0 g [k' ->]; by exists k').
  unfold pick_local_path. rewrite wp_bind. unfold normalize_start. rewrite wp_bind.
  eapply (wp_mono _ _ (λ r g, ∃ k', g = aside k')).
  { case_bool_decide; [|by exists k]. unfold tu, awaited. cbn [p_bind ask]. split; [done|]. intros [path|e] g ->; by exists k. }
  cbv beta. intros [path|e] g (k1 & ->); [|done]. rewrite wp_bind. eapply wp_mono; [apply wp_classify|]. cbv beta.
  intros [now|e] g [(k2 & ->)%Hseen _]; [|done]. destruct now; try done. cbn [wp p_ret].
  rewrite wp_bind. eapply wp_mono; [apply wp_load|]. cbv beta. intros [entries|e] g (k3 & ->)%Hseen; [|done].
  unfold session_enter, tu, awaited. cbn [p_bind ask]. split; [done|].
  intros [[]|e] g Hg; cbn [step picker_monitor tui_step] in Hg; subst g; cbn [p_bind]; [|done]. split; [done|].
  intros [[]|e] g Hg; cbn [step picker_monitor tui_step] in Hg; subst g; cbn [p_bind ask].
  2:{ split; [done|]. by intros [[]|e'] g Hg; cbn [step picker_monitor tui_step] in Hg; subst g. }
  split; [done|]. intros [] g Hg; cbn [step picker_monitor tui_step] in Hg; subst g. cbn [p_bind p_try].
  match goal with |- wp _ _ _ ?g => change g with (at_rest k3) end. cbn [p_ret p_bind wp]. rewrite wp_bind, wp_try.
  eapply wp_mono; [apply wp_pick_loop; by left|]. cbv beta. intros r g Hr.
  assert (calm (match r with Ok _ => EmptyString | Err e => e end) g ∧ ∀ path, r = Ok (Some path) → ∃ m, se_local (tu_seen g) = Some (path, m) ∧ real (wanted kind) m) as [[Hcalm _] Hpicked].
  { destruct r as [[picked_path|]|e].
    - destruct Hr as (k' & -> & Hm). split; [apply calm_rest|]. by intros ? [= <-].
    - destruct Hr as (k' & ->). by split; [apply calm_rest|].
    - by split. }
  unfold session_drop, tu. cbn [p_bind ask]. split; [done|]. intros active g1 Hg1; cbn [step picker_monitor tui_step] in Hg1. destruct Hg1 as [-> ->]. cbn [p_bind].
  destruct (tw_active (tu_term g)) eqn:Hact; cbn [p_bind ask].
  - split; [done|]. intros left g1 Hg1; cbn [step picker_monitor tui_step] in Hg1; subst g1. cbn [p_bind]. split; [done|].
    intros disabled g1 Hg1; cbn [step picker_monitor tui_step] in Hg1; subst g1. cbn [p_bind wp].
    destruct left as [[]|e], disabled as [[]|e']; (split; [exact Hpicked|done]).
  - cbn [wp]. split; [exact Hpicked|]. intros Ht. destruct Hcalm as [Hc|[-> ->]]; [congruence|]. done.
Qed.
