(* ===== verification/Float32.v ===== *)
(** * Single-precision numbers ([f32])

    The part of Rust's [f32] that the metrics of a host are computed with: parsing a
    decimal (rounded to the nearest, ties to even), conversion from an integer,
    division, multiplication, [is_finite] and [clamp], over the Standard Library's
    specification of IEEE 754.  Theorems: what is a number stays one, and a clamped
    number is within its bounds. *)

From stdpp Require Import base list gmap strings numbers sorting.
From Stdlib Require Import Lia SpecFloat.
From S2P Require Import Prelude RustStr StrFacts.

(** ** Definitions *)
Abbreviation f32 := spec_float.
Definition f32_prec : Z := 24.
Definition f32_emax : Z := 128.

Definition f32_of_int (n : Z) : f32 := binary_normalize f32_prec f32_emax n 0 false.
Definition f32_div : f32 → f32 → f32 := SFdiv f32_prec f32_emax.
Definition f32_mul : f32 → f32 → f32 := SFmul f32_prec f32_emax.
Definition f32_lt : f32 → f32 → bool := SFltb.
Definition f32_le : f32 → f32 → bool := SFleb.
Definition is_finite (x : f32) : bool := match x with S754_zero _ | S754_finite _ _ _ => true | _ => false end.
Definition f32_clamp (low high x : f32) : f32 :=
  let x := if f32_lt x low then low else x in
  if f32_lt high x then high else x.
Definition f32_zero : f32 := S754_zero false.
Definition f32_hundred : f32 := f32_of_int 100.
#[global] Arguments f32_of_int : simpl never.
#[global] Arguments f32_hundred : simpl never.

(** The number [mantissa * 10 ^ exponent], rounded once. *)
Definition f32_decimal (negative : bool) (mantissa exponent : Z) : f32 :=
  match mantissa with
  | Z.pos m =>
      if 0 <=? exponent then binary_round f32_prec f32_emax negative (m * Z.to_pos (10 ^ exponent)) 0
      else
        let '(q, e, l) := SFdiv_core_binary f32_prec f32_emax (Z.pos m) 0 (10 ^ (- exponent)) 0 in
        binary_round_aux f32_prec f32_emax negative q e l
  | _ => S754_zero negative
  end.

Definition take_sign (s : str) : bool * str :=
  match s with
  | c :: rest => if c =? ch "-" then (true, rest) else if c =? ch "+" then (false, rest) else (false, s)
  | [] => (false, s)
  end.
Definition digits_value (s : str) : option Z :=
  if bool_decide (s = []) || negb (forallb is_ascii_digit s) then None else Some (dec_value 0 s).

(** What may follow the digits: an exponent, or nothing. *)
Definition parse_exponent (s : str) : option Z :=
  match s with
  | [] => Some 0
  | c :: rest =>
      if to_ascii_lowercase_char c =? ch "e" then
        let '(negative, digits) := take_sign rest in
        (λ n, if negative then - n else n) <$> digits_value digits
      else None
  end.
Definition after_point (s : str) : str * str :=
  match s with
  | c :: rest => if c =? ch "." then (take_while is_ascii_digit rest, drop_while is_ascii_digit rest) else ([], s)
  | [] => ([], [])
  end.

(** [str::parse::<f32>] *)
Definition parse_f32 (s : str) : option f32 :=
  let '(negative, s) := take_sign s in
  let name := to_ascii_lowercase s in
  if bool_decide (name = lit "inf") || bool_decide (name = lit "infinity") then Some (S754_infinity negative)
  else if bool_decide (name = lit "nan") then Some S754_nan
  else
    let whole := take_while is_ascii_digit s in
    let '(fraction, rest) := after_point (drop_while is_ascii_digit s) in
    if bool_decide (whole = []) && bool_decide (fraction = []) then None
    else
      (λ exponent, f32_decimal negative (dec_value 0 (whole ++ fraction)) (exponent - zlen fraction)) <$> parse_exponent rest.

(** ** Proofs *)

(** What [clamp(0.0, 100.0)] is for. *)
Definition is_percentage (x : f32) : Prop := f32_le f32_zero x = true ∧ f32_le x f32_hundred = true.

Lemma shr_1_half r : 0 ≤ shr_m r → shr_m (shr_1 r) = shr_m r / 2.
Proof.
  destruct r as [[|[p|p|]|[p|p|]] round sticky]; cbn; intros Hr; try done; try lia.
  - rewrite Pos2Z.inj_xI. apply (Z.div_unique _ _ _ 1); lia.
  - rewrite Pos2Z.inj_xO. apply (Z.div_unique _ _ _ 0); lia.
Qed.

Lemma shr_halves p r : 0 ≤ shr_m r → shr_m (SpecFloat.iter_pos shr_1 p r) = shr_m r / 2 ^ Z.pos p.
Proof.
  assert (∀ m q, 0 ≤ m → 0 ≤ m / 2 ^ Z.pos q) as Hpow by (intros; apply Z.div_pos; [done|]; by apply Z.pow_pos_nonneg).
  assert (∀ m n k, 0 ≤ m → 0 < n → 0 < k → m / n / k = m / (n * k)) as Hdiv by (intros; apply Z.div_div; lia).
  assert (∀ q, 0 < 2 ^ Z.pos q) as Hq by (intros; by apply Z.pow_pos_nonneg).
  revert r. induction p as [p IH|p IH|]; cbn [SpecFloat.iter_pos]; intros r Hr.
  - assert (0 ≤ shr_m (shr_1 r)) as H1 by (rewrite shr_1_half by done; apply Z.div_pos; lia).
    rewrite (IH (SpecFloat.iter_pos shr_1 p (shr_1 r))), (IH (shr_1 r)) by (rewrite ?IH; auto).
    rewrite shr_1_half by done. rewrite (Hdiv _ 2), Hdiv by auto with lia.
    rewrite (Pos2Z.inj_xI p), (Z.pow_add_r 2 (2 * Z.pos p) 1), (Z.pow_twice_r 2) by lia. f_equal. lia.
  - rewrite (IH (SpecFloat.iter_pos shr_1 p r)), (IH r) by (rewrite ?IH; auto).
    rewrite Hdiv by auto. by rewrite (Pos2Z.inj_xO p), (Z.pow_twice_r 2).
  - rewrite shr_1_half by done. by rewrite Z.pow_1_r.
Qed.

Lemma digits_log2 m : 0 < m → Zdigits2 m = Z.log2 m + 1.
Proof.
  destruct m as [|p|p]; [lia| |lia]. intros _. cbn [Zdigits2].
  induction p as [p IH|p IH|]; cbn [digits2_pos]; rewrite ?Pos2Z.inj_succ, ?IH; [..|done].
  - rewrite Pos2Z.inj_xI, <- Z.add_1_r, Z.log2_succ_double; lia.
  - rewrite Pos2Z.inj_xO, Z.log2_double; lia.
Qed.

Definition shift_of (m e : Z) : Z := Z.max 0 (fexp f32_prec f32_emax (Zdigits2 m + e) - e).

Lemma shr_fexp_mantissa m e l : 0 ≤ m → shr_m (shr_fexp f32_prec f32_emax m e l).1 = m / 2 ^ shift_of m e.
Proof.
  intros Hm. assert (shr_m (shr_record_of_loc m l) = m) as Hl by (by destruct l as [|[]]).
  unfold shr_fexp, shr, shift_of. destruct (_ - e) as [|p|p] eqn:Hp; cbn [fst].
  - by rewrite Hl, Z.div_1_r.
  - rewrite shr_halves by (by rewrite Hl). by rewrite Hl, Z.max_r by lia.
  - rewrite Hl, Z.max_l by lia. by rewrite Z.div_1_r.
Qed.

Lemma round_nearest_nonneg m l : 0 ≤ m → m ≤ round_nearest_even m l.
Proof. destruct l as [|[]]; cbn; try lia. destruct (Z.even m); lia. Qed.

(** Rounding gives a number, and not zero when it does not underflow. *)
Lemma rounded_number s m e l : 0 ≤ m → binary_round_aux f32_prec f32_emax s m e l ≠ S754_nan.
Proof.
  intros Hm. unfold binary_round_aux. pose proof (shr_fexp_mantissa m e l Hm) as H1.
  destruct (shr_fexp f32_prec f32_emax m e l) as [r e1]. cbn [fst] in H1.
  assert (0 ≤ shr_m r) as Hr by (rewrite H1; apply Z.div_pos; [done|]; apply Z.pow_pos_nonneg; unfold shift_of; lia).
  pose proof (round_nearest_nonneg (shr_m r) (loc_of_shr_record r) Hr) as H2. set (m2 := round_nearest_even _ _) in *.
  pose proof (shr_fexp_mantissa m2 e1 loc_Exact ltac:(lia)) as H3.
  destruct (shr_fexp f32_prec f32_emax m2 e1 loc_Exact) as [r2 e2]. cbn [fst] in H3.
  assert (0 ≤ shr_m r2) as Hr2 by (rewrite H3; apply Z.div_pos; [lia|]; apply Z.pow_pos_nonneg; unfold shift_of; lia).
  destruct (shr_m r2) as [|p|p]; [done| |lia]. by destruct (e2 <=? _).
Qed.

Lemma halves_positive m e : 0 < m → -149 < Zdigits2 m + e → 0 < m / 2 ^ shift_of m e.
Proof.
  intros Hm He. apply Z.div_str_pos. split; [apply Z.pow_pos_nonneg; unfold shift_of; lia|].
  pose proof (Z.log2_spec m Hm) as [Hlow _]. etransitivity; [|exact Hlow].
  apply Z.pow_le_mono_r; [lia|]. pose proof (Z.log2_nonneg m). rewrite digits_log2 in He by done.
  unfold shift_of, fexp, emin, f32_prec, f32_emax. rewrite digits_log2 by done. lia.
Qed.

Lemma shr_exponent m e l : (shr_fexp f32_prec f32_emax m e l).2 = e + shift_of m e.
Proof. unfold shr_fexp, shr, shift_of. destruct (_ - e) as [|p|p]; cbn [snd]; lia. Qed.

Lemma rounded_positive s m e : 0 < m → -149 < Zdigits2 m + e →
  ∀ z, binary_round_aux f32_prec f32_emax s m e loc_Exact ≠ S754_zero z.
Proof.
  intros Hm He z. pose proof (halves_positive m e Hm He) as Hr. unfold binary_round_aux.
  pose proof (shr_fexp_mantissa m e loc_Exact ltac:(lia)) as H1. pose proof (shr_exponent m e loc_Exact) as E1.
  destruct (shr_fexp f32_prec f32_emax m e loc_Exact) as [r e1]. cbn [fst snd] in H1, E1. rewrite <- H1 in Hr.
  pose proof (round_nearest_nonneg (shr_m r) (loc_of_shr_record r) ltac:(lia)) as H2. set (m2 := round_nearest_even _ _) in *.
  assert (-149 < Zdigits2 m2 + e1) as He2.
  { rewrite (digits_log2 m) in He by lia. rewrite (digits_log2 m2) by lia. subst e1.
    assert (Z.log2 (shr_m r) ≤ Z.log2 m2) as Hl by (apply Z.log2_le_mono; lia).
    assert (Z.log2 m ≤ Z.log2 (shr_m r) + shift_of m e); [|lia].
    rewrite H1, <- Z.shiftr_div_pow2, Z.log2_shiftr by (unfold shift_of; lia). lia. }
  pose proof (halves_positive m2 e1 ltac:(lia) He2) as Hr2. pose proof (shr_fexp_mantissa m2 e1 loc_Exact ltac:(lia)) as H3.
  destruct (shr_fexp f32_prec f32_emax m2 e1 loc_Exact) as [r2 e2]. cbn [fst] in H3.
  rewrite <- H3 in Hr2. destruct (shr_m r2) as [|p|p]; [lia| |lia]. by destruct (e2 <=? _).
Qed.

Lemma shifted_bounded m e k : 0 < m → Zdigits2 m ≤ k → -149 ≤ e → 24 ≤ k → shift_of m e ≤ k - 24.
Proof. intros Hm Hk He Hk24. unfold shift_of, fexp, emin, f32_prec, f32_emax. lia. Qed.

Lemma rounded_finite s m e :
  0 < m → Zdigits2 m ≤ 64 → -149 ≤ e ≤ 0 → is_finite (binary_round_aux f32_prec f32_emax s m e loc_Exact) = true.
Proof.
  intros Hm Hd He. unfold binary_round_aux.
  pose proof (shr_fexp_mantissa m e loc_Exact ltac:(lia)) as H1. pose proof (shr_exponent m e loc_Exact) as E1.
  pose proof (shifted_bounded m e 64 Hm Hd ltac:(lia) ltac:(lia)) as Hs1. assert (0 ≤ shift_of m e) as Hs0 by (unfold shift_of; lia).
  destruct (shr_fexp f32_prec f32_emax m e loc_Exact) as [r e1]. cbn [fst snd] in H1, E1.
  assert (0 ≤ shr_m r ≤ m) as Hr.
  { rewrite H1. split; [apply Z.div_pos; [lia|]; by apply Z.pow_pos_nonneg|]. apply Z.div_le_upper_bound; [by apply Z.pow_pos_nonneg|].
    assert (0 < 2 ^ shift_of m e) by (by apply Z.pow_pos_nonneg). nia. }
  pose proof (round_nearest_nonneg (shr_m r) (loc_of_shr_record r) ltac:(lia)) as H2.
  assert (round_nearest_even (shr_m r) (loc_of_shr_record r) ≤ m + 1) as H3.
  { destruct (loc_of_shr_record r) as [|[]]; cbn; try lia. destruct (Z.even (shr_m r)); lia. }
  set (m2 := round_nearest_even _ _) in *. pose proof (shr_exponent m2 e1 loc_Exact) as E2.
  pose proof (shr_fexp_mantissa m2 e1 loc_Exact ltac:(lia)) as H4.
  assert (0 ≤ shift_of m2 e1 ≤ 41) as Hs2.
  { split; [unfold shift_of; lia|]. destruct (decide (m2 = 0)) as [->|Hm2]; [unfold shift_of, fexp, emin, f32_prec, f32_emax; cbn; lia|].
    apply (shifted_bounded m2 e1 65); [lia| |lia|lia]. rewrite digits_log2 in * by lia.
    assert (Z.log2 m2 ≤ Z.log2 (m + 1)) by (apply Z.log2_le_mono; lia). pose proof (Z.log2_succ_le m). rewrite <- Z.add_1_r in *. lia. }
  destruct (shr_fexp f32_prec f32_emax m2 e1 loc_Exact) as [r2 e2]. cbn [fst snd] in H4, E2.
  assert (0 ≤ shr_m r2) as Hr2 by (rewrite H4; apply Z.div_pos; [lia|]; apply Z.pow_pos_nonneg; lia).
  destruct (shr_m r2) as [|p|p]; [done| |lia]. rewrite (proj2 (Z.leb_le _ _)); [done|]. unfold f32_prec, f32_emax. lia.
Qed.

Lemma aligned_digits p d : Z.pos (digits2_pos (Pos.iter xO p d)) = Z.pos (digits2_pos p) + Z.pos d.
Proof.
  induction d as [|d IH] using Pos.peano_ind; [cbn; lia|].
  rewrite Pos.iter_succ. cbn [digits2_pos]. rewrite Pos2Z.inj_succ, IH. lia.
Qed.

(** A machine integer is a finite number, and zero only when it is. *)
Definition positive_number (x : f32) : Prop := ∃ m e, x = S754_finite false m e.
Lemma of_int_positive n : 0 < n → n ≤ u64_max → positive_number (f32_of_int n).
Proof.
  intros Hn Hmax. destruct n as [|p|p]; [lia| |lia]. unfold f32_of_int, binary_normalize, binary_round.
  assert (Zdigits2 (Z.pos p) ≤ 64) as Hd.
  { rewrite digits_log2 by lia. assert (Z.log2 (Z.pos p) ≤ Z.log2 u64_max) as Hl by (by apply Z.log2_le_mono). change (Z.log2 u64_max) with 63 in Hl. lia. }
  cbn [Zdigits2] in Hd. pose proof (Pos2Z.is_pos (digits2_pos p)) as Hpos.
  set (target := fexp f32_prec f32_emax (Z.pos (digits2_pos p) + 0)).
  assert (target = Z.max (Z.pos (digits2_pos p) - 24) (-149)) as Ht by (unfold target, fexp, emin, f32_prec, f32_emax; lia).
  assert (∃ q e, shl_align p 0 target = (q, e) ∧ Z.pos (digits2_pos q) + e = Z.pos (digits2_pos p) ∧ Z.pos (digits2_pos q) ≤ 64 ∧ -149 ≤ e ≤ 0) as
    (q & e & -> & Hsum & Hq & He).
  { unfold shl_align. rewrite Z.sub_0_r. destruct target as [|t|t] eqn:Htarget.
    - eexists _, _. split; [done|]. lia.
    - eexists _, _. split; [done|]. lia.
    - eexists _, _. split; [done|]. rewrite aligned_digits. lia. }
  pose proof (rounded_finite false (Z.pos q) e ltac:(lia) Hq He) as Hfin.
  pose proof (rounded_positive false (Z.pos q) e ltac:(lia) ltac:(cbn [Zdigits2]; lia)) as Hnz.
  assert (∀ z m e', binary_round_aux f32_prec f32_emax false (Z.pos q) e loc_Exact = S754_finite z m e' → z = false) as Hsign.
  { intros z m e'. unfold binary_round_aux. destruct (shr_fexp _ _ (Z.pos q) e loc_Exact) as [r e1].
    destruct (shr_fexp _ _ _ e1 loc_Exact) as [r2 e2]. destruct (shr_m r2); try done. by destruct (e2 <=? _); intros [=]. }
  destruct (binary_round_aux _ _ _ _ _ _) as [z|z| |z m e']; try done; [by destruct (Hnz z)|].
  rewrite (Hsign z m e' eq_refl). by eexists _, _.
Qed.

(** *** Order and [clamp] *)
Lemma f32_compare_antisym x y : SFcompare y x = CompOpp <$> SFcompare x y.
Proof.
  destruct x as [s|[]| |[] m e], y as [s'|[]| |[] m' e']; cbn; try done; f_equal;
    rewrite (Z.compare_antisym e e'); destruct (e ?= e'); cbn; try done; rewrite (Pos.compare_cont_antisym _ _ Eq); cbn; try done;
    by rewrite CompOpp_involutive.
Qed.
Lemma f32_compare_some x y : x ≠ S754_nan → y ≠ S754_nan → is_Some (SFcompare x y).
Proof. destruct x, y; cbn; intros; try done; by eexists. Qed.

(** Of two numbers, one is at most the other. *)
Lemma f32_not_lt x y : x ≠ S754_nan → y ≠ S754_nan → f32_lt x y = false → f32_le y x = true.
Proof.
  intros Hx Hy. unfold f32_lt, f32_le, SFltb, SFleb. rewrite (f32_compare_antisym x y).
  destruct (f32_compare_some x y Hx Hy) as [c ->]. by destruct c.
Qed.

Lemma clamp_percentage x : x ≠ S754_nan → is_percentage (f32_clamp f32_zero f32_hundred x).
Proof.
  intros Hx. unfold f32_clamp, is_percentage. destruct (f32_lt x f32_zero) eqn:Hlow; [by vm_compute|].
  destruct (f32_lt f32_hundred x) eqn:Hhigh; [by vm_compute|].
  split; apply f32_not_lt; try done; by vm_compute.
Qed.

(** *** What is a number *)
Lemma finite_number x : is_finite x = true → x ≠ S754_nan.
Proof. by destruct x. Qed.
Lemma positive_finite x : positive_number x → is_finite x = true.
Proof. by intros (m & e & ->). Qed.
Lemma of_int_finite n : 0 ≤ n ≤ u64_max → is_finite (f32_of_int n) = true.
Proof. intros [[Hn|<-]%Zle_lt_or_eq Hmax]; [by apply positive_finite, of_int_positive|done]. Qed.

Lemma div_number x y : is_finite x = true → positive_number y → f32_div x y ≠ S754_nan.
Proof.
  intros Hx (m & e & ->). destruct x as [s|s| |s n k]; try done. unfold f32_div, SFdiv, SFdiv_core_binary.
  set (e' := Z.min _ _). destruct (Z.div_eucl _ (Z.pos m)) as [q r] eqn:Hq. apply rounded_number.
  pose proof (f_equal fst Hq) as Hq'. cbn in Hq'. subst q. change (0 ≤ fst (Z.div_eucl ?a ?b)) with (0 ≤ a / b).
  apply Z.div_pos; [|done]. destruct (k - e - e') as [|p|p]; [done| |done]. by apply Z.shiftl_nonneg.
Qed.
Lemma mul_number x y : x ≠ S754_nan → positive_number y → f32_mul x y ≠ S754_nan.
Proof. intros Hx (m & e & ->). destruct x as [s|s| |s n k]; try done. by apply rounded_number. Qed.

(** [(x / y * 100.0).clamp(0.0, 100.0)] *)
Definition percent_of (x y : f32) : f32 := f32_clamp f32_zero f32_hundred (f32_mul (f32_div x y) f32_hundred).
Lemma percent_of_bounded x y : is_finite x = true → positive_number y → is_percentage (percent_of x y).
Proof.
  intros Hx Hy. apply clamp_percentage, mul_number; [by apply div_number|].
  by apply of_int_positive.
Qed.

Module Examples.
Example tenth : parse_f32 (lit "0.1") = Some (S754_finite false 13421773 (-27)).
Proof. vm_compute. reflexivity. Qed.
Example ties_to_even : parse_f32 (lit "16777217") = Some (f32_of_int 16777216).
Proof. vm_compute. reflexivity. Qed.
Example forms :
  parse_f32 (lit "25.") = Some (f32_of_int 25) ∧ parse_f32 (lit "+.5E1") = Some (f32_of_int 5) ∧
  parse_f32 (lit "-Infinity") = Some (S754_infinity true) ∧ parse_f32 (lit ".") = None ∧ parse_f32 (lit "1e") = None ∧
  parse_f32 (lit "1e39") = Some (S754_infinity false) ∧ parse_f32 (lit "1e-46") = Some (S754_zero false).
Proof. vm_compute. split_and!; reflexivity. Qed.
Example third : f32_mul (f32_div (f32_of_int 1) (f32_of_int 3)) f32_hundred = f32_decimal false 333333340 (-7).
Proof. vm_compute. reflexivity. Qed.
End Examples.
