(* ===== verification/RemoteInfo.v ===== *)
(** * What a host tells about itself ([info.rs] of the desktop, the probes of the MCP server)

    The read-only probes print lines of [key=value]; the desktop and the MCP server read
    them and compute what they show.  Both parsers, the desktop's conversion to what its
    interface gets, its snapshot of its own machine (the library that measures it is a
    parameter), and the buffer that caps what a probe may write.  Theorems: no output of a
    host yields a share outside 0 to 100, more memory used than there is, or a number that
    does not fit its type. *)

From stdpp Require Import base list gmap strings numbers sorting.
From Stdlib Require Import Lia SpecFloat.
From S2P Require Import Prelude RustStr StrFacts HostModel RemoteFs Config Exec Float32.

(** ** Definitions *)

(** A literal of the source that is not ASCII. *)
Definition text (s : string) : str := default [] (from_utf8 (lit s)).

(** *** [CappedWriter] *)
Record CappedWriter := mk_capped_writer { cw_bytes : list Z; cw_truncated : bool }.
Definition capped_empty : CappedWriter := mk_capped_writer [] false.
(** [poll_write]: everything counts as written. *)
Definition poll_write (capacity : Z) (w : CappedWriter) (buffer : list Z) : CappedWriter :=
  let remaining := Z.max 0 (capacity - zlen (cw_bytes w)) in
  let accepted := Z.min remaining (zlen buffer) in
  mk_capped_writer (cw_bytes w ++ take (Z.to_nat accepted) buffer) (cw_truncated w || (accepted <? zlen buffer)).

(** [stderr_tail]: the last 500 bytes, from a character on; [decode] is the platform's. *)
Fixpoint next_boundary (fuel : nat) (s : str) (start : Z) : Z :=
  match fuel with
  | O => start
  | S fuel => if is_char_boundary s start then start else next_boundary fuel s (start + 1)
  end.
Definition stderr_tail (decode : list Z → str) (stderr : list Z) : str :=
  let trimmed := trim (decode stderr) in
  if str_len trimmed <=? 500 then trimmed
  else
    let start := next_boundary 4 trimmed (str_len trimmed - 500) in
    8230 :: match split_at_byte trimmed start with Some (_, tail) => tail | None => [] end.

(** *** The values of a probe *)
Definition trim_end_matches (c : char) (s : str) : str := reverse (drop_while (Z.eqb c) (reverse s)).
Definition parse_metric_u64 (value : str) : option Z := parse_uint u64_max (trim_end_matches (ch ",") (trim value)).
Definition parse_metric_f32 (value : str) : option f32 :=
  let value := trim_end_matches (ch ",") (trim_end_matches (ch "%") (trim value)) in
  match parse_f32 value with
  | Some value => if is_finite value then Some value else None
  | None => None
  end.
Definition parse_metric_u64_triplet (value : str) : option (Z * Z * Z) :=
  match omap parse_metric_u64 (split_whitespace value) with
  | a :: b :: c :: _ => Some (a, b, c)
  | _ => None
  end.
Definition parse_metric_u64_pair (value : str) : option (Z * Z) :=
  match omap parse_metric_u64 (split_whitespace value) with
  | a :: b :: _ => Some (a, b)
  | _ => None
  end.
Definition parse_metric_f32_triplet (value : str) : option f32 * option f32 * option f32 :=
  let values := split_whitespace value in
  (values !! 0%nat ≫= parse_metric_f32, values !! 1%nat ≫= parse_metric_f32, values !! 2%nat ≫= parse_metric_f32).

(** *** Basic information *)
Record ParsedBasicInfo := mk_basic_info {
  bi_hostname : str; bi_platform : str; bi_username : str; bi_uptime : str; bi_addresses : list str }.
Definition basic_info_default : ParsedBasicInfo := mk_basic_info [] [] [] [] [].
Definition set_bi_hostname v i := mk_basic_info v (bi_platform i) (bi_username i) (bi_uptime i) (bi_addresses i).
Definition set_bi_platform v i := mk_basic_info (bi_hostname i) v (bi_username i) (bi_uptime i) (bi_addresses i).
Definition set_bi_username v i := mk_basic_info (bi_hostname i) (bi_platform i) v (bi_uptime i) (bi_addresses i).
Definition set_bi_uptime v i := mk_basic_info (bi_hostname i) (bi_platform i) (bi_username i) v (bi_addresses i).
Definition set_bi_addresses v i := mk_basic_info (bi_hostname i) (bi_platform i) (bi_username i) (bi_uptime i) v.

Definition BASIC_INFO_MARKER : str := lit "__KADUOX_BASIC_INFO_V1__".
Definition SYSTEM_METRICS_MARKER : str := lit "__KADUOX_SYSTEM_METRICS_V1__".

Definition basic_info_line (info : ParsedBasicInfo) (line : str) : ParsedBasicInfo :=
  match strip_prefix (lit "hostname=") line with Some value => set_bi_hostname (trim value) info | None =>
  match strip_prefix (lit "platform=") line with Some value => set_bi_platform (trim value) info | None =>
  match strip_prefix (lit "username=") line with Some value => set_bi_username (trim value) info | None =>
  match strip_prefix (lit "uptime=") line with Some value => set_bi_uptime (trim value) info | None =>
  match strip_prefix (lit "addresses=") line with Some value => set_bi_addresses (split_whitespace value) info | None =>
  info end end end end end.

(** [parse_basic_info] of the MCP server. *)
Definition parse_basic_info (output : str) : result ParsedBasicInfo :=
  match lines output with
  | first :: rest =>
      if bool_decide (first = BASIC_INFO_MARKER) then
        let info := foldl basic_info_line basic_info_default rest in
        if bool_decide (bi_hostname info = []) then Err "远程主机未返回主机名" else Ok info
      else Err "远程主机未返回可识别的基础信息格式"
  | [] => Err "远程主机未返回可识别的基础信息格式"
  end.

(** [parse_remote_info] of the desktop drops empty addresses, of which there are none. *)
Definition remote_info_line (info : ParsedBasicInfo) (line : str) : ParsedBasicInfo :=
  match strip_prefix (lit "hostname=") line with Some value => set_bi_hostname (trim value) info | None =>
  match strip_prefix (lit "platform=") line with Some value => set_bi_platform (trim value) info | None =>
  match strip_prefix (lit "username=") line with Some value => set_bi_username (trim value) info | None =>
  match strip_prefix (lit "uptime=") line with Some value => set_bi_uptime (trim value) info | None =>
  match strip_prefix (lit "addresses=") line with
  | Some value => set_bi_addresses (filter (λ item, item ≠ []) (split_whitespace value)) info | None =>
  info end end end end end.
Definition parse_remote_info (output : str) : result ParsedBasicInfo :=
  match lines output with
  | first :: rest =>
      if bool_decide (first = BASIC_INFO_MARKER) then
        let info := foldl remote_info_line basic_info_default rest in
        if bool_decide (bi_hostname info = []) then Err "远程主机未返回主机名" else Ok info
      else Err "远程主机未返回可识别的基础信息格式"
  | [] => Err "远程主机未返回可识别的基础信息格式"
  end.

(** *** Metrics

    The fields that the MCP server's [ParsedSystemMetrics] and the desktop's share; the
    five of the basic information and those of the legacy GPU lines are grouped. *)
Record GpuLines := mk_gpu_lines {
  gl_name : str; gl_usage : option f32; gl_memory : option (Z * Z); gl_temperature : option f32 }.
Record CommonMetrics := mk_common {
  cm_info : ParsedBasicInfo; cm_cpu_model : str; cm_cpu_cores : option Z;
  cm_load : option f32 * option f32 * option f32; cm_memory : option (Z * Z * Z); cm_gpu : GpuLines; cm_network : option (Z * Z) }.
Definition gpu_lines_default : GpuLines := mk_gpu_lines [] None None None.
Definition common_default : CommonMetrics := mk_common basic_info_default [] None (None, None, None) None gpu_lines_default None.
Definition set_cm_info f m := mk_common (f (cm_info m)) (cm_cpu_model m) (cm_cpu_cores m) (cm_load m) (cm_memory m) (cm_gpu m) (cm_network m).
Definition set_cm_cpu_model v m := mk_common (cm_info m) v (cm_cpu_cores m) (cm_load m) (cm_memory m) (cm_gpu m) (cm_network m).
Definition set_cm_cpu_cores v m := mk_common (cm_info m) (cm_cpu_model m) v (cm_load m) (cm_memory m) (cm_gpu m) (cm_network m).
Definition set_cm_load v m := mk_common (cm_info m) (cm_cpu_model m) (cm_cpu_cores m) v (cm_memory m) (cm_gpu m) (cm_network m).
Definition set_cm_memory v m := mk_common (cm_info m) (cm_cpu_model m) (cm_cpu_cores m) (cm_load m) v (cm_gpu m) (cm_network m).
Definition set_cm_gpu f m := mk_common (cm_info m) (cm_cpu_model m) (cm_cpu_cores m) (cm_load m) (cm_memory m) (f (cm_gpu m)) (cm_network m).
Definition set_cm_network v m := mk_common (cm_info m) (cm_cpu_model m) (cm_cpu_cores m) (cm_load m) (cm_memory m) (cm_gpu m) v.
Definition set_gl_name v g := mk_gpu_lines v (gl_usage g) (gl_memory g) (gl_temperature g).
Definition set_gl_usage v g := mk_gpu_lines (gl_name g) v (gl_memory g) (gl_temperature g).
Definition set_gl_memory v g := mk_gpu_lines (gl_name g) (gl_usage g) v (gl_temperature g).
Definition set_gl_temperature v g := mk_gpu_lines (gl_name g) (gl_usage g) (gl_memory g) v.

(** [match key { … }], the arms that both parsers have. *)
Definition is_key (key : str) (name : string) : bool := bool_decide (key = lit name).
Definition common_line (m : CommonMetrics) (key value : str) : CommonMetrics :=
  if is_key key "hostname" then set_cm_info (set_bi_hostname value) m
  else if is_key key "platform" then set_cm_info (set_bi_platform value) m
  else if is_key key "username" then set_cm_info (set_bi_username value) m
  else if is_key key "uptime" then set_cm_info (set_bi_uptime value) m
  else if is_key key "addresses" then set_cm_info (set_bi_addresses (split_whitespace value)) m
  else if is_key key "cpu_model" then set_cm_cpu_model value m
  else if is_key key "cpu_cores" then set_cm_cpu_cores (parse_metric_u64 value ≫= try_from u32_max) m
  else if is_key key "load" then set_cm_load (parse_metric_f32_triplet value) m
  else if is_key key "memory" then set_cm_memory (parse_metric_u64_triplet value) m
  else if is_key key "gpu_name" then set_cm_gpu (set_gl_name value) m
  else if is_key key "gpu_usage" then set_cm_gpu (set_gl_usage (parse_metric_f32 value)) m
  else if is_key key "gpu_memory" then set_cm_gpu (set_gl_memory (parse_metric_u64_pair value)) m
  else if is_key key "gpu_temperature" then set_cm_gpu (set_gl_temperature (parse_metric_f32 value)) m
  else if is_key key "network" then set_cm_network (parse_metric_u64_pair value) m
  else m.

(** The loop over the lines, for a parser's own arms. *)
Definition keyed_line {M} (arm : M → str → str → M) (m : M) (line : str) : M :=
  match split_once (ch "=") line with None => m | Some (key, value) => arm m key (trim value) end.
Definition keyed_metrics {M} (common : M → CommonMetrics) (arm : M → str → str → M) (start : M) (output : str) : result M :=
  match lines output with
  | first :: rest =>
      if bool_decide (first = SYSTEM_METRICS_MARKER) then
        let m := foldl (keyed_line arm) start rest in
        if bool_decide (bi_hostname (cm_info (common m)) = []) then Err "远程主机未返回主机名" else Ok m
      else Err "远程主机未返回可识别的系统监控格式"
  | [] => Err "远程主机未返回可识别的系统监控格式"
  end.

(** [ParsedSystemMetrics] and [parse_system_metrics] of the MCP server. *)
Record CompactMetrics := mk_compact { cp_common : CommonMetrics; cp_disk : option (Z * Z * Z * f32) }.
Definition compact_disk (value : str) : option (Z * Z * Z * f32) :=
  match split_whitespace value with
  | total :: used :: available :: usage :: _ =>
      match parse_metric_u64 total, parse_metric_u64 used, parse_metric_u64 available, parse_metric_f32 usage with
      | Some total, Some used, Some available, Some usage => Some (total, used, available, usage)
      | _, _, _, _ => None
      end
  | _ => None
  end.
Definition compact_line (m : CompactMetrics) (key value : str) : CompactMetrics :=
  if is_key key "disk" then
    match compact_disk value with Some disk => mk_compact (cp_common m) (Some disk) | None => m end
  else mk_compact (common_line (cp_common m) key value) (cp_disk m).
Definition parse_system_metrics : str → result CompactMetrics :=
  keyed_metrics cp_common compact_line (mk_compact common_default None).

(** *** What the desktop shows ([models.rs]) *)
Record RouteNodeDto := mk_route_node { rn_alias : str; rn_host : str; rn_port : Z; rn_username : str; rn_role : str }.
Record CpuMetricsDto := mk_cpu_dto {
  cd_model : str; cd_cores : option Z; cd_usage_percent : option f32;
  cd_load_1 : option f32; cd_load_5 : option f32; cd_load_15 : option f32 }.
Record MemoryMetricsDto := mk_memory_dto {
  md_total_bytes : option Z; md_used_bytes : option Z; md_available_bytes : option Z; md_usage_percent : option f32 }.
Record DiskMetricsDto := mk_disk_dto {
  dd_mount : str; dd_total_bytes : option Z; dd_used_bytes : option Z; dd_available_bytes : option Z; dd_usage_percent : option f32 }.
Record GpuMetricsDto := mk_gpu_dto {
  gd_name : str; gd_usage_percent : option f32; gd_memory_used_bytes : option Z; gd_memory_total_bytes : option Z;
  gd_temperature_c : option f32 }.
Record NetworkMetricsDto := mk_network_dto { nd_rx_bytes : option Z; nd_tx_bytes : option Z }.
Record BasicInfoDto := mk_basic_info_dto {
  bd_scope : str; bd_info : ParsedBasicInfo; bd_route : list RouteNodeDto; bd_queried_at_unix : Z }.
Record SystemMetricsDto := mk_metrics_dto {
  sd_scope : str; sd_info : ParsedBasicInfo; sd_route : list RouteNodeDto; sd_queried_at_unix : Z;
  sd_cpu : CpuMetricsDto; sd_memory : MemoryMetricsDto; sd_disks : list DiskMetricsDto; sd_gpus : list GpuMetricsDto;
  sd_network : NetworkMetricsDto }.

Definition jump_to_dto (jump : JumpHost) (role : string) : RouteNodeDto :=
  mk_route_node (jh_alias jump) (jh_host jump) (jh_port jump) (jh_username jump) (lit role).
Definition route_to_dto (config : ConnectionConfig) : list RouteNodeDto :=
  map (λ jump, jump_to_dto jump "jump") (c_jump_hosts config) ++
  [mk_route_node (c_alias config) (c_host config) (c_port config) (c_username config) (lit "target")].

Definition saturating_mul (a b : Z) : Z := Z.min u64_max (a * b).
Definition mib_to_bytes (n : Z) : Z := saturating_mul n (1024 * 1024).
Definition clamp_percent (value : f32) : f32 := f32_clamp f32_zero f32_hundred value.
Definition UNKNOWN_CPU : str := text "未知 CPU".
Definition cpu_model_or_unknown (model : str) : str := if bool_decide (model = []) then UNKNOWN_CPU else model.

Definition memory_unknown : MemoryMetricsDto := mk_memory_dto None None None None.
(** Rust computes the share before it looks at the total; a share of nothing is not kept. *)
Definition memory_to_dto (m : Z * Z * Z) : MemoryMetricsDto :=
  let '(total, used, available) := m in
  mk_memory_dto (Some total) (Some (Z.min used total)) (Some available)
    (if 0 <? total then Some (percent_of (f32_of_int used) (f32_of_int total)) else None).

(** [ParsedSystemMetrics] and [parse_system_metrics] of the desktop. *)
Record FullMetrics := mk_full {
  fm_common : CommonMetrics; fm_cpu_usage : option f32; fm_gpus : list GpuMetricsDto; fm_disks : list (str * Z * Z * Z * f32) }.

Definition full_gpu (value : str) : option GpuMetricsDto :=
  match map trim (split (ch ",") value) with
  | [name; usage; used; total; temperature] =>
      Some (mk_gpu_dto name (parse_metric_f32 usage) (mib_to_bytes <$> parse_metric_u64 used)
              (mib_to_bytes <$> parse_metric_u64 total) (parse_metric_f32 temperature))
  | _ => None
  end.
Definition full_disk (value : str) : option (str * Z * Z * Z * f32) :=
  match split_whitespace value with
  | mount :: total :: used :: available :: usage :: _ =>
      match parse_metric_u64 total, parse_metric_u64 used, parse_metric_u64 available, parse_metric_f32 usage with
      | Some total, Some used, Some available, Some usage => Some (mount, total, used, available, usage)
      | _, _, _, _ => None
      end
  | _ => None
  end.
Definition full_line (m : FullMetrics) (key value : str) : FullMetrics :=
  if is_key key "cpu_usage" then mk_full (fm_common m) (parse_metric_f32 value) (fm_gpus m) (fm_disks m)
  else if is_key key "gpu" then
    mk_full (fm_common m) (fm_cpu_usage m) (fm_gpus m ++ option_list (full_gpu value)) (fm_disks m)
  else if is_key key "disk" then
    mk_full (fm_common m) (fm_cpu_usage m) (fm_gpus m) (fm_disks m ++ option_list (full_disk value))
  else mk_full (common_line (fm_common m) key value) (fm_cpu_usage m) (fm_gpus m) (fm_disks m).
Definition full_default : FullMetrics := mk_full common_default None [] [].
Definition parse_full_metrics : str → result FullMetrics := keyed_metrics fm_common full_line full_default.

Definition disk_to_dto (d : str * Z * Z * Z * f32) : DiskMetricsDto :=
  let '(mount, total, used, available, usage) := d in
  mk_disk_dto mount (Some total) (Some used) (Some available) (Some (clamp_percent usage)).
Definition gpus_to_dto (gpus : list GpuMetricsDto) (g : GpuLines) : list GpuMetricsDto :=
  match gpus with
  | _ :: _ => gpus
  | [] =>
      if bool_decide (gl_name g = []) then []
      else [mk_gpu_dto (gl_name g) (clamp_percent <$> gl_usage g) ((λ m, mib_to_bytes m.1) <$> gl_memory g)
              ((λ m, mib_to_bytes m.2) <$> gl_memory g) (gl_temperature g)]
  end.
Definition metrics_to_dto (scope : str) (route : list RouteNodeDto) (metrics : FullMetrics) (queried_at_unix : Z) : SystemMetricsDto :=
  let common := fm_common metrics in
  let '(load_1, load_5, load_15) := cm_load common in
  mk_metrics_dto scope (cm_info common) route queried_at_unix
    (mk_cpu_dto (cpu_model_or_unknown (cm_cpu_model common)) (cm_cpu_cores common) (clamp_percent <$> fm_cpu_usage metrics) load_1 load_5 load_15)
    (match cm_memory common with Some m => memory_to_dto m | None => memory_unknown end)
    (map disk_to_dto (fm_disks metrics))
    (gpus_to_dto (fm_gpus metrics) (cm_gpu common))
    (mk_network_dto (fst <$> cm_network common) (snd <$> cm_network common)).

(** *** The desktop's own machine

    [sysinfo] measures; what it measured is the argument. *)
Definition format_uptime (seconds : Z) : str :=
  let days := seconds / 86400 in
  let hours := seconds mod 86400 / 3600 in
  let minutes := seconds mod 3600 / 60 in
  if 0 <? days then lit "up " ++ dec_of days ++ lit " days, " ++ dec_of hours ++ lit " hours"
  else if 0 <? hours then lit "up " ++ dec_of hours ++ lit " hours, " ++ dec_of minutes ++ lit " minutes"
  else lit "up " ++ dec_of minutes ++ lit " minutes".

(** [local_gpus], on what [nvidia-smi] printed. *)
Definition local_gpu (line : str) : option GpuMetricsDto :=
  match map trim (split (ch ",") line) with
  | name :: usage :: used :: total :: temperature :: _ =>
      if bool_decide (name = []) then None
      else Some (mk_gpu_dto name (clamp_percent <$> parse_metric_f32 usage) (mib_to_bytes <$> parse_metric_u64 used)
                   (mib_to_bytes <$> parse_metric_u64 total) (parse_metric_f32 temperature))
  | _ => None
  end.
Definition local_gpus (output : option (list Z)) : list GpuMetricsDto :=
  match output with Some stdout => omap local_gpu (lines (to_string_lossy stdout)) | None => [] end.

Record LocalDisk := mk_local_disk { ld_mount_point : list Z; ld_removable : bool; ld_total : Z; ld_available : Z }.
Definition local_disk (disk : LocalDisk) : DiskMetricsDto :=
  let total := ld_total disk in
  let available := Z.min (ld_available disk) total in
  let used := Z.max 0 (total - available) in
  mk_disk_dto (to_string_lossy (ld_mount_point disk)) (Some total) (Some used) (Some available)
    (Some (percent_of (f32_of_int used) (f32_of_int total))).
Definition mount_le (left right : DiskMetricsDto) : Prop := str_le (dd_mount left) (dd_mount right).
#[export] Instance mount_le_dec left right : Decision (mount_le left right).
Proof. unfold mount_le, str_le. apply _. Defined.
Definition local_all_disks (disks : list LocalDisk) : list DiskMetricsDto :=
  merge_sort mount_le (map local_disk (filter (λ disk, ld_removable disk = false ∧ 0 < ld_total disk) disks)).

Definition local_network_totals (networks : list (str * (Z * Z))) : Z * Z :=
  foldl (λ acc '(name, (received, transmitted)),
    if contains (to_ascii_lowercase name) (lit "loopback") then acc
    else (saturating_add acc.1 received, saturating_add acc.2 transmitted)) (0, 0) networks.

Record LocalMeasurements := mk_measured {
  lm_info : ParsedBasicInfo;              (* host name, platform, user; the uptime is formatted *)
  lm_uptime : Z; lm_identifier : str; lm_parallelism : option Z; lm_brands : list str; lm_cpu_usage : f32;
  lm_total_memory : Z; lm_used_memory : Z; lm_available_memory : Z;
  lm_disks : list LocalDisk; lm_networks : list (str * (Z * Z)); lm_smi : option (list Z) }.
Definition local_system_metrics (m : LocalMeasurements) (now : Z) : SystemMetricsDto :=
  let model :=
    match lm_brands m with
    | brand :: _ => if bool_decide (trim brand = []) then lm_identifier m else trim brand
    | [] => lm_identifier m
    end in
  let cores := default 0 (try_from u32_max (zlen (lm_brands m))) in
  let total := lm_total_memory m in
  let memory :=
    if 0 <? total then
      let used := Z.min (lm_used_memory m) total in
      mk_memory_dto (Some total) (Some used) (Some (lm_available_memory m)) (Some (percent_of (f32_of_int used) (f32_of_int total)))
    else memory_unknown in
  let '(rx, tx) := local_network_totals (lm_networks m) in
  mk_metrics_dto (lit "local") (set_bi_uptime (format_uptime (lm_uptime m)) (lm_info m)) [] now
    (mk_cpu_dto (cpu_model_or_unknown model) (if 0 <? cores then Some cores else lm_parallelism m)
       (if is_finite (lm_cpu_usage m) then Some (clamp_percent (lm_cpu_usage m)) else None) None None None)
    memory (local_all_disks (lm_disks m)) (local_gpus (lm_smi m)) (mk_network_dto (Some rx) (Some tx)).

(** ** What a number of a host may be *)
Definition opt {A} (P : A → Prop) (o : option A) : Prop := ∀ x, o = Some x → P x.
Abbreviation finite x := (is_finite x = true).

Definition load_ok (l : option f32 * option f32 * option f32) : Prop :=
  opt (λ x, finite x) l.1.1 ∧ opt (λ x, finite x) l.1.2 ∧ opt (λ x, finite x) l.2.
Record common_ok (m : CommonMetrics) : Prop := {
  co_cores : opt is_u32 (cm_cpu_cores m);
  co_load : load_ok (cm_load m);
  co_memory : opt (λ '(total, used, available), is_u64 total ∧ is_u64 used ∧ is_u64 available) (cm_memory m);
  co_usage : opt (λ x, finite x) (gl_usage (cm_gpu m));
  co_gpu_memory : opt (λ '(a, b), is_u64 a ∧ is_u64 b) (gl_memory (cm_gpu m));
  co_temperature : opt (λ x, finite x) (gl_temperature (cm_gpu m));
  co_network : opt (λ '(a, b), is_u64 a ∧ is_u64 b) (cm_network m);
}.

Record gpu_ok (g : GpuMetricsDto) : Prop := {
  go_usage : opt (λ x, finite x) (gd_usage_percent g);
  go_memory : opt is_u64 (gd_memory_used_bytes g) ∧ opt is_u64 (gd_memory_total_bytes g);
  go_temperature : opt (λ x, finite x) (gd_temperature_c g);
}.
Record memory_ok (m : MemoryMetricsDto) : Prop := {
  mo_bytes : opt is_u64 (md_total_bytes m) ∧ opt is_u64 (md_used_bytes m) ∧ opt is_u64 (md_available_bytes m);
  mo_used : ∀ total used, md_total_bytes m = Some total → md_used_bytes m = Some used → used ≤ total;
  mo_usage : opt is_percentage (md_usage_percent m);
}.
Record disk_ok (d : DiskMetricsDto) : Prop := {
  do_bytes : opt is_u64 (dd_total_bytes d) ∧ opt is_u64 (dd_used_bytes d) ∧ opt is_u64 (dd_available_bytes d);
  do_usage : opt is_percentage (dd_usage_percent d);
}.
Record shown_ok (d : SystemMetricsDto) : Prop := {
  so_cores : opt is_u32 (cd_cores (sd_cpu d));
  so_model : cd_model (sd_cpu d) ≠ [];
  so_cpu : opt is_percentage (cd_usage_percent (sd_cpu d));
  so_load : load_ok (cd_load_1 (sd_cpu d), cd_load_5 (sd_cpu d), cd_load_15 (sd_cpu d));
  so_memory : memory_ok (sd_memory d);
  so_disks : Forall disk_ok (sd_disks d);
  so_gpus : Forall gpu_ok (sd_gpus d);
  so_network : opt is_u64 (nd_rx_bytes (sd_network d)) ∧ opt is_u64 (nd_tx_bytes (sd_network d));
}.
Definition gpu_shares_ok (d : SystemMetricsDto) : Prop := Forall (λ g, opt is_percentage (gd_usage_percent g)) (sd_gpus d).

(** What [sysinfo] measures has the types of its interface. *)
Record measured_ok (m : LocalMeasurements) : Prop := {
  ms_parallelism : opt is_u32 (lm_parallelism m);
  ms_memory : is_u64 (lm_total_memory m) ∧ is_u64 (lm_used_memory m) ∧ is_u64 (lm_available_memory m);
  ms_disks : Forall (λ d, is_u64 (ld_total d) ∧ is_u64 (ld_available d)) (lm_disks m);
  ms_networks : Forall (λ n, is_u64 n.2.1 ∧ is_u64 n.2.2) (lm_networks m);
}.

(** ** Proofs *)
Lemma opt_none {A} (P : A → Prop) : opt P None.
Proof. done. Qed.
Lemma opt_some {A} (P : A → Prop) x : P x → opt P (Some x).
Proof. by intros ? ? [= <-]. Qed.
Lemma opt_fmap {A B} (P : A → Prop) (Q : B → Prop) (f : A → B) o : opt P o → (∀ x, P x → Q (f x)) → opt Q (f <$> o).
Proof. intros Ho Hf y Hy. destruct o as [x|]; [|done]. injection Hy as <-. by apply Hf, Ho. Qed.
Lemma opt_bind {A B} (Q : B → Prop) (f : A → option B) o : (∀ x, opt Q (f x)) → opt Q (o ≫= f).
Proof. intros Hf y Hy. destruct o as [x|]; [|done]. by apply (Hf x). Qed.
Create HintDb metrics.
#[export] Hint Resolve opt_none opt_some : metrics.

Lemma dec_value_nonneg acc s : 0 ≤ acc → forallb is_ascii_digit s = true → 0 ≤ dec_value acc s.
Proof.
  revert acc. induction s as [|c s IH]; cbn; intros acc Hacc Hs; [done|].
  apply andb_true_iff in Hs as [Hc Hs]. unfold is_ascii_digit in Hc. apply IH; [|done]. to_prop. lia.
Qed.
Lemma parse_uint_bounds max s n : parse_uint max s = Some n → 0 ≤ n ≤ max.
Proof.
  assert (∀ s, parse_digits max s = Some n → 0 ≤ n ≤ max) as Hd.
  { intros [|c t]; [done|]. unfold parse_digits. destruct (forallb is_ascii_digit (c :: t)) eqn:Hd; [|done].
    intros [-> ?]%try_from_some. split; [|done]. by apply dec_value_nonneg. }
  destruct s as [|c s]; [done|]. cbn [parse_uint]. destruct (c =? ch "+"); apply Hd.
Qed.

Lemma metric_u64 s : opt is_u64 (parse_metric_u64 s).
Proof. intros n Hn. by apply parse_uint_bounds in Hn. Qed.
Lemma metric_f32 s : opt (λ x, finite x) (parse_metric_f32 s).
Proof. intros x. unfold parse_metric_f32. destruct (parse_f32 _) as [y|]; [|done]. destruct (is_finite y) eqn:Hy; [|done]. by intros [= <-]. Qed.
Lemma metric_u32 s : opt is_u32 (parse_metric_u64 s ≫= try_from u32_max).
Proof.
  intros n Hn. destruct (parse_metric_u64 s) as [k|] eqn:Hk; [|done]. apply metric_u64 in Hk. cbn in Hn.
  apply try_from_some in Hn as [-> ?]. unfold is_u64, is_u32 in *. lia.
Qed.
Lemma metric_words s n : n ∈ omap parse_metric_u64 (split_whitespace s) → is_u64 n.
Proof. intros (w & _ & Hw)%list_elem_of_omap. by apply metric_u64 in Hw. Qed.
Lemma metric_triplet s : opt (λ '(a, b, c), is_u64 a ∧ is_u64 b ∧ is_u64 c) (parse_metric_u64_triplet s).
Proof.
  pose proof (metric_words s) as Hw. unfold parse_metric_u64_triplet.
  destruct (omap _ _) as [|a [|b [|c l]]]; intros ? [=]; subst. split_and!; apply Hw; set_solver.
Qed.
Lemma metric_pair s : opt (λ '(a, b), is_u64 a ∧ is_u64 b) (parse_metric_u64_pair s).
Proof.
  pose proof (metric_words s) as Hw. unfold parse_metric_u64_pair.
  destruct (omap _ _) as [|a [|b l]]; intros ? [=]; subst. split; apply Hw; set_solver.
Qed.
#[export] Hint Resolve metric_u64 metric_f32 metric_u32 metric_triplet metric_pair : metrics.

Lemma common_default_ok : common_ok common_default.
Proof. by split. Qed.
Lemma metric_load s : load_ok (parse_metric_f32_triplet s).
Proof. split_and!; apply opt_bind; intros; apply metric_f32. Qed.
#[export] Hint Resolve common_default_ok metric_load : metrics.

Lemma common_line_ok m key value : common_ok m → common_ok (common_line m key value).
Proof.
  intros Hm. unfold common_line.
  repeat (destruct (is_key key _); [solve [destruct Hm; split; cbn -[parse_metric_f32_triplet]; auto with metrics]|]). done.
Qed.

(** What every line keeps, the whole output keeps. *)
Lemma keyed_metrics_ok {M} (common : M → CommonMetrics) arm (P : M → Prop) start output m :
  P start → (∀ m key value, P m → P (arm m key value)) →
  keyed_metrics common arm start output = Ok m → P m ∧ bi_hostname (cm_info (common m)) ≠ [].
Proof.
  intros Hstart Harm. unfold keyed_metrics. destruct (lines output) as [|first rest]; [done|].
  case_bool_decide; [|done]. cbv zeta. case_bool_decide as Hhost; [done|]. intros [= <-]. split; [|done]. clear Hhost.
  revert start Hstart. induction rest as [|line rest IH]; cbn [foldl]; intros start Hstart; [done|].
  apply IH. unfold keyed_line. destruct (split_once _ line) as [[key value]|]; auto.
Qed.

(** *** What the desktop shows *)
Lemma percentage_clamped x : finite x → is_percentage (clamp_percent x).
Proof. intros Hx. by apply clamp_percentage, finite_number. Qed.
Lemma percentages_clamped o : opt (λ x, finite x) o → opt is_percentage (clamp_percent <$> o).
Proof. intros Ho. eapply opt_fmap; [exact Ho|]. apply percentage_clamped. Qed.
Lemma percentage_finite x : is_percentage x → finite x.
Proof. intros [Hl Hh]. by destruct x as [s|[]| |s m e]. Qed.
Lemma share_bounded used total : is_u64 used → 0 < total → is_u64 total → is_percentage (percent_of (f32_of_int used) (f32_of_int total)).
Proof. intros Hu Hpos Ht. apply percent_of_bounded; [by apply of_int_finite|]. apply of_int_positive; [done|apply Ht]. Qed.
Lemma mib_u64 n : is_u64 n → is_u64 (mib_to_bytes n).
Proof. unfold is_u64, mib_to_bytes, saturating_mul, u64_max. lia. Qed.
Lemma mib_opt o : opt is_u64 o → opt is_u64 (mib_to_bytes <$> o).
Proof. intros Ho. eapply opt_fmap; [exact Ho|]. apply mib_u64. Qed.
Lemma percentages_finite o : opt is_percentage o → opt (λ x, finite x) o.
Proof. intros Ho x Hx. by apply percentage_finite, Ho. Qed.
#[export] Hint Resolve percentage_clamped percentages_clamped mib_opt percentages_finite : metrics.

Lemma model_shown model : cpu_model_or_unknown model ≠ [].
Proof. unfold cpu_model_or_unknown. by case_bool_decide. Qed.
#[export] Hint Resolve model_shown : metrics.

Lemma memory_unknown_ok : memory_ok memory_unknown.
Proof. by split. Qed.
Lemma memory_to_dto_ok total used available :
  is_u64 total → is_u64 used → is_u64 available → memory_ok (memory_to_dto (total, used, available)).
Proof.
  intros Ht Hu Ha. split; cbn.
  - split_and!; apply opt_some; unfold is_u64 in *; lia.
  - intros ? ? [= <-] [= <-]. lia.
  - destruct (Z.ltb_spec 0 total); [|apply opt_none]. apply opt_some. by apply share_bounded.
Qed.

Lemma gpu_value_ok value : opt gpu_ok (full_gpu value).
Proof.
  unfold full_gpu. destruct (map trim _) as [|name [|usage [|used [|total [|temperature []]]]]]; try exact (opt_none _).
  apply opt_some. split; cbn; auto with metrics.
Qed.
Definition disk_line_ok (d : str * Z * Z * Z * f32) : Prop :=
  let '(_, total, used, available, usage) := d in is_u64 total ∧ is_u64 used ∧ is_u64 available ∧ finite usage.
Lemma disk_value_ok value : opt disk_line_ok (full_disk value).
Proof.
  unfold full_disk. destruct (split_whitespace value) as [|mount [|total [|used [|available [|usage l]]]]]; try exact (opt_none _).
  destruct (parse_metric_u64 total) as [t|] eqn:Ht; [|apply opt_none].
  destruct (parse_metric_u64 used) as [u|] eqn:Hu; [|apply opt_none].
  destruct (parse_metric_u64 available) as [a|] eqn:Ha; [|apply opt_none].
  destruct (parse_metric_f32 usage) as [x|] eqn:Hx; [|apply opt_none].
  apply opt_some. split_and!; [by eapply metric_u64..|by eapply metric_f32].
Qed.
Lemma Forall_option_list {A} (P : A → Prop) o : opt P o → Forall P (option_list o).
Proof. destruct o as [x|]; [|constructor]. intros Ho. constructor; [by apply Ho|constructor]. Qed.
Lemma Forall_omap {A B} (P : B → Prop) (f : A → option B) l : (∀ x, opt P (f x)) → Forall P (omap f l).
Proof. intros Hf. apply Forall_forall. intros y (x & _ & Hx)%list_elem_of_omap. by apply (Hf x). Qed.

Record full_ok (m : FullMetrics) : Prop := {
  fo_common : common_ok (fm_common m);
  fo_cpu : opt (λ x, finite x) (fm_cpu_usage m);
  fo_gpus : Forall gpu_ok (fm_gpus m);
  fo_disks : Forall disk_line_ok (fm_disks m);
}.
Lemma full_line_ok m key value : full_ok m → full_ok (full_line m key value).
Proof.
  intros [Hc Hu Hg Hd]. unfold full_line. destruct (is_key key _); [by split; cbn; auto with metrics|].
  destruct (is_key key _); [split; cbn; try done; apply Forall_app; split; [done|]; apply Forall_option_list, gpu_value_ok|].
  destruct (is_key key _); [split; cbn; try done; apply Forall_app; split; [done|]; apply Forall_option_list, disk_value_ok|].
  split; cbn; [by apply common_line_ok|done..].
Qed.

Lemma gpus_shown m : full_ok m →
  Forall gpu_ok (gpus_to_dto (fm_gpus m) (cm_gpu (fm_common m))) ∧
  (fm_gpus m = [] →
   Forall (λ g, opt is_percentage (gd_usage_percent g)) (gpus_to_dto (fm_gpus m) (cm_gpu (fm_common m)))).
Proof.
  intros [[_ _ _ Hu Hm Ht _] _ Hg _]. destruct (fm_gpus m) as [|g gs]; cbn [gpus_to_dto]; [|by split].
  case_bool_decide; [by split|]. split; [|intros _]; constructor; try done; cbn; [|auto with metrics].
  split; cbn; [auto with metrics| |done]. split; (eapply opt_fmap; [exact Hm|]); intros [a b] [? ?]; by apply mib_u64.
Qed.

Lemma metrics_shown scope route m now : full_ok m → shown_ok (metrics_to_dto scope route m now).
Proof.
  intros Hm. pose proof (proj1 (gpus_shown m Hm)) as Hgpus. destruct Hm as [Hc Hu Hg Hd]. unfold metrics_to_dto.
  destruct Hc as [Hcores Hload Hmem _ _ _ Hnet]. destruct (cm_load (fm_common m)) as [[l1 l5] l15].
  split; cbn; auto with metrics.
  - destruct (cm_memory _) as [[[total used] available]|]; [|apply memory_unknown_ok].
    destruct (Hmem _ eq_refl) as (? & ? & ?). by apply memory_to_dto_ok.
  - apply Forall_map. eapply Forall_impl; [exact Hd|]. intros [[[[mount total] used] available] usage] (? & ? & ? & ?).
    split; cbn; [split_and!; by apply opt_some|]. apply opt_some. by apply percentage_clamped.
  - split; (eapply opt_fmap; [exact Hnet|]); by intros [a b] [? ?].
Qed.

(** *** The desktop's own machine *)
Lemma local_gpu_ok line : opt (λ g, gpu_ok g ∧ opt is_percentage (gd_usage_percent g)) (local_gpu line).
Proof.
  unfold local_gpu. destruct (map trim _) as [|name [|usage [|used [|total [|temperature l]]]]]; try exact (opt_none _).
  case_bool_decide; [apply opt_none|]. apply opt_some. split; [split|]; cbn; auto with metrics.
Qed.
Lemma local_gpus_ok output : Forall (λ g, gpu_ok g ∧ opt is_percentage (gd_usage_percent g)) (local_gpus output).
Proof. destruct output as [stdout|]; [|constructor]. apply Forall_omap, local_gpu_ok. Qed.

Lemma local_disks_ok disks :
  Forall (λ d, is_u64 (ld_total d) ∧ is_u64 (ld_available d)) disks → Forall disk_ok (local_all_disks disks).
Proof.
  intros Hd. unfold local_all_disks. rewrite (merge_sort_Permutation mount_le).
  apply Forall_map, Forall_forall. intros d [[_ Hpos] Hin]%list_elem_of_filter. rewrite Forall_forall in Hd.
  destruct (Hd d Hin) as [Ht Ha]. split; cbn.
  - split_and!; apply opt_some; unfold is_u64 in *; lia.
  - apply opt_some, share_bounded; [unfold is_u64 in *; lia|done|done].
Qed.
Lemma network_totals_ok networks :
  Forall (λ n : str * (Z * Z), is_u64 n.2.1 ∧ is_u64 n.2.2) networks →
  is_u64 (local_network_totals networks).1 ∧ is_u64 (local_network_totals networks).2.
Proof.
  intros Hn. unfold local_network_totals.
  assert (∀ acc : Z * Z, is_u64 acc.1 ∧ is_u64 acc.2 → let r := foldl (λ acc '(name, (received, transmitted)),
    if contains (to_ascii_lowercase name) (lit "loopback") then acc
    else (saturating_add acc.1 received, saturating_add acc.2 transmitted)) acc networks in is_u64 r.1 ∧ is_u64 r.2) as Hfold;
    [|by apply Hfold].
  induction Hn as [|[name [rx tx]] l [Hr Ht] _ IH]; cbn; intros acc Hacc; [done|]. apply IH.
  destruct (contains _ _); [done|]. cbn in *. unfold is_u64, saturating_add in *. unfold u64_max in *. lia.
Qed.

Lemma local_metrics_shown m now : measured_ok m → shown_ok (local_system_metrics m now) ∧ gpu_shares_ok (local_system_metrics m now).
Proof.
  intros [Hpar (Ht & Hu & Ha) Hd Hn]. unfold local_system_metrics. pose proof (network_totals_ok _ Hn) as Hnet.
  destruct (local_network_totals _) as [rx tx]. cbn in Hnet. pose proof (local_gpus_ok (lm_smi m)) as Hg.
  split; [split; cbn|].
  - destruct (Z.ltb_spec 0 (default 0 (try_from u32_max (zlen (lm_brands m))))) as [Hpos|]; [|done]. apply opt_some.
    destruct (try_from u32_max _) as [n|] eqn:Hc; cbn in *; [|lia]. apply try_from_some in Hc as [-> ?]. unfold is_u32. lia.
  - apply model_shown.
  - destruct (is_finite _) eqn:Hfin; [|apply opt_none]. apply opt_some. by apply percentage_clamped.
  - split_and!; apply opt_none.
  - destruct (Z.ltb_spec 0 (lm_total_memory m)); [|apply memory_unknown_ok]. split; cbn.
    + split_and!; apply opt_some; unfold is_u64 in *; lia.
    + intros ? ? [= <-] [= <-]. lia.
    + apply opt_some, share_bounded; [unfold is_u64 in *; lia|done|done].
  - by apply local_disks_ok.
  - eapply Forall_impl; [exact Hg|]. by intros g [? ?].
  - destruct Hnet. by split; apply opt_some.
  - unfold gpu_shares_ok. cbn. eapply Forall_impl; [exact Hg|]. by intros g [? ?].
Qed.

(** ** Theorems *)
(** C32: whatever a host prints, and whatever the desktop's own machine measures, the shares that are
    shown of the processor, the memory and the disks are numbers from 0 to 100, no more memory is
    used than there is, every count fits its type, the load and the temperatures are finite, and the
    processor and a remote host are named; so are the shares of the local GPUs and of a host's legacy
    GPU lines from 0 to 100, unlike those of its other GPU lines. *)
Theorem shown_metrics_bounded :
  (∀ output m scope route now, parse_full_metrics output = Ok m →
     shown_ok (metrics_to_dto scope route m now) ∧ bi_hostname (sd_info (metrics_to_dto scope route m now)) ≠ [] ∧
     (fm_gpus m = [] → gpu_shares_ok (metrics_to_dto scope route m now))) ∧
  (∀ measured now, measured_ok measured →
     shown_ok (local_system_metrics measured now) ∧ gpu_shares_ok (local_system_metrics measured now)).
Proof.
  split; [|intros; by apply local_metrics_shown].
  intros output m scope route now Hm.
  assert (full_ok full_default) as Hdefault by (split; [apply common_default_ok|done|constructor|constructor]).
  apply (keyed_metrics_ok fm_common _ full_ok) in Hm as [Hm Hhost]; [|done|intros; by apply full_line_ok].
  split; [by apply metrics_shown|]. unfold gpu_shares_ok, metrics_to_dto in *.
  destruct (cm_load _) as [[l1 l5] l15]. split; [exact Hhost|]. apply (gpus_shown m Hm).
Qed.

Module Examples.
Definition report : str :=
  concat ((λ l, l ++ [LF]) <$> [SYSTEM_METRICS_MARKER; lit "hostname=lab"; lit "cpu_usage=25.5"; lit "cpu_cores=8"; lit "load=8 8 8";
    lit "memory=100 250 7"; lit "disk=/ 100000 40000 60000 140%"; lit "gpu_name=RTX"; lit "gpu_usage=32"; lit "gpu_memory=2048, 8192";
    lit "network=1000 2000"]).
Definition parsed : FullMetrics :=
  match parse_full_metrics report with Ok m => m | Err _ => full_default end.
Definition shown : SystemMetricsDto := metrics_to_dto (lit "remote") [] parsed 1.

Example report_shown :
  cd_usage_percent (sd_cpu shown) = parse_f32 (lit "25.5") ∧ md_used_bytes (sd_memory shown) = Some 100 ∧
  md_usage_percent (sd_memory shown) = Some f32_hundred ∧ dd_usage_percent <$> sd_disks shown = [Some f32_hundred] ∧
  gd_memory_total_bytes <$> sd_gpus shown = [Some 8589934592].
Proof. vm_compute. split_and!; reflexivity. Qed.

Lemma shown_metrics_bounded_witness :
  parse_full_metrics report = Ok parsed ∧ shown_ok shown ∧ gpu_shares_ok shown.
Proof.
  assert (parse_full_metrics report = Ok parsed) as Hparsed by (vm_compute; reflexivity).
  destruct (proj1 shown_metrics_bounded report parsed (lit "remote") [] 1 Hparsed) as (Hshown & _ & Hgpus).
  split; [exact Hparsed|]. split; [exact Hshown|]. apply Hgpus. vm_compute. reflexivity.
Defined.

(** The desktop shows the share of a GPU line as the host reports it, unlike that of a
    legacy GPU line, a disk, the processor, or its own GPUs. *)
Lemma gpu_line_not_clamped :
  gd_usage_percent <$> option_list (full_gpu (lit "A4000, 250, 512, 16384, 54")) = [Some (f32_of_int 250)] ∧
  gd_usage_percent <$> option_list (local_gpu (lit "A4000, 250, 512, 16384, 54")) = [Some f32_hundred].
Proof. vm_compute. split; reflexivity. Qed.
End Examples.
