(* ===== verification/Mcp.v ===== *)
(** * The MCP server ([crates/kaduox-ssh-mcp/src/main.rs])

    A server that any language model may be attached to: it reads one JSON-RPC request
    per line, and its tools look at hosts, and run commands and move files where the
    environment of the process allows that.  The line reader, the environment, the host
    library's file, the credential store, the connection manager, the sessions and the
    disk are requests; JSON text and its conversion to the two request types
    ([serde_json] and its derive) are parameters.  Theorems: the server does to a host only
    what the current request asks for and its gate allows, on a connection for the host
    that was named; a download stays in the home directory; every request is answered
    once, under its own identifier; and no metric leaves its range. *)

From stdpp Require Import base list gmap strings numbers sorting.
From Stdlib Require Import Lia SpecFloat.
From S2P Require Import Prelude RustStr StrFacts RemotePath LocalPath HostModel HostStore RemoteFs OpenSshInclude Config Resolver ConnectionManager Program Authenticate Exec Float32 RemoteInfo IncludeScope.

(** ** Definitions *)

(** *** JSON values *)
Inductive Json :=
| JNull | JBool (b : bool) | JInt (n : Z) | JFloat (x : f32) | JStr (s : str) | JArr (l : list Json) | JObj (members : list (str * Json)).

Fixpoint member (name : str) (members : list (str * Json)) : option Json :=
  match members with
  | [] => None
  | (key, value) :: members => if bool_decide (key = name) then Some value else member name members
  end.
Definition get_field (v : Json) (name : str) : option Json := match v with JObj members => member name members | _ => None end.
Definition as_str (v : Json) : option str := match v with JStr s => Some s | _ => None end.
Local Notation "k ⤇ v" := (@pair string Json k%string v) (at level 61, no associativity).
(** [json!({…})] *)
Definition obj (members : list (string * Json)) : Json := JObj ((λ '(key, value), (lit key, value)) <$> members).
Definition or_null {A} (f : A → Json) (o : option A) : Json := match o with Some x => f x | None => JNull end.
(** A number that JSON cannot hold is null. *)
Definition json_f32 (x : f32) : Json := if is_finite x then JFloat x else JNull.

Record RpcRequest := mk_rpc { rpc_id : option Json; rpc_method : str; rpc_params : option Json }.
Record CallToolParams := mk_call { call_name : str; call_arguments : option Json }.

Definition SERVER_NAME : str := lit "kaduox-ssh".
Definition PROTOCOL_VERSION : str := lit "2024-11-05".
Definition EXEC_OUTPUT_LIMIT : Z := 512 * 1024.
Definition MAX_LINE_BYTES : Z := 1024 * 1024.

Definition rpc_result (id : option Json) (value : Json) : Json :=
  obj ["jsonrpc" ⤇ JStr (lit "2.0"); "id" ⤇ default JNull id; "result" ⤇ value].
Definition rpc_error (id : option Json) (code : Z) (message : str) : Json :=
  obj ["jsonrpc" ⤇ JStr (lit "2.0"); "id" ⤇ default JNull id;
       "error" ⤇ obj ["code" ⤇ JInt code; "message" ⤇ JStr message]].

Definition object_schema (properties : Json) (required : list string) : Json :=
  obj ["type" ⤇ JStr (lit "object"); "properties" ⤇ properties; "required" ⤇ JArr ((λ name, JStr (lit name)) <$> required);
       "additionalProperties" ⤇ JBool false].
Definition tool_definition (name description : string) (input_schema : Json) : Json :=
  obj ["name" ⤇ JStr (lit name); "description" ⤇ JStr (text description); "inputSchema" ⤇ input_schema].
Definition string_type : Json := obj ["type" ⤇ JStr (lit "string")].
Definition described (description : string) : Json :=
  obj ["type" ⤇ JStr (lit "string"); "description" ⤇ JStr (text description)].

Definition negotiated_protocol (params : option Json) : str :=
  match params ≫= λ p, get_field p (lit "protocolVersion") ≫= as_str with
  | Some requested =>
      if bool_decide (requested = lit "2025-06-18") then lit "2025-06-18"
      else if bool_decide (requested = lit "2025-03-26") then lit "2025-03-26"
      else PROTOCOL_VERSION
  | None => PROTOCOL_VERSION
  end.

(** *** Arguments *)
Definition required_string (arguments : Json) (name : string) : result str :=
  match get_field arguments (lit name) ≫= as_str with
  | Some value => if bool_decide (trim value = []) then Err "缺少参数" else Ok value
  | None => Err "缺少参数"
  end.
Definition validate_remote_path (path : str) : result unit :=
  bail_if (bool_decide (path = []) || (4096 <? str_len path) || contains_char path 0 || existsb is_control path)
    "远程路径长度必须在 1..=4096 字节之间且不能包含控制字符".
Definition validate_command (command : str) : result unit :=
  bail_if (bool_decide (command = []) || (16 * 1024 <? str_len command) || contains_char command 0)
    "命令长度必须在 1..=16384 字节之间且不能包含 NUL".

#[export] Instance component_eq_dec : EqDecision Component.
Proof. solve_decision. Defined.
Definition is_absolute (path : os_path) : bool := starts_with path [slash].
(** [Path::starts_with]: by components. *)
Definition path_starts_with (path base : os_path) : bool := bool_decide (path_components base `prefix_of` path_components path).
(** [PathBuf::pop] *)
Definition path_pop (path : os_path) : os_path := default path (LocalPath.path_parent path).
(** [normalize] of [validate_local_download_path]. *)
Definition normalize_step (out : os_path) (c : Component) : os_path :=
  match c with
  | ParentDir => path_pop out
  | CurDir => out
  | RootDir => path_push out [slash]
  | Normal name => path_push out name
  end.
Definition normalize (path : os_path) : os_path := foldl normalize_step [] (path_components path).

(** The end of [validate_local_download_path]. *)
Definition confine_download (home path : os_path) : result os_path :=
  bail_if (negb (path_starts_with (normalize path) (normalize home))) "本地路径必须位于用户主目录内" ≫= λ _, Ok (normalize path).

(** *** Requests of the server *)
Inductive mcp_request :=
| MRead
| MWrite (response : Json)
| MVar (name : str)                  (* [env::var(…).ok()] *)
| MVarOs (name : str)                (* [env::var_os] *)
| MOpenStore
| MKeyring (service account : str)
| MGetLease (alias : str)
| MConnectLease (alias : str) (config : ConnectionConfig) (authentication : Authentication)
| MExec (client : nat) (command : str)
| MExecStream (client : nat) (command : str)
| MListDirectory (client : nat) (path : str)
| MIsFile (path : os_path)
| MUpload (client : nat) (local : os_path) (remote : str)
| MDownload (client : nat) (remote : str) (local : os_path).
Definition mcp_answer (q : mcp_request) : Type :=
  match q with
  | MRead => result str
  | MWrite _ => result unit
  | MVar _ => option str
  | MVarOs _ => option os_path
  | MOpenStore => result HostStore
  | MKeyring _ _ => option str
  | MGetLease _ => option (nat * ConnectionConfig)
  | MConnectLease _ _ _ => result nat
  | MExec _ _ => result (list Z)                                    (* its standard output *)
  | MExecStream _ _ => list (sink * list Z) * result (option Z)     (* what it writes, and its end *)
  | MListDirectory _ _ => result (list RemoteDirEntry)
  | MIsFile _ => bool
  | MUpload _ _ _ | MDownload _ _ _ => result Z
  end.
Definition mcp_interface : interface := Interface mcp_request mcp_answer.
Abbreviation mcp A := (prog mcp_interface A).
Definition mc (q : mcp_interface) : mcp (answer q) := ask q.

Definition env_enabled (name : str) : mcp bool :=
  (value ⇐ mc (MVar name);
   p_ret (match value with
          | Some value => bool_decide (value = lit "1") || bool_decide (value = lit "true") || bool_decide (value = lit "yes")
          | None => false
          end))%prog.
Definition ALLOW_EXEC : str := lit "KADUOX_MCP_ALLOW_EXEC".
Definition ALLOW_MUTATIONS : str := lit "KADUOX_MCP_ALLOW_MUTATIONS".
Definition exec_enabled : mcp bool := env_enabled ALLOW_EXEC.
Definition mutations_enabled : mcp bool := env_enabled ALLOW_MUTATIONS.

Definition validate_local_download_path (local_path : str) : mcp os_path :=
  (Done (bail_if (contains_char local_path 0) "本地路径不能包含 NUL") ;;
   Done (bail_if (negb (is_absolute (utf8 local_path))) "本地路径必须是绝对路径") ;;
   user_profile ⇐ mc (MVarOs (lit "USERPROFILE"));
   home ⇐ match user_profile with Some profile => p_ret (Some profile) | None => mc (MVarOs (lit "HOME")) end;
   home ⇐ Done (with_context home "无法确定用户主目录");
   Done (confine_download home (utf8 local_path)))%prog.

(** [kaduox_ssh_core::keyring_stored_password] *)
Definition stored_password (config : ConnectionConfig) : mcp (option str) := mc (MKeyring KEYCHAIN_SERVICE (account_name config)).

(** *** What the tools show *)
Definition route_node (alias host : str) (port : Z) (username : str) (role : string) : Json :=
  obj ["alias" ⤇ JStr alias; "host" ⤇ JStr host; "port" ⤇ JInt port; "username" ⤇ JStr username; "role" ⤇ JStr (lit role)].
Definition route_value (config : ConnectionConfig) : list Json :=
  map (λ jump, route_node (jh_alias jump) (jh_host jump) (jh_port jump) (jh_username jump) "jump") (c_jump_hosts config) ++
  [route_node (c_alias config) (c_host config) (c_port config) (c_username config) "target"].
Definition file_type_name (t : RemoteFileType) : str :=
  match t with RDirectory => lit "directory" | RFile => lit "file" | RSymlink => lit "symlink" | ROther => lit "other" end.

(** [format!("{:04o}", mode & 0o7777)]: at most four digits. *)
Definition octal_mode (mode : Z) : str :=
  let m := Z.land mode 4095 in [48 + m / 512 mod 8; 48 + m / 64 mod 8; 48 + m / 8 mod 8; 48 + m mod 8].
Definition file_value (entry : RemoteDirEntry) : Json :=
  let m := re_metadata entry in
  obj ["name" ⤇ JStr (re_name entry); "path" ⤇ JStr (re_path entry); "type" ⤇ JStr (file_type_name (rm_file_type m));
       "size" ⤇ or_null JInt (rm_size m); "modifiedAt" ⤇ or_null JInt (rm_modified_at m);
       "permissions" ⤇ or_null (λ mode, JStr (octal_mode mode)) (rm_permissions m);
       "owner" ⤇ or_null JStr (match rm_user m with Some user => Some user | None => dec_of <$> rm_uid m end)].

Definition basic_info_value (alias : str) (parsed : ParsedBasicInfo) (config : ConnectionConfig) : Json :=
  obj ["scope" ⤇ JStr (lit "remote"); "alias" ⤇ JStr alias; "hostname" ⤇ JStr (bi_hostname parsed);
       "platform" ⤇ JStr (bi_platform parsed); "username" ⤇ JStr (bi_username parsed); "uptime" ⤇ JStr (bi_uptime parsed);
       "addresses" ⤇ JArr (JStr <$> bi_addresses parsed); "route" ⤇ JArr (route_value config)].

(** The load of a minute per core. *)
Definition load_percent (load_1 : option f32) (cores : option Z) : option f32 :=
  match load_1, cores with
  | Some load, Some cores => if 0 <? cores then Some (percent_of load (f32_of_int cores)) else None
  | _, _ => None
  end.
Definition memory_value (memory : option (Z * Z * Z)) : Json :=
  match memory with
  | Some (total, used, available) =>
      obj ["totalBytes" ⤇ JInt total; "usedBytes" ⤇ JInt (Z.min used total); "availableBytes" ⤇ JInt available;
           "usagePercent" ⤇ or_null json_f32 (if 0 <? total then Some (percent_of (f32_of_int used) (f32_of_int total)) else None)]
  | None => obj ["totalBytes" ⤇ JNull; "usedBytes" ⤇ JNull; "availableBytes" ⤇ JNull; "usagePercent" ⤇ JNull]
  end.
Definition disks_value (disk : option (Z * Z * Z * f32)) : list Json :=
  match disk with
  | Some (total, used, available, usage) =>
      [obj ["mount" ⤇ JStr (lit "/"); "totalBytes" ⤇ JInt total; "usedBytes" ⤇ JInt used; "availableBytes" ⤇ JInt available;
            "usagePercent" ⤇ json_f32 (clamp_percent usage)]]
  | None => []
  end.
Definition gpus_value (g : GpuLines) : list Json :=
  if bool_decide (gl_name g = []) then []
  else [obj ["name" ⤇ JStr (gl_name g); "usagePercent" ⤇ or_null json_f32 (clamp_percent <$> gl_usage g);
             "memoryUsedBytes" ⤇ or_null JInt (fst <$> gl_memory g); "memoryTotalBytes" ⤇ or_null JInt (snd <$> gl_memory g);
             "temperatureC" ⤇ or_null json_f32 (gl_temperature g)]].
Definition metrics_value (alias : str) (parsed : CompactMetrics) (config : ConnectionConfig) : Json :=
  let common := cp_common parsed in
  let info := cm_info common in
  let '(load_1, load_5, load_15) := cm_load common in
  obj ["scope" ⤇ JStr (lit "remote"); "alias" ⤇ JStr alias; "hostname" ⤇ JStr (bi_hostname info);
       "platform" ⤇ JStr (bi_platform info); "username" ⤇ JStr (bi_username info); "uptime" ⤇ JStr (bi_uptime info);
       "addresses" ⤇ JArr (JStr <$> bi_addresses info); "route" ⤇ JArr (route_value config);
       "cpu" ⤇ obj ["model" ⤇ JStr (cpu_model_or_unknown (cm_cpu_model common)); "cores" ⤇ or_null JInt (cm_cpu_cores common);
                    "usagePercent" ⤇ or_null json_f32 (load_percent load_1 (cm_cpu_cores common));
                    "load1" ⤇ or_null json_f32 load_1; "load5" ⤇ or_null json_f32 load_5; "load15" ⤇ or_null json_f32 load_15];
       "memory" ⤇ memory_value (cm_memory common); "disks" ⤇ JArr (disks_value (cp_disk parsed));
       "gpus" ⤇ JArr (gpus_value (cm_gpu common));
       "network" ⤇ obj ["rxBytes" ⤇ or_null JInt (fst <$> cm_network common); "txBytes" ⤇ or_null JInt (snd <$> cm_network common)]].

(** The tools, as [tools/list] announces them. *)
Definition base_tools : list Json :=
  [tool_definition "kssh_list_hosts" "列出 Kaduox 主机库中的主机，不返回密码、私钥或 API 密钥。"
     (obj ["type" ⤇ JStr (lit "object"); "properties" ⤇ obj []; "additionalProperties" ⤇ JBool false]);
   tool_definition "kssh_route" "解析指定主机的实际连接路径，按跳板到目标的顺序返回节点。"
     (object_schema (obj ["alias" ⤇ described "Kaduox 主机别名或 OpenSSH Host 别名"]) ["alias"]%string);
   tool_definition "kssh_basic_info" "读取已连接远程目标的主机名、系统、用户、运行时间和地址，并返回实际跳板链。"
     (object_schema (obj ["alias" ⤇ described "已配置且可连接的主机别名"]) ["alias"]%string);
   tool_definition "kssh_system_metrics" "读取已连接远程目标的 CPU、负载、内存、系统盘、GPU、网络累计值和运行身份，并返回实际跳板链。"
     (object_schema (obj ["alias" ⤇ described "已配置且可连接的主机别名"]) ["alias"]%string);
   tool_definition "kssh_list_files" "列出已连接远程主机的 SFTP 目录。"
     (object_schema (obj ["alias" ⤇ string_type; "path" ⤇ described "远程绝对路径，例如 /home/user"]) ["alias"; "path"]%string)].
Definition exec_tool : Json :=
  tool_definition "kssh_exec"
    "在已连接远程主机上执行命令。仅当启动 MCP 进程时显式设置 KADUOX_MCP_ALLOW_EXEC=1 才会公布此工具；调用前必须得到用户授权。"
    (object_schema (obj ["alias" ⤇ string_type; "command" ⤇ described "要执行的远程命令"]) ["alias"; "command"]%string).
Definition mutation_tools : list Json :=
  [tool_definition "kssh_upload" "把本地普通文件上传到已连接远程主机。需要 KADUOX_MCP_ALLOW_MUTATIONS=1。"
     (object_schema (obj ["alias" ⤇ string_type; "localPath" ⤇ string_type; "remotePath" ⤇ string_type])
        ["alias"; "localPath"; "remotePath"]%string);
   tool_definition "kssh_download" "从已连接远程主机下载普通文件到本地。需要 KADUOX_MCP_ALLOW_MUTATIONS=1。"
     (object_schema (obj ["alias" ⤇ string_type; "remotePath" ⤇ string_type; "localPath" ⤇ string_type])
        ["alias"; "remotePath"; "localPath"]%string)].
Definition tool_definitions : mcp (list Json) :=
  (exec ⇐ exec_enabled;
   mutations ⇐ mutations_enabled;
   p_ret (base_tools ++ (if exec : bool then [exec_tool] else []) ++ (if mutations : bool then mutation_tools else [])))%prog.

(** *** The server

    [from_line] and [from_params] are [serde_json::from_str] and [from_value] with the
    derived readers, [pretty] is [to_string_pretty], and the two scripts are the files
    that are compiled in. *)
Section server.
Context (sys : System) (home_var : option str) (metadata : str → io_result unit).
Context (russh_parse : str → str → result RusshConfig) (russh_default : str → RusshConfig).
Context {unicode : UnicodeTables}.
Context (from_line : str → result RpcRequest) (from_params : Json → result CallToolParams) (pretty : Json → str).
Context (BASIC_INFO_COMMAND SYSTEM_METRICS_COMMAND : str).
Local Abbreviation resolved_by store alias := (resolve_host sys home_var metadata russh_parse russh_default (store_db store) alias None None).

Definition tool_result (value : Json) (is_error : bool) : Json :=
  obj ["content" ⤇ JArr [obj ["type" ⤇ JStr (lit "text"); "text" ⤇ JStr (pretty value)]]; "isError" ⤇ JBool is_error].

Definition lease_for (alias : str) : mcp (ConnectionConfig * nat) :=
  (Done (bail_if (bool_decide (trim alias = [])) "主机别名不能为空") ;;
   existing ⇐ mc (MGetLease alias);
   match existing with
   | Some (client, config) => p_ret (config, client)
   | None =>
       store ⇐ p_context "无法打开 Kaduox 主机库" (awaited (mc MOpenStore));
       resolved ⇐ Done (in_context "无法解析主机" (resolved_by store alias));
       let config := rh_config resolved in
       password ⇐ stored_password config;
       let authentication :=
         match password with Some password => AuthPassword password | None => AuthAuto (c_identity_files config) None end in
       client ⇐ p_context "连接主机失败；请确认 SSH Agent、默认私钥或系统凭据可用" (awaited (mc (MConnectLease alias config authentication)));
       p_ret (config, client)
   end)%prog.

Definition host_value (store : HostStore) (host : HostRecord) : Json :=
  let route :=
    match resolved_by store (hr_alias host) with
    | Ok resolved => route_value (rh_config resolved)
    | Err _ => [route_node (hr_alias host) (hr_address host) (hr_port host) (hr_user host) "target"]
    end in
  obj ["alias" ⤇ JStr (hr_alias host); "address" ⤇ JStr (hr_address host); "role" ⤇ JStr (role_as_str (hr_role host));
       "port" ⤇ JInt (hr_port host); "username" ⤇ JStr (hr_user host); "groups" ⤇ JArr (JStr <$> hr_groups host);
       "tags" ⤇ JArr (JStr <$> hr_tags host); "jumpChain" ⤇ or_null JStr (hr_jump_chain host); "route" ⤇ JArr route].
Definition list_hosts : mcp Json :=
  (store ⇐ p_context "无法打开 Kaduox 主机库" (awaited (mc MOpenStore));
   p_ret (obj ["hosts" ⤇ JArr (host_value store <$> hosts_recent_first store)]))%prog.

Definition route (arguments : Json) : mcp Json :=
  (alias ⇐ Done (required_string arguments "alias");
   store ⇐ p_context "无法打开 Kaduox 主机库" (awaited (mc MOpenStore));
   resolved ⇐ Done (in_context "无法解析主机" (resolved_by store alias));
   p_ret (obj ["alias" ⤇ JStr alias; "route" ⤇ JArr (route_value (rh_config resolved))]))%prog.

Definition basic_info (arguments : Json) : mcp Json :=
  (alias ⇐ Done (required_string arguments "alias");
   leased ⇐ lease_for alias;
   stdout ⇐ p_context "无法执行远程基础信息查询" (awaited (mc (MExec leased.2 BASIC_INFO_COMMAND)));
   parsed ⇐ Done (parse_basic_info (to_string_lossy stdout));
   p_ret (basic_info_value alias parsed leased.1))%prog.

Definition system_metrics (arguments : Json) : mcp Json :=
  (alias ⇐ Done (required_string arguments "alias");
   leased ⇐ lease_for alias;
   stdout ⇐ p_context "无法执行远程系统监控查询" (awaited (mc (MExec leased.2 SYSTEM_METRICS_COMMAND)));
   parsed ⇐ Done (parse_system_metrics (to_string_lossy stdout));
   p_ret (metrics_value alias parsed leased.1))%prog.

Definition list_files (arguments : Json) : mcp Json :=
  (alias ⇐ Done (required_string arguments "alias");
   path ⇐ Done (required_string arguments "path");
   Done (validate_remote_path path) ;;
   leased ⇐ lease_for alias;
   entries ⇐ p_context "无法读取远程目录" (awaited (mc (MListDirectory leased.2 path)));
   p_ret (obj ["alias" ⤇ JStr alias; "path" ⤇ JStr path; "files" ⤇ JArr (file_value <$> entries)]))%prog.

(** Both writers, after everything a command wrote. *)
Definition captured (s : sink) (writes : list (sink * list Z)) : CappedWriter :=
  foldl (λ w '(to, bytes), if bool_decide (to = s) then poll_write EXEC_OUTPUT_LIMIT w bytes else w) capped_empty writes.
Definition tool_exec (arguments : Json) : mcp Json :=
  (alias ⇐ Done (required_string arguments "alias");
   command ⇐ Done (required_string arguments "command");
   Done (validate_command command) ;;
   leased ⇐ lease_for alias;
   executed ⇐ mc (MExecStream leased.2 command);
   exit_status ⇐ Done (in_context "远程命令执行失败" executed.2);
   let stdout := captured Out executed.1 in
   let stderr := captured ErrOut executed.1 in
   p_ret (obj ["alias" ⤇ JStr alias; "command" ⤇ JStr command; "stdout" ⤇ JStr (to_string_lossy (cw_bytes stdout));
               "stderr" ⤇ JStr (to_string_lossy (cw_bytes stderr)); "exitStatus" ⤇ or_null JInt exit_status;
               "truncated" ⤇ JBool (cw_truncated stdout || cw_truncated stderr)]))%prog.

Definition upload (arguments : Json) : mcp Json :=
  (alias ⇐ Done (required_string arguments "alias");
   local_path ⇐ Done (required_string arguments "localPath");
   remote_path ⇐ Done (required_string arguments "remotePath");
   Done (validate_remote_path remote_path) ;;
   is_file ⇐ mc (MIsFile (utf8 local_path));
   Done (bail_if (negb is_file) "本地路径不是普通文件") ;;
   leased ⇐ lease_for alias;
   bytes ⇐ p_context "上传失败" (awaited (mc (MUpload leased.2 (utf8 local_path) remote_path)));
   p_ret (obj ["alias" ⤇ JStr alias; "remotePath" ⤇ JStr remote_path; "bytes" ⤇ JInt bytes]))%prog.

Definition download (arguments : Json) : mcp Json :=
  (alias ⇐ Done (required_string arguments "alias");
   remote_path ⇐ Done (required_string arguments "remotePath");
   local_path ⇐ Done (required_string arguments "localPath");
   Done (validate_remote_path remote_path) ;;
   path ⇐ validate_local_download_path local_path;
   leased ⇐ lease_for alias;
   bytes ⇐ p_context "下载失败" (awaited (mc (MDownload leased.2 remote_path path)));
   p_ret (obj ["alias" ⤇ JStr alias; "localPath" ⤇ JStr local_path; "bytes" ⤇ JInt bytes]))%prog.

Definition unavailable : mcp Json := p_err "tool is unavailable".
(** [name if enabled() => …] *)
Definition gated (enabled : mcp bool) (tool : mcp Json) : mcp Json :=
  (allowed ⇐ enabled; if (allowed : bool) then tool else unavailable)%prog.
Definition dispatch (name : str) (arguments : Json) : mcp Json :=
  if is_key name "kssh_list_hosts" then list_hosts
  else if is_key name "kssh_route" then route arguments
  else if is_key name "kssh_basic_info" then basic_info arguments
  else if is_key name "kssh_system_metrics" then system_metrics arguments
  else if is_key name "kssh_list_files" then list_files arguments
  else if is_key name "kssh_exec" then gated exec_enabled (tool_exec arguments)
  else if is_key name "kssh_upload" then gated mutations_enabled (upload arguments)
  else if is_key name "kssh_download" then gated mutations_enabled (download arguments)
  else unavailable.
Definition call_tool (call : CallToolParams) : mcp Json :=
  (r ⇐ p_try (dispatch (call_name call) (default (JObj []) (call_arguments call)));
   p_ret (match r with
          | Ok value => tool_result value false
          | Err error => tool_result (obj ["error" ⤇ JStr (text error)]) true
          end))%prog.

Definition INSTRUCTIONS : str :=
  text "Kaduox SSH MCP 默认提供只读主机、路由、基础信息和文件目录工具；远程命令需要 KADUOX_MCP_ALLOW_EXEC=1 显式启用，上传/下载需要 KADUOX_MCP_ALLOW_MUTATIONS=1。".
Context (CARGO_PKG_VERSION : str).
Definition is_notification (method : str) : bool :=
  is_key method "notifications/initialized" || is_key method "notifications/cancelled".
Definition handle (request : RpcRequest) : mcp (option Json) :=
  let id := rpc_id request in
  (if is_key (rpc_method request) "initialize" then
     p_ret (Some (rpc_result id (obj
       ["protocolVersion" ⤇ JStr (negotiated_protocol (rpc_params request));
        "capabilities" ⤇ obj ["tools" ⤇ obj ["listChanged" ⤇ JBool false]];
        "serverInfo" ⤇ obj ["name" ⤇ JStr SERVER_NAME; "version" ⤇ JStr CARGO_PKG_VERSION];
        "instructions" ⤇ JStr INSTRUCTIONS])))
   else if is_notification (rpc_method request) then p_ret None
   else if is_key (rpc_method request) "ping" then p_ret (Some (rpc_result id (JObj [])))
   else if is_key (rpc_method request) "tools/list" then
     tools ⇐ tool_definitions;
     p_ret (Some (rpc_result id (obj ["tools" ⤇ JArr tools])))
   else if is_key (rpc_method request) "tools/call" then
     match rpc_params request with
     | None => p_ret (Some (rpc_error id (-32602) (lit "tools/call requires params")))
     | Some params =>
         match from_params params with
         | Ok call => value ⇐ call_tool call; p_ret (Some (rpc_result id value))
         | Err error => p_ret (Some (rpc_error id (-32602) (lit error)))
         end
     end
   else p_ret (Some (rpc_error id (-32601) (lit "method not found: " ++ rpc_method request))))%prog.

(** The loop over the lines; [fuel] is how many are looked at. *)
Fixpoint serve (fuel : nat) : mcp unit :=
  match fuel with
  | O => p_err "out of fuel"
  | S fuel =>
      (line ⇐ awaited (mc MRead);
       if bool_decide (line = []) then p_ret tt
       else
         Done (bail_if (negb (ends_with line [LF]) && (MAX_LINE_BYTES <=? str_len line)) "MCP 请求单行超过 1 MiB") ;;
         let raw := trim line in
         if bool_decide (raw = []) then serve fuel
         else
           response ⇐ match from_line raw with
                      | Ok request => handle request
                      | Err error => p_ret (Some (rpc_error None (-32700) (lit "invalid JSON: " ++ lit error)))
                      end;
           match response with
           | Some response => awaited (mc (MWrite response)) ;; serve fuel
           | None => serve fuel
           end)%prog
  end.
End server.

(** ** What the server is held to *)
Record McpWatch := mk_mcp_watch {
  mw_request : option (result RpcRequest);             (* the last line's *)
  mw_owed : bool;                                      (* it is to be answered *)
  mw_vars : list (str * option str);                   (* variables read while it is served *)
  mw_os_vars : list (str * option os_path);
  mw_files : list os_path;                             (* what was seen to be a file *)
  mw_store : option HostStore;
  mw_keys : list (str * option str);                   (* what the credential store answered *)
  mw_clients : list (str * nat * ConnectionConfig);    (* what the manager handed out, ever *)
}.
Definition mcp_started : McpWatch := mk_mcp_watch None false [] [] [] None [] [].
Definition add_var name value (g : McpWatch) := mk_mcp_watch (mw_request g) (mw_owed g) (mw_vars g ++ [(name, value)]) (mw_os_vars g)
  (mw_files g) (mw_store g) (mw_keys g) (mw_clients g).
Definition add_os_var name value (g : McpWatch) := mk_mcp_watch (mw_request g) (mw_owed g) (mw_vars g) (mw_os_vars g ++ [(name, value)])
  (mw_files g) (mw_store g) (mw_keys g) (mw_clients g).
Definition add_file path (g : McpWatch) := mk_mcp_watch (mw_request g) (mw_owed g) (mw_vars g) (mw_os_vars g)
  (mw_files g ++ [path]) (mw_store g) (mw_keys g) (mw_clients g).
Definition set_mcp_store store (g : McpWatch) := mk_mcp_watch (mw_request g) (mw_owed g) (mw_vars g) (mw_os_vars g)
  (mw_files g) (Some store) (mw_keys g) (mw_clients g).
Definition add_key account value (g : McpWatch) := mk_mcp_watch (mw_request g) (mw_owed g) (mw_vars g) (mw_os_vars g)
  (mw_files g) (mw_store g) (mw_keys g ++ [(account, value)]) (mw_clients g).
Definition add_client alias client config (g : McpWatch) := mk_mcp_watch (mw_request g) (mw_owed g) (mw_vars g) (mw_os_vars g)
  (mw_files g) (mw_store g) (mw_keys g) (mw_clients g ++ [(alias, client, config)]).
Definition paid (g : McpWatch) := mk_mcp_watch (mw_request g) false (mw_vars g) (mw_os_vars g)
  (mw_files g) (mw_store g) (mw_keys g) (mw_clients g).

Definition answer_owed (r : result RpcRequest) : bool :=
  match r with Ok request => negb (is_notification (rpc_method request)) | Err _ => true end.

(** The names that a path leads through, by its components alone: [..] undoes the one before. *)
Definition lexical_step (names : list str) (c : Component) : list str :=
  match c with Normal w => names ++ [w] | ParentDir => removelast names | _ => names end.
Definition lexical (path : os_path) : list str := foldl lexical_step [] (path_components path).

(** Where a requested path may be written: at the place it leads to, named without [.] and
    [..]; and, when the home directory is given as an absolute path, below it.  A relative one
    lets nothing through unless it leads nowhere (as the empty one does): then, anything. *)
Definition confined (home requested path : os_path) : Prop :=
  is_absolute requested = true ∧ path_components path = RootDir :: (Normal <$> lexical requested) ∧
  if is_absolute home then lexical home `prefix_of` lexical requested else lexical home = [].

Section discipline.
Context (sys : System) (home_var : option str) (metadata : str → io_result unit).
Context (russh_parse : str → str → result RusshConfig) (russh_default : str → RusshConfig).
Context {unicode : UnicodeTables}.
Context (from_line : str → result RpcRequest) (from_params : Json → result CallToolParams) (pretty : Json → str).
Context (BASIC_INFO_COMMAND SYSTEM_METRICS_COMMAND : str).
Local Abbreviation resolved_by store alias := (resolve_host sys home_var metadata russh_parse russh_default (store_db store) alias None None).

(** The line that arrived. *)
Definition arrived (line : str) (g : McpWatch) : McpWatch :=
  let raw := trim line in
  if bool_decide (raw = []) then mk_mcp_watch None false [] [] [] None [] (mw_clients g)
  else mk_mcp_watch (Some (from_line raw)) (answer_owed (from_line raw)) [] [] [] None [] (mw_clients g).

(** The request being served calls a tool. *)
Definition calls (g : McpWatch) (name : string) (arguments : Json) : Prop :=
  ∃ request params call, mw_request g = Some (Ok request) ∧ rpc_method request = lit "tools/call" ∧ rpc_params request = Some params ∧
    from_params params = Ok call ∧ call_name call = lit name ∧ arguments = default (JObj []) (call_arguments call).
(** The environment allows it, as read for this request. *)
Definition gate (g : McpWatch) (name : str) : Prop :=
  ∃ value, (name, Some value) ∈ mw_vars g ∧ value ∈ [lit "1"; lit "true"; lit "yes"].
(** A connection that the manager handed out for the host that was named. *)
Definition leased (g : McpWatch) (arguments : Json) (client : nat) : Prop :=
  ∃ alias config, required_string arguments "alias" = Ok alias ∧ (alias, client, config) ∈ mw_clients g.
Definition home_read (g : McpWatch) (home : os_path) : Prop :=
  (lit "USERPROFILE", Some home) ∈ mw_os_vars g ∨ (lit "USERPROFILE", None) ∈ mw_os_vars g ∧ (lit "HOME", Some home) ∈ mw_os_vars g.

Definition remote_path_ok (path : str) : Prop :=
  path ≠ [] ∧ str_len path ≤ 4096 ∧ Forall (λ c, is_control c = false) path.
Definition command_ok (command : str) : Prop := command ≠ [] ∧ str_len command ≤ 16384 ∧ 0 ∉ command.

Definition mcp_allowed (q : mcp_request) (g : McpWatch) : Prop :=
  match q with
  | MRead => mw_owed g = false
  | MWrite response =>
      mw_owed g = true ∧ get_field response (lit "jsonrpc") = Some (JStr (lit "2.0")) ∧
      get_field response (lit "id") =
        Some (match mw_request g with Some (Ok request) => default JNull (rpc_id request) | _ => JNull end) ∧
      (is_Some (get_field response (lit "result")) ↔ ¬ is_Some (get_field response (lit "error")))
  | MVar name => name = ALLOW_EXEC ∨ name = ALLOW_MUTATIONS
  | MVarOs name => (name = lit "USERPROFILE" ∨ name = lit "HOME") ∧ ∃ arguments, calls g "kssh_download" arguments
  | MOpenStore => True
  | MKeyring service account =>
      service = KEYCHAIN_SERVICE ∧
      ∃ name arguments alias store r, calls g name arguments ∧ required_string arguments "alias" = Ok alias ∧
        mw_store g = Some store ∧ resolved_by store alias = Ok r ∧ account = account_name (rh_config r)
  | MGetLease alias => ∃ name arguments, calls g name arguments ∧ required_string arguments "alias" = Ok alias
  | MConnectLease alias config authentication =>
      ∃ name arguments store r, calls g name arguments ∧ required_string arguments "alias" = Ok alias ∧
        mw_store g = Some store ∧ resolved_by store alias = Ok r ∧ config = rh_config r ∧
        ((∃ password, (account_name config, Some password) ∈ mw_keys g ∧ authentication = AuthPassword password) ∨
         (account_name config, None) ∈ mw_keys g ∧ authentication = AuthAuto (c_identity_files config) None)
  | MExec client command =>
      ∃ arguments, leased g arguments client ∧
        (calls g "kssh_basic_info" arguments ∧ command = BASIC_INFO_COMMAND ∨
         calls g "kssh_system_metrics" arguments ∧ command = SYSTEM_METRICS_COMMAND)
  | MExecStream client command =>
      ∃ arguments, calls g "kssh_exec" arguments ∧ gate g ALLOW_EXEC ∧ leased g arguments client ∧
        required_string arguments "command" = Ok command ∧ command_ok command
  | MListDirectory client path =>
      ∃ arguments, calls g "kssh_list_files" arguments ∧ leased g arguments client ∧
        required_string arguments "path" = Ok path ∧ remote_path_ok path
  | MIsFile path =>
      ∃ arguments local, calls g "kssh_upload" arguments ∧ gate g ALLOW_MUTATIONS ∧
        required_string arguments "localPath" = Ok local ∧ path = utf8 local
  | MUpload client path remote =>
      ∃ arguments local, calls g "kssh_upload" arguments ∧ gate g ALLOW_MUTATIONS ∧ leased g arguments client ∧
        required_string arguments "localPath" = Ok local ∧ path = utf8 local ∧ path ∈ mw_files g ∧
        required_string arguments "remotePath" = Ok remote ∧ remote_path_ok remote
  | MDownload client remote path =>
      ∃ arguments local home, calls g "kssh_download" arguments ∧ gate g ALLOW_MUTATIONS ∧ leased g arguments client ∧
        required_string arguments "remotePath" = Ok remote ∧ remote_path_ok remote ∧
        required_string arguments "localPath" = Ok local ∧ 
        home_read g home ∧ confined home (utf8 local) path
  end.
Definition mcp_step (q : mcp_request) : mcp_answer q → McpWatch → McpWatch → Prop :=
  match q with
  | MRead => λ r g g', match r with Ok line => g' = arrived line g | Err _ => g' = g end
  | MWrite _ => λ r g g', match r with Ok _ => g' = paid g | Err _ => g' = g end
  | MVar name => λ value g g', g' = add_var name value g
  | MVarOs name => λ value g g', g' = add_os_var name value g
  | MOpenStore => λ r g g', match r with Ok store => g' = set_mcp_store store g | Err _ => g' = g end
  | MKeyring _ account => λ value g g', g' = add_key account value g
  | MGetLease alias => λ r g g', match r with Some (client, config) => g' = add_client alias client config g | None => g' = g end
  | MConnectLease alias config _ => λ r g g', match r with Ok client => g' = add_client alias client config g | Err _ => g' = g end
  | MIsFile path => λ r g g', g' = if (r : bool) then add_file path g else g
  | _ => λ _ g g', g' = g
  end.
Definition mcp_monitor : monitor mcp_interface McpWatch := Monitor (E := mcp_interface) mcp_allowed mcp_step.
End discipline.

(** ** Proofs *)

(** *** Normalized paths *)
Definition plain (w : str) : Prop := w ≠ [] ∧ w ≠ dot ∧ w ≠ dotdot ∧ slash ∉ w.
Definition canonical (names : list str) : os_path := slash :: join_with slash names.

Lemma plain_component w : plain w → component_of w = Some (Normal w).
Proof. intros (? & ? & ? & ?). unfold component_of. by rewrite !bool_decide_eq_false_2. Qed.
Lemma split_canonical names : split slash (canonical names) = [] :: split slash (join_with slash names).
Proof. unfold canonical, split. cbn [split_on]. by rewrite Z.eqb_refl. Qed.
Lemma split_names names : Forall plain names → names ≠ [] → split slash (join_with slash names) = names.
Proof. intros Hn Hne. apply split_join; [done|]. eapply Forall_impl; [exact Hn|]. by intros w (? & ? & ? & ?). Qed.

Lemma components_canonical names : Forall plain names → path_components (canonical names) = RootDir :: (Normal <$> names).
Proof.
  intros Hn. unfold path_components. rewrite split_canonical.
  assert (starts_with (canonical names) [slash] = true) as -> by by rewrite starts_with_one.
  cbn [app]. f_equal. cbn [omap list_omap]. change (component_of []) with (@None Component). cbv iota.
  destruct names as [|w ws]; [done|]. rewrite split_names by done.
  induction Hn as [|v vs Hv _ IH]; [done|]. cbn [omap list_omap fmap list_fmap]. rewrite plain_component by done. by rewrite IH.
Qed.

Lemma last_canonical names w : plain w → last (canonical (names ++ [w])) ≠ Some slash.
Proof.
  intros (Hne & _ & _ & Hs). unfold canonical.
  assert (∃ pre, slash :: join_with slash (names ++ [w]) = pre ++ w) as [pre ->].
  { destruct names as [|v vs]; [by exists [slash]|]. rewrite join_with_app by done.
    exists (slash :: join_with slash (v :: vs) ++ [slash]). cbn [join_with]. by rewrite <- app_comm_cons, <- app_assoc. }
  destruct w as [|c w' _] using rev_ind; [done|]. rewrite app_assoc, last_snoc. intros [= ->]. apply Hs. set_solver.
Qed.

Lemma push_canonical names w : Forall plain names → plain w → path_push (canonical names) w = canonical (names ++ [w]).
Proof.
  intros Hn Hw. pose proof Hw as (Hne & _ & _ & Hs). unfold path_push.
  assert (starts_with w [slash] = false) as ->.
  { rewrite starts_with_one. apply bool_decide_eq_false. intros Hh. apply Hs. destruct w; [done|]. injection Hh as ->. by left. }
  rewrite bool_decide_eq_false_2 by done. cbn [orb]. rewrite ends_with_one.
  destruct names as [|v names _] using rev_ind; [done|]. apply Forall_app in Hn as [Hn [Hv _]%Forall_cons].
  rewrite bool_decide_eq_false_2 by by apply last_canonical. unfold canonical.
  rewrite (join_with_app slash (names ++ [v]) [w]) by (by destruct names || done). done.
Qed.

Lemma nonvoid_plain w : plain w → void_piece w = false.
Proof. intros (? & ? & _). unfold void_piece. by rewrite !bool_decide_eq_false_2. Qed.
Lemma pop_canonical names : Forall plain names → path_pop (canonical names) = canonical (removelast names).
Proof.
  intros Hn. unfold path_pop, LocalPath.path_parent, path_body.
  assert (path_head (canonical names) = [slash]) as -> by (unfold path_head; by rewrite starts_with_one).
  change (drop (length [slash]) (canonical names)) with (join_with slash names).
  destruct names as [|v names _] using rev_ind; [done|]. rewrite split_names by (done || by destruct names).
  rewrite reverse_snoc, removelast_last. apply Forall_app in Hn as [Hn [Hv _]%Forall_cons]. cbn [trim_void].
  rewrite nonvoid_plain by done. cbn [default].
  assert (trim_void (reverse names) = reverse names) as ->; [|by rewrite reverse_involutive].
  destruct (reverse names) as [|u us] eqn:Hr; [done|]. cbn [trim_void]. rewrite nonvoid_plain; [done|].
  rewrite Forall_forall in Hn. apply Hn. rewrite <- (reverse_involutive names), Hr, elem_of_reverse. by left.
Qed.

Lemma component_plain piece c : slash ∉ piece → component_of piece = Some c → c = ParentDir ∨ ∃ w, c = Normal w ∧ plain w.
Proof.
  intros Hs. unfold component_of. repeat case_bool_decide; try done; intros [= <-]; [by left|]. right. exists piece.
  split; [done|]. split_and!; naive_solver.
Qed.

Lemma components_absolute path : is_absolute path = true →
  ∃ rest, path_components path = RootDir :: rest ∧ Forall (λ c, c = ParentDir ∨ ∃ w, c = Normal w ∧ plain w) rest.
Proof.
  unfold is_absolute, path_components. intros Habs. pose proof (split_nonempty slash path) as Hne. pose proof (split_pieces slash path) as Hp.
  destruct (split slash path) as [|first rest]; [done|]. rewrite Habs. eexists. split; [reflexivity|].
  apply Forall_forall. intros c (piece & Hin & Hc)%list_elem_of_omap. eapply component_plain; [|exact Hc]. by apply Hp.
Qed.

Lemma Forall_removelast {A} (P : A → Prop) l : Forall P l → Forall P (removelast l).
Proof. intros Hl. destruct l as [|x l _] using rev_ind; [done|]. rewrite removelast_last. by apply Forall_app in Hl as [? _]. Qed.

(** An absolute path becomes the canonical path of its names. *)
Lemma normalize_canonical path : is_absolute path = true → normalize path = canonical (lexical path) ∧ Forall plain (lexical path).
Proof.
  intros (rest & Hc & Hrest)%components_absolute. unfold normalize, lexical. rewrite Hc. cbn [foldl lexical_step].
  change (normalize_step [] RootDir) with (canonical []). clear Hc.
  assert (Forall plain []) as Hnames by constructor. revert Hnames. generalize (@nil str). 
  induction Hrest as [|c rest Hc _ IH]; intros names Hnames; [done|]. cbn [foldl].
  destruct Hc as [->|(w & -> & Hw)]; cbn [normalize_step lexical_step].
  - rewrite pop_canonical by done. by apply IH, Forall_removelast.
  - rewrite push_canonical by done. apply IH. by apply Forall_app; split; [|constructor].
Qed.

(** A relative path becomes its names. *)
Lemma last_names names w : plain w → last (join_with slash (names ++ [w])) ≠ Some slash.
Proof.
  intros Hw Hl. apply (last_canonical names w Hw). unfold canonical. destruct (join_with slash (names ++ [w])) as [|c l]; [done|].
  by rewrite last_cons_cons.
Qed.
Lemma names_nonempty names w : plain w → join_with slash (names ++ [w]) ≠ [].
Proof.
  intros (Hw & _) Hn. destruct names as [|v vs]; [done|]. rewrite join_with_app in Hn by done. by apply app_eq_nil in Hn as [_ ?].
Qed.
Lemma names_head names : Forall plain names → path_head (join_with slash names) = [].
Proof.
  intros Hn. unfold path_head. destruct names as [|w ws]; [done|]. pose proof (split_names (w :: ws) Hn ltac:(done)) as Hsplit.
  apply Forall_cons in Hn as [(Hw & Hd & _ & Hs) _]. destruct w as [|c w]; [done|].
  assert (c ≠ slash) as Hc by (intros ->; apply Hs; by left).
  set (path := join_with slash ((c :: w) :: ws)) in *.
  assert (∃ rest, path = c :: w ++ rest ∧ (rest = [] ∨ head rest = Some slash)) as (rest & Hpath & Hrest).
  { unfold path. destruct ws as [|v vs]; [exists []; rewrite app_nil_r; by split; [|left]|].
    change ((c :: w) :: v :: vs) with ([c :: w] ++ v :: vs). rewrite join_with_app by done. exists (slash :: join_with slash (v :: vs)). by split; [|right]. }
  clearbody path. subst path. assert (starts_with (c :: w ++ rest) [slash] = false) as -> by (rewrite starts_with_one; apply bool_decide_eq_false; by intros [= ->]).
  case_bool_decide as Hdot.
  - unfold dot in *. injection Hdot as -> Hnil. apply app_eq_nil in Hnil as [-> ->]. done.
  - cbn [orb]. destruct (starts_with (c :: w ++ rest) (dot ++ [slash])) eqn:He; [|done]. exfalso.
    unfold starts_with in He. destruct (strip_prefix _ _) as [more|] eqn:Hm; [|done]. apply strip_prefix_some in Hm.
    unfold dot in *. cbn in Hm. injection Hm as -> Hm. apply Hd. f_equal.
    destruct w as [|d w]; [done|]. cbn in Hm. injection Hm as -> _. destruct Hs. right. by left.
Qed.
Lemma components_names names : Forall plain names → path_components (join_with slash names) = Normal <$> names.
Proof.
  intros Hn. destruct names as [|w ws]; [done|]. unfold path_components. rewrite split_names by done.
  pose proof (names_head _ Hn) as Hh. unfold path_head in Hh. destruct (starts_with _ [slash]); [done|].
  pose proof Hn as [(_ & Hd & _) _]%Forall_cons. rewrite bool_decide_eq_false_2 by done. cbn [app].
  clear Hh. induction Hn as [|v vs Hv _ IH]; [done|]. cbn [omap list_omap fmap list_fmap]. rewrite plain_component by done.
  f_equal. exact IH.
Qed.
Lemma push_names names w : Forall plain names → plain w → path_push (join_with slash names) w = join_with slash (names ++ [w]).
Proof.
  intros Hn Hw. pose proof Hw as (Hne & _ & _ & Hs). unfold path_push.
  assert (starts_with w [slash] = false) as ->.
  { rewrite starts_with_one. apply bool_decide_eq_false. intros Hh. apply Hs. destruct w; [done|]. injection Hh as ->. by left. }
  destruct names as [|v names _] using rev_ind; [done|]. apply Forall_app in Hn as [Hn [Hv _]%Forall_cons].
  rewrite bool_decide_eq_false_2 by by apply names_nonempty. cbn [orb]. rewrite ends_with_one, bool_decide_eq_false_2 by by apply last_names.
  rewrite (join_with_app slash (names ++ [v]) [w]) by (by destruct names || done). done.
Qed.
Lemma pop_names names : Forall plain names → path_pop (join_with slash names) = join_with slash (removelast names).
Proof.
  intros Hn. unfold path_pop, LocalPath.path_parent, path_body. rewrite names_head by done.
  cbn [length]. rewrite drop_0.
  destruct names as [|v names _] using rev_ind; [done|]. rewrite split_names by (done || by destruct names).
  rewrite reverse_snoc, removelast_last. apply Forall_app in Hn as [Hn [Hv _]%Forall_cons]. cbn [trim_void].
  rewrite nonvoid_plain by done. cbn [default].
  assert (trim_void (reverse names) = reverse names) as ->; [|by rewrite reverse_involutive].
  destruct (reverse names) as [|u us] eqn:Hr; [done|]. cbn [trim_void]. rewrite nonvoid_plain; [done|].
  rewrite Forall_forall in Hn. apply Hn. rewrite <- (reverse_involutive names), Hr, elem_of_reverse. by left.
Qed.
Lemma components_relative path : is_absolute path = false →
  Forall (λ c, c = CurDir ∨ c = ParentDir ∨ ∃ w, c = Normal w ∧ plain w) (path_components path).
Proof.
  unfold is_absolute, path_components. intros Habs. pose proof (split_pieces slash path) as Hp.
  destruct (split slash path) as [|first rest]; [done|]. rewrite Habs. apply Forall_app. split; [case_bool_decide; repeat constructor|].
  apply Forall_forall. intros c (piece & Hin & Hc)%list_elem_of_omap. right. eapply component_plain; [|exact Hc]. by apply Hp.
Qed.
Lemma normalize_names path : is_absolute path = false → normalize path = join_with slash (lexical path) ∧ Forall plain (lexical path).
Proof.
  intros Hrest%components_relative. unfold normalize, lexical.
  cut (∀ names, Forall plain names →
    foldl normalize_step (join_with slash names) (path_components path) = join_with slash (foldl lexical_step names (path_components path)) ∧
    Forall plain (foldl lexical_step names (path_components path))); [intros H; by apply (H [])|].
  induction Hrest as [|c rest Hc _ IH]; intros names Hnames; [done|]. cbn [foldl].
  destruct Hc as [->|[->|(w & -> & Hw)]]; cbn [normalize_step lexical_step].
  - by apply IH.
  - rewrite pop_names by done. by apply IH, Forall_removelast.
  - rewrite push_names by done. apply IH. by apply Forall_app; split; [|constructor].
Qed.

Lemma confined_normalize home path out :
  is_absolute path = true → confine_download home path = Ok out → confined home path out.
Proof.
  intros Habs. unfold confine_download. destruct (path_starts_with _ _) eqn:Hp; [|done]. cbn. intros [= <-].
  apply bool_decide_eq_true in Hp. destruct (normalize_canonical path Habs) as [Heq Hplain]. rewrite Heq in *.
  unfold confined. rewrite components_canonical in * by done. split_and!; [done..|].
  destruct (is_absolute home) eqn:Hhome.
  - destruct (normalize_canonical home Hhome) as [Heqh Hplainh]. rewrite Heqh, components_canonical in Hp by done.
    apply prefix_cons_inv_2 in Hp. destruct Hp as [more Hp]. apply fmap_app_inv in Hp as (l1 & l2 & H1 & _ & ->).
    assert (Inj (=) (=) Normal) as Hinj by (by intros ?? [= ->]). apply (inj (fmap Normal)) in H1 as <-. by exists l2.
  - destruct (normalize_names home Hhome) as [Heqh Hplainh]. rewrite Heqh, components_names in Hp by done.
    destruct (lexical home) as [|w ws]; [done|]. by apply prefix_cons_inv_1 in Hp.
Qed.

(** *** The server's requests *)

(** While one request is served, what was seen stays seen. *)
Record extends (g g' : McpWatch) : Prop := {
  ex_request : mw_request g' = mw_request g;
  ex_owed : mw_owed g' = mw_owed g;
  ex_vars : mw_vars g ⊆ mw_vars g';
  ex_os_vars : mw_os_vars g ⊆ mw_os_vars g';
  ex_files : mw_files g ⊆ mw_files g';
  ex_clients : mw_clients g ⊆ mw_clients g';
}.
#[export] Instance extends_preorder : PreOrder extends.
Proof.
  split; [by intros g; split|]. intros g1 g2 g3 [] []. split; try congruence; by etransitivity.
Qed.
Ltac extend := split; cbn; set_solver.

Section proofs.
Context (sys : System) (home_var : option str) (metadata : str → io_result unit).
Context (russh_parse : str → str → result RusshConfig) (russh_default : str → RusshConfig).
Context {unicode : UnicodeTables}.
Context (from_line : str → result RpcRequest) (from_params : Json → result CallToolParams) (pretty : Json → str).
Context (BASIC_INFO_COMMAND SYSTEM_METRICS_COMMAND CARGO_PKG_VERSION : str).
Local Abbreviation M := (mcp_monitor sys home_var metadata russh_parse russh_default from_line from_params BASIC_INFO_COMMAND SYSTEM_METRICS_COMMAND).
Local Abbreviation calls := (calls from_params).

Lemma calls_extends g g' name arguments : extends g g' → calls g name arguments → calls g' name arguments.
Proof. intros [Hr _ _ _ _ _] (request & params & call & Hg & Hrest). exists request, params, call. by rewrite Hr. Qed.
Lemma gate_extends g g' name : extends g g' → gate g name → gate g' name.
Proof. intros [] (value & Hin & Hv). exists value. by split; [set_solver|]. Qed.
Lemma home_extends g g' home : extends g g' → home_read g home → home_read g' home.
Proof. intros [] [?|[? ?]]; [left|right; split]; set_solver. Qed.

(** [….context(…)?] on an awaited request. *)
Lemma wp_awaited {A B} (q : mcp_interface) (cast : answer q → result A) (f : A → mcp B) e Q g :
  mcp_allowed sys home_var metadata russh_parse russh_default from_params BASIC_INFO_COMMAND SYSTEM_METRICS_COMMAND q g →
  (∀ r g', mcp_step from_line q r g g' → match cast r with Ok a => wp M (f a) Q g' | Err _ => Q (Err e) g' end) →
  wp M (p_bind (p_context e (p_bind (ask q) (λ r, Done (cast r)))) f) Q g.
Proof.
  intros Ha Hk. split; [done|]. intros r g' Hr. specialize (Hk r g' Hr). cbn. by destruct (cast r).
Qed.

Lemma wp_lease_for {A} name arguments alias (f : ConnectionConfig * nat → mcp A) Q g :
  calls g name arguments → required_string arguments "alias" = Ok alias →
  (∀ e g', extends g g' → Q (Err e) g') →
  (∀ config client g', extends g g' → leased g' arguments client → wp M (f (config, client)) Q g') →
  wp M (p_bind (lease_for sys home_var metadata russh_parse russh_default alias) f) Q g.
Proof.
  intros Hcalls Halias Hfail Hk. unfold lease_for. rewrite wp_bind, wp_done_bind.
  destruct (bail_if _ _) as [[]|e]; [|by apply Hfail]. unfold mc at 1. split; [by exists name, arguments|].
  intros [[client config]|] g1 Hg1; cbn [step mcp_monitor mcp_step] in Hg1; subst g1; cbn [p_bind].
  { apply Hk; [extend|]. exists alias, config. split; [done|]. cbn. set_solver. }
  unfold awaited, mc. split; [done|]. intros r g1 Hg1. cbn [step mcp_monitor mcp_step] in Hg1. change (result HostStore) in r.
  destruct r as [store|e]; [|subst g1; cbn; by apply Hfail]. cbn -[resolve_host]. subst g1.
  destruct (resolve_host _ _ _ _ _ _ _ _ _) as [r|e] eqn:Hr; [|cbn; apply Hfail; extend]. cbn -[resolve_host].
  set (g1 := set_mcp_store store g). assert (extends g g1) as Hg1 by extend.
  split; [split; [done|]; exists name, arguments, alias, store, r; split_and!; [exact (calls_extends _ _ _ _ Hg1 Hcalls)|done..]|].
  intros password g2 ->. set (g2 := add_key _ _ _). assert (extends g g2) as Hg2 by extend. split.
  { exists name, arguments, store, r. split_and!; [exact (calls_extends _ _ _ _ Hg2 Hcalls)|done..|]. unfold g2. cbn.
    destruct password as [password|]; [left; exists password|right]; (split; [set_solver|done]). }
  intros [client|e] g3 Hg3; cbn [step mcp_monitor mcp_step] in Hg3; subst g3; cbn [p_bind p_context in_context].
  - apply Hk; [extend|]. exists alias, (rh_config r). split; [done|]. cbn. set_solver.
  - by apply Hfail.
Qed.

(** *** The tools *)
Lemma wp_required {A} arguments name (f : str → mcp A) Q g :
  (∀ e, Q (Err e) g) → (∀ value, required_string arguments name = Ok value → wp M (f value) Q g) →
  wp M (p_bind (Done (required_string arguments name)) f) Q g.
Proof. intros Hfail Hk. rewrite wp_done_bind. destruct (required_string _ _); auto. Qed.
Lemma wp_check {A} (r : result unit) (f : unit → mcp A) Q g :
  (∀ e, Q (Err e) g) → (r = Ok tt → wp M (f tt) Q g) → wp M (p_bind (Done r) f) Q g.
Proof. intros Hfail Hk. rewrite wp_done_bind. destruct r as [[]|]; auto. Qed.

Lemma remote_path_checked path : validate_remote_path path = Ok tt → remote_path_ok path.
Proof.
  unfold validate_remote_path. rewrite bail_if_ok, !orb_false_iff. intros [[[Hne Hlen] _] Hctl]. split_and!.
  - by apply bool_decide_eq_false in Hne.
  - by apply Z.ltb_ge in Hlen.
  - by apply existsb_false.
Qed.
Lemma command_checked command : validate_command command = Ok tt → command_ok command.
Proof.
  unfold validate_command. rewrite bail_if_ok, !orb_false_iff. intros [[Hne Hlen] Hnul]. split_and!.
  - by apply bool_decide_eq_false in Hne.
  - by apply Z.ltb_ge in Hlen.
  - by apply contains_char_spec.
Qed.

Local Abbreviation kept g := (λ _ g', extends g g').

Lemma wp_list_hosts g : wp M (list_hosts sys home_var metadata russh_parse russh_default) (kept g) g.
Proof.
  unfold list_hosts, awaited, mc. split; [done|]. intros [store|e] g1 Hg1; cbn [step mcp_monitor mcp_step] in Hg1; subst g1; cbn; [extend|done].
Qed.
Lemma wp_route arguments g : wp M (route sys home_var metadata russh_parse russh_default arguments) (kept g) g.
Proof.
  unfold route. apply wp_required; [done|]. intros alias _. unfold awaited, mc. split; [done|].
  intros [store|e] g1 Hg1; cbn [step mcp_monitor mcp_step] in Hg1; subst g1; cbn -[resolve_host]; [|done].
  destruct (resolve_host _ _ _ _ _ _ _ _ _); cbn; extend.
Qed.

Lemma wp_basic_info arguments g : calls g "kssh_basic_info" arguments →
  wp M (basic_info sys home_var metadata russh_parse russh_default BASIC_INFO_COMMAND arguments) (kept g) g.
Proof.
  intros Hcalls. unfold basic_info. apply wp_required; [done|]. intros alias Halias.
  eapply wp_lease_for; [exact Hcalls|exact Halias|done|]. intros config client g1 Hg1 Hleased.
  unfold awaited, mc. split; [exists arguments; split; [done|left; split; [exact (calls_extends _ _ _ _ Hg1 Hcalls)|done]]|].
  intros [stdout|e] g2 Hg2; cbn [step mcp_monitor mcp_step] in Hg2; subst g2; cbn -[parse_basic_info]; [|done].
  by destruct (parse_basic_info _).
Qed.
Lemma wp_system_metrics arguments g : calls g "kssh_system_metrics" arguments →
  wp M (system_metrics sys home_var metadata russh_parse russh_default SYSTEM_METRICS_COMMAND arguments) (kept g) g.
Proof.
  intros Hcalls. unfold system_metrics. apply wp_required; [done|]. intros alias Halias.
  eapply wp_lease_for; [exact Hcalls|exact Halias|done|]. intros config client g1 Hg1 Hleased.
  unfold awaited, mc. split; [exists arguments; split; [done|right; split; [exact (calls_extends _ _ _ _ Hg1 Hcalls)|done]]|].
  intros [stdout|e] g2 Hg2; cbn [step mcp_monitor mcp_step] in Hg2; subst g2; cbn -[parse_system_metrics]; [|done].
  by destruct (parse_system_metrics _).
Qed.
Lemma wp_list_files arguments g : calls g "kssh_list_files" arguments →
  wp M (list_files sys home_var metadata russh_parse russh_default arguments) (kept g) g.
Proof.
  intros Hcalls. unfold list_files. apply wp_required; [done|]. intros alias Halias. apply wp_required; [done|]. intros path Hpath.
  apply wp_check; [done|]. intros Hvalid%remote_path_checked.
  eapply wp_lease_for; [exact Hcalls|exact Halias|done|]. intros config client g1 Hg1 Hleased.
  unfold awaited, mc. split; [exists arguments; split_and!; [exact (calls_extends _ _ _ _ Hg1 Hcalls)|done..]|].
  intros [entries|e] g2 Hg2; cbn [step mcp_monitor mcp_step] in Hg2; subst g2; by cbn.
Qed.

Lemma wp_tool_exec arguments g : calls g "kssh_exec" arguments → gate g ALLOW_EXEC →
  wp M (tool_exec sys home_var metadata russh_parse russh_default arguments) (kept g) g.
Proof.
  intros Hcalls Hgate. unfold tool_exec. apply wp_required; [done|]. intros alias Halias. apply wp_required; [done|]. intros command Hcommand.
  apply wp_check; [done|]. intros Hvalid%command_checked.
  eapply wp_lease_for; [exact Hcalls|exact Halias|done|]. intros config client g1 Hg1 Hleased.
  unfold mc. split; [exists arguments; split_and!; [exact (calls_extends _ _ _ _ Hg1 Hcalls)|exact (gate_extends _ _ _ Hg1 Hgate)|done..]|].
  intros [writes r] g2 Hg2; cbn [step mcp_monitor mcp_step] in Hg2; subst g2. cbn. by destruct r.
Qed.
Lemma wp_tool_upload arguments g : calls g "kssh_upload" arguments → gate g ALLOW_MUTATIONS →
  wp M (upload sys home_var metadata russh_parse russh_default arguments) (kept g) g.
Proof.
  intros Hcalls Hgate. unfold upload. apply wp_required; [done|]. intros alias Halias. apply wp_required; [done|]. intros local Hlocal.
  apply wp_required; [done|]. intros remote Hremote. apply wp_check; [done|]. intros Hvalid%remote_path_checked.
  unfold mc at 1. split; [by exists arguments, local|]. intros is_file g1 Hg1. cbn [step mcp_monitor mcp_step] in Hg1. change bool in is_file.
  cbn [p_bind ask]. apply wp_check; [intros _; subst g1; destruct is_file; [extend|done]|]. intros ->%bail_if_ok%negb_false_iff. subst g1.
  set (g1 := add_file _ g). assert (extends g g1) as Hg1 by extend.
  eapply wp_lease_for; [exact (calls_extends _ _ _ _ Hg1 Hcalls)|exact Halias|by intros; etransitivity|].
  intros config client g2 Hg2 Hleased. assert (extends g g2) as Hg by by etransitivity. unfold awaited, mc. split.
  { exists arguments, local. split_and!; try done; [exact (calls_extends _ _ _ _ Hg Hcalls)|exact (gate_extends _ _ _ Hg Hgate)|].
    apply (ex_files _ _ Hg2). unfold g1. cbn. set_solver. }
  intros [bytes|e] g3 Hg3; cbn [step mcp_monitor mcp_step] in Hg3; subst g3; by cbn.
Qed.

Lemma wp_local_download_path {A} arguments local (f : os_path → mcp A) Q g :
  calls g "kssh_download" arguments → (∀ e g', extends g g' → Q (Err e) g') →
  (∀ home path g', extends g g' → home_read g' home → confined home (utf8 local) path → wp M (f path) Q g') →
  wp M (p_bind (validate_local_download_path local) f) Q g.
Proof.
  intros Hcalls Hfail Hk. unfold validate_local_download_path. rewrite wp_bind.
  apply wp_check; [by intros; apply Hfail|]. intros _. apply wp_check; [by intros; apply Hfail|]. intros Habs%bail_if_ok%negb_false_iff.
  assert (∀ home g', extends g g' → home_read g' home →
    wp M (Done (confine_download home (utf8 local))) (λ r g, match r with Ok a => wp M (f a) Q g | Err e => Q (Err e) g end) g') as Hend.
  { intros home g' Hg' Hhome. cbn [wp]. destruct (confine_download _ _) as [path|e] eqn:Hc; [|by apply Hfail].
    eapply Hk; [done..|]. by apply confined_normalize. }
  unfold mc. split; [split; [by left|by exists arguments]|]. intros [profile|] g1 Hg1; cbn [step mcp_monitor mcp_step] in Hg1; subst g1; cbn -[confine_download].
  - apply Hend; [extend|]. left. cbn. set_solver.
  - set (g1 := add_os_var _ _ g). assert (extends g g1) as Hg1 by extend.
    split; [split; [by right|exists arguments; exact (calls_extends _ _ _ _ Hg1 Hcalls)]|].
    intros [home|] g2 Hg2; subst g2; cbn -[confine_download].
    + apply Hend; [extend|]. right. unfold g1. cbn. set_solver.
    + apply Hfail. extend.
Qed.
Lemma wp_tool_download arguments g : calls g "kssh_download" arguments → gate g ALLOW_MUTATIONS →
  wp M (download sys home_var metadata russh_parse russh_default arguments) (kept g) g.
Proof.
  intros Hcalls Hgate. unfold download. apply wp_required; [done|]. intros alias Halias. apply wp_required; [done|]. intros remote Hremote.
  apply wp_required; [done|]. intros local Hlocal. apply wp_check; [done|]. intros Hvalid%remote_path_checked.
  eapply wp_local_download_path; [exact Hcalls|done|]. intros home path g1 Hg1 Hhome Hconf.
  eapply wp_lease_for; [exact (calls_extends _ _ _ _ Hg1 Hcalls)|exact Halias|by intros; etransitivity|].
  intros config client g2 Hg2 Hleased. assert (extends g g2) as Hg by by etransitivity. unfold awaited, mc. split.
  { exists arguments, local, home. split_and!; try done;
      [exact (calls_extends _ _ _ _ Hg Hcalls)|exact (gate_extends _ _ _ Hg Hgate)|exact (home_extends _ _ _ Hg2 Hhome)|apply Hconf..]. }
  intros [bytes|e] g3 Hg3; cbn [step mcp_monitor mcp_step] in Hg3; subst g3; by cbn.
Qed.

(** *** Requests and answers *)
Lemma wp_env_enabled {A} name (f : bool → mcp A) Q g :
  name = ALLOW_EXEC ∨ name = ALLOW_MUTATIONS →
  (∀ enabled g', extends g g' → (enabled = true → gate g' name) → wp M (f enabled) Q g') →
  wp M (p_bind (env_enabled name) f) Q g.
Proof.
  intros Hname Hk. unfold env_enabled, mc. split; [done|]. intros value g1 Hg1. cbn [step mcp_monitor mcp_step] in Hg1. subst g1.
  change (option str) in value. cbn [p_bind ask p_ret]. apply Hk; [extend|]. intros Henabled. destruct value as [value|]; [|done].
  exists value. split; [cbn; set_solver|]. rewrite !orb_true_iff, !bool_decide_eq_true in Henabled. set_solver.
Qed.

Lemma wp_gated name tool g :
  name = ALLOW_EXEC ∨ name = ALLOW_MUTATIONS →
  (∀ g', extends g g' → gate g' name → wp M tool (kept g') g') → wp M (gated (env_enabled name) tool) (kept g) g.
Proof.
  intros Hname Htool. unfold gated. apply wp_env_enabled; [done|]. intros [] g1 Hg1 Hgate; [|exact Hg1].
  eapply wp_mono; [by apply Htool; [|apply Hgate]|]. intros r g2 Hg2. cbv beta in *. by etransitivity.
Qed.

Lemma wp_dispatch name arguments g :
  (∀ tool, name = lit tool → calls g tool arguments) →
  wp M (dispatch sys home_var metadata russh_parse russh_default BASIC_INFO_COMMAND SYSTEM_METRICS_COMMAND name arguments) (kept g) g.
Proof.
  intros Hcalls. unfold dispatch, is_key.
  repeat (case_bool_decide as Hname; [specialize (Hcalls _ Hname)|clear Hname]).
  - apply wp_list_hosts.
  - apply wp_route.
  - by apply wp_basic_info.
  - by apply wp_system_metrics.
  - by apply wp_list_files.
  - apply wp_gated; [by left|]. intros g1 Hg1 Hgate. apply wp_tool_exec; [exact (calls_extends _ _ _ _ Hg1 Hcalls)|done].
  - apply wp_gated; [by right|]. intros g1 Hg1 Hgate. apply wp_tool_upload; [exact (calls_extends _ _ _ _ Hg1 Hcalls)|done].
  - apply wp_gated; [by right|]. intros g1 Hg1 Hgate. apply wp_tool_download; [exact (calls_extends _ _ _ _ Hg1 Hcalls)|done].
  - done.
Qed.

(** An answer to the line that is being served. *)
Definition answers_line (r : result (option Json)) (g : McpWatch) : Prop :=
  match r with
  | Ok (Some response) =>
      mcp_allowed sys home_var metadata russh_parse russh_default from_params BASIC_INFO_COMMAND SYSTEM_METRICS_COMMAND (MWrite response) g
  | Ok None => mw_owed g = false
  | Err _ => False
  end.

Lemma result_answers request g value : mw_request g = Some (Ok request) → mw_owed g = true →
  answers_line (Ok (Some (rpc_result (rpc_id request) value))) g.
Proof. intros Hr Ho. cbn. rewrite Hr. split_and!; try done; naive_solver. Qed.
Lemma error_answers g id code message :
  match mw_request g with Some (Ok request) => rpc_id request | _ => None end = id → mw_owed g = true →
  answers_line (Ok (Some (rpc_error id code message))) g.
Proof.
  intros Hid Ho. cbn. split_and!; try done; try naive_solver. subst id. by destruct (mw_request g) as [[request|]|].
Qed.

Lemma wp_handle request g : mw_request g = Some (Ok request) → mw_owed g = negb (is_notification (rpc_method request)) →
  wp M (handle sys home_var metadata russh_parse russh_default from_params pretty BASIC_INFO_COMMAND SYSTEM_METRICS_COMMAND
          CARGO_PKG_VERSION request) answers_line g.
Proof.
  intros Hr Ho. unfold handle.
  assert (∀ name, rpc_method request = lit name → is_notification (lit name) = false → mw_owed g = true) as Howed.
  { intros name Hn Hf. by rewrite Ho, Hn, Hf. }
  destruct (is_key (rpc_method request) "initialize") eqn:Hm.
  { apply bool_decide_eq_true in Hm. apply result_answers; [done|by eapply Howed]. }
  destruct (is_notification (rpc_method request)) eqn:Hn; [exact Ho|]. clear Hm. cbn in Ho.
  destruct (is_key (rpc_method request) "ping"); [by apply result_answers|].
  destruct (is_key (rpc_method request) "tools/list").
  { unfold tool_definitions, exec_enabled, mutations_enabled. rewrite wp_bind. apply wp_env_enabled; [by left|]. intros exec g1 Hg1 _.
    apply wp_env_enabled; [by right|]. intros mutations g2 Hg2 _. assert (extends g g2) as [] by by etransitivity. apply result_answers; congruence. }
  destruct (is_key (rpc_method request) "tools/call") eqn:Hm.
  2:{ apply error_answers; [by rewrite Hr|done]. }
  apply bool_decide_eq_true in Hm. destruct (rpc_params request) as [params|] eqn:Hp; [|apply error_answers; [by rewrite Hr|done]].
  destruct (from_params params) as [call|e] eqn:Hcall; [|apply error_answers; [by rewrite Hr|done]].
  unfold call_tool. rewrite !wp_bind, wp_try. eapply wp_mono.
  { apply wp_dispatch. intros tool Htool. by exists request, params, call. }
  intros r g1 [Hr1 Ho1 _ _ _ _]. cbn [wp p_ret]. destruct r; apply result_answers; congruence.
Qed.

Lemma wp_serve fuel g : mw_owed g = false →
  wp M (serve sys home_var metadata russh_parse russh_default from_line from_params pretty BASIC_INFO_COMMAND SYSTEM_METRICS_COMMAND
          CARGO_PKG_VERSION fuel) (λ r g, r = Ok tt → mw_owed g = false) g.
Proof.
  revert g. induction fuel as [|fuel IH]; intros g Ho; [done|]. cbn [serve]. unfold awaited at 1, mc at 1. split; [exact Ho|].
  intros [line|e] g1 Hg1; cbn [step mcp_monitor mcp_step] in Hg1; subst g1; cbn [p_bind]; [|done].
  destruct (bool_decide (line = [])) eqn:Hline; [apply bool_decide_eq_true in Hline; by subst line|]. apply wp_check; [done|]. intros _.
  unfold arrived. destruct (bool_decide (trim line = [])); [by apply IH|]. set (raw := trim line) in *.
  rewrite wp_bind. eapply wp_mono with (Q := answers_line).
  { destruct (from_line raw) as [request|e] eqn:Hl.
    - by apply wp_handle.
    - by apply error_answers. }
  intros [[response|]|e] g2 Hg2; [|by apply IH|done].
  unfold awaited, mc. split; [exact Hg2|]. intros [[]|e] g3 Hg3; cbn [step mcp_monitor mcp_step] in Hg3; subst g3; cbn [p_bind]; [|done].
  by apply IH.
Qed.
End proofs.

(** *** The metrics as JSON *)
Fixpoint all_members (P : str → Json → Prop) (v : Json) : Prop :=
  match v with
  | JObj members => (fix each members := match members with [] => True | (k, x) :: members => P k x ∧ all_members P x ∧ each members end) members
  | JArr l => (fix each l := match l with [] => True | x :: l => all_members P x ∧ each l end) l
  | _ => True
  end.
Definition share_ok (name : str) (v : Json) : Prop :=
  name = lit "usagePercent" → v = JNull ∨ ∃ x, v = JFloat x ∧ is_percentage x.

Lemma compact_line_ok m key value :
  common_ok (cp_common m) ∧ opt (λ '(_, _, _, usage), is_finite usage = true) (cp_disk m) →
  common_ok (cp_common (compact_line m key value)) ∧
  opt (λ '(_, _, _, usage), is_finite usage = true) (cp_disk (compact_line m key value)).
Proof.
  intros [Hc Hd]. unfold compact_line. destruct (is_key key _); [|split; [by apply common_line_ok|done]].
  destruct (compact_disk value) as [disk|] eqn:Hv; [|done]. split; [done|]. cbn. intros d [= <-]. unfold compact_disk in Hv.
  destruct (split_whitespace value) as [|total [|used [|available [|usage l]]]]; try done.
  destruct (parse_metric_u64 total), (parse_metric_u64 used), (parse_metric_u64 available); try done.
  destruct (parse_metric_f32 usage) as [x|] eqn:Hx; [|done]. injection Hv as <-. by apply metric_f32 in Hx.
Qed.

Lemma json_share x : is_percentage x → share_ok (lit "usagePercent") (json_f32 x).
Proof. intros Hx _. right. exists x. split; [|done]. unfold json_f32. by rewrite (percentage_finite x Hx). Qed.
Lemma json_shares o : opt is_percentage o → share_ok (lit "usagePercent") (or_null json_f32 o).
Proof. destruct o as [x|]; [|by left]. intros Ho. by apply json_share, Ho. Qed.

Lemma strings_quiet (l : list str) : all_members share_ok (JArr (JStr <$> l)).
Proof. induction l; cbn; [done|]. by split. Qed.
Lemma route_quiet config : all_members share_ok (JArr (route_value config)).
Proof.
  unfold route_value. assert (∀ alias host port user role, all_members share_ok (route_node alias host port user role)) as Hnode.
  { intros. unfold route_node. cbn. split_and!; try done; by intros ?. }
  induction (c_jump_hosts config) as [|jump l IH]; cbn -[route_node]; [by split|]. by split.
Qed.

Lemma quiet_member (name : string) v : lit name ≠ lit "usagePercent" → share_ok (lit name) v.
Proof. by intros Hn ?. Qed.
Lemma memory_shares m : opt (λ '(total, used, available), is_u64 total ∧ is_u64 used ∧ is_u64 available) m → all_members share_ok (memory_value m).
Proof.
  intros Hm. destruct m as [[[total used] available]|]; cbn -[json_f32 percent_of]; [|split_and!; try done; try (by intros ?); intros _; by left].
  destruct (Hm _ eq_refl) as (? & ? & ?). split_and!; try done; try (by intros ?).
  - apply json_shares. destruct (Z.ltb_spec 0 total); [|done]. intros ? [= <-]. by apply share_bounded.
  - destruct (0 <? total); [|done]. cbn. unfold json_f32. by destruct (is_finite _).
Qed.
Lemma number_quiet {A} (f : A → Json) o : (∀ x, all_members share_ok (f x)) → all_members share_ok (or_null f o).
Proof. intros Hf. destruct o as [x|]; [apply Hf|done]. Qed.
Lemma f32_quiet x : all_members share_ok (json_f32 x).
Proof. unfold json_f32. by destruct (is_finite x). Qed.

Lemma obj_members P members : Forall (λ '(k, v), P (lit k) v ∧ all_members P v) members → all_members P (obj members).
Proof. induction 1 as [|[k v] members [Hk Hv] _ IH]; [done|]. cbn [obj all_members fmap list_fmap] in *. by split_and!. Qed.
Ltac members :=
  repeat match goal with
  | |- all_members _ (obj _) => apply obj_members
  | |- Forall _ (_ :: _) => constructor; [split; [try (by intros ?)|]|]
  | |- Forall _ [] => constructor
  | |- all_members _ (or_null json_f32 _) => apply number_quiet, f32_quiet
  | |- all_members _ (or_null JInt _) => by apply number_quiet
  | |- all_members _ _ => first [assumption | done]
  end.

Lemma metrics_value_bounded output m alias config :
  parse_system_metrics output = Ok m → all_members share_ok (metrics_value alias m config).
Proof.
  intros Hm. apply (keyed_metrics_ok cp_common _ (λ m, common_ok (cp_common m) ∧
    opt (λ '(_, _, _, usage), is_finite usage = true) (cp_disk m))) in Hm as [[Hc Hd] _];
    [|split; [apply common_default_ok|done]|intros; by apply compact_line_ok].
  destruct Hc as [Hcores Hload Hmem Husage _ Htemp _]. unfold metrics_value. destruct (cm_load _) as [[l1 l5] l15]. destruct Hload as [Hl1 _]. cbn in Hl1.
  assert (all_members share_ok (JArr (gpus_value (cm_gpu (cp_common m))))) as Hgpus.
  { unfold gpus_value. case_bool_decide; [done|]. cbn -[json_f32]. split_and!; try done; try (by intros ?);
      try (apply number_quiet; first [done|apply f32_quiet]). apply json_shares. by apply percentages_clamped. }
  assert (all_members share_ok (JArr (disks_value (cp_disk m)))) as Hdisks.
  { destruct (cp_disk m) as [[[[total used] available] usage]|]; [|done]. cbn -[json_f32]. split_and!; try done; try (by intros ?).
    - apply json_share, percentage_clamped. exact (Hd _ eq_refl).
    - apply f32_quiet. }
  assert (opt is_percentage (load_percent l1 (cm_cpu_cores (cp_common m)))) as Hcpu.
  { unfold load_percent. destruct l1 as [load|]; [|done]. destruct (cm_cpu_cores _) as [cores|]; [|done].
    destruct (Z.ltb_spec 0 cores) as [Hpos|]; [|done]. intros ? [= <-]. apply percent_of_bounded; [by apply Hl1|].
    apply of_int_positive; [done|]. specialize (Hcores _ eq_refl). unfold is_u32, u32_max, u64_max in *. lia. }
  pose proof (memory_shares _ Hmem) as Hmemory. pose proof (strings_quiet (bi_addresses (cm_info (cp_common m)))) as Haddresses.
  pose proof (route_quiet config) as Hroute.
  members. by apply json_shares.
Qed.

(** ** Theorems *)

(** C18: whatever the model that it is attached to asks for, and whatever the environment, the disk,
    the manager and the hosts answer, the server reads the next line only when the last one was
    answered, once and under its own identifier, or was a notification.  A command is run only when
    the request calls that tool, names that command, and the environment was read to allow it for
    this request; the two probes run only their fixed scripts; an upload sends the file that was
    named and seen to be one, and a download writes to the place that the requested path leads to,
    named without [.] and [..], which is below the home directory if that was given as an absolute
    path (a home variable that is empty or leads nowhere confines nothing, see
    [Examples.empty_home_confines_nothing]), both only where allowed.  All of it happens on a connection that the
    manager handed out for the host that the request names, and a new connection has the
    configuration that this name resolves to in the file as it was just read, with no other secret
    than the one stored for it. *)
Theorem mcp_acts_only_as_asked sys home_var metadata russh_parse russh_default {unicode : UnicodeTables}
    from_line from_params pretty basic_script metrics_script version fuel :
  wp (mcp_monitor sys home_var metadata russh_parse russh_default from_line from_params basic_script metrics_script)
    (serve sys home_var metadata russh_parse russh_default from_line from_params pretty basic_script metrics_script version fuel)
    (λ r g, r = Ok tt → mw_owed g = false) mcp_started.
Proof. by apply wp_serve. Qed.

Module Examples.
(** The confinement is one of names: what is in the home directory may be replaced. *)
Lemma home_files_not_protected :
  confine_download (lit "/home/me") (lit "/home/me/.ssh/authorized_keys") = Ok (lit "/home/me/.ssh/authorized_keys").
Proof. vm_compute. reflexivity. Qed.
(** An empty variable confines nothing. *)
Lemma empty_home_confines_nothing : confine_download [] (lit "/etc/cron.d/job") = Ok (lit "/etc/cron.d/job").
Proof. vm_compute. reflexivity. Qed.
Example outside_refused :
  is_ok (confine_download (lit "/home/me") (lit "/home/me/../you/x")) = false ∧ is_ok (confine_download (lit "/home/me") (lit "/home/mean/x")) = false ∧
  confine_download (lit "/home/me/") (lit "/home/./me/a/../x") = Ok (lit "/home/me/x").
Proof. vm_compute. split_and!; reflexivity. Qed.

(** A client that asks for a command. *)
Definition demo_line (line : str) : result RpcRequest :=
  Ok (mk_rpc (Some (JInt 7)) (lit "tools/call") (Some (JStr line))).
Definition demo_params (params : Json) : result CallToolParams :=
  Ok (mk_call (lit "kssh_exec") (Some (obj ["alias" ⤇ JStr (lit "web"); "command" ⤇ JStr (lit "id")]))).
Record demo := mk_demo { dm_lines : list str; dm_allowed : option str; dm_commands : list str; dm_written : list Json }.
Definition web : ConnectionConfig := config_new (lit "web") (lit "root").
Definition demo_serve (q : mcp_interface) (w : demo) : answer q * demo :=
  match q return answer (i := mcp_interface) q * demo with
  | MRead => (Ok (default [] (head (dm_lines w))), mk_demo (tail (dm_lines w)) (dm_allowed w) (dm_commands w) (dm_written w))
  | MWrite v => (Ok tt, mk_demo (dm_lines w) (dm_allowed w) (dm_commands w) (dm_written w ++ [v]))
  | MVar _ => (dm_allowed w, w)
  | MVarOs _ => (None, w)
  | MOpenStore => (Err "unused", w)
  | MKeyring _ _ => (None, w)
  | MGetLease _ => (Some (0%nat, web), w)
  | MConnectLease _ _ _ => (Err "unused", w)
  | MExec _ _ => (Err "unused", w)
  | MExecStream _ command => (([(Out, lit "uid=0")], Ok (Some 0)), mk_demo (dm_lines w) (dm_allowed w) (dm_commands w ++ [command]) (dm_written w))
  | MListDirectory _ _ => (Err "unused", w)
  | MIsFile _ => (false, w)
  | MUpload _ _ _ | MDownload _ _ _ => (Err "unused", w)
  end.
Definition demo_pretty (v : Json) : str := match get_field v (lit "stdout") with Some (JStr s) => s | _ => lit "refused" end.
Definition demo_run (allowed : option str) : result unit * demo :=
  run demo_serve
    (serve (unicode := ascii_tables) IncludeScope.Examples.system0 None (λ _, NotFound) (λ _ _, Err "unused")
       (λ alias, mk_russh alias (lit "root") 22 None None None None None) demo_line demo_params demo_pretty [] [] [] 5)
    (mk_demo [lit "x" ++ [LF]] allowed [] []).

Example exec_needs_the_variable :
  (let r := demo_run (Some (lit "1")) in r.1 = Ok tt ∧ dm_commands r.2 = [lit "id"] ∧ dm_written r.2 = [rpc_result (Some (JInt 7)) (tool_result demo_pretty (obj
     ["alias" ⤇ JStr (lit "web"); "command" ⤇ JStr (lit "id"); "stdout" ⤇ JStr (lit "uid=0"); "stderr" ⤇ JStr [];
      "exitStatus" ⤇ JInt 0; "truncated" ⤇ JBool false]) false)]) ∧
  (let r := demo_run None in r.1 = Ok tt ∧ dm_commands r.2 = [] ∧ length (dm_written r.2) = 1%nat).
Proof. vm_compute. split_and!; reflexivity. Qed.
End Examples.
