(* ===== verification/Interleave.v ===== *)
(** * Interleaved programs over shared state

    Tasks that run at once over one state, each a program of requests that the state
    serves in one step (a lock acquired, a map read or changed); a request that is not
    served blocks its task.  What holds in every interleaving is proved task by task, in
    the rely-guarantee style: a task shows that it keeps the invariant and leaves to every
    other task what that one relies on, and may assume the same of the others. *)

From stdpp Require Import base list relations.
From Stdlib Require Import Lia.
From S2P Require Import Prelude Program.

Section interleave.
Context {E : interface} {W A : Type}.
(** Task [i] is served. *)
Context (serves : nat → ∀ q : E, W → answer q → W → Prop).

Record system := mk_system { tasks : list (prog E A); shared : W }.

Inductive task_interleaves : system → nat * E → system → Prop :=
| task_step ts i q k w r w' :
    ts !! i = Some (Ask q k) → serves i q w r w' →
    task_interleaves (mk_system ts w) (i, q) (mk_system (<[i := k r]> ts) w').

Inductive system_run (s : system) : list (nat * E) → system → Prop :=
| run_start : system_run s [] s
| run_on tr s' e s'' : system_run s tr s' → task_interleaves s' e s'' → system_run s (tr ++ [e]) s''.

Lemma run_trans s tr s' tr' s'' : system_run s tr s' → system_run s' tr' s'' → system_run s (tr ++ tr') s''.
Proof.
  intros H. induction 1 as [|tr' s1 e s2 _ IH Hstep]; [by rewrite app_nil_r|]. rewrite app_assoc. by eapply run_on.
Qed.

(** A task that has ended stays so. *)
Lemma done_stays s tr s' i r : tasks s !! i = Some (Done r) → system_run s tr s' → tasks s' !! i = Some (Done r).
Proof.
  intros Hi. induction 1 as [|tr s1 e s2 _ IH Hstep]; [done|].
  destruct Hstep as [ts j q k w r' w' Hj _]. cbn in *. rewrite list_lookup_insert_ne; [done|]. intros <-. congruence.
Qed.

(** *** A schedule, played

    [serve] answers by what an oracle says. *)
Section play_tasks.
Context {O : Type} (serve : O → nat → ∀ q : E, W → option (answer q * W)).
Context (serve_ok : ∀ o i q w r w', serve o i q w = Some (r, w') → serves i q w r w').

Fixpoint play_tasks (schedule : list (nat * O)) (s : system) : list (nat * E) * system :=
  match schedule with
  | [] => ([], s)
  | (i, o) :: schedule =>
      match tasks s !! i with
      | Some (Ask q k) =>
          match serve o i q (shared s) with
          | Some (r, w) => let '(tr, s') := play_tasks schedule (mk_system (<[i := k r]> (tasks s)) w) in ((i, q) :: tr, s')
          | None => play_tasks schedule s
          end
      | _ => play_tasks schedule s
      end
  end.

Lemma play_is_run schedule s : system_run s (play_tasks schedule s).1 (play_tasks schedule s).2.
Proof.
  revert s. induction schedule as [|[i o] schedule IH]; intros s; cbn; [apply run_start|].
  destruct (tasks s !! i) as [[r|q k]|] eqn:Hi; [apply IH| |apply IH].
  destruct (serve o i q (shared s)) as [[r w]|] eqn:Hs; [|apply IH].
  specialize (IH (mk_system (<[i := k r]> (tasks s)) w)). destruct (play_tasks schedule _) as [tr s'].
  eapply (run_trans _ [_]); [|exact IH]. eapply (run_on _ []); [apply run_start|].
  destruct s as [ts w0]. cbn in *. econstructor; [exact Hi|by eapply serve_ok].
Qed.
End play_tasks.

Section rely.
Context (Inv : W → Prop) (permitted : nat → E → W → Prop) (keeps : nat → W → W → Prop).
Context `{∀ i, PreOrder (keeps i)}.

(** Task [i] is in order from a state on, and ends with [Q]. *)
Fixpoint orderly {B} (i : nat) (p : prog E B) (Q : result B → W → Prop) (w : W) : Prop :=
  match p with
  | Done r => ∀ w1, keeps i w w1 → Inv w1 → Q r w1
  | Ask q k => ∀ w1, keeps i w w1 → Inv w1 →
      permitted i q w1 ∧
      ∀ r w2, serves i q w1 r w2 → Inv w2 ∧ (∀ j, j ≠ i → keeps j w1 w2) ∧ orderly i (k r) Q w2
  end.

Lemma orderly_later {B} i (p : prog E B) Q w w1 : keeps i w w1 → orderly i p Q w → orderly i p Q w1.
Proof. intros Hw. destruct p; cbn; intros Hp w2 Hw2; apply Hp; by etransitivity. Qed.

Lemma orderly_mono {B} i (p : prog E B) (Q Q' : result B → W → Prop) w :
  orderly i p Q w → (∀ r w, Q r w → Q' r w) → orderly i p Q' w.
Proof.
  intros Hp HQ. revert w Hp. induction p as [r|q k IH]; cbn; intros w Hp w1 Hw1 Hinv; [by apply HQ, Hp|].
  destruct (Hp w1 Hw1 Hinv) as [Hperm Hk]. split; [done|]. intros r w2 Hs. destruct (Hk r w2 Hs) as (? & ? & ?).
  split_and!; [done..|]. by apply IH.
Qed.

Lemma orderly_bind {B C} i (p : prog E B) (f : B → prog E C) Q w :
  orderly i p (λ r w, match r with Ok a => orderly i (f a) Q w | Err e => Q (Err e) w end) w →
  orderly i (p_bind p f) Q w.
Proof.
  revert w. induction p as [[a|e]|q k IH]; cbn [p_bind orderly]; intros w Hp.
  - assert (∀ w1, keeps i w w1 → Inv w1 → orderly i (f a) Q w1) as Hfa by exact Hp.
    destruct (f a) as [r|q k]; cbn in *; intros w1 Hw1 Hinv; by apply (Hfa w1 Hw1 Hinv).
  - done.
  - intros w1 Hw1 Hinv. destruct (Hp w1 Hw1 Hinv) as [Hperm Hk]. split; [done|]. intros r w2 Hs.
    destruct (Hk r w2 Hs) as (? & ? & ?). split_and!; [done..|]. by apply IH.
Qed.

Lemma orderly_try {B} i (p : prog E B) Q w : orderly i p (λ r, Q (Ok r)) w → orderly i (p_try p) Q w.
Proof.
  revert w. induction p as [r|q k IH]; cbn; intros w Hp; [done|]. intros w1 Hw1 Hinv.
  destruct (Hp w1 Hw1 Hinv) as [Hperm Hk]. split; [done|]. intros r w2 Hs. destruct (Hk r w2 Hs) as (? & ? & ?).
  split_and!; [done..|]. by apply IH.
Qed.

(** One request and its continuation. *)
Lemma orderly_ask {B} i (q : E) (f : answer q → prog E B) Q w :
  (∀ w1, keeps i w w1 → Inv w1 → permitted i q w1 ∧
     ∀ r w2, serves i q w1 r w2 → Inv w2 ∧ (∀ j, j ≠ i → keeps j w1 w2) ∧ orderly i (f r) Q w2) →
  orderly i (p_bind (ask q) f) Q w.
Proof. done. Qed.

Lemma orderly_done {B} i (r : result B) (Q : result B → W → Prop) w :
  (∀ w1, keeps i w w1 → Inv w1 → Q r w1) → orderly i (Done r) Q w.
Proof. done. Qed.

(** Tasks that are in order alone are in order together. *)
Definition all_orderly (s : system) (Q : nat → result A → W → Prop) : Prop :=
  Inv (shared s) ∧ ∀ i p, tasks s !! i = Some p → orderly i p (Q i) (shared s).

Lemma all_orderly_step s e s' Q :
  all_orderly s Q → task_interleaves s e s' → permitted e.1 e.2 (shared s) ∧ all_orderly s' Q.
Proof.
  intros [Hinv Hts] Hstep. destruct Hstep as [ts i q k w r w' Hi Hs]. cbn in *.
  destruct (Hts i _ Hi w ltac:(reflexivity) Hinv) as [Hperm Hk]. destruct (Hk r w' Hs) as (Hinv' & Hothers & Hnext).
  split; [done|]. split; [done|]. cbn. intros j p Hj. apply list_lookup_insert_Some in Hj as [(<- & <- & _)|[Hne Hj]]; [done|].
  eapply orderly_later; [by apply Hothers|]. by apply Hts.
Qed.

Lemma interleaved_orderly s tr s' Q :
  all_orderly s Q → system_run s tr s' → all_orderly s' Q.
Proof. intros Hs. induction 1 as [|tr s' e s'' _ IH Hstep]; [done|]. by destruct (all_orderly_step s' e s'' Q IH Hstep). Qed.

(** Every request of every interleaving was permitted where it was served. *)
Lemma interleaved_permitted s tr s' Q :
  all_orderly s Q → system_run s tr s' → ∀ before i q after, tr = before ++ (i, q) :: after →
    ∃ s1, system_run s before s1 ∧ permitted i q (shared s1).
Proof.
  intros Hs. induction 1 as [|tr s' e s'' Hrun IH Hstep]; intros before i q after Htr; [by destruct before|].
  destruct after as [|x after _] using rev_ind.
  - apply app_inj_tail in Htr as [<- ->]. exists s'. split; [done|].
    by destruct (all_orderly_step s' _ s'' Q (interleaved_orderly _ _ _ _ Hs Hrun) Hstep).
  - rewrite app_comm_cons, app_assoc in Htr. apply app_inj_tail in Htr as [-> _]. by eapply IH.
Qed.
End rely.
End interleave.
Arguments mk_system {E W A}.
Arguments tasks {E W A}.
Arguments shared {E W A}.
