(* ===== verification/DesktopSession.v ===== *)
(** * The desktop's sessions ([state.rs], [commands/connection.rs], [terminal.rs], [forward.rs])

    Every command of the desktop leases the session of its host, and heals it first when
    its transport has died; disconnecting is explicit.  All of these run at once over the
    tables of one state, so each is a program whose requests are the steps under one lock,
    and what is proved holds in every interleaving ([Interleave], [DesktopHealing]).  The state is that of
    one host: the tables' entries at its alias, which no command for another host touches.
    The host library's file, the credential store, the clock, and what a connection
    attempt brings are the environment's. *)

From stdpp Require Import base list gmap strings numbers sorting.
From Stdlib Require Import Lia.
From S2P Require Import Prelude RustStr StrFacts HostModel HostStore OpenSshInclude Config Resolver ConnectionManager HostTrust RemoteCommand Program Authenticate Connect Exec RemoteInfo Interleave IncludeScope.

(** ** Definitions *)
Record HostKeyDto := mk_key_dto { kd_algorithm : str; kd_fingerprint_sha256 : str; kd_verification : str }.
Record SessionDto := mk_session_dto {
  ss_route : list RouteNodeDto; ss_alias : str; ss_address : str; ss_port : Z; ss_user : str; ss_auth_method : str;
  ss_connected_at_unix : Z; ss_host_key : option HostKeyDto; ss_platform : str; ss_warning : option str }.
(** The lease of an entry is the connection it is of. *)
Record SessionEntry := mk_entry { se_lease : nat; se_details : SessionDto }.

Definition host_key_to_dto (info : ServerHostKeyInfo) : HostKeyDto :=
  mk_key_dto (ki_algorithm info) (ki_fingerprint info)
    (match ki_verification info with HostTrust.Known => lit "known" | Learned => lit "learned" | InsecureKey => lit "insecure" end).

Inductive AuthenticationRequest :=
| RequestAuto (passphrase : option str) | RequestAgent
| RequestPrivateKey (path passphrase : option str) (save_passphrase : bool)
| RequestPassword (password : option str) (save_password : bool)
| RequestKeyboardInteractive (secret : str).
Record AuthenticationSelection := mk_selection {
  as_authentication : Authentication; as_stored_method : StoredAuthMethod;
  as_supplied_password_to_save : option str; as_supplied_passphrase_to_save : option (os_path * str) }.

Inductive ForwardStartRequest :=
| ForwardLocal (alias bind_address : str) (bind_port : Z) (target_host : str) (target_port : Z) (allow_public_bind : bool)
| ForwardDynamic (alias bind_address : str) (bind_port : Z) (allow_public_bind : bool)
| ForwardRemote (alias bind_address : str) (bind_port : Z) (target_host : str) (target_port : Z).
Definition forward_alias (r : ForwardStartRequest) : str :=
  match r with ForwardLocal alias _ _ _ _ _ | ForwardDynamic alias _ _ _ | ForwardRemote alias _ _ _ _ => alias end.

(** [str::parse::<IpAddr>] and [IpAddr::is_loopback]: [127.0.0.0/8] and [::1], whose last
    group may also be written as an IPv4 address. *)
Definition is_ipv4 (s : str) : bool := bool_decide (read_ipv4 s = Some []).
Definition is_loopback (s : str) : bool :=
  (is_ipv4 s && starts_with s (lit "127.")) ||
  (is_ipv6 s &&
   match reverse (split 58 s) with
   | last :: groups =>
       (bool_decide (drop_while (Z.eqb 48) last = lit "1") || bool_decide (last = lit "0.0.0.1")) && forallb (forallb (Z.eqb 48)) groups
   | [] => false
   end).
(** [parse_bind]: the address as it was understood. *)
Definition parse_bind (address : str) : result str :=
  let address := trim address in if is_ipv4 address || is_ipv6 address then Ok address else Err "无效的监听 IP 地址".
Definition ensure_bind_allowed (address : str) (allow_public_bind : bool) : result unit :=
  socket ← parse_bind address; bail_if (negb (is_loopback socket) && negb allow_public_bind) "监听地址不是 127.0.0.1/::1".
Definition validate_target (host : str) (port : Z) : result unit :=
  bail_if (bool_decide (host = []) || (512 <? str_len host) || existsb is_control host) "转发目标主机无效" ≫= λ _,
  bail_if (port =? 0) "转发目标端口不能为 0".
Definition validate_forward (r : ForwardStartRequest) : result unit :=
  match r with
  | ForwardLocal _ bind_address _ target_host target_port allow_public_bind =>
      validate_target target_host target_port ≫= λ _, ensure_bind_allowed bind_address allow_public_bind
  | ForwardDynamic _ bind_address _ allow_public_bind => ensure_bind_allowed bind_address allow_public_bind
  | ForwardRemote _ bind_address _ target_host target_port =>
      validate_target target_host target_port ≫= λ _,
      bail_if (bool_decide (bind_address = []) || (512 <? str_len bind_address) || existsb is_control bind_address) "远程监听地址无效"
  end.
(** Where a listener of this computer may be reached from others. *)
Definition is_public (r : ForwardStartRequest) : bool :=
  match r with
  | ForwardLocal _ bind_address _ _ _ _ | ForwardDynamic _ bind_address _ _ => negb (is_loopback (trim bind_address))
  | ForwardRemote _ _ _ _ _ => false
  end.
Definition allows_public (r : ForwardStartRequest) : bool :=
  match r with ForwardLocal _ _ _ _ _ allow | ForwardDynamic _ _ _ allow => allow | ForwardRemote _ _ _ _ _ => false end.

(** [validate_size] *)
Definition validate_size (columns rows : Z) : result unit :=
  bail_if (negb ((10 <=? columns) && (columns <=? 1000))) "终端列数必须在 10..=1000 之间" ≫= λ _,
  bail_if (negb ((3 <=? rows) && (rows <=? 500))) "终端行数必须在 3..=500 之间".

(** *** The state of one host *)
Record DesktopState := mk_desktop {
  ds_session : option SessionEntry;
  ds_manager : option nat;                  (* the connection that the manager has for the alias *)
  ds_dead : list nat;                       (* connections that have died *)
  ds_reconnect_lock : option nat;           (* the entry of [reconnect_locks] *)
  ds_holders : gmap nat nat;                (* which task holds which lock *)
  ds_fresh : nat;                           (* no lock or connection has this number yet *)
  ds_generation : Z;
  ds_failures : option (Z * Z);             (* when the last failure was, and how many *)
  ds_instant : Z;                           (* [Instant::now], in nanoseconds *)
  ds_terminals : list str;                  (* the aliases that the controls of terminals and forwards name *)
  ds_forwards : list str;
  (* for the theorems only: *)
  ds_stores : list HostStore;               (* the files that were read *)
  ds_told : list (str * str);               (* the secrets that the credential store gave *)
  ds_armed : list nat;                      (* who found an entry to heal and holds its lock *)
  ds_closed : bool;                         (* a disconnect has removed the session *)
  ds_detached : bool;                       (* and the connection from the manager *)
  ds_entered : bool;                        (* a [connect_host] has entered its session *)
  ds_reopened : bool;                       (* and has done so, or connected, after the removal *)
}.

Inductive session_request :=
| HLive | HLiveDetails | HHas | HDetails
| HGetLock | HAcquire (lock : nat) | HRelease (lock : nat) | HDropLock
| HFailures | HRecordFailure | HClearFailures
| HGeneration | HNote
| HOpenStore | HKeyring (service account : str)
| HStopTerminals | HStopForwards | HAddTerminal (alias : str) | HAddForward (alias : str)
| HTake (explicit : bool) | HPut (entry : SessionEntry)
| HManagerRemove | HConnect (config : ConnectionConfig) (authentication : Authentication) | HGetLease
| HHostKey (lease : nat) | HNow
| HPlatform (lease : nat) | HSetPlatform (lease : nat) (platform : RemotePlatform)
| HSavePassword (account password : str) | HSavePassphrase (path : os_path) (passphrase : str) | HSaveStore (store : HostStore)
| HForward (lease : nat) (request : ForwardStartRequest).
Definition session_answer (q : session_request) : Type :=
  match q with
  | HLive | HGetLease => option nat
  | HHas => bool
  | HLiveDetails | HDetails => option SessionDto
  | HGetLock => nat
  | HAcquire _ | HRelease _ | HDropLock | HRecordFailure | HClearFailures | HNote => unit
  | HStopTerminals | HStopForwards | HAddTerminal _ | HAddForward _ | HPut _ => unit
  | HFailures => option (Z * Z)             (* how long ago, and how many *)
  | HGeneration => Z
  | HOpenStore => result HostStore
  | HKeyring _ _ => option str
  | HTake _ => option SessionEntry
  | HManagerRemove => result bool
  | HConnect _ _ => result unit
  | HHostKey _ => option ServerHostKeyInfo
  | HNow => result Z
  | HPlatform _ => RemotePlatform
  | HSetPlatform _ _ => unit
  | HSavePassword _ _ | HSavePassphrase _ _ | HSaveStore _ => result unit
  | HForward _ _ => option Z                (* the port that is bound *)
  end.
Definition session_interface : interface := Interface session_request session_answer.
Abbreviation desk A := (prog session_interface A).
Definition hs (q : session_interface) : desk (answer q) := ask q.

(** *** The programs *)
Definition nanoseconds : Z := 1000000000.
Definition cooldown (attempts : Z) : Z := 5 * nanoseconds * 2 ^ Z.min attempts 4.
Definition cooling (failures : option (Z * Z)) : bool :=
  match failures with Some (elapsed, attempts) => elapsed <? cooldown attempts | None => false end.

Definition RECONNECT_WARNING : str := text "自动重连失败，会话已断开；下次操作将在冷却后重试".
Definition warned (entry : SessionEntry) : SessionEntry :=
  let d := se_details entry in
  mk_entry (se_lease entry) (mk_session_dto (ss_route d) (ss_alias d) (ss_address d) (ss_port d) (ss_user d) (ss_auth_method d)
    (ss_connected_at_unix d) (ss_host_key d) (ss_platform d) (Some RECONNECT_WARNING)).
Definition renewed (previous : SessionDto) (now : Z) (key : option ServerHostKeyInfo) : SessionDto :=
  mk_session_dto (ss_route previous) (ss_alias previous) (ss_address previous) (ss_port previous) (ss_user previous) (ss_auth_method previous)
    now (host_key_to_dto <$> key) (ss_platform previous) None.

Section desktop.
Context (sys : System) (home_var : option str) (metadata : str → io_result unit).
Context (russh_parse : str → str → result RusshConfig) (russh_default : str → RusshConfig).
Context {unicode : UnicodeTables}.
Context (alias : str).
Local Abbreviation resolved_by store := (resolve_host sys home_var metadata russh_parse russh_default (store_db store) alias None None).

(** [credentials::stored_password] *)
Definition saved_password (config : ConnectionConfig) : desk (option str) := hs (HKeyring KEYCHAIN_SERVICE (account_name config)).

Definition reconnect_authentication (config : ConnectionConfig) (auth_method : str) : desk Authentication :=
  (if is_key auth_method "password" then
     password ⇐ saved_password config;
     password ⇐ Done (with_context password "未保存密码，无法自动重连；请重新连接该主机");
     p_ret (AuthPassword password)
   else if is_key auth_method "agent" then p_ret AuthAgent
   else if is_key auth_method "private-key" then
     path ⇐ Done (with_context (head (c_identity_files config)) "无法确定私钥路径，请重新连接该主机");
     p_ret (AuthPrivateKey path None)
   else p_ret (AuthAuto (c_identity_files config) None))%prog.

Definition connect_saved (config : ConnectionConfig) (authentication : Authentication) : desk nat :=
  (Done (bail_if (5 <? zlen (c_jump_hosts config)) "桌面客户端最多支持 5 层跳板") ;;
   awaited (hs (HConnect config authentication)) ;;
   lease ⇐ hs HGetLease;
   Done (with_context lease "连接建立后无法取得传输"))%prog.

Definition reconnect : desk nat :=
  (previous ⇐ hs HDetails;
   previous ⇐ Done (with_context previous "会话在重连前已被移除");
   store ⇐ awaited (hs HOpenStore);
   resolved ⇐ Done (in_context "无法解析主机" (resolved_by store));
   authentication ⇐ reconnect_authentication (rh_config resolved) (ss_auth_method previous);
   hs HStopTerminals ;;
   hs HStopForwards ;;
   removed ⇐ hs (HTake false);
   hs HManagerRemove ;;
   connected ⇐ p_try (connect_saved (rh_config resolved) authentication);
   match connected with
   | Err _ =>
       match removed with Some entry => hs (HPut (warned entry)) | None => p_ret tt end ;;
       p_err "无法重新建立 SSH 连接"
   | Ok lease =>
       now ⇐ awaited (hs HNow);
       key ⇐ hs (HHostKey lease);
       hs (HPut (mk_entry lease (renewed previous now key))) ;;
       live ⇐ hs HLive;
       Done (with_context live "重连后会话不可用")
   end)%prog.

Definition DISCARDED : string := "已断开".
(** What [heal_session] does while it holds the lock. *)
Definition heal_locked : desk nat :=
  (live ⇐ hs HLive;
   match live with
   | Some lease => p_ret lease
   | None =>
       failures ⇐ hs HFailures;
       if cooling failures then p_err "自动重连冷却中"
       else
         generation ⇐ hs HGeneration;
         result ⇐ p_try reconnect;
         match result with
         | Ok lease =>
             hs HClearFailures ;;
             current ⇐ hs HGeneration;
             if negb (current =? generation) then
               hs (HTake false) ;; hs HManagerRemove ;; p_err DISCARDED
             else p_ret lease
         | Err _ => hs HRecordFailure ;; p_err "连接已断开，自动重连失败"
         end
   end)%prog.
(** The guard of a lock goes when its scope ends, however that is. *)
Definition locked {A} (p : desk A) : desk A :=
  (lock ⇐ hs HGetLock;
   hs (HAcquire lock) ;;
   r ⇐ p_try p;
   hs (HRelease lock) ;;
   Done r)%prog.
Definition heal_session : desk nat := locked heal_locked.
Definition session_lease : desk nat :=
  (live ⇐ hs HLive;
   match live with
   | Some lease => p_ret lease
   | None => known ⇐ hs HHas; if (known : bool) then heal_session else p_err "尚未连接"
   end)%prog.

(** [note_disconnected] and the rest of [disconnect_host]. *)
Definition note_disconnected : desk unit := (hs HNote ;; hs HClearFailures)%prog.
Definition disconnect_host : desk unit :=
  locked (note_disconnected ;;
          hs HStopTerminals ;;
          hs HStopForwards ;;
          hs (HTake true) ;;
          awaited (hs HManagerRemove) ;;
          hs HDropLock)%prog.

(** The commands that leave a control behind, registered under the alias as it was sent. *)
Definition start_terminal (requested : str) (columns rows : Z) : desk unit :=
  (Done (validate_size columns rows) ;;
   lease ⇐ session_lease;
   hs (HAddTerminal requested))%prog.
(** The listener stands before its control is in the table. *)
Definition start_forward (request : ForwardStartRequest) : desk unit :=
  (Done (validate_forward request) ;;
   lease ⇐ session_lease;
   port ⇐ hs (HForward lease request);
   port ⇐ Done (with_context port "转发启动失败");
   hs (HAddForward (forward_alias request)))%prog.

(** *** [connect_host]: with what the user types now *)
Definition nonempty_secret (value : option str) : option str :=
  value ≫= λ secret, if bool_decide (secret = []) then None else Some secret.

Definition select_authentication (config : ConnectionConfig) (request : AuthenticationRequest) : desk AuthenticationSelection :=
  match request with
  | RequestAuto passphrase => p_ret (mk_selection (AuthAuto (c_identity_files config) (nonempty_secret passphrase)) MethodAuto None None)
  | RequestAgent => p_ret (mk_selection AuthAgent MethodAgent None None)
  | RequestPrivateKey path passphrase save_passphrase =>
      let chosen := path ≫= λ value, if bool_decide (trim value = []) then None else Some (utf8 value) in
      (path ⇐ Done (with_context (match chosen with Some p => Some p | None => head (c_identity_files config) end) "请选择 Ed25519 或 ECDSA 私钥文件");
       let passphrase := nonempty_secret passphrase in
       p_ret (mk_selection (AuthPrivateKey path passphrase) MethodPrivateKey None
                (if save_passphrase then (λ secret, (path, secret)) <$> passphrase else None)))%prog
  | RequestPassword password save_password =>
      let supplied := nonempty_secret password in
      (secret ⇐ match supplied with Some secret => p_ret (Some secret) | None => saved_password config end;
       secret ⇐ Done (with_context secret "请输入密码，或先在系统凭据存储中保存该主机的密码");
       p_ret (mk_selection (AuthPassword secret) MethodPassword (if save_password then supplied else None) None))%prog
  | RequestKeyboardInteractive secret =>
      if bool_decide (secret = []) then p_err "键盘交互认证口令不能为空"
      else p_ret (mk_selection (AuthKeyboardInteractive secret) MethodKeyboardInteractive None None)
  end.

(** The platform set by hand wins; a contradiction is a warning. *)
Definition apply_os_type (lease : nat) (stored_os_type : option StoredOsType) : desk (option str) :=
  (probed ⇐ hs (HPlatform lease);
   match stored_os_type with
   | Some OsWindows =>
       hs (HSetPlatform lease Windows) ;;
       p_ret (if bool_decide (probed = Unix) then Some (text "该主机手动标记为 Windows，但探测结果显示为 Linux/Unix；命令分类按手动标记生效") else None)
   | Some OsLinux =>
       hs (HSetPlatform lease Unix) ;;
       p_ret (if bool_decide (probed = Windows) then Some (text "该主机手动标记为 Linux/Unix，但探测结果显示为 Windows；命令分类按手动标记生效") else None)
   | _ => p_ret None
   end)%prog.

(** What is saved once the host has accepted it; a failure is only a warning. *)
Definition save_secrets (config : ConnectionConfig) (selection : AuthenticationSelection) (warning : option str) : desk (option str) :=
  (warning ⇐ match as_supplied_password_to_save selection with
             | Some password =>
                 saved ⇐ hs (HSavePassword (account_name config) password);
                 p_ret (match saved with Ok _ => warning | Err _ => Some (text "连接成功，但密码未能保存") end)
             | None => p_ret warning
             end;
   match as_supplied_passphrase_to_save selection with
   | Some (path, passphrase) =>
       saved ⇐ hs (HSavePassphrase path passphrase);
       p_ret (match saved with Ok _ => warning | Err _ => Some (text "连接成功，但密钥口令未能保存") end)
   | None => p_ret warning
   end)%prog.

Definition record_connection (method : StoredAuthMethod) : desk unit :=
  (store ⇐ awaited (hs HOpenStore);
   match store_host store alias with
   | None => p_ret tt
   | Some _ =>
       now ⇐ hs HNow;
       let '(r, updated) := record_success now alias method store in
       Done r ;;
       awaited (hs (HSaveStore updated))
   end)%prog.

(** A session that is remembered but dead is released first. *)
Definition release_stale : desk unit :=
  (known ⇐ hs HHas;
   if (known : bool) then
     hs HStopTerminals ;; hs HStopForwards ;; hs (HTake false) ;; hs HManagerRemove ;; p_ret tt
   else p_ret tt)%prog.

Definition platform_name (p : RemotePlatform) : str := match p with Windows => lit "windows" | Unix => lit "unix" end.

Definition connect_host (request : AuthenticationRequest) : desk SessionDto :=
  (Done (bail_if (bool_decide (alias = [])) "主机别名不能为空") ;;
   live ⇐ hs HLiveDetails;
   match live with
   | Some details => p_ret details
   | None =>
       release_stale ;;
       store ⇐ awaited (hs HOpenStore);
       resolved ⇐ Done (in_context "无法解析主机" (resolved_by store));
       let config := rh_config resolved in
       selection ⇐ select_authentication config request;
       connected_at_unix ⇐ awaited (hs HNow);
       lease ⇐ p_context "连接失败" (connect_saved config (as_authentication selection));
       warning ⇐ apply_os_type lease (hr_os_type <$> store_host store alias);
       platform ⇐ hs (HPlatform lease);
       key ⇐ hs (HHostKey lease);
       warning ⇐ save_secrets config selection warning;
       record_connection (as_stored_method selection) ;;
       let details := mk_session_dto (route_to_dto config) alias (c_host config) (c_port config) (c_username config)
                        (method_as_str (as_stored_method selection)) connected_at_unix (host_key_to_dto <$> key) (platform_name platform) warning in
       hs (HPut (mk_entry lease details)) ;;
       p_ret details
   end)%prog.
End desktop.

(** ** How the state serves a request

    What the environment does: how much time goes by, which connections die, and what a
    file, a clock, the credential store or a host answers. *)
Record Oracle := mk_oracle {
  or_elapsed : N; or_died : list nat; or_ok : bool; or_reuse : bool; or_removed : bool;
  or_store : result HostStore; or_secret : option str; or_key : option ServerHostKeyInfo; or_now : result Z;
  or_platform : RemotePlatform; or_saved : result unit; or_port : option Z }.

Section state.
Local Open Scope Z_scope.
Definition goes_by (o : Oracle) (w : DesktopState) : DesktopState :=
  mk_desktop (ds_session w) (ds_manager w) (or_died o ++ ds_dead w) (ds_reconnect_lock w) (ds_holders w) (ds_fresh w) (ds_generation w)
    (ds_failures w) (ds_instant w + Z.of_N (or_elapsed o)) (ds_terminals w) (ds_forwards w) (ds_stores w) (ds_told w) (ds_armed w)
    (ds_closed w) (ds_detached w) (ds_entered w) (ds_reopened w).
Definition put_session s (w : DesktopState) :=
  mk_desktop s (ds_manager w) (ds_dead w) (ds_reconnect_lock w) (ds_holders w) (ds_fresh w) (ds_generation w)
    (ds_failures w) (ds_instant w) (ds_terminals w) (ds_forwards w) (ds_stores w) (ds_told w) (ds_armed w) (ds_closed w) (ds_detached w) (ds_entered w) (ds_reopened w).
Definition put_manager m fresh detached (w : DesktopState) :=
  mk_desktop (ds_session w) m (ds_dead w) (ds_reconnect_lock w) (ds_holders w) fresh (ds_generation w)
    (ds_failures w) (ds_instant w) (ds_terminals w) (ds_forwards w) (ds_stores w) (ds_told w) (ds_armed w) (ds_closed w) detached (ds_entered w) (ds_reopened w).
Definition put_lock l fresh (w : DesktopState) :=
  mk_desktop (ds_session w) (ds_manager w) (ds_dead w) l (ds_holders w) fresh (ds_generation w)
    (ds_failures w) (ds_instant w) (ds_terminals w) (ds_forwards w) (ds_stores w) (ds_told w) (ds_armed w) (ds_closed w) (ds_detached w) (ds_entered w) (ds_reopened w).
Definition put_holders h armed (w : DesktopState) :=
  mk_desktop (ds_session w) (ds_manager w) (ds_dead w) (ds_reconnect_lock w) h (ds_fresh w) (ds_generation w)
    (ds_failures w) (ds_instant w) (ds_terminals w) (ds_forwards w) (ds_stores w) (ds_told w) armed (ds_closed w) (ds_detached w) (ds_entered w) (ds_reopened w).
Definition put_failures generation f (w : DesktopState) :=
  mk_desktop (ds_session w) (ds_manager w) (ds_dead w) (ds_reconnect_lock w) (ds_holders w) (ds_fresh w) generation
    f (ds_instant w) (ds_terminals w) (ds_forwards w) (ds_stores w) (ds_told w) (ds_armed w) (ds_closed w) (ds_detached w) (ds_entered w) (ds_reopened w).
Definition put_controls terminals forwards (w : DesktopState) :=
  mk_desktop (ds_session w) (ds_manager w) (ds_dead w) (ds_reconnect_lock w) (ds_holders w) (ds_fresh w) (ds_generation w)
    (ds_failures w) (ds_instant w) terminals forwards (ds_stores w) (ds_told w) (ds_armed w) (ds_closed w) (ds_detached w) (ds_entered w) (ds_reopened w).
Definition put_seen stores told (w : DesktopState) :=
  mk_desktop (ds_session w) (ds_manager w) (ds_dead w) (ds_reconnect_lock w) (ds_holders w) (ds_fresh w) (ds_generation w)
    (ds_failures w) (ds_instant w) (ds_terminals w) (ds_forwards w) stores told (ds_armed w) (ds_closed w) (ds_detached w) (ds_entered w) (ds_reopened w).
Definition close (w : DesktopState) :=
  mk_desktop None (ds_manager w) (ds_dead w) (ds_reconnect_lock w) (ds_holders w) (ds_fresh w) (ds_generation w)
    (ds_failures w) (ds_instant w) (ds_terminals w) (ds_forwards w) (ds_stores w) (ds_told w) (ds_armed w) true (ds_detached w) (ds_entered w) (ds_reopened w).
(** Who is not healing has entered a session ([put]) or connected: a [connect_host]. *)
Definition note_user (put : bool) (i : nat) (w : DesktopState) :=
  let user := negb (bool_decide (i ∈ ds_armed w)) in
  mk_desktop (ds_session w) (ds_manager w) (ds_dead w) (ds_reconnect_lock w) (ds_holders w) (ds_fresh w) (ds_generation w)
    (ds_failures w) (ds_instant w) (ds_terminals w) (ds_forwards w) (ds_stores w) (ds_told w) (ds_armed w) (ds_closed w) (ds_detached w)
    (ds_entered w || (put && user)) (ds_reopened w || (ds_closed w && user)).

Definition alive (w : DesktopState) (c : nat) : bool := negb (bool_decide (c ∈ ds_dead w)).
Definition live_session (w : DesktopState) : option nat :=
  match ds_session w with Some e => if alive w (se_lease e) then Some (se_lease e) else None | None => None end.
Definition stop_for (alias : str) (controls : list str) : list str := filter (λ a, a ≠ alias) controls.
Definition u32_wrap (n : Z) : Z := n mod 2 ^ 32.
Definition generation_wrap (n : Z) : Z := n mod 2 ^ 64.

Definition serve_at (alias : str) (o : Oracle) (i : nat) (q : session_request) (w : DesktopState) : option (session_answer q * DesktopState) :=
  match q return option (session_answer q * DesktopState) with
  | HLive => Some (live_session w, w)
  | HLiveDetails =>
      Some (match ds_session w with Some e => if alive w (se_lease e) then Some (se_details e) else None | None => None end, w)
  | HHas => Some (bool_decide (is_Some (ds_session w)), w)
  | HDetails =>
      Some (se_details <$> ds_session w,
            match ds_session w with Some _ => put_holders (ds_holders w) (i :: ds_armed w) w | None => w end)
  | HGetLock =>
      match ds_reconnect_lock w with
      | Some l => Some (l, w)
      | None => Some (ds_fresh w, put_lock (Some (ds_fresh w)) (S (ds_fresh w)) w)
      end
  | HAcquire l =>
      match ds_holders w !! l with
      | None => Some (tt, put_holders (<[l := i]> (ds_holders w)) (ds_armed w) w)
      | Some _ => None
      end
  | HRelease l => Some (tt, put_holders (delete l (ds_holders w)) (filter (λ j, j ≠ i) (ds_armed w)) w)
  | HDropLock => Some (tt, put_lock None (ds_fresh w) w)
  | HFailures => Some ((λ '(last, attempts), (ds_instant w - last, attempts)) <$> ds_failures w, w)
  | HRecordFailure =>
      Some (tt, put_failures (ds_generation w)
                  (Some (ds_instant w, u32_wrap (match ds_failures w with Some (_, count) => count | None => 0 end + 1))) w)
  | HClearFailures => Some (tt, put_failures (ds_generation w) None w)
  | HGeneration => Some (ds_generation w, w)
  | HNote => Some (tt, put_failures (generation_wrap (ds_generation w + 1)) (ds_failures w) w)
  | HOpenStore => Some (or_store o, match or_store o with Ok s => put_seen (s :: ds_stores w) (ds_told w) w | Err _ => w end)
  | HKeyring _ account =>
      Some (or_secret o, match or_secret o with Some p => put_seen (ds_stores w) ((account, p) :: ds_told w) w | None => w end)
  | HStopTerminals => Some (tt, put_controls (stop_for alias (ds_terminals w)) (ds_forwards w) w)
  | HStopForwards => Some (tt, put_controls (ds_terminals w) (stop_for alias (ds_forwards w)) w)
  | HAddTerminal a => Some (tt, put_controls (a :: ds_terminals w) (ds_forwards w) w)
  | HAddForward a => Some (tt, put_controls (ds_terminals w) (a :: ds_forwards w) w)
  | HTake explicit => Some (ds_session w, if (explicit : bool) then close w else put_session None w)
  | HPut e => Some (tt, put_session (Some e) (note_user true i w))
  | HManagerRemove =>
      if or_ok o then Some (Ok (bool_decide (is_Some (ds_manager w))), put_manager None (ds_fresh w) (ds_detached w || ds_closed w) w)
      else Some (Err "disconnect failed", if or_removed o then put_manager None (ds_fresh w) (ds_detached w) w else w)
  | HConnect _ _ =>
      if or_ok o then
        let w := note_user false i w in
        match ds_manager w with
        | Some _ => if or_reuse o then Some (Ok tt, w) else Some (Ok tt, put_manager (Some (ds_fresh w)) (S (ds_fresh w)) (ds_detached w) w)
        | None => Some (Ok tt, put_manager (Some (ds_fresh w)) (S (ds_fresh w)) (ds_detached w) w)
        end
      else Some (Err "connection failed", w)
  | HGetLease => Some (match ds_manager w with Some c => if alive w c then Some c else None | None => None end, w)
  | HHostKey _ => Some (or_key o, w)
  | HNow => Some (or_now o, w)
  | HPlatform _ => Some (or_platform o, w)
  | HSetPlatform _ _ => Some (tt, w)
  | HSavePassword _ _ | HSavePassphrase _ _ | HSaveStore _ => Some (or_saved o, w)
  | HForward _ _ => Some (or_port o, w)
  end.
End state.

(** Time goes by before a request is served. *)
Definition serves_at (alias : str) (i : nat) (q : session_interface) (w : DesktopState) (r : answer q) (w' : DesktopState) : Prop :=
  ∃ o, serve_at alias o i q (goes_by o w) = Some (r, w').

(** The state before anything runs: nobody holds a lock or heals. *)
Definition desktop_at_rest (session : option SessionEntry) (manager : option nat) (lock : option nat) (fresh : nat) (generation : Z)
    (failures : option (Z * Z)) (instant : Z) : DesktopState :=
  mk_desktop session manager [] lock ∅ (match lock with Some l => Nat.max fresh (S l) | None => fresh end) generation failures instant
    [] [] [] [] [] false false false false.
