(* ===== verification/DesktopHealing.v ===== *)
(** * The desktop's sessions under interleaving (of [DesktopSession])

    The invariant of one host's state, what a command may ask of it ([permitted]) and what it
    leaves to the others ([leaves]); that every request keeps to this; that every command
    does; and so every interleaving of any number of them.  [Interleave] composes the parts. *)

From stdpp Require Import base list gmap strings numbers sorting.
From Stdlib Require Import Lia.
From S2P Require Import Prelude RustStr StrFacts HostModel HostStore OpenSshInclude Config Resolver ConnectionManager HostTrust RemoteCommand Program Authenticate Connect Exec RemoteInfo Interleave IncludeScope DesktopSession.

Section safety.
Local Open Scope Z_scope.
Context (sys : System) (home_var : option str) (metadata : str → io_result unit).
Context (russh_parse : str → str → result RusshConfig) (russh_default : str → RusshConfig).
Context {unicode : UnicodeTables}.
Context (alias : str).
Context (user : nat → Prop).                (* which commands are a [connect_host] *)

(** The lock excludes until a [connect_host] has come back after a disconnect: that one drops
    the lock of the host, and who was waiting for it still gets it. *)
Record desk_ok (w : DesktopState) : Prop := mk_desk_ok {
  armed_holds : ∀ i, i ∈ ds_armed w → ∃ l, ds_holders w !! l = Some i ∧
    (ds_reconnect_lock w = Some l ∨ ds_closed w = true ∧ ds_reopened w = true);
  closed_empty : ds_closed w = true → ds_reopened w = false → ds_session w = None ∧ ds_armed w = [];
  reopened_closed : ds_reopened w = true → ds_closed w = true;
  detached_closed : ds_detached w = true → ds_closed w = true ∧ (ds_reopened w = false → ds_manager w = None) }.

Definition in_charge (i : nat) (w : DesktopState) : Prop :=
  ∃ l, ds_holders w !! l = Some i ∧ (ds_reconnect_lock w = Some l ∨ ds_closed w = true).
Definition cooled (w : DesktopState) : Prop :=
  match ds_failures w with Some (last, attempts) => cooldown attempts ≤ ds_instant w - last | None => True end.
Definition remembered (config : ConnectionConfig) (authentication : Authentication) (w : DesktopState) : Prop :=
  (∃ store rh, store ∈ ds_stores w ∧
     resolve_host sys home_var metadata russh_parse russh_default (store_db store) alias None None = Ok rh ∧ config = rh_config rh) ∧
  match authentication with
  | AuthPassword p => (account_name config, p) ∈ ds_told w
  | AuthAgent => True
  | AuthPrivateKey path None => head (c_identity_files config) = Some path
  | AuthAuto files None => files = c_identity_files config
  | _ => False
  end.
Definition permitted (i : nat) (q : session_request) (w : DesktopState) : Prop :=
  match q with
  | HTake false | HPut _ => i ∈ ds_armed w ∨ user i
  | HTake true => in_charge i w ∧ i ∉ ds_armed w
  | HDetails | HNote | HClearFailures | HRecordFailure => in_charge i w
  | HDropLock => ds_closed w = true
  | HRelease l => ds_holders w !! l = Some i
  | HConnect config authentication =>
      user i ∨ i ∈ ds_armed w ∧ zlen (c_jump_hosts config) ≤ 5 ∧ remembered config authentication w ∧
        (ds_closed w = true ∨ cooled w ∧ (ds_session w = None ∨ ds_entered w = true))
  | HForward _ request => is_public request = true → allows_public request = true
  | _ => True
  end.

Record leaves (i : nat) (w w1 : DesktopState) : Prop := mk_leaves {
  leaves_closed : ds_closed w = true → ds_closed w1 = true;
  leaves_detached : ds_detached w = true → ds_detached w1 = true;
  leaves_lock l : ds_reconnect_lock w = Some l → ds_reconnect_lock w1 = Some l ∨ ds_closed w1 = true;
  leaves_held l : ds_holders w !! l = Some i → ds_holders w1 !! l = Some i;
  leaves_armed : i ∈ ds_armed w ↔ i ∈ ds_armed w1;
  leaves_counts l : ds_holders w !! l = Some i → ds_reconnect_lock w = Some l →
    (ds_generation w1 = ds_generation w ∧ ds_failures w1 = ds_failures w) ∨ ds_closed w1 = true;
  leaves_out : i ∈ ds_armed w → ds_session w = None → ds_session w1 = None ∨ ds_entered w1 = true ∨ ds_closed w1 = true;
  leaves_entered : ds_entered w = true → ds_entered w1 = true;
  leaves_reopened : ds_reopened w = true → ds_reopened w1 = true;
  leaves_instant : ds_instant w ≤ ds_instant w1;
  leaves_stores : ds_stores w ⊆ ds_stores w1;
  leaves_told : ds_told w ⊆ ds_told w1 }.

#[local] Instance leaves_preorder i : PreOrder (leaves i).
Proof.
  split.
  - intros w. split; try done; auto; lia.
  - intros w w1 w2 [] []. split; try (by auto); try lia; try (by etransitivity).
    + intros l Hl. destruct (leaves_lock0 l Hl) as [?|?]; auto.
    + intros l Hh Hl. destruct (leaves_counts0 l Hh Hl) as [[Hg Hf]|?]; [|auto].
      destruct (leaves_lock0 l Hl) as [Hl1|?]; [|auto].
      destruct (leaves_counts1 l (leaves_held0 l Hh) Hl1) as [[-> ->]|?]; auto.
    + intros Ha Hn. destruct (leaves_out0 Ha Hn) as [Hs|[?|?]]; auto. apply leaves_out1; [by apply leaves_armed0|done].
Qed.

Lemma armed_in_charge i w : desk_ok w → i ∈ ds_armed w → in_charge i w.
Proof. intros Hok Hi. destruct (armed_holds w Hok i Hi) as (l & ? & [?|[? _]]); exists l; auto. Qed.

Lemma armed_open i w : desk_ok w → i ∈ ds_armed w → ds_closed w = true → ds_reopened w = true.
Proof.
  intros Hok Hi Hc. destruct (ds_reopened w) eqn:Hr; [done|]. destruct (closed_empty w Hok Hc Hr) as [_ Ha]. rewrite Ha in Hi. set_solver.
Qed.

(** Who holds the lock is alone with it, until then. *)
Lemma in_charge_alone i j w : desk_ok w → in_charge i w → j ∈ ds_armed w → j = i ∨ ds_closed w = true ∧ ds_reopened w = true.
Proof.
  intros Hok (l & Hh & Hc) Hj. destruct (armed_holds w Hok j Hj) as (l' & Hh' & [Hl'|?]); [|by right].
  destruct Hc as [Hl|Hc]; [left; congruence|]. right. split; [done|]. by eapply armed_open.
Qed.

(** ** Every request keeps to this *)
Lemma goes_by_ok o w : desk_ok w → desk_ok (goes_by o w).
Proof. intros []. split; done. Qed.
Lemma goes_by_leaves o i w : leaves i w (goes_by o w).
Proof. split; cbn; try done; auto; lia. Qed.
Lemma goes_by_permitted o i q w : permitted i q w → permitted i q (goes_by o w).
Proof.
  destruct q; try done; try (destruct explicit; done). cbn. intros [?|(? & ? & ? & Hc)]; [by left|]. right. split_and!; try done.
  destruct Hc as [?|[Hc ?]]; [by left|]. right. split; [|done].
  unfold cooled in *. cbn. destruct (ds_failures w) as [[]|]; [|done]. lia.
Qed.

(** Steps that only change what nobody relies on. *)
Lemma unrelated_sound i w w1 :
  desk_ok w → ds_session w1 = ds_session w → ds_reconnect_lock w1 = ds_reconnect_lock w → ds_holders w1 = ds_holders w →
  ds_generation w1 = ds_generation w → ds_failures w1 = ds_failures w → ds_instant w1 = ds_instant w →
  ds_armed w1 = ds_armed w → ds_closed w1 = ds_closed w → ds_stores w ⊆ ds_stores w1 → ds_told w ⊆ ds_told w1 →
  (ds_entered w = true → ds_entered w1 = true) → (ds_reopened w = true → ds_reopened w1 = true) → (ds_reopened w1 = true → ds_closed w = true) →
  (ds_detached w = true → ds_detached w1 = true) →
  (ds_detached w1 = true → ds_closed w = true ∧ (ds_reopened w1 = false → ds_manager w1 = None)) →
  desk_ok w1 ∧ ∀ j, j ≠ i → leaves j w w1.
Proof.
  intros [Ha Hc Hrc Hd] Hs Hl Hh Hg Hf Hi Har Hcl Hst Hto He Hr Hr1 Hdm Hd1.
  split; [split; rewrite ?Hs, ?Hl, ?Hh, ?Har, ?Hcl; auto|].
  - intros j Hj. destruct (Ha j Hj) as (l & ? & [?|[? ?]]); exists l; auto.
  - intros Hclosed Hn. apply Hc; [done|]. destruct (ds_reopened w); [|done]. by rewrite Hr in Hn.
  - intros j _. split; rewrite ?Hs, ?Hl, ?Hh, ?Hg, ?Hf, ?Hi, ?Har, ?Hcl; auto; lia.
Qed.

(** What a task that is in charge may change: the counts and the closing. *)
Lemma in_charge_counts i j l w : j ≠ i → in_charge i w → ds_holders w !! l = Some j → ds_reconnect_lock w = Some l → ds_closed w = true.
Proof. intros Hne (l' & Hh & [Hl|Hc]) Hj Hl'; [|done]. congruence. Qed.

Lemma counts_sound i g f w :
  desk_ok w → in_charge i w → desk_ok (put_failures g f w) ∧ ∀ j, j ≠ i → leaves j w (put_failures g f w).
Proof.
  intros Hok Hi. split; [by destruct Hok|]. intros j Hne. split; cbn; auto; try done.
  intros l Hh Hl. right. by eapply in_charge_counts.
Qed.

(** Taking the session out, by whoever; entering one, by who heals or connects. *)
Lemma take_sound i w : desk_ok w → desk_ok (put_session None w) ∧ ∀ j, j ≠ i → leaves j w (put_session None w).
Proof.
  intros [Ha Hc Hr Hd]. split; [split; cbn; auto; intros; split; [done|by apply Hc]|]. intros j _. split; cbn; auto; done.
Qed.
(** Whoever enters a session or connects after the removal has reopened the host. *)
Lemma note_user_reopens put i w : desk_ok w → ds_closed w = true → ds_reopened (note_user put i w) = true.
Proof.
  intros Hok Hc. cbn. rewrite Hc. case_bool_decide as Hi; [|apply orb_true_r]. by rewrite (armed_open i w).
Qed.
Lemma put_sound i e w :
  desk_ok w → desk_ok (put_session (Some e) (note_user true i w)) ∧ ∀ j, j ≠ i → leaves j w (put_session (Some e) (note_user true i w)).
Proof.
  intros Hok. pose proof (note_user_reopens true i w Hok) as Hre. cbn in Hre. pose proof Hok as [Ha Hc Hr Hd]. split.
  - split; cbn.
    + intros j Hj. destruct (Ha j Hj) as (l & ? & [?|[? Hro]]); exists l; (split; [done|]); [by left|right; by rewrite Hro].
    + intros Hcl. by rewrite Hre.
    + intros [?|[? _]%andb_true_iff]%orb_true_iff; auto.
    + intros Hdt. destruct (Hd Hdt). split; [done|]. by rewrite Hre.
  - intros j Hne. split; cbn; auto; try done.
    + intros Hj _. right. case_bool_decide as Hi; cbn; [|left; apply orb_true_r]. right.
      destruct (in_charge_alone i j w Hok) as [?|[? _]]; try done. by apply armed_in_charge.
    + by intros ->.
Qed.

Lemma close_sound i w :
  desk_ok w → in_charge i w → i ∉ ds_armed w → desk_ok (close w) ∧ ∀ j, j ≠ i → leaves j w (close w).
Proof.
  intros Hok Hi Hni.
  assert (ds_closed w = false ∨ ds_reopened w = false → ds_armed w = []) as Ha.
  { intros Hn. destruct (ds_armed w) as [|j js] eqn:Hj; [done|]. destruct Hni. assert (j ∈ ds_armed w) as Hin by (rewrite Hj; left).
    destruct (in_charge_alone i j w Hok Hi Hin) as [<-|[? ?]]; [by rewrite Hj in Hin|destruct Hn; congruence]. }
  pose proof Hok as [Hh _ Hr Hd]. split.
  - split; cbn; auto; try done.
    + intros j Hj. destruct (Hh j Hj) as (l & ? & [?|[? ?]]); exists l; auto.
    + intros H. destruct (Hd H). by split.
  - intros j Hne. split; cbn; auto; done.
Qed.

Lemma arm_sound i w :
  desk_ok w → in_charge i w → ds_session w ≠ None →
  desk_ok (put_holders (ds_holders w) (i :: ds_armed w) w) ∧ ∀ j, j ≠ i → leaves j w (put_holders (ds_holders w) (i :: ds_armed w) w).
Proof.
  intros [Ha Hc Hr Hd] (l & Hh & Hl) Ho. split.
  - split; cbn; auto.
    + intros j [->|Hj]%elem_of_cons; [|by apply Ha]. exists l. split; [done|]. destruct Hl as [Hl|Hl]; [by left|]. right.
      split; [done|]. destruct (ds_reopened w) eqn:Hre; [done|]. by destruct (Hc Hl eq_refl).
    + intros H H1. by destruct (Hc H H1).
  - intros j Hne. split; cbn; auto; try done. rewrite elem_of_cons. naive_solver.
Qed.

Lemma acquire_sound i l w :
  desk_ok w → ds_holders w !! l = None →
  desk_ok (put_holders (<[l := i]> (ds_holders w)) (ds_armed w) w) ∧ ∀ j, j ≠ i → leaves j w (put_holders (<[l := i]> (ds_holders w)) (ds_armed w) w).
Proof.
  intros [Ha Hc Hr Hd] Hfree. split.
  - split; cbn; auto. intros j Hj. destruct (Ha j Hj) as (l' & ? & ?). exists l'. split; [|done]. by rewrite lookup_insert_ne by congruence.
  - intros j Hne. split; cbn; auto; try done. intros l' Hl'. by rewrite lookup_insert_ne by congruence.
Qed.

Lemma release_sound i l w :
  desk_ok w → ds_holders w !! l = Some i →
  desk_ok (put_holders (delete l (ds_holders w)) (filter (λ j, j ≠ i) (ds_armed w)) w) ∧
  ∀ j, j ≠ i → leaves j w (put_holders (delete l (ds_holders w)) (filter (λ j, j ≠ i) (ds_armed w)) w).
Proof.
  intros [Ha Hc Hr Hd] Hh. split.
  - split; cbn; auto.
    + intros j [Hne Hj]%list_elem_of_filter. destruct (Ha j Hj) as (l' & ? & ?). exists l'. split; [|done]. by rewrite lookup_delete_ne by congruence.
    + intros H H1. destruct (Hc H H1) as [? ->]. done.
  - intros j Hne. split; cbn; auto; try done.
    + intros l' Hl'. by rewrite lookup_delete_ne by congruence.
    + rewrite list_elem_of_filter. naive_solver.
Qed.

Lemma new_lock_sound i fresh w :
  desk_ok w → ds_reconnect_lock w = None → desk_ok (put_lock (Some fresh) (S fresh) w) ∧ ∀ j, j ≠ i → leaves j w (put_lock (Some fresh) (S fresh) w).
Proof.
  intros [Ha Hc Hr Hd] Hl. split.
  - split; cbn; auto. intros j Hj. destruct (Ha j Hj) as (l & ? & [?|?]); [congruence|]. exists l. auto.
  - intros j Hne. split; cbn; auto; try done. rewrite Hl. done.
Qed.
Lemma drop_lock_sound i w :
  desk_ok w → ds_closed w = true → desk_ok (put_lock None (ds_fresh w) w) ∧ ∀ j, j ≠ i → leaves j w (put_lock None (ds_fresh w) w).
Proof.
  intros Hok H. pose proof Hok as [Ha Hc Hr Hd]. split.
  - split; cbn; auto. intros j Hj. destruct (Ha j Hj) as (l & ? & _). exists l. split; [done|]. right. split; [done|]. by eapply armed_open.
  - intros j Hne. split; cbn; auto; done.
Qed.

Ltac one_of_them :=
  match goal with
  | |- desk_ok (put_failures _ _ _) ∧ _ => apply counts_sound
  | |- desk_ok (put_session None _) ∧ _ => apply take_sound
  | |- desk_ok (put_session (Some _) _) ∧ _ => apply put_sound
  | |- desk_ok (close _) ∧ _ => apply close_sound
  | |- desk_ok (put_holders (<[_ := _]> _) _ _) ∧ _ => apply acquire_sound
  | |- desk_ok (put_holders (delete _ _) _ _) ∧ _ => apply release_sound
  | |- desk_ok (put_lock (Some _) _ _) ∧ _ => apply new_lock_sound
  | |- desk_ok (put_lock None _ _) ∧ _ => apply drop_lock_sound
  end; cbn in *; try tauto.

Lemma serve_sound o i q w r w1 :
  desk_ok w → permitted i q w → serve_at alias o i q w = Some (r, w1) → desk_ok w1 ∧ ∀ j, j ≠ i → leaves j w w1.
Proof.
  intros Hok Hp. pose proof (detached_closed w Hok) as Hdet. pose proof (reopened_closed w Hok) as Hro.
  assert (∀ j, leaves j w w) as Hrefl by (intros; reflexivity).
  destruct q; cbn; try (intros [= <- <-]; by split);
    try (intros [= <- <-]; one_of_them; fail);
    try (intros [= <- <-]; apply (unrelated_sound i); done).
  - (* HDetails *) intros [= <- <-]. destruct (ds_session w) as [e|] eqn:Hs; [|by split]. apply arm_sound; [done..|]. by rewrite Hs.
  - destruct (ds_reconnect_lock w) eqn:Hl; intros [= <- <-]; [by split|]. by one_of_them.
  - destruct (ds_holders w !! lock) eqn:Hl; intros [= <- <-]. by one_of_them.
  - intros [= <- <-]. destruct (or_store o); [|by split]. apply (unrelated_sound i); cbn; try done; try apply Hok. set_solver.
  - intros [= <- <-]. destruct (or_secret o); [|by split]. apply (unrelated_sound i); cbn; try done; try apply Hok. set_solver.
  - intros [= <- <-]. destruct explicit; by one_of_them.
  - destruct (or_ok o); [|destruct (or_removed o)]; intros [= <- <-]; [| |by split].
    + apply (unrelated_sound i); cbn; try done; try apply Hok; destruct (ds_detached w), (ds_closed w); naive_solver.
    + apply (unrelated_sound i); cbn; try done; try apply Hok. naive_solver.
  - assert (∀ m fresh, desk_ok (put_manager m fresh (ds_detached w) (note_user false i w)) ∧
       ∀ j, j ≠ i → leaves j w (put_manager m fresh (ds_detached w) (note_user false i w))) as Hconnected.
    { intros m fresh. pose proof (note_user_reopens false i w Hok) as Hre. cbn in Hre.
      apply (unrelated_sound i); cbn; try done.
      - by intros ->.
      - by intros ->.
      - intros [?|[? _]%andb_true_iff]%orb_true_iff; [by apply Hok|done].
      - intros H. destruct (Hdet H). split; [done|]. by rewrite Hre. }
    destruct (or_ok o); [|intros [= <- <-]; by split].
    destruct (ds_manager w) eqn:Hm; [destruct (or_reuse o)|]; cbn; intros [= <- <-]; try apply Hconnected.
Qed.

Lemma served_sound i q w r w1 :
  desk_ok w → permitted i q w → serves_at alias i q w r w1 → desk_ok w1 ∧ ∀ j, j ≠ i → leaves j w w1.
Proof.
  intros Hok Hp (o & Hs). destruct (serve_sound o i q (goes_by o w) r w1) as [H1 H2];
    [by apply goes_by_ok|by apply goes_by_permitted|done|].
  split; [done|]. intros j Hne. etransitivity; [apply goes_by_leaves|by apply H2].
Qed.

(** ** Each command alone *)
Abbreviation ord := (orderly (serves_at alias) desk_ok permitted leaves).
Definition stable (i : nat) (P : DesktopState → Prop) : Prop := ∀ w w1, leaves i w w1 → desk_ok w1 → P w → P w1.

Lemma stable_and i P Q : stable i P → stable i Q → stable i (λ w, P w ∧ Q w).
Proof. intros HP HQ w w1 Hl Hok [? ?]. eauto. Qed.

Lemma ord_step {A} i P (q : session_interface) (f : answer q → desk A) Q w :
  stable i P → P w → (∀ w1, P w1 → desk_ok w1 → permitted i q w1) →
  (∀ o w1 r w2, P w1 → desk_ok w1 → serve_at alias o i q w1 = Some (r, w2) → desk_ok w2 → ord i (f r) Q w2) →
  ord i (p_bind (hs q) f) Q w.
Proof.
  intros HP Hw Hperm Hnext. apply orderly_ask. intros w1 Hl Hok.
  pose proof (HP w w1 Hl Hok Hw) as Hw1. pose proof (Hperm w1 Hw1 Hok) as Hp. split; [done|].
  intros r w2 Hs. destruct (served_sound i q w1 r w2 Hok Hp Hs) as [Hok2 Hothers]. split_and!; [done..|].
  destruct Hs as (o & Hs). pose proof (goes_by_ok o w1 Hok) as Hg.
  eapply Hnext; [eapply (HP w1); [apply goes_by_leaves|done|done]|done|done|done].
Qed.
(** The same for the last request of a program. *)
Lemma ord_last i P (q : session_interface) (Q : result (answer q) → DesktopState → Prop) w :
  stable i P → P w → (∀ w1, P w1 → desk_ok w1 → permitted i q w1) →
  (∀ o w1 r w2, P w1 → desk_ok w1 → serve_at alias o i q w1 = Some (r, w2) → desk_ok w2 → ord i (Done (Ok r)) Q w2) →
  ord i (hs q) Q w.
Proof. intros HP Hw Hperm Hnext. exact (ord_step i P q (λ r, Done (Ok r)) Q w HP Hw Hperm Hnext). Qed.

Lemma ord_done {A} i P (r : result A) (Q : result A → DesktopState → Prop) w :
  stable i P → P w → (∀ w1, desk_ok w1 → P w1 → Q r w1) → ord i (Done r) Q w.
Proof. intros HP Hw HQ. apply orderly_done. intros w1 Hl Hok. apply HQ; [done|]. by apply (HP w w1). Qed.

Lemma ord_bind {A B} i (p : desk A) (f : A → desk B) (R : result A → DesktopState → Prop) Q w :
  ord i p R w → (∀ r w, R r w → match r with Ok a => ord i (f a) Q w | Err e => Q (Err e) w end) → ord i (p_bind p f) Q w.
Proof.
  intros Hp HR. apply orderly_bind; [exact leaves_preorder|]. eapply orderly_mono; [exact Hp|exact HR].
Qed.
Lemma ord_try_bind {A B} i (p : desk A) (f : result A → desk B) (R : result A → DesktopState → Prop) Q w :
  ord i p R w → (∀ r w, R r w → ord i (f r) Q w) → ord i (p_bind (p_try p) f) Q w.
Proof.
  intros Hp HR. eapply (ord_bind _ _ _ (λ r w, match r with Ok a => R a w | Err _ => False end)); [|intros [r|]; [apply HR|done]].
  apply orderly_try; exact Hp.
Qed.

Definition owner (i l : nat) (w : DesktopState) : Prop :=
  ds_holders w !! l = Some i ∧ (ds_reconnect_lock w = Some l ∨ ds_closed w = true).
Definition unarmed (i : nat) (w : DesktopState) : Prop := i ∉ ds_armed w.
(** It heals; and has taken the session [out], unless a [connect_host] has entered another. *)
Definition armed (i : nat) (out : bool) (w : DesktopState) : Prop :=
  i ∈ ds_armed w ∧ (out = true → ds_session w = None ∨ ds_entered w = true ∨ ds_closed w = true).
Definition generation_is (g : Z) (w : DesktopState) : Prop := ds_closed w = true ∨ ds_generation w = g.
Definition cooled_down (w : DesktopState) : Prop := ds_closed w = true ∨ cooled w.

Lemma owner_in_charge i l w : owner i l w → in_charge i w.
Proof. intros [? ?]. by exists l. Qed.
Lemma stable_owner i l : stable i (owner i l).
Proof.
  intros w w1 Hl _ [Hh Hc]. split; [by apply Hl|]. destruct Hc as [Hc|Hc]; [|right; by apply Hl]. by apply Hl.
Qed.
Lemma stable_unarmed i : stable i (unarmed i).
Proof. intros w w1 Hl _ Hu Hn. apply Hu. by apply Hl. Qed.
Lemma stable_armed i out : stable i (armed i out).
Proof.
  intros w w1 Hl _ [Ha Ho]. split; [by apply Hl|]. intros H. destruct (Ho H) as [Hn|[?|?]].
  - by apply (leaves_out i w w1 Hl).
  - right. left. by apply Hl.
  - right. right. by apply Hl.
Qed.
Lemma owner_counts i l w w1 : leaves i w w1 → owner i l w →
  ds_closed w1 = true ∨ (ds_closed w = false ∧ ds_generation w1 = ds_generation w ∧ ds_failures w1 = ds_failures w).
Proof.
  intros Hl [Hh Hc]. destruct (ds_closed w) eqn:Hcl; [left; by apply Hl|]. destruct Hc as [Hc|?]; [|done].
  destruct (leaves_counts i w w1 Hl l Hh Hc) as [?|?]; auto.
Qed.
Lemma stable_generation i l g : stable i (λ w, owner i l w ∧ generation_is g w).
Proof.
  intros w w1 Hl Hok [Ho Hg]. split; [by apply (stable_owner i l w)|].
  destruct (owner_counts i l w w1 Hl Ho) as [?|(Hc & He & _)]; [by left|]. right. destruct Hg; congruence.
Qed.
Lemma stable_cooled i l : stable i (λ w, owner i l w ∧ cooled_down w).
Proof.
  intros w w1 Hl Hok [Ho Hg]. split; [by apply (stable_owner i l w)|].
  destruct (owner_counts i l w w1 Hl Ho) as [?|(Hc & _ & Hf)]; [by left|]. right. destruct Hg as [?|Hg]; [congruence|].
  unfold cooled in *. rewrite Hf. pose proof (leaves_instant i w w1 Hl). destruct (ds_failures w) as [[]|]; [lia|done].
Qed.
Lemma stable_remembered i config authentication : stable i (remembered config authentication).
Proof.
  intros w w1 Hl _ [(s & rh & Hs & ?) Ha]. split.
  - exists s, rh. split; [|done]. by apply (leaves_stores i w w1 Hl).
  - destruct authentication as [p|p|path [p|]| |files [p|]]; try done. by apply (leaves_told i w w1 Hl).
Qed.
Lemma stable_closed i : stable i (λ w, ds_closed w = true).
Proof. intros w w1 Hl _. apply Hl. Qed.
Lemma stable_detached i : stable i (λ w, ds_detached w = true).
Proof. intros w w1 Hl _. apply Hl. Qed.
Lemma stable_reopened i : stable i (λ w, ds_reopened w = true).
Proof. intros w w1 Hl _. apply Hl. Qed.

#[local] Hint Resolve stable_and stable_owner stable_unarmed stable_armed stable_generation stable_cooled stable_remembered stable_closed stable_detached stable_reopened : core.

Lemma stable_store i s : stable i (λ w, s ∈ ds_stores w).
Proof. intros w w1 Hl _. apply (leaves_stores i w w1 Hl). Qed.
#[local] Hint Resolve stable_store : core.

(** The lock is held and nothing has changed since the cooldown was checked. *)
Definition held (i l : nat) (g : Z) (w : DesktopState) : Prop := (owner i l w ∧ cooled_down w) ∧ owner i l w ∧ generation_is g w.
Lemma stable_held i l g : stable i (held i l g).
Proof. apply stable_and; auto. Qed.
#[local] Hint Resolve stable_held : core.
Lemma held_in_charge i l g w : held i l g w → in_charge i w.
Proof. intros ((Ho & _) & _). by eapply owner_in_charge. Qed.


Definition healing (i l : nat) (g : Z) (out : bool) (w : DesktopState) : Prop := held i l g w ∧ armed i out w.
Definition found_store (i l : nat) (g : Z) (out : bool) (store : HostStore) (w : DesktopState) : Prop :=
  healing i l g out w ∧ store ∈ ds_stores w.
Definition heal_ready (i l : nat) (g : Z) (out : bool) config authentication (w : DesktopState) : Prop :=
  healing i l g out w ∧ remembered config authentication w.
Lemma stable_healing i l g out : stable i (healing i l g out).
Proof. apply stable_and; auto. Qed.
Lemma stable_found_store i l g out store : stable i (found_store i l g out store).
Proof. apply stable_and; auto using stable_healing. Qed.
Lemma stable_heal_ready i l g out config authentication : stable i (heal_ready i l g out config authentication).
Proof. apply stable_and; auto using stable_healing. Qed.
#[local] Hint Resolve stable_healing stable_found_store stable_heal_ready : core.

(** A heal is discarded only when a [connect_host] has reopened the host. *)
Definition heal_ended {A} (r : result A) (w : DesktopState) : Prop := r = Err DISCARDED → ds_reopened w = true.
Lemma stable_heal_ended {A} i (r : result A) : stable i (heal_ended r).
Proof. intros w w1 Hl _ Hr Hd. by apply Hl, Hr. Qed.
#[local] Hint Resolve stable_heal_ended : core.

(** Going on from what is known at a request, which may change the state. *)
Tactic Notation "request" uconstr(P) :=
  eapply (ord_step _ P); [by auto|try first [assumption | done | by split]|try done|
    let o := fresh "o" in let w := fresh "w" in let r := fresh "r" in let w2 := fresh "w2" in
    let HP := fresh "HP" in let Hok := fresh "Hok" in let Hs := fresh "Hs" in let Hok2 := fresh "Hok2" in
    intros o w r w2 HP Hok Hs Hok2; cbn in Hs; simplify_eq].
Tactic Notation "request" uconstr(P) "at" ident(w) ident(w2) "with" ident(HP) :=
  eapply (ord_step _ P); [by auto|try first [assumption | done | by split]|try done|
    let o := fresh "o" in let r := fresh "r" in
    let Hok := fresh "Hok" in let Hs := fresh "Hs" in let Hok2 := fresh "Hok2" in
    intros o w r w2 HP Hok Hs Hok2; cbn in Hs; simplify_eq].
Tactic Notation "finish" uconstr(P) := eapply (ord_done _ P); [by auto|try first [assumption | done | by split]|
    try done; try (let w := fresh "w" in let Hw := fresh "Hw" in intros w _ Hw; cbv beta iota; unfold heal_ready, found_store, healing, armed, heal_ended, DISCARDED in Hw |- *; first [tauto | split; [tauto|first [discriminate|tauto]]])].

Lemma ord_authentication i l g out config method store rh w :
  found_store i l g out store w →
  resolve_host sys home_var metadata russh_parse russh_default (store_db store) alias None None = Ok rh → config = rh_config rh →
  ord i (reconnect_authentication config method) (λ r w, found_store i l g out store w ∧ ∀ a, r = Ok a → remembered config a w) w.
Proof.
  intros HP Hr Hc. unfold reconnect_authentication.
  assert (∀ a w, found_store i l g out store w →
     match a with AuthPassword p => (account_name config, p) ∈ ds_told w | AuthAgent => True
                | AuthPrivateKey path None => head (c_identity_files config) = Some path
                | AuthAuto files None => files = c_identity_files config | _ => False end →
     ord i (p_ret a) (λ r w, found_store i l g out store w ∧ ∀ a, r = Ok a → remembered config a w) w) as Hret.
  { intros a w' HP' Ha. eapply (ord_done _ (λ w, found_store i l g out store w ∧ remembered config a w)); [by apply stable_and| |].
    - split; [done|]. split; [by exists store, rh; split_and!; [apply HP'|..]|by destruct a].
    - intros w1 _ [? ?]. split; [done|]. by intros a' [= <-]. }
  destruct (is_key method "password"); [|destruct (is_key method "agent"); [by apply Hret|destruct (is_key method "private-key")]].
  - request (found_store i l g out store). destruct (or_secret o) as [p|]; cbn [with_context p_bind].
    + apply Hret; [exact HP0|]. cbn. left.
    + by finish (found_store i l g out store).
  - destruct (head (c_identity_files config)) as [path|] eqn:Hh; cbn [with_context p_bind]; [by apply Hret|by finish (found_store i l g out store)].
  - by apply Hret.
Qed.

Lemma healing_note i l g out put w : healing i l g out w → healing i l g out (note_user put i w).
Proof.
  intros [Hh [Ha Ho]]. split; [exact Hh|]. split; [exact Ha|]. intros H. cbn. destruct (Ho H) as [?|[->|?]]; [by left|right; by left|by right; right].
Qed.
Lemma healing_put i l g e out w : healing i l g out w → healing i l g false (put_session e w).
Proof. by intros [Hh [Ha Ho]]. Qed.

Lemma ord_connect i l g config authentication w :
  heal_ready i l g true config authentication w → ord i (connect_saved config authentication) (λ _ w, healing i l g true w) w.
Proof.
  intros HP. unfold connect_saved. destruct (5 <? zlen (c_jump_hosts config)) eqn:Hj; cbn [bail_if p_bind].
  { by finish (heal_ready i l g true config authentication). }
  unfold awaited. cbn [p_bind hs ask].
  request (heal_ready i l g true config authentication).
  - intros w1 ((((_ & Hc) & _) & (Ha & Hs)) & Hr) Hok; cbn. right. split_and!; [done|lia|done|].
    destruct Hc as [?|?]; [by left|]. destruct (Hs eq_refl) as [?|[?|?]]; auto.
  - assert (healing i l g true w2) as HP1.
    { destruct (or_ok o); [cbn in Hs; destruct (ds_manager w0); [destruct (or_reuse o)|]|]; simplify_eq;
        try apply HP0; apply (healing_note i l g true false w0), HP0. }
    destruct r as [[]|e]; cbn [p_bind]; [|by finish (healing i l g true)].
    request (healing i l g true).
    match goal with |- context [with_context ?x _] => destruct x end; cbn [with_context]; by finish (healing i l g true).
Qed.

Lemma ord_reconnect i l g w :
  held i l g w → ord i (reconnect sys home_var metadata russh_parse russh_default alias)
    (λ r w, match r with Ok _ => held i l g w ∧ i ∈ ds_armed w | Err _ => held i l g w end) w.
Proof.
  intros HP. unfold reconnect. request (held i l g) at w0 w1 with H0; [intros; by eapply held_in_charge|].
  destruct (ds_session w0) as [e|] eqn:Hs; cbn [fmap option_fmap option_map with_context p_bind]; [|by finish (held i l g)].
  assert (healing i l g false (put_holders (ds_holders w0) (i :: ds_armed w0) w0)) as H1.
  { split; [exact H0|]. split; [cbn; left|done]. }
  request (healing i l g false) at w2 w3 with H2. destruct (or_store _) as [store|]; cbn [p_bind]; [|by finish (healing i l g false)].
  assert (found_store i l g false store (put_seen (store :: ds_stores w2) (ds_told w2) w2)) as H3 by (split; [exact H2|cbn; left]).
  destruct (resolve_host _ _ _ _ _ (store_db store) alias None None) as [rh|] eqn:Hr; cbn [in_context p_bind];
    [|by finish (found_store i l g false store)].
  eapply ord_bind; [by eapply ord_authentication|]. clear dependent w w0 w2.
  intros [a|] w [H3 Ha]; [|by destruct H3 as [[? _] _]].
  assert (heal_ready i l g false (rh_config rh) a w) as H4 by (split; [apply H3|by apply Ha]).
  request (heal_ready i l g false (rh_config rh) a) at w0 w1 with H5.
  request (heal_ready i l g false (rh_config rh) a) at w2 w3 with H6.
  request (heal_ready i l g false (rh_config rh) a) at w4 w5 with H7; [by intros w4 [[_ [? _]] _]; left|].
  assert (heal_ready i l g true (rh_config rh) a (put_session None w4)) as H8 by (destruct H7 as [[? [? ?]] ?]; split; [split; [done|]; split; [done|by left]|done]).
  request (heal_ready i l g true (rh_config rh) a) at w6 w7 with H9.
  assert (heal_ready i l g true (rh_config rh) a w7) as H10.
  { destruct (or_ok _); [|destruct (or_removed _)]; simplify_eq; exact H9. }
  generalize (ds_session w4) as removed. intros removed.
  eapply ord_try_bind; [by apply ord_connect|]. clear dependent w w0 w2 w4 w6 w7.
  intros [lease|] w H11; cbn beta iota.
  - unfold awaited. cbn [p_bind hs ask]. request (healing i l g true) at w0 w1 with H12.
    destruct (or_now _) as [now|]; cbn [p_bind]; [|by finish (healing i l g true)].
    request (healing i l g true) at w2 w3 with H13. request (healing i l g true) at w4 w5 with H14; [by intros w4 [_ [? _]]; left|].
    match goal with |- ord _ _ _ ?x => assert (healing i l g false x) as H15 by (eapply healing_put, healing_note, H14) end.
    request (healing i l g false) at w6 w7 with H16.
    match goal with |- context [with_context ?x _] => destruct x end; cbn [with_context]; by finish (healing i l g false).
  - match goal with |- context [match ?x with Some _ => _ | None => _ end] => destruct x as [entry|] end; cbn [p_bind];
      [|by finish (healing i l g true)].
    request (healing i l g true) at w0 w1 with H12; [by intros w0 [_ [? _]]; left|].
    match goal with |- ord _ _ _ ?x => assert (healing i l g false x) as H13 by (eapply healing_put, healing_note, H12) end.
    by finish (healing i l g false).
Qed.

Lemma stable_holder i : stable i (λ w, i ∈ ds_armed w).
Proof. intros w w1 Hl _. by apply Hl. Qed.
#[local] Hint Resolve stable_holder : core.
Lemma ord_heal_locked i l w :
  owner i l w → unarmed i w →
  ord i (heal_locked sys home_var metadata russh_parse russh_default alias) (λ r w, owner i l w ∧ heal_ended r w) w.
Proof.
  intros HP Hu. unfold heal_locked. request (λ w, owner i l w ∧ unarmed i w) at w0 w1 with H0.
  destruct (live_session w1) as [c|]; cbn [p_bind]; [by finish (λ w, owner i l w ∧ unarmed i w)|].
  request (λ w, owner i l w ∧ unarmed i w) at w2 w3 with H1.
  destruct (cooling _) eqn:Hcool; [by finish (λ w, owner i l w ∧ unarmed i w)|].
  assert (owner i l w3 ∧ cooled_down w3) as H2.
  { split; [apply H1|]. right. unfold cooled. destruct (ds_failures w3) as [[]|]; [|done]. cbn in Hcool. lia. }
  request (λ w, owner i l w ∧ cooled_down w) at w4 w5 with H3.
  assert (held i l (ds_generation w5) w5) as H4 by (split; [done|split; [apply H3|by right]]).
  eapply ord_try_bind; [by apply ord_reconnect|]. generalize (ds_generation w5) as g. clear. intros g [lease|e] w; cbn beta iota.
  - intros [((Ho & _) & _ & Hg) Ha].
    request (λ w, (owner i l w ∧ generation_is g w) ∧ i ∈ ds_armed w) at w0 w1 with H0; [intros w0 [[? _] _] _; by eapply owner_in_charge|].
    request (λ w, (owner i l w ∧ generation_is g w) ∧ i ∈ ds_armed w) at w2 w3 with H1.
    destruct H1 as [[Ho1 Hg1] Ha1]. destruct (ds_generation w3 =? g) eqn:Hgen; cbn [negb]; [by finish (owner i l)|].
    assert (ds_reopened w3 = true) as Hro by (destruct Hg1 as [Hc|Hc]; [by eapply armed_open|lia]).
    request (λ w, (owner i l w ∧ ds_reopened w = true) ∧ i ∈ ds_armed w) at w4 w5 with H4; [intros; by left; tauto|].
    assert (owner i l (put_session None w4) ∧ ds_reopened (put_session None w4) = true) as H5 by exact (proj1 H4).
    request (λ w, owner i l w ∧ ds_reopened w = true) at w6 w7 with H6.
    assert (owner i l w7 ∧ ds_reopened w7 = true) as H7.
    { destruct (or_ok _); [|destruct (or_removed _)]; simplify_eq; exact H6. }
    by finish (λ w, owner i l w ∧ ds_reopened w = true).
  - intros [[Ho _] _]. request (owner i l) at w0 w1 with H0; [intros; by eapply owner_in_charge|]. by finish (owner i l).
Qed.

(** *** Under the lock *)
Lemma stable_lock i l : stable i (λ w, ds_reconnect_lock w = Some l ∨ ds_closed w = true).
Proof. intros w w1 Hl _ [Hc|Hc]; [by apply Hl|]. right. by apply Hl. Qed.
#[local] Hint Resolve stable_lock : core.

Lemma ord_locked {A} i (p : desk A) (R : result A → DesktopState → Prop) w :
  unarmed i w → (∀ r, stable i (R r)) → (∀ r w h a, R r w → R r (put_holders h a w)) →
  (∀ l w, owner i l w → unarmed i w → ord i p (λ r w, owner i l w ∧ R r w) w) →
  ord i (locked p) (λ r w, unarmed i w ∧ R r w) w.
Proof.
  intros Hu HR Hput Hp. unfold locked. request (unarmed i) at w0 w1 with H0.
  assert (unarmed i w1 ∧ (ds_reconnect_lock w1 = Some r ∨ ds_closed w1 = true)) as H1.
  { destruct (ds_reconnect_lock w0) eqn:Hl; simplify_eq; cbn; auto. }
  clear dependent w0. request (λ w, unarmed i w ∧ (ds_reconnect_lock w = Some r ∨ ds_closed w = true)) at w2 w3 with H2.
  cbn in r, r0. destruct (ds_holders w2 !! r) eqn:Hfree; [done|]. simplify_eq. eapply ord_try_bind.
  { apply (Hp r); [|apply H2]. split; [cbn; by rewrite lookup_insert_eq|apply H2]. }
  clear dependent w2 w1 w. intros a w Hw. request (λ w, owner i r w ∧ R a w) at w0 w1 with H0; [by intros w0 [[? _] _]|].
  finish (λ w, unarmed i w ∧ R a w).
  split; [|apply Hput, H0]. cbn. intros [? _]%list_elem_of_filter. done.
Qed.

Lemma ord_heal i w :
  unarmed i w → ord i (heal_session sys home_var metadata russh_parse russh_default alias) (λ r w, unarmed i w ∧ heal_ended r w) w.
Proof.
  intros Hu. apply (ord_locked i _ heal_ended); [done|intros; apply stable_heal_ended|by intros ????|intros l v; apply ord_heal_locked].
Qed.
Lemma ord_lease i w :
  unarmed i w → ord i (session_lease sys home_var metadata russh_parse russh_default alias) (λ r w, unarmed i w ∧ heal_ended r w) w.
Proof.
  intros Hu. unfold session_lease. request (unarmed i) at w0 w1 with H0.
  destruct (live_session w1); [by finish (unarmed i)|]. request (unarmed i) at w2 w3 with H1.
  case_bool_decide; [by apply ord_heal|by finish (unarmed i)].
Qed.

Definition disconnect_ended (r : result unit) (w : DesktopState) : Prop := r = Ok tt → ds_closed w = true ∧ ds_detached w = true.
Lemma ord_disconnect i w : unarmed i w → ord i disconnect_host (λ r w, unarmed i w ∧ disconnect_ended r w) w.
Proof.
  intros Hu. apply (ord_locked i _ disconnect_ended); [done| |done|].
  { intros r v v1 Hl _ Hd ->. destruct (Hd eq_refl). split; by apply Hl. }
  clear w Hu. intros l w Ho Hu. unfold note_disconnected, awaited. cbn [p_bind hs ask].
  assert (∀ w1 : DesktopState, owner i l w1 ∧ unarmed i w1 → desk_ok w1 → in_charge i w1) as Hcharge
    by (intros w1 [? _] _; by eapply owner_in_charge).
  request (λ w, owner i l w ∧ unarmed i w) at w0 w1 with H0.
  request (λ w, owner i l w ∧ unarmed i w) at w2 w3 with H1.
  request (λ w, owner i l w ∧ unarmed i w) at w4 w5 with H2.
  request (λ w, owner i l w ∧ unarmed i w) at w6 w7 with H3.
  request (λ w, owner i l w ∧ unarmed i w) at w8 w9 with H4; [intros v Hv _; split; [eapply owner_in_charge, Hv|apply Hv]|].
  assert (owner i l (close w8) ∧ ds_closed (close w8) = true) as H5 by (destruct H4 as [[? _] _]; split; [split; auto|done]).
  request (λ w, owner i l w ∧ ds_closed w = true) at w10 w11 with H6.
  cbn in r. assert (owner i l w11 ∧ ds_closed w11 = true ∧ (∀ b, r = Ok b → ds_detached w11 = true)) as (H7 & H8 & H9).
  { destruct H6 as [Ho6 Hc6]. destruct (or_ok _); [|destruct (or_removed _)]; simplify_eq; split_and!; try done; cbn.
    intros _ _. rewrite Hc6. apply orb_true_r. }
  clear dependent w10. destruct r as [b|e]; cbn [p_bind]; [|by finish (owner i l)].
  pose proof (H9 b eq_refl) as H10. eapply (ord_last _ (λ w, owner i l w ∧ ds_closed w = true ∧ ds_detached w = true)); [auto|done|by intros v (_ & ? & _)|].
  clear. intros o v r v1 (Ho1 & Hc1 & Hd1) _ Hs _. cbn in Hs. simplify_eq.
  finish (λ w, owner i l w ∧ ds_closed w = true ∧ ds_detached w = true).
  - split_and!; try done. split; [apply Ho1|by right].
  - intros v1 _ (? & ? & ?). by split.
Qed.

(** *** [connect_host]

    It takes no lock, and asks for nothing that only the holder of the lock may do. *)
Definition unlocked (q : session_request) : Prop :=
  match q with
  | HLiveDetails | HHas | HStopTerminals | HStopForwards | HTake false | HManagerRemove | HOpenStore | HKeyring _ _ | HNow
  | HConnect _ _ | HGetLease | HPlatform _ | HSetPlatform _ _ | HHostKey _ | HSavePassword _ _ | HSavePassphrase _ _ | HSaveStore _ | HPut _ => True
  | _ => False
  end.
Lemma unlocked_permitted i q w : user i → unlocked q → permitted i q w.
Proof. intros Hu. destruct q; cbn; auto; try done. destruct explicit; auto; done. Qed.
Lemma unlocked_unarmed o i q w r w2 : unlocked q → serve_at alias o i q w = Some (r, w2) → ds_armed w2 = ds_armed w.
Proof.
  destruct q; cbn; try done; intros Hq Hs; repeat case_match; by simplify_eq.
Qed.
Lemma ord_unlocked {A} i (p : desk A) w :
  user i → Program.keeps (E := session_interface) unlocked p → unarmed i w → ord i p (λ _ w, unarmed i w) w.
Proof.
  intros Hu. revert w. induction p as [r|q k IH]; cbn [orderly]; intros w Hp Hw w1 Hl Hok.
  - by eapply stable_unarmed.
  - destruct Hp as [Hq Hk]. pose proof (unlocked_permitted i q w1 Hu Hq) as Hp. split; [done|]. intros r w2 Hs.
    destruct (served_sound i q w1 r w2 Hok Hp Hs) as [Hok2 Hothers]. split_and!; [done..|]. apply IH; [by apply (Hk r tt)|].
    destruct Hs as (o & Hs). unfold unarmed. rewrite (unlocked_unarmed _ _ _ _ _ _ Hq Hs). by apply (stable_unarmed i w w1 Hl Hok).
Qed.
Lemma connect_unlocked request :
  Program.keeps (E := session_interface) unlocked (connect_host sys home_var metadata russh_parse russh_default alias request).
Proof.
  assert (∀ config, Program.keeps (E := session_interface) unlocked (select_authentication config request)) as Hsel
    by (intros; unfold select_authentication, saved_password, hs; keeps; done).
  assert (Program.keeps (E := session_interface) unlocked release_stale) as Hst by (unfold release_stale, hs; keeps; done).
  assert (∀ l os, Program.keeps (E := session_interface) unlocked (apply_os_type l os)) as Hos by (intros; unfold apply_os_type, hs; keeps; done).
  assert (∀ c se v, Program.keeps (E := session_interface) unlocked (save_secrets c se v)) as Hsec by (intros; unfold save_secrets, hs; keeps; done).
  assert (∀ m, Program.keeps (E := session_interface) unlocked (record_connection alias m)) as Hrec
    by (intros; unfold record_connection, awaited, hs; keeps; done).
  assert (∀ c a, Program.keeps (E := session_interface) unlocked (connect_saved c a)) as Hcon by (intros; unfold connect_saved, awaited, hs; keeps; done).
  unfold connect_host, awaited, hs. keeps; done.
Qed.

(** *** Any number of commands at once

    The commands for this host: those whose trimmed alias is [alias]. *)
Inductive command :=
| Lease | Disconnect | StartTerminal (requested : str) (columns rows : Z) | StartForward (request : ForwardStartRequest)
| Connect (request : AuthenticationRequest).
Definition command_program (c : command) : desk unit :=
  match c with
  | Lease => (session_lease sys home_var metadata russh_parse russh_default alias ;; p_ret tt)%prog
  | Disconnect => disconnect_host
  | StartTerminal requested columns rows => start_terminal sys home_var metadata russh_parse russh_default alias requested columns rows
  | StartForward request => start_forward sys home_var metadata russh_parse russh_default alias request
  | Connect request => (connect_host sys home_var metadata russh_parse russh_default alias request ;; p_ret tt)%prog
  end.
Definition ended (c : command) (r : result unit) (w : DesktopState) : Prop :=
  match c with Disconnect => disconnect_ended r w | Lease => heal_ended r w | _ => True end.

Lemma validated_forward r : validate_forward r = Ok tt → is_public r = true → allows_public r = true.
Proof.
  assert (∀ a allow, ensure_bind_allowed a allow = Ok tt → negb (is_loopback (trim a)) = true → allow = true) as Hbind.
  { intros a allow. unfold ensure_bind_allowed, parse_bind. destruct (_ || _); [|done]. cbn. intros H Hl. rewrite Hl in H. by destruct allow. }
  destruct r; cbn; [|apply Hbind|done]. destruct (validate_target _ _); [apply Hbind|done].
Qed.

Definition is_connect (c : command) : bool := match c with Connect _ => true | _ => false end.
Lemma ord_command i c w : (is_connect c = true → user i) → unarmed i w → ord i (command_program c) (ended c) w.
Proof.
  intros Hc Hu. destruct c; cbn [command_program].
  - eapply ord_bind; [by apply ord_lease|]. intros [c|e] v [Hv Hr]; [by finish (unarmed i)|].
    cbn. intros [= ->]. by apply Hr.
  - eapply orderly_mono; [by apply ord_disconnect|]. by intros r v [_ Hd].
  - unfold start_terminal. destruct (validate_size columns rows) as [|e]; cbn [p_bind]; [|by finish (unarmed i)].
    eapply ord_bind; [by apply ord_lease|]. intros [c|e] v [Hv Hr]; [|done].
    eapply (ord_last _ (unarmed i)); [auto|done|done|]. intros o v1 r v2 Hv1 _ Hs _. cbn in Hs. simplify_eq. by finish (unarmed i).
  - unfold start_forward. destruct (validate_forward request) as [[]|e] eqn:He; cbn [p_bind]; [|by finish (unarmed i)].
    eapply ord_bind; [by apply ord_lease|]. intros [c|e] v [Hv Hr]; [|done].
    request (unarmed i) at w0 w1 with H0; [intros ? _ _; exact (validated_forward request He)|].
    destruct (or_port _); cbn [with_context p_bind]; [|by finish (unarmed i)].
    eapply (ord_last _ (unarmed i)); [auto|done|done|]. intros o' v1 r v2 Hv1 _ Hs _. cbn in Hs. simplify_eq. by finish (unarmed i).
  - eapply ord_bind; [apply ord_unlocked; [by apply Hc|apply connect_unlocked|done]|]. intros [d|e] v Hv; [by finish (unarmed i)|done].
Qed.
End safety.

Section interleaved.
Local Open Scope Z_scope.
#[local] Existing Instance leaves_preorder.
Context (sys : System) (home_var : option str) (metadata : str → io_result unit).
Context (russh_parse : str → str → result RusshConfig) (russh_default : str → RusshConfig).
Context {unicode : UnicodeTables}.
Context (alias : str).

Definition desktop (cs : list command) (w : DesktopState) : system :=
  mk_system (command_program sys home_var metadata russh_parse russh_default alias <$> cs) w.
Definition as_ended (cs : list command) (i : nat) (r : result unit) (w : DesktopState) : Prop :=
  match cs !! i with Some c => ended c r w | None => True end.
Definition connects (cs : list command) (i : nat) : Prop := ∃ request, cs !! i = Some (Connect request).
Abbreviation runs := (system_run (serves_at alias)).
Abbreviation may cs := (permitted sys home_var metadata russh_parse russh_default alias (connects cs)).

Lemma desktop_at_rest_ok session manager lock fresh generation failures instant :
  desk_ok (desktop_at_rest session manager lock fresh generation failures instant).
Proof. split; cbn; [set_solver|done..]. Qed.

Lemma desktop_orderly cs w tr s :
  desk_ok w → ds_armed w = [] → runs (desktop cs w) tr s → all_orderly (serves_at alias) desk_ok (may cs) leaves s (as_ended cs).
Proof.
  intros Hok Ha Hrun. eapply interleaved_orderly; [exact leaves_preorder| |exact Hrun]. split; [done|]. cbn. intros i p Hp.
  apply list_lookup_fmap_Some in Hp as (c & -> & Hc). unfold as_ended. rewrite Hc. apply ord_command.
  - destruct c; try done. intros _. by eexists.
  - unfold unarmed. rewrite Ha. set_solver.
Qed.
Lemma desktop_permitted cs w tr s before i q after :
  desk_ok w → ds_armed w = [] → runs (desktop cs w) tr s → tr = before ++ (i, q) :: after →
  ∃ s1, runs (desktop cs w) before s1 ∧ desk_ok (shared s1) ∧ may cs i q (shared s1).
Proof.
  intros Hok Ha Hrun Htr.
  assert (all_orderly (serves_at alias) desk_ok (may cs) leaves (desktop cs w) (as_ended cs)) as Hall
    by (eapply desktop_orderly; [done..|apply run_start]).
  destruct (interleaved_permitted (serves_at alias) desk_ok (may cs) leaves _ _ _ _ Hall Hrun before i q after Htr) as (s1 & Hs1 & Hp).
  exists s1. split_and!; [done| |done]. by destruct (desktop_orderly cs w before s1 Hok Ha Hs1).
Qed.

(** *** What has been asked so far *)
Abbreviation asked := (list (nat * session_interface)).
(** A disconnect has removed the session; a [connect_host] has entered one. *)
Definition removed_in (tr : asked) : Prop := ∃ j, (j, HTake true : session_request) ∈ tr.
Definition entered_in (cs : list command) (tr : asked) : Prop := ∃ k entry, connects cs k ∧ (k, HPut entry : session_request) ∈ tr.
(** A [connect_host] has asked for a connection, or entered a session, after a removal. *)
Definition reopened_in (cs : list command) (tr : asked) : Prop :=
  ∃ before j after k q, tr = before ++ (j, HTake true : session_request) :: after ∧ connects cs k ∧ (k, q) ∈ after ∧
    match q with HPut _ | HConnect _ _ => True | _ => False end.

Lemma removed_on tr e : removed_in tr → removed_in (tr ++ [e]).
Proof. intros (j & Hj). exists j. apply elem_of_app. by left. Qed.
Lemma entered_on cs tr e : entered_in cs tr → entered_in cs (tr ++ [e]).
Proof. intros (k & entry & ? & Hk). exists k, entry. split; [done|]. apply elem_of_app. by left. Qed.
Lemma reopened_on cs tr tr' : reopened_in cs tr → reopened_in cs (tr ++ tr').
Proof.
  intros (before & j & after & k & q & -> & ? & Hk & ?). exists before, j, (after ++ tr'), k, q. split_and!; try done.
  - by rewrite <-app_assoc.
  - apply elem_of_app. by left.
Qed.
Lemma reopens cs tr k q :
  removed_in tr → connects cs k → match q : session_request with HPut _ | HConnect _ _ => True | _ => False end → reopened_in cs (tr ++ [(k, q)]).
Proof.
  intros (j & (before & after & ->)%list_elem_of_split) Hk Hq. exists before, j, (after ++ [(k, q)]), k, q. split_and!; try done.
  - by rewrite <-app_assoc.
  - apply elem_of_app. right. by left.
Qed.

Record told_by (cs : list command) (tr : asked) (w : DesktopState) : Prop := mk_told_by {
  told_closed : ds_closed w = true ↔ removed_in tr;
  told_entered : ds_entered w = true → entered_in cs tr;
  told_reopened : ds_reopened w = true → reopened_in cs tr }.

Definition is_removal (q : session_request) : bool := match q with HTake true => true | _ => false end.
Definition is_entry (q : session_request) : bool := match q with HPut _ => true | _ => false end.
Definition is_return (q : session_request) : bool := match q with HPut _ | HConnect _ _ => true | _ => false end.
Lemma serve_ghosts o i q w r w1 :
  serve_at alias o i q w = Some (r, w1) →
  ds_closed w1 = ds_closed w || is_removal q ∧
  (ds_entered w1 = true → ds_entered w = true ∨ i ∉ ds_armed w ∧ is_entry q = true) ∧
  (ds_reopened w1 = true → ds_reopened w = true ∨ ds_closed w = true ∧ i ∉ ds_armed w ∧ is_return q = true).
Proof.
  assert (∀ a b (c : list nat), a || (b && negb (bool_decide (i ∈ c))) = true → a = true ∨ b = true ∧ i ∉ c) as Hnote.
  { intros a b c [?|[? H]%andb_true_iff]%orb_true_iff; [by left|]. right. split; [done|]. by case_bool_decide. }
  destruct q; cbn; intros Hs; repeat case_match; simplify_eq; cbn; rewrite ?orb_false_r, ?orb_true_r; split_and!; auto;
    intros Hg; try (apply (Hnote _ true) in Hg); try apply Hnote in Hg; tauto.
Qed.
Lemma told_step cs tr o i q w r w1 :
  may cs i q w → told_by cs tr w → serve_at alias o i q w = Some (r, w1) → told_by cs (tr ++ [(i, q)]) w1.
Proof.
  intros Hp [Hc He Hr] Hs. destruct (serve_ghosts o i q w r w1 Hs) as (Hc1 & He1 & Hr1). split.
  - rewrite Hc1, orb_true_iff, Hc. unfold removed_in. setoid_rewrite elem_of_app. setoid_rewrite list_elem_of_singleton. split.
    + intros [(j & ?)|Hq]; [exists j; by left|]. exists i. right. destruct q; try done. by destruct explicit.
    + intros (j & [?|[= _ <-]]); [left; by exists j|by right].
  - intros [?|[Hi Hq]]%He1; [by apply entered_on, He|]. destruct q; try done. destruct Hp as [?|Hu]; [done|].
    exists i, entry. split; [done|]. apply elem_of_app. right. by left.
  - intros [?|(Hcl & Hi & Hq)]%Hr1; [by apply reopened_on, Hr|]. apply reopens; [by apply Hc| |by destruct q].
    destruct q; try done; cbn in Hp; tauto.
Qed.

Lemma desktop_told cs w tr s :
  desk_ok w → ds_armed w = [] → ds_closed w = false → ds_entered w = false → ds_reopened w = false →
  runs (desktop cs w) tr s → told_by cs tr (shared s).
Proof.
  intros Hok Ha Hc He Hr. induction 1 as [|tr s1 e s2 Hrun IH Hstep].
  - split; cbn; rewrite ?Hc, ?He, ?Hr; try done. split; [done|]. by intros (j & ?%not_elem_of_nil).
  - pose proof (desktop_orderly cs w tr s1 Hok Ha Hrun) as Hall.
    destruct (all_orderly_step _ _ _ _ _ _ _ _ Hall Hstep) as [Hp _]. destruct Hstep as [ts i q k v r v1 Hi (o & Hs)]. cbn in *.
    apply (told_step cs tr o i q (goes_by o v) r v1); [by apply goes_by_permitted|by destruct IH; split|exact Hs].
Qed.

(** C21: whatever commands for a host run at once, [connect_host] among them, and however they
    interleave: what a heal tries is the host as the library then resolved it, by no more than
    five hops, with a password that the credential store keeps for this very account, the agent,
    or a key file of the configuration without a passphrase, never something else; and it holds
    a lock.  Unless a [connect_host] has asked for a connection or entered its session after a
    disconnect removed the session, this lock is the host's, so that nobody else heals, no
    disconnect has removed the session, the cooldown of the last failure is over, and the session
    is out of the table, but for one that a [connect_host] may have entered. *)
Theorem heals_alone_and_as_stored cs session manager lock fresh generation failures instant tr s before i config authentication after :
  let start := desktop cs (desktop_at_rest session manager lock fresh generation failures instant) in
  runs start tr s → tr = before ++ (i, HConnect config authentication) :: after → ¬ connects cs i →
  ∃ s1 l, runs start before s1 ∧ ds_holders (shared s1) !! l = Some i ∧
    zlen (c_jump_hosts config) ≤ 5 ∧ remembered sys home_var metadata russh_parse russh_default alias config authentication (shared s1) ∧
    (¬ reopened_in cs before →
       ds_reconnect_lock (shared s1) = Some l ∧ ¬ removed_in before ∧ cooled (shared s1) ∧
       (¬ entered_in cs before → ds_session (shared s1) = None)).
Proof.
  intros start Hrun Htr Hi. destruct (desktop_permitted cs _ tr s _ _ _ _ (desktop_at_rest_ok _ _ _ _ _ _ _) eq_refl Hrun Htr)
    as (s1 & Hs1 & Hok & [?|(Ha & Hj & Hr & Hc)]); [done|].
  pose proof (desktop_told cs _ _ _ (desktop_at_rest_ok _ _ _ _ _ _ _) eq_refl eq_refl eq_refl eq_refl Hs1) as [Htc Hte Hto].
  destruct (armed_holds _ Hok i Ha) as (l & Hl & Hlock). exists s1, l. split_and!; try done. intros Hno.
  assert (¬ ds_reopened (shared s1) = true) as Hno1 by auto.
  assert (¬ ds_closed (shared s1) = true) as Hopen by (intros ?; by apply Hno1; eapply armed_open).
  tauto.
Qed.


(** A session that was healed is discarded as disconnected meanwhile only after a [connect_host]
    has reopened the host: until then the lock that [disconnect_host] takes first excludes it,
    and the comparison of the generations has no effect. *)
Theorem no_heal_is_discarded cs session manager lock fresh generation failures instant tr s i :
  runs (desktop cs (desktop_at_rest session manager lock fresh generation failures instant)) tr s →
  cs !! i = Some Lease → tasks s !! i = Some (Done (Err DISCARDED)) → reopened_in cs tr.
Proof.
  intros Hrun Hi Hdone. destruct (desktop_orderly cs _ _ _ (desktop_at_rest_ok _ _ _ _ _ _ _) eq_refl Hrun) as [Hok Hts].
  specialize (Hts i _ Hdone (shared s)). unfold as_ended in Hts. rewrite Hi in Hts.
  pose proof (desktop_told cs _ _ _ (desktop_at_rest_ok _ _ _ _ _ _ _) eq_refl eq_refl eq_refl eq_refl Hrun) as [_ _ Hto].
  apply Hto. by apply Hts.
Qed.

(** No listener of this computer is opened to others unless the request says so. *)
Theorem public_forwards_are_confirmed cs session manager lock fresh generation failures instant tr s before i lease request after :
  runs (desktop cs (desktop_at_rest session manager lock fresh generation failures instant)) tr s →
  tr = before ++ (i, HForward lease request : session_request) :: after → is_public request = true → allows_public request = true.
Proof.
  intros Hrun Htr. by destruct (desktop_permitted cs _ tr s _ _ _ _ (desktop_at_rest_ok _ _ _ _ _ _ _) eq_refl Hrun Htr) as (s1 & _ & _ & Hp).
Qed.
End interleaved.
