(* ===== verification/DesktopConnect.v ===== *)
(** * Connecting from the desktop ([connect_host] of [commands/connection.rs])

    What the user types is used for one attempt at the host as the library resolves it, and
    saved only if that attempt succeeded and the user said so.  The examples run commands
    beside each other on concrete schedules: what the locks prevent, and what they do not. *)

From stdpp Require Import base list gmap strings numbers sorting.
From Stdlib Require Import Lia.
From S2P Require Import Prelude RustStr StrFacts HostModel HostStore OpenSshInclude Config Resolver ConnectionManager HostTrust RemoteCommand Program Authenticate Connect Exec RemoteInfo Interleave IncludeScope DesktopSession DesktopHealing.

(** ** What an attempt may do *)
Record connect_attempt := mk_attempt {
  at_live : option SessionDto;                              (* the live session that was found *)
  at_stores : list HostStore;                               (* the files that were read *)
  at_told : list (str * str);                               (* the secrets that the credential store gave *)
  at_asked : bool;                                          (* a connection was asked for, whatever came of it *)
  at_connected : option (ConnectionConfig * Authentication) }.
Definition fresh_attempt : connect_attempt := mk_attempt None [] [] false None.

Section spec.
Local Open Scope Z_scope.
Context (sys : System) (home_var : option str) (metadata : str → io_result unit).
Context (russh_parse : str → str → result RusshConfig) (russh_default : str → RusshConfig).
Context {unicode : UnicodeTables}.
Context (alias : str) (request : AuthenticationRequest).

Definition resolved_from (stores : list HostStore) (config : ConnectionConfig) : Prop :=
  ∃ store rh, store ∈ stores ∧
    resolve_host sys home_var metadata russh_parse russh_default (store_db store) alias None None = Ok rh ∧ config = rh_config rh.

(** What the request asks to be sent: the secret as it was typed; none typed, the one kept for
    this account. *)
Definition as_typed (config : ConnectionConfig) (told : list (str * str)) (authentication : Authentication) : Prop :=
  match request with
  | RequestAuto passphrase => authentication = AuthAuto (c_identity_files config) (nonempty_secret passphrase)
  | RequestAgent => authentication = AuthAgent
  | RequestPrivateKey path passphrase _ =>
      ∃ key, authentication = AuthPrivateKey key (nonempty_secret passphrase) ∧
        ((∃ value, path = Some value ∧ trim value ≠ [] ∧ key = utf8 value) ∨
         (∀ value, path = Some value → trim value = []) ∧ head (c_identity_files config) = Some key)
  | RequestPassword password _ =>
      ∃ secret, authentication = AuthPassword secret ∧
        match nonempty_secret password with Some typed => secret = typed | None => (account_name config, secret) ∈ told end
  | RequestKeyboardInteractive secret => authentication = AuthKeyboardInteractive secret ∧ secret ≠ []
  end.
Definition password_to_save : option str :=
  match request with RequestPassword password true => nonempty_secret password | _ => None end.
Definition passphrase_to_save : option str :=
  match request with RequestPrivateKey _ passphrase true => nonempty_secret passphrase | _ => None end.

Definition attempt_allowed (q : session_request) (g : connect_attempt) : Prop :=
  match q with
  | HStopTerminals | HStopForwards | HTake false | HManagerRemove => at_live g = None
  | HConnect config authentication =>
      at_live g = None ∧ at_asked g = false ∧ zlen (c_jump_hosts config) ≤ 5 ∧ resolved_from (at_stores g) config ∧
      as_typed config (at_told g) authentication
  | HSetPlatform _ _ | HSaveStore _ | HPut _ => is_Some (at_connected g)
  | HSavePassword account password =>
      ∃ config, at_connected g = Some (config, AuthPassword password) ∧ account = account_name config ∧ password_to_save = Some password
  | HSavePassphrase path passphrase =>
      ∃ config, at_connected g = Some (config, AuthPrivateKey path (Some passphrase)) ∧ passphrase_to_save = Some passphrase
  | HKeyring service _ => service = KEYCHAIN_SERVICE ∧ at_asked g = false
  | HLiveDetails | HHas | HOpenStore | HNow | HGetLease | HPlatform _ | HHostKey _ => True
  | _ => False
  end.
Definition attempt_step (q : session_request) : session_answer q → connect_attempt → connect_attempt → Prop :=
  match q return session_answer q → connect_attempt → connect_attempt → Prop with
  | HLiveDetails => λ r g g', g' = mk_attempt r (at_stores g) (at_told g) (at_asked g) (at_connected g)
  | HOpenStore => λ r g g',
      g' = match r with Ok s => mk_attempt (at_live g) (s :: at_stores g) (at_told g) (at_asked g) (at_connected g) | Err _ => g end
  | HKeyring _ account => λ r g g',
      g' = match r with Some p => mk_attempt (at_live g) (at_stores g) ((account, p) :: at_told g) (at_asked g) (at_connected g) | None => g end
  | HConnect config authentication => λ r g g',
      g' = mk_attempt (at_live g) (at_stores g) (at_told g) true (match r with Ok _ => Some (config, authentication) | Err _ => at_connected g end)
  | _ => λ _ g g', g' = g
  end.
Definition attempt_monitor : monitor session_interface connect_attempt :=
  Monitor (E := session_interface) attempt_allowed attempt_step.
Abbreviation wpa := (wp attempt_monitor).

(** ** The steps *)
Lemma selection_typed config g (Q : result AuthenticationSelection → connect_attempt → Prop) :
  at_asked g = false →
  (∀ e, Q (Err e) g) →
  (∀ told selection, as_typed config told (as_authentication selection) →
     (∀ p, as_supplied_password_to_save selection = Some p → password_to_save = Some p ∧ as_authentication selection = AuthPassword p) →
     (∀ path p, as_supplied_passphrase_to_save selection = Some (path, p) →
        passphrase_to_save = Some p ∧ as_authentication selection = AuthPrivateKey path (Some p)) →
     Q (Ok selection) (mk_attempt (at_live g) (at_stores g) told (at_asked g) (at_connected g))) →
  wpa (select_authentication config request) Q g.
Proof.
  intros Hc Herr HQ. destruct g as [live stores told asked connected]. cbn in Hc, HQ, Herr. subst asked.
  unfold select_authentication. unfold as_typed, password_to_save, passphrase_to_save in HQ.
  destruct request as [passphrase| |path passphrase save|password save|secret].
  - by apply HQ.
  - by apply HQ.
  - assert (∀ key, ((∃ value, path = Some value ∧ trim value ≠ [] ∧ key = utf8 value) ∨
         (∀ value, path = Some value → trim value = []) ∧ head (c_identity_files config) = Some key) →
       wpa (p_ret (mk_selection (AuthPrivateKey key (nonempty_secret passphrase)) MethodPrivateKey None
         (if save then (λ secret, (key, secret)) <$> nonempty_secret passphrase else None))) Q (mk_attempt live stores told false connected)) as Hkey.
    { intros key Hkey. apply HQ; cbn; [by exists key|done|]. intros k p Hp. destruct save; [|done].
      destruct (nonempty_secret passphrase); [|done]. cbn in Hp. by simplify_eq. }
    destruct path as [value|]; cbn [mbind option_bind]; [case_bool_decide as Hv|].
    + destruct (head (c_identity_files config)) as [key|] eqn:Hh; [|by apply Herr]. apply Hkey. right. by split; [intros v [= <-]|].
    + apply Hkey. left. by exists value.
    + destruct (head (c_identity_files config)) as [key|] eqn:Hh; [|by apply Herr]. apply Hkey. by right.
  - destruct (nonempty_secret password) as [secret|] eqn:Hn; cbn.
    + apply HQ; cbn; [by exists secret| |done]. intros p Hp. destruct save; [|done]. by simplify_eq.
    + split; [done|]. intros [secret|] g' ->; cbn; [|by apply Herr]. apply HQ; cbn; [|by destruct save|done].
      exists secret. split; [done|]. by left.
  - case_bool_decide; [by apply Herr|]. by apply HQ.
Qed.

(** *** After the connection stands *)
Lemma os_type_keeps lease os g (Q : result (option str) → connect_attempt → Prop) :
  is_Some (at_connected g) → (∀ r, Q r g) → wpa (apply_os_type lease os) Q g.
Proof.
  intros Hc HQ. unfold apply_os_type. cbn [p_bind hs ask wp]. split; [done|]. intros probed g' ->.
  destruct os as [[]|]; cbn [p_bind hs ask wp p_ret]; [apply HQ|..|apply HQ]; (split; [exact Hc|]; intros [] g' ->; apply HQ).
Qed.

Lemma secrets_saved_typed config selection warning g (Q : result (option str) → connect_attempt → Prop) :
  at_connected g = Some (config, as_authentication selection) →
  (∀ p, as_supplied_password_to_save selection = Some p → password_to_save = Some p ∧ as_authentication selection = AuthPassword p) →
  (∀ path p, as_supplied_passphrase_to_save selection = Some (path, p) →
     passphrase_to_save = Some p ∧ as_authentication selection = AuthPrivateKey path (Some p)) →
  (∀ r, Q r g) → wpa (save_secrets config selection warning) Q g.
Proof.
  intros Hc Hp Hk HQ. unfold save_secrets.
  assert (∀ warning, wpa (match as_supplied_passphrase_to_save selection with
    | Some (path, passphrase) =>
        (saved ⇐ hs (HSavePassphrase path passphrase);
         p_ret (match saved with Ok _ => warning | Err _ => Some (text "连接成功，但密钥口令未能保存") end))%prog
    | None => p_ret warning end) Q g) as Hpass.
  { intros w. destruct (as_supplied_passphrase_to_save selection) as [[path p]|]; [|by apply HQ]. destruct (Hk path p eq_refl) as [? Ha].
    cbn [p_bind hs ask wp p_ret]. split; [exists config; by rewrite Hc, Ha|]. intros r g' ->. apply HQ. }
  destruct (as_supplied_password_to_save selection) as [p|]; [|by apply Hpass]. destruct (Hp p eq_refl) as [? Ha].
  cbn [p_bind hs ask wp p_ret]. split; [exists config; by rewrite Hc, Ha|]. intros r g' ->. apply Hpass.
Qed.

Lemma recorded_after method g (Q : result unit → connect_attempt → Prop) :
  is_Some (at_connected g) → (∀ r stores, Q r (mk_attempt (at_live g) stores (at_told g) (at_asked g) (at_connected g))) →
  wpa (record_connection alias method) Q g.
Proof.
  intros Hc HQ. assert (∀ r, Q r g) as HQg by (intros r; destruct g; apply HQ).
  unfold record_connection, awaited. cbn [p_bind hs ask wp]. split; [done|]. intros [store|e] g' Hg; cbn in Hg; subst g'; cbn [p_bind wp]; [|apply HQg].
  destruct (store_host store alias); [|apply HQ]. cbn [p_bind hs ask wp]. split; [done|]. intros now g' ->.
  destruct (record_success now alias method store) as [[[]|e] updated]; cbn; [|apply HQ].
  split; [done|]. intros r g' ->. apply HQ.
Qed.

(** C6: a connection is asked for at most once, whether it succeeds or not: with what the user
    typed, to the host as the library resolves it, by at most five
    hops, and only when no live session is remembered; a secret is saved only after the host has
    accepted exactly it, only if the user asked for that, and under that account or key; the
    platform, the statistics and the session are set only after the connection stands, and
    nothing is stopped while a session is alive.  What is returned is the live session or the one
    just made. *)
Theorem connect_host_as_typed :
  wp attempt_monitor (connect_host sys home_var metadata russh_parse russh_default alias request) (λ r g, ∀ details, r = Ok details →
    at_live g = Some details ∧ at_connected g = None ∨
    at_live g = None ∧ at_asked g = true ∧ ∃ config authentication, at_connected g = Some (config, authentication) ∧
      ss_alias details = alias ∧ ss_address details = c_host config ∧ ss_port details = c_port config ∧ ss_user details = c_username config ∧
      ss_route details = route_to_dto config) fresh_attempt.
Proof.
  unfold connect_host. rewrite wp_done_bind. case_bool_decide; cbn [bail_if]; [done|].
  cbn [p_bind hs ask wp]. split; [done|]. intros [details|] g ->; [intros d [= ->]; by left|]. cbn [at_live at_stores at_told at_asked at_connected fresh_attempt].
  rewrite wp_bind. assert (∀ Q : result unit → connect_attempt → Prop, Q (Ok tt) fresh_attempt → wpa release_stale Q fresh_attempt) as Hstale.
  { intros Q HQ. unfold release_stale. cbn. split; [done|]. intros [] g ->; cbn; [|done]. do 4 (split; [done|]; intros ? ? ->; cbn). done. }
  apply Hstale. unfold awaited. cbn [p_bind hs ask wp]. split; [done|]. intros [store|e] g Hg; cbn in Hg; subst g; cbn [p_bind wp]; [|done].
  destruct (resolve_host _ _ _ _ _ (store_db store) alias None None) as [rh|] eqn:Hr; cbn [in_context p_bind wp]; [|done].
  rewrite wp_bind. apply selection_typed; [done..|]. intros told selection Ht Hpw Hpp. cbn [at_live at_stores at_connected].
  cbn [p_bind hs ask wp]. split; [done|]. intros [now|e] g ->; cbn [p_bind wp]; [|done].
  rewrite wp_bind, wp_context. unfold connect_saved, awaited. rewrite wp_done_bind. destruct (5 <? _) eqn:Hj; cbn [bail_if]; [done|].
  cbn [p_bind hs ask wp]. split.
  { cbn. split_and!; try done; [lia|]. exists store, rh. split_and!; [by left|done|done]. }
  intros [[]|e] g Hg; cbn in Hg; subst g; cbn [p_bind wp]; [|done]. split; [done|]. intros [lease|] g ->; cbn [with_context in_context wp]; [|done].
  rewrite wp_bind. apply os_type_keeps; [by eexists|]. intros [warning|e]; [|done]. cbn [p_bind hs ask wp].
  split; [done|]. intros platform g ->. split; [done|]. intros key g ->.
  rewrite wp_bind. apply secrets_saved_typed; [done..|]. intros [warning'|e]; [|done].
  rewrite wp_bind. apply recorded_after; [by eexists|]. intros [[]|e] stores; [|done].
  cbn [p_bind hs ask wp]. split; [by eexists|]. intros [] g ->. cbn. intros details [= <-]. right. split; [done|]. split; [done|]. by eexists _, _.
Qed.
End spec.

(** ** On schedules *)
Definition desktop_play {A} (alias : str) (schedule : list (nat * Oracle)) (s : @system session_interface DesktopState A) :
    list (nat * session_interface) * @system session_interface DesktopState A :=
  play_tasks (E := session_interface) (λ o i q w, serve_at alias o i q (goes_by o w)) schedule s.
Lemma desktop_play_is_run {A} alias schedule (s : @system session_interface DesktopState A) :
  system_run (serves_at alias) s (desktop_play alias schedule s).1 (desktop_play alias schedule s).2.
Proof. apply play_is_run. intros o i q w r w' Hs. by exists o. Qed.

Module Examples.
#[local] Existing Instance ascii_tables.
Import Resolver.Examples HostStore.Examples.
Local Abbreviation on_web cs := (desktop system2 home2 metadata2 russh2 default2 (lit "web") cs).

(** Everything goes well; the transport dies; what is asked for fails. *)
Definition going_well : Oracle := mk_oracle 1 [] true false false (Ok example_store) (Some (lit "kept")) None (Ok 100) Unix (Ok tt) (Some 8080).
Definition dying : Oracle := mk_oracle 1 [0%nat] true false false (Ok example_store) (Some (lit "kept")) None (Ok 100) Unix (Ok tt) (Some 8080).
Definition failing : Oracle := mk_oracle 1 [] false false true (Ok example_store) (Some (lit "kept")) None (Ok 100) Unix (Err "disk full") None.
Definition times (n i : nat) (o : Oracle) : list (nat * Oracle) := repeat (i, o) n.

Definition details : SessionDto :=
  mk_session_dto [] (lit "web") (lit "10.0.0.2") 22 (lit "deploy") (lit "password") 7 None (lit "unix") None.
Definition remembered_entry : SessionEntry := mk_entry 0 details.
Local Abbreviation resting := (desktop_at_rest (Some remembered_entry) (Some 0%nat) None 1 0 None 0).
Definition outcomes {A} (s : @system session_interface DesktopState A) : list (option (result A)) :=
  (λ p, match p with Done r => Some r | Ask _ _ => None end) <$> tasks s.

(** The transport has died and a command heals it; a disconnect that comes meanwhile waits, and
    a command that comes after both finds nothing. *)
Definition healing_commands : list command := [Lease; Disconnect; Lease].
Definition healed_then_disconnected : list (nat * session_interface) * @system session_interface DesktopState unit :=
  desktop_play (lit "web") (times 1 0 dying ++ times 12 0 going_well ++ times 6 1 going_well ++ times 20 0 going_well ++ times 20 1 going_well)
    (on_web healing_commands resting).
Definition and_leased_again : list (nat * session_interface) * @system session_interface DesktopState unit :=
  desktop_play (lit "web") (times 20 2 going_well) healed_then_disconnected.2.

Example healed_and_disconnected :
  outcomes healed_then_disconnected.2 = [Some (Ok tt); Some (Ok tt); None] ∧
  outcomes and_leased_again.2 = [Some (Ok tt); Some (Ok tt); Some (Err "尚未连接")] ∧
  ds_terminals (shared and_leased_again.2) = [] ∧ ds_generation (shared and_leased_again.2) = 1%Z.
Proof. by vm_compute. Qed.

Definition web_config : ConnectionConfig :=
  match resolve_host system2 home2 metadata2 russh2 default2 (store_db example_store) (lit "web") None None with
  | Ok r => rh_config r | Err _ => config_new [] [] end.

Lemma healed_run : system_run (serves_at (lit "web")) (on_web healing_commands resting) healed_then_disconnected.1 healed_then_disconnected.2.
Proof. unfold healed_then_disconnected. apply desktop_play_is_run. Qed.

Lemma never_reopened cs tr : Forall (λ c, is_connect c = false) cs → ¬ reopened_in cs tr.
Proof.
  intros Hcs (before & j & after & k & q & _ & (request & Hk) & _). rewrite Forall_lookup in Hcs. by specialize (Hcs k _ Hk).
Qed.
Lemma none_connects : Forall (λ c, is_connect c = false) healing_commands.
Proof. repeat constructor. Qed.

Lemma heals_alone_and_as_stored_witness :
  healed_then_disconnected.1 !! 15%nat = Some (0%nat, HConnect web_config (AuthPassword (lit "kept"))) ∧
  ∃ s1 l, system_run (serves_at (lit "web")) (on_web healing_commands resting) (take 15 healed_then_disconnected.1) s1 ∧
    ds_holders (shared s1) !! l = Some 0%nat ∧ ds_reconnect_lock (shared s1) = Some l ∧ ¬ removed_in (take 15 healed_then_disconnected.1).
Proof.
  assert (healed_then_disconnected.1 !! 15%nat = Some (0%nat, HConnect web_config (AuthPassword (lit "kept")))) as Hk by by vm_compute.
  split; [exact Hk|].
  pose proof (take_drop_middle _ _ _ Hk) as Htr. symmetry in Htr.
  pose proof (heals_alone_and_as_stored system2 home2 metadata2 russh2 default2 (lit "web") healing_commands (Some remembered_entry) (Some 0%nat)
    None 1 0 None 0 healed_then_disconnected.1 healed_then_disconnected.2 (take 15 healed_then_disconnected.1) 0%nat web_config
    (AuthPassword (lit "kept")) (drop 16 healed_then_disconnected.1)) as H.
  cbv zeta in H. destruct (H healed_run Htr) as (s1 & l & Hs1 & Hl & _ & _ & Hno).
  { intros (request & Hc). discriminate Hc. }
  destruct (Hno (never_reopened _ _ none_connects)) as (Hlock & Hr & _).
  exists s1, l. exact (conj Hs1 (conj Hl (conj Hlock Hr))).
Defined.


(** A terminal that was asked for as [" web "] has the host's session, and is registered under
    those five characters: [disconnect_host] does not stop it. *)
Definition untrimmed : @system session_interface DesktopState unit :=
  (desktop_play (lit "web") (times 20 0 going_well ++ times 20 1 going_well)
     (on_web [StartTerminal (lit " web ") 80 24; Disconnect] resting)).2.
Example untrimmed_control_survives :
  outcomes untrimmed = [Some (Ok tt); Some (Ok tt)] ∧ ds_closed (shared untrimmed) = true ∧
  ds_session (shared untrimmed) = None ∧ ds_terminals (shared untrimmed) = [lit " web "].
Proof. by vm_compute. Qed.

(** A forward whose lease was handed out before the disconnect enters the table after it. *)
Definition overtaken : @system session_interface DesktopState unit :=
  (desktop_play (lit "web") (times 2 0 going_well ++ times 20 1 going_well ++ times 20 0 going_well)
     (on_web [StartForward (ForwardDynamic (lit "web") (lit "127.0.0.1") 1080 false); Disconnect] resting)).2.
Example forward_outlives_disconnect :
  outcomes overtaken = [Some (Ok tt); Some (Ok tt)] ∧ ds_session (shared overtaken) = None ∧
  ds_forwards (shared overtaken) = [lit "web"].
Proof. by vm_compute. Qed.

(** [connect_host] does not take the reconnect lock.  While a heal is failing the user connects
    anew; the heal then puts the dead entry back over the live one. *)
Definition overwritten : @system session_interface DesktopState unit :=
  (desktop_play (lit "web") (times 1 0 dying ++ times 13 0 going_well ++ times 1 0 failing ++ times 30 1 going_well ++ times 20 0 going_well)
     (on_web [Lease; Connect RequestAgent] resting)).2.
Example heal_overwrites_new_session :
  outcomes overwritten = [Some (Err "连接已断开，自动重连失败"); Some (Ok tt)] ∧
  se_lease <$> ds_session (shared overwritten) = Some 0%nat ∧ alive (shared overwritten) 0 = false ∧
  ds_manager (shared overwritten) = Some 2%nat ∧ alive (shared overwritten) 2 = true.
Proof. by vm_compute. Qed.

(** A disconnect drops the lock's entry while a heal waits for that lock.  When the user has
    connected anew and this connection has died too, the waiting heal and one that comes now
    hold different locks: both have found the entry to heal, and both connect. *)
Definition dying_again : Oracle := mk_oracle 1 [2%nat] true false false (Ok example_store) (Some (lit "kept")) None (Ok 100) Unix (Ok tt) (Some 8080).
Definition reopening : list (nat * Oracle) :=
  times 2 1 going_well ++ times 1 0 dying ++ times 2 0 going_well ++ times 8 1 going_well ++ times 40 2 going_well.
Definition healed_twice : list (nat * session_interface) * @system session_interface DesktopState unit :=
  desktop_play (lit "web")
    (reopening ++ times 1 3 dying_again ++ times 2 3 going_well ++ times 5 0 going_well ++ times 5 3 going_well ++ times 6 0 going_well ++ times 6 3 going_well)
    (on_web [Lease; Disconnect; Connect RequestAgent; Lease] resting).
Definition connecting (tr : list (nat * session_interface)) : list nat :=
  omap (λ e : nat * session_request, match e.2 with HConnect _ _ => Some e.1 | _ => None end) tr.
Example two_heals_at_once :
  outcomes healed_twice.2 = [None; Some (Ok tt); Some (Ok tt); None] ∧ connecting healed_twice.1 = [2; 0; 3]%nat ∧
  ds_armed (shared healed_twice.2) = [3; 0]%nat ∧
  ds_holders (shared healed_twice.2) !! 1%nat = Some 0%nat ∧ ds_holders (shared healed_twice.2) !! 3%nat = Some 3%nat.
Proof. by vm_compute. Qed.

(** In the same way a heal outruns a second disconnect: when all have ended, and the disconnect
    with success, the session is back and alive. *)
Definition outrun : @system session_interface DesktopState unit :=
  (desktop_play (lit "web")
    (reopening ++ times 3 3 going_well ++ times 1 0 dying_again ++ times 4 0 going_well ++ times 7 3 going_well ++ times 40 0 going_well)
    (on_web [Lease; Disconnect; Connect RequestAgent; Disconnect] resting)).2.
Example second_disconnect_is_outrun :
  outcomes outrun = [Some (Ok tt); Some (Ok tt); Some (Ok tt); Some (Ok tt)] ∧
  is_Some (live_session (shared outrun)).
Proof. split; [by vm_compute|]. vm_compute. by eexists. Qed.

(** When only the statistics cannot be saved, [connect_host] reports an error and remembers no
    session, but the connection stands in the manager. *)
Definition unsaved : Oracle := mk_oracle 1 [] true false false (Ok example_store) None None (Ok 100) Unix (Err "disk full") None.
Definition unrecorded : @system session_interface DesktopState unit :=
  (desktop_play (lit "web") (times 40 0 unsaved) (on_web [Connect RequestAgent] (desktop_at_rest None None None 1 0 None 0))).2.
Example connection_without_session :
  outcomes unrecorded = [Some (Err "disk full")] ∧ ds_session (shared unrecorded) = None ∧ ds_manager (shared unrecorded) = Some 1%nat.
Proof. by vm_compute. Qed.

(** Which listeners are public. *)
Example loopback_addresses :
  (is_loopback <$> (lit <$> ["127.0.0.1"; "127.8.9.10"; "::1"; "0:0:0:0:0:0:0:1"; "::0.0.0.1"]%string)) = [true; true; true; true; true] ∧
  (is_loopback <$> (lit <$> ["0.0.0.0"; "::"; "::ffff:127.0.0.1"; "1::1"; "127.0.0.1.evil"; "localhost"; "::1:0"]%string)) =
    [false; false; false; false; false; false; false] ∧
  is_ok (validate_forward (ForwardDynamic (lit "web") (lit " 127.0.0.1 ") 0 false)) = true ∧
  is_ok (validate_forward (ForwardDynamic (lit "web") (lit "0.0.0.0") 0 false)) = false ∧
  is_ok (validate_forward (ForwardLocal (lit "web") (lit "0.0.0.0") 0 (lit "db") 5432 true)) = true.
Proof. by vm_compute. Qed.
End Examples.
