(* ===== verification/History.v ===== *)
(** * The desktop's history ([history.rs], and what [commands/connection.rs] writes to it)

    Two files of one JSON object a line: the commands that were used on each host, newest
    last, and the record of every run.  JSON text is a parameter with the laws of a line; a
    file is the text it holds, or none.  Theorems: the command history is read back as it was
    written, holds each command of a host once and stays within its limits, whatever it held;
    the pages of the record are its entries, each once, newest first. *)

From stdpp Require Import base list gmap strings numbers sorting.
From Stdlib Require Import Lia.
From S2P Require Import Prelude RustStr StrFacts.

(** ** Definitions *)
Record CommandHistoryEntry := mk_command_entry { ce_alias : str; ce_command : str; ce_used_at_unix : Z; ce_source : str }.
Record HistoryEntryDto := mk_run {
  he_id : str; he_alias : str; he_username : option str; he_source : option str; he_command : str; he_exit_status : option Z;
  he_succeeded : bool; he_output_preview : str; he_started_at_unix : Z; he_duration_ms : Z }.

(** A line that [serde_json] writes: braces around text without a line feed. *)
Definition json_line (l : str) : Prop := ∃ body, l = ch "{" :: body ++ [ch "}"] ∧ LF ∉ body.
Class HistoryJson := {
  command_to_json : CommandHistoryEntry → str;
  command_from_json : str → option CommandHistoryEntry;
  run_to_json : HistoryEntryDto → str;
  run_from_json : str → option HistoryEntryDto;
  command_json_back e : command_from_json (command_to_json e) = Some e;
  command_json_line e : json_line (command_to_json e);
  run_json_back e : run_from_json (run_to_json e) = Some e;
  run_json_line e : json_line (run_to_json e) }.

Definition PAGE_SIZE : Z := 50.
Definition MAX_COMMANDS_PER_ALIAS : Z := 500.
Definition MAX_COMMAND_FILE_ENTRIES : Z := 5000.

Section history.
Local Open Scope Z_scope.
Context `{HistoryJson}.

(** *** The commands *)
(** [file]: what opening and reading it gives; [None] where there is no file.  A line that is
    not a command is passed over. *)
Definition read_commands (file : result (option str)) : result (list CommandHistoryEntry) :=
  file ← file;
  match file with
  | None => Ok []
  | Some text => Ok (omap (λ line, if bool_decide (trim line = []) then None else command_from_json line) (lines text))
  end.
(** What is written over the file. *)
Definition write_commands (entries : list CommandHistoryEntry) : str := unlines (command_to_json <$> entries).

Definition same_command (alias command : str) (e : CommandHistoryEntry) : bool :=
  bool_decide (ce_alias e = alias) && bool_decide (ce_command e = command).
(** One round of the loop over the commands. *)
Definition append_command (alias source : str) (used_at_unix : Z) (acc : list CommandHistoryEntry * Z) (command : str)
    : list CommandHistoryEntry * Z :=
  let '(entries, added) := acc in
  let command := trim command in
  if bool_decide (command = []) then acc
  else match List.find (same_command alias command) entries with
       | Some existing =>
           (filter (λ e, same_command alias command e = false) entries ++
              [mk_command_entry (ce_alias existing) (ce_command existing) used_at_unix (ce_source existing)], added)
       | None => (entries ++ [mk_command_entry alias command used_at_unix source], added + 1)
       end.
(** [while entries.len() > MAX { entries.remove(0) }] *)
Fixpoint drop_oldest (entries : list CommandHistoryEntry) : list CommandHistoryEntry :=
  match entries with
  | [] => []
  | e :: rest => if MAX_COMMAND_FILE_ENTRIES <? zlen entries then drop_oldest rest else entries
  end.
(** Over the entries from the newest on, how many each host has so far. *)
Fixpoint newest_per_alias (per_alias : gmap str Z) (entries : list CommandHistoryEntry) : list CommandHistoryEntry :=
  match entries with
  | [] => []
  | e :: entries =>
      let count := default 0 (per_alias !! ce_alias e) in
      if count <? MAX_COMMANDS_PER_ALIAS then e :: newest_per_alias (<[ce_alias e := count + 1]> per_alias) entries
      else newest_per_alias per_alias entries
  end.
Definition trim_entries (entries : list CommandHistoryEntry) : list CommandHistoryEntry :=
  reverse (newest_per_alias ∅ (reverse (drop_oldest entries))).

(** How many were added, and what is written. *)
Definition append_commands (file : result (option str)) (alias : str) (commands : list str) (source : str) (used_at_unix : Z)
    : result (Z * str) :=
  entries ← read_commands file;
  let '(entries, added) := foldl (append_command alias source used_at_unix) (entries, 0) commands in
  Ok (added, write_commands (trim_entries entries)).

(** [for entry in …rev() { … output.push(…); if output.len() >= limit { break } }] *)
Fixpoint collect_commands (alias : str) (limit : Z) (output : list str) (entries : list CommandHistoryEntry) : list str :=
  match entries with
  | [] => output
  | e :: entries =>
      if bool_decide (ce_alias e = alias) && negb (bool_decide (ce_source e = lit "remote")) then
        let output := output ++ [ce_command e] in
        if limit <=? zlen output then output else collect_commands alias limit output entries
      else collect_commands alias limit output entries
  end.
Definition list_commands (file : result (option str)) (alias : str) (limit : Z) : result (list str) :=
  entries ← read_commands file; Ok (collect_commands alias limit [] (reverse entries)).

Definition is_remote (e : CommandHistoryEntry) : bool := bool_decide (ce_source e = lit "remote").
(** What is written over the file, if anything is. *)
Definition drop_remote_sources (file : result (option str)) : result (option str) :=
  entries ← read_commands file;
  if existsb is_remote entries then Ok (Some (write_commands (filter (λ e, is_remote e = false) entries))) else Ok None.

(** *** The record of runs *)
(** What is added to the end of the file. *)
Definition append (entry : HistoryEntryDto) : str := run_to_json entry ++ [LF].

Record HistoryPage := mk_page { pg_entries : list HistoryEntryDto; pg_total : Z; pg_page : Z; pg_page_size : Z }.
Definition entry_wanted (day_range : option (Z * Z)) (alias : option str) (entry : HistoryEntryDto) : bool :=
  match alias with Some alias => bool_decide (he_alias entry = alias) | None => true end &&
  match day_range with Some (start, end_) => (start <=? he_started_at_unix entry) && (he_started_at_unix entry <? end_) | None => true end.
Definition in_range (day_range : option (Z * Z)) (alias : option str) (line : str) : bool :=
  match run_from_json line with Some entry => entry_wanted day_range alias entry | None => false end.
Definition div_ceil (a b : Z) : Z := (a + b - 1) / b.
Definition saturating_sub (a b : Z) : Z := Z.max 0 (a - b).

Definition page (file : result (option str)) (requested : Z) (day_range : option (Z * Z)) (alias : option str) : result HistoryPage :=
  file ← file;
  match file with
  | None => Ok (mk_page [] 0 1 PAGE_SIZE)
  | Some text =>
      let matching := List.filter (in_range day_range alias) (lines text) in
      let total := zlen matching in
      let page := Z.min (Z.max requested 1) (Z.max (div_ceil total PAGE_SIZE) 1) in
      let end_ := saturating_sub total ((page - 1) * PAGE_SIZE) in
      let start := saturating_sub end_ PAGE_SIZE in
      entries ← mapM (λ line, with_context (run_from_json line) "运行记录损坏") (take (Z.to_nat (end_ - start)) (drop (Z.to_nat start) matching));
      Ok (mk_page (reverse entries) total page PAGE_SIZE)
  end.

(** The commands of the record, each once, newest first. *)
Fixpoint distinct_commands (alias : option str) (limit : Z) (seen : gset str) (output : list str) (ls : list str) : list str :=
  match ls with
  | [] => output
  | line :: ls =>
      match run_from_json line with
      | None => distinct_commands alias limit seen output ls
      | Some entry =>
          if match alias with Some alias => negb (bool_decide (he_alias entry = alias)) | None => false end
          then distinct_commands alias limit seen output ls
          else if bool_decide (he_command entry ∈ seen) then distinct_commands alias limit seen output ls
          else
            let output := output ++ [he_command entry] in
            if limit <=? zlen output then output
            else distinct_commands alias limit ({[he_command entry]} ∪ seen) output ls
      end
  end.
Definition commands (file : result (option str)) (alias : option str) (limit : Z) : result (list str) :=
  file ← file; Ok (match file with None => [] | Some text => distinct_commands alias limit ∅ [] (reverse (lines text)) end).

(** [list_command_history]: first the history, then what only the record has. *)
Definition merge_commands (output more : list str) : list str :=
  take 500 (foldl (λ output command, if bool_decide (command ∈ output) then output else output ++ [command]) output more).
(** [command_file] is read again after the cleaning, which writes [cleaned] when there is something to clean. *)
Definition list_command_history (command_file run_file : result (option str)) (alias : option str) : result (list str) :=
  cleaned ← drop_remote_sources command_file;
  let command_file := match cleaned with Some text => Ok (Some text) | None => command_file end in
  output ← match alias with Some alias => list_commands command_file alias 500 | None => Ok [] end;
  more ← commands run_file alias 500;
  Ok (merge_commands output more).
End history.

(** *** What is not recorded ([record_terminal_command]) *)
Definition password_options : list str := lit <$> ["mysql"; "mysqldump"; "mysqladmin"; "sshpass"; "psql"; "redis-cli"]%string.
(** [word.rsplit(['/', '\\']).next()] *)
Definition last_component (word : str) : str := default word (last (split_on (λ c, (c =? ch "/")%Z || (c =? 92)%Z) word)).
Definition secret_prefixes : list str := lit <$> ["pgpassword="; "--password="; "--passphrase="; "--secret="; "sshpass"]%string.
Definition secret_word (previous : option str) (word : str) : bool :=
  let lower := to_ascii_lowercase word in
  (starts_with lower (lit "-p") && (2 <? str_len word)%Z &&
   match previous with Some p => bool_decide (to_ascii_lowercase (last_component p) ∈ password_options) | None => false end) ||
  ((bool_decide (lower = lit "-p") || bool_decide (lower = lit "--password")) &&
   match previous with Some p => eq_ignore_ascii_case (last_component p) (lit "sshpass") | None => false end) ||
  existsb (starts_with lower) secret_prefixes.
Fixpoint secret_words (previous : option str) (words : list str) : bool :=
  match words with [] => false | w :: words => secret_word previous w || secret_words (Some w) words end.
Definition looks_like_inline_secret (command : str) : bool := secret_words None (split_whitespace command).

(** Whether a typed line is recorded, and how. *)
Definition terminal_command (command : str) : option str :=
  let command := trim command in
  if bool_decide (command = []) || (4096 <? zlen command)%Z then None
  else if existsb (λ c, is_control c && negb (c =? 9)%Z) command then None
  else if looks_like_inline_secret command then None
  else Some command.

(** ** Lists from their end *)
Section theorems.
Local Open Scope Z_scope.
Context `{HistoryJson}.

Definition newest {A} (n : nat) (l : list A) : list A := drop (length l - n) l.
Definition of_host (a : str) (es : list CommandHistoryEntry) : list CommandHistoryEntry := filter (λ e, ce_alias e = a) es.
Definition entry_key (e : CommandHistoryEntry) : str * str := (ce_alias e, ce_command e).

Lemma newest_reverse {A} n (l : list A) : newest n l = reverse (take n (reverse l)).
Proof. unfold newest. by rewrite take_reverse, reverse_involutive. Qed.
Lemma newest_length {A} n (l : list A) : (length (newest n l) ≤ n)%nat.
Proof. unfold newest. rewrite length_drop. lia. Qed.
Lemma newest_short {A} n (l : list A) : (length l ≤ n)%nat → newest n l = l.
Proof. intros Hl. unfold newest. by replace (length l - n)%nat with 0%nat by lia. Qed.

Lemma reverse_sublist {A} (l k : list A) : l `sublist_of` k → reverse l `sublist_of` reverse k.
Proof.
  induction 1 as [|x l k _ IH|x l k _ IH]; [done|by rewrite !reverse_cons; apply sublist_app|].
  rewrite reverse_cons. by apply sublist_inserts_r.
Qed.
Lemma fmap_sublist {A B} (f : A → B) (l k : list A) : l `sublist_of` k → f <$> l `sublist_of` f <$> k.
Proof. induction 1; csimpl; [done|by apply sublist_skip|by apply sublist_cons]. Qed.

(** ** A line is read back *)
Lemma json_line_readable l : json_line l → LF ∉ l ∧ last l ≠ Some CR ∧ trim l ≠ [].
Proof.
  intros (body & -> & Hb). split_and!.
  - rewrite elem_of_cons, elem_of_app, list_elem_of_singleton. intros [?|[?|?]]; done.
  - rewrite app_comm_cons, last_snoc. done.
  - rewrite trim_id; [done|done|]. by rewrite reverse_cons, reverse_app.
Qed.

Lemma command_lines_back es : lines (write_commands es) = command_to_json <$> es.
Proof.
  apply lines_unlines, Forall_fmap, Forall_true. intros e. cbn.
  destruct (json_line_readable _ (command_json_line e)) as (? & ? & _). done.
Qed.
Lemma read_write_commands es : read_commands (Ok (Some (write_commands es))) = Ok es.
Proof.
  cbn. f_equal. rewrite command_lines_back. induction es as [|e es IH]; [done|]. csimpl.
  destruct (json_line_readable _ (command_json_line e)) as (_ & _ & ?). rewrite bool_decide_eq_false_2 by done.
  by rewrite command_json_back, IH.
Qed.

(** ** The limits *)
Lemma drop_oldest_newest es : drop_oldest es = newest 5000 es.
Proof.
  induction es as [|e es IH]; [done|]. cbn [drop_oldest]. unfold MAX_COMMAND_FILE_ENTRIES in *.
  destruct (Z.ltb_spec 5000 (zlen (e :: es))) as [Hl|Hl]; cbn [length] in Hl.
  - rewrite IH. unfold newest. cbn [length]. by replace (S (length es) - 5000)%nat with (S (length es - 5000)) by lia.
  - by rewrite newest_short by (cbn; lia).
Qed.

Lemma newest_per_alias_sublist counts es : newest_per_alias counts es `sublist_of` es.
Proof.
  revert counts. induction es as [|e es IH]; intros counts; cbn; [done|]. case_match; [by apply sublist_skip|by apply sublist_cons].
Qed.
Lemma newest_per_alias_of_host counts es a :
  (∀ b, 0 ≤ default 0 (counts !! b)) →
  of_host a (newest_per_alias counts es) = take (500 - Z.to_nat (default 0 (counts !! a))) (of_host a es).
Proof.
  revert counts. induction es as [|e es IH]; intros counts Hc; cbn [newest_per_alias]; [symmetry; apply take_nil|].
  unfold MAX_COMMANDS_PER_ALIAS, of_host in *. pose proof (Hc (ce_alias e)) as He.
  assert (∀ b, 0 ≤ default 0 (<[ce_alias e:=default 0 (counts !! ce_alias e) + 1]> counts !! b)) as Hc'.
  { intros b. destruct (decide (ce_alias e = b)) as [<-|]; [rewrite lookup_insert_eq; cbn; lia|by rewrite lookup_insert_ne]. }
  destruct (decide (ce_alias e = a)) as [Ha|Ha].
  - rewrite (filter_cons_True (λ e, ce_alias e = a) e es) by done. destruct (Z.ltb_spec (default 0 (counts !! ce_alias e)) 500) as [Hl|Hl]; subst a.
    + rewrite filter_cons_True by done. rewrite IH by done. rewrite lookup_insert_eq. cbn [default].
      replace (500 - Z.to_nat (default 0%Z (counts !! ce_alias e)))%nat
        with (S (500 - Z.to_nat (default 0%Z (counts !! ce_alias e) + 1)%Z)) by lia. done.
    + rewrite IH by done. by replace (500 - Z.to_nat _)%nat with 0%nat by lia.
  - rewrite (filter_cons_False (λ e, ce_alias e = a) e es) by done. destruct (_ <? 500); [|by rewrite IH].
    rewrite filter_cons_False by done. by rewrite IH, lookup_insert_ne.
Qed.

Lemma of_host_reverse a es : of_host a (reverse es) = reverse (of_host a es).
Proof.
  unfold of_host. induction es as [|e es IH]; [done|]. rewrite reverse_cons, filter_app, IH. destruct (decide (ce_alias e = a)).
  - by rewrite !filter_cons_True, reverse_cons.
  - by rewrite !filter_cons_False, app_nil_r.
Qed.

Lemma trim_entries_sublist es : trim_entries es `sublist_of` es.
Proof.
  unfold trim_entries. rewrite drop_oldest_newest. trans (newest 5000 es); [|apply sublist_drop].
  rewrite <-(reverse_involutive (newest 5000 es)) at 2. apply reverse_sublist, newest_per_alias_sublist.
Qed.
Lemma trim_entries_length es : (length (trim_entries es) ≤ 5000)%nat.
Proof.
  unfold trim_entries. rewrite length_reverse. etransitivity; [apply sublist_length, newest_per_alias_sublist|].
  rewrite length_reverse, drop_oldest_newest. apply newest_length.
Qed.
Lemma trim_entries_of_host es a : of_host a (trim_entries es) = newest 500 (of_host a (newest 5000 es)).
Proof.
  unfold trim_entries. rewrite of_host_reverse, newest_per_alias_of_host by (intros; by rewrite lookup_empty).
  by rewrite lookup_empty, of_host_reverse, drop_oldest_newest, (newest_reverse 500).
Qed.

(** ** Recording commands *)
(** A command that is used becomes the newest. *)
Definition use (l : list str) (command : str) : list str :=
  let command := trim command in if bool_decide (command = []) then l else filter (λ c, c ≠ command) l ++ [command].

Lemma same_command_key alias command e : same_command alias command e = true ↔ entry_key e = (alias, command).
Proof. unfold same_command, entry_key. rewrite andb_true_iff, !bool_decide_eq_true. split; [intros [-> ->]; done|by intros [= -> ->]]. Qed.

Lemma append_command_step alias source now es n command :
  let es' := (append_command alias source now (es, n) command).1 in
  (∀ a, a ≠ alias → of_host a es' = of_host a es) ∧
  ce_command <$> of_host alias es' = use (ce_command <$> of_host alias es) command ∧
  (NoDup (entry_key <$> es) → NoDup (entry_key <$> es')).
Proof.
  unfold append_command, use. cbv zeta. set (c := trim command). case_bool_decide as Hc; cbn [fst]; [by split_and!|].
  assert (∀ a, a ≠ alias → of_host a (filter (λ e, same_command alias c e = false) es) = of_host a es) as Hother.
  { intros a Ha. unfold of_host. rewrite list_filter_filter. apply list_filter_iff. intros e.
    rewrite <-not_true_iff_false, same_command_key. unfold entry_key. split; [by intros [? _]|]. intros <-. split; [done|congruence]. }
  assert (ce_command <$> of_host alias (filter (λ e, same_command alias c e = false) es) = filter (λ d, d ≠ c) (ce_command <$> of_host alias es)) as Hsame.
  { unfold of_host. clear Hother. induction es as [|e es IH]; [done|]. destruct (same_command alias c e) eqn:Hs.
    - apply same_command_key in Hs as Hk. injection Hk as Ha Hcc.
      rewrite (filter_cons_False _ e) by congruence. rewrite (filter_cons_True (λ e, ce_alias e = alias) e) by done.
      rewrite fmap_cons, (filter_cons_False _ (ce_command e)) by (intros HH; done). exact IH.
    - rewrite (filter_cons_True (λ e, same_command alias c e = false) e) by done. destruct (decide (ce_alias e = alias)) as [Ha|Ha].
      + rewrite !(filter_cons_True (λ e, ce_alias e = alias) e) by done. rewrite !fmap_cons, filter_cons_True, IH; [done|].
        intros Hcc. assert (same_command alias c e = true) by (apply same_command_key; unfold entry_key; congruence). congruence.
      + by rewrite !(filter_cons_False (λ e, ce_alias e = alias) e). }
  assert (NoDup (entry_key <$> es) → NoDup (entry_key <$> filter (λ e, same_command alias c e = false) es)) as Hdistinct.
  { intros Hd. eapply sublist_NoDup; [exact Hd|]. apply fmap_sublist, sublist_filter. }
  assert (∀ e : CommandHistoryEntry, ce_alias e = alias → ce_command e = c →
    (∀ a, a ≠ alias → of_host a [e] = []) ∧ of_host alias [e] = [e] ∧ entry_key e = (alias, c)) as Hnew.
  { intros e <- <-. unfold of_host. split_and!; [|by rewrite filter_cons_True|done]. intros a Ha. by rewrite filter_cons_False. }
  destruct (List.find _ es) as [existing|] eqn:Hf; cbn [fst].
  - apply List.find_some in Hf as [_ [= Ha Hcc]%same_command_key]. rewrite Ha, Hcc.
    destruct (Hnew (mk_command_entry alias c now (ce_source existing)) eq_refl eq_refl) as (Hn1 & Hn2 & Hn3).
    unfold of_host in *. split_and!.
    + intros a Hne. by rewrite filter_app, Hother, Hn1, app_nil_r.
    + by rewrite filter_app, fmap_app, Hsame, Hn2.
    + intros Hd. rewrite fmap_app. apply NoDup_app. split_and!; [by apply Hdistinct| |apply NoDup_singleton].
      intros k (e & -> & [Hs _]%list_elem_of_filter)%list_elem_of_fmap Hin%list_elem_of_singleton. rewrite Hn3 in Hin.
      apply same_command_key in Hin. congruence.
  - pose proof (List.find_none _ _ Hf) as Hnone.
    assert (filter (λ e, same_command alias c e = false) es = es) as Hall.
    { clear -Hnone. induction es as [|e es IH]; [done|]. rewrite filter_cons_True by (apply Hnone; by left).
      f_equal. apply IH. intros x Hx. apply Hnone. by right. }
    destruct (Hnew (mk_command_entry alias c now source) eq_refl eq_refl) as (Hn1 & Hn2 & Hn3).
    rewrite Hall in *. unfold of_host in *. split_and!.
    + intros a Hne. by rewrite filter_app, Hn1, app_nil_r.
    + rewrite filter_app, fmap_app, Hn2. by f_equal.
    + intros Hd. rewrite fmap_app. apply NoDup_app. split_and!; [done| |apply NoDup_singleton].
      intros k (e & -> & Hin)%list_elem_of_fmap Hk%list_elem_of_singleton. rewrite Hn3 in Hk. apply same_command_key in Hk.
      rewrite Hnone in Hk; [done|]. by apply list_elem_of_In.
Qed.

Lemma append_all_steps alias source now commands es n :
  let es' := (foldl (append_command alias source now) (es, n) commands).1 in
  (∀ a, a ≠ alias → of_host a es' = of_host a es) ∧
  ce_command <$> of_host alias es' = foldl use (ce_command <$> of_host alias es) commands ∧
  (NoDup (entry_key <$> es) → NoDup (entry_key <$> es')).
Proof.
  revert es n. induction commands as [|c commands IH]; intros es n; cbn [foldl]; [done|].
  pose proof (append_command_step alias source now es n c) as (H1 & H2 & H3).
  destruct (append_command alias source now (es, n) c) as [es1 n1]. cbn [fst] in *. destruct (IH es1 n1) as (H4 & H5 & H6).
  cbv zeta. split_and!; [|by rewrite H5, H2|by auto]. intros a Ha. by rewrite H4, H1.
Qed.

(** C33: recording commands and reading the file again gives the history after its use: the
    other hosts' entries as they were; this host's commands in the order of their last use,
    blank ones left out; each command of a host once if that was so; and of that the newest
    5000 of all and then the newest 500 of each host, whatever the file held before. *)
Theorem history_is_the_last_uses file es alias commands source now added text :
  read_commands file = Ok es → append_commands file alias commands source now = Ok (added, text) →
  ∃ touched kept, read_commands (Ok (Some text)) = Ok kept ∧
    (∀ a, a ≠ alias → of_host a touched = of_host a es) ∧
    ce_command <$> of_host alias touched = foldl use (ce_command <$> of_host alias es) commands ∧
    (NoDup (entry_key <$> es) → NoDup (entry_key <$> kept)) ∧
    kept `sublist_of` touched ∧ zlen kept ≤ 5000 ∧ (∀ a, of_host a kept = newest 500 (of_host a (newest 5000 touched))).
Proof.
  intros Hr. unfold append_commands. rewrite Hr. cbn [mbind result_bind].
  pose proof (append_all_steps alias source now commands es 0) as (H1 & H2 & H3).
  destruct (foldl _ (es, 0) commands) as [touched n]. cbn [fst] in *. intros [= <- <-].
  exists touched, (trim_entries touched). rewrite read_write_commands. pose proof (trim_entries_sublist touched) as Hsub.
  pose proof (trim_entries_length touched). split_and!; try done; [|lia|apply trim_entries_of_host].
  intros Hd. eapply sublist_NoDup; [by apply H3|]. by apply fmap_sublist.
Qed.

(** ** Listing *)
Definition shown_for (alias : str) (e : CommandHistoryEntry) : Prop := ce_alias e = alias ∧ ce_source e ≠ lit "remote".
#[local] Instance shown_dec alias e : Decision (shown_for alias e).
Proof. unfold shown_for. apply _. Defined.

Lemma collect_commands_spec alias limit output es :
  zlen output < limit → collect_commands alias limit output es = take (Z.to_nat limit) (output ++ (ce_command <$> filter (shown_for alias) es)).
Proof.
  revert output. induction es as [|e es IH]; intros output Hl; cbn [collect_commands].
  { rewrite app_nil_r, take_ge; [done|lia]. }
  destruct (decide (shown_for alias e)) as [[Ha Hs]|Hn].
  - rewrite bool_decide_eq_true_2, bool_decide_eq_false_2 by done. cbn [andb negb]. rewrite filter_cons_True by (by split).
    rewrite fmap_cons, (cons_middle _ _ (ce_command <$> filter (shown_for alias) es)), app_assoc.
    destruct (Z.leb_spec limit (zlen (output ++ [ce_command e]))) as [Hle|Hlt]; [|by apply IH].
    rewrite length_app in Hle; cbn [length] in Hle. rewrite take_app_le, take_ge; [done|..]; rewrite length_app; cbn [length]; lia.
  - rewrite filter_cons_False by done. assert (bool_decide (ce_alias e = alias) && negb (bool_decide (ce_source e = lit "remote")) = false) as ->.
    { unfold shown_for in Hn. do 2 case_bool_decide; tauto. }
    by apply IH.
Qed.

(** The newest commands of the host first, at most as many as asked for. *)
Theorem list_commands_newest_first file es alias limit :
  1 ≤ limit → read_commands file = Ok es →
  list_commands file alias limit = Ok (take (Z.to_nat limit) (reverse (ce_command <$> filter (shown_for alias) es))).
Proof.
  intros Hl Hr. unfold list_commands. rewrite Hr. cbn [mbind result_bind]. f_equal. rewrite collect_commands_spec by (cbn; lia).
  cbn [app]. f_equal. rewrite <-fmap_reverse. f_equal. clear. induction es as [|e es IH]; [done|].
  rewrite reverse_cons, filter_app, IH. destruct (decide (shown_for alias e)).
  - by rewrite !filter_cons_True, reverse_cons.
  - by rewrite !filter_cons_False, app_nil_r.
Qed.

(** ** Pages *)
(** The entries that are asked for, oldest first. *)
Definition matching_runs (text : str) (day_range : option (Z * Z)) (alias : option str) : list HistoryEntryDto :=
  omap (λ line, entry ← run_from_json line; if entry_wanted day_range alias entry then Some entry else None) (lines text).
(** Entries [50 k] to [50 k + 49], counted from the newest. *)
Definition page_entries (k : nat) (es : list HistoryEntryDto) : list HistoryEntryDto :=
  let end_ := (length es - 50 * k)%nat in let start := (end_ - 50)%nat in reverse (take (end_ - start) (drop start es)).
Definition page_count (es : list HistoryEntryDto) : nat := Nat.max 1 (Z.to_nat (div_ceil (zlen es) 50)).

Lemma matching_lines ls day_range alias :
  Forall2 (λ line e, run_from_json line = Some e) (List.filter (in_range day_range alias) ls)
    (omap (λ line, entry ← run_from_json line; if entry_wanted day_range alias entry then Some entry else None) ls).
Proof.
  induction ls as [|l ls IH]; [done|]. csimpl. unfold in_range at 1. destruct (run_from_json l) as [e|] eqn:He; cbn; [|done].
  destruct (entry_wanted day_range alias e); [by constructor|done].
Qed.
Lemma read_entries ls es e :
  Forall2 (λ line e, run_from_json line = Some e) ls es → mapM (λ line, with_context (run_from_json line) e) ls = Ok es.
Proof. induction 1 as [|l x ls es Hx _ IH]; [done|]. cbn. rewrite Hx. cbn. cbn in IH. by rewrite IH. Qed.

Lemma div_ceil_bounds n : 0 ≤ n → 0 ≤ div_ceil n 50 ∧ 50 * div_ceil n 50 - 50 < n + (if n =? 0 then 1 else 0) ∧ n ≤ 50 * div_ceil n 50.
Proof. intros Hn. unfold div_ceil. destruct (Z.eqb_spec n 0); Z.to_euclidean_division_equations; lia. Qed.

Lemma page_spec text requested day_range alias :
  let es := matching_runs text day_range alias in
  let p := Z.min (Z.max requested 1) (Z.of_nat (page_count es)) in
  page (Ok (Some text)) requested day_range alias = Ok (mk_page (page_entries (Z.to_nat (p - 1)) es) (zlen es) p 50).
Proof.
  cbv zeta. unfold page. cbn [mbind result_bind]. pose proof (matching_lines (lines text) day_range alias) as Hm.
  change (omap _ (lines text)) with (matching_runs text day_range alias) in Hm.
  set (es := matching_runs text day_range alias) in *. set (ls := List.filter _ _) in *.
  rewrite (Forall2_length _ _ _ Hm). unfold PAGE_SIZE, page_count, page_entries.
  pose proof (div_ceil_bounds (zlen es) ltac:(lia)) as (Hd & _).
  set (p := Z.min _ _). assert (p = Z.min (Z.max requested 1) (Z.of_nat (Nat.max 1 (Z.to_nat (div_ceil (zlen es) 50))))) as <- by lia.
  assert (1 ≤ p) as Hp by lia. clearbody p. unfold saturating_sub.
  rewrite (read_entries _ (take (length es - 50 * Z.to_nat (p - 1) - (length es - 50 * Z.to_nat (p - 1) - 50))
    (drop (length es - 50 * Z.to_nat (p - 1) - 50) es))); [done|].
  replace (Z.to_nat (Z.max 0 (Z.max 0 (zlen es - (p - 1) * 50) - 50))) with (length es - 50 * Z.to_nat (p - 1) - 50)%nat by lia.
  replace (Z.to_nat (Z.max 0 (zlen es - (p - 1) * 50) - Z.max 0 (Z.max 0 (zlen es - (p - 1) * 50) - 50)))
    with (length es - 50 * Z.to_nat (p - 1) - (length es - 50 * Z.to_nat (p - 1) - 50))%nat by lia.
  by apply Forall2_take, Forall2_drop.
Qed.

Lemma pages_concat k es : concat ((λ k, page_entries k es) <$> seq 0 k) = reverse (drop (length es - 50 * k) es).
Proof.
  induction k as [|k IH]; [by rewrite Nat.mul_0_r, Nat.sub_0_r, drop_all|].
  rewrite seq_S, fmap_app, concat_app, IH. cbn [fmap list_fmap concat]. rewrite app_nil_r. unfold page_entries.
  set (end_ := (length es - 50 * k)%nat). replace (length es - 50 * S k)%nat with (end_ - 50)%nat by lia.
  rewrite <-reverse_app. f_equal. etransitivity; [|apply (take_drop (end_ - (end_ - 50)))].
  f_equal. rewrite drop_drop. f_equal. lia.
Qed.

(** C34: the pages of the record are what was asked for, each entry once, newest first: pages 1
    to the last together are the wanted entries in reverse, each page but the last holds 50 and
    the last at most that; a number below 1 is page 1, one beyond the last page is the last; and
    a line that cannot be read is passed over, never an error. *)
Theorem pages_are_the_record text day_range alias :
  let es := matching_runs text day_range alias in
  ∃ ps : list HistoryPage, length ps = page_count es ∧
    (∀ k p, ps !! k = Some p →
       page (Ok (Some text)) (Z.of_nat k + 1) day_range alias = Ok p ∧ pg_page p = Z.of_nat k + 1 ∧ pg_total p = zlen es ∧
       zlen (pg_entries p) ≤ 50 ∧ ((S k < page_count es)%nat → zlen (pg_entries p) = 50)) ∧
    concat (pg_entries <$> ps) = reverse es ∧
    (∀ requested, ∃ p, p ∈ ps ∧ page (Ok (Some text)) requested day_range alias = Ok p ∧
       pg_page p = Z.max 1 (Z.min requested (zlen ps))).
Proof.
  cbv zeta. set (es := matching_runs text day_range alias).
  set (ps := (λ k, mk_page (page_entries k es) (zlen es) (Z.of_nat k + 1) 50) <$> seq 0 (page_count es)).
  pose proof (div_ceil_bounds (zlen es) ltac:(lia)) as (Hd & Hlow & Hup).
  assert (length ps = page_count es) as Hlen by (unfold ps; by rewrite length_fmap, length_seq).
  assert (1 ≤ page_count es)%nat as Hone by (unfold page_count; lia).
  exists ps. split_and!; [done| | |].
  - intros k p (j & -> & [-> Hk]%lookup_seq)%list_lookup_fmap_Some. cbn [pg_page pg_total pg_entries]. split_and!; try done.
    + rewrite page_spec. fold es. replace (Z.min _ _) with (Z.of_nat k + 1) by lia. by replace (Z.to_nat (Z.of_nat k + 1 - 1)) with k by lia.
    + unfold page_entries. rewrite length_reverse, length_take. lia.
    + intros HS. unfold page_entries. rewrite length_reverse, length_take, length_drop. unfold page_count in HS.
      destruct (Z.eqb_spec (zlen es) 0); lia.
  - unfold ps. rewrite <-list_fmap_compose. change (pg_entries ∘ _) with (λ k, page_entries k es). rewrite pages_concat.
    replace (length es - 50 * page_count es)%nat with 0%nat by (unfold page_count; lia). done.
  - intros requested. set (k := Z.to_nat (Z.max 1 (Z.min requested (zlen ps)) - 1)).
    exists (mk_page (page_entries k es) (zlen es) (Z.of_nat k + 1) 50). split_and!.
    + apply list_elem_of_fmap. exists k. split; [done|]. apply elem_of_seq. lia.
    + rewrite page_spec. fold es. replace (Z.min _ _) with (Z.of_nat k + 1) by lia. by replace (Z.to_nat (Z.of_nat k + 1 - 1)) with k by lia.
    + cbn. lia.
Qed.

(** ** The commands beside a terminal *)
Lemma distinct_commands_spec alias limit seen output ls :
  (∀ c, c ∈ output → c ∈ seen) → NoDup output → zlen output < limit →
  NoDup (distinct_commands alias limit seen output ls) ∧ zlen (distinct_commands alias limit seen output ls) ≤ limit.
Proof.
  revert seen output. induction ls as [|l ls IH]; intros seen output Hs Hd Hl; cbn [distinct_commands]; [by split; [|lia]|].
  destruct (run_from_json l) as [e|]; [|by apply IH]. case_match; [by apply IH|]. case_bool_decide as Hin; [by apply IH|].
  assert (NoDup (output ++ [he_command e])) as Hd'.
  { apply NoDup_app. split_and!; [done| |apply NoDup_singleton]. intros c Hc ->%list_elem_of_singleton. by apply Hin, Hs. }
  cbv zeta. destruct (Z.leb_spec limit (zlen (output ++ [he_command e]))).
  - split; [done|]. rewrite length_app. cbn [length]. lia.
  - apply IH; [|done|done]. intros c. rewrite elem_of_app, list_elem_of_singleton. set_solver.
Qed.
Lemma merge_commands_distinct output more : NoDup output → NoDup (merge_commands output more) ∧ zlen (merge_commands output more) ≤ 500.
Proof.
  intros Hd. unfold merge_commands. split; [|rewrite length_take; lia]. eapply sublist_NoDup; [|apply sublist_take].
  revert output Hd. induction more as [|c more IH]; intros output Hd; cbn [foldl]; [done|]. apply IH. case_bool_decide as Hc; [done|].
  apply NoDup_app. split_and!; [done| |apply NoDup_singleton]. by intros d Hin ->%list_elem_of_singleton.
Qed.
Lemma shown_commands_distinct alias es : NoDup (entry_key <$> es) → NoDup (ce_command <$> filter (shown_for alias) es).
Proof.
  induction es as [|e es IH]; [intros; apply NoDup_nil_2|]. rewrite fmap_cons. intros [Hn Hd]%NoDup_cons. specialize (IH Hd).
  destruct (decide (shown_for alias e)) as [He|He]; [|by rewrite filter_cons_False]. rewrite filter_cons_True, fmap_cons by done. apply NoDup_cons. split; [|done].
  intros (e' & Hc & [[Ha _] Hin]%list_elem_of_filter)%list_elem_of_fmap. apply Hn, list_elem_of_fmap. exists e'. split; [|done].
  unfold entry_key. destruct He as [He _]. congruence.
Qed.

(** What the panel shows is at most 500 commands, each once. *)
Theorem command_history_distinct command_file run_file alias es out :
  read_commands command_file = Ok es → NoDup (entry_key <$> es) →
  list_command_history command_file run_file alias = Ok out → NoDup out ∧ zlen out ≤ 500.
Proof.
  intros Hr Hd. unfold list_command_history. intros (cleaned & Hc & Hrest)%bind_ok. apply bind_ok in Hrest as (output & Ho & Hrest).
  apply bind_ok in Hrest as (more & _ & [= <-]). apply merge_commands_distinct.
  destruct alias as [alias|]; [|injection Ho as <-; apply NoDup_nil_2].
  assert (∀ file es', read_commands file = Ok es' → NoDup (entry_key <$> es') → list_commands file alias 500 = Ok output → NoDup output) as Hlist.
  { intros file es' Hr' Hd'. rewrite (list_commands_newest_first file es' alias 500 ltac:(lia) Hr'). intros [= <-].
    eapply sublist_NoDup; [|apply sublist_take]. rewrite reverse_Permutation. by apply shown_commands_distinct. }
  revert Hc. unfold drop_remote_sources. rewrite Hr. cbn [mbind result_bind]. destruct (existsb is_remote es); intros [= <-].
  - eapply Hlist; [apply read_write_commands| |exact Ho]. eapply sublist_NoDup; [exact Hd|]. apply fmap_sublist, sublist_filter.
  - by eapply Hlist.
Qed.
End theorems.

(** What is typed in a terminal is recorded only as one printable line of at most 4096
    characters in which no secret is recognised. *)
Theorem terminal_command_recorded typed command :
  terminal_command typed = Some command →
  command = trim typed ∧ command ≠ [] ∧ (zlen command ≤ 4096)%Z ∧ Forall (λ c, is_control c = false ∨ c = 9%Z) command ∧
  looks_like_inline_secret command = false.
Proof.
  unfold terminal_command. case_bool_decide as He; [done|]. cbn [orb]. destruct (Z.ltb_spec 4096 (zlen (trim typed))); [done|].
  destruct (existsb _ _) eqn:Hc; [done|]. destruct (looks_like_inline_secret _) eqn:Hs; [done|]. intros [= <-]. split_and!; try done.
  apply Forall_forall. intros c Hin. destruct (is_control c) eqn:Hcc; [|by left]. right.
  destruct (Z.eqb_spec c 9) as [|Hne]; [done|]. apply not_true_iff_false in Hc. destruct Hc. apply existsb_exists.
  exists c. split; [by apply list_elem_of_In|]. by rewrite Hcc, (proj2 (Z.eqb_neq c 9) Hne).
Qed.

Module Examples.
(** A line for every entry: its number, in binary. *)
Fixpoint bits (p : positive) : str := match p with xH => [] | xO p => ch "0" :: bits p | xI p => ch "1" :: bits p end.
Fixpoint bits_number (s : str) : positive := match s with [] => xH | c :: s => if (c =? ch "0")%Z then xO (bits_number s) else xI (bits_number s) end.
Definition braced (p : positive) : str := ch "{" :: bits p ++ [ch "}"].
Definition unbraced (s : str) : option positive :=
  match s with _ :: rest => match reverse rest with _ :: digits => Some (bits_number (reverse digits)) | [] => None end | [] => None end.
Lemma unbraced_braced p : unbraced (braced p) = Some p.
Proof.
  unfold unbraced, braced. rewrite reverse_app. change (reverse [ch "}"]) with [ch "}"]. cbn [app]. rewrite reverse_involutive.
  f_equal. induction p as [p IH|p IH|]; cbn; by rewrite ?IH.
Qed.
Lemma braced_line p : json_line (braced p).
Proof.
  exists (bits p). split; [done|]. induction p as [p IH|p IH|]; cbn; [..|by intros ?%not_elem_of_nil]; (intros [?|?]%elem_of_cons; [done|by apply IH]).
Qed.
Definition command_tuple (e : CommandHistoryEntry) := (ce_alias e, ce_command e, ce_used_at_unix e, ce_source e).
Definition run_tuple (e : HistoryEntryDto) :=
  (he_id e, he_alias e, he_username e, he_source e, he_command e, (he_exit_status e, he_succeeded e, he_output_preview e, he_started_at_unix e, he_duration_ms e)).
Definition command_of (p : positive) : option CommandHistoryEntry :=
  match decode (A := str * str * Z * str) p with Some (a, c, t, source) => Some (mk_command_entry a c t source) | None => None end.
Definition run_of (p : positive) : option HistoryEntryDto :=
  match decode (A := str * str * option str * option str * str * (option Z * bool * str * Z * Z)) p with
  | Some (id, a, u, source, c, (x, ok, o, t, d)) => Some (mk_run id a u source c x ok o t d)
  | None => None
  end.
#[export] Program Instance numbered_json : HistoryJson := {
  command_to_json e := braced (encode (command_tuple e));
  command_from_json s := unbraced s ≫= command_of;
  run_to_json e := braced (encode (run_tuple e));
  run_from_json s := unbraced s ≫= run_of }.
Next Obligation. intros e. cbv beta. rewrite unbraced_braced. cbn [mbind option_bind]. unfold command_of. rewrite decode_encode. by destruct e. Qed.
Next Obligation. intros e. apply braced_line. Qed.
Next Obligation. intros e. cbv beta. rewrite unbraced_braced. cbn [mbind option_bind]. unfold run_of. rewrite decode_encode. by destruct e. Qed.
Next Obligation. intros e. apply braced_line. Qed.

Definition entry (alias command : string) (used : Z) (source : string) : CommandHistoryEntry :=
  mk_command_entry (lit alias) (lit command) used (lit source).
Definition earlier : list CommandHistoryEntry :=
  [entry "web" "ls" 1 "local"; entry "db" "psql" 2 "terminal"; entry "web" "top" 3 "remote"; entry "web" "pwd" 4 "local"].
Definition recorded (file : result (option str)) (cs : list string) : result (Z * str) :=
  append_commands file (lit "web") (lit <$> cs) (lit "terminal") 9.

Example used_again :
  (list_commands ((λ r, Some r.2) <$> recorded (Ok (Some (write_commands earlier))) ["ls"; "  "; " make "]%string) (lit "web") 10) =
    Ok [lit "make"; lit "ls"; lit "pwd"] ∧
  (fst <$> recorded (Ok None) ["ls"; "ls"]%string) = Ok 1%Z.
Proof. by vm_compute. Qed.

Lemma history_is_the_last_uses_witness :
  ∃ kept, read_commands ((λ r, Some r.2) <$> recorded (Ok (Some (write_commands earlier))) ["ls"]%string) = Ok kept ∧ (zlen kept ≤ 5000)%Z.
Proof.
  destruct (recorded (Ok (Some (write_commands earlier))) ["ls"]%string) as [[added text]|e] eqn:Hr; [|exfalso; by vm_compute in Hr].
  destruct (history_is_the_last_uses (Ok (Some (write_commands earlier))) earlier (lit "web") _ (lit "terminal") 9 added text
    (read_write_commands earlier) Hr) as (touched & kept & Hk & _ & _ & _ & _ & Hl & _).
  exists kept. exact (conj Hk Hl).
Defined.

(** A command that was once taken from the host's own history keeps that source when it is used
    again: it stays hidden, and the next cleaning removes it. *)
Example used_again_from_remote :
  list_commands ((λ r, Some r.2) <$> recorded (Ok (Some (write_commands earlier))) ["top"]%string) (lit "web") 10 = Ok [lit "pwd"; lit "ls"].
Proof. by vm_compute. Qed.

(** A password glued to [-p] is recognised only right after the program's name. *)
Example inline_secrets :
  terminal_command (lit "mysql -pS3cret db") = None ∧ terminal_command (lit "sshpass -p hunter2 ssh user@x") = None ∧
  terminal_command (lit "PGPASSWORD=abc psql -h db") = None ∧ terminal_command (lit "docker ps -a") = Some (lit "docker ps -a").
Proof. by vm_compute. Qed.
Example separated_secret_is_recorded :
  terminal_command (lit "mysql -u root -pS3cret db") = Some (lit "mysql -u root -pS3cret db").
Proof. by vm_compute. Qed.

Definition demo_run (n : Z) : HistoryEntryDto := mk_run (dec_of n) (lit "test") None None (lit "ls") (Some 0%Z) true [] n 1.
Definition runs_file : str := concat (append ∘ demo_run ∘ Z.of_nat <$> seq 0 123).
Example three_pages :
  ((λ p, (length (pg_entries p), pg_page p, he_id <$> head (pg_entries p))) <$> page (Ok (Some runs_file)) 1 None None) = Ok (50%nat, 1%Z, Some (lit "122")) ∧
  ((λ p, (length (pg_entries p), pg_page p, he_id <$> last (pg_entries p))) <$> page (Ok (Some runs_file)) usize_max None None) = Ok (23%nat, 3%Z, Some (lit "0")).
Proof. by vm_compute. Qed.
End Examples.
